(* ===== verification/_CoqProject ===== *)
-Q . S2P
Prelude.v
Sort.v
Gmp.v
FastRational.v
FastRationalFacts.v
FastRationalInt.v
FastRationalProps.v
Number.v
Lex.v
Delta.v
NatSet.v
SatLits.v
Polynomial.v
Tableau.v
TableauFacts.v
LABounds.v
LABuild.v
LRAModel.v
Simplex.v
SimplexFacts.v
SimplexSelect.v
SimplexLoop.v
SimplexClient.v
SimplexSession.v
SimplexTheorems.v
DiffGraph.v
StpNum.v
Terms.v
TSolver.v
StpStore.v
StpSearch.v
StpInvariant.v
StpSolver.v
StpBacktrack.v
StpExplain.v
StpModel.v
StpRefine.v
StpReach.v
StpTheorems.v
ArithTerms.v
LASolver.v
LAMapper.v
LARegister.v
LAAtoms.v
LADeclare.v
LASearch.v
LASteps.v
LAReach.v
LATheorems.v
BoolTerms.v
BoolFacts.v
BoolConnectives.v
BoolValues.v
TermMapper.v
TermVisitor.v
BoolTheorems.v
Cnfizer.v
CnfSpec.v
CnfTseitin.v
CnfAssert.v
CnfSolve.v
CnfReach.v
CnfExample.v
CnfTheorems.v
Heap.v
SatData.v
SatCore.v
SatSpec.v
SatPropagate.v
SatInv.v
SatAnalyze.v
SatResolve.v
SatConflict.v
SatLearnt.v
SatReduce.v
SatFinal.v
SatSearch.v
