(* ===== verification/Prelude.v ===== *)
(** * OpenSMT2: a verification development of its arithmetic core

    OpenSMT2 is an SMT solver in C++ (src/src).  A CDCL SAT solver asserts
    literals to theory solvers through the interface of tsolvers/TSolver.h:
    atoms are declared, literals are asserted level by level, the asserted set
    is checked, conflicts and deductions are handed back as literals, levels are
    popped, and at the end a model is asked for.  In front of the SAT solver,
    formulas are built by the term manager and converted to clauses.  This
    development models the arithmetic solvers behind that interface, down to the
    rational numbers they compute with, and the conversion of formulas, and
    proves that what they answer is true.

    ** The layers

    - Numbers.  [Gmp], [FastRational] model common/FastRational.h/.cc: rationals
      as pairs of machine words with a fall-back to GMP, the overflow tests and
      the choice of the representation as written; GMP is a class of operations
      with their documented laws.  [FastRationalFacts], [FastRationalInt],
      [FastRationalProps] prove the operations exact.  [Number] is the interface
      the solvers use; the C++ class and the rationals of the standard library
      are its instances.  [Lex], [Delta]: lasolver/Delta.h/.cc, rationals with
      an infinitesimal, compared lexicographically.
    - Containers.  [Sort]: minisat/mtl/Sort.h.  [NatSet]: common/NatSet.h, a set
      with a stamp that wraps around.
    - The simplex solver, tsolvers/lasolver.  [Polynomial], [Tableau] with
      [TableauFacts] (Polynomial.h, Tableau.cc): rows, columns, pivots, rows
      kept aside while they have no bounds.  [LABounds], [LABuild]
      (LABounds.cc): the ordered bound lists.  [LRAModel] (LRAModel.cc):
      assignments and stacks of bounds.  [Simplex] (Simplex.cc) with
      [SimplexFacts] (pivots and the buffer of bounds), [SimplexSelect] (the
      choice of variables, conflicts, Bland's rule), [SimplexLoop] (the loop and
      its termination), [SimplexClient] (asserting and taking back bounds).
      [SimplexSession] gives the states a client reaches as an inductive
      relation with its invariant, and turns values with infinitesimals into
      rationals; [SimplexTheorems] states what clients rely on.
    - The linear arithmetic solver.  [ArithTerms] (logics/ArithLogic.cc,
      [Logic::mkFun], pterms/PtStore.cc): hash-consed terms and their negation.
      [LASolver] (LASolver.cc, LAVarMapper.cc): all operations of the solver but
      the search for integer solutions.  [LAMapper], [LARegister], [LAAtoms],
      [LADeclare] prove that the rows and bounds it hands to the simplex solver
      mean what the terms mean.  [LASearch], [LASteps]: the invariant of a
      search, levels of literals on top of a session of the simplex solver, and
      that the operations keep it; [LAReach] gives the states a caller reaches as
      an inductive relation, the models, and a run on a small problem;
      [LATheorems] states what callers rely on.
    - The difference-logic solvers, tsolvers/stpsolver.  [DiffGraph]: graphs,
      shortest distances and potentials, independent of the code.  [StpNum]
      (SafeInt.h, Converter.h), [Terms] and [TSolver] (the base class),
      [StpStore] (store and mapper), [StpSearch] (the graph manager's
      searches), [StpSolver] (the solver, its models, IDLSolver.h and
      RDLSolver.h); [StpInvariant], [StpBacktrack], [StpExplain], [StpModel],
      [StpRefine], [StpReach] prove the invariant of its reachable states,
      [StpTheorems] the properties.
    - From formulas to clauses.  [SatLits] (minisat/core/SolverTypes.h):
      literals.  [BoolTerms] (logics/Logic.cc, pterms/PtStore.cc): the store of
      Boolean terms, the type check, hash-consing, and the constructors [mkAnd],
      [mkOr], [mkNot], ... with all their simplifications; [BoolFacts] and
      [BoolConnectives] prove them, [BoolValues] gives terms their values.
      [TermMapper] (cnfizers/TermMapper.cc): terms and literals.  [TermVisitor]
      (common/TreeOps.h, [Logic::getNestedBoolRoots]): traversals with marks.
      [Cnfizer] (Cnfizer.cc, Tseitin.cc): the recognition of clauses, de Morgan,
      Tseitin's clauses, frames and their activation literals, [solve] and
      [getTermValue], on top of the classes [SatSolver], [SatSolverLaws] and
      [SatSolverDecides], which say what the conversion needs of a SAT solver.
      [CnfSpec] is the meaning of a set of clauses over the terms and the
      invariant, [CnfTseitin], [CnfAssert], [CnfSolve] prove that the operations
      keep it, [CnfReach] is the relation of the runs, [CnfExample] a SAT solver
      that enumerates valuations and a run with it.  [BoolTheorems] and
      [CnfTheorems] state the properties.

    ** How the code is modelled

    A class is a record, a method a function to [res], the monad of this file:
    a run returns a value or stops with the reason (an assertion, an exception,
    an index out of range, a signed overflow).  Loops over containers are folds
    ([foldM]); other loops run on fuel, and their theorems say how much is
    enough: [checkSimplex] takes an exponent [k] for [2 ^ k] rounds and
    [2 n + 2] is enough for [n] variables, as heuristic pivots are at most [n]
    and Bland's rule visits no basis twice; [sort] and the searches of the
    difference-logic solver bring their own fuel; a term is negated with its
    number as fuel, as arguments are older than terms; the traversals of terms
    run on [fuel_for] the size of the store, and those that visit a shared term
    again on [tree_fuel], which bounds the occurrences of terms below a term.  [wp] states partial
    results, and with no error allowed, total ones.

    References into a region allocator are the numbers of their objects in the
    order of creation; sentinels ([LVRef::Undef], [PTRef_Undef]) are [None];
    counters of 32 bits whose wrap-around would need as many objects are
    natural numbers, but the arithmetic of FastRational, SafeInt and the stamp
    of nat_set keep their widths.  The order in which a hash table is traversed
    is an argument.

    ** The properties

    The linear arithmetic solver, in every state a caller reaches: [check]
    answers true only with rational values that satisfy the accepted literals,
    and false only with a conflict no integer values (where the sort is)
    satisfy; accepted and deduced literals follow from the recorded ones; models
    satisfy; backtracking recovers from conflicts.  Over the reals [check]
    decides.  The numbers are exact, whatever representation is chosen.  The simplex
    solver ends, decides whether bounds have a solution, explains conflicts by
    Farkas certificates, gives rational models and undoes bounds on
    backtracking.  The difference-logic solver answers correctly in every
    reachable state: verdicts, deductions, conflicts, reasons, backtracking and
    models.  The constructors of Boolean terms return terms with the value of
    the connective, and share terms.  After any sequence of making terms, giving
    formulas to frames and solving, the answer is right for the formulas of the
    enabled frames, and the values reported come from one of their models.  Witnesses run the functions on concrete inputs.

    ** Not modelled

    Printing, statistics and configuration; the memory pools.  The search for
    integer solutions by splits and cuts (so over the integers a true answer of
    the model's [check] is about the relaxation only), interpolation and its
    partitions of formulas.  The conversion treats if-then-else terms as free
    terms, as the code does before it attaches their definitions, and the SAT
    solver below it is an interface without theories.  The e-graph, bit-vectors,
    arrays, preprocessing, parsers and the API.  The formal statements
    assume the protocol of the callers in THandler.cc: a literal is asserted on
    a level of its own, and backtracking goes back at least to the last
    consistent check. *)

From stdpp Require Export prelude list.
From Stdlib Require Export ZArith QArith Qcanon.
From Stdlib Require Import Lqa Lia Znumtheory.

#[global] Open Scope Z_scope.

(** ** Results of fallible code

    [Err] carries the reason a run of the C++ code does not return a value:
    a call of [abort()], an exception, an operation whose behaviour the
    language leaves undefined, a violated precondition of a container, or
    (for loops run on fuel) exhausted fuel. *)
Inductive error : Type :=
| Abort_called
| Division_by_zero
| Signed_overflow
| Std_overflow_error
| Std_underflow_error
| Osmt_exception
| Out_of_range
| Assertion_failed
| Out_of_fuel.

Inductive res (A : Type) : Type :=
| Ok (a : A)
| Err (e : error).
Arguments Ok {A} a.
Arguments Err {A} e.

#[global] Instance error_eq_dec : EqDecision error.
Proof. solve_decision. Defined.

Definition rbind {A B : Type} (m : res A) (k : A → res B) : res B :=
  match m with Ok a => k a | Err e => Err e end.

Declare Scope res_scope.
Delimit Scope res_scope with res.
Notation "'let!' x ':=' m 'in' k" := (rbind m (λ x, k))
  (at level 10, x pattern, m at level 100, k at level 200) : res_scope.
#[global] Open Scope res_scope.

(** [assert] of the C++ code, in a build with assertions. *)
Definition check (b : bool) : res unit := if b then Ok tt else Err Assertion_failed.

Lemma rbind_Ok_inv {A B} (m : res A) (k : A → res B) b :
  rbind m k = Ok b → ∃ a, m = Ok a ∧ k a = Ok b.
Proof. destruct m; simpl; intros H; [eauto | discriminate]. Qed.

Lemma check_Ok b : check b = Ok tt ↔ b = true.
Proof. destruct b; simpl; split; congruence. Qed.

(** Invert every hypothesis that says a bind returned. *)
Ltac inv_res :=
  repeat match goal with
  | H : rbind _ _ = Ok _ |- _ =>
      let a := fresh "r" in let H1 := fresh "Hr" in
      apply rbind_Ok_inv in H as (a & H1 & H)
  | H : Ok _ = Ok _ |- _ => injection H as H; try subst
  | H : Err _ = Ok _ |- _ => discriminate H
  | H : Ok _ = Err _ |- _ => discriminate H
  | H : check _ = Ok _ |- _ =>
      let H1 := fresh "Hc" in
      pose proof (proj1 (check_Ok _) ltac:(destruct H; first [exact H | idtac])) as H1; clear H
  end.

(** ** Machine integers

    A w-bit machine integer is a [Z]; the conversions below are the ones the
    C++ casts perform.  [word], [uword], [lword] and [ulword] are the type
    names of FastRational.h. *)
Definition wrap_u (w z : Z) : Z := z mod 2 ^ w.
Definition wrap_s (w z : Z) : Z := (z + 2 ^ (w - 1)) mod 2 ^ w - 2 ^ (w - 1).

Definition to_word : Z → Z := wrap_s 32.
Definition to_uword : Z → Z := wrap_u 32.
Definition to_lword : Z → Z := wrap_s 64.
Definition to_ulword : Z → Z := wrap_u 64.

Definition WORD_MIN : Z := -2147483648.
Definition WORD_MAX : Z := 2147483647.
Definition UWORD_MAX : Z := 4294967295.
Definition LWORD_MIN : Z := -9223372036854775808.
Definition LWORD_MAX : Z := 9223372036854775807.
Definition ULWORD_MAX : Z := 18446744073709551615.

Definition in_word (z : Z) : Prop := WORD_MIN ≤ z ≤ WORD_MAX.
Definition in_uword (z : Z) : Prop := 0 ≤ z ≤ UWORD_MAX.
Definition in_lword (z : Z) : Prop := LWORD_MIN ≤ z ≤ LWORD_MAX.
Definition in_ulword (z : Z) : Prop := 0 ≤ z ≤ ULWORD_MAX.

Ltac unfold_widths :=
  unfold in_word, in_uword, in_lword, in_ulword, WORD_MIN, WORD_MAX, UWORD_MAX,
    LWORD_MIN, LWORD_MAX, ULWORD_MAX in *.

Lemma wrap_s_id w z : 0 < w → - 2 ^ (w - 1) ≤ z < 2 ^ (w - 1) → wrap_s w z = z.
Proof.
  intros Hw Hz. unfold wrap_s.
  assert (2 ^ w = 2 * 2 ^ (w - 1)) as Hp
    by (rewrite <- Z.pow_succ_r by lia; f_equal; lia).
  rewrite Z.mod_small by lia. lia.
Qed.

Lemma to_word_id z : in_word z → to_word z = z.
Proof. intros H. apply wrap_s_id; unfold_widths; simpl; lia. Qed.
Lemma to_uword_id z : in_uword z → to_uword z = z.
Proof. intros H. apply Z.mod_small; unfold_widths; simpl; lia. Qed.
Lemma to_lword_id z : in_lword z → to_lword z = z.
Proof. intros H. apply wrap_s_id; unfold_widths; simpl; lia. Qed.
Lemma to_ulword_id z : in_ulword z → to_ulword z = z.
Proof. intros H. apply Z.mod_small; unfold_widths; simpl; lia. Qed.

Lemma to_uword_range z : in_uword (to_uword z).
Proof.
  unfold to_uword, wrap_u. pose proof (Z.mod_pos_bound z (2 ^ 32) ltac:(lia)).
  unfold_widths. lia.
Qed.

Lemma to_lword_range z : in_lword (to_lword z).
Proof.
  unfold to_lword, wrap_s.
  pose proof (Z.mod_pos_bound (z + 2 ^ (64 - 1)) (2 ^ 64) ltac:(lia)).
  unfold_widths. lia.
Qed.

Create HintDb widths.
Create Rewrite HintDb widths_rw.
#[export] Hint Resolve to_uword_range to_lword_range : widths.
#[export] Hint Rewrite to_word_id to_uword_id to_lword_id to_ulword_id
  using (unfold_widths; lia) : widths_rw.

(** ** Rationals

    [Qc] is the standard library's type of reduced fractions: equality is
    Leibniz equality, so the values of the C++ rationals live there.
    [qc_lra] decides linear goals over [Qc] by moving them to [Q]. *)
Definition mkQ (n d : Z) : Qc := Q2Qc (n # Z.to_pos d).

Lemma Qc_eq_iff (x y : Qc) : x = y ↔ (this x == this y)%Q.
Proof. split; [intros ->; reflexivity | apply Qc_is_canon]. Qed.
Lemma Qc_eq_Q (x y : Qc) : x = y → (this x == this y)%Q.
Proof. apply Qc_eq_iff. Qed.
Lemma Qc_neq_Q (x y : Qc) : x ≠ y → ¬ (this x == this y)%Q.
Proof. by rewrite Qc_eq_iff. Qed.
Lemma this_plus (x y : Qc) : (this (x + y)%Qc == this x + this y)%Q.
Proof. apply Qred_correct. Qed.
Lemma this_mult (x y : Qc) : (this (x * y)%Qc == this x * this y)%Q.
Proof. apply Qred_correct. Qed.
Lemma this_opp (x : Qc) : (this (- x)%Qc == - this x)%Q.
Proof. apply Qred_correct. Qed.
Lemma this_minus (x y : Qc) : (this (x - y)%Qc == this x - this y)%Q.
Proof. unfold Qcminus. rewrite this_plus, this_opp. reflexivity. Qed.
Lemma this_Q2Qc q : (this (Q2Qc q) == q)%Q.
Proof. apply Qred_correct. Qed.

Ltac to_Q :=
  repeat match goal with
  | H : not (Qcle _ _) |- _ => apply Qcnot_le_lt in H
  | H : not (Qclt _ _) |- _ => apply Qcnot_lt_le in H
  | |- not (Qcle _ _) => apply Qclt_not_le
  | |- not (Qclt _ _) => apply Qcle_not_lt
  | H : @eq Qc _ _ |- _ => apply Qc_eq_Q in H
  | H : not (@eq Qc _ _) |- _ => apply Qc_neq_Q in H
  | |- @eq Qc _ _ => apply Qc_is_canon
  | |- not (@eq Qc _ _) => rewrite Qc_eq_iff
  end;
  unfold Qcle, Qclt in *;
  repeat match goal with
  | H : context [this (_ + _)%Qc] |- _ => rewrite this_plus in H
  | H : context [this (_ * _)%Qc] |- _ => rewrite this_mult in H
  | H : context [this (- _)%Qc] |- _ => rewrite this_opp in H
  | H : context [this (_ - _)%Qc] |- _ => rewrite this_minus in H
  | H : context [this (Q2Qc _)] |- _ => rewrite this_Q2Qc in H
  end;
  rewrite ?this_plus, ?this_mult, ?this_opp, ?this_minus, ?this_Q2Qc;
  repeat rewrite ?this_plus, ?this_mult, ?this_opp, ?this_minus, ?this_Q2Qc.
(** What is left below [this] is an atom of the arithmetic. *)
Ltac gen_this :=
  repeat match goal with
  | |- context [this ?x] => let y := fresh "q" in set (y := this x) in *; clearbody y
  | H : context [this ?x] |- _ => let y := fresh "q" in set (y := this x) in *; clearbody y
  end.
Ltac qc_lra := to_Q; gen_this; simpl in *; lra.
Ltac qc_nra := to_Q; gen_this; simpl in *; nra.

(** ** Reasoning about fallible code

    [wp E P m]: the run [m] returns a value with [P], or stops with one of the
    errors [E] allows.  With [E] empty it says that [m] returns. *)
Definition wp {A : Type} (E : error → Prop) (P : A → Prop) (m : res A) : Prop :=
  match m with Ok a => P a | Err e => E e end.

Definition no_error (e : error) : Prop := False.

Section wp.
Context {A B : Type} (E : error → Prop).

Lemma wp_bind (P : B → Prop) (m : res A) (k : A → res B) :
  wp E (λ a, wp E P (k a)) m → wp E P (rbind m k).
Proof. by destruct m. Qed.

Lemma wp_mono (P Q : A → Prop) m : wp E P m → (∀ a, P a → Q a) → wp E Q m.
Proof. destruct m; simpl; auto. Qed.

Lemma wp_check (b : bool) (P : unit → Prop) : b = true → P tt → wp E P (check b).
Proof. by intros ->. Qed.

Lemma wp_Ok (P : A → Prop) (m : res A) a : wp E P m → m = Ok a → P a.
Proof. by intros H ->. Qed.

End wp.

Lemma wp_total {A} (P : A → Prop) (m : res A) : wp no_error P m ↔ ∃ a, m = Ok a ∧ P a.
Proof.
  destruct m as [a|e]; simpl; split.
  - eauto.
  - by intros (b & [= ->] & H).
  - done.
  - by intros (b & [=] & _).
Qed.

(** The result of a run known to return. *)
Definition get {A : Type} (d : A) (m : res A) : A := match m with Ok a => a | Err _ => d end.
Definition is_ok {A : Type} (m : res A) : bool := match m with Ok _ => true | Err _ => false end.
Lemma get_ok {A} (d : A) m : is_ok m = true → m = Ok (get d m).
Proof. by destruct m. Qed.

(** ** Loops

    [while k body] runs [body] until it returns [inr], at most [2 ^ k] times:
    the fuel is the exponent, so that bounds larger than any list stay
    executable. *)
Fixpoint while_steps {S R : Type} (k : nat) (body : S → res (S + R)) (s : S) : res (S + R) :=
  match k with
  | O => body s
  | Datatypes.S k =>
      let! r := while_steps k body s in
      match r with inl s' => while_steps k body s' | inr r => Ok (inr r) end
  end.

Definition while {S R : Type} (k : nat) (body : S → res (S + R)) (s : S) : res R :=
  let! r := while_steps k body s in
  match r with inl _ => Err Out_of_fuel | inr r => Ok r end.

(** An error in the first round is an error of the loop. *)
Lemma while_err {S R : Type} k (body : S → res (S + R)) s e : body s = Err e → while k body s = Err e.
Proof.
  intros E. unfold while. assert (while_steps k body s = Err e) as ->; [|done].
  induction k as [|k IH]; simpl; [done|]. by rewrite IH.
Qed.

(** More fuel gives the same result. *)
Lemma while_more {S R : Type} k k' (body : S → res (S + R)) s r : while k body s = Ok r → (k <= k')%nat →
  while k' body s = Ok r.
Proof.
  unfold while. intros Hk Hle. assert (while_steps k body s = Ok (inr r)) as Hs.
  { destruct (while_steps k body s) as [[?|?]|]; simpl in Hk; congruence. }
  assert (while_steps k' body s = Ok (inr r)) as ->; [|done]. clear Hk.
  induction Hle as [|k' _ IH]; [done|]. simpl. by rewrite IH.
Qed.

Section while.
Context {S R : Type} (E : error → Prop) (body : S → res (S + R)).
Context (I : S → Prop) (mu : S → nat) (P : R → Prop).
Hypothesis step : ∀ s, I s →
  wp E (λ r, match r with inl s' => I s' ∧ (mu s' < mu s)%nat | inr r => P r end) (body s).

Lemma while_steps_wp k s : I s →
  wp E (λ r, match r with inl s' => I s' ∧ (mu s' + 2 ^ k <= mu s)%nat | inr r => P r end)
    (while_steps k body s).
Proof.
  revert s. induction k as [|k IH]; intros s Hs; simpl.
  - eapply wp_mono; [by apply step|]. intros [s'|r]; [|done]. simpl. intros [? ?]. split; [done | lia].
  - apply wp_bind. eapply wp_mono; [by apply IH|]. intros [s'|r]; [|done]. simpl. intros [Hs' ?].
    eapply wp_mono; [by apply IH|]. intros [s''|r]; [|done]. simpl. intros [? ?].
    split; [done | lia].
Qed.

(** A loop whose body decreases a measure ends within its fuel. *)
Lemma while_wp k s : I s → (mu s < 2 ^ k)%nat → wp E P (while k body s).
Proof.
  intros Hs Hk. apply wp_bind. eapply wp_mono; [by apply while_steps_wp|].
  intros [s'|r]; simpl; [lia | done].
Qed.

End while.

(** [for (auto x : l) s = f(s, x);] *)
Fixpoint foldM {S A : Type} (f : S → A → res S) (s : S) (l : list A) : res S :=
  match l with
  | [] => Ok s
  | x :: l => let! s := f s x in foldM f s l
  end.

(** The invariant of such a loop sees the elements done and those to come. *)
Lemma foldM_wp {S A} (E : error → Prop) (f : S → A → res S) (I : list A → list A → S → Prop) l s :
  I [] l s →
  (∀ pre x post s, l = pre ++ x :: post → I pre (x :: post) s → wp E (I (pre ++ [x]) post) (f s x)) →
  wp E (I l []) (foldM f s l).
Proof.
  intros H0 Hs.
  enough (∀ post pre s, l = pre ++ post → I pre post s → wp E (I l []) (foldM f s post)) as H
    by (by apply (H l [])).
  clear s H0. induction post as [|x post IH]; intros pre s -> HI; simpl.
  - by rewrite app_nil_r.
  - apply wp_bind. eapply wp_mono; [by apply (Hs pre x post)|]. intros s' HI'. simpl.
    apply (IH (pre ++ [x])); [by rewrite <- app_assoc | done].
Qed.

(** ** Vectors

    [vec[i]] is undefined out of range; [v.resize(n, d)] extends with [d]. *)
Definition at_ {A : Type} (l : list A) (i : nat) : res A :=
  match l !! i with Some x => Ok x | None => Err Out_of_range end.

Definition upd {A : Type} (l : list A) (i : nat) (x : A) : res (list A) :=
  if (i <? length l)%nat then Ok (<[i := x]> l) else Err Out_of_range.

(** [if (v.size() <= i) v.resize(i + 1, d)] *)
Definition grow {A : Type} (l : list A) (i : nat) (d : A) : list A :=
  if (length l <=? i)%nat then l ++ replicate (S i - length l) d else l.

Lemma at_wp {A} E (P : A → Prop) l i x : l !! i = Some x → P x → wp E P (at_ l i).
Proof. unfold at_. by intros ->. Qed.

Lemma upd_wp {A} E (P : list A → Prop) l i x :
  (i < length l)%nat → P (<[i := x]> l) → wp E P (upd l i x).
Proof. unfold upd. intros H HP. by rewrite (proj2 (Nat.ltb_lt _ _) H). Qed.

Lemma grow_length {A} (l : list A) i d : length (grow l i d) = Nat.max (length l) (S i).
Proof.
  unfold grow. destruct (Nat.leb_spec (length l) i); [|lia].
  rewrite length_app, length_replicate. lia.
Qed.

Lemma grow_lookup {A} (l : list A) i d j :
  grow l i d !! j = match l !! j with
                    | Some x => Some x
                    | None => if decide (j <= i)%nat then Some d else None
                    end.
Proof.
  unfold grow. destruct (Nat.leb_spec (length l) i).
  - destruct (l !! j) eqn:E; [by apply lookup_app_l_Some|].
    apply lookup_ge_None in E. rewrite lookup_app_r by lia.
    destruct (decide _); [apply lookup_replicate_2; lia | apply lookup_replicate_None; lia].
  - destruct (l !! j) eqn:E; [done|]. apply lookup_ge_None in E.
    rewrite decide_False by lia. done.
Qed.

Lemma length_omap_le {A B} (f : A → option B) (l : list A) : (length (omap f l) <= length l)%nat.
Proof. induction l as [|x l IH]; csimpl; [done|]. destruct (f x); simpl; lia. Qed.

Section filter.
Context {A : Type} (P : A → Prop) `{∀ x, Decision (P x)}.

Lemma filter_none (l : list A) : (∀ x, x ∈ l → ¬ P x) → base.filter P l = [].
Proof.
  induction l as [|x l IH]; intros Hl; [done|]. rewrite filter_cons, decide_False.
  - apply IH. intros y Hy. apply Hl. by right.
  - apply Hl. by left.
Qed.

Lemma filter_every (l : list A) : (∀ x, x ∈ l → P x) → base.filter P l = l.
Proof.
  induction l as [|x l IH]; intros Hl; [done|]. rewrite filter_cons, decide_True.
  - f_equal. apply IH. intros y Hy. apply Hl. by right.
  - apply Hl. by left.
Qed.

Lemma filter_ext_in (Q : A → Prop) `{∀ x, Decision (Q x)} (l : list A) :
  (∀ x, x ∈ l → P x ↔ Q x) → base.filter P l = base.filter Q l.
Proof.
  induction l as [|x l IH]; intros Hl; [done|]. rewrite !filter_cons.
  assert (base.filter P l = base.filter Q l) as -> by (apply IH; intros y Hy; apply Hl; by right).
  specialize (Hl x ltac:(by left)).
  destruct (decide (P x)), (decide (Q x)); tauto.
Qed.

End filter.
