(* ===== verification/Sort.v ===== *)
(** * Sorting vectors

    minisat/mtl/Sort.h: selection sort for short arrays, quicksort for longer
    ones; merge sort; removal of adjacent duplicates.  A subarray [&array[i]]
    is the whole vector with an offset.  The order is fallible, as the clients'
    orders look the elements up in a table.
    The second part proves that [sort] ends and sorts. *)
From S2P Require Import Prelude.
From Stdlib Require Import Lia.

#[local] Open Scope nat_scope.

Section sort.
Context {T : Type} (lt : T → T → res bool).

Definition swap (a : list T) (i j : nat) : res (list T) :=
  let! tmp := at_ a i in
  let! y := at_ a j in
  let! a := upd a i y in
  upd a j tmp.

(** [for (j = i+1; j < size; j++) if (lt(array[j], array[best_i])) best_i = j;] *)
Definition select (a : list T) (off size i : nat) : res nat :=
  foldM (λ best j,
    let! x := at_ a (off + j) in
    let! y := at_ a (off + best) in
    let! b := lt x y in
    Ok (if (b : bool) then j else best)) i (seq (S i) (size - S i)).

Definition selectionSort (a : list T) (off size : nat) : res (list T) :=
  foldM (λ a i, let! best := select a off size i in swap a (off + i) (off + best)) a (seq 0 (size - 1)).

(** [do i++; while (lt(array[i], pivot));], from [i + 1]. *)
Fixpoint scan_up (fuel : nat) (a : list T) (off : nat) (pivot : T) (i : nat) : res nat :=
  match fuel with
  | O => Err Out_of_fuel
  | S fuel =>
      let! x := at_ a (off + i) in
      let! b := lt x pivot in
      if (b : bool) then scan_up fuel a off pivot (S i) else Ok i
  end.

(** [do j--; while (lt(pivot, array[j]));] *)
Fixpoint scan_down (a : list T) (off : nat) (pivot : T) (j : nat) : res nat :=
  match j with
  | O => Err Out_of_range
  | S j =>
      let! x := at_ a (off + j) in
      let! b := lt pivot x in
      if (b : bool) then scan_down a off pivot j else Ok j
  end.

(** The [for(;;)] loop: the array and the final [i]. *)
Fixpoint partition (fuel : nat) (a : list T) (off : nat) (pivot : T) (i j : nat) : res (list T * nat) :=
  match fuel with
  | O => Err Out_of_fuel
  | S fuel =>
      let! i := scan_up (S (length a)) a off pivot i in
      let! j := scan_down a off pivot j in
      if j <=? i then Ok (a, i)
      else
        let! a := swap a (off + i) (off + j) in
        partition fuel a off pivot (S i) j
  end.

Fixpoint sort_from (fuel : nat) (a : list T) (off size : nat) : res (list T) :=
  match fuel with
  | O => Err Out_of_fuel
  | S fuel =>
      if size <=? 15 then selectionSort a off size
      else
        let! pivot := at_ a (off + size / 2) in
        let! r := partition (S size) a off pivot 0 size in
        let! a := sort_from fuel r.1 off r.2 in
        sort_from fuel a (off + r.2) (size - r.2)
  end.

(** Each recursive call is on a shorter array. *)
Definition sort (a : list T) : res (list T) := sort_from (S (length a)) a 0 (length a).

(** ** Merge sort *)

(** [for (int i = begin; i < end; i++) dst[i] = src[i];] *)
Definition copyArray (src : list T) (b e : nat) (dst : list T) : res (list T) :=
  foldM (λ dst i, let! x := at_ src i in upd dst i x) dst (seq b (e - b)).

(** The state is [i0], [i1] and the work array. *)
Definition merge (src : list T) (b middle e : nat) (work : list T) : res (list T) :=
  let! r := foldM (λ '(i0, i1, work) j,
      let! fst_ :=
        (if i0 <? middle then
           if e <=? i1 then Ok true
           else let! x := at_ src i0 in let! y := at_ src i1 in lt x y
         else Ok false) in
      if (fst_ : bool)
      then let! x := at_ src i0 in let! work := upd work j x in Ok (S i0, i1, work)
      else let! x := at_ src i1 in let! work := upd work j x in Ok (i0, S i1, work))
    (b, middle, work) (seq b (e - b)) in
  Ok r.2.

Fixpoint splitMerge (fuel : nat) (src : list T) (b e : nat) (work : list T) : res (list T * list T) :=
  match fuel with
  | O => Err Out_of_fuel
  | S fuel =>
      if e - b <=? 1 then Ok (src, work)
      else
        let middle := (e + b) / 2 in
        let! r := splitMerge fuel src b middle work in
        let! r := splitMerge fuel r.1 middle e r.2 in
        let! work := merge r.1 b middle e r.2 in
        let! src := copyArray work b e r.1 in
        Ok (src, work)
  end.

(** The work array is [malloc]ed: its contents do not matter. *)
Definition mergeSort (work : list T) (src : list T) : res (list T) :=
  let! r := splitMerge (S (length src)) src 0 (length src) work in Ok r.1.

End sort.

(** [uniq]: [prev] points to the last element kept or, after an overwrite, to
    the element read; [i - j] elements are dropped from the end. *)
Definition uniq {T} `{EqDecision T} (v : list T) : res (list T) :=
  match v with
  | [] => Ok []
  | _ =>
      let! r := foldM (λ '(v, j, prev) i,
          let! x := at_ v i in
          let! p := at_ v prev in
          if decide (x = p) then Ok (v, j, prev)
          else let! v := upd v j x in Ok (v, S j, i))
        (v, 1, 0) (seq 1 (length v - 1)) in
      Ok (take (length v - (length v - r.1.2)) r.1.1)
  end.

Definition lt_nat (x y : nat) : res bool := Ok (x <? y).
Example sort_1 : sort lt_nat (reverse (seq 0 40)) = Ok (seq 0 40).
Proof. vm_compute. reflexivity. Qed.
Example sort_2 : mergeSort lt_nat (replicate 40 0) (reverse (seq 0 40)) = Ok (seq 0 40).
Proof. vm_compute. reflexivity. Qed.
Example uniq_1 : uniq [1;1;2;3;3;3;4;1;1] = Ok [1;2;3;4;1].
Proof. vm_compute. reflexivity. Qed.
Example uniq_2 : uniq [1;1;1;2;1;2;3;3;3;4;1;1;5;5;6] = Ok [1;2;1;2;3;4;1;5;6].
Proof. vm_compute. reflexivity. Qed.

(** * Sorting is correct

    For a strict weak order, [sort] ends and leaves an ordered permutation of
    the subarray, touching nothing else. *)

Section facts.
Context {T : Type}.
Implicit Types (a : list T) (x y : T).

(** ** Permutations of a segment *)

(** [a'] is [a] with the elements of the segment permuted. *)
Record perm_in (off size : nat) a a' : Prop := {
  pi_len : length a' = length a;
  pi_map : ∃ f : nat → nat, Inj (=) (=) f ∧ (∀ i, a' !! i = a !! f i)
           ∧ ∀ i, ¬ (off ≤ i < off + size) → f i = i;
}.

Lemma perm_in_refl off size a : perm_in off size a a.
Proof. split; [done|]. exists id. split; [apply _|done]. Qed.

Lemma perm_in_trans off size a1 a2 a3 : perm_in off size a1 a2 → perm_in off size a2 a3 → perm_in off size a1 a3.
Proof.
  intros [L1 (f & If & F1 & F2)] [L2 (g & Ig & G1 & G2)]. split; [congruence|].
  exists (f ∘ g). split; [apply _|]. split; [intros i; by rewrite G1, F1|].
  intros i Hi. simpl. by rewrite (G2 i Hi), F2.
Qed.

Lemma perm_in_widen off size off' size' a a' : perm_in off' size' a a' → off ≤ off' → off' + size' ≤ off + size →
  perm_in off size a a'.
Proof.
  intros [L (f & If & F1 & F2)] H1 H2. split; [done|]. exists f. split; [done|]. split; [done|].
  intros i Hi. apply F2. lia.
Qed.

Lemma perm_in_outside off size a a' i : perm_in off size a a' → ¬ (off ≤ i < off + size) → a' !! i = a !! i.
Proof. intros [L (f & If & F1 & F2)] Hi. by rewrite F1, F2. Qed.

Lemma perm_in_permutation off size a a' : perm_in off size a a' → a' ≡ₚ a.
Proof. intros [L (f & If & F1 & _)]. apply Permutation_inj. split; [done|]. eauto. Qed.

(** What holds of the elements of the segment still does. *)
Lemma perm_in_all off size a a' (Q : T → Prop) : perm_in off size a a' →
  (∀ i x, off ≤ i < off + size → a !! i = Some x → Q x) →
  ∀ i x, off ≤ i < off + size → a' !! i = Some x → Q x.
Proof.
  intros [L (f & If & F1 & F2)] HQ i x Hi Hx. rewrite F1 in Hx.
  destruct (decide (off ≤ f i < off + size)) as [Hf|Hf]; [by apply (HQ (f i))|].
  (* the map would not be injective *)
  assert (f i = i) as Ei by (apply If; by apply F2). rewrite Ei in Hf. done.
Qed.

Lemma swap_wp E off size a i j : off ≤ i < off + size → off ≤ j < off + size → off + size ≤ length a →
  wp E (λ a', perm_in off size a a' ∧ a' !! i = a !! j ∧ a' !! j = a !! i
    ∧ ∀ k, k ≠ i → k ≠ j → a' !! k = a !! k) (swap a i j).
Proof.
  intros Hi Hj Hl. destruct (lookup_lt_is_Some_2 a i) as [x Hx]; [lia|].
  destruct (lookup_lt_is_Some_2 a j) as [y Hy]; [lia|].
  unfold swap, at_. rewrite Hx, Hy. cbn [rbind]. apply wp_bind, upd_wp; [lia|]. apply upd_wp; [rewrite length_insert; lia|].
  set (f := λ k, if decide (k = i) then j else if decide (k = j) then i else k).
  assert (∀ k, <[j:=x]> (<[i:=y]> a) !! k = a !! f k) as Hf.
  { intros k. unfold f. destruct (decide (k = j)) as [->|Hkj].
    - rewrite list_lookup_insert_eq by (rewrite length_insert; lia).
      destruct (decide (j = i)) as [->|]; [congruence | by rewrite Hx].
    - rewrite list_lookup_insert_ne by done. destruct (decide (k = i)) as [->|Hki].
      + rewrite list_lookup_insert_eq by lia. by rewrite Hy.
      + by rewrite list_lookup_insert_ne. }
  split; [|split; [|split]].
  - split; [by rewrite !length_insert|]. exists f. split; [|split; [done|]].
    + intros k1 k2. unfold f. repeat destruct (decide _); congruence.
    + intros k Hk. unfold f. rewrite !decide_False by lia. done.
  - rewrite Hf. unfold f. by rewrite decide_True.
  - rewrite Hf. unfold f. destruct (decide (j = i)) as [->|]; [done|]. by rewrite decide_True.
  - intros k ? ?. rewrite Hf. unfold f. by rewrite !decide_False.
Qed.

(** ** The order *)

Context (lt : T → T → res bool) (le : T → T → Prop) (valid : T → Prop).
Hypothesis lt_ok : ∀ x y, valid x → valid y → ∃ b : bool, lt x y = Ok b ∧ if b then ¬ le y x else le y x.
Hypothesis le_total : ∀ x y, valid x → valid y → le x y ∨ le y x.
Hypothesis le_trans : ∀ x y z, valid x → valid y → valid z → le x y → le y z → le x z.

Lemma lt_wp E x y (Q : bool → Prop) : valid x → valid y →
  ((¬ le y x) → le x y → Q true) → (le y x → Q false) → wp E Q (lt x y).
Proof.
  intros Hx Hy Ht Hf. destruct (lt_ok x y Hx Hy) as (b & -> & Hb). simpl. destruct b; [|by apply Hf].
  apply Ht; [done|]. destruct (le_total x y Hx Hy); done.
Qed.

Lemma le_refl x : valid x → le x x.
Proof. intros Hx. by destruct (le_total x x). Qed.

Definition all_valid a : Prop := ∀ i x, a !! i = Some x → valid x.

Lemma perm_valid off size a a' : perm_in off size a a' → all_valid a → all_valid a'.
Proof. intros [_ (f & _ & F1 & _)] Ha i x Hi. rewrite F1 in Hi. by eapply Ha. Qed.

(** The elements of a segment, compared with one another. *)
Definition below a i j : Prop := ∀ x y, a !! i = Some x → a !! j = Some y → le x y.
Definition sorted_in (off size : nat) a : Prop := ∀ i j, off ≤ i → i ≤ j → j < off + size → below a i j.

(** ** Selection sort *)

Lemma select_wp E a off size i : all_valid a → off + size ≤ length a → i < size →
  wp E (λ best, i ≤ best < size ∧ ∀ k, i ≤ k < size → below a (off + best) (off + k)) (select lt a off size i).
Proof.
  intros Hv Hl Hi. unfold select.
  eapply wp_mono; [apply (foldM_wp E _ (λ pre _ best, i ≤ best < size ∧
    ∀ k, k = i ∨ k ∈ pre → below a (off + best) (off + k)))|].
  - split; [lia|]. intros k [->|?%not_elem_of_nil]; [|done]. intros x y Hx Hy. simplify_eq.
    apply le_refl. by eapply Hv.
  - intros pre j post best El [Hb Hmin].
    assert (j ∈ seq (S i) (size - S i)) as Hj by (rewrite El; set_solver). apply elem_of_seq in Hj.
    destruct (lookup_lt_is_Some_2 a (off + j)) as [x Hx]; [lia|].
    destruct (lookup_lt_is_Some_2 a (off + best)) as [y Hy]; [lia|].
    pose proof (Hv _ _ Hx) as Vx. pose proof (Hv _ _ Hy) as Vy.
    unfold at_. rewrite Hx, Hy. cbn [rbind]. apply wp_bind. apply (lt_wp E x y _ Vx Vy).
    + intros _ Hle. cbn [wp]. split; [lia|]. intros k Hk u w Hu Hw. simplify_eq.
      assert (k = j ∨ k = i ∨ k ∈ pre) as [->|Hk'] by set_solver.
      * simplify_eq. by apply le_refl.
      * apply (le_trans _ y); [done..|by eapply Hv|done|]. by apply (Hmin k Hk').
    + intros Hle. cbn [wp]. split; [done|]. intros k Hk u w Hu Hw.
      assert (k = j ∨ k = i ∨ k ∈ pre) as [->|Hk'] by set_solver; [by simplify_eq|]. by apply (Hmin k Hk').
  - intros best [Hb Hmin]. split; [done|]. intros k Hk. apply Hmin. destruct (decide (k = i)); [by left|].
    right. apply elem_of_seq. lia.
Qed.

(** The first [i] elements are in place. *)
Record selected off size a0 i a : Prop := {
  se_perm : perm_in off size a0 a;
  se_sorted p q : p < i → p ≤ q → q < size → below a (off + p) (off + q);
}.

Lemma selectionSort_wp E a0 off size : all_valid a0 → off + size ≤ length a0 →
  wp E (λ a, perm_in off size a0 a ∧ sorted_in off size a) (selectionSort lt a0 off size).
Proof.
  intros Hv0 Hl0. unfold selectionSort.
  eapply wp_mono; [apply (foldM_wp E _ (λ pre _ a, selected off size a0 (length pre) a))|].
  - constructor; [apply perm_in_refl|]. simpl. lia.
  - intros pre i post a El [P Hs].
    assert (i = length pre ∧ length pre < size - 1) as [-> Hi].
    { assert (seq 0 (size - 1) !! length pre = Some i) as Hp by (by rewrite El, list_lookup_middle).
      apply lookup_seq in Hp. lia. }
    set (i := length pre) in *. pose proof (perm_valid _ _ _ _ P Hv0) as Hv. pose proof (pi_len _ _ _ _ P) as Hlen.
    apply wp_bind. eapply wp_mono; [apply (select_wp E a off size i Hv); lia|]. intros best [Hb Hmin].
    eapply wp_mono; [apply (swap_wp E off size a (off + i) (off + best)); lia|].
    intros a' (P' & Hi' & Hb' & Ho). constructor; [by eapply perm_in_trans|].
    rewrite length_app. simpl. fold i. intros p q Hp Hpq Hq x y Hx Hy.
    (* places before [i] are untouched, and what is at [i] is least *)
    assert (∀ p q, p < i → i ≤ q < size → below a' (off + p) (off + q)) as Hold.
    { intros p1 q1 Hp1 Hq1 x1 y1 Hx1 Hy1. rewrite Ho in Hx1 by lia.
      destruct (decide (off + q1 = off + i)) as [Eq|]; [rewrite Eq, Hi' in Hy1; by apply (Hs p1 best); (lia || done)|].
      destruct (decide (off + q1 = off + best)) as [Eq|]; [rewrite Eq, Hb' in Hy1; by apply (Hs p1 i); (lia || done)|].
      rewrite Ho in Hy1 by done. by apply (Hs p1 q1); (lia || done). }
    destruct (decide (p < i)) as [Hpi|Hpi].
    + destruct (decide (i ≤ q)) as [Hiq|Hiq]; [by apply (Hold p q); (lia || done)|].
      rewrite Ho in Hx, Hy by lia. by apply (Hs p q); (lia || done).
    + assert (p = i) as -> by lia. rewrite Hi' in Hx.
      destruct (decide (off + q = off + i)) as [Eq|]; [rewrite Eq, Hi' in Hy|].
      { simplify_eq. apply le_refl. by eapply Hv. }
      destruct (decide (off + q = off + best)) as [Eq|]; [rewrite Eq, Hb' in Hy; by apply (Hmin i); (lia || done)|].
      rewrite Ho in Hy by done. by apply (Hmin q); (lia || done).
  - intros a [P Hs]. split; [done|]. rewrite length_seq in Hs. intros i j Hi Hij Hj x y Hx Hy.
    destruct (decide (i - off < size - 1)) as [Hlt|Hge].
    + apply (Hs (i - off) (j - off)); [lia..| |]; [by replace (off + (i - off)) with i by lia|].
      by replace (off + (j - off)) with j by lia.
    + assert (i = j) as -> by lia. simplify_eq. apply le_refl. by apply (perm_valid _ _ _ _ P Hv0 j).
Qed.

(** ** Quicksort *)

(** The scans stop at the sentinels, and pass only elements on their side. *)
Lemma scan_up_wp E a off pivot k : all_valid a → valid pivot → ∀ fuel i,
  i ≤ k → (∃ x, a !! (off + k) = Some x ∧ le pivot x) → k - i < fuel →
  wp E (λ r, i ≤ r ≤ k ∧ (∃ x, a !! (off + r) = Some x ∧ le pivot x)
    ∧ ∀ q x, i ≤ q < r → a !! (off + q) = Some x → le x pivot) (scan_up lt fuel a off pivot i).
Proof.
  intros Hv Vp. induction fuel as [|fuel IH]; intros i Hi Hk Hf; [lia|]. simpl.
  destruct (decide (i = k)) as [->|Hne].
  - destruct Hk as (x & Hx & Hle). unfold at_. rewrite Hx. cbn [rbind]. apply wp_bind.
    apply (lt_wp E x pivot); [by eapply Hv|done|done|]. intros _. cbn [wp]. split; [lia|]. split; [eauto|]. lia.
  - destruct Hk as (z & Hz & Hle). pose proof (lookup_lt_Some _ _ _ Hz).
    destruct (lookup_lt_is_Some_2 a (off + i)) as [x Hx]; [lia|]. unfold at_. rewrite Hx. cbn [rbind]. apply wp_bind.
    apply (lt_wp E x pivot); [by eapply Hv|done| |].
    + intros _ Hxp. eapply wp_mono; [apply IH; [lia|eauto|lia]|]. intros r (Hr & Hr' & Hq).
      split; [lia|]. split; [done|]. intros q y Hq' Hy. destruct (decide (q = i)) as [->|]; [by simplify_eq|].
      apply (Hq q); [lia | done].
    + intros Hpx. cbn [wp]. split; [lia|]. split; [eauto|]. lia.
Qed.

Lemma scan_down_wp E a off pivot k j : all_valid a → valid pivot →
  k < j → (∃ x, a !! (off + k) = Some x ∧ le x pivot) → off + j ≤ length a →
  wp E (λ r, k ≤ r < j ∧ (∃ x, a !! (off + r) = Some x ∧ le x pivot)
    ∧ ∀ q x, r < q < j → a !! (off + q) = Some x → le pivot x) (scan_down lt a off pivot j).
Proof.
  intros Hv Vp. induction j as [|j IH]; intros Hk Hs Hl; [lia|]. simpl.
  destruct (lookup_lt_is_Some_2 a (off + j)) as [x Hx]; [lia|]. unfold at_. rewrite Hx. cbn [rbind]. apply wp_bind.
  apply (lt_wp E pivot x); [done|by eapply Hv| |].
  - intros Hn Hpx. assert (k ≠ j) as Hkj.
    { intros ->. destruct Hs as (y & Hy & Hle). simplify_eq. by apply Hn. }
    eapply wp_mono; [apply IH; [lia|done|lia]|]. intros r (Hr & Hr' & Hq). split; [lia|]. split; [done|].
    intros q y Hq' Hy. destruct (decide (q = j)) as [->|]; [by simplify_eq|]. apply (Hq q); [lia | done].
  - intros Hxp. cbn [wp]. split; [lia|]. split; [eauto|]. lia.
Qed.

(** The state at the head of the loop: what is before [i] is small, what is
    from [j] on is large, and the scans will be stopped. *)
Record parting off size (pivot : T) a0 a i j : Prop := {
  pt_perm : perm_in off size a0 a;
  pt_le : i ≤ j ≤ size;
  pt_small q x : q < i → a !! (off + q) = Some x → le x pivot;
  pt_large q x : j ≤ q < size → a !! (off + q) = Some x → le pivot x;
  pt_stop : (i = 0 ∧ j = size ∧ 0 < size / 2 < size ∧ a !! (off + size / 2) = Some pivot)
    ∨ (0 < i ∧ j < size);
}.

(** The result: both parts are non-empty. *)
Record parted off size (pivot : T) a0 (r : list T * nat) : Prop := {
  pd_perm : perm_in off size a0 r.1;
  pd_range : 0 < r.2 < size;
  pd_small q x : q < r.2 → r.1 !! (off + q) = Some x → le x pivot;
  pd_large q x : r.2 ≤ q < size → r.1 !! (off + q) = Some x → le pivot x;
}.

Lemma partition_wp E off size pivot a0 : all_valid a0 → valid pivot → off + size ≤ length a0 → ∀ fuel a i j,
  parting off size pivot a0 a i j → j - i < fuel →
  wp E (parted off size pivot a0) (partition lt fuel a off pivot i j).
Proof.
  intros Hv0 Vp Hl. induction fuel as [|fuel IH]; intros a i j [P Hij Hsm Hla Hst] Hf; [lia|]. cbn [partition].
  pose proof (perm_valid _ _ _ _ P Hv0) as Hv. pose proof (pi_len _ _ _ _ P) as Hlen.
  (* where the scans are stopped at the latest *)
  assert (∃ k, i ≤ k < size ∧ (i = 0 → k = size / 2) ∧ ∃ x, a !! (off + k) = Some x ∧ le pivot x) as (k & Hk & Hk0 & Hkx).
  { destruct Hst as [(-> & -> & Hs & Hm)|[Hi Hj]].
    - exists (size / 2). split; [lia|]. split; [done|]. exists pivot. split; [done | by apply le_refl].
    - destruct (lookup_lt_is_Some_2 a (off + j)) as [x Hx]; [lia|]. exists j. split; [lia|]. split; [lia|].
      exists x. split; [done|]. apply (Hla j); [lia | done]. }
  assert (∃ k, k < j ∧ (i = 0 → k = size / 2) ∧ ∃ x, a !! (off + k) = Some x ∧ le x pivot) as (k' & Hk' & Hk0' & Hkx').
  { destruct Hst as [(-> & -> & Hs & Hm)|[Hi Hj]].
    - exists (size / 2). split; [lia|]. split; [done|]. exists pivot. split; [done | by apply le_refl].
    - destruct (lookup_lt_is_Some_2 a (off + (i - 1))) as [x Hx]; [lia|]. exists (i - 1). split; [lia|]. split; [lia|].
      exists x. split; [done|]. apply (Hsm (i - 1)); [lia | done]. }
  apply wp_bind. eapply wp_mono; [apply (scan_up_wp E a off pivot k Hv Vp); [lia|done|lia]|].
  intros i1 (Hi1 & (xi & Hxi & Hpi) & Hup). apply wp_bind.
  eapply wp_mono; [apply (scan_down_wp E a off pivot k' j Hv Vp Hk' Hkx'); lia|].
  intros j1 (Hj1 & (xj & Hxj & Hpj) & Hdown).
  destruct (Nat.leb_spec j1 i1) as [Hle|Hlt].
  - cbn [wp]. constructor; simpl; [done| | |].
    + destruct Hst as [(-> & -> & Hs & _)|[? ?]]; [|lia]. specialize (Hk0 eq_refl). specialize (Hk0' eq_refl). lia.
    + intros q x Hq Hx. destruct (decide (q < i)); [by apply (Hsm q)|]. apply (Hup q); [lia | done].
    + intros q x Hq Hx. destruct (decide (q = i1)) as [->|]; [by simplify_eq|].
      destruct (decide (q < j)); [apply (Hdown q); [lia|done] | apply (Hla q); [lia|done]].
  - apply wp_bind. eapply wp_mono; [apply (swap_wp E off size a (off + i1) (off + j1)); lia|].
    intros a' (P' & Ei & Ej & Eo). apply IH; [|lia]. constructor; [by eapply perm_in_trans|lia| | |right; lia].
    + intros q x Hq Hx. destruct (decide (q = i1)) as [->|]; [congruence|]. rewrite Eo in Hx by lia.
      destruct (decide (q < i)); [by apply (Hsm q)|]. apply (Hup q); [lia | done].
    + intros q x Hq Hx. destruct (decide (q = j1)) as [->|]; [congruence|]. rewrite Eo in Hx by lia.
      destruct (decide (q < j)); [apply (Hdown q); [lia|done] | apply (Hla q); [lia|done]].
Qed.

(** Two sorted parts, all of the first below all of the second. *)
Lemma sorted_parts off size k pivot a1 a2 a3 : k ≤ size → valid pivot → all_valid a1 → off + size ≤ length a1 →
  (∀ q x, q < k → a1 !! (off + q) = Some x → le x pivot) →
  (∀ q x, k ≤ q < size → a1 !! (off + q) = Some x → le pivot x) →
  perm_in off k a1 a2 → sorted_in off k a2 → perm_in (off + k) (size - k) a2 a3 → sorted_in (off + k) (size - k) a3 →
  sorted_in off size a3.
Proof.
  intros Hk Vp Hv Hl Hs Hb P2 S2 P3 S3 i j Hi Hij Hj x y Hx Hy.
  assert (∀ q z, off ≤ q < off + k → a3 !! q = Some z → a2 !! q = Some z ∧ le z pivot) as Hlow.
  { intros q z Hq Hz. rewrite (perm_in_outside _ _ _ _ _ P3) in Hz by lia. split; [done|].
    eapply (perm_in_all _ _ _ _ (λ z, le z pivot) P2); [|exact Hq|exact Hz].
    intros q' z' Hq' Hz'. apply (Hs (q' - off)); [lia|]. by replace (off + (q' - off)) with q' by lia. }
  assert (∀ q z, off + k ≤ q < off + size → a3 !! q = Some z → le pivot z) as Hhigh.
  { intros q z Hq Hz.
    eapply (perm_in_all _ _ _ _ (λ z, le pivot z) P3 _ q z); [lia|exact Hz].
    Unshelve. intros q' z' Hq' Hz'. simpl. rewrite (perm_in_outside _ _ _ _ _ P2) in Hz' by lia.
    apply (Hb (q' - off)); [lia|]. by replace (off + (q' - off)) with q' by lia. }
  assert (all_valid a3) as Hv3 by (eapply perm_valid; [exact P3|]; by eapply perm_valid).
  destruct (decide (j < off + k)) as [Hjk|Hjk].
  - apply (S2 i j); [lia..| |]; by apply Hlow; [lia|].
  - destruct (decide (off + k ≤ i)) as [Hik|Hik].
    + by apply (S3 i j); [lia..| |].
    + apply (le_trans _ pivot); [by eapply Hv3|done|by eapply Hv3| |].
      * by apply (Hlow i); [lia|].
      * by apply (Hhigh j); [lia|].
Qed.

Lemma sort_from_wp E fuel : ∀ a off size, all_valid a → off + size ≤ length a → size < fuel →
  wp E (λ a', perm_in off size a a' ∧ sorted_in off size a') (sort_from lt fuel a off size).
Proof.
  induction fuel as [|fuel IH]; intros a off size Hv Hl Hf; [lia|]. cbn [sort_from].
  destruct (Nat.leb_spec size 15); [by apply selectionSort_wp|].
  pose proof (Nat.div_lt size 2 ltac:(lia) ltac:(lia)) as Hd.
  pose proof (Nat.div_le_lower_bound size 2 1 ltac:(lia) ltac:(lia)) as Hd'.
  destruct (lookup_lt_is_Some_2 a (off + size / 2)) as [pivot Hp]; [lia|]. pose proof (Hv _ _ Hp) as Vp.
  unfold at_. rewrite Hp. cbn [rbind]. apply wp_bind.
  eapply wp_mono; [apply (partition_wp E off size pivot a Hv Vp Hl (S size) a 0 size); [|lia]|].
  { constructor; [apply perm_in_refl|lia|lia|lia|]. left. split; [done|]. split; [done|]. split; [lia|done]. }
  intros [a1 k] [P1 Hk Hs Hb]. simpl in *. pose proof (pi_len _ _ _ _ P1) as L1.
  pose proof (perm_valid _ _ _ _ P1 Hv) as V1.
  apply wp_bind. eapply wp_mono; [apply (IH a1 off k V1); lia|]. intros a2 [P2 S2].
  pose proof (pi_len _ _ _ _ P2) as L2. pose proof (perm_valid _ _ _ _ P2 V1) as V2.
  eapply wp_mono; [apply (IH a2 (off + k) (size - k) V2); lia|]. intros a3 [P3 S3]. split.
  - apply (perm_in_trans _ _ _ a1); [done|]. apply (perm_in_trans _ _ _ a2).
    + apply (perm_in_widen _ _ _ _ _ _ P2); lia.
    + apply (perm_in_widen _ _ _ _ _ _ P3); lia.
  - apply (sorted_parts off size k pivot a1 a2 a3); try done; lia.
Qed.

(** The vector is sorted. *)
Lemma sort_wp E a : all_valid a → wp E (λ a', a' ≡ₚ a ∧ ∀ i j, i ≤ j → below a' i j) (sort lt a).
Proof.
  intros Hv. eapply wp_mono; [apply (sort_from_wp E (S (length a)) a 0 (length a) Hv); lia|].
  intros a' [P S]. split; [by eapply perm_in_permutation|]. intros i j Hij x y Hx Hy.
  apply (S i j); [lia|done| |done|done]. apply lookup_lt_Some in Hy. rewrite (pi_len _ _ _ _ P) in Hy. lia.
Qed.

End facts.

(** C34: [sort] returns for every order that compares the elements without
    failing: a permutation of the array, ordered.  The quicksort's scans stay
    inside the array although they test no bound. *)
Theorem sort_correct {T : Type} (lt : T → T → res bool) (le : T → T → Prop) (valid : T → Prop) (a : list T) :
  (∀ x y, valid x → valid y → ∃ b : bool, lt x y = Ok b ∧ if b then ¬ le y x else le y x) →
  (∀ x y, valid x → valid y → le x y ∨ le y x) →
  (∀ x y z, valid x → valid y → valid z → le x y → le y z → le x z) →
  (∀ i x, a !! i = Some x → valid x) →
  ∃ a', sort lt a = Ok a' ∧ a' ≡ₚ a ∧ ∀ i j x y, i ≤ j → a' !! i = Some x → a' !! j = Some y → le x y.
Proof.
  intros H1 H2 H3 Hv. pose proof (sort_wp lt le valid H1 H2 H3 no_error a Hv) as Hw.
  apply wp_total in Hw as (a' & E & Hp & Hs). exists a'. split; [done|]. split; [done|].
  intros i j x y Hij. by apply Hs.
Qed.

Lemma sort_correct_witness : ∃ a', sort lt_nat (reverse (seq 0 20)) = Ok a' ∧ a' ≡ₚ reverse (seq 0 20)
  ∧ ∀ i j x y, i ≤ j → a' !! i = Some x → a' !! j = Some y → x ≤ y.
Proof.
  apply (sort_correct lt_nat Nat.le (λ _, True)).
  - intros x y _ _. exists (x <? y). split; [reflexivity|]. destruct (Nat.ltb_spec x y); lia.
  - intros x y _ _. lia.
  - intros x y z _ _ _. lia.
  - intros i x _. exact I.
Defined.
