(* ===== verification/Gmp.v ===== *)
(** * The multi-precision library the rationals fall back to

    GMP is not part of the repository, so its functions are the fields of a
    type class: FastRational.h reads and writes the numerator and denominator
    of an [mpq_t] ([mpq_numref], [mpq_denref]) and calls the functions below,
    and each law states what the GMP manual documents of one of them.  The
    last section builds an instance by computing with [Z], which the witnesses
    of the development run on. *)
From S2P Require Import Prelude.
From Stdlib Require Import Znumtheory Lia.

(** The value an [mpq_t] holds: [mpq_numref] and [mpq_denref]. *)
Record mpq_t : Type := Mpq { numref : Z; denref : Z }.

Definition canonical (q : mpq_t) : Prop :=
  0 < denref q ∧ Z.gcd (numref q) (denref q) = 1.

Definition mpq_val (q : mpq_t) : Qc := mkQ (numref q) (denref q).

Class GMP : Type := {
  mpz_fits_sint_p : Z → bool;
  mpz_fits_uint_p : Z → bool;
  mpz_get_si : Z → Z;
  mpz_get_ui : Z → Z;
  mpz_sgn : Z → Z;
  mpz_gcd : Z → Z → Z;
  mpz_lcm : Z → Z → Z;
  mpz_cdiv_q : Z → Z → Z;
  mpz_fdiv_q : Z → Z → Z;
  mpz_divexact : Z → Z → Z;
  mpq_add : mpq_t → mpq_t → mpq_t;
  mpq_sub : mpq_t → mpq_t → mpq_t;
  mpq_mul : mpq_t → mpq_t → mpq_t;
  mpq_div : mpq_t → mpq_t → mpq_t;
  mpq_neg : mpq_t → mpq_t;
  mpq_inv : mpq_t → mpq_t;
  mpq_cmp : mpq_t → mpq_t → Z;
  mpq_sgn : mpq_t → Z;
  mpq_equal : mpq_t → mpq_t → bool;
  mpq_get_d : mpq_t → Qc;            (* the value of the [double] *)

  mpz_fits_sint_p_spec z : mpz_fits_sint_p z = true ↔ in_word z;
  mpz_fits_uint_p_spec z : mpz_fits_uint_p z = true ↔ in_uword z;
  mpz_get_si_spec z : in_lword z → mpz_get_si z = z;
  mpz_get_ui_spec z : in_ulword z → mpz_get_ui z = z;
  mpz_sgn_spec z : Z.sgn (mpz_sgn z) = Z.sgn z;
  mpz_gcd_spec a b : mpz_gcd a b = Z.gcd a b;
  mpz_lcm_spec a b : mpz_lcm a b = Z.lcm a b;
  mpz_cdiv_q_spec a b : b ≠ 0 → mpz_cdiv_q a b = - (- a / b);
  mpz_fdiv_q_spec a b : b ≠ 0 → mpz_fdiv_q a b = a / b;
  mpz_divexact_spec a b : b ≠ 0 → (b | a) → mpz_divexact a b = a / b;
  mpq_add_spec a b : canonical a → canonical b →
    canonical (mpq_add a b) ∧ mpq_val (mpq_add a b) = (mpq_val a + mpq_val b)%Qc;
  mpq_sub_spec a b : canonical a → canonical b →
    canonical (mpq_sub a b) ∧ mpq_val (mpq_sub a b) = (mpq_val a - mpq_val b)%Qc;
  mpq_mul_spec a b : canonical a → canonical b →
    canonical (mpq_mul a b) ∧ mpq_val (mpq_mul a b) = (mpq_val a * mpq_val b)%Qc;
  mpq_div_spec a b : canonical a → canonical b → numref b ≠ 0 →
    canonical (mpq_div a b) ∧ mpq_val (mpq_div a b) = (mpq_val a / mpq_val b)%Qc;
  mpq_neg_spec a : canonical a → mpq_neg a = Mpq (- numref a) (denref a);
  mpq_inv_spec a : canonical a → numref a ≠ 0 →
    canonical (mpq_inv a) ∧ mpq_val (mpq_inv a) = (/ mpq_val a)%Qc;
  mpq_cmp_spec a b : canonical a → canonical b →
    Z.sgn (mpq_cmp a b) = Z.sgn (numref a * denref b - numref b * denref a);
  mpq_sgn_spec a : canonical a → mpq_sgn a = Z.sgn (numref a);
  mpq_equal_spec a b : canonical a → canonical b → mpq_equal a b = true ↔ a = b;
  (* "truncating if necessary": an integer that fits the significand is exact *)
  mpq_get_d_spec a : canonical a → denref a = 1 → Z.abs (numref a) ≤ 2 ^ 53 → mpq_get_d a = mpq_val a;
}.

(** ** Fractions of integers as elements of [Qc] *)

Lemma mkQ_eq n d n' d' : 0 < d → 0 < d' → mkQ n d = mkQ n' d' ↔ n * d' = n' * d.
Proof.
  intros Hd Hd'. unfold mkQ. split.
  - intros H%Qc_eq_Q. rewrite !this_Q2Qc in H. unfold Qeq in H. simpl in H.
    rewrite !Z2Pos.id in H by lia. lia.
  - intros H. apply Qc_is_canon. rewrite !this_Q2Qc. unfold Qeq. simpl.
    rewrite !Z2Pos.id by lia. lia.
Qed.

Lemma mkQ_this n d : (this (mkQ n d) == n # Z.to_pos d)%Q.
Proof. apply this_Q2Qc. Qed.

Ltac mkQ_solve :=
  apply Qc_is_canon; unfold Qcminus, Qcdiv;
  repeat rewrite ?this_plus, ?this_mult, ?this_opp, ?mkQ_this;
  unfold Qeq, Qplus, Qmult, Qopp; simpl;
  rewrite ?Pos2Z.inj_mul, ?Z2Pos.id by nia; try ring.

Lemma mkQ_add a b c d : 0 < b → 0 < d →
  (mkQ a b + mkQ c d)%Qc = mkQ (a * d + c * b) (b * d).
Proof. intros. mkQ_solve. Qed.

Lemma mkQ_sub a b c d : 0 < b → 0 < d →
  (mkQ a b - mkQ c d)%Qc = mkQ (a * d - c * b) (b * d).
Proof. intros. mkQ_solve. Qed.

Lemma mkQ_mul a b c d : 0 < b → 0 < d →
  (mkQ a b * mkQ c d)%Qc = mkQ (a * c) (b * d).
Proof. intros. mkQ_solve. Qed.

Lemma mkQ_opp a b : 0 < b → (- mkQ a b)%Qc = mkQ (- a) b.
Proof. intros. mkQ_solve. Qed.

Lemma mkQ_cmp n d n' d' : 0 < d → 0 < d' →
  (mkQ n d ?= mkQ n' d')%Qc = (n * d' ?= n' * d).
Proof.
  intros Hd Hd'. unfold Qccompare, mkQ. rewrite !this_Q2Qc. unfold Qcompare. simpl.
  rewrite !Z2Pos.id by lia. done.
Qed.

Lemma mkQ_scale k n d : 0 < k → 0 < d → mkQ (k * n) (k * d) = mkQ n d.
Proof. intros. apply mkQ_eq; lia. Qed.

Lemma mkQ_0 d : 0 < d → mkQ 0 d = 0%Qc.
Proof. intros. change 0%Qc with (mkQ 0 1). apply mkQ_eq; lia. Qed.

Lemma mkQ_eq_0 n d : 0 < d → mkQ n d = 0%Qc ↔ n = 0.
Proof. intros. change 0%Qc with (mkQ 0 1). rewrite mkQ_eq by lia. lia. Qed.

Lemma Qcinv_unique (x y : Qc) : (x * y = 1)%Qc → (/ x)%Qc = y.
Proof.
  intros H. assert (x ≠ 0)%Qc as Hx.
  { intros ->. rewrite Qcmult_0_l in H. discriminate H. }
  transitivity ((/ x) * (x * y))%Qc.
  - rewrite H. ring.
  - rewrite Qcmult_assoc, (Qcmult_comm (/ x)), Qcmult_inv_r by done. ring.
Qed.

Lemma mkQ_inv n d : 0 < n → 0 < d → (/ mkQ n d)%Qc = mkQ d n.
Proof.
  intros. apply Qcinv_unique. rewrite mkQ_mul by lia.
  change 1%Qc with (mkQ 1 1). apply mkQ_eq; lia.
Qed.

Lemma mkQ_inv_neg n d : n < 0 → 0 < d → (/ mkQ n d)%Qc = mkQ (- d) (- n).
Proof.
  intros. apply Qcinv_unique. rewrite mkQ_mul by lia.
  change 1%Qc with (mkQ 1 1). apply mkQ_eq; lia.
Qed.

(** Canonical fractions are determined by their value. *)
Lemma canonical_inj n d n' d' :
  0 < d → 0 < d' → Z.gcd n d = 1 → Z.gcd n' d' = 1 →
  n * d' = n' * d → n = n' ∧ d = d'.
Proof.
  intros Hd Hd' Hg Hg' H.
  assert ((d | d') ∧ (d' | d)) as [H1 H2].
  { split.
    - apply (Z.gauss d n d'); [exists n'; lia | by rewrite Z.gcd_comm].
    - apply (Z.gauss d' n' d); [exists n; lia | by rewrite Z.gcd_comm]. }
  assert (d = d') as <- by (apply Z.divide_antisym_nonneg; [lia|lia|done|done]).
  split; [nia | done].
Qed.

Lemma mkQ_inj n d n' d' :
  0 < d → 0 < d' → Z.gcd n d = 1 → Z.gcd n' d' = 1 →
  mkQ n d = mkQ n' d' → n = n' ∧ d = d'.
Proof. intros ???? H%mkQ_eq; [by apply canonical_inj | done | done]. Qed.

(** Dividing both parts by their greatest common divisor. *)
Lemma reduce_spec n d : 0 < d →
  0 < Z.gcd n d ∧ 0 < d / Z.gcd n d ∧ Z.gcd (n / Z.gcd n d) (d / Z.gcd n d) = 1
  ∧ mkQ (n / Z.gcd n d) (d / Z.gcd n d) = mkQ n d.
Proof.
  intros Hd. pose proof (Z.gcd_nonneg n d).
  assert (Z.gcd n d ≠ 0) by (intros E%Z.gcd_eq_0; lia).
  destruct (Z.gcd_divide_l n d) as [k Hk]. destruct (Z.gcd_divide_r n d) as [l Hl].
  assert (n / Z.gcd n d = k) as En by (rewrite Hk at 1; apply Z.div_mul; lia).
  assert (d / Z.gcd n d = l) as Ed by (rewrite Hl at 1; apply Z.div_mul; lia).
  split; [lia|]. split; [nia|]. split.
  - apply Z.gcd_div_gcd; [lia | done].
  - rewrite En, Ed. apply mkQ_eq; [nia | lia | lia].
Qed.

(** ** An instance that computes *)

Definition reduce (n d : Z) : mpq_t :=
  let g := Z.gcd n d in Mpq (n / g) (d / g).

Lemma reduce_canonical n d : 0 < d → canonical (reduce n d) ∧ mpq_val (reduce n d) = mkQ n d.
Proof.
  intros Hd. destruct (reduce_spec n d Hd) as (_ & H1 & H2 & H3).
  unfold canonical, mpq_val, reduce. simpl. done.
Qed.

Definition inv_ref (a : mpq_t) : mpq_t :=
  if 0 <? numref a then Mpq (denref a) (numref a) else Mpq (- denref a) (- numref a).

Lemma inv_ref_spec a : canonical a → numref a ≠ 0 →
  canonical (inv_ref a) ∧ mpq_val (inv_ref a) = (/ mpq_val a)%Qc.
Proof.
  intros [Hd Hg] Hn. unfold inv_ref, canonical, mpq_val.
  destruct (Z.ltb_spec 0 (numref a)); simpl.
  - rewrite Z.gcd_comm, mkQ_inv by lia. done.
  - rewrite Z.gcd_opp_l, Z.gcd_opp_r, Z.gcd_comm, mkQ_inv_neg by lia.
    repeat split; [lia | done].
Qed.

(** Integers cut to a significand of 53 bits, towards zero. *)
Definition truncate53 (z : Z) : Z :=
  let k := Z.log2 (Z.abs z) - 52 in
  if k <=? 0 then z else Z.sgn z * Z.shiftl (Z.shiftr (Z.abs z) k) k.

Lemma truncate53_id z : Z.abs z ≤ 2 ^ 53 → truncate53 z = z.
Proof.
  intros Hz. unfold truncate53. destruct (Z.leb_spec (Z.log2 (Z.abs z) - 52) 0) as [|Hk]; [done|].
  assert (z ≠ 0) as Hz0 by (intros ->; by vm_compute in Hk).
  assert (2 ^ 53 ≤ Z.abs z) as Hge.
  { etransitivity; [|apply Z.log2_spec; lia]. apply Z.pow_le_mono_r; lia. }
  assert (Z.abs z = 9007199254740992) as Ez by (change (2 ^ 53) with 9007199254740992 in *; lia).
  rewrite Ez. change (Z.shiftl _ _) with 9007199254740992. lia.
Qed.

#[refine, export] Instance gmp_ref : GMP := {
  mpz_fits_sint_p z := (WORD_MIN <=? z) && (z <=? WORD_MAX);
  mpz_fits_uint_p z := (0 <=? z) && (z <=? UWORD_MAX);
  mpz_get_si z := to_lword z;
  mpz_get_ui z := to_ulword z;
  mpz_sgn z := Z.sgn z;
  mpz_gcd a b := Z.gcd a b;
  mpz_lcm a b := Z.lcm a b;
  mpz_cdiv_q a b := - (- a / b);
  mpz_fdiv_q a b := a / b;
  mpz_divexact a b := a / b;
  mpq_add a b := reduce (numref a * denref b + numref b * denref a) (denref a * denref b);
  mpq_sub a b := reduce (numref a * denref b - numref b * denref a) (denref a * denref b);
  mpq_mul a b := reduce (numref a * numref b) (denref a * denref b);
  mpq_div a b := reduce (numref a * numref (inv_ref b)) (denref a * denref (inv_ref b));
  mpq_neg a := Mpq (- numref a) (denref a);
  mpq_inv a := inv_ref a;
  mpq_cmp a b := numref a * denref b - numref b * denref a;
  mpq_sgn a := Z.sgn (numref a);
  mpq_equal a b := (numref a =? numref b) && (denref a =? denref b);
  mpq_get_d a := mkQ (truncate53 (numref a)) (denref a);
}.
Proof.
  - intros z. unfold in_word. rewrite andb_true_iff, !Z.leb_le. done.
  - intros z. unfold in_uword. rewrite andb_true_iff, !Z.leb_le. done.
  - apply to_lword_id.
  - apply to_ulword_id.
  - intros z. destruct z; done.
  - done.
  - done.
  - done.
  - done.
  - done.
  - intros a b [Ha _] [Hb _]. unfold mpq_val at 2 3. rewrite mkQ_add by done.
    apply reduce_canonical. nia.
  - intros a b [Ha _] [Hb _]. unfold mpq_val at 2 3. rewrite mkQ_sub by done.
    apply reduce_canonical. nia.
  - intros a b [Ha _] [Hb _]. unfold mpq_val at 2 3. rewrite mkQ_mul by done.
    apply reduce_canonical. nia.
  - intros a b [Ha _] Cb Hb. unfold Qcdiv.
    destruct (inv_ref_spec b Cb Hb) as [[Hd _] <-].
    unfold mpq_val at 2 3. rewrite mkQ_mul by done. apply reduce_canonical. nia.
  - done.
  - apply inv_ref_spec.
  - done.
  - done.
  - intros [n d] [n' d'] _ _. simpl. rewrite andb_true_iff, !Z.eqb_eq.
    split; [intros [-> ->]; done | intros [= -> ->]; done].
  - intros [n d] _ _ Hn. simpl in *. unfold mpq_val. simpl. by rewrite truncate53_id.
Defined.
