(* ===== verification/FastRational.v ===== *)
(** * Rationals with a machine-word fast path

    Model of src/src/common/FastRational.h and FastRational.cc: the state
    byte that says which of the two representations (a 32-bit numerator with a
    32-bit unsigned denominator, an [mpq_t]) is valid, the conversions between
    them, and the arithmetic that works on words and jumps to its [overflow:]
    label when a result does not fit.  The lemmas about this model are in
    FastRationalFacts.v. *)
From S2P Require Import Prelude Gmp.
(** ** Words *)

(** [inline uword absVal(word x)] and [inline ulword absVal(lword x)]. *)
Definition absVal (x : Z) : Z :=
  if x <? 0 then to_uword (- to_uword x) else to_uword x.
Definition absVal64 (x : Z) : Z :=
  if x <? 0 then to_ulword (- to_ulword x) else to_ulword x.

(** C++'s [%], which truncates: undefined on a zero divisor, and on
    [INT_MIN % -1] (no unsigned operand is [-1]). *)
Definition crem (a b : Z) : res Z :=
  if b =? 0 then Err Division_by_zero
  else if (a =? WORD_MIN) && (b =? -1) then Err Signed_overflow
  else Ok (Z.rem a b).

(** The [while (true)] loop of [template<typename integer> integer gcd]. *)
Fixpoint gcd_loop (fuel : nat) (a b : Z) : res Z :=
  match fuel with
  | O => Err Out_of_fuel
  | S fuel => let! r := crem a b in if r =? 0 then Ok b else gcd_loop fuel b r
  end.

Definition gcd_fuel (b : Z) : nat := S (S (Z.to_nat (2 * Z.log2 (Z.abs b) + 1))).

Definition gcd (a b : Z) : res Z :=
  if a =? 0 then Ok b else
  if b =? 0 then Ok a else
  if a <? b then gcd_loop (gcd_fuel a) b a else gcd_loop (gcd_fuel b) a b.

(** Integer division of the C++ code, undefined on a zero divisor. *)
Definition cdiv (a b : Z) : res Z :=
  if b =? 0 then Err Division_by_zero else Ok (Z.quot a b).

(** ** The [goto overflow] of the word operations

    A block of word arithmetic falls through with a result, jumps to the label
    [overflow:], or fails. *)
Inductive jump (A : Type) : Type :=
| Fall (a : A)
| Goto_overflow
| Raise (e : error).
Arguments Fall {A} a.
Arguments Goto_overflow {A}.
Arguments Raise {A} e.

Definition jbind {A B : Type} (m : jump A) (k : A → jump B) : jump B :=
  match m with Fall a => k a | Goto_overflow => Goto_overflow | Raise e => Raise e end.
Notation "'jlet' x ':=' m 'in' k" := (jbind m (λ x, k))
  (at level 10, x pattern, m at level 100, k at level 200) : res_scope.

Definition lift {A : Type} (m : res A) : jump A :=
  match m with Ok a => Fall a | Err e => Raise e end.

Definition CHECK_WORD (value : Z) : jump Z :=
  let tmp := to_lword value in
  if (tmp <? WORD_MIN) || (WORD_MAX <? tmp) then Goto_overflow else Fall (to_word tmp).

Definition CHECK_UWORD (value : Z) : jump Z :=
  if value <? 1 then Raise Abort_called else
  let tmp := to_ulword value in
  if UWORD_MAX <? tmp then Goto_overflow else Fall (to_uword tmp).

Definition CHECK_SUM_OVERFLOWS_LWORD (s1 s2 : Z) : jump Z :=
  if (0 <? s1) && (LWORD_MAX - s1 <? s2) then Goto_overflow else
  if (s1 <? 0) && (s2 <? LWORD_MIN - s1) then Goto_overflow else
  Fall (s1 + s2).

Definition CHECK_SUB_OVERFLOWS_LWORD (s1 s2 : Z) : jump Z :=
  if (0 <=? s1) && (s2 <? s1 - LWORD_MAX) then Goto_overflow else
  if (s1 <? 0) && ((s1 + 1) + LWORD_MAX <? s2) then Goto_overflow else
  Fall (s1 - s2).

(** ** The state byte *)

Definition WORD_VALID : Z := 1.
Definition MPQ_MEMORY_ALLOCATED : Z := 2.
Definition WORD_PLUS_MPQ_INITIALIZED : Z := Z.lor WORD_VALID MPQ_MEMORY_ALLOCATED.
Definition MPQ_VALID : Z := 4.
Definition MPQ_ALLOCATED_AND_VALID : Z := Z.lor MPQ_MEMORY_ALLOCATED MPQ_VALID.
Definition WORD_AND_MPQ : Z := Z.lor WORD_VALID MPQ_ALLOCATED_AND_VALID.

Definition wordValidMask : Z := 1.
Definition mpqMemoryAllocatedMask : Z := 2.
Definition mpqValidMask : Z := 4.

(** The members of class FastRational.  [mpq] is what the pointer of the same
    name points to; while no memory is allocated it is unspecified, as is the
    memory [pool.alloc()] returns, so allocation leaves it as it is and no
    lemma constrains it before it is written. *)
Record FastRational : Type := FR { state : Z; num : Z; den : Z; mpq : mpq_t }.

Definition set_state (r : FastRational) (s : Z) : FastRational := FR s (num r) (den r) (mpq r).
Definition set_word (r : FastRational) (n d : Z) : FastRational := FR (state r) n d (mpq r).
Definition set_mpq (r : FastRational) (q : mpq_t) : FastRational := FR (state r) (num r) (den r) q.

Definition wordPartValid (r : FastRational) : bool := negb (Z.land (state r) wordValidMask =? 0).
Definition mpqMemoryAllocated (r : FastRational) : bool :=
  negb (Z.land (state r) mpqMemoryAllocatedMask =? 0).
Definition mpqPartValid (r : FastRational) : bool := negb (Z.land (state r) mpqValidMask =? 0).

Definition setMpqAllocatedAndValid (r : FastRational) : FastRational :=
  set_state r (Z.lor (state r) MPQ_ALLOCATED_AND_VALID).
Definition setMpqMemoryAllocated (r : FastRational) : FastRational :=
  set_state r (Z.lor (state r) MPQ_MEMORY_ALLOCATED).
Definition setWordPartValid (r : FastRational) : FastRational :=
  set_state r (Z.lor (state r) WORD_VALID).
Definition setWordPartInvalid (r : FastRational) : FastRational :=
  set_state r MPQ_ALLOCATED_AND_VALID.
Definition setMpqPartInvalid (r : FastRational) : FastRational :=
  set_state r (Z.land (state r) (Z.lnot mpqValidMask)).
Definition setOnlyWordPartValid (r : FastRational) : FastRational :=
  setMpqPartInvalid (setWordPartValid r).

Definition word_rational (n d : Z) : FastRational := FR WORD_VALID n d (Mpq 0 1).

(** [FastRational ()], [FastRational (word x)]. *)
Definition FastRational_default : FastRational := word_rational 0 1.
Definition FastRational_word (x : Z) : FastRational := word_rational x 1.

Section with_gmp.
Context {gmp : GMP}.

(** [FastRational::kill_mpq], what the destructor calls; the memory goes back
    to the pool. *)
Definition kill_mpq (r : FastRational) : FastRational :=
  if mpqMemoryAllocated r then set_state r WORD_VALID else r.

(** [FastRational::reset]. *)
Definition reset (r : FastRational) : FastRational :=
  set_word (set_state (kill_mpq r) WORD_VALID) 0 1.

Definition ensure_mpq_valid (r : FastRational) : FastRational :=
  if mpqPartValid r then r
  else setMpqAllocatedAndValid (set_mpq r (Mpq (num r) (den r))).

(** The same on a [const] object. *)
Definition force_ensure_mpq_valid (r : FastRational) : FastRational := ensure_mpq_valid r.

Definition ensure_mpq_memory_allocated (r : FastRational) : FastRational :=
  if mpqMemoryAllocated r then r else setMpqMemoryAllocated r.

Definition fitsWord (r : FastRational) : bool :=
  mpz_fits_sint_p (numref (mpq r)) && mpz_fits_uint_p (denref (mpq r)).

Definition try_fit_word (r : FastRational) : FastRational :=
  if fitsWord r then
    setWordPartValid (set_word r (to_word (mpz_get_si (numref (mpq r))))
                                 (to_uword (mpz_get_ui (denref (mpq r)))))
  else r.

(** The end of every operation that jumped to [overflow:]: [q] is what the
    [mpq_*] function stored into [dst.mpq]. *)
Definition overflow_result (dst : FastRational) (q : mpq_t) : FastRational :=
  try_fit_word (set_state (set_mpq (ensure_mpq_memory_allocated dst) q) MPQ_ALLOCATED_AND_VALID).

Definition wordAndMpqEqual (r : FastRational) : bool :=
  let int_den := to_uword (mpz_get_ui (denref (mpq r))) in
  let int_num := to_word (mpz_get_si (numref (mpq r))) in
  (int_den =? den r) && (int_num =? num r).

Definition isWellFormed (r : FastRational) : res bool :=
  let! g := (if wordPartValid r then gcd (absVal (num r)) (den r) else Ok 1) in
  Ok ((wordPartValid r || mpqPartValid r)
      && (negb (wordPartValid r) || (negb (den r =? 0) && (g =? 1)))
      && (negb (mpqPartValid r) || negb (mpz_sgn (denref (mpq r)) =? 0))
      && (negb (wordPartValid r && mpqPartValid r) || wordAndMpqEqual r)).

(** ** Constructors and assignment *)

(** [FastRational::FastRational(mpz_t z)]. *)
Definition FastRational_mpz (z : Z) : FastRational :=
  if mpz_fits_sint_p z then word_rational (to_word (mpz_get_si z)) 1
  else FR MPQ_ALLOCATED_AND_VALID 0 1 (Mpq z 1).

(** [FastRational::FastRational(uint32_t x)]. *)
Definition FastRational_uint32 (x : Z) : FastRational :=
  if WORD_MAX <? x then FR MPQ_ALLOCATED_AND_VALID 0 1 (Mpq x 1)
  else word_rational (to_word x) 1.

(** [inline FastRational::FastRational(word n, uword d)]. *)
Definition FastRational_frac (n d : Z) : res FastRational :=
  if n =? 0 then Ok (word_rational 0 1) else
  let! common := gcd (absVal n) d in
  if 1 <? common then
    (* [n] is converted to [uword] in [n / common] *)
    let! n' := cdiv (to_uword n) common in
    let! d' := cdiv d common in
    Ok (word_rational (to_word n') d')
  else Ok (word_rational n d).

(** The copy constructor. *)
Definition FastRational_copy (x : FastRational) : FastRational :=
  if wordPartValid x then word_rational (num x) (den x)
  else FR MPQ_ALLOCATED_AND_VALID 0 1 (mpq x).

(** [FastRational & operator=( const FastRational & )]. *)
Definition assign (this x : FastRational) : FastRational :=
  if wordPartValid x then setOnlyWordPartValid (set_word this (num x) (den x))
  else set_state (set_mpq this (mpq x)) MPQ_ALLOCATED_AND_VALID.

(** [FastRational & operator=(FastRational && other)]: the members are
    swapped. *)
Definition move_assign (this other : FastRational) : FastRational * FastRational := (other, this).

(** ** Negation, comparison, sign *)

Definition opp (r : FastRational) : res (FastRational * FastRational) :=
  if wordPartValid r && (WORD_MIN <? num r) then
    let! x := FastRational_frac (- num r) (den r) in Ok (x, r)
  else
    let r := force_ensure_mpq_valid r in
    Ok (try_fit_word (FR MPQ_ALLOCATED_AND_VALID 0 1 (mpq_neg (mpq r))), r).

Definition negate (r : FastRational) : FastRational :=
  if wordPartValid r && (WORD_MIN <? num r) then
    setMpqPartInvalid (set_word r (- num r) (den r))
  else
    let r := force_ensure_mpq_valid r in
    try_fit_word (setWordPartInvalid (set_mpq r (mpq_neg (mpq r)))).

(** [static inline int compare(lword a, lword b)]. *)
Definition compare_lword (a b : Z) : Z :=
  if a <? b then -1 else if b <? a then 1 else 0.

Definition compare (a b : FastRational) : Z :=
  if wordPartValid a && wordPartValid b then
    if den b =? den a then compare_lword (num a) (num b)
    else compare_lword (to_lword (num a * den b)) (to_lword (num b * den a))
  else mpq_cmp (mpq (force_ensure_mpq_valid a)) (mpq (force_ensure_mpq_valid b)).

Definition lt (a b : FastRational) : bool := compare a b <? 0.
Definition gt (a b : FastRational) : bool := 0 <? compare a b.
Definition le (a b : FastRational) : bool := compare a b <=? 0.
Definition ge (a b : FastRational) : bool := 0 <=? compare a b.

Definition eqb (a b : FastRational) : bool :=
  if wordPartValid a && wordPartValid b then (num a =? num b) && (den a =? den b)
  else mpq_equal (mpq (force_ensure_mpq_valid a)) (mpq (force_ensure_mpq_valid b)).

Definition sign (r : FastRational) : Z :=
  if wordPartValid r then
    if num r <? 0 then -1 else if 0 <? num r then 1 else 0
  else mpq_sgn (mpq r).

Definition isZero (r : FastRational) : bool := wordPartValid r && (num r =? 0).
Definition isOne (r : FastRational) : bool :=
  wordPartValid r && (num r =? 1) && (den r =? 1).

Definition isNegative (r : FastRational) : bool := sign r <? 0.
Definition isPositive (r : FastRational) : bool := 0 <? sign r.
Definition isNonNegative (r : FastRational) : bool := 0 <=? sign r.
Definition isNonPositive (r : FastRational) : bool := sign r <=? 0.

(** [getHashValue], on the branch of a valid word part. *)
Definition getHashValue_word (r : FastRational) : Z :=
  to_uword (to_uword (37 * to_uword (num r)) + to_uword (13 * to_uword (den r))).

(** ** Addition and subtraction *)

Definition addition_words (a b : FastRational) : jump (Z * Z) :=
  if num b =? 0 then Fall (num a, den a) else
  if num a =? 0 then Fall (num b, den b) else
  if (den a =? den b) && (WORD_MIN <? num b) && (num a =? - num b) then Fall (0, 1) else
  if den b =? 1 then
    let num_tmp := to_lword (num a + to_lword (num b * den a)) in
    jlet n := CHECK_WORD num_tmp in Fall (n, den a)
  else if den a =? 1 then
    let num_tmp := to_lword (num b + to_lword (num a * den b)) in
    jlet n := CHECK_WORD num_tmp in Fall (n, den b)
  else
    jlet common := lift (gcd (den a) (den b)) in
    jlet bc := lift (cdiv (den b) common) in
    jlet ac := lift (cdiv (den a) common) in
    let n1 := if negb (common =? 1) then to_lword (num a * bc) else to_lword (num a * den b) in
    let n2 := if negb (common =? 1) then to_lword (num b * ac) else to_lword (num b * den a) in
    jlet n := CHECK_SUM_OVERFLOWS_LWORD n1 n2 in
    let d := to_ulword (den a * bc) in
    jlet g := lift (gcd (absVal64 n) d) in
    let common := to_uword g in
    if negb (common =? 1) then
      jlet nc := lift (cdiv n common) in
      jlet zn := CHECK_WORD nc in
      jlet dc := lift (cdiv d common) in
      jlet zd := CHECK_UWORD dc in
      Fall (zn, zd)
    else
      jlet zn := CHECK_WORD n in
      jlet zd := CHECK_UWORD d in
      Fall (zn, zd).

Definition addition (dst a b : FastRational) : res (FastRational * FastRational * FastRational) :=
  let overflow :=
    let a := force_ensure_mpq_valid a in
    let b := force_ensure_mpq_valid b in
    Ok (overflow_result dst (mpq_add (mpq a) (mpq b)), a, b) in
  if wordPartValid a && wordPartValid b then
    match addition_words a b with
    | Fall (n, d) => Ok (setOnlyWordPartValid (set_word dst n d), a, b)
    | Goto_overflow => overflow
    | Raise e => Err e
    end
  else overflow.

Definition substraction_words (a b : FastRational) : jump (Z * Z) :=
  if num b =? 0 then Fall (num a, den a) else
  if num a =? 0 then
    jlet n := CHECK_WORD (to_lword (- num b)) in Fall (n, den b)
  else if (den a =? den b) && (num a =? num b) then Fall (0, 1) else
  if den b =? 1 then
    jlet n := CHECK_WORD (to_lword (num a - to_lword (num b * den a))) in Fall (n, den a)
  else if den a =? 1 then
    jlet n := CHECK_WORD (to_lword (to_lword (num a * den b) - num b)) in Fall (n, den b)
  else
    jlet common := lift (gcd (den a) (den b)) in
    jlet bc := lift (cdiv (den b) common) in
    jlet ac := lift (cdiv (den a) common) in
    jlet n :=
      (if negb (common =? 1) then
         Fall (to_lword (to_lword (num a * bc) - to_lword (num b * ac)))
       else
         CHECK_SUB_OVERFLOWS_LWORD (to_lword (num a * den b)) (to_lword (num b * den a))) in
    let d := if negb (common =? 1) then to_ulword (den a * bc) else to_ulword (den a * den b) in
    jlet g := lift (gcd (absVal64 n) d) in
    let common := to_uword g in
    if negb (common =? 1) then
      jlet nc := lift (cdiv n common) in
      jlet zn := CHECK_WORD nc in
      jlet dc := lift (cdiv d common) in
      jlet zd := CHECK_UWORD dc in
      Fall (zn, zd)
    else
      jlet zn := CHECK_WORD n in
      jlet zd := CHECK_UWORD d in
      Fall (zn, zd).

Definition substraction (dst a b : FastRational) : res (FastRational * FastRational * FastRational) :=
  let overflow :=
    let a := force_ensure_mpq_valid a in
    let b := force_ensure_mpq_valid b in
    Ok (overflow_result dst (mpq_sub (mpq a) (mpq b)), a, b) in
  if wordPartValid a && wordPartValid b then
    match substraction_words a b with
    | Fall (n, d) => Ok (setOnlyWordPartValid (set_word dst n d), a, b)
    | Goto_overflow => overflow
    | Raise e => Err e
    end
  else overflow.

(** ** Multiplication and division *)

Definition multiplication_words (a b : FastRational) : jump (Z * Z) :=
  jlet common1 := lift (gcd (absVal (num a)) (den b)) in
  jlet common2 := lift (gcd (den a) (absVal (num b))) in
  jlet k1 := (if 1 <? common1 then lift (cdiv (num a) common1) else Fall (num a)) in
  jlet k4 := (if 1 <? common1 then lift (cdiv (den b) common1) else Fall (den b)) in
  jlet k2 := (if 1 <? common2 then lift (cdiv (num b) common2) else Fall (num b)) in
  jlet k3 := (if 1 <? common2 then lift (cdiv (den a) common2) else Fall (den a)) in
  jlet zn := CHECK_WORD (to_lword (k1 * k2)) in
  jlet zd := CHECK_UWORD (to_ulword (k3 * k4)) in
  Fall (zn, zd).

Definition multiplication (dst a b : FastRational) : res (FastRational * FastRational * FastRational) :=
  let overflow :=
    let a := force_ensure_mpq_valid a in
    let b := force_ensure_mpq_valid b in
    Ok (overflow_result dst (mpq_mul (mpq a) (mpq b)), a, b) in
  if (wordPartValid a && (num a =? 0)) || (wordPartValid b && (num b =? 0)) then
    Ok (setOnlyWordPartValid (set_word dst 0 1), a, b)
  else if isOne a then Ok (assign dst b, a, b)
  else if isOne b then Ok (assign dst a, a, b)
  else if wordPartValid a && wordPartValid b then
    match multiplication_words a b with
    | Fall (n, d) => Ok (setOnlyWordPartValid (set_word dst n d), a, b)
    | Goto_overflow => overflow
    | Raise e => Err e
    end
  else overflow.

(** [mpq_div] raises a division-by-zero exception on a zero divisor. *)
Definition mpq_div_checked (p q : mpq_t) : res mpq_t :=
  if numref q =? 0 then Err Division_by_zero else Ok (mpq_div p q).

(** The sign fix shared by the division and assignment operations. *)
Definition flip_sign (a b : FastRational) : bool :=
  ((num b <? 0) && (0 <=? num a)) || ((0 <? num b) && (num a <=? 0)).

Definition division_words (a b : FastRational) : jump (Z * Z) :=
  if (num a =? num b) && (den a =? den b) then Fall (1, 1) else
  jlet common1 := lift (gcd (absVal (num a)) (absVal (num b))) in
  jlet common2 := lift (gcd (den a) (den b)) in
  jlet x1 := lift (cdiv (absVal (num a)) common1) in
  jlet x2 := lift (cdiv (den b) common2) in
  jlet zn := CHECK_WORD (to_ulword (x1 * x2)) in
  jlet y1 := lift (cdiv (absVal (num b)) common1) in
  jlet y2 := lift (cdiv (den a) common2) in
  jlet zd := CHECK_UWORD (to_ulword (y1 * y2)) in
  Fall (if flip_sign a b then - zn else zn, zd).

Definition division (dst a b : FastRational) : res (FastRational * FastRational * FastRational) :=
  let overflow :=
    let a := force_ensure_mpq_valid a in
    let b := force_ensure_mpq_valid b in
    let! q := mpq_div_checked (mpq a) (mpq b) in
    Ok (overflow_result dst q, a, b) in
  if isOne b then Ok (assign dst a, a, b)
  else if wordPartValid a && (num a =? 0) then
    Ok (fst (move_assign dst (FastRational_word 0)), a, b)
  else if wordPartValid a && wordPartValid b then
    match division_words a b with
    | Fall (n, d) => Ok (setOnlyWordPartValid (set_word dst n d), a, b)
    | Goto_overflow => overflow
    | Raise e => Err e
    end
  else overflow.

(** ** Compound assignments: [a] is updated in place *)

(** What follows the label [overflow:] of the compound assignments. *)
Definition overflow_assign (op : mpq_t → mpq_t → res mpq_t) (a b : FastRational)
    : res (FastRational * FastRational) :=
  let a := ensure_mpq_valid a in
  let b := force_ensure_mpq_valid b in
  let! q := op (mpq a) (mpq b) in
  Ok (try_fit_word (set_state (set_mpq a q) MPQ_ALLOCATED_AND_VALID), b).

Definition additionAssign_words (a b : FastRational) : jump (Z * Z) :=
  if den b =? 1 then
    jlet n := CHECK_WORD (to_lword (num a + to_lword (num b * den a))) in Fall (n, den a)
  else if num a =? 0 then Fall (num b, den b)
  else
    let c1 := to_lword (num a * den b) in
    let c2 := to_lword (num b * den a) in
    jlet n := CHECK_SUM_OVERFLOWS_LWORD c1 c2 in
    let d := to_ulword (den a * den b) in
    jlet g := lift (gcd (absVal64 n) d) in
    let common := to_lword g in
    if 1 <? common then
      jlet nc := lift (cdiv n common) in
      jlet zn := CHECK_WORD nc in
      jlet dc := lift (cdiv d common) in
      jlet zd := CHECK_UWORD dc in
      Fall (zn, zd)
    else
      jlet zn := CHECK_WORD n in
      jlet zd := CHECK_UWORD d in
      Fall (zn, zd).

Definition additionAssign (a b : FastRational) : res (FastRational * FastRational) :=
  let overflow := overflow_assign (λ p q, Ok (mpq_add p q)) a b in
  if wordPartValid b then
    if num b =? 0 then Ok (a, b)
    else if wordPartValid a then
      match additionAssign_words a b with
      | Fall (n, d) => Ok (setOnlyWordPartValid (set_word a n d), b)
      | Goto_overflow => overflow
      | Raise e => Err e
      end
    else overflow
  else overflow.

Definition substractionAssign_words (a b : FastRational) : jump (Z * Z) :=
  jlet common := lift (gcd (den a) (den b)) in
  jlet bc := lift (cdiv (den b) common) in
  jlet n1 := CHECK_WORD (to_lword (num a * bc)) in
  jlet ac := lift (cdiv (den a) common) in
  jlet n2 := CHECK_WORD (to_lword (num b * ac)) in
  let n := to_lword (n1 - n2) in
  let d := to_ulword (den a * bc) in
  jlet g := lift (gcd (absVal64 n) d) in
  let common := to_uword g in
  if 1 <? common then
    jlet nc := lift (cdiv n common) in
    jlet zn := CHECK_WORD nc in
    jlet dc := lift (cdiv d common) in
    jlet zd := CHECK_UWORD dc in
    Fall (zn, zd)
  else
    jlet zn := CHECK_WORD n in
    jlet zd := CHECK_UWORD d in
    Fall (zn, zd).

Definition substractionAssign (a b : FastRational) : res (FastRational * FastRational) :=
  let overflow := overflow_assign (λ p q, Ok (mpq_sub p q)) a b in
  if wordPartValid a && wordPartValid b then
    match substractionAssign_words a b with
    | Fall (n, d) => Ok (setOnlyWordPartValid (set_word a n d), b)
    | Goto_overflow => overflow
    | Raise e => Err e
    end
  else overflow.

Definition multiplicationAssign_words (a b : FastRational) : jump (Z * Z) :=
  jlet common1 := lift (gcd (absVal (num a)) (den b)) in
  jlet common2 := lift (gcd (den a) (absVal (num b))) in
  jlet x1 := (if 1 <? common1 then lift (cdiv (absVal (num a)) common1) else Fall (absVal (num a))) in
  jlet x2 := (if 1 <? common2 then lift (cdiv (absVal (num b)) common2) else Fall (absVal (num b))) in
  jlet zn := CHECK_WORD (to_lword (to_lword x1 * x2)) in
  jlet y1 := (if 1 <? common2 then lift (cdiv (den a) common2) else Fall (den a)) in
  jlet y2 := (if 1 <? common1 then lift (cdiv (den b) common1) else Fall (den b)) in
  jlet zd := CHECK_UWORD (to_ulword (y1 * y2)) in
  Fall (if flip_sign a b then - zn else zn, zd).

Definition multiplicationAssign (a b : FastRational) : res (FastRational * FastRational) :=
  let overflow := overflow_assign (λ p q, Ok (mpq_mul p q)) a b in
  if wordPartValid a && wordPartValid b then
    match multiplicationAssign_words a b with
    | Fall (n, d) => Ok (setOnlyWordPartValid (set_word a n d), b)
    | Goto_overflow => overflow
    | Raise e => Err e
    end
  else overflow.

Definition divisionAssign_words (a b : FastRational) : jump (Z * Z) :=
  jlet common1 := lift (gcd (absVal (num a)) (absVal (num b))) in
  jlet common2 := lift (gcd (den a) (den b)) in
  jlet x1 := lift (cdiv (absVal (num a)) common1) in
  jlet x2 := lift (cdiv (den b) common2) in
  jlet zn := CHECK_WORD (to_ulword (x1 * x2)) in
  jlet y1 := lift (cdiv (absVal (num b)) common1) in
  jlet y2 := lift (cdiv (den a) common2) in
  jlet zd := CHECK_UWORD (to_ulword (y1 * y2)) in
  Fall (if flip_sign a b then - zn else zn, zd).

Definition divisionAssign (a b : FastRational) : res (FastRational * FastRational) :=
  let overflow := overflow_assign mpq_div_checked a b in
  if wordPartValid a && wordPartValid b then
    match divisionAssign_words a b with
    | Fall (n, d) => Ok (setOnlyWordPartValid (set_word a n d), b)
    | Goto_overflow => overflow
    | Raise e => Err e
    end
  else overflow.

Definition inverse_words (r : FastRational) : jump (Z * Z) :=
  if 0 <? num r then
    jlet zn := CHECK_WORD (den r) in
    jlet zd := CHECK_UWORD (num r) in
    Fall (zn, zd)
  else
    jlet zn := CHECK_WORD (- den r) in
    jlet zd := CHECK_UWORD (- num r) in
    Fall (zn, zd).

Definition inverse (r : FastRational) : res (FastRational * FastRational) :=
  let overflow :=
    let r := force_ensure_mpq_valid r in
    if numref (mpq r) =? 0 then Err Division_by_zero
    else Ok (overflow_result FastRational_default (mpq_inv (mpq r)), r) in
  if wordPartValid r then
    let! _ := check (negb (num r =? 0)) in
    match inverse_words r with
    | Fall (n, d) => Ok (set_word FastRational_default n d, r)
    | Goto_overflow => overflow
    | Raise e => Err e
    end
  else overflow.

(** ** The operators *)

Definition plus (a b : FastRational) : res FastRational :=
  let! (d, _, _) := addition FastRational_default a b in Ok d.
Definition minus (a b : FastRational) : res FastRational :=
  let! (d, _, _) := substraction FastRational_default a b in Ok d.
Definition times (a b : FastRational) : res FastRational :=
  let! (d, _, _) := multiplication FastRational_default a b in Ok d.
Definition divide (a b : FastRational) : res FastRational :=
  let! (d, _, _) := division FastRational_default a b in Ok d.

(** [inline FastRational abs(const FastRational& x)]. *)
Definition abs (x : FastRational) : res FastRational :=
  if 0 <=? sign x then Ok (FastRational_copy x)
  else let! (y, _) := opp x in Ok y.

Definition cmpabs (op1 op2 : FastRational) : res Z :=
  let! op1 := (if sign op1 =? -1 then let! (x, _) := opp op1 in Ok x else Ok op1) in
  let! op2 := (if sign op2 =? -1 then let! (x, _) := opp op2 in Ok x else Ok op2) in
  Ok (compare op1 op2).

(** ** Integer operations *)

Definition isInteger (r : FastRational) : bool :=
  if wordPartValid r then den r =? 1
  else mpz_fits_uint_p (denref (mpq r)) && (mpz_get_ui (denref (mpq r)) =? 1).

Definition get_num (r : FastRational) : FastRational :=
  if wordPartValid r then FastRational_word (num r) else FastRational_mpz (numref (mpq r)).

Definition get_den (r : FastRational) : FastRational :=
  if wordPartValid r && (den r <=? WORD_MAX) then FastRational_uint32 (den r)
  else FastRational_mpz (denref (mpq (force_ensure_mpq_valid r))).

Definition ceil (r : FastRational) : res FastRational :=
  if isInteger r then Ok (FastRational_copy r)
  else if wordPartValid r then
    let! ret := cdiv (absVal (num r)) (den r) in
    let ret := to_word ret in
    Ok (FastRational_word (if num r <? 0 then - ret else ret + 1))
  else Ok (FastRational_mpz (mpz_cdiv_q (numref (mpq r)) (denref (mpq r)))).

Definition floor (r : FastRational) : res FastRational :=
  if isInteger r then Ok (FastRational_copy r)
  else let! c := ceil r in minus c (FastRational_word 1).

(** [operator%]: on words C++'s [%] made non-negative, on the other branch the
    remainder of the floored division. *)
Definition modulo (a d : FastRational) : res FastRational :=
  let! _ := check (isInteger a && isInteger d) in
  if wordPartValid a && wordPartValid d then
    let! m := crem (num a) (num d) in
    let w := absVal m in
    Ok (FastRational_word (to_word (if 0 <? num d then w else to_uword (- w))))
  else
    let! r := divide a d in
    let! r := floor r in
    let! rd := times r d in
    minus a rd.

(** [word / word]: undefined when the quotient does not fit. *)
Definition cdiv_word (a b : Z) : res Z :=
  if b =? 0 then Err Division_by_zero
  else if (a =? WORD_MIN) && (b =? -1) then Err Signed_overflow
  else Ok (Z.quot a b).

Definition fastrat_fdiv_q (n d : FastRational) : res FastRational :=
  let! _ := check (isInteger n && isInteger d) in
  let overflow :=
    let qn := numref (mpq (force_ensure_mpq_valid n)) in
    let qd := numref (mpq (force_ensure_mpq_valid d)) in
    if qd =? 0 then Err Division_by_zero else Ok (FastRational_mpz (mpz_fdiv_q qn qd)) in
  if wordPartValid n && wordPartValid d then
    if num n =? WORD_MIN then overflow else
    let! quo := cdiv_word (num n) (num d) in
    let! r := crem (num n) (num d) in
    Ok (FastRational_word
      (if negb (r =? 0)
          && (((num n <? 0) && (0 <=? num d)) || ((num d <? 0) && (0 <=? num n)))
       then quo - 1 else quo))
  else overflow.

Definition divexact (n d : FastRational) : res FastRational :=
  let! _ := check (negb (eqb d (FastRational_word 0))) in
  let! _ := check (isInteger n && isInteger d) in
  if wordPartValid n && wordPartValid d then
    let! quo := cdiv_word (num n) (num d) in
    Ok (FastRational_word quo)
  else
    Ok (FastRational_mpz (mpz_divexact (numref (mpq (force_ensure_mpq_valid n)))
                                       (numref (mpq (force_ensure_mpq_valid d))))).

(** [FastRational gcd(FastRational const &, FastRational const &)]. *)
Definition gcd_fr (a b : FastRational) : res FastRational :=
  let! _ := check (isInteger a && isInteger b) in
  if wordPartValid a && wordPartValid b then
    let! g := gcd (num a) (num b) in Ok (FastRational_word g)
  else
    Ok (FastRational_mpz (mpz_gcd (numref (mpq (force_ensure_mpq_valid a)))
                                  (numref (mpq (force_ensure_mpq_valid b))))).

(** [template<typename integer> FastRational lcm(integer a, integer b)] on words. *)
Definition lcm_word (a b : Z) : res FastRational :=
  if a =? 0 then Ok (FastRational_word 0) else
  if b =? 0 then Ok (FastRational_word 0) else
  let! g := gcd a b in
  if a <? b then
    let! q := cdiv_word b g in times (FastRational_word q) (FastRational_word a)
  else
    let! q := cdiv_word a g in times (FastRational_word q) (FastRational_word b).

Definition lcm_fr (a b : FastRational) : res FastRational :=
  let! _ := check (isInteger a && isInteger b) in
  if wordPartValid a && wordPartValid b then lcm_word (num a) (num b)
  else
    Ok (FastRational_mpz (mpz_lcm (numref (mpq (force_ensure_mpq_valid a)))
                                  (numref (mpq (force_ensure_mpq_valid b))))).

Definition fastrat_round_to_int (n : FastRational) : res FastRational :=
  let! half := FastRational_frac 1 2 in
  let! r := plus n half in
  fastrat_fdiv_q (get_num r) (get_den r).

End with_gmp.
