(* ===== verification/FastRationalFacts.v ===== *)
(** * The rationals compute exactly

    Every operation of FastRational.v, on well-formed operands, returns a
    well-formed object whose value is the exact result: no intermediate word
    operation wraps around, every jump to [overflow:] is taken when the reduced
    result does not fit a word, and the state byte is consistent afterwards. *)
From S2P Require Import Prelude Gmp FastRational.
From Stdlib Require Import Znumtheory Lia.

(** ** Euclid's loop *)

Lemma crem_ok a b : b ≠ 0 → (a = WORD_MIN → b ≠ -1) → crem a b = Ok (Z.rem a b).
Proof.
  intros Hb Hu. unfold crem.
  rewrite (proj2 (Z.eqb_neq b 0)) by done.
  destruct (Z.eqb_spec a WORD_MIN); [|done].
  rewrite (proj2 (Z.eqb_neq b (-1))) by auto. done.
Qed.

Lemma gcd_rem a b : b ≠ 0 → Z.gcd b (Z.rem a b) = Z.gcd a b.
Proof.
  intros Hb. rewrite (Z.rem_eq a b) by done.
  rewrite (Z.gcd_comm a b), <- (Z.gcd_add_mult_diag_r b a (- Z.quot a b)).
  f_equal. lia.
Qed.

Lemma gcd_loop_step_log a b : 0 < b ≤ a → Z.rem a b ≠ 0 →
  Z.log2 (Z.rem a b) < Z.log2 a.
Proof.
  intros Hb Hr.
  pose proof (Z.rem_bound_pos a b ltac:(lia) ltac:(lia)) as Hrb.
  pose proof (Z.quot_rem' a b) as Hq.
  assert (1 ≤ Z.quot a b) by (apply Z.quot_le_lower_bound; lia).
  assert (2 * Z.rem a b ≤ a) as H2 by nia.
  pose proof (Z.log2_le_mono _ _ H2) as Hl.
  rewrite Z.log2_double in Hl by lia. lia.
Qed.

(** On non-negative operands the loop returns the greatest common divisor,
    within a number of iterations logarithmic in its operands. *)
Lemma gcd_loop_nonneg fuel a b : 0 < b ≤ a →
  Z.log2 a + Z.log2 b < Z.of_nat fuel → gcd_loop fuel a b = Ok (Z.gcd a b).
Proof.
  revert a b. induction fuel as [|fuel IH]; intros a b Hb Hf.
  { pose proof (Z.log2_nonneg a). pose proof (Z.log2_nonneg b). lia. }
  simpl. rewrite crem_ok by (unfold_widths; lia). simpl.
  pose proof (Z.rem_bound_pos a b ltac:(lia) ltac:(lia)) as Hr.
  destruct (Z.eqb_spec (Z.rem a b) 0) as [H0|H0].
  - rewrite <- (gcd_rem a b), H0, Z.gcd_0_r by lia. f_equal. lia.
  - pose proof (gcd_loop_step_log a b Hb H0) as Hl.
    rewrite IH; [by rewrite gcd_rem by lia | lia | lia].
Qed.

Lemma gcd_loop_fuel a b : 0 < b ≤ a → gcd_loop (gcd_fuel b) a b = Ok (Z.gcd a b).
Proof.
  intros Hb. unfold gcd_fuel.
  pose proof (Z.log2_nonneg b).
  cbn [gcd_loop]. rewrite crem_ok by (unfold_widths; lia). cbn [rbind].
  pose proof (Z.rem_bound_pos a b ltac:(lia) ltac:(lia)) as Hr.
  destruct (Z.eqb_spec (Z.rem a b) 0) as [H0|H0].
  - rewrite <- (gcd_rem a b), H0, Z.gcd_0_r by lia. f_equal. lia.
  - change (rbind (crem b (Z.rem a b)) (λ r, if r =? 0 then Ok (Z.rem a b)
      else gcd_loop (Z.to_nat (2 * Z.log2 (Z.abs b) + 1)) (Z.rem a b) r))
      with (gcd_loop (S (Z.to_nat (2 * Z.log2 (Z.abs b) + 1))) b (Z.rem a b)).
    rewrite gcd_loop_nonneg; [by rewrite gcd_rem by lia | lia |].
    rewrite (Z.abs_eq b) by lia.
    pose proof (Z.log2_le_mono (Z.rem a b) b ltac:(lia)). lia.
Qed.

Lemma gcd_ok a b : 0 ≤ a → 0 ≤ b → gcd a b = Ok (Z.gcd a b).
Proof.
  intros Ha Hb. unfold gcd.
  destruct (Z.eqb_spec a 0) as [->|Ha0]; [by rewrite Z.gcd_0_l, Z.abs_eq|].
  destruct (Z.eqb_spec b 0) as [->|Hb0]; [by rewrite Z.gcd_0_r, Z.abs_eq|].
  destruct (Z.ltb_spec a b).
  - rewrite gcd_loop_fuel, Z.gcd_comm by lia. done.
  - rewrite gcd_loop_fuel by lia. done.
Qed.

(** ** Words *)

Lemma absVal_abs x : in_word x → absVal x = Z.abs x.
Proof.
  intros Hx. unfold absVal, to_uword, wrap_u. unfold_widths.
  destruct (Z.ltb_spec x 0).
  - rewrite (Z.mod_eq x) by lia. replace (x / 2 ^ 32) with (-1)
      by (apply (Z.div_unique x (2 ^ 32) (-1) (x + 2 ^ 32)); lia).
    rewrite (Z.abs_neq x) by lia.
    symmetry. apply (Z.mod_unique _ _ (-1)); lia.
  - rewrite Z.mod_small by lia. lia.
Qed.

Lemma absVal64_abs x : in_lword x → absVal64 x = Z.abs x.
Proof.
  intros Hx. unfold absVal64, to_ulword, wrap_u. unfold_widths.
  destruct (Z.ltb_spec x 0).
  - rewrite (Z.mod_eq x) by lia. replace (x / 2 ^ 64) with (-1)
      by (apply (Z.div_unique x (2 ^ 64) (-1) (x + 2 ^ 64)); lia).
    rewrite (Z.abs_neq x) by lia.
    symmetry. apply (Z.mod_unique _ _ (-1)); lia.
  - rewrite Z.mod_small by lia. lia.
Qed.

Lemma cdiv_ok a b : b ≠ 0 → cdiv a b = Ok (Z.quot a b).
Proof. intros Hb. unfold cdiv. by rewrite (proj2 (Z.eqb_neq b 0)). Qed.

(** Dividing by a positive divisor of the dividend: truncation is exact. *)
Lemma cdiv_exact a g : 0 < g → (g | a) → cdiv a g = Ok (a / g).
Proof.
  intros Hg [k ->]. rewrite cdiv_ok by lia.
  by rewrite Z.quot_mul, Z.div_mul by lia.
Qed.

(** ** Well-formed objects and their value *)

Definition valid_state (s : Z) : Prop :=
  s = WORD_VALID ∨ s = WORD_PLUS_MPQ_INITIALIZED ∨ s = MPQ_ALLOCATED_AND_VALID ∨ s = WORD_AND_MPQ.

Definition word_ok (n d : Z) : Prop := in_word n ∧ 1 ≤ d ≤ UWORD_MAX ∧ Z.gcd n d = 1.

Definition fits (q : mpq_t) : Prop := in_word (numref q) ∧ in_uword (denref q).

Record wf (r : FastRational) : Prop := {
  wf_state : valid_state (state r);
  wf_word : wordPartValid r = true → word_ok (num r) (den r);
  wf_mpq : mpqPartValid r = true → canonical (mpq r);
  wf_both : wordPartValid r = true → mpqPartValid r = true → mpq r = Mpq (num r) (den r);
  wf_big : wordPartValid r = false → ¬ fits (mpq r);
}.

Definition val (r : FastRational) : Qc :=
  if wordPartValid r then mkQ (num r) (den r) else mpq_val (mpq r).

Ltac state_cases H :=
  let s := fresh "s" in
  destruct H as [s|[s|[s|s]]]; simpl in s; subst.

Lemma mpq_valid_of_state r : valid_state (state r) → wordPartValid r = false → mpqPartValid r = true.
Proof. intros H. destruct r as [s n d q]. simpl in H. state_cases H; by vm_compute. Qed.

Lemma word_ok_wf s n d q : s = WORD_VALID ∨ s = WORD_PLUS_MPQ_INITIALIZED →
  word_ok n d → wf (FR s n d q) ∧ val (FR s n d q) = mkQ n d.
Proof.
  intros Hs Hok. split; [|by destruct Hs as [->| ->]].
  constructor; [destruct Hs as [->| ->]; unfold valid_state; auto | done | | | ];
    by destruct Hs as [->| ->].
Qed.

Lemma setOnlyWordPartValid_wf dst n d : valid_state (state dst) → word_ok n d →
  wf (setOnlyWordPartValid (set_word dst n d))
  ∧ val (setOnlyWordPartValid (set_word dst n d)) = mkQ n d.
Proof.
  intros Hs Hok. destruct dst as [s n0 d0 q]. state_cases Hs; apply word_ok_wf; auto.
Qed.

Section with_gmp.
Context {gmp : GMP}.

Lemma fitsWord_spec r : fitsWord r = true ↔ fits (mpq r).
Proof.
  unfold fitsWord, fits. rewrite andb_true_iff, mpz_fits_sint_p_spec, mpz_fits_uint_p_spec.
  done.
Qed.

Lemma try_fit_word_wf r : state r = MPQ_ALLOCATED_AND_VALID → canonical (mpq r) →
  wf (try_fit_word r) ∧ val (try_fit_word r) = mpq_val (mpq r).
Proof.
  intros Hs [Hd Hg]. destruct r as [s n d q]. simpl in *. subst s. unfold try_fit_word.
  destruct (fitsWord _) eqn:E.
  - apply fitsWord_spec in E as [Hn Hu]. simpl in *.
    rewrite mpz_get_si_spec, mpz_get_ui_spec, to_word_id, to_uword_id by (unfold_widths; lia).
    assert (word_ok (numref q) (denref q)) by (repeat split; unfold_widths; lia).
    split; [|done]. constructor; simpl; try done.
    + unfold valid_state. auto.
    + by destruct q.
  - split; [|done]. constructor; simpl; try done.
    + unfold valid_state. auto.
    + intros _ Hf. apply (fitsWord_spec (FR MPQ_ALLOCATED_AND_VALID n d q)) in Hf. congruence.
Qed.

Lemma overflow_result_wf dst q : canonical q →
  wf (overflow_result dst q) ∧ val (overflow_result dst q) = mpq_val q.
Proof. intros Hq. by apply try_fit_word_wf. Qed.

(** Making the [mpq] part valid changes neither the value nor well-formedness. *)
Lemma ensure_mpq_valid_wf r : wf r →
  wf (ensure_mpq_valid r) ∧ val (ensure_mpq_valid r) = val r
  ∧ canonical (mpq (ensure_mpq_valid r)) ∧ mpq_val (mpq (ensure_mpq_valid r)) = val r.
Proof.
  intros Hwf. pose proof Hwf as [Hs Hw Hm Hb Hf]. unfold ensure_mpq_valid, val.
  destruct (mpqPartValid r) eqn:Em.
  - split; [done|]. split; [done|]. split; [auto|].
    destruct (wordPartValid r); [by rewrite Hb | done].
  - destruct r as [s n d q]. state_cases Hs; try done; simpl in *;
      destruct (Hw eq_refl) as (Hn & Hd & Hg); simpl in *;
      (split; [constructor; simpl; try done; [unfold valid_state; auto | intros; split; simpl; lia] |]);
      repeat split; simpl; lia || done.
Qed.

(** ** What a block of word arithmetic may do *)

Definition fast_ok (m : jump (Z * Z)) (v : Qc) : Prop :=
  match m with
  | Fall (n, d) => word_ok n d ∧ mkQ n d = v
  | Goto_overflow => True
  | Raise _ => False
  end.

Lemma CHECK_WORD_cases v : in_lword v →
  (in_word v ∧ CHECK_WORD v = Fall v) ∨ (¬ in_word v ∧ CHECK_WORD v = Goto_overflow).
Proof.
  intros Hv. unfold CHECK_WORD. rewrite to_lword_id by done. unfold in_word.
  destruct (Z.ltb_spec v WORD_MIN); [right; split; [lia | done]|].
  destruct (Z.ltb_spec WORD_MAX v); [right; split; [lia | done]|].
  left. simpl. rewrite to_word_id by (unfold in_word; lia). split; [lia | done].
Qed.

Lemma CHECK_UWORD_cases v : 1 ≤ v ≤ ULWORD_MAX →
  (v ≤ UWORD_MAX ∧ CHECK_UWORD v = Fall v) ∨ (UWORD_MAX < v ∧ CHECK_UWORD v = Goto_overflow).
Proof.
  intros Hv. unfold CHECK_UWORD.
  destruct (Z.ltb_spec v 1); [lia|]. rewrite to_ulword_id by (unfold in_ulword; lia).
  destruct (Z.ltb_spec UWORD_MAX v); [auto|].
  left. rewrite to_uword_id by (unfold in_uword; lia). split; [lia | done].
Qed.

Lemma CHECK_SUM_cases s1 s2 : in_lword s1 → in_lword s2 →
  (in_lword (s1 + s2) ∧ CHECK_SUM_OVERFLOWS_LWORD s1 s2 = Fall (s1 + s2))
  ∨ CHECK_SUM_OVERFLOWS_LWORD s1 s2 = Goto_overflow.
Proof.
  intros H1 H2. unfold CHECK_SUM_OVERFLOWS_LWORD. unfold_widths.
  destruct (Z.ltb_spec 0 s1), (Z.ltb_spec (9223372036854775807 - s1) s2); simpl; auto;
    destruct (Z.ltb_spec s1 0), (Z.ltb_spec s2 (-9223372036854775808 - s1)); simpl; auto;
    left; (split; [lia | done]).
Qed.

Lemma CHECK_SUB_cases s1 s2 : in_lword s1 → in_lword s2 →
  (in_lword (s1 - s2) ∧ CHECK_SUB_OVERFLOWS_LWORD s1 s2 = Fall (s1 - s2))
  ∨ CHECK_SUB_OVERFLOWS_LWORD s1 s2 = Goto_overflow.
Proof.
  intros H1 H2. unfold CHECK_SUB_OVERFLOWS_LWORD. unfold_widths.
  destruct (Z.leb_spec 0 s1), (Z.ltb_spec s2 (s1 - 9223372036854775807)); simpl; auto;
    destruct (Z.ltb_spec s1 0), (Z.ltb_spec (s1 + 1 + 9223372036854775807) s2); simpl; auto;
    left; (split; [lia | done]).
Qed.

(** The two tails of the addition and subtraction blocks. *)
Lemma no_reduce_ok n d : in_lword n → 1 ≤ d ≤ ULWORD_MAX → Z.gcd n d = 1 →
  fast_ok (jlet zn := CHECK_WORD n in jlet zd := CHECK_UWORD d in Fall (zn, zd)) (mkQ n d).
Proof.
  intros Hn Hd Hg.
  destruct (CHECK_WORD_cases n Hn) as [[Hw ->]|[_ ->]]; simpl; [|done].
  destruct (CHECK_UWORD_cases d Hd) as [[Hu ->]|[_ ->]]; simpl; [|done].
  repeat split; unfold_widths; lia.
Qed.

Lemma div_gcd_bounds n d : 1 ≤ d →
  Z.min n 0 ≤ n / Z.gcd n d ≤ Z.max n 0 ∧ 1 ≤ d / Z.gcd n d ≤ d.
Proof.
  intros Hd. destruct (reduce_spec n d) as (Hg & Hd' & _ & _); [lia|].
  destruct (Z.gcd_divide_l n d) as [k Hk]. destruct (Z.gcd_divide_r n d) as [l Hl].
  assert (n / Z.gcd n d = k) as -> by (rewrite Hk at 1; apply Z.div_mul; lia).
  assert (d / Z.gcd n d = l) as Ed by (rewrite Hl at 1; apply Z.div_mul; lia).
  rewrite Ed in *. split; nia.
Qed.

Lemma reduce_ok n d c : in_lword n → 1 ≤ d ≤ ULWORD_MAX → c = Z.gcd n d →
  fast_ok (jlet nc := lift (cdiv n c) in jlet zn := CHECK_WORD nc in
           jlet dc := lift (cdiv d c) in jlet zd := CHECK_UWORD dc in Fall (zn, zd)) (mkQ n d).
Proof.
  intros Hn Hd ->. destruct (reduce_spec n d) as (Hg & Hd' & Hg1 & Hv); [lia|].
  destruct (div_gcd_bounds n d) as [Hb1 Hb2]; [lia|].
  rewrite !cdiv_exact; [|lia|apply Z.gcd_divide_r|lia|apply Z.gcd_divide_l]. simpl.
  rewrite <- Hv.
  apply (no_reduce_ok (n / Z.gcd n d) (d / Z.gcd n d)); [|lia|done].
  unfold_widths; lia.
Qed.

End with_gmp.

(** ** Number theory of sums of fractions *)

Lemma gcd1_mul a b c : Z.gcd a b = 1 → Z.gcd a c = 1 → Z.gcd a (b * c) = 1.
Proof. apply Z.coprime_mul_r. Qed.

Lemma gcd1_factor a k m : Z.gcd a (k * m) = 1 → Z.gcd a m = 1.
Proof.
  intros H. pose proof (Z.gcd_nonneg a m).
  assert ((Z.gcd a m | 1)) as Hd.
  { rewrite <- H. apply Z.gcd_greatest; [apply Z.gcd_divide_l|].
    apply Z.divide_mul_r, Z.gcd_divide_r. }
  apply Z.divide_1_r_nonneg in Hd; lia.
Qed.

Lemma div_gcd_l b d : 0 < b → b = Z.gcd b d * (b / Z.gcd b d).
Proof.
  intros Hb. assert (Z.gcd b d ≠ 0) by (intros E%Z.gcd_eq_0; lia).
  apply Z.div_exact; [lia|]. apply Z.mod_divide; [lia | apply Z.gcd_divide_l].
Qed.

Lemma div_gcd_r b d : 0 < d → d = Z.gcd b d * (d / Z.gcd b d).
Proof. rewrite Z.gcd_comm. apply div_gcd_l. Qed.

Lemma factor_bounds d g k : 0 < d → d = g * k → 0 < g → 1 ≤ k ≤ d ∧ g ≤ d.
Proof. intros Hd E Hg. assert (0 < k) by nia. split; nia. Qed.

Lemma sum_gcd_divides a b c d : 0 < b → 0 < d → Z.gcd a b = 1 → Z.gcd c d = 1 →
  (Z.gcd (a * (d / Z.gcd b d) + c * (b / Z.gcd b d)) (b * (d / Z.gcd b d)) | Z.gcd b d).
Proof.
  intros Hb Hd Ha Hc. destruct (reduce_spec b d) as (Hg & _ & Hbd & _); [lia|].
  pose proof (div_gcd_l b d Hb) as Eb. pose proof (div_gcd_r b d Hd) as Ed.
  set (g := Z.gcd b d) in *. set (b' := b / g) in *. set (d' := d / g) in *.
  set (n := a * d' + c * b'). set (e := Z.gcd n (b * d')).
  rewrite Eb in Ha. apply gcd1_factor in Ha. rewrite Ed in Hc. apply gcd1_factor in Hc.
  assert (Z.gcd b' n = 1) as Hn1.
  { unfold n. rewrite Z.gcd_add_mult_diag_r.
    apply gcd1_mul; [by rewrite Z.gcd_comm | done]. }
  assert (Z.gcd d' n = 1) as Hn2.
  { unfold n. rewrite Z.add_comm, Z.gcd_add_mult_diag_r.
    apply gcd1_mul; [by rewrite Z.gcd_comm | by rewrite Z.gcd_comm]. }
  assert (Z.gcd e (b' * d') = 1) as He.
  { destruct (Z.gcd_divide_l n (b * d')) as [k Hk]. fold e in Hk.
    rewrite Z.gcd_comm. apply (gcd1_factor _ k). rewrite <- Hk, Z.gcd_comm.
    apply gcd1_mul; by rewrite Z.gcd_comm. }
  apply (Z.gauss e (b' * d') g); [|done].
  replace (b' * d' * g) with (b * d') by (rewrite Eb; ring). apply Z.gcd_divide_r.
Qed.

(** Hence the second [gcd] of the addition block fits a word. *)
Lemma sum_gcd_le a b c d : 0 < b → 0 < d → Z.gcd a b = 1 → Z.gcd c d = 1 →
  1 ≤ Z.gcd (a * (d / Z.gcd b d) + c * (b / Z.gcd b d)) (b * (d / Z.gcd b d)) ≤ Z.gcd b d.
Proof.
  intros Hb Hd Ha Hc. pose proof (sum_gcd_divides a b c d Hb Hd Ha Hc) as H.
  destruct (reduce_spec b d) as (Hg & _); [lia|].
  pose proof (div_gcd_r b d Hd) as Ed.
  split; [|by apply Z.divide_pos_le].
  match goal with |- 1 ≤ ?x => assert (x ≠ 0) by (intros E%Z.gcd_eq_0; nia) end.
  match goal with |- 1 ≤ Z.gcd ?x ?y => pose proof (Z.gcd_nonneg x y) end. lia.
Qed.

Lemma sum_mkQ a b c d : 0 < b → 0 < d →
  mkQ (a * (d / Z.gcd b d) + c * (b / Z.gcd b d)) (b * (d / Z.gcd b d)) = (mkQ a b + mkQ c d)%Qc.
Proof.
  intros Hb Hd. destruct (reduce_spec b d) as (Hg & _); [lia|].
  pose proof (div_gcd_l b d Hb) as Eb. pose proof (div_gcd_r b d Hd) as Ed.
  set (g := Z.gcd b d) in *. set (b' := b / g) in *. set (d' := d / g) in *.
  rewrite mkQ_add by lia. apply mkQ_eq; [nia | nia |]. rewrite Eb, Ed. ring.
Qed.

Lemma gcd1_plus n d k : Z.gcd n d = 1 → Z.gcd (n + k * d) d = 1.
Proof. intros H. by rewrite Z.gcd_comm, Z.gcd_add_mult_diag_r, Z.gcd_comm. Qed.

(** Cross-cancelling two fractions in lowest terms. *)
Lemma cross_reduce A B C D : 0 < B → 0 < D → Z.gcd A B = 1 → Z.gcd C D = 1 →
  Z.gcd (A / Z.gcd A D * (C / Z.gcd B C)) (B / Z.gcd B C * (D / Z.gcd A D)) = 1
  ∧ mkQ (A / Z.gcd A D * (C / Z.gcd B C)) (B / Z.gcd B C * (D / Z.gcd A D))
    = (mkQ A B * mkQ C D)%Qc.
Proof.
  intros HB HD HA HC.
  destruct (reduce_spec A D HD) as (Hg1 & Hd1 & Hr1 & _).
  destruct (reduce_spec C B HB) as (Hg2 & Hb1 & Hr2 & _). rewrite (Z.gcd_comm C B) in *.
  pose proof (div_gcd_r A D HD) as ED. pose proof (div_gcd_l B C HB) as EB.
  destruct (Z.gcd_divide_l A D) as [a Ea]. destruct (Z.gcd_divide_r B C) as [c Ec].
  assert (A / Z.gcd A D = a) as Ea' by (rewrite Ea at 1; apply Z.div_mul; lia).
  assert (C / Z.gcd B C = c) as Ec' by (rewrite Ec at 1; apply Z.div_mul; lia).
  rewrite Ea', Ec' in *.
  set (g1 := Z.gcd A D) in *. set (g2 := Z.gcd B C) in *.
  set (d := D / g1) in *. set (b := B / g2) in *.
  split.
  - rewrite Z.gcd_comm, EB, Ea, (Z.mul_comm a) in HA.
    apply gcd1_factor in HA. rewrite Z.gcd_comm in HA. apply gcd1_factor in HA.
    rewrite Ec, ED, Z.gcd_comm, (Z.mul_comm c) in HC.
    apply gcd1_factor in HC. rewrite Z.gcd_comm in HC. apply gcd1_factor in HC.
    apply gcd1_mul; rewrite Z.gcd_comm; (apply gcd1_mul; [by rewrite Z.gcd_comm| by rewrite Z.gcd_comm]).
  - rewrite mkQ_mul by lia. apply mkQ_eq; [nia | nia |]. rewrite Ea, Ec, EB, ED. ring.
Qed.

Lemma div_gcd_abs a g : 0 < g → (g | a) → Z.abs (a / g) = Z.abs a / g ∧ Z.abs (a / g) ≤ Z.abs a.
Proof.
  intros Hg [k ->]. rewrite Z.div_mul, Z.abs_mul, (Z.abs_eq g), Z.div_mul by lia.
  split; [done | nia].
Qed.

(** ** The word blocks compute exactly *)

Lemma lword_mul x y : in_word x → 0 ≤ y ≤ UWORD_MAX →
  to_lword (x * y) = x * y ∧ -9223372034707292160 ≤ x * y ≤ 9223372030412324865.
Proof.
  intros Hx Hy. unfold_widths.
  assert (-9223372034707292160 ≤ x * y ≤ 9223372030412324865) by nia.
  split; [|done]. apply to_lword_id. unfold_widths. lia.
Qed.

Ltac lword_mul x y :=
  let E := fresh "E" in let B := fresh "B" in
  destruct (lword_mul x y) as [E B]; [unfold_widths; lia | unfold_widths; lia |]; rewrite E.

Section words.
Context {gmp : GMP}.

Lemma word_int_add x y d : word_ok x d → in_word y →
  fast_ok (jlet n := CHECK_WORD (to_lword (x + to_lword (y * d))) in Fall (n, d)) (mkQ (x + y * d) d).
Proof.
  intros (Hx & Hd & Hg) Hy. lword_mul y d.
  rewrite to_lword_id by (unfold_widths; lia).
  destruct (CHECK_WORD_cases (x + y * d)) as [[Hw ->]|[_ ->]]; simpl; [unfold_widths; lia | | done].
  split; [|done]. split; [done|]. split; [done|]. by apply gcd1_plus.
Qed.

Lemma word_int_value x y d : 0 < d → mkQ (x + y * d) d = (mkQ x d + mkQ y 1)%Qc.
Proof. intros. rewrite mkQ_add by lia. apply mkQ_eq; lia. Qed.

Lemma addition_words_ok a b : word_ok (num a) (den a) → word_ok (num b) (den b) →
  fast_ok (addition_words a b) (mkQ (num a) (den a) + mkQ (num b) (den b))%Qc.
Proof.
  destruct a as [sa na da qa], b as [sb nb db qb]. simpl.
  intros Ha Hb. pose proof Ha as (Hna & Hda & Hga). pose proof Hb as (Hnb & Hdb & Hgb).
  unfold addition_words; simpl.
  destruct (Z.eqb_spec nb 0) as [->|Hnb0].
  { simpl. split; [done|]. rewrite (mkQ_0 db) by lia. ring. }
  destruct (Z.eqb_spec na 0) as [->|Hna0].
  { simpl. split; [done|]. rewrite (mkQ_0 da) by lia. ring. }
  destruct (_ && _ && _) eqn:E.
  { apply andb_true_iff in E as [[Ed _]%andb_true_iff En%Z.eqb_eq].
    apply Z.eqb_eq in Ed as ->. subst na. simpl.
    split; [unfold word_ok; unfold_widths; repeat split; lia|].
    rewrite <- mkQ_opp by lia. rewrite mkQ_0 by lia. ring. }
  destruct (Z.eqb_spec db 1) as [->|Hdb1].
  { rewrite <- word_int_value by lia. by apply word_int_add. }
  destruct (Z.eqb_spec da 1) as [->|Hda1].
  { rewrite Qcplus_comm, <- word_int_value by lia. by apply word_int_add. }
  clear E. rewrite gcd_ok by lia. simpl.
  destruct (reduce_spec da db) as (Hg & _); [lia|].
  pose proof (div_gcd_l da db ltac:(lia)) as Ea. pose proof (div_gcd_r da db ltac:(lia)) as Eb.
  pose proof (sum_gcd_le na da nb db ltac:(lia) ltac:(lia) Hga Hgb) as Hle.
  pose proof (sum_mkQ na da nb db ltac:(lia) ltac:(lia)) as Hv.
  rewrite !cdiv_exact; [|lia|apply Z.gcd_divide_l|lia|apply Z.gcd_divide_r]. simpl.
  set (g := Z.gcd da db) in *. set (da' := da / g) in *. set (db' := db / g) in *.
  destruct (factor_bounds da g da') as [Hda' Hgd]; [lia | done | done |].
  destruct (factor_bounds db g db') as [Hdb' _]; [lia | done | done |].
  assert ((if negb (g =? 1) then to_lword (na * db') else to_lword (na * db)) = na * db'
        ∧ (if negb (g =? 1) then to_lword (nb * da') else to_lword (nb * da)) = nb * da') as [-> ->].
  { lword_mul na db'. lword_mul nb da'. lword_mul na db. lword_mul nb da.
    destruct (Z.eqb_spec g 1) as [Hg1|]; simpl; [|done].
    assert (db' = db) as -> by lia. assert (da' = da) as -> by lia. done. }
  destruct (lword_mul na db') as [_ Bn1]; [done | lia |].
  destruct (lword_mul nb da') as [_ Bn2]; [done | lia |].
  destruct (CHECK_SUM_cases (na * db') (nb * da')) as [[Hs ->]| ->];
    [unfold_widths; lia | unfold_widths; lia | | done]. simpl.
  assert (1 ≤ da * db' ≤ 18446744065119617025) as Hd by (unfold_widths; nia).
  rewrite to_ulword_id by (unfold_widths; lia).
  rewrite absVal64_abs by done. rewrite gcd_ok, Z.gcd_abs_l by lia. simpl.
  set (n := na * db' + nb * da') in *. set (d := da * db') in *.
  rewrite to_uword_id by (unfold_widths; lia).
  rewrite <- Hv. destruct (Z.eqb_spec (Z.gcd n d) 1) as [E1|E1]; simpl.
  - apply no_reduce_ok; [done | unfold_widths; lia | done].
  - apply reduce_ok; [done | unfold_widths; lia | done].
Qed.

Lemma word_int_sub x y d : word_ok x d → in_word y →
  fast_ok (jlet n := CHECK_WORD (to_lword (x - to_lword (y * d))) in Fall (n, d)) (mkQ (x - y * d) d).
Proof.
  intros (Hx & Hd & Hg) Hy. lword_mul y d.
  rewrite to_lword_id by (unfold_widths; lia).
  destruct (CHECK_WORD_cases (x - y * d)) as [[Hw ->]|[_ ->]]; simpl; [unfold_widths; lia | | done].
  split; [|done]. split; [done|]. split; [done|].
  replace (x - y * d) with (x + (- y) * d) by ring. by apply gcd1_plus.
Qed.

Lemma int_word_sub x y d : in_word x → word_ok y d →
  fast_ok (jlet n := CHECK_WORD (to_lword (to_lword (x * d) - y)) in Fall (n, d)) (mkQ (x * d - y) d).
Proof.
  intros Hx (Hy & Hd & Hg). lword_mul x d.
  rewrite to_lword_id by (unfold_widths; lia).
  destruct (CHECK_WORD_cases (x * d - y)) as [[Hw ->]|[_ ->]]; simpl; [unfold_widths; lia | | done].
  split; [|done]. split; [done|]. split; [done|].
  replace (x * d - y) with (- y + x * d) by ring. apply gcd1_plus. by rewrite Z.gcd_opp_l.
Qed.

(** The difference of the cross products cannot overflow when the
    denominators share a factor. *)
Lemma sub_no_overflow na da nb db g da' db' : word_ok na da → word_ok nb db → 1 < g →
  da = g * da' → db = g * db' → in_lword (na * db' - nb * da').
Proof.
  intros (Hna & Hda & _) (Hnb & Hdb & _) Hg Ea Eb. unfold_widths.
  assert (1 ≤ da' ≤ 2147483647) as Ha by nia. assert (1 ≤ db' ≤ 2147483647) as Hb by nia.
  assert (Z.abs (na * db') ≤ 2147483648 * 2147483647) by nia.
  assert (Z.abs (nb * da') ≤ 2147483648 * 2147483647) by nia. lia.
Qed.

Lemma substraction_words_ok a b : word_ok (num a) (den a) → word_ok (num b) (den b) →
  fast_ok (substraction_words a b) (mkQ (num a) (den a) - mkQ (num b) (den b))%Qc.
Proof.
  destruct a as [sa na da qa], b as [sb nb db qb]. simpl.
  intros Ha Hb. pose proof Ha as (Hna & Hda & Hga). pose proof Hb as (Hnb & Hdb & Hgb).
  unfold substraction_words; simpl.
  destruct (Z.eqb_spec nb 0) as [->|Hnb0].
  { simpl. split; [done|]. rewrite (mkQ_0 db) by lia. ring. }
  destruct (Z.eqb_spec na 0) as [->|Hna0].
  { rewrite (mkQ_0 da) by lia. rewrite to_lword_id by (unfold_widths; lia).
    destruct (CHECK_WORD_cases (- nb)) as [[Hw ->]|[_ ->]]; simpl; [unfold_widths; lia | | done].
    unfold word_ok. rewrite Z.gcd_opp_l, <- mkQ_opp by lia. split; [done | ring]. }
  destruct (_ && _) eqn:E.
  { apply andb_true_iff in E as [->%Z.eqb_eq ->%Z.eqb_eq]. simpl.
    split; [unfold word_ok; unfold_widths; repeat split; lia|].
    rewrite mkQ_0 by lia. ring. }
  destruct (Z.eqb_spec db 1) as [->|Hdb1].
  { rewrite mkQ_sub by lia. rewrite !Z.mul_1_r. by apply word_int_sub. }
  destruct (Z.eqb_spec da 1) as [->|Hda1].
  { rewrite mkQ_sub by lia. rewrite !Z.mul_1_l, Z.mul_1_r. by apply int_word_sub. }
  clear E. rewrite gcd_ok by lia. simpl.
  destruct (reduce_spec da db) as (Hg & _); [lia|].
  pose proof (div_gcd_l da db ltac:(lia)) as Ea. pose proof (div_gcd_r da db ltac:(lia)) as Eb.
  pose proof (sum_gcd_le na da (- nb) db ltac:(lia) ltac:(lia) Hga) as Hle.
  rewrite Z.gcd_opp_l in Hle. specialize (Hle Hgb).
  pose proof (sum_mkQ na da (- nb) db ltac:(lia) ltac:(lia)) as Hv.
  rewrite <- mkQ_opp in Hv by lia. rewrite !Z.mul_opp_l, !Z.add_opp_r in *.
  rewrite !cdiv_exact; [|lia|apply Z.gcd_divide_l|lia|apply Z.gcd_divide_r]. simpl.
  set (g := Z.gcd da db) in *. set (da' := da / g) in *. set (db' := db / g) in *.
  destruct (factor_bounds da g da') as [Hda' Hgd]; [lia | done | done |].
  destruct (factor_bounds db g db') as [Hdb' _]; [lia | done | done |].
  assert (1 ≤ da * db' ≤ 18446744065119617025) as Hd by (unfold_widths; nia).
  fold (Qcminus (mkQ na da) (mkQ nb db)) in Hv. rewrite <- Hv.
  match goal with |- fast_ok (jbind ?m _) _ =>
    assert ((in_lword (na * db' - nb * da') ∧ m = Fall (na * db' - nb * da')) ∨ m = Goto_overflow) as
      [[Hs ->]| ->]; [|simpl|done] end.
  { lword_mul na db'. lword_mul nb da'. lword_mul na db. lword_mul nb da.
    destruct (Z.eqb_spec g 1) as [Hg1|Hg1]; simpl.
    - assert (db' = db) as -> by lia. assert (da' = da) as -> by lia.
      apply CHECK_SUB_cases; unfold_widths; lia.
    - left. pose proof (sub_no_overflow na da nb db g da' db' Ha Hb ltac:(lia) Ea Eb).
      split; [done|]. by rewrite to_lword_id. }
  assert ((if negb (g =? 1) then to_ulword (da * db') else to_ulword (da * db)) = da * db') as ->.
  { destruct (Z.eqb_spec g 1) as [Hg1|Hg1]; simpl.
    - assert (db' = db) as -> by lia. apply to_ulword_id. unfold_widths; lia.
    - apply to_ulword_id. unfold_widths; lia. }
  rewrite absVal64_abs by done. rewrite gcd_ok, Z.gcd_abs_l by lia. simpl.
  set (n := na * db' - nb * da') in *. set (d := da * db') in *.
  rewrite to_uword_id by (unfold_widths; lia).
  destruct (Z.eqb_spec (Z.gcd n d) 1) as [E1|E1]; simpl.
  - apply no_reduce_ok; [done | unfold_widths; lia | done].
  - apply reduce_ok; [done | unfold_widths; lia | done].
Qed.

(** The tail of the multiplicative blocks. *)
Lemma product_ok x1 x2 y1 y2 v : Z.abs x1 ≤ 2147483648 → Z.abs x2 ≤ 4294967295 →
  1 ≤ y1 ≤ 4294967295 → 1 ≤ y2 ≤ 4294967295 → Z.gcd (x1 * x2) (y1 * y2) = 1 →
  mkQ (x1 * x2) (y1 * y2) = v → in_lword (x1 * x2) →
  fast_ok (jlet zn := CHECK_WORD (x1 * x2) in jlet zd := CHECK_UWORD (y1 * y2) in Fall (zn, zd)) v.
Proof.
  intros Hx1 Hx2 Hy1 Hy2 Hg <- Hl.
  apply no_reduce_ok; [done | unfold_widths; nia | done].
Qed.

Lemma maybe_div a g : 0 < g → (g | a) →
  (if 1 <? g then lift (cdiv a g) else Fall a) = Fall (a / g).
Proof.
  intros Hg Hd. destruct (Z.ltb_spec 1 g).
  - by rewrite cdiv_exact.
  - assert (g = 1) as -> by lia. by rewrite Z.div_1_r.
Qed.

Lemma multiplication_words_ok a b : word_ok (num a) (den a) → word_ok (num b) (den b) →
  fast_ok (multiplication_words a b) (mkQ (num a) (den a) * mkQ (num b) (den b))%Qc.
Proof.
  destruct a as [sa na da qa], b as [sb nb db qb]. simpl.
  intros (Hna & Hda & Hga) (Hnb & Hdb & Hgb).
  unfold multiplication_words; simpl.
  destruct (cross_reduce na da nb db) as [Hg Hv]; [lia | lia | done | done |].
  destruct (reduce_spec na db) as (Hg1 & Hd1 & _); [lia|].
  destruct (reduce_spec nb da) as (Hg2 & Hd2 & _); [lia|]. rewrite (Z.gcd_comm nb da) in *.
  rewrite !absVal_abs, !gcd_ok, Z.gcd_abs_l, Z.gcd_abs_r by lia || done. simpl.
  rewrite !maybe_div; try (lia || apply Z.gcd_divide_l || apply Z.gcd_divide_r). simpl.
  destruct (div_gcd_abs na (Z.gcd na db)) as [_ Hx1]; [done | apply Z.gcd_divide_l|].
  destruct (div_gcd_abs nb (Z.gcd da nb)) as [_ Hx2]; [done | apply Z.gcd_divide_r|].
  pose proof (factor_bounds da _ _ ltac:(lia) (div_gcd_l da nb ltac:(lia)) Hg2) as [Hy1 _].
  pose proof (factor_bounds db _ _ ltac:(lia) (div_gcd_r na db ltac:(lia)) Hg1) as [Hy2 _].
  set (x1 := na / Z.gcd na db) in *. set (x2 := nb / Z.gcd da nb) in *.
  set (y1 := da / Z.gcd da nb) in *. set (y2 := db / Z.gcd na db) in *.
  assert (Z.abs (x1 * x2) ≤ 2147483648 * 2147483648) by (unfold_widths; rewrite Z.abs_mul; nia).
  assert (in_lword (x1 * x2)) by (unfold_widths; lia).
  rewrite to_lword_id by done.
  assert (y1 * y2 ≤ 4294967295 * 4294967295) by (unfold_widths; nia).
  rewrite to_ulword_id by (unfold_widths; nia).
  apply product_ok; unfold_widths; try lia; done.
Qed.

Lemma signed_product_ok (f : bool) p q v : 0 ≤ p → in_lword p → 1 ≤ q ≤ ULWORD_MAX →
  Z.gcd p q = 1 → mkQ p q = v →
  fast_ok (jlet zn := CHECK_WORD p in jlet zd := CHECK_UWORD q in
           Fall (if f then - zn else zn, zd)) (if f then - v else v)%Qc.
Proof.
  intros Hp Hl Hq Hg <-.
  destruct (CHECK_WORD_cases p Hl) as [[Hw ->]|[_ ->]]; simpl; [|done].
  destruct (CHECK_UWORD_cases q Hq) as [[Hu ->]|[_ ->]]; simpl; [|done].
  destruct f; rewrite ?mkQ_opp by lia; (split; [|done]);
    (split; [unfold_widths; lia|]); (split; [lia|]); by rewrite ?Z.gcd_opp_l.
Qed.

(** What the sign fix makes of the product or quotient of absolute values. *)
Lemma mkQ_abs n d : 0 < d → mkQ (Z.abs n) d = (if n <? 0 then - mkQ n d else mkQ n d)%Qc.
Proof.
  intros Hd. destruct (Z.ltb_spec n 0).
  - rewrite mkQ_opp by done. f_equal. lia.
  - f_equal. lia.
Qed.

Lemma mkQ_abs_inv n d : n ≠ 0 → 0 < d →
  mkQ d (Z.abs n) = (if n <? 0 then - / mkQ n d else / mkQ n d)%Qc.
Proof.
  intros Hn Hd. destruct (Z.ltb_spec n 0).
  - rewrite mkQ_inv_neg, mkQ_opp by lia. f_equal; lia.
  - rewrite mkQ_inv by lia. f_equal; lia.
Qed.

Lemma flip_sign_value a b (x y z : Qc) : (num a = 0 → x = 0%Qc) → (num b = 0 → y = 0%Qc) →
  z = ((if num a <? 0 then - x else x) * (if num b <? 0 then - y else y))%Qc →
  (if flip_sign a b then - z else z)%Qc = (x * y)%Qc.
Proof.
  intros Hx Hy ->. unfold flip_sign.
  destruct (Z.ltb_spec (num a) 0), (Z.ltb_spec (num b) 0), (Z.leb_spec 0 (num a)),
    (Z.ltb_spec 0 (num b)), (Z.leb_spec (num a) 0); simpl; try lia; try ring;
    first [rewrite Hx by lia; ring | rewrite Hy by lia; ring].
Qed.

Lemma multiplicationAssign_words_ok a b : word_ok (num a) (den a) → word_ok (num b) (den b) →
  fast_ok (multiplicationAssign_words a b) (mkQ (num a) (den a) * mkQ (num b) (den b))%Qc.
Proof.
  destruct a as [sa na da qa], b as [sb nb db qb].
  set (a := FR sa na da qa). set (b := FR sb nb db qb).
  intros (Hna & Hda & Hga) (Hnb & Hdb & Hgb).
  unfold multiplicationAssign_words.
  change (num a) with na in *; change (den a) with da in *.
  change (num b) with nb in *; change (den b) with db in *.
  rewrite <- (Z.gcd_abs_l na) in Hga. rewrite <- (Z.gcd_abs_l nb) in Hgb.
  destruct (cross_reduce (Z.abs na) da (Z.abs nb) db) as [Hg Hv]; [lia | lia | done | done |].
  destruct (reduce_spec (Z.abs na) db) as (Hg1 & Hd1 & _); [lia|].
  destruct (reduce_spec (Z.abs nb) da) as (Hg2 & Hd2 & _); [lia|].
  rewrite (Z.gcd_comm (Z.abs nb) da) in *.
  rewrite !absVal_abs, !gcd_ok by lia || done. simpl.
  rewrite !maybe_div; try (lia || apply Z.gcd_divide_l || apply Z.gcd_divide_r). simpl.
  destruct (div_gcd_abs (Z.abs na) (Z.gcd (Z.abs na) db)) as [_ Hx1]; [done | apply Z.gcd_divide_l|].
  destruct (div_gcd_abs (Z.abs nb) (Z.gcd da (Z.abs nb))) as [_ Hx2]; [done | apply Z.gcd_divide_r|].
  assert (0 ≤ Z.abs na / Z.gcd (Z.abs na) db) as Hp1 by (apply Z.div_pos; lia).
  assert (0 ≤ Z.abs nb / Z.gcd da (Z.abs nb)) as Hp2 by (apply Z.div_pos; lia).
  destruct (factor_bounds da _ _ ltac:(lia) (div_gcd_l da (Z.abs nb) ltac:(lia)) Hg2) as [Hy1 _].
  destruct (factor_bounds db _ _ ltac:(lia) (div_gcd_r (Z.abs na) db ltac:(lia)) Hg1) as [Hy2 _].
  set (x1 := Z.abs na / Z.gcd (Z.abs na) db) in *. set (x2 := Z.abs nb / Z.gcd da (Z.abs nb)) in *.
  set (y1 := da / Z.gcd da (Z.abs nb)) in *. set (y2 := db / Z.gcd (Z.abs na) db) in *.
  rewrite !Z.abs_idemp in *. unfold_widths.
  assert (0 ≤ x1 * x2 ≤ 2147483648 * 2147483648) by nia.
  assert (1 ≤ y1 * y2 ≤ 4294967295 * 4294967295) by nia.
  rewrite (to_lword_id x1), to_lword_id, to_ulword_id by (unfold_widths; lia).
  rewrite <- (flip_sign_value a b (mkQ na da) (mkQ nb db) (mkQ (x1 * x2) (y1 * y2))).
  - apply signed_product_ok; unfold_widths; lia || done.
  - intros E. apply mkQ_eq_0; [lia | exact E].
  - intros E. apply mkQ_eq_0; [lia | exact E].
  - rewrite Hv, !mkQ_abs by lia. done.
Qed.

Lemma divisionAssign_words_ok a b : word_ok (num a) (den a) → word_ok (num b) (den b) →
  num b ≠ 0 →
  fast_ok (divisionAssign_words a b) (mkQ (num a) (den a) / mkQ (num b) (den b))%Qc.
Proof.
  destruct a as [sa na da qa], b as [sb nb db qb].
  set (a := FR sa na da qa). set (b := FR sb nb db qb).
  intros (Hna & Hda & Hga) (Hnb & Hdb & Hgb) Hb0.
  unfold divisionAssign_words.
  change (num a) with na in *; change (den a) with da in *.
  change (num b) with nb in *; change (den b) with db in *.
  rewrite <- (Z.gcd_abs_l na) in Hga. rewrite <- (Z.gcd_abs_l nb), Z.gcd_comm in Hgb.
  destruct (cross_reduce (Z.abs na) da db (Z.abs nb)) as [Hg Hv]; [lia | lia | done | done |].
  destruct (reduce_spec (Z.abs na) (Z.abs nb)) as (Hg1 & Hd1 & _); [lia|].
  destruct (reduce_spec da db) as (Hg2 & Hd2 & _); [lia|].
  rewrite !absVal_abs, !gcd_ok by lia || done. simpl.
  rewrite !cdiv_exact; try (lia || apply Z.gcd_divide_l || apply Z.gcd_divide_r). simpl.
  destruct (div_gcd_abs (Z.abs na) (Z.gcd (Z.abs na) (Z.abs nb))) as [_ Hx1];
    [done | apply Z.gcd_divide_l|].
  assert (0 ≤ Z.abs na / Z.gcd (Z.abs na) (Z.abs nb)) as Hp1 by (apply Z.div_pos; lia).
  destruct (factor_bounds (Z.abs nb) _ _ ltac:(lia) (div_gcd_r (Z.abs na) (Z.abs nb) ltac:(lia)) Hg1) as [Hy1 _].
  destruct (factor_bounds db _ _ ltac:(lia) (div_gcd_r da db ltac:(lia)) Hg2) as [Hx2 _].
  destruct (factor_bounds da _ _ ltac:(lia) (div_gcd_l da db ltac:(lia)) Hg2) as [Hy2 _].
  set (x1 := Z.abs na / Z.gcd (Z.abs na) (Z.abs nb)) in *. set (x2 := db / Z.gcd da db) in *.
  set (y1 := Z.abs nb / Z.gcd (Z.abs na) (Z.abs nb)) in *. set (y2 := da / Z.gcd da db) in *.
  rewrite !Z.abs_idemp in *. unfold_widths. rewrite (Z.mul_comm y2 y1) in *.
  assert (0 ≤ x1 * x2 ≤ 2147483648 * 4294967295) by nia.
  assert (1 ≤ y1 * y2 ≤ 4294967295 * 4294967295) by nia.
  rewrite !to_ulword_id by (unfold_widths; lia). unfold Qcdiv.
  rewrite <- (flip_sign_value a b (mkQ na da) (/ mkQ nb db)%Qc (mkQ (x1 * x2) (y1 * y2))).
  - apply signed_product_ok; unfold_widths; lia || done.
  - intros E. apply mkQ_eq_0; [lia | exact E].
  - intros E. done.
  - rewrite Hv, mkQ_abs, mkQ_abs_inv by lia. done.
Qed.

Lemma division_words_ok a b : word_ok (num a) (den a) → word_ok (num b) (den b) →
  num b ≠ 0 →
  fast_ok (division_words a b) (mkQ (num a) (den a) / mkQ (num b) (den b))%Qc.
Proof.
  intros Ha Hb Hb0. unfold division_words. destruct (_ && _) eqn:E.
  - apply andb_true_iff in E as [->%Z.eqb_eq ->%Z.eqb_eq]. destruct Hb as (_ & Hd & _).
    split; [unfold word_ok; unfold_widths; repeat split; lia|].
    symmetry. apply Qcmult_inv_r. by rewrite mkQ_eq_0 by lia.
  - by apply divisionAssign_words_ok.
Qed.

(** [a += b] does not divide by the common factor of the denominators first,
    so its [gcd] may exceed a signed 64-bit word; the test [common > 1] is then
    false, and one of the two range checks fails. *)
Lemma additionAssign_tail n d : in_lword n → 1 ≤ d ≤ ULWORD_MAX →
  fast_ok (if 1 <? to_lword (Z.gcd n d) then
             jlet nc := lift (cdiv n (to_lword (Z.gcd n d))) in jlet zn := CHECK_WORD nc in
             jlet dc := lift (cdiv d (to_lword (Z.gcd n d))) in jlet zd := CHECK_UWORD dc in
             Fall (zn, zd)
           else jlet zn := CHECK_WORD n in jlet zd := CHECK_UWORD d in Fall (zn, zd)) (mkQ n d).
Proof.
  intros Hn Hd. destruct (reduce_spec n d) as (Hg & _); [lia|].
  assert (Z.gcd n d ≤ d) by (apply Z.divide_pos_le; [lia | apply Z.gcd_divide_r]).
  destruct (Z.leb_spec (Z.gcd n d) LWORD_MAX) as [Hs|Hs].
  - rewrite to_lword_id by (unfold_widths; lia).
    destruct (Z.ltb_spec 1 (Z.gcd n d)).
    + by apply reduce_ok.
    + apply no_reduce_ok; [done | done | lia].
  - assert (to_lword (Z.gcd n d) = Z.gcd n d - 2 ^ 64) as E.
    { unfold to_lword, wrap_s. unfold_widths.
      replace (Z.gcd n d + 2 ^ (64 - 1)) with (Z.gcd n d - 2 ^ 63 + 1 * 2 ^ 64) by lia.
      rewrite Z.mod_add, Z.mod_small by lia. lia. }
    destruct (Z.ltb_spec 1 (to_lword (Z.gcd n d))); [unfold_widths; lia|].
    destruct (CHECK_WORD_cases n Hn) as [[Hw ->]|[_ ->]]; simpl; [|done].
    destruct (CHECK_UWORD_cases d Hd) as [[Hu ->]|[_ ->]]; simpl; [|done].
    unfold_widths. lia.
Qed.

Lemma additionAssign_words_ok a b : word_ok (num a) (den a) → word_ok (num b) (den b) →
  fast_ok (additionAssign_words a b) (mkQ (num a) (den a) + mkQ (num b) (den b))%Qc.
Proof.
  destruct a as [sa na da qa], b as [sb nb db qb]. simpl.
  intros Ha Hb. pose proof Ha as (Hna & Hda & Hga). pose proof Hb as (Hnb & Hdb & Hgb).
  unfold additionAssign_words; simpl.
  destruct (Z.eqb_spec db 1) as [->|Hdb1].
  { rewrite <- word_int_value by lia. by apply word_int_add. }
  destruct (Z.eqb_spec na 0) as [->|Hna0].
  { simpl. split; [done|]. rewrite mkQ_0 by lia. ring. }
  lword_mul na db. lword_mul nb da. rewrite mkQ_add by lia.
  destruct (CHECK_SUM_cases (na * db) (nb * da)) as [[Hs ->]| ->];
    [unfold_widths; lia | unfold_widths; lia | | done]. cbn [jbind].
  assert (1 ≤ da * db ≤ 18446744065119617025) as Hd by (unfold_widths; nia).
  rewrite to_ulword_id by (unfold_widths; lia).
  rewrite absVal64_abs by done. rewrite gcd_ok, Z.gcd_abs_l by lia. cbn [lift jbind].
  apply additionAssign_tail; [done | unfold_widths; lia].
Qed.

Lemma substractionAssign_words_ok a b : word_ok (num a) (den a) → word_ok (num b) (den b) →
  fast_ok (substractionAssign_words a b) (mkQ (num a) (den a) - mkQ (num b) (den b))%Qc.
Proof.
  destruct a as [sa na da qa], b as [sb nb db qb]. simpl.
  intros Ha Hb. pose proof Ha as (Hna & Hda & Hga). pose proof Hb as (Hnb & Hdb & Hgb).
  unfold substractionAssign_words; simpl.
  rewrite gcd_ok by lia. simpl.
  destruct (reduce_spec da db) as (Hg & _); [lia|].
  pose proof (div_gcd_l da db ltac:(lia)) as Ea. pose proof (div_gcd_r da db ltac:(lia)) as Eb.
  pose proof (sum_gcd_le na da (- nb) db ltac:(lia) ltac:(lia) Hga) as Hle.
  rewrite Z.gcd_opp_l in Hle. specialize (Hle Hgb).
  pose proof (sum_mkQ na da (- nb) db ltac:(lia) ltac:(lia)) as Hv.
  rewrite <- mkQ_opp in Hv by lia. rewrite !Z.mul_opp_l, !Z.add_opp_r in *.
  rewrite !cdiv_exact; [|lia|apply Z.gcd_divide_l|lia|apply Z.gcd_divide_r]. simpl.
  set (g := Z.gcd da db) in *. set (da' := da / g) in *. set (db' := db / g) in *.
  destruct (factor_bounds da g da') as [Hda' Hgd]; [lia | done | done |].
  destruct (factor_bounds db g db') as [Hdb' _]; [lia | done | done |].
  assert (1 ≤ da * db' ≤ 18446744065119617025) as Hd by (unfold_widths; nia).
  fold (Qcminus (mkQ na da) (mkQ nb db)) in Hv. rewrite <- Hv.
  lword_mul na db'. lword_mul nb da'.
  destruct (CHECK_WORD_cases (na * db')) as [[Hw1 ->]|[_ ->]]; simpl; [unfold_widths; lia | | done].
  destruct (CHECK_WORD_cases (nb * da')) as [[Hw2 ->]|[_ ->]]; simpl; [unfold_widths; lia | | done].
  rewrite to_lword_id, to_ulword_id by (unfold_widths; lia).
  rewrite absVal64_abs by (unfold_widths; lia). rewrite gcd_ok, Z.gcd_abs_l by lia. simpl.
  set (n := na * db' - nb * da') in *. set (d := da * db') in *.
  rewrite to_uword_id by (unfold_widths; lia).
  destruct (Z.ltb_spec 1 (Z.gcd n d)) as [E1|E1].
  - apply reduce_ok; [unfold_widths; lia | unfold_widths; lia | done].
  - apply no_reduce_ok; [unfold_widths; lia | unfold_widths; lia | lia].
Qed.

Lemma inverse_words_ok r : word_ok (num r) (den r) → num r ≠ 0 →
  fast_ok (inverse_words r) (/ mkQ (num r) (den r))%Qc.
Proof.
  destruct r as [s n d q]. simpl. intros (Hn & Hd & Hg) H0. unfold inverse_words. simpl.
  destruct (Z.ltb_spec 0 n).
  - rewrite mkQ_inv by lia.
    apply no_reduce_ok; [unfold_widths; lia | unfold_widths; lia | by rewrite Z.gcd_comm].
  - rewrite mkQ_inv_neg by lia.
    apply no_reduce_ok; [unfold_widths; lia | unfold_widths; lia |].
    by rewrite Z.gcd_opp_l, Z.gcd_opp_r, Z.gcd_comm.
Qed.

End words.

(** ** Whole operations *)

(** An operand after the operation: the same rational, perhaps with its [mpq]
    part filled in. *)
Definition same (x x' : FastRational) : Prop := wf x' ∧ val x' = val x.

Definition op3_correct (op : FastRational → FastRational → FastRational →
      res (FastRational * FastRational * FastRational))
    (f : Qc → Qc → Qc) (pre : Qc → Prop) : Prop :=
  ∀ dst a b, valid_state (state dst) → wf a → wf b → pre (val b) →
  ∃ d a' b', op dst a b = Ok (d, a', b') ∧ wf d ∧ val d = f (val a) (val b)
    ∧ same a a' ∧ same b b'.

Definition op2_correct (op : FastRational → FastRational → res (FastRational * FastRational))
    (f : Qc → Qc → Qc) (pre : Qc → Prop) : Prop :=
  ∀ a b, wf a → wf b → pre (val b) →
  ∃ d b', op a b = Ok (d, b') ∧ wf d ∧ val d = f (val a) (val b) ∧ same b b'.

Lemma same_refl x : wf x → same x x.
Proof. by split. Qed.

Lemma val_word r : wordPartValid r = true → val r = mkQ (num r) (den r).
Proof. intros E. unfold val. by rewrite E. Qed.

Lemma wf_valid_state r : wf r → valid_state (state r).
Proof. by intros []. Qed.

Lemma wf_word_zero r : wf r → wordPartValid r = true → num r = 0 ↔ val r = 0%Qc.
Proof.
  intros Hw E. rewrite val_word by done. destruct (wf_word r Hw E) as (_ & Hd & _).
  by rewrite mkQ_eq_0 by lia.
Qed.

Create HintDb rational.
#[export] Hint Resolve same_refl wf_valid_state : rational.

Section ops.
Context {gmp : GMP}.

Lemma ensure_same x : wf x → same x (force_ensure_mpq_valid x).
Proof. intros H. by destruct (ensure_mpq_valid_wf x H) as (H1 & H2 & _). Qed.

Lemma ensure_canonical x : wf x →
  canonical (mpq (force_ensure_mpq_valid x)) ∧ mpq_val (mpq (force_ensure_mpq_valid x)) = val x.
Proof. intros H. by destruct (ensure_mpq_valid_wf x H) as (_ & _ & H3 & H4). Qed.

Hint Resolve ensure_same : rational.

Lemma canonical_zero q : canonical q → numref q = 0 ↔ mpq_val q = 0%Qc.
Proof. intros [Hd _]. unfold mpq_val. by rewrite mkQ_eq_0. Qed.

(** A word block followed by its [overflow:] part: correct when both parts are. *)
Lemma finish_op3 dst a b (m : jump (Z * Z)) (o : res (FastRational * FastRational * FastRational)) v :
  valid_state (state dst) → wf a → wf b → fast_ok m v →
  (∃ d a' b', o = Ok (d, a', b') ∧ wf d ∧ val d = v ∧ same a a' ∧ same b b') →
  ∃ d a' b', match m with
      | Fall (n, d) => Ok (setOnlyWordPartValid (set_word dst n d), a, b)
      | Goto_overflow => o
      | Raise e => Err e
      end = Ok (d, a', b') ∧ wf d ∧ val d = v ∧ same a a' ∧ same b b'.
Proof.
  intros Hs Ha Hb Hm Ho. destruct m as [[n d]| |e]; simpl in Hm; [|done|done].
  destruct Hm as [Hok <-]. destruct (setOnlyWordPartValid_wf dst n d Hs Hok).
  eauto 10 with rational.
Qed.

Lemma finish_op2 a b (m : jump (Z * Z)) (o : res (FastRational * FastRational)) v :
  wf a → wf b → fast_ok m v →
  (∃ d b', o = Ok (d, b') ∧ wf d ∧ val d = v ∧ same b b') →
  ∃ d b', match m with
      | Fall (n, d) => Ok (setOnlyWordPartValid (set_word a n d), b)
      | Goto_overflow => o
      | Raise e => Err e
      end = Ok (d, b') ∧ wf d ∧ val d = v ∧ same b b'.
Proof.
  intros Ha Hb Hm Ho. destruct m as [[n d]| |e]; simpl in Hm; [|done|done].
  destruct Hm as [Hok <-]. destruct (setOnlyWordPartValid_wf a n d (wf_state _ Ha) Hok).
  eauto 10 with rational.
Qed.

(** The multi-precision part of an operation whose GMP function is correct. *)
Lemma overflow_op3 (op : mpq_t → mpq_t → mpq_t) f dst a b :
  (∀ p q, canonical p → canonical q → canonical (op p q) ∧ mpq_val (op p q) = f (mpq_val p) (mpq_val q)) →
  wf a → wf b →
  ∃ d a' b', Ok (overflow_result dst (op (mpq (force_ensure_mpq_valid a)) (mpq (force_ensure_mpq_valid b))),
      force_ensure_mpq_valid a, force_ensure_mpq_valid b) = Ok (d, a', b')
    ∧ wf d ∧ val d = f (val a) (val b) ∧ same a a' ∧ same b b'.
Proof.
  intros Hop Ha Hb. destruct (ensure_canonical a Ha) as [Ca Va].
  destruct (ensure_canonical b Hb) as [Cb Vb].
  destruct (Hop _ _ Ca Cb) as [Cr Vr]. rewrite Va, Vb in Vr.
  destruct (overflow_result_wf dst _ Cr) as [Hw Hv]. rewrite Vr in Hv.
  eauto 10 with rational.
Qed.

Lemma overflow_assign_ok (op : mpq_t → mpq_t → res mpq_t) f a b v :
  (∀ p q, canonical p → canonical q → mpq_val p = val a → mpq_val q = val b →
     op p q = Ok (f p q) ∧ canonical (f p q) ∧ mpq_val (f p q) = v) →
  wf a → wf b →
  ∃ d b', overflow_assign op a b = Ok (d, b') ∧ wf d ∧ val d = v ∧ same b b'.
Proof.
  intros Hop Ha Hb. destruct (ensure_canonical a Ha) as [Ca Va].
  destruct (ensure_canonical b Hb) as [Cb Vb].
  destruct (Hop _ _ Ca Cb Va Vb) as (Eo & Cr & Vr). unfold overflow_assign.
  unfold force_ensure_mpq_valid in *. rewrite Eo. simpl.
  destruct (try_fit_word_wf (set_state (set_mpq (ensure_mpq_valid a)
    (f (mpq (ensure_mpq_valid a)) (mpq (ensure_mpq_valid b)))) MPQ_ALLOCATED_AND_VALID)) as [Hw Hv];
    [done | done |]. simpl in Hv. rewrite Vr in Hv.
  eexists _, _. split; [done|]. split; [done|]. split; [done|]. apply (ensure_same b Hb).
Qed.

Lemma words_ok a b : wf a → wf b → wordPartValid a && wordPartValid b = true →
  word_ok (num a) (den a) ∧ word_ok (num b) (den b)
  ∧ val a = mkQ (num a) (den a) ∧ val b = mkQ (num b) (den b).
Proof.
  intros Ha Hb [Ea Eb]%andb_true_iff. rewrite !val_word by done.
  split; [by apply wf_word|]. split; [by apply wf_word|]. done.
Qed.

Lemma addition_correct : op3_correct addition Qcplus (λ _, True).
Proof.
  intros dst a b Hs Ha Hb _. unfold addition.
  pose proof (overflow_op3 mpq_add Qcplus dst a b mpq_add_spec Ha Hb) as Ho.
  destruct (wordPartValid a && wordPartValid b) eqn:E; [|exact Ho].
  destruct (words_ok a b Ha Hb E) as (Wa & Wb & Va & Vb).
  apply finish_op3; [done | done | done | | exact Ho].
  rewrite Va, Vb. by apply addition_words_ok.
Qed.

Lemma substraction_correct : op3_correct substraction Qcminus (λ _, True).
Proof.
  intros dst a b Hs Ha Hb _. unfold substraction.
  pose proof (overflow_op3 mpq_sub Qcminus dst a b mpq_sub_spec Ha Hb) as Ho.
  destruct (wordPartValid a && wordPartValid b) eqn:E; [|exact Ho].
  destruct (words_ok a b Ha Hb E) as (Wa & Wb & Va & Vb).
  apply finish_op3; [done | done | done | | exact Ho].
  rewrite Va, Vb. by apply substraction_words_ok.
Qed.

Lemma assign_wf dst x : valid_state (state dst) → wf x →
  wf (assign dst x) ∧ val (assign dst x) = val x.
Proof.
  intros Hs Hx. unfold assign. destruct (wordPartValid x) eqn:E.
  - rewrite (val_word x) by done. apply setOnlyWordPartValid_wf; [done|]. by apply wf_word.
  - pose proof (mpq_valid_of_state x (wf_state x Hx) E) as Em.
    unfold val at 2. rewrite E. split; [|done].
    constructor; simpl; try done.
    + unfold valid_state; auto.
    + intros _. by apply wf_mpq.
    + intros _. by apply wf_big.
Qed.

Lemma isOne_val x : wf x → isOne x = true → val x = 1%Qc.
Proof.
  intros Hx [[E En%Z.eqb_eq]%andb_true_iff Ed%Z.eqb_eq]%andb_true_iff.
  rewrite val_word, En, Ed by done. done.
Qed.

Lemma word_zero_val x : wf x → wordPartValid x && (num x =? 0) = true → val x = 0%Qc.
Proof. intros Hx [E En%Z.eqb_eq]%andb_true_iff. by apply wf_word_zero. Qed.

Lemma set_word_zero_wf dst : valid_state (state dst) →
  wf (setOnlyWordPartValid (set_word dst 0 1)) ∧ val (setOnlyWordPartValid (set_word dst 0 1)) = 0%Qc.
Proof.
  intros Hs. destruct (setOnlyWordPartValid_wf dst 0 1 Hs) as [H1 H2].
  - repeat split; unfold_widths; lia.
  - by rewrite H2.
Qed.

Lemma multiplication_correct : op3_correct multiplication Qcmult (λ _, True).
Proof.
  intros dst a b Hs Ha Hb _. unfold multiplication.
  destruct (_ || _) eqn:E0.
  { destruct (set_word_zero_wf dst Hs) as [Hw Hv].
    eexists _, _, _. split; [done|]. split; [done|]. rewrite Hv. split; [|eauto with rational].
    apply orb_true_iff in E0 as [E|E]; apply word_zero_val in E; try done; rewrite E; ring. }
  destruct (isOne a) eqn:E1.
  { destruct (assign_wf dst b Hs Hb) as [Hw Hv]. eexists _, _, _. split; [done|].
    rewrite (isOne_val a Ha E1), Hv. split; [done|]. split; [ring | eauto with rational]. }
  destruct (isOne b) eqn:E2.
  { destruct (assign_wf dst a Hs Ha) as [Hw Hv]. eexists _, _, _. split; [done|].
    rewrite (isOne_val b Hb E2), Hv. split; [done|]. split; [ring | eauto with rational]. }
  pose proof (overflow_op3 mpq_mul Qcmult dst a b mpq_mul_spec Ha Hb) as Ho.
  destruct (wordPartValid a && wordPartValid b) eqn:E; [|exact Ho].
  destruct (words_ok a b Ha Hb E) as (Wa & Wb & Va & Vb).
  apply finish_op3; [done | done | done | | exact Ho].
  rewrite Va, Vb. by apply multiplication_words_ok.
Qed.

Lemma mpq_div_checked_ok p q : canonical p → canonical q → mpq_val q ≠ 0%Qc →
  mpq_div_checked p q = Ok (mpq_div p q) ∧ canonical (mpq_div p q)
  ∧ mpq_val (mpq_div p q) = (mpq_val p / mpq_val q)%Qc.
Proof.
  intros Cp Cq Hq. unfold mpq_div_checked. rewrite <- canonical_zero in Hq by done.
  rewrite (proj2 (Z.eqb_neq _ _)) by done. split; [done|]. by apply mpq_div_spec.
Qed.

Lemma division_correct : op3_correct division Qcdiv (λ y, y ≠ 0%Qc).
Proof.
  intros dst a b Hs Ha Hb H0. unfold division.
  destruct (isOne b) eqn:E2.
  { destruct (assign_wf dst a Hs Ha) as [Hw Hv]. eexists _, _, _. split; [done|].
    rewrite (isOne_val b Hb E2), Hv. split; [done|]. split; [field; done | eauto with rational]. }
  destruct (wordPartValid a && (num a =? 0)) eqn:E0.
  { eexists _, _, _. split; [done|]. rewrite (word_zero_val a Ha E0). simpl.
    destruct (word_ok_wf WORD_VALID 0 1 (Mpq 0 1)) as [Hw Hv];
      [auto | repeat split; unfold_widths; lia |].
    split; [done|]. split; [|eauto with rational].
    unfold FastRational_word, word_rational. rewrite Hv. unfold Qcdiv. by rewrite Qcmult_0_l. }
  assert (∃ d a' b', (let! q := mpq_div_checked (mpq (force_ensure_mpq_valid a))
        (mpq (force_ensure_mpq_valid b)) in
      Ok (overflow_result dst q, force_ensure_mpq_valid a, force_ensure_mpq_valid b)) = Ok (d, a', b')
      ∧ wf d ∧ val d = (val a / val b)%Qc ∧ same a a' ∧ same b b') as Ho.
  { destruct (ensure_canonical a Ha) as [Ca Va]. destruct (ensure_canonical b Hb) as [Cb Vb].
    rewrite <- Vb in H0. destruct (mpq_div_checked_ok _ _ Ca Cb H0) as (-> & Cr & Vr). simpl.
    rewrite Va, Vb in Vr.
    destruct (overflow_result_wf dst _ Cr) as [Hw Hv]. rewrite Vr in Hv. eauto 10 with rational. }
  destruct (wordPartValid a && wordPartValid b) eqn:E; [|exact Ho].
  destruct (words_ok a b Ha Hb E) as (Wa & Wb & Va & Vb).
  apply finish_op3; [done | done | done | | exact Ho].
  rewrite Va, Vb. apply division_words_ok; [done | done |].
  apply andb_true_iff in E as [_ Eb]. by rewrite (wf_word_zero b) by done.
Qed.

Lemma additionAssign_correct : op2_correct additionAssign Qcplus (λ _, True).
Proof.
  intros a b Ha Hb _. unfold additionAssign.
  assert (∃ d b', overflow_assign (λ p q, Ok (mpq_add p q)) a b = Ok (d, b')
    ∧ wf d ∧ val d = (val a + val b)%Qc ∧ same b b') as Ho.
  { apply (overflow_assign_ok _ mpq_add); [|done|done]. intros p q Cp Cq <- <-.
    split; [done|]. by apply mpq_add_spec. }
  destruct (wordPartValid b) eqn:Eb; [|exact Ho].
  destruct (Z.eqb_spec (num b) 0) as [E0|E0].
  { eexists _, _. split; [done|]. split; [done|].
    apply (wf_word_zero b Hb Eb) in E0. rewrite E0. split; [ring | eauto with rational]. }
  destruct (wordPartValid a) eqn:Ea; [|exact Ho].
  destruct (words_ok a b Ha Hb) as (Wa & Wb & Va & Vb); [by rewrite Ea, Eb|].
  apply finish_op2; [done | done | | exact Ho]. rewrite Va, Vb. by apply additionAssign_words_ok.
Qed.

Lemma substractionAssign_correct : op2_correct substractionAssign Qcminus (λ _, True).
Proof.
  intros a b Ha Hb _. unfold substractionAssign.
  assert (∃ d b', overflow_assign (λ p q, Ok (mpq_sub p q)) a b = Ok (d, b')
    ∧ wf d ∧ val d = (val a - val b)%Qc ∧ same b b') as Ho.
  { apply (overflow_assign_ok _ mpq_sub); [|done|done]. intros p q Cp Cq <- <-.
    split; [done|]. by apply mpq_sub_spec. }
  destruct (wordPartValid a && wordPartValid b) eqn:E; [|exact Ho].
  destruct (words_ok a b Ha Hb E) as (Wa & Wb & Va & Vb).
  apply finish_op2; [done | done | | exact Ho]. rewrite Va, Vb. by apply substractionAssign_words_ok.
Qed.

Lemma multiplicationAssign_correct : op2_correct multiplicationAssign Qcmult (λ _, True).
Proof.
  intros a b Ha Hb _. unfold multiplicationAssign.
  assert (∃ d b', overflow_assign (λ p q, Ok (mpq_mul p q)) a b = Ok (d, b')
    ∧ wf d ∧ val d = (val a * val b)%Qc ∧ same b b') as Ho.
  { apply (overflow_assign_ok _ mpq_mul); [|done|done]. intros p q Cp Cq <- <-.
    split; [done|]. by apply mpq_mul_spec. }
  destruct (wordPartValid a && wordPartValid b) eqn:E; [|exact Ho].
  destruct (words_ok a b Ha Hb E) as (Wa & Wb & Va & Vb).
  apply finish_op2; [done | done | | exact Ho]. rewrite Va, Vb. by apply multiplicationAssign_words_ok.
Qed.

Lemma divisionAssign_correct : op2_correct divisionAssign Qcdiv (λ y, y ≠ 0%Qc).
Proof.
  intros a b Ha Hb H0. unfold divisionAssign.
  assert (∃ d b', overflow_assign mpq_div_checked a b = Ok (d, b')
    ∧ wf d ∧ val d = (val a / val b)%Qc ∧ same b b') as Ho.
  { apply (overflow_assign_ok _ mpq_div); [|done|done]. intros p q Cp Cq <- Eb.
    rewrite <- Eb in *. by apply mpq_div_checked_ok. }
  destruct (wordPartValid a && wordPartValid b) eqn:E; [|exact Ho].
  destruct (words_ok a b Ha Hb E) as (Wa & Wb & Va & Vb).
  apply finish_op2; [done | done | | exact Ho]. rewrite Va, Vb. apply divisionAssign_words_ok; [done | done |].
  apply andb_true_iff in E as [_ Eb]. by rewrite (wf_word_zero b) by done.
Qed.

End ops.

(** ** Comparison and the uniqueness of representations *)

Section compare.
Context {gmp : GMP}.

Lemma Zsgn_sub_compare x y : Z.sgn (x - y) = match x ?= y with Eq => 0 | Lt => -1 | Gt => 1 end.
Proof. destruct (Z.compare_spec x y); lia. Qed.

Lemma compare_lword_sgn x y : compare_lword x y = Z.sgn (x - y).
Proof. unfold compare_lword. destruct (Z.ltb_spec x y), (Z.ltb_spec y x); lia. Qed.

Lemma mpq_val_compare p q : canonical p → canonical q →
  Z.sgn (mpq_cmp p q) = match (mpq_val p ?= mpq_val q)%Qc with Eq => 0 | Lt => -1 | Gt => 1 end.
Proof.
  intros Cp Cq. rewrite mpq_cmp_spec by done. destruct Cp as [Hp _], Cq as [Hq _].
  unfold mpq_val. rewrite mkQ_cmp by done. apply Zsgn_sub_compare.
Qed.

Lemma compare_sgn a b : wf a → wf b →
  Z.sgn (compare a b) = match (val a ?= val b)%Qc with Eq => 0 | Lt => -1 | Gt => 1 end.
Proof.
  intros Ha Hb. unfold compare.
  destruct (wordPartValid a && wordPartValid b) eqn:E.
  - destruct (words_ok a b Ha Hb E) as ((Hna & Hda & _) & (Hnb & Hdb & _) & -> & ->).
    rewrite mkQ_cmp by lia. destruct (Z.eqb_spec (den b) (den a)) as [->|_].
    + rewrite <- Zsgn_sub_compare, compare_lword_sgn.
      rewrite <- Z.mul_sub_distr_r, Z.sgn_mul, (Z.sgn_pos (den a)) by lia.
      rewrite Z.mul_1_r. by destruct (num a - num b).
    + lword_mul (num a) (den b). lword_mul (num b) (den a).
      rewrite <- Zsgn_sub_compare, compare_lword_sgn. by destruct (_ - _).
  - destruct (ensure_canonical a Ha) as [Ca <-]. destruct (ensure_canonical b Hb) as [Cb <-].
    by apply mpq_val_compare.
Qed.

Lemma lt_correct a b : wf a → wf b → lt a b = true ↔ (val a < val b)%Qc.
Proof.
  intros Ha Hb. pose proof (compare_sgn a b Ha Hb) as H. unfold lt. rewrite Z.ltb_lt.
  destruct (Qccompare (val a) (val b)) eqn:E; unfold Qccompare in E.
  - apply Qeq_alt in E. split; [lia | intros Hl; unfold Qclt in Hl; rewrite E in Hl].
    by apply Qlt_irrefl in Hl.
  - apply Qlt_alt in E. split; [done | lia].
  - apply Qgt_alt in E. split; [lia | intros Hl]. exfalso. apply (Qlt_irrefl (val a)).
    eapply Qlt_trans; [exact Hl | exact E].
Qed.

Lemma le_correct a b : wf a → wf b → le a b = true ↔ (val a <= val b)%Qc.
Proof.
  intros Ha Hb. pose proof (compare_sgn a b Ha Hb) as H. unfold le. rewrite Z.leb_le.
  destruct (Qccompare (val a) (val b)) eqn:E; unfold Qccompare in E.
  - apply Qeq_alt in E. split; [|lia]. intros _. unfold Qcle. rewrite E. apply Qle_refl.
  - apply Qlt_alt in E. split; [intros _; by apply Qlt_le_weak | lia].
  - apply Qgt_alt in E. split; [lia | intros Hl]. exfalso. by apply (Qlt_not_le _ _ E).
Qed.

(** A well-formed rational is in its word form exactly when it fits, so equal
    values have equal words. *)
Lemma wordPartValid_fits a : wf a →
  wordPartValid a = true ↔ ∃ n d, word_ok n d ∧ val a = mkQ n d.
Proof.
  intros Ha. split.
  - intros E. exists (num a), (den a). rewrite val_word by done. eauto using wf_word.
  - intros (n & d & (Hn & Hd & Hg) & Hv). destruct (wordPartValid a) eqn:E; [done|].
    destruct (wf_big a Ha E). pose proof (mpq_valid_of_state a (wf_state a Ha) E) as Em.
    destruct (wf_mpq a Ha Em) as [Hd' Hg']. unfold val in Hv. rewrite E in Hv.
    apply mkQ_inj in Hv as [En Ed]; [|done|lia|done|done].
    split; unfold_widths; lia.
Qed.

Lemma val_inj a b : wf a → wf b → val a = val b →
  wordPartValid a = wordPartValid b
  ∧ (wordPartValid a = true → num a = num b ∧ den a = den b)
  ∧ (wordPartValid a = false → mpq a = mpq b).
Proof.
  intros Ha Hb Hv.
  assert (wordPartValid a = wordPartValid b) as E.
  { apply Bool.eq_true_iff_eq. rewrite !wordPartValid_fits by done. by rewrite Hv. }
  split; [done|]. split.
  - intros Ea. rewrite !val_word in Hv by congruence.
    destruct (wf_word a Ha Ea) as (_ & ? & ?), (wf_word b Hb) as (_ & ? & ?); [congruence|].
    apply mkQ_inj in Hv; lia || done.
  - intros Ea. unfold val in Hv. rewrite Ea, <- E, Ea in Hv.
    destruct (wf_mpq a Ha) as [? ?]; [apply mpq_valid_of_state; [apply Ha | done]|].
    destruct (wf_mpq b Hb) as [? ?]; [apply mpq_valid_of_state; [apply Hb | congruence]|].
    apply mkQ_inj in Hv; try done. destruct (mpq a), (mpq b); simpl in *. naive_solver.
Qed.

Lemma eqb_correct a b : wf a → wf b → eqb a b = true ↔ val a = val b.
Proof.
  intros Ha Hb. unfold eqb. destruct (wordPartValid a && wordPartValid b) eqn:E.
  - destruct (words_ok a b Ha Hb E) as ((_ & ? & ?) & (_ & ? & ?) & -> & ->).
    rewrite andb_true_iff, !Z.eqb_eq. split; [by intros [-> ->]|].
    intros Hv. apply mkQ_inj in Hv; lia || done.
  - destruct (ensure_canonical a Ha) as [Ca <-]. destruct (ensure_canonical b Hb) as [Cb <-].
    rewrite mpq_equal_spec by done. split; [by intros -> |].
    intros Hv. destruct Ca, Cb. unfold mpq_val in Hv. apply mkQ_inj in Hv; try done.
    destruct (mpq (force_ensure_mpq_valid a)), (mpq (force_ensure_mpq_valid b)); simpl in *. naive_solver.
Qed.

Lemma sign_correct r : wf r → sign r = match (val r ?= 0)%Qc with Eq => 0 | Lt => -1 | Gt => 1 end.
Proof.
  intros Hr. change (Q2Qc 0) with (mkQ 0 1). unfold sign, val. destruct (wordPartValid r) eqn:E.
  - destruct (wf_word r Hr E) as (_ & Hd & _). rewrite mkQ_cmp by lia.
    rewrite Z.mul_1_r, Z.mul_0_l. destruct (Z.compare_spec (num r) 0), (Z.ltb_spec (num r) 0),
      (Z.ltb_spec 0 (num r)); lia.
  - pose proof (mpq_valid_of_state r (wf_state r Hr) E) as Em.
    pose proof (wf_mpq r Hr Em) as C. rewrite mpq_sgn_spec by done. destruct C as [Hd _].
    unfold mpq_val. rewrite mkQ_cmp by lia. rewrite Z.mul_1_r, Z.mul_0_l.
    destruct (Z.compare_spec (numref (mpq r)) 0); lia.
Qed.

Lemma isZero_correct r : wf r → isZero r = true ↔ val r = 0%Qc.
Proof.
  intros Hr. unfold isZero. rewrite andb_true_iff, Z.eqb_eq. split.
  - intros [E En]. by apply wf_word_zero.
  - intros Hv. assert (wordPartValid r = true) as E.
    { apply wordPartValid_fits; [done|]. exists 0, 1.
      split; [repeat split; unfold_widths; lia | by rewrite Hv]. }
    split; [done|]. by apply wf_word_zero.
Qed.

End compare.

(** ** Constructors, negation, inverse *)

Section unary.
Context {gmp : GMP}.

Lemma word_rational_wf n d : word_ok n d →
  wf (word_rational n d) ∧ val (word_rational n d) = mkQ n d.
Proof. intros H. apply word_ok_wf; auto. Qed.

Lemma FastRational_word_wf n : in_word n →
  wf (FastRational_word n) ∧ val (FastRational_word n) = mkQ n 1.
Proof.
  intros H. apply word_rational_wf. split; [done|]. split; [unfold_widths; lia | apply Z.gcd_1_r].
Qed.

Lemma mpq_rational_wf n d q : canonical q → ¬ fits q →
  wf (FR MPQ_ALLOCATED_AND_VALID n d q) ∧ val (FR MPQ_ALLOCATED_AND_VALID n d q) = mpq_val q.
Proof.
  intros Hc Hf. split; [|done]. constructor; simpl; try done. unfold valid_state. auto.
Qed.

Lemma canonical_int z : canonical (Mpq z 1).
Proof. split; simpl; [lia | apply Z.gcd_1_r]. Qed.

Lemma FastRational_mpz_wf z : wf (FastRational_mpz z) ∧ val (FastRational_mpz z) = mkQ z 1.
Proof.
  unfold FastRational_mpz. destruct (mpz_fits_sint_p z) eqn:E.
  - apply mpz_fits_sint_p_spec in E. rewrite mpz_get_si_spec, to_word_id by (unfold_widths; lia).
    by apply FastRational_word_wf.
  - apply mpq_rational_wf; [apply canonical_int|]. intros [H _]. simpl in H.
    apply mpz_fits_sint_p_spec in H. congruence.
Qed.

Lemma FastRational_uint32_wf x : in_uword x →
  wf (FastRational_uint32 x) ∧ val (FastRational_uint32 x) = mkQ x 1.
Proof.
  intros Hx. unfold FastRational_uint32. destruct (Z.ltb_spec WORD_MAX x).
  - apply mpq_rational_wf; [apply canonical_int|]. intros [H1 _]. simpl in H1.
    unfold_widths. lia.
  - rewrite to_word_id by (unfold_widths; lia). apply FastRational_word_wf. unfold_widths. lia.
Qed.

Lemma FastRational_copy_same x : wf x → same x (FastRational_copy x).
Proof.
  intros Hx. unfold FastRational_copy, same, val at 2. destruct (wordPartValid x) eqn:E.
  - apply word_rational_wf. by apply wf_word.
  - apply mpq_rational_wf; [apply wf_mpq; [done|] | by apply wf_big].
    apply mpq_valid_of_state; [apply Hx | done].
Qed.

(** The two-argument constructor is exact on a non-negative numerator and on
    one that is already reduced. *)
Lemma FastRational_frac_wf n d : in_word n → 1 ≤ d ≤ UWORD_MAX →
  0 ≤ n ∨ Z.gcd n d = 1 →
  ∃ r, FastRational_frac n d = Ok r ∧ wf r ∧ val r = mkQ n d.
Proof.
  intros Hn Hd Hc. unfold FastRational_frac. destruct (Z.eqb_spec n 0) as [->|H0].
  { eexists. split; [done|].
    destruct (word_rational_wf 0 1) as [Hw ->]; [repeat split; unfold_widths; lia|].
    rewrite !mkQ_0 by lia. done. }
  rewrite absVal_abs, gcd_ok, Z.gcd_abs_l by lia || done. simpl.
  destruct (reduce_spec n d) as (Hg & Hd' & Hg1 & Hv); [lia|].
  destruct (Z.ltb_spec 1 (Z.gcd n d)) as [H1|H1].
  - destruct Hc as [Hc|Hc]; [|lia].
    rewrite to_uword_id by (unfold_widths; lia).
    rewrite !cdiv_exact; [|lia|apply Z.gcd_divide_r|lia|apply Z.gcd_divide_l]. simpl.
    destruct (div_gcd_bounds n d) as [Hb1 Hb2]; [lia|].
    rewrite to_word_id by (unfold_widths; lia).
    eexists. split; [done|]. rewrite <- Hv. apply word_rational_wf.
    split; [unfold_widths; lia|]. split; [lia | done].
  - eexists. split; [done|]. apply word_rational_wf. split; [done|]. split; [done | lia].
Qed.

Lemma mpq_neg_ok q : canonical q →
  canonical (mpq_neg q) ∧ mpq_val (mpq_neg q) = (- mpq_val q)%Qc.
Proof.
  intros C. rewrite mpq_neg_spec by done. destruct C as [Hd Hg].
  unfold canonical, mpq_val. simpl. rewrite Z.gcd_opp_l, mkQ_opp by done. done.
Qed.

Lemma opp_correct r : wf r →
  ∃ x r', opp r = Ok (x, r') ∧ wf x ∧ val x = (- val r)%Qc ∧ same r r'.
Proof.
  intros Hr. unfold opp. destruct (wordPartValid r && _) eqn:E.
  - apply andb_true_iff in E as [E En%Z.ltb_lt]. destruct (wf_word r Hr E) as (Hn & Hd & Hg).
    destruct (FastRational_frac_wf (- num r) (den r)) as (x & -> & Hx & Hv);
      [unfold_widths; lia | done | right; by rewrite Z.gcd_opp_l |].
    simpl. eexists _, _. split; [done|]. split; [done|]. rewrite Hv, (val_word r), mkQ_opp by lia || done.
    split; [done|]. by apply same_refl.
  - destruct (ensure_canonical r Hr) as [C Ev]. destruct (mpq_neg_ok _ C) as [Cn Vn].
    rewrite Ev in Vn. eexists _, _. split; [done|].
    destruct (try_fit_word_wf (FR MPQ_ALLOCATED_AND_VALID 0 1
      (mpq_neg (mpq (force_ensure_mpq_valid r))))) as [Hw Hv]; [done | done |].
    simpl in Hv. rewrite Vn in Hv. split; [done|]. split; [done|]. by apply ensure_same.
Qed.

Lemma negate_correct r : wf r → wf (negate r) ∧ val (negate r) = (- val r)%Qc.
Proof.
  intros Hr. unfold negate. destruct (wordPartValid r && _) eqn:E.
  - apply andb_true_iff in E as [E En%Z.ltb_lt]. destruct (wf_word r Hr E) as (Hn & Hd & Hg).
    rewrite (val_word r), mkQ_opp by lia || done.
    assert (word_ok (- num r) (den r)) as Hok
      by (split; [unfold_widths; lia|]; split; [done|]; by rewrite Z.gcd_opp_l).
    pose proof (wf_state r Hr) as Hs. destruct r as [s n d q]. simpl in *.
    state_cases Hs; try done; by apply word_ok_wf; auto.
  - destruct (ensure_canonical r Hr) as [C Ev]. destruct (mpq_neg_ok _ C) as [Cn Vn].
    rewrite Ev in Vn. rewrite <- Vn. by apply try_fit_word_wf.
Qed.

Lemma inverse_correct r : wf r → val r ≠ 0%Qc →
  ∃ x r', inverse r = Ok (x, r') ∧ wf x ∧ val x = (/ val r)%Qc ∧ same r r'.
Proof.
  intros Hr H0. unfold inverse.
  assert (∃ x r', (if numref (mpq (force_ensure_mpq_valid r)) =? 0 then Err Division_by_zero
      else Ok (overflow_result FastRational_default (mpq_inv (mpq (force_ensure_mpq_valid r))),
               force_ensure_mpq_valid r)) = Ok (x, r')
    ∧ wf x ∧ val x = (/ val r)%Qc ∧ same r r') as Ho.
  { destruct (ensure_canonical r Hr) as [C Ev]. rewrite <- Ev in H0.
    rewrite <- canonical_zero in H0 by done. rewrite (proj2 (Z.eqb_neq _ _)) by done.
    destruct (mpq_inv_spec _ C H0) as [Ci Vi]. rewrite Ev in Vi.
    destruct (overflow_result_wf FastRational_default _ Ci) as [Hw Hv]. rewrite Vi in Hv.
    eexists _, _. split; [done|]. split; [done|]. split; [done|]. by apply ensure_same. }
  destruct (wordPartValid r) eqn:E; [|exact Ho].
  rewrite <- wf_word_zero in H0 by done. rewrite (proj2 (Z.eqb_neq _ _)) by done. simpl.
  pose proof (inverse_words_ok r (wf_word r Hr E) H0) as Hf.
  rewrite <- val_word in Hf by done.
  destruct (inverse_words r) as [[n d]| |e]; simpl in Hf; [|exact Ho|done].
  destruct Hf as [Hok Hv]. eexists _, _. split; [done|].
  destruct (word_rational_wf n d Hok) as [Hw Hv']. rewrite <- Hv.
  split; [done|]. split; [done|]. by apply same_refl.
Qed.

End unary.
