(* ===== verification/FastRationalInt.v ===== *)
(** * The integer operations of the rationals

    [isInteger], [get_num], [get_den], [ceil], [floor], [fastrat_fdiv_q],
    [fastrat_round_to_int], [divexact], [gcd], [lcm] and [operator%]: what they
    compute on well-formed operands, and the operands on which the word branch
    and the multi-precision branch disagree. *)
From S2P Require Import Prelude Gmp FastRational FastRationalFacts.
From Stdlib Require Import Lia.

Definition of_Z (z : Z) : Qc := mkQ z 1.

Definition is_int (x : Qc) : Prop := ∃ z, x = of_Z z.

Lemma of_Z_inj x y : of_Z x = of_Z y → x = y.
Proof. intros H%mkQ_eq; lia. Qed.

Lemma mkQ_le n d n' d' : 0 < d → 0 < d' → (mkQ n d <= mkQ n' d')%Qc ↔ n * d' ≤ n' * d.
Proof.
  intros Hd Hd'. unfold Qcle. rewrite !mkQ_this. unfold Qle. simpl.
  by rewrite !Z2Pos.id by lia.
Qed.

Lemma mkQ_lt n d n' d' : 0 < d → 0 < d' → (mkQ n d < mkQ n' d')%Qc ↔ n * d' < n' * d.
Proof.
  intros Hd Hd'. unfold Qclt. rewrite !mkQ_this. unfold Qlt. simpl.
  by rewrite !Z2Pos.id by lia.
Qed.

(** The numerator and denominator of whichever part is valid. *)
Definition parts (r : FastRational) : Z * Z :=
  if wordPartValid r then (num r, den r) else (numref (mpq r), denref (mpq r)).

Lemma parts_spec r : wf r →
  0 < snd (parts r) ∧ Z.gcd (fst (parts r)) (snd (parts r)) = 1
  ∧ val r = mkQ (fst (parts r)) (snd (parts r)).
Proof.
  intros Hr. unfold parts, val. destruct (wordPartValid r) eqn:E; simpl.
  - destruct (wf_word r Hr E) as (_ & ? & ?). split; [lia | done].
  - destruct (wf_mpq r Hr) as [? ?]; [|done]. apply mpq_valid_of_state; [apply Hr | done].
Qed.

Lemma mkQ_is_int n d : 0 < d → Z.gcd n d = 1 → is_int (mkQ n d) ↔ d = 1.
Proof.
  intros Hd Hg. split.
  - intros [z Hz]. apply mkQ_inj in Hz as [_ ?]; [done | lia | lia | done | apply Z.gcd_1_r].
  - intros ->. by exists n.
Qed.

Section with_gmp.
Context {gmp : GMP}.

Lemma isInteger_parts r : wf r → isInteger r = (snd (parts r) =? 1).
Proof.
  intros Hr. destruct (parts_spec r Hr) as (Hd & _). unfold isInteger, parts in *.
  destruct (wordPartValid r); simpl in *; [done|].
  destruct (mpz_fits_uint_p _) eqn:E; simpl.
  - apply mpz_fits_uint_p_spec in E. rewrite mpz_get_ui_spec by (unfold_widths; lia). done.
  - destruct (Z.eqb_spec (denref (mpq r)) 1) as [E1|]; [|done].
    assert (in_uword (denref (mpq r))) as H by (unfold_widths; lia).
    apply mpz_fits_uint_p_spec in H. congruence.
Qed.

Lemma isInteger_correct r : wf r → isInteger r = true ↔ is_int (val r).
Proof.
  intros Hr. destruct (parts_spec r Hr) as (Hd & Hg & ->).
  by rewrite isInteger_parts, Z.eqb_eq, mkQ_is_int.
Qed.

Lemma isInteger_value r : wf r → isInteger r = true → val r = of_Z (fst (parts r)).
Proof.
  intros Hr Hi. destruct (parts_spec r Hr) as (Hd & Hg & ->).
  rewrite isInteger_parts, Z.eqb_eq in Hi by done. by rewrite Hi.
Qed.

Lemma get_num_correct r : wf r → wf (get_num r) ∧ val (get_num r) = of_Z (fst (parts r)).
Proof.
  intros Hr. unfold get_num, parts. destruct (wordPartValid r) eqn:E; simpl.
  - apply FastRational_word_wf. by destruct (wf_word r Hr E).
  - apply FastRational_mpz_wf.
Qed.

Lemma ensure_parts r : wf r →
  numref (mpq (force_ensure_mpq_valid r)) = fst (parts r)
  ∧ denref (mpq (force_ensure_mpq_valid r)) = snd (parts r).
Proof.
  intros Hr. unfold force_ensure_mpq_valid, ensure_mpq_valid, parts.
  destruct (mpqPartValid r) eqn:Em, (wordPartValid r) eqn:E; simpl; try done.
  - by rewrite (wf_both r Hr E Em).
  - pose proof (mpq_valid_of_state r (wf_state r Hr) E). congruence.
Qed.

Lemma get_den_correct r : wf r → wf (get_den r) ∧ val (get_den r) = of_Z (snd (parts r)).
Proof.
  intros Hr. unfold get_den. destruct (wordPartValid r && _) eqn:E.
  - apply andb_true_iff in E as [E _]. destruct (wf_word r Hr E) as (_ & Hd & _).
    unfold parts. rewrite E. apply FastRational_uint32_wf. unfold_widths; lia.
  - destruct (ensure_parts r Hr) as [_ ->]. apply FastRational_mpz_wf.
Qed.

(** ** Rounding *)

Definition is_floor (z : Z) (x : Qc) : Prop := (of_Z z <= x)%Qc ∧ (x < of_Z (z + 1))%Qc.
Definition is_ceil (z : Z) (x : Qc) : Prop := (of_Z (z - 1) < x)%Qc ∧ (x <= of_Z z)%Qc.

Lemma is_floor_int z : is_floor z (of_Z z).
Proof. unfold is_floor, of_Z. rewrite mkQ_le, mkQ_lt by lia. lia. Qed.
Lemma is_ceil_int z : is_ceil z (of_Z z).
Proof. unfold is_ceil, of_Z. rewrite mkQ_le, mkQ_lt by lia. lia. Qed.

Lemma is_floor_div n d : 0 < d → is_floor (n / d) (mkQ n d).
Proof.
  intros Hd. unfold is_floor, of_Z. rewrite mkQ_le, mkQ_lt by lia.
  pose proof (Z.div_mod n d ltac:(lia)). pose proof (Z.mod_pos_bound n d ltac:(lia)). nia.
Qed.

Lemma is_ceil_div n d : 0 < d → is_ceil (- (- n / d)) (mkQ n d).
Proof.
  intros Hd. unfold is_ceil, of_Z. rewrite mkQ_le, mkQ_lt by lia.
  pose proof (Z.div_mod (- n) d ltac:(lia)). pose proof (Z.mod_pos_bound (- n) d ltac:(lia)). nia.
Qed.

(** Away from the integers the ceiling is one more than the floor. *)
Lemma is_ceil_floor z x : is_ceil z x → ¬ is_int x → is_floor (z - 1) x.
Proof.
  intros [H1 H2] Hx. split; [by apply Qclt_le_weak|].
  replace (z - 1 + 1) with z by lia.
  destruct (Qcle_lt_or_eq _ _ H2) as [|E]; [done|]. destruct Hx. by exists z.
Qed.

Lemma ceil_word n d : word_ok n d → d ≠ 1 →
  let q := Z.quot (Z.abs n) d in
  in_word (if n <? 0 then - q else q + 1) ∧ 0 ≤ q ≤ 1073741824
  ∧ is_ceil (if n <? 0 then - q else q + 1) (mkQ n d).
Proof.
  intros (Hn & Hd & Hg) Hd1 q. unfold_widths.
  assert (q = Z.abs n / d) as Eq by (apply Z.quot_div_nonneg; lia).
  pose proof (Z.div_mod (Z.abs n) d ltac:(lia)). pose proof (Z.mod_pos_bound (Z.abs n) d ltac:(lia)).
  assert (0 ≤ q ≤ 1073741824) by nia.
  destruct (Z.ltb_spec n 0); (split; [unfold_widths; lia|]); (split; [lia|]).
  - rewrite Eq, Z.abs_neq by lia. apply is_ceil_div. lia.
  - unfold is_ceil, of_Z. rewrite mkQ_le, mkQ_lt by lia. split; [|nia].
    assert (Z.abs n mod d ≠ 0); [|nia]. intros Hz.
    apply Hd1. apply Z.divide_1_r_nonneg; [lia|]. rewrite <- Hg.
    apply Z.gcd_greatest; [|done]. apply Z.mod_divide; [lia|]. by rewrite <- (Z.abs_eq n) by lia.
Qed.

Lemma ceil_correct r : wf r →
  ∃ x z, ceil r = Ok x ∧ wf x ∧ val x = of_Z z ∧ is_ceil z (val r).
Proof.
  intros Hr. unfold ceil. destruct (isInteger r) eqn:Ei.
  { destruct (FastRational_copy_same r Hr) as [Hw Hv].
    pose proof (isInteger_value r Hr Ei) as E. rewrite E in Hv.
    eexists _, _. split; [done|]. split; [done|]. split; [done|]. rewrite E. apply is_ceil_int. }
  rewrite isInteger_parts in Ei by done. apply Z.eqb_neq in Ei.
  destruct (parts_spec r Hr) as (Hd & Hg & Hv). unfold parts in *.
  destruct (wordPartValid r) eqn:E; simpl in *.
  - pose proof (wf_word r Hr E) as Hok. destruct Hok as (Hn & Hd' & _).
    rewrite absVal_abs, cdiv_ok by lia || done. simpl.
    destruct (ceil_word (num r) (den r)) as (Hq & Hqb & Hc); [by apply wf_word | done |].
    rewrite to_word_id by (unfold_widths; lia).
    destruct (FastRational_word_wf _ Hq) as [Hw Hx].
    eexists _, _. split; [done|]. split; [done|]. split; [done|]. by rewrite Hv.
  - destruct (FastRational_mpz_wf (mpz_cdiv_q (numref (mpq r)) (denref (mpq r)))) as [Hw Hx].
    rewrite mpz_cdiv_q_spec in * by lia.
    eexists _, _. split; [done|]. split; [done|]. split; [done|]. rewrite Hv.
    by apply is_ceil_div.
Qed.

Lemma minus_correct a b : wf a → wf b →
  ∃ d, minus a b = Ok d ∧ wf d ∧ val d = (val a - val b)%Qc.
Proof.
  intros Ha Hb. unfold minus.
  destruct (substraction_correct FastRational_default a b) as (d & ? & ? & -> & Hw & Hv & _);
    [by left | done | done | done |]. simpl. eauto.
Qed.

Lemma plus_correct a b : wf a → wf b →
  ∃ d, plus a b = Ok d ∧ wf d ∧ val d = (val a + val b)%Qc.
Proof.
  intros Ha Hb. unfold plus.
  destruct (addition_correct FastRational_default a b) as (d & ? & ? & -> & Hw & Hv & _);
    [by left | done | done | done |]. simpl. eauto.
Qed.

Lemma times_correct a b : wf a → wf b →
  ∃ d, times a b = Ok d ∧ wf d ∧ val d = (val a * val b)%Qc.
Proof.
  intros Ha Hb. unfold times.
  destruct (multiplication_correct FastRational_default a b) as (d & ? & ? & -> & Hw & Hv & _);
    [by left | done | done | done |]. simpl. eauto.
Qed.

Lemma divide_correct a b : wf a → wf b → val b ≠ 0%Qc →
  ∃ d, divide a b = Ok d ∧ wf d ∧ val d = (val a / val b)%Qc.
Proof.
  intros Ha Hb H0. unfold divide.
  destruct (division_correct FastRational_default a b) as (d & ? & ? & -> & Hw & Hv & _);
    [by left | done | done | done |]. simpl. eauto.
Qed.

Lemma of_Z_sub x y : (of_Z x - of_Z y)%Qc = of_Z (x - y).
Proof. unfold of_Z. rewrite mkQ_sub by lia. apply mkQ_eq; lia. Qed.

Lemma floor_correct r : wf r →
  ∃ x z, floor r = Ok x ∧ wf x ∧ val x = of_Z z ∧ is_floor z (val r).
Proof.
  intros Hr. unfold floor. destruct (isInteger r) eqn:Ei.
  { destruct (FastRational_copy_same r Hr) as [Hw Hv].
    pose proof (isInteger_value r Hr Ei) as E. rewrite E in Hv.
    eexists _, _. split; [done|]. split; [done|]. split; [done|]. rewrite E. apply is_floor_int. }
  destruct (ceil_correct r Hr) as (c & z & -> & Hw & Hv & Hc). simpl.
  destruct (FastRational_word_wf 1) as [H1 V1]; [unfold_widths; lia|].
  destruct (minus_correct c (FastRational_word 1) Hw H1) as (d & -> & Hd & Vd).
  exists d, (z - 1). split; [done|]. split; [done|]. split.
  - rewrite Vd, Hv, V1. apply of_Z_sub.
  - apply is_ceil_floor; [done|]. rewrite <- isInteger_correct by done. congruence.
Qed.

(** ** Integer division, gcd, lcm *)

Lemma int_parts r : wf r → isInteger r = true → snd (parts r) = 1 ∧ val r = of_Z (fst (parts r)).
Proof.
  intros Hr Hi. split; [|by apply isInteger_value].
  rewrite isInteger_parts in Hi by done. by apply Z.eqb_eq.
Qed.

Lemma int_word r : wf r → wordPartValid r = true → fst (parts r) = num r ∧ in_word (num r).
Proof.
  intros Hr E. unfold parts. rewrite E. destruct (wf_word r Hr E) as (H & _). done.
Qed.

Lemma quot_floor n d : d ≠ 0 →
  (if negb (Z.rem n d =? 0)
      && (((n <? 0) && (0 <=? d)) || ((d <? 0) && (0 <=? n)))
   then Z.quot n d - 1 else Z.quot n d) = n / d.
Proof.
  intros Hd. pose proof (Z.quot_rem' n d) as Hq. pose proof (Z.rem_bound_abs n d Hd) as Hb.
  assert (0 ≤ Z.rem n d * n) as Hs by (apply Z.rem_sign_mul; done).
  assert ((0 < n → 0 ≤ Z.rem n d) ∧ (n < 0 → Z.rem n d ≤ 0)) as [Hp Hm] by (split; intros; nia).
  assert (n = 0 → Z.rem n d = 0) as Hz by (intros ->; by apply Z.rem_0_l).
  destruct (Z.eqb_spec (Z.rem n d) 0) as [E|E]; cbn [negb andb].
  - apply (Z.div_unique _ _ _ 0); lia.
  - destruct (Z.ltb_spec n 0), (Z.leb_spec 0 d), (Z.ltb_spec d 0), (Z.leb_spec 0 n);
      cbn [andb orb]; try lia;
      first [apply (Z.div_unique _ _ _ (Z.rem n d)); lia
            |apply (Z.div_unique _ _ _ (Z.rem n d + d)); lia].
Qed.

Lemma quot_word n d : in_word n → n ≠ WORD_MIN → d ≠ 0 → in_word (n / d).
Proof.
  intros Hn Hm Hd. unfold_widths.
  pose proof (Z.div_mod n d Hd) as E.
  destruct (Z.lt_ge_cases d 0).
  - pose proof (Z.mod_neg_bound n d ltac:(lia)). nia.
  - pose proof (Z.mod_pos_bound n d ltac:(lia)). nia.
Qed.

Lemma cdiv_word_ok a b : b ≠ 0 → (a = WORD_MIN → b ≠ -1) → cdiv_word a b = Ok (Z.quot a b).
Proof.
  intros Hb Hu. unfold cdiv_word.
  rewrite (proj2 (Z.eqb_neq b 0)) by done.
  destruct (Z.eqb_spec a WORD_MIN); [|done].
  rewrite (proj2 (Z.eqb_neq b (-1))) by auto. done.
Qed.

Lemma fastrat_fdiv_q_correct n d : wf n → wf d → isInteger n = true → isInteger d = true →
  fst (parts d) ≠ 0 →
  ∃ x, fastrat_fdiv_q n d = Ok x ∧ wf x ∧ val x = of_Z (fst (parts n) / fst (parts d)).
Proof.
  intros Hn Hd In Id H0. unfold fastrat_fdiv_q. rewrite In, Id. cbn [andb check rbind].
  destruct (ensure_parts n Hn) as [En _]. destruct (ensure_parts d Hd) as [Ed _].
  rewrite En, Ed, (proj2 (Z.eqb_neq (fst (parts d)) 0)) by done.
  assert (∃ x, Ok (FastRational_mpz (mpz_fdiv_q (fst (parts n)) (fst (parts d)))) = Ok x
    ∧ wf x ∧ val x = of_Z (fst (parts n) / fst (parts d))) as Ho.
  { rewrite mpz_fdiv_q_spec by done. eexists. split; [done|]. apply FastRational_mpz_wf. }
  destruct (wordPartValid n && wordPartValid d) eqn:E; [|exact Ho].
  apply andb_true_iff in E as [Wn Wd].
  destruct (int_word n Hn Wn) as [Pn Rn]. destruct (int_word d Hd Wd) as [Pd Rd].
  rewrite Pn, Pd in *. destruct (Z.eqb_spec (num n) WORD_MIN) as [|Hm]; [exact Ho|].
  rewrite cdiv_word_ok, crem_ok by (done || congruence). cbn [rbind].
  rewrite quot_floor by done. eexists. split; [done|]. apply FastRational_word_wf.
  by apply quot_word.
Qed.

Lemma is_floor_round n d z : 0 < d → z = (2 * n + d) / (2 * d) →
  is_floor z (mkQ n d + mkQ 1 2)%Qc.
Proof.
  intros Hd ->. rewrite mkQ_add by lia.
  replace (n * 2 + 1 * d) with (2 * n + d) by lia. replace (d * 2) with (2 * d) by lia.
  apply is_floor_div. lia.
Qed.

(** Rounding to the nearest integer, upwards in the middle. *)
Lemma fastrat_round_to_int_correct n : wf n →
  ∃ x z, fastrat_round_to_int n = Ok x ∧ wf x ∧ val x = of_Z z ∧ is_floor z (val n + mkQ 1 2)%Qc.
Proof.
  intros Hn. unfold fastrat_round_to_int.
  destruct (FastRational_frac_wf 1 2) as (h & -> & Hh & Vh);
    [unfold_widths; lia | unfold_widths; lia | lia |]. cbn [rbind].
  destruct (plus_correct n h Hn Hh) as (r & -> & Hr & Vr). cbn [rbind].
  destruct (get_num_correct r Hr) as [Hgn Vgn]. destruct (get_den_correct r Hr) as [Hgd Vgd].
  destruct (parts_spec r Hr) as (Hd & Hg & Ev).
  assert (isInteger (get_num r) = true) as In by (apply isInteger_correct; [done | by exists (fst (parts r))]).
  assert (isInteger (get_den r) = true) as Id by (apply isInteger_correct; [done | by exists (snd (parts r))]).
  destruct (int_parts _ Hgn In) as [_ E1]. destruct (int_parts _ Hgd Id) as [_ E2].
  rewrite Vgn in E1. rewrite Vgd in E2. apply of_Z_inj in E1, E2.
  destruct (fastrat_fdiv_q_correct (get_num r) (get_den r)) as (x & -> & Hx & Vx);
    [done | done | done | done | lia |].
  exists x, (fst (parts r) / snd (parts r)). split; [done|]. split; [done|].
  rewrite Vx, <- E1, <- E2. split; [done|]. rewrite <- Vh, <- Vr, Ev. by apply is_floor_div.
Qed.

(** [gcd] and [lcm] of rationals are those of the integers they hold, on
    non-negative operands. *)
Lemma gcd_fr_correct a b : wf a → wf b → isInteger a = true → isInteger b = true →
  0 ≤ fst (parts a) → 0 ≤ fst (parts b) →
  ∃ x, gcd_fr a b = Ok x ∧ wf x ∧ val x = of_Z (Z.gcd (fst (parts a)) (fst (parts b))).
Proof.
  intros Ha Hb Ia Ib Pa Pb. unfold gcd_fr. rewrite Ia, Ib. cbn [andb check rbind].
  destruct (ensure_parts a Ha) as [-> _]. destruct (ensure_parts b Hb) as [-> _].
  destruct (wordPartValid a && wordPartValid b) eqn:E.
  - apply andb_true_iff in E as [Wa Wb].
    destruct (int_word a Ha Wa) as [Ea Ra]. destruct (int_word b Hb Wb) as [Eb Rb].
    rewrite Ea, Eb in *. rewrite gcd_ok by done. cbn [rbind].
    eexists. split; [done|]. apply FastRational_word_wf. unfold_widths.
    pose proof (Z.gcd_nonneg (num a) (num b)).
    destruct (Z.eq_dec (num a) 0) as [-> | H0]; [rewrite Z.gcd_0_l, Z.abs_eq; lia|].
    pose proof (Z.divide_pos_le _ (num a) ltac:(lia) (Z.gcd_divide_l (num a) (num b))). lia.
  - rewrite mpz_gcd_spec. eexists. split; [done|]. apply FastRational_mpz_wf.
Qed.

Lemma lcm_as_quot a b : 0 < a → 0 < b → Z.lcm a b = Z.quot b (Z.gcd a b) * a.
Proof.
  intros Ha Hb. unfold Z.lcm.
  destruct (reduce_spec a b) as (Hg & _); [lia|]. destruct (Z.gcd_divide_r a b) as [k Hk].
  assert (Z.quot b (Z.gcd a b) = b / Z.gcd a b) as -> by (apply Z.quot_div_nonneg; lia).
  assert (0 ≤ b / Z.gcd a b) by (apply Z.div_pos; lia).
  rewrite Z.abs_eq by nia. ring.
Qed.

Lemma lcm_word_correct a b : in_word a → in_word b → 0 ≤ a → 0 ≤ b →
  ∃ x, lcm_word a b = Ok x ∧ wf x ∧ val x = of_Z (Z.lcm a b).
Proof.
  intros Ha Hb Pa Pb. unfold lcm_word.
  destruct (Z.eqb_spec a 0) as [->|A0]; [eexists; split; [done|]; by apply FastRational_word_wf|].
  destruct (Z.eqb_spec b 0) as [->|B0].
  { rewrite Z.lcm_0_r. eexists; split; [done|]; by apply FastRational_word_wf. }
  rewrite gcd_ok by done. cbn [rbind].
  destruct (reduce_spec a b) as (Hg & _); [lia|].
  assert (∀ u v, in_word u → in_word v → 0 < u → 0 < v → Z.gcd u v = Z.gcd a b → Z.lcm u v = Z.lcm a b →
    ∃ x, (let! q := cdiv_word v (Z.gcd a b) in times (FastRational_word q) (FastRational_word u)) = Ok x
    ∧ wf x ∧ val x = of_Z (Z.lcm a b)) as Hgen.
  { intros u v Hu Hv Pu Pv Eg El. rewrite cdiv_word_ok by lia. cbn [rbind].
    assert (in_word (Z.quot v (Z.gcd a b))) as Hq.
    { rewrite Z.quot_div_nonneg by lia. unfold_widths.
      pose proof (Z.div_le_upper_bound v (Z.gcd a b) v ltac:(lia) ltac:(nia)).
      pose proof (Z.div_pos v (Z.gcd a b)). lia. }
    destruct (FastRational_word_wf _ Hq) as [W1 V1]. destruct (FastRational_word_wf u Hu) as [W2 V2].
    destruct (times_correct _ _ W1 W2) as (x & -> & Hx & Vx). exists x. split; [done|]. split; [done|].
    rewrite Vx, V1, V2, mkQ_mul, <- El, lcm_as_quot, Eg by lia. done. }
  destruct (Z.ltb_spec a b).
  - apply Hgen; lia || done.
  - apply (Hgen b a); try done; try lia; [apply Z.gcd_comm | apply Z.lcm_comm].
Qed.

Lemma lcm_fr_correct a b : wf a → wf b → isInteger a = true → isInteger b = true →
  0 ≤ fst (parts a) → 0 ≤ fst (parts b) →
  ∃ x, lcm_fr a b = Ok x ∧ wf x ∧ val x = of_Z (Z.lcm (fst (parts a)) (fst (parts b))).
Proof.
  intros Ha Hb Ia Ib Pa Pb. unfold lcm_fr. rewrite Ia, Ib. cbn [andb check rbind].
  destruct (ensure_parts a Ha) as [-> _]. destruct (ensure_parts b Hb) as [-> _].
  destruct (wordPartValid a && wordPartValid b) eqn:E.
  - apply andb_true_iff in E as [Wa Wb].
    destruct (int_word a Ha Wa) as [Ea Ra]. destruct (int_word b Hb Wb) as [Eb Rb].
    rewrite Ea, Eb in *. by apply lcm_word_correct.
  - rewrite mpz_lcm_spec. eexists. split; [done|]. apply FastRational_mpz_wf.
Qed.

End with_gmp.
