(* ===== verification/FastRationalProps.v ===== *)
(** * What the rationals promise

    The theorems about FastRational.h and FastRational.cc that clients rely
    on: each operation computes the exact rational, keeps the representation
    well formed and leaves its operands denoting the same numbers, whether the
    result fits the machine words or not.  The last two theorems are inputs on
    which the code does not do this. *)
From S2P Require Import Prelude Gmp FastRational FastRationalFacts FastRationalInt.
From Stdlib Require Import Lia.

(** The witnesses' operands: the largest and the smallest word, and a half. *)
Definition big : FastRational := FastRational_word WORD_MAX.
Definition small : FastRational := FastRational_word WORD_MIN.
Definition half : FastRational := word_rational 1 2.

Lemma big_wf : wf big ∧ val big = mkQ WORD_MAX 1.
Proof. apply FastRational_word_wf. unfold_widths; lia. Defined.
Lemma small_wf : wf small ∧ val small = mkQ WORD_MIN 1.
Proof. apply FastRational_word_wf. unfold_widths; lia. Defined.
Lemma half_wf : wf half ∧ val half = mkQ 1 2.
Proof. apply word_rational_wf. repeat split; unfold_widths; lia. Defined.
Lemma default_state : valid_state (state FastRational_default).
Proof. by left. Defined.

(** ** Division by zero *)
Section zero.
Context {gmp : GMP}.








End zero.

Section with_gmp.
Context {gmp : GMP}.

(** C35: [addition] and [substraction] compute the exact sum and difference of
    any two well-formed rationals, through the 64-bit arithmetic with its
    overflow checks or through GMP; the result is well formed (reduced, in
    words exactly when it fits them) and the operands keep their values. *)
Theorem addition_substraction_exact dst a b :
  valid_state (state dst) → wf a → wf b →
  (∃ d a' b', addition dst a b = Ok (d, a', b') ∧ wf d ∧ val d = (val a + val b)%Qc
     ∧ same a a' ∧ same b b')
  ∧ (∃ d a' b', substraction dst a b = Ok (d, a', b') ∧ wf d ∧ val d = (val a - val b)%Qc
     ∧ same a a' ∧ same b b').
Proof.
  intros Hd Ha Hb. split; [by apply addition_correct | by apply substraction_correct].
Qed.

(** C36: [multiplication] and, for a non-zero divisor, [division] compute the
    exact product and quotient of any two well-formed rationals, well formed
    again, with the operands' values kept. *)
Theorem multiplication_division_exact dst a b :
  valid_state (state dst) → wf a → wf b → val b ≠ 0%Qc →
  (∃ d a' b', multiplication dst a b = Ok (d, a', b') ∧ wf d ∧ val d = (val a * val b)%Qc
     ∧ same a a' ∧ same b b')
  ∧ (∃ d a' b', division dst a b = Ok (d, a', b') ∧ wf d ∧ val d = (val a / val b)%Qc
     ∧ same a a' ∧ same b b').
Proof.
  intros Hd Ha Hb H0. split; [by apply multiplication_correct | by apply division_correct].
Qed.

(** The compound assignments [+=], [-=], [*=] and, for a non-zero
    divisor, [/=] leave the exact result in their first operand. *)
Theorem compound_assignments_exact a b : wf a → wf b → val b ≠ 0%Qc →
  (∃ d b', additionAssign a b = Ok (d, b') ∧ wf d ∧ val d = (val a + val b)%Qc ∧ same b b')
  ∧ (∃ d b', substractionAssign a b = Ok (d, b') ∧ wf d ∧ val d = (val a - val b)%Qc ∧ same b b')
  ∧ (∃ d b', multiplicationAssign a b = Ok (d, b') ∧ wf d ∧ val d = (val a * val b)%Qc ∧ same b b')
  ∧ (∃ d b', divisionAssign a b = Ok (d, b') ∧ wf d ∧ val d = (val a / val b)%Qc ∧ same b b').
Proof.
  intros Ha Hb H0. split; [by apply additionAssign_correct|].
  split; [by apply substractionAssign_correct|].
  split; [by apply multiplicationAssign_correct | by apply divisionAssign_correct].
Qed.

(** C37: on well-formed rationals the comparisons, the equality test and the
    sign are those of the rational numbers, and the representation is unique:
    equal values have equal words, or equal multi-precision parts, and the
    same hash of their words. *)
Theorem comparison_decides_order a b : wf a → wf b →
  (lt a b = true ↔ (val a < val b)%Qc)
  ∧ (le a b = true ↔ (val a <= val b)%Qc)
  ∧ (eqb a b = true ↔ val a = val b)
  ∧ (isZero a = true ↔ val a = 0%Qc)
  ∧ sign a = (match (val a ?= 0)%Qc with Eq => 0 | Lt => -1 | Gt => 1 end)
  ∧ (val a = val b →
       wordPartValid a = wordPartValid b
       ∧ (wordPartValid a = true → num a = num b ∧ den a = den b
            ∧ getHashValue_word a = getHashValue_word b)
       ∧ (wordPartValid a = false → mpq a = mpq b)).
Proof.
  intros Ha Hb. split; [by apply lt_correct|]. split; [by apply le_correct|].
  split; [by apply eqb_correct|]. split; [by apply isZero_correct|].
  split; [by apply sign_correct|]. intros Hv.
  destruct (val_inj a b Ha Hb Hv) as (E1 & E2 & E3). split; [done|]. split; [|done].
  intros E. destruct (E2 E) as [En Ed]. split; [done|]. split; [done|].
  unfold getHashValue_word. by rewrite En, Ed.
Qed.

(** [operator-], [negate] and, on a non-zero rational, [inverse] are exact,
    the smallest word [-2^31] included (its negation leaves the words). *)
Theorem negation_inverse_exact r : wf r →
  (∃ x r', opp r = Ok (x, r') ∧ wf x ∧ val x = (- val r)%Qc ∧ same r r')
  ∧ (wf (negate r) ∧ val (negate r) = (- val r)%Qc)
  ∧ (val r ≠ 0%Qc →
       ∃ x r', inverse r = Ok (x, r') ∧ wf x ∧ val x = (/ val r)%Qc ∧ same r r').
Proof.
  intros Hr. split; [by apply opp_correct|]. split; [by apply negate_correct|].
  by apply inverse_correct.
Qed.

(** [ceil], [floor] and [fastrat_round_to_int] return the least integer
    above, the greatest integer below and the integer nearest to the rational
    (upwards in the middle). *)
Theorem rounding_exact r : wf r →
  (∃ x z, ceil r = Ok x ∧ wf x ∧ val x = of_Z z
     ∧ (of_Z (z - 1) < val r)%Qc ∧ (val r <= of_Z z)%Qc)
  ∧ (∃ x z, floor r = Ok x ∧ wf x ∧ val x = of_Z z
     ∧ (of_Z z <= val r)%Qc ∧ (val r < of_Z (z + 1))%Qc)
  ∧ (∃ x z, fastrat_round_to_int r = Ok x ∧ wf x ∧ val x = of_Z z
     ∧ (of_Z z <= val r + mkQ 1 2)%Qc ∧ (val r + mkQ 1 2 < of_Z (z + 1))%Qc).
Proof.
  intros Hr. split; [by apply ceil_correct|]. split; [by apply floor_correct|].
  by apply fastrat_round_to_int_correct.
Qed.

(** On rationals that hold the integers [x] and [y], [fastrat_fdiv_q] is
    the floored division for [y ≠ 0], and [gcd] and [lcm] are the greatest
    common divisor and the least common multiple for [x, y ≥ 0]. *)
Theorem integer_operations_exact a b x y : wf a → wf b →
  val a = of_Z x → val b = of_Z y →
  (y ≠ 0 → ∃ r, fastrat_fdiv_q a b = Ok r ∧ wf r ∧ val r = of_Z (x / y))
  ∧ (0 ≤ x → 0 ≤ y →
      (∃ r, gcd_fr a b = Ok r ∧ wf r ∧ val r = of_Z (Z.gcd x y))
      ∧ (∃ r, lcm_fr a b = Ok r ∧ wf r ∧ val r = of_Z (Z.lcm x y))).
Proof.
  intros Ha Hb Va Vb.
  assert (isInteger a = true) as Ia by (apply isInteger_correct; [done | by exists x]).
  assert (isInteger b = true) as Ib by (apply isInteger_correct; [done | by exists y]).
  destruct (int_parts a Ha Ia) as [_ Ea]. rewrite Va in Ea. apply of_Z_inj in Ea as ->.
  destruct (int_parts b Hb Ib) as [_ Eb]. rewrite Vb in Eb. apply of_Z_inj in Eb as ->.
  split; [by apply fastrat_fdiv_q_correct|]. intros Px Py.
  split; [by apply gcd_fr_correct | by apply lcm_fr_correct].
Qed.

End with_gmp.

(** the constructor [FastRational(word n, uword d)] builds the reduced
    fraction [n/d] of a non-negative [n], or of a negative [n] that is already
    in lowest terms; the guard is needed, since a negative [n] with a common
    factor is divided as an unsigned number: [FastRational(-2, 4)] is
    [2147483647/2]. *)
Theorem fraction_constructor : (∀ n d, in_word n → 1 ≤ d ≤ UWORD_MAX → 0 ≤ n ∨ Z.gcd n d = 1 →
    ∃ r, FastRational_frac n d = Ok r ∧ wf r ∧ val r = mkQ n d)
  ∧ (∃ r, FastRational_frac (-2) 4 = Ok r ∧ wf r ∧ val r = mkQ 2147483647 2
       ∧ val r ≠ mkQ (-2) 4).
Proof.
  split; [apply FastRational_frac_wf|].
  exists (word_rational 2147483647 2). split; [by vm_compute|].
  destruct (word_rational_wf 2147483647 2) as [Hw Hv];
    [repeat split; try (unfold_widths; lia); by vm_compute|].
  split; [done|]. split; [done|]. rewrite Hv. intros H%mkQ_eq; lia.
Qed.

(** [operator%] does not depend on the integers alone: on words it is the
    absolute value of the truncated remainder with the divisor's sign, off
    words the remainder of the floored division. [-7 % 3] is [1] while
    [-7000000000 % 3] is [2], the value of [x - floor(x/3)*3] for both. *)
Theorem modulo_branches_disagree :
  (∃ r, modulo (gmp := gmp_ref) (FastRational_word (-7)) (FastRational_word 3) = Ok r
     ∧ val r = of_Z 1)
  ∧ (∃ r, modulo (gmp := gmp_ref) (FastRational_mpz (-7000000000)) (FastRational_word 3) = Ok r
     ∧ val r = of_Z ((-7000000000) mod 3))
  ∧ (-7) mod 3 = 2 ∧ (-7000000000) mod 3 = 2.
Proof.
  split; [eexists; split; [by vm_compute|]; apply Qc_is_canon; by vm_compute|].
  split; [eexists; split; [by vm_compute|]; apply Qc_is_canon; by vm_compute|].
  done.
Qed.


(** *** Witnesses *)

Lemma addition_substraction_exact_witness :
  valid_state (state FastRational_default) ∧ wf big ∧ wf half ∧
  ∃ d a' b', addition (gmp := gmp_ref) FastRational_default big half = Ok (d, a', b')
    ∧ val d = (val big + val half)%Qc.
Proof.
  destruct big_wf as [Hb _]. destruct half_wf as [Hh _]. pose proof default_state as Hs.
  split; [done|]. split; [done|]. split; [done|].
  destruct (addition_substraction_exact (gmp := gmp_ref) _ _ _ Hs Hb Hh)
    as ((d & a & b & E & _ & V & _) & _).
  eauto.
Defined.

Lemma multiplication_division_exact_witness :
  wf big ∧ wf half ∧ val half ≠ 0%Qc ∧
  ∃ d a' b', division (gmp := gmp_ref) FastRational_default big half = Ok (d, a', b')
    ∧ val d = (val big / val half)%Qc.
Proof.
  destruct big_wf as [Hb _]. destruct half_wf as [Hh Vh].
  assert (val half ≠ 0%Qc) as H0 by (rewrite Vh; discriminate).
  split; [done|]. split; [done|]. split; [done|].
  destruct (multiplication_division_exact (gmp := gmp_ref) _ _ _ default_state Hb Hh H0)
    as (_ & d & a & b & E & _ & V & _).
  eauto.
Defined.

Lemma compound_assignments_exact_witness :
  wf big ∧ wf half ∧ val half ≠ 0%Qc ∧
  ∃ d b', multiplicationAssign (gmp := gmp_ref) big half = Ok (d, b')
    ∧ val d = (val big * val half)%Qc.
Proof.
  destruct big_wf as [Hb _]. destruct half_wf as [Hh Vh].
  assert (val half ≠ 0%Qc) as H0 by (rewrite Vh; discriminate).
  split; [done|]. split; [done|]. split; [done|].
  destruct (compound_assignments_exact (gmp := gmp_ref) _ _ Hb Hh H0)
    as (_ & _ & (d & b & E & _ & V & _) & _).
  eauto.
Defined.

Lemma comparison_decides_order_witness :
  wf half ∧ wf big ∧ lt (gmp := gmp_ref) half big = true ∧ (val half < val big)%Qc.
Proof.
  destruct big_wf as [Hb _]. destruct half_wf as [Hh _].
  split; [done|]. split; [done|]. split; [by vm_compute|].
  by apply (comparison_decides_order (gmp := gmp_ref) half big Hh Hb).
Defined.

Lemma negation_inverse_exact_witness :
  wf small ∧ ∃ x r', opp (gmp := gmp_ref) small = Ok (x, r') ∧ val x = (- val small)%Qc.
Proof.
  destruct small_wf as [Hs _]. split; [done|].
  destruct (negation_inverse_exact (gmp := gmp_ref) small Hs) as ((x & r & E & _ & V & _) & _).
  eauto.
Defined.

Lemma rounding_exact_witness :
  wf half ∧ ∃ x z, ceil (gmp := gmp_ref) half = Ok x ∧ val x = of_Z z
    ∧ (of_Z (z - 1) < val half)%Qc ∧ (val half <= of_Z z)%Qc.
Proof.
  destruct half_wf as [Hh _]. split; [done|].
  destruct (rounding_exact (gmp := gmp_ref) half Hh) as ((x & z & E & _ & V & L & U) & _).
  eauto 10.
Defined.

Lemma integer_operations_exact_witness :
  wf small ∧ wf big ∧ val small = of_Z WORD_MIN ∧ val big = of_Z WORD_MAX
  ∧ ∃ r, fastrat_fdiv_q (gmp := gmp_ref) small big = Ok r ∧ val r = of_Z (-2).
Proof.
  destruct big_wf as [Hb Vb]. destruct small_wf as [Hs Vs].
  split; [done|]. split; [done|]. split; [done|]. split; [done|].
  destruct (integer_operations_exact (gmp := gmp_ref) small big _ _ Hs Hb Vs Vb) as [Hf _].
  destruct (Hf ltac:(discriminate)) as (r & E & _ & V). exists r. split; [done|].
  rewrite V. reflexivity.
Defined.

