(* ===== verification/Number.v ===== *)
(** * The interface between the rationals and their clients

    [opensmt::Real] and [opensmt::Number] are names of [FastRational] in this
    configuration of the code (Real.h, Number.h).  The arithmetic solvers use
    them only through the operators below.  [Number] states those operators
    with the promises the clients rely on; [FastRational] discharges them on
    its well-formed objects, and the standard library's rationals do too, for
    the components that are modelled on the values themselves. *)
From S2P Require Import Prelude Gmp FastRational FastRationalFacts FastRationalInt.
From Stdlib Require Import Lia.

Class Number (N : Type) : Type := {
  nval : N → Qc;
  n_of_Z : Z → N;
  n_add : N → N → N;
  n_sub : N → N → N;
  n_mul : N → N → N;
  n_div : N → N → res N;
  n_neg : N → N;
  n_lt : N → N → bool;
  n_eq : N → N → bool;
  n_isZero : N → bool;
  n_isOne : N → bool;
  n_isPositive : N → bool;
  n_isNegative : N → bool;
  n_inverse : N → res N;
  n_floor : N → N;
  n_ceil : N → N;
  n_isInteger : N → bool;

  n_of_Z_val z : in_word z → nval (n_of_Z z) = of_Z z;
  n_add_val a b : nval (n_add a b) = (nval a + nval b)%Qc;
  n_sub_val a b : nval (n_sub a b) = (nval a - nval b)%Qc;
  n_mul_val a b : nval (n_mul a b) = (nval a * nval b)%Qc;
  n_div_val a b : nval b ≠ 0%Qc → ∃ c, n_div a b = Ok c ∧ nval c = (nval a / nval b)%Qc;
  n_neg_val a : nval (n_neg a) = (- nval a)%Qc;
  n_lt_val a b : n_lt a b = true ↔ (nval a < nval b)%Qc;
  n_eq_val a b : n_eq a b = true ↔ nval a = nval b;
  n_isZero_val a : n_isZero a = true ↔ nval a = 0%Qc;
  n_isOne_val a : n_isOne a = true → nval a = 1%Qc;
  n_isPositive_val a : n_isPositive a = true ↔ (0 < nval a)%Qc;
  n_isNegative_val a : n_isNegative a = true ↔ (nval a < 0)%Qc;
  n_inverse_val a : nval a ≠ 0%Qc → ∃ c, n_inverse a = Ok c ∧ nval c = (/ nval a)%Qc;
  n_floor_val a : ∃ z, nval (n_floor a) = of_Z z ∧ is_floor z (nval a);
  n_ceil_val a : ∃ z, nval (n_ceil a) = of_Z z ∧ is_ceil z (nval a);
  n_isInteger_val a : n_isInteger a = true ↔ is_int (nval a);
}.

Definition n_gt {N} `{Number N} (a b : N) : bool := n_lt b a.

Lemma of_Z_0 : of_Z 0 = 0%Qc.
Proof. by apply Qc_is_canon. Qed.
Lemma of_Z_1 : of_Z 1 = 1%Qc.
Proof. by apply Qc_is_canon. Qed.
Lemma of_Z_add x y : of_Z (x + y) = (of_Z x + of_Z y)%Qc.
Proof. unfold of_Z. rewrite mkQ_add by lia. apply mkQ_eq; lia. Qed.
Lemma of_Z_opp x : of_Z (- x) = (- of_Z x)%Qc.
Proof. unfold of_Z. rewrite mkQ_opp by lia. done. Qed.
Lemma of_Z_le x y : (of_Z x <= of_Z y)%Qc ↔ x ≤ y.
Proof. unfold of_Z. rewrite mkQ_le by lia. lia. Qed.
Lemma of_Z_lt x y : (of_Z x < of_Z y)%Qc ↔ x < y.
Proof. unfold of_Z. rewrite mkQ_lt by lia. lia. Qed.

Section laws.
Context {N : Type} `{Number N}.

Lemma n_gt_val a b : n_gt a b = true ↔ (nval b < nval a)%Qc.
Proof. apply n_lt_val. Qed.
Lemma n_lt_false a b : n_lt a b = false ↔ (nval b <= nval a)%Qc.
Proof.
  rewrite <- not_true_iff_false, n_lt_val. split; [apply Qcnot_lt_le | apply Qcle_not_lt].
Qed.
Lemma n_zero_val : nval (n_of_Z 0) = 0%Qc.
Proof. rewrite n_of_Z_val by (unfold_widths; lia). apply of_Z_0. Qed.
Lemma n_one_val : nval (n_of_Z 1) = 1%Qc.
Proof. rewrite n_of_Z_val by (unfold_widths; lia). apply of_Z_1. Qed.

End laws.

Create Rewrite HintDb nvals.
#[export] Hint Rewrite @n_add_val @n_sub_val @n_mul_val @n_neg_val @n_zero_val @n_one_val : nvals.

(** ** [FastRational] is a [Number] *)

(** The objects the class builds: the invariant travels with the data. *)
Definition fr : Type := { r : FastRational | wf r }.

(** The value of an operation that is known to return a well-formed object. *)
Definition res_val (m : res FastRational) (H : ∃ d, m = Ok d ∧ wf d) : fr :=
  match m as m return (∃ d, m = Ok d ∧ wf d) → fr with
  | Ok d => λ H, exist wf d (let '(ex_intro _ x (conj e w)) := H in
                             eq_ind_r wf w (f_equal (λ m, match m with Ok y => y | Err _ => d end) e))
  | Err _ => λ H, False_rect _ (let '(ex_intro _ x (conj e w)) := H in
                                eq_ind (Err _) (λ m, match m with Ok _ => False | Err _ => True end) I _ e)
  end H.

Lemma res_val_val m H f : (∃ d, m = Ok d ∧ wf d ∧ val d = f) → val (proj1_sig (res_val m H)) = f.
Proof. intros (d & -> & _ & <-). done. Qed.

Section fr.
Context {gmp : GMP}.

Definition fr_of_Z (z : Z) : fr :=
  match decide (in_word z) with
  | left h => exist wf (FastRational_word z) (proj1 (FastRational_word_wf z h))
  | right _ => exist wf (FastRational_mpz z) (proj1 (FastRational_mpz_wf z))
  end.

Lemma drop_val {A} (P Q : A → Prop) (m : res A) :
  (∃ d, m = Ok d ∧ P d ∧ Q d) → ∃ d, m = Ok d ∧ P d.
Proof. intros (d & ? & ? & _). eauto. Qed.

Definition fr_add (a b : fr) : fr :=
  res_val (plus (`a) (`b)) (drop_val _ _ _ (plus_correct _ _ (proj2_sig a) (proj2_sig b))).
Definition fr_sub (a b : fr) : fr :=
  res_val (minus (`a) (`b)) (drop_val _ _ _ (minus_correct _ _ (proj2_sig a) (proj2_sig b))).
Definition fr_mul (a b : fr) : fr :=
  res_val (times (`a) (`b)) (drop_val _ _ _ (times_correct _ _ (proj2_sig a) (proj2_sig b))).

Lemma inverse_value r : wf r → val r ≠ 0%Qc →
  ∃ d, (let! p := inverse r in Ok p.1) = Ok d ∧ wf d ∧ val d = (/ val r)%Qc.
Proof. intros Hr H0. destruct (inverse_correct r Hr H0) as (x & r' & -> & ? & ? & _). simpl. eauto. Qed.

Lemma sign_val r : wf r →
  (isPositive r = true ↔ (0 < val r)%Qc) ∧ (isNegative r = true ↔ (val r < 0)%Qc).
Proof.
  intros Hr. unfold isPositive, isNegative. rewrite (sign_correct r Hr).
  unfold Qclt, Qlt, Qccompare, Qcompare. simpl. rewrite Z.mul_1_r.
  destruct (Qnum (this (val r))); simpl; split; split; intros; try done; lia.
Qed.

#[local] Instance val_zero_dec (b : fr) : Decision (val (`b) = 0%Qc) := Qc_eq_dec _ _.

Definition fr_div (a b : fr) : res fr :=
  match decide (val (`b) = 0%Qc) with
  | left _ => Err Division_by_zero
  | right h =>
      Ok (res_val (divide (`a) (`b))
            (drop_val _ _ _ (divide_correct _ _ (proj2_sig a) (proj2_sig b) h)))
  end.

Definition fr_inverse (a : fr) : res fr :=
  match decide (val (`a) = 0%Qc) with
  | left _ => Err Division_by_zero
  | right h =>
      Ok (res_val (let! p := inverse (`a) in Ok p.1)
            (drop_val _ _ _ (inverse_value _ (proj2_sig a) h)))
  end.

Lemma drop_int (Q : FastRational → Z → Prop) (m : res FastRational) :
  (∃ d z, m = Ok d ∧ wf d ∧ Q d z) → ∃ d, m = Ok d ∧ wf d.
Proof. intros (d & z & ? & ? & _). eauto. Qed.

Definition fr_floor (a : fr) : fr := res_val (floor (`a)) (drop_int _ _ (floor_correct _ (proj2_sig a))).
Definition fr_ceil (a : fr) : fr := res_val (ceil (`a)) (drop_int _ _ (ceil_correct _ (proj2_sig a))).

Definition fr_neg (a : fr) : fr :=
  exist wf (negate (`a)) (proj1 (negate_correct _ (proj2_sig a))).

#[refine, export] Instance fr_Number : Number fr := {
  nval a := val (`a);
  n_of_Z := fr_of_Z;
  n_add := fr_add;
  n_sub := fr_sub;
  n_mul := fr_mul;
  n_div := fr_div;
  n_neg := fr_neg;
  n_lt a b := lt (`a) (`b);
  n_eq a b := eqb (`a) (`b);
  n_isZero a := isZero (`a);
  n_isOne a := isOne (`a);
  n_isPositive a := isPositive (`a);
  n_isNegative a := isNegative (`a);
  n_inverse := fr_inverse;
  n_floor := fr_floor;
  n_ceil := fr_ceil;
  n_isInteger a := isInteger (`a);
}.
Proof.
  - intros z Hz. unfold fr_of_Z. destruct (decide _) as [h|]; [|done].
    by apply FastRational_word_wf.
  - intros [a Ha] [b Hb]. apply res_val_val. by apply plus_correct.
  - intros [a Ha] [b Hb]. apply res_val_val. by apply minus_correct.
  - intros [a Ha] [b Hb]. apply res_val_val. by apply times_correct.
  - intros [a Ha] [b Hb] H0. unfold fr_div. destruct (decide _) as [|h]; [done|].
    eexists. split; [done|]. apply res_val_val. by apply divide_correct.
  - intros [a Ha]. by apply negate_correct.
  - intros [a Ha] [b Hb]. by apply lt_correct.
  - intros [a Ha] [b Hb]. by apply eqb_correct.
  - intros [a Ha]. by apply isZero_correct.
  - intros [a Ha]. by apply isOne_val.
  - intros [a Ha]. by apply sign_val.
  - intros [a Ha]. by apply sign_val.
  - intros [a Ha] H0. unfold fr_inverse. destruct (decide _) as [|h]; [done|].
    eexists. split; [done|]. apply res_val_val. by apply inverse_value.
  - intros [a Ha]. destruct (floor_correct a Ha) as (x & z & E & Hw & Hv & Hf). exists z. split; [|done].
    apply res_val_val. eauto.
  - intros [a Ha]. destruct (ceil_correct a Ha) as (x & z & E & Hw & Hv & Hf). exists z. split; [|done].
    apply res_val_val. eauto.
  - intros [a Ha]. by apply isInteger_correct.
Defined.

End fr.

(** ** The rationals themselves *)

Definition Qc_ltb (a b : Qc) : bool :=
  match (a ?= b)%Qc with Lt => true | _ => false end.
Definition Qc_eqb (a b : Qc) : bool :=
  match (a ?= b)%Qc with Eq => true | _ => false end.

Lemma Qc_ltb_lt a b : Qc_ltb a b = true ↔ (a < b)%Qc.
Proof.
  unfold Qc_ltb. destruct (a ?= b)%Qc eqn:E; split; try done;
    intros Hl; unfold Qccompare, Qclt, Qlt in *; apply Z.compare_lt_iff in Hl; unfold Qcompare in E;
    congruence.
Qed.

Lemma Qc_eqb_eq a b : Qc_eqb a b = true ↔ a = b.
Proof.
  rewrite Qc_eq_iff, Qeq_alt. unfold Qc_eqb, Qccompare. destruct (this a ?= this b)%Q; done.
Qed.

Definition Qc_floor (a : Qc) : Z := Qnum (this a) / Zpos (Qden (this a)).
Definition Qc_ceil (a : Qc) : Z := - (- Qnum (this a) / Zpos (Qden (this a))).

Lemma Qc_as_mkQ (a : Qc) : a = mkQ (Qnum (this a)) (Zpos (Qden (this a))).
Proof. apply Qc_is_canon. rewrite mkQ_this. simpl. by destruct (this a). Qed.
Lemma Qc_floor_spec (a : Qc) : is_floor (Qc_floor a) a.
Proof. rewrite (Qc_as_mkQ a) at 2. by apply is_floor_div. Qed.
Lemma Qc_ceil_spec (a : Qc) : is_ceil (Qc_ceil a) a.
Proof. rewrite (Qc_as_mkQ a) at 2. by apply is_ceil_div. Qed.

#[refine, export] Instance Qc_Number : Number Qc := {
  nval a := a;
  n_of_Z := of_Z;
  n_add := Qcplus;
  n_sub := Qcminus;
  n_mul := Qcmult;
  n_div a b := if Qc_eqb b 0 then Err Division_by_zero else Ok (a / b)%Qc;
  n_neg := Qcopp;
  n_lt := Qc_ltb;
  n_eq := Qc_eqb;
  n_isZero a := Qc_eqb a 0;
  n_isOne a := Qc_eqb a 1;
  n_isPositive a := Qc_ltb 0 a;
  n_isNegative a := Qc_ltb a 0;
  n_inverse a := if Qc_eqb a 0 then Err Division_by_zero else Ok (/ a)%Qc;
  n_floor a := of_Z (Qc_floor a);
  n_ceil a := of_Z (Qc_ceil a);
  n_isInteger a := Qc_eqb a (of_Z (Qc_floor a));
}.
Proof.
  - done.
  - done.
  - done.
  - done.
  - intros a b Hb. destruct (Qc_eqb b 0) eqn:E; [by apply Qc_eqb_eq in E | eauto].
  - done.
  - apply Qc_ltb_lt.
  - apply Qc_eqb_eq.
  - intros a. apply Qc_eqb_eq.
  - intros a. apply Qc_eqb_eq.
  - intros a. apply Qc_ltb_lt.
  - intros a. apply Qc_ltb_lt.
  - intros a Ha. destruct (Qc_eqb a 0) eqn:E; [by apply Qc_eqb_eq in E | eauto].
  - intros a. exists (Qc_floor a). split; [done | apply Qc_floor_spec].
  - intros a. exists (Qc_ceil a). split; [done | apply Qc_ceil_spec].
  - intros a. rewrite Qc_eqb_eq. split; [by eexists|]. intros [z Hz]. destruct (Qc_floor_spec a) as [H1 H2].
    revert H1 H2. generalize (Qc_floor a). intros k H1 H2. change (a = of_Z z) in Hz. subst a.
    apply (proj1 (of_Z_le _ _)) in H1. apply (proj1 (of_Z_lt _ _)) in H2. assert (z = k) as -> by lia. done.
Defined.
