(* ===== verification/Lex.v ===== *)
(** * The values of delta-rationals

    A delta-rational [r + d·δ], with δ a positive infinitesimal, is a pair of
    rationals; the pairs form an ordered group under the lexicographic order,
    which the bounds of the simplex solver and the edge costs of the
    difference-logic solver are compared by.  [lex] decides linear goals over
    them. *)
From S2P Require Import Prelude Gmp FastRationalInt Number.
From Stdlib Require Import Lqa Lia.

Record lexq : Type := Lex { lr : Qc; ld : Qc }.

Definition ladd (a b : lexq) : lexq := Lex (lr a + lr b) (ld a + ld b).
Definition lsub (a b : lexq) : lexq := Lex (lr a - lr b) (ld a - ld b).
Definition lopp (a : lexq) : lexq := Lex (- lr a) (- ld a).
Definition lscale (q : Qc) (a : lexq) : lexq := Lex (q * lr a) (q * ld a).
Definition lzero : lexq := Lex 0 0.
Definition llt (a b : lexq) : Prop := (lr a < lr b)%Qc ∨ lr a = lr b ∧ (ld a < ld b)%Qc.
Definition lle (a b : lexq) : Prop := (lr a < lr b)%Qc ∨ lr a = lr b ∧ (ld a <= ld b)%Qc.

Declare Scope lex_scope.
Delimit Scope lex_scope with lex.
Bind Scope lex_scope with lexq.
#[global] Arguments of_Z : simpl never.
Infix "+" := ladd : lex_scope.
Infix "-" := lsub : lex_scope.
Notation "- x" := (lopp x) : lex_scope.
Infix "<" := llt : lex_scope.
Infix "<=" := lle : lex_scope.

Lemma lexq_eq a b : a = b ↔ lr a = lr b ∧ ld a = ld b.
Proof. destruct a, b; simpl. split; [by intros [= -> ->] | by intros [-> ->]]. Qed.

Lemma Qc_trichotomy (x y : Qc) : (x < y)%Qc ∨ x = y ∨ (y < x)%Qc.
Proof.
  destruct (Qclt_le_dec x y) as [|H]; [by left|].
  destruct (Qcle_lt_or_eq _ _ H) as [|E]; [by right; right | right; by left].
Qed.

Lemma lle_not_lt a b : (¬ llt a b) ↔ (b <= a)%lex.
Proof.
  unfold llt, lle. split.
  - intros H. destruct (Qc_trichotomy (lr a) (lr b)) as [|[E|]]; [tauto| |tauto].
    right. split; [done|]. apply Qcnot_lt_le. tauto.
  - intros [H|[H1 H2]] [H'|[H1' H2']]; qc_lra.
Qed.
Lemma llt_not_le a b : (¬ lle a b) ↔ (b < a)%lex.
Proof.
  unfold llt, lle. split.
  - intros H. destruct (Qc_trichotomy (lr a) (lr b)) as [|[E|]]; [tauto| |tauto].
    right. split; [done|]. apply Qcnot_le_lt. tauto.
  - intros [H|[H1 H2]] [H'|[H1' H2']]; qc_lra.
Qed.

(** Split the order on pairs into the order on their components and leave the
    linear arithmetic to [lra]. *)
Ltac lex_hyps :=
  repeat match goal with
  | H : not (llt _ _) |- _ => apply lle_not_lt in H
  | H : not (lle _ _) |- _ => apply llt_not_le in H
  | H : @eq lexq _ _ |- _ => apply lexq_eq in H as [? ?]
  | H : llt _ _ |- _ => unfold llt in H; destruct H as [H|[? H]]
  | H : lle _ _ |- _ => unfold lle in H; destruct H as [H|[? H]]
  end.
Ltac lex_arith :=
  unfold ladd, lsub, lopp, lscale, lzero in *; simpl in *.
Ltac lex_goal :=
  match goal with
  | |- llt ?a ?b => unfold llt; first [left; lex_arith; qc_lra | right; split; lex_arith; qc_lra]
  | |- lle ?a ?b => unfold lle; first [left; lex_arith; qc_lra | right; split; lex_arith; qc_lra]
  | |- @eq lexq _ _ => apply lexq_eq; split; lex_arith; qc_lra
  | |- False => lex_arith; qc_lra
  end.
(** [lex_split a b] compares the main parts first, for goals whose strictness
    depends on them. *)
Ltac lex :=
  match goal with
  | |- not (llt _ _) => apply lle_not_lt
  | |- not (lle _ _) => apply llt_not_le
  | |- _ => idtac
  end;
  lex_hyps; first [lex_goal
    | match goal with
      | |- llt ?a ?b => destruct (Qc_trichotomy (lr a) (lr b)) as [?|[?|?]]; lex_goal
      | |- lle ?a ?b => destruct (Qc_trichotomy (lr a) (lr b)) as [?|[?|?]]; lex_goal
      end
    | exfalso; lex_arith; qc_lra ].

Lemma lle_refl a : (a <= a)%lex.
Proof. lex. Qed.
Lemma lle_trans a b c : (a <= b → b <= c → a <= c)%lex.
Proof. intros. lex. Qed.
Lemma llt_le_trans a b c : (a < b → b <= c → a < c)%lex.
Proof. intros. lex. Qed.
Lemma lle_lt_trans a b c : (a <= b → b < c → a < c)%lex.
Proof. intros. lex. Qed.
Lemma llt_irrefl a : ¬ (a < a)%lex.
Proof. intros H. lex. Qed.
Lemma llt_le a b : (a < b → a <= b)%lex.
Proof. intros. lex. Qed.
Lemma lle_antisym a b : (a <= b → b <= a → a = b)%lex.
Proof. intros. lex. Qed.
Lemma lle_total a b : (a <= b ∨ b < a)%lex.
Proof.
  unfold lle, llt. destruct (Qc_trichotomy (lr a) (lr b)) as [|[E|]]; [tauto | | tauto].
  rewrite E. destruct (Qclt_le_dec (ld b) (ld a)); tauto.
Qed.
Lemma ladd_le a b c d : (a <= b → c <= d → a + c <= b + d)%lex.
Proof. intros. lex. Qed.
Lemma ladd_0_l a : (lzero + a)%lex = a.
Proof. lex. Qed.
Lemma ladd_0_r a : (a + lzero)%lex = a.
Proof. lex. Qed.
Lemma ladd_comm a b : (a + b = b + a)%lex.
Proof. lex. Qed.
Lemma ladd_assoc a b c : (a + (b + c) = (a + b) + c)%lex.
Proof. lex. Qed.

#[export] Instance lle_dec a b : Decision (a <= b)%lex.
Proof. destruct (decide (Qclt (lr a) (lr b))) as [|]; [by left; left|].
  destruct (decide (lr a = lr b)); [destruct (decide (Qcle (ld a) (ld b)))|];
    [left; by right | right; unfold lle; tauto..].
Defined.
#[export] Instance llt_dec a b : Decision (a < b)%lex.
Proof. destruct (decide (Qclt (lr a) (lr b))) as [|]; [by left; left|].
  destruct (decide (lr a = lr b)); [destruct (decide (Qclt (ld a) (ld b)))|];
    [left; by right | right; unfold llt; tauto..].
Defined.
#[export] Instance lexq_eq_dec : EqDecision lexq.
Proof. solve_decision. Defined.

(** ** Reading δ as a positive rational *)

Definition at_delta (e : Qc) (a : lexq) : Qc := (lr a + ld a * e)%Qc.

Lemma at_delta_add e a b : at_delta e (a + b)%lex = (at_delta e a + at_delta e b)%Qc.
Proof. unfold at_delta, ladd; simpl. ring. Qed.
Lemma at_delta_sub e a b : at_delta e (a - b)%lex = (at_delta e a - at_delta e b)%Qc.
Proof. unfold at_delta, lsub; simpl. ring. Qed.
Lemma at_delta_opp e a : at_delta e (- a)%lex = (- at_delta e a)%Qc.
Proof. unfold at_delta, lopp; simpl. ring. Qed.
Lemma at_delta_scale e q a : at_delta e (lscale q a) = (q * at_delta e a)%Qc.
Proof. unfold at_delta, lscale; simpl. ring. Qed.

(** The values of δ up to which [a ≤ b] keeps its truth. *)
Definition delta_ok (e : Qc) (a b : lexq) : Prop :=
  (lr a < lr b → ld b < ld a → e * (ld a - ld b) <= lr b - lr a)%Qc.

Lemma at_delta_le e a b : (0 <= e)%Qc → (a <= b)%lex → delta_ok e a b →
  (at_delta e a <= at_delta e b)%Qc.
Proof.
  unfold at_delta, delta_ok. intros He [H|[H1 H2]] Hd.
  - destruct (Qclt_le_dec (ld b) (ld a)) as [Hl|Hl]; [specialize (Hd H Hl)|]; qc_nra.
  - qc_nra.
Qed.

Lemma at_delta_lt_strict e a b : (0 < e)%Qc → lr a = lr b → (ld a < ld b)%Qc →
  (at_delta e a < at_delta e b)%Qc.
Proof. unfold at_delta. intros He -> Hl. qc_nra. Qed.
