(* ===== verification/Delta.v ===== *)
(** * Delta-rationals

    [class Delta] of tsolvers/lasolver/Delta.h, over any [Number]: a main
    value and a coefficient of the infinitesimal δ that encodes strict bounds.
    The arithmetic solver's bounds and values and the costs of the real
    difference-logic solver are of this class. *)
From S2P Require Import Prelude Gmp FastRational FastRationalFacts FastRationalInt Number Lex.
From Stdlib Require Import Lia.

Section Delta.
Context {N : Type} `{Number N}.

Record Delta : Type := MkDelta { R : N; D : N }.

Definition Delta_default : Delta := MkDelta (n_of_Z 0) (n_of_Z 0).
Definition Delta_Real (v : N) : Delta := MkDelta v (n_of_Z 0).

Definition hasDelta (a : Delta) : bool := negb (n_isZero (D a)).
Definition Delta_negate (a : Delta) : Delta := MkDelta (n_neg (R a)) (n_neg (D a)).
Definition Delta_reset (a : Delta) : Delta := Delta_default.

(** [operator+=], [operator-=], [operator+], [operator-]. *)
Definition Delta_addAssign (a b : Delta) : Delta := MkDelta (n_add (R a) (R b)) (n_add (D a) (D b)).
Definition Delta_subAssign (a b : Delta) : Delta := MkDelta (n_sub (R a) (R b)) (n_sub (D a) (D b)).
Definition Delta_sub (a b : Delta) : Delta := MkDelta (n_sub (R a) (R b)) (n_sub (D a) (D b)).
Definition Delta_add (a b : Delta) : Delta := MkDelta (n_add (R a) (R b)) (n_add (D a) (D b)).

(** [operator*(Real, Delta)], [operator*(Delta, Real)], [operator/(Delta, Real)]. *)
Definition Delta_scale (c : N) (a : Delta) : Delta := MkDelta (n_mul c (R a)) (n_mul c (D a)).
Definition Delta_scale_r (a : Delta) (c : N) : Delta := Delta_scale c a.
Definition Delta_div (a : Delta) (c : N) : res Delta :=
  let! x := n_div (R a) c in
  let! y := n_div (D a) c in
  Ok (MkDelta x y).

Definition Delta_lt (a b : Delta) : bool :=
  n_lt (R a) (R b) || (n_eq (R a) (R b) && n_lt (D a) (D b)).
Definition Delta_le (a b : Delta) : bool := negb (Delta_lt b a).
Definition Delta_gt (a b : Delta) : bool := Delta_lt b a.
Definition Delta_ge (a b : Delta) : bool := negb (Delta_lt a b).
Definition Delta_eq (a b : Delta) : bool := n_eq (R a) (R b) && n_eq (D a) (D b).
Definition Delta_neq (a b : Delta) : bool := negb (Delta_eq a b).

(** Comparisons with a [Real]. *)
Definition isLess (a : Delta) (c : N) : bool :=
  n_lt (R a) c || (n_eq (R a) c && n_lt (D a) (n_of_Z 0)).
Definition isGreater (a : Delta) (c : N) : bool :=
  n_gt (R a) c || (n_eq (R a) c && n_gt (D a) (n_of_Z 0)).
Definition Delta_lt_Real (a : Delta) (c : N) : bool := isLess a c.
Definition Delta_gt_Real (a : Delta) (c : N) : bool := isGreater a c.
Definition Delta_le_Real (a : Delta) (c : N) : bool := negb (Delta_gt_Real a c).
Definition Delta_ge_Real (a : Delta) (c : N) : bool := negb (Delta_lt_Real a c).
Definition Real_lt_Delta (c : N) (a : Delta) : bool := Delta_gt_Real a c.
Definition Real_le_Delta (c : N) (a : Delta) : bool := Delta_ge_Real a c.
Definition Real_gt_Delta (c : N) (a : Delta) : bool := Delta_lt_Real a c.
Definition Real_ge_Delta (c : N) (a : Delta) : bool := Delta_le_Real a c.

(** The value of a delta-rational. *)
Definition dval (a : Delta) : lexq := Lex (nval (R a)) (nval (D a)).

(** ** The operations on values *)

Lemma Delta_default_val : dval Delta_default = lzero.
Proof. unfold dval, lzero. simpl. by autorewrite with nvals. Qed.
Lemma Delta_Real_val v : dval (Delta_Real v) = Lex (nval v) 0.
Proof. unfold dval. simpl. by autorewrite with nvals. Qed.
Lemma Delta_negate_val a : dval (Delta_negate a) = (- dval a)%lex.
Proof. unfold dval, lopp. simpl. by autorewrite with nvals. Qed.
Lemma Delta_add_val a b : dval (Delta_add a b) = (dval a + dval b)%lex.
Proof. unfold dval, ladd. simpl. by autorewrite with nvals. Qed.
Lemma Delta_sub_val a b : dval (Delta_sub a b) = (dval a - dval b)%lex.
Proof. unfold dval, lsub. simpl. by autorewrite with nvals. Qed.
Lemma Delta_scale_val c a : dval (Delta_scale c a) = lscale (nval c) (dval a).
Proof. unfold dval, lscale. simpl. by autorewrite with nvals. Qed.
Lemma Delta_div_val a c : nval c ≠ 0%Qc →
  ∃ b, Delta_div a c = Ok b ∧ dval b = lscale (/ nval c) (dval a).
Proof.
  intros Hc. unfold Delta_div.
  destruct (n_div_val (R a) c Hc) as (x & -> & Vx). destruct (n_div_val (D a) c Hc) as (y & -> & Vy).
  eexists. split; [done|]. unfold dval, lscale. simpl. rewrite Vx, Vy.
  unfold Qcdiv. f_equal; apply Qcmult_comm.
Qed.

Lemma hasDelta_val a : hasDelta a = true ↔ ld (dval a) ≠ 0%Qc.
Proof.
  unfold hasDelta. rewrite negb_true_iff, <- not_true_iff_false, n_isZero_val. done.
Qed.

Lemma Delta_lt_val a b : Delta_lt a b = true ↔ (dval a < dval b)%lex.
Proof.
  unfold Delta_lt, llt. rewrite orb_true_iff, andb_true_iff, !n_lt_val, n_eq_val. done.
Qed.
Lemma Delta_le_val a b : Delta_le a b = true ↔ (dval a <= dval b)%lex.
Proof.
  unfold Delta_le. rewrite negb_true_iff, <- not_true_iff_false, Delta_lt_val.
  apply lle_not_lt.
Qed.
Lemma Delta_gt_val a b : Delta_gt a b = true ↔ (dval b < dval a)%lex.
Proof. apply Delta_lt_val. Qed.
Lemma Delta_ge_val a b : Delta_ge a b = true ↔ (dval b <= dval a)%lex.
Proof.
  unfold Delta_ge. rewrite negb_true_iff, <- not_true_iff_false, Delta_lt_val.
  apply lle_not_lt.
Qed.
Lemma Delta_eq_val a b : Delta_eq a b = true ↔ dval a = dval b.
Proof. unfold Delta_eq. rewrite andb_true_iff, !n_eq_val, lexq_eq. done. Qed.

Lemma isLess_val a c : isLess a c = true ↔ (dval a < Lex (nval c) 0)%lex.
Proof.
  unfold isLess, llt. simpl. rewrite orb_true_iff, andb_true_iff, !n_lt_val, n_eq_val, n_zero_val.
  done.
Qed.
Lemma isGreater_val a c : isGreater a c = true ↔ (Lex (nval c) 0 < dval a)%lex.
Proof.
  unfold isGreater, llt. simpl.
  rewrite orb_true_iff, andb_true_iff, !n_gt_val, n_eq_val, n_zero_val.
  firstorder congruence.
Qed.

End Delta.
Arguments Delta N : clear implicits.
Arguments MkDelta {N} R D.

(** ** Clients *)
Section theorems.
Context {N : Type} `{Number N}.

(** The six comparisons of delta-rationals, and the comparisons with a
    rational on either side, are those of the lexicographic order of their
    values: a total order in which [r - δ < r < r + δ]. *)
Theorem Delta_comparisons_lexicographic (a b : Delta N) (c : N) :
  (Delta_lt a b = true ↔ (dval a < dval b)%lex)
  ∧ (Delta_le a b = true ↔ (dval a <= dval b)%lex)
  ∧ (Delta_gt a b = true ↔ (dval b < dval a)%lex)
  ∧ (Delta_ge a b = true ↔ (dval b <= dval a)%lex)
  ∧ (Delta_eq a b = true ↔ dval a = dval b)
  ∧ (Delta_neq a b = true ↔ dval a ≠ dval b)
  ∧ (Delta_lt_Real a c = Delta_lt a (Delta_Real c))
  ∧ (Delta_gt_Real a c = Delta_gt a (Delta_Real c))
  ∧ (Delta_le_Real a c = Delta_le a (Delta_Real c))
  ∧ (Delta_ge_Real a c = Delta_ge a (Delta_Real c))
  ∧ (Real_lt_Delta c a = Delta_lt (Delta_Real c) a)
  ∧ (Real_le_Delta c a = Delta_le (Delta_Real c) a).
Proof.
  assert (isLess a c = Delta_lt a (Delta_Real c)) as El.
  { apply eq_true_iff_eq. rewrite isLess_val, Delta_lt_val, Delta_Real_val. done. }
  assert (isGreater a c = Delta_lt (Delta_Real c) a) as Eg.
  { apply eq_true_iff_eq. rewrite isGreater_val, Delta_lt_val, Delta_Real_val. done. }
  repeat split; try apply Delta_lt_val; try apply Delta_le_val; try apply Delta_ge_val;
    try apply Delta_eq_val; try exact El; try exact Eg;
    unfold Delta_le_Real, Delta_gt_Real, Delta_ge_Real, Delta_lt_Real, Real_le_Delta,
      Delta_ge_Real, Delta_lt_Real, Delta_le, Delta_ge; try by rewrite ?El, ?Eg.
  - unfold Delta_neq. rewrite negb_true_iff, <- not_true_iff_false, Delta_eq_val. done.
  - unfold Delta_neq. rewrite negb_true_iff, <- not_true_iff_false, Delta_eq_val. done.
Qed.

(** the arithmetic of delta-rationals is exact, and substituting a
    rational [e] for δ commutes with it; a comparison [a ≤ b] of
    delta-rationals becomes one of rationals for every [e ≥ 0] small enough
    for the pair. *)
Theorem Delta_arithmetic_exact (a b : Delta N) (c : N) (e : Qc) :
  at_delta e (dval (Delta_add a b)) = (at_delta e (dval a) + at_delta e (dval b))%Qc
  ∧ at_delta e (dval (Delta_sub a b)) = (at_delta e (dval a) - at_delta e (dval b))%Qc
  ∧ at_delta e (dval (Delta_negate a)) = (- at_delta e (dval a))%Qc
  ∧ at_delta e (dval (Delta_scale c a)) = (nval c * at_delta e (dval a))%Qc
  ∧ (nval c ≠ 0%Qc → ∃ q, Delta_div a c = Ok q
       ∧ at_delta e (dval q) = (at_delta e (dval a) / nval c)%Qc)
  ∧ (Delta_le a b = true → (0 <= e)%Qc →
       ((nval (R a) < nval (R b))%Qc → (nval (D b) < nval (D a))%Qc →
          (e * (nval (D a) - nval (D b)) <= nval (R b) - nval (R a))%Qc) →
       (at_delta e (dval a) <= at_delta e (dval b))%Qc).
Proof.
  split; [by rewrite Delta_add_val, at_delta_add|].
  split; [by rewrite Delta_sub_val, at_delta_sub|].
  split; [by rewrite Delta_negate_val, at_delta_opp|].
  split; [by rewrite Delta_scale_val, at_delta_scale|]. split.
  - intros Hc. destruct (Delta_div_val a c Hc) as (q & -> & Vq). exists q. split; [done|].
    rewrite Vq, at_delta_scale. apply Qcmult_comm.
  - intros Hle He Hd. apply at_delta_le; [done | by apply Delta_le_val | exact Hd].
Qed.

End theorems.

(** *** Witnesses: delta-rationals over [FastRational] *)

#[local] Instance ref_Number : Number fr := fr_Number (gmp := gmp_ref).

Definition one_minus_delta : Delta fr := MkDelta (n_of_Z 1) (n_of_Z (-1)).
Definition one : Delta fr := Delta_Real (n_of_Z 1).

Lemma Delta_comparisons_lexicographic_witness :
  Delta_lt one_minus_delta one = true ∧ (dval one_minus_delta < dval one)%lex.
Proof.
  assert (Delta_lt one_minus_delta one = true) as E by (by vm_compute).
  split; [done|].
  by apply (Delta_comparisons_lexicographic one_minus_delta one (n_of_Z 0)).
Defined.

Lemma Delta_arithmetic_exact_witness :
  Delta_le one_minus_delta one = true
  ∧ (at_delta 1 (dval one_minus_delta) <= at_delta 1 (dval one))%Qc.
Proof.
  assert (Delta_le one_minus_delta one = true) as E by (by vm_compute).
  split; [done|].
  destruct (Delta_arithmetic_exact one_minus_delta one (n_of_Z 1) 1)
    as (_ & _ & _ & _ & _ & Hle).
  apply Hle; [done | discriminate |].
  intros Hlt. exfalso. revert Hlt. vm_compute. discriminate.
Defined.
