(* ===== verification/NatSet.v ===== *)
(** * Sets of small numbers with a constant-time reset

    NatSet.h: an element is in the set when its stamp exceeds the current one;
    [reset] advances the current stamp and only clears the vector before the
    32-bit stamp would wrap around. *)
From S2P Require Import Prelude.
From Stdlib Require Import Lia.

Module nat_set.

Record nat_set : Type := Mk { m_curr_timestamp : Z; m_timestamps : list Z }.

Definition resize (l : list Z) (s : nat) : list Z := take s l ++ replicate (s - length l) 0.

Definition init (s : nat) : nat_set := Mk 0 (if (0 <? s)%nat then resize [] s else []).
Definition set_domain (s : nat) (n : nat_set) : nat_set :=
  Mk (m_curr_timestamp n) (resize (m_timestamps n) s).
Definition get_domain (n : nat_set) : nat := length (m_timestamps n).
Definition assure_domain (v : nat) (n : nat_set) : nat_set :=
  if (get_domain n <=? v)%nat then set_domain (S v) n else n.

Definition contains (n : nat_set) (v : nat) : res bool :=
  let! s := at_ (m_timestamps n) v in Ok (m_curr_timestamp n <? s).
Definition insert (v : nat) (n : nat_set) : res nat_set :=
  let! l := upd (m_timestamps n) v (to_uword (m_curr_timestamp n + 1)) in Ok (Mk (m_curr_timestamp n) l).
Definition remove (v : nat) (n : nat_set) : res nat_set :=
  let! l := upd (m_timestamps n) v (m_curr_timestamp n) in Ok (Mk (m_curr_timestamp n) l).
Definition reset (n : nat_set) : nat_set :=
  let curr := to_uword (m_curr_timestamp n + 1) in
  if curr =? UWORD_MAX then Mk 0 (replicate (length (m_timestamps n)) 0)
  else Mk curr (m_timestamps n).
Definition empty (n : nat_set) : bool := forallb (λ s, negb (m_curr_timestamp n <? s)) (m_timestamps n).

(** ** The set an object stands for *)

(** The stamps never run ahead of the next one, and the current one never
    reaches the value at which incrementing would wrap around. *)
Record inv (n : nat_set) : Prop := {
  inv_curr : 0 ≤ m_curr_timestamp n < UWORD_MAX;
  inv_stamps : Forall (λ s, 0 ≤ s ≤ m_curr_timestamp n + 1) (m_timestamps n);
}.

Definition member (n : nat_set) (v : nat) : Prop := ∃ s, m_timestamps n !! v = Some s ∧ m_curr_timestamp n < s.

Lemma resize_lookup l s v x : resize l s !! v = Some x → l !! v = Some x ∨ x = 0.
Proof.
  unfold resize. rewrite lookup_app_Some. intros [Hx|[_ Hx]].
  - apply lookup_take_Some in Hx as [? _]. by left.
  - apply lookup_replicate in Hx as [-> _]. by right.
Qed.

Lemma inv_forall n : inv n ↔ 0 ≤ m_curr_timestamp n < UWORD_MAX
  ∧ ∀ v s, m_timestamps n !! v = Some s → 0 ≤ s ≤ m_curr_timestamp n + 1.
Proof.
  split.
  - intros [? Hs]. split; [done|]. intros v s Hv. by apply (Forall_lookup_1 _ _ v s Hs).
  - intros [? Hs]. constructor; [done|]. by apply Forall_lookup_2.
Qed.

Lemma init_inv s : inv (init s) ∧ ∀ v, ¬ member (init s) v.
Proof.
  assert (∀ v x, m_timestamps (init s) !! v = Some x → x = 0) as Hz.
  { intros v x. unfold init. simpl. destruct (0 <? s)%nat; [|done].
    intros [Hx|]%resize_lookup; done. }
  split.
  - apply inv_forall. split; [unfold_widths; simpl; lia|]. intros v x ->%Hz. simpl. lia.
  - intros v (x & ->%Hz & Hx). simpl in Hx. lia.
Qed.

Lemma assure_domain_inv v n : inv n →
  inv (assure_domain v n) ∧ (v < get_domain (assure_domain v n))%nat
  ∧ (∀ u, member (assure_domain v n) u ↔ member n u).
Proof.
  intros Hn. unfold assure_domain, get_domain. destruct (Nat.leb_spec (length (m_timestamps n)) v); [|tauto].
  unfold set_domain. simpl. unfold resize. rewrite take_ge by lia. split; [|split].
  - apply inv_forall in Hn as [Hc Hs]. apply inv_forall. simpl. split; [done|].
    intros u s [Hu|[_ Hu]]%lookup_app_Some; [by eapply Hs|].
    apply lookup_replicate in Hu as [-> _]. lia.
  - rewrite length_app, length_replicate. lia.
  - intros u. apply inv_forall in Hn as [Hc Hs]. unfold member. simpl. split.
    + intros (s & [Hu|[_ Hu]]%lookup_app_Some & Hlt); [eauto|].
      apply lookup_replicate in Hu as [-> _]. lia.
    + intros (s & Hu & Hlt). exists s. split; [by apply lookup_app_l_Some | done].
Qed.

Lemma contains_wp E v n : (v < get_domain n)%nat →
  wp E (λ b, b = true ↔ member n v) (contains n v).
Proof.
  intros Hv. apply lookup_lt_is_Some in Hv as [s Hs]. unfold contains, at_. rewrite Hs. simpl.
  rewrite Z.ltb_lt. unfold member. rewrite Hs. naive_solver.
Qed.

Lemma stamp_wp v n s : inv n → 0 ≤ s ≤ m_curr_timestamp n + 1 → (v < get_domain n)%nat →
  let n' := Mk (m_curr_timestamp n) (<[v := s]> (m_timestamps n)) in
  inv n' ∧ get_domain n' = get_domain n
  ∧ ∀ u, member n' u ↔ if decide (u = v) then m_curr_timestamp n < s else member n u.
Proof.
  intros Hn Hs Hv n'. unfold n', get_domain, member. simpl. rewrite length_insert. split; [|split; [done|]].
  - apply inv_forall in Hn as [Hc Hl]. apply inv_forall. simpl. split; [done|].
    intros u x. destruct (decide (u = v)) as [->|].
    + rewrite list_lookup_insert_eq by done. by intros [= <-].
    + rewrite list_lookup_insert_ne by done. apply Hl.
  - intros u. destruct (decide (u = v)) as [->|].
    + rewrite list_lookup_insert_eq by done. naive_solver.
    + by rewrite list_lookup_insert_ne by done.
Qed.

Lemma insert_wp E v n : inv n → (v < get_domain n)%nat →
  wp E (λ n', inv n' ∧ get_domain n' = get_domain n ∧ ∀ u, member n' u ↔ u = v ∨ member n u) (insert v n).
Proof.
  intros Hn Hv. pose proof (inv_curr _ Hn). unfold insert. apply wp_bind. apply upd_wp; [done|].
  rewrite to_uword_id by (unfold_widths; lia).
  destruct (stamp_wp v n (m_curr_timestamp n + 1) Hn ltac:(lia) Hv) as (Hi & Hd & Hm).
  split; [done|]. split; [done|]. intros u. rewrite Hm. destruct (decide (u = v)); [|tauto].
  split; [by left | lia].
Qed.

Lemma remove_wp E v n : inv n → (v < get_domain n)%nat →
  wp E (λ n', inv n' ∧ get_domain n' = get_domain n ∧ ∀ u, member n' u ↔ u ≠ v ∧ member n u) (remove v n).
Proof.
  intros Hn Hv. pose proof (inv_curr _ Hn). unfold remove. apply wp_bind. apply upd_wp; [done|].
  destruct (stamp_wp v n (m_curr_timestamp n) Hn ltac:(lia) Hv) as (Hi & Hd & Hm).
  split; [done|]. split; [done|]. intros u. rewrite Hm. destruct (decide (u = v)); [|tauto].
  split; [lia | tauto].
Qed.

Lemma reset_inv n : inv n → inv (reset n) ∧ get_domain (reset n) = get_domain n ∧ ∀ v, ¬ member (reset n) v.
Proof.
  intros [Hc Hs]%inv_forall. unfold reset.
  rewrite to_uword_id by (unfold_widths; lia).
  destruct (Z.eqb_spec (m_curr_timestamp n + 1) UWORD_MAX).
  - split; [|split].
    + apply inv_forall. simpl. split; [unfold_widths; lia|]. intros v s [-> _]%lookup_replicate. lia.
    + unfold get_domain. simpl. by rewrite length_replicate.
    + intros v (s & [-> _]%lookup_replicate & Hlt). simpl in Hlt. lia.
  - split; [|split; [done|]].
    + apply inv_forall. simpl. split; [lia|]. intros v s Hv. specialize (Hs v s Hv). lia.
    + intros v (s & Hv & Hlt). specialize (Hs v s Hv). simpl in Hlt. lia.
Qed.

Lemma empty_iff n : empty n = true ↔ ∀ v, ¬ member n v.
Proof.
  unfold empty. rewrite forallb_forall. split.
  - intros Hf v (s & Hv & Hlt). specialize (Hf s). rewrite negb_true_iff, Z.ltb_ge in Hf.
    apply list_elem_of_lookup_2, list_elem_of_In in Hv. specialize (Hf Hv). lia.
  - intros Hm s Hs. rewrite negb_true_iff, Z.ltb_ge. apply list_elem_of_In, list_elem_of_lookup_1 in Hs as [v Hv].
    destruct (Z.le_gt_cases s (m_curr_timestamp n)) as [|Hlt]; [done|]. exfalso. apply (Hm v). exists s. split; [done | lia].
Qed.

End nat_set.

(** C38: the set abstraction, at any stamp short of the wrap-around: membership is
    what insertions, removals and resets leave, and no operation on the domain
    fails. *)
Theorem nat_set_refines (n : nat_set.nat_set) (v : nat) : nat_set.inv n → (v < nat_set.get_domain n)%nat →
  (∃ b, nat_set.contains n v = Ok b ∧ (b = true ↔ nat_set.member n v))
  ∧ (∃ n', nat_set.insert v n = Ok n' ∧ nat_set.inv n' ∧ ∀ u, nat_set.member n' u ↔ u = v ∨ nat_set.member n u)
  ∧ (∃ n', nat_set.remove v n = Ok n' ∧ nat_set.inv n' ∧ ∀ u, nat_set.member n' u ↔ u ≠ v ∧ nat_set.member n u)
  ∧ (nat_set.inv (nat_set.reset n) ∧ nat_set.empty (nat_set.reset n) = true
     ∧ ∀ u, ¬ nat_set.member (nat_set.reset n) u).
Proof.
  intros Hn Hv.
  pose proof (nat_set.contains_wp no_error v n Hv) as H1. apply wp_total in H1.
  pose proof (nat_set.insert_wp no_error v n Hn Hv) as H2. apply wp_total in H2 as (n2 & ? & ? & _ & ?).
  pose proof (nat_set.remove_wp no_error v n Hn Hv) as H3. apply wp_total in H3 as (n3 & ? & ? & _ & ?).
  destruct (nat_set.reset_inv n Hn) as (Hr1 & _ & Hr2).
  split; [done|]. split; [eauto|]. split; [eauto|]. split; [done|]. split; [|done].
  by apply nat_set.empty_iff.
Qed.

(** A set on the last stamp before the wrap-around. *)
Definition late_set : nat_set.nat_set := nat_set.Mk (UWORD_MAX - 1) [0; UWORD_MAX; UWORD_MAX - 1].

Lemma nat_set_refines_witness :
  nat_set.reset late_set = nat_set.Mk 0 [0; 0; 0]
  ∧ ∃ b, nat_set.contains late_set 1 = Ok b ∧ (b = true ↔ nat_set.member late_set 1).
Proof.
  split; [reflexivity|]. apply nat_set_refines.
  - constructor; [unfold late_set; simpl; unfold_widths; lia|].
    repeat (apply Forall_cons; split; [simpl; unfold_widths; lia|]). constructor.
  - unfold late_set, nat_set.get_domain. simpl. lia.
Defined.
