(* ===== verification/SatLits.v ===== *)
(** * Literals of the SAT solver

    [Lit] of minisat/core/SolverTypes.h: a variable and its sign in one
    integer, and assignments of the variables. *)
From S2P Require Import Prelude.
From Stdlib Require Import Lia.

#[local] Open Scope nat_scope.

(** [var_Undef] is the [None] of [option Var]. *)
Abbreviation Var := nat (only parsing).

Record Lit : Type := MkLit { toInt : nat }.
#[export] Instance Lit_eq_dec : EqDecision Lit.
Proof. solve_decision. Defined.

Definition mkLit (v : Var) (sign : bool) : Lit := MkLit (v + v + Nat.b2n sign).
(** [operator ~] *)
Definition lit_not (p : Lit) : Lit := MkLit (Nat.lxor (toInt p) 1).
(** [operator ^] *)
Definition lit_xor (p : Lit) (b : bool) : Lit := MkLit (Nat.lxor (toInt p) (Nat.b2n b)).
Definition sign (p : Lit) : bool := negb (Nat.land (toInt p) 1 =? 0).
Definition var (p : Lit) : Var := Nat.shiftr (toInt p) 1.

Lemma lit_parts p : toInt p = var p + var p + Nat.b2n (sign p).
Proof.
  unfold var, sign. rewrite Nat.shiftr_div_pow2. change (2 ^ 1) with 2.
  pose proof (Nat.land_ones (toInt p) 1) as L. change (Nat.ones 1) with 1 in L. rewrite L. change (2 ^ 1) with 2.
  pose proof (Nat.div_mod_eq (toInt p) 2) as E. pose proof (Nat.mod_upper_bound (toInt p) 2 ltac:(lia)) as U.
  destruct (Nat.eqb_spec (toInt p mod 2) 0); cbn [negb Nat.b2n]; lia.
Qed.

Lemma mkLit_parts p : mkLit (var p) (sign p) = p.
Proof. unfold mkLit. rewrite <- lit_parts. by destruct p. Qed.

Lemma mkLit_inj v s v' s' : mkLit v s = mkLit v' s' → v = v' ∧ s = s'.
Proof. unfold mkLit. intros E. injection E as E. destruct s, s'; cbn [Nat.b2n] in E; solve [exfalso; lia | split; [lia|done]]. Qed.

Lemma var_mkLit v s : var (mkLit v s) = v.
Proof. apply (mkLit_inj _ _ _ _ (mkLit_parts (mkLit v s))). Qed.
Lemma sign_mkLit v s : sign (mkLit v s) = s.
Proof. apply (mkLit_inj _ _ _ _ (mkLit_parts (mkLit v s))). Qed.

Lemma lxor_b2n v s b : Nat.lxor (v + v + Nat.b2n s) (Nat.b2n b) = v + v + Nat.b2n (xorb s b).
Proof.
  replace (v + v) with (2 * v) by lia. apply Nat.bits_inj. intros [|i]; rewrite Nat.lxor_spec.
  - by rewrite !Nat.testbit_0_r, Nat.b2n_bit0.
  - rewrite !Nat.testbit_succ_r. change (Nat.b2n b) with (2 * 0 + Nat.b2n b). by rewrite Nat.testbit_succ_r, Nat.bits_0, xorb_false_r.
Qed.

Lemma lit_xor_mkLit v s b : lit_xor (mkLit v s) b = mkLit v (xorb s b).
Proof. unfold lit_xor, mkLit. cbn [toInt]. by rewrite lxor_b2n. Qed.
Lemma lit_not_mkLit v s : lit_not (mkLit v s) = mkLit v (negb s).
Proof. rewrite <- (xorb_true_r s). apply (lit_xor_mkLit v s true). Qed.
Lemma var_not p : var (lit_not p) = var p.
Proof. rewrite <- (mkLit_parts p), lit_not_mkLit. by rewrite !var_mkLit. Qed.
Lemma sign_not p : sign (lit_not p) = negb (sign p).
Proof. rewrite <- (mkLit_parts p), lit_not_mkLit. by rewrite !sign_mkLit. Qed.
Lemma lit_not_not p : lit_not (lit_not p) = p.
Proof. by rewrite <- (mkLit_parts (lit_not (lit_not p))), sign_not, sign_not, !var_not, negb_involutive, mkLit_parts. Qed.
Lemma lit_not_ne p : lit_not p ≠ p.
Proof. intros E. apply (f_equal sign) in E. rewrite sign_not in E. by destruct (sign p). Qed.

(** ** Assignments *)
Definition lit_value (σ : Var → bool) (p : Lit) : bool := xorb (σ (var p)) (sign p).
Definition clause_true (σ : Var → bool) (c : list Lit) : bool := existsb (lit_value σ) c.

Lemma lit_value_not σ p : lit_value σ (lit_not p) = negb (lit_value σ p).
Proof. unfold lit_value. rewrite var_not, sign_not. by destruct (σ (var p)), (sign p). Qed.
Lemma lit_value_mkLit σ v s : lit_value σ (mkLit v s) = xorb (σ v) s.
Proof. unfold lit_value. by rewrite var_mkLit, sign_mkLit. Qed.
Lemma clause_true_iff σ c : clause_true σ c = true ↔ ∃ p, p ∈ c ∧ lit_value σ p = true.
Proof. unfold clause_true. rewrite existsb_exists. by setoid_rewrite <- list_elem_of_In. Qed.
