(* ===== verification/Polynomial.v ===== *)
(** * Polynomials: the rows of the tableau

    Polynomial.h keeps a linear polynomial as a vector of terms ordered by
    variable, without zero coefficients.  Every operation is defined here on
    the vector, with the callbacks of [merge] threading a state of the caller;
    the lemmas say what each does to the value of the polynomial under an
    assignment, to its order and to its set of variables. *)
From stdpp Require Import sorting.
From S2P Require Import Prelude Gmp FastRationalInt Number Lex Delta.
From Stdlib Require Import Lia.

#[local] Open Scope nat_scope.

(** [LVRef] is a 32-bit number; [LVRef::Undef] is [None] where a function may
    return it. *)
Abbreviation LVRef := nat (only parsing).

Section polynomial.
Context {N : Type} `{Number N}.

Record Term : Type := MkTerm { var : LVRef; coeff : N }.
Definition poly_t : Type := list Term.

Definition TermCmp (first second : Term) : bool := var first <? var second.

Fixpoint findTermForVar (p : poly_t) (v : LVRef) : option nat :=
  match p with
  | [] => None
  | t :: p => if var t =? v then Some 0 else S <$> findTermForVar p v
  end.

Definition contains (p : poly_t) (v : LVRef) : bool :=
  match findTermForVar p v with Some _ => true | None => false end.

Definition size (p : poly_t) : nat := length p.

Definition getCoeff (p : poly_t) (v : LVRef) : res N :=
  let! _ := check (contains p v) in
  match findTermForVar p v with
  | Some i => let! t := at_ p i in Ok (coeff t)
  | None => Err Out_of_range
  end.

Definition removeVar (p : poly_t) (v : LVRef) : res (N * poly_t) :=
  let! _ := check (contains p v) in
  match findTermForVar p v with
  | Some i => let! t := at_ p i in Ok (coeff t, delete i p)
  | None => Err Out_of_range
  end.

(** [std::upper_bound] on a range ordered by [TermCmp]. *)
Fixpoint upper_bound (p : poly_t) (t : Term) : nat :=
  match p with
  | [] => 0
  | u :: p => if TermCmp t u then 0 else S (upper_bound p t)
  end.

Definition addTerm (p : poly_t) (v : LVRef) (c : N) : res poly_t :=
  let! _ := check (negb (contains p v)) in
  let term := MkTerm v c in
  let it := upper_bound p term in
  Ok (take it p ++ term :: drop it p).

Definition poly_negate (p : poly_t) : poly_t := (λ t, MkTerm (var t) (n_neg (coeff t))) <$> p.

Fixpoint divideBy (p : poly_t) (r : N) : res poly_t :=
  match p with
  | [] => Ok []
  | t :: p =>
      let! c := n_div (coeff t) r in
      let! p := divideBy p r in
      Ok (MkTerm (var t) c :: p)
  end.

(** ** [merge]: add [coeff] times [other]

    The loop fills [tmp_storage] in order; what it has written there is the
    list returned, and [storageIndex] its length. *)
Section merge.
Context {S : Type} (informAdded informRemoved : LVRef → S → res S) (c : N).

Fixpoint merge_rest (other : poly_t) (s : S) : res (poly_t * S) :=
  match other with
  | [] => Ok ([], s)
  | o :: other =>
      let! s := informAdded (var o) s in
      let! r := merge_rest other s in
      Ok (MkTerm (var o) (n_mul (coeff o) c) :: r.1, r.2)
  end.

Fixpoint merge_loop (my : poly_t) : poly_t → S → res (poly_t * S) :=
  match my with
  | [] => merge_rest
  | m :: my' =>
      fix from_other (other : poly_t) (s : S) : res (poly_t * S) :=
        match other with
        | [] => Ok (m :: my', s)
        | o :: other' =>
            if TermCmp m o then
              let! r := merge_loop my' (o :: other') s in Ok (m :: r.1, r.2)
            else if TermCmp o m then
              let! s := informAdded (var o) s in
              let! r := from_other other' s in
              Ok (MkTerm (var o) (n_mul (coeff o) c) :: r.1, r.2)
            else
              let! _ := check (var m =? var o) in
              let tmp := n_mul (coeff o) c in
              let sum := n_add (coeff m) tmp in
              if n_isZero sum then
                let! s := informRemoved (var m) s in
                merge_loop my' other' s
              else
                let! r := merge_loop my' other' s in
                Ok (MkTerm (var m) sum :: r.1, r.2)
        end
  end.

(** The elements go back to [poly], whose old elements have been moved from:
    three cases, by how the number of elements relates to the old size. *)
Definition store_back (poly tmp_storage : poly_t) (storageIndex : nat) : poly_t :=
  let polySize := length poly in
  if polySize <? storageIndex then
    take polySize tmp_storage ++ drop polySize (take storageIndex tmp_storage)
  else if polySize <=? 2 * storageIndex then
    take storageIndex (take storageIndex tmp_storage ++ drop storageIndex poly)
  else take storageIndex tmp_storage.

Definition merge (poly other : poly_t) (s : S) : res (poly_t * S) :=
  let! r := merge_loop poly other s in
  Ok (store_back poly r.1 (length r.1), r.2).

End merge.

(** [merge] without the hooks. *)
Definition merge_simple (poly other : poly_t) (c : N) : res poly_t :=
  let! r := merge (λ _ s, Ok s) (λ _ s, Ok s) c poly other tt in Ok r.1.

(** ** What a polynomial means *)

Definition keys (p : poly_t) : list LVRef := var <$> p.

Definition peval (σ : LVRef → lexq) (p : poly_t) : lexq :=
  foldr (λ t acc, (lscale (nval (coeff t)) (σ (var t)) + acc)%lex) lzero p.

Definition sorted (p : poly_t) : Prop := StronglySorted lt (keys p).
Definition nonzero (p : poly_t) : Prop := Forall (λ t, nval (coeff t) ≠ 0%Qc) p.
Definition poly_wf (p : poly_t) : Prop := sorted p ∧ nonzero p.

End polynomial.

Arguments Term N : clear implicits.
Arguments poly_t N : clear implicits.
#[global] Arguments keys : simpl never.

(** ** Arithmetic of scaled values *)
Lemma lscale_add_l a b x : lscale (a + b) x = (lscale a x + lscale b x)%lex.
Proof. apply lexq_eq; split; simpl; ring. Qed.
Lemma lscale_mul a b x : lscale (a * b) x = lscale a (lscale b x).
Proof. apply lexq_eq; split; simpl; ring. Qed.
Lemma lscale_add_r a x y : lscale a (x + y) = (lscale a x + lscale a y)%lex.
Proof. apply lexq_eq; split; simpl; ring. Qed.
Lemma lscale_0_l x : lscale 0 x = lzero.
Proof. apply lexq_eq; split; simpl; ring. Qed.
Lemma lscale_0_r a : lscale a lzero = lzero.
Proof. apply lexq_eq; split; simpl; ring. Qed.
Lemma lscale_1 x : lscale 1 x = x.
Proof. apply lexq_eq; split; simpl; ring. Qed.
Lemma lscale_opp a x : lscale (- a) x = (- lscale a x)%lex.
Proof. apply lexq_eq; split; simpl; ring. Qed.

(** Equalities between sums of delta-rationals, by components. *)
Ltac lex_ring := apply lexq_eq; split; simpl; ring.

Section facts.
Context {N : Type} `{Number N}.
Implicit Types (p my other : poly_t N) (t m o : Term N) (v : LVRef).

(** ** Order *)

Lemma sorted_cons t p : sorted (t :: p) ↔ Forall (λ u, var t < var u) p ∧ sorted p.
Proof.
  unfold sorted, keys. csimpl. split.
  - intros Hs. apply StronglySorted_inv in Hs as [Hs Hf]. by rewrite Forall_map in Hf.
  - intros [Hf Hs]. constructor; [done|]. by rewrite Forall_map.
Qed.

Lemma sorted_nil : sorted ([] : poly_t N).
Proof. constructor. Qed.

Lemma poly_wf_nil : poly_wf ([] : poly_t N).
Proof. split; [apply sorted_nil | constructor]. Qed.

Lemma poly_wf_cons t p :
  poly_wf (t :: p) ↔ Forall (λ u, var t < var u) p ∧ nval (coeff t) ≠ 0%Qc ∧ poly_wf p.
Proof. unfold poly_wf, nonzero. rewrite sorted_cons, Forall_cons. tauto. Qed.

Lemma elem_of_keys v p : v ∈ keys p ↔ ∃ t, t ∈ p ∧ var t = v.
Proof. unfold keys. rewrite list_elem_of_fmap. naive_solver. Qed.

Lemma keys_cons t p : keys (t :: p) = var t :: keys p.
Proof. done. Qed.

Lemma Forall_keys (P : LVRef → Prop) p : Forall (λ u, P (var u)) p ↔ Forall P (keys p).
Proof. unfold keys. by rewrite Forall_fmap. Qed.

Lemma keys_above t p v : Forall (λ u, var t < var u) p → v ∈ keys p → var t < v.
Proof. rewrite Forall_forall. intros Hf (u & Hu & <-)%elem_of_keys. by apply Hf. Qed.

Lemma keys_NoDup p : sorted p → NoDup (keys p).
Proof.
  induction p as [|t p IH]; [constructor|]. rewrite sorted_cons. intros [Hf Hs].
  rewrite keys_cons. constructor; [|by apply IH]. intros Hin.
  pose proof (keys_above _ _ _ Hf Hin). lia.
Qed.

Lemma sorted_term_unique p t u : sorted p → t ∈ p → u ∈ p → var t = var u → t = u.
Proof.
  induction p as [|w p IH]; [by intros _ ?%not_elem_of_nil|]. rewrite sorted_cons, Forall_forall.
  intros [Hf Hs] [->|Ht]%elem_of_cons [->|Hu]%elem_of_cons E; [done| | |by apply IH].
  - specialize (Hf u Hu). lia.
  - specialize (Hf t Ht). lia.
Qed.

(** ** Finding a term *)

Lemma findTermForVar_Some p v i :
  findTermForVar p v = Some i →
  ∃ t, p !! i = Some t ∧ var t = v.
Proof.
  revert i. induction p as [|t p IH]; intros i; simpl; [done|].
  destruct (Nat.eqb_spec (var t) v).
  - intros [= <-]. by exists t.
  - rewrite fmap_Some. intros (j & Hj & ->). by apply IH.
Qed.

Lemma contains_true p v : contains p v = true ↔ v ∈ keys p.
Proof.
  unfold contains. induction p as [|t p IH]; simpl.
  - split; [done | by intros ?%not_elem_of_nil].
  - rewrite keys_cons, elem_of_cons. destruct (Nat.eqb_spec (var t) v).
    + split; auto.
    + rewrite <- IH. destruct (findTermForVar p v); simpl; naive_solver.
Qed.

Lemma contains_false p v : contains p v = false ↔ v ∉ keys p.
Proof. by rewrite <- contains_true, not_true_iff_false. Qed.

(** The term of a variable splits the polynomial. *)
Lemma find_split p v : v ∈ keys p →
  ∃ p1 t p2, p = p1 ++ t :: p2 ∧ var t = v ∧ (v ∉ keys p1) ∧ findTermForVar p v = Some (length p1).
Proof.
  induction p as [|t p IH]; [by intros ?%not_elem_of_nil|]. rewrite keys_cons, elem_of_cons.
  simpl. destruct (Nat.eqb_spec (var t) v).
  - intros _. exists [], t, p. repeat split; auto. by intros ?%not_elem_of_nil.
  - intros [->|Hin]; [done|]. destruct (IH Hin) as (p1 & u & p2 & -> & Hu & Hn & ->).
    exists (t :: p1), u, p2. rewrite (keys_cons t p1), elem_of_cons. repeat split; auto. naive_solver.
Qed.

Lemma getCoeff_ok p v : v ∈ keys p → ∃ t, t ∈ p ∧ var t = v ∧ getCoeff p v = Ok (coeff t).
Proof.
  intros Hv. unfold getCoeff. rewrite (proj2 (contains_true p v) Hv). simpl.
  destruct (find_split p v Hv) as (p1 & t & p2 & -> & <- & _ & ->).
  unfold at_. rewrite list_lookup_middle by done. exists t. split; [set_solver | done].
Qed.

Lemma getCoeff_term p t : sorted p → t ∈ p → getCoeff p (var t) = Ok (coeff t).
Proof.
  intros Hs Ht. destruct (getCoeff_ok p (var t)) as (u & Hu & E & ->); [apply elem_of_keys; eauto|].
  by rewrite (sorted_term_unique p u t Hs Hu Ht E).
Qed.

(** ** The value of a polynomial *)

Lemma peval_app σ p q : peval σ (p ++ q) = (peval σ p + peval σ q)%lex.
Proof.
  induction p as [|t p IH]; simpl; [by rewrite ladd_0_l|]. rewrite IH. apply ladd_assoc.
Qed.

Lemma peval_ext σ τ p : (∀ v, v ∈ keys p → σ v = τ v) → peval σ p = peval τ p.
Proof.
  induction p as [|t p IH]; intros Hv; simpl; [done|]. f_equal.
  - f_equal. apply Hv. by apply elem_of_cons; left.
  - apply IH. intros v Hin. apply Hv. by apply elem_of_cons; right.
Qed.

(** ** [removeVar] *)

Lemma removeVar_ok p v : poly_wf p → v ∈ keys p →
  ∃ t p', removeVar p v = Ok (coeff t, p') ∧ t ∈ p ∧ var t = v ∧ poly_wf p'
    ∧ (∀ σ, peval σ p = (lscale (nval (coeff t)) (σ v) + peval σ p')%lex)
    ∧ (∀ u, u ∈ p' ↔ u ∈ p ∧ var u ≠ v).
Proof.
  intros Hp Hv. unfold removeVar. rewrite (proj2 (contains_true p v) Hv). simpl.
  destruct (find_split p v Hv) as (p1 & t & p2 & -> & <- & Hn & ->).
  unfold at_. rewrite list_lookup_middle by done. cbn [rbind]. rewrite (delete_middle p1).
  exists t, (p1 ++ p2). split; [done|]. split; [set_solver|]. split; [done|].
  assert (poly_wf (p1 ++ p2) ∧ Forall (λ u, var t < var u) p2) as [? Ht].
  { clear Hv Hn. induction p1 as [|u p1 IH]; simpl in *; [apply poly_wf_cons in Hp; tauto|].
    apply poly_wf_cons in Hp as (Hf & H0 & Hp). destruct (IH Hp) as [IH1 IH2]. split; [|done].
    apply poly_wf_cons. split; [|done]. rewrite Forall_app, Forall_cons in Hf.
    rewrite Forall_app. tauto. }
  split; [done|]. split.
  - intros σ. rewrite !peval_app. simpl. lex_ring.
  - intros u. rewrite !elem_of_app, elem_of_cons. rewrite Forall_forall in Ht. split.
    + intros Hu. split; [tauto|]. destruct Hu as [Hu|Hu].
      * intros E. apply Hn. apply elem_of_keys. eauto.
      * specialize (Ht u Hu). lia.
    + intros [[?|[->|?]] ?]; tauto.
Qed.

Lemma removeVar_keys p p' v : (∀ t, t ∈ p' ↔ t ∈ p ∧ var t ≠ v) → ∀ u, u ∈ keys p' ↔ u ∈ keys p ∧ u ≠ v.
Proof. intros Hp u. rewrite !elem_of_keys. split; [|intros [(t & ? & <-) ?]]; naive_solver. Qed.

(** ** [addTerm] *)

Lemma addTerm_ok p v c : poly_wf p → v ∉ keys p → nval c ≠ 0%Qc →
  ∃ p', addTerm p v c = Ok p' ∧ poly_wf p'
    ∧ (∀ σ, peval σ p' = (lscale (nval c) (σ v) + peval σ p)%lex)
    ∧ (∀ t, t ∈ p' ↔ t = MkTerm v c ∨ t ∈ p).
Proof.
  intros Hp Hv Hc. unfold addTerm. rewrite (proj2 (contains_false p v) Hv). simpl.
  eexists. split; [done|]. set (t := MkTerm v c).
  assert (∀ u, u ∈ take (upper_bound p t) p ++ t :: drop (upper_bound p t) p ↔ u = t ∨ u ∈ p) as Hin.
  { intros u. rewrite elem_of_app, elem_of_cons.
    assert (u ∈ p ↔ u ∈ take (upper_bound p t) p ∨ u ∈ drop (upper_bound p t) p) as ->
      by by rewrite <- elem_of_app, take_drop.
    tauto. }
  split; [|split; [|done]].
  - clear Hin. induction p as [|u p IH]; simpl.
    + apply poly_wf_cons. auto using poly_wf_nil.
    + pose proof Hp as (Hf & H0 & Hp')%poly_wf_cons. rewrite keys_cons in Hv.
      unfold TermCmp. simpl. destruct (Nat.ltb_spec v (var u)); simpl.
      * apply poly_wf_cons. split; [|done]. constructor; [done|].
        eapply Forall_impl; [exact Hf|]. simpl. lia.
      * apply poly_wf_cons. split; [|split; [done | apply IH; set_solver]].
        rewrite Forall_app, Forall_cons. simpl.
        split; [by apply Forall_take|]. split; [|by apply Forall_drop].
        assert (v ≠ var u) by set_solver. lia.
  - intros σ. rewrite peval_app. simpl.
    assert (peval σ p = peval σ (take (upper_bound p t) p) + peval σ (drop (upper_bound p t) p))%lex
      as -> by by rewrite <- peval_app, take_drop.
    lex_ring.
Qed.

(** ** [negate], [divideBy] *)

Lemma poly_negate_ok p : poly_wf p →
  poly_wf (poly_negate p) ∧ keys (poly_negate p) = keys p
  ∧ ∀ σ, peval σ (poly_negate p) = (- peval σ p)%lex.
Proof.
  intros Hp. assert (keys (poly_negate p) = keys p) as E.
  { unfold keys, poly_negate. rewrite <- list_fmap_compose. done. }
  split; [|split; [done|]].
  - destruct Hp as [Hs Hn]. split; [by unfold sorted; rewrite E|].
    unfold nonzero, poly_negate. rewrite Forall_fmap. eapply Forall_impl; [exact Hn|].
    intros t Ht. simpl. rewrite n_neg_val. intros E0. apply Ht.
    assert (nval (coeff t) = - - nval (coeff t))%Qc as -> by ring. rewrite E0. ring.
  - intros σ. clear. induction p as [|t p IH]; simpl; [lex_ring|]. rewrite n_neg_val, IH. lex_ring.
Qed.

Lemma divideBy_ok p r : poly_wf p → nval r ≠ 0%Qc →
  ∃ p', divideBy p r = Ok p' ∧ poly_wf p' ∧ keys p' = keys p
    ∧ ∀ σ, peval σ p' = lscale (/ nval r) (peval σ p).
Proof.
  intros Hp Hr. induction p as [|t p IH]; simpl.
  - exists []. repeat split; [constructor | constructor | ]. intros σ. by rewrite lscale_0_r.
  - apply poly_wf_cons in Hp as (Hf & H0 & Hp).
    destruct (n_div_val (coeff t) r Hr) as (c & -> & Hc). simpl.
    destruct (IH Hp) as (p' & -> & Hp' & Ek & Ev). simpl. eexists. split; [done|].
    split; [|split].
    + apply poly_wf_cons. simpl. split; [|split; [|done]].
      * apply (Forall_keys (λ u, var t < u)). rewrite Ek. by apply Forall_keys.
      * rewrite Hc. intros E. apply H0.
        assert (nval (coeff t) = nval (coeff t) / nval r * nval r)%Qc as -> by (field; done).
        rewrite E. ring.
    + rewrite !keys_cons, Ek. done.
    + intros σ. simpl. rewrite Ev, Hc, lscale_add_r. f_equal.
      apply lexq_eq; split; simpl; field; done.
Qed.

End facts.

(** ** [merge]

    The run of [merge] is a pure computation on the vectors together with a
    sequence of calls of the hooks. *)
Inductive event : Type := Added (v : LVRef) | Removed (v : LVRef).
Definition event_var (e : event) : LVRef := match e with Added v => v | Removed v => v end.

Definition run_events {S : Type} (informAdded informRemoved : LVRef → S → res S) : S → list event → res S :=
  foldM (λ s e, match e with Added v => informAdded v s | Removed v => informRemoved v s end).

Lemma run_events_cons {S} (fa fr : LVRef → S → res S) s e ev :
  run_events fa fr s (e :: ev) =
  let! s := match e with Added v => fa v s | Removed v => fr v s end in run_events fa fr s ev.
Proof. done. Qed.

Section merge.
Context {N : Type} `{Number N}.
Implicit Types (p my other : poly_t N) (t m o : Term N) (v : LVRef) (ev : list event).

(** What a merge of [c] times [other] into [my] gives: the polynomial [p] and
    the variables that entered and left. *)
Record merged (c : N) (my other p : poly_t N) (ev : list event) : Prop := {
  merged_wf : poly_wf p;
  merged_val σ : peval σ p = (peval σ my + lscale (nval c) (peval σ other))%lex;
  merged_keys v : v ∈ keys p ↔ (v ∈ keys my ∧ Removed v ∉ ev) ∨ Added v ∈ ev;
  merged_added v : Added v ∈ ev ↔ v ∈ keys other ∧ v ∉ keys my;
  merged_removed v : Removed v ∈ ev → v ∈ keys my ∧ v ∈ keys other;
  merged_nodup : NoDup (event_var <$> ev);
}.

Lemma merged_sub c my other p ev v : merged c my other p ev →
  v ∈ keys p ∨ v ∈ event_var <$> ev → v ∈ keys my ∨ v ∈ keys other.
Proof.
  intros Hm [Hv|Hv].
  - apply (merged_keys _ _ _ _ _ Hm) in Hv as [[? _]|Hv]; [by left|].
    apply (merged_added _ _ _ _ _ Hm) in Hv. naive_solver.
  - apply list_elem_of_fmap in Hv as ([u|u] & -> & Hu); simpl.
    + apply (merged_added _ _ _ _ _ Hm) in Hu. naive_solver.
    + apply (merged_removed _ _ _ _ _ Hm) in Hu. naive_solver.
Qed.

(** A variable below everything to come is in nothing to come. *)
Definition below (v : LVRef) (p : poly_t N) : Prop := Forall (λ u, v < var u) p.

Lemma below_keys v p u : below v p → u ∈ keys p → v < u.
Proof. intros Hb Hu. apply elem_of_keys in Hu as (t & Ht & <-). exact (proj1 (Forall_forall _ p) Hb t Ht). Qed.

Lemma merged_below c my other p ev v : merged c my other p ev → below v my → below v other →
  below v p ∧ (v ∉ keys my) ∧ (v ∉ keys other) ∧ (v ∉ event_var <$> ev) ∧ (Added v ∉ ev) ∧ Removed v ∉ ev.
Proof.
  intros Hm Hmy Ho.
  assert (∀ u, u ∈ keys p ∨ u ∈ event_var <$> ev → v < u) as Hs.
  { intros u Hu. destruct (merged_sub c my other p ev u Hm Hu); eauto using below_keys. }
  assert (v ∉ keys my) by (intros Hv; pose proof (below_keys v my v Hmy Hv); lia).
  assert (v ∉ keys other) by (intros Hv; pose proof (below_keys v other v Ho Hv); lia).
  assert (v ∉ event_var <$> ev) as Hev by (intros Hv; pose proof (Hs v (or_intror Hv)); lia).
  split; [|split_and!; try done].
  - apply Forall_forall. intros t Ht. apply Hs. left. apply elem_of_keys. eauto.
  - intros Hv. apply Hev. apply list_elem_of_fmap. by exists (Added v).
  - intros Hv. apply Hev. apply list_elem_of_fmap. by exists (Removed v).
Qed.

Lemma below_trans v w p : v ≤ w → below w p → below v p.
Proof. intros Hv Hb. eapply Forall_impl; [exact Hb|]. simpl. lia. Qed.

Lemma merged_nil c my : poly_wf my → merged c my [] my [].
Proof.
  intros Hm. constructor; try done.
  - intros σ. simpl. rewrite lscale_0_r. by rewrite ladd_0_r.
  - intros v. set_solver.
  - intros v. set_solver.
  - intros v. set_solver.
  - constructor.
Qed.

Lemma merged_keep c m my other p ev : poly_wf (m :: my) → below (var m) other →
  merged c my other p ev → merged c (m :: my) other (m :: p) ev.
Proof.
  intros (Hf & H0 & Hmy)%poly_wf_cons Hb Hm.
  destruct (merged_below c my other p ev (var m) Hm Hf Hb) as (Hp & N1 & N2 & N3 & N4 & N5).
  destruct Hm as [Hw Hv Hk Ha Hr Hn]. constructor; [| | | | |done].
  - by apply poly_wf_cons.
  - intros σ. simpl. rewrite Hv. lex_ring.
  - intros v. rewrite !keys_cons, !elem_of_cons, Hk. split; [|tauto].
    intros [->|?]; tauto.
  - intros v. rewrite keys_cons, elem_of_cons, Ha. split; [|tauto].
    intros [? ?]. split; [done|]. intros [->|?]; tauto.
  - intros v Hin. rewrite keys_cons, elem_of_cons. apply Hr in Hin. tauto.
Qed.

Lemma merged_add c o my other p ev : nval c ≠ 0%Qc → poly_wf (o :: other) → below (var o) my →
  merged c my other p ev →
  merged c my (o :: other) (MkTerm (var o) (n_mul (coeff o) c) :: p) (Added (var o) :: ev).
Proof.
  intros Hc (Hf & H0 & Ho)%poly_wf_cons Hb Hm.
  destruct (merged_below c my other p ev (var o) Hm Hb Hf) as (Hp & N1 & N2 & N3 & N4 & N5).
  destruct Hm as [Hw Hv Hk Ha Hr Hn]. constructor.
  - apply poly_wf_cons. split; [done|]. split; [|done]. simpl. rewrite n_mul_val.
    intros [?|?]%Qcmult_integral; done.
  - intros σ. simpl. rewrite Hv, n_mul_val. lex_ring.
  - intros v. rewrite !keys_cons, !elem_of_cons, Hk. naive_solver.
  - intros v. rewrite keys_cons, !elem_of_cons, Ha. naive_solver.
  - intros v. rewrite keys_cons, !elem_of_cons. intros [[=]|Hin]. apply Hr in Hin. tauto.
  - csimpl. by constructor.
Qed.

Lemma merged_sum c m o my other p ev : poly_wf (m :: my) → poly_wf (o :: other) → var m = var o →
  nval (n_add (coeff m) (n_mul (coeff o) c)) ≠ 0%Qc → merged c my other p ev →
  merged c (m :: my) (o :: other) (MkTerm (var m) (n_add (coeff m) (n_mul (coeff o) c)) :: p) ev.
Proof.
  intros (Hf & _ & _)%poly_wf_cons (Hg & _ & _)%poly_wf_cons E H0 Hm. rewrite <- E in Hg.
  destruct (merged_below c my other p ev (var m) Hm Hf Hg) as (Hp & N1 & N2 & N3 & N4 & N5).
  destruct Hm as [Hw Hv Hk Ha Hr Hn]. constructor; [| | | | |done].
  - by apply poly_wf_cons.
  - intros σ. simpl. rewrite Hv, n_add_val, n_mul_val, <- E. lex_ring.
  - intros v. rewrite !keys_cons, !elem_of_cons, Hk. simpl. split; [|tauto]. intros [->|?]; tauto.
  - intros v. rewrite !keys_cons, !elem_of_cons, Ha, <- E. split; [|naive_solver].
    intros [? ?]. split; [tauto|]. intros [->|?]; tauto.
  - intros v Hin. rewrite !keys_cons, !elem_of_cons. apply Hr in Hin. tauto.
Qed.

Lemma merged_cancel c m o my other p ev : poly_wf (m :: my) → poly_wf (o :: other) → var m = var o →
  nval (n_add (coeff m) (n_mul (coeff o) c)) = 0%Qc → merged c my other p ev →
  merged c (m :: my) (o :: other) p (Removed (var m) :: ev).
Proof.
  intros (Hf & _ & _)%poly_wf_cons (Hg & _ & _)%poly_wf_cons E H0 Hm. rewrite <- E in Hg.
  destruct (merged_below c my other p ev (var m) Hm Hf Hg) as (Hp & N1 & N2 & N3 & N4 & N5).
  destruct Hm as [Hw Hv Hk Ha Hr Hn]. constructor.
  - done.
  - intros σ. simpl. rewrite Hv, <- E.
    rewrite n_add_val, n_mul_val in H0.
    assert (nval (coeff m) = - (nval (coeff o) * nval c))%Qc as ->
      by (rewrite <- (Qcplus_0_r (nval (coeff m))); rewrite <- (Qcplus_opp_r (nval (coeff o) * nval c));
          rewrite Qcplus_assoc, H0; ring).
    lex_ring.
  - intros v. rewrite !keys_cons, !elem_of_cons, Hk. split; [|naive_solver].
    intros [[? ?]|?]; [left|right; by right]. split; [by right|]. intros [[= ->]|?]; done.
  - intros v. rewrite !keys_cons, !elem_of_cons, Ha, <- E. split; [|naive_solver].
    intros [[=]|[? ?]]. split; [tauto|]. intros [->|?]; tauto.
  - intros v. rewrite !keys_cons, !elem_of_cons. intros [[= ->]|Hin]; [tauto|]. apply Hr in Hin. tauto.
  - csimpl. by constructor.
Qed.

(** The run of the loop is the computation of a [merged] polynomial and the
    calls of the hooks, in order. *)
Definition merge_runs c my other : Prop := ∃ p ev, merged c my other p ev
  ∧ ∀ (S : Type) (fa fr : LVRef → S → res S) s,
      merge_loop fa fr c my other s = let! s' := run_events fa fr s ev in Ok (p, s').

Lemma merge_loop_nil {S} (fa fr : LVRef → S → res S) c my s : merge_loop fa fr c my [] s = Ok (my, s).
Proof. by destruct my. Qed.

Lemma merge_rest_runs c other : nval c ≠ 0%Qc → poly_wf other → merge_runs c [] other.
Proof.
  intros Hc. induction other as [|o other IH]; intros Ho.
  - exists [], []. split; [by apply merged_nil, poly_wf_nil | done].
  - pose proof Ho as (_ & _ & Ho')%poly_wf_cons. destruct (IH Ho') as (p & ev & Hm & Hr).
    eexists _, _. split; [apply merged_add; [done..|constructor|exact Hm]|].
    intros S fa fr s. rewrite run_events_cons. simpl. destruct (fa (var o) s) as [s'|e]; [|done]. simpl.
    specialize (Hr S fa fr s'). simpl in Hr. rewrite Hr. by destruct (run_events fa fr s' ev).
Qed.

Lemma merge_loop_cons {S} (fa fr : LVRef → S → res S) c m o my other s :
  merge_loop fa fr c (m :: my) (o :: other) s =
    if TermCmp m o then
      let! r := merge_loop fa fr c my (o :: other) s in Ok (m :: r.1, r.2)
    else if TermCmp o m then
      let! s := fa (var o) s in
      let! r := merge_loop fa fr c (m :: my) other s in
      Ok (MkTerm (var o) (n_mul (coeff o) c) :: r.1, r.2)
    else
      let! _ := check (var m =? var o) in
      let tmp := n_mul (coeff o) c in
      let sum := n_add (coeff m) tmp in
      if n_isZero sum then
        let! s := fr (var m) s in
        merge_loop fa fr c my other s
      else
        let! r := merge_loop fa fr c my other s in
        Ok (MkTerm (var m) sum :: r.1, r.2).
Proof. done. Qed.

Lemma merge_loop_runs c my other : nval c ≠ 0%Qc → poly_wf my → poly_wf other → merge_runs c my other.
Proof.
  intros Hc. revert other. induction my as [|m my IHm]; intros other Hmy Ho.
  { by apply merge_rest_runs. }
  induction other as [|o other IHo].
  { exists (m :: my), []. split; [by apply merged_nil | done]. }
  pose proof Hmy as (Hf & _ & Hmy')%poly_wf_cons. pose proof Ho as (Hg & _ & Ho')%poly_wf_cons.
  destruct (Nat.lt_trichotomy (var m) (var o)) as [Hl|[E|Hl]].
  - destruct (IHm (o :: other) Hmy' Ho) as (p & ev & Hm & Hr).
    eexists _, _. split; [apply merged_keep; [done| |exact Hm]|].
    { constructor; [done|]. by apply (below_trans (var m) (var o)); [lia|]. }
    intros S fa fr s. rewrite merge_loop_cons. unfold TermCmp. rewrite (proj2 (Nat.ltb_lt _ _) Hl).
    rewrite Hr. by destruct (run_events fa fr s ev).
  - destruct (IHm other Hmy' Ho') as (p & ev & Hm & Hr).
    destruct (n_isZero (n_add (coeff m) (n_mul (coeff o) c))) eqn:Ez.
    + eexists _, _. split; [apply merged_cancel; [done..| |exact Hm]; by apply n_isZero_val|].
      intros S fa fr s. rewrite merge_loop_cons. unfold TermCmp.
      rewrite E, Nat.ltb_irrefl, Nat.eqb_refl, Ez. rewrite run_events_cons. simpl.
      destruct (fr (var o) s) as [s'|e]; [|done]. simpl. apply Hr.
    + eexists _, _. split; [apply merged_sum; [done..| |exact Hm];
        intros E0; apply n_isZero_val in E0; congruence|].
      intros S fa fr s. rewrite merge_loop_cons. unfold TermCmp.
      rewrite E, Nat.ltb_irrefl, Nat.eqb_refl, Ez. simpl. rewrite Hr.
      by destruct (run_events fa fr s ev).
  - destruct (IHo Ho') as (p & ev & Hm & Hr).
    eexists _, _. split; [apply merged_add; [done..| |exact Hm]|].
    { constructor; [done|]. by apply (below_trans (var o) (var m)); [lia|]. }
    intros S fa fr s. rewrite merge_loop_cons. unfold TermCmp.
    rewrite (proj2 (Nat.ltb_ge _ _)) by lia. rewrite (proj2 (Nat.ltb_lt _ _) Hl), run_events_cons. cbn [rbind].
    destruct (fa (var o) s) as [s'|e]; [|done]. cbn [rbind]. rewrite Hr.
    by destruct (run_events fa fr s' ev).
Qed.

Lemma store_back_id my p : store_back my p (length p) = p.
Proof.
  unfold store_back. rewrite firstn_all. destruct (_ <? _); [apply take_drop|].
  destruct (_ <=? _); [|done]. by rewrite take_app_length.
Qed.

Lemma merge_ok c my other : nval c ≠ 0%Qc → poly_wf my → poly_wf other →
  ∃ p ev, merged c my other p ev ∧ ∀ (S : Type) (fa fr : LVRef → S → res S) s,
    merge fa fr c my other s = let! s' := run_events fa fr s ev in Ok (p, s').
Proof.
  intros Hc Hmy Ho. destruct (merge_loop_runs c my other Hc Hmy Ho) as (p & ev & Hm & Hr).
  exists p, ev. split; [done|]. intros S fa fr s. unfold merge. rewrite Hr.
  destruct (run_events fa fr s ev); [|done]. simpl. by rewrite store_back_id.
Qed.

Lemma run_events_id ev : run_events (λ _ s, Ok s) (λ _ s, Ok s) tt ev = Ok tt.
Proof. induction ev as [|[v|v] ev IH]; [done|exact IH..]. Qed.

Lemma merge_simple_ok c my other : nval c ≠ 0%Qc → poly_wf my → poly_wf other →
  ∃ p ev, merge_simple my other c = Ok p ∧ merged c my other p ev.
Proof.
  intros Hc Hmy Ho. destruct (merge_ok c my other Hc Hmy Ho) as (p & ev & Hm & Hr).
  exists p, ev. split; [|done]. unfold merge_simple. rewrite Hr, run_events_id. done.
Qed.

End merge.
