(* ===== verification/Tableau.v ===== *)
(** * The tableau of the simplex solver

    Tableau.h, Tableau.cc.  A basic variable has a row, a polynomial over the
    non-basic variables; a non-basic variable has a column, the list of the
    basic variables whose row mentions it.  A quasi-basic variable is a basic
    one without bounds: its row is kept but left out of the columns, so that
    pivoting does not update it.

    The file holds the operations; TableauFacts.v proves that they keep the
    data consistent and the set of solutions of the rows unchanged. *)
From S2P Require Import Prelude Gmp FastRationalInt Number Lex Delta Polynomial.
From Stdlib Require Import Lia.

#[local] Open Scope nat_scope.

Inductive VarType : Type := NONE | BASIC | NONBASIC | QUASIBASIC.
#[global] Instance VarType_eq_dec : EqDecision VarType.
Proof. solve_decision. Defined.

(** ** Columns *)

Abbreviation Column := (list LVRef).

Definition Column_addRow (c : Column) (row : LVRef) : Column := c ++ [row].

(** [std::find] from the back: the position of the last occurrence. *)
Fixpoint rfind (c : Column) (row : LVRef) : option nat :=
  match c with
  | [] => None
  | r :: c =>
      match rfind c row with
      | Some i => Some (S i)
      | None => if r =? row then Some 0 else None
      end
  end.

(** The row found is swapped with the last one, which is then dropped. *)
Definition Column_removeRow (c : Column) (row : LVRef) : res Column :=
  match rfind c row with
  | None => Err Assertion_failed
  | Some it =>
      let! last := at_ c (length c - 1) in
      let! c := upd c it last in
      Ok (take (length c - 1) c)
  end.

Definition Column_find (c : Column) (row : LVRef) : bool := bool_decide (row ∈ c).

Section tableau.
Context {N : Type} `{Number N}.

Record Tableau : Type := MkTableau {
  cols : list (option Column);
  rows : list (option (poly_t N));
  varTypes : list VarType;
}.

Definition Tableau_init : Tableau := MkTableau [] [] [].
Definition Tableau_clear (t : Tableau) : Tableau := MkTableau [] [] [].

Definition with_cols (t : Tableau) c : Tableau := MkTableau c (rows t) (varTypes t).
Definition with_rows (t : Tableau) r : Tableau := MkTableau (cols t) r (varTypes t).

(** [varTypes[getVarId(v)] = ty] *)
Definition set_type (v : LVRef) (ty : VarType) (t : Tableau) : res Tableau :=
  let! l := upd (varTypes t) v ty in Ok (MkTableau (cols t) (rows t) l).

Definition has_type (t : Tableau) (v : LVRef) (ty : VarType) : bool :=
  bool_decide (varTypes t !! v = Some ty).

Definition isBasic (t : Tableau) (v : LVRef) : bool := has_type t v BASIC.
Definition isNonBasic (t : Tableau) (v : LVRef) : bool := has_type t v NONBASIC.
Definition isQuasiBasic (t : Tableau) (v : LVRef) : bool := has_type t v QUASIBASIC.
Definition isProcessed (t : Tableau) (v : LVRef) : bool :=
  match varTypes t !! v with Some ty => negb (bool_decide (ty = NONE)) | None => false end.

(** ** Access *)

Definition getRowPoly (t : Tableau) (v : LVRef) : res (poly_t N) :=
  let! r := at_ (rows t) v in
  match r with Some p => Ok p | None => Err Assertion_failed end.

Definition getColumn (t : Tableau) (v : LVRef) : res Column :=
  let! c := at_ (cols t) v in
  match c with Some c => Ok c | None => Err Assertion_failed end.

Definition getNumOfCols (t : Tableau) : nat := length (cols t).

Definition getPolySize (t : Tableau) (v : LVRef) : res nat :=
  let! p := getRowPoly t v in Ok (size p).

Definition Tableau_getCoeff (t : Tableau) (basicVar nonBasicVar : LVRef) : res N :=
  let! p := getRowPoly t basicVar in getCoeff p nonBasicVar.

Definition set_row (v : LVRef) (p : poly_t N) (t : Tableau) : res Tableau :=
  let! l := upd (rows t) v (Some p) in Ok (with_rows t l).

Definition set_col (v : LVRef) (c : Column) (t : Tableau) : res Tableau :=
  let! l := upd (cols t) v (Some c) in Ok (with_cols t l).

Definition addRow (v : LVRef) (p : poly_t N) (t : Tableau) : res Tableau :=
  let! r := at_ (rows t) v in
  let! _ := check (bool_decide (r = None)) in
  set_row v p t.

Definition removeRow (v : LVRef) (t : Tableau) : res (poly_t N * Tableau) :=
  let! p := getRowPoly t v in
  let! l := upd (rows t) v None in
  Ok (p, with_rows t l).

Definition moveRowFromTo (from to : LVRef) (t : Tableau) : res Tableau :=
  let! r := at_ (rows t) to in
  let! _ := check (bool_decide (r = None)) in
  let! p := getRowPoly t from in
  let! l := upd (rows t) to (Some p) in
  let! l := upd l from None in
  Ok (with_rows t l).

Definition moveColFromTo (from to : LVRef) (t : Tableau) : res Tableau :=
  let! c := at_ (cols t) to in
  let! _ := check (bool_decide (c = None)) in
  let! c := getColumn t from in
  let! l := upd (cols t) to (Some c) in
  let! l := upd l from None in
  Ok (with_cols t l).

Definition addRowToColumn (row col : LVRef) (t : Tableau) : res Tableau :=
  let! c := getColumn t col in set_col col (Column_addRow c row) t.

Definition removeRowFromColumn (row col : LVRef) (t : Tableau) : res Tableau :=
  let! c := getColumn t col in
  let! c := Column_removeRow c row in
  set_col col c t.

Definition clearColumn (col : LVRef) (t : Tableau) : res Tableau :=
  let! _ := getColumn t col in set_col col [] t.

(** The list returned starts with one default-constructed reference for every
    variable: the vector is resized before the variables are appended. *)
Definition getNonBasicVars (t : Tableau) : list LVRef :=
  replicate (length (varTypes t)) 0 ++
  filter (λ i, varTypes t !! i = Some NONBASIC) (seq 0 (length (varTypes t))).

(** ** New variables and rows *)

Definition ensureTableauReadyFor (v : LVRef) (t : Tableau) : Tableau :=
  MkTableau (grow (cols t) v None) (grow (rows t) v None) (grow (varTypes t) v NONE).

Definition newNonbasicVar (v : LVRef) (t : Tableau) : res Tableau :=
  let! _ := check (negb (isProcessed t v)) in
  let t := ensureTableauReadyFor v t in
  let! c := at_ (cols t) v in
  let! _ := check (bool_decide (c = None)) in
  let! t := set_col v [] t in
  set_type v NONBASIC t.

Definition nonbasicVar (v : LVRef) (t : Tableau) : res Tableau :=
  if isProcessed t v then Ok t else newNonbasicVar v t.

(** Substitute the rows of the variables of [toEliminate] into the row of [v]. *)
Definition eliminate (v : LVRef) : Tableau → list LVRef → res Tableau :=
  foldM (λ t x,
    let! row := getRowPoly t v in
    let! r := removeVar row x in
    let! px := getRowPoly t x in
    let! row := merge_simple r.2 px r.1 in
    set_row v row t).

(** The recursion follows the quasi-basic variables of the row. *)
Fixpoint normalizeRow (fuel : nat) (v : LVRef) (t : Tableau) : res Tableau :=
  match fuel with
  | O => Err Out_of_fuel
  | S fuel =>
      let! _ := check (isQuasiBasic t v) in
      let! row := getRowPoly t v in
      let! r := foldM (λ (s : Tableau * list LVRef) (term : Term N),
          let! s :=
            (if isQuasiBasic s.1 (var term) then
               let! t := normalizeRow fuel (var term) s.1 in
               Ok (t, s.2 ++ [var term])
             else Ok s) in
          if isBasic s.1 (var term) then Ok (s.1, s.2 ++ [var term]) else Ok s) (t, []) row in
      eliminate v r.1 r.2
  end.

(** A recursion deeper than the number of rows would revisit one. *)
Definition normalize (v : LVRef) (t : Tableau) : res Tableau := normalizeRow (S (length (rows t))) v t.

Definition newRow (v : LVRef) (p : poly_t N) (t : Tableau) : res Tableau :=
  let! _ := check (negb (isProcessed t v)) in
  let t := ensureTableauReadyFor v t in
  let! t := addRow v p t in
  let! t := set_type v QUASIBASIC t in
  normalize v t.

Definition quasiToBasic (v : LVRef) (t : Tableau) : res Tableau :=
  let! _ := check (isQuasiBasic t v) in
  let! t := normalize v t in
  let! row := getRowPoly t v in
  let! t := foldM (λ t term, addRowToColumn v (var term) t) t row in
  let! t := set_type v BASIC t in
  let! _ := check (isBasic t v) in
  Ok t.

Definition basicToQuasi (v : LVRef) (t : Tableau) : res Tableau :=
  let! _ := check (isBasic t v) in
  let! t := set_type v QUASIBASIC t in
  let! _ := check (isQuasiBasic t v) in
  let! row := getRowPoly t v in
  foldM (λ t term,
    let! _ := check (isNonBasic t (var term)) in
    removeRowFromColumn v (var term) t) t row.

(** ** Pivoting *)

(** The row of [bv], solved for [nv]. *)
Definition solve_row (bv nv : LVRef) (p : poly_t N) : res (poly_t N) :=
  let! r := removeVar p nv in
  let coeff := r.1 in
  let! q := if n_isOne coeff then Ok r.2 else divideBy r.2 coeff in
  let q := poly_negate q in
  let! inv := n_inverse coeff in
  addTerm q bv inv.

(** The hooks of the merge into [rowVar] keep the columns. *)
Definition informAdded (bv rowVar addedVar : LVRef) (t : Tableau) : res Tableau :=
  if addedVar =? bv then Ok t
  else
    let! c := getColumn t addedVar in
    let! _ := check (negb (Column_find c rowVar)) in
    addRowToColumn rowVar addedVar t.

Definition informRemoved (rowVar removedVar : LVRef) (t : Tableau) : res Tableau :=
  let! c := getColumn t removedVar in
  let! _ := check (Column_find c rowVar) in
  removeRowFromColumn rowVar removedVar t.

(** Substitute [nvPoly] for [nv] in the row of [rowVar]. *)
Definition substitute (bv nv : LVRef) (nvPoly : poly_t N) (t : Tableau) (rowVar : LVRef) : res Tableau :=
  if (rowVar =? nv) || isQuasiBasic t rowVar then Ok t
  else
    let! poly := getRowPoly t rowVar in
    let! r := removeVar poly nv in
    let! m := merge (informAdded bv rowVar) (informRemoved rowVar) r.1 r.2 nvPoly t in
    set_row rowVar m.1 m.2.

Definition pivot (bv nv : LVRef) (t : Tableau) : res Tableau :=
  let! _ := check (isBasic t bv) in
  let! _ := check (isNonBasic t nv) in
  let! t := set_type bv NONBASIC t in
  let! t := set_type nv BASIC t in
  let! _ := getColumn t nv in
  let! c := at_ (cols t) bv in
  let! _ := check (bool_decide (c = None)) in
  let! p := getRowPoly t bv in
  let! r := at_ (rows t) nv in
  let! _ := check (bool_decide (r = None)) in
  let! nvPoly := solve_row bv nv p in
  let! t := set_row bv nvPoly t in
  let! t := moveRowFromTo bv nv t in
  let! t := moveColFromTo nv bv t in
  let! nvPoly := getRowPoly t nv in
  let! t := foldM (λ t term,
      let! t := removeRowFromColumn bv (var term) t in
      addRowToColumn nv (var term) t) t nvPoly in
  let! c := getColumn t bv in
  let! t := foldM (substitute bv nv nvPoly) t c in
  let! c := at_ (cols t) nv in
  let! _ := check (bool_decide (c = None)) in
  let! _ := getColumn t bv in
  let! r := at_ (rows t) bv in
  let! _ := check (bool_decide (r = None)) in
  let! _ := getRowPoly t nv in
  Ok t.

(** ** The consistency check of debug builds *)

Definition consistent_col (t : Tableau) (i : LVRef) : res unit :=
  if isNonBasic t i then
    let! c := getColumn t i in
    foldM (λ _ row, let! p := getRowPoly t row in check (contains p i)) tt c
  else let! c := at_ (cols t) i in check (bool_decide (c = None)).

Definition consistent_row (t : Tableau) (i : LVRef) : res unit :=
  if isQuasiBasic t i then Ok tt
  else
    let! r := at_ (rows t) i in
    match r with
    | None => check (isNonBasic t i)
    | Some p =>
        let! _ := check (isBasic t i) in
        foldM (λ _ term,
          let! _ := check (isNonBasic t (var term)) in
          let! c := getColumn t (var term) in
          check (Column_find c i)) tt p
    end.

Definition checkConsistency (t : Tableau) : res bool :=
  let! _ := foldM (λ _ i, consistent_col t i) tt (seq 0 (length (cols t))) in
  let! _ := foldM (λ _ i, consistent_row t i) tt (seq 0 (length (rows t))) in
  Ok true.

End tableau.

Arguments Tableau N : clear implicits.
