(* ===== verification/TableauFacts.v ===== *)
(** * The tableau stays consistent

    A tableau is seen as a number of variables, a map from variables to rows,
    a relation between columns and the rows they list, and a map to types.
    The operations of Tableau.v are specified on this view: they keep the
    invariant [tab_inv], never fail under it, and keep the solutions of the
    system of equations that the rows are.
    The second part shows what a pivot does to the rows. *)
From S2P Require Import Prelude Gmp FastRationalInt Number Lex Delta Polynomial Tableau.
From Stdlib Require Import Lia.

#[local] Open Scope nat_scope.

(** ** Columns as sets of rows *)

Lemma Column_addRow_ok c r : NoDup c → r ∉ c →
  NoDup (Column_addRow c r) ∧ ∀ x, x ∈ Column_addRow c r ↔ x ∈ c ∨ x = r.
Proof.
  intros Hc Hr. unfold Column_addRow. split.
  - apply NoDup_app. split; [done|]. split; [|apply NoDup_singleton]. set_solver.
  - set_solver.
Qed.

Lemma rfind_Some c r : r ∈ c → ∃ i, rfind c r = Some i ∧ c !! i = Some r.
Proof.
  induction c as [|x c IH]; [by intros ?%not_elem_of_nil|]. rewrite elem_of_cons. simpl.
  destruct (rfind c r) as [j|] eqn:E.
  - intros _. exists (S j). split; [done|]. simpl.
    destruct (decide (r ∈ c)) as [Hin|Hn].
    + destruct (IH Hin) as (i & [= ->] & Hi). done.
    + exfalso. clear IH. revert j E Hn. induction c as [|y c IH]; intros j; simpl; [done|].
      destruct (rfind c r) as [k|]; [intros _ Hn; apply (IH k); [done|set_solver]|].
      destruct (Nat.eqb_spec y r); [set_solver | done].
  - intros [->|Hin]; [|by destruct (IH Hin) as (i & [=] & _)].
    rewrite Nat.eqb_refl. by exists 0.
Qed.

Lemma Column_removeRow_ok c r : r ∈ c → ∃ c', Column_removeRow c r = Ok c' ∧ c ≡ₚ r :: c'.
Proof.
  intros Hr. unfold Column_removeRow. destruct (rfind_Some c r Hr) as (i & -> & Hi).
  destruct (exists_last (l := c)) as (l & x & ->); [by intros ->; apply not_elem_of_nil in Hr|].
  rewrite length_app. simpl. rewrite Nat.add_sub.
  assert (at_ (l ++ [x]) (length l) = Ok x) as -> by (unfold at_; by rewrite (list_lookup_middle l [] x)).
  simpl. pose proof (lookup_lt_Some _ _ _ Hi) as Hl. rewrite length_app in Hl. simpl in Hl.
  unfold upd. rewrite length_app. simpl. rewrite (proj2 (Nat.ltb_lt _ _) Hl). simpl.
  eexists. split; [done|]. destruct (decide (i = length l)) as [->|Hne].
  - assert (x = r) as -> by (rewrite (list_lookup_middle l [] x) in Hi by done; congruence).
    rewrite insert_app_r_alt, Nat.sub_diag by lia. simpl.
    rewrite length_app, Nat.add_sub, (take_app_length l). by rewrite Permutation_app_comm.
  - rewrite insert_app_l by lia. rewrite length_app, Nat.add_sub, take_app_le by (rewrite length_insert; lia).
    rewrite take_ge by (rewrite length_insert; lia).
    rewrite lookup_app_l in Hi by lia. apply list_elem_of_split_length in Hi as (l1 & l2 & -> & ->).
    rewrite insert_app_r_alt, Nat.sub_diag by lia. simpl.
    rewrite <- app_assoc. simpl. solve_Permutation.
Qed.

Lemma Column_removeRow_set c r : NoDup c → r ∈ c →
  ∃ c', Column_removeRow c r = Ok c' ∧ NoDup c' ∧ ∀ x, x ∈ c' ↔ x ∈ c ∧ x ≠ r.
Proof.
  intros Hc Hr. destruct (Column_removeRow_ok c r Hr) as (c' & -> & Hp). exists c'.
  pose proof Hc as Hc'. rewrite Hp in Hc'. apply NoDup_cons in Hc' as [Hn Hc'].
  split; [done|]. split; [done|]. intros x. rewrite Hp, elem_of_cons. split; [|tauto].
  intros Hx. split; [tauto|]. by intros ->.
Qed.

(** ** The view *)

Definition fupd {A} (f : LVRef → A) (v : LVRef) (x : A) : LVRef → A :=
  λ u, if decide (u = v) then x else f u.

Section view.
Context {N : Type} `{Number N}.
Implicit Types (t : Tableau N) (u v x r : LVRef) (p q : poly_t N).

Definition row_of t v : option (poly_t N) := mjoin (rows t !! v).
Definition col_of t v : option Column := mjoin (cols t !! v).
Definition type_of t v : VarType := default NONE (varTypes t !! v).

Record view t (n : nat) (R : LVRef → option (poly_t N)) (D : LVRef → Prop)
    (P : LVRef → LVRef → Prop) (T : LVRef → VarType) : Prop := {
  view_cols : length (cols t) = n;
  view_rows : length (rows t) = n;
  view_types : length (varTypes t) = n;
  view_row v : row_of t v = R v;
  view_type v : type_of t v = T v;
  view_dom v : is_Some (col_of t v) ↔ D v;
  view_col v c : col_of t v = Some c → NoDup c ∧ ∀ r, r ∈ c ↔ P v r;
}.

(** The variables a row is read in the column of. *)
Definition mentions (R : LVRef → option (poly_t N)) (T : LVRef → VarType) (u r : LVRef) : Prop :=
  T r = BASIC ∧ ∃ p, R r = Some p ∧ u ∈ keys p.

(** An order of the quasi-basic variables: the row of one only refers to
    later ones. *)
Record quasi_order (n : nat) (R : LVRef → option (poly_t N)) (T : LVRef → VarType) (l : list LVRef) : Prop := {
  qo_all v : T v = QUASIBASIC → v ∈ l;
  qo_nodup : NoDup l;
  qo_range v : v ∈ l → v < n;
  qo_later l1 v l2 p u : l = l1 ++ v :: l2 → R v = Some p → u ∈ keys p → T u = QUASIBASIC → u ∈ l2;
}.

Record tab_ok (n : nat) (R : LVRef → option (poly_t N)) (T : LVRef → VarType) : Prop := {
  ok_range v : T v ≠ NONE → v < n;
  ok_row v : is_Some (R v) ↔ T v = BASIC ∨ T v = QUASIBASIC;
  ok_poly v p : R v = Some p → poly_wf p;
  ok_vars v p u : R v = Some p → u ∈ keys p → T u ≠ NONE;
  ok_basic v p u : T v = BASIC → R v = Some p → u ∈ keys p → T u = NONBASIC;
}.

(** The view of a tableau by its own rows and types. *)
Definition tab_view t : Prop :=
  view t (length (varTypes t)) (row_of t) (λ v, type_of t v = NONBASIC)
       (mentions (row_of t) (type_of t)) (type_of t).

Record tab_inv t : Prop := {
  ti_view : tab_view t;
  ti_ok : tab_ok (length (varTypes t)) (row_of t) (type_of t);
  ti_quasi : ∃ l, quasi_order (length (varTypes t)) (row_of t) (type_of t) l;
}.

(** The solutions of the equations. *)
Definition sat (R : LVRef → option (poly_t N)) (σ : LVRef → lexq) : Prop :=
  ∀ v p, R v = Some p → σ v = peval σ p.
Definition solution t (σ : LVRef → lexq) : Prop := sat (row_of t) σ.

Lemma sat_ext R R' σ : (∀ v, R v = R' v) → sat R σ ↔ sat R' σ.
Proof. intros E. unfold sat. split; intros Hs v p Hv; apply Hs; congruence. Qed.

Lemma view_lt_type t n R D P T v : view t n R D P T → T v ≠ NONE → v < n.
Proof.
  intros V Hv. rewrite <- (view_type _ _ _ _ _ _ V) in Hv. unfold type_of in Hv.
  destruct (varTypes t !! v) eqn:E; [|done]. apply lookup_lt_Some in E.
  by rewrite (view_types _ _ _ _ _ _ V) in E.
Qed.

Lemma has_type_iff t v ty : ty ≠ NONE → has_type t v ty = true ↔ type_of t v = ty.
Proof.
  intros Hty. unfold has_type, type_of. rewrite bool_decide_eq_true.
  destruct (varTypes t !! v); simpl; split; congruence.
Qed.

Lemma isBasic_iff t v : isBasic t v = true ↔ type_of t v = BASIC.
Proof. by apply has_type_iff. Qed.
Lemma isNonBasic_iff t v : isNonBasic t v = true ↔ type_of t v = NONBASIC.
Proof. by apply has_type_iff. Qed.
Lemma isQuasiBasic_iff t v : isQuasiBasic t v = true ↔ type_of t v = QUASIBASIC.
Proof. by apply has_type_iff. Qed.
Lemma isProcessed_iff t v : isProcessed t v = true ↔ type_of t v ≠ NONE.
Proof.
  unfold isProcessed, type_of. destruct (varTypes t !! v) as [ty|]; simpl; [|done].
  rewrite negb_true_iff, bool_decide_eq_false. done.
Qed.

Lemma not_true_eq (b : bool) (P : Prop) : (b = true ↔ P) → ¬ P → b = false.
Proof. intros <-. apply not_true_is_false. Qed.

(** ** The accessors under a view *)

Section access.
Context (E : error → Prop) {A : Type} (Q : A → Prop) t n R D P T (V : view t n R D P T).

Lemma getRowPoly_wp v p (k : poly_t N → res A) : R v = Some p → wp E Q (k p) → wp E Q (rbind (getRowPoly t v) k).
Proof.
  intros Hv Hk. rewrite <- (view_row _ _ _ _ _ _ V) in Hv. unfold row_of in Hv. unfold getRowPoly, at_.
  destruct (rows t !! v) as [[p'|]|]; simpl in *; congruence.
Qed.

Lemma getColumn_wp v (k : Column → res A) : D v →
  (∀ c, NoDup c → (∀ r, r ∈ c ↔ P v r) → wp E Q (k c)) → wp E Q (rbind (getColumn t v) k).
Proof.
  intros Hv Hk. apply (view_dom _ _ _ _ _ _ V) in Hv as [c Hc].
  pose proof (view_col _ _ _ _ _ _ V v c Hc) as [Hn Hm]. specialize (Hk c Hn Hm).
  unfold col_of in Hc. unfold getColumn, at_.
  destruct (cols t !! v) as [[c'|]|]; simpl in *; congruence.
Qed.

Lemma at_rows_wp v (k : option (poly_t N) → res A) : v < n → wp E Q (k (R v)) → wp E Q (rbind (at_ (rows t) v) k).
Proof.
  intros Hv Hk. rewrite <- (view_row _ _ _ _ _ _ V) in Hk. unfold row_of, at_ in *.
  rewrite <- (view_rows _ _ _ _ _ _ V) in Hv. apply lookup_lt_is_Some in Hv as [o Ho].
  rewrite Ho in *. done.
Qed.

Lemma at_cols_wp v (k : option Column → res A) : v < n → ¬ D v → wp E Q (k None) → wp E Q (rbind (at_ (cols t) v) k).
Proof.
  intros Hv HD Hk. unfold at_ in *. rewrite <- (view_cols _ _ _ _ _ _ V) in Hv.
  pose proof (view_dom _ _ _ _ _ _ V v) as Hd. unfold col_of in Hd.
  apply lookup_lt_is_Some in Hv as [o Ho]. rewrite Ho in *. destruct o; [|done].
  exfalso. apply HD, Hd. simpl. eauto.
Qed.

End access.

(** ** The updates *)

Lemma list_mjoin_insert {B} (l : list (option B)) i o u : i < length l →
  mjoin (<[i := o]> l !! u) = if decide (u = i) then o else mjoin (l !! u).
Proof.
  intros Hi. destruct (decide (u = i)) as [->|Hne].
  - by rewrite list_lookup_insert_eq.
  - by rewrite list_lookup_insert_ne.
Qed.

Section updates.
Context (E : error → Prop) t n (R : LVRef → option (poly_t N)) (D : LVRef → Prop)
  (P : LVRef → LVRef → Prop) (T : LVRef → VarType) (V : view t n R D P T).

Lemma set_type_wp v ty : v < n → wp E (λ t', view t' n R D P (fupd T v ty)) (set_type v ty t).
Proof.
  intros Hv. destruct V as [V1 V2 V3 V4 V5 V6 V7]. unfold set_type, upd.
  rewrite (proj2 (Nat.ltb_lt _ _)) by lia. simpl. constructor; simpl; try done.
  - by rewrite length_insert.
  - intros u. unfold type_of, fupd in *. simpl. destruct (decide (u = v)) as [->|].
    + by rewrite list_lookup_insert_eq by lia.
    + rewrite list_lookup_insert_ne by done. apply V5.
Qed.

Lemma put_rows_view v o : v < n → view (with_rows t (<[v := o]> (rows t))) n (fupd R v o) D P T.
Proof.
  intros Hv. destruct V as [V1 V2 V3 V4 V5 V6 V7]. constructor; simpl; try done.
  - by rewrite length_insert.
  - intros u. unfold row_of, fupd in *. simpl. rewrite list_mjoin_insert by lia. by rewrite V4.
Qed.

Lemma set_row_wp v p : v < n → wp E (λ t', view t' n (fupd R v (Some p)) D P T) (set_row v p t).
Proof.
  intros Hv. unfold set_row, upd. rewrite (view_rows _ _ _ _ _ _ V), (proj2 (Nat.ltb_lt _ _)) by lia.
  by apply put_rows_view.
Qed.

Lemma put_cols_view v c (P' : LVRef → Prop) : v < n → NoDup c → (∀ r, r ∈ c ↔ P' r) →
  view (with_cols t (<[v := Some c]> (cols t))) n R (λ u, u = v ∨ D u) (fupd P v P') T.
Proof.
  intros Hv Hc Hm. destruct V as [V1 V2 V3 V4 V5 V6 V7]. constructor; simpl; try done.
  - by rewrite length_insert.
  - intros u. unfold col_of in *. simpl. rewrite list_mjoin_insert by lia.
    destruct (decide (u = v)) as [->|]; [split; [by left | eauto] | rewrite V6; tauto].
  - intros u c'. unfold col_of, fupd in *. simpl. rewrite list_mjoin_insert by lia.
    destruct (decide (u = v)) as [->|]; [by intros [= <-] | apply V7].
Qed.

Lemma set_col_wp v c (P' : LVRef → Prop) : v < n → NoDup c → (∀ r, r ∈ c ↔ P' r) →
  wp E (λ t', view t' n R (λ u, u = v ∨ D u) (fupd P v P') T) (set_col v c t).
Proof.
  intros Hv Hc Hm. unfold set_col, upd. rewrite (view_cols _ _ _ _ _ _ V), (proj2 (Nat.ltb_lt _ _)) by lia.
  by apply put_cols_view.
Qed.

End updates.

(** Views are the same up to the extension of what they mention. *)
Lemma view_ext t n R D P T R' (D' : LVRef → Prop) (P' : LVRef → LVRef → Prop) T' : view t n R D P T →
  (∀ v, R v = R' v) → (∀ v, D v ↔ D' v) → (∀ v r, D v → P v r ↔ P' v r) → (∀ v, T v = T' v) →
  view t n R' D' P' T'.
Proof.
  intros [V1 V2 V3 V4 V5 V6 V7] ER ED EP ET. constructor; try done.
  - intros v. by rewrite V4.
  - intros v. by rewrite V5.
  - intros v. by rewrite V6.
  - intros v c Hc. destruct (V7 v c Hc) as [Hn Hm]. split; [done|]. intros r. rewrite Hm. apply EP.
    apply V6. eauto.
Qed.

Lemma addRowToColumn_wp E t n R D P T u r : view t n R D P T → D u → ¬ P u r →
  wp E (λ t', view t' n R D (λ u' r', P u' r' ∨ u' = u ∧ r' = r) T) (addRowToColumn r u t).
Proof.
  intros V Hu Hr. unfold addRowToColumn. eapply getColumn_wp; [exact V|done|]. intros c Hc Hm.
  destruct (Column_addRow_ok c r Hc) as [Hn Hm']; [by rewrite Hm|].
  assert (u < n) as Hl.
  { apply (view_dom _ _ _ _ _ _ V) in Hu as [c' Hc']. unfold col_of in Hc'.
    destruct (cols t !! u) eqn:Eu; [|done]. apply lookup_lt_Some in Eu.
    by rewrite (view_cols _ _ _ _ _ _ V) in Eu. }
  eapply wp_mono; [by apply (set_col_wp E t n R D P T V u _ (λ x, P u x ∨ x = r)); [..|intros x; rewrite Hm', Hm]|].
  intros t' V'. eapply view_ext; [exact V'|done|naive_solver| |done].
  intros v x _. unfold fupd. destruct (decide (v = u)) as [->|]; naive_solver.
Qed.

Lemma removeRowFromColumn_wp E t n R D P T u r : view t n R D P T → D u → P u r →
  wp E (λ t', view t' n R D (λ u' r', P u' r' ∧ ¬ (u' = u ∧ r' = r)) T) (removeRowFromColumn r u t).
Proof.
  intros V Hu Hr. unfold removeRowFromColumn. eapply getColumn_wp; [exact V|done|]. intros c Hc Hm.
  destruct (Column_removeRow_set c r Hc) as (c' & -> & Hn & Hm'); [by apply Hm|]. simpl.
  assert (u < n) as Hl.
  { apply (view_dom _ _ _ _ _ _ V) in Hu as [d Hd]. unfold col_of in Hd.
    destruct (cols t !! u) eqn:Eu; [|done]. apply lookup_lt_Some in Eu.
    by rewrite (view_cols _ _ _ _ _ _ V) in Eu. }
  eapply wp_mono; [by apply (set_col_wp E t n R D P T V u _ (λ x, P u x ∧ x ≠ r)); [..|intros x; rewrite Hm', Hm]|].
  intros t' V'. eapply view_ext; [exact V'|done|naive_solver| |done].
  intros v x _. unfold fupd. destruct (decide (v = u)) as [->|]; naive_solver.
Qed.

(** ** Back to the tableau's own rows and types *)

Lemma view_self t n R D P T : view t n R D P T → (∀ v, D v ↔ T v = NONBASIC) →
  (∀ v r, D v → P v r ↔ mentions R T v r) →
  tab_view t ∧ length (varTypes t) = n ∧ (∀ v, row_of t v = R v) ∧ ∀ v, type_of t v = T v.
Proof.
  intros V HD HP. pose proof V as [V1 V2 V3 V4 V5 V6 V7]. split; [|done].
  unfold tab_view. rewrite V3. eapply view_ext; [exact V|done| | |done].
  - intros v. by rewrite HD, V5.
  - intros v r Hv. rewrite HP by done. unfold mentions. by rewrite V4, V5.
Qed.

Lemma tab_ok_ext n R T R' T' : tab_ok n R T → (∀ v, R v = R' v) → (∀ v, T v = T' v) → tab_ok n R' T'.
Proof.
  intros [O1 O2 O3 O4 O5] ER ET. constructor; intros *; rewrite <- ?ER, <- ?ET; eauto.
Qed.

Lemma quasi_order_ext n R T R' T' l : quasi_order n R T l → (∀ v, R v = R' v) → (∀ v, T v = T' v) →
  quasi_order n R' T' l.
Proof.
  intros [Q1 Q2 Q3 Q4] ER ET. constructor; intros *; rewrite <- ?ER, <- ?ET; eauto.
Qed.

(** ** Normalizing a quasi-basic row *)

Definition normal t v : Prop := ∀ p u, row_of t v = Some p → u ∈ keys p → type_of t u = NONBASIC.

(** What a substitution into rows of the set [S] keeps. *)
Record same_system (S : LVRef → Prop) t t' : Prop := {
  ss_view : tab_view t';
  ss_ok : tab_ok (length (varTypes t')) (row_of t') (type_of t');
  ss_size : length (varTypes t') = length (varTypes t);
  ss_type u : type_of t' u = type_of t u;
  ss_rows u : ¬ S u → row_of t' u = row_of t u;
  ss_sat σ : solution t' σ ↔ solution t σ;
}.

(** Moreover each row is as it was or refers to non-basic variables only, and
    the rows that already did are untouched. *)
Record normalized (S : LVRef → Prop) t t' : Prop := {
  nz_same : same_system S t t';
  nz_either u : row_of t' u = row_of t u ∨ normal t' u;
  nz_normal u : normal t u → row_of t' u = row_of t u;
}.

Lemma same_system_refl S t : tab_view t → tab_ok (length (varTypes t)) (row_of t) (type_of t) →
  same_system S t t.
Proof. by constructor. Qed.

Lemma same_system_trans S S' t1 t2 t3 : same_system S t1 t2 → same_system S' t2 t3 → (∀ u, S' u → S u) →
  same_system S t1 t3.
Proof.
  intros [] [] HS. constructor; try done.
  - congruence.
  - intros u. congruence.
  - intros u Hu. rewrite ss_rows1; [by apply ss_rows0 | auto].
  - intros σ. by rewrite ss_sat1, ss_sat0.
Qed.

Lemma normal_same t t' u : row_of t' u = row_of t u → (∀ x, type_of t' x = type_of t x) →
  normal t u → normal t' u.
Proof. unfold normal. intros -> HT Hn p x Hp Hx. rewrite HT. by eapply Hn. Qed.

Lemma normalized_trans S S' t1 t2 t3 : normalized S t1 t2 → normalized S' t2 t3 → (∀ u, S' u → S u) →
  normalized S t1 t3.
Proof.
  intros [S1 E1 N1] [S2 E2 N2] HS. constructor.
  - by eapply same_system_trans.
  - intros u. destruct (E2 u) as [E|]; [|by right]. destruct (E1 u) as [E'|Hn]; [left; congruence|].
    right. by apply (normal_same t2); [done|apply (ss_type _ _ _ S2)|].
  - intros u Hu. rewrite <- (N1 u Hu). apply N2. apply (normal_same t1); [by apply N1| |done].
    apply (ss_type _ _ _ S1).
Qed.

Lemma normalized_weaken (S S' : LVRef → Prop) t t' : normalized S t t' → (∀ u, S u → S' u) → normalized S' t t'.
Proof.
  intros [[] E1 N1] HS. constructor; [|done..]. constructor; try done. auto.
Qed.

Lemma normalized_order S t t' l : normalized S t t' →
  quasi_order (length (varTypes t)) (row_of t) (type_of t) l →
  quasi_order (length (varTypes t')) (row_of t') (type_of t') l.
Proof.
  intros [Hs He _] [Q1 Q2 Q3 Q4]. pose proof (ss_type _ _ _ Hs) as ET. rewrite (ss_size _ _ _ Hs).
  constructor; [intros v; rewrite ET; auto|done|done|].
  intros l1 v l2 p u El Hp Hu. rewrite ET. intros HT. destruct (He v) as [E|Hn].
  - rewrite E in Hp. by eapply Q4.
  - pose proof (Hn p u Hp Hu) as E. rewrite ET in E. congruence.
Qed.

(** Replacing the row of a quasi-basic variable does not touch the columns. *)
Lemma set_quasi_row_wp E t v p : tab_view t → tab_ok (length (varTypes t)) (row_of t) (type_of t) →
  type_of t v = QUASIBASIC → poly_wf p → (∀ u, u ∈ keys p → type_of t u ≠ NONE) →
  wp E (λ t', tab_view t' ∧ tab_ok (length (varTypes t')) (row_of t') (type_of t')
    ∧ length (varTypes t') = length (varTypes t) ∧ (∀ u, type_of t' u = type_of t u)
    ∧ (∀ u, row_of t' u = if decide (u = v) then Some p else row_of t u)) (set_row v p t).
Proof.
  intros V O HT Hp Hv. assert (v < length (varTypes t)) as Hl by (apply (ok_range _ _ _ O); congruence).
  eapply wp_mono; [by apply (set_row_wp E t _ _ _ _ _ V)|]. intros t' V'.
  apply view_self in V' as (V' & En & ER & ET); [|done|].
  - split; [done|]. split; [|done]. destruct O as [O1 O2 O3 O4 O5]. rewrite En.
    apply (tab_ok_ext _ (fupd (row_of t) v (Some p)) (type_of t)); [|done|done].
    constructor; [done| | | |]; intros u; unfold fupd; destruct (decide (u = v)) as [->|]; try done.
    + split; [auto | eauto].
    + by intros q [= <-].
    + apply O3.
    + intros x y [= <-]. auto.
    + apply O4.
    + congruence.
    + apply O5.
  - intros u r _. unfold mentions, fupd. destruct (decide (r = v)) as [->|]; [|done].
    split; intros [? _]; congruence.
Qed.

Lemma sat_replace (R R' : LVRef → option (poly_t N)) v p p' σ :
  R v = Some p → (∀ u, R' u = if decide (u = v) then Some p' else R u) →
  ((∀ u q, u ≠ v → R u = Some q → σ u = peval σ q) → peval σ p' = peval σ p) →
  sat R' σ ↔ sat R σ.
Proof.
  intros Hv HR Hp. unfold sat. split; intros Hs.
  - assert (∀ u q, u ≠ v → R u = Some q → σ u = peval σ q) as Ho.
    { intros u q Hne Hu. apply Hs. rewrite HR. by rewrite decide_False. }
    intros u q Hu. destruct (decide (u = v)) as [->|Hne]; [|by apply Ho].
    rewrite Hv in Hu. injection Hu as <-. rewrite <- (Hp Ho). apply Hs. rewrite HR. by rewrite decide_True.
  - assert (peval σ p' = peval σ p) as E by (apply Hp; intros; by apply Hs).
    intros u q. rewrite HR. destruct (decide (u = v)) as [->|Hne]; [|apply Hs].
    intros [= <-]. rewrite E. by apply Hs.
Qed.

(** One variable is replaced by its row. *)
Lemma eliminate_wp E v xs t p :
  tab_view t → tab_ok (length (varTypes t)) (row_of t) (type_of t) →
  type_of t v = QUASIBASIC → row_of t v = Some p → NoDup xs →
  (∀ x, x ∈ xs → x ∈ keys p ∧ x ≠ v ∧ (type_of t x = BASIC ∨ type_of t x = QUASIBASIC) ∧ normal t x) →
  (∀ u, u ∈ keys p → u ∈ xs ∨ type_of t u = NONBASIC) →
  wp E (λ t', same_system (λ u, u = v) t t' ∧ normal t' v ∧ (xs = [] → t' = t)) (eliminate v t xs).
Proof.
  revert t p. induction xs as [|x xs IH]; intros t p V O HT Hp Hnd Hxs Hk.
  { simpl. split; [by apply same_system_refl|]. split; [|done]. intros q u Hq Hu.
    rewrite Hp in Hq. injection Hq as <-. destruct (Hk u Hu) as [?%not_elem_of_nil|]; done. }
  apply NoDup_cons in Hnd as [Hx Hnd].
  destruct (Hxs x ltac:(left)) as (Hxk & Hne & Htx & Hnx).
  unfold eliminate. cbn [foldM]. apply wp_bind. eapply getRowPoly_wp; [exact V|exact Hp|].
  pose proof (ok_poly _ _ _ O v p Hp) as Wp.
  destruct (removeVar_ok p x Wp Hxk) as (tx & p' & -> & Htx' & Evx & Wp' & Ep & Hk'). cbn [rbind fst snd].
  assert (is_Some (row_of t x)) as [px Hpx] by (apply (ok_row _ _ _ O); tauto).
  eapply getRowPoly_wp; [exact V|exact Hpx|].
  assert (nval (coeff tx) ≠ 0%Qc) as Hc.
  { destruct Wp as [_ Wn]. exact (proj1 (Forall_forall _ _) Wn tx Htx'). }
  destruct (merge_simple_ok (coeff tx) p' px Hc Wp' (ok_poly _ _ _ O x px Hpx)) as (q & ev & -> & Hm).
  cbn [rbind].
  pose proof (removeVar_keys p p' x Hk') as Hkp.
  assert (∀ u, u ∈ keys q → u ∈ keys p' ∨ u ∈ keys px) as Hq.
  { intros u Hu. apply (merged_sub _ _ _ _ _ u Hm). by left. }
  eapply wp_mono; [apply (set_quasi_row_wp E t v q V O HT (merged_wf _ _ _ _ _ Hm))|].
  { intros u Hu. destruct (Hq u Hu) as [[Hu' _]%Hkp|Hu'];
      [eapply (ok_vars _ _ _ O v) | eapply (ok_vars _ _ _ O x)]; eassumption. }
  intros t1 (V1 & O1 & N1 & T1 & R1).
  assert (row_of t1 v = Some q) as Hq1 by (rewrite R1; by rewrite decide_True).
  assert (∀ u, u ≠ v → row_of t1 u = row_of t u) as Ro by (intros u Hu; rewrite R1; by rewrite decide_False).
  eapply wp_mono; [apply (IH t1 q); try done|].
  - by rewrite T1.
  - intros y Hy. destruct (Hxs y ltac:(by right)) as (Hyk & Hyv & Hty & Hny). rewrite !T1.
    assert (y ≠ x) by congruence.
    split; [|split; [done|]; split; [done|]; apply (normal_same t); auto].
    apply (merged_keys _ _ _ _ _ Hm). left. split; [by apply Hkp|].
    intros Hr. apply (merged_removed _ _ _ _ _ Hm) in Hr as [_ Hr].
    pose proof (Hnx px y Hpx Hr). destruct Hty; congruence.
  - intros u Hu. rewrite T1. destruct (Hq u Hu) as [Hu'|Hu'].
    + apply Hkp in Hu' as [Hu' Hux]. destruct (Hk u Hu') as [[->|?]%elem_of_cons|]; auto. done.
    + right. by apply (Hnx px).
  - intros t2 (S2 & Hn2 & _). split; [|done]. eapply same_system_trans; [|exact S2|done].
    constructor; try done.
    intros σ. unfold solution. apply (sat_replace _ _ v p q); [done|done|].
    intros Ho. rewrite (merged_val _ _ _ _ _ Hm), Ep, <- (Ho x px Hne Hpx). apply ladd_comm.
Qed.

Definition eliminable t v : Prop := type_of t v = BASIC ∨ type_of t v = QUASIBASIC.

(** The variables collected so far from the terms [pre] of the row of [v]. *)
Record collected (l2 : list LVRef) t (pre : list (Term N)) (s : Tableau N * list LVRef) : Prop := {
  co_norm : normalized (λ u, u ∈ l2) t s.1;
  co_mem x : x ∈ s.2 ↔ x ∈ keys pre ∧ eliminable t x;
  co_nodup : NoDup s.2;
  co_normal x : x ∈ s.2 → normal s.1 x;
}.

Lemma normal_kept S t t' u : normalized S t t' → normal t u → normal t' u.
Proof.
  intros [Hs _ Hn] Hu. apply (normal_same t); [by apply Hn | apply (ss_type _ _ _ Hs) | done].
Qed.

Lemma keys_app p q : keys (p ++ q) = keys p ++ keys q.
Proof. apply fmap_app. Qed.

Lemma collected_skip l2 t pre s term : collected l2 t pre s → type_of t (var term) = NONBASIC →
  collected l2 t (pre ++ [term]) s.
Proof.
  intros [C1 C2 C3 C4] HT. constructor; try done. intros x.
  rewrite C2, keys_app, elem_of_app. unfold eliminable. split; [tauto|].
  intros [[?|Hx] He]; [done|]. apply list_elem_of_singleton in Hx as ->.
  rewrite HT in He. by destruct He.
Qed.

Lemma collected_add S l2 t pre s term t' : collected l2 t pre s → eliminable t (var term) →
  normalized S s.1 t' → (∀ u, S u → u ∈ l2) → normal t' (var term) → var term ∉ keys pre →
  collected l2 t (pre ++ [term]) (t', s.2 ++ [var term]).
Proof.
  intros [C1 C2 C3 C4] HT Hn HS Hnt Hni. constructor; simpl.
  - by eapply normalized_trans.
  - intros x. rewrite keys_app. change (keys [term]) with [var term].
    rewrite !elem_of_app, C2, !list_elem_of_singleton. naive_solver.
  - apply NoDup_app. split; [done|]. split; [|apply NoDup_singleton].
    intros x Hx ->%list_elem_of_singleton. apply C2 in Hx. tauto.
  - intros x [Hx| ->%list_elem_of_singleton]%elem_of_app; [|done].
    eapply normal_kept; [exact Hn | by apply C4].
Qed.

Lemma normalizeRow_wp E fuel : ∀ v t l1 l2,
  tab_view t → tab_ok (length (varTypes t)) (row_of t) (type_of t) →
  quasi_order (length (varTypes t)) (row_of t) (type_of t) (l1 ++ v :: l2) →
  type_of t v = QUASIBASIC → length l2 < fuel →
  wp E (λ t', normalized (λ u, u = v ∨ u ∈ l2) t t' ∧ normal t' v) (normalizeRow fuel v t).
Proof.
  induction fuel as [|fuel IH]; intros v t l1 l2 V O Q HT Hf; [lia|]. cbn [normalizeRow].
  rewrite (proj2 (isQuasiBasic_iff t v) HT). cbn [check rbind].
  assert (is_Some (row_of t v)) as [p Hp] by (apply (ok_row _ _ _ O); tauto).
  eapply getRowPoly_wp; [exact V|exact Hp|].
  pose proof (ok_poly _ _ _ O v p Hp) as Wp.
  assert (NoDup (keys p)) as Hnd by apply (keys_NoDup p), Wp.
  assert (v ∉ l2) as Hv2.
  { pose proof (qo_nodup _ _ _ _ Q) as Hq. apply NoDup_app in Hq as (_ & _ & Hq).
    by apply NoDup_cons in Hq as [? _]. }
  assert (∀ u, u ∈ keys p → eliminable t u ∨ type_of t u = NONBASIC) as Hcase.
  { intros u Hu. pose proof (ok_vars _ _ _ O v p u Hp Hu). unfold eliminable.
    destruct (type_of t u); auto. done. }
  apply wp_bind. eapply wp_mono.
  - apply (foldM_wp E _ (λ pre _ s, collected l2 t pre s)).
    + constructor; simpl; try set_solver; [|constructor].
      constructor; [by apply same_system_refl | auto | done].
    + intros pre term post [ti xs] Ep C. cbn [fst snd].
      assert (var term ∈ keys p) as Hin by (rewrite Ep, keys_app; set_solver).
      assert (var term ∉ keys pre) as Hni.
      { rewrite Ep, keys_app in Hnd. apply NoDup_app in Hnd as (_ & Hd & _).
        intros Hi. apply (Hd _ Hi). rewrite keys_cons. by left. }
      pose proof (co_norm _ _ _ _ C) as Cn. cbn [fst] in Cn. pose proof (nz_same _ _ _ Cn) as Cs.
      pose proof (ss_type _ _ _ Cs) as ET.
      destruct (decide (type_of t (var term) = QUASIBASIC)) as [Eq|Nq].
      * rewrite (proj2 (isQuasiBasic_iff ti _)) by (by rewrite ET).
        pose proof (qo_later _ _ _ _ Q l1 v l2 p (var term) eq_refl Hp Hin Eq) as Hl2.
        apply list_elem_of_split in Hl2 as (m1 & m2 & ->).
        apply wp_bind, wp_bind.
        eapply wp_mono; [apply (IH (var term) ti (l1 ++ v :: m1) m2)|].
        -- apply (ss_view _ _ _ Cs).
        -- apply (ss_ok _ _ _ Cs).
        -- rewrite <- app_assoc. simpl. eapply normalized_order; [exact Cn | exact Q].
        -- by rewrite ET.
        -- rewrite length_app in Hf. simpl in Hf. lia.
        -- intros t1 [N1 Hn1]. cbn [wp fst snd].
           rewrite (not_true_eq _ _ (isBasic_iff t1 (var term)))
             by (rewrite (ss_type _ _ _ (nz_same _ _ _ N1)), ET, Eq; done).
           eapply (collected_add _ _ _ _ _ _ _ C); [by right|exact N1| |done|done]. set_solver.
      * rewrite (not_true_eq _ _ (isQuasiBasic_iff ti (var term))) by (by rewrite ET).
        cbn [rbind fst snd]. destruct (decide (type_of t (var term) = BASIC)) as [Eb|Nb].
        -- rewrite (proj2 (isBasic_iff ti _)) by (by rewrite ET).
           eapply (collected_add (λ _, False) _ _ _ _ _ _ C); [by left| |done| |done].
           { constructor; [|auto|done]. apply same_system_refl; apply Cs. }
           eapply (normal_kept _ _ _ _ Cn). intros q u Hq Hu.
           by apply (ok_basic _ _ _ O (var term) q).
        -- rewrite (not_true_eq _ _ (isBasic_iff ti (var term))) by (by rewrite ET).
           apply collected_skip; [done|]. destruct (Hcase _ Hin) as [[?|?]|]; done.
  - intros [ti xs] C. cbn [fst snd]. pose proof (co_norm _ _ _ _ C) as Cn. cbn [fst] in Cn.
    pose proof (nz_same _ _ _ Cn) as Cs. pose proof (ss_type _ _ _ Cs) as ET.
    assert (row_of ti v = Some p) as Hpi by (by rewrite (ss_rows _ _ _ Cs)).
    eapply wp_mono; [apply (eliminate_wp E v xs ti p)|].
    + apply (ss_view _ _ _ Cs).
    + apply (ss_ok _ _ _ Cs).
    + by rewrite ET.
    + done.
    + apply (co_nodup _ _ _ _ C).
    + intros x Hx. pose proof (co_normal _ _ _ _ C x Hx) as Hnx. apply (co_mem _ _ _ _ C) in Hx as [Hx He].
      unfold eliminable in He. rewrite ET. split; [done|]. split; [|done]. intros ->.
      apply Hv2. by apply (qo_later _ _ _ _ Q l1 v l2 p v).
    + intros u Hu. rewrite ET. destruct (Hcase u Hu); [left|by right]. by apply (co_mem _ _ _ _ C).
    + intros t' (S' & Hn' & Hnil). split; [|done].
      eapply (normalized_trans _ (λ u, u = v)); [by eapply normalized_weaken; [exact Cn|]; right| |by left].
      constructor; [done| |].
      * intros u. destruct (decide (u = v)) as [->|]; [by right|]. left. by apply (ss_rows _ _ _ S').
      * intros u Hu. destruct (decide (u = v)) as [->|]; [|by apply (ss_rows _ _ _ S')].
        rewrite Hnil; [done|]. destruct xs as [|x xs]; [done|]. exfalso.
        assert (x ∈ keys p ∧ eliminable t x) as [Hx He] by (apply (co_mem _ _ _ _ C); left).
        pose proof (Hu p x Hpi Hx) as Hb. rewrite ET in Hb. destruct He; congruence.
Qed.

Lemma quasi_order_length n R T l : quasi_order n R T l → length l ≤ n.
Proof.
  intros [_ Hd Hr _]. rewrite <- (length_seq n 0). apply submseteq_length, NoDup_submseteq; [done|].
  intros x Hx. apply elem_of_seq. specialize (Hr x Hx). lia.
Qed.

(** [normalizeRow] ends within its fuel. *)
Lemma normalize_wp E v t : tab_inv t → type_of t v = QUASIBASIC →
  wp E (λ t', tab_inv t' ∧ normalized (λ u, type_of t u = QUASIBASIC) t t' ∧ normal t' v) (normalize v t).
Proof.
  intros [V O (l & Q)] HT. pose proof (qo_all _ _ _ _ Q v HT) as Hv.
  apply list_elem_of_split in Hv as (l1 & l2 & ->). unfold normalize.
  pose proof (quasi_order_length _ _ _ _ Q) as Hl. rewrite length_app in Hl. simpl in Hl.
  rewrite (view_rows _ _ _ _ _ _ V).
  eapply wp_mono; [apply (normalizeRow_wp E _ v t l1 l2); try done; lia|].
  intros t' [Hn Hv]. split; [|split; [|done]].
  - constructor; [apply Hn | apply Hn |]. eexists. eapply normalized_order; [exact Hn | exact Q].
  - pose proof Hn as [Hs He Hk]. constructor; [|done|done]. destruct Hs as [S1 S2 S3 S4 S5 S6].
    constructor; try done. intros u Hu. destruct (decide (u = v)) as [->|Hne]; [done|].
    destruct (He u) as [|Hnu]; [done|].
    destruct (decide (u ∈ l2)) as [Hin|Hni]; [|apply S5; naive_solver].
    destruct (row_of t u) as [p|] eqn:Ep.
    + assert (type_of t u = BASIC) as Eb.
      { destruct (proj1 (ok_row _ _ _ O u)) as [|]; [by rewrite Ep; eauto|done|done]. }
      rewrite <- Ep. apply Hk. intros q x Hq Hx. by apply (ok_basic _ _ _ O u q).
    + destruct (row_of t' u) as [q|] eqn:Eq; [|done]. exfalso.
      assert (is_Some (row_of t u)) as [? ?]; [|congruence].
      apply (ok_row _ _ _ O). rewrite <- (S4 u). apply (ok_row _ _ _ S2). rewrite Eq. eauto.
Qed.

(** ** New variables *)

Lemma mjoin_grow {B} (l : list (option B)) i v : mjoin (grow l i None !! v) = mjoin (l !! v).
Proof. rewrite grow_lookup. destruct (l !! v) as [[|]|]; [done..|]. by destruct (decide _). Qed.

(** Growing the vectors changes no row, column or type. *)
Lemma ensureTableauReadyFor_view v t n R D P T : view t n R D P T →
  view (ensureTableauReadyFor v t) (Nat.max n (S v)) R D P T.
Proof.
  intros [V1 V2 V3 V4 V5 V6 V7]. constructor; simpl; rewrite ?grow_length; try lia.
  - intros u. unfold row_of in *. simpl. by rewrite mjoin_grow.
  - intros u. rewrite <- V5. unfold type_of. simpl. rewrite grow_lookup.
    destruct (varTypes t !! u); [done|]. by destruct (decide _).
  - intros u. unfold col_of in *. simpl. by rewrite mjoin_grow.
  - intros u c. unfold col_of in *. simpl. rewrite mjoin_grow. apply V7.
Qed.

Lemma tab_ok_grow n m R T : tab_ok n R T → n ≤ m → tab_ok m R T.
Proof. intros [O1 O2 O3 O4 O5] Hm. constructor; try done. intros v Hv. specialize (O1 v Hv). lia. Qed.
Lemma quasi_order_grow n m R T l : quasi_order n R T l → n ≤ m → quasi_order m R T l.
Proof. intros [Q1 Q2 Q3 Q4] Hm. constructor; try done. intros v Hv. specialize (Q3 v Hv). lia. Qed.

Lemma unprocessed_fresh n R T v : tab_ok n R T → T v = NONE → R v = None ∧ ∀ u p, R u = Some p → v ∉ keys p.
Proof.
  intros O HT. split.
  - destruct (R v) eqn:Er; [|done]. destruct (proj1 (ok_row _ _ _ O v)) as [|]; [rewrite Er; eauto|congruence..].
  - intros u p Hp Hin. by apply (ok_vars _ _ _ O u p v Hp Hin).
Qed.

(** A new non-basic variable: an empty column. *)
Lemma newNonbasicVar_wp E v t : tab_inv t → type_of t v = NONE →
  wp E (λ t', tab_inv t' ∧ (∀ u, row_of t' u = row_of t u)
    ∧ (∀ u, type_of t' u = if decide (u = v) then NONBASIC else type_of t u)
    ∧ length (varTypes t') = Nat.max (length (varTypes t)) (S v)) (newNonbasicVar v t).
Proof.
  intros [V O (l & Q)] HT. unfold newNonbasicVar.
  rewrite (not_true_eq _ _ (isProcessed_iff t v)) by (intros Hn; by apply Hn). cbn [negb check rbind].
  pose proof (ensureTableauReadyFor_view v t _ _ _ _ _ V) as V1.
  set (n := Nat.max (length (varTypes t)) (S v)) in *. assert (v < n) as Hv by lia.
  eapply at_cols_wp; [exact V1|done|congruence|]. cbn [rbind]. rewrite bool_decide_true by done. cbn [check rbind].
  apply wp_bind. eapply wp_mono; [apply (set_col_wp E _ _ _ _ _ _ V1 v [] (λ _, False)); [done|constructor|set_solver]|].
  intros t2 V2. eapply wp_mono; [apply (set_type_wp E _ _ _ _ _ _ V2 v NONBASIC Hv)|].
  intros t3 V3. destruct (unprocessed_fresh _ _ _ v O HT) as [Hr Hk].
  apply view_self in V3 as (V' & En & ER & ET).
  - split; [|done]. constructor; [done| |].
    + rewrite En. apply (tab_ok_ext _ (row_of t) (fupd (type_of t) v NONBASIC)); [|done|done].
      apply (tab_ok_grow (length (varTypes t)) n) in O; [|lia]. destruct O as [O1 O2 O3 O4 O5].
      unfold fupd. constructor.
      * intros u. destruct (decide (u = v)) as [->|]; auto.
      * intros u. destruct (decide (u = v)) as [->|]; [|apply O2].
        rewrite Hr. split; [by intros [? [=]] | by intros [|]].
      * done.
      * intros u p x Hp Hx. destruct (decide (x = v)) as [->|]; [done | by eapply O4].
      * intros u p x. destruct (decide (x = v)) as [->|]; [done|].
        destruct (decide (u = v)) as [->|]; [done | apply O5].
    + exists l. rewrite En. apply (quasi_order_ext _ (row_of t) (fupd (type_of t) v NONBASIC)); [|done|done].
      apply (quasi_order_grow _ n) in Q; [|lia]. destruct Q as [Q1 Q2 Q3 Q4].
      constructor; [|done|done|]; unfold fupd.
      * intros u. destruct (decide (u = v)); [done | auto].
      * intros l1 u l2 p x El Hp Hx. destruct (decide (x = v)); [done | by eapply Q4].
  - intros u. unfold fupd. destruct (decide (u = v)); naive_solver.
  - intros u r. unfold fupd, mentions. destruct (decide (u = v)) as [->|Hne].
    + intros _. split; [done|]. destruct (decide (r = v)); [by intros [[=] _]|].
      intros (_ & p & Hp & Hin). by apply (Hk r p).
    + intros _. destruct (decide (r = v)) as [->|]; [|done]. rewrite HT. split; intros [[=] _].
Qed.

Lemma exists_last_cons {B} (l : list B) : l = [] ∨ ∃ l' (z : B), l = l' ++ [z].
Proof. destruct l as [|y l]; [by left|]. right. destruct (exists_last (l := y :: l)) as (l' & x & ->); [done | eauto]. Qed.

Lemma filter_split {B} (Q : B → Prop) `{∀ x : B, Decision (Q x)} (l l1 l2 : list B) (q : B) :
  filter Q l = l1 ++ q :: l2 → ∃ m1 m2, l = m1 ++ q :: m2 ∧ filter Q m2 = l2.
Proof.
  revert l1. induction l as [|x l IH]; intros l1; [by destruct l1|].
  rewrite filter_cons. destruct (decide (Q x)).
  - destruct l1 as [|y l1]; simpl; intros [= -> E].
    + by exists [], l.
    + destruct (IH l1 E) as (m1 & m2 & -> & ?). by exists (y :: m1), m2.
  - intros E. destruct (IH l1 E) as (m1 & m2 & -> & ?). by exists (x :: m1), m2.
Qed.

(** Variables that are not quasi-basic may be dropped from the order. *)
Lemma quasi_order_remove n R T T' v l : quasi_order n R T l →
  (∀ u, T' u = QUASIBASIC → T u = QUASIBASIC ∧ u ≠ v) → quasi_order n R T' (filter (λ u, u ≠ v) l).
Proof.
  intros [Q1 Q2 Q3 Q4] HT. constructor.
  - intros u Hu. apply HT in Hu as [Hu Hne]. apply list_elem_of_filter. auto.
  - by apply NoDup_filter.
  - intros u Hu. apply list_elem_of_filter in Hu as [_ Hu]. auto.
  - intros l1 u l2 p x El Hp Hx HTx. apply HT in HTx as [HTx Hne].
    destruct (filter_split _ _ _ _ _ El) as (m1 & m2 & El' & <-).
    apply list_elem_of_filter. split; [done|]. by eapply Q4.
Qed.

(** A new quasi-basic row. *)
Lemma newRow_wp E v p t : tab_inv t → type_of t v = NONE → poly_wf p → (∀ u, u ∈ keys p → type_of t u ≠ NONE) →
  wp E (λ t', tab_inv t' ∧ (∀ u, type_of t' u = if decide (u = v) then QUASIBASIC else type_of t u)
    ∧ (∀ u, type_of t u = BASIC → row_of t' u = row_of t u)
    ∧ (∀ σ, solution t' σ ↔ solution t σ ∧ σ v = peval σ p)
    ∧ length (varTypes t') = Nat.max (length (varTypes t)) (S v)) (newRow v p t).
Proof.
  intros [V O (l & Q)] HT Wp Hvars. unfold newRow.
  rewrite (not_true_eq _ _ (isProcessed_iff t v)) by (intros Hn; by apply Hn). cbn [negb check rbind].
  pose proof (ensureTableauReadyFor_view v t _ _ _ _ _ V) as V1.
  set (n := Nat.max (length (varTypes t)) (S v)) in *. assert (v < n) as Hv by lia.
  destruct (unprocessed_fresh _ _ _ v O HT) as [Hr Hk].
  unfold addRow. apply wp_bind. eapply at_rows_wp; [exact V1|done|]. rewrite Hr.
  rewrite bool_decide_true by done. cbn [check rbind].
  eapply wp_mono; [apply (set_row_wp E _ _ _ _ _ _ V1 v p Hv)|]. intros t2 V2.
  apply wp_bind. eapply wp_mono; [apply (set_type_wp E _ _ _ _ _ _ V2 v QUASIBASIC Hv)|]. intros t3 V3.
  apply view_self in V3 as (V' & En & ER & ET).
  - assert (tab_inv t3) as I3.
    { constructor; [done| |].
      - rewrite En. apply (tab_ok_ext _ (fupd (row_of t) v (Some p)) (fupd (type_of t) v QUASIBASIC)); [|done|done].
        apply (tab_ok_grow _ n) in O; [|lia]. destruct O as [O1 O2 O3 O4 O5]. unfold fupd. constructor.
        + intros u. destruct (decide (u = v)) as [->|]; auto.
        + intros u. destruct (decide (u = v)) as [->|]; [|apply O2]. split; [by right | eauto].
        + intros u q. destruct (decide (u = v)) as [->|]; [by intros [= <-] | apply O3].
        + intros u q x Hq Hx. destruct (decide (x = v)); [done|].
          destruct (decide (u = v)) as [->|]; [injection Hq as <-; auto | by eapply O4].
        + intros u q x. destruct (decide (u = v)) as [->|]; [done|].
          destruct (decide (x = v)) as [->|]; [|apply O5]. intros _ Hq Hx. by destruct (Hk u q).
      - exists (v :: filter (λ u, u ≠ v) l). rewrite En.
        apply (quasi_order_ext _ (fupd (row_of t) v (Some p)) (fupd (type_of t) v QUASIBASIC)); [|done|done].
        apply (quasi_order_grow _ n) in Q; [|lia].
        assert (quasi_order n (row_of t) (type_of t) (filter (λ u, u ≠ v) l)) as [Q1 Q2 Q3 Q4].
        { apply (quasi_order_remove _ _ (type_of t)); [done|]. intros u Hu. split; [done|]. by intros ->; congruence. }
        unfold fupd. constructor.
        + intros u. rewrite elem_of_cons. destruct (decide (u = v)); auto.
        + constructor; [|done]. rewrite list_elem_of_filter. naive_solver.
        + intros u [->|Hu]%elem_of_cons; auto.
        + intros l1 u l2 q x El Hq Hx HTx.
          assert (x ≠ v) as Hne.
          { intros ->. destruct (decide (u = v)) as [->|]; [|by apply (Hk u q)].
            injection Hq as <-. by apply (Hvars v Hx). }
          rewrite decide_False in HTx by done.
          destruct l1 as [|y l1]; injection El as <- El.
          * rewrite <- El. by apply Q1.
          * assert (u ≠ v) as Hu.
            { intros ->. assert (v ∈ filter (λ u, u ≠ v) l) as Hin by (rewrite El; set_solver).
              apply list_elem_of_filter in Hin. naive_solver. }
            rewrite decide_False in Hq by done. by eapply Q4. }
    eapply wp_mono; [apply normalize_wp; [done|]|].
    { rewrite ET. unfold fupd. by rewrite decide_True. }
    intros t' (I' & [Hs He Hn] & _). split; [done|]. split; [|split; [|split]].
    + intros u. by rewrite (ss_type _ _ _ Hs), ET.
    + intros u Hu. assert (u ≠ v) by (intros ->; congruence).
      rewrite (ss_rows _ _ _ Hs), ER.
      * unfold fupd. by rewrite decide_False.
      * rewrite ET. unfold fupd. rewrite decide_False by done. congruence.
    + intros σ. rewrite (ss_sat _ _ _ Hs). unfold solution, sat. split.
      * intros Hσ. split.
        -- intros u q Hq. apply Hσ. rewrite ER. unfold fupd. by rewrite decide_False by congruence.
        -- apply Hσ. rewrite ER. unfold fupd. by rewrite decide_True.
      * intros [Hσ Hσv] u q. rewrite ER. unfold fupd.
        destruct (decide (u = v)) as [->|]; [by intros [= <-] | apply Hσ].
    + by rewrite (ss_size _ _ _ Hs), En.
  - intros u. unfold fupd. destruct (decide (u = v)) as [->|]; [|done]. rewrite HT. split; done.
  - intros u r _. unfold mentions, fupd. destruct (decide (r = v)) as [->|]; [|done].
    rewrite HT. split; intros [[=] _].
Qed.

(** ** Between basic and quasi-basic *)

Lemma tab_ok_retype n R T v ty : tab_ok n R T →
  (T v = BASIC ∨ T v = QUASIBASIC) → (ty = BASIC ∨ ty = QUASIBASIC) →
  (ty = BASIC → ∀ p u, R v = Some p → u ∈ keys p → T u = NONBASIC) →
  (∀ u p, T u = BASIC → R u = Some p → v ∉ keys p) → tab_ok n R (fupd T v ty).
Proof.
  intros [O1 O2 O3 O4 O5] HT Hty Hn Hk. unfold fupd. constructor; try done.
  - intros u. destruct (decide (u = v)) as [->|]; [|auto]. intros _. apply O1.
    by destruct HT as [E|E]; rewrite E.
  - intros u. destruct (decide (u = v)) as [->|]; [|auto]. rewrite O2. tauto.
  - intros u p x Hp Hx. destruct (decide (x = v)) as [->|]; [by destruct Hty as [E|E]; rewrite E|]. by eapply O4.
  - intros u p x HTu Hp Hx. assert (T u = BASIC ∨ u = v ∧ ty = BASIC) as Hu
      by (destruct (decide (u = v)); auto).
    assert (T x = NONBASIC) as HTx by (destruct Hu as [Hu|[-> Hb]]; eauto).
    destruct (decide (x = v)) as [->|]; [|done]. rewrite HTx in HT. by destruct HT.
Qed.

(** The columns of the variables of the row of [v] get [v]. *)
Lemma addRowToColumns_wp E v p t n R D P T : view t n R D P T → NoDup (keys p) →
  (∀ u, u ∈ keys p → D u ∧ ¬ P u v) →
  wp E (λ t', view t' n R D (λ u r, P u r ∨ u ∈ keys p ∧ r = v) T)
    (foldM (λ t term, addRowToColumn v (var term) t) t p).
Proof.
  intros V Hnd Hk.
  apply (foldM_wp E _ (λ pre _ t', view t' n R D (λ u r, P u r ∨ u ∈ keys pre ∧ r = v) T)).
  - eapply view_ext; [exact V|done|done| |done]. intros u r _. set_solver.
  - intros pre term post t1 Ep V1.
    assert (var term ∈ keys p) as Hin by (rewrite Ep, keys_app; set_solver).
    assert (var term ∉ keys pre) as Hni.
    { rewrite Ep, keys_app in Hnd. apply NoDup_app in Hnd as (_ & Hd & _).
      intros Hi. apply (Hd _ Hi). rewrite keys_cons. by left. }
    destruct (Hk _ Hin) as [HD HP].
    eapply wp_mono; [apply (addRowToColumn_wp E t1 _ _ _ _ _ (var term) v V1 HD); tauto|].
    intros t2 V2. eapply view_ext; [exact V2|done|done| |done].
    intros u r _. rewrite keys_app. change (keys [term]) with [var term]. set_solver.
Qed.

(** They lose it. *)
Lemma removeRowFromColumns_wp E v p t n R D P T : view t n R D P T → NoDup (keys p) →
  (∀ u, u ∈ keys p → T u = NONBASIC ∧ D u ∧ P u v) →
  wp E (λ t', view t' n R D (λ u r, P u r ∧ ¬ (u ∈ keys p ∧ r = v)) T)
    (foldM (λ t term, let! _ := check (isNonBasic t (var term)) in removeRowFromColumn v (var term) t) t p).
Proof.
  intros V Hnd Hk.
  apply (foldM_wp E _ (λ pre _ t', view t' n R D (λ u r, P u r ∧ ¬ (u ∈ keys pre ∧ r = v)) T)).
  - eapply view_ext; [exact V|done|done| |done]. intros u r _. set_solver.
  - intros pre term post t1 Ep V1.
    assert (var term ∈ keys p) as Hin by (rewrite Ep, keys_app; set_solver).
    assert (var term ∉ keys pre) as Hni.
    { rewrite Ep, keys_app in Hnd. apply NoDup_app in Hnd as (_ & Hd & _).
      intros Hi. apply (Hd _ Hi). rewrite keys_cons. by left. }
    destruct (Hk _ Hin) as (HT & HD & HP).
    rewrite (proj2 (isNonBasic_iff t1 _)) by (by rewrite (view_type _ _ _ _ _ _ V1)). cbn [check rbind].
    eapply wp_mono; [apply (removeRowFromColumn_wp E t1 _ _ _ _ _ (var term) v V1 HD); tauto|].
    intros t2 V2. eapply view_ext; [exact V2|done|done| |done].
    intros u r _. rewrite keys_app. change (keys [term]) with [var term]. set_solver.
Qed.

Lemma quasiToBasic_wp E v t : tab_inv t → type_of t v = QUASIBASIC →
  wp E (λ t', tab_inv t' ∧ (∀ u, type_of t' u = if decide (u = v) then BASIC else type_of t u)
    ∧ (∀ u, type_of t u = BASIC → row_of t' u = row_of t u)
    ∧ (∀ σ, solution t' σ ↔ solution t σ) ∧ length (varTypes t') = length (varTypes t)) (quasiToBasic v t).
Proof.
  intros I HT. unfold quasiToBasic. rewrite (proj2 (isQuasiBasic_iff t v) HT). cbn [check rbind].
  apply wp_bind. eapply wp_mono; [by apply normalize_wp|]. intros t1 ([V1 O1 (l & Q1)] & [Hs He Hn] & Hv).
  pose proof (ss_type _ _ _ Hs) as ET. rewrite <- ET in HT.
  assert (is_Some (row_of t1 v)) as [p Hp] by (apply (ok_row _ _ _ O1); tauto).
  eapply getRowPoly_wp; [exact V1|exact Hp|].
  apply wp_bind. eapply wp_mono; [apply (addRowToColumns_wp E v p t1 _ _ _ _ _ V1)|].
  { apply keys_NoDup, (ok_poly _ _ _ O1 v p Hp). }
  { intros u Hu. split; [by apply (Hv p)|]. intros [Hb _]. congruence. }
  intros t2 V2. assert (v < length (varTypes t1)) as Hl by (apply (ok_range _ _ _ O1); congruence).
  apply wp_bind. eapply wp_mono; [apply (set_type_wp E _ _ _ _ _ _ V2 v BASIC Hl)|]. intros t3 V3.
  pose proof (view_type _ _ _ _ _ _ V3) as ET3.
  rewrite (proj2 (isBasic_iff t3 v)) by (rewrite ET3; unfold fupd; by rewrite decide_True).
  cbn [check rbind wp]. apply view_self in V3 as (V' & En & ER & _).
  - split.
    + constructor; [done| |].
      * rewrite En. eapply tab_ok_ext; [apply (tab_ok_retype _ (row_of t1) (type_of t1) v BASIC O1)|done|done]; auto.
        intros u q Hb Hq Hin. rewrite (ok_basic _ _ _ O1 u q v) in HT; done.
      * rewrite En. eexists.
        eapply quasi_order_ext; [apply (quasi_order_remove _ _ (type_of t1) (fupd (type_of t1) v BASIC) v l Q1)|done|done].
        intros u. unfold fupd. by destruct (decide (u = v)).
    + split; [|split; [|split]].
      * intros u. rewrite ET3. unfold fupd. by destruct (decide (u = v)); rewrite ?ET.
      * intros u Hu. rewrite ER. apply (ss_rows _ _ _ Hs). congruence.
      * intros σ. rewrite <- (ss_sat _ _ _ Hs). unfold solution. by apply sat_ext.
      * rewrite En. apply (ss_size _ _ _ Hs).
  - intros u. unfold fupd. destruct (decide (u = v)) as [->|]; [|done]. rewrite HT. done.
  - intros u r Hu. unfold mentions, fupd. destruct (decide (r = v)) as [->|]; [|naive_solver].
    split; [intros [[? _]|[? _]]; [congruence|eauto] | intros [_ (q & Hq & ?)]; right; naive_solver congruence].
Qed.

Lemma basicToQuasi_wp E v t : tab_inv t → type_of t v = BASIC →
  wp E (λ t', tab_inv t' ∧ (∀ u, type_of t' u = if decide (u = v) then QUASIBASIC else type_of t u)
    ∧ (∀ u, row_of t' u = row_of t u) ∧ length (varTypes t') = length (varTypes t)) (basicToQuasi v t).
Proof.
  intros [V O (l & Q)] HT. unfold basicToQuasi. rewrite (proj2 (isBasic_iff t v) HT). cbn [check rbind].
  assert (v < length (varTypes t)) as Hl by (apply (ok_range _ _ _ O); congruence).
  apply wp_bind. eapply wp_mono; [apply (set_type_wp E _ _ _ _ _ _ V v QUASIBASIC Hl)|]. intros t1 V1.
  rewrite (proj2 (isQuasiBasic_iff t1 v))
    by (rewrite (view_type _ _ _ _ _ _ V1); unfold fupd; by rewrite decide_True). cbn [check rbind].
  assert (is_Some (row_of t v)) as [p Hp] by (apply (ok_row _ _ _ O); tauto).
  eapply getRowPoly_wp; [exact V1|exact Hp|].
  assert (∀ u, u ∈ keys p → type_of t u = NONBASIC ∧ u ≠ v) as Hk.
  { intros u Hu. pose proof (ok_basic _ _ _ O v p u HT Hp Hu). split; congruence. }
  eapply wp_mono; [apply (removeRowFromColumns_wp E v p t1 _ _ _ _ _ V1)|].
  { apply keys_NoDup, (ok_poly _ _ _ O v p Hp). }
  { intros u Hu. destruct (Hk u Hu) as [? ?]. unfold fupd. rewrite decide_False by done.
    split; [done|]. split; [done|]. split; eauto. }
  intros t2 V2. apply view_self in V2 as (V' & En & ER & ET).
  - split; [|done]. constructor; [done| |].
    + rewrite En. eapply tab_ok_ext; [apply (tab_ok_retype _ (row_of t) (type_of t) v QUASIBASIC O)|done|done]; auto.
      * done.
      * intros u q Hb Hq Hin. rewrite (ok_basic _ _ _ O u q v) in HT; done.
    + rewrite En. exists (filter (λ u, u ≠ v) l ++ [v]).
      apply (quasi_order_ext _ (row_of t) (fupd (type_of t) v QUASIBASIC)); [|done|done].
      assert (quasi_order (length (varTypes t)) (row_of t) (type_of t) (filter (λ u, u ≠ v) l)) as [Q1 Q2 Q3 Q4].
      { apply (quasi_order_remove _ _ (type_of t)); [done|]. intros u Hu. split; [done|]. congruence. }
      unfold fupd. constructor.
      * intros u. rewrite elem_of_app, list_elem_of_singleton. destruct (decide (u = v)); auto.
      * apply NoDup_app. split; [done|]. split; [|apply NoDup_singleton].
        intros u Hu ->%list_elem_of_singleton. apply list_elem_of_filter in Hu. naive_solver.
      * intros u [Hu| ->%list_elem_of_singleton]%elem_of_app; auto.
      * intros l1 u l2 q x El Hq Hx HTx. destruct (exists_last_cons l2) as [->|(l2' & y & ->)].
        -- apply app_inj_tail in El as [_ <-].
           assert (q = p) as -> by congruence. destruct (Hk x Hx) as [HTn Hne].
           rewrite decide_False in HTx by done. congruence.
        -- rewrite app_comm_cons, app_assoc in El. apply app_inj_tail in El as [El <-].
           rewrite elem_of_app, list_elem_of_singleton. destruct (decide (x = v)); [by right|]. left.
           by eapply Q4.
  - intros u. unfold fupd. destruct (decide (u = v)) as [->|]; [|done]. rewrite HT. split; done.
  - intros u r Hu. unfold mentions, fupd. destruct (decide (r = v)) as [->|]; [|naive_solver].
    split; [|by intros [[=] _]]. intros [(_ & q & Hq & Hin) Hn]. exfalso. apply Hn. naive_solver congruence.
Qed.

End view.

(** * Pivoting keeps the tableau consistent

    [pivot] solves a row for one of its variables and substitutes the result
    into the other active rows, keeping the columns up to date through the
    hooks of [merge].  The system of equations has the same solutions
    afterwards. *)

Section pivot.
Context {N : Type} `{Number N}.
Implicit Types (t : Tableau N) (u v x r bv nv : LVRef) (p q : poly_t N).

Lemma row_equation c (xbv xnv y : lexq) : c ≠ 0%Qc →
  xnv = (lscale (/ c) xbv + - lscale (/ c) y)%lex ↔ xbv = (lscale c xnv + y)%lex.
Proof.
  intros Hc. split; intros ->; apply lexq_eq; split; simpl; field; done.
Qed.

(** The row of [bv] read as an equation for [nv]. *)
Lemma solve_row_ok bv nv p : poly_wf p → nv ∈ keys p → bv ∉ keys p →
  ∃ q, solve_row bv nv p = Ok q ∧ poly_wf q ∧ (∀ u, u ∈ keys q ↔ u = bv ∨ u ∈ keys p ∧ u ≠ nv)
    ∧ ∀ σ, σ nv = peval σ q ↔ σ bv = peval σ p.
Proof.
  intros Wp Hnv Hbv. unfold solve_row.
  destruct (removeVar_ok p nv Wp Hnv) as (tm & p' & -> & Htm & Ev & Wp' & Ep & Hin). cbn [rbind fst snd].
  pose proof (removeVar_keys p p' nv Hin) as Hk.
  assert (nval (coeff tm) ≠ 0%Qc) as Hc.
  { destruct Wp as [_ Wn]. exact (proj1 (Forall_forall _ _) Wn tm Htm). }
  assert (∃ q1, (if n_isOne (coeff tm) then Ok p' else divideBy p' (coeff tm)) = Ok q1 ∧ poly_wf q1
            ∧ keys q1 = keys p' ∧ ∀ σ, peval σ q1 = lscale (/ nval (coeff tm)) (peval σ p')) as (q1 & -> & W1 & K1 & E1).
  { destruct (n_isOne (coeff tm)) eqn:E1; [|by apply divideBy_ok]. apply n_isOne_val in E1.
    exists p'. split; [done|]. split; [done|]. split; [done|]. intros σ. rewrite E1.
    assert (/ 1 = 1)%Qc as -> by by apply Qc_is_canon. by rewrite lscale_1. }
  cbn [rbind]. destruct (n_inverse_val (coeff tm) Hc) as (inv & -> & Hinv). cbn [rbind].
  destruct (poly_negate_ok q1 W1) as (W2 & K2 & E2).
  destruct (addTerm_ok (poly_negate q1) bv inv W2) as (q & -> & Wq & Eq & Hq).
  { rewrite K2, K1, Hk. tauto. }
  { rewrite Hinv. intros E0. cut ((1 : Qc) = 0%Qc); [done|].
    rewrite <- (Qcmult_inv_r _ Hc), E0. ring. }
  exists q. split; [done|]. split; [done|]. split.
  - intros u. assert (u ∈ keys q ↔ u = bv ∨ u ∈ keys (poly_negate q1)) as ->.
    { rewrite !elem_of_keys. split.
      - intros (t & [->|Ht]%Hq & <-); [by left | right; eauto].
      - intros [->|(t & Ht & <-)]; [|by exists t; split; [apply Hq; right|]].
        exists (MkTerm bv inv). split; [apply Hq; by left | done]. }
    rewrite K2, K1, Hk. done.
  - intros σ. rewrite Eq, E2, E1, Hinv, Ep. by apply row_equation.
Qed.

(** ** The hooks *)

Lemma Column_find_iff (c : Column) r : Column_find c r = true ↔ r ∈ c.
Proof. apply bool_decide_eq_true. Qed.

Lemma run_hooks_wp E bv r ev : ∀ t n R D P T,
  view t n R D P T → NoDup (event_var <$> ev) →
  (∀ u, Added u ∈ ev → u ≠ bv → D u ∧ ¬ P u r) → (∀ u, Removed u ∈ ev → D u ∧ P u r) →
  wp E (λ t', view t' n R D (λ u x, (P u x ∧ ¬ (x = r ∧ Removed u ∈ ev)) ∨ (x = r ∧ Added u ∈ ev ∧ u ≠ bv)) T)
    (run_events (informAdded bv r) (informRemoved r) t ev).
Proof.
  induction ev as [|e ev IH]; intros t n R D P T V Hnd Ha Hr.
  { simpl. eapply view_ext; [exact V|done|done| |done]. intros u x _. set_solver. }
  csimpl in Hnd. apply NoDup_cons in Hnd as [He Hnd].
  assert (∀ w, w ∈ ev → event_var w ≠ event_var e) as Hfresh.
  { intros w Hw Ew. apply He. rewrite <- Ew. by apply list_elem_of_fmap_2. }
  rewrite run_events_cons. apply wp_bind. destruct e as [u0|u0]; simpl in Hfresh.
  - unfold informAdded. destruct (Nat.eqb_spec u0 bv) as [->|Hne].
    + simpl. eapply wp_mono; [apply (IH t n R D P T V Hnd)|].
      * intros u Hu. apply Ha. by right.
      * intros u Hu. apply Hr. by right.
      * intros t' V'. eapply view_ext; [exact V'|done|done| |done]. intros u x _.
        rewrite !elem_of_cons. naive_solver.
    + destruct (Ha u0 ltac:(left) Hne) as [HD HP]. eapply getColumn_wp; [exact V|done|].
      intros c Hc Hm. rewrite (not_true_eq _ _ (Column_find_iff c r)) by (by rewrite Hm).
      cbn [negb check rbind]. eapply wp_mono; [by apply (addRowToColumn_wp E t _ _ _ _ _ u0 r V)|].
      intros t1 V1. eapply wp_mono; [apply (IH t1 _ _ _ _ _ V1 Hnd)|].
      * intros u Hu Hub. destruct (Ha u ltac:(by right) Hub) as [? ?]. split; [done|].
        pose proof (Hfresh _ Hu). simpl in *. tauto.
      * intros u Hu. destruct (Hr u ltac:(by right)) as [? ?]. split; [done|]. by left.
      * intros t' V'. eapply view_ext; [exact V'|done|done| |done]. intros u x _.
        assert (Removed u ∈ Added u0 :: ev ↔ Removed u ∈ ev) as ->
          by (rewrite elem_of_cons; split; [intros [[=]|]|]; auto).
        assert (Added u ∈ Added u0 :: ev ↔ u = u0 ∨ Added u ∈ ev) as ->
          by (rewrite elem_of_cons; split; [intros [[=]|]|intros [->|]]; auto).
        assert (Removed u0 ∉ ev) as Hr0 by (intros Hu; by apply (Hfresh _ Hu)).
        clear -Hne Hr0. naive_solver.
  - destruct (Hr u0 ltac:(left)) as [HD HP]. unfold informRemoved. eapply getColumn_wp; [exact V|done|].
    intros c Hc Hm. rewrite (proj2 (Column_find_iff c r)) by (by apply Hm). cbn [check rbind].
    eapply wp_mono; [by apply (removeRowFromColumn_wp E t _ _ _ _ _ u0 r V)|].
    intros t1 V1. eapply wp_mono; [apply (IH t1 _ _ _ _ _ V1 Hnd)|].
    + intros u Hu Hub. destruct (Ha u ltac:(by right) Hub) as [? ?]. tauto.
    + intros u Hu. destruct (Hr u ltac:(by right)) as [? ?]. split; [done|]. split; [done|].
      pose proof (Hfresh _ Hu). simpl in *. tauto.
    + intros t' V'. eapply view_ext; [exact V'|done|done| |done]. intros u x _.
      assert (Added u ∈ Removed u0 :: ev ↔ Added u ∈ ev) as ->
        by (rewrite elem_of_cons; split; [intros [[=]|]|]; auto).
      assert (Removed u ∈ Removed u0 :: ev ↔ u = u0 ∨ Removed u ∈ ev) as ->
        by (rewrite elem_of_cons; split; [intros [[=]|]|intros [->|]]; auto).
      split; [|tauto]. intros [?|?]; [|tauto]. left. split; [tauto|]. naive_solver.
Qed.

(** ** Moving the row and the column *)

Lemma moveRowFromTo_wp E from to t n R D P T p : view t n R D P T → from < n → to < n → from ≠ to →
  R to = None → R from = Some p →
  wp E (λ t', view t' n (fupd (fupd R to (Some p)) from None) D P T) (moveRowFromTo from to t).
Proof.
  intros V Hf Ht Hne Hto Hfrom. unfold moveRowFromTo. eapply at_rows_wp; [exact V|done|].
  rewrite Hto, bool_decide_true by done. cbn [check rbind].
  eapply getRowPoly_wp; [exact V|exact Hfrom|].
  unfold upd at 1. rewrite (view_rows _ _ _ _ _ _ V), (proj2 (Nat.ltb_lt _ _)) by lia. cbn [rbind].
  pose proof (put_rows_view t n R D P T V to (Some p) Ht) as V1.
  unfold upd. rewrite length_insert, (view_rows _ _ _ _ _ _ V), (proj2 (Nat.ltb_lt _ _)) by lia. cbn [rbind wp].
  exact (put_rows_view _ n _ D P T V1 from None Hf).
Qed.

Lemma moveColFromTo_wp E from to t n R (D : LVRef → Prop) P T : view t n R D P T → from < n → to < n → from ≠ to →
  ¬ D to → D from →
  wp E (λ t', view t' n R (λ u, u = to ∨ (D u ∧ u ≠ from)) (fupd P to (P from)) T) (moveColFromTo from to t).
Proof.
  intros V Hf Ht Hne Hto Hfrom. unfold moveColFromTo. eapply at_cols_wp; [exact V|done|done|].
  cbn [rbind]. rewrite bool_decide_true by done. cbn [check rbind].
  eapply getColumn_wp; [exact V|done|]. intros c Hc Hm.
  unfold upd at 1. rewrite (view_cols _ _ _ _ _ _ V), (proj2 (Nat.ltb_lt _ _)) by lia. cbn [rbind].
  unfold upd. rewrite length_insert, (view_cols _ _ _ _ _ _ V), (proj2 (Nat.ltb_lt _ _)) by lia. cbn [rbind wp].
  destruct V as [V1 V2 V3 V4 V5 V6 V7]. constructor; simpl; try done.
  - by rewrite !length_insert.
  - intros u. unfold col_of in *. simpl. rewrite !list_mjoin_insert by (rewrite ?length_insert; lia).
    destruct (decide (u = from)) as [->|]; [split; [by intros [? [=]] | naive_solver]|].
    destruct (decide (u = to)) as [->|]; [split; [by left | eauto] | rewrite V6; naive_solver].
  - intros u c'. unfold col_of, fupd in *. simpl. rewrite !list_mjoin_insert by (rewrite ?length_insert; lia).
    destruct (decide (u = from)) as [->|]; [done|].
    destruct (decide (u = to)) as [->|]; [by intros [= <-] | apply V7].
Qed.

(** The columns of the variables of the row forget [bv] and list [nv]. *)
Lemma swapInColumns_wp E bv nv q t n R D P T : view t n R D P T → NoDup (keys q) → bv ≠ nv →
  (∀ u, u ∈ keys q → D u ∧ P u bv ∧ ¬ P u nv) →
  wp E (λ t', view t' n R D (λ u r, (P u r ∧ ¬ (u ∈ keys q ∧ r = bv)) ∨ (u ∈ keys q ∧ r = nv)) T)
    (foldM (λ t term, let! t := removeRowFromColumn bv (var term) t in addRowToColumn nv (var term) t) t q).
Proof.
  intros V Hnd Hne Hk.
  apply (foldM_wp E _ (λ pre _ t', view t' n R D
    (λ u r, (P u r ∧ ¬ (u ∈ keys pre ∧ r = bv)) ∨ (u ∈ keys pre ∧ r = nv)) T)).
  - eapply view_ext; [exact V|done|done| |done]. intros u r _. set_solver.
  - intros pre term post t1 Ep V1.
    assert (var term ∈ keys q) as Hin by (rewrite Ep, keys_app; set_solver).
    assert (var term ∉ keys pre) as Hni.
    { rewrite Ep, keys_app in Hnd. apply NoDup_app in Hnd as (_ & Hd & _).
      intros Hi. apply (Hd _ Hi). rewrite keys_cons. by left. }
    destruct (Hk _ Hin) as (HD & HP & HP').
    apply wp_bind. eapply wp_mono; [apply (removeRowFromColumn_wp E t1 _ _ _ _ _ (var term) bv V1 HD); tauto|].
    intros t2 V2. eapply wp_mono; [apply (addRowToColumn_wp E t2 _ _ _ _ _ (var term) nv V2 HD); tauto|].
    intros t3 V3. eapply view_ext; [exact V3|done|done| |done].
    intros u r _. rewrite keys_app. change (keys [term]) with [var term].
    rewrite elem_of_app, list_elem_of_singleton.
    destruct (decide (u = var term)) as [->|]; destruct (decide (r = nv)); destruct (decide (r = bv)); naive_solver.
Qed.

(** ** Substituting into the other rows *)

Section substitution.
Context (E : error → Prop) (n : nat) (bv nv : LVRef) (q : poly_t N) (c : Column).
Context (R : LVRef → option (poly_t N)) (T : LVRef → VarType).

(** The system after the row has been solved: [nv] is basic with row [q], [bv]
    is not; the rows listed in the column of [bv] still mention [nv]. *)
Record solved : Prop := {
  sv_ne : bv ≠ nv;
  sv_wf : poly_wf q;
  sv_nv : R nv = Some q;
  sv_Tnv : T nv = BASIC;
  sv_Tbv : T bv = NONBASIC;
  sv_keys u : u ∈ keys q → T u = NONBASIC;
  sv_bv : bv ∈ keys q;
  sv_col r : r ∈ c ↔ r = nv ∨ T r = BASIC ∧ ∃ p, R r = Some p ∧ nv ∈ keys p;
  sv_nd : NoDup c;
  sv_row r p : r ≠ nv → R r = Some p → T r = BASIC → poly_wf p ∧ bv ∉ keys p;
  sv_other r p u : r ≠ nv → R r = Some p → T r = BASIC → u ∈ keys p → u = nv ∨ T u = NONBASIC;
  sv_range r : T r ≠ NONE → r < n;
}.
Hypothesis SV : solved.

(** Half-way: the rows of [pre] are done. *)
Record substituted (pre : list LVRef) t : Prop := {
  sb_view : view t n (row_of t) (λ u, T u = NONBASIC)
    (λ u r, if decide (u = bv) then r ∈ c else mentions (row_of t) T u r) T;
  sb_todo r : (r ∉ pre ∨ r = nv) → row_of t r = R r;
  sb_done r : r ∈ pre → r ≠ nv → ∃ p, row_of t r = Some p ∧ poly_wf p ∧ bv ∈ keys p
    ∧ ∀ u, u ∈ keys p → T u = NONBASIC;
  sb_sat σ : solution t σ ↔ sat R σ;
}.

Lemma substitute_step pre r post t : c = pre ++ r :: post → substituted pre t →
  wp E (substituted (pre ++ [r])) (substitute bv nv q t r).
Proof.
  intros Ec [V Htodo Hdone Hsat]. unfold substitute.
  assert (r ∈ c) as Hrc by (rewrite Ec; set_solver).
  destruct (Nat.eqb_spec r nv) as [->|Hrn]; cbn [orb].
  { constructor; [done| | |done].
    - intros x [Hx|Hx]; apply Htodo; [left|by right]. set_solver.
    - intros x [Hx|Hx%list_elem_of_singleton]%elem_of_app Hne; [by apply Hdone | done]. }
  apply (sv_col SV) in Hrc as [?|(HTr & p & Hp & Hnv)]; [done|].
  rewrite (not_true_eq _ _ (isQuasiBasic_iff t r)) by (rewrite (view_type _ _ _ _ _ _ V); congruence).
  assert (r ∉ pre) as Hrp.
  { pose proof (sv_nd SV) as Hnd. rewrite Ec in Hnd. apply NoDup_app in Hnd as (_ & Hd & _).
    intros Hi. apply (Hd r Hi). by left. }
  assert (row_of t r = Some p) as Hpt by (rewrite Htodo by (by left); done).
  eapply getRowPoly_wp; [exact V|exact Hpt|].
  destruct (sv_row SV r p Hrn Hp HTr) as [Wp Hbp].
  destruct (removeVar_ok p nv Wp Hnv) as (tm & p' & -> & Htm & Ev & Wp' & Ep & Hin). cbn [rbind fst snd].
  pose proof (removeVar_keys p p' nv Hin) as Hk.
  assert (nval (coeff tm) ≠ 0%Qc) as Hc.
  { destruct Wp as [_ Wn]. exact (proj1 (Forall_forall _ _) Wn tm Htm). }
  assert (∀ u, u ∈ keys p' → T u = NONBASIC ∧ u ≠ nv ∧ u ≠ bv) as Hp'.
  { intros u [Hu Hne]%Hk. destruct (sv_other SV r p u Hrn Hp HTr Hu) as [|HT]; [done|].
    split; [done|]. split; [done|]. by intros ->. }
  destruct (merge_ok (coeff tm) p' q Hc Wp' (sv_wf SV)) as (m & ev & Hm & Hrun). rewrite Hrun. clear Hrun.
  apply wp_bind, wp_bind. eapply wp_mono; [apply (run_hooks_wp E bv r ev t n _ _ _ _ V)|].
  { apply (merged_nodup _ _ _ _ _ Hm). }
  { intros u [Hu Hn]%(merged_added _ _ _ _ _ Hm) Hne. split; [by apply (sv_keys SV)|].
    rewrite decide_False by done. intros (_ & p1 & Hp1 & Hu1). apply Hn, Hk.
    split; [by simplify_eq|]. intros ->. pose proof (sv_keys SV _ Hu) as HT. rewrite (sv_Tnv SV) in HT. done. }
  { intros u [Hu _]%(merged_removed _ _ _ _ _ Hm). pose proof (Hp' u Hu) as (? & ? & ?).
    split; [done|]. rewrite decide_False by done. split; [done|]. exists p. split; [done|]. by apply Hk in Hu as [? _]. }
  intros t1 V1. cbn [wp fst snd].
  assert (r < n) as Hrl by (apply (sv_range SV); congruence).
  eapply wp_mono; [apply (set_row_wp E _ _ _ _ _ _ V1 r m Hrl)|]. intros t2 V2.
  assert (∀ x, row_of t2 x = if decide (x = r) then Some m else row_of t x) as ER by apply (view_row _ _ _ _ _ _ V2).
  assert (∀ u, u ∈ keys m → T u = NONBASIC) as Hmk.
  { intros u Hu. destruct (merged_sub _ _ _ _ _ u Hm (or_introl Hu)) as [Hu'|Hu'];
      [by apply Hp' | by apply (sv_keys SV)]. }
  assert (bv ∈ keys m) as Hbm.
  { apply (merged_keys _ _ _ _ _ Hm). right. apply (merged_added _ _ _ _ _ Hm).
    split; [apply (sv_bv SV)|]. intros Hu. by destruct (Hp' bv Hu) as (_ & _ & ?). }
  constructor.
  - eapply view_ext; [exact V2|by intros x; rewrite ER| done| |done].
    intros u x HTu. unfold mentions. rewrite ER.
    destruct (decide (u = bv)) as [->|Hub].
    + split; [|intros Hx; left; split; [done|]].
      * intros [[? _]|(_ & _ & ?)]; done.
      * intros [-> Hrm]. apply (merged_removed _ _ _ _ _ Hm) in Hrm as [Hrm _].
        by destruct (Hp' bv Hrm) as (_ & _ & ?).
    + destruct (decide (x = r)) as [->|Hxr]; [|unfold mentions; naive_solver].
      assert ((T r = BASIC ∧ ∃ p1, Some m = Some p1 ∧ u ∈ keys p1) ↔ u ∈ keys m) as -> by naive_solver.
      rewrite (merged_keys _ _ _ _ _ Hm).
      assert (mentions (row_of t) T u r ↔ u ∈ keys p') as ->; [|naive_solver].
      unfold mentions. rewrite Hk. split; [|naive_solver].
      intros (_ & p1 & Hp1 & Hu1). split; [by simplify_eq|]. intros ->. rewrite (sv_Tnv SV) in HTu. done.
  - intros x Hx. rewrite ER. destruct (decide (x = r)) as [->|]; [|apply Htodo; set_solver].
    exfalso. destruct Hx as [Hx|Hx]; [set_solver | done].
  - intros x Hx Hxn. rewrite ER. destruct (decide (x = r)) as [->|Hne].
    + exists m. split; [done|]. split; [apply (merged_wf _ _ _ _ _ Hm)|]. done.
    + apply Hdone; [|done]. apply elem_of_app in Hx as [?|Hx%list_elem_of_singleton]; done.
  - intros σ. rewrite <- Hsat. unfold solution. apply (sat_replace _ _ r p m); [done|done|].
    intros Ho. rewrite (merged_val _ _ _ _ _ Hm), Ep.
    rewrite <- (Ho nv q); [apply ladd_comm | by intros -> | rewrite Htodo by (by right); apply (sv_nv SV)].
Qed.

Lemma substitute_all t : substituted [] t → wp E (substituted c) (foldM (substitute bv nv q) t c).
Proof.
  intros Hs. apply (foldM_wp E _ (λ pre _ t, substituted pre t)); [done|].
  intros pre r post t' Ec Hs'. by eapply substitute_step.
Qed.

End substitution.

(** ** [pivot] *)

Definition swapped (T : LVRef → VarType) (bv nv : LVRef) : LVRef → VarType :=
  fupd (fupd T bv NONBASIC) nv BASIC.

Lemma swapped_other T bv nv u : u ≠ bv → u ≠ nv → swapped T bv nv u = T u.
Proof. intros. unfold swapped, fupd. by rewrite !decide_False. Qed.

(** The system between the solving of the row and the substitutions. *)
Lemma pivot_solved n bv nv p q c (R : LVRef → option (poly_t N)) T : tab_ok n R T →
  T bv = BASIC → T nv = NONBASIC → R bv = Some p → nv ∈ keys p → poly_wf q →
  (∀ u, u ∈ keys q ↔ u = bv ∨ u ∈ keys p ∧ u ≠ nv) → NoDup c →
  (∀ r, r ∈ c ↔ (mentions R T nv r ∧ r ≠ bv) ∨ r = nv) →
  solved n bv nv q c (fupd (fupd R nv (Some q)) bv None) (swapped T bv nv).
Proof.
  intros O HTb HTn Hp Hnv Wq Hq Hc Hcm. assert (bv ≠ nv) as Hne by congruence.
  assert (∀ u, u ∈ keys p → T u = NONBASIC ∧ u ≠ bv) as Hk.
  { intros u Hu. pose proof (ok_basic _ _ _ O bv p u HTb Hp Hu). split; congruence. }
  assert (∀ u, T u = NONBASIC → u ≠ nv → swapped T bv nv u = NONBASIC) as Hnb.
  { intros u HTu Hun. rewrite swapped_other; congruence. }
  assert (∀ r, r ≠ bv → r ≠ nv → fupd (fupd R nv (Some q)) bv None r = R r) as HR.
  { intros r ? ?. unfold fupd. by rewrite !decide_False. }
  assert (∀ r, swapped T bv nv r = BASIC → r ≠ nv → T r = BASIC ∧ r ≠ bv) as Hb.
  { intros r. unfold swapped, fupd. destruct (decide (r = nv)); [done|].
    by destruct (decide (r = bv)). }
  constructor; try done.
  - unfold fupd. by rewrite decide_False, decide_True by congruence.
  - unfold swapped, fupd. by rewrite decide_True.
  - unfold swapped, fupd. by rewrite decide_False, decide_True by congruence.
  - intros u [->|[Hu Hun]]%Hq.
    + unfold swapped, fupd. by rewrite decide_False, decide_True by congruence.
    + by apply Hnb; [apply Hk|].
  - apply Hq. by left.
  - intros r. rewrite Hcm. destruct (decide (r = nv)) as [->|Hrn]; [naive_solver|]. split.
    + intros [[(HTr & p1 & Hp1 & Hin) Hrb]|?]; [|done]. right.
      rewrite swapped_other, HR by done. eauto.
    + intros [?|[HTr (p1 & Hp1 & Hin)]]; [done|]. destruct (Hb r HTr Hrn) as [HTr' Hrb].
      rewrite HR in Hp1 by done. left. split; [|done]. split; [done | eauto].
  - intros r p1 Hrn Hp1 HTr. destruct (Hb r HTr Hrn) as [HTr' Hrb]. rewrite HR in Hp1 by done.
    split; [by apply (ok_poly _ _ _ O r)|].
    intros Hin. pose proof (ok_basic _ _ _ O r p1 bv HTr' Hp1 Hin). congruence.
  - intros r p1 u Hrn Hp1 HTr Hu. destruct (Hb r HTr Hrn) as [HTr' Hrb]. rewrite HR in Hp1 by done.
    destruct (decide (u = nv)) as [|Hun]; [by left|]. right. apply Hnb; [|done].
    by apply (ok_basic _ _ _ O r p1).
  - intros r HTr. apply (ok_range _ _ _ O). unfold swapped, fupd in HTr.
    destruct (decide (r = nv)) as [->|]; [congruence|]. destruct (decide (r = bv)) as [->|]; congruence.
Qed.

Lemma sat_pivot bv nv p q (R R' : LVRef → option (poly_t N)) σ :
  R bv = Some p → R nv = None → bv ≠ nv →
  (∀ u, R' u = fupd (fupd R nv (Some q)) bv None u) → (σ nv = peval σ q ↔ σ bv = peval σ p) →
  sat R' σ ↔ sat R σ.
Proof.
  intros Hp Hn Hne HR Hq. unfold sat. split; intros Hs u pu Hu.
  - destruct (decide (u = bv)) as [->|Hub].
    + rewrite Hp in Hu. injection Hu as <-. apply Hq, Hs. rewrite HR. unfold fupd.
      by rewrite decide_False, decide_True by congruence.
    + apply Hs. rewrite HR. unfold fupd. rewrite decide_False by done. rewrite decide_False; congruence.
  - rewrite HR in Hu. unfold fupd in Hu. destruct (decide (u = bv)); [done|].
    destruct (decide (u = nv)) as [->|]; [|by apply Hs]. injection Hu as <-. by apply Hq, Hs.
Qed.

(** What a pivot gives. *)
Record pivoted bv nv t t' : Prop := {
  pv_inv : tab_inv t';
  pv_size : length (varTypes t') = length (varTypes t);
  pv_type u : type_of t' u = swapped (type_of t) bv nv u;
  pv_sat σ : solution t' σ ↔ solution t σ;
}.

Lemma pivoted_final bv nv p q c t t' : tab_inv t → type_of t bv = BASIC → type_of t nv = NONBASIC →
  row_of t bv = Some p →
  (∀ σ : LVRef → lexq, σ nv = peval σ q ↔ σ bv = peval σ p) →
  let R' := fupd (fupd (row_of t) nv (Some q)) bv None in
  let T' := swapped (type_of t) bv nv in
  solved (length (varTypes t)) bv nv q c R' T' →
  substituted (length (varTypes t)) bv nv c R' T' c t' → pivoted bv nv t t'.
Proof.
  intros [V O (l & Q)] HTb HTn Hp Hq R' T' SV [V' Htodo Hdone Hsat].
  assert (row_of t nv = None) as Hn.
  { destruct (row_of t nv) eqn:E; [|done]. destruct (proj1 (ok_row _ _ _ O nv)); [rewrite E; eauto|congruence..]. }
  pose proof (sv_ne _ _ _ _ _ _ _ SV) as Hne.
  assert (∀ u, u ≠ bv → u ≠ nv → R' u = row_of t u) as HR.
  { intros u ? ?. unfold R', fupd. by rewrite !decide_False. }
  assert (∀ u, (type_of t u = BASIC ∨ type_of t u = QUASIBASIC) ∧ u ≠ bv ∨ u = nv ↔ T' u = BASIC ∨ T' u = QUASIBASIC) as HT'.
  { intros u. unfold T', swapped, fupd. destruct (decide (u = nv)) as [->|]; [naive_solver|].
    destruct (decide (u = bv)) as [->|]; naive_solver. }
  assert (∀ r, r ∈ c → T' r = BASIC) as HcT.
  { intros r [->|[? _]]%(sv_col _ _ _ _ _ _ _ SV); [apply (sv_Tnv _ _ _ _ _ _ _ SV) | done]. }
  (* each row of the result is an old one, the solved one, or a new one *)
  assert (∀ u pu, row_of t' u = Some pu → poly_wf pu ∧
            (T' u = BASIC → (∀ x, x ∈ keys pu → T' x = NONBASIC)) ∧
            (T' u ≠ BASIC → row_of t u = Some pu ∧ u ≠ bv ∧ u ≠ nv)) as Hrows.
  { intros u pu Hu. destruct (decide (u = nv)) as [->|Hun].
    { rewrite Htodo, (sv_nv _ _ _ _ _ _ _ SV) in Hu by (by right). injection Hu as <-.
      split; [apply (sv_wf _ _ _ _ _ _ _ SV)|]. split; [intros _; apply (sv_keys _ _ _ _ _ _ _ SV)|].
      by rewrite (sv_Tnv _ _ _ _ _ _ _ SV). }
    destruct (decide (u ∈ c)) as [Hin|Hni].
    { destruct (Hdone u Hin Hun) as (p1 & Hp1 & W1 & _ & K1). simplify_eq.
      split; [done|]. split; [done|]. by rewrite (HcT u Hin). }
    rewrite Htodo in Hu by (by left). destruct (decide (u = bv)) as [->|Hub].
    { unfold R', fupd in Hu. by rewrite decide_True in Hu. }
    pose proof Hu as Hu'. rewrite HR in Hu' by done. split; [by apply (ok_poly _ _ _ O u)|]. split; [|done].
    intros HTu x Hx. destruct (sv_other _ _ _ _ _ _ _ SV u pu x Hun Hu HTu Hx) as [->|]; [|done].
    exfalso. apply Hni, (sv_col _ _ _ _ _ _ _ SV). right. eauto. }
  assert (∀ u, is_Some (row_of t' u) ↔ T' u = BASIC ∨ T' u = QUASIBASIC) as Hdom.
  { intros u. rewrite <- HT'. destruct (decide (u = nv)) as [->|Hun].
    { rewrite Htodo, (sv_nv _ _ _ _ _ _ _ SV) by (by right). naive_solver. }
    destruct (decide (u ∈ c)) as [Hin|Hni].
    { destruct (Hdone u Hin Hun) as (p1 & Hp1 & _). rewrite Hp1.
      pose proof (HcT u Hin) as HTu. split; [|eauto]. intros _. apply HT'. by left. }
    rewrite Htodo by (by left). destruct (decide (u = bv)) as [->|Hub].
    { unfold R', fupd. rewrite decide_True by done. split; [by intros [? [=]]|naive_solver]. }
    rewrite HR by done. rewrite (ok_row _ _ _ O). naive_solver. }
  apply view_self in V' as (Vs & En & _ & ET); [|done|].
  - constructor; [|done|done|].
    + constructor; [done| |].
      * rewrite En. apply (tab_ok_ext _ (row_of t') T'); [|done|done]. constructor.
        -- apply (sv_range _ _ _ _ _ _ _ SV).
        -- done.
        -- intros u pu Hu. by apply (Hrows u).
        -- intros u pu x Hu Hx. destruct (Hrows u pu Hu) as (_ & Hb & Ho).
           destruct (decide (T' u = BASIC)) as [Hb'|Hnb']; [rewrite Hb; done|].
           destruct (Ho Hnb') as (Hu' & _ & _). pose proof (ok_vars _ _ _ O u pu x Hu' Hx).
           unfold T', swapped, fupd. destruct (decide (x = nv)); [done|]. by destruct (decide (x = bv)).
        -- intros u pu x HTu Hu Hx. by apply (proj1 (proj2 (Hrows u pu Hu)) HTu).
      * rewrite En. exists l. destruct Q as [Q1 Q2 Q3 Q4].
        assert (∀ u, T' u = QUASIBASIC → type_of t u = QUASIBASIC) as HTq.
        { intros u. unfold T', swapped, fupd. destruct (decide (u = nv)); [done|]. by destruct (decide (u = bv)). }
        constructor; [intros u; rewrite ET; auto|done|done|].
        intros l1 u l2 pu x El Hu Hx HTx. rewrite ET in HTx.
        destruct (Hrows u pu Hu) as (_ & Hb & Ho).
        destruct (decide (T' u = BASIC)) as [Hb'|Hnb']; [rewrite Hb in HTx; done|].
        destruct (Ho Hnb') as (Hu' & _ & _). eapply Q4; eauto.
    + intros σ. rewrite Hsat. unfold solution. apply (sat_pivot bv nv p q); done.
  - intros u r HTu. destruct (decide (u = bv)) as [->|Hub]; [|done].
    unfold mentions. split.
    + intros Hin. split; [by apply HcT|]. destruct (decide (r = nv)) as [->|Hrn].
      * exists q. rewrite Htodo by (by right). split; [apply (sv_nv _ _ _ _ _ _ _ SV) | apply (sv_bv _ _ _ _ _ _ _ SV)].
      * destruct (Hdone r Hin Hrn) as (p1 & ? & _ & ? & _). eauto.
    + intros [HTr (p1 & Hp1 & Hin)]. destruct (decide (r ∈ c)) as [|Hni]; [done|]. exfalso.
      destruct (decide (r = nv)) as [->|Hrn].
      { apply Hni, (sv_col _ _ _ _ _ _ _ SV). by left. }
      rewrite Htodo in Hp1 by (by left). by destruct (sv_row _ _ _ _ _ _ _ SV r p1 Hrn Hp1 HTr).
Qed.

Lemma pivot_wp E bv nv t p : tab_inv t → type_of t bv = BASIC → type_of t nv = NONBASIC →
  row_of t bv = Some p → nv ∈ keys p → wp E (pivoted bv nv t) (pivot bv nv t).
Proof.
  intros I HTb HTn Hp Hnv. pose proof I as [V O _]. set (n := length (varTypes t)) in *.
  assert (bv ≠ nv) as Hne by congruence.
  assert (bv < n) as Hbl by (apply (ok_range _ _ _ O); congruence).
  assert (nv < n) as Hnl by (apply (ok_range _ _ _ O); congruence).
  assert (∀ u, u ∈ keys p → type_of t u = NONBASIC ∧ u ≠ bv) as Hk.
  { intros u Hu. pose proof (ok_basic _ _ _ O bv p u HTb Hp Hu). split; congruence. }
  assert (row_of t nv = None) as Hn.
  { destruct (row_of t nv) eqn:E'; [|done]. destruct (proj1 (ok_row _ _ _ O nv)); [rewrite E'; eauto|congruence..]. }
  unfold pivot. rewrite (proj2 (isBasic_iff t bv) HTb), (proj2 (isNonBasic_iff t nv) HTn). cbn [check rbind].
  apply wp_bind. eapply wp_mono; [apply (set_type_wp E _ _ _ _ _ _ V bv NONBASIC Hbl)|]. intros t1 V1.
  apply wp_bind. eapply wp_mono; [apply (set_type_wp E _ _ _ _ _ _ V1 nv BASIC Hnl)|]. intros t2 V2.
  eapply getColumn_wp; [exact V2|done|]. intros _ _ _. cbn beta.
  eapply at_cols_wp; [exact V2|done|congruence|]. cbn [rbind]. rewrite bool_decide_true by done. cbn [check rbind].
  eapply getRowPoly_wp; [exact V2|exact Hp|].
  eapply at_rows_wp; [exact V2|done|]. rewrite Hn, bool_decide_true by done. cbn [check rbind].
  destruct (solve_row_ok bv nv p (ok_poly _ _ _ O bv p Hp) Hnv) as (q & -> & Wq & Hq & Hsol).
  { intros Hin. by destruct (Hk bv Hin). }
  cbn [rbind].
  apply wp_bind. eapply wp_mono; [apply (set_row_wp E _ _ _ _ _ _ V2 bv q Hbl)|]. intros t3 V3.
  apply wp_bind. eapply wp_mono; [apply (moveRowFromTo_wp E bv nv _ _ _ _ _ _ q V3)|]; try done.
  { unfold fupd. by rewrite decide_False by congruence. }
  { unfold fupd. by rewrite decide_True. }
  intros t4 V4. apply wp_bind.
  eapply wp_mono; [apply (moveColFromTo_wp E nv bv _ _ _ _ _ _ V4)|]; try done; [congruence..|].
  intros t5 V5. cbn beta.
  eapply getRowPoly_wp; [exact V5| |].
  { unfold fupd. by rewrite decide_False, decide_True by congruence. }
  apply wp_bind. eapply wp_mono; [apply (swapInColumns_wp E bv nv q _ _ _ _ _ _ V5)|]; [by apply keys_NoDup, Wq|done| |].
  { intros u [->|[Hu Hun]]%Hq; unfold fupd.
    - split; [by left|]. rewrite decide_True by done. unfold mentions. split; [eauto|]. intros [? _]; congruence.
    - destruct (Hk u Hu) as [HTu Hub]. split; [by right|]. rewrite decide_False by done. unfold mentions.
      split; [eauto|]. intros [? _]; congruence. }
  intros t6 V6. eapply getColumn_wp; [exact V6|by left|]. intros c Hc Hcm.
  assert (∀ r, r ∈ c ↔ (mentions (row_of t) (type_of t) nv r ∧ r ≠ bv) ∨ r = nv) as Hcm'.
  { intros r. rewrite Hcm. unfold fupd. rewrite decide_True by done.
    assert (bv ∈ keys q) by (apply Hq; by left). naive_solver. }
  pose proof (pivot_solved n bv nv p q c _ _ O HTb HTn Hp Hnv Wq Hq Hc Hcm') as SV.
  pose proof (view_row _ _ _ _ _ _ V6) as ER6.
  apply wp_bind. eapply wp_mono; [apply (substitute_all E n bv nv q c _ _ SV)|].
  { assert (∀ u, row_of t6 u = fupd (fupd (row_of t) nv (Some q)) bv None u) as ER.
    { intros u. rewrite ER6. unfold fupd. by destruct (decide (u = bv)), (decide (u = nv)). }
    constructor.
    - eapply view_ext; [exact V6|done| | |done].
      + intros u. unfold swapped, fupd. destruct (decide (u = nv)) as [->|]; [naive_solver|].
        destruct (decide (u = bv)) as [->|]; naive_solver.
      + intros u r Hu. destruct (decide (u = bv)) as [->|Hub]; [by rewrite Hcm|].
        assert (type_of t u = NONBASIC ∧ u ≠ nv) as [HTu Hun] by naive_solver.
        unfold fupd at 1. rewrite decide_False by done. unfold mentions. rewrite ER, Hq.
        unfold swapped, fupd. destruct (decide (r = nv)) as [->|Hrn].
        * rewrite decide_False by done. split; [|naive_solver]. intros [[[? _] _]|[? _]]; [congruence|].
          split; [done|]. exists q. split; [done|]. by apply Hq.
        * destruct (decide (r = bv)) as [->|Hrb]; [|naive_solver].
          split; [|by intros [[=] _]]. intros [[(_ & p1 & Hp1 & Hin) Hnot]|[_ ?]]; [|done].
          exfalso. apply Hnot. split; [|done]. right. simplify_eq. done.
    - intros r _. apply ER.
    - by intros r ?%not_elem_of_nil.
    - intros σ. unfold solution. by apply sat_ext. }
  intros t7 S7. pose proof (pivoted_final bv nv p q c t t7 I HTb HTn Hp Hsol SV S7) as Hpiv.
  destruct Hpiv as [I7 N7 T7 Hs7] eqn:Epiv. clear Epiv. pose proof I7 as [V7 O7 _].
  eapply at_cols_wp; [exact V7|lia| |].
  { cbn beta. rewrite T7, (sv_Tnv _ _ _ _ _ _ _ SV). done. }
  cbn [rbind]. rewrite bool_decide_true by done. cbn [check rbind].
  eapply getColumn_wp; [exact V7|cbn beta; by rewrite T7, (sv_Tbv _ _ _ _ _ _ _ SV)|]. intros _ _ _. cbn beta.
  eapply at_rows_wp; [exact V7|lia|].
  assert (row_of t7 bv = None) as ->.
  { destruct (row_of t7 bv) eqn:E'; [|done]. pose proof (sv_Tbv _ _ _ _ _ _ _ SV) as E2.
    destruct (proj1 (ok_row _ _ _ O7 bv)) as [E1|E1]; [rewrite E'; eauto| |]; rewrite T7 in E1; congruence. }
  rewrite bool_decide_true by done. cbn [check rbind].
  assert (is_Some (row_of t7 nv)) as [q7 Hq7].
  { apply (ok_row _ _ _ O7). left. rewrite T7. apply (sv_Tnv _ _ _ _ _ _ _ SV). }
  eapply getRowPoly_wp; [exact V7|exact Hq7|]. done.
Qed.

End pivot.
