(* ===== verification/LABounds.v ===== *)
(** * The bounds of the arithmetic variables

    LABounds.h, LABounds.cc, LAVar.cc.  Every inequality gives its variable a
    pair of bounds, one for each polarity.  The bounds of a variable are kept
    in a list ordered by value, and a bound knows its position, so that two
    bounds of a variable compare by their positions.

    A reference [LABoundRef] is the number of the bound in allocation order:
    the region allocator's offset is that number times the size of a bound. *)
From stdpp Require Import sorting.
From S2P Require Import Prelude Gmp FastRationalInt Number Lex Delta Polynomial.
From Stdlib Require Import Lia.

#[local] Open Scope nat_scope.

Abbreviation LABoundRef := nat (only parsing).

(** ** Variables *)

(** [LAVarStore]: references are handed out in order. *)
Abbreviation LAVarStore := (list LVRef) (only parsing).
Definition getNewVar (s : LAVarStore) : LVRef * LAVarStore := (length s, s ++ [length s]).
Definition numVars (s : LAVarStore) : nat := length s.

Inductive BoundT : Type := bound_l | bound_u.
#[global] Instance BoundT_eq_dec : EqDecision BoundT.
Proof. solve_decision. Defined.

Section bounds.
Context {N : Type} `{Number N}.

(** [setIdx] overwrites [bidx]; a new bound has the index [UINT32_MAX], here
    [None]. *)
Record LABound : Type := MkLABound {
  type : BoundT;
  bidx : option nat;
  id : nat;
  lvref : LVRef;
  delta : Delta N;
}.

Definition LABound_new (ty : BoundT) (v : LVRef) (d : Delta N) (i : nat) : LABound := MkLABound ty None i v d.
Definition setIdx (i : nat) (b : LABound) : LABound := MkLABound (type b) (Some i) (id b) (lvref b) (delta b).

Definition alloc (ty : BoundT) (v : LVRef) (d : Delta N) (a : list LABound) : LABoundRef * list LABound :=
  (length a, a ++ [LABound_new ty v d (length a)]).

Record BoundInfo : Type := MkBoundInfo { bi_v : LVRef; bi_ub : LABoundRef; bi_lb : LABoundRef }.
Record BoundValuePair : Type := MkBoundValuePair { bv_upper : Delta N; bv_lower : Delta N }.

Record LABoundStore : Type := MkLABoundStore {
  in_bounds : list BoundInfo;
  ba : list LABound;
  lvstore : LAVarStore;
  bounds : list (list LABoundRef);
}.

Definition LABoundStore_clear (s : LABoundStore) : LABoundStore := MkLABoundStore [] [] (lvstore s) [].

(** [boundStore[br]] *)
Definition get_bound (s : LABoundStore) (br : LABoundRef) : res LABound := at_ (ba s) br.

Definition bound_lessthan (a : list LABound) (r1 r2 : LABoundRef) : res bool :=
  let! b1 := at_ a r1 in
  let! b2 := at_ a r2 in
  Ok (Delta_lt (delta b1) (delta b2)).

(** [bounds.at(getVarId(v))] throws out of range. *)
Definition getBounds (s : LABoundStore) (v : LVRef) : res (list LABoundRef) := at_ (bounds s) v.

Definition getBoundByIdx (s : LABoundStore) (v : LVRef) (it : nat) : res LABoundRef :=
  let! l := getBounds s v in
  let! _ := check (it <? length l) in
  at_ l it.

Definition isUnbounded (s : LABoundStore) (v : LVRef) : res bool :=
  let! l := getBounds s v in Ok (length l =? 0).

Definition ensureReadyFor (v : LVRef) (s : LABoundStore) : LABoundStore :=
  MkLABoundStore (in_bounds s) (ba s) (lvstore s) (grow (bounds s) v []).

Definition allocBoundPair (v : LVRef) (bp : BoundValuePair) (s : LABoundStore) : BoundInfo * LABoundStore :=
  let s := ensureReadyFor v s in
  let (ub, a) := alloc bound_u v (bv_upper bp) (ba s) in
  let (lb, a) := alloc bound_l v (bv_lower bp) a in
  let bi := MkBoundInfo v ub lb in
  (bi, MkLABoundStore (in_bounds s ++ [bi]) a (lvstore s) (bounds s)).

(** [ba[br].setIdx(i)] *)
Definition set_idx (br : LABoundRef) (i : nat) (a : list LABound) : res (list LABound) :=
  let! b := at_ a br in upd a br (setIdx i b).

(** The new bound sinks from the end of the list to its place; the bounds it
    passes move up by one. *)
Fixpoint sink (idx : nat) (a : list LABound) (l : list LABoundRef) :
    res (nat * list LABound * list LABoundRef) :=
  match idx with
  | O => Ok (O, a, l)
  | S i =>
      let! x := at_ l i in
      let! y := at_ l (S i) in
      let! b := bound_lessthan a x y in
      if b then Ok (S i, a, l)
      else
        let! l := upd l i y in
        let! l := upd l (S i) x in
        let! a := set_idx x (S i) a in
        sink i a l
  end.

Definition insert_bound (bound : LABoundRef) (a : list LABound) (l : list LABoundRef) :
    res (list LABound * list LABoundRef) :=
  let idx := length l in
  let! r := sink idx a (l ++ [bound]) in
  let '(idx, a, l) := r in
  let! x := at_ l idx in
  let! _ := check (x =? bound) in
  let! a := set_idx x idx a in
  Ok (a, l).

(** The postcondition of [updateBound]: indices are places. *)
Definition indices_ok (a : list LABound) (l : list LABoundRef) : bool :=
  forallb (λ i, match l !! i with
                | Some br => match a !! br with
                             | Some b => bool_decide (bidx b = Some i)
                             | None => false
                             end
                | None => false
                end) (seq 0 (length l)).

Definition updateBound (bi : BoundInfo) (s : LABoundStore) : res LABoundStore :=
  let! l := getBounds s (bi_v bi) in
  let! r := insert_bound (bi_ub bi) (ba s) l in
  let! r := insert_bound (bi_lb bi) r.1 r.2 in
  let! _ := check (indices_ok r.1 r.2) in
  let! bs := upd (bounds s) (bi_v bi) r.2 in
  Ok (MkLABoundStore (in_bounds s) r.1 (lvstore s) bs).

(** ** The ordered lists *)

Definition bval (a : list LABound) (br : LABoundRef) : lexq :=
  match a !! br with Some b => dval (delta b) | None => lzero end.

(** A list of bounds of [v]: allocated, ordered by value, indexed by place. *)
Record bounds_of (a : list LABound) (v : LVRef) (l : list LABoundRef) : Prop := {
  bo_alloc br : br ∈ l → ∃ b, a !! br = Some b ∧ lvref b = v;
  bo_sorted i j x y : i ≤ j → l !! i = Some x → l !! j = Some y → (bval a x <= bval a y)%lex;
  bo_index i x b : l !! i = Some x → a !! x = Some b → bidx b = Some i;
}.

Record store_ok (s : LABoundStore) : Prop := {
  so_lists v l : bounds s !! v = Some l → bounds_of (ba s) v l;
}.

(** Changes of indices only. *)
Definition reindexed (a a' : list LABound) : Prop :=
  length a' = length a ∧
  ∀ br b, a !! br = Some b → ∃ b', a' !! br = Some b' ∧ type b' = type b ∧ id b' = id b
                               ∧ lvref b' = lvref b ∧ delta b' = delta b.

Lemma reindexed_refl a : reindexed a a.
Proof. split; [done|]. intros br b Hb. exists b. done. Qed.

Lemma reindexed_trans a1 a2 a3 : reindexed a1 a2 → reindexed a2 a3 → reindexed a1 a3.
Proof.
  intros [L1 R1] [L2 R2]. split; [congruence|]. intros br b Hb.
  destruct (R1 br b Hb) as (b2 & Hb2 & ? & ? & ? & ?). destruct (R2 br b2 Hb2) as (b3 & Hb3 & ? & ? & ? & ?).
  exists b3. repeat split; congruence.
Qed.

Lemma reindexed_bval a a' br : reindexed a a' → bval a' br = bval a br.
Proof.
  intros [L R]. unfold bval. destruct (a !! br) as [b|] eqn:E.
  - destruct (R br b E) as (b' & -> & _ & _ & _ & ->). done.
  - apply lookup_ge_None in E. assert (a' !! br = None) as -> by (apply lookup_ge_None; lia). done.
Qed.

Lemma set_idx_ok br i a b : a !! br = Some b →
  set_idx br i a = Ok (<[br := setIdx i b]> a) ∧ reindexed a (<[br := setIdx i b]> a).
Proof.
  intros Hb. pose proof (lookup_lt_Some _ _ _ Hb) as Hl. unfold set_idx, at_, upd. rewrite Hb. cbn [rbind].
  rewrite (proj2 (Nat.ltb_lt _ _) Hl). split; [done|]. split; [by rewrite length_insert|].
  intros x c Hc. destruct (decide (x = br)) as [->|].
  - rewrite list_lookup_insert_eq by done. simplify_eq. by exists (setIdx i b).
  - rewrite list_lookup_insert_ne by done. by exists c.
Qed.

(** ** Insertion keeps the order *)

Lemma bounds_of_lookup a v l i x : bounds_of a v l → l !! i = Some x →
  ∃ b, a !! x = Some b ∧ bidx b = Some i ∧ lvref b = v.
Proof.
  intros Hb Hi. destruct (bo_alloc _ _ _ Hb x) as (b & Ha & Hv); [by eapply list_elem_of_lookup_2|].
  exists b. split; [done|]. split; [|done]. by eapply (bo_index _ _ _ Hb).
Qed.

Lemma bounds_of_inj a v l i j x : bounds_of a v l → l !! i = Some x → l !! j = Some x → i = j.
Proof.
  intros Hb Hi Hj. destruct (bounds_of_lookup _ _ _ _ _ Hb Hi) as (b & Ha & Ei & _).
  pose proof (bo_index _ _ _ Hb j x b Hj Ha). congruence.
Qed.

Lemma bound_lessthan_ok a x y bx bY : a !! x = Some bx → a !! y = Some bY →
  ∃ r, bound_lessthan a x y = Ok r ∧ (r = true ↔ (bval a x < bval a y)%lex).
Proof.
  intros Hx Hy. unfold bound_lessthan, at_, bval. rewrite Hx, Hy. cbn [rbind].
  eexists. split; [done|]. apply Delta_lt_val.
Qed.

Section insertion.
Context (a0 : list LABound) (v : LVRef) (old : list LABoundRef) (bound : LABoundRef).
Hypothesis Hold : bounds_of a0 v old.
Hypothesis Hnew : bound ∉ old.
Hypothesis Halloc : ∃ b, a0 !! bound = Some b ∧ lvref b = v.

(** The list while the bound sinks: it sits at place [i]. *)
Record sinking (i : nat) (a : list LABound) (l : list LABoundRef) : Prop := {
  sk_le : i ≤ length old;
  sk_list : l = take i old ++ bound :: drop i old;
  sk_reindexed : reindexed a0 a;
  sk_index j x b : old !! j = Some x → a !! x = Some b → bidx b = Some (if j <? i then j else S j);
  sk_frame x : x ∉ old → a !! x = a0 !! x;
  sk_above j x : i ≤ j → old !! j = Some x → (bval a0 bound <= bval a0 x)%lex;
}.

Lemma sinking_step i x a l : old !! i = Some x → (bval a0 bound <= bval a0 x)%lex → sinking (S i) a l →
  ∃ l' a', (let! y := at_ l (S i) in let! l := upd l i y in let! l := upd l (S i) x in
            let! a := set_idx x (S i) a in Ok (a, l)) = Ok (a', l') ∧ sinking i a' l'.
Proof.
  intros Hx Hle [K1 K2 K3 K4 K6 K5]. pose proof (lookup_lt_Some _ _ _ Hx) as Hl.
  assert (take (S i) old = take i old ++ [x]) as Et by (by apply take_S_r).
  assert (drop i old = x :: drop (S i) old) as Ed by (by apply drop_S).
  assert (l = take i old ++ x :: bound :: drop (S i) old) as -> by (by rewrite K2, Et, <- app_assoc).
  assert (length (take i old) = i) as Ei by (rewrite length_take; lia).
  assert (at_ (take i old ++ x :: bound :: drop (S i) old) (S i) = Ok bound) as ->.
  { unfold at_. rewrite lookup_app_r by lia. by replace (S i - length (take i old)) with 1 by lia. }
  cbn [rbind]. unfold upd at 1. rewrite length_app. simpl.
  rewrite (proj2 (Nat.ltb_lt _ _)) by (rewrite ?length_app; simpl; lia). cbn [rbind].
  rewrite insert_app_r_alt by lia. replace (i - length (take i old)) with 0 by lia. simpl.
  unfold upd. rewrite (proj2 (Nat.ltb_lt _ _)) by (rewrite ?length_app; simpl; lia). cbn [rbind].
  rewrite insert_app_r_alt by lia. replace (S i - length (take i old)) with 1 by lia. simpl.
  destruct (bounds_of_lookup _ _ _ _ _ Hold Hx) as (b0 & Hb0 & _).
  destruct (proj2 K3 x b0 Hb0) as (b & Hb & _). destruct (set_idx_ok x (S i) a b Hb) as [-> Hri].
  cbn [rbind]. eexists _, _. split; [done|]. constructor.
  - lia.
  - by rewrite Ed.
  - by eapply reindexed_trans.
  - intros j y c Hj Hc. destruct (decide (y = x)) as [->|Hne].
    + assert (j = i) as -> by (by apply (bounds_of_inj a0 v old _ _ x)).
      rewrite list_lookup_insert_eq in Hc by (by eapply lookup_lt_Some). injection Hc as <-. simpl.
      destruct (Nat.ltb_spec i i); [lia | done].
    + rewrite list_lookup_insert_ne in Hc by done. rewrite (K4 j y c Hj Hc).
      assert (j ≠ i) by (intros ->; congruence).
      destruct (Nat.ltb_spec j (S i)), (Nat.ltb_spec j i); done || lia.
  - intros y Hy. rewrite list_lookup_insert_ne; [by apply K6|]. intros ->. apply Hy. by eapply list_elem_of_lookup_2.
  - intros j y Hij Hj. destruct (decide (j = i)) as [->|]; [by simplify_eq|]. apply (K5 j); [lia|done].
Qed.

Lemma sink_ok i a l : sinking i a l → ∃ k a' l', sink i a l = Ok (k, a', l') ∧ sinking k a' l'
  ∧ (∀ j x, j < k → old !! j = Some x → (bval a0 x <= bval a0 bound)%lex).
Proof.
  revert a l. induction i as [|i IH]; intros a l K.
  { exists 0, a, l. split; [done|]. split; [done|]. lia. }
  pose proof K as [K1 K2 K3 K4 K6 K5].
  destruct (lookup_lt_is_Some_2 old i) as [x Hx]; [lia|].
  destruct (bounds_of_lookup _ _ _ _ _ Hold Hx) as (b0 & Hb0 & _). destruct Halloc as (c0 & Hc0 & _).
  destruct (proj2 K3 x b0 Hb0) as (b & Hb & _). destruct (proj2 K3 bound c0 Hc0) as (c & Hc & _).
  assert (length (take (S i) old) = S i) as Ei by (rewrite length_take; lia).
  assert (at_ l i = Ok x) as E1.
  { unfold at_. rewrite K2, lookup_app_l, lookup_take_lt by lia. by rewrite Hx. }
  assert (at_ l (S i) = Ok bound) as E2.
  { unfold at_. rewrite K2, lookup_app_r by lia. by replace (S i - length (take (S i) old)) with 0 by lia. }
  destruct (bound_lessthan_ok a x bound b c Hb Hc) as (r & Er & Hr).
  rewrite (reindexed_bval a0 a x K3), (reindexed_bval a0 a bound K3) in Hr.
  cbn [sink]. rewrite E1. cbn [rbind]. rewrite E2. cbn [rbind]. rewrite Er. cbn [rbind].
  destruct r.
  - exists (S i), a, l. split; [done|]. split; [done|]. intros j y Hj Hy.
    apply (lle_trans _ (bval a0 x)); [|apply llt_le; by apply Hr].
    apply (bo_sorted _ _ _ Hold j i); [lia|done..].
  - assert (bval a0 bound <= bval a0 x)%lex as Hle.
    { apply lle_not_lt. intros Hlt. apply Hr in Hlt. done. }
    destruct (sinking_step i x a l Hx Hle K) as (l' & a' & Es & K').
    rewrite E2 in Es. cbn [rbind] in Es.
    destruct (upd l i bound) as [l1|]; [|done]. cbn [rbind] in Es |- *.
    destruct (upd l1 (S i) x) as [l2|]; [|done]. cbn [rbind] in Es |- *.
    destruct (set_idx x (S i) a) as [a1|]; [|done]. cbn [rbind] in Es |- *.
    injection Es as -> ->. by apply IH.
Qed.

Lemma insert_bound_ok : ∃ a l, insert_bound bound a0 old = Ok (a, l) ∧ bounds_of a v l ∧ reindexed a0 a
  ∧ l ≡ₚ bound :: old ∧ ∀ x, x ∉ bound :: old → a !! x = a0 !! x.
Proof.
  unfold insert_bound. destruct (sink_ok (length old) a0 (old ++ [bound])) as (k & a & l & -> & K & Hlow).
  { constructor; [done| |apply reindexed_refl| |done|].
    - by rewrite firstn_all, drop_all.
    - intros j x b Hj Hb. rewrite (bo_index _ _ _ Hold j x b Hj Hb).
      pose proof (lookup_lt_Some _ _ _ Hj). by rewrite (proj2 (Nat.ltb_lt _ _)).
    - intros j x Hj Hx. apply lookup_lt_Some in Hx. lia. }
  destruct K as [K1 K2 K3 K4 K6 K5]. cbn [rbind].
  assert (length (take k old) = k) as Ek by (rewrite length_take; lia).
  assert (at_ l k = Ok bound) as ->.
  { unfold at_. rewrite K2, lookup_app_r by lia. by rewrite Ek, Nat.sub_diag. }
  cbn [rbind]. rewrite Nat.eqb_refl. cbn [check rbind].
  destruct Halloc as (c0 & Hc0 & Hv0). destruct (proj2 K3 bound c0 Hc0) as (c & Hc & _ & _ & Hcv & _).
  destruct (set_idx_ok bound k a c Hc) as [-> Hri]. cbn [rbind].
  eexists _, _. split; [done|].
  assert (reindexed a0 (<[bound:=setIdx k c]> a)) as R by (by eapply reindexed_trans).
  assert (l ≡ₚ bound :: old) as Hperm.
  { rewrite K2, <- Permutation_middle. by rewrite take_drop. }
  assert (∀ i x, l !! i = Some x → (x = bound ∧ i = k) ∨ ∃ j, old !! j = Some x ∧ i = if j <? k then j else S j) as Hpos.
  { intros i x. rewrite K2. intros [Hi|[Hge Hi]]%lookup_app_Some.
    - apply lookup_take_Some in Hi as [Hi Hlt]. right. exists i. by rewrite (proj2 (Nat.ltb_lt _ _)).
    - rewrite Ek in *. destruct (i - k) as [|d] eqn:Ed; simpl in Hi.
      + left. split; [congruence | lia].
      + right. exists (k + d). rewrite lookup_drop in Hi. split; [done|].
        rewrite (proj2 (Nat.ltb_ge _ _)) by lia. lia. }
  split; [|split; [done|]; split; [done|]].
  2:{ intros x Hx. rewrite list_lookup_insert_ne by set_solver. apply K6. set_solver. }
  constructor.
  - intros x Hx. rewrite Hperm, elem_of_cons in Hx. destruct Hx as [->|Hx].
    + destruct (proj2 R bound c0 Hc0) as (b' & ? & _ & _ & ? & _). exists b'. split; [done|congruence].
    + apply (bo_alloc _ _ _ Hold) in Hx as (b0 & Hb0 & Hbv).
      destruct (proj2 R x b0 Hb0) as (b' & ? & _ & _ & ? & _). exists b'. split; [done|congruence].
  - intros i j x y Hij Hi Hj. rewrite (reindexed_bval a0 _ x R), (reindexed_bval a0 _ y R).
    destruct (Hpos i x Hi) as [[-> ->]|(i' & Hi' & Ei)], (Hpos j y Hj) as [[-> ->]|(j' & Hj' & Ej)].
    + apply lle_refl.
    + apply (K5 j'); [|done]. destruct (Nat.ltb_spec j' k); lia.
    + apply (Hlow i'); [|done]. destruct (Nat.ltb_spec i' k); lia.
    + apply (bo_sorted _ _ _ Hold i' j'); [|done..].
      destruct (Nat.ltb_spec i' k), (Nat.ltb_spec j' k); lia.
  - intros i x b Hi Hb. destruct (Hpos i x Hi) as [[-> ->]|(i' & Hi' & Ei)].
    + rewrite list_lookup_insert_eq in Hb by (by eapply lookup_lt_Some). by injection Hb as <-.
    + rewrite list_lookup_insert_ne in Hb; [by rewrite (K4 i' x b Hi' Hb), Ei|].
      intros ->. apply Hnew. by eapply list_elem_of_lookup_2.
Qed.

End insertion.

Lemma reindexed_bounds_of a a' v l : reindexed a a' → (∀ x, x ∈ l → a' !! x = a !! x) →
  bounds_of a v l → bounds_of a' v l.
Proof.
  intros R Hsame [B1 B2 B3]. constructor.
  - intros x Hx. rewrite Hsame by done. by apply B1.
  - intros i j x y Hij Hi Hj. rewrite (reindexed_bval a _ x R), (reindexed_bval a _ y R). by eapply B2.
  - intros i x b Hi. rewrite Hsame by (by eapply list_elem_of_lookup_2). by apply B3.
Qed.

Lemma indices_ok_true a v l : bounds_of a v l → indices_ok a l = true.
Proof.
  intros Hb. apply forallb_forall. intros i Hi. apply in_seq in Hi as [_ Hi]. simpl in Hi.
  apply lookup_lt_is_Some in Hi as [x Hx]. rewrite Hx.
  destruct (bounds_of_lookup _ _ _ _ _ Hb Hx) as (b & -> & E & _). by apply bool_decide_eq_true.
Qed.

(** A bound that can still be inserted for [v]. *)
Definition fresh_bound (s : LABoundStore) (v : LVRef) (br : LABoundRef) : Prop :=
  (∃ b, ba s !! br = Some b ∧ lvref b = v) ∧ ∀ l, bounds s !! v = Some l → br ∉ l.

(** [updateBound] keeps every list ordered and indexed. *)
Lemma updateBound_wp E bi s : store_ok s → bi_v bi < length (bounds s) →
  fresh_bound s (bi_v bi) (bi_ub bi) → fresh_bound s (bi_v bi) (bi_lb bi) → bi_ub bi ≠ bi_lb bi →
  wp E (λ s', store_ok s' ∧ reindexed (ba s) (ba s')
    ∧ (∃ l l', bounds s !! bi_v bi = Some l ∧ bounds s' !! bi_v bi = Some l' ∧ l' ≡ₚ bi_lb bi :: bi_ub bi :: l)
    ∧ (∀ u, u ≠ bi_v bi → bounds s' !! u = bounds s !! u)
    ∧ in_bounds s' = in_bounds s ∧ lvstore s' = lvstore s ∧ length (bounds s') = length (bounds s)) (updateBound bi s).
Proof.
  intros [So] Hv [Au Fu] [Al Fl] Hne. apply lookup_lt_is_Some in Hv as [l Hl].
  unfold updateBound, getBounds, at_. rewrite Hl. cbn [rbind].
  destruct (insert_bound_ok (ba s) (bi_v bi) l (bi_ub bi) (So _ _ Hl) (Fu _ Hl) Au) as (a1 & l1 & -> & B1 & R1 & P1 & F1).
  cbn [rbind fst snd].
  assert (bi_lb bi ∉ l1) as Hn1 by (rewrite P1; pose proof (Fl _ Hl); set_solver).
  assert (∃ b, a1 !! bi_lb bi = Some b ∧ lvref b = bi_v bi) as A1.
  { destruct Al as (b & Hb & Eb). destruct (proj2 R1 _ b Hb) as (b' & ? & _ & _ & ? & _). exists b'. split; congruence. }
  destruct (insert_bound_ok a1 (bi_v bi) l1 (bi_lb bi) B1 Hn1 A1) as (a2 & l2 & -> & B2 & R2 & P2 & F2).
  cbn [rbind fst snd]. rewrite (indices_ok_true _ _ _ B2). cbn [check rbind].
  apply wp_bind. apply upd_wp; [by eapply lookup_lt_Some|]. cbn [wp bounds ba].
  assert (reindexed (ba s) a2) as R by (by eapply reindexed_trans).
  split; [|split; [done|]; split; [|split; [|by rewrite length_insert]]].
  - constructor. simpl. intros u k Hk. destruct (decide (u = bi_v bi)) as [->|Hu].
    + rewrite list_lookup_insert_eq in Hk by (by eapply lookup_lt_Some). by injection Hk as <-.
    + rewrite list_lookup_insert_ne in Hk by done. apply (reindexed_bounds_of (ba s)); [done| |by apply So].
      (* the references of another variable are not of this one *)
      intros x Hx. destruct (bo_alloc _ _ _ (So _ _ Hk) x Hx) as (b & Hb & Eb).
      assert (∀ y, y ∈ bi_lb bi :: bi_ub bi :: l → x ≠ y) as Hxy.
      { intros y Hy ->. assert (∃ b, ba s !! y = Some b ∧ lvref b = bi_v bi) as (b' & Hb' & Eb').
        { apply elem_of_cons in Hy as [->|[->|Hy]%elem_of_cons]; [done..|]. by apply (bo_alloc _ _ _ (So _ _ Hl)). }
        congruence. }
      rewrite F2, F1; [done| |].
      * intros Hin. by apply (Hxy x); [right|].
      * intros [->|Hin]%elem_of_cons; [by apply (Hxy (bi_lb bi)); [left|]|].
        rewrite P1 in Hin. by apply (Hxy x); [right|].
  - exists l, l2. split; [done|]. split; [apply list_lookup_insert_eq; by eapply lookup_lt_Some|]. by rewrite P2, P1.
  - intros u Hu. by rewrite list_lookup_insert_ne.
Qed.

(** Places decide the order of two bounds of a variable. *)
Lemma index_order s v l x y bx bY ix iy : store_ok s → bounds s !! v = Some l → x ∈ l → y ∈ l →
  ba s !! x = Some bx → ba s !! y = Some bY → bidx bx = Some ix → bidx bY = Some iy →
  (ix ≤ iy → (dval (delta bx) <= dval (delta bY))%lex)
  ∧ (ix < iy → dval (delta bx) ≠ dval (delta bY) → (dval (delta bx) < dval (delta bY))%lex).
Proof.
  intros [So] Hl Hx Hy Ax Ay Ix Iy. pose proof (So v l Hl) as B.
  apply list_elem_of_lookup_1 in Hx as [i Hi], Hy as [j Hj].
  rewrite (bo_index _ _ _ B i x bx Hi Ax) in Ix. rewrite (bo_index _ _ _ B j y bY Hj Ay) in Iy. simplify_eq.
  assert (ix ≤ iy → (dval (delta bx) <= dval (delta bY))%lex) as Hle.
  { intros Hij. pose proof (bo_sorted _ _ _ B ix iy x y Hij Hi Hj) as Hs. unfold bval in Hs.
    by rewrite Ax, Ay in Hs. }
  split; [done|]. intros Hij Hne. specialize (Hle ltac:(lia)).
  destruct (lle_total (dval (delta bY)) (dval (delta bx))) as [Hge|]; [|done].
  by pose proof (lle_antisym _ _ Hle Hge).
Qed.

End bounds.

Arguments LABound N : clear implicits.
Arguments BoundValuePair N : clear implicits.
Arguments LABoundStore N : clear implicits.
