(* ===== verification/LABuild.v ===== *)
(** * Building the bound lists in one go

    [LABoundStore::buildBounds] (LABounds.cc): the bounds read before the first
    check are grouped by variable and every group is sorted. *)
From stdpp Require Import gmap.
From S2P Require Import Prelude Sort Gmp FastRationalInt Number Lex Delta Polynomial LABounds.
From Stdlib Require Import Lia.

#[local] Open Scope nat_scope.

Section build.
Context {N : Type} `{Number N}.
Implicit Types (s : LABoundStore N) (a : list (LABound N)).

(** [bounds_map]: the pairs of bounds of every variable, in order. *)
Definition bounds_map (l : list BoundInfo) : gmap LVRef (list BoundInfo) :=
  foldl (λ m i, <[bi_v i := default [] (m !! bi_v i) ++ [i]]> m) ∅ l.

Definition info_refs (l : list BoundInfo) : list LABoundRef := concat ((λ i, [bi_ub i; bi_lb i]) <$> l).

(** [for (j = 0; j < refs.size_(); ++j) ba[refs[j]].setIdx(j);] *)
Definition set_indices (refs : list LABoundRef) (a : list (LABound N)) : res (list (LABound N)) :=
  foldM (λ a j, let! br := at_ refs j in set_idx br j a) a (seq 0 (length refs)).

Definition build_var (m : gmap LVRef (list BoundInfo)) (s : LABoundStore N) (v : LVRef) : res (LABoundStore N) :=
  match m !! v with
  | None => Err Out_of_range
  | Some infos =>
      let! refs := sort (bound_lessthan (ba s)) (info_refs infos) in
      let! a := set_indices refs (ba s) in
      let! bs := upd (bounds s) v refs in
      Ok (MkLABoundStore (in_bounds s) a (lvstore s) bs)
  end.

(** [keys] are the keys of the map, in the order of the hash table. *)
Definition buildBounds (keys : list LVRef) (s : LABoundStore N) : res (LABoundStore N) :=
  foldM (build_var (bounds_map (in_bounds s))) s keys.

(** ** The groups *)

Lemma bounds_map_lookup l v : bounds_map l !! v =
  match filter (λ i, bi_v i = v) l with [] => None | l' => Some l' end.
Proof.
  unfold bounds_map. induction l as [|i l IH] using rev_ind; [done|].
  rewrite foldl_snoc, filter_app, filter_cons. simpl.
  destruct (decide (bi_v i = v)) as [<-|Hne].
  - rewrite lookup_insert_eq, IH. destruct (filter _ l); done.
  - rewrite lookup_insert_ne, IH by done. by rewrite app_nil_r.
Qed.

Definition keys_of (l : list BoundInfo) (keys : list LVRef) : Prop :=
  NoDup keys ∧ ∀ v, v ∈ keys ↔ v ∈ (bi_v <$> l).

(** The bounds of an information are allocated for its variable. *)
Record info_ok a (i : BoundInfo) : Prop := {
  io_ub : ∃ b, a !! bi_ub i = Some b ∧ lvref b = bi_v i;
  io_lb : ∃ b, a !! bi_lb i = Some b ∧ lvref b = bi_v i;
}.

Lemma elem_of_info_refs br l : br ∈ info_refs l ↔ ∃ i, i ∈ l ∧ (br = bi_ub i ∨ br = bi_lb i).
Proof.
  unfold info_refs. rewrite list_elem_of_In, in_concat. split.
  - intros (k & (i & -> & Hi)%list_elem_of_In%list_elem_of_fmap & Hb). exists i. split; [done|].
    simpl in Hb. naive_solver.
  - intros (i & Hi & Hb). exists [bi_ub i; bi_lb i]. split; [|simpl; naive_solver].
    apply list_elem_of_In, list_elem_of_fmap. eauto.
Qed.

Lemma info_refs_filter br l v : br ∈ info_refs (filter (λ i, bi_v i = v) l) → br ∈ info_refs l.
Proof. rewrite !elem_of_info_refs. intros (i & [_ Hi]%list_elem_of_filter & Hb). eauto. Qed.

Lemma info_refs_cons i l : info_refs (i :: l) = [bi_ub i; bi_lb i] ++ info_refs l.
Proof. done. Qed.

Lemma info_refs_nodup l v : NoDup (info_refs l) → NoDup (info_refs (filter (λ i, bi_v i = v) l)).
Proof.
  induction l as [|i l IH]; [done|]. rewrite filter_cons, info_refs_cons. intros (H1 & H2 & H3)%NoDup_app.
  destruct (decide (bi_v i = v)); [|by apply IH]. rewrite info_refs_cons. apply NoDup_app.
  split; [done|]. split; [|by apply IH]. intros x Hx Hin. apply (H2 x Hx). by eapply info_refs_filter.
Qed.

(** ** One variable *)

Lemma set_indices_wp E refs a : NoDup refs → (∀ br, br ∈ refs → br < length a) →
  wp E (λ a', reindexed a a' ∧ (∀ j br b, refs !! j = Some br → a' !! br = Some b → bidx b = Some j)
    ∧ ∀ br, br ∉ refs → a' !! br = a !! br) (set_indices refs a).
Proof.
  intros Hnd Hall. unfold set_indices.
  eapply wp_mono; [apply (foldM_wp E _ (λ pre _ a', reindexed a a'
    ∧ (∀ j br b, j < length pre → refs !! j = Some br → a' !! br = Some b → bidx b = Some j)
    ∧ ∀ br, br ∉ refs → a' !! br = a !! br))|].
  - split; [apply reindexed_refl|]. split; [simpl; lia | done].
  - intros pre j post a' El (R & Hi & Ho).
    assert (seq 0 (length refs) !! length pre = Some j) as Hj by (by rewrite El, list_lookup_middle).
    apply lookup_seq in Hj as [-> Hj]. simpl. destruct (lookup_lt_is_Some_2 refs (length pre) Hj) as [br Hbr].
    unfold at_ at 1. rewrite Hbr. cbn [rbind].
    assert (br < length a') as Hl by (rewrite (proj1 R); apply Hall; by eapply list_elem_of_lookup_2).
    apply lookup_lt_is_Some in Hl as [b Hb]. destruct (set_idx_ok br (length pre) a' b Hb) as [-> R'].
    cbn [wp]. split; [by eapply reindexed_trans|]. split.
    + intros k x c Hk Hx Hc. rewrite length_app in Hk. simpl in Hk. destruct (decide (x = br)) as [->|Hne].
      * rewrite list_lookup_insert_eq in Hc by (by eapply lookup_lt_Some). injection Hc as <-. simpl. f_equal.
        by eapply NoDup_lookup.
      * rewrite list_lookup_insert_ne in Hc by done. apply (Hi k x c); [|done..].
        assert (k ≠ length pre) by (intros ->; congruence). lia.
    + intros x Hx. rewrite list_lookup_insert_ne; [by apply Ho|]. intros ->. apply Hx. by eapply list_elem_of_lookup_2.
  - intros a' (R & Hi & Ho). split; [done|]. split; [|done]. intros j br b Hj. apply (Hi j); [|done].
    rewrite length_seq. by eapply lookup_lt_Some.
Qed.

Lemma sort_bounds_wp E a v refs : (∀ br, br ∈ refs → ∃ b, a !! br = Some b ∧ lvref b = v) →
  wp E (λ l, l ≡ₚ refs ∧ ∀ i j x y, i ≤ j → l !! i = Some x → l !! j = Some y → (bval a x <= bval a y)%lex)
    (sort (bound_lessthan a) refs).
Proof.
  intros Hall. eapply wp_mono.
  - apply (sort_wp (bound_lessthan a) (λ x y, (bval a x <= bval a y)%lex) (λ x, is_Some (a !! x))).
    + intros x y [bx Hx] [bY Hy]. destruct (bound_lessthan_ok a x y bx bY Hx Hy) as (r & -> & Hr).
      exists r. split; [done|]. destruct r.
      * intros Hle. apply lle_not_lt in Hle. by apply Hle, Hr.
      * apply lle_not_lt. intros Hlt. apply Hr in Hlt. done.
    + intros x y _ _. destruct (lle_total (bval a x) (bval a y)) as [?|?%llt_le]; tauto.
    + intros x y z _ _ _. apply lle_trans.
    + intros i x Hi. apply list_elem_of_lookup_2 in Hi. destruct (Hall x Hi) as (b & ? & _). eauto.
  - intros l [Hp Hs]. split; [done|]. intros i j x y Hij Hx Hy. by apply (Hs i j).
Qed.

Definition own_refs s v br : Prop := ∃ b, ba s !! br = Some b ∧ lvref b = v.

Lemma build_var_wp E l s v : store_ok s → v ∈ (bi_v <$> l) → (∀ i, i ∈ l → info_ok (ba s) i) →
  NoDup (info_refs l) → v < length (bounds s) →
  wp E (λ s', store_ok s' ∧ reindexed (ba s) (ba s') ∧ lvstore s' = lvstore s ∧ in_bounds s' = in_bounds s
    ∧ (∃ refs, bounds s' !! v = Some refs ∧ refs ≡ₚ info_refs (filter (λ i, bi_v i = v) l))
    ∧ length (bounds s') = length (bounds s)
    ∧ ∀ u, u ≠ v → bounds s' !! u = bounds s !! u) (build_var (bounds_map l) s v).
Proof.
  intros [So] Hv Hi Hnd Hb. unfold build_var. rewrite bounds_map_lookup.
  apply list_elem_of_fmap in Hv as (i0 & Ev & Hi0).
  assert (i0 ∈ filter (λ i, bi_v i = v) l) as Hin by (by apply list_elem_of_filter).
  destruct (filter (λ i, bi_v i = v) l) as [|i1 l1] eqn:El; [by apply not_elem_of_nil in Hin|].
  rewrite <- El in *. clear El Hin i0 Ev Hi0. set (infos := filter _ l) in *.
  assert (∀ br, br ∈ info_refs infos → own_refs s v br) as Hown.
  { intros br (i & [Hiv Hil]%list_elem_of_filter & Hbr)%elem_of_info_refs.
    destruct (Hi i Hil) as [(b & ? & ?) (b' & ? & ?)]. destruct Hbr as [-> | ->].
    - exists b. split; congruence.
    - exists b'. split; congruence. }
  apply wp_bind. eapply wp_mono; [by apply (sort_bounds_wp E (ba s) v)|]. intros refs [Hp Hs].
  assert (∀ br, br ∈ refs → own_refs s v br) as Hown' by (intros br; rewrite Hp; apply Hown).
  assert (NoDup refs) as Hnd' by (rewrite Hp; by apply info_refs_nodup).
  apply wp_bind. eapply wp_mono; [apply (set_indices_wp E refs (ba s) Hnd')|].
  { intros br Hbr. destruct (Hown' br Hbr) as (b & Hbb & _). by eapply lookup_lt_Some. }
  intros a (R & Hidx & Ho). apply wp_bind, upd_wp; [done|]. cbn [wp ba bounds lvstore in_bounds].
  split; [|split; [done|split; [done|split; [done|split; [|split]]]]].
  - constructor. simpl. intros u k Hk. destruct (decide (u = v)) as [->|Hu].
    + rewrite list_lookup_insert_eq in Hk by done. injection Hk as <-. constructor.
      * intros br Hbr. destruct (Hown' br Hbr) as (b & Hbb & Eb).
        destruct (proj2 R br b Hbb) as (b' & ? & _ & _ & ? & _). exists b'. split; congruence.
      * intros i j x y Hij Hx Hy. rewrite (reindexed_bval _ _ x R), (reindexed_bval _ _ y R). by apply (Hs i j).
      * apply Hidx.
    + rewrite list_lookup_insert_ne in Hk by done. apply (reindexed_bounds_of (ba s)); [done| |by apply So].
      intros x Hx. apply Ho. intros Hx'. destruct (bo_alloc _ _ _ (So _ _ Hk) x Hx) as (b & Hbb & Eb).
      destruct (Hown' x Hx') as (b' & Hb' & Eb'). congruence.
  - exists refs. split; [by apply list_lookup_insert_eq | done].
  - by rewrite length_insert.
  - intros u Hu. by rewrite list_lookup_insert_ne.
Qed.

(** ** All variables *)

Lemma reindexed_info_ok a a' i : reindexed a a' → info_ok a i → info_ok a' i.
Proof.
  intros [_ R] [(b & Hb & Eb) (b' & Hb' & Eb')]. constructor.
  - destruct (R _ _ Hb) as (c & ? & _ & _ & ? & _). exists c. split; congruence.
  - destruct (R _ _ Hb') as (c & ? & _ & _ & ? & _). exists c. split; congruence.
Qed.

(** The lists hold exactly the bounds read in, ordered and indexed. *)
Lemma buildBounds_wp E keys s : store_ok s → keys_of (in_bounds s) keys → (∀ i, i ∈ in_bounds s → info_ok (ba s) i) →
  NoDup (info_refs (in_bounds s)) → (∀ i, i ∈ in_bounds s → bi_v i < length (bounds s)) →
  wp E (λ s', store_ok s' ∧ reindexed (ba s) (ba s') ∧ lvstore s' = lvstore s ∧ in_bounds s' = in_bounds s
    ∧ (∀ v, v ∈ keys → ∃ refs, bounds s' !! v = Some refs
         ∧ refs ≡ₚ info_refs (filter (λ i, bi_v i = v) (in_bounds s)))
    ∧ length (bounds s') = length (bounds s)
    ∧ ∀ u, u ∉ keys → bounds s' !! u = bounds s !! u) (buildBounds keys s).
Proof.
  intros So [_ Hk] Hi Hnd Hb. unfold buildBounds.
  eapply wp_mono; [apply (foldM_wp E _ (λ pre _ s', store_ok s' ∧ reindexed (ba s) (ba s')
    ∧ lvstore s' = lvstore s ∧ in_bounds s' = in_bounds s
    ∧ (∀ v, v ∈ pre → ∃ refs, bounds s' !! v = Some refs
         ∧ refs ≡ₚ info_refs (filter (λ i, bi_v i = v) (in_bounds s)))
    ∧ length (bounds s') = length (bounds s)
    ∧ ∀ u, u ∉ pre → bounds s' !! u = bounds s !! u))|].
  - split; [done|]. split; [apply reindexed_refl|]. split; [done|]. split; [done|].
    split; [by intros v ?%not_elem_of_nil|]. done.
  - intros pre v post s' El (So' & R & Hls & Hin & Hpre & Hlen & Ho).
    assert (v ∈ bi_v <$> in_bounds s) as Hv by (apply Hk; rewrite El; set_solver).
    pose proof Hv as (i0 & Ev & Hi0)%list_elem_of_fmap.
    eapply wp_mono; [apply (build_var_wp E (in_bounds s) s' v So' Hv)|].
    + intros i Hii. eapply reindexed_info_ok; [done|]. by apply Hi.
    + done.
    + rewrite Hlen, Ev. by apply Hb.
    + intros s2 (So2 & R2 & Hls2 & Hin2 & (refs & Hr & Hp) & Hlen2 & Ho2).
      split; [done|]. split; [by eapply reindexed_trans|]. split; [congruence|]. split; [congruence|].
      split; [|split; [congruence|]].
      * intros u Hu. destruct (decide (u = v)) as [->|Hne]; [eauto|]. rewrite Ho2 by done. apply Hpre. set_solver.
      * intros u Hu. rewrite Ho2 by set_solver. apply Ho. set_solver.
  - done.
Qed.

(** ** The invariant of the store *)

Definition known s v br : Prop := ∃ l, bounds s !! v = Some l ∧ br ∈ l.

Record store_inv s : Prop := {
  vi_store : store_ok s;
  vi_info i : i ∈ in_bounds s → info_ok (ba s) i;
  vi_nodup : NoDup (info_refs (in_bounds s));
  vi_range i : i ∈ in_bounds s → bi_v i < length (bounds s);
  vi_known v br : known s v br → br ∈ info_refs (in_bounds s);
}.

(** What a client may rely on when the store grows. *)
Record store_le s s' : Prop := {
  sl_ba br b : ba s !! br = Some b → ∃ b', ba s' !! br = Some b' ∧ type b' = type b ∧ lvref b' = lvref b ∧ delta b' = delta b;
  sl_known v br : known s v br → known s' v br;
  sl_info i : i ∈ in_bounds s → i ∈ in_bounds s';
}.

Lemma store_inv_init lv : store_inv (MkLABoundStore [] [] lv []).
Proof.
  constructor; simpl; try (by intros i ?%not_elem_of_nil); [by constructor|constructor|].
  by intros v br (l & ? & _).
Qed.

Lemma reindexed_le a a' : reindexed a a' → ∀ br b, a !! br = Some b →
  ∃ b', a' !! br = Some b' ∧ type b' = type b ∧ lvref b' = lvref b ∧ delta b' = delta b.
Proof. intros [_ R] br b Hb. destruct (R br b Hb) as (b' & ? & ? & _ & ? & ?). eauto. Qed.

Lemma grow_lookup_cases {B} (l : list B) v d u x : grow l v d !! u = Some x → l !! u = Some x ∨ x = d.
Proof.
  unfold grow. destruct (_ <=? _); [|by left]. intros [?|[_ Hx]]%lookup_app_Some; [by left|].
  right. by apply lookup_replicate in Hx as [-> _].
Qed.

(** A new pair is allocated for [v] and not yet listed. *)
Lemma allocBoundPair_ok v bp s bi s' : store_inv s → allocBoundPair v bp s = (bi, s') →
  store_inv s' ∧ store_le s s' ∧ bi ∈ in_bounds s' ∧ bi_v bi = v ∧ v < length (bounds s')
  ∧ bi_ub bi ≠ bi_lb bi ∧ fresh_bound s' v (bi_ub bi) ∧ fresh_bound s' v (bi_lb bi).
Proof.
  intros [So Hi Hnd Hr Hk] E. unfold allocBoundPair, alloc in E. simpl in E. injection E as <- <-.
  set (b1 := LABound_new bound_u v (bv_upper bp) (length (ba s))).
  set (a1 := ba s ++ [b1]). set (b2 := LABound_new bound_l v (bv_lower bp) (length a1)).
  assert (length a1 = S (length (ba s))) as L1 by (unfold a1; rewrite length_app; simpl; lia).
  assert (∀ br b, ba s !! br = Some b → (a1 ++ [b2]) !! br = Some b) as Hold.
  { intros br b Hb. apply lookup_app_l_Some. unfold a1. by apply lookup_app_l_Some. }
  assert ((a1 ++ [b2]) !! length (ba s) = Some b1) as H1.
  { apply lookup_app_l_Some. unfold a1. apply lookup_snoc_Some. by right. }
  assert ((a1 ++ [b2]) !! length a1 = Some b2) as H2 by (apply lookup_snoc_Some; by right).
  assert (∀ u l, grow (bounds s) v [] !! u = Some l → bounds s !! u = Some l ∨ l = []) as Hg
    by (intros u l; apply grow_lookup_cases).
  assert (∀ u br, (∃ l, grow (bounds s) v [] !! u = Some l ∧ br ∈ l) → br ∈ info_refs (in_bounds s)) as Hlist.
  { intros u br (l & [Hl| ->]%Hg & Hin); [|by apply not_elem_of_nil in Hin]. apply (Hk u). by exists l. }
  assert (∀ br, br ∈ info_refs (in_bounds s) → br < length (ba s)) as Hlt.
  { intros br (i & Hii & Hbr)%elem_of_info_refs. destruct (Hi i Hii) as [(b & Hb & _) (b' & Hb' & _)].
    destruct Hbr as [-> | ->]; by eapply lookup_lt_Some. }
  split; [|split; [|split; [|split; [|split; [|split; [|split]]]]]]; simpl.
  - constructor; simpl.
    + constructor. simpl. intros u l [Hl| ->]%Hg.
      * pose proof (so_lists _ So u l Hl) as [B1 B2 B3].
        assert (∀ br, br ∈ l → (a1 ++ [b2]) !! br = ba s !! br) as Hsame.
        { intros br Hin. destruct (B1 br Hin) as (b & Hb & _). rewrite Hb. by apply Hold. }
        constructor.
        -- intros br Hin. rewrite Hsame by done. by apply B1.
        -- intros i j x y Hij Hx Hy. unfold bval.
           rewrite !Hsame by (by eapply list_elem_of_lookup_2). by apply (B2 i j).
        -- intros i x b Hx. rewrite Hsame by (by eapply list_elem_of_lookup_2). by apply B3.
      * constructor; [by intros br ?%not_elem_of_nil|done..].
    + intros i [Hii| ->%list_elem_of_singleton]%elem_of_app.
      * destruct (Hi i Hii) as [(b & Hb & Eb) (b' & Hb' & Eb')]. constructor; eauto.
      * constructor; simpl; eauto.
    + unfold info_refs. rewrite fmap_app, concat_app. simpl. apply NoDup_app. split; [done|]. split.
      * intros br Hin%Hlt. rewrite !elem_of_cons. intros [->|[->|?%not_elem_of_nil]]; [lia..|done].
      * apply NoDup_cons. split; [|by apply NoDup_singleton]. rewrite list_elem_of_singleton. lia.
    + intros i [Hii| ->%list_elem_of_singleton]%elem_of_app; simpl.
      * pose proof (Hr i Hii). unfold grow. destruct (_ <=? _); rewrite ?length_app; lia.
      * unfold grow. destruct (Nat.leb_spec (length (bounds s)) v); rewrite ?length_app, ?length_replicate; lia.
    + intros u br Hkn. unfold info_refs. rewrite fmap_app, concat_app. apply elem_of_app. left. by apply (Hlist u).
  - constructor; simpl.
    + intros br b Hb. exists b. split; [by apply Hold | done].
    + intros u br (l & Hl & Hin). exists l. split; [|done]. unfold grow.
      destruct (_ <=? _); [by apply lookup_app_l_Some | done].
    + set_solver.
  - set_solver.
  - done.
  - unfold grow. destruct (Nat.leb_spec (length (bounds s)) v); rewrite ?length_app, ?length_replicate; lia.
  - lia.
  - split; [by exists b1|]. simpl. intros l Hl Hin. assert (length (ba s) < length (ba s)); [|lia].
    apply Hlt, (Hlist v). by exists l.
  - split; [by exists b2|]. simpl. intros l Hl Hin. assert (length a1 < length (ba s)); [|lia].
    apply Hlt, (Hlist v). by exists l.
Qed.

(** [updateBound] lists an information of the store. *)
Lemma updateBound_inv E bi s : store_inv s → bi ∈ in_bounds s → bi_ub bi ≠ bi_lb bi →
  fresh_bound s (bi_v bi) (bi_ub bi) → fresh_bound s (bi_v bi) (bi_lb bi) →
  wp E (λ s', store_inv s' ∧ store_le s s' ∧ in_bounds s' = in_bounds s ∧ lvstore s' = lvstore s
    ∧ known s' (bi_v bi) (bi_ub bi) ∧ known s' (bi_v bi) (bi_lb bi) ∧ reindexed (ba s) (ba s')) (updateBound bi s).
Proof.
  intros [So Hi Hnd Hr Hk] Hbi Hne Fu Fl.
  eapply wp_mono; [apply (updateBound_wp E bi s So (Hr bi Hbi) Fu Fl Hne)|].
  intros s' (So' & R & (l & l' & Hl & Hl' & Hp) & Ho & Hin & Hls & Hlen).
  assert (∀ u br, known s' u br → known s u br ∨ (u = bi_v bi ∧ (br = bi_ub bi ∨ br = bi_lb bi))) as Hback.
  { intros u br (k & Hkk & Hbr). destruct (decide (u = bi_v bi)) as [->|Hne'].
    - assert (k = l') as -> by congruence. rewrite Hp, !elem_of_cons in Hbr.
      destruct Hbr as [->|[->|Hbr]]; [tauto..|]. left. by exists l.
    - left. exists k. by rewrite <- Ho. }
  split; [|split; [|split; [done|split; [done|split]]]].
  - constructor; rewrite ?Hin, ?Hlen; [done| |done|done|].
    + intros i Hii. eapply reindexed_info_ok; eauto.
    + intros u br [Hkn|[_ Hbr]]%Hback; [by apply (Hk u)|]. apply elem_of_info_refs. eauto.
  - constructor; [by apply reindexed_le| |by rewrite Hin].
    intros u br (k & Hkk & Hbr). destruct (decide (u = bi_v bi)) as [->|Hne'].
    + exists l'. split; [done|]. rewrite Hp. assert (k = l) as -> by congruence. set_solver.
    + exists k. by rewrite Ho.
  - exists l'. split; [done|]. rewrite Hp. set_solver.
  - split; [|done]. exists l'. split; [done|]. rewrite Hp. set_solver.
Qed.

Lemma buildBounds_inv E keys s : store_inv s → keys_of (in_bounds s) keys →
  wp E (λ s', store_inv s' ∧ store_le s s' ∧ in_bounds s' = in_bounds s ∧ lvstore s' = lvstore s
    ∧ reindexed (ba s) (ba s')
    ∧ ∀ i, i ∈ in_bounds s → known s' (bi_v i) (bi_ub i) ∧ known s' (bi_v i) (bi_lb i)) (buildBounds keys s).
Proof.
  intros [So Hi Hnd Hr Hk] HK. eapply wp_mono; [by apply (buildBounds_wp E keys s)|].
  intros s' (So' & R & Hls & Hin & Hb & Hlen & Ho).
  assert (∀ v refs br, v ∈ keys → bounds s' !! v = Some refs →
    br ∈ refs ↔ ∃ i, i ∈ in_bounds s ∧ bi_v i = v ∧ (br = bi_ub i ∨ br = bi_lb i)) as Hrefs.
  { intros v refs br Hv Hl. destruct (Hb v Hv) as (r & Hl' & Hp). assert (r = refs) as -> by congruence.
    rewrite Hp, elem_of_info_refs. setoid_rewrite list_elem_of_filter. naive_solver. }
  assert (∀ i, i ∈ in_bounds s → bi_v i ∈ keys) as Hkey.
  { intros i Hii. apply (proj2 HK), list_elem_of_fmap. eauto. }
  assert (∀ i, i ∈ in_bounds s → known s' (bi_v i) (bi_ub i) ∧ known s' (bi_v i) (bi_lb i)) as Hnew.
  { intros i Hii. destruct (Hb _ (Hkey i Hii)) as (r & Hl & _).
    split; exists r; (split; [done|]); apply (Hrefs _ r _ (Hkey i Hii) Hl); eauto. }
  split; [|split; [|done]].
  - constructor; rewrite ?Hin, ?Hlen; [done| |done|done|].
    + intros i Hii. eapply reindexed_info_ok; eauto.
    + intros v br (l & Hl & Hbr). destruct (decide (v ∈ keys)) as [Hv|Hv].
      * apply (Hrefs v l br Hv Hl) in Hbr as (i & Hii & _ & Hbr). apply elem_of_info_refs. eauto.
      * rewrite Ho in Hl by done. apply (Hk v). by exists l.
  - constructor; [by apply reindexed_le| |by rewrite Hin].
    intros v br (l & Hl & Hbr). pose proof (Hk v br (ex_intro _ l (conj Hl Hbr))) as (i & Hii & Hbi)%elem_of_info_refs.
    assert (bi_v i = v) as <-.
    { destruct (bo_alloc _ _ _ (so_lists _ So v l Hl) br Hbr) as (b & Hbb & <-).
      destruct (Hi i Hii) as [(c & Hc & Ec) (c' & Hc' & Ec')]. destruct Hbi as [-> | ->]; congruence. }
    destruct (Hnew i Hii). by destruct Hbi as [-> | ->].
Qed.

End build.

(** ** What the users of the store see *)

Section theorems.
Context {N : Type} `{Number N}.
Implicit Types (s : LABoundStore N).

(** Bounds of one variable compare by their places. *)
Definition places_ordered s : Prop := ∀ v x y bx bY ix iy, known s v x → known s v y →
  ba s !! x = Some bx → ba s !! y = Some bY → bidx bx = Some ix → bidx bY = Some iy →
  (ix ≤ iy → (dval (delta bx) <= dval (delta bY))%lex)
  ∧ (ix < iy → dval (delta bx) ≠ dval (delta bY) → (dval (delta bx) < dval (delta bY))%lex).

Lemma store_places s : store_ok s → places_ordered s.
Proof.
  intros So v x y bx bY ix iy (l & Hl & Hx) (l' & Hl' & Hy). assert (l' = l) as -> by congruence.
  intros. by apply (index_order s v l x y).
Qed.

(** [buildBounds] returns, whatever the order of the keys: the bounds read
    in so far are listed with their variables, in order of value, and a bound's
    index is its place, so that comparing indices compares values. *)
Theorem buildBounds_correct keys s : store_inv s → keys_of (in_bounds s) keys →
  ∃ s', buildBounds keys s = Ok s' ∧ store_inv s' ∧ store_le s s' ∧ places_ordered s'
    ∧ ∀ i, i ∈ in_bounds s → known s' (bi_v i) (bi_ub i) ∧ known s' (bi_v i) (bi_lb i).
Proof.
  intros Hs HK. pose proof (buildBounds_inv no_error keys s Hs HK) as Hw.
  apply wp_total in Hw as (s' & E & Hs' & Hle & _ & _ & _ & Hk). exists s'. split; [done|]. split; [done|].
  split; [done|]. split; [apply store_places, Hs' | done].
Qed.

(** A pair of bounds declared later is inserted in order:
    [updateBound] returns, its postcondition holds, the bounds listed before
    stay listed, and places still compare like values. *)
Theorem updateBound_correct v bp bi s s1 : store_inv s → allocBoundPair v bp s = (bi, s1) →
  ∃ s', updateBound bi s1 = Ok s' ∧ store_inv s' ∧ store_le s s' ∧ places_ordered s'
    ∧ known s' v (bi_ub bi) ∧ known s' v (bi_lb bi).
Proof.
  intros Hs E. destruct (allocBoundPair_ok v bp s bi s1 Hs E) as (Hs1 & L1 & Hbi & Ev & _ & Hne & Fu & Fl).
  rewrite <- Ev in Fu, Fl. pose proof (updateBound_inv no_error bi s1 Hs1 Hbi Hne Fu Fl) as Hw.
  apply wp_total in Hw as (s' & E' & Hs' & L2 & _ & _ & K1 & K2 & _). rewrite Ev in K1, K2.
  exists s'. split; [done|]. split; [done|]. split; [|split; [apply store_places, Hs'|done]].
  destruct L1 as [A1 A2 A3], L2 as [B1 B2 B3]. constructor; [|auto|auto].
  intros br b Hb. destruct (A1 br b Hb) as (b1 & Hb1 & ? & ? & ?). destruct (B1 br b1 Hb1) as (b2 & Hb2 & ? & ? & ?).
  exists b2. repeat split; congruence.
Qed.

End theorems.

(** Two pairs, of the values 1 and 2, for one variable, and a third one, 0. *)
Definition ex_pair (c : Z) : BoundValuePair Qc := MkBoundValuePair (MkDelta (of_Z c) (of_Z (-1))) (MkDelta (of_Z c) (of_Z 0)).
Definition ex_pairs : LABoundStore Qc :=
  (allocBoundPair 0 (ex_pair 2) (allocBoundPair 0 (ex_pair 1) (MkLABoundStore [] [] [] [])).2).2.

Lemma ex_pairs_inv : store_inv ex_pairs.
Proof.
  unfold ex_pairs. set (s0 := MkLABoundStore (N := Qc) [] [] [] []).
  destruct (allocBoundPair_ok 0 (ex_pair 1) s0 (allocBoundPair 0 (ex_pair 1) s0).1 _ (store_inv_init []) (surjective_pairing _)) as [H1 _].
  by destruct (allocBoundPair_ok 0 (ex_pair 2) _ (allocBoundPair 0 (ex_pair 2) (allocBoundPair 0 (ex_pair 1) s0).2).1 _ H1 (surjective_pairing _)) as [H2 _].
Qed.

Lemma buildBounds_correct_witness : ∃ s', buildBounds [0] ex_pairs = Ok s' ∧ places_ordered s'
  ∧ known s' 0 0 ∧ known s' 0 3.
Proof.
  destruct (buildBounds_correct [0] ex_pairs ex_pairs_inv) as (s' & E & _ & _ & Ho & Hk).
  - split; [apply NoDup_singleton|]. intros v. change (bi_v <$> in_bounds ex_pairs) with [0; 0]. set_solver.
  - exists s'. split; [exact E|]. split; [exact Ho|]. change (in_bounds ex_pairs) with [MkBoundInfo 0 0 1; MkBoundInfo 0 2 3] in Hk.
    split; [apply (Hk (MkBoundInfo 0 0 1)); set_solver | apply (Hk (MkBoundInfo 0 2 3)); set_solver].
Defined.

Lemma updateBound_correct_witness : ∃ s', updateBound (MkBoundInfo 0 4 5) (allocBoundPair 0 (ex_pair 0) ex_pairs).2 = Ok s'
  ∧ places_ordered s' ∧ known s' 0 4 ∧ known s' 0 5.
Proof.
  destruct (updateBound_correct 0 (ex_pair 0) (MkBoundInfo 0 4 5) ex_pairs (allocBoundPair 0 (ex_pair 0) ex_pairs).2 ex_pairs_inv)
    as (s' & E & _ & _ & Ho & Hk).
  - reflexivity.
  - exists s'. split; [exact E|]. split; [exact Ho | exact Hk].
Defined.
