(* ===== verification/LRAModel.v ===== *)
(** * The model of the arithmetic variables

    LRAModel.h, LRAModel.cc.  For every variable: the stacks of its asserted
    lower and upper bounds, the current value and the value of the last
    consistent assignment.  The bounds are pushed and popped along
    backtracking points; the values that changed since the last consistent
    assignment are remembered, to be saved or restored. *)
From stdpp Require Import gmap.
From S2P Require Import Prelude Gmp FastRationalInt Number Lex Delta Polynomial NatSet LABounds.
From Stdlib Require Import Lia.

#[local] Open Scope nat_scope.

(** [vec<T>]: elements are pushed and popped at the end. *)
Definition push {A : Type} (v : list A) (x : A) : list A := v ++ [x].
Definition last_ {A : Type} (v : list A) : res A :=
  match list.last v with Some x => Ok x | None => Err Out_of_range end.
Definition pop {A : Type} (v : list A) : res (list A) :=
  match v with [] => Err Out_of_range | _ => Ok (take (length v - 1) v) end.
(** [v.shrink(k)] drops [k] elements. *)
Definition shrink {A : Type} (v : list A) (k : nat) : res (list A) :=
  if k <=? length v then Ok (take (length v - k) v) else Err Out_of_range.

Section model.
Context {N : Type} `{Number N}.

Record LRAModel : Type := MkLRAModel {
  int_lbounds : list (list LABoundRef);
  int_ubounds : list (list LABoundRef);
  bound_limits : list nat;
  bound_trace : list LABoundRef;
  current_assignment : list (Delta N);
  last_consistent_assignment : list (Delta N);
  changed_vars_set : nat_set.nat_set;
  changed_vars_vec : list LVRef;
  n_vars_with_model : nat;
  has_model : gmap LVRef bool;
}.

Definition LRAModel_init : LRAModel := MkLRAModel [] [] [0] [] [] [] (nat_set.init 0) [] 0 ∅.

Definition with_bounds (m : LRAModel) lb ub tr : LRAModel :=
  MkLRAModel lb ub (bound_limits m) tr (current_assignment m) (last_consistent_assignment m)
    (changed_vars_set m) (changed_vars_vec m) (n_vars_with_model m) (has_model m).
Definition with_limits (m : LRAModel) l : LRAModel :=
  MkLRAModel (int_lbounds m) (int_ubounds m) l (bound_trace m) (current_assignment m)
    (last_consistent_assignment m) (changed_vars_set m) (changed_vars_vec m) (n_vars_with_model m) (has_model m).
Definition with_values (m : LRAModel) c l cs cv : LRAModel :=
  MkLRAModel (int_lbounds m) (int_ubounds m) (bound_limits m) (bound_trace m) c l cs cv
    (n_vars_with_model m) (has_model m).

(** [while (size <= v) { emplace_back(); ... }] *)
Definition addVar (v : LVRef) (m : LRAModel) : LRAModel :=
  match has_model m !! v with
  | Some _ => m
  | None =>
      MkLRAModel (grow (int_lbounds m) v []) (grow (int_ubounds m) v []) (bound_limits m) (bound_trace m)
        (grow (current_assignment m) v Delta_default)
        (if length (current_assignment m) <=? v
         then last_consistent_assignment m ++ replicate (S v - length (current_assignment m)) Delta_default
         else last_consistent_assignment m)
        (if length (current_assignment m) <=? v then nat_set.assure_domain v (changed_vars_set m)
         else changed_vars_set m)
        (changed_vars_vec m) (S (n_vars_with_model m)) (<[v := true]> (has_model m))
  end.

Definition nVars (m : LRAModel) : nat := n_vars_with_model m.

(** [init] registers the variables of the store. *)
Definition init (s : LABoundStore N) (m : LRAModel) : LRAModel :=
  foldl (λ m v, addVar v m) m (lvstore s).

Definition write (v : LVRef) (val : Delta N) (m : LRAModel) : res LRAModel :=
  let! c := upd (current_assignment m) v val in
  let! b := nat_set.contains (changed_vars_set m) v in
  if b then Ok (with_values m c (last_consistent_assignment m) (changed_vars_set m) (changed_vars_vec m))
  else
    let! cs := nat_set.insert v (changed_vars_set m) in
    Ok (with_values m c (last_consistent_assignment m) cs (push (changed_vars_vec m) v)).

Definition read (m : LRAModel) (v : LVRef) : res (Delta N) := at_ (current_assignment m) v.
Definition readBackupValue (m : LRAModel) (v : LVRef) : res (Delta N) := at_ (last_consistent_assignment m) v.

Definition restoreVarWithValue (v : LVRef) (val : Delta N) (m : LRAModel) : res LRAModel :=
  let! c := upd (current_assignment m) v val in
  let! l := upd (last_consistent_assignment m) v val in
  Ok (with_values m c l (changed_vars_set m) (changed_vars_vec m)).

Definition saveAssignment (m : LRAModel) : res LRAModel :=
  let! l := foldM (λ l v, let! x := at_ (current_assignment m) v in upd l v x)
              (last_consistent_assignment m) (changed_vars_vec m) in
  Ok (with_values m (current_assignment m) l (nat_set.reset (changed_vars_set m)) []).

Definition restoreAssignment (m : LRAModel) : res LRAModel :=
  let! c := foldM (λ c v, let! x := at_ (last_consistent_assignment m) v in upd c v x)
              (current_assignment m) (changed_vars_vec m) in
  Ok (with_values m c (last_consistent_assignment m) (nat_set.reset (changed_vars_set m)) []).

(** ** Bounds *)

Definition hasLBound (m : LRAModel) (v : LVRef) : res bool :=
  let! l := at_ (int_lbounds m) v in Ok (negb (length l =? 0)).
Definition hasUBound (m : LRAModel) (v : LVRef) : res bool :=
  let! l := at_ (int_ubounds m) v in Ok (negb (length l =? 0)).

Definition readLBoundRef (m : LRAModel) (v : LVRef) : res LABoundRef :=
  let! b := hasLBound m v in let! _ := check b in
  let! l := at_ (int_lbounds m) v in last_ l.
Definition readUBoundRef (m : LRAModel) (v : LVRef) : res LABoundRef :=
  let! b := hasUBound m v in let! _ := check b in
  let! l := at_ (int_ubounds m) v in last_ l.

Definition readLBound (s : LABoundStore N) (m : LRAModel) (v : LVRef) : res (LABound N) :=
  let! br := readLBoundRef m v in get_bound s br.
Definition readUBound (s : LABoundStore N) (m : LRAModel) (v : LVRef) : res (LABound N) :=
  let! br := readUBoundRef m v in get_bound s br.

Definition Lb (s : LABoundStore N) (m : LRAModel) (v : LVRef) : res (Delta N) :=
  let! b := readLBound s m v in Ok (delta b).
Definition Ub (s : LABoundStore N) (m : LRAModel) (v : LVRef) : res (Delta N) :=
  let! b := readUBound s m v in Ok (delta b).

Definition pushBound (s : LABoundStore N) (br : LABoundRef) (m : LRAModel) : res LRAModel :=
  let! b := get_bound s br in
  let vr := lvref b in
  match type b with
  | bound_u =>
      let! l := at_ (int_ubounds m) vr in
      let! ub := upd (int_ubounds m) vr (push l br) in
      Ok (with_bounds m (int_lbounds m) ub (push (bound_trace m) br))
  | bound_l =>
      let! l := at_ (int_lbounds m) vr in
      let! lb := upd (int_lbounds m) vr (push l br) in
      Ok (with_bounds m lb (int_ubounds m) (push (bound_trace m) br))
  end.

(** One round of the loop of [popBounds]. *)
Definition pop_bound (s : LABoundStore N) (m : LRAModel) (br : LABoundRef) : res LRAModel :=
  let! b := get_bound s br in
  let vr := lvref b in
  match type b with
  | bound_u =>
      let! l := at_ (int_ubounds m) vr in
      let! l := pop l in
      let! ub := upd (int_ubounds m) vr l in
      Ok (with_bounds m (int_lbounds m) ub (bound_trace m))
  | bound_l =>
      let! l := at_ (int_lbounds m) vr in
      let! l := pop l in
      let! lb := upd (int_lbounds m) vr l in
      Ok (with_bounds m lb (int_ubounds m) (bound_trace m))
  end.

Definition popBounds (s : LABoundStore N) (m : LRAModel) : res LRAModel :=
  let! limit := last_ (bound_limits m) in
  let! m := foldM (pop_bound s) m (reverse (drop limit (bound_trace m))) in
  let! tr := shrink (bound_trace m) (length (bound_trace m) - limit) in
  Ok (with_bounds m (int_lbounds m) (int_ubounds m) tr).

Definition LRAModel_clear (m : LRAModel) : LRAModel :=
  MkLRAModel [] [] [0] [] [] [] (nat_set.reset (changed_vars_set m)) [] 0 ∅.

Definition backtrackLevel (m : LRAModel) : nat := length (bound_limits m) - 1.
Definition getBacktrackSize (m : LRAModel) : nat := length (bound_limits m).

Definition pushBacktrackPoint (m : LRAModel) : LRAModel :=
  with_limits m (push (bound_limits m) (length (bound_trace m))).

Definition popBacktrackPoint (s : LABoundStore N) (m : LRAModel) : res LRAModel :=
  let! m := popBounds s m in
  let! l := pop (bound_limits m) in
  Ok (with_limits m l).

Definition isEquality (s : LABoundStore N) (m : LRAModel) (v : LVRef) : res bool :=
  let! hl := hasLBound m v in
  let! hu := hasUBound m v in
  if hl && hu then
    let! bl := readLBound s m v in
    let! bu := readUBound s m v in
    (* [x + 1] wraps around at [UINT32_MAX] *)
    let next := match bidx bl with Some i => Some (S i) | None => Some 0 end in
    Ok (bool_decide (next = bidx bu) && Delta_eq (delta bl) (delta bu))
  else Ok false.

Definition model_isUnbounded (s : LABoundStore N) (v : LVRef) : res bool := isUnbounded s v.

(** Comparison of the places of two bounds; [None] is the place [UINT32_MAX]
    of a bound that has not been inserted. *)
Definition idx_lt (i j : option nat) : bool :=
  match i, j with
  | Some i, Some j => i <? j
  | Some _, None => true
  | None, _ => false
  end.

Definition boundTriviallySatisfied (s : LABoundStore N) (m : LRAModel) (v : LVRef) (b : LABoundRef) : res bool :=
  let! bound := get_bound s b in
  match type bound with
  | bound_l =>
      let! h := hasLBound m v in
      if negb h then Ok false
      else let! toCompare := readLBound s m v in Ok (negb (idx_lt (bidx toCompare) (bidx bound)))
  | bound_u =>
      let! h := hasUBound m v in
      if negb h then Ok false
      else let! toCompare := readUBound s m v in Ok (negb (idx_lt (bidx bound) (bidx toCompare)))
  end.

Definition boundTriviallyUnsatisfied (s : LABoundStore N) (m : LRAModel) (v : LVRef) (b : LABoundRef) : res bool :=
  let! bound := get_bound s b in
  match type bound with
  | bound_l =>
      let! h := hasUBound m v in
      if negb h then Ok false
      else
        let! toCompare := readUBound s m v in
        Ok (idx_lt (bidx toCompare) (bidx bound) && Delta_neq (delta bound) (delta toCompare))
  | bound_u =>
      let! h := hasLBound m v in
      if negb h then Ok false
      else
        let! toCompare := readLBound s m v in
        Ok (idx_lt (bidx bound) (bidx toCompare) && Delta_neq (delta bound) (delta toCompare))
  end.

End model.

Arguments LRAModel N : clear implicits.
