(* ===== verification/Simplex.v ===== *)
(** * The simplex solver

    Simplex.h, Simplex.cc: the operations.  The solver keeps a tableau, a model
    and the bounds asserted on the variables; [checkSimplex] repairs the values
    of the basic variables by pivoting until all are within their bounds, or
    finds a row that shows the bounds to be inconsistent. *)
From S2P Require Import Prelude Gmp FastRationalInt Number Lex Delta Polynomial NatSet Tableau.
From S2P Require Import LABounds LRAModel.
From Stdlib Require Import Lia.

#[local] Open Scope nat_scope.

(** [std::set<LVRef, LVRefComp>]: iterated in increasing order. *)
Fixpoint set_insert (v : LVRef) (l : list LVRef) : list LVRef :=
  match l with
  | [] => [v]
  | x :: l' => if v <? x then v :: l else if v =? x then l else x :: set_insert v l'
  end.
Definition set_erase (v : LVRef) (l : list LVRef) : list LVRef := filter (λ x, x ≠ v) l.

(** [std::all_of] in an assertion. *)
Fixpoint all_of {A : Type} (f : A → res bool) (l : list A) : res bool :=
  match l with
  | [] => Ok true
  | x :: l => let! b := f x in if b then all_of f l else Ok false
  end.

Section simplex.
Context {N : Type} `{Number N}.

Record Simplex : Type := MkSimplex {
  model : LRAModel N;
  boundStore : LABoundStore N;
  tableau : Tableau N;
  candidates : list LVRef;
  bufferOfActivatedBounds : list (LVRef * LABoundRef);
  boundsActivated : list nat;
  num_bland_ops : Z;
  num_pivot_ops : Z;
}.

Record ExplTerm : Type := MkExplTerm { boundref : LABoundRef; ecoeff : N }.
Definition Explanation : Type := list ExplTerm.

Definition with_model m (s : Simplex) : Simplex :=
  MkSimplex m (boundStore s) (tableau s) (candidates s) (bufferOfActivatedBounds s) (boundsActivated s)
    (num_bland_ops s) (num_pivot_ops s).
Definition with_store b (s : Simplex) : Simplex :=
  MkSimplex (model s) b (tableau s) (candidates s) (bufferOfActivatedBounds s) (boundsActivated s)
    (num_bland_ops s) (num_pivot_ops s).
Definition with_tableau t (s : Simplex) : Simplex :=
  MkSimplex (model s) (boundStore s) t (candidates s) (bufferOfActivatedBounds s) (boundsActivated s)
    (num_bland_ops s) (num_pivot_ops s).
Definition with_candidates c (s : Simplex) : Simplex :=
  MkSimplex (model s) (boundStore s) (tableau s) c (bufferOfActivatedBounds s) (boundsActivated s)
    (num_bland_ops s) (num_pivot_ops s).
Definition with_buffer b (s : Simplex) : Simplex :=
  MkSimplex (model s) (boundStore s) (tableau s) (candidates s) b (boundsActivated s)
    (num_bland_ops s) (num_pivot_ops s).
Definition with_activated a (s : Simplex) : Simplex :=
  MkSimplex (model s) (boundStore s) (tableau s) (candidates s) (bufferOfActivatedBounds s) a
    (num_bland_ops s) (num_pivot_ops s).
Definition with_stats b p (s : Simplex) : Simplex :=
  MkSimplex (model s) (boundStore s) (tableau s) (candidates s) (bufferOfActivatedBounds s) (boundsActivated s)
    b p.

Definition Simplex_init (b : LABoundStore N) : Simplex :=
  MkSimplex LRAModel_init b Tableau_init [] [] [] 0%Z 0%Z.

Definition initModel (s : Simplex) : Simplex := with_model (init (boundStore s) (model s)) s.

(** [clear] leaves the buffer of activated bounds as it is. *)
Definition Simplex_clear (s : Simplex) : Simplex :=
  MkSimplex (LRAModel_clear (model s)) (boundStore s) (Tableau_clear (tableau s)) []
    (bufferOfActivatedBounds s) [] (num_bland_ops s) (num_pivot_ops s).

(** ** Values and bounds *)

Definition isModelOutOfUpperBound (s : Simplex) (v : LVRef) : res bool :=
  let! h := hasUBound (model s) v in
  if h then
    let! x := read (model s) v in
    let! u := Ub (boundStore s) (model s) v in
    Ok (Delta_gt x u)
  else Ok false.

Definition isModelOutOfLowerBound (s : Simplex) (v : LVRef) : res bool :=
  let! h := hasLBound (model s) v in
  if h then
    let! x := read (model s) v in
    let! l := Lb (boundStore s) (model s) v in
    Ok (Delta_lt x l)
  else Ok false.

Definition isModelOutOfBounds (s : Simplex) (v : LVRef) : res bool :=
  let! b := isModelOutOfUpperBound s v in
  if b then Ok true else isModelOutOfLowerBound s v.

Definition isModelStrictlyUnderUpperBound (s : Simplex) (v : LVRef) : res bool :=
  let! h := hasUBound (model s) v in
  if negb h then Ok true
  else
    let! x := read (model s) v in
    let! u := Ub (boundStore s) (model s) v in
    Ok (Delta_lt x u).

Definition isModelStrictlyOverLowerBound (s : Simplex) (v : LVRef) : res bool :=
  let! h := hasLBound (model s) v in
  if negb h then Ok true
  else
    let! x := read (model s) v in
    let! l := Lb (boundStore s) (model s) v in
    Ok (Delta_gt x l).

Definition isBoundSatisfied (val : Delta N) (bound : LABound N) : bool :=
  match type bound with
  | bound_u => Delta_le val (delta bound)
  | bound_l => Delta_ge val (delta bound)
  end.

Definition overBound (s : Simplex) (v : LVRef) : res (Delta N) :=
  let! b := isModelOutOfBounds s v in
  let! _ := check b in
  let! bu := isModelOutOfUpperBound s v in
  if bu then
    let! x := read (model s) v in
    let! u := Ub (boundStore s) (model s) v in Ok (Delta_sub x u)
  else
    let! bl := isModelOutOfLowerBound s v in
    if bl then
      let! x := read (model s) v in
      let! l := Lb (boundStore s) (model s) v in Ok (Delta_sub l x)
    else Err Assertion_failed.

Definition getBound (s : Simplex) (v : LVRef) (idx : nat) : res LABoundRef := getBoundByIdx (boundStore s) v idx.
Definition Simplex_isUnbounded (s : Simplex) (v : LVRef) : res bool := model_isUnbounded (boundStore s) v.
Definition isProcessedByTableau (s : Simplex) (v : LVRef) : bool := isProcessed (tableau s) v.

(** ** Variables and rows *)

Definition newVar (v : LVRef) (s : Simplex) : Simplex :=
  let s := with_activated (grow (boundsActivated s) v 0) s in
  let s := with_model (addVar v (model s)) s in
  with_store (ensureReadyFor v (boundStore s)) s.

Definition Simplex_newNonbasicVar (v : LVRef) (s : Simplex) : res Simplex :=
  let s := newVar v s in
  let! t := newNonbasicVar v (tableau s) in Ok (with_tableau t s).
Definition Simplex_nonbasicVar (v : LVRef) (s : Simplex) : res Simplex :=
  let s := newVar v s in
  let! t := nonbasicVar v (tableau s) in Ok (with_tableau t s).
Definition Simplex_newRow (v : LVRef) (p : poly_t N) (s : Simplex) : res Simplex :=
  let s := newVar v s in
  let! t := newRow v p (tableau s) in Ok (with_tableau t s).

Definition Simplex_pushBacktrackPoint (s : Simplex) : Simplex := with_model (pushBacktrackPoint (model s)) s.
Definition Simplex_popBacktrackPoint (s : Simplex) : res Simplex :=
  let! m := popBacktrackPoint (boundStore s) (model s) in Ok (with_model m s).

(** A quasi-basic variable becomes basic, with the value of its row. *)
Definition Simplex_quasiToBasic (v : LVRef) (s : Simplex) : res Simplex :=
  let! t := quasiToBasic v (tableau s) in
  let s := with_tableau t s in
  let! _ := check (length (changed_vars_vec (model s)) =? 0) in
  let! p := getRowPoly t v in
  let! val := foldM (λ acc term,
      let! x := read (model s) (var term) in
      let! b := readBackupValue (model s) (var term) in
      let! _ := check (Delta_eq x b) in
      Ok (Delta_addAssign acc (Delta_scale (coeff term) x))) Delta_default p in
  let! m := restoreVarWithValue v val (model s) in
  Ok (with_model m s).

Definition getNumOfBoundsActive (s : Simplex) (v : LVRef) : res nat :=
  let! _ := check (v <? length (boundsActivated s)) in at_ (boundsActivated s) v.

Definition boundActivated (v : LVRef) (s : Simplex) : res Simplex :=
  let! n := at_ (boundsActivated s) v in
  let! _ := check (negb (isQuasiBasic (tableau s) v) || (n =? 0)) in
  let! s := if isQuasiBasic (tableau s) v then Simplex_quasiToBasic v s else Ok s in
  let! n := at_ (boundsActivated s) v in
  let! a := upd (boundsActivated s) v (S n) in
  Ok (with_activated a s).

Definition boundDeactivated (v : LVRef) (s : Simplex) : res Simplex :=
  let! n := at_ (boundsActivated s) v in
  let! _ := check (0 <? n) in
  let! a := upd (boundsActivated s) v (n - 1) in
  let s := with_activated a s in
  let! n := getNumOfBoundsActive s v in
  if (n =? 0) && isBasic (tableau s) v then
    let! t := basicToQuasi v (tableau s) in Ok (with_tableau t s)
  else Ok s.

(** ** Changing values *)

Definition newCandidate (v : LVRef) (s : Simplex) : res Simplex :=
  let! _ := check (isBasic (tableau s) v) in Ok (with_candidates (set_insert v (candidates s)) s).
Definition eraseCandidate (v : LVRef) (s : Simplex) : Simplex :=
  with_candidates (set_erase v (candidates s)) s.

(** The rows of the column of [v] follow its change by [diff]. *)
Definition change_row (v : LVRef) (diff : Delta N) (s : Simplex) (row : LVRef) : res Simplex :=
  let! _ := check (negb (isNonBasic (tableau s) row)) in
  if isBasic (tableau s) row then
    let! x := read (model s) row in
    let! c := Tableau_getCoeff (tableau s) row v in
    let! m := write row (Delta_add x (Delta_scale c diff)) (model s) in
    let s := with_model m s in
    let! b := isModelOutOfBounds s row in
    if b then newCandidate row s else Ok (eraseCandidate row s)
  else Ok s.

Definition changeValueBy (v : LVRef) (diff : Delta N) (s : Simplex) : res Simplex :=
  let! x := read (model s) v in
  let! m := write v (Delta_add x diff) (model s) in
  let s := with_model m s in
  let! c := getColumn (tableau s) v in
  foldM (change_row v diff) s c.

Definition updateValues (bv nv : LVRef) (s : Simplex) : res Simplex :=
  let! b := isModelOutOfBounds s bv in
  let! _ := check b in
  let! low := isModelOutOfLowerBound s bv in
  let! bvNewVal := (if low then Lb (boundStore s) (model s) bv else Ub (boundStore s) (model s) bv) in
  let! coeff := Tableau_getCoeff (tableau s) bv nv in
  let! x := read (model s) bv in
  let! nvDiff := Delta_div (Delta_sub bvNewVal x) coeff in
  changeValueBy nv nvDiff s.

Definition Simplex_pivot (bv nv : LVRef) (s : Simplex) : res Simplex :=
  let! _ := check (isBasic (tableau s) bv) in
  let! _ := check (isNonBasic (tableau s) nv) in
  let! s := updateValues bv nv s in
  let! t := pivot bv nv (tableau s) in
  let s := with_tableau t s in
  let s := eraseCandidate bv s in
  let! n := getNumOfBoundsActive s nv in
  if n =? 0 then
    let! t := basicToQuasi nv (tableau s) in Ok (with_tableau t s)
  else
    let! b := isModelOutOfBounds s nv in
    if b then newCandidate nv s else Ok s.

(** One activated bound, from the back of the buffer. *)
Definition process_bound (s : Simplex) (e : LVRef * LABoundRef) : res Simplex :=
  let '(v, boundRef) := e in
  let! _ := check (negb (isQuasiBasic (tableau s) v)) in
  if isNonBasic (tableau s) v then
    let! bound := get_bound (boundStore s) boundRef in
    let! x := read (model s) v in
    if negb (isBoundSatisfied x bound) then changeValueBy v (Delta_sub (delta bound) x) s else Ok s
  else
    let! _ := check (isBasic (tableau s) v) in
    let! b := isModelOutOfBounds s v in
    if b then newCandidate v s
    else let! _ := check (negb (bool_decide (v ∈ candidates s))) in Ok s.

Fixpoint process_buffer (l : list (LVRef * LABoundRef)) (s : Simplex) : res Simplex :=
  match l with
  | [] => Ok s
  | e :: l => let! s := process_bound (with_buffer (reverse l) s) e in process_buffer l s
  end.

Definition processBufferOfActivatedBounds (s : Simplex) : res Simplex :=
  process_buffer (reverse (bufferOfActivatedBounds s)) s.

(** ** Choosing a pivot *)

Definition candidates_ok (s : Simplex) : res bool :=
  all_of (λ v, if isBasic (tableau s) v then isModelOutOfBounds s v else Ok false) (candidates s).

Definition getBasicVarToFixByShortestPoly (s : Simplex) : res (option LVRef) :=
  let! ok := candidates_ok s in
  let! _ := check ok in
  let! r := foldM (λ (cur : option (LVRef * nat)) it,
      let! n := getPolySize (tableau s) it in
      match cur with
      | Some (_, m) => if n <? m then Ok (Some (it, n)) else Ok cur
      | None => Ok (Some (it, n))
      end) None (candidates s) in
  Ok (fst <$> r).

Definition getBasicVarToFixByBland (s : Simplex) : res (option LVRef) :=
  let! ok := candidates_ok s in
  let! _ := check ok in
  foldM (λ cur it,
      match cur with
      | Some x => if it <? x then Ok (Some it) else Ok cur
      | None => Ok (Some it)
      end) None (candidates s).

(** May [v], with coefficient [c], move the basic variable back? *)
Definition suitable (s : Simplex) (low : bool) (term : Term N) : res bool :=
  let pos := n_isPositive (coeff term) in
  let up := if low then pos else negb pos in
  if up then isModelStrictlyUnderUpperBound s (var term) else isModelStrictlyOverLowerBound s (var term).

Definition findNonBasicForPivotByHeuristic (basicVar : LVRef) (s : Simplex) : res (option LVRef) :=
  let! _ := check (isBasic (tableau s) basicVar) in
  let scan (low : bool) : res (option LVRef) :=
    let! p := getRowPoly (tableau s) basicVar in
    foldM (λ v_found term,
      let! _ := check (isNonBasic (tableau s) (var term)) in
      let! _ := check (negb (var term =? basicVar)) in
      let! b := suitable s low term in
      if b then
        match v_found with
        | None => Ok (Some (var term))
        | Some f =>
            let! cf := getColumn (tableau s) f in
            let! cv := getColumn (tableau s) (var term) in
            if length cv <? length cf then Ok (Some (var term)) else Ok v_found
        end
      else Ok v_found) None p in
  let! low := isModelOutOfLowerBound s basicVar in
  if low then scan true
  else
    let! up := isModelOutOfUpperBound s basicVar in
    if up then scan false else Err Assertion_failed.

Definition findNonBasicForPivotByBland (basicVar : LVRef) (s : Simplex) : res (option LVRef) :=
  let scan (low : bool) : res (option LVRef) :=
    let! p := getRowPoly (tableau s) basicVar in
    foldM (λ y_found term,
      let! _ := check (negb (basicVar =? var term)) in
      let! _ := check (isNonBasic (tableau s) (var term)) in
      let! b := suitable s low term in
      if b then
        match y_found with
        | None => Ok (Some (var term))
        | Some y => if var term <? y then Ok (Some (var term)) else Ok y_found
        end
      else Ok y_found) None p in
  let! low := isModelOutOfLowerBound s basicVar in
  if low then scan true
  else
    let! up := isModelOutOfUpperBound s basicVar in
    if up then scan false else Err Assertion_failed.

(** ** The main operations *)

Definition assertBoundOnVar (v : LVRef) (br : LABoundRef) (s : Simplex) : res (Explanation * Simplex) :=
  let! u := model_isUnbounded (boundStore s) v in
  let! _ := check (negb u) in
  let! bound := get_bound (boundStore s) br in
  let! _ := check (lvref bound =? v) in
  let! unsat := boundTriviallyUnsatisfied (boundStore s) (model s) v br in
  if unsat then
    let! r := (match type bound with
               | bound_u => readLBoundRef (model s) v
               | bound_l => readUBoundRef (model s) v
               end) in
    Ok ([MkExplTerm r (n_of_Z 1); MkExplTerm br (n_of_Z 1)], s)
  else
    let! s := boundActivated v s in
    let! sat := boundTriviallySatisfied (boundStore s) (model s) v br in
    if sat then Ok ([], s)
    else
      let! m := pushBound (boundStore s) br (model s) in
      let s := with_model m s in
      Ok ([], with_buffer (bufferOfActivatedBounds s ++ [(v, br)]) s).

Definition getConflictingBounds (x : LVRef) (conflictOnLower : bool) (s : Simplex) : res Explanation :=
  let! br_f := if conflictOnLower then readLBoundRef (model s) x else readUBoundRef (model s) x in
  let! row := getRowPoly (tableau s) x in
  foldM (λ expl term,
    let! _ := check (negb (n_isZero (coeff term)) && negb (var term =? x)) in
    if n_isNegative (coeff term) then
      let! br := if conflictOnLower then readLBoundRef (model s) (var term) else readUBoundRef (model s) (var term) in
      Ok (expl ++ [MkExplTerm br (n_neg (coeff term))])
    else
      let! br := if conflictOnLower then readUBoundRef (model s) (var term) else readLBoundRef (model s) (var term) in
      Ok (expl ++ [MkExplTerm br (coeff term)])) [MkExplTerm br_f (n_of_Z 1)] row.

(** One round of the loop of [checkSimplex]: the state, whether Bland's rule
    is on, and the number of rounds. *)
Definition check_round (st : Simplex * bool * nat) :
    res (Simplex * bool * nat + Explanation * Simplex) :=
  let '(s, bland_rule, repeats) := st in
  let repeats := S repeats in
  let bland_rule := bland_rule || (getNumOfCols (tableau s) <? repeats) in
  let! x := (if bland_rule then getBasicVarToFixByBland s else getBasicVarToFixByShortestPoly s) in
  let s := if bland_rule then with_stats (num_bland_ops s + 1)%Z (num_pivot_ops s) s
           else with_stats (num_bland_ops s) (num_pivot_ops s + 1)%Z s in
  match x with
  | None =>
      let! m := saveAssignment (model s) in
      Ok (inr ([], with_model m s))
  | Some x =>
      let! y := (if bland_rule then findNonBasicForPivotByBland x s else findNonBasicForPivotByHeuristic x s) in
      match y with
      | None =>
          let! b := isModelOutOfBounds s x in
          let! _ := check b in
          let! isOutOfLowerBound := isModelOutOfLowerBound s x in
          let! m := restoreAssignment (model s) in
          let s := with_model m s in
          let! e := getConflictingBounds x isOutOfLowerBound s in
          Ok (inr (e, s))
      | Some y =>
          let! s := Simplex_pivot x y s in
          Ok (inl (s, bland_rule, repeats))
      end
  end.

Definition checkSimplex (fuel : nat) (s : Simplex) : res (Explanation * Simplex) :=
  let! s := processBufferOfActivatedBounds s in
  while fuel check_round (s, false, 0).

(** ** Queries *)

Definition getValuation (v : LVRef) (s : Simplex) : res (Delta N * Simplex) :=
  let! s := if isQuasiBasic (tableau s) v then Simplex_quasiToBasic v s else Ok s in
  let! x := read (model s) v in
  Ok (x, s).

(** One side of the scan of a variable: a bound, the value, and the gap
    between them in the main and in the δ part. *)
Definition delta_side (acc : option N) (gap ddiff : N) : res (option N) :=
  let! valOfDelta := n_div gap ddiff in
  let! _ := check (n_lt (n_of_Z 0) valOfDelta) in
  match acc with
  | None => Ok (Some valOfDelta)
  | Some d => if Delta_gt_Real (Delta_Real d) valOfDelta then Ok (Some valOfDelta) else Ok acc
  end.

Definition delta_lower (s : Simplex) (v : LVRef) (acc : option N) : res (option N) :=
  let! h := hasLBound (model s) v in
  if h then
    let! val := read (model s) v in
    let! lb := Lb (boundStore s) (model s) v in
    let! _ := check (negb (n_lt (R val) (R lb))) in
    if n_lt (R lb) (R val) && n_gt (D lb) (D val)
    then delta_side acc (n_sub (R val) (R lb)) (n_sub (D lb) (D val))
    else Ok acc
  else Ok acc.

Definition delta_upper (s : Simplex) (v : LVRef) (acc : option N) : res (option N) :=
  let! h := hasUBound (model s) v in
  if h then
    let! val := read (model s) v in
    let! ub := Ub (boundStore s) (model s) v in
    let! _ := check (negb (n_lt (R ub) (R val))) in
    if n_lt (R val) (R ub) && n_gt (D val) (D ub)
    then delta_side acc (n_sub (R ub) (R val)) (n_sub (D val) (D ub))
    else Ok acc
  else Ok acc.

(** [deltaNotSet] is [acc = None]. *)
Definition delta_var (s : Simplex) (acc : option N) (v : LVRef) : res (option N) :=
  let! b := isModelOutOfBounds s v in
  let! _ := check (negb b) in
  let! val := read (model s) v in
  if n_eq (D val) (n_of_Z 0) then Ok acc
  else
    let! acc := delta_lower s v acc in
    delta_upper s v acc.

Definition computeDelta (s : Simplex) : res N :=
  let! r := foldM (delta_var s) None (lvstore (boundStore s)) in
  match r with
  | None => Ok (n_of_Z 1)
  | Some d => if Delta_gt_Real (Delta_Real d) (n_of_Z 1) then Ok (n_of_Z 1) else n_div d (n_of_Z 2)
  end.

(** The suggestion: [l_True], [l_False], or [l_Undef] as [None]. *)
Definition getPolaritySuggestion (v : LVRef) (pos neg : LABoundRef) (s : Simplex) : res (option bool * Simplex) :=
  let! s := if isQuasiBasic (tableau s) v then Simplex_quasiToBasic v s else Ok s in
  let! val := read (model s) v in
  let! pb := get_bound (boundStore s) pos in
  let positive := match type pb with
                  | bound_l => Delta_le (delta pb) val
                  | bound_u => Delta_ge (delta pb) val
                  end in
  let! nb := get_bound (boundStore s) neg in
  let negative := match type nb with
                  | bound_l => Delta_le (delta nb) val
                  | bound_u => Delta_ge (delta nb) val
                  end in
  let! _ := check (negb positive || negb negative) in
  Ok ((if positive then Some true else if negative then Some false else None), s).

(** ** The checks of debug builds *)

Definition valueConsistent (s : Simplex) (v : LVRef) : res bool :=
  let! value := read (model s) v in
  let! p := getRowPoly (tableau s) v in
  let! sum := foldM (λ acc term,
      let! x := read (model s) (var term) in
      Ok (Delta_addAssign acc (Delta_scale (coeff term) x))) (Delta_Real (n_of_Z 0)) p in
  let! _ := check (Delta_eq value sum) in
  Ok (Delta_eq value sum).

Definition checkValueConsistency (s : Simplex) : res bool :=
  let! r := foldM (λ acc i,
      let! row := at_ (rows (tableau s)) i in
      match row with
      | None => Ok acc
      | Some _ =>
          let! _ := check (negb (isNonBasic (tableau s) i)) in
          if isBasic (tableau s) i then let! b := valueConsistent s i in Ok (acc && b) else Ok acc
      end) true (seq 0 (length (rows (tableau s)))) in
  let! _ := check r in
  Ok r.

Definition invariantHolds (s : Simplex) : res bool :=
  let! _ := foldM (λ _ v, let! b := isModelOutOfBounds s v in check (negb b)) tt (getNonBasicVars (tableau s)) in
  Ok true.

Definition checkTableauConsistency (s : Simplex) : res bool := checkConsistency (tableau s).

Definition finalizeBacktracking (s : Simplex) : res Simplex :=
  let! _ := check (length (changed_vars_vec (model s)) =? 0) in
  let s := with_buffer [] (with_candidates [] s) in
  let! b := checkValueConsistency s in
  let! _ := check b in
  let! b := invariantHolds s in
  let! _ := check b in
  Ok s.

End simplex.

Arguments Simplex N : clear implicits.
Arguments Explanation N : clear implicits.
Arguments ExplTerm N : clear implicits.
