(* ===== verification/SimplexFacts.v ===== *)
(** * The simplex solver: values, bounds and active rows

    The lemmas the correctness proof of [checkSimplex] is made of: what the
    readers of Simplex.v return, what changing a value does, and how a pivot
    changes the assignment.  The rows of quasi-basic variables are not kept up
    to date, so the values are only required to satisfy the [active] rows.
    Then: what a pivot and an update do to the assignment, and the rows that
    are activated with their first bound. *)
From S2P Require Import Prelude Gmp FastRationalInt Number Lex Delta NatSet Polynomial Tableau TableauFacts LABounds LRAModel Simplex.
From Stdlib Require Import Lia.

#[local] Open Scope nat_scope.

Section values.
Context {N : Type} `{Number N}.
Implicit Types (t : Tableau N) (s : Simplex N) (m : LRAModel N) (u v r : LVRef) (p : poly_t N).

Definition valof (l : list (Delta N)) v : lexq := match l !! v with Some d => dval d | None => lzero end.
Definition cur s : LVRef → lexq := valof (current_assignment (model s)).

(** ** Active rows *)

Definition active t (β : LVRef → lexq) : Prop :=
  ∀ v p, type_of t v = BASIC → row_of t v = Some p → β v = peval β p.

(** Assign the quasi-basic variables from the others, last one first. *)
Definition assign_quasi t (σ : LVRef → lexq) (v : LVRef) : LVRef → lexq :=
  if decide (type_of t v = QUASIBASIC) then
    match row_of t v with Some p => fupd σ v (peval σ p) | None => σ end
  else σ.

(** The non-basic values determine a solution of all the rows. *)
Lemma solution_exists t β : tab_inv t → active t β →
  ∃ σ, solution t σ ∧ ∀ v, type_of t v ≠ QUASIBASIC → σ v = β v.
Proof.
  intros [_ O (l & Q)] Ha. set (n := length (varTypes t)) in *.
  assert (∀ l1 l2, l = l1 ++ l2 → ∃ σ, (∀ v, type_of t v ≠ QUASIBASIC → σ v = β v) ∧
            ∀ v p, v ∈ l2 → type_of t v = QUASIBASIC → row_of t v = Some p → σ v = peval σ p) as Hl.
  { intros l1 l2. revert l1. induction l2 as [|v l2 IH]; intros l1 El.
    { exists β. split; [done|]. by intros v p ?%not_elem_of_nil. }
    destruct (IH (l1 ++ [v])) as (σ & Hσ & Hq); [by rewrite <- app_assoc|].
    assert (v ∉ l2) as Hv2.
    { pose proof (qo_nodup _ _ _ _ Q) as Hnd. rewrite El in Hnd. apply NoDup_app in Hnd as (_ & _ & Hnd).
      by apply NoDup_cons in Hnd as [? _]. }
    destruct (decide (type_of t v = QUASIBASIC)) as [Ev|Nv].
    - destruct (row_of t v) as [pv|] eqn:Ep.
      2:{ assert (is_Some (row_of t v)) as [? ?] by (apply (ok_row _ _ _ O); by right). congruence. }
      exists (fupd σ v (peval σ pv)).
      assert (∀ u p, row_of t u = Some p → u ∈ v :: l2 → type_of t u = QUASIBASIC → v ∉ keys p) as Hno.
      { intros u p Hp Hu Eu Hin. apply Hv2. apply elem_of_cons in Hu as [->|Hu].
        - by apply (qo_later _ _ _ _ Q l1 v l2 p v).
        - apply list_elem_of_split in Hu as (m1 & m2 & ->).
          assert (v ∈ m2) as Hm; [|set_solver].
          apply (qo_later _ _ _ _ Q (l1 ++ v :: m1) u m2 p v); [by rewrite El, <- app_assoc|done..]. }
      assert (∀ u p, row_of t u = Some p → u ∈ v :: l2 → type_of t u = QUASIBASIC →
                peval (fupd σ v (peval σ pv)) p = peval σ p) as Hsame.
      { intros u p Hp Hu Eu. apply peval_ext. intros x Hx. unfold fupd. rewrite decide_False; [done|].
        intros ->. by apply (Hno u p). }
      split.
      + intros u Hu. unfold fupd. rewrite decide_False; [by apply Hσ|]. by intros ->.
      + intros u p Hu Eu Hp. rewrite (Hsame u p Hp Hu Eu).
        apply elem_of_cons in Hu as [->|Hu]; unfold fupd.
        * rewrite decide_True by done. by simplify_eq.
        * rewrite decide_False; [by apply Hq|]. by intros ->.
    - exists σ. split; [done|]. intros u p [->|Hu]%elem_of_cons; [done | by apply Hq]. }
  destruct (Hl [] l eq_refl) as (σ & Hσ & Hq). exists σ. split; [|done].
  intros v p Hp. destruct (proj1 (ok_row _ _ _ O v)) as [Ev|Ev]; [by rewrite Hp; eauto| |].
  - rewrite Hσ by congruence. rewrite (Ha v p Ev Hp). apply peval_ext. intros u Hu.
    symmetry. apply Hσ. rewrite (ok_basic _ _ _ O v p u Ev Hp Hu). done.
  - apply Hq; [|done..]. by apply (qo_all _ _ _ _ Q).
Qed.

(** Tableaux with the same solutions have the same active assignments, as far
    as their active rows go. *)
Lemma active_transfer t t' β : tab_inv t → tab_inv t' → (∀ σ, solution t σ → solution t' σ) →
  (∀ v, type_of t' v = BASIC ∨ type_of t' v = NONBASIC → type_of t v ≠ QUASIBASIC) →
  active t β → active t' β.
Proof.
  intros I I' Hs HT Ha. destruct (solution_exists t β I Ha) as (σ & Hσ & E). apply Hs in Hσ.
  pose proof I' as [_ O' _]. intros v p Hv Hp. rewrite <- E by auto. rewrite (Hσ v p Hp).
  apply peval_ext. intros u Hu. apply E, HT. right. by apply (ok_basic _ _ _ O' v p).
Qed.

Lemma active_ext t β β' : tab_inv t → (∀ v, type_of t v = BASIC ∨ type_of t v = NONBASIC → β v = β' v) →
  active t β → active t β'.
Proof.
  intros [_ O _] E Ha v p Hv Hp. rewrite <- E by auto. rewrite (Ha v p Hv Hp). apply peval_ext.
  intros u Hu. apply E. right. by apply (ok_basic _ _ _ O v p).
Qed.

(** ** Changing one variable *)

Lemma peval_change σ σ' p v d term : sorted p → term ∈ p → var term = v →
  σ' v = (σ v + d)%lex → (∀ u, u ∈ keys p → u ≠ v → σ' u = σ u) →
  peval σ' p = (peval σ p + lscale (nval (coeff term)) d)%lex.
Proof.
  intros Hs Hin Ev Hv Ho. revert Hin. induction p as [|t p IH]; [by intros ?%not_elem_of_nil|].
  apply sorted_cons in Hs as [Hf Hs]. intros [->|Hin]%elem_of_cons; simpl.
  - rewrite Ev, Hv. assert (peval σ' p = peval σ p) as ->; [|lex_ring].
    apply peval_ext. intros u Hu. pose proof (keys_above _ _ _ Hf Hu).
    apply Ho; [by right | lia].
  - rewrite (IH Hs); [|intros u Hu; apply Ho; by right|done].
    assert (var t ≠ v) as Hne.
    { intros E. rewrite Forall_forall in Hf. specialize (Hf term Hin). lia. }
    rewrite (Ho (var t)); [lex_ring|by left|done].
Qed.

(** ** Reading the bounds

    [env m b lo hi]: the strongest bounds of each variable are [lo] and [hi]. *)
Definition strongest (b : LABoundStore N) (ty : BoundT) v (l : list LABoundRef) (o : option lexq) : Prop :=
  match o with
  | None => l = []
  | Some x => ∃ br c, list.last l = Some br ∧ ba b !! br = Some c ∧ type c = ty ∧ lvref c = v ∧ dval (delta c) = x
  end.

Record env m (b : LABoundStore N) (n : nat) (lo hi : LVRef → option lexq) : Prop := {
  env_cur : n ≤ length (current_assignment m);
  env_lo v : v < n → ∃ l, int_lbounds m !! v = Some l ∧ strongest b bound_l v l (lo v);
  env_hi v : v < n → ∃ l, int_ubounds m !! v = Some l ∧ strongest b bound_u v l (hi v);
}.

Definition under (lo : option lexq) (x : lexq) : Prop := ∃ l, lo = Some l ∧ (x < l)%lex.
Definition over (hi : option lexq) (x : lexq) : Prop := ∃ h : lexq, hi = Some h ∧ (h < x)%lex.
Definition within (lo hi : option lexq) (x : lexq) : Prop := ¬ under lo x ∧ ¬ over hi x.

Lemma within_dec lo hi x : within lo hi x ∨ under lo x ∨ over hi x.
Proof.
  unfold within, under, over.
  destruct lo as [l|]; [destruct (decide (x < l)%lex)|];
    (destruct hi as [h|]; [destruct (decide (h < x)%lex)|]); naive_solver.
Qed.

Section readers.
Context (E : error → Prop) {A : Type} (Q : A → Prop) m (b : LABoundStore N) n lo hi (EV : env m b n lo hi).

Lemma read_wp v (k : Delta N → res A) : v < n →
  (∀ d, dval d = valof (current_assignment m) v → current_assignment m !! v = Some d → wp E Q (k d)) →
  wp E Q (rbind (read m v) k).
Proof.
  intros Hv Hk. unfold read, at_. destruct (lookup_lt_is_Some_2 (current_assignment m) v) as [d Hd].
  { pose proof (env_cur _ _ _ _ _ EV). lia. }
  rewrite Hd. simpl. apply Hk; [|done]. unfold valof. by rewrite Hd.
Qed.

Lemma hasLBound_wp v (k : bool → res A) : v < n →
  wp E Q (k (bool_decide (is_Some (lo v)))) → wp E Q (rbind (hasLBound m v) k).
Proof.
  intros Hv Hk. destruct (env_lo _ _ _ _ _ EV v Hv) as (l & Hl & Hs). unfold hasLBound, at_. rewrite Hl. simpl.
  destruct (lo v); simpl in Hs, Hk |- *; [|by subst l]. destruct Hs as (br & c & Hbr & _). by destruct l.
Qed.

Lemma hasUBound_wp v (k : bool → res A) : v < n →
  wp E Q (k (bool_decide (is_Some (hi v)))) → wp E Q (rbind (hasUBound m v) k).
Proof.
  intros Hv Hk. destruct (env_hi _ _ _ _ _ EV v Hv) as (l & Hl & Hs). unfold hasUBound, at_. rewrite Hl. simpl.
  destruct (hi v); simpl in Hs, Hk |- *; [|by subst l]. destruct Hs as (br & c & Hbr & _). by destruct l.
Qed.

Lemma readLBoundRef_wp v x (k : LABoundRef → res A) : v < n → lo v = Some x →
  (∀ br c l, int_lbounds m !! v = Some l → list.last l = Some br → ba b !! br = Some c → type c = bound_l →
     lvref c = v → dval (delta c) = x → wp E Q (k br)) →
  wp E Q (rbind (readLBoundRef m v) k).
Proof.
  intros Hv Hx Hk. destruct (env_lo _ _ _ _ _ EV v Hv) as (l & Hl & Hs). rewrite Hx in Hs.
  destruct Hs as (br & c & Hbr & Hc & Hty & Hlv & Hd).
  unfold readLBoundRef, hasLBound, at_. rewrite Hl. simpl.
  destruct l as [|y l]; [done|]. simpl. unfold last_. rewrite Hbr. simpl. by apply (Hk br c (y :: l)).
Qed.

Lemma readUBoundRef_wp v x (k : LABoundRef → res A) : v < n → hi v = Some x →
  (∀ br c l, int_ubounds m !! v = Some l → list.last l = Some br → ba b !! br = Some c → type c = bound_u →
     lvref c = v → dval (delta c) = x → wp E Q (k br)) →
  wp E Q (rbind (readUBoundRef m v) k).
Proof.
  intros Hv Hx Hk. destruct (env_hi _ _ _ _ _ EV v Hv) as (l & Hl & Hs). rewrite Hx in Hs.
  destruct Hs as (br & c & Hbr & Hc & Hty & Hlv & Hd).
  unfold readUBoundRef, hasUBound, at_. rewrite Hl. simpl.
  destruct l as [|y l]; [done|]. simpl. unfold last_. rewrite Hbr. simpl. by apply (Hk br c (y :: l)).
Qed.

End readers.

Section bounds_read.
Context (E : error → Prop) {A : Type} (Q : A → Prop) m (b : LABoundStore N) n lo hi (EV : env m b n lo hi).

Lemma readLBound_wp v x (k : LABound N → res A) : v < n → lo v = Some x →
  (∀ br c l, int_lbounds m !! v = Some l → list.last l = Some br → ba b !! br = Some c → type c = bound_l →
     lvref c = v → dval (delta c) = x → wp E Q (k c)) → wp E Q (rbind (readLBound b m v) k).
Proof.
  intros Hv Hx Hk. unfold readLBound. apply wp_bind. eapply readLBoundRef_wp; [exact EV|done|exact Hx|].
  intros br c l Hl Hbr Hc Hty Hlv Hd. unfold get_bound, at_. rewrite Hc. by eapply (Hk br c l).
Qed.

Lemma readUBound_wp v x (k : LABound N → res A) : v < n → hi v = Some x →
  (∀ br c l, int_ubounds m !! v = Some l → list.last l = Some br → ba b !! br = Some c → type c = bound_u →
     lvref c = v → dval (delta c) = x → wp E Q (k c)) → wp E Q (rbind (readUBound b m v) k).
Proof.
  intros Hv Hx Hk. unfold readUBound. apply wp_bind. eapply readUBoundRef_wp; [exact EV|done|exact Hx|].
  intros br c l Hl Hbr Hc Hty Hlv Hd. unfold get_bound, at_. rewrite Hc. by eapply (Hk br c l).
Qed.

End bounds_read.

Section values_read.
Context (E : error → Prop) {A : Type} (Q : A → Prop) m (b : LABoundStore N) n lo hi (EV : env m b n lo hi).

Lemma Lb_wp v x (k : Delta N → res A) : v < n → lo v = Some x → (∀ d, dval d = x → wp E Q (k d)) →
  wp E Q (rbind (Lb b m v) k).
Proof.
  intros Hv Hx Hk. unfold Lb. apply wp_bind. eapply readLBound_wp; [exact EV|done|exact Hx|]. intros. by apply Hk.
Qed.

Lemma Ub_wp v x (k : Delta N → res A) : v < n → hi v = Some x → (∀ d, dval d = x → wp E Q (k d)) →
  wp E Q (rbind (Ub b m v) k).
Proof.
  intros Hv Hx Hk. unfold Ub. apply wp_bind. eapply readUBound_wp; [exact EV|done|exact Hx|]. intros. by apply Hk.
Qed.

End values_read.

Definition senv s (n : nat) lo hi : Prop := env (model s) (boundStore s) n lo hi.

Section tests.
Context (E : error → Prop) s n lo hi (EV : senv s n lo hi).

Lemma isModelOutOfUpperBound_wp v : v < n →
  wp E (λ b, b = true ↔ over (hi v) (cur s v)) (isModelOutOfUpperBound s v).
Proof.
  intros Hv. unfold isModelOutOfUpperBound. eapply hasUBound_wp; [exact EV|done|].
  destruct (hi v) as [u|] eqn:Eu.
  - rewrite bool_decide_true by eauto. eapply read_wp; [exact EV|done|]. intros d Hd _. eapply Ub_wp; [exact EV|done|exact Eu|].
    intros c Hc. simpl. rewrite Delta_gt_val, Hd, Hc. unfold over. fold (cur s v). naive_solver.
  - simpl. unfold over. naive_solver.
Qed.

Lemma isModelOutOfLowerBound_wp v : v < n →
  wp E (λ b, b = true ↔ under (lo v) (cur s v)) (isModelOutOfLowerBound s v).
Proof.
  intros Hv. unfold isModelOutOfLowerBound. eapply hasLBound_wp; [exact EV|done|].
  destruct (lo v) as [l|] eqn:El.
  - rewrite bool_decide_true by eauto. eapply read_wp; [exact EV|done|]. intros d Hd _. eapply Lb_wp; [exact EV|done|exact El|].
    intros c Hc. simpl. rewrite Delta_lt_val, Hd, Hc. unfold under. fold (cur s v). naive_solver.
  - simpl. unfold under. naive_solver.
Qed.

Lemma isModelOutOfBounds_wp v : v < n →
  wp E (λ b, b = true ↔ ¬ within (lo v) (hi v) (cur s v)) (isModelOutOfBounds s v).
Proof.
  intros Hv. unfold isModelOutOfBounds. apply wp_bind.
  eapply wp_mono; [by apply isModelOutOfUpperBound_wp|]. intros [|] Hb.
  - simpl. assert (over (hi v) (cur s v)) by by apply Hb. unfold within. tauto.
  - eapply wp_mono; [by apply isModelOutOfLowerBound_wp|]. intros b Hl. simpl. rewrite Hl. unfold within.
    assert (¬ over (hi v) (cur s v)) by (intros ?%Hb; done).
    destruct (within_dec (lo v) (hi v) (cur s v)) as [[? ?]|]; tauto.
Qed.

Lemma isModelStrictlyUnderUpperBound_wp v : v < n →
  wp E (λ b, b = true ↔ ∀ h, hi v = Some h → (cur s v < h)%lex) (isModelStrictlyUnderUpperBound s v).
Proof.
  intros Hv. unfold isModelStrictlyUnderUpperBound. eapply hasUBound_wp; [exact EV|done|].
  destruct (hi v) as [u|] eqn:Eu.
  - rewrite bool_decide_true by eauto. cbn [negb]. eapply read_wp; [exact EV|done|]. intros d Hd _. eapply Ub_wp; [exact EV|done|exact Eu|].
    intros c Hc. simpl. rewrite Delta_lt_val, Hd, Hc. fold (cur s v). naive_solver.
  - simpl. naive_solver.
Qed.

Lemma isModelStrictlyOverLowerBound_wp v : v < n →
  wp E (λ b, b = true ↔ ∀ l, lo v = Some l → (l < cur s v)%lex) (isModelStrictlyOverLowerBound s v).
Proof.
  intros Hv. unfold isModelStrictlyOverLowerBound. eapply hasLBound_wp; [exact EV|done|].
  destruct (lo v) as [l|] eqn:El.
  - rewrite bool_decide_true by eauto. cbn [negb]. eapply read_wp; [exact EV|done|]. intros d Hd _. eapply Lb_wp; [exact EV|done|exact El|].
    intros c Hc. simpl. rewrite Delta_gt_val, Hd, Hc. fold (cur s v). naive_solver.
  - simpl. naive_solver.
Qed.

End tests.

(** ** Assignments and their backup *)

(** The variables that differ from the last consistent assignment are listed. *)
Record vals_ok m : Prop := {
  vo_len : length (last_consistent_assignment m) = length (current_assignment m);
  vo_set : nat_set.inv (changed_vars_set m);
  vo_dom : length (current_assignment m) ≤ nat_set.get_domain (changed_vars_set m);
  vo_mem v : nat_set.member (changed_vars_set m) v ↔ v ∈ changed_vars_vec m;
  vo_range v : v ∈ changed_vars_vec m → v < length (current_assignment m);
  vo_same v : v ∉ changed_vars_vec m → current_assignment m !! v = last_consistent_assignment m !! v;
}.

(** Everything of the model but the current values and the list of changes. *)
Record same_model m m' : Prop := {
  sm_lb : int_lbounds m' = int_lbounds m;
  sm_ub : int_ubounds m' = int_ubounds m;
  sm_limits : bound_limits m' = bound_limits m;
  sm_trace : bound_trace m' = bound_trace m;
  sm_vars : n_vars_with_model m' = n_vars_with_model m;
  sm_has : has_model m' = has_model m;
  sm_len : length (current_assignment m') = length (current_assignment m);
}.

Lemma same_model_refl m : same_model m m.
Proof. done. Qed.
Lemma same_model_trans m1 m2 m3 : same_model m1 m2 → same_model m2 m3 → same_model m1 m3.
Proof. intros [] []. constructor; congruence. Qed.

Lemma env_same m m' b n lo hi : same_model m m' → env m b n lo hi → env m' b n lo hi.
Proof.
  intros [E1 E2 _ _ _ _ E3] [H1 H2 H3]. constructor; [lia| |]; intros v Hv.
  - rewrite E1. by apply H2.
  - rewrite E2. by apply H3.
Qed.

Lemma write_wp E v d m : vals_ok m → v < length (current_assignment m) →
  wp E (λ m', vals_ok m' ∧ same_model m m' ∧ last_consistent_assignment m' = last_consistent_assignment m
    ∧ current_assignment m' = <[v := d]> (current_assignment m)) (write v d m).
Proof.
  intros [V1 V2 V3 V4 V5 V6] Hv. unfold write. apply wp_bind, upd_wp; [done|].
  apply wp_bind. eapply wp_mono; [apply nat_set.contains_wp; lia|]. intros b Hb.
  assert (∀ u, u ≠ v → (<[v := d]> (current_assignment m)) !! u = current_assignment m !! u) as Ho
    by (intros u Hu; by apply list_lookup_insert_ne).
  destruct b.
  - assert (v ∈ changed_vars_vec m) as Hin by by apply V4, Hb. cbn [wp]. split; [|split; [|split; done]].
    + constructor; simpl; rewrite ?length_insert; try done.
      intros u Hu. rewrite Ho; [by apply V6|]. by intros ->.
    + constructor; simpl; try done. by rewrite length_insert.
  - apply wp_bind. eapply wp_mono; [apply nat_set.insert_wp; [done|lia]|]. intros cs (I & D & M).
    cbn [wp]. split; [|split; [|split; done]].
    + constructor; simpl; rewrite ?length_insert; try done; [lia| | |].
      * intros u. rewrite M, V4. unfold push. rewrite elem_of_app, list_elem_of_singleton. tauto.
      * intros u. unfold push. rewrite elem_of_app, list_elem_of_singleton. intros [?| ->]; auto.
      * intros u. unfold push. rewrite elem_of_app, list_elem_of_singleton. intros Hu.
        rewrite Ho by tauto. apply V6. tauto.
    + constructor; simpl; try done. by rewrite length_insert.
Qed.

Lemma valof_insert (l : list (Delta N)) v d u : v < length l →
  valof (<[v := d]> l) u = if decide (u = v) then dval d else valof l u.
Proof.
  intros Hv. unfold valof. destruct (decide (u = v)) as [->|].
  - by rewrite list_lookup_insert_eq.
  - by rewrite list_lookup_insert_ne.
Qed.

(** Copying the listed entries of one assignment to the other makes them equal. *)
Lemma copy_entries_wp E (from to : list (Delta N)) vec : length to = length from →
  (∀ v, v ∈ vec → v < length from) → (∀ v, v ∉ vec → to !! v = from !! v) →
  wp E (λ to', to' = from) (foldM (λ to v, let! x := at_ from v in upd to v x) to vec).
Proof.
  intros Hl Hr Hs.
  eapply wp_mono; [apply (foldM_wp E _ (λ pre _ to', length to' = length from
    ∧ ∀ v, v ∈ pre ∨ v ∉ vec → to' !! v = from !! v))|].
  - split; [done|]. intros v [Hv|Hv]; [by apply not_elem_of_nil in Hv | by apply Hs].
  - intros pre v post to' Ev [Hl' Hs'].
    destruct (lookup_lt_is_Some_2 from v) as [d Hd]; [apply Hr; rewrite Ev; set_solver|].
    pose proof (lookup_lt_Some _ _ _ Hd).
    unfold at_. rewrite Hd. cbn [rbind]. apply upd_wp; [lia|]. split; [by rewrite length_insert|].
    intros u Hu. destruct (decide (u = v)) as [->|Hne].
    + rewrite list_lookup_insert_eq by lia. done.
    + rewrite list_lookup_insert_ne by done. apply Hs'.
      rewrite elem_of_app, list_elem_of_singleton in Hu. tauto.
  - intros to' [Hl' Hs']. apply list_eq. intros v. apply Hs'. destruct (decide (v ∈ vec)); tauto.
Qed.

Lemma saveAssignment_wp E m : vals_ok m →
  wp E (λ m', vals_ok m' ∧ same_model m m' ∧ changed_vars_vec m' = []
    ∧ current_assignment m' = current_assignment m
    ∧ last_consistent_assignment m' = current_assignment m) (saveAssignment m).
Proof.
  intros [V1 V2 V3 V4 V5 V6]. destruct (nat_set.reset_inv _ V2) as (R1 & R2 & R3).
  unfold saveAssignment. apply wp_bind. eapply wp_mono; [apply copy_entries_wp; [done|done|]|].
  { intros v Hv. by rewrite V6. }
  intros l ->. cbn [wp]. split; [|done]. constructor; simpl; try done.
  - by rewrite R2.
  - intros v. split; [by intros ?%R3 | by intros ?%not_elem_of_nil].
  - by intros v ?%not_elem_of_nil.
Qed.

Lemma restoreAssignment_wp E m : vals_ok m →
  wp E (λ m', vals_ok m' ∧ same_model m m' ∧ changed_vars_vec m' = []
    ∧ current_assignment m' = last_consistent_assignment m
    ∧ last_consistent_assignment m' = last_consistent_assignment m) (restoreAssignment m).
Proof.
  intros [V1 V2 V3 V4 V5 V6]. destruct (nat_set.reset_inv _ V2) as (R1 & R2 & R3).
  unfold restoreAssignment. apply wp_bind. eapply wp_mono; [apply copy_entries_wp; [done| |done]|].
  { intros v Hv. rewrite V1. by apply V5. }
  intros l ->. cbn [wp]. split; [|split; [|done]].
  - constructor; simpl; try done.
    + by rewrite R2, V1.
    + intros v. split; [by intros ?%R3 | by intros ?%not_elem_of_nil].
    + by intros v ?%not_elem_of_nil.
  - constructor; simpl; done.
Qed.

(** ** Candidates *)

Lemma elem_of_set_insert v l u : u ∈ set_insert v l ↔ u = v ∨ u ∈ l.
Proof.
  induction l as [|x l IH]; simpl; [set_solver|].
  destruct (Nat.ltb_spec v x); [set_solver|]. destruct (Nat.eqb_spec v x); set_solver.
Qed.

Lemma elem_of_set_erase v l u : u ∈ set_erase v l ↔ u ∈ l ∧ u ≠ v.
Proof. unfold set_erase. rewrite list_elem_of_filter. tauto. Qed.

(** ** [changeValueBy] *)

(** What changes of values and candidates leave alone. *)
Record same_frame s s' : Prop := {
  sf_store : boundStore s' = boundStore s;
  sf_tableau : tableau s' = tableau s;
  sf_buffer : bufferOfActivatedBounds s' = bufferOfActivatedBounds s;
  sf_activated : boundsActivated s' = boundsActivated s;
  sf_model : same_model (model s) (model s');
  sf_last : last_consistent_assignment (model s') = last_consistent_assignment (model s);
}.

Lemma same_frame_refl s : same_frame s s.
Proof. done. Qed.
Lemma same_frame_trans s1 s2 s3 : same_frame s1 s2 → same_frame s2 s3 → same_frame s1 s3.
Proof. intros [? ? ? ? M ?] [? ? ? ? M' ?]. constructor; try congruence. by apply (same_model_trans _ _ _ M M'). Qed.

Lemma senv_same s s' n lo hi : same_frame s s' → senv s n lo hi → senv s' n lo hi.
Proof. intros [E _ _ _ M _] He. unfold senv. rewrite E. by apply (env_same (model s)). Qed.

Section change.
Context (E : error → Prop) (n : nat) (lo hi : LVRef → option lexq) (v : LVRef) (diff : Delta N).

Definition misplaced (x : lexq) r : Prop := ¬ within (lo r) (hi r) x.

(** A basic row after the change of [v], from the state [s0] before it. *)
Record row_changed (s0 s : Simplex N) r : Prop := {
  rc_val : ∃ p term, row_of (tableau s0) r = Some p ∧ term ∈ p ∧ var term = v
    ∧ cur s r = (cur s0 r + lscale (nval (coeff term)) (dval diff))%lex;
  rc_cand : r ∈ candidates s ↔ misplaced (cur s r) r;
}.

Record changing (s0 : Simplex N) (pre : list LVRef) (s : Simplex N) : Prop := {
  ch_frame : same_frame s0 s;
  ch_vals : vals_ok (model s);
  ch_v : cur s v = (cur s0 v + dval diff)%lex;
  ch_rows r : r ∈ pre → row_changed s0 s r;
  ch_other u : u ∉ pre → u ≠ v → cur s u = cur s0 u;
  ch_cand u : u ∉ pre → u ∈ candidates s ↔ u ∈ candidates s0;
}.

Lemma change_row_wp s0 pre s r : tab_inv (tableau s0) → senv s0 n lo hi → n = length (varTypes (tableau s0)) →
  type_of (tableau s0) v = NONBASIC → mentions (row_of (tableau s0)) (type_of (tableau s0)) v r → r ∉ pre →
  changing s0 pre s → wp E (changing s0 (pre ++ [r])) (change_row v diff s r).
Proof.
  intros I EV0 En Hv (HTr & p & Hp & Hin) Hr [F V Cv Cr Co Cc]. pose proof I as [VW O _].
  pose proof (senv_same _ _ _ _ _ F EV0) as EV.
  assert (r < n) as Hrn by (rewrite En; apply (ok_range _ _ _ O); congruence).
  assert (r ≠ v) as Hrv by congruence.
  unfold change_row. rewrite (sf_tableau _ _ F).
  rewrite (not_true_eq _ _ (isNonBasic_iff (tableau s0) r)) by congruence. cbn [negb check rbind].
  rewrite (proj2 (isBasic_iff (tableau s0) r) HTr).
  eapply read_wp; [exact EV|done|]. intros d Hd _.
  apply elem_of_keys in Hin as (term & Ht & Evt).
  unfold Tableau_getCoeff. apply wp_bind. eapply getRowPoly_wp; [exact VW|exact Hp|].
  rewrite <- Evt, (getCoeff_term p term (proj1 (ok_poly _ _ _ O r p Hp)) Ht). cbn [wp].
  apply wp_bind. eapply wp_mono; [apply (write_wp E r _ _ V)|].
  { pose proof (env_cur _ _ _ _ _ EV). lia. }
  intros m' (V' & M' & L' & C'). set (s1 := with_model m' s).
  assert (same_frame s0 s1) as F1.
  { destruct F as [? ? ? ? Mf Lf]. constructor; simpl; try congruence. by apply (same_model_trans _ _ _ Mf M'). }
  pose proof (senv_same _ _ _ _ _ F1 EV0) as EV1.
  assert (r < length (current_assignment (model s))) as Hl by (pose proof (env_cur _ _ _ _ _ EV); lia).
  assert (∀ u, cur s1 u = if decide (u = r) then (cur s0 r + lscale (nval (coeff term)) (dval diff))%lex else cur s u) as Ecur.
  { intros u. unfold cur at 1. simpl. rewrite C', valof_insert by done. destruct (decide (u = r)); [|done].
    rewrite Delta_add_val, Delta_scale_val, Hd. fold (cur s r). by rewrite (Co r Hr Hrv). }
  apply wp_bind. eapply wp_mono; [apply (isModelOutOfBounds_wp E s1 n lo hi EV1 r Hrn)|].
  intros b Hb. fold (misplaced (cur s1 r) r) in Hb.
  assert (∀ s2, same_frame s0 s2 → vals_ok (model s2) → (∀ u, cur s2 u = cur s1 u) →
            (r ∈ candidates s2 ↔ misplaced (cur s1 r) r) →
            (∀ u, u ≠ r → u ∈ candidates s2 ↔ u ∈ candidates s) → changing s0 (pre ++ [r]) s2) as Hdone.
  { intros s2 F2 V2 E2 K2 K2'. constructor; [done|done| | | |].
    - rewrite E2, Ecur. by rewrite decide_False by done.
    - intros u Hu. destruct (decide (u = r)) as [->|Hne].
      + constructor; [|by rewrite E2]. exists p, term. rewrite E2, Ecur, decide_True by done. done.
      + assert (u ∈ pre) as Hup by set_solver. destruct (Cr u Hup) as [Rv Rc].
        assert (cur s2 u = cur s u) as Eu by (by rewrite E2, Ecur, decide_False).
        constructor; rewrite Eu; [done|]. by rewrite K2'.
    - intros u Hu Huv. rewrite E2, Ecur. rewrite decide_False by set_solver. apply Co; set_solver.
    - intros u Hu. rewrite K2' by set_solver. apply Cc. set_solver. }
  destruct b.
  - unfold newCandidate. rewrite (proj2 (isBasic_iff (tableau s1) r)) by (by rewrite (sf_tableau _ _ F1)).
    cbn [check rbind wp]. apply Hdone; simpl; [by destruct F1|done|done| |].
    + rewrite elem_of_set_insert. tauto.
    + intros u Hu. rewrite elem_of_set_insert. tauto.
  - cbn [wp]. apply Hdone; simpl; [by destruct F1|done|done| |].
    + rewrite elem_of_set_erase. split; [tauto|]. intros Hm. by apply Hb in Hm.
    + intros u Hu. rewrite elem_of_set_erase. tauto.
Qed.

(** The state after [v] has been moved by [diff]. *)
Record changed s0 s : Prop := {
  cd_frame : same_frame s0 s;
  cd_vals : vals_ok (model s);
  cd_v : cur s v = (cur s0 v + dval diff)%lex;
  cd_other u : type_of (tableau s0) u ≠ BASIC → u ≠ v → cur s u = cur s0 u;
  cd_active : active (tableau s0) (cur s0) → active (tableau s) (cur s);
  cd_cand r : mentions (row_of (tableau s0)) (type_of (tableau s0)) v r → (r ∈ candidates s ↔ misplaced (cur s r) r);
  cd_rest u : ¬ mentions (row_of (tableau s0)) (type_of (tableau s0)) v u → u ≠ v →
    cur s u = cur s0 u ∧ (u ∈ candidates s ↔ u ∈ candidates s0);
  cd_vcand : v ∈ candidates s ↔ v ∈ candidates s0;
}.

Lemma changeValueBy_wp s0 : tab_inv (tableau s0) → senv s0 n lo hi → vals_ok (model s0) →
  n = length (varTypes (tableau s0)) → type_of (tableau s0) v = NONBASIC →
  wp E (changed s0) (changeValueBy v diff s0).
Proof.
  intros I EV V En Hv. pose proof I as [VW O _]. unfold changeValueBy.
  assert (v < n) as Hvn by (rewrite En; apply (ok_range _ _ _ O); congruence).
  assert (v < length (current_assignment (model s0))) as Hl by (pose proof (env_cur _ _ _ _ _ EV); lia).
  eapply read_wp; [exact EV|done|]. intros d Hd _.
  apply wp_bind. eapply wp_mono; [by apply (write_wp E v _ _ V)|]. intros m' (V' & M' & L' & C').
  eapply getColumn_wp; [exact VW|exact Hv|]. intros c Hnd Hm.
  set (s1 := with_model m' s0).
  assert (∀ u, cur s1 u = if decide (u = v) then (cur s0 v + dval diff)%lex else cur s0 u) as Ecur.
  { intros u. unfold cur at 1. simpl. rewrite C', valof_insert by done.
    destruct (decide (u = v)); [|done]. by rewrite Delta_add_val, Hd. }
  eapply wp_mono; [apply (foldM_wp E _ (λ pre _ s, changing s0 pre s))|].
  - constructor; simpl; try done.
    + fold s1. rewrite Ecur. by rewrite decide_True.
    + by intros r ?%not_elem_of_nil.
    + intros u _ Hu. fold s1. rewrite Ecur. by rewrite decide_False.
  - intros pre r post s Ec Hs. apply change_row_wp; try done.
    + apply Hm. rewrite Ec. set_solver.
    + rewrite Ec in Hnd. apply NoDup_app in Hnd as (_ & Hd' & _). intros Hi. by apply (Hd' r Hi); left.
  - intros s [F V2 Cv Cr Co Cc].
    assert (∀ r, type_of (tableau s0) r ≠ BASIC → r ∉ c) as Hnb.
    { intros r Hr Hin. apply Hm in Hin as [? _]. done. }
    constructor; [done|done|done| | | | |].
    + intros u Hu Huv. apply Co; [by apply Hnb | done].
    + rewrite (sf_tableau _ _ F). intros Ha r p HTr Hp.
      assert (∀ u, u ∈ keys p → u ≠ v → cur s u = cur s0 u) as Hk.
      { intros u Hu Huv. apply Co; [|done]. apply Hnb. rewrite (ok_basic _ _ _ O r p u HTr Hp Hu). done. }
      destruct (decide (v ∈ keys p)) as [Hin|Hni].
      * assert (r ∈ c) as Hrc by (apply Hm; split; [done | eauto]).
        destruct (rc_val _ _ _ (Cr r Hrc)) as (p' & term & Hp' & Ht & Evt & ->).
        assert (p' = p) as -> by congruence. rewrite (Ha r p HTr Hp). symmetry.
        apply (peval_change (cur s0) (cur s) p v); [|done|done|done|done].
        apply (ok_poly _ _ _ O r p Hp).
      * rewrite Co.
        -- rewrite (Ha r p HTr Hp). apply peval_ext. intros u Hu. symmetry. apply Hk; [done|]. by intros ->.
        -- intros Hrc. apply Hm in Hrc as (_ & p' & Hp' & Hin). by simplify_eq.
        -- congruence.
    + intros r Hr. apply (rc_cand _ _ _ (Cr r (proj2 (Hm r) Hr))).
    + intros u Hu Huv. assert (u ∉ c) by (by rewrite Hm). split; [by apply Co | by apply Cc].
    + apply Cc, Hnb. congruence.
Qed.

End change.

End values.

(** * The simplex solver: one pivot

    The invariant of the loop of [checkSimplex] and the two operations that
    keep it: processing the buffer of activated bounds establishes it, and a
    pivot on a suitable pair of variables preserves it. *)

Section pivot.
Context {N : Type} `{Number N}.
Implicit Types (t : Tableau N) (s : Simplex N) (u v r : LVRef) (p : poly_t N).
Context (n : nat) (lo hi : LVRef → option lexq).

(** What every state of the loop satisfies, whatever the candidates. *)
Record core s : Prop := {
  co_tab : tab_inv (tableau s);
  co_n : length (varTypes (tableau s)) = n;
  co_env : senv s n lo hi;
  co_vals : vals_ok (model s);
  co_active : active (tableau s) (cur s);
  co_act v : v < n → ∃ k, boundsActivated s !! v = Some k ∧ (k = 0 → lo v = None ∧ hi v = None)
                        ∧ (type_of (tableau s) v = QUASIBASIC → k = 0);
}.

(** The bounds of a variable do not exclude each other. *)
Definition feasible_bounds : Prop := ∀ v l h, lo v = Some l → hi v = Some h → (l <= h)%lex.
Hypothesis Hfeas : feasible_bounds.

Definition out s v : Prop := misplaced lo hi (cur s v) v.

Record repaired s : Prop := {
  rp_core : core s;
  rp_cand v : v ∈ candidates s ↔ type_of (tableau s) v = BASIC ∧ out s v;
  rp_nonbasic v : type_of (tableau s) v = NONBASIC → ¬ out s v;
}.

Lemma core_range s v : core s → type_of (tableau s) v ≠ NONE → v < n.
Proof. intros C Hv. rewrite <- (co_n _ C). by apply (ok_range _ _ _ (ti_ok _ (co_tab _ C))). Qed.

Lemma out_iff s v : out s v ↔ under (lo v) (cur s v) ∨ over (hi v) (cur s v).
Proof.
  unfold out, misplaced, within. destruct (within_dec (lo v) (hi v) (cur s v)) as [[? ?]|?]; tauto.
Qed.

Lemma within_lo v l x : lo v = Some l → x = l → within (lo v) (hi v) x.
Proof.
  intros El ->. split.
  - intros (l' & E' & Hlt). rewrite El in E'. injection E' as <-. by apply llt_irrefl in Hlt.
  - intros (h & Eh & Hlt). pose proof (Hfeas v l h El Eh). apply (llt_irrefl l). by eapply lle_lt_trans.
Qed.

Lemma within_hi v h x : hi v = Some h → x = h → within (lo v) (hi v) x.
Proof.
  intros Eh ->. split.
  - intros (l & El & Hlt). pose proof (Hfeas v l h El Eh). apply (llt_irrefl h). by eapply llt_le_trans.
  - intros (h' & E' & Hlt). rewrite Eh in E'. injection E' as <-. by apply llt_irrefl in Hlt.
Qed.

(** ** Retyping the tableau *)

Lemma core_with_tableau s t' : core s → tab_inv t' → length (varTypes t') = n →
  (∀ σ, solution (tableau s) σ → solution t' σ) →
  (∀ v, type_of t' v = BASIC ∨ type_of t' v = NONBASIC → type_of (tableau s) v ≠ QUASIBASIC) →
  (∀ v, type_of t' v = QUASIBASIC → v < n → boundsActivated s !! v = Some 0) →
  core (with_tableau t' s).
Proof.
  intros [C1 C2 C3 C4 C5 C6] I' En Hs HT HQ. constructor; simpl; try done.
  - by apply (active_transfer (tableau s)).
  - intros v Hv. destruct (C6 v Hv) as (k & Hk & H0 & _). exists k. split; [done|]. split; [done|].
    intros Hq. specialize (HQ v Hq Hv). congruence.
Qed.

(** ** The pivot *)

(** The bound the leaving variable is moved to: the one it violates. *)
Definition target s x (z : lexq) : Prop :=
  (under (lo x) (cur s x) ∧ lo x = Some z) ∨ (¬ under (lo x) (cur s x) ∧ over (hi x) (cur s x) ∧ hi x = Some z).

Lemma target_within s x z : target s x z → within (lo x) (hi x) z.
Proof. intros [(_ & E)|(_ & _ & E)]; [by eapply within_lo | by eapply within_hi]. Qed.

Record pivot_step s x y s' : Prop := {
  ps_repaired : repaired s';
  ps_sat σ : solution (tableau s') σ ↔ solution (tableau s) σ;
  ps_x : target s x (cur s' x);
  ps_typex : type_of (tableau s') x = NONBASIC;
  ps_typey : type_of (tableau s') y = BASIC ∨ type_of (tableau s') y = QUASIBASIC;
  ps_type u : u ≠ x → u ≠ y → type_of (tableau s') u = type_of (tableau s) u;
  ps_nonbasic u : type_of (tableau s) u = NONBASIC → u ≠ y → cur s' u = cur s u;
  ps_store : boundStore s' = boundStore s;
  ps_act : boundsActivated s' = boundsActivated s;
  ps_buffer : bufferOfActivatedBounds s' = bufferOfActivatedBounds s;
  ps_model : same_model (model s) (model s');
  ps_last : last_consistent_assignment (model s') = last_consistent_assignment (model s);
}.

Lemma Delta_gap_solved (c z new : lexq) q : nval q ≠ 0%Qc → c = lscale (/ nval q) (new - z) →
  (z + lscale (nval q) c)%lex = new.
Proof. intros Hq ->. apply lexq_eq; split; simpl; field; done. Qed.

Lemma getRowPoly_ok t v p : row_of t v = Some p → getRowPoly t v = Ok p.
Proof. unfold row_of, getRowPoly, at_. destruct (rows t !! v) as [[q|]|]; simpl; congruence. Qed.

Lemma Tableau_getCoeff_ok t v p term : tab_inv t → row_of t v = Some p → term ∈ p →
  Tableau_getCoeff t v (var term) = Ok (coeff term).
Proof.
  intros [_ O _] Hp Ht. unfold Tableau_getCoeff. rewrite (getRowPoly_ok t v p Hp). simpl.
  apply getCoeff_term; [|done]. apply (ok_poly _ _ _ O v p Hp).
Qed.

(** [updateValues] moves [x] to the bound it violates. *)
Lemma updateValues_wp E s x y p term : repaired s → type_of (tableau s) x = BASIC → out s x →
  row_of (tableau s) x = Some p → term ∈ p → var term = y →
  wp E (λ s', ∃ diff, changed lo hi y diff s s' ∧ target s x (cur s' x)) (updateValues x y s).
Proof.
  intros [C Cand Nb] Hx Hout Hp Ht Ey. pose proof (co_tab _ C) as I. pose proof I as [VW O _].
  pose proof (co_env _ C) as EV.
  assert (x < n) as Hxn by (apply (core_range s); congruence).
  assert (y ∈ keys p) as Hyk by (apply elem_of_keys; eauto).
  pose proof (ok_basic _ _ _ O x p y Hx Hp Hyk) as Hy.
  pose proof (ok_poly _ _ _ O x p Hp) as Wp.
  assert (nval (coeff term) ≠ 0%Qc) as Hc by exact (proj1 (Forall_forall _ _) (proj2 Wp) term Ht).
  unfold updateValues. apply wp_bind. eapply wp_mono; [apply (isModelOutOfBounds_wp E s n lo hi EV x Hxn)|].
  intros b Hb. rewrite (proj2 Hb Hout). cbn [check rbind].
  apply wp_bind. eapply wp_mono; [apply (isModelOutOfLowerBound_wp E s n lo hi EV x Hxn)|]. intros low Hlow.
  assert (∀ (k : Delta N → res (Simplex N)) Q, (∀ d, target s x (dval d) → wp E Q (k d)) →
            wp E Q (rbind (if low then Lb (boundStore s) (model s) x else Ub (boundStore s) (model s) x) k)) as Hread.
  { intros k Q Hk. apply out_iff in Hout. unfold target in Hk. destruct low.
    - assert (under (lo x) (cur s x)) as Hu by by apply Hlow.
      pose proof Hu as (l & El & _). eapply Lb_wp; [exact EV|done|exact El|]. intros d Hd. apply Hk. left. by rewrite Hd.
    - assert (¬ under (lo x) (cur s x)) as Hu by (intros Hu; apply Hlow in Hu; done).
      destruct Hout as [|Ho]; [done|]. pose proof Ho as (h & Eh & _).
      eapply Ub_wp; [exact EV|done|exact Eh|]. intros d Hd. apply Hk. right. by rewrite Hd. }
  apply Hread. intros new Hnew. rewrite <- Ey, (Tableau_getCoeff_ok _ _ _ _ I Hp Ht). cbn [rbind].
  eapply read_wp; [exact EV|done|]. intros d Hd _.
  destruct (Delta_div_val (Delta_sub new d) (coeff term) Hc) as (diff & -> & Hdiff). cbn [rbind].
  rewrite Ey. eapply wp_mono; [apply (changeValueBy_wp E n lo hi y diff s I EV (co_vals _ C)); [by rewrite (co_n _ C)|done]|].
  intros s' CH. exists diff. split; [done|].
  (* the row carries the change over to [x] *)
  pose proof (cd_active _ _ _ _ _ _ CH (co_active _ C)) as Ha. rewrite (sf_tableau _ _ (cd_frame _ _ _ _ _ _ CH)) in Ha.
  rewrite (Ha x p Hx Hp).
  rewrite (peval_change (cur s) (cur s') p y (dval diff) term (proj1 Wp) Ht Ey (cd_v _ _ _ _ _ _ CH)).
  - rewrite <- (co_active _ C x p Hx Hp).
    rewrite (Delta_gap_solved (dval diff) (cur s x) (dval new) (coeff term)); [done..|].
    rewrite Hdiff, Delta_sub_val, Hd. done.
  - intros u Hu Huy. apply (cd_other _ _ _ _ _ _ CH); [|done].
    rewrite (ok_basic _ _ _ O x p u Hx Hp Hu). done.
Qed.

(** After the change and the swap, [x] is erased and [y] put in as needed. *)
Lemma pivot_candidates s s1 s' x y diff p : repaired s → type_of (tableau s) x = BASIC →
  type_of (tableau s) y = NONBASIC → row_of (tableau s) x = Some p → y ∈ keys p →
  changed lo hi y diff s s1 → target s x (cur s1 x) →
  (∀ u, cur s' u = cur s1 u) →
  (type_of (tableau s') y = BASIC ∨ type_of (tableau s') y = QUASIBASIC) →
  (∀ u, u ≠ y → u ∈ candidates s' ↔ u ∈ candidates s1 ∧ u ≠ x) →
  (y ∈ candidates s' ↔ type_of (tableau s') y = BASIC ∧ out s' y) →
  (∀ u, u ≠ y → type_of (tableau s') u = swapped (type_of (tableau s)) x y u) →
  (∀ v, v ∈ candidates s' ↔ type_of (tableau s') v = BASIC ∧ out s' v)
  ∧ (∀ v, type_of (tableau s') v = NONBASIC → ¬ out s' v).
Proof.
  intros R Hx Hy Hp Hyk CH Htar Ecur HTy HCs HCy HT'. pose proof (co_tab _ (rp_core _ R)) as [_ O _].
  assert (x ≠ y) as Hxy by congruence.
  assert (∀ u, out s' u ↔ misplaced lo hi (cur s1 u) u) as Hout by (intros u; unfold out; by rewrite Ecur).
  assert (∀ u, u ≠ y → type_of (tableau s) u = BASIC → u ∈ candidates s1 ↔ misplaced lo hi (cur s1 u) u) as Hold.
  { intros u Huy Hu. destruct (row_of (tableau s) u) as [pu|] eqn:Epu.
    2:{ assert (is_Some (row_of (tableau s) u)) as [? ?] by (apply (ok_row _ _ _ O); by left). congruence. }
    destruct (decide (y ∈ keys pu)) as [Hin|Hni].
    - apply (cd_cand _ _ _ _ _ _ CH). split; [done | eauto].
    - destruct (cd_rest _ _ _ _ _ _ CH u) as [Ev Ec]; [|done|].
      { intros (_ & q & Hq & Hin). by simplify_eq. }
      rewrite Ec, Ev, (rp_cand _ R). unfold out. tauto. }
  assert (∀ u, u ≠ y → type_of (tableau s) u ≠ BASIC → u ∉ candidates s1) as Hnb.
  { intros u Huy Hu Hin. apply (cd_rest _ _ _ _ _ _ CH u) in Hin; [|by intros [? _]|done].
    by apply (rp_cand _ R) in Hin as [? _]. }
  split; intros v.
  - destruct (decide (v = y)) as [->|Hvy]; [done|]. rewrite HCs, HT', Hout by done.
    destruct (decide (v = x)) as [->|Hvx].
    + unfold swapped, fupd. rewrite decide_False, decide_True by done. split; [by intros [_ []] | by intros [[=] _]].
    + rewrite swapped_other by done. destruct (decide (type_of (tableau s) v = BASIC)) as [Hb|Hb].
      * rewrite (Hold v Hvy Hb). tauto.
      * split; [|by intros [? _]]. intros [Hin _]. by apply Hnb in Hin.
  - intros Hv. rewrite Hout. destruct (decide (v = y)) as [->|Hvy].
    { destruct HTy; congruence. }
    rewrite HT' in Hv by done. destruct (decide (v = x)) as [->|Hvx].
    + unfold misplaced. intros Hn. apply Hn. by apply (target_within s x).
    + rewrite swapped_other in Hv by done.
      rewrite (cd_other _ _ _ _ _ _ CH v) by (congruence || done). by apply (rp_nonbasic _ R).
Qed.

Lemma core_frame s s1 : core s → same_frame s s1 → vals_ok (model s1) → active (tableau s1) (cur s1) → core s1.
Proof.
  intros [C1 C2 C3 C4 C5 C6] F V A. constructor; rewrite ?(sf_tableau _ _ F), ?(sf_activated _ _ F); try done.
  - by apply (senv_same s).
  - by rewrite <- (sf_tableau _ _ F).
Qed.

Lemma core_with_candidates s c : core s → core (with_candidates c s).
Proof. by intros [C1 C2 C3 C4 C5 C6]. Qed.

Lemma core_env s : core s → senv s n lo hi.
Proof. apply co_env. Qed.

(** After the pivot of the tableau, before [y] is looked at. *)
Record after_pivot s x y s1 s2 : Prop := {
  ap_core : core s2;
  ap_type u : type_of (tableau s2) u = swapped (type_of (tableau s)) x y u;
  ap_sat σ : solution (tableau s2) σ ↔ solution (tableau s) σ;
  ap_cur u : cur s2 u = cur s1 u;
  ap_cand u : u ∈ candidates s2 ↔ u ∈ candidates s1 ∧ u ≠ x;
  ap_store : boundStore s2 = boundStore s;
  ap_act : boundsActivated s2 = boundsActivated s;
  ap_buffer : bufferOfActivatedBounds s2 = bufferOfActivatedBounds s;
  ap_model : model s2 = model s1;
}.

Lemma after_pivot_ok s x y diff s1 t2 : repaired s → type_of (tableau s) x = BASIC →
  type_of (tableau s) y = NONBASIC →
  changed lo hi y diff s s1 → pivoted x y (tableau s1) t2 →
  after_pivot s x y s1 (eraseCandidate x (with_tableau t2 s1)).
Proof.
  intros R Hx Hy CH [P1 P2 P3 P4]. pose proof (rp_core _ R) as C. pose proof (cd_frame _ _ _ _ _ _ CH) as F.
  assert (core s1) as C1.
  { apply (core_frame s); [done|done|apply (cd_vals _ _ _ _ _ _ CH)|]. apply (cd_active _ _ _ _ _ _ CH), (co_active _ C). }
  assert (∀ u, swapped (type_of (tableau s1)) x y u = swapped (type_of (tableau s)) x y u) as ET.
  { intros u. by rewrite (sf_tableau _ _ F). }
  assert (∀ u, u ≠ x → u ≠ y → type_of t2 u = type_of (tableau s1) u) as Eo.
  { intros u ? ?. rewrite P3. by apply swapped_other. }
  assert (type_of (tableau s1) x = BASIC ∧ type_of (tableau s1) y = NONBASIC) as [Hx1 Hy1] by by rewrite (sf_tableau _ _ F).
  constructor; simpl; try done; try (destruct F; done).
  - apply core_with_candidates, core_with_tableau; [done|done| | | |].
    + rewrite P2. apply (co_n _ C1).
    + intros σ. apply P4.
    + intros v Hv. destruct (decide (v = x)) as [->|]; [congruence|]. destruct (decide (v = y)) as [->|]; [congruence|].
      rewrite Eo in Hv by done. destruct Hv; congruence.
    + intros v Hv Hvn. destruct (co_act _ C1 v Hvn) as (k & Hk & _ & Hq).
      assert (type_of (tableau s1) v = QUASIBASIC) as E; [|by rewrite Hk, (Hq E)].
      rewrite P3 in Hv. unfold swapped, fupd in Hv. destruct (decide (v = y)); [done|]. by destruct (decide (v = x)).
  - intros u. etransitivity; [apply P3 | apply ET].
  - intros σ. etransitivity; [apply P4|]. by rewrite (sf_tableau _ _ F).
  - intros u. apply elem_of_set_erase.
Qed.

Lemma Simplex_pivot_wp E s x y p term : repaired s → type_of (tableau s) x = BASIC → out s x →
  row_of (tableau s) x = Some p → term ∈ p → var term = y →
  wp E (pivot_step s x y) (Simplex_pivot x y s).
Proof.
  intros R Hx Hout Hp Ht Ey. pose proof (rp_core _ R) as C. pose proof (co_tab _ C) as I. pose proof I as [_ O _].
  assert (y ∈ keys p) as Hyk by (apply elem_of_keys; eauto).
  pose proof (ok_basic _ _ _ O x p y Hx Hp Hyk) as Hy.
  assert (x ≠ y) as Hxy by congruence.
  unfold Simplex_pivot. rewrite (proj2 (isBasic_iff _ x) Hx), (proj2 (isNonBasic_iff _ y) Hy). cbn [check rbind].
  apply wp_bind. eapply wp_mono; [by eapply (updateValues_wp E s x y p term)|]. intros s1 (diff & CH & Htar).
  pose proof (cd_frame _ _ _ _ _ _ CH) as F.
  apply wp_bind. eapply wp_mono; [apply (pivot_wp E x y (tableau s1) p); rewrite ?(sf_tableau _ _ F); done|].
  intros t2 PV. pose proof (after_pivot_ok s x y diff s1 t2 R Hx Hy CH PV) as AP.
  set (s2 := eraseCandidate x (with_tableau t2 s1)) in *.
  pose proof (ap_core _ _ _ _ _ AP) as C2.
  assert (type_of (tableau s2) y = BASIC) as Hy2.
  { rewrite (ap_type _ _ _ _ _ AP). unfold swapped, fupd. by rewrite decide_True. }
  assert (y < n) as Hyn by (apply (core_range s2); congruence).
  assert (type_of (tableau s2) x = NONBASIC) as Hx2.
  { rewrite (ap_type _ _ _ _ _ AP). unfold swapped, fupd. by rewrite decide_False, decide_True. }
  (* both ends of the function reach [pivot_step] the same way *)
  assert (∀ s', core s' → (∀ u, cur s' u = cur s2 u) →
            (∀ u, u ≠ y → type_of (tableau s') u = type_of (tableau s2) u) →
            (type_of (tableau s') y = BASIC ∨ type_of (tableau s') y = QUASIBASIC) →
            (∀ σ, solution (tableau s') σ ↔ solution (tableau s2) σ) →
            (∀ u, u ≠ y → u ∈ candidates s' ↔ u ∈ candidates s2) →
            (y ∈ candidates s' ↔ type_of (tableau s') y = BASIC ∧ out s' y) →
            boundStore s' = boundStore s2 → boundsActivated s' = boundsActivated s2 →
            bufferOfActivatedBounds s' = bufferOfActivatedBounds s2 → model s' = model s2 →
            pivot_step s x y s') as Hend.
  { intros s' C' Ecur HT' HTy Hsat Hcand Hcy E1 E2 E3 E4.
    destruct (pivot_candidates s s1 s' x y diff p R Hx Hy Hp Hyk CH Htar) as [K1 K2]; try done.
    - intros u Hu. rewrite Hcand by done. apply (ap_cand _ _ _ _ _ AP).
    - intros u Hu. rewrite HT' by done. apply (ap_type _ _ _ _ _ AP).
    - constructor; [by constructor| | | |done| | | | | | |].
      + intros σ. rewrite Hsat. apply (ap_sat _ _ _ _ _ AP).
      + by rewrite Ecur, (ap_cur _ _ _ _ _ AP).
      + by rewrite HT'.
      + intros u Hux Huy. rewrite HT', (ap_type _ _ _ _ _ AP) by done. by apply swapped_other.
      + intros u Hu Huy. rewrite Ecur, (ap_cur _ _ _ _ _ AP). apply (cd_other _ _ _ _ _ _ CH); congruence.
      + rewrite E1. apply AP.
      + rewrite E2. apply AP.
      + rewrite E3. apply AP.
      + rewrite E4, (ap_model _ _ _ _ _ AP). apply F.
      + rewrite E4, (ap_model _ _ _ _ _ AP). apply F. }
  destruct (co_act _ C2 y Hyn) as (k & Hk & H0 & _).
  unfold getNumOfBoundsActive. rewrite (proj2 (Nat.ltb_lt _ _) (lookup_lt_Some _ _ _ Hk)). cbn [check rbind].
  unfold at_. rewrite Hk. cbn [rbind]. destruct (Nat.eqb_spec k 0) as [->|Hk0].
  - destruct (H0 eq_refl) as [Hlo Hhi].
    apply wp_bind. eapply wp_mono; [apply (basicToQuasi_wp E y _ (co_tab _ C2) Hy2)|].
    intros t3 (I3 & ET3 & ER3 & EN3). cbn [wp].
    assert (¬ out s2 y) as Hno.
    { rewrite out_iff, Hlo, Hhi. unfold under, over. naive_solver. }
    apply Hend; simpl; try done.
    + apply core_with_tableau; [done|done| | | |].
      * rewrite EN3. apply (co_n _ C2).
      * intros σ. unfold solution. apply sat_ext. intros v. by rewrite ER3.
      * intros v. rewrite ET3. destruct (decide (v = y)); [naive_solver|]. intros [->| ->]; done.
      * intros v. rewrite ET3. destruct (decide (v = y)) as [->|]; [done|]. intros Hq Hv.
        destruct (co_act _ C2 v Hv) as (j & Hj & _ & Hq'). by rewrite Hj, (Hq' Hq).
    + intros u Hu. rewrite ET3. by rewrite decide_False.
    + rewrite ET3, decide_True by done. by right.
    + intros σ. unfold solution. apply sat_ext. intros v. by rewrite ER3.
    + rewrite ET3, decide_True by done. split; [|by intros [[=] _]].
      intros [Hc _]%(ap_cand _ _ _ _ _ AP). apply (cd_vcand _ _ _ _ _ _ CH) in Hc.
      apply (rp_cand _ R) in Hc as [Hb _]. congruence.
  - apply wp_bind. eapply wp_mono; [apply (isModelOutOfBounds_wp E s2 n lo hi (core_env _ C2) y Hyn)|].
    intros b Hb. fold (misplaced lo hi (cur s2 y) y) in Hb. fold (out s2 y) in Hb.
    assert (y ∉ candidates s2) as Hny.
    { intros [Hc _]%(ap_cand _ _ _ _ _ AP). apply (cd_vcand _ _ _ _ _ _ CH) in Hc.
      apply (rp_cand _ R) in Hc as [Hb' _]. congruence. }
    destruct b.
    + unfold newCandidate. rewrite (proj2 (isBasic_iff _ y) Hy2). cbn [check rbind wp].
      apply Hend; simpl; try done; [by apply core_with_candidates|by left| |].
      * intros u Hu. rewrite elem_of_set_insert. naive_solver.
      * rewrite elem_of_set_insert. split; [intros _|by left]. split; [done|]. by apply Hb.
    + apply Hend; try done; [by left|]. split; [done|]. intros [_ Ho%Hb]. done.
Qed.

End pivot.

(** * The simplex solver: the buffer of activated bounds

    Bounds are only recorded when they are asserted.  The next call of
    [checkSimplex] first moves every non-basic variable back within its
    strongest bounds and collects the basic variables that violate theirs:
    this establishes the invariant [repaired] of the pivoting loop. *)

Section buffer.
Context {N : Type} `{Number N}.
Implicit Types (t : Tableau N) (s : Simplex N) (u v r : LVRef) (p : poly_t N) (e : LVRef * LABoundRef).
Context (n : nat) (lo hi : LVRef → option lexq).
Hypothesis Hfeas : feasible_bounds lo hi.

(** What an entry of the buffer says: a bound of a tracked variable, at most
    as strong as the strongest. *)
Definition implied_bound (b : LABound N) v : Prop :=
  match type b with
  | bound_l => ∃ l, lo v = Some l ∧ (dval (delta b) <= l)%lex
  | bound_u => ∃ h, hi v = Some h ∧ (h <= dval (delta b))%lex
  end.

Record entry_ok s e : Prop := {
  en_bound : ∃ b, ba (boundStore s) !! e.2 = Some b ∧ lvref b = e.1 ∧ implied_bound b e.1;
  en_type : type_of (tableau s) e.1 = BASIC ∨ type_of (tableau s) e.1 = NONBASIC;
}.

(** The strongest bound of a variable, on one side, still is to be processed. *)
Definition awaited s (l : list (LVRef * LABoundRef)) (ty : BoundT) v : Prop :=
  ∃ br b x, (v, br) ∈ l ∧ ba (boundStore s) !! br = Some b ∧ type b = ty ∧ dval (delta b) = x
    ∧ match ty with bound_l => lo v = Some x | bound_u => hi v = Some x end.

Record pending s (l : list (LVRef * LABoundRef)) : Prop := {
  pe_core : core n lo hi s;
  pe_entry e : e ∈ l → entry_ok s e;
  pe_sound v : v ∈ candidates s → type_of (tableau s) v = BASIC ∧ out lo hi s v;
  pe_basic v : type_of (tableau s) v = BASIC → out lo hi s v → v ∈ candidates s ∨ ∃ br, (v, br) ∈ l;
  pe_under v : type_of (tableau s) v = NONBASIC → under (lo v) (cur s v) → awaited s l bound_l v;
  pe_over v : type_of (tableau s) v = NONBASIC → over (hi v) (cur s v) → awaited s l bound_u v;
}.

Lemma pending_nil s : pending s [] → repaired n lo hi s.
Proof.
  intros [C _ So Ba Un Ov].
  assert (∀ ty v, ¬ awaited s [] ty v) as Hno by (intros ty v (br & b & x & ?%not_elem_of_nil & _); done).
  constructor; [done| |].
  - intros v. split; [apply So|]. intros [Hb Ho]. destruct (Ba v Hb Ho) as [|[br ?%not_elem_of_nil]]; done.
  - intros v Hv [Hu|Ho]%out_iff; [by apply Un in Hu; [apply Hno in Hu|] | by apply Ov in Ho; [apply Hno in Ho|]].
Qed.

Lemma pending_buffer s l b : pending s l → pending (with_buffer b s) l.
Proof.
  intros [[] En ? ? ? ?]. constructor; try done. intros e He. destruct (En e He). by constructor.
Qed.

(** An entry that is not the awaited one can be dropped. *)
Lemma awaited_tail s e l ty v : awaited s (e :: l) ty v →
  (e.1 = v → ∀ b, ba (boundStore s) !! e.2 = Some b → type b = ty →
     match ty with bound_l => lo v | bound_u => hi v end ≠ Some (dval (delta b))) →
  awaited s l ty v.
Proof.
  intros (br & b & x & Hin & Hb & Ht & Hd & Hs) Hne. apply elem_of_cons in Hin as [<-|Hin].
  - exfalso. apply (Hne eq_refl b Hb Ht). simpl. destruct ty; by rewrite Hd.
  - exists br, b, x. done.
Qed.

Lemma isBoundSatisfied_iff (d : Delta N) b :
  isBoundSatisfied d b = true ↔
  match type b with bound_l => (dval (delta b) <= dval d)%lex | bound_u => (dval d <= dval (delta b))%lex end.
Proof. unfold isBoundSatisfied. destruct (type b); [apply Delta_ge_val | apply Delta_le_val]. Qed.

(** The value of a non-basic variable satisfies the bound looked at. *)
Definition satisfies (x : lexq) (b : LABound N) : Prop :=
  match type b with bound_l => (dval (delta b) <= x)%lex | bound_u => (x <= dval (delta b))%lex end.

(** After an entry of a non-basic variable: the variable satisfies its bound. *)
Lemma nonbasic_done s s1 e l b : pending s (e :: l) → type_of (tableau s) e.1 = NONBASIC →
  ba (boundStore s) !! e.2 = Some b → implied_bound b e.1 →
  core n lo hi s1 → boundStore s1 = boundStore s → tableau s1 = tableau s →
  (∀ u, type_of (tableau s) u = NONBASIC → u ≠ e.1 → cur s1 u = cur s u) →
  satisfies (cur s1 e.1) b →
  (under (lo e.1) (cur s1 e.1) → under (lo e.1) (cur s e.1)) →
  (over (hi e.1) (cur s1 e.1) → over (hi e.1) (cur s e.1)) →
  (∀ u, u ∈ candidates s1 → type_of (tableau s) u = BASIC ∧ out lo hi s1 u) →
  (∀ u, type_of (tableau s) u = BASIC → out lo hi s1 u → u ∈ candidates s1 ∨ ∃ br, (u, br) ∈ l) →
  pending s1 l.
Proof.
  intros [C En So Ba Un Ov] Hnb Hb Hi C1 Est Etab Eo Hsat Hu Ho So' Ba'.
  assert (∀ ty v, awaited s l ty v → awaited s1 l ty v) as Haw by (unfold awaited; by rewrite Est).
  constructor; rewrite ?Etab; try done.
  - intros e' He'. destruct (En e' ltac:(by right)) as [Hbe Hte]. constructor; [by rewrite Est | by rewrite Etab].
  - intros v Hv Huv. apply Haw. destruct (decide (v = e.1)) as [->|Hne].
    + apply (awaited_tail s e).
      * by apply Un, Hu.
      * intros _ b' Hb' Hty Heq. assert (b' = b) as -> by congruence. unfold satisfies in Hsat. rewrite Hty in Hsat.
        destruct Huv as (y & Hy & Hlt). assert (y = dval (delta b)) as -> by congruence.
        apply (llt_irrefl (cur s1 e.1)). by eapply llt_le_trans.
    + rewrite Eo in Huv by done. apply (awaited_tail s e); [by apply Un|]. intros <-. done.
  - intros v Hv Hov. apply Haw. destruct (decide (v = e.1)) as [->|Hne].
    + apply (awaited_tail s e).
      * by apply Ov, Ho.
      * intros _ b' Hb' Hty Heq. assert (b' = b) as -> by congruence. unfold satisfies in Hsat. rewrite Hty in Hsat.
        destruct Hov as (y & Hy & Hlt). assert (y = dval (delta b)) as -> by congruence.
        apply (llt_irrefl (cur s1 e.1)). by eapply lle_lt_trans.
    + rewrite Eo in Hov by done. apply (awaited_tail s e); [by apply Ov|]. intros <-. done.
Qed.

(** A value moved onto an implied bound only keeps violations it had. *)
Lemma moved_under v x b : implied_bound b v → ¬ satisfies x b → under (lo v) (dval (delta b)) → under (lo v) x.
Proof.
  unfold implied_bound, satisfies. intros Hi Hns (y & Hy & Hlt). exists y. split; [done|]. destruct (type b).
  - apply llt_not_le in Hns. by eapply llt_le_trans, llt_le.
  - destruct Hi as (h & Hh & Hle). pose proof (Hfeas v y h Hy Hh) as Hyh. exfalso.
    apply (llt_irrefl y). eapply lle_lt_trans; [exact Hyh|]. by eapply lle_lt_trans.
Qed.

Lemma moved_over v x b : implied_bound b v → ¬ satisfies x b → over (hi v) (dval (delta b)) → over (hi v) x.
Proof.
  unfold implied_bound, satisfies. intros Hi Hns (y & Hy & Hlt). exists y. split; [done|]. destruct (type b).
  - destruct Hi as (h & Hh & Hle). pose proof (Hfeas v h y Hh Hy) as Hyh. exfalso.
    apply (llt_irrefl y). eapply llt_le_trans; [exact Hlt|]. by eapply lle_trans.
  - apply llt_not_le in Hns. eapply llt_le_trans; [exact Hlt|]. by apply llt_le.
Qed.

Lemma process_nonbasic_wp E s e l b : pending s (e :: l) → type_of (tableau s) e.1 = NONBASIC →
  ba (boundStore s) !! e.2 = Some b → implied_bound b e.1 → e.1 < n →
  wp E (λ s1, pending s1 l ∧ same_frame s s1)
    (let! x := read (model s) e.1 in
     if negb (isBoundSatisfied x b) then changeValueBy e.1 (Delta_sub (delta b) x) s else Ok s).
Proof.
  intros P Hnb Hb Hi Hv. pose proof P as [C En So Ba Un Ov]. pose proof (co_tab _ _ _ _ C) as I.
  pose proof (co_env _ _ _ _ C) as EV.
  assert (∀ u, u ≠ e.1 → (∃ br, (u, br) ∈ e :: l) → ∃ br, (u, br) ∈ l) as Htail.
  { intros u Hu (br & [<-|Hin]%elem_of_cons); [done | eauto]. }
  eapply read_wp; [exact EV|done|]. intros d Hd _. fold (cur s e.1) in Hd.
  destruct (isBoundSatisfied d b) eqn:Hs; cbn [negb].
  - apply isBoundSatisfied_iff in Hs. rewrite Hd in Hs. cbn [wp]. split; [|done].
    apply (nonbasic_done s s e l b); try done.
    intros u Hu Ho. destruct (Ba u Hu Ho) as [|Hin]; [by left|]. right. apply Htail; [|done]. intros ->. congruence.
  - assert (¬ satisfies (cur s e.1) b) as Hns.
    { intros Hs'. unfold satisfies in Hs'. rewrite <- Hd in Hs'. apply isBoundSatisfied_iff in Hs'. congruence. }
    eapply wp_mono; [apply (changeValueBy_wp E n lo hi e.1 _ s I EV (co_vals _ _ _ _ C)); [by rewrite (co_n _ _ _ _ C)|done]|].
    intros s1 CH. pose proof (cd_frame _ _ _ _ _ _ CH) as F. split; [|done].
    assert (cur s1 e.1 = dval (delta b)) as Ev.
    { rewrite (cd_v _ _ _ _ _ _ CH), Delta_sub_val, Hd. apply lexq_eq; split; simpl; ring. }
    assert (∀ u, type_of (tableau s) u = BASIC → u ≠ e.1) as Hbne by (intros u Hu ->; congruence).
    assert (∀ r, type_of (tableau s) r = BASIC →
              (r ∈ candidates s1 ↔ out lo hi s1 r) ∨ (cur s1 r = cur s r ∧ (r ∈ candidates s1 ↔ r ∈ candidates s))) as Hrow.
    { intros r Hr. destruct (row_of (tableau s) r) as [pr|] eqn:Epr.
      2:{ assert (is_Some (row_of (tableau s) r)) as [? ?]; [|congruence].
          apply (ok_row _ _ _ (ti_ok _ I)). by left. }
      destruct (decide (e.1 ∈ keys pr)) as [Hin|Hni].
      - left. apply (cd_cand _ _ _ _ _ _ CH). split; [done | eauto].
      - right. apply (cd_rest _ _ _ _ _ _ CH); [|by apply Hbne].
        intros (_ & q & Hq & Hin). by simplify_eq. }
    apply (nonbasic_done s s1 e l b); try done.
    + apply (core_frame n lo hi s); [done|done|apply (cd_vals _ _ _ _ _ _ CH)|].
      apply (cd_active _ _ _ _ _ _ CH), (co_active _ _ _ _ C).
    + apply F.
    + apply F.
    + intros u Hu Hue. apply (cd_other _ _ _ _ _ _ CH); congruence.
    + unfold satisfies. rewrite Ev. destruct (type b); apply lle_refl.
    + rewrite Ev. by apply moved_under.
    + rewrite Ev. by apply moved_over.
    + intros u Hu. destruct (decide (type_of (tableau s) u = BASIC)) as [Hub|Hub].
      * split; [done|]. destruct (Hrow u Hub) as [Hc|[Ec Hc]]; [by apply Hc|].
        unfold out. rewrite Ec. apply So. by apply Hc.
      * exfalso. destruct (decide (u = e.1)) as [->|Hue].
        -- apply (cd_vcand _ _ _ _ _ _ CH) in Hu. apply So in Hu as [? _]. congruence.
        -- apply (cd_rest _ _ _ _ _ _ CH u) in Hu; [|by intros [? _]|done]. by apply So in Hu as [? _].
    + intros u Hu Ho. destruct (Hrow u Hu) as [Hc|[Ec Hc]]; [left; by apply Hc|].
      unfold out in Ho. rewrite Ec in Ho. destruct (Ba u Hu Ho) as [|Hin]; [left; by apply Hc|]. right.
      apply Htail; [by apply Hbne | done].
Qed.

Lemma process_bound_wp E s e l : pending s (e :: l) →
  wp E (λ s1, pending s1 l ∧ same_frame s s1) (process_bound s e).
Proof.
  intros P. pose proof P as [C En So Ba Un Ov]. destruct (En e ltac:(left)) as [(b & Hb & Hlv & Hi) HT].
  assert (e.1 < n) as Hv by (apply (core_range n lo hi s); [done|destruct HT; congruence]).
  unfold process_bound. destruct e as [v br]. simpl in *.
  rewrite (not_true_eq _ _ (isQuasiBasic_iff (tableau s) v)) by (destruct HT; congruence). cbn [negb check rbind].
  destruct HT as [HT|HT].
  - rewrite (not_true_eq _ _ (isNonBasic_iff (tableau s) v)) by congruence.
    rewrite (proj2 (isBasic_iff _ v) HT). cbn [check rbind].
    apply wp_bind. eapply wp_mono; [apply (isModelOutOfBounds_wp E s n lo hi (co_env _ _ _ _ C) v Hv)|].
    intros o Ho. fold (misplaced lo hi (cur s v) v) in Ho. fold (out lo hi s v) in Ho.
    assert (∀ s1, core n lo hi s1 → same_frame s s1 → model s1 = model s →
              (∀ u, u ∈ candidates s1 ↔ u ∈ candidates s ∨ u = v ∧ out lo hi s v) →
              pending s1 l ∧ same_frame s s1) as Hend.
    { intros s1 C1 F Em Ec. split; [|done].
      assert (∀ ty u, type_of (tableau s) u = NONBASIC → awaited s ((v, br) :: l) ty u → awaited s1 l ty u) as Haw.
      { intros ty u Hu Ha. assert (awaited s l ty u) as Ha'.
        { apply (awaited_tail s (v, br)); [done|]. simpl. intros <-. congruence. }
        unfold awaited in *. by rewrite (sf_store _ _ F). }
      assert (∀ u, cur s1 u = cur s u) as Ecur by (intros u; unfold cur; by rewrite Em).
      constructor; rewrite ?(sf_tableau _ _ F); try done.
      - intros e' He'. destruct (En e' ltac:(by right)) as [Hbe Hte].
        constructor; [by rewrite (sf_store _ _ F) | by rewrite (sf_tableau _ _ F)].
      - intros u [Hu|[-> Hu]]%Ec; unfold out; rewrite Ecur; [by apply So | done].
      - intros u Hu. unfold out. rewrite Ecur, Ec. intros Hou.
        destruct (decide (u = v)) as [->|Hne]; [left; by right|].
        destruct (Ba u Hu Hou) as [|(br' & [[= <- <-]|Hin]%elem_of_cons)]; [left; by left | done | right; eauto].
      - intros u Hu. rewrite Ecur. intros Huu. by apply Haw, Un.
      - intros u Hu. rewrite Ecur. intros Huu. by apply Haw, Ov. }
    destruct o.
    + unfold newCandidate. rewrite (proj2 (isBasic_iff _ v) HT). cbn [check rbind wp].
      apply Hend; [by apply core_with_candidates|done|done|]. intros u. simpl. rewrite elem_of_set_insert.
      assert (out lo hi s v) by by apply Ho. tauto.
    + assert (¬ out lo hi s v) as Hno by (intros Hx%Ho; done).
      rewrite bool_decide_false by (intros [_ ?]%So; done). cbn [negb check rbind wp].
      apply Hend; [done|done|done|]. intros u. tauto.
  - rewrite (proj2 (isNonBasic_iff _ v) HT). unfold get_bound, at_. rewrite Hb. cbn [rbind].
    by apply (process_nonbasic_wp E s (v, br) l b).
Qed.

Lemma process_buffer_wp E l s : pending s l → (l = [] → bufferOfActivatedBounds s = []) →
  wp E (λ s1, repaired n lo hi s1 ∧ same_frame (with_buffer [] s) s1) (process_buffer l s).
Proof.
  revert s. induction l as [|e l IH]; intros s P Hb; simpl.
  - split; [by apply pending_nil|]. by constructor; simpl; try rewrite Hb.
  - apply wp_bind. eapply wp_mono; [apply process_bound_wp; by apply pending_buffer|]. intros s1 [P1 F1].
    eapply wp_mono; [apply IH; [done|]|].
    + intros ->. by rewrite (sf_buffer _ _ F1).
    + intros s2 [R2 F2]. split; [done|]. destruct F1 as [? ? ? ? M ?], F2 as [? ? ? ? M' ?]. simpl in *.
      constructor; simpl; try congruence. by apply (same_model_trans _ _ _ M M').
Qed.

End buffer.
