(* ===== verification/SimplexSelect.v ===== *)
(** * The simplex solver: choosing a pivot

    The variable that leaves the basis is a candidate, the one that enters it
    occurs in the row of the first and can move it back to its bound.  With
    Bland's rule both are the least such variables; when there is none to
    enter, no variable of the row can move.
    Then: the conflict that is reported when no variable is suitable, and that
    Bland's rule visits no basis twice. *)
From S2P Require Import Prelude Gmp FastRationalInt Number Lex Delta NatSet Polynomial Tableau TableauFacts LABounds LRAModel Simplex.
From S2P Require Import SimplexFacts.
From Stdlib Require Import Lia.

#[local] Open Scope nat_scope.

Lemma all_of_true {A} (f : A → res bool) l : (∀ x, x ∈ l → f x = Ok true) → all_of f l = Ok true.
Proof.
  induction l as [|x l IH]; intros Hl; simpl; [done|]. rewrite (Hl x) by (by left). simpl.
  apply IH. intros y Hy. apply Hl. by right.
Qed.

Section select.
Context {N : Type} `{Number N}.
Implicit Types (t : Tableau N) (s : Simplex N) (u v r y : LVRef) (p : poly_t N).
Context (n : nat) (lo hi : LVRef → option lexq).

Section basic.
Context (E : error → Prop) s (R : repaired n lo hi s).

Lemma candidate_range v : v ∈ candidates s → v < n.
Proof.
  intros [Hb _]%(rp_cand _ _ _ _ R). apply (core_range n lo hi s); [apply (rp_core _ _ _ _ R) | congruence].
Qed.

Lemma candidates_ok_true : candidates_ok s = Ok true.
Proof.
  apply all_of_true. intros v Hv. pose proof Hv as [Hb Ho]%(rp_cand _ _ _ _ R).
  rewrite (proj2 (isBasic_iff _ v) Hb).
  pose proof (isModelOutOfBounds_wp no_error s n lo hi (co_env _ _ _ _ (rp_core _ _ _ _ R)) v (candidate_range v Hv)) as W.
  apply wp_total in W as (b & -> & Hi). by rewrite (proj2 Hi Ho).
Qed.

Lemma getBasicVarToFixByShortestPoly_wp :
  wp E (λ o, match o with Some x => x ∈ candidates s | None => candidates s = [] end)
    (getBasicVarToFixByShortestPoly s).
Proof.
  unfold getBasicVarToFixByShortestPoly. rewrite candidates_ok_true. cbn [rbind check]. apply wp_bind.
  eapply wp_mono; [apply (foldM_wp E _ (λ pre _ o, match o with Some (x, _) => x ∈ pre | None => pre = [] end))|].
  - done.
  - intros pre v post o Ec Ho.
    assert (v ∈ candidates s) as Hv by (rewrite Ec; set_solver).
    apply (rp_cand _ _ _ _ R) in Hv as [Hb _].
    pose proof (co_tab _ _ _ _ (rp_core _ _ _ _ R)) as [_ O _].
    assert (is_Some (row_of (tableau s) v)) as [p Hp] by (apply (ok_row _ _ _ O); by left).
    unfold getPolySize. rewrite (getRowPoly_ok _ _ _ Hp). cbn [rbind].
    destruct o as [[x m]|]; [|cbn [wp]; set_solver].
    destruct (_ <? m); cbn [wp]; set_solver.
  - intros [[x m]|]; simpl; done.
Qed.

Lemma getBasicVarToFixByBland_wp :
  wp E (λ o, match o with Some x => x ∈ candidates s ∧ ∀ z, z ∈ candidates s → x ≤ z | None => candidates s = [] end)
    (getBasicVarToFixByBland s).
Proof.
  unfold getBasicVarToFixByBland. rewrite candidates_ok_true. cbn [rbind check].
  apply (foldM_wp E _ (λ pre _ o, match o with Some x => x ∈ pre ∧ ∀ z, z ∈ pre → x ≤ z | None => pre = [] end)).
  - done.
  - intros pre v post [x|] Ec Ho.
    + destruct Ho as [Hx Hmin]. destruct (Nat.ltb_spec v x); cbn [wp].
      * split; [set_solver|]. intros z [Hz| ->%list_elem_of_singleton]%elem_of_app; [|lia]. specialize (Hmin z Hz). lia.
      * split; [set_solver|]. intros z [Hz| ->%list_elem_of_singleton]%elem_of_app; [by apply Hmin | lia].
    + cbn [wp]. subst pre. split; [set_solver|]. intros z [?%not_elem_of_nil| ->%list_elem_of_singleton]%elem_of_app; done.
Qed.

End basic.

(** ** The entering variable *)

(** May the variable of [term] move so that a row with it grows ([low]) or
    shrinks? *)
Definition rises (low : bool) (term : Term N) : Prop :=
  if low then (0 < nval (coeff term))%Qc else (nval (coeff term) <= 0)%Qc.
Definition room_above s v : Prop := ∀ h : lexq, hi v = Some h → (cur s v < h)%lex.
Definition room_below s v : Prop := ∀ l : lexq, lo v = Some l → (l < cur s v)%lex.
Definition can_move s (low : bool) (term : Term N) : Prop :=
  (rises low term ∧ room_above s (var term)) ∨ (¬ rises low term ∧ room_below s (var term)).

Lemma suitable_wp E s low term : senv s n lo hi → var term < n →
  wp E (λ b, b = true ↔ can_move s low term) (suitable s low term).
Proof.
  intros EV Hv. unfold suitable, can_move, rises.
  pose proof (n_isPositive_val (coeff term)) as Hp.
  assert ((nval (coeff term) <= 0)%Qc ↔ ¬ (0 < nval (coeff term))%Qc) as Hneg.
  { split; [apply Qcle_not_lt | apply Qcnot_lt_le]. }
  destruct low; destruct (n_isPositive (coeff term)); cbn [negb];
    (eapply wp_mono; [first [apply (isModelStrictlyUnderUpperBound_wp E s n lo hi EV _ Hv)
                            |apply (isModelStrictlyOverLowerBound_wp E s n lo hi EV _ Hv)]|]);
    intros b ->; unfold room_above, room_below; rewrite ?Hneg; intuition congruence.
Qed.

Section entering.
Context (E : error → Prop) s x p (C : core n lo hi s) (Hx : type_of (tableau s) x = BASIC)
  (Hp : row_of (tableau s) x = Some p) (Hout : out lo hi s x).

Lemma row_term term : term ∈ p → type_of (tableau s) (var term) = NONBASIC ∧ var term < n ∧ var term ≠ x.
Proof.
  intros Ht. assert (type_of (tableau s) (var term) = NONBASIC) as HT.
  { apply (ok_basic _ _ _ (ti_ok _ (co_tab _ _ _ _ C)) x p); [done..|]. apply elem_of_keys; eauto. }
  split; [done|]. split; [apply (core_range n lo hi s); [done|congruence]|]. intros Eq. congruence.
Qed.

(** What a scan of the row for the entering variable returns. *)
Definition found (bland low : bool) (q : poly_t N) (o : option LVRef) : Prop :=
  match o with
  | Some y => (∃ term, term ∈ q ∧ var term = y ∧ can_move s low term)
              ∧ (bland = true → ∀ term, term ∈ q → can_move s low term → y ≤ var term)
  | None => ∀ term, term ∈ q → ¬ can_move s low term
  end.

Lemma found_skip bland low pre term o : found bland low pre o → ¬ can_move s low term → found bland low (pre ++ [term]) o.
Proof.
  intros Hf Hn. destruct o as [y|]; simpl in *.
  - destruct Hf as [(tm & Ht & Ev & Hc) Hm]. split; [exists tm; set_solver|].
    intros Eb tm' [Ht'| ->%list_elem_of_singleton]%elem_of_app Hc'; [by apply Hm | done].
  - intros tm' [Ht'| ->%list_elem_of_singleton]%elem_of_app; [by apply Hf | done].
Qed.

Lemma found_keep bland low pre term y : found bland low pre (Some y) → (bland = true → y ≤ var term) →
  found bland low (pre ++ [term]) (Some y).
Proof.
  intros [(tm & Ht & Ev & Hc) Hm] Hy. split; [exists tm; set_solver|].
  intros Eb tm' [Ht'| ->%list_elem_of_singleton]%elem_of_app Hc'; auto.
Qed.

Lemma found_new bland low pre term o : found bland low pre o → can_move s low term →
  (bland = true → ∀ y, o = Some y → var term ≤ y) → found bland low (pre ++ [term]) (Some (var term)).
Proof.
  intros Hf Hc Hle. split; [exists term; set_solver|].
  intros Eb tm' [Ht'| ->%list_elem_of_singleton]%elem_of_app Hc'; [|done].
  destruct o as [y|]; simpl in Hf.
  - destruct Hf as [_ Hm]. specialize (Hm Eb tm' Ht' Hc'). specialize (Hle Eb y eq_refl). lia.
  - by apply Hf in Hc'.
Qed.

(** The row is too low, or too high: the direction of the scan. *)
Lemma scan_wp (scan : bool → res (option LVRef)) bland :
  (∀ low, (low = true ↔ under (lo x) (cur s x)) → wp E (found bland low p) (scan low)) →
  wp E (λ o, ∃ low, (low = true ↔ under (lo x) (cur s x)) ∧ found bland low p o)
    (let! low := isModelOutOfLowerBound s x in
     if low then scan true
     else let! up := isModelOutOfUpperBound s x in if up then scan false else Err Assertion_failed).
Proof.
  intros Hs. assert (x < n) as Hxn by (apply (core_range n lo hi s); [done|congruence]).
  pose proof (co_env _ _ _ _ C) as EV.
  apply wp_bind. eapply wp_mono; [apply (isModelOutOfLowerBound_wp E s n lo hi EV x Hxn)|].
  intros [|] Hl.
  - eapply wp_mono; [by apply Hs|]. intros o Ho. exists true. done.
  - assert (¬ under (lo x) (cur s x)) as Hnu by (intros ?%Hl; done).
    apply wp_bind. eapply wp_mono; [apply (isModelOutOfUpperBound_wp E s n lo hi EV x Hxn)|]. intros up Hu.
    assert (over (hi x) (cur s x)) as Hov by (apply out_iff in Hout as [|]; done).
    rewrite (proj2 Hu Hov). eapply wp_mono; [by apply Hs|]. intros o Ho. exists false. done.
Qed.

Lemma findNonBasicForPivotByHeuristic_wp :
  wp E (λ o, ∃ low, (low = true ↔ under (lo x) (cur s x)) ∧ found false low p o)
    (findNonBasicForPivotByHeuristic x s).
Proof.
  pose proof (co_tab _ _ _ _ C) as [V O _].
  unfold findNonBasicForPivotByHeuristic. rewrite (proj2 (isBasic_iff _ x) Hx). cbn [check rbind].
  apply (scan_wp (λ low, _)). intros low _. rewrite (getRowPoly_ok _ _ _ Hp). cbn [rbind].
  apply (foldM_wp E _ (λ pre _ o, found false low pre o)); [by intros ? ?%not_elem_of_nil|].
  intros pre term post o Ep Hf.
  assert (term ∈ p) as Ht by (rewrite Ep; set_solver). destruct (row_term term Ht) as (HT & Hv & Hne).
  rewrite (proj2 (isNonBasic_iff _ _) HT), (proj2 (Nat.eqb_neq _ _) Hne). cbn [negb check rbind].
  apply wp_bind. eapply wp_mono; [apply (suitable_wp E s low term (co_env _ _ _ _ C) Hv)|].
  intros [|] Hb; [|by apply found_skip; [|intros Hc; apply Hb in Hc]].
  assert (can_move s low term) as Hc by by apply Hb.
  destruct o as [y|]; [|by apply (found_new _ _ _ _ None)].
  assert (type_of (tableau s) y = NONBASIC) as Hy.
  { destruct Hf as [(tm & Htm & <- & _) _]. apply row_term. rewrite Ep. set_solver. }
  eapply getColumn_wp; [exact V|exact Hy|]. intros cy _ _. eapply getColumn_wp; [exact V|exact HT|]. intros cv _ _.
  destruct (_ <? _); cbn [wp]; [by eapply found_new | by apply found_keep].
Qed.

Lemma findNonBasicForPivotByBland_wp :
  wp E (λ o, ∃ low, (low = true ↔ under (lo x) (cur s x)) ∧ found true low p o)
    (findNonBasicForPivotByBland x s).
Proof.
  unfold findNonBasicForPivotByBland.
  apply (scan_wp (λ low, _)). intros low _. rewrite (getRowPoly_ok _ _ _ Hp). cbn [rbind].
  apply (foldM_wp E _ (λ pre _ o, found true low pre o)); [by intros ? ?%not_elem_of_nil|].
  intros pre term post o Ep Hf.
  assert (term ∈ p) as Ht by (rewrite Ep; set_solver). destruct (row_term term Ht) as (HT & Hv & Hne).
  rewrite (proj2 (isNonBasic_iff _ _) HT), Nat.eqb_sym, (proj2 (Nat.eqb_neq _ _) Hne). cbn [negb check rbind].
  apply wp_bind. eapply wp_mono; [apply (suitable_wp E s low term (co_env _ _ _ _ C) Hv)|].
  intros [|] Hb; [|by apply found_skip; [|intros Hc; apply Hb in Hc]].
  assert (can_move s low term) as Hc by by apply Hb.
  destruct o as [y|]; [|by apply (found_new _ _ _ _ None)].
  destruct (Nat.ltb_spec (var term) y); cbn [wp].
  - eapply found_new; [done|done|]. intros _ z [= <-]. lia.
  - by apply found_keep.
Qed.

End entering.
End select.

(** * The simplex solver: explanations

    An explanation is a positive combination of asserted bounds that no
    solution of the rows satisfies: written as inequalities of the form
    [± v ≤ c], the left sides add up to zero and the right sides to a negative
    number (Farkas' lemma).  [getConflictingBounds] reads such a combination
    off a row none of whose variables can move. *)

Lemma lscale_le q a b : (0 < q)%Qc → (a <= b)%lex → (lscale q a <= lscale q b)%lex.
Proof.
  intros Hq [Hlt|[Heq Hle]].
  - left. simpl. rewrite (Qcmult_comm q (lr a)), (Qcmult_comm q (lr b)). by apply Qcmult_lt_compat_r.
  - right. simpl. split; [by rewrite Heq|]. rewrite (Qcmult_comm q (ld a)), (Qcmult_comm q (ld b)).
    apply Qcmult_le_compat_r; [done|]. by apply Qclt_le_weak.
Qed.

Lemma Qc_sign (q : Qc) : q ≠ 0%Qc → ¬ (q < 0)%Qc → (0 < q)%Qc.
Proof. intros H0 Hn. destruct (Qc_trichotomy q 0%Qc) as [|[|]]; done. Qed.

Section conflict.
Context {N : Type} `{Number N}.
Implicit Types (s : Simplex N) (u v r y : LVRef) (p : poly_t N) (b : LABound N)
  (e : Explanation N).
Context (n : nat) (lo hi : LVRef → option lexq).

(** ** What explanations mean *)

(** A bound read as [± v ≤ c]. *)
Definition signed b (z : lexq) : lexq := match type b with bound_l => (- z)%lex | bound_u => z end.
Definition bound_holds (σ : LVRef → lexq) b : Prop :=
  match type b with bound_l => (dval (delta b) <= σ (lvref b))%lex | bound_u => (σ (lvref b) <= dval (delta b))%lex end.

(** The combination, with [f] for the two sides of the inequalities. *)
Definition weigh (st : LABoundStore N) (f : LABound N → lexq) e : lexq :=
  foldr (λ t acc, match ba st !! boundref t with
                  | Some b => (lscale (nval (ecoeff t)) (signed b (f b)) + acc)%lex
                  | None => acc
                  end) lzero e.
Definition left_side (σ : LVRef → lexq) b : lexq := σ (lvref b).
Definition right_side b : lexq := dval (delta b).

(** All the bounds of the explanation hold. *)
Definition all_hold (st : LABoundStore N) e (σ : LVRef → lexq) : Prop :=
  ∀ t b, t ∈ e → ba st !! boundref t = Some b → bound_holds σ b.

Record farkas (st : LABoundStore N) (tb : Tableau N) e : Prop := {
  fk_pos t : t ∈ e → (0 < nval (ecoeff t))%Qc ∧ is_Some (ba st !! boundref t);
  fk_left σ : solution tb σ → weigh st (left_side σ) e = lzero;
  fk_right : (weigh st right_side e < lzero)%lex;
}.

Lemma signed_le b σ : bound_holds σ b → (signed b (left_side σ b) <= signed b (right_side b))%lex.
Proof. unfold bound_holds, signed, left_side, right_side. destruct (type b); intros; lex. Qed.

Lemma weigh_le st e σ : (∀ t, t ∈ e → (0 < nval (ecoeff t))%Qc) → all_hold st e σ →
  (weigh st (left_side σ) e <= weigh st right_side e)%lex.
Proof.
  induction e as [|t e IH]; intros Hpos Hall; simpl; [apply lle_refl|].
  assert (weigh st (left_side σ) e <= weigh st right_side e)%lex as Hle.
  { apply IH; [intros t' Ht'; apply Hpos; by right|]. intros t' b Ht'. apply Hall. by right. }
  destruct (ba st !! boundref t) as [b|] eqn:Eb; [|done].
  apply ladd_le; [|done]. apply lscale_le; [apply Hpos; by left|]. apply signed_le. apply (Hall t b); [by left|done].
Qed.

(** No solution of the rows satisfies the bounds of the explanation. *)
Lemma farkas_refutes st tb e σ : farkas st tb e → solution tb σ → ¬ all_hold st e σ.
Proof.
  intros [F1 F2 F3] Hs Hall. apply (llt_irrefl lzero). rewrite <- (F2 σ Hs) at 1.
  eapply lle_lt_trans; [|exact F3]. apply weigh_le; [|done]. intros t Ht. by apply F1.
Qed.

Lemma weigh_app st f e1 e2 : weigh st f (e1 ++ e2) = (weigh st f e1 + weigh st f e2)%lex.
Proof.
  induction e1 as [|t e1 IH]; simpl; [by rewrite ladd_0_l|]. rewrite IH.
  destruct (ba st !! boundref t); [apply ladd_assoc | done].
Qed.

(** The reference is the strongest bound of its variable on its side. *)
Definition asserted (m : LRAModel N) br : Prop :=
  ∃ v l, v < n ∧ (int_lbounds m !! v = Some l ∨ int_ubounds m !! v = Some l) ∧ list.last l = Some br.

(** ** A blocked row *)

(** The sum seen from the bound that is violated. *)
Definition flip (low : bool) (z : lexq) : lexq := if low then z else (- z)%lex.

Lemma can_move_bound s low term : nval (coeff term) ≠ 0%Qc → ¬ can_move lo hi s low term →
  (rises low term → ∃ h, hi (var term) = Some h ∧ (h <= cur s (var term))%lex) ∧
  (¬ rises low term → ∃ l, lo (var term) = Some l ∧ (cur s (var term) <= l)%lex).
Proof.
  intros H0 Hn. unfold can_move, room_above, room_below in Hn. split; intros Hr.
  - destruct (hi (var term)) as [h|]; [|exfalso; apply Hn; left; split; [done|]; by intros ? [=]].
    exists h. split; [done|]. apply lle_not_lt. intros Hlt. apply Hn. left. split; [done|]. by intros ? [= <-].
  - destruct (lo (var term)) as [l|]; [|exfalso; apply Hn; right; split; [done|]; by intros ? [=]].
    exists l. split; [done|]. apply lle_not_lt. intros Hlt. apply Hn. right. split; [done|]. by intros ? [= <-].
Qed.

(** The explanation while the row is scanned: [pre] is done. *)
Record explained (m : LRAModel N) (st : LABoundStore N) (β : LVRef → lexq) x (z : lexq) low pre e : Prop := {
  ex_pos t : t ∈ e → (0 < nval (ecoeff t))%Qc ∧ is_Some (ba st !! boundref t) ∧ asserted m (boundref t);
  ex_left σ : weigh st (left_side σ) e = flip low (peval σ pre - σ x)%lex;
  ex_right : (weigh st right_side e <= flip low (peval β pre - z))%lex;
}.

Lemma explained_add m st β x z low pre e term br b c : explained m st β x z low pre e →
  ba st !! br = Some b → asserted m br → lvref b = var term → (0 < nval c)%Qc →
  (∀ w, lscale (nval c) (signed b w) = flip low (lscale (nval (coeff term)) w)) →
  (signed b (right_side b) <= signed b (β (var term)))%lex →
  explained m st β x z low (pre ++ [term]) (e ++ [MkExplTerm br c]).
Proof.
  intros [X1 X2 X3] Hb Ha Hv Hc Hs Hle. constructor.
  - intros t [Ht| ->%list_elem_of_singleton]%elem_of_app; [by apply X1|]. simpl. eauto.
  - intros σ. rewrite weigh_app, X2, peval_app. simpl. rewrite Hb, Hs. unfold left_side. rewrite Hv.
    destruct low; simpl; lex_ring.
  - rewrite weigh_app, peval_app. simpl. rewrite Hb.
    assert (lscale (nval c) (signed b (right_side b)) <= flip low (lscale (nval (coeff term)) (β (var term))))%lex as Hle'
      by (rewrite <- Hs; by apply lscale_le).
    revert X3 Hle'. generalize (weigh st right_side e) (lscale (nval c) (signed b (right_side b))).
    generalize (lscale (nval (coeff term)) (β (var term))) (peval β pre). destruct low; simpl; intros; lex.
Qed.

Lemma last_asserted_l m v l br : v < n → int_lbounds m !! v = Some l → list.last l = Some br → asserted m br.
Proof. intros. exists v, l. eauto. Qed.
Lemma last_asserted_u m v l br : v < n → int_ubounds m !! v = Some l → list.last l = Some br → asserted m br.
Proof. intros. exists v, l. eauto. Qed.

Section row.
Context (E : error → Prop) s0 s (x : LVRef) p (z : lexq) (low : bool).
Hypothesis EV : senv s n lo hi.
Hypothesis Htab : tableau s = tableau s0.
Hypothesis C : core n lo hi s0.
Hypothesis Hx : type_of (tableau s0) x = BASIC.
Hypothesis Hp : row_of (tableau s0) x = Some p.
Hypothesis Hz : if low then lo x = Some z else hi x = Some z.
Hypothesis Hblocked : ∀ term, term ∈ p → ¬ can_move lo hi s0 low term.

Let expl := explained (model s) (boundStore s) (cur s0) x z low.

Lemma getConflictingBounds_start (k : LABoundRef → res (Explanation N)) Q :
  (∀ br, expl [] [MkExplTerm br (n_of_Z 1)] → wp E Q (k br)) →
  wp E Q (rbind (if low then readLBoundRef (model s) x else readUBoundRef (model s) x) k).
Proof.
  intros Hk. assert (x < n) as Hxn by (apply (core_range n lo hi s0); [done|congruence]).
  assert (∀ br b, ba (boundStore s) !! br = Some b → asserted (model s) br → lvref b = x → dval (delta b) = z →
            type b = (if low then bound_l else bound_u) → expl [] [MkExplTerm br (n_of_Z 1)]) as Hdone.
  { intros br b Hb Ha Hv Hd Ht. constructor.
    - intros t ->%list_elem_of_singleton. simpl. rewrite n_one_val. split; [done | eauto].
    - intros σ. simpl. rewrite Hb, n_one_val. unfold signed, left_side. rewrite Ht, Hv. destruct low; simpl; lex_ring.
    - simpl. rewrite Hb, n_one_val. unfold signed, right_side. rewrite Ht, Hd.
      assert (∀ a c, a = c → (a <= c)%lex) as Heq by (intros ? ? ->; apply lle_refl).
      apply Heq. destruct low; simpl; lex_ring. }
  destruct low.
  - eapply readLBoundRef_wp; [exact EV|done|exact Hz|]. intros br b l Hl Hbr Hb Hty Hlv Hd.
    apply Hk. eapply Hdone; try done. by eapply last_asserted_l.
  - eapply readUBoundRef_wp; [exact EV|done|exact Hz|]. intros br b l Hl Hbr Hb Hty Hlv Hd.
    apply Hk. eapply Hdone; try done. by eapply last_asserted_u.
Qed.

Lemma conflict_term_wp pre term post e : p = pre ++ term :: post → expl pre e →
  wp E (expl (pre ++ [term]))
    (let! _ := check (negb (n_isZero (coeff term)) && negb (var term =? x)) in
     if n_isNegative (coeff term) then
       let! br := if low then readLBoundRef (model s) (var term) else readUBoundRef (model s) (var term) in
       Ok (e ++ [MkExplTerm br (n_neg (coeff term))])
     else
       let! br := if low then readUBoundRef (model s) (var term) else readLBoundRef (model s) (var term) in
       Ok (e ++ [MkExplTerm br (coeff term)])).
Proof.
  intros Ep He. assert (term ∈ p) as Ht by (rewrite Ep; set_solver).
  destruct (row_term n lo hi s0 x p C Hx Hp term Ht) as (HT & Hv & Hne).
  pose proof (ok_poly _ _ _ (ti_ok _ (co_tab _ _ _ _ C)) x p Hp) as [_ Wn].
  assert (nval (coeff term) ≠ 0%Qc) as H0 by exact (proj1 (Forall_forall _ _) Wn term Ht).
  rewrite (not_true_eq _ _ (n_isZero_val (coeff term)) H0), (proj2 (Nat.eqb_neq _ _) Hne). cbn [negb andb check rbind].
  destruct (can_move_bound s0 low term H0 (Hblocked term Ht)) as [Hup Hdown].
  assert (∀ y h c, hi (var term) = Some h → (h <= cur s0 (var term))%lex → y = var term → (0 < nval c)%Qc →
            (∀ w, lscale (nval c) w = flip low (lscale (nval (coeff term)) w)) →
            wp E (expl (pre ++ [term])) (let! br := readUBoundRef (model s) y in Ok (e ++ [MkExplTerm br c]))) as HU.
  { intros y h c Hh Hle -> Hc Hs. eapply readUBoundRef_wp; [exact EV|done|exact Hh|].
    intros br b l Hl Hbr Hb Hty Hlv Hd. cbn [wp]. eapply explained_add; try done.
    - by eapply last_asserted_u.
    - intros w. unfold signed. by rewrite Hty.
    - unfold signed, right_side. rewrite Hty, Hd. done. }
  assert (∀ y l c, lo (var term) = Some l → (cur s0 (var term) <= l)%lex → y = var term → (0 < nval c)%Qc →
            (∀ w, lscale (nval c) (- w)%lex = flip low (lscale (nval (coeff term)) w)) →
            wp E (expl (pre ++ [term])) (let! br := readLBoundRef (model s) y in Ok (e ++ [MkExplTerm br c]))) as HL.
  { intros y l0 c Hh Hle -> Hc Hs. eapply readLBoundRef_wp; [exact EV|done|exact Hh|].
    intros br b l Hl Hbr Hb Hty Hlv Hd. cbn [wp]. eapply explained_add; try done.
    - by eapply last_asserted_l.
    - intros w. unfold signed. by rewrite Hty.
    - unfold signed, right_side. rewrite Hty, Hd. lex. }
  pose proof (n_neg_val (coeff term)) as Hneg.
  destruct (n_isNegative (coeff term)) eqn:Es.
  - apply n_isNegative_val in Es. assert (0 < nval (n_neg (coeff term)))%Qc as Hpos by (rewrite Hneg; qc_lra).
    destruct low; simpl in Hup, Hdown.
    + destruct Hdown as (l & Hl & Hle); [by apply Qcle_not_lt, Qclt_le_weak|].
      apply (HL _ l); try done. intros w. rewrite Hneg. simpl. lex_ring.
    + destruct Hup as (h & Hh & Hle); [by apply Qclt_le_weak|].
      apply (HU _ h); try done. intros w. rewrite Hneg. simpl. lex_ring.
  - assert (0 < nval (coeff term))%Qc as Hpos.
    { apply Qc_sign; [done|]. intros Hlt. apply n_isNegative_val in Hlt. congruence. }
    destruct low; simpl in Hup, Hdown.
    + destruct Hup as (h & Hh & Hle); [done|]. by apply (HU _ h).
    + destruct Hdown as (l & Hl & Hle); [by apply Qclt_not_le|].
      apply (HL _ l); try done. intros w. simpl. lex_ring.
Qed.

(** The row with the bounds that block it is a refutation. *)
Lemma getConflictingBounds_wp : (if low then cur s0 x < z else z < cur s0 x)%lex →
  wp E (λ e, farkas (boundStore s) (tableau s) e ∧ ∀ t, t ∈ e → asserted (model s) (boundref t))
    (getConflictingBounds x low s).
Proof.
  intros Hviol. unfold getConflictingBounds. apply getConflictingBounds_start. intros br Hstart.
  rewrite Htab, (getRowPoly_ok _ _ _ Hp). cbn [rbind].
  eapply wp_mono; [apply (foldM_wp E _ (λ pre _ e, expl pre e)); [done|]|].
  - intros pre term post e Ep He. by eapply conflict_term_wp.
  - intros e [X1 X2 X3]. split; [constructor|].
    + intros t Ht. destruct (X1 t Ht) as (? & ? & _). done.
    + intros σ Hs. rewrite X2, <- (Hs x p Hp). destruct low; simpl; lex_ring.
    + eapply lle_lt_trans; [exact X3|]. rewrite <- (co_active _ _ _ _ C x p Hx Hp).
      destruct low; simpl; lex.
    + intros t Ht. by apply X1.
Qed.

End row.

End conflict.

(** * The simplex solver: Bland's rule terminates

    After as many rounds as the tableau has columns, [checkSimplex] always
    picks the least candidate and the least variable that can move it.  No
    variable [k] can then leave the basis and enter it again while only smaller
    variables do: the row that would pull it back in, read at the values of
    both moments, would not add up.  A run over the variables below [r]
    therefore takes fewer than [3 ^ r] rounds. *)

Section bland.
Context {N : Type} `{Number N}.
Implicit Types (s : Simplex N) (k v r x y : LVRef) (p : poly_t N).
Context (n : nat) (lo hi : LVRef → option lexq).

Definition is_low s x (low : bool) : Prop := low = true ↔ under (lo x) (cur s x).

(** One round of the loop, once Bland's rule is on. *)
Record bland_step s x y s' : Prop := {
  bs_repaired : repaired n lo hi s;
  bs_x : x ∈ candidates s;
  bs_least z : z ∈ candidates s → x ≤ z;
  bs_y : ∃ p low, row_of (tableau s) x = Some p ∧ is_low s x low ∧ found lo hi s true low p (Some y);
  bs_pivot : pivot_step n lo hi s x y s';
}.

(** Rounds over variables below [r], counted. *)
Inductive run (r : nat) : nat → Simplex N → Simplex N → Prop :=
| run_nil s : run r 0 s s
| run_cons m s1 x y s2 s3 : bland_step s1 x y s2 → x < r → y < r → run r m s2 s3 → run r (S m) s1 s3.

(** What rounds over smaller variables keep. *)
Record kept r s t : Prop := {
  kp_sat σ : solution (tableau t) σ ↔ solution (tableau s) σ;
  kp_live v : type_of (tableau t) v = BASIC ∨ type_of (tableau t) v = NONBASIC →
    type_of (tableau s) v = BASIC ∨ type_of (tableau s) v = NONBASIC;
  kp_type v : r ≤ v → type_of (tableau t) v = type_of (tableau s) v;
  kp_cur v : r ≤ v → type_of (tableau s) v = NONBASIC → cur t v = cur s v;
}.

Lemma kept_refl r s : kept r s s.
Proof. done. Qed.

Lemma kept_trans r s1 s2 s3 : kept r s1 s2 → kept r s2 s3 → kept r s1 s3.
Proof.
  intros [A1 A2 A3 A4] [B1 B2 B3 B4]. constructor.
  - intros σ. by rewrite B1.
  - auto.
  - intros v Hv. by rewrite B3, A3.
  - intros v Hv HT. rewrite B4, A4; [done..|]. by rewrite A3.
Qed.

Lemma bland_step_types s x y s' : bland_step s x y s' →
  type_of (tableau s) x = BASIC ∧ type_of (tableau s) y = NONBASIC.
Proof.
  intros [R Hx _ (p & low & Hp & _ & (term & Ht & Ey & _) & _) _].
  apply (rp_cand _ _ _ _ R) in Hx as [Hx _]. split; [done|]. rewrite <- Ey.
  apply (row_term n lo hi s x p (rp_core _ _ _ _ R) Hx Hp term Ht).
Qed.

Lemma bland_step_kept r s x y s' : bland_step s x y s' → x < r → y < r → kept r s s'.
Proof.
  intros B Hx Hy. pose proof (bland_step_types _ _ _ _ B) as [HTx HTy]. pose proof (bs_pivot _ _ _ _ B) as P.
  constructor.
  - apply P.
  - intros v. destruct (decide (v = x)) as [->|]; [by left|]. destruct (decide (v = y)) as [->|]; [by right|].
    by rewrite (ps_type _ _ _ _ _ _ _ P).
  - intros v Hv. apply (ps_type _ _ _ _ _ _ _ P); lia.
  - intros v Hv HT. apply (ps_nonbasic _ _ _ _ _ _ _ P); [done | lia].
Qed.

Lemma run_kept r m s t : run r m s t → kept r s t.
Proof.
  induction 1 as [|m s1 x y s2 s3 B Hx Hy _ IH]; [apply kept_refl|].
  eapply kept_trans; [by eapply bland_step_kept | done].
Qed.

Lemma run_mono r r' m s t : run r m s t → r ≤ r' → run r' m s t.
Proof. induction 1; intros Hr; [constructor|]. econstructor; [done|lia|lia|auto]. Qed.

(** ** A variable does not come back *)

(** The values of one state satisfy the rows of a later one. *)
Lemma row_at_earlier r s t v p : repaired n lo hi s → repaired n lo hi t → kept r s t →
  type_of (tableau t) v = BASIC → row_of (tableau t) v = Some p → cur s v = peval (cur s) p.
Proof.
  intros Rs Rt K HT Hp. pose proof (rp_core _ _ _ _ Rs) as Cs. pose proof (rp_core _ _ _ _ Rt) as Ct.
  destruct (solution_exists (tableau s) (cur s) (co_tab _ _ _ _ Cs) (co_active _ _ _ _ Cs)) as (σ & Hσ & E).
  apply (kp_sat _ _ _ K) in Hσ.
  assert (∀ u, type_of (tableau t) u = BASIC ∨ type_of (tableau t) u = NONBASIC → σ u = cur s u) as Eu.
  { intros u Hu. apply E. apply (kp_live _ _ _ K) in Hu. destruct Hu; congruence. }
  rewrite <- Eu by (by left). rewrite (Hσ v p Hp). apply peval_ext. intros u Hu. apply Eu. right.
  apply (ok_basic _ _ _ (ti_ok _ (co_tab _ _ _ _ Ct)) v p u HT Hp Hu).
Qed.

(** A sum whose terms are all non-positive. *)
Lemma peval_diff_le p (β γ : LVRef → lexq) :
  (∀ term, term ∈ p → (lscale (nval (coeff term)) (β (var term)) <= lscale (nval (coeff term)) (γ (var term)))%lex) →
  (peval β p <= peval γ p)%lex.
Proof.
  induction p as [|term p IH]; intros Hp; simpl; [apply lle_refl|].
  apply ladd_le; [apply Hp; by left|]. apply IH. intros t Ht. apply Hp. by right.
Qed.

(** The direction in which a term lets its row move. *)
Lemma rises_scale low (term : Term N) a b : nval (coeff term) ≠ 0%Qc →
  (rises low term → (a <= b)%lex) → (¬ rises low term → (b <= a)%lex) →
  if low then (lscale (nval (coeff term)) a <= lscale (nval (coeff term)) b)%lex
  else (lscale (nval (coeff term)) b <= lscale (nval (coeff term)) a)%lex.
Proof.
  intros H0 Hr Hnr. assert (∀ c (a b : lexq), (c < 0)%Qc → (a <= b)%lex → (lscale c b <= lscale c a)%lex) as Hneg.
  { intros c a' b' Hc Hab. pose proof (lscale_le (- c) a' b' ltac:(qc_lra) Hab) as Hle. rewrite !lscale_opp in Hle. lex. }
  destruct (Qclt_le_dec 0 (nval (coeff term))) as [Hp|Hn].
  - destruct low; simpl in Hr, Hnr; apply lscale_le; auto. by apply Hnr, Qclt_not_le.
  - assert (nval (coeff term) < 0)%Qc as Hn' by (apply Qcle_lt_or_eq in Hn as [|]; done).
    destruct low; simpl in Hr, Hnr; apply Hneg; auto. by apply Hnr, Qcle_not_lt.
Qed.

Section no_return.
Context (s t s1 t1 : Simplex N) (k i y : LVRef) (m : nat).
Hypothesis Bs : bland_step s k y s1.
Hypothesis Hy : y < k.
Hypothesis Hrun : run k m s1 t.
Hypothesis Bt : bland_step t i k t1.
Hypothesis Hi : i < k.

Lemma no_return_kept : kept (S k) s t.
Proof.
  eapply kept_trans; [eapply bland_step_kept; [exact Bs|lia|lia]|].
  apply (run_kept _ m). eapply run_mono; [exact Hrun | lia].
Qed.

(** The other variables up to [k] were within their bounds. *)
Lemma earlier_within v : v < k → type_of (tableau t) v = BASIC ∨ type_of (tableau t) v = NONBASIC →
  ¬ out lo hi s v.
Proof.
  intros Hv HT Ho. pose proof (bs_repaired _ _ _ _ Bs) as R.
  destruct (kp_live _ _ _ no_return_kept v HT) as [HB|HN].
  - pose proof (bs_least _ _ _ _ Bs v (proj2 (rp_cand _ _ _ _ R v) (conj HB Ho))). lia.
  - by apply (rp_nonbasic _ _ _ _ R v HN).
Qed.

(** [k] stayed where it was moved to. *)
Lemma moved_target : target lo hi s k (cur t k).
Proof.
  pose proof (bs_pivot _ _ _ _ Bs) as P.
  rewrite (kp_cur _ _ _ (run_kept _ _ _ _ Hrun) k (le_n k) (ps_typex _ _ _ _ _ _ _ P)).
  apply P.
Qed.

Lemma term_direction low p term : row_of (tableau t) i = Some p → found lo hi t true low p (Some k) →
  term ∈ p → type_of (tableau t) (var term) = NONBASIC → nval (coeff term) ≠ 0%Qc →
  (rises low term → (cur s (var term) <= cur t (var term))%lex) ∧
  (¬ rises low term → (cur t (var term) <= cur s (var term))%lex).
Proof.
  intros Hp [(term' & Ht' & Ek & Hcan) Hleast] Ht HT H0.
  pose proof (co_tab _ _ _ _ (rp_core _ _ _ _ (bs_repaired _ _ _ _ Bt))) as [_ Ot _].
  destruct (Nat.lt_trichotomy (var term) k) as [Hlt|[Heq|Hgt]].
  - (* it cannot move, and it was within its bounds *)
    assert (¬ can_move lo hi t low term) as Hno by (intros Hc; specialize (Hleast eq_refl term Ht Hc); lia).
    pose proof (earlier_within (var term) Hlt (or_intror HT)) as Hin. rewrite out_iff in Hin.
    destruct (can_move_bound lo hi t low term H0 Hno) as [Hup Hdown]. split; intros Hr.
    + destruct (Hup Hr) as (h & Eh & Hle). eapply lle_trans; [|exact Hle]. apply lle_not_lt. intros Hlt'.
      apply Hin. right. by exists h.
    + destruct (Hdown Hr) as (l & El & Hle). eapply lle_trans; [exact Hle|]. apply lle_not_lt. intros Hlt'.
      apply Hin. left. by exists l.
  - (* it is [k], which moved to the bound it violated *)
    assert (term' = term) as ->.
    { apply (sorted_term_unique p); [apply (ok_poly _ _ _ Ot i p Hp)|done|done|congruence]. }
    rewrite Ek in *. unfold can_move, room_above, room_below in Hcan. rewrite Ek in Hcan.
    pose proof moved_target as [[(l & El & Hlt) Hz]|(Hnu & (h & Eh & Hlt) & Hz)].
    + split; [intros _; assert (l = cur t k) as -> by congruence; by apply llt_le|].
      intros Hr. destruct Hcan as [[? _]|[_ Hroom]]; [done|]. exfalso. by apply (llt_irrefl (cur t k)), Hroom.
    + split; [|intros _; assert (h = cur t k) as -> by congruence; by apply llt_le].
      intros Hr. destruct Hcan as [[_ Hroom]|[? _]]; [|done]. exfalso. by apply (llt_irrefl (cur t k)), Hroom.
  - (* it took no part *)
    assert (type_of (tableau s) (var term) = NONBASIC) as HTs by (rewrite <- (kp_type _ _ _ no_return_kept) by lia; done).
    rewrite (kp_cur _ _ _ no_return_kept) by (lia || done). split; intros _; apply lle_refl.
Qed.

Lemma no_return : False.
Proof.
  destruct (bs_y _ _ _ _ Bt) as (p & low & Hp & Hlow & Hfound).
  pose proof (bs_repaired _ _ _ _ Bs) as Rs. pose proof (bs_repaired _ _ _ _ Bt) as Rt.
  pose proof (rp_core _ _ _ _ Rt) as Ct. pose proof (co_tab _ _ _ _ Ct) as [_ Ot _].
  pose proof (proj1 (rp_cand _ _ _ _ Rt i) (bs_x _ _ _ _ Bt)) as [HTi Hout].
  pose proof (row_at_earlier (S k) s t i p Rs Rt no_return_kept HTi Hp) as Es.
  pose proof (co_active _ _ _ _ Ct i p HTi Hp) as Et.
  pose proof (earlier_within i Hi (or_introl HTi)) as Hin. rewrite out_iff in Hin, Hout.
  assert (∀ term, term ∈ p →
    if low then (lscale (nval (coeff term)) (cur s (var term)) <= lscale (nval (coeff term)) (cur t (var term)))%lex
    else (lscale (nval (coeff term)) (cur t (var term)) <= lscale (nval (coeff term)) (cur s (var term)))%lex) as Hterms.
  { intros term Ht. pose proof (ok_poly _ _ _ Ot i p Hp) as [_ Wn].
    assert (nval (coeff term) ≠ 0%Qc) as H0 by exact (proj1 (Forall_forall _ _) Wn term Ht).
    assert (type_of (tableau t) (var term) = NONBASIC) as HT by (apply (row_term n lo hi t i p Ct HTi Hp term Ht)).
    destruct (term_direction low p term Hp Hfound Ht HT H0). by apply rises_scale. }
  unfold is_low in Hlow. destruct low.
  - assert (under (lo i) (cur t i)) as (l & El & Hlt) by by apply Hlow.
    pose proof (peval_diff_le p (cur s) (cur t) Hterms) as Hle. rewrite <- Es, <- Et in Hle.
    apply Hin. left. exists l. split; [done|]. by eapply lle_lt_trans.
  - destruct Hout as [Hu|(h & Eh & Hlt)]; [by apply Hlow in Hu|].
    pose proof (peval_diff_le p (cur t) (cur s) Hterms) as Hle. rewrite <- Es, <- Et in Hle.
    apply Hin. right. exists h. split; [done|]. by eapply llt_le_trans.
Qed.

End no_return.

(** ** Counting *)

(** The first round that involves [k]. *)
Lemma run_split k m s t : run (S k) m s t →
  run k m s t ∨ ∃ m1 m2 s1 x y s2, m = m1 + S m2 ∧ run k m1 s s1 ∧ bland_step s1 x y s2
    ∧ x < S k ∧ y < S k ∧ (x = k ∨ y = k) ∧ run (S k) m2 s2 t.
Proof.
  induction 1 as [s|m s1 x y s2 s3 B Hx Hy Hr IH]; [left; constructor|].
  destruct (decide (x = k ∨ y = k)) as [Hk|Hk].
  - right. exists 0, m, s1, x, y, s2. split; [done|]. split; [constructor|]. done.
  - assert (x < k ∧ y < k) as [Hxk Hyk] by lia.
    destruct IH as [IH|(m1 & m2 & s1' & x' & y' & s2' & -> & Hr1 & IH)].
    + left. by econstructor.
    + right. exists (S m1), m2, s1', x', y', s2'. split; [done|]. split; [by econstructor | done].
Qed.

Lemma bland_step_ne s x y s' : bland_step s x y s' → x ≠ y.
Proof. intros B ->. apply bland_step_types in B as [? ?]. congruence. Qed.

(** Once [k] has left, it takes part no more. *)
Lemma run_after_leaving k y m s s1 t : bland_step s k y s1 → y < k → run (S k) m s1 t → run k m s1 t.
Proof.
  intros B Hy Hr. destruct (run_split k m s1 t Hr) as [|(m1 & m2 & t0 & x & z & t1 & _ & Hr1 & B1 & Hx & Hz & Hk & _)]; [done|].
  exfalso. pose proof (run_kept _ _ _ _ Hr1) as K.
  assert (type_of (tableau t0) k = NONBASIC) as HT.
  { rewrite (kp_type _ _ _ K) by lia. apply (ps_typex _ _ _ _ _ _ _ (bs_pivot _ _ _ _ B)). }
  pose proof (bland_step_types _ _ _ _ B1) as [HTx HTz]. pose proof (bland_step_ne _ _ _ _ B1).
  destruct Hk as [->| ->]; [congruence|].
  apply (no_return s t0 s1 t1 k x y m1); [done|done|done|done|lia].
Qed.

Lemma run_not_nonbasic k m s t B : (∀ m s t, run k m s t → m < B) →
  type_of (tableau s) k ≠ NONBASIC → run (S k) m s t → m < 2 * B.
Proof.
  intros HB HT Hr. destruct (run_split k m s t Hr) as [Hr'|(m1 & m2 & t0 & x & z & t1 & -> & Hr1 & B1 & Hx & Hz & Hk & Hr2)].
  { pose proof (HB _ _ _ Hr'). lia. }
  pose proof (bland_step_types _ _ _ _ B1) as [HTx HTz]. pose proof (bland_step_ne _ _ _ _ B1).
  assert (x = k) as ->.
  { destruct Hk as [->| ->]; [done|]. exfalso. apply HT. rewrite <- HTz. symmetry.
    apply (kp_type _ _ _ (run_kept _ _ _ _ Hr1)). lia. }
  apply run_after_leaving with (s := t0) (y := z) in Hr2; [|done|lia].
  pose proof (HB _ _ _ Hr1). pose proof (HB _ _ _ Hr2). lia.
Qed.

Lemma run_bound r m s t : run r m s t → m < 3 ^ r.
Proof.
  revert m s t. induction r as [|k IH]; intros m s t Hr.
  { inversion Hr; subst; simpl; lia. }
  assert (3 ^ S k = 3 * 3 ^ k) as -> by apply Nat.pow_succ_r'.
  destruct (run_split k m s t Hr) as [Hr'|(m1 & m2 & t0 & x & z & t1 & -> & Hr1 & B1 & Hx & Hz & Hk & Hr2)].
  { pose proof (IH _ _ _ Hr'). lia. }
  pose proof (bland_step_ne _ _ _ _ B1). pose proof (IH _ _ _ Hr1). destruct Hk as [->| ->].
  - apply run_after_leaving with (s := t0) (y := z) in Hr2; [|done|lia]. pose proof (IH _ _ _ Hr2). lia.
  - assert (m2 < 2 * 3 ^ k); [|lia].
    apply (run_not_nonbasic k m2 t1 t); [done| |done].
    destruct (ps_typey _ _ _ _ _ _ _ (bs_pivot _ _ _ _ B1)); congruence.
Qed.

Lemma run_snoc r m s1 s2 x y s3 : run r m s1 s2 → bland_step s2 x y s3 → x < r → y < r → run r (S m) s1 s3.
Proof.
  induction 1 as [s|m s1 x' y' s2 s3' B Hx Hy Hr IH]; intros B' Hx' Hy'.
  - econstructor; [done..|constructor].
  - econstructor; [done..|]. by apply IH.
Qed.

End bland.
