(* ===== verification/SimplexLoop.v ===== *)
(** * The simplex solver: the check

    [checkSimplex] processes the buffer and then repeats [check_round].  The
    loop ends: with [n] columns there are at most [n] rounds before Bland's
    rule is on and fewer than [3 ^ n] after.  It ends with values within all
    bounds or with a refutation of bounds that are asserted.
    Then: the trace of the asserted bounds and the counters of the variables. *)
From S2P Require Import Prelude Gmp FastRationalInt Number Lex Delta NatSet Polynomial Tableau TableauFacts LABounds LRAModel Simplex.
From S2P Require Import SimplexFacts SimplexSelect.
From Stdlib Require Import Lia.

#[local] Open Scope nat_scope.

Section loop.
Context {N : Type} `{Number N}.
Implicit Types (s : Simplex N) (k v x y : LVRef) (p : poly_t N) (e : Explanation N).

(** The last consistent assignment, like the current one, satisfies the rows. *)
Definition bak s : LVRef → lexq := valof (last_consistent_assignment (model s)).
Definition backed s : Prop := active (tableau s) (bak s).

(** What a check keeps: the bounds, and the system up to the form of its rows. *)
Record linked s0 s : Prop := {
  lk_store : boundStore s = boundStore s0;
  lk_act : boundsActivated s = boundsActivated s0;
  lk_model : same_model (model s0) (model s);
  lk_sat σ : solution (tableau s) σ ↔ solution (tableau s0) σ;
  lk_live v : type_of (tableau s) v = BASIC ∨ type_of (tableau s) v = NONBASIC →
    type_of (tableau s0) v = BASIC ∨ type_of (tableau s0) v = NONBASIC;
  lk_none v : type_of (tableau s) v = NONE ↔ type_of (tableau s0) v = NONE;
}.

Lemma linked_refl s : linked s s.
Proof. done. Qed.

Lemma linked_trans s1 s2 s3 : linked s1 s2 → linked s2 s3 → linked s1 s3.
Proof.
  intros [A1 A2 A3 A4 A5 A6] [B1 B2 B3 B4 B5 B6]. constructor; try congruence.
  - by apply (same_model_trans _ _ _ A3 B3).
  - intros σ. by rewrite B4.
  - auto.
  - intros v. by rewrite B6.
Qed.

Lemma linked_frame s0 s : same_frame s0 s → linked s0 s.
Proof. intros [F1 F2 F3 F4 F5 F6]. constructor; rewrite ?F2; done. Qed.

Context (n : nat) (lo hi : LVRef → option lexq).
Hypothesis Hfeas : feasible_bounds lo hi.

Lemma pivot_step_linked s x y s' : pivot_step n lo hi s x y s' → type_of (tableau s) x = BASIC →
  type_of (tableau s) y = NONBASIC → linked s s'.
Proof.
  intros P Hx Hy. constructor; try apply P.
  - intros v. destruct (decide (v = x)) as [->|]; [by left|]. destruct (decide (v = y)) as [->|]; [by right|].
    by rewrite (ps_type _ _ _ _ _ _ _ P).
  - intros v. pose proof (ps_typex _ _ _ _ _ _ _ P). pose proof (ps_typey _ _ _ _ _ _ _ P) as Hty.
    destruct (decide (v = x)) as [->|]; [split; congruence|].
    destruct (decide (v = y)) as [->|]; [destruct Hty; split; congruence|].
    by rewrite (ps_type _ _ _ _ _ _ _ P).
Qed.

Lemma linked_backed s s' : core n lo hi s → core n lo hi s' → linked s s' →
  last_consistent_assignment (model s') = last_consistent_assignment (model s) → backed s → backed s'.
Proof.
  intros C C' L El. unfold backed, bak. rewrite El.
  apply active_transfer; [apply (co_tab _ _ _ _ C)|apply (co_tab _ _ _ _ C')| |].
  - intros σ. apply (lk_sat _ _ L).
  - intros v Hv. apply (lk_live _ _ L) in Hv. destruct Hv; congruence.
Qed.

(** ** The result of a check *)

Definition satisfied s : Prop :=
  ∀ v, type_of (tableau s) v = BASIC ∨ type_of (tableau s) v = NONBASIC → within (lo v) (hi v) (cur s v).

Record check_post s0 e s : Prop := {
  cp_core : core n lo hi s;
  cp_linked : linked s0 s;
  cp_buffer : bufferOfActivatedBounds s = [];
  cp_changed : changed_vars_vec (model s) = [];
  cp_same : current_assignment (model s) = last_consistent_assignment (model s);
  cp_verdict : e = [] ∧ candidates s = [] ∧ satisfied s
    ∨ farkas (boundStore s) (tableau s) e ∧ (∀ t, t ∈ e → asserted n (model s) (boundref t))
      ∧ last_consistent_assignment (model s) = last_consistent_assignment (model s0);
}.

(** The loop: Bland's rule is off for the first [n] rounds. *)
Definition loop_inv s0 (st : Simplex N * bool * nat) : Prop :=
  let '(s, bland, repeats) := st in
  repaired n lo hi s ∧ linked s0 s ∧ backed s ∧ bufferOfActivatedBounds s = []
  ∧ last_consistent_assignment (model s) = last_consistent_assignment (model s0)
  ∧ if (bland : bool) then ∃ m sb, repeats = n + m ∧ run n lo hi n m sb s else repeats ≤ n.

Definition loop_left (st : Simplex N * bool * nat) : nat := n + 3 ^ n - st.2.

Lemma repaired_stats s a b : repaired n lo hi s → repaired n lo hi (with_stats a b s).
Proof. intros [[] ? ?]. by constructor. Qed.

Lemma pivot_step_stats s a b x y s' : pivot_step n lo hi (with_stats a b s) x y s' → pivot_step n lo hi s x y s'.
Proof. intros []. by constructor. Qed.

(** No candidate: the values are within the bounds and saved. *)
Lemma round_sat E s0 s : repaired n lo hi s → linked s0 s → bufferOfActivatedBounds s = [] → candidates s = [] →
  wp E (λ m, check_post s0 [] (with_model m s)) (saveAssignment (model s)).
Proof.
  intros R L Hb Hc. pose proof (rp_core _ _ _ _ R) as C.
  eapply wp_mono; [apply saveAssignment_wp, (co_vals _ _ _ _ C)|]. intros m (V & M & Ec & E1 & E2).
  assert (∀ v, cur (with_model m s) v = cur s v) as Ecur by (intros v; unfold cur; simpl; by rewrite E1).
  constructor; simpl; try done; [| |congruence|].
  - destruct C as [C1 C2 C3 C4 C5 C6]. constructor; try done.
    + by apply (env_same (model s)).
    + apply (active_ext _ (cur s)); [done| |done]. intros v _. by rewrite Ecur.
  - destruct L as [L1 L2 L3 L4 L5 L6]. constructor; simpl; try done. by apply (same_model_trans _ _ _ L3 M).
  - left. split; [done|]. split; [done|]. intros v Hv. rewrite Ecur. simpl in Hv.
    destruct (within_dec (lo v) (hi v) (cur s v)) as [|Ho]; [done|]. exfalso. rewrite <- out_iff in Ho.
    destruct Hv as [Hv|Hv].
    + assert (v ∈ candidates s) as Hin by by apply (rp_cand _ _ _ _ R). by rewrite Hc in Hin; apply not_elem_of_nil in Hin.
    + by apply (rp_nonbasic _ _ _ _ R v Hv).
Qed.

(** A blocked candidate: the values are restored and the row is read. *)
Lemma round_unsat E s0 s x p low : repaired n lo hi s → linked s0 s → bufferOfActivatedBounds s = [] → backed s →
  last_consistent_assignment (model s) = last_consistent_assignment (model s0) →
  x ∈ candidates s → row_of (tableau s) x = Some p → is_low lo s x low →
  found lo hi s false low p None →
  wp E (λ r, check_post s0 r.1 r.2)
    (let! b := isModelOutOfBounds s x in
     let! _ := check b in
     let! isOutOfLowerBound := isModelOutOfLowerBound s x in
     let! m := restoreAssignment (model s) in
     let s := with_model m s in
     let! e := getConflictingBounds x isOutOfLowerBound s in Ok (e, s)).
Proof.
  intros R L Hb Hbk Hl Hx Hp Hlow Hno. pose proof (rp_core _ _ _ _ R) as C.
  apply (rp_cand _ _ _ _ R) in Hx as [HT Hout]. pose proof (co_env _ _ _ _ C) as EV.
  assert (x < n) as Hxn by (apply (core_range n lo hi s); [done|congruence]).
  apply wp_bind. eapply wp_mono; [apply (isModelOutOfBounds_wp E s n lo hi EV x Hxn)|].
  intros b Hbo. rewrite (proj2 Hbo Hout). cbn [check rbind].
  apply wp_bind. eapply wp_mono; [apply (isModelOutOfLowerBound_wp E s n lo hi EV x Hxn)|]. intros low' Hlow'.
  assert (low' = low) as ->.
  { unfold is_low in Hlow. rewrite <- Hlow' in Hlow. destruct low, low'; naive_solver. }
  apply wp_bind. eapply wp_mono; [apply restoreAssignment_wp, (co_vals _ _ _ _ C)|]. intros m (V & M & Ec & E1 & E2).
  set (s' := with_model m s). cbn zeta.
  assert (senv s' n lo hi) as EV' by by apply (env_same (model s)).
  assert (∃ z, (if low then lo x = Some z else hi x = Some z) ∧
               if low then (cur s x < z)%lex else (z < cur s x)%lex) as (z & Hz & Hviol).
  { unfold is_low in Hlow. destruct low.
    - destruct (proj1 Hlow eq_refl) as (z & ? & ?). by exists z.
    - apply out_iff in Hout as [Hu|(z & ? & ?)]; [by apply Hlow in Hu | by exists z]. }
  apply wp_bind.
  eapply wp_mono; [apply (getConflictingBounds_wp n lo hi E s s' x p z low EV' eq_refl C HT Hp Hz Hno Hviol)|].
  intros e [Hf Ha]. cbn [wp fst snd]. constructor; simpl; try done; [| |congruence|].
  - destruct C as [C1 C2 C3 C4 C5 C6]. constructor; try done.
    apply (active_ext _ (bak s)); [done| |done]. intros v _. unfold bak, cur. simpl. by rewrite E1.
  - destruct L as [L1 L2 L3 L4 L5 L6]. constructor; simpl; try done. by apply (same_model_trans _ _ _ L3 M).
  - right. split; [done|]. split; [done|]. congruence.
Qed.

(** One round: a pivot that continues the run, or the result. *)
Lemma check_round_wp E s0 st : loop_inv s0 st →
  wp E (λ r, match r with
             | inl st' => loop_inv s0 st' ∧ loop_left st' < loop_left st
             | inr r => check_post s0 r.1 r.2
             end) (check_round st).
Proof.
  destruct st as [[s bland] repeats]. intros (R & L & Hbk & Hb & Hl & Hcount).
  pose proof (rp_core _ _ _ _ R) as C. pose proof (co_tab _ _ _ _ C) as [V O _].
  assert (getNumOfCols (tableau s) = n) as En by (rewrite <- (co_n _ _ _ _ C); apply (view_cols _ _ _ _ _ _ V)).
  assert (repeats < n + 3 ^ n) as Hlt.
  { pose proof (Nat.pow_nonzero 3 n ltac:(lia)). destruct bland; [|lia].
    destruct Hcount as (m & sb & -> & Hr). apply run_bound in Hr. lia. }
  unfold check_round. rewrite En. set (bland' := bland || (n <? S repeats)).
  assert (if bland' then ∃ m sb, S repeats = n + S m ∧ run n lo hi n m sb s else S repeats ≤ n) as Hcount'.
  { unfold bland'. destruct bland; simpl.
    - destruct Hcount as (m & sb & -> & Hr). exists m, sb. split; [lia|done].
    - destruct (Nat.ltb_spec n (S repeats)); [|lia]. exists 0, s. split; [lia | constructor]. }
  clearbody bland'. clear Hcount.
  (* the leaving variable *)
  apply wp_bind. apply (wp_mono E (λ o, match o with
    | Some x => x ∈ candidates s ∧ (bland' = true → ∀ z, z ∈ candidates s → x ≤ z)
    | None => candidates s = [] end)).
  { destruct bland'.
    - eapply wp_mono; [by apply (getBasicVarToFixByBland_wp n lo hi)|]. intros [x|]; [|done]. tauto.
    - eapply wp_mono; [by apply (getBasicVarToFixByShortestPoly_wp n lo hi)|]. intros [x|]; done. }
  intros o Ho. cbn zeta.
  set (s1 := if bland' then _ else _).
  assert (∃ a b, s1 = with_stats a b s) as (a & b & Es1) by (unfold s1; destruct bland'; eauto).
  clearbody s1. subst s1.
  pose proof (repaired_stats s a b R) as R1.
  assert (linked s0 (with_stats a b s)) as L1 by by destruct L.
  destruct o as [x|].
  2:{ apply wp_bind. eapply wp_mono; [apply (round_sat E s0 (with_stats a b s)); done|]. intros m Hm. exact Hm. }
  destruct Ho as [Hx Hleast]. pose proof Hx as [HT Hout]%(rp_cand _ _ _ _ R).
  assert (is_Some (row_of (tableau s) x)) as [p Hp] by (apply (ok_row _ _ _ O); by left).
  (* the entering variable *)
  apply wp_bind. apply (wp_mono E (λ o, ∃ low, is_low lo s x low ∧ found lo hi s bland' low p o)).
  { destruct bland'.
    - eapply wp_mono; [by apply (findNonBasicForPivotByBland_wp n lo hi E (with_stats a b s) x p (rp_core _ _ _ _ R1))|].
      intros o Ho. exact Ho.
    - eapply wp_mono; [by apply (findNonBasicForPivotByHeuristic_wp n lo hi E (with_stats a b s) x p (rp_core _ _ _ _ R1))|].
      intros o Ho. exact Ho. }
  intros [y|] (low & Hlow & Hf).
  - pose proof Hf as [(term & Ht & Ey & _) _].
    apply wp_bind. eapply wp_mono; [by apply (Simplex_pivot_wp n lo hi Hfeas E (with_stats a b s) x y p term)|].
    intros s2 P. apply pivot_step_stats in P. cbn [wp].
    destruct (row_term n lo hi s x p C HT Hp term Ht) as (HTy & Hyn & _). rewrite Ey in *.
    pose proof (pivot_step_linked s x y s2 P HT HTy) as L2.
    pose proof (ps_repaired _ _ _ _ _ _ _ P) as R2.
    assert (x < n) as Hxn by (apply (core_range n lo hi s); [done|congruence]).
    assert (if bland' then ∃ m sb, S repeats = n + m ∧ run n lo hi n m sb s2 else S repeats ≤ n) as Hcount2.
    { destruct bland'; [|done]. destruct Hcount' as (m & sb & Em & Hr). exists (S m), sb. split; [done|].
      apply (run_snoc n lo hi n m sb s x y s2); [exact Hr| |done|done]. constructor; [done|done|exact (Hleast eq_refl)|by exists p, low|exact P]. }
    split; [|unfold loop_left; simpl; lia].
    split; [done|]. split; [exact (linked_trans _ _ _ L L2)|]. split.
    { eapply linked_backed; [exact C|apply R2|done| |done]. apply P. }
    split; [by rewrite (ps_buffer _ _ _ _ _ _ _ P)|]. split; [|done]. by rewrite (ps_last _ _ _ _ _ _ _ P).
  - pose proof (round_unsat E s0 (with_stats a b s) x p low R1 L1 Hb Hbk Hl Hx Hp Hlow Hf) as W.
    revert W. unfold wp. repeat match goal with
      | |- context [rbind ?m _] => destruct m; cbn [rbind]; try done
      end.
Qed.

(** Any exponent with [2 ^ k] above [n + 3 ^ n] is enough fuel. *)
Lemma checkSimplex_wp E s k : pending n lo hi s (reverse (bufferOfActivatedBounds s)) → backed s →
  n + 3 ^ n < 2 ^ k →
  wp E (λ r, check_post s r.1 r.2) (checkSimplex k s).
Proof.
  intros P Hbk Hk. unfold checkSimplex, processBufferOfActivatedBounds. apply wp_bind.
  eapply wp_mono; [apply (process_buffer_wp n lo hi Hfeas E _ s P)|].
  { intros Er. by rewrite <- (reverse_involutive (bufferOfActivatedBounds s)), Er. }
  intros s1 [R1 F1].
  apply (while_wp E check_round (loop_inv s) loop_left); [by apply check_round_wp| |unfold loop_left; simpl; lia].
  assert (linked s s1) as L1.
  { destruct F1 as [F1 F2 F3 F4 F5 F6]. constructor; rewrite ?F2; done. }
  split; [done|]. split; [done|]. split.
  { eapply linked_backed; [apply P|apply R1|done|apply F1|done]. }
  split; [apply F1|]. split; [apply F1|]. lia.
Qed.

Lemma fuel_enough : n + 3 ^ n < 2 ^ (2 * n + 2).
Proof.
  rewrite Nat.pow_add_r, Nat.pow_mul_r. change (2 ^ 2) with 4.
  pose proof (Nat.pow_le_mono_l 3 4 n ltac:(lia)). pose proof (Nat.pow_gt_lin_r 4 n ltac:(lia)). lia.
Qed.

End loop.

(** * The simplex solver: the trace of pushed bounds

    A bound is pushed only when it is stronger than the strongest bound of its
    variable on the same side and does not exclude the strongest one on the
    other side.  Everything the solver knows about the bounds follows from the
    trace: the stacks of the model, the strongest bounds, and that the bounds
    of one variable do not exclude each other. *)

Section trace.
Context {N : Type} `{Number N}.
Implicit Types (a : list (LABound N)) (v : LVRef) (br : LABoundRef) (tr : list LABoundRef).

(** Is [br] a bound of [v] of this type? *)
Definition side a ty v br : bool :=
  match a !! br with Some b => bool_decide (type b = ty) && (lvref b =? v) | None => false end.
Definition stack a ty v tr : list LABoundRef := filter (λ br, side a ty v br = true) tr.
Definition strong a ty v tr : option lexq :=
  match list.last (stack a ty v tr) with Some br => Some (bval a br) | None => None end.

Lemma side_iff a ty v br : side a ty v br = true ↔ ∃ b, a !! br = Some b ∧ type b = ty ∧ lvref b = v.
Proof.
  unfold side. destruct (a !! br) as [b|]; [|naive_solver].
  rewrite andb_true_iff, bool_decide_eq_true, Nat.eqb_eq. naive_solver.
Qed.

Lemma stack_snoc a ty v tr br :
  stack a ty v (tr ++ [br]) = stack a ty v tr ++ (if side a ty v br then [br] else []).
Proof.
  unfold stack. rewrite filter_app, filter_cons. destruct (side a ty v br).
  - by rewrite decide_True.
  - rewrite decide_False by done. done.
Qed.

Lemma strong_snoc a ty v tr br :
  strong a ty v (tr ++ [br]) = if side a ty v br then Some (bval a br) else strong a ty v tr.
Proof.
  unfold strong. rewrite stack_snoc. destruct (side a ty v br); [by rewrite last_snoc | by rewrite app_nil_r].
Qed.

(** May the bound be pushed after [tr]? *)
Definition admissible a tr (b : LABound N) : Prop :=
  match type b with
  | bound_l => (∀ l, strong a bound_l (lvref b) tr = Some l → (l <= dval (delta b))%lex)
               ∧ ∀ h, strong a bound_u (lvref b) tr = Some h → (dval (delta b) <= h)%lex
  | bound_u => (∀ h, strong a bound_u (lvref b) tr = Some h → (dval (delta b) <= h)%lex)
               ∧ ∀ l, strong a bound_l (lvref b) tr = Some l → (l <= dval (delta b))%lex
  end.

Inductive chain a : list LABoundRef → Prop :=
| chain_nil : chain a []
| chain_snoc tr br b : chain a tr → a !! br = Some b → admissible a tr b → chain a (tr ++ [br]).

Lemma chain_snoc_inv a tr br : chain a (tr ++ [br]) → chain a tr ∧ ∃ b, a !! br = Some b ∧ admissible a tr b.
Proof.
  intros Hc. inversion Hc as [E|tr' br' b Hc' Hb Ha E]; [by destruct tr|].
  apply app_inj_tail in E as [-> ->]. eauto.
Qed.

Lemma chain_take a t1 t2 : chain a (t1 ++ t2) → chain a t1.
Proof.
  induction t2 as [|br t2 IH] using rev_ind; [by rewrite app_nil_r|].
  rewrite app_assoc. intros [Hc _]%chain_snoc_inv. auto.
Qed.

Lemma chain_feasible a tr : chain a tr → feasible_bounds (λ v, strong a bound_l v tr) (λ v, strong a bound_u v tr).
Proof.
  induction 1 as [|tr br b Hc IH Hb Ha]; [done|]. intros v l h. rewrite !strong_snoc.
  assert (bval a br = dval (delta b)) as Ev by (unfold bval; by rewrite Hb).
  unfold admissible in Ha. destruct (side a bound_l v br) eqn:El, (side a bound_u v br) eqn:Eu.
  - apply side_iff in El as (b1 & ? & ? & ?), Eu as (b2 & ? & ? & ?). congruence.
  - apply side_iff in El as (b1 & ? & Ht & Hv). assert (b1 = b) as -> by congruence.
    rewrite Ht, Hv in Ha. intros [= <-] Hh. rewrite Ev. by apply Ha.
  - apply side_iff in Eu as (b1 & ? & Ht & Hv). assert (b1 = b) as -> by congruence.
    rewrite Ht, Hv in Ha. intros Hl [= <-]. rewrite Ev. by apply Ha.
  - apply IH.
Qed.

(** Bounds only get stronger. *)
Lemma chain_mono_l a t1 t2 v x : chain a (t1 ++ t2) → strong a bound_l v t1 = Some x →
  ∃ y, strong a bound_l v (t1 ++ t2) = Some y ∧ (x <= y)%lex.
Proof.
  induction t2 as [|br t2 IH] using rev_ind; [rewrite app_nil_r; eauto using lle_refl|].
  rewrite app_assoc. intros (Hc & b & Hb & Ha)%chain_snoc_inv Hx. destruct (IH Hc Hx) as (y & Hy & Hle).
  rewrite strong_snoc. destruct (side a bound_l v br) eqn:E; [|eauto].
  apply side_iff in E as (b1 & ? & Ht & Hv). assert (b1 = b) as -> by congruence.
  unfold admissible in Ha. rewrite Ht, Hv in Ha. eexists. split; [done|].
  unfold bval. rewrite Hb. eapply lle_trans; [exact Hle|]. by apply Ha.
Qed.

Lemma chain_mono_u a t1 t2 v x : chain a (t1 ++ t2) → strong a bound_u v t1 = Some x →
  ∃ y, strong a bound_u v (t1 ++ t2) = Some y ∧ (y <= x)%lex.
Proof.
  induction t2 as [|br t2 IH] using rev_ind; [rewrite app_nil_r; eauto using lle_refl|].
  rewrite app_assoc. intros (Hc & b & Hb & Ha)%chain_snoc_inv Hx. destruct (IH Hc Hx) as (y & Hy & Hle).
  rewrite strong_snoc. destruct (side a bound_u v br) eqn:E; [|eauto].
  apply side_iff in E as (b1 & ? & Ht & Hv). assert (b1 = b) as -> by congruence.
  unfold admissible in Ha. rewrite Ht, Hv in Ha. eexists. split; [done|].
  unfold bval. rewrite Hb. apply (lle_trans _ y); [by apply Ha|exact Hle].
Qed.

Lemma within_prefix a t1 t2 v x : chain a (t1 ++ t2) →
  within (strong a bound_l v (t1 ++ t2)) (strong a bound_u v (t1 ++ t2)) x →
  within (strong a bound_l v t1) (strong a bound_u v t1) x.
Proof.
  intros Hc [Hu Ho]. split.
  - intros (l & Hl & Hlt). apply Hu. destruct (chain_mono_l a t1 t2 v l Hc Hl) as (y & Hy & Hle).
    exists y. split; [done|]. by eapply llt_le_trans.
  - intros (h & Hh & Hlt). apply Ho. destruct (chain_mono_u a t1 t2 v h Hc Hh) as (y & Hy & Hle).
    exists y. split; [done|]. by eapply lle_lt_trans.
Qed.

(** Every bound of the trace is implied by the strongest ones. *)
Lemma chain_implied a tr br b : chain a tr → br ∈ tr → a !! br = Some b →
  implied_bound (λ v, strong a bound_l v tr) (λ v, strong a bound_u v tr) b (lvref b).
Proof.
  intros Hc [t1 [t2 ->]]%list_elem_of_split Hb. change (br :: t2) with ([br] ++ t2) in *.
  rewrite app_assoc in *. unfold implied_bound. destruct (type b) eqn:Ht.
  - destruct (chain_mono_l a (t1 ++ [br]) t2 (lvref b) (dval (delta b)) Hc) as (y & -> & Hle); [|eauto].
    rewrite strong_snoc. rewrite (proj2 (side_iff a bound_l (lvref b) br)) by (by exists b). unfold bval. by rewrite Hb.
  - destruct (chain_mono_u a (t1 ++ [br]) t2 (lvref b) (dval (delta b)) Hc) as (y & -> & Hle); [|eauto].
    rewrite strong_snoc. rewrite (proj2 (side_iff a bound_u (lvref b) br)) by (by exists b). unfold bval. by rewrite Hb.
Qed.

(** The strongest bound is an old one or one of the new ones. *)
Lemma strong_app a ty v t1 t2 x : strong a ty v (t1 ++ t2) = Some x →
  strong a ty v t1 = Some x ∨ ∃ br b, br ∈ t2 ∧ a !! br = Some b ∧ type b = ty ∧ lvref b = v ∧ dval (delta b) = x.
Proof.
  induction t2 as [|br t2 IH] using rev_ind; [rewrite app_nil_r; by left|].
  rewrite app_assoc, strong_snoc. destruct (side a ty v br) eqn:E.
  - intros [= <-]. apply side_iff in E as (b & Hb & Ht & Hv). right. exists br, b.
    unfold bval. rewrite Hb. set_solver.
  - intros Hx. destruct (IH Hx) as [|(br' & b & Hin & Hr)]; [by left|]. right. exists br', b. set_solver.
Qed.

Lemma strong_of_stack a ty v tr x : strong a ty v tr = Some x →
  ∃ br b, list.last (stack a ty v tr) = Some br ∧ a !! br = Some b ∧ type b = ty ∧ lvref b = v ∧ dval (delta b) = x.
Proof.
  unfold strong. destruct (list.last (stack a ty v tr)) as [br|] eqn:El; [|done]. intros [= <-].
  assert (br ∈ stack a ty v tr) as Hin by (apply last_Some in El as [l ->]; set_solver).
  apply list_elem_of_filter in Hin as [Hs _]. apply side_iff in Hs as (b & Hb & Ht & Hv).
  exists br, b. unfold bval. by rewrite Hb.
Qed.

(** The stacks of the model are the two sides of the trace. *)
Record stacks (m : LRAModel N) a (n : nat) tr : Prop := {
  sk_lo v : v < n → int_lbounds m !! v = Some (stack a bound_l v tr);
  sk_hi v : v < n → int_ubounds m !! v = Some (stack a bound_u v tr);
}.

Lemma stacks_strongest (st : LABoundStore N) ty v tr : strongest st ty v (stack (ba st) ty v tr) (strong (ba st) ty v tr).
Proof.
  unfold strongest. destruct (strong (ba st) ty v tr) as [x|] eqn:E.
  - apply strong_of_stack in E as (br & b & ? & ? & ? & ? & ?). eauto 10.
  - unfold strong in E. destruct (list.last _) eqn:El; [done|]. by apply last_None in El.
Qed.

Lemma stacks_env m (st : LABoundStore N) n tr : n ≤ length (current_assignment m) → stacks m (ba st) n tr →
  env m st n (λ v, strong (ba st) bound_l v tr) (λ v, strong (ba st) bound_u v tr).
Proof.
  intros Hn [Hl Hu]. constructor; [done| |]; intros v Hv.
  - eexists. split; [by apply Hl|]. apply stacks_strongest.
  - eexists. split; [by apply Hu|]. apply stacks_strongest.
Qed.

(** ** New bounds and other places leave all this alone *)

Definition agree a a' : Prop := ∀ br b, a !! br = Some b →
  ∃ b', a' !! br = Some b' ∧ type b' = type b ∧ lvref b' = lvref b ∧ delta b' = delta b.
Definition allocated a tr : Prop := ∀ br, br ∈ tr → is_Some (a !! br).

Lemma reindexed_agree a a' : reindexed a a' → agree a a'.
Proof. intros [_ Hr] br b Hb. destruct (Hr br b Hb) as (b' & ? & ? & _ & ? & ?). by exists b'. Qed.

Lemma agree_app a x : agree a (a ++ x).
Proof. intros br b Hb. exists b. split; [by apply lookup_app_l_Some | done]. Qed.

Lemma agree_trans a1 a2 a3 : agree a1 a2 → agree a2 a3 → agree a1 a3.
Proof.
  intros H1 H2 br b Hb. destruct (H1 br b Hb) as (b2 & Hb2 & ? & ? & ?).
  destruct (H2 br b2 Hb2) as (b3 & ? & ? & ? & ?). exists b3. repeat split; congruence.
Qed.

Lemma chain_allocated a tr : chain a tr → allocated a tr.
Proof.
  induction 1 as [|tr br b _ IH Hb _]; [by intros ? ?%not_elem_of_nil|].
  intros x [Hx|Hx%list_elem_of_singleton]%elem_of_app; [by apply IH | subst x; eauto].
Qed.

Section agree.
Context a a' (Hr : agree a a').

Lemma agree_side ty v br : is_Some (a !! br) → side a' ty v br = side a ty v br.
Proof.
  intros [b E]. destruct (Hr br b E) as (b' & E' & Et & Ev & _). unfold side. by rewrite E, E', Et, Ev.
Qed.

Lemma agree_stack ty v tr : allocated a tr → stack a' ty v tr = stack a ty v tr.
Proof. intros Ha. apply filter_ext_in. intros br Hbr. rewrite agree_side; [done | by apply Ha]. Qed.

Lemma agree_strong ty v tr : allocated a tr → strong a' ty v tr = strong a ty v tr.
Proof.
  intros Ha. unfold strong. rewrite agree_stack by done.
  destruct (list.last (stack a ty v tr)) as [br|] eqn:El; [|done]. f_equal.
  assert (br ∈ stack a ty v tr) as [_ Hin]%list_elem_of_filter by (apply last_Some in El as [l ->]; set_solver).
  destruct (Ha br Hin) as [b E]. destruct (Hr br b E) as (b' & E' & _ & _ & Ed). unfold bval. by rewrite E, E', Ed.
Qed.

Lemma agree_chain tr : chain a tr → chain a' tr.
Proof.
  induction 1 as [|tr br b Hc IH Hb Ha]; [constructor|]. pose proof (chain_allocated a tr Hc) as Hal.
  destruct (Hr br b Hb) as (b' & Hb' & Et & Ev & Ed). apply chain_snoc with b'; [done|done|].
  unfold admissible in *. rewrite Et, Ev, Ed, !agree_strong; done.
Qed.

End agree.
End trace.
