(* ===== verification/SimplexClient.v ===== *)
(** * The simplex solver: its protocol

    The states a client of the solver can reach.  A client declares variables
    and rows, asserts bounds, sets and takes back backtracking points, and
    checks.  The history of a state is the list of the bounds asserted so far,
    with the places of the backtracking points; [A0] is the part of it the last
    consistent assignment is known to satisfy.
    Then: asserting a bound, and taking bounds back. *)
From S2P Require Import Prelude Gmp FastRationalInt Number Lex Delta NatSet Polynomial Tableau TableauFacts LABounds LABuild LRAModel Simplex.
From S2P Require Import SimplexFacts SimplexSelect SimplexLoop.
From Stdlib Require Import Lia.

#[local] Open Scope nat_scope.

(** ** Histories *)

(** A bound asserted on a variable; it was pushed unless it was implied. *)
Record event : Type := Ev { ev_var : LVRef; ev_bound : LABoundRef; ev_pushed : bool }.

Definition pushed (A : list event) : list event := filter (λ e, ev_pushed e = true) A.
Definition trace (A : list event) : list LABoundRef := ev_bound <$> pushed A.
Definition entries (A : list event) : list (LVRef * LABoundRef) := (λ e, (ev_var e, ev_bound e)) <$> pushed A.
Definition count (v : LVRef) (A : list event) : nat := length (filter (λ e, ev_var e = v) A).

Lemma trace_app A B : trace (A ++ B) = trace A ++ trace B.
Proof. unfold trace, pushed. by rewrite filter_app, fmap_app. Qed.
Lemma count_app v A B : count v (A ++ B) = count v A + count v B.
Proof. unfold count. by rewrite filter_app, length_app. Qed.
Lemma count_one v e : count v [e] = if decide (ev_var e = v) then 1 else 0.
Proof. unfold count. rewrite filter_cons. by destruct (decide (ev_var e = v)). Qed.
Lemma trace_one e : trace [e] = if ev_pushed e then [ev_bound e] else [].
Proof. unfold trace, pushed. rewrite filter_cons. destruct (ev_pushed e); [by rewrite decide_True | by rewrite decide_False]. Qed.

Lemma count_pos v A e : e ∈ A → ev_var e = v → 0 < count v A.
Proof.
  intros (A1 & A2 & ->)%list_elem_of_split Hv. change (e :: A2) with ([e] ++ A2).
  rewrite !count_app, count_one, decide_True by done. lia.
Qed.

Lemma elem_of_trace br A : br ∈ trace A ↔ ∃ e, e ∈ A ∧ ev_pushed e = true ∧ ev_bound e = br.
Proof.
  unfold trace, pushed. rewrite list_elem_of_fmap. split.
  - intros (e & -> & [Hp He]%list_elem_of_filter). eauto.
  - intros (e & He & Hp & <-). exists e. by rewrite list_elem_of_filter.
Qed.

Section client.
Context {N : Type} `{Number N}.
Implicit Types (s : Simplex N) (v : LVRef) (br : LABoundRef) (A : list event) (M : list nat)
  (a : list (LABound N)) (b : LABound N).

Definition lo_of a A v : option lexq := strong a bound_l v (trace A).
Definition hi_of a A v : option lexq := strong a bound_u v (trace A).

(** Every bound was implied when it was asserted, or it was admissible. *)
Inductive events_ok a : list event → Prop :=
| events_nil : events_ok a []
| events_snoc A e b : events_ok a A → a !! ev_bound e = Some b → lvref b = ev_var e →
    (if ev_pushed e then admissible a (trace A) b else implied_bound (lo_of a A) (hi_of a A) b (ev_var e)) →
    events_ok a (A ++ [e]).

Lemma events_snoc_inv a A e : events_ok a (A ++ [e]) → events_ok a A ∧ ∃ b, a !! ev_bound e = Some b
  ∧ lvref b = ev_var e
  ∧ if ev_pushed e then admissible a (trace A) b else implied_bound (lo_of a A) (hi_of a A) b (ev_var e).
Proof.
  intros Hc. inversion Hc as [E|A' e' b Hc' Hb Hv Ha E]; [by destruct A|].
  apply app_inj_tail in E as [-> ->]. eauto.
Qed.

Lemma events_chain a A : events_ok a A → chain a (trace A).
Proof.
  induction 1 as [|A e b _ IH Hb Hv Ha]; [constructor|]. rewrite trace_app, trace_one.
  destruct (ev_pushed e); [|by rewrite app_nil_r]. by apply chain_snoc with b.
Qed.

Lemma events_prefix a A B : events_ok a (A ++ B) → events_ok a A.
Proof.
  induction B as [|e B IH] using rev_ind; [by rewrite app_nil_r|].
  rewrite app_assoc. intros [Hc _]%events_snoc_inv. auto.
Qed.

Lemma implied_mono a t1 t2 b v : chain a (t1 ++ t2) →
  implied_bound (λ v, strong a bound_l v t1) (λ v, strong a bound_u v t1) b v →
  implied_bound (λ v, strong a bound_l v (t1 ++ t2)) (λ v, strong a bound_u v (t1 ++ t2)) b v.
Proof.
  intros Hc. unfold implied_bound. destruct (type b).
  - intros (l & Hl & Hle). destruct (chain_mono_l a t1 t2 v l Hc Hl) as (y & Hy & Hle').
    exists y. split; [done|]. by eapply lle_trans.
  - intros (h & Hh & Hle). destruct (chain_mono_u a t1 t2 v h Hc Hh) as (y & Hy & Hle').
    exists y. split; [done|]. by eapply lle_trans.
Qed.

(** The strongest bounds imply all that were asserted. *)
Lemma events_implied a A e b : events_ok a A → e ∈ A → a !! ev_bound e = Some b →
  lvref b = ev_var e ∧ implied_bound (lo_of a A) (hi_of a A) b (ev_var e).
Proof.
  intros Hok (A1 & A2 & ->)%list_elem_of_split Hb. change (e :: A2) with ([e] ++ A2) in *.
  rewrite app_assoc in *. pose proof (events_chain a _ Hok) as Hc. rewrite trace_app in Hc.
  apply events_prefix in Hok as (_ & b' & Hb' & Hv & Ha)%events_snoc_inv. assert (b' = b) as -> by congruence.
  split; [done|]. unfold lo_of, hi_of. rewrite (trace_app (A1 ++ [e]) A2). apply implied_mono; [done|].
  pose proof (chain_take _ _ _ Hc) as Hc'. rewrite trace_app, trace_one in Hc' |- *.
  destruct (ev_pushed e).
  - rewrite <- Hv. apply (chain_implied a _ (ev_bound e)); [done|set_solver|done].
  - by rewrite app_nil_r.
Qed.

Lemma agree_events a a' A : agree a a' → events_ok a A → events_ok a' A.
Proof.
  intros Hr. induction 1 as [|A e b Hc IH Hb Hv Ha]; [constructor|].
  pose proof (chain_allocated a _ (events_chain a A Hc)) as Hal.
  destruct (Hr _ b Hb) as (b' & Hb' & Et & Ev & Ed). apply events_snoc with b'; [done|done|congruence|].
  unfold admissible, implied_bound, lo_of, hi_of in *.
  by destruct (ev_pushed e); rewrite Et, ?Ev, Ed, !(agree_strong a a' Hr).
Qed.

(** ** Reachable states *)

Definition dim s : nat := length (varTypes (tableau s)).
Definition limits_of A M : list nat := 0 :: ((λ k, length (trace (take k A))) <$> M).

(** The vectors grow together. *)
Record sizes s : Prop := {
  sz_lb : length (int_lbounds (model s)) = dim s;
  sz_ub : length (int_ubounds (model s)) = dim s;
  sz_cur : length (current_assignment (model s)) = dim s;
  sz_act : length (boundsActivated s) = dim s;
  sz_has v : is_Some (has_model (model s) !! v) → v < dim s;
}.

Record sx_inv M A s : Prop := {
  si_tab : tab_inv (tableau s);
  si_cur : dim s ≤ length (current_assignment (model s));
  si_count v : v < dim s → boundsActivated s !! v = Some (count v A);
  si_store : store_ok (boundStore s);
  si_event e : e ∈ A → type_of (tableau s) (ev_var e) ≠ NONE ∧ known (boundStore s) (ev_var e) (ev_bound e);
  si_quasi v : type_of (tableau s) v = QUASIBASIC → count v A = 0;
  si_stacks : stacks (model s) (ba (boundStore s)) (dim s) (trace A);
  si_events : events_ok (ba (boundStore s)) A;
  si_trace : bound_trace (model s) = trace A;
  si_limits : bound_limits (model s) = limits_of A M;
  si_marks i j x y : i ≤ j → M !! i = Some x → M !! j = Some y → x ≤ y;
  si_mark x : x ∈ M → x ≤ length A;
  si_vals : vals_ok (model s);
  si_active : active (tableau s) (cur s);
  si_backed : backed s;
  si_sizes : sizes s;
}.

(** The current values are the last consistent ones and satisfy [A0]. *)
Record settled A0 M A s : Prop := {
  st_inv : sx_inv M A s;
  st_prefix : ∃ A1, A = A0 ++ A1;
  st_same : current_assignment (model s) = last_consistent_assignment (model s);
  st_changed : changed_vars_vec (model s) = [];
  st_sat v : type_of (tableau s) v = BASIC ∨ type_of (tableau s) v = NONBASIC →
    within (lo_of (ba (boundStore s)) A0 v) (hi_of (ba (boundStore s)) A0 v) (cur s v);
}.

(** Moreover, the bounds asserted since then wait in the buffer. *)
Record idle A0 M A s : Prop := {
  id_settled : settled A0 M A s;
  id_candidates : candidates s = [];
  id_buffer A1 : A = A0 ++ A1 → bufferOfActivatedBounds s = entries A1;
}.

Section states.
Context M A s (I : sx_inv M A s).

Let lo := lo_of (ba (boundStore s)) A.
Let hi := hi_of (ba (boundStore s)) A.

Lemma client_env : senv s (dim s) lo hi.
Proof. apply stacks_env; apply I. Qed.

Lemma client_feasible : feasible_bounds lo hi.
Proof. apply chain_feasible, events_chain, I. Qed.

Lemma event_of_strong ty v x : strong (ba (boundStore s)) ty v (trace A) = Some x → ∃ e, e ∈ A ∧ ev_var e = v.
Proof.
  intros Hx. destruct (strong_app _ ty v [] (trace A) x Hx) as [Hn|(br & b & Hin & Hb & _ & Hv & _)]; [done|].
  apply elem_of_trace in Hin as (e & He & _ & <-). exists e. split; [done|].
  destruct (events_implied _ A e b (si_events _ _ _ I) He Hb). congruence.
Qed.

Lemma count_unbounded v : count v A = 0 → lo v = None ∧ hi v = None.
Proof.
  intros Hc. unfold lo, hi, lo_of, hi_of.
  split; (destruct (strong _ _ v (trace A)) as [x|] eqn:E; [|done]);
    apply event_of_strong in E as (e & He & Hv); pose proof (count_pos v A e He Hv); lia.
Qed.

Lemma client_core : core (dim s) lo hi s.
Proof.
  destruct I. constructor; try done; [apply client_env|].
  intros v Hv. exists (count v A). split; [auto|]. split; [apply count_unbounded | auto].
Qed.

Lemma client_range v : type_of (tableau s) v ≠ NONE → v < dim s.
Proof. apply (ok_range _ _ _ (ti_ok _ (si_tab _ _ _ I))). Qed.

End states.

(** An idle state is ready for a check. *)
Lemma idle_pending A0 M A s : idle A0 M A s →
  pending (dim s) (lo_of (ba (boundStore s)) A) (hi_of (ba (boundStore s)) A) s (reverse (bufferOfActivatedBounds s)).
Proof.
  intros [[I (A1 & EA) Es Ec Hsat] Hc Hb]. rewrite (Hb A1 EA). set (a := ba (boundStore s)) in *.
  pose proof (client_core M A s I) as C. fold a in C.
  assert (∀ ty v x, strong a ty v (trace A) = Some x → strong a ty v (trace A0) ≠ Some x →
            awaited (lo_of a A) (hi_of a A) s (reverse (entries A1)) ty v) as Haw.
  { intros ty v x Hx Hn. pose proof Hx as Hx'. rewrite EA, trace_app in Hx'.
    apply strong_app in Hx' as [|(br & b & Hin & Hbr & Ht & Hv & Hd)]; [done|].
    exists br, b, x. apply elem_of_trace in Hin as (e & He & Hp & <-).
    assert (ev_var e = v) as <-.
    { destruct (events_implied a A e b (si_events _ _ _ I)) as [? _]; [rewrite EA; set_solver|done|congruence]. }
    split; [|split; [done|split; [done|split; [done|by destruct ty]]]].
    rewrite elem_of_reverse. unfold entries, pushed. apply list_elem_of_fmap. exists e.
    split; [done|]. by apply list_elem_of_filter. }
  constructor; rewrite ?Hc; try done.
  - intros e He. rewrite elem_of_reverse in He. unfold entries, pushed in He.
    apply list_elem_of_fmap in He as (ev & -> & [_ Hev]%list_elem_of_filter).
    assert (ev ∈ A) as HevA by (rewrite EA; set_solver).
    destruct (si_event _ _ _ I ev HevA) as [HT (l & Hl & Hin)]. constructor; simpl.
    + destruct (bo_alloc _ _ _ (so_lists _ (si_store _ _ _ I) _ _ Hl) _ Hin) as (b & Hbr & Hv).
      exists b. split; [done|]. split; [done|]. by apply (events_implied a A ev b (si_events _ _ _ I)).
    + pose proof (count_pos _ A ev HevA eq_refl). pose proof (si_quasi _ _ _ I (ev_var ev)) as Hq.
      destruct (type_of (tableau s) (ev_var ev)); try done; [by left|by right|]. specialize (Hq eq_refl). lia.
  - by intros v ?%not_elem_of_nil.
  - intros v Hv Ho. right. specialize (Hsat v (or_introl Hv)). apply out_iff in Ho.
    assert (∃ ty, awaited (lo_of a A) (hi_of a A) s (reverse (entries A1)) ty v) as (ty & br & b & x & Hin & _); [|eauto].
    destruct Ho as [(l & Hl & Hlt)|(h & Hh & Hlt)].
    + exists bound_l. apply (Haw bound_l v l); [done|]. intros Hl0. apply (proj1 Hsat). by exists l.
    + exists bound_u. apply (Haw bound_u v h); [done|]. intros Hl0. apply (proj2 Hsat). by exists h.
  - intros v Hv (l & Hl & Hlt). apply (Haw bound_l v l); [done|]. intros Hl0.
    apply (proj1 (Hsat v (or_intror Hv))). by exists l.
  - intros v Hv (h & Hh & Hlt). apply (Haw bound_u v h); [done|]. intros Hl0.
    apply (proj2 (Hsat v (or_intror Hv))). by exists h.
Qed.

(** ** Checking *)

(** All the asserted bounds hold. *)
Definition holds (st : LABoundStore N) A (σ : LVRef → lexq) : Prop :=
  ∀ e b, e ∈ A → ba st !! ev_bound e = Some b → bound_holds σ b.

(** An explanation of bounds asserted in [A]. *)
Definition explains s A (e : Explanation N) : Prop :=
  farkas (boundStore s) (tableau s) e ∧ ∀ t, t ∈ e → ∃ ev, ev ∈ A ∧ ev_bound ev = boundref t.

Lemma explains_refutes s A e σ : explains s A e → solution (tableau s) σ → ¬ holds (boundStore s) A σ.
Proof.
  intros [Hf Ha] Hs Hh. apply (farkas_refutes _ _ e σ Hf Hs). intros t b Ht Hb.
  destruct (Ha t Ht) as (ev & Hev & Eb). apply (Hh ev b Hev). by rewrite Eb.
Qed.

Lemma bound_of_within a A b v (x : lexq) (σ : LVRef → lexq) :
  implied_bound (lo_of a A) (hi_of a A) b v → lvref b = v → σ v = x →
  within (lo_of a A v) (hi_of a A v) x → bound_holds σ b.
Proof.
  intros Hi Hv Hx [Hl Hh]. unfold implied_bound in Hi. unfold bound_holds. rewrite Hv, Hx. destruct (type b).
  - destruct Hi as (l & El & Hle). eapply lle_trans; [exact Hle|]. apply lle_not_lt. intros Hlt. apply Hl. by exists l.
  - destruct Hi as (h & Eh & Hle). eapply lle_trans; [|exact Hle]. apply lle_not_lt. intros Hlt. apply Hh. by exists h.
Qed.

Lemma event_live M A s e : sx_inv M A s → e ∈ A →
  type_of (tableau s) (ev_var e) = BASIC ∨ type_of (tableau s) (ev_var e) = NONBASIC.
Proof.
  intros I He. destruct (si_event _ _ _ I e He) as [HT _].
  pose proof (count_pos _ A e He eq_refl). pose proof (si_quasi _ _ _ I (ev_var e)) as Hq.
  destruct (type_of (tableau s) (ev_var e)); try done; [by left|by right|]. specialize (Hq eq_refl). lia.
Qed.

(** A settled state with all its bounds satisfied has a solution. *)
Lemma settled_solution M A s : settled A M A s → ∃ σ, solution (tableau s) σ ∧ holds (boundStore s) A σ
  ∧ ∀ v, type_of (tableau s) v ≠ QUASIBASIC → σ v = cur s v.
Proof.
  intros [I _ _ _ Hsat].
  destruct (solution_exists (tableau s) (cur s) (si_tab _ _ _ I) (si_active _ _ _ I)) as (σ & Hs & E).
  exists σ. split; [done|]. split; [|done]. intros e b He Hb.
  pose proof (event_live M A s e I He) as Hlive.
  destruct (events_implied _ A e b (si_events _ _ _ I) He Hb) as [Hv Hi].
  eapply bound_of_within; [exact Hi|done| |by apply Hsat]. apply E. destruct Hlive; congruence.
Qed.

Record check_result A0 M A s (e : Explanation N) s' : Prop := {
  cr_sat σ : solution (tableau s') σ ↔ solution (tableau s) σ;
  cr_store : boundStore s' = boundStore s;
  cr_none v : type_of (tableau s') v = NONE ↔ type_of (tableau s) v = NONE;
  cr_verdict : e = [] ∧ idle A M A s' ∨ settled A0 M A s' ∧ explains s' A e;
}.

Lemma check_keeps_inv lo hi M A s e s' : sx_inv M A s → check_post (dim s) lo hi s e s' → sx_inv M A s'.
Proof.
  intros I [C L Hb Hc Es _]. pose proof (co_n _ _ _ _ C) as En. fold (dim s') in En.
  pose proof (lk_model _ _ L) as Mo.
  constructor; rewrite ?En, ?(lk_store _ _ L), ?(lk_act _ _ L); try (by apply I); try (by apply C).
  - intros ev Hev. destruct (si_event _ _ _ I ev Hev) as [HT Hk]. split; [|done]. by rewrite (lk_none _ _ L).
  - intros v Hv. assert (v < dim s) as Hvn by (rewrite <- En; apply (ok_range _ _ _ (ti_ok _ (co_tab _ _ _ _ C))); congruence).
    destruct (co_act _ _ _ _ C v Hvn) as (k & Hk & _ & Hq). rewrite (lk_act _ _ L), (si_count _ _ _ I v Hvn) in Hk.
    injection Hk as ->. by apply Hq.
  - destruct (si_stacks _ _ _ I) as [S1 S2]. constructor; intros v Hv; [rewrite (sm_lb _ _ Mo) | rewrite (sm_ub _ _ Mo)]; auto.
  - rewrite (sm_trace _ _ Mo). apply I.
  - rewrite (sm_limits _ _ Mo). apply I.
  - unfold backed, bak. rewrite <- Es. apply C.
  - destruct (si_sizes _ _ _ I). constructor; rewrite En, ?(lk_act _ _ L); [..|rewrite (sm_has _ _ Mo)]; try done.
    + by rewrite (sm_lb _ _ Mo).
    + by rewrite (sm_ub _ _ Mo).
    + by rewrite (sm_len _ _ Mo).
Qed.

Lemma asserted_event M A s m br : sx_inv M A s → same_model (model s) m → asserted (dim s) m br →
  ∃ ev, ev ∈ A ∧ ev_bound ev = br.
Proof.
  intros I Mo (v & l & Hv & Hl & Hbr). destruct (si_stacks _ _ _ I) as [S1 S2].
  assert (br ∈ trace A) as (e & ? & _ & ?)%elem_of_trace; [|eauto].
  assert (br ∈ l) as Hin by (apply last_Some in Hbr as [l' ->]; set_solver).
  destruct Hl as [Hl|Hl].
  - rewrite (sm_lb _ _ Mo), (S1 v Hv) in Hl. injection Hl as <-. by apply list_elem_of_filter in Hin as [_ ?].
  - rewrite (sm_ub _ _ Mo), (S2 v Hv) in Hl. injection Hl as <-. by apply list_elem_of_filter in Hin as [_ ?].
Qed.

(** The check decides whether the rows and the asserted bounds are
    consistent. *)
Lemma checkSimplex_result E A0 M A s k : idle A0 M A s → dim s + 3 ^ dim s < 2 ^ k →
  wp E (λ r, check_result A0 M A s r.1 r.2) (checkSimplex k s).
Proof.
  intros Id Hk. pose proof (id_settled _ _ _ _ Id) as St. pose proof (st_inv _ _ _ _ St) as I.
  eapply wp_mono.
  { apply (checkSimplex_wp (dim s) (lo_of (ba (boundStore s)) A) (hi_of (ba (boundStore s)) A)
             (client_feasible M A s I) E s k); [by eapply idle_pending | apply I | done]. }
  intros [e s'] P. simpl in *. pose proof (check_keeps_inv _ _ M A s e s' I P) as I'.
  destruct P as [C L Hb Hc Es V]. constructor; [apply (lk_sat _ _ L)|apply (lk_store _ _ L)|apply (lk_none _ _ L)|].
  destruct V as [(He & Hcand & Hsat)|(Hf & Ha & Hl)].
  - left. split; [done|]. constructor; [|done|].
    + constructor; [done|exists []; by rewrite app_nil_r|done|done|]. rewrite (lk_store _ _ L). exact Hsat.
    + intros A1 EA. assert (A1 = []) as ->; [|done].
      apply (f_equal length) in EA. rewrite length_app in EA. destruct A1; simpl in EA; [done | lia].
  - right. split.
    + destruct St as [_ Hp Es0 Hc0 Hsat]. constructor; try done. intros v Hv. rewrite (lk_store _ _ L).
      assert (cur s' v = cur s v) as -> by (unfold cur; congruence). apply Hsat. by apply (lk_live _ _ L).
    + split; [done|]. intros t Ht. eapply asserted_event; [exact I|apply (lk_model _ _ L)|]. by apply Ha.
Qed.

End client.

(** * The simplex solver: asserting a bound

    [assertBoundOnVar] compares the new bound with the strongest ones of its
    variable by their places.  A bound that excludes the strongest one on the
    other side is refused with the pair as explanation; one that is implied is
    only counted; the others are pushed and wait in the buffer. *)

Section assert.
Context {N : Type} `{Number N}.
Implicit Types (s : Simplex N) (v : LVRef) (br : LABoundRef) (A : list event) (M : list nat)
  (a : list (LABound N)).

(** ** From quasi-basic to basic *)

Lemma Delta_addAssign_val (c d : Delta N) : dval (Delta_addAssign c d) = (dval c + dval d)%lex.
Proof. apply Delta_add_val. Qed.

(** The sum of a row, when the two assignments agree. *)
Lemma row_value_wp E (m : LRAModel N) p n : (∀ t, t ∈ p → var t < n) → n ≤ length (current_assignment m) →
  current_assignment m = last_consistent_assignment m →
  wp E (λ d, dval d = peval (valof (current_assignment m)) p)
    (foldM (λ acc term,
      let! x := read m (var term) in
      let! b := readBackupValue m (var term) in
      let! _ := check (Delta_eq x b) in
      Ok (Delta_addAssign acc (Delta_scale (coeff term) x))) Delta_default p).
Proof.
  intros Hp Hn Es.
  apply (foldM_wp E _ (λ pre _ d, dval d = peval (valof (current_assignment m)) pre)); [apply Delta_default_val|].
  intros pre t post d Ep Hd. assert (t ∈ p) as Ht by (rewrite Ep; set_solver). specialize (Hp t Ht).
  destruct (lookup_lt_is_Some_2 (current_assignment m) (var t)) as [x Hx]; [lia|].
  unfold read, readBackupValue, at_. rewrite <- Es, Hx. cbn [rbind].
  rewrite (proj2 (Delta_eq_val x x) eq_refl). cbn [check rbind wp].
  rewrite peval_app. simpl. rewrite Delta_addAssign_val, Delta_scale_val, Hd.
  unfold valof at 3. rewrite Hx. lex_ring.
Qed.

Lemma restore_wp E v d (m : LRAModel N) : vals_ok m → current_assignment m = last_consistent_assignment m →
  v < length (current_assignment m) →
  wp E (λ m', vals_ok m' ∧ same_model m m' ∧ changed_vars_vec m' = changed_vars_vec m
    ∧ current_assignment m' = <[v := d]> (current_assignment m)
    ∧ last_consistent_assignment m' = <[v := d]> (current_assignment m)) (restoreVarWithValue v d m).
Proof.
  intros [V1 V2 V3 V4 V5 V6] Es Hv. unfold restoreVarWithValue. apply wp_bind, upd_wp; [done|].
  apply wp_bind, upd_wp; [by rewrite <- Es|]. cbn [wp]. split; [|split].
  - constructor; simpl; rewrite ?length_insert; try done. intros u Hu. by rewrite <- Es.
  - constructor; simpl; try done. by rewrite length_insert.
  - simpl. by rewrite <- Es.
Qed.

(** The state after a quasi-basic variable has become basic. *)
Record basic_again v s s' : Prop := {
  ba_type u : type_of (tableau s') u = if decide (u = v) then BASIC else type_of (tableau s) u;
  ba_sat σ : solution (tableau s') σ ↔ solution (tableau s) σ;
  ba_store : boundStore s' = boundStore s;
  ba_act : boundsActivated s' = boundsActivated s;
  ba_cand : candidates s' = candidates s;
  ba_buffer : bufferOfActivatedBounds s' = bufferOfActivatedBounds s;
  ba_cur u : u ≠ v → cur s' u = cur s u;
}.

Lemma Simplex_quasiToBasic_wp E A0 M A v s : settled A0 M A s → type_of (tableau s) v = QUASIBASIC →
  wp E (λ s', settled A0 M A s' ∧ basic_again v s s') (Simplex_quasiToBasic v s).
Proof.
  intros [I Hp Es Ec Hsat] HT. unfold Simplex_quasiToBasic.
  apply wp_bind. eapply wp_mono; [apply (quasiToBasic_wp E v _ (si_tab _ _ _ I) HT)|].
  intros t (It & ET & ER & Hs & En). cbn zeta. simpl model. rewrite Ec. cbn [length Nat.eqb check rbind].
  assert (type_of t v = BASIC) as HTv by (rewrite ET; by rewrite decide_True).
  assert (is_Some (row_of t v)) as [p Hrow] by (apply (ok_row _ _ _ (ti_ok _ It)); by left).
  rewrite (getRowPoly_ok _ _ _ Hrow). cbn [rbind].
  assert (v < dim s) as Hv by (apply (client_range M A s I); congruence).
  assert (∀ u, u ∈ keys p → type_of t u = NONBASIC ∧ u ≠ v) as Hk.
  { intros u Hu. pose proof (ok_basic _ _ _ (ti_ok _ It) v p u HTv Hrow Hu). split; [done|]. congruence. }
  apply wp_bind. eapply wp_mono; [apply (row_value_wp E (model s) p (dim s)); [|apply I|done]|].
  { intros tm Htm. apply (client_range M A s I). assert (var tm ∈ keys p) as Hin by (apply elem_of_keys; eauto).
    destruct (Hk _ Hin) as [HTu Hne]. rewrite ET, decide_False in HTu by done. congruence. }
  intros d Hd. fold (cur s) in Hd.
  assert (v < length (current_assignment (model s))) as Hl by (pose proof (si_cur _ _ _ I); lia).
  apply wp_bind. eapply wp_mono; [apply (restore_wp E v d (model s) (si_vals _ _ _ I) Es Hl)|].
  intros m (V & Mo & Ec' & E1 & E2). cbn [wp]. set (s' := with_model m (with_tableau t s)).
  assert (∀ u, cur s' u = if decide (u = v) then dval d else cur s u) as Ecur.
  { intros u. unfold cur at 1. simpl. rewrite E1. by apply valof_insert. }
  assert (active t (cur s')) as Hact.
  { intros u q Hu Hq. assert (∀ w, w ∈ keys q → cur s' w = cur s w) as Hw.
    { intros w Hw. rewrite Ecur, decide_False; [done|]. intros ->.
      pose proof (ok_basic _ _ _ (ti_ok _ It) u q v Hu Hq Hw). congruence. }
    rewrite (peval_ext (cur s') (cur s) q Hw), Ecur. destruct (decide (u = v)) as [->|Hne].
    - assert (q = p) as -> by congruence. done.
    - rewrite ET, decide_False in Hu by done. rewrite ER in Hq by done. by apply (si_active _ _ _ I u q). }
  assert (dim s' = dim s) as Edim by (unfold dim; simpl; apply En).
  split; [constructor|].
  - pose proof I as [I1 I2 I3 I4 I5 I6 [S1 S2] I8 I9 I10 I11 I12 I13 I14 I15 I16].
    constructor; rewrite ?Edim; simpl; try done.
    + by rewrite (sm_len _ _ Mo).
    + intros e He. destruct (I5 e He) as [HTe Hke]. split; [|done]. rewrite ET. by destruct (decide _).
    + intros u. rewrite ET. destruct (decide (u = v)); [done|]. auto.
    + constructor; [rewrite (sm_lb _ _ Mo) | rewrite (sm_ub _ _ Mo)]; done.
    + by rewrite (sm_trace _ _ Mo).
    + by rewrite (sm_limits _ _ Mo).
    + unfold backed, bak. simpl. rewrite E2, <- E1. exact Hact.
    + destruct I16. constructor; simpl; rewrite ?Edim; [..|rewrite (sm_has _ _ Mo)]; try done.
      * by rewrite (sm_lb _ _ Mo).
      * by rewrite (sm_ub _ _ Mo).
      * by rewrite (sm_len _ _ Mo).
  - done.
  - simpl. congruence.
  - simpl. by rewrite Ec'.
  - intros u Hu. simpl. simpl in Hu. rewrite ET in Hu. rewrite Ecur. destruct (decide (u = v)) as [->|Hne]; [|by apply Hsat].
    destruct Hp as [A1 ->]. pose proof (si_quasi _ _ _ I v HT) as H0. rewrite count_app in H0.
    assert (lo_of (ba (boundStore s)) A0 v = None ∧ hi_of (ba (boundStore s)) A0 v = None) as [-> ->].
    { assert (∀ ty, strong (ba (boundStore s)) ty v (trace A0) = None) as Hno; [|split; apply Hno].
      intros ty. destruct (strong _ ty v (trace A0)) as [x|] eqn:Ex; [|done].
      destruct (strong_app _ ty v [] (trace A0) x Ex) as [|(br & b & Hin & Hb & _ & Hvb & _)]; [done|].
      apply elem_of_trace in Hin as (e & He & _ & <-).
      destruct (events_implied _ A0 e b (events_prefix _ _ _ (si_events _ _ _ I)) He Hb) as [Hve _].
      pose proof (count_pos v A0 e He ltac:(congruence)). lia. }
    split; by intros (? & [=] & _).
  - constructor; simpl; try done. intros u Hu. rewrite Ecur. by rewrite decide_False.
Qed.

(** ** Comparing with the strongest bounds *)

Lemma idx_lt_val st v l x y (bx bY : LABound N) : store_ok st → bounds st !! v = Some l → x ∈ l → y ∈ l →
  ba st !! x = Some bx → ba st !! y = Some bY →
  (idx_lt (bidx bx) (bidx bY) = true → (dval (delta bx) <= dval (delta bY))%lex
     ∧ (dval (delta bx) ≠ dval (delta bY) → (dval (delta bx) < dval (delta bY))%lex))
  ∧ (idx_lt (bidx bx) (bidx bY) = false → (dval (delta bY) <= dval (delta bx))%lex).
Proof.
  intros So Hl Hx Hy Ax Ay. pose proof (so_lists _ So v l Hl) as B.
  pose proof Hx as [i Hi]%list_elem_of_lookup_1. pose proof Hy as [j Hj]%list_elem_of_lookup_1.
  pose proof (bo_index _ _ _ B i x bx Hi Ax) as Ix. pose proof (bo_index _ _ _ B j y bY Hj Ay) as Iy.
  destruct (index_order st v l x y bx bY i j So Hl Hx Hy Ax Ay Ix Iy) as [O1 O2].
  destruct (index_order st v l y x bY bx j i So Hl Hy Hx Ay Ax Iy Ix) as [O3 O4].
  rewrite Ix, Iy. simpl. destruct (Nat.ltb_spec i j); split; try done.
  - intros _. split; [apply O1; lia | intros Hne; by apply O2].
  - intros _. apply O3. lia.
Qed.

Lemma known_alloc st v br : store_ok st → known st v br → ∃ b, ba st !! br = Some b ∧ lvref b = v.
Proof.
  intros So (l & Hl & Hin). apply (bo_alloc _ _ _ (so_lists _ So v l Hl) br Hin).
Qed.

Section compare.
Context (E : error → Prop) M A s (I : sx_inv M A s) v br b (Hv : v < dim s)
  (Hk : known (boundStore s) v br) (Hb : ba (boundStore s) !! br = Some b).

Let lo := lo_of (ba (boundStore s)) A.
Let hi := hi_of (ba (boundStore s)) A.

(** The strongest bound of the variable on a side, found in its stack. *)
Lemma stack_known ty l r : (int_lbounds (model s) !! v = Some l ∧ ty = bound_l ∨ int_ubounds (model s) !! v = Some l ∧ ty = bound_u) →
  list.last l = Some r → known (boundStore s) v r ∧ ∃ e, e ∈ A ∧ ev_bound e = r.
Proof.
  intros Hl Hr. assert (r ∈ l) as Hin by (apply last_Some in Hr as [l' ->]; set_solver).
  destruct (si_stacks _ _ _ I) as [S1 S2].
  assert (l = stack (ba (boundStore s)) ty v (trace A)) as ->.
  { destruct Hl as [[Hl ->]|[Hl ->]]; [rewrite S1 in Hl by done | rewrite S2 in Hl by done]; congruence. }
  apply list_elem_of_filter in Hin as [Hs (e & He & _ & <-)%elem_of_trace].
  apply side_iff in Hs as (c & Hc & _ & Hcv).
  destruct (events_implied _ A e c (si_events _ _ _ I) He Hc) as [Ev _].
  split; [|eauto]. destruct (si_event _ _ _ I e He) as [_ Hke]. congruence.
Qed.

Lemma same_list r c : known (boundStore s) v r → ba (boundStore s) !! r = Some c →
  (idx_lt (bidx c) (bidx b) = true → (dval (delta c) <= dval (delta b))%lex
     ∧ (dval (delta c) ≠ dval (delta b) → (dval (delta c) < dval (delta b))%lex))
  ∧ (idx_lt (bidx c) (bidx b) = false → (dval (delta b) <= dval (delta c))%lex)
  ∧ (idx_lt (bidx b) (bidx c) = true → (dval (delta b) <= dval (delta c))%lex
     ∧ (dval (delta b) ≠ dval (delta c) → (dval (delta b) < dval (delta c))%lex))
  ∧ (idx_lt (bidx b) (bidx c) = false → (dval (delta c) <= dval (delta b))%lex).
Proof.
  intros (l & Hl & Hr) Hc. destruct Hk as (l' & Hl' & Hbr). assert (l' = l) as -> by congruence.
  destruct (idx_lt_val _ v l r br c b (si_store _ _ _ I) Hl Hr Hbr Hc Hb) as [? ?].
  destruct (idx_lt_val _ v l br r b c (si_store _ _ _ I) Hl Hbr Hr Hb Hc) as [? ?]. done.
Qed.

Lemma Delta_neq_val (x y : Delta N) : Delta_neq x y = true ↔ dval x ≠ dval y.
Proof. unfold Delta_neq. rewrite negb_true_iff, <- not_true_iff_false, Delta_eq_val. done. Qed.

(** Excluded by the strongest bound on the other side? *)
Definition excluded : Prop :=
  match type b with
  | bound_l => ∃ h, hi v = Some h ∧ (h < dval (delta b))%lex
  | bound_u => ∃ l, lo v = Some l ∧ (dval (delta b) < l)%lex
  end.

Lemma boundTriviallyUnsatisfied_wp :
  wp E (λ r, r = true ↔ excluded) (boundTriviallyUnsatisfied (boundStore s) (model s) v br).
Proof.
  unfold boundTriviallyUnsatisfied, get_bound, at_. rewrite Hb. cbn [rbind]. unfold excluded.
  pose proof (client_env M A s I) as EV. destruct (type b).
  - eapply hasUBound_wp; [exact EV|done|]. fold hi. destruct (hi v) as [h|] eqn:Eh.
    + rewrite bool_decide_true by eauto. cbn [negb].
      eapply readUBound_wp; [exact EV|done|exact Eh|]. intros r c l Hl Hr Hc _ _ Hd. cbn [wp].
      destruct (stack_known bound_u l r) as [Hkr _]; [by right|done|].
      destruct (same_list r c Hkr Hc) as (H1 & H2 & _). rewrite andb_true_iff, Delta_neq_val, Hd in *.
      split.
      * intros [Hi Hne]. exists h. split; [done|]. by apply H1.
      * intros (h' & [= <-] & Hlt). split; [|intros Eq; rewrite Eq in Hlt; by apply llt_irrefl in Hlt].
        destruct (idx_lt _ _); [done|]. specialize (H2 eq_refl). exfalso.
        apply (llt_irrefl h). by eapply llt_le_trans.
    + simpl. naive_solver.
  - eapply hasLBound_wp; [exact EV|done|]. fold lo. destruct (lo v) as [h|] eqn:Eh.
    + rewrite bool_decide_true by eauto. cbn [negb].
      eapply readLBound_wp; [exact EV|done|exact Eh|]. intros r c l Hl Hr Hc _ _ Hd. cbn [wp].
      destruct (stack_known bound_l l r) as [Hkr _]; [by left|done|].
      destruct (same_list r c Hkr Hc) as (_ & _ & H1 & H2). rewrite andb_true_iff, Delta_neq_val, Hd in *.
      split.
      * intros [Hi Hne]. exists h. split; [done|]. by apply H1.
      * intros (h' & [= <-] & Hlt). split; [|intros Eq; rewrite Eq in Hlt; by apply llt_irrefl in Hlt].
        destruct (idx_lt _ _); [done|]. specialize (H2 eq_refl). exfalso.
        apply (llt_irrefl h). by eapply lle_lt_trans.
    + simpl. naive_solver.
Qed.

Lemma not_excluded_admissible :
  ¬ excluded → (match type b with
                | bound_l => ∀ l, lo v = Some l → (l <= dval (delta b))%lex
                | bound_u => ∀ h, hi v = Some h → (dval (delta b) <= h)%lex
                end) → lvref b = v → admissible (ba (boundStore s)) (trace A) b.
Proof.
  unfold excluded, admissible. intros Hn Hi ->. fold (lo_of (ba (boundStore s)) A v) (hi_of (ba (boundStore s)) A v).
  fold lo hi. destruct (type b); (split; [done|]); intros x Hx; apply lle_not_lt; intros Hlt; apply Hn; eauto.
Qed.

(** Implied by the strongest bound on its own side? *)
Lemma boundTriviallySatisfied_wp : lvref b = v →
  wp E (λ r, if (r : bool) then implied_bound lo hi b v
             else match type b with
                  | bound_l => ∀ l, lo v = Some l → (l <= dval (delta b))%lex
                  | bound_u => ∀ h, hi v = Some h → (dval (delta b) <= h)%lex
                  end) (boundTriviallySatisfied (boundStore s) (model s) v br).
Proof.
  intros Hbv. unfold boundTriviallySatisfied, get_bound, at_, implied_bound. rewrite Hb. cbn [rbind].
  pose proof (client_env M A s I) as EV. destruct (type b).
  - eapply hasLBound_wp; [exact EV|done|]. fold lo. destruct (lo v) as [h|] eqn:Eh; [|by intros ? [=]].
    rewrite bool_decide_true by eauto. cbn [negb].
    eapply readLBound_wp; [exact EV|done|exact Eh|]. intros r c l Hl Hr Hc _ _ Hd. cbn [wp].
    destruct (stack_known bound_l l r) as [Hkr _]; [by left|done|].
    destruct (same_list r c Hkr Hc) as (H1 & H2 & _). rewrite Hd in *. destruct (idx_lt _ _); cbn [negb].
    + intros ? [= <-]. by apply H1.
    + exists h. split; [done|]. by apply H2.
  - eapply hasUBound_wp; [exact EV|done|]. fold hi. destruct (hi v) as [h|] eqn:Eh; [|by intros ? [=]].
    rewrite bool_decide_true by eauto. cbn [negb].
    eapply readUBound_wp; [exact EV|done|exact Eh|]. intros r c l Hl Hr Hc _ _ Hd. cbn [wp].
    destruct (stack_known bound_u l r) as [Hkr _]; [by right|done|].
    destruct (same_list r c Hkr Hc) as (_ & _ & H1 & H2). rewrite Hd in *. destruct (idx_lt _ _); cbn [negb].
    + intros ? [= <-]. by apply H1.
    + exists h. split; [done|]. by apply H2.
Qed.

(** The two bounds that exclude each other are a refutation. *)
Lemma pair_farkas r c b0 e0 : ba (boundStore s) !! r = Some c → lvref c = v → lvref b = v →
  type c ≠ type b → (if decide (type b = bound_l) then dval (delta c) < dval (delta b) else dval (delta b) < dval (delta c))%lex →
  b0 = n_of_Z 1 → e0 = [MkExplTerm r b0; MkExplTerm br b0] → farkas (boundStore s) (tableau s) e0.
Proof.
  intros Hc Hcv Hbv Hne Hlt -> ->. constructor.
  - intros t [->|[->|?%not_elem_of_nil]%elem_of_cons]%elem_of_cons; simpl; rewrite ?n_one_val; eauto; done.
  - intros σ _. simpl. rewrite Hc, Hb, n_one_val. unfold signed, left_side. rewrite Hcv, Hbv.
    destruct (type c), (type b); try done; lex_ring.
  - simpl. rewrite Hc, Hb, n_one_val. unfold signed, right_side.
    destruct (type c), (type b); try done; simpl in Hlt; revert Hlt; lex_arith; intros Hlt; lex.
Qed.

End compare.

(** ** Pushing *)

(** Everything of the model but the stacks and the trace. *)
Record same_values (m m' : LRAModel N) : Prop := {
  sv_cur : current_assignment m' = current_assignment m;
  sv_last : last_consistent_assignment m' = last_consistent_assignment m;
  sv_set : changed_vars_set m' = changed_vars_set m;
  sv_vec : changed_vars_vec m' = changed_vars_vec m;
  sv_has : has_model m' = has_model m;
  sv_ll : length (int_lbounds m') = length (int_lbounds m);
  sv_lu : length (int_ubounds m') = length (int_ubounds m);
}.

Lemma same_values_ok m m' : same_values m m' → vals_ok m → vals_ok m'.
Proof. intros [E1 E2 E3 E4 _ _ _] []. constructor; rewrite ?E1, ?E2, ?E3, ?E4; done. Qed.

Lemma same_values_sizes s s' : same_values (model s) (model s') → dim s' = dim s →
  length (boundsActivated s') = length (boundsActivated s) → sizes s → sizes s'.
Proof. intros [E1 _ _ _ E2 E3 E4] Ed Ea []. constructor; rewrite ?E1, ?E2, ?E3, ?E4, ?Ed, ?Ea; done. Qed.

Lemma same_values_bounds m lb ub tr : length lb = length (int_lbounds m) → length ub = length (int_ubounds m) →
  same_values m (with_bounds m lb ub tr).
Proof. done. Qed.

Lemma pushBound_wp E (st : LABoundStore N) br b m n tr : stacks m (ba st) n tr → ba st !! br = Some b → lvref b < n →
  wp E (λ m', stacks m' (ba st) n (tr ++ [br]) ∧ same_values m m'
    ∧ bound_trace m' = bound_trace m ++ [br] ∧ bound_limits m' = bound_limits m) (pushBound st br m).
Proof.
  intros [S1 S2] Hb Hv. unfold pushBound, get_bound, at_. rewrite Hb. cbn [rbind].
  pose proof (S1 _ Hv) as Hl. pose proof (S2 _ Hv) as Hu.
  assert (∀ ty u, side (ba st) ty u br = true ↔ type b = ty ∧ lvref b = u) as Hs.
  { intros ty u. rewrite side_iff. naive_solver. }
  destruct (type b) eqn:Ht.
  - rewrite Hl. cbn [rbind]. apply wp_bind, upd_wp; [by eapply lookup_lt_Some|]. cbn [wp].
    split; [|split; [by apply same_values_bounds; rewrite ?length_insert|done]].
    constructor; simpl; intros u Hu'; rewrite stack_snoc.
    + destruct (decide (u = lvref b)) as [->|Hne].
      * rewrite list_lookup_insert_eq by (by eapply lookup_lt_Some). by rewrite (proj2 (Hs bound_l (lvref b))).
      * rewrite list_lookup_insert_ne by done. rewrite (not_true_eq _ _ (Hs bound_l u)) by naive_solver.
        rewrite app_nil_r. auto.
    + rewrite (not_true_eq _ _ (Hs bound_u u)) by naive_solver. rewrite app_nil_r. auto.
  - rewrite Hu. cbn [rbind]. apply wp_bind, upd_wp; [by eapply lookup_lt_Some|]. cbn [wp].
    split; [|split; [by apply same_values_bounds; rewrite ?length_insert|done]].
    constructor; simpl; intros u Hu'; rewrite stack_snoc.
    + rewrite (not_true_eq _ _ (Hs bound_l u)) by naive_solver. rewrite app_nil_r. auto.
    + destruct (decide (u = lvref b)) as [->|Hne].
      * rewrite list_lookup_insert_eq by (by eapply lookup_lt_Some). by rewrite (proj2 (Hs bound_u (lvref b))).
      * rewrite list_lookup_insert_ne by done. rewrite (not_true_eq _ _ (Hs bound_u u)) by naive_solver.
        rewrite app_nil_r. auto.
Qed.

Lemma limits_of_snoc A e M : (∀ x, x ∈ M → x ≤ length A) → limits_of (A ++ [e]) M = limits_of A M.
Proof.
  intros HM. unfold limits_of. f_equal. apply list_fmap_ext. intros i x Hx. apply list_elem_of_lookup_2 in Hx.
  by rewrite take_app_le by (by apply HM).
Qed.

Lemma lookup_count v (l : list nat) A e : l !! v = Some (count v A) → ev_var e = v →
  ∀ u c, l !! u = Some c → c = count u A → <[v := S (count v A)]> l !! u = Some (count u (A ++ [e])).
Proof.
  intros Hl <- u c Hu ->. rewrite count_app, count_one. destruct (decide (ev_var e = u)) as [->|Hne].
  - rewrite list_lookup_insert_eq by (by eapply lookup_lt_Some). f_equal. lia.
  - rewrite list_lookup_insert_ne by done. by rewrite Nat.add_0_r.
Qed.

(** One more event. *)
Lemma settled_add A0 M A s1 s2 e : settled A0 M A s1 → tableau s2 = tableau s1 → boundStore s2 = boundStore s1 →
  same_values (model s1) (model s2) → stacks (model s2) (ba (boundStore s1)) (dim s1) (trace (A ++ [e])) →
  bound_trace (model s2) = trace (A ++ [e]) → bound_limits (model s2) = bound_limits (model s1) →
  boundsActivated s2 = <[ev_var e := S (count (ev_var e) A)]> (boundsActivated s1) →
  type_of (tableau s1) (ev_var e) = BASIC ∨ type_of (tableau s1) (ev_var e) = NONBASIC →
  known (boundStore s1) (ev_var e) (ev_bound e) → events_ok (ba (boundStore s1)) (A ++ [e]) →
  settled A0 M (A ++ [e]) s2.
Proof.
  intros [I (A1 & EA) Es Ec Hsat] Et Est SV SK Etr Elim Eact HT Hk Hev.
  pose proof I as [I1 I2 I3 I4 I5 I6 I7 I8 I9 I10 I11 I12 I13 I14 I15 I16]. pose proof SV as [V1 V2 V3 V4 _ _ _].
  assert (dim s2 = dim s1) as Ed by (unfold dim; by rewrite Et).
  assert (∀ v, cur s2 v = cur s1 v) as Ecur by (intros v; unfold cur; by rewrite V1).
  constructor.
  - constructor; rewrite ?Ed, ?Et, ?Est, ?V1; try done.
    + intros v Hv. rewrite Eact. apply lookup_count with (count v A); auto.
      apply I3. apply (client_range M A s1 I). destruct HT; congruence.
    + intros x [Hx|Hx%list_elem_of_singleton]%elem_of_app; [by apply I5|]. subst x.
      split; [destruct HT; congruence|done].
    + intros v Hv. rewrite count_app, count_one. rewrite decide_False; [by rewrite (I6 v Hv)|].
      intros Eq. rewrite Eq in HT. destruct HT; congruence.
    + rewrite Elim, I10. symmetry. by apply limits_of_snoc.
    + intros x Hx. specialize (I12 x Hx). rewrite length_app. simpl. lia.
    + by apply (same_values_ok (model s1)).
    + by apply (active_ext _ (cur s1)).
    + unfold backed, bak. rewrite Et, V2. exact I15.
    + apply (same_values_sizes s1); [done|done| |done]. by rewrite Eact, length_insert.
  - exists (A1 ++ [e]). by rewrite EA, app_assoc.
  - by rewrite V1, V2.
  - by rewrite V4.
  - intros v. rewrite Et, Est, Ecur. apply Hsat.
Qed.

(** ** [assertBoundOnVar] *)

Lemma boundActivated_wp E A0 M A v s : settled A0 M A s → type_of (tableau s) v ≠ NONE →
  wp E (λ s', ∃ s1, settled A0 M A s1 ∧ (s1 = s ∨ basic_again v s s1)
    ∧ (type_of (tableau s1) v = BASIC ∨ type_of (tableau s1) v = NONBASIC)
    ∧ s' = with_activated (<[v := S (count v A)]> (boundsActivated s1)) s1) (boundActivated v s).
Proof.
  intros St HT. pose proof (st_inv _ _ _ _ St) as I.
  assert (v < dim s) as Hv by by apply (client_range M A s I).
  pose proof (si_count _ _ _ I v Hv) as Hc. unfold boundActivated, at_ at 1. rewrite Hc. cbn [rbind].
  assert (∀ s1, settled A0 M A s1 → boundsActivated s1 = boundsActivated s →
            (s1 = s ∨ basic_again v s s1) → (type_of (tableau s1) v = BASIC ∨ type_of (tableau s1) v = NONBASIC) →
            wp E (λ s', ∃ s1, settled A0 M A s1 ∧ (s1 = s ∨ basic_again v s s1)
              ∧ (type_of (tableau s1) v = BASIC ∨ type_of (tableau s1) v = NONBASIC)
              ∧ s' = with_activated (<[v := S (count v A)]> (boundsActivated s1)) s1)
            (let! n := at_ (boundsActivated s1) v in
             let! l := upd (boundsActivated s1) v (S n) in Ok (with_activated l s1))) as Hend.
  { intros s1 S1 Ea Hor HT1. unfold at_. rewrite Ea, Hc. cbn [rbind]. apply wp_bind, upd_wp; [by eapply lookup_lt_Some|].
    cbn [wp]. exists s1. rewrite Ea. done. }
  destruct (decide (type_of (tableau s) v = QUASIBASIC)) as [Hq|Hq].
  - rewrite (proj2 (isQuasiBasic_iff _ v) Hq), (proj2 (Nat.eqb_eq _ _) (si_quasi _ _ _ I v Hq)).
    cbn [negb orb check rbind].
    apply wp_bind. eapply wp_mono; [by apply (Simplex_quasiToBasic_wp E A0 M A)|]. intros s1 [S1 B].
    apply Hend; [done|apply B|by right|]. left. rewrite (ba_type _ _ _ B). by rewrite decide_True.
  - rewrite (not_true_eq _ _ (isQuasiBasic_iff _ v) Hq). cbn [negb orb check rbind].
    apply Hend; [done|done|by left|]. destruct (type_of (tableau s) v); try done; [by left | by right].
Qed.

(** What asserting a bound gives: one more event, or a refutation. *)
Definition assert_result A0 M A v br s (e : Explanation N) s' : Prop :=
  (e = [] ∧ boundStore s' = boundStore s ∧ (∀ σ, solution (tableau s') σ ↔ solution (tableau s) σ)
    ∧ (∀ u, type_of (tableau s') u = NONE ↔ type_of (tableau s) u = NONE)
    ∧ ∃ p, idle A0 M (A ++ [Ev v br p]) s')
  ∨ (e ≠ [] ∧ s' = s ∧ explains s (A ++ [Ev v br true]) e).

Lemma events_add a A v br b p : events_ok a A → a !! br = Some b → lvref b = v →
  (if (p : bool) then admissible a (trace A) b else implied_bound (lo_of a A) (hi_of a A) b v) →
  events_ok a (A ++ [Ev v br p]).
Proof. intros. by apply (events_snoc a A (Ev v br p) b). Qed.

Lemma entries_snoc A v br (p : bool) : entries (A ++ [Ev v br p]) = entries A ++ (if p then [(v, br)] else []).
Proof.
  unfold entries, pushed. rewrite filter_app, fmap_app, filter_cons. simpl.
  by destruct p; [rewrite decide_True | rewrite decide_False].
Qed.

Lemma assert_excluded E A0 M A v br b s : sx_inv M A s → v < dim s → known (boundStore s) v br →
  ba (boundStore s) !! br = Some b → lvref b = v → excluded A s v b →
  wp E (λ r, assert_result A0 M A v br s r.1 r.2)
    (let! r := (match type b with
                | bound_u => readLBoundRef (model s) v
                | bound_l => readUBoundRef (model s) v
                end) in
     Ok ([MkExplTerm r (n_of_Z 1); MkExplTerm br (n_of_Z 1)], s)).
Proof.
  intros I Hv Hk Hb Hbv Hx. pose proof (client_env M A s I) as EV. unfold excluded in Hx.
  assert (∀ ty l r c, (int_lbounds (model s) !! v = Some l ∧ ty = bound_l ∨ int_ubounds (model s) !! v = Some l ∧ ty = bound_u) →
            list.last l = Some r → ba (boundStore s) !! r = Some c → lvref c = v → type c = ty → type c ≠ type b →
            (if decide (type b = bound_l) then dval (delta c) < dval (delta b) else dval (delta b) < dval (delta c))%lex →
            assert_result A0 M A v br s [MkExplTerm r (n_of_Z 1); MkExplTerm br (n_of_Z 1)] s) as Hdone.
  { intros ty l r c Hl Hr Hc Hcv Hty Hne Hlt. right. split; [done|]. split; [done|]. split.
    - by eapply (pair_farkas s v br b Hb r c).
    - destruct (stack_known M A s I v br b Hv Hk Hb ty l r Hl Hr) as [_ (e & He & Er)].
      intros t [->|[->|?%not_elem_of_nil]%elem_of_cons]%elem_of_cons; [exists e; set_solver| |done].
      exists (Ev v br true). set_solver. }
  destruct (type b) eqn:Ht.
  - destruct Hx as (h & Hh & Hlt). eapply readUBoundRef_wp; [exact EV|done|exact Hh|].
    intros r c l Hl Hr Hc Hty Hcv Hd. cbn [wp fst snd].
    apply (Hdone bound_u l r c); [by right|done..|by rewrite Hty|]. simpl. by rewrite Hd.
  - destruct Hx as (h & Hh & Hlt). eapply readLBoundRef_wp; [exact EV|done|exact Hh|].
    intros r c l Hl Hr Hc Hty Hcv Hd. cbn [wp fst snd].
    apply (Hdone bound_l l r c); [by left|done..|by rewrite Hty|]. simpl. by rewrite Hd.
Qed.

Lemma assert_admitted E A0 M A v br b s s1 : idle A0 M A s → settled A0 M A s1 → v < dim s → type_of (tableau s) v ≠ NONE →
  known (boundStore s) v br → ba (boundStore s) !! br = Some b → lvref b = v → ¬ excluded A s v b →
  (s1 = s ∨ basic_again v s s1) →
  type_of (tableau s1) v = BASIC ∨ type_of (tableau s1) v = NONBASIC →
  let s' := with_activated (<[v := S (count v A)]> (boundsActivated s1)) s1 in
  wp E (λ r, assert_result A0 M A v br s r.1 r.2)
    (let! sat := boundTriviallySatisfied (boundStore s') (model s') v br in
     if sat then Ok ([], s')
     else
       let! m := pushBound (boundStore s') br (model s') in
       let s := with_model m s' in
       Ok ([], with_buffer (bufferOfActivatedBounds s ++ [(v, br)]) s)).
Proof.
  intros Id S1 Hv Hlive Hk Hb Hbv Hnx Hor HT s'. pose proof (st_inv _ _ _ _ S1) as I1.
  assert (boundStore s1 = boundStore s) as Est by (destruct Hor as [->|B]; [done|apply B]).
  assert (candidates s1 = [] ∧ bufferOfActivatedBounds s1 = bufferOfActivatedBounds s) as [Ecand Ebuf].
  { destruct Hor as [->|B]; [split; [apply Id|done]|]. rewrite (ba_cand _ _ _ B), (ba_buffer _ _ _ B).
    split; [apply Id | done]. }
  assert (∀ σ, solution (tableau s1) σ ↔ solution (tableau s) σ) as Hsat by (destruct Hor as [->|B]; [done|apply B]).
  assert (∀ u, type_of (tableau s1) u = NONE ↔ type_of (tableau s) u = NONE) as Hnone.
  { destruct Hor as [->|B]; [done|]. intros u. rewrite (ba_type _ _ _ B). destruct (decide (u = v)) as [->|]; [|done].
    split; [done|]. intros HN. destruct Hlive. done. }
  assert (v < dim s1) as Hv1 by (apply (client_range M A s1 I1); destruct HT; congruence).
  rewrite <- Est in Hk, Hb. simpl boundStore. simpl model.
  apply wp_bind. eapply wp_mono; [by apply (boundTriviallySatisfied_wp E M A s1 I1 v br b Hv1 Hk Hb)|].
  (* either way one event is added *)
  assert (∀ p s2, (if (p : bool) then admissible (ba (boundStore s1)) (trace A) b
                   else implied_bound (lo_of (ba (boundStore s1)) A) (hi_of (ba (boundStore s1)) A) b v) →
            tableau s2 = tableau s1 → boundStore s2 = boundStore s1 → same_values (model s1) (model s2) →
            stacks (model s2) (ba (boundStore s1)) (dim s1) (trace (A ++ [Ev v br p])) →
            bound_trace (model s2) = trace (A ++ [Ev v br p]) → bound_limits (model s2) = bound_limits (model s1) →
            boundsActivated s2 = <[v := S (count v A)]> (boundsActivated s1) → candidates s2 = [] →
            bufferOfActivatedBounds s2 = bufferOfActivatedBounds s ++ (if p then [(v, br)] else []) →
            assert_result A0 M A v br s [] s2) as Hdone.
  { intros p s2 Hp Et Es2 SV SK Etr El Ea Ec Eb. left. split; [done|]. split; [congruence|]. split; [by rewrite Et|].
    split; [by rewrite Et|]. exists p. constructor; [|done|].
    - eapply settled_add; try done. apply events_add with b; [apply I1|done..].
    - intros A1 EA. destruct (st_prefix _ _ _ _ S1) as [A2 EA2]. rewrite EA2 in EA at 1.
      rewrite <- app_assoc in EA. apply app_inv_head in EA as <-. rewrite entries_snoc, Eb.
      f_equal. by apply (id_buffer _ _ _ _ Id). }
  intros [|] Hi.
  - cbn [wp fst snd]. apply (Hdone false); try done.
    + rewrite trace_app. simpl. rewrite app_nil_r. apply I1.
    + rewrite trace_app. simpl. rewrite app_nil_r. apply I1.
    + by rewrite app_nil_r.
  - apply wp_bind. eapply wp_mono; [apply (pushBound_wp E _ br b _ _ _ (si_stacks _ _ _ I1) Hb); by rewrite Hbv|].
    intros m (SK & SV & Etr & El). cbn [wp fst snd]. apply (Hdone true); simpl; try done.
    + apply (not_excluded_admissible A s1 v b); [|done|done].
      unfold excluded. rewrite Est. exact Hnx.
    + by rewrite trace_app.
    + rewrite trace_app, Etr. f_equal. apply I1.
    + by rewrite Ebuf.
Qed.

Lemma assertBoundOnVar_wp E A0 M A v br s : idle A0 M A s → type_of (tableau s) v ≠ NONE →
  known (boundStore s) v br →
  wp E (λ r, assert_result A0 M A v br s r.1 r.2) (assertBoundOnVar v br s).
Proof.
  intros Id HT Hk. pose proof (id_settled _ _ _ _ Id) as St. pose proof (st_inv _ _ _ _ St) as I.
  assert (v < dim s) as Hv by by apply (client_range M A s I).
  destruct (known_alloc _ _ _ (si_store _ _ _ I) Hk) as (b & Hb & Hbv).
  unfold assertBoundOnVar, model_isUnbounded, isUnbounded, getBounds, at_ at 1.
  destruct Hk as (l & Hl & Hin) eqn:Ek. clear Ek. rewrite Hl. cbn [rbind].
  assert ((length l =? 0) = false) as -> by (destruct l; [by apply not_elem_of_nil in Hin | done]).
  assert (known (boundStore s) v br) as Hk' by by exists l. clear Hk.
  cbn [negb check rbind]. unfold get_bound, at_. rewrite Hb. cbn [rbind].
  rewrite (proj2 (Nat.eqb_eq _ _) Hbv). cbn [check rbind].
  apply wp_bind. eapply wp_mono; [by apply (boundTriviallyUnsatisfied_wp E M A s I v br b Hv Hk' Hb)|].
  intros [|] Hex.
  - apply (assert_excluded E A0 M A v br b s); [done..|]. by apply Hex.
  - assert (¬ excluded A s v b) as Hnx by (intros Hx%Hex; done).
    apply wp_bind. eapply wp_mono; [by apply (boundActivated_wp E A0 M A v s St HT)|].
    intros s1' (s1 & S1 & Hor & HT1 & ->). by apply (assert_admitted E A0 M A v br b s s1).
Qed.

End assert.

(** * The simplex solver: backtracking

    Taking back a backtracking point shortens the stacks to what they were
    when it was set; a basic variable that loses its last bound becomes
    quasi-basic.  The checks of [finalizeBacktracking] pass: the last
    consistent assignment satisfies the rows and the bounds that are left. *)

Section backtrack.
Context {N : Type} `{Number N}.
Implicit Types (s : Simplex N) (v : LVRef) (br : LABoundRef) (A : list event) (M : list nat)
  (m : LRAModel N) (tr : list LABoundRef).

(** ** Backtracking points *)

Lemma limits_of_push A M : limits_of A (M ++ [length A]) = limits_of A M ++ [length (trace A)].
Proof. unfold limits_of. rewrite fmap_app. simpl. by rewrite firstn_all. Qed.

Lemma Simplex_pushBacktrackPoint_ok A0 M A s : idle A0 M A s →
  idle A0 (M ++ [length A]) A (Simplex_pushBacktrackPoint s).
Proof.
  intros [[I Hp Es Ec Hsat] Hc Hb]. constructor; [|done|done]. constructor; try done.
  destruct I as [I1 I2 I3 I4 I5 I6 [S1 S2] I8 I9 I10 I11 I12 I13 I14 I15 I16].
  constructor; try done.
  - simpl. unfold push. rewrite limits_of_push, I10, I9. done.
  - intros i j x y Hij Hi Hj.
    apply lookup_snoc_Some in Hi as [[Hi' Hi]|[-> <-]], Hj as [[Hj' Hj]|[-> <-]].
    + by apply (I11 i j).
    + by apply I12; eapply list_elem_of_lookup_2.
    + lia.
    + done.
  - intros x [Hx|Hx%list_elem_of_singleton]%elem_of_app; [by apply I12 | by subst x].
  - destruct I13. by constructor.
  - destruct I16. by constructor.
Qed.

(** ** Popping bounds *)

Lemma side_one a br (b : LABound N) ty v : a !! br = Some b → side a ty v br = true ↔ type b = ty ∧ lvref b = v.
Proof. intros Hb. rewrite side_iff. naive_solver. Qed.

Lemma pop_snoc {B} (l : list B) x : pop (l ++ [x]) = Ok l.
Proof.
  unfold pop. destruct (l ++ [x]) eqn:E; [by destruct l|]. rewrite <- E, length_app. simpl.
  by rewrite Nat.add_sub, take_app_length.
Qed.

Lemma pop_bound_wp E (st : LABoundStore N) m n tr br b : stacks m (ba st) n (tr ++ [br]) → ba st !! br = Some b → lvref b < n →
  wp E (λ m', stacks m' (ba st) n tr ∧ same_values m m' ∧ bound_trace m' = bound_trace m
    ∧ bound_limits m' = bound_limits m) (pop_bound st m br).
Proof.
  intros [S1 S2] Hb Hv. unfold pop_bound, get_bound, at_. rewrite Hb. cbn [rbind].
  pose proof (S1 _ Hv) as Hl. pose proof (S2 _ Hv) as Hu.
  pose proof (λ ty u, side_one (ba st) br b ty u Hb) as Hs. rewrite stack_snoc in Hl, Hu.
  destruct (type b) eqn:Ht.
  - rewrite (proj2 (Hs bound_l (lvref b))) in Hl by done. rewrite Hl. cbn [rbind]. rewrite pop_snoc. cbn [rbind].
    apply wp_bind, upd_wp; [by eapply lookup_lt_Some|]. cbn [wp].
    split; [|split; [by apply same_values_bounds; rewrite ?length_insert|done]].
    constructor; simpl; intros u Hu'.
    + destruct (decide (u = lvref b)) as [->|Hne]; [rewrite list_lookup_insert_eq; [done|by eapply lookup_lt_Some]|].
      rewrite list_lookup_insert_ne by done. rewrite (S1 u Hu'), stack_snoc.
      rewrite (not_true_eq _ _ (Hs bound_l u)) by naive_solver. by rewrite app_nil_r.
    + rewrite (S2 u Hu'), stack_snoc. rewrite (not_true_eq _ _ (Hs bound_u u)) by naive_solver. by rewrite app_nil_r.
  - rewrite (proj2 (Hs bound_u (lvref b))) in Hu by done. rewrite Hu. cbn [rbind]. rewrite pop_snoc. cbn [rbind].
    apply wp_bind, upd_wp; [by eapply lookup_lt_Some|]. cbn [wp].
    split; [|split; [by apply same_values_bounds; rewrite ?length_insert|done]].
    constructor; simpl; intros u Hu'.
    + rewrite (S1 u Hu'), stack_snoc. rewrite (not_true_eq _ _ (Hs bound_l u)) by naive_solver. by rewrite app_nil_r.
    + destruct (decide (u = lvref b)) as [->|Hne]; [rewrite list_lookup_insert_eq; [done|by eapply lookup_lt_Some]|].
      rewrite list_lookup_insert_ne by done. rewrite (S2 u Hu'), stack_snoc.
      rewrite (not_true_eq _ _ (Hs bound_u u)) by naive_solver. by rewrite app_nil_r.
Qed.

Lemma same_values_trans m1 m2 m3 : same_values m1 m2 → same_values m2 m3 → same_values m1 m3.
Proof. intros [] []. constructor; congruence. Qed.

Lemma pop_bounds_wp E (st : LABoundStore N) n t2 : ∀ m t1, stacks m (ba st) n (t1 ++ t2) →
  (∀ br, br ∈ t2 → ∃ b, ba st !! br = Some b ∧ lvref b < n) →
  wp E (λ m', stacks m' (ba st) n t1 ∧ same_values m m' ∧ bound_trace m' = bound_trace m
    ∧ bound_limits m' = bound_limits m) (foldM (pop_bound st) m (reverse t2)).
Proof.
  induction t2 as [|br t2 IH] using rev_ind; intros m t1 Hs Hall.
  - rewrite app_nil_r in Hs. done.
  - rewrite reverse_snoc. simpl. destruct (Hall br) as (b & Hb & Hv); [set_solver|].
    rewrite app_assoc in Hs. apply wp_bind. eapply wp_mono; [by apply (pop_bound_wp E st m n (t1 ++ t2) br b)|].
    intros m1 (S1 & V1 & T1 & L1). eapply wp_mono; [apply IH; [exact S1|]|].
    { intros br' Hbr'. apply Hall. set_solver. }
    intros m2 (S2 & V2 & T2 & L2). split; [done|]. split; [by eapply same_values_trans|]. split; congruence.
Qed.

(** The model after the last backtracking point has been taken back. *)
Lemma popBacktrackPoint_wp E (st : LABoundStore N) m n t1 t2 lims : stacks m (ba st) n (t1 ++ t2) →
  bound_trace m = t1 ++ t2 → bound_limits m = lims ++ [length t1] →
  (∀ br, br ∈ t2 → ∃ b, ba st !! br = Some b ∧ lvref b < n) →
  wp E (λ m', stacks m' (ba st) n t1 ∧ same_values m m' ∧ bound_trace m' = t1 ∧ bound_limits m' = lims)
    (popBacktrackPoint st m).
Proof.
  intros Hs Ht Hl Hall. unfold popBacktrackPoint, popBounds, last_. rewrite Hl, last_snoc. cbn [rbind].
  rewrite Ht, drop_app_length. apply wp_bind, wp_bind.
  eapply wp_mono; [by apply pop_bounds_wp|]. intros m1 (S1 & V1 & T1 & L1). rewrite T1, Ht.
  unfold shrink. rewrite (proj2 (Nat.leb_le _ _)) by lia. cbn [rbind wp].
  rewrite length_app. replace (length t1 + length t2 - (length t1 + length t2 - length t1)) with (length t1) by lia.
  rewrite take_app_length. simpl bound_limits. rewrite L1, Hl, pop_snoc. cbn [rbind wp].
  split; [|split; [|done]].
  - destruct S1. by constructor.
  - destruct V1. by constructor.
Qed.

(** ** Taking back a level *)

(** A settled state while levels are taken back: [A0] may be longer than what
    is left. *)
Record resting A0 M A s : Prop := {
  re_inv : sx_inv M A s;
  re_same : current_assignment (model s) = last_consistent_assignment (model s);
  re_changed : changed_vars_vec (model s) = [];
  re_sat v : type_of (tableau s) v = BASIC ∨ type_of (tableau s) v = NONBASIC →
    within (lo_of (ba (boundStore s)) A0 v) (hi_of (ba (boundStore s)) A0 v) (cur s v);
}.

Lemma settled_resting A0 M A s : settled A0 M A s → resting A0 M A s.
Proof. by intros [? ? ? ? ?]. Qed.

Lemma limits_of_prefix A B M : (∀ x, x ∈ M → x ≤ length A) → limits_of (A ++ B) M = limits_of A M.
Proof.
  intros HM. unfold limits_of. f_equal. apply list_fmap_ext. intros i x Hx. apply list_elem_of_lookup_2 in Hx.
  by rewrite take_app_le by (by apply HM).
Qed.

Lemma limits_of_pop A B M : (∀ x, x ∈ M → x ≤ length A) →
  limits_of (A ++ B) (M ++ [length A]) = limits_of A M ++ [length (trace A)].
Proof.
  intros HM. rewrite <- (limits_of_prefix A B M HM). unfold limits_of. rewrite fmap_app. simpl.
  by rewrite take_app_length.
Qed.

Lemma marks_below M k : (∀ i j x y, i ≤ j → (M ++ [k]) !! i = Some x → (M ++ [k]) !! j = Some y → x ≤ y) →
  ∀ x, x ∈ M → x ≤ k.
Proof.
  intros Hm x Hx. apply list_elem_of_lookup_1 in Hx as [i Hi]. pose proof (lookup_lt_Some _ _ _ Hi).
  apply (Hm i (length M)); [lia|by apply lookup_app_l_Some|]. by rewrite lookup_app_r, Nat.sub_diag by lia.
Qed.

(** The state with the bounds of the level popped and other counts and types. *)
Lemma resting_pop A0 M A B s m t a : resting A0 (M ++ [length A]) (A ++ B) s →
  stacks m (ba (boundStore s)) (dim s) (trace A) → same_values (model s) m → bound_trace m = trace A →
  bound_limits m = limits_of A M →
  tab_inv t → length (varTypes t) = dim s → active t (cur s) → active t (bak s) →
  (∀ v, type_of t v = NONE ↔ type_of (tableau s) v = NONE) →
  (∀ v, type_of t v = BASIC ∨ type_of t v = NONBASIC → type_of (tableau s) v = BASIC ∨ type_of (tableau s) v = NONBASIC) →
  (∀ v, type_of t v = QUASIBASIC → count v A = 0) → (∀ v, v < dim s → a !! v = Some (count v A)) →
  length a = length (boundsActivated s) →
  resting A0 M A (with_tableau t (with_activated a (with_model m s))).
Proof.
  intros [I Es Ec Hsat] SK SV Et El It Ed Hc Hb HN HL HQ Ha Hla.
  destruct I as [I1 I2 I3 I4 I5 I6 I7 I8 I9 I10 I11 I12 I13 I14 I15 I16]. pose proof SV as [V1 V2 V3 V4 _ _ _].
  set (s' := with_tableau t _). assert (dim s' = dim s) as Edim by done.
  constructor; simpl; [|congruence|congruence|].
  - constructor; rewrite ?Edim; simpl; rewrite ?V1; try done.
    + intros e He. destruct (I5 e ltac:(set_solver)) as [HT Hk]. split; [|done]. by rewrite HN.
    + by eapply events_prefix.
    + intros i j x y Hij Hi Hj. apply (I11 i j); [done|by apply lookup_app_l_Some..].
    + by apply marks_below.
    + by apply (same_values_ok (model s)).
    + apply (active_ext _ (cur s)); [done| |done]. intros v _. unfold cur. simpl. by rewrite V1.
    + unfold backed, bak. simpl. rewrite V2. exact Hb.
    + apply (same_values_sizes s); done.
  - intros v Hv. unfold cur. simpl. rewrite V1. apply Hsat. by apply HL.
Qed.

Lemma pop_level_wp E A0 M A B s : resting A0 (M ++ [length A]) (A ++ B) s → B = [] ∨ (∃ e, B = [e]) →
  wp E (λ s', resting A0 M A s' ∧ boundStore s' = boundStore s
    ∧ (∀ σ, solution (tableau s') σ ↔ solution (tableau s) σ)
    ∧ ∀ u, type_of (tableau s') u = NONE ↔ type_of (tableau s) u = NONE)
    (let! s1 := Simplex_popBacktrackPoint s in
     match B with e :: _ => boundDeactivated (ev_var e) s1 | [] => Ok s1 end).
Proof.
  intros Re HB. pose proof (re_inv _ _ _ _ Re) as I.
  pose proof (marks_below _ _ (si_marks _ _ _ I)) as HM.
  pose proof (si_stacks _ _ _ I) as SK. rewrite trace_app in SK. unfold Simplex_popBacktrackPoint.
  apply wp_bind, wp_bind.
  eapply wp_mono; [apply (popBacktrackPoint_wp E _ _ _ _ _ (limits_of A M) SK)|].
  { rewrite <- trace_app. apply I. }
  { rewrite (si_limits _ _ _ I). by apply limits_of_pop. }
  { intros br (e & He & _ & <-)%elem_of_trace. destruct (si_event _ _ _ I e ltac:(set_solver)) as [HT Hk].
    destruct (known_alloc _ _ _ (si_store _ _ _ I) Hk) as (b & Hb & Hv). exists b. split; [done|].
    rewrite Hv. by apply (client_range _ _ _ I). }
  intros m (SK' & SV & Et & El). cbn [wp].
  pose proof (λ t a, resting_pop A0 M A B s m t a Re SK' SV Et El) as Hend.
  destruct HB as [->|[e ->]].
  { cbn [wp]. split; [|done]. apply (Hend (tableau s) (boundsActivated s)); try done; try apply I.
    - intros v Hv. apply (si_quasi _ _ _ I) in Hv. rewrite app_nil_r in Hv. done.
    - intros v Hv. rewrite (si_count _ _ _ I v Hv). by rewrite app_nil_r. }
  destruct (si_event _ _ _ I e ltac:(set_solver)) as [HT _]. set (v := ev_var e) in *.
  assert (v < dim s) as Hv by by apply (client_range _ _ _ I).
  pose proof (si_count _ _ _ I v Hv) as Hcv. rewrite count_app, count_one, decide_True, Nat.add_1_r in Hcv by done.
  assert (∀ u, u < dim s → <[v := count v A]> (boundsActivated s) !! u = Some (count u A)) as Hact.
  { intros u Hu. destruct (decide (u = v)) as [->|Hne].
    - apply list_lookup_insert_eq. by eapply lookup_lt_Some.
    - rewrite list_lookup_insert_ne by done. rewrite (si_count _ _ _ I u Hu), count_app, count_one.
      rewrite decide_False by done. by rewrite Nat.add_0_r. }
  assert (∀ u, type_of (tableau s) u = QUASIBASIC → count u A = 0) as Hq.
  { intros u Hu. apply (si_quasi _ _ _ I) in Hu. rewrite count_app in Hu. lia. }
  unfold boundDeactivated, at_. simpl boundsActivated at 1. rewrite Hcv. cbn [rbind Nat.ltb Nat.leb check].
  rewrite Nat.sub_succ, Nat.sub_0_r. apply wp_bind, upd_wp; [by eapply lookup_lt_Some|].
  set (s1 := with_activated _ _). unfold getNumOfBoundsActive, at_.
  assert (boundsActivated s1 !! v = Some (count v A)) as Hc1 by by apply Hact.
  rewrite (proj2 (Nat.ltb_lt _ _) (lookup_lt_Some _ _ _ Hc1)). cbn [check rbind]. rewrite Hc1. cbn [rbind].
  destruct (_ && _) eqn:Eq.
  - apply andb_true_iff in Eq as [Ec%Nat.eqb_eq Eb%isBasic_iff]. simpl tableau in Eb |- *.
    apply wp_bind. eapply wp_mono; [apply (basicToQuasi_wp E v _ (si_tab _ _ _ I) Eb)|].
    intros t (It & ET & ER & Ed). cbn [wp].
    assert (∀ β, active (tableau s) β → active t β) as Hsub.
    { intros β Hβ u p Hu Hp. rewrite ET in Hu. rewrite ER in Hp. destruct (decide (u = v)); [done|]. by apply Hβ. }
    split; [|split; [done|]].
    + apply (Hend t (<[v:=count v A]> (boundsActivated s))); try done.
      * apply Hsub, I.
      * apply Hsub, I.
      * intros u. rewrite ET. destruct (decide (u = v)) as [->|]; [|done]. rewrite Eb. done.
      * intros u. rewrite ET. destruct (decide (u = v)) as [->|]; [|done]. by left.
      * intros u. rewrite ET. destruct (decide (u = v)) as [->|]; [done | apply Hq].
      * by rewrite length_insert.
    + split; [intros σ; unfold solution; apply sat_ext; intros u; by rewrite ER|].
      intros u. rewrite ET. destruct (decide (u = v)) as [->|]; [|done]. by split; [|intros HN].
  - cbn [wp]. split; [|done]. apply (Hend (tableau s) (<[v:=count v A]> (boundsActivated s))); try done; try apply I.
    exact (length_insert _ _ _).
Qed.

(** ** [finalizeBacktracking] *)

Lemma foldM_unit_wp {B} E (f : B → res unit) l : (∀ x, x ∈ l → f x = Ok tt) → wp E (λ _, True) (foldM (λ _ x, f x) tt l).
Proof.
  intros Hl. apply (foldM_wp E _ (λ _ _ _, True)); [done|]. intros pre x post u El _.
  rewrite Hl; [done|]. rewrite El. set_solver.
Qed.

Lemma valueConsistent_wp E M A s v : sx_inv M A s → type_of (tableau s) v = BASIC →
  wp E (λ b, b = true) (valueConsistent s v).
Proof.
  intros I HT. pose proof (si_tab _ _ _ I) as [_ O _].
  assert (is_Some (row_of (tableau s) v)) as [p Hp] by (apply (ok_row _ _ _ O); by left).
  pose proof (client_env M A s I) as EV.
  assert (v < dim s) as Hv by (apply (client_range M A s I); congruence).
  unfold valueConsistent. eapply read_wp; [exact EV|done|]. intros d Hd _. rewrite (getRowPoly_ok _ _ _ Hp). cbn [rbind].
  apply wp_bind. eapply wp_mono; [apply (foldM_wp E _ (λ pre _ x, dval x = peval (cur s) pre))|].
  - rewrite Delta_Real_val, n_zero_val. done.
  - intros pre tm post x Ep Hx.
    assert (var tm ∈ keys p) as Hin by (rewrite Ep, keys_app, keys_cons; set_solver).
    assert (var tm < dim s) as Hvt.
    { apply (client_range M A s I). rewrite (ok_basic _ _ _ O v p (var tm) HT Hp Hin). done. }
    eapply read_wp; [exact EV|done|]. intros y Hy _. cbn [wp].
    rewrite Delta_addAssign_val, Delta_scale_val, Hx, Hy, peval_app. simpl. fold (cur s (var tm)). lex_ring.
  - intros x Hx. assert (Delta_eq d x = true) as ->; [|done].
    apply Delta_eq_val. rewrite Hd, Hx. fold (cur s v). by apply (si_active _ _ _ I).
Qed.

Lemma checkValueConsistency_wp E M A s : sx_inv M A s → wp E (λ b, b = true) (checkValueConsistency s).
Proof.
  intros I. pose proof (si_tab _ _ _ I) as [V O _]. unfold checkValueConsistency. apply wp_bind.
  eapply wp_mono; [apply (foldM_wp E _ (λ _ _ b, b = true)); [done|]|].
  - intros pre i post b El ->. assert (i ∈ seq 0 (length (rows (tableau s)))) as Hi by (rewrite El; set_solver).
    apply elem_of_seq in Hi as [_ Hi]. destruct (lookup_lt_is_Some_2 (rows (tableau s)) i) as [o Ho]; [lia|].
    unfold at_. rewrite Ho. cbn [rbind]. destruct o as [p|]; [|done].
    assert (row_of (tableau s) i = Some p) as Hp by (unfold row_of; by rewrite Ho).
    assert (type_of (tableau s) i = BASIC ∨ type_of (tableau s) i = QUASIBASIC) as HT by (apply (ok_row _ _ _ O); eauto).
    rewrite (not_true_eq _ _ (isNonBasic_iff _ i)) by (destruct HT; congruence). cbn [negb check rbind].
    destruct HT as [HT|HT].
    + rewrite (proj2 (isBasic_iff _ i) HT). apply wp_bind. eapply wp_mono; [by eapply valueConsistent_wp|].
      by intros b ->.
    + rewrite (not_true_eq _ _ (isBasic_iff _ i)) by congruence. done.
  - intros b ->. done.
Qed.

Lemma invariantHolds_wp E M A s : sx_inv M A s →
  (∀ v, v < dim s → within (lo_of (ba (boundStore s)) A v) (hi_of (ba (boundStore s)) A v) (cur s v)) →
  wp E (λ b, b = true) (invariantHolds s).
Proof.
  intros I Hin. unfold invariantHolds. apply wp_bind. eapply wp_mono.
  { apply (foldM_unit_wp E (λ v, let! b := isModelOutOfBounds s v in check (negb b))). intros v Hv.
    assert (v < dim s) as Hvn.
    { unfold getNonBasicVars in Hv. apply elem_of_app in Hv as [Hv|Hv].
      - apply elem_of_replicate in Hv as [-> Hn]. unfold dim. lia.
      - apply list_elem_of_filter in Hv as [_ Hv]. apply elem_of_seq in Hv. unfold dim. lia. }
    pose proof (isModelOutOfBounds_wp no_error s _ _ _ (client_env M A s I) v Hvn) as W.
    apply wp_total in W as (b & -> & Hb). cbn [rbind]. destruct b; [|done]. exfalso. apply Hb; auto. }
  done.
Qed.

(** The values fit what is left, and nothing is pending. *)
Lemma finalizeBacktracking_wp E A0 M A s : resting A0 M A s → (∃ C, A0 = A ++ C) →
  events_ok (ba (boundStore s)) A0 →
  wp E (λ s', idle A M A s' ∧ boundStore s' = boundStore s ∧ tableau s' = tableau s) (finalizeBacktracking s).
Proof.
  intros [I Es Ec Hsat] [C EA] Hev. unfold finalizeBacktracking. rewrite Ec. cbn [length Nat.eqb check rbind].
  set (s' := with_buffer [] (with_candidates [] s)).
  assert (sx_inv M A s') as I'.
  { destruct I as [? ? ? ? ? ? ? ? ? ? ? ? ? ? ? [? ? ? ? ?]]. constructor; done. }
  assert (∀ v, v < dim s' → within (lo_of (ba (boundStore s')) A v) (hi_of (ba (boundStore s')) A v) (cur s' v)) as Hin.
  { intros v Hv. destruct (decide (type_of (tableau s) v = BASIC ∨ type_of (tableau s) v = NONBASIC)) as [Hl|Hl].
    - apply (within_prefix _ (trace A) (trace C)); rewrite <- trace_app, <- EA; [by apply events_chain | by apply Hsat].
    - destruct (count_unbounded M A s' I' v) as [-> ->]; [|split; by intros (? & [=] & _)].
      destruct (count v A) as [|k] eqn:Ek; [done|]. exfalso. apply Hl.
      assert (∃ e, e ∈ A ∧ ev_var e = v) as (e & He & <-).
      { unfold count in Ek. destruct (filter (λ e, ev_var e = v) A) as [|e l] eqn:Ef; [done|]. exists e.
        assert (e ∈ filter (λ e, ev_var e = v) A) as [? ?]%list_elem_of_filter by (rewrite Ef; by left). done. }
      by apply (event_live M A s). }
  apply wp_bind. eapply wp_mono; [by eapply checkValueConsistency_wp|]. intros b ->. cbn [check rbind].
  apply wp_bind. eapply wp_mono; [by eapply invariantHolds_wp|]. intros b ->. cbn [check rbind wp].
  split; [|done]. constructor; [|done|].
  - constructor; [done|exists []; by rewrite app_nil_r|done|done|]. intros v Hv. apply Hin.
    apply (client_range M A s' I'). destruct Hv; congruence.
  - intros A1 EA1. assert (A1 = []) as ->; [|done].
    apply (f_equal length) in EA1. rewrite length_app in EA1. destruct A1; simpl in EA1; [done | lia].
Qed.

End backtrack.
