(* ===== verification/SimplexSession.v ===== *)
(** * The simplex solver: new variables, rows and bounds

    Variables, rows and bounds may be added at any time between two checks:
    a new variable starts at zero without bounds, a new row is quasi-basic,
    and inserting bounds only moves the places of the others.
    The file starts with the declarations of a session and the choice of
    rationals for delta-rationals; its last part is the relation of reachable
    states with its invariant. *)
From stdpp Require Import gmap.
From S2P Require Import Prelude Gmp FastRationalInt Number Lex Delta NatSet Polynomial Tableau TableauFacts LABounds LABuild LRAModel Simplex.
From S2P Require Import SimplexFacts SimplexSelect SimplexLoop SimplexClient.
From Stdlib Require Import Lia Lqa.

#[local] Open Scope nat_scope.

Section declare.
Context {N : Type} `{Number N}.
Implicit Types (s : Simplex N) (u v : LVRef) (br : LABoundRef) (A : list event) (M : list nat)
  (m : LRAModel N) (p : poly_t N).

Lemma valof_grow (l : list (Delta N)) v u : valof (grow l v Delta_default) u = valof l u.
Proof.
  unfold valof. rewrite grow_lookup. destruct (l !! u); [done|].
  destruct (decide (u ≤ v)); [apply Delta_default_val | done].
Qed.

(** The model with [addVar], the vectors having the same length. *)
Record extended v m m' : Prop := {
  xt_lb : int_lbounds m' = grow (int_lbounds m) v [];
  xt_ub : int_ubounds m' = grow (int_ubounds m) v [];
  xt_cur : current_assignment m' = grow (current_assignment m) v Delta_default;
  xt_last : last_consistent_assignment m' = grow (last_consistent_assignment m) v Delta_default;
  xt_vals : vals_ok m';
  xt_vec : changed_vars_vec m' = changed_vars_vec m;
  xt_trace : bound_trace m' = bound_trace m;
  xt_limits : bound_limits m' = bound_limits m;
  xt_has u : is_Some (has_model m' !! u) → u = v ∨ is_Some (has_model m !! u);
}.

Lemma grow_id {B} (l : list B) v d : v < length l → grow l v d = l.
Proof. intros Hv. unfold grow. destruct (Nat.leb_spec (length l) v); [lia | done]. Qed.

Lemma addVar_ok v m n : vals_ok m → length (int_lbounds m) = n → length (int_ubounds m) = n →
  length (current_assignment m) = n → (is_Some (has_model m !! v) → v < n) → extended v m (addVar v m).
Proof.
  intros V El Eu Ec Hv. pose proof (vo_len _ V) as Ell. unfold addVar. destruct (has_model m !! v) as [b|] eqn:Eh.
  - specialize (Hv ltac:(eauto)). constructor; rewrite ?grow_id by lia; try done. by right.
  - destruct V as [V1 V2 V3 V4 V5 V6].
    assert ((if length (current_assignment m) <=? v
             then last_consistent_assignment m ++ replicate (S v - length (current_assignment m)) Delta_default
             else last_consistent_assignment m) = grow (last_consistent_assignment m) v Delta_default) as Elast.
    { unfold grow. by rewrite Ell. }
    constructor; simpl; rewrite ?Elast; try done.
    + destruct (nat_set.assure_domain_inv v _ V2) as (D1 & D2 & D3).
      constructor; simpl; rewrite ?Elast, ?grow_length; try done.
      * by rewrite V1.
      * by destruct (_ <=? _).
      * destruct (Nat.leb_spec (length (current_assignment m)) v); [|lia].
        unfold nat_set.assure_domain in *. lia.
      * intros u. destruct (_ <=? _); [rewrite D3|]; apply V4.
      * intros u Hu. specialize (V5 u Hu). lia.
      * intros u Hu. rewrite !grow_lookup, (V6 u Hu). done.
    + intros u. destruct (decide (u = v)) as [->|Hne]; [by left|]. rewrite lookup_insert_ne by done. by right.
Qed.

(** A variable without events has no bounds. *)
Lemma no_events a A v : events_ok a A → (∀ e, e ∈ A → ev_var e ≠ v) →
  count v A = 0 ∧ (∀ ty, stack a ty v (trace A) = []) ∧ ∀ ty, strong a ty v (trace A) = None.
Proof.
  intros Hok Hno.
  assert (∀ ty, stack a ty v (trace A) = []) as Hst.
  { intros ty. apply filter_none. intros br (e & He & _ & <-)%elem_of_trace (b & Hb & _ & Hv)%side_iff.
    destruct (events_implied a A e b Hok He Hb) as [Hve _]. apply (Hno e He). congruence. }
  split; [|split; [done|]].
  - unfold count. rewrite filter_none; [done|]. intros e He. by apply Hno.
  - intros ty. unfold strong. by rewrite Hst.
Qed.

Lemma store_ok_grow (st : LABoundStore N) v : store_ok st → store_ok (ensureReadyFor v st).
Proof.
  intros [So]. constructor. intros u l. simpl. rewrite grow_lookup.
  destruct (bounds st !! u) eqn:E; [intros [= <-]; by apply So|].
  destruct (decide _); [|done]. intros [= <-]. constructor.
  - by intros ? ?%not_elem_of_nil.
  - by intros i j x y _ Hi.
  - by intros i x b Hi.
Qed.

Lemma known_grow (st : LABoundStore N) v u br : known st u br → known (ensureReadyFor v st) u br.
Proof. intros (l & Hl & Hin). exists l. simpl. by rewrite grow_lookup, Hl. Qed.

(** A new variable, with the tableau that knows it. *)
Lemma idle_newVar A0 M A s v t : idle A0 M A s → tab_inv t → length (varTypes t) = Nat.max (dim s) (S v) →
  (∀ u, type_of (tableau s) u ≠ NONE → type_of t u = type_of (tableau s) u) →
  (∀ u, type_of t u ≠ NONE → u = v ∨ type_of (tableau s) u ≠ NONE) →
  active t (cur s) → active t (bak s) → idle A0 M A (with_tableau t (newVar v s)).
Proof.
  intros [[I Hp Es Ec Hsat] Hcand Hbuf] It Ed HT HN Hc Hb.
  pose proof I as [I1 I2 I3 I4 I5 I6 [S1 S2] I8 I9 I10 I11 I12 I13 I14 I15 [Z1 Z2 Z3 Z4 Z5]].
  pose proof (addVar_ok v (model s) (dim s) I13 Z1 Z2 Z3 (Z5 v)) as [X1 X2 X3 X4 X5 X6 X7 X8 X9].
  set (s' := with_tableau t (newVar v s)). set (m := addVar v (model s)) in *.
  assert (dim s' = Nat.max (dim s) (S v)) as Ed' by done.
  assert (∀ u, cur s' u = cur s u) as Ecur by (intros u; unfold cur; simpl; fold m; rewrite X3; apply valof_grow).
  assert (∀ u, bak s' u = bak s u) as Ebak by (intros u; unfold bak; simpl; fold m; rewrite X4; apply valof_grow).
  assert (∀ u e, u ≥ dim s ∨ type_of (tableau s) u = NONE → e ∈ A → ev_var e ≠ u) as Hfresh.
  { intros u e Hu He <-. destruct (I5 e He) as [HTe _]. destruct Hu as [Hu|]; [|done].
    pose proof (client_range M A s I _ HTe). lia. }
  assert (sx_inv M A s') as I'.
  { constructor; rewrite ?Ed'; simpl; fold m; try done.
    - rewrite X3, grow_length. lia.
    - intros u Hu. rewrite grow_lookup. destruct (boundsActivated s !! u) eqn:Eu.
      + rewrite <- Eu. apply I3. rewrite <- Z4. by eapply lookup_lt_Some.
      + apply lookup_ge_None in Eu. rewrite decide_True by lia. f_equal. symmetry.
        apply (no_events _ A u I8). intros e. apply Hfresh. left. lia.
    - by apply store_ok_grow.
    - intros e He. destruct (I5 e He) as [HTe Hk]. split; [by rewrite HT | by apply known_grow].
    - intros u Hu. destruct (decide (type_of (tableau s) u = NONE)) as [HN'|HN'].
      + apply (no_events _ A u I8). intros e. apply Hfresh. by right.
      + rewrite HT in Hu by done. by apply I6.
    - assert (∀ u ty, u ≥ dim s → stack (ba (boundStore s)) ty u (trace A) = []) as Hnil.
      { intros u ty Hu. apply (no_events _ A u I8). intros e. apply Hfresh. by left. }
      constructor; intros u Hu; rewrite ?X1, ?X2, grow_lookup.
      + destruct (decide (u < dim s)); [by rewrite S1|].
        rewrite (proj2 (lookup_ge_None _ _)) by lia. rewrite decide_True by lia. by rewrite Hnil by lia.
      + destruct (decide (u < dim s)); [by rewrite S2|].
        rewrite (proj2 (lookup_ge_None _ _)) by lia. rewrite decide_True by lia. by rewrite Hnil by lia.
    - congruence.
    - congruence.
    - apply (active_ext _ (cur s)); [done| |done]. intros u _. by rewrite Ecur.
    - apply (active_ext _ (bak s)); [done| |done]. intros u _. by rewrite Ebak.
    - constructor; rewrite Ed'; simpl; fold m.
      + rewrite X1, grow_length. lia.
      + rewrite X2, grow_length. lia.
      + rewrite X3, grow_length. lia.
      + rewrite grow_length. lia.
      + intros u [->|Hu]%X9; [lia|]. specialize (Z5 u Hu). lia. }
  constructor; [|done|done]. constructor; [done|done| | |].
  - simpl. fold m. rewrite X3, X4, Es. done.
  - simpl. fold m. congruence.
  - intros u Hu. rewrite Ecur. simpl. simpl in Hu. destruct (decide (type_of (tableau s) u = NONE)) as [HN'|HN'].
    + destruct Hp as [A1 EA]. assert (events_ok (ba (boundStore s)) A0) as Hok by (rewrite EA in I8; by eapply events_prefix).
      destruct (no_events _ A0 u Hok) as (_ & _ & Hs).
      { intros e He. apply Hfresh; [by right|]. rewrite EA. set_solver. }
      unfold lo_of, hi_of. rewrite !Hs. split; by intros (? & [=] & _).
    + apply Hsat. rewrite HT in Hu by done. done.
Qed.

Lemma Simplex_newNonbasicVar_wp E A0 M A s v : idle A0 M A s → type_of (tableau s) v = NONE →
  wp E (λ s', idle A0 M A s' ∧ (∀ u, type_of (tableau s') u = if decide (u = v) then NONBASIC else type_of (tableau s) u)
    ∧ (∀ σ, solution (tableau s') σ ↔ solution (tableau s) σ)
    ∧ boundStore s' = ensureReadyFor v (boundStore s)) (Simplex_newNonbasicVar v s).
Proof.
  intros Id HT. pose proof (st_inv _ _ _ _ (id_settled _ _ _ _ Id)) as I.
  unfold Simplex_newNonbasicVar. simpl tableau. apply wp_bind.
  eapply wp_mono; [apply (newNonbasicVar_wp E v _ (si_tab _ _ _ I) HT)|]. intros t (It & ER & ET & Ed). cbn [wp].
  assert (∀ β, active (tableau s) β → active t β) as Hact.
  { intros β Hβ u p Hu Hp. rewrite ET in Hu. destruct (decide (u = v)); [done|]. rewrite ER in Hp. by apply Hβ. }
  split; [|split; [done|split; [|done]]].
  - apply idle_newVar; try done.
    + intros u Hu. rewrite ET. destruct (decide (u = v)) as [->|]; [congruence|done].
    + intros u. rewrite ET. destruct (decide (u = v)); [by left | by right].
    + apply Hact, I.
    + apply Hact, I.
  - intros σ. unfold solution. apply sat_ext. intros u. apply ER.
Qed.

Lemma Simplex_nonbasicVar_wp E A0 M A s v : idle A0 M A s →
  wp E (λ s', idle A0 M A s' ∧ type_of (tableau s') v ≠ NONE
    ∧ (∀ u, u ≠ v ∨ type_of (tableau s) u ≠ NONE → type_of (tableau s') u = type_of (tableau s) u)
    ∧ (∀ σ, solution (tableau s') σ ↔ solution (tableau s) σ)
    ∧ boundStore s' = ensureReadyFor v (boundStore s)) (Simplex_nonbasicVar v s).
Proof.
  intros Id. pose proof (st_inv _ _ _ _ (id_settled _ _ _ _ Id)) as I.
  unfold Simplex_nonbasicVar, nonbasicVar. simpl tableau.
  destruct (decide (type_of (tableau s) v = NONE)) as [HT|HT].
  - rewrite (not_true_eq _ _ (isProcessed_iff _ v)) by (intros Hn; by apply Hn).
    pose proof (Simplex_newNonbasicVar_wp E A0 M A s v Id HT) as W.
    unfold Simplex_newNonbasicVar in W. simpl tableau in W. eapply wp_mono; [exact W|].
    intros s' (Id' & ET & Hs & Est). split; [done|]. rewrite ET, decide_True by done. split; [done|]. split; [|done].
    intros u Hu. rewrite ET. destruct (decide (u = v)) as [->|]; [destruct Hu; congruence|done].
  - rewrite (proj2 (isProcessed_iff _ v) HT). cbn [rbind wp]. split; [|done].
    apply idle_newVar; try done; try apply I.
    + fold (dim s). pose proof (client_range M A s I v HT). lia.
    + intros u Hu. by right.
Qed.

(** A row: the new variable equals the polynomial in every solution. *)
Lemma Simplex_newRow_wp E A0 M A s v p : idle A0 M A s → type_of (tableau s) v = NONE → poly_wf p →
  (∀ u, u ∈ keys p → type_of (tableau s) u ≠ NONE) →
  wp E (λ s', idle A0 M A s' ∧ (∀ u, type_of (tableau s') u = if decide (u = v) then QUASIBASIC else type_of (tableau s) u)
    ∧ (∀ σ, solution (tableau s') σ ↔ solution (tableau s) σ ∧ σ v = peval σ p)
    ∧ boundStore s' = ensureReadyFor v (boundStore s)) (Simplex_newRow v p s).
Proof.
  intros Id HT Wp Hk. pose proof (st_inv _ _ _ _ (id_settled _ _ _ _ Id)) as I.
  unfold Simplex_newRow. simpl tableau. apply wp_bind.
  eapply wp_mono; [apply (newRow_wp E v p _ (si_tab _ _ _ I) HT Wp Hk)|]. intros t (It & ET & ER & Hs & Ed). cbn [wp].
  assert (∀ β, active (tableau s) β → active t β) as Hact.
  { intros β Hβ u q Hu Hq. rewrite ET in Hu. destruct (decide (u = v)); [done|]. rewrite ER in Hq by done. by apply Hβ. }
  split; [|done]. apply idle_newVar; try done.
  - intros u Hu. rewrite ET. destruct (decide (u = v)) as [->|]; [congruence|done].
  - intros u. rewrite ET. destruct (decide (u = v)); [by left | by right].
  - apply Hact, I.
  - apply Hact, I.
Qed.

(** New bounds, or the same ones at other places. *)
Lemma idle_store A0 M A s st : idle A0 M A s → store_ok st → agree (ba (boundStore s)) (ba st) →
  (∀ u br, known (boundStore s) u br → known st u br) → idle A0 M A (with_store st s).
Proof.
  intros [[I Hp Es Ec Hsat] Hcand Hbuf] So Ha Hk.
  destruct I as [I1 I2 I3 I4 I5 I6 [S1 S2] I8 I9 I10 I11 I12 I13 I14 I15 [Z1 Z2 Z3 Z4 Z5]].
  pose proof (chain_allocated _ _ (events_chain _ _ I8)) as Hal.
  constructor; [|done|done]. constructor; try done.
  - constructor; simpl; try done.
    + intros e He. destruct (I5 e He) as [HT Hke]. split; [done | by apply Hk].
    + constructor; intros u Hu; rewrite (agree_stack _ _ Ha _ _ _ Hal); [by apply S1 | by apply S2].
    + by eapply agree_events.
  - intros u Hu. destruct Hp as [A1 EA]. rewrite EA, trace_app in Hal.
    assert (allocated (ba (boundStore s)) (trace A0)) as Hal0 by (intros br Hbr; apply Hal; set_solver).
    simpl. unfold lo_of, hi_of. rewrite !(agree_strong _ _ Ha _ _ _ Hal0). by apply Hsat.
Qed.

(** ** The initial state *)

Lemma vals_ok_init : vals_ok (@LRAModel_init N).
Proof.
  destruct (nat_set.init_inv 0) as [I0 M0]. constructor; simpl; try done; try lia.
  - intros v. split; [by intros ?%M0 | by intros ?%not_elem_of_nil].
  - by intros v ?%not_elem_of_nil.
Qed.

Lemma tab_inv_init : tab_inv (@Tableau_init N).
Proof.
  constructor.
  - constructor; try done. intros v. split; [by intros [? [=]] | done].
  - constructor; try done. intros v. split; [by intros [? [=]] | by intros [|]].
  - exists []. constructor; try done; try apply NoDup_nil_2.
    + by intros v ?%not_elem_of_nil.
Qed.

Lemma idle_init (st : LABoundStore N) : store_ok st → idle [] [] [] (Simplex_init st).
Proof.
  intros So. constructor; [|done|by intros [|]].
  constructor; [|by exists []|done|done|by intros v [|]].
  constructor; simpl; try done.
  - apply tab_inv_init.
  - intros v Hv. unfold dim in Hv. simpl in Hv. lia.
  - intros e ?%not_elem_of_nil. done.
  - constructor; intros v Hv; unfold dim in Hv; simpl in Hv; lia.
  - constructor.
  - by intros x ?%not_elem_of_nil.
  - apply vals_ok_init.
  - constructor; try done. by intros v [? [=]].
Qed.

End declare.

(** * From delta-rationals to rationals

    [Simplex::computeDelta] chooses a value of δ for which the values found,
    read as rationals, keep every strict and every non-strict bound.  So the
    bounds have a solution over the rationals iff they have one over the
    delta-rationals. *)

(** The rational a delta-rational stands for. *)
Definition eval_at (d : Qc) (x : lexq) : Qc := (lr x + ld x * d)%Qc.

(** [d] is small enough for the value [x] of a variable with the bounds [lo]
    and [hi]: the conditions [computeDelta] collects. *)
Definition limit_ok (lo hi : option lexq) (x : lexq) (d : Qc) : Prop :=
  ld x = 0%Qc ∨
  (∀ l, lo = Some l → (lr l < lr x)%Qc → (ld x < ld l)%Qc → (d * (ld l - ld x) <= lr x - lr l)%Qc)
  ∧ (∀ h, hi = Some h → (lr x < lr h)%Qc → (ld h < ld x)%Qc → (d * (ld x - ld h) <= lr h - lr x)%Qc).

(** A lower bound [c] or [c + δ], an upper bound [c] or [c - δ]. *)
Definition lower_at (l : lexq) (q : Qc) : Prop := (lr l <= q)%Qc ∧ (ld l ≠ 0%Qc → (lr l < q)%Qc).
Definition upper_at (h : lexq) (q : Qc) : Prop := (q <= lr h)%Qc ∧ (ld h ≠ 0%Qc → (q < lr h)%Qc).

Lemma Qc_ne_lt (x : Qc) : x ≠ 0%Qc → (x < 0)%Qc ∨ (0 < x)%Qc.
Proof. intros Hx. destruct (Qc_trichotomy x 0) as [|[|]]; tauto. Qed.

Lemma Qcmult_nonneg (x y : Qc) : (0 <= x)%Qc → (0 <= y)%Qc → (0 <= x * y)%Qc.
Proof. intros Hx Hy. apply (Qcmult_le_compat_r 0 x y) in Hx; [|done]. by rewrite Qcmult_0_l in Hx. Qed.

Lemma Qcmult_pos (x y : Qc) : (0 < x)%Qc → (0 < y)%Qc → (0 < x * y)%Qc.
Proof. intros Hx Hy. apply (Qcmult_lt_compat_r 0 x y) in Hx; [|done]. by rewrite Qcmult_0_l in Hx. Qed.

Lemma lower_kept l hi x d : (0 < d)%Qc → limit_ok (Some l) hi x d → (l <= x)%lex → (0 <= ld l)%Qc →
  lower_at l (eval_at d x).
Proof.
  intros Hd Hk Hle Hl. unfold lower_at, eval_at.
  assert (0 <= ld l * d)%Qc as Hp by (apply Qcmult_nonneg; qc_lra).
  assert (ld l ≠ 0 → 0 < ld l * d)%Qc as Hp' by (intros; apply Qcmult_pos; [|done]; destruct (Qc_ne_lt (ld l)); qc_lra).
  destruct Hle as [Hlt|[E Hge]].
  - destruct (Qclt_le_dec (ld x) (ld l)) as [Hn|Hn].
    + destruct Hk as [Hz|[Hk _]].
      * rewrite Hz. split; [|intros _]; qc_lra.
      * specialize (Hk l eq_refl Hlt Hn). split; [qc_lra|]. intros Hne. specialize (Hp' Hne). qc_lra.
    + assert (0 <= ld x * d)%Qc by (apply Qcmult_nonneg; qc_lra). split; [|intros _]; qc_lra.
  - rewrite E. assert (0 <= (ld x - ld l) * d)%Qc by (apply Qcmult_nonneg; qc_lra).
    split; [qc_lra|]. intros Hne. specialize (Hp' Hne). qc_lra.
Qed.

Lemma limit_opp lo hi x d : limit_ok lo hi x d → limit_ok (lopp <$> hi) (lopp <$> lo) (lopp x) d.
Proof.
  intros [Hz|[Hl Hh]]; [left; simpl; rewrite Hz; by apply Qc_is_canon|]. right. split.
  - intros l' (h & Eh & ->)%fmap_Some H1 H2. simpl in *. specialize (Hh h Eh ltac:(qc_lra) ltac:(qc_lra)). qc_lra.
  - intros h' (l & El & ->)%fmap_Some H1 H2. simpl in *. specialize (Hl l El ltac:(qc_lra) ltac:(qc_lra)). qc_lra.
Qed.

Lemma upper_kept lo h x d : (0 < d)%Qc → limit_ok lo (Some h) x d → (x <= h)%lex → (ld h <= 0)%Qc →
  upper_at h (eval_at d x).
Proof.
  intros Hd Hk Hle Hl. apply limit_opp in Hk. simpl in Hk.
  destruct (lower_kept (lopp h) _ (lopp x) d Hd Hk) as [H1 H2]; [lex|simpl; qc_lra|].
  unfold upper_at, eval_at in *. simpl in *. split; [qc_lra|]. intros Hne.
  assert (- ld h ≠ 0)%Qc as Hne' by (intros E; apply Hne; qc_lra). specialize (H2 Hne'). qc_lra.
Qed.

Section model.
Context {N : Type} `{Number N}.
Implicit Types (s : Simplex N) (v : LVRef) (A : list event) (M : list nat).

(** The values of δ the scan still allows. *)
Definition accepts (acc : option N) (d : Qc) : Prop :=
  (0 < d)%Qc ∧ ∀ d0, acc = Some d0 → (d <= nval d0)%Qc.
Definition positive (acc : option N) : Prop := ∀ d0, acc = Some d0 → (0 < nval d0)%Qc.

Lemma delta_side_wp E acc gap ddiff : positive acc → (0 < nval gap)%Qc → (0 < nval ddiff)%Qc →
  wp E (λ o, positive o ∧ ∀ d, accepts o d → accepts acc d ∧ (d * nval ddiff <= nval gap)%Qc) (delta_side acc gap ddiff).
Proof.
  intros Hacc Hg Hd. unfold delta_side.
  assert (nval ddiff ≠ 0%Qc) as Hne by (intros E0; rewrite E0 in Hd; qc_lra).
  destruct (n_div_val gap ddiff Hne) as (q & -> & Hq). cbn [rbind].
  assert (nval q * nval ddiff = nval gap)%Qc as Hqd by (rewrite Hq; unfold Qcdiv; field; done).
  assert (0 < nval q)%Qc as Hpos.
  { destruct (Qclt_le_dec 0 (nval q)) as [|Hle]; [done|].
    apply (Qcmult_le_compat_r _ _ (nval ddiff)) in Hle; [|qc_lra]. rewrite Hqd, Qcmult_0_l in Hle. qc_lra. }
  assert (n_lt (n_of_Z 0) q = true) as -> by (apply n_lt_val; by rewrite n_zero_val). cbn [check rbind].
  assert (∀ d, accepts (Some q) d → (d * nval ddiff <= nval gap)%Qc) as Hsome.
  { intros d [Hd0 Hdq]. rewrite <- Hqd. apply Qcmult_le_compat_r; [by apply Hdq | qc_lra]. }
  destruct acc as [d0|].
  - destruct (Delta_gt_Real (Delta_Real d0) q) eqn:Eg; cbn [wp].
    + apply isGreater_val in Eg. rewrite Delta_Real_val in Eg. split; [by intros ? [= <-]|].
      intros d Ha. split; [|by apply Hsome]. destruct Ha as [Ha Hq']. split; [done|]. intros ? [= <-].
      specialize (Hq' q eq_refl). destruct Eg as [Eg|[Eg Eg']]; simpl in *; qc_lra.
    + split; [done|]. intros d [Ha Hq']. split; [done|]. apply Hsome. split; [done|]. intros ? [= <-].
      specialize (Hq' d0 eq_refl). apply not_true_iff_false in Eg. unfold Delta_gt_Real in Eg.
      rewrite isGreater_val, Delta_Real_val in Eg. apply lle_not_lt in Eg.
      destruct Eg as [Eg|[Eg Eg']]; simpl in *; qc_lra.
  - cbn [wp]. split; [by intros ? [= <-]|]. intros d Ha. split; [|by apply Hsome].
    destruct Ha as [Ha _]. by split.
Qed.

(** A variable of the store: it has its places, and its value is within its
    bounds. *)
Section scan.
Context (E : error → Prop) (s : Simplex N) (n : nat) (lo hi : LVRef → option lexq) (EV : senv s n lo hi).

Let ok v (d : Qc) : Prop := limit_ok (lo v) (hi v) (cur s v) d.

Lemma lex_main_le (a b : lexq) : (a <= b)%lex → (lr a <= lr b)%Qc.
Proof. intros [?|[-> _]]; qc_lra. Qed.

Lemma delta_lower_wp v acc : v < n → within (lo v) (hi v) (cur s v) → positive acc →
  wp E (λ o, positive o ∧ ∀ d, accepts o d → accepts acc d ∧ ∀ l, lo v = Some l → (lr l < lr (cur s v))%Qc →
    (ld (cur s v) < ld l)%Qc → (d * (ld l - ld (cur s v)) <= lr (cur s v) - lr l)%Qc) (delta_lower s v acc).
Proof.
  intros Hv [Hw _] Hacc. unfold delta_lower. eapply hasLBound_wp; [exact EV|done|].
  destruct (lo v) as [l|] eqn:El; [rewrite bool_decide_true by eauto | by rewrite bool_decide_false by (by intros [? ?])].
  eapply read_wp; [exact EV|done|]. intros x Hx _. fold (cur s v) in Hx.
  eapply Lb_wp; [exact EV|done|exact El|]. intros lb Hlb.
  assert (l <= cur s v)%lex as Hle by (apply lle_not_lt; intros ?; apply Hw; by exists l).
  assert (n_lt (R x) (R lb) = false) as ->.
  { apply n_lt_false. apply lex_main_le in Hle. rewrite <- Hx, <- Hlb in Hle. exact Hle. }
  cbn [negb check rbind]. rewrite <- Hx, <- Hlb. simpl.
  destruct (n_lt (R lb) (R x)) eqn:E1; cbn [andb]; [destruct (n_gt (D lb) (D x)) eqn:E2|]; cbn [wp].
  - apply n_lt_val in E1. apply n_gt_val in E2.
    eapply wp_mono; [apply delta_side_wp; [done|rewrite n_sub_val; qc_lra|rewrite n_sub_val; qc_lra]|].
    intros o [Ho Hd]. split; [done|]. intros d Ha. destruct (Hd d Ha) as [Ha' Hm]. split; [done|].
    intros ? [= <-] _ _. rewrite !n_sub_val in Hm. exact Hm.
  - split; [done|]. intros d Ha. split; [done|]. intros ? [= <-] _ Hlt. simpl in Hlt.
    apply n_gt_val in Hlt. congruence.
  - split; [done|]. intros d Ha. split; [done|]. intros ? [= <-] Hlt _. simpl in Hlt.
    apply n_lt_val in Hlt. congruence.
Qed.

Lemma delta_upper_wp v acc : v < n → within (lo v) (hi v) (cur s v) → positive acc →
  wp E (λ o, positive o ∧ ∀ d, accepts o d → accepts acc d ∧ ∀ h, hi v = Some h → (lr (cur s v) < lr h)%Qc →
    (ld h < ld (cur s v))%Qc → (d * (ld (cur s v) - ld h) <= lr h - lr (cur s v))%Qc) (delta_upper s v acc).
Proof.
  intros Hv [_ Hw] Hacc. unfold delta_upper. eapply hasUBound_wp; [exact EV|done|].
  destruct (hi v) as [h|] eqn:El; [rewrite bool_decide_true by eauto | by rewrite bool_decide_false by (by intros [? ?])].
  eapply read_wp; [exact EV|done|]. intros x Hx _. fold (cur s v) in Hx.
  eapply Ub_wp; [exact EV|done|exact El|]. intros ub Hub.
  assert (cur s v <= h)%lex as Hle by (apply lle_not_lt; intros ?; apply Hw; by exists h).
  assert (n_lt (R ub) (R x) = false) as ->.
  { apply n_lt_false. apply lex_main_le in Hle. rewrite <- Hx, <- Hub in Hle. exact Hle. }
  cbn [negb check rbind]. rewrite <- Hx, <- Hub. simpl.
  destruct (n_lt (R x) (R ub)) eqn:E1; cbn [andb]; [destruct (n_gt (D x) (D ub)) eqn:E2|]; cbn [wp].
  - apply n_lt_val in E1. apply n_gt_val in E2.
    eapply wp_mono; [apply delta_side_wp; [done|rewrite n_sub_val; qc_lra|rewrite n_sub_val; qc_lra]|].
    intros o [Ho Hd]. split; [done|]. intros d Ha. destruct (Hd d Ha) as [Ha' Hm]. split; [done|].
    intros ? [= <-] _ _. rewrite !n_sub_val in Hm. exact Hm.
  - split; [done|]. intros d Ha. split; [done|]. intros ? [= <-] _ Hlt. simpl in Hlt.
    apply n_gt_val in Hlt. congruence.
  - split; [done|]. intros d Ha. split; [done|]. intros ? [= <-] Hlt _. simpl in Hlt.
    apply n_lt_val in Hlt. congruence.
Qed.

Lemma delta_var_wp v acc : v < n → within (lo v) (hi v) (cur s v) → positive acc →
  wp E (λ o, positive o ∧ ∀ d, accepts o d → accepts acc d ∧ ok v d) (delta_var s acc v).
Proof.
  intros Hv Hw Hacc. unfold delta_var. apply wp_bind.
  eapply wp_mono; [by apply (isModelOutOfBounds_wp E s n lo hi EV v)|]. intros b Hb.
  assert (b = false) as -> by (apply not_true_iff_false; rewrite Hb; tauto). cbn [negb check rbind].
  eapply read_wp; [exact EV|done|]. intros x Hx _. fold (cur s v) in Hx.
  destruct (n_eq (D x) (n_of_Z 0)) eqn:E0.
  - cbn [wp]. split; [done|]. intros d Ha. split; [done|]. left. rewrite <- Hx. simpl.
    apply n_eq_val in E0. by rewrite n_zero_val in E0.
  - apply wp_bind. eapply wp_mono; [by apply delta_lower_wp|]. intros o1 [P1 H1].
    eapply wp_mono; [by apply delta_upper_wp|]. intros o2 [P2 H2]. split; [done|]. intros d Ha.
    destruct (H2 d Ha) as [Ha1 Hu]. destruct (H1 d Ha1) as [Ha0 Hl]. split; [done|]. right. by split.
Qed.

Lemma computeDelta_wp : (∀ v, v ∈ lvstore (boundStore s) → v < n ∧ within (lo v) (hi v) (cur s v)) →
  wp E (λ d, (0 < nval d)%Qc ∧ (nval d <= 1)%Qc ∧ ∀ v, v ∈ lvstore (boundStore s) → ok v (nval d)) (computeDelta s).
Proof.
  intros Hall. unfold computeDelta. apply wp_bind.
  eapply wp_mono; [apply (foldM_wp E _ (λ pre _ o, positive o ∧ ∀ v d, v ∈ pre → accepts o d → ok v d))|].
  - split; [done|]. by intros v d ?%not_elem_of_nil.
  - intros pre v post o El [Ho Hp]. destruct (Hall v) as [Hv Hw]; [rewrite El; set_solver|].
    eapply wp_mono; [by apply delta_var_wp|]. intros o' [Ho' Hd]. split; [done|].
    intros u d [Hu| ->%list_elem_of_singleton]%elem_of_app Ha; destruct (Hd d Ha); [by apply (Hp u)|done].
  - intros o [Ho Hp]. destruct o as [d|].
    + specialize (Ho d eq_refl).
      assert (∀ x, (0 < x)%Qc → (x <= nval d)%Qc → ∀ v, v ∈ lvstore (boundStore s) → ok v x) as Hx.
      { intros x H0 Hle v Hv. apply (Hp v x Hv). split; [done|]. by intros ? [= <-]. }
      destruct (Delta_gt_Real (Delta_Real d) (n_of_Z 1)) eqn:Eg.
      * apply isGreater_val in Eg. rewrite Delta_Real_val in Eg. cbn [wp]. rewrite n_one_val in *.
        split; [qc_lra|]. split; [qc_lra|]. apply Hx; [qc_lra|]. destruct Eg as [Eg|[Eg _]]; simpl in Eg; qc_lra.
      * assert (nval (n_of_Z 2) = 1 + 1)%Qc as H2.
        { rewrite n_of_Z_val by (unfold_widths; lia). rewrite <- of_Z_1, <- of_Z_add. done. }
        assert (nval (n_of_Z 2) ≠ 0%Qc) as Hne by (rewrite H2; intros ?; qc_lra).
        destruct (n_div_val d (n_of_Z 2) Hne) as (c & -> & Hc). cbn [wp].
        assert (nval c * (1 + 1) = nval d)%Qc as Hcd.
        { rewrite Hc, <- H2. unfold Qcdiv. field. exact Hne. }
        apply not_true_iff_false in Eg. unfold Delta_gt_Real in Eg. rewrite isGreater_val, Delta_Real_val in Eg.
        apply lle_not_lt in Eg. rewrite n_one_val in Eg.
        assert (nval d <= 1)%Qc by (destruct Eg as [Eg|[Eg _]]; simpl in Eg; qc_lra).
        split; [qc_lra|]. split; [qc_lra|]. apply Hx; qc_lra.
    + cbn [wp]. rewrite n_one_val. split; [qc_lra|]. split; [qc_lra|]. intros v Hv. apply Hp; [done|].
      split; [qc_lra | done].
Qed.

End scan.
End model.

(** ** Rational solutions *)

Section rational.
Context {N : Type} `{Number N}.
Implicit Types (s : Simplex N) (v : LVRef) (A : list event) (M : list nat) (t : Tableau N) (ρ : LVRef → Qc).

Fixpoint qeval ρ (p : poly_t N) : Qc :=
  match p with
  | [] => 0
  | term :: p => nval (coeff term) * ρ (var term) + qeval ρ p
  end%Qc.

Definition rat_solution t ρ : Prop := ∀ v p, row_of t v = Some p → ρ v = qeval ρ p.

Definition rat_bound ρ (b : LABound N) : Prop :=
  match type b with
  | bound_l => lower_at (dval (delta b)) (ρ (lvref b))
  | bound_u => upper_at (dval (delta b)) (ρ (lvref b))
  end.

Definition rat_holds (st : LABoundStore N) A ρ : Prop :=
  ∀ e b, e ∈ A → ba st !! ev_bound e = Some b → rat_bound ρ b.

(** The bounds a solver makes: δ is on the side of strictness. *)
Definition sharp (a : list (LABound N)) : Prop := ∀ br b, a !! br = Some b →
  match type b with
  | bound_l => (0 <= ld (dval (delta b)))%Qc
  | bound_u => (ld (dval (delta b)) <= 0)%Qc
  end.

Definition embed ρ : LVRef → lexq := λ v, Lex (ρ v) 0.

Lemma peval_embed ρ (p : poly_t N) : peval (embed ρ) p = Lex (qeval ρ p) 0.
Proof. induction p as [|term p IH]; [done|]. simpl. rewrite IH. apply lexq_eq. simpl. split; ring. Qed.

Lemma eval_peval d σ (p : poly_t N) : eval_at d (peval σ p) = qeval (λ v, eval_at d (σ v)) p.
Proof.
  induction p as [|term p IH]; unfold eval_at in *; simpl; [ring|]. rewrite <- IH. ring.
Qed.

(** A rational solution is a solution without δ. *)
Lemma rational_solution t st A ρ : rat_solution t ρ → rat_holds st A ρ →
  solution t (embed ρ) ∧ holds st A (embed ρ).
Proof.
  intros Hs Hh. split.
  - intros v p Hp. rewrite peval_embed. unfold embed. by rewrite (Hs v p Hp).
  - intros e b He Hb. specialize (Hh e b He Hb). unfold rat_bound in Hh. unfold bound_holds.
    destruct (type b); destruct Hh as [H1 H2]; unfold embed.
    + destruct (Qc_eq_dec (ld (dval (delta b))) 0%Qc) as [E|Hne]; [|specialize (H2 Hne); left; exact H2].
      destruct (Qcle_lt_or_eq _ _ H1) as [Hlt|E']; [by left|]. right. split; [done|]. rewrite E. simpl. qc_lra.
    + destruct (Qc_eq_dec (ld (dval (delta b))) 0%Qc) as [E|Hne]; [|specialize (H2 Hne); left; exact H2].
      destruct (Qcle_lt_or_eq _ _ H1) as [Hlt|E']; [by left|]. right. split; [done|]. rewrite E. simpl. qc_lra.
Qed.

Lemma lower_mono (l l' : lexq) q : (l' <= l)%lex → (0 <= ld l')%Qc → lower_at l q → lower_at l' q.
Proof.
  intros Hle Hp [H1 H2]. destruct Hle as [Hlt|[E Hd]]; [split; [|intros _]; qc_lra|].
  split; [qc_lra|]. intros Hne. assert (ld l ≠ 0%Qc) as Hne' by (intros E'; apply Hne; qc_lra).
  specialize (H2 Hne'). qc_lra.
Qed.

Lemma upper_mono (h h' : lexq) q : (h <= h')%lex → (ld h' <= 0)%Qc → upper_at h q → upper_at h' q.
Proof.
  intros Hle Hp [H1 H2]. destruct Hle as [Hlt|[E Hd]]; [split; [|intros _]; qc_lra|].
  split; [qc_lra|]. intros Hne. assert (ld h ≠ 0%Qc) as Hne' by (intros E'; apply Hne; qc_lra).
  specialize (H2 Hne'). qc_lra.
Qed.

Lemma strong_sharp a ty v tr x : sharp a → strong a ty v tr = Some x →
  match ty with bound_l => (0 <= ld x)%Qc | bound_u => (ld x <= 0)%Qc end.
Proof.
  intros Hsh Hx. destruct (strong_app a ty v [] tr x Hx) as [Hn|(br & b & _ & Hb & Ht & _ & Hd)]; [done|].
  specialize (Hsh br b Hb). rewrite Ht, Hd in Hsh. exact Hsh.
Qed.

(** A solution that agrees with the values of the state. *)
Definition extends s (σ : LVRef → lexq) : Prop :=
  solution (tableau s) σ ∧ ∀ u, type_of (tableau s) u ≠ QUASIBASIC → σ u = cur s u.

Lemma extends_exists M A s : sx_inv M A s → ∃ σ, extends s σ.
Proof. intros I. apply (solution_exists (tableau s) (cur s) (si_tab _ _ _ I) (si_active _ _ _ I)). Qed.

(** The rational model of a settled state. *)
Lemma settled_rational E M A s : settled A M A s → sharp (ba (boundStore s)) →
  (∀ v, v ∈ lvstore (boundStore s) → v < dim s) → (∀ e, e ∈ A → ev_var e ∈ lvstore (boundStore s)) →
  wp E (λ d, (0 < nval d)%Qc ∧ ∀ σ, extends s σ → rat_solution (tableau s) (λ v, eval_at (nval d) (σ v))
    ∧ rat_holds (boundStore s) A (λ v, eval_at (nval d) (σ v))) (computeDelta s).
Proof.
  intros [I _ _ _ Hsat] Hsh Hr Hev. set (a := ba (boundStore s)) in *.
  eapply wp_mono; [apply (computeDelta_wp E s (dim s) _ _ (client_env M A s I))|].
  - intros v Hv. split; [by apply Hr|]. destruct (decide (count v A = 0)) as [Hc|Hc].
    + pose proof (count_unbounded M A s I v Hc) as Hub. cbn zeta in Hub. destruct Hub as [El Eh].
      split; intros (x & Hx & _); [rewrite El in Hx | rewrite Eh in Hx]; done.
    + apply Hsat. destruct (filter (λ e, ev_var e = v) A) as [|e l] eqn:El; [unfold count in Hc; by rewrite El in Hc|].
      assert (e ∈ filter (λ e, ev_var e = v) A) as [<- He]%list_elem_of_filter by (rewrite El; set_solver).
      by apply (event_live M A s e I).
  - intros d (Hd & _ & Hok).
    split; [done|]. intros σ [Hs Eσ]. split.
    + intros v p Hp. rewrite (Hs v p Hp). apply eval_peval.
    + intros e b He Hb. pose proof (event_live M A s e I He) as Hlive.
      destruct (events_implied a A e b (si_events _ _ _ I) He Hb) as [Hv Hi].
      assert (σ (ev_var e) = cur s (ev_var e)) as Ev by (apply Eσ; destruct Hlive; congruence).
      destruct (Hsat (ev_var e) Hlive) as [Hwl Hwh]. specialize (Hok _ (Hev e He)).
      pose proof (Hsh _ b Hb) as Hsb. unfold rat_bound. unfold implied_bound in Hi. rewrite Hv, Ev.
      destruct (type b).
      * destruct Hi as (l & El & Hle). eapply lower_mono; [exact Hle|done|].
        fold a in Hok, Hwl. rewrite El in Hok, Hwl. eapply lower_kept; [done|exact Hok| |].
        -- apply lle_not_lt. intros Hlt. apply Hwl. by exists l.
        -- exact (strong_sharp a bound_l _ _ l Hsh El).
      * destruct Hi as (h & El & Hle). eapply upper_mono; [exact Hle|done|].
        fold a in Hok, Hwh. rewrite El in Hok, Hwh. eapply upper_kept; [done|exact Hok| |].
        -- apply lle_not_lt. intros Hlt. apply Hwh. by exists h.
        -- exact (strong_sharp a bound_u _ _ h Hsh El).
Qed.

(** ** Reading values *)

Lemma basic_again_extends s s' v σ M A : sx_inv M A s' → basic_again v s s' → extends s σ → extends s' σ.
Proof.
  intros I B [Hs Hc]. apply (ba_sat _ _ _ B) in Hs. split; [done|]. intros u Hu. rewrite (ba_type _ _ _ B) in Hu.
  destruct (decide (u = v)) as [->|Hne]; [|by rewrite (ba_cur _ _ _ B), Hc].
  assert (type_of (tableau s') v = BASIC) as HT by (rewrite (ba_type _ _ _ B); by rewrite decide_True).
  destruct (proj2 (ok_row _ _ _ (ti_ok _ (si_tab _ _ _ I)) v) (or_introl HT)) as [p Hp].
  rewrite (Hs v p Hp), (si_active _ _ _ I v p HT Hp). apply peval_ext. intros w Hw.
  pose proof (ok_basic _ _ _ (ti_ok _ (si_tab _ _ _ I)) v p w HT Hp Hw) as HTw.
  assert (w ≠ v) as Hwv by (intros ->; congruence). rewrite (ba_cur _ _ _ B) by done.
  rewrite (ba_type _ _ _ B), decide_False in HTw by done. apply Hc. congruence.
Qed.

Lemma basic_again_idle A0 M A s s' v : idle A0 M A s → settled A0 M A s' → basic_again v s s' → idle A0 M A s'.
Proof.
  intros [_ Hc Hb] St B. constructor; [done| |].
  - by rewrite (ba_cand _ _ _ B).
  - intros A1 EA. rewrite (ba_buffer _ _ _ B). by apply Hb.
Qed.

(** The value is the one every solution gives that agrees with the state. *)
Lemma getValuation_wp E A0 M A s v : idle A0 M A s → type_of (tableau s) v ≠ NONE →
  wp E (λ r, idle A0 M A r.2 ∧ boundStore r.2 = boundStore s
    ∧ (∀ σ, solution (tableau r.2) σ ↔ solution (tableau s) σ)
    ∧ (∀ u, type_of (tableau r.2) u = NONE ↔ type_of (tableau s) u = NONE) ∧ (∀ σ, extends s σ → dval r.1 = σ v ∧ extends r.2 σ))
    (getValuation v s).
Proof.
  intros Id HT. pose proof (id_settled _ _ _ _ Id) as St. pose proof (st_inv _ _ _ _ St) as I.
  assert (v < dim s) as Hv by by apply (client_range M A s I). unfold getValuation.
  assert (∀ s1, idle A0 M A s1 → v < dim s1 → boundStore s1 = boundStore s → type_of (tableau s1) v ≠ QUASIBASIC →
    (∀ σ, solution (tableau s1) σ ↔ solution (tableau s) σ) →
    (∀ u, type_of (tableau s1) u = NONE ↔ type_of (tableau s) u = NONE) → (∀ σ, extends s σ → extends s1 σ) →
    wp E (λ r, idle A0 M A r.2 ∧ boundStore r.2 = boundStore s
    ∧ (∀ σ, solution (tableau r.2) σ ↔ solution (tableau s) σ)
    ∧ (∀ u, type_of (tableau r.2) u = NONE ↔ type_of (tableau s) u = NONE) ∧ (∀ σ, extends s σ → dval r.1 = σ v ∧ extends r.2 σ))
      (let! x := read (model s1) v in Ok (x, s1))) as Hend.
  { intros s1 Id1 Hv1 Est HT1 Hsol Hno Hext. pose proof (st_inv _ _ _ _ (id_settled _ _ _ _ Id1)) as I1.
    eapply read_wp; [exact (client_env M A s1 I1)|done|]. intros d Hd _. cbn [wp fst snd].
    split; [done|]. split; [done|]. split; [done|]. split; [done|]. intros σ Hσ. specialize (Hext σ Hσ). split; [|done].
    rewrite Hd. destruct Hext as [_ Hc]. by rewrite Hc. }
  destruct (isQuasiBasic (tableau s) v) eqn:Eq.
  - apply isQuasiBasic_iff in Eq. apply wp_bind.
    eapply wp_mono; [by apply (Simplex_quasiToBasic_wp E A0 M A)|]. intros s1 [S1 B].
    pose proof (st_inv _ _ _ _ S1) as I1. apply Hend.
    + by eapply basic_again_idle.
    + apply (client_range M A s1 I1). rewrite (ba_type _ _ _ B), decide_True by done. done.
    + apply B.
    + rewrite (ba_type _ _ _ B), decide_True by done. done.
    + apply B.
    + intros u. rewrite (ba_type _ _ _ B). destruct (decide (u = v)) as [->|]; [by split; [|intros HN]|done].
    + intros σ. by eapply basic_again_extends.
  - cbn [rbind]. apply Hend; try done. intros E'. apply isQuasiBasic_iff in E'. congruence.
Qed.

Lemma rat_solution_embed t ρ : rat_solution t ρ ↔ solution t (embed ρ).
Proof.
  split; intros Hs v p Hp.
  - rewrite peval_embed. unfold embed. by rewrite (Hs v p Hp).
  - specialize (Hs v p Hp). rewrite peval_embed in Hs. by injection Hs.
Qed.

End rational.

(** * The simplex solver: sessions

    The states the solver goes through when a client uses it as LASolver.cc
    does: variables and rows are declared, bounds are stored, asserted, checked,
    and taken back level by level.  A level holds at most one bound; after a
    check the client backtracks to a point no later than the last consistent
    one. *)

(** Between two checks, after a conflict, and while levels are popped. *)
Inductive phase : Type := Ready | Conflict | Popping.

Section session.
Context {N : Type} `{Number N}.
Implicit Types (s : Simplex N) (v : LVRef) (br : LABoundRef) (A : list event) (M : list nat).

(** Was the bound pushed, or implied by the ones before? *)
Definition was_pushed s s' : bool := negb (length (bound_trace (model s')) =? length (bound_trace (model s))).

(** The store of the variables, which the bound store refers to, grows. *)
Definition new_var (st : LABoundStore N) : LABoundStore N :=
  MkLABoundStore (in_bounds st) (ba st) (getNewVar (lvstore st)).2 (bounds st).

(** [session ph A0 M A s]: in phase [ph], the bounds [A] are asserted, the
    backtracking points are at the places [M], and [A0] is known consistent. *)
Inductive session : phase → list event → list nat → list event → Simplex N → Prop :=
| ses_init : session Ready [] [] [] (Simplex_init (MkLABoundStore [] [] [] []))
| ses_getNewVar A0 M A s : session Ready A0 M A s → session Ready A0 M A (with_store (new_var (boundStore s)) s)
| ses_newNonbasicVar A0 M A s v s' : session Ready A0 M A s → type_of (tableau s) v = NONE →
    Simplex_newNonbasicVar v s = Ok s' → session Ready A0 M A s'
| ses_nonbasicVar A0 M A s v s' : session Ready A0 M A s →
    Simplex_nonbasicVar v s = Ok s' → session Ready A0 M A s'
| ses_newRow A0 M A s v p s' : session Ready A0 M A s → type_of (tableau s) v = NONE → poly_wf p →
    (∀ u, u ∈ keys p → type_of (tableau s) u ≠ NONE) →
    Simplex_newRow v p s = Ok s' → session Ready A0 M A s'
| ses_allocBoundPair A0 M A s v bp bi st : session Ready A0 M A s →
    allocBoundPair v bp (boundStore s) = (bi, st) → session Ready A0 M A (with_store st s)
| ses_updateBound A0 M A s bi st : session Ready A0 M A s → bi ∈ in_bounds (boundStore s) →
    bi_ub bi ≠ bi_lb bi → fresh_bound (boundStore s) (bi_v bi) (bi_ub bi) →
    fresh_bound (boundStore s) (bi_v bi) (bi_lb bi) →
    updateBound bi (boundStore s) = Ok st → session Ready A0 M A (with_store st s)
| ses_buildBounds A0 M A s keys st : session Ready A0 M A s → keys_of (in_bounds (boundStore s)) keys →
    buildBounds keys (boundStore s) = Ok st → session Ready A0 M A (with_store st s)
| ses_initModel A0 M A s : session Ready A0 M A s → (∀ v, v ∈ lvstore (boundStore s) → v < dim s) →
    session Ready A0 M A (initModel s)
| ses_getValuation A0 M A s v r : session Ready A0 M A s → type_of (tableau s) v ≠ NONE →
    getValuation v s = Ok r → session Ready A0 M A r.2
| ses_pushBacktrackPoint A0 M A s : session Ready A0 M A s →
    session Ready A0 (M ++ [length A]) A (Simplex_pushBacktrackPoint s)
| ses_assert A0 M A s v br s' : session Ready A0 M A s → type_of (tableau s) v ≠ NONE →
    known (boundStore s) v br → assertBoundOnVar v br s = Ok ([], s') →
    session Ready A0 M (A ++ [Ev v br (was_pushed s s')]) s'
| ses_consistent A0 M A s k s' : session Ready A0 M A s → dim s + 3 ^ dim s < 2 ^ k →
    checkSimplex k s = Ok ([], s') → session Ready A M A s'
| ses_conflict A0 M A s k e s' : session Ready A0 M A s → dim s + 3 ^ dim s < 2 ^ k →
    checkSimplex k s = Ok (e, s') → e ≠ [] → session Conflict A0 M A s'
| ses_backtrack ph A0 M A s : session ph A0 M A s → session Popping A0 M A s
| ses_pop A0 M A B s s1 s' : session Popping A0 (M ++ [length A]) (A ++ B) s → B = [] ∨ (∃ e, B = [e]) →
    Simplex_popBacktrackPoint s = Ok s1 →
    match B with e :: _ => boundDeactivated (ev_var e) s1 | [] => Ok s1 end = Ok s' →
    session Popping A0 M A s'
| ses_finalize A0 M A C s s' : session Popping A0 M A s → A0 = A ++ C →
    finalizeBacktracking s = Ok s' → session Ready A M A s'.

(** ** The invariant of a session *)

Record session_inv (ph : phase) A0 M A s : Prop := {
  ss_store : store_inv (boundStore s);
  ss_consistent : events_ok (ba (boundStore s)) A0;
  ss_state : match ph with
             | Ready => idle A0 M A s
             | Conflict => settled A0 M A s
             | Popping => resting A0 M A s
             end;
}.

Lemma store_inv_grow v (st : LABoundStore N) : store_inv st → store_inv (ensureReadyFor v st).
Proof.
  intros [So Hi Hnd Hr Hk]. constructor; simpl; try done; [by apply store_ok_grow| |].
  - intros i Hii. pose proof (Hr i Hii). unfold grow. destruct (_ <=? _); rewrite ?length_app; lia.
  - intros u br (l & [Hl| ->]%grow_lookup_cases & Hin); [|by apply not_elem_of_nil in Hin]. apply (Hk u). by exists l.
Qed.

Lemma idle_events A0 M A s : idle A0 M A s → events_ok (ba (boundStore s)) A0.
Proof.
  intros [[I (A1 & ->) _ _ _] _ _]. eapply events_prefix, I.
Qed.

Lemma store_inv_lv (st : LABoundStore N) : store_inv st → store_inv (new_var st) ∧ store_le st (new_var st).
Proof. intros [[So] Hi Hnd Hr Hk]. split; constructor; simpl; try done. intros br b Hb. by exists b. Qed.

Lemma idle_grow A0 M A s st : idle A0 M A s → store_inv st → store_le (boundStore s) st → idle A0 M A (with_store st s).
Proof. intros Id Hst [L1 L2 _]. apply idle_store; [done|apply Hst|exact L1|done]. Qed.

(** [initModel] meets the variables again; only the table of the variables
    with a model changes. *)
Lemma idle_addVar A0 M A s v : idle A0 M A s → v < dim s → idle A0 M A (with_model (addVar v (model s)) s).
Proof.
  intros [[[I1 I2 I3 I4 I5 I6 I7 I8 I9 I10 I11 I12 I13 I14 I15 Z] Hp Es Ec Hsat] Hcand Hbuf] Hv.
  destruct Z as [Z1 Z2 Z3 Z4 Z5]. unfold addVar.
  destruct (has_model (model s) !! v) as [b|] eqn:Eh.
  - assert (with_model (model s) s = s) as -> by by destruct s. by constructor; [constructor|..].
  - rewrite !grow_id by lia. rewrite !(proj2 (Nat.leb_gt _ _)) by lia.
    assert (∀ u, is_Some (<[v:=true]> (has_model (model s)) !! u) → u < dim s) as Z5'.
    { intros u. destruct (decide (u = v)) as [->|Hne]; [done|]. rewrite lookup_insert_ne by done. apply Z5. }
    constructor; [constructor|assumption|assumption]; [|assumption..]. destruct I7, I13.
    constructor; try assumption; constructor; assumption.
Qed.

Lemma idle_initModel A0 M A s : idle A0 M A s → (∀ v, v ∈ lvstore (boundStore s) → v < dim s) →
  idle A0 M A (initModel s) ∧ dim (initModel s) = dim s.
Proof.
  intros Id Hd. split; [|done]. unfold initModel, init.
  assert (∀ vs m, idle A0 M A (with_model m s) → (∀ v, v ∈ vs → v < dim s) →
    idle A0 M A (with_model (foldl (λ m v, addVar v m) m vs) s)) as Hi.
  { induction vs as [|v vs IH]; intros m Hm Hvs; [done|]. simpl. apply IH; [|set_solver].
    apply (idle_addVar A0 M A (with_model m s) v Hm). apply Hvs. set_solver. }
  apply Hi; [|done]. by destruct s.
Qed.

(** A state ready for a check, declared further. *)
Lemma session_ready A0 M A s' : idle A0 M A s' → store_inv (boundStore s') → session_inv Ready A0 M A s'.
Proof. intros Id Hst. constructor; [done|by eapply idle_events|done]. Qed.

Lemma pushed_trace A v br p s s' (a : list (LABound N)) : bound_trace (model s) = trace A →
  bound_trace (model s') = trace (A ++ [Ev v br p]) → was_pushed s s' = p.
Proof.
  intros E E'. unfold was_pushed. rewrite E', E, trace_app, trace_one, length_app. simpl.
  destruct p; simpl; [|by rewrite Nat.add_0_r, Nat.eqb_refl].
  by rewrite (proj2 (Nat.eqb_neq _ _)) by lia.
Qed.

Lemma explanation_nonempty st (tb : Tableau N) : ¬ farkas st tb [].
Proof. intros [_ _ Hr]. simpl in Hr. revert Hr. unfold llt. simpl. intros [Hr|[_ Hr]]; by apply Qclt_not_eq in Hr. Qed.

Lemma session_holds ph A0 M A s : session ph A0 M A s → session_inv ph A0 M A s.
Proof.
  induction 1 as [|A0 M A s _ [Hst Hc Id]|A0 M A s v s' _ [Hst Hc Id] HT E|A0 M A s v s' _ [Hst Hc Id] E
    |A0 M A s v p s' _ [Hst Hc Id] HT Hp Hk E|A0 M A s v bp bi st _ [Hst Hc Id] E
    |A0 M A s bi st _ [Hst Hc Id] Hbi Hne Fu Fl E|A0 M A s keys st _ [Hst Hc Id] HK E
    |A0 M A s _ [Hst Hc Id] Hd|A0 M A s v r _ [Hst Hc Id] HT E|A0 M A s _ [Hst Hc Id]|A0 M A s v br s' _ [Hst Hc Id] HT Hk E|A0 M A s k s' _ [Hst Hc Id] Hf E
    |A0 M A s k e s' _ [Hst Hc Id] Hf E He|ph A0 M A s _ [Hst Hc Id]
    |A0 M A B s s1 s' _ [Hst Hc Re] HB E1 E2|A0 M A C s s' _ [Hst Hc Re] EA E].
  - apply session_ready; [apply idle_init|]; apply store_inv_init.
  - destruct (store_inv_lv _ Hst) as [Hst' Hle]. apply session_ready; [|done]. by apply idle_grow.
  - destruct (wp_Ok _ _ _ _ (Simplex_newNonbasicVar_wp no_error A0 M A s v Id HT) E) as (Id' & _ & _ & Est).
    apply session_ready; [done|]. rewrite Est. by apply store_inv_grow.
  - destruct (wp_Ok _ _ _ _ (Simplex_nonbasicVar_wp no_error A0 M A s v Id) E) as (Id' & _ & _ & _ & Est).
    apply session_ready; [done|]. rewrite Est. by apply store_inv_grow.
  - destruct (wp_Ok _ _ _ _ (Simplex_newRow_wp no_error A0 M A s v p Id HT Hp Hk) E) as (Id' & _ & _ & Est).
    apply session_ready; [done|]. rewrite Est. by apply store_inv_grow.
  - destruct (allocBoundPair_ok v bp _ bi st Hst E) as (Hst' & Hle & _). apply session_ready; [|done].
    by apply idle_grow.
  - destruct (wp_Ok _ _ _ _ (updateBound_inv no_error bi _ Hst Hbi Hne Fu Fl) E) as (Hst' & Hle & _).
    apply session_ready; [|done]. by apply idle_grow.
  - destruct (wp_Ok _ _ _ _ (buildBounds_inv no_error keys _ Hst HK) E) as (Hst' & Hle & _).
    apply session_ready; [|done]. by apply idle_grow.
  - apply session_ready; [|done]. by apply idle_initModel.
  - destruct (wp_Ok _ _ _ _ (getValuation_wp no_error A0 M A s v Id HT) E) as (Id' & Est & _).
    apply session_ready; [done|]. by rewrite Est.
  - apply session_ready; [|done]. by apply Simplex_pushBacktrackPoint_ok.
  - pose proof (wp_Ok _ _ _ _ (assertBoundOnVar_wp no_error A0 M A v br s Id HT Hk) E) as [R|(Hne & _)]; [|done].
    destruct R as (_ & Est & _ & _ & p & Id'). apply session_ready; [|simpl in *; by rewrite Est].
    simpl in Id'. rewrite (pushed_trace A v br p s s' (ba (boundStore s))); [done|apply Id|apply Id'].
  - pose proof (wp_Ok _ _ _ _ (checkSimplex_result no_error A0 M A s k Id Hf) E) as [_ Est _ [[_ Id']|[_ [Hx _]]]];
      simpl in *; [|by apply explanation_nonempty in Hx].
    apply session_ready; [done|]. by rewrite Est.
  - pose proof (wp_Ok _ _ _ _ (checkSimplex_result no_error A0 M A s k Id Hf) E) as [_ Est _ [[He' _]|[St _]]]; [done|].
    simpl in *. constructor; [by rewrite Est|by rewrite Est|done].
  - constructor; [done..|]. destruct ph; [by apply settled_resting, Id|by apply settled_resting|done].
  - pose proof (pop_level_wp no_error A0 M A B s Re HB) as Hw. rewrite E1 in Hw. cbn [rbind] in Hw.
    destruct (wp_Ok _ _ _ _ Hw E2) as (Re' & Est & _). constructor; [by rewrite Est|by rewrite Est|done].
  - destruct (wp_Ok _ _ _ _ (finalizeBacktracking_wp no_error A0 M A s Re (ex_intro _ C EA) Hc) E) as (Id' & Est & _).
    apply session_ready; [done|]. by rewrite Est.
Qed.

End session.
