(* ===== verification/SimplexTheorems.v ===== *)
(** * The simplex solver: what its clients rely on

    The theorems about the states of a session, and a session over the
    standard library's rationals to apply them to. *)
From S2P Require Import Prelude Sort Gmp FastRationalInt Number Lex Delta NatSet Polynomial Tableau TableauFacts LABounds LABuild LRAModel.
From S2P Require Import Simplex SimplexFacts SimplexSelect SimplexLoop SimplexClient SimplexSession.
From Stdlib Require Import Lia.

#[local] Open Scope nat_scope.

Section theorems.
Context {N : Type} `{Number N}.
Implicit Types (s : Simplex N) (v : LVRef) (br : LABoundRef) (A : list event) (M : list nat) (t : Tableau N).

Lemma session_check A0 M A s k : session Ready A0 M A s → 2 * dim s + 2 ≤ k →
  ∃ e s', checkSimplex k s = Ok (e, s') ∧ check_result A0 M A s e s'.
Proof.
  intros Hs Hk. pose proof (ss_state _ _ _ _ _ (session_holds _ _ _ _ _ Hs)) as Id. simpl in Id.
  assert (dim s + 3 ^ dim s < 2 ^ k) as Hf.
  { eapply Nat.lt_le_trans; [apply fuel_enough|]. by apply Nat.pow_le_mono_r. }
  pose proof (checkSimplex_result no_error A0 M A s k Id Hf) as Hw.
  apply wp_total in Hw as ([e s'] & E & R). eauto.
Qed.

Lemma session_fuel s k : 2 * dim s + 2 ≤ k → dim s + 3 ^ dim s < 2 ^ k.
Proof. intros Hk. eapply Nat.lt_le_trans; [apply fuel_enough|]. by apply Nat.pow_le_mono_r. Qed.

(** More fuel gives the same result. *)
Lemma checkSimplex_more s k k' r : checkSimplex k s = Ok r → k ≤ k' → checkSimplex k' s = Ok r.
Proof.
  intros E Hk. revert E. unfold checkSimplex. destruct (processBufferOfActivatedBounds s) as [s1|]; cbn [rbind]; [|done].
  intros E. by eapply while_more.
Qed.

(** C11: a check of the asserted bounds returns, and it returns no explanation
    exactly when some assignment of delta-rationals satisfies every row of the
    tableau and every asserted bound. *)
Theorem checkSimplex_decides A0 M A s k : session Ready A0 M A s → 2 * dim s + 2 ≤ k →
  ∃ e s', checkSimplex k s = Ok (e, s')
    ∧ (e = [] ↔ ∃ σ, solution (tableau s) σ ∧ holds (boundStore s) A σ).
Proof.
  intros Hs Hk. destruct (session_check A0 M A s k Hs Hk) as (e & s' & E & [Hsat Hst _ Hv]).
  exists e, s'. split; [done|]. destruct Hv as [[-> Id]|[_ Hx]].
  - split; [|done]. intros _. destruct (settled_solution M A s' (id_settled _ _ _ _ Id)) as (σ & Hσ & Hh & _).
    exists σ. rewrite <- Hsat, <- Hst. done.
  - split.
    + intros ->. by destruct Hx as [Hx%explanation_nonempty _].
    + intros (σ & Hσ & Hh). destruct (explains_refutes s' A e σ Hx); [by apply Hsat | by rewrite Hst].
Qed.

(** C13: the loop of [checkSimplex] ends: with [n] variables, fuel for
    [2 ^ (2n + 2)] rounds gives the result, and more fuel the same one. *)
Theorem checkSimplex_terminates A0 M A s : session Ready A0 M A s →
  ∃ r, ∀ k, 2 * dim s + 2 ≤ k → checkSimplex k s = Ok r.
Proof.
  intros Hs. destruct (session_check A0 M A s _ Hs (le_n _)) as (e & s' & E & _). exists (e, s').
  intros k Hk. by eapply checkSimplex_more.
Qed.

(** C12: an explanation is a Farkas certificate: positive multiples of bounds
    that were asserted, whose left sides cancel on every solution of the rows
    and whose right sides add up to less than zero; so no solution of the rows
    satisfies these bounds, over the delta-rationals or the rationals. *)
Theorem explanation_refutes A0 M A s k e s' : session Ready A0 M A s → 2 * dim s + 2 ≤ k →
  checkSimplex k s = Ok (e, s') → e ≠ [] →
  (∀ x, x ∈ e → (0 < nval (ecoeff x))%Qc ∧ ∃ ev, ev ∈ A ∧ ev_bound ev = boundref x)
  ∧ (∀ σ, solution (tableau s) σ → weigh (boundStore s) (left_side σ) e = lzero)
  ∧ (weigh (boundStore s) right_side e < lzero)%lex
  ∧ ∀ ρ, rat_solution (tableau s) ρ → ¬ rat_holds (boundStore s) A ρ.
Proof.
  intros Hs Hk E He. destruct (session_check A0 M A s k Hs Hk) as (e' & s1 & E' & [Hsat Hst _ Hv]).
  rewrite E in E'. injection E' as <- <-.
  destruct Hv as [[? _]|[_ Hx]]; [done|]. pose proof Hx as [[F1 F2 F3] Hin]. rewrite Hst in *.
  split; [intros x Hxe; split; [by apply F1|by apply Hin]|]. split; [intros σ Hσ; by apply F2, Hsat|].
  split; [done|]. intros ρ Hρ Hh. destruct (rational_solution _ _ A ρ Hρ Hh) as [Hσ Hh'].
  destruct (explains_refutes s' A e (embed ρ) Hx); [by apply Hsat | by rewrite Hst].
Qed.

(** C14: after a check without explanation [computeDelta] returns a positive
    rational; the values [getValuation] gives, with δ so chosen, satisfy every
    row and every asserted bound, the strict ones strictly. *)
Theorem rational_model A0 M A s k s' : session Ready A0 M A s → 2 * dim s + 2 ≤ k →
  checkSimplex k s = Ok ([], s') → sharp (ba (boundStore s)) →
  (∀ v, v ∈ lvstore (boundStore s) → v < dim s') → (∀ e, e ∈ A → ev_var e ∈ lvstore (boundStore s)) →
  ∃ d ρ, computeDelta s' = Ok d ∧ (0 < nval d)%Qc ∧ rat_solution (tableau s) ρ ∧ rat_holds (boundStore s) A ρ
    ∧ ∀ v, type_of (tableau s') v ≠ NONE →
      ∃ x s2, getValuation v s' = Ok (x, s2) ∧ ρ v = (nval (R x) + nval (D x) * nval d)%Qc.
Proof.
  intros Hs Hk E Hsh Hr He. destruct (session_check A0 M A s k Hs Hk) as (e' & s1 & E' & [Hsat Hst _ Hv]).
  rewrite E in E'. injection E' as <- <-.
  destruct Hv as [[_ Id]|[_ [Hx%explanation_nonempty _]]]; [|done].
  pose proof (id_settled _ _ _ _ Id) as St. destruct (extends_exists M A s' (st_inv _ _ _ _ St)) as [σ Hσ].
  pose proof (settled_rational no_error M A s' St) as Hw. rewrite Hst in Hw.
  apply wp_total in Hw as (d & Ed & Hd & Hall); [|done..]. destruct (Hall σ Hσ) as [H1 H2].
  exists d, (λ v, eval_at (nval d) (σ v)). split; [done|]. split; [done|]. split; [|split; [done|]].
  - apply rat_solution_embed, Hsat. by apply rat_solution_embed.
  - intros v HT. pose proof (getValuation_wp no_error A M A s' v Id HT) as Hw.
    apply wp_total in Hw as ([x s2] & Ex & _ & _ & _ & _ & Hx). exists x, s2. split; [done|].
    destruct (Hx σ Hσ) as [Hv' _]. simpl in Hv'. by rewrite <- Hv'.
Qed.

(** C24: asserting a bound always returns.  Either it is recorded, the solutions
    of the rows and the store stay, and the session goes on with it; or the
    solver stays as it is and the explanation refutes the bounds with it. *)
Theorem assertBoundOnVar_correct A0 M A s v br : session Ready A0 M A s →
  type_of (tableau s) v ≠ NONE → known (boundStore s) v br →
  ∃ e s', assertBoundOnVar v br s = Ok (e, s')
    ∧ (e = [] ∧ session Ready A0 M (A ++ [Ev v br (was_pushed s s')]) s' ∧ boundStore s' = boundStore s
         ∧ (∀ σ, solution (tableau s') σ ↔ solution (tableau s) σ)
       ∨ e ≠ [] ∧ s' = s ∧ (∀ x, x ∈ e → boundref x = br ∨ ∃ ev, ev ∈ A ∧ ev_bound ev = boundref x)
         ∧ ∀ σ, solution (tableau s) σ → ¬ all_hold (boundStore s) e σ).
Proof.
  intros Hs HT Hk. pose proof (ss_state _ _ _ _ _ (session_holds _ _ _ _ _ Hs)) as Id. simpl in Id.
  pose proof (assertBoundOnVar_wp no_error A0 M A v br s Id HT Hk) as Hw.
  apply wp_total in Hw as ([e s'] & E & Hr). exists e, s'. split; [done|]. simpl in Hr.
  destruct Hr as [(-> & Hst & Hsat & _ & _)|(He & -> & Hf & Hin)].
  - left. split; [done|]. split; [by apply ses_assert|]. done.
  - right. split; [done|]. split; [done|]. split.
    + intros x Hx. destruct (Hin x Hx) as (ev & [Hev| ->%list_elem_of_singleton]%elem_of_app & <-); [|by left].
      right. eauto.
    + intros σ Hσ Hh. by apply (farkas_refutes _ _ e σ Hf Hσ).
Qed.

(** C25: taking back a backtracking point never fails and takes back the bounds
    asserted since; when the bounds left were consistent at the last check,
    [finalizeBacktracking] leaves a state ready for the next assertion, with
    these bounds known to be consistent. *)
Theorem backtracking_restores A0 M A B s : session Popping A0 (M ++ [length A]) (A ++ B) s →
  B = [] ∨ (∃ e, B = [e]) →
  ∃ s1 s', Simplex_popBacktrackPoint s = Ok s1
    ∧ match B with e :: _ => boundDeactivated (ev_var e) s1 | [] => Ok s1 end = Ok s'
    ∧ session Popping A0 M A s' ∧ boundStore s' = boundStore s
    ∧ (∀ σ, solution (tableau s') σ ↔ solution (tableau s) σ)
    ∧ ((∃ C, A0 = A ++ C) → ∃ s2, finalizeBacktracking s' = Ok s2 ∧ session Ready A M A s2
         ∧ boundStore s2 = boundStore s ∧ tableau s2 = tableau s').
Proof.
  intros Hs HB. pose proof (session_holds _ _ _ _ _ Hs) as [_ _ Re]. simpl in Re.
  pose proof (pop_level_wp no_error A0 M A B s Re HB) as Hw.
  apply wp_total in Hw as (s' & E & Re' & Hst & Hsat & _).
  destruct (Simplex_popBacktrackPoint s) as [s1|] eqn:E1; cbn [rbind] in E; [|done].
  exists s1, s'. split; [done|]. split; [done|]. pose proof (ses_pop A0 M A B s s1 s' Hs HB E1 E) as Hs'.
  split; [done|]. split; [done|]. split; [done|]. intros [C EA].
  pose proof (session_holds _ _ _ _ _ Hs') as [_ Hc _].
  pose proof (finalizeBacktracking_wp no_error A0 M A s' Re' (ex_intro _ C EA) Hc) as Hw.
  apply wp_total in Hw as (s2 & E2 & _ & Hst2 & Et). exists s2. split; [done|].
  split; [by apply (ses_finalize A0 M A C s')|]. split; [congruence | done].
Qed.

(** C26: in every state of a session the tableau is well formed (columns list
    the rows that mention them, rows are normalised polynomials over non-basic
    variables, quasi-basic rows are acyclic), the bound lists are ordered and
    indexed, the values satisfy the active rows, every variable's stacks hold
    its bounds in the order asserted, and its counter counts them. *)
Theorem session_invariant ph A0 M A s : session ph A0 M A s →
  tab_inv (tableau s) ∧ store_inv (boundStore s) ∧ active (tableau s) (cur s)
  ∧ stacks (model s) (ba (boundStore s)) (dim s) (trace A)
  ∧ bound_trace (model s) = trace A ∧ bound_limits (model s) = limits_of A M
  ∧ (∀ v, v < dim s → boundsActivated s !! v = Some (count v A))
  ∧ (∀ v, type_of (tableau s) v = QUASIBASIC → count v A = 0).
Proof.
  intros Hs. pose proof (session_holds _ _ _ _ _ Hs) as [Hst _ Hph].
  assert (sx_inv M A s) as [] by (destruct ph; simpl in Hph; apply Hph). done.
Qed.

(** declaring a row returns: the solutions are those of the rows before
    that give the new variable the value of the polynomial. *)
Theorem newRow_defines A0 M A s v p : session Ready A0 M A s → type_of (tableau s) v = NONE → poly_wf p →
  (∀ u, u ∈ keys p → type_of (tableau s) u ≠ NONE) →
  ∃ s', Simplex_newRow v p s = Ok s' ∧ session Ready A0 M A s'
    ∧ ∀ σ, solution (tableau s') σ ↔ solution (tableau s) σ ∧ σ v = peval σ p.
Proof.
  intros Hs HT Hp Hk. pose proof (ss_state _ _ _ _ _ (session_holds _ _ _ _ _ Hs)) as Id. simpl in Id.
  pose proof (Simplex_newRow_wp no_error A0 M A s v p Id HT Hp Hk) as Hw.
  apply wp_total in Hw as (s' & E & _ & _ & Hsat & _). exists s'. split; [done|].
  split; [by apply (ses_newRow A0 M A s v p)|done].
Qed.

(** C27: a pivot of a basic variable with a non-basic variable of its row
    returns a well-formed tableau with the same solutions, in which the two
    have changed places. *)
Theorem pivot_preserves_solutions t bv nv p : tab_inv t → type_of t bv = BASIC → type_of t nv = NONBASIC →
  row_of t bv = Some p → nv ∈ keys p →
  ∃ t', pivot bv nv t = Ok t' ∧ tab_inv t' ∧ type_of t' bv = NONBASIC ∧ type_of t' nv = BASIC
    ∧ (∀ u, u ≠ bv → u ≠ nv → type_of t' u = type_of t u) ∧ ∀ σ, solution t' σ ↔ solution t σ.
Proof.
  intros I HB HN Hp Hin. pose proof (pivot_wp no_error bv nv t p I HB HN Hp Hin) as Hw.
  apply wp_total in Hw as (t' & E & [Hi _ HT Hs]). assert (bv ≠ nv) as Hne by congruence.
  exists t'. split; [done|]. split; [done|]. rewrite !HT. unfold swapped, fupd.
  split; [by rewrite decide_False, decide_True by done|]. split; [by rewrite decide_True|].
  split; [|done]. intros u H1 H2. rewrite HT. unfold swapped, fupd. by rewrite !decide_False.
Qed.

End theorems.

(** ** A session over the rationals

    Two variables [x] and [y] (0 and 1) and the row [s = x + y] (2), with the
    bounds [1 ≤ x], [1 ≤ y], [1 < s] and their negations. *)

#[local] Open Scope Qc_scope.

Definition ex_term (v : LVRef) : Term Qc := MkTerm v 1.
Definition at_least (c : Qc) : BoundValuePair Qc := MkBoundValuePair (MkDelta c (-(1))) (MkDelta c 0).
Definition above (c : Qc) : BoundValuePair Qc := MkBoundValuePair (MkDelta c 0) (MkDelta c 1).

Definition run_op (f : Simplex Qc → res (Simplex Qc)) (s : Simplex Qc) : Simplex Qc := get s (f s).

Definition ex_vars : Simplex Qc :=
  run_op (Simplex_newRow 2 [ex_term 0; ex_term 1])
    (run_op (Simplex_newNonbasicVar 1) (run_op (Simplex_newNonbasicVar 0)
      (with_store (new_var (new_var (new_var (MkLABoundStore [] [] [] []))))
         (Simplex_init (MkLABoundStore [] [] [] []))))).

Definition ex_alloc (v : LVRef) (bp : BoundValuePair Qc) (s : Simplex Qc) : Simplex Qc :=
  with_store (allocBoundPair v bp (boundStore s)).2 s.

Definition ex_declared : Simplex Qc :=
  let s := ex_alloc 2 (above 1) (ex_alloc 1 (at_least 1) (ex_alloc 0 (at_least 1) ex_vars)) in
  with_store (get (boundStore s) (buildBounds [2; 0; 1]%nat (boundStore s))) s.

Definition ex_assert (v : LVRef) (br : LABoundRef) (s : Simplex Qc) : Simplex Qc :=
  (get ([], s) (assertBoundOnVar v br (Simplex_pushBacktrackPoint s))).2.

Definition ex_x : Simplex Qc := ex_assert 0 1 ex_declared.
Definition ex_xy : Simplex Qc := ex_assert 1 3 ex_x.
(** [1 < s] agrees with the bounds so far, [s ≤ 1] does not. *)
Definition ex_xys : Simplex Qc := ex_assert 2 5 ex_xy.
Definition ex_checked : Simplex Qc := (get ([], ex_xys) (checkSimplex 8 ex_xys)).2.
Definition ex_low : Simplex Qc := ex_assert 2 4 ex_xy.

Definition A_x : list event := [Ev 0 1 true].
Definition A_xy : list event := [Ev 0 1 true; Ev 1 3 true].
Definition A_xys : list event := [Ev 0 1 true; Ev 1 3 true; Ev 2 5 true].
Definition A_low : list event := [Ev 0 1 true; Ev 1 3 true; Ev 2 4 true].

Lemma ex_op (f : Simplex Qc → res (Simplex Qc)) s (Q : Simplex Qc → Prop) :
  (∀ s', f s = Ok s' → Q s') → is_ok (f s) = true → Q (run_op f s).
Proof. intros HQ Hok. apply HQ. unfold run_op. by apply get_ok. Qed.

Lemma NoDup_nat (l : list nat) : bool_decide (NoDup l) = true → NoDup l.
Proof. apply bool_decide_eq_true. Qed.

Lemma ex_vars_session : session Ready [] [] [] ex_vars.
Proof.
  unfold ex_vars. apply (ex_op (Simplex_newRow 2 _)); [|vm_compute; reflexivity].
  intros s' E. refine (ses_newRow _ _ _ _ _ _ _ _ _ _ _ E).
  - apply (ex_op (Simplex_newNonbasicVar 1)); [|vm_compute; reflexivity].
    intros s1 E1. refine (ses_newNonbasicVar _ _ _ _ _ _ _ _ E1); [|vm_compute; reflexivity].
    apply (ex_op (Simplex_newNonbasicVar 0)); [|vm_compute; reflexivity].
    intros s0 E0. refine (ses_newNonbasicVar _ _ _ _ _ _ _ _ E0); [|vm_compute; reflexivity].
    apply (ses_getNewVar _ _ _ (with_store _ _)), (ses_getNewVar _ _ _ (with_store _ _)), ses_getNewVar, ses_init.
  - vm_compute. reflexivity.
  - split; [repeat constructor|]. repeat constructor; by vm_compute.
  - intros u [->|[->|?%not_elem_of_nil]%elem_of_cons]%elem_of_cons; [by vm_compute..|done].
Qed.

Lemma ex_alloc_session v bp s : session Ready [] [] [] s → session Ready [] [] [] (ex_alloc v bp s).
Proof.
  intros Hs. apply (ses_allocBoundPair _ _ _ _ v bp (allocBoundPair v bp (boundStore s)).1); [done|].
  by destruct (allocBoundPair v bp (boundStore s)).
Qed.

Lemma ex_declared_session : session Ready [] [] [] ex_declared.
Proof.
  set (s := ex_alloc 2 (above 1) (ex_alloc 1 (at_least 1) (ex_alloc 0 (at_least 1) ex_vars))).
  assert (session Ready [] [] [] s) as Hs by (unfold s; repeat apply ex_alloc_session; apply ex_vars_session).
  refine (ses_buildBounds _ _ _ _ [2; 0; 1]%nat _ Hs _ (get_ok _ _ _)); [|vm_compute; reflexivity].
  split; [by apply NoDup_nat|]. intros v. by change (bi_v <$> in_bounds (boundStore s)) with [0; 1; 2]%nat; set_solver.
Qed.

(** One more bound on a level of its own. *)
Lemma ex_assert_session A0 M A s v br p :
  session Ready A0 M A s → type_of (tableau s) v ≠ NONE → known (boundStore s) v br →
  is_ok (assertBoundOnVar v br (Simplex_pushBacktrackPoint s)) = true →
  (get ([], s) (assertBoundOnVar v br (Simplex_pushBacktrackPoint s))).1 = [] →
  was_pushed s (ex_assert v br s) = p →
  session Ready A0 (M ++ [length A]) (A ++ [Ev v br p]) (ex_assert v br s).
Proof.
  intros Hs HT Hk Hok He <-. apply (get_ok ([], s)) in Hok.
  refine (ses_assert _ _ _ _ _ _ _ (ses_pushBacktrackPoint _ _ _ _ Hs) HT Hk _).
  rewrite Hok. f_equal. rewrite (surjective_pairing (get _ _)), He. done.
Qed.

Ltac ex_known := eexists; (split; [vm_compute; reflexivity | set_solver]).

Lemma ex_x_session : session Ready [] [0]%nat A_x ex_x.
Proof.
  apply (ex_assert_session [] [] [] ex_declared 0 1 true ex_declared_session);
    [by vm_compute | ex_known | vm_compute; reflexivity..].
Qed.
Lemma ex_xy_session : session Ready [] [0; 1]%nat A_xy ex_xy.
Proof.
  apply (ex_assert_session [] [0]%nat A_x ex_x 1 3 true ex_x_session);
    [by vm_compute | ex_known | vm_compute; reflexivity..].
Qed.
Lemma ex_xys_session : session Ready [] [0; 1; 2]%nat A_xys ex_xys.
Proof.
  apply (ex_assert_session [] [0; 1]%nat A_xy ex_xy 2 5 true ex_xy_session);
    [by vm_compute | ex_known | vm_compute; reflexivity..].
Qed.
Lemma ex_low_session : session Ready [] [0; 1; 2]%nat A_low ex_low.
Proof.
  apply (ex_assert_session [] [0; 1]%nat A_xy ex_xy 2 4 true ex_xy_session);
    [by vm_compute | ex_known | vm_compute; reflexivity..].
Qed.

Definition ex_refuted : Explanation Qc * Simplex Qc := get ([], ex_low) (checkSimplex 8 ex_low).

Lemma ex_refuted_run : checkSimplex 8 ex_low = Ok (ex_refuted.1, ex_refuted.2).
Proof.
  rewrite <- surjective_pairing. unfold ex_refuted.
  assert (is_ok (checkSimplex 8 ex_low) = true) as Hok by (vm_compute; reflexivity). exact (get_ok _ _ Hok).
Qed.

Lemma ex_checked_run : checkSimplex 8 ex_xys = Ok ([], ex_checked).
Proof.
  assert (is_ok (checkSimplex 8 ex_xys) = true) as Hok by (vm_compute; reflexivity).
  apply (get_ok ([], ex_xys)) in Hok. rewrite Hok at 1. unfold ex_checked.
  assert ((get ([], ex_xys) (checkSimplex 8 ex_xys)).1 = []) as He by (vm_compute; reflexivity).
  rewrite (surjective_pairing (get _ _)) at 1. rewrite He. reflexivity.
Qed.

Lemma checkSimplex_decides_witness : ∃ e s', checkSimplex 8 ex_low = Ok (e, s')
  ∧ (e = [] ↔ ∃ σ, solution (tableau ex_low) σ ∧ holds (boundStore ex_low) A_low σ).
Proof.
  apply (checkSimplex_decides [] [0; 1; 2]%nat A_low ex_low 8 ex_low_session).
  apply Nat.leb_le. vm_compute. reflexivity.
Defined.

Lemma checkSimplex_terminates_witness : ∃ r, ∀ k, (2 * dim ex_low + 2 ≤ k)%nat → checkSimplex k ex_low = Ok r.
Proof. exact (checkSimplex_terminates [] [0; 1; 2]%nat A_low ex_low ex_low_session). Defined.

Lemma explanation_refutes_witness : length ex_refuted.1 = 3%nat ∧
  (weigh (boundStore ex_low) right_side ex_refuted.1 < lzero)%lex.
Proof.
  split; [vm_compute; reflexivity|].
  apply (explanation_refutes [] [0; 1; 2]%nat A_low ex_low 8 ex_refuted.1 ex_refuted.2 ex_low_session).
  - apply Nat.leb_le. vm_compute. reflexivity.
  - exact ex_refuted_run.
  - intros E. apply (f_equal length) in E. vm_compute in E. discriminate E.
Defined.

Lemma rational_model_witness : ∃ d ρ, computeDelta ex_checked = Ok d ∧ (0 < d)
  ∧ rat_solution (tableau ex_xys) ρ ∧ rat_holds (boundStore ex_xys) A_xys ρ.
Proof.
  destruct (rational_model [] [0; 1; 2]%nat A_xys ex_xys 8 ex_checked ex_xys_session) as (d & ρ & H1 & H2 & H3 & H4 & _).
  - apply Nat.leb_le. vm_compute. reflexivity.
  - exact ex_checked_run.
  - intros br b Hb. change (ba (boundStore ex_xys)) with (ba (boundStore ex_xys)) in Hb.
    do 6 (destruct br as [|br]; [vm_compute in Hb; injection Hb as <-; by vm_compute|]). by vm_compute in Hb.
  - intros v Hv. change (lvstore (boundStore ex_xys)) with [0; 1; 2]%nat in Hv.
    assert (dim ex_checked = 3%nat) as -> by (vm_compute; reflexivity). set_solver by lia.
  - intros e He. change (lvstore (boundStore ex_xys)) with [0; 1; 2]%nat. unfold A_xys in He. set_solver.
  - exists d, ρ. exact (conj H1 (conj H2 (conj H3 H4))).
Defined.

Lemma assertBoundOnVar_correct_witness : ∃ e s', assertBoundOnVar 2 4 ex_xys = Ok (e, s') ∧ e ≠ [] ∧ s' = ex_xys.
Proof.
  destruct (assertBoundOnVar_correct [] [0; 1; 2]%nat A_xys ex_xys 2 4 ex_xys_session) as (e & s' & E & H1).
  - by vm_compute.
  - ex_known.
  - exists e, s'. split; [exact E|]. destruct H1 as [(He & _)|(He & Hs & _)]; [|exact (conj He Hs)].
    apply (f_equal (λ r, length (get ([], ex_xys) r).1)) in E. rewrite He in E. vm_compute in E. discriminate E.
Defined.

Lemma backtracking_restores_witness : ∃ s1 s' s2, Simplex_popBacktrackPoint ex_refuted.2 = Ok s1
  ∧ boundDeactivated 2 s1 = Ok s' ∧ boundStore s' = boundStore ex_refuted.2
  ∧ session Popping [] [0; 1]%nat A_xy s' ∧ s2 = s'.
Proof.
  destruct (backtracking_restores [] [0; 1]%nat A_xy [Ev 2 4 true] ex_refuted.2) as (s1 & s' & H1 & H2 & H3 & H4 & _).
  - apply (ses_backtrack Conflict). refine (ses_conflict _ _ _ ex_low 8 ex_refuted.1 _ ex_low_session _ _ _).
    + apply session_fuel, Nat.leb_le. vm_compute. reflexivity.
    + exact ex_refuted_run.
    + intros E. apply (f_equal length) in E. vm_compute in E. discriminate E.
  - right. eauto.
  - exists s1, s', s'. exact (conj H1 (conj H2 (conj H4 (conj H3 eq_refl)))).
Defined.

Lemma session_invariant_witness : tab_inv (tableau ex_low) ∧ boundsActivated ex_low !! 2%nat = Some 1%nat.
Proof.
  destruct (session_invariant Ready [] [0; 1; 2]%nat A_low ex_low ex_low_session) as (H1 & _ & _ & _ & _ & _ & H2 & _).
  split; [exact H1|]. apply (H2 2%nat). apply Nat.leb_le. vm_compute. reflexivity.
Defined.

Lemma newRow_defines_witness : ∃ s', Simplex_newRow 3 [ex_term 0; ex_term 2] ex_low = Ok s'
  ∧ session Ready [] [0; 1; 2]%nat A_low s'
  ∧ ∀ σ, solution (tableau s') σ ↔ solution (tableau ex_low) σ ∧ σ 3%nat = peval σ [ex_term 0; ex_term 2].
Proof.
  apply (newRow_defines [] [0; 1; 2]%nat A_low ex_low 3 [ex_term 0; ex_term 2] ex_low_session).
  - vm_compute. reflexivity.
  - split; [repeat constructor|]. repeat constructor; by vm_compute.
  - intros u Hu. assert (u = 0%nat ∨ u = 2%nat) as [-> | ->].
    { apply elem_of_cons in Hu as [Hu|[Hu|Hu]%elem_of_cons]; [by left|by right|by apply not_elem_of_nil in Hu]. }
    + vm_compute. discriminate.
    + vm_compute. discriminate.
Defined.

Lemma pivot_preserves_solutions_witness : ∃ t', pivot 2 0 (tableau ex_low) = Ok t' ∧ tab_inv t'
  ∧ ∀ σ, solution t' σ ↔ solution (tableau ex_low) σ.
Proof.
  destruct (pivot_preserves_solutions (tableau ex_low) 2 0 [ex_term 0; ex_term 1]) as (t' & H1 & H2 & _ & _ & _ & H3).
  - exact (proj1 (session_invariant Ready [] [0; 1; 2]%nat A_low ex_low ex_low_session)).
  - vm_compute. reflexivity.
  - vm_compute. reflexivity.
  - vm_compute. reflexivity.
  - simpl. apply elem_of_cons. by left.
  - exists t'. exact (conj H1 (conj H2 H3)).
Defined.
