(* ===== verification/DiffGraph.v ===== *)
(** * Weighted graphs and label-correcting search

    The mathematics under the difference-logic solver: walks and their costs,
    graphs without negative cycles, the assignments that satisfy the
    constraints [x(src) - x(dst) ≤ w] of the edges, and the search that
    corrects labels until every edge is relaxed.  A constraint set is the list
    of its edges; nothing here depends on how the solver stores them.
    Then: label-correcting search for shortest distances, and potentials. *)
From S2P Require Import Prelude Number Lex.
From Stdlib Require Import Lia.

Record dedge : Type := DEdge { src : nat; dst : nat; w : lexq }.

#[export] Instance dedge_eq_dec : EqDecision dedge.
Proof. solve_decision. Defined.

Definition cost (p : list dedge) : lexq := foldr (λ e c, w e + c)%lex lzero p.

Inductive path (G : list dedge) (u : nat) : list dedge → nat → Prop :=
| path_nil : path G u [] u
| path_snoc p e : path G u p (src e) → e ∈ G → path G u (p ++ [e]) (dst e).

Definition nonneg (G : list dedge) : Prop := ∀ u p, path G u p u → (lzero <= cost p)%lex.

(** ** Walks *)

Lemma cost_app p q : cost (p ++ q) = (cost p + cost q)%lex.
Proof.
  induction p as [|e p IH]; simpl; [by rewrite ladd_0_l|]. by rewrite IH, ladd_assoc.
Qed.
Lemma cost_one e : cost [e] = w e.
Proof. simpl. apply ladd_0_r. Qed.
Lemma cost_snoc p e : cost (p ++ [e]) = (cost p + w e)%lex.
Proof. by rewrite cost_app, cost_one. Qed.

Lemma path_app G u p v q x : path G u p v → path G v q x → path G u (p ++ q) x.
Proof.
  intros Hp Hq. induction Hq as [|q e Hq IH He]; [by rewrite app_nil_r|].
  rewrite app_assoc. by constructor.
Qed.
Lemma path_one G e : e ∈ G → path G (src e) [e] (dst e).
Proof. intros He. apply (path_snoc G (src e) [] e); [constructor | done]. Qed.
Lemma path_cons G e p v : e ∈ G → path G (dst e) p v → path G (src e) (e :: p) v.
Proof. intros He Hp. apply (path_app G _ [e] (dst e)); [by apply path_one | done]. Qed.

Lemma path_mono G G' u p v : G ⊆ G' → path G u p v → path G' u p v.
Proof. intros HG Hp. induction Hp; constructor; auto. Qed.
Lemma path_edges G u p v e : path G u p v → e ∈ p → e ∈ G.
Proof.
  intros Hp. induction Hp as [|p f Hp IH Hf]; [by intros ?%elem_of_nil|].
  rewrite elem_of_app, list_elem_of_singleton. intros [?| ->]; auto.
Qed.

(** The last vertex of a walk from [u]. *)
Definition end_of (u : nat) (p : list dedge) : nat := from_option dst u (last p).

Lemma end_of_snoc u p e : end_of u (p ++ [e]) = dst e.
Proof. unfold end_of. by rewrite last_snoc. Qed.
Lemma path_end G u p v : path G u p v → end_of u p = v.
Proof. intros []; [done | apply end_of_snoc]. Qed.

Lemma path_snoc_inv G u p e v : path G u (p ++ [e]) v → path G u p (src e) ∧ e ∈ G ∧ v = dst e.
Proof.
  intros H. remember (p ++ [e]) as l eqn:E. destruct H as [|r f Hr Hf]; [by destruct p|].
  by apply app_inj_tail in E as [-> ->].
Qed.

Lemma path_nil_inv G u v : path G u [] v → v = u.
Proof.
  intros H. remember [] as l eqn:E. destruct H as [|r f Hr Hf]; [done|]. by destruct r.
Qed.

Lemma path_split G u p q v : path G u (p ++ q) v →
  path G u p (end_of u p) ∧ path G (end_of u p) q v.
Proof.
  revert v. induction q as [|e q IH] using rev_ind; intros v Hp.
  - rewrite app_nil_r in Hp. rewrite (path_end _ _ _ _ Hp). split; [done | constructor].
  - rewrite app_assoc in Hp. apply path_snoc_inv in Hp as (Hr & He & ->).
    destruct (IH _ Hr). split; [done|]. by constructor.
Qed.

Lemma path_cons_inv G u e q v : path G u (e :: q) v → u = src e ∧ e ∈ G ∧ path G (dst e) q v.
Proof.
  intros H. apply (path_split G u [e] q) in H as [H1 H2].
  apply (path_snoc_inv G u []) in H1 as (Hr & He & _). apply path_nil_inv in Hr.
  done.
Qed.

(** ** Reversed graphs *)

Definition flip (e : dedge) : dedge := DEdge (dst e) (src e) (w e).

Lemma flip_flip e : flip (flip e) = e.
Proof. by destruct e. Qed.

Lemma cost_flip p : cost (reverse (flip <$> p)) = cost p.
Proof.
  induction p as [|e p IH]; [done|]. rewrite fmap_cons, reverse_cons, cost_snoc, IH.
  simpl. apply ladd_comm.
Qed.

Lemma path_flip G u p v : path G u p v → path (flip <$> G) v (reverse (flip <$> p)) u.
Proof.
  intros Hp. induction Hp as [|p e Hp IH He]; [constructor|].
  rewrite fmap_app, reverse_app. simpl.
  apply (path_cons _ (flip e)); [|done]. apply list_elem_of_fmap. eauto.
Qed.

Lemma flip_graph (G : list dedge) : flip <$> (flip <$> G) = G.
Proof. induction G as [|e G IH]; [done|]. by rewrite !fmap_cons, IH, flip_flip. Qed.

Lemma path_unflip G u p v : path (flip <$> G) u p v → path G v (reverse (flip <$> p)) u.
Proof. intros Hp. apply path_flip in Hp. by rewrite flip_graph in Hp. Qed.

Lemma nonneg_flip G : nonneg G → nonneg (flip <$> G).
Proof. intros H u p Hp. apply path_unflip, H in Hp. by rewrite cost_flip in Hp. Qed.

(** ** Shortest distances *)

Definition is_dist (G : list dedge) (u v : nat) (c : lexq) : Prop :=
  (∃ p, path G u p v ∧ cost p = c) ∧ ∀ p, path G u p v → (c <= cost p)%lex.

Lemma is_dist_flip G u v c : is_dist (flip <$> G) u v c → is_dist G v u c.
Proof.
  intros [(p & Hp & <-) Hmin]. split.
  - exists (reverse (flip <$> p)). split; [by apply path_unflip | apply cost_flip].
  - intros q Hq. rewrite <- (cost_flip q). apply Hmin. by apply path_flip.
Qed.

(** Constraint [x(a) - x(b) ≤ c] follows from the constraints of [G]. *)
Definition implied (G : list dedge) (a b : nat) (c : lexq) : Prop :=
  ∃ p, path G a p b ∧ (cost p <= c)%lex.

Definition satisfies (x : nat → lexq) (G : list dedge) : Prop :=
  ∀ e, e ∈ G → (x (src e) - x (dst e) <= w e)%lex.

Lemma satisfies_path x G u p v : satisfies x G → path G u p v → (x u - x v <= cost p)%lex.
Proof.
  intros Hx Hp. induction Hp as [|p e Hp IH He]; [simpl; lex|].
  specialize (Hx e He). rewrite cost_snoc. lex.
Qed.

Lemma satisfies_nonneg x G : satisfies x G → nonneg G.
Proof. intros Hx u p Hp. pose proof (satisfies_path x G u p u Hx Hp). lex. Qed.

Lemma satisfies_implied x G a b c : satisfies x G → implied G a b c → (x a - x b <= c)%lex.
Proof.
  intros Hx (p & Hp & Hc). pose proof (satisfies_path x G a p b Hx Hp). lex.
Qed.

(** Without a walk from [dst e] to [src e] that [e] would close into a
    negative cycle, shortest walks of [e :: G] use [e] at most once. *)
Lemma path_add_edge_bound G e : nonneg G →
  (∀ p, path G (dst e) p (src e) → (lzero <= cost p + w e)%lex) →
  ∀ u p v, path (e :: G) u p v →
    (∃ q, path G u q v ∧ (cost q <= cost p)%lex)
    ∨ (∃ q1 q2, path G u q1 (src e) ∧ path G (dst e) q2 v
         ∧ (cost q1 + w e + cost q2 <= cost p)%lex).
Proof.
  intros HG Hcl u p v Hp. induction Hp as [|p f Hp IH Hf].
  { left. exists []. split; [constructor | apply lle_refl]. }
  destruct IH as [(q & Hq & Hc)|(q1 & q2 & H1 & H2 & Hc)].
  - apply elem_of_cons in Hf as [->|Hf].
    + right. exists q, []. split; [done|]. split; [constructor|].
      rewrite cost_snoc. simpl. lex.
    + left. exists (q ++ [f]). split; [by constructor|]. rewrite !cost_snoc. lex.
  - apply elem_of_cons in Hf as [->|Hf].
    + right. exists q1, []. split; [done|]. split; [constructor|].
      specialize (Hcl q2 H2). rewrite cost_snoc. simpl. lex.
    + right. exists q1, (q2 ++ [f]). split; [done|]. split; [by constructor|].
      rewrite !cost_snoc. lex.
Qed.

Lemma nonneg_add_edge G e : nonneg G →
  (∀ p, path G (dst e) p (src e) → (lzero <= cost p + w e)%lex) → nonneg (e :: G).
Proof.
  intros HG Hcl u p Hp.
  destruct (path_add_edge_bound G e HG Hcl u p u Hp) as [(q & Hq & Hc)|(q1 & q2 & H1 & H2 & Hc)].
  - specialize (HG u q Hq). lex.
  - specialize (Hcl (q2 ++ q1) (path_app _ _ _ _ _ _ H2 H1)). rewrite cost_app in Hcl. lex.
Qed.

(** * Label-correcting search

    The depth-first and breadth-first searches of the difference-logic solver
    share one scheme: a vertex whose label drops is put (back) on a worklist,
    and taking a vertex off the worklist relaxes its outgoing edges.  [lc] is
    the invariant of that scheme on a graph without negative cycles.  Its key
    clause is that a label is always the cost of a simple path along which no
    label exceeds the path's cost: this is what makes the search terminate,
    because every correction uses up one of the finitely many simple paths. *)

Definition labels : Type := nat → option lexq.

Definition relabel (lab : labels) (v : nat) (c : lexq) : labels :=
  λ x, if decide (x = v) then Some c else lab x.

Definition relaxed (lab : labels) (e : dedge) : Prop :=
  ∀ c, lab (src e) = Some c → ∃ c', lab (dst e) = Some c' ∧ (c' <= c + w e)%lex.

Section search.
Context (G : list dedge) (init : nat).
Hypothesis HG : nonneg G.

Definition below (lab : labels) (p : list dedge) : Prop :=
  ∀ p1 p2, p = p1 ++ p2 → ∃ c, lab (end_of init p1) = Some c ∧ (c <= cost p1)%lex.

Record hist (lab : labels) (v : nat) (c : lexq) (p : list dedge) : Prop := {
  hist_path : path G init p v;
  hist_cost : cost p = c;
  hist_simple : NoDup (init :: (dst <$> p));
  hist_below : below lab p;
}.

Record lc (lab : labels) (todo : list nat) (ex : list dedge) : Prop := {
  lc_init : lab init = Some lzero;
  lc_todo : ∀ v, v ∈ todo → is_Some (lab v);
  lc_hist : ∀ v c, lab v = Some c → ∃ p, hist lab v c p;
  lc_relaxed : ∀ e, e ∈ G → src e ∉ todo → e ∉ ex → relaxed lab e;
}.

Lemma end_in u p : end_of u p ∈ u :: (dst <$> p).
Proof.
  unfold end_of. destruct p as [|e p] using rev_ind; [apply elem_of_cons; by left|].
  rewrite last_snoc, fmap_app. simpl. rewrite elem_of_cons, elem_of_app. right. right.
  by apply list_elem_of_singleton.
Qed.

(** A vertex on a walk splits it. *)
Lemma elem_split_path u p x : x ∈ u :: (dst <$> p) → ∃ p1 p2, p = p1 ++ p2 ∧ end_of u p1 = x.
Proof.
  induction p as [|e p IH] using rev_ind.
  - rewrite elem_of_cons, elem_of_nil. intros [->|[]]. by exists [], [].
  - rewrite fmap_app, elem_of_cons, elem_of_app. simpl. rewrite list_elem_of_singleton.
    intros [->|[H| ->]].
    + exists [], (p ++ [e]). done.
    + destruct IH as (p1 & p2 & -> & <-); [apply elem_of_cons; by right|].
      exists p1, (p2 ++ [e]). by rewrite <- app_assoc.
    + exists (p ++ [e]), []. rewrite app_nil_r, end_of_snoc. done.
Qed.

Lemma lc_start : lc (relabel (λ _, None) init lzero) [init] [].
Proof.
  constructor.
  - unfold relabel. by rewrite decide_True.
  - intros v Hv%list_elem_of_singleton. subst. unfold relabel. rewrite decide_True by done. eauto.
  - unfold relabel. intros v c Hv. destruct (decide (v = init)) as [->|]; [|done].
    injection Hv as <-. exists []. constructor; try done.
    + constructor.
    + apply NoDup_singleton.
    + intros p1 p2 Hp. symmetry in Hp. apply app_eq_nil in Hp as [-> ->].
      exists lzero. unfold end_of. simpl. rewrite decide_True by done.
      split; [done | apply lle_refl].
  - intros e _ Hs _ c. unfold relabel. rewrite decide_False; [done|].
    intros E. apply Hs. rewrite E. apply list_elem_of_singleton. done.
Qed.

(** Taking [v] off the worklist exempts its outgoing edges. *)
Lemma lc_pop lab v todo todo' ex : lc lab todo [] →
  (∀ x, x ∈ todo → x = v ∨ x ∈ todo') → (∀ x, x ∈ todo' → x ∈ todo) →
  (∀ e, e ∈ G → src e = v → e ∈ ex) → lc lab todo' ex.
Proof.
  intros [H1 H2 H3 H4] Ht Ht' Hex. constructor; try done.
  - intros x Hx. apply H2. auto.
  - intros e He Hs He'. apply H4; [done| |by intros ?%elem_of_nil].
    intros Hin. destruct (Ht _ Hin) as [Hv|]; [|done]. by apply He', Hex.
Qed.

(** Scanning an edge that is relaxed already. *)
Lemma lc_skip lab todo e ex : lc lab todo (e :: ex) → relaxed lab e → lc lab todo ex.
Proof.
  intros [H1 H2 H3 H4] Hr. constructor; try done.
  intros f Hf Hs Hx. destruct (decide (f = e)) as [->|Hne]; [done|].
  apply H4; [done | done | by rewrite elem_of_cons; intros [|]].
Qed.

Definition improves (lab : labels) (v : nat) (c : lexq) : Prop :=
  match lab v with None => True | Some c' => (c < c')%lex end.

(** The simple path of an improved label. *)
Lemma improve_hist lab todo ex e c : lc lab todo ex → e ∈ G → lab (src e) = Some c →
  improves lab (dst e) (c + w e) →
  ∃ p, hist lab (src e) c p ∧ path G init (p ++ [e]) (dst e) ∧ cost (p ++ [e]) = (c + w e)%lex
    ∧ NoDup (init :: (dst <$> (p ++ [e]))) ∧ dst e ∉ init :: (dst <$> p).
Proof.
  intros Hlc He Hc Himp. destruct (lc_hist _ _ _ Hlc _ _ Hc) as [p Hp]. exists p.
  pose proof Hp as [Hpath Hcost Hsimp Hb].
  assert (dst e ∉ init :: (dst <$> p)) as Hnew.
  { intros Hin. destruct (elem_split_path _ _ _ Hin) as (p1 & p2 & -> & Hend).
    destruct (Hb p1 p2 eq_refl) as (c1 & Hc1 & Hle). rewrite Hend in Hc1.
    unfold improves in Himp. rewrite Hc1 in Himp.
    destruct (path_split _ _ _ _ _ Hpath) as [_ Hp2]. rewrite Hend in Hp2.
    pose proof (HG _ _ (path_snoc G _ _ _ Hp2 He)) as Hcyc.
    rewrite cost_snoc in Hcyc. rewrite cost_app in Hcost. subst c. lex. }
  split; [done|]. split; [by constructor|]. split; [by rewrite cost_snoc, Hcost|].
  split; [|done]. rewrite fmap_app, app_comm_cons. apply NoDup_app. split; [done|].
  split; [|apply NoDup_singleton]. intros x Hx Hx'. apply list_elem_of_singleton in Hx'. by subst.
Qed.

Lemma below_relabel lab p v c : below lab p → improves lab v c → below (relabel lab v c) p.
Proof.
  intros Hb Himp p1 p2 Hp. destruct (Hb p1 p2 Hp) as (c1 & Hc1 & Hle). unfold relabel.
  destruct (decide _) as [E|]; [|eauto]. unfold improves in Himp. rewrite <- E, Hc1 in Himp.
  exists c. split; [done | lex].
Qed.

Lemma below_snoc lab p e : below lab p → (∃ c, lab (dst e) = Some c ∧ (c <= cost (p ++ [e]))%lex) →
  below lab (p ++ [e]).
Proof.
  intros Hb (c & Hc & Hle) p1 p2 Hp. destruct p2 as [|f p2] using rev_ind.
  - rewrite app_nil_r in Hp. subst p1. exists c. by rewrite end_of_snoc.
  - rewrite app_assoc in Hp. apply app_inj_tail in Hp as [-> <-]. by apply (Hb p1 p2).
Qed.

Lemma relaxed_relabel lab v c e : relaxed lab e → improves lab v c → src e ≠ v →
  relaxed (relabel lab v c) e.
Proof.
  intros Hr Himp Hs c1. unfold relabel. rewrite decide_False by done. intros Hc1.
  destruct (Hr c1 Hc1) as (c2 & Hc2 & Hle). destruct (decide _) as [E|]; [|eauto].
  unfold improves in Himp. rewrite <- E, Hc2 in Himp. exists c. split; [done | lex].
Qed.

(** Scanning an edge that lowers the label of its end. *)
Lemma lc_improve lab todo todo' e ex c : lc lab todo (e :: ex) → e ∈ G →
  lab (src e) = Some c → improves lab (dst e) (c + w e) →
  (∀ x, x ∈ todo' ↔ x = dst e ∨ x ∈ todo) →
  lc (relabel lab (dst e) (c + w e)) todo' ex.
Proof.
  intros Hlc He Hc Himp Ht.
  destruct (improve_hist _ _ _ _ _ Hlc He Hc Himp) as (p & Hp & Hpath & Hcost & Hsimp & Hnew).
  pose proof Hlc as [H1 H2 H3 H4]. rewrite not_elem_of_cons in Hnew. destruct Hnew as [Hni _].
  assert (dst e ≠ src e) as Hself.
  { intros E. unfold improves in Himp. rewrite E, Hc in Himp.
    pose proof (HG (src e) [e]) as Hcyc. rewrite cost_one in Hcyc.
    specialize (Hcyc ltac:(rewrite <- E at 2; by apply path_one)). lex. }
  constructor.
  - unfold relabel. by rewrite decide_False by done.
  - intros x [->|Hx]%Ht; unfold relabel; (destruct (decide _); [eauto | eauto]).
    congruence.
  - intros v cv. unfold relabel at 1. destruct (decide (v = dst e)) as [->|Hv].
    + intros [= <-]. exists (p ++ [e]). constructor; try done.
      apply below_snoc; [by apply below_relabel; [apply Hp|]|]. unfold relabel.
      rewrite decide_True by done. eexists. split; [done|]. rewrite Hcost. apply lle_refl.
    + intros Hcv. destruct (H3 v cv Hcv) as [q [Q1 Q2 Q3 Q4]]. exists q.
      constructor; try done. by apply below_relabel.
  - intros f Hf Hs Hx. rewrite Ht in Hs. assert (src f ≠ dst e) by tauto.
    destruct (decide (f = e)) as [->|Hfe].
    + intros c1. unfold relabel. rewrite decide_False by done. rewrite Hc. intros [= <-].
      rewrite decide_True by done. eexists. split; [done | apply lle_refl].
    + apply relaxed_relabel; [|done|done]. apply H4; [done | tauto |].
      rewrite elem_of_cons. tauto.
Qed.

(** A label is the cost of a walk. *)
Lemma lc_label_path lab todo ex v c : lc lab todo ex → lab v = Some c →
  ∃ p, path G init p v ∧ cost p = c.
Proof. intros Hlc Hv. destruct (lc_hist _ _ _ Hlc _ _ Hv) as [p []]. eauto. Qed.

(** When the worklist is empty the labels are the shortest distances. *)
Lemma lc_done lab v : lc lab [] [] →
  match lab v with Some c => is_dist G init v c | None => ∀ p, ¬ path G init p v end.
Proof.
  intros Hlc. assert (∀ p v, path G init p v → ∃ c, lab v = Some c ∧ (c <= cost p)%lex) as Hmin.
  { intros p x Hp. induction Hp as [|p e Hp IH He].
    - exists lzero. split; [apply Hlc | apply lle_refl].
    - destruct IH as (c & Hc & Hle).
      destruct (lc_relaxed _ _ _ Hlc e He ltac:(apply not_elem_of_nil) ltac:(apply not_elem_of_nil) c Hc)
        as (c' & Hc' & Hle').
      exists c'. split; [done|]. rewrite cost_snoc. lex. }
  destruct (lab v) as [c|] eqn:Hv.
  - split; [by eapply lc_label_path|]. intros p Hp.
    destruct (Hmin p v Hp) as (c' & E & Hle). congruence.
  - intros p Hp. destruct (Hmin p v Hp) as (c' & E & Hle). congruence.
Qed.

(** ** Termination *)

(** Every list of at most [k] edges. *)
Fixpoint tuples (k : nat) : list (list dedge) :=
  match k with
  | O => [[]]
  | S k => [] :: (G ≫= λ e, cons e <$> tuples k)
  end.

Lemma length_tuples k : (length (tuples k) <= (length G + 1) ^ k)%nat.
Proof.
  induction k as [|k IH]; simpl; [lia|].
  assert (length (G ≫= λ e, cons e <$> tuples k) = length G * length (tuples k))%nat as ->.
  { generalize (tuples k). clear. intros l. induction G as [|e G' IH]; [done|].
    change ((e :: G') ≫= λ e, cons e <$> l) with ((cons e <$> l) ++ (G' ≫= λ e, cons e <$> l)).
    rewrite length_app, length_fmap, IH. done. }
  assert (1 <= (length G + 1) ^ k)%nat by (apply Nat.neq_0_lt_0, Nat.pow_nonzero; lia).
  nia.
Qed.

Lemma elem_of_tuples k p : (∀ e, e ∈ p → e ∈ G) → (length p <= k)%nat → p ∈ tuples k.
Proof.
  revert p. induction k as [|k IH]; intros [|e p] Hp Hl; simpl in *; try lia.
  - by apply list_elem_of_singleton.
  - apply elem_of_cons. by left.
  - apply elem_of_cons. right. apply list_elem_of_bind. exists e. split; [|apply Hp; left].
    apply list_elem_of_fmap. exists p. split; [done|]. apply IH; [|lia].
    intros f Hf. apply Hp. by right.
Qed.

Definition unused (lab : labels) (p : list dedge) : Prop :=
  match lab (end_of init p) with None => True | Some c => (cost p < c)%lex end.

#[local] Instance unused_dec lab p : Decision (unused lab p).
Proof. unfold unused. destruct (lab _); apply _. Defined.

Context (n : nat).

Definition unused_count (lab : labels) : nat :=
  length (base.filter (unused lab) (tuples n)).

Lemma unused_count_bound lab : (unused_count lab <= (length G + 1) ^ n)%nat.
Proof.
  unfold unused_count. etransitivity; [apply length_filter | apply length_tuples].
Qed.

Lemma filter_lt {A} (P Q : A → Prop) `{∀ x, Decision (P x)} `{∀ x, Decision (Q x)} l x :
  (∀ y, P y → Q y) → x ∈ l → Q x → ¬ P x →
  (length (base.filter P l) < length (base.filter Q l))%nat.
Proof.
  intros HPQ Hx HQ HP. apply list_elem_of_split in Hx as (l1 & l2 & ->).
  assert (∀ l, length (base.filter P l) <= length (base.filter Q l))%nat as Hle.
  { clear -HPQ. intros l. induction l as [|y l IH]; [done|].
    rewrite !filter_cons. destruct (decide (P y)) as [Hy|Hy].
    - rewrite decide_True by auto. simpl. lia.
    - destruct (decide (Q y)); simpl; lia. }
  rewrite !filter_app, !length_app, !filter_cons, (decide_False (P := P x)), (decide_True (P := Q x))
    by done. simpl. pose proof (Hle l1). pose proof (Hle l2). lia.
Qed.

(** In a graph on [n] vertices every correction uses up a simple path. *)
Lemma improve_unused lab todo ex e c : lc lab todo ex → e ∈ G →
  lab (src e) = Some c → improves lab (dst e) (c + w e) →
  (init < n)%nat → (∀ e, e ∈ G → (dst e < n)%nat) →
  (unused_count (relabel lab (dst e) (c + w e)) < unused_count lab)%nat.
Proof.
  intros Hlc He Hc Himp Hin Hn.
  destruct (improve_hist _ _ _ _ _ Hlc He Hc Himp) as (p & Hp & Hpath & Hcost & Hsimp & _).
  apply filter_lt with (x := p ++ [e]).
  - intros q. unfold unused, relabel. destruct (decide _) as [E|]; [|done].
    intros Hq. rewrite E. unfold improves in Himp. destruct (lab (dst e)); [|done]. lex.
  - apply elem_of_tuples; [intros f Hf; by eapply path_edges|].
    assert (length (init :: (dst <$> (p ++ [e]))) <= length (seq 0 n))%nat as Hle.
    { apply submseteq_length, NoDup_submseteq; [done|]. intros x Hx.
      apply elem_of_seq. apply elem_of_cons in Hx as [->|Hx]; [lia|].
      apply list_elem_of_fmap in Hx as (f & -> & Hf). specialize (Hn f). split; [lia|].
      apply Hn. by eapply path_edges. }
    rewrite length_seq in Hle. simpl in Hle. rewrite length_fmap in Hle. lia.
  - unfold unused. rewrite end_of_snoc, Hcost. unfold improves in Himp.
    destruct (lab (dst e)); [|done]. done.
  - unfold unused, relabel. rewrite end_of_snoc, decide_True, Hcost by done. apply llt_irrefl.
Qed.

(** Labels that agree pointwise. *)
Lemma lc_ext (lab lab' : labels) todo ex : (∀ v, lab v = lab' v) → lc lab todo ex → lc lab' todo ex.
Proof.
  intros E [H1 H2 H3 H4]. constructor.
  - by rewrite <- E.
  - intros v Hv. rewrite <- E. auto.
  - intros v c. rewrite <- E. intros Hv. destruct (H3 v c Hv) as [p [P1 P2 P3 P4]].
    exists p. constructor; try done. intros p1 p2 Hp. rewrite <- E. by apply (P4 p1 p2).
  - intros e He Hs Hx c. rewrite <- !E. by apply H4.
Qed.

Lemma unused_ext (lab lab' : labels) : (∀ v, lab v = lab' v) → unused_count lab = unused_count lab'.
Proof.
  intros E. unfold unused_count. f_equal. apply list_filter_iff. intros p. unfold unused. by rewrite E.
Qed.

End search.

(** ** Parents

    A search that also remembers, for every labelled vertex, the edge that
    gave it its label can walk back to the start: the parent edges form a
    tree, because closing a cycle of them would need a negative one. *)

Definition parents : Type := nat → option dedge.

Definition set_parent (par : parents) (v : nat) (e : dedge) : parents :=
  λ x, if decide (x = v) then Some e else par x.

Section parents.
Context (G : list dedge) (init : nat).
Hypothesis HG : nonneg G.

Inductive chain (par : parents) : nat → list dedge → Prop :=
| chain_init : chain par init []
| chain_step v e p : v ≠ init → par v = Some e → chain par (src e) p → chain par v (p ++ [e]).

Record pinv (lab : labels) (par : parents) : Prop := {
  pi_init : lab init = Some lzero;
  pi_par : ∀ v e, par v = Some e → e ∈ G ∧ dst e = v
    ∧ ∃ c c', lab (src e) = Some c ∧ lab v = Some c' ∧ (c + w e <= c')%lex;
  pi_chain : ∀ v, is_Some (lab v) → ∃ p, chain par v p;
}.

Lemma chain_path lab par v p : pinv lab par → chain par v p →
  path G init p v ∧ ∀ c, lab v = Some c → (cost p <= c)%lex.
Proof.
  intros Hp Hc. induction Hc as [|v e p Hv Hpar Hc [IH1 IH2]].
  - split; [constructor|]. intros c. rewrite (pi_init _ _ Hp). intros [= <-]. apply lle_refl.
  - destruct (pi_par _ _ Hp v e Hpar) as (He & <- & c1 & c2 & E1 & E2 & Hle).
    split; [by constructor|]. intros c Ec. rewrite Ec in E2. injection E2 as <-.
    specialize (IH2 c1 E1). rewrite cost_snoc. lex.
Qed.

Lemma chain_unique par v p q : chain par v p → chain par v q → p = q.
Proof.
  intros Hp. revert q. induction Hp as [|v e p Hv Hpar Hp IH]; intros q Hq.
  - inversion Hq; [done | congruence].
  - inversion Hq as [E|v' e' q' Hv' Hpar' Hq' E1 E2]; [congruence|]. subst.
    assert (e' = e) as -> by congruence. f_equal. by apply IH.
Qed.

(** The vertices of a chain have the prefixes as their chains. *)
Lemma chain_prefix par v p x : chain par v p → x ∈ init :: (dst <$> p) → (∀ v e, par v = Some e → dst e = v) →
  ∃ p1 p2, p = p1 ++ p2 ∧ chain par x p1.
Proof.
  intros Hc Hx Hd. induction Hc as [|v e p Hv Hpar Hc IH].
  - rewrite elem_of_cons, elem_of_nil in Hx. destruct Hx as [->|[]]. exists [], []. split; [done | constructor].
  - rewrite fmap_app, app_comm_cons, elem_of_app in Hx. simpl in Hx.
    rewrite list_elem_of_singleton in Hx. destruct Hx as [Hx| ->].
    + destruct (IH Hx) as (p1 & p2 & -> & H1). exists p1, (p2 ++ [e]). by rewrite app_assoc.
    + exists (p ++ [e]), []. rewrite app_nil_r. split; [done|].
      rewrite (Hd v e Hpar). by constructor.
Qed.

Lemma chain_nodup par v p : chain par v p → (∀ v e, par v = Some e → dst e = v) →
  NoDup (init :: (dst <$> p)).
Proof.
  intros Hc Hd. induction Hc as [|v e p Hv Hpar Hc IH]; [apply NoDup_singleton|].
  rewrite fmap_app, app_comm_cons. apply NoDup_app. split; [done|].
  split; [|apply NoDup_singleton]. intros x Hx Hx'. simpl in Hx'.
  apply list_elem_of_singleton in Hx' as ->.
  rewrite (Hd v e Hpar) in Hx.
  destruct (chain_prefix par _ p v Hc Hx Hd) as (p1 & p2 & -> & H1).
  pose proof (chain_unique par v _ _ H1 (chain_step par v e _ Hv Hpar Hc)) as E.
  apply (f_equal length) in E. rewrite !length_app in E. simpl in E. lia.
Qed.

Lemma pinv_start : pinv (relabel (λ _, None) init lzero) (λ _, None).
Proof.
  constructor.
  - unfold relabel. by rewrite decide_True.
  - done.
  - intros v. unfold relabel. destruct (decide (v = init)) as [->|]; [|by intros []].
    intros _. exists []. constructor.
Qed.

(** The chain of the improving edge's start avoids its end. *)
Lemma improve_avoids lab par e c p : pinv lab par → e ∈ G → lab (src e) = Some c →
  improves lab (dst e) (c + w e) → chain par (src e) p → dst e ∉ init :: (dst <$> p).
Proof.
  intros Hp He Hc Himp Hch Hin.
  assert (∀ v e, par v = Some e → dst e = v) as Hd by (intros v f Hf; by apply (pi_par _ _ Hp) in Hf as (_ & ? & _)).
  destruct (chain_prefix par _ p (dst e) Hch Hin Hd) as (p1 & p2 & -> & H1).
  (* labels along the second part *)
  assert (∀ q x, chain par x (p1 ++ q) → path G (dst e) q x
    ∧ ∀ c1 c2, lab (dst e) = Some c1 → lab x = Some c2 → (c1 + cost q <= c2)%lex) as Hseg.
  { intros q. induction q as [|f q IH] using rev_ind; intros x Hx.
    - rewrite app_nil_r in Hx.
      assert (x = dst e) as ->.
      { apply (chain_path lab par) in Hx as [Hx _]; [|done].
        apply (chain_path lab par) in H1 as [H1 _]; [|done].
        by rewrite <- (path_end _ _ _ _ Hx), <- (path_end _ _ _ _ H1). }
      split; [constructor|]. intros c1 c2 E1 E2. rewrite E1 in E2. injection E2 as <-. simpl. lex.
    - rewrite app_assoc in Hx. remember ((p1 ++ q) ++ [f]) as l eqn:El.
      destruct Hx as [|x f' p' Hx Hpar Hx']; [by destruct (p1 ++ q)|].
      apply app_inj_tail in El as [-> ->]. destruct (IH _ Hx') as [Hq Hlab].
      destruct (pi_par _ _ Hp x f Hpar) as (Hf & <- & a & b & Ea & Eb & Hab).
      split; [by constructor|]. intros c1 c2 E1 E2. rewrite E2 in Eb. injection Eb as <-.
      specialize (Hlab c1 a E1 Ea). rewrite cost_snoc. lex. }
  destruct (Hseg p2 (src e) Hch) as [Hpath Hlab].
  assert (is_Some (lab (dst e))) as [c1 E1].
  { destruct p1 as [|f p1 _] using rev_ind.
    - apply (chain_path lab par) in H1 as [H1 _]; [|done]. apply path_nil_inv in H1.
      rewrite H1, (pi_init _ _ Hp). eauto.
    - remember (p1 ++ [f]) as l eqn:El. destruct H1 as [|x f' p' Hx Hpar Hx']; [by destruct p1|].
      destruct (pi_par _ _ Hp _ _ Hpar) as (_ & _ & a & b & _ & Eb & _). eauto. }
  specialize (Hlab c1 c E1 Hc). unfold improves in Himp. rewrite E1 in Himp.
  pose proof (HG _ _ (path_snoc _ _ _ _ Hpath He)) as Hcyc. rewrite cost_snoc in Hcyc. lex.
Qed.

Lemma chain_set_avoid par v e x p : chain par x p → v ∉ init :: (dst <$> p) →
  (∀ v e, par v = Some e → dst e = v) → chain (set_parent par v e) x p.
Proof.
  intros Hc Hv Hd. induction Hc as [|x f p Hx Hpar Hc IH]; [constructor|].
  rewrite fmap_app, app_comm_cons, elem_of_app in Hv. simpl in Hv. rewrite list_elem_of_singleton in Hv.
  constructor; [done| |apply IH; tauto].
  unfold set_parent. rewrite decide_False; [done|]. intros ->. apply Hv. right. symmetry. by apply Hd.
Qed.

Lemma pinv_improve lab par e c : pinv lab par → e ∈ G → lab (src e) = Some c →
  improves lab (dst e) (c + w e) → dst e ≠ init →
  pinv (relabel lab (dst e) (c + w e)) (set_parent par (dst e) e).
Proof.
  intros Hp He Hc Himp Hni.
  assert (∀ v e, par v = Some e → dst e = v) as Hd by (intros v f Hf; by apply (pi_par _ _ Hp) in Hf as (_ & ? & _)).
  destruct (pi_chain _ _ Hp (src e) ltac:(eauto)) as [pe Hpe].
  pose proof (improve_avoids lab par e c pe Hp He Hc Himp Hpe) as Hav.
  assert (src e ≠ dst e) as Hse.
  { intros E. apply Hav. rewrite <- E. apply (chain_path lab par) in Hpe as [Hpe _]; [|done].
    rewrite <- (path_end _ _ _ _ Hpe). apply end_in. }
  constructor.
  - unfold relabel. rewrite decide_False by done. apply Hp.
  - intros v f. unfold set_parent. destruct (decide (v = dst e)) as [->|Hv].
    + intros [= <-]. split; [done|]. split; [done|]. exists c, (c + w e)%lex. unfold relabel.
      rewrite decide_False, decide_True by done. split; [done|]. split; [done|]. apply lle_refl.
    + intros Hf. destruct (pi_par _ _ Hp v f Hf) as (H1 & H2 & a & b & Ea & Eb & Hab).
      split; [done|]. split; [done|]. unfold relabel. rewrite (decide_False (P := v = dst e)) by done.
      destruct (decide (src f = dst e)) as [E|]; [|eauto 10].
      exists (c + w e)%lex, b. split; [done|]. split; [done|].
      unfold improves in Himp. rewrite E in Ea. rewrite Ea in Himp. lex.
  - assert (∀ v p, chain par v p → ∃ q, chain (set_parent par (dst e) e) v q) as Hall.
    { intros v p Hv. induction Hv as [|v f p Hv Hpar Hv' [q IH]]; [exists []; constructor|].
      destruct (decide (v = dst e)) as [->|Hne].
      - exists (pe ++ [e]). constructor; [done | unfold set_parent; by rewrite decide_True|].
        by apply chain_set_avoid.
      - exists (q ++ [f]). constructor; [done| |done]. unfold set_parent. by rewrite decide_False. }
    intros v. unfold relabel. destruct (decide (v = dst e)) as [->|Hv].
    + intros _. exists (pe ++ [e]). constructor; [done | unfold set_parent; by rewrite decide_True|].
      by apply chain_set_avoid.
    + intros Hs. destruct (pi_chain _ _ Hp v Hs) as [p Hc']. by eapply Hall.
Qed.

End parents.

(** Fuel for a search over [m] edges and [n] vertices. *)
Definition search_fuel (m n : nat) : nat := (n * (m + 1) + 2)%nat.

Lemma search_fuel_enough m n : ((m + 1) ^ n + 1 < 2 ^ search_fuel m n)%nat.
Proof.
  unfold search_fuel. rewrite Nat.pow_add_r.
  assert ((m + 1) ^ n <= 2 ^ (n * (m + 1)))%nat as Hle.
  { rewrite (Nat.mul_comm n), Nat.pow_mul_r. apply Nat.pow_le_mono_l.
    pose proof (Nat.pow_gt_lin_r 2 (m + 1) ltac:(lia)). lia. }
  assert (1 <= (m + 1) ^ n)%nat by (apply Nat.neq_0_lt_0, Nat.pow_nonzero; lia).
  simpl. lia.
Qed.

(** * Graphs without negative cycles are satisfiable

    The converse of [satisfies_nonneg]: the costs of the cheapest walks into
    the vertices, negated, satisfy every constraint. *)

Section potential.
Context (G : list dedge).
Hypothesis HG : nonneg G.

(** Cutting the cycles out of a walk does not make it dearer. *)
Lemma path_simple u p v : path G u p v →
  ∃ q, path G u q v ∧ NoDup (u :: (dst <$> q)) ∧ (cost q <= cost p)%lex.
Proof.
  intros Hp. induction Hp as [|p e Hp IH He].
  - exists []. split; [constructor|]. split; [apply NoDup_singleton | apply lle_refl].
  - destruct IH as (q & Hq & Hnd & Hle). destruct (decide (dst e ∈ u :: (dst <$> q))) as [Hin|Hin].
    + destruct (elem_split_path _ _ _ Hin) as (q1 & q2 & -> & Hend).
      destruct (path_split _ _ _ _ _ Hq) as [H1 H2]. rewrite Hend in *.
      exists q1. split; [done|]. split.
      * rewrite fmap_app, app_comm_cons in Hnd. by apply NoDup_app in Hnd as [? _].
      * pose proof (HG _ _ (path_snoc _ _ _ _ H2 He)) as Hcyc.
        rewrite cost_snoc in *. rewrite cost_app in Hle. lex.
    + exists (q ++ [e]). split; [by constructor|]. split.
      * rewrite fmap_app, app_comm_cons. apply NoDup_app. split; [done|].
        split; [|apply NoDup_singleton]. intros x Hx ->%list_elem_of_singleton. done.
      * rewrite !cost_snoc. lex.
Qed.

Fixpoint is_walk (p : list dedge) : bool :=
  match p with
  | e :: ((f :: _) as q) => (dst e =? src f)%nat && is_walk q
  | _ => true
  end.

Definition into (v : nat) (p : list dedge) : Prop :=
  is_walk p = true ∧ (dst <$> last p) = Some v.
#[local] Instance into_dec v p : Decision (into v p).
Proof. unfold into. apply _. Defined.

Lemma is_walk_path p v : (∀ e, e ∈ p → e ∈ G) → into v p → ∃ u, path G u p v.
Proof.
  intros HpG [Hw Hl]. destruct p as [|e p]; [done|]. exists (src e).
  revert e HpG Hw Hl. induction p as [|f p IH]; intros e HpG Hw Hl.
  - injection Hl as <-. apply path_one, HpG. by left.
  - simpl in Hw. apply andb_true_iff in Hw as [E%Nat.eqb_eq Hw].
    apply path_cons; [apply HpG; by left|]. rewrite E. apply IH; [|done|done].
    intros x Hx. apply HpG. by right.
Qed.

Lemma path_is_walk u p v : path G u p v → p ≠ [] → into v p.
Proof.
  intros Hp Hne. destruct p as [|e p]; [done|]. clear Hne. revert u e Hp.
  induction p as [|f p IH]; intros u e Hp.
  - apply path_cons_inv in Hp as (_ & _ & Hp). apply path_nil_inv in Hp as ->. done.
  - apply path_cons_inv in Hp as (_ & _ & Hp). pose proof Hp as Hp'.
    apply path_cons_inv in Hp' as (E & _). destruct (IH _ _ Hp) as [Hw Hl].
    split; [|done]. cbn [is_walk]. rewrite E, Nat.eqb_refl. exact Hw.
Qed.

Definition lmin (a b : lexq) : lexq := if decide (a <= b)%lex then a else b.
Definition minimum (l : list lexq) : lexq := foldr lmin lzero l.

Lemma minimum_le l a : a ∈ l → (minimum l <= a)%lex.
Proof.
  induction l as [|b l IH]; [by intros ?%elem_of_nil|].
  intros [->|Ha]%elem_of_cons; simpl; unfold lmin; destruct (decide _) as [Hd|Hd].
  - apply lle_refl.
  - apply llt_le, llt_not_le. done.
  - specialize (IH Ha). lex.
  - auto.
Qed.
Lemma minimum_le_zero l : (minimum l <= lzero)%lex.
Proof.
  induction l as [|b l IH]; simpl; [apply lle_refl|]. unfold lmin.
  destruct (decide _); [by eapply lle_trans | done].
Qed.
Lemma minimum_in l : minimum l = lzero ∨ minimum l ∈ l.
Proof.
  induction l as [|b l IH]; simpl; [by left|]. unfold lmin.
  destruct (decide _); [right; by left|]. destruct IH as [|IH]; [by left | right; by right].
Qed.

Definition pot (v : nat) : lexq :=
  minimum (cost <$> base.filter (into v) (tuples G (length G))).

Lemma tuples_edges k p e : p ∈ tuples G k → e ∈ p → e ∈ G.
Proof.
  revert p. induction k as [|k IH]; intros p Hp; simpl in Hp.
  - apply list_elem_of_singleton in Hp as ->. by intros ?%elem_of_nil.
  - apply elem_of_cons in Hp as [->|Hp]; [by intros ?%elem_of_nil|].
    apply list_elem_of_bind in Hp as (f & Hp & Hf).
    apply list_elem_of_fmap in Hp as (q & -> & Hq).
    intros [->|He]%elem_of_cons; [done | by eapply IH].
Qed.

(** [pot v] is attained: by the empty walk or by a walk into [v]. *)
Lemma pot_attained v : pot v = lzero ∨ ∃ u p, path G u p v ∧ pot v = cost p.
Proof.
  unfold pot. destruct (minimum_in (cost <$> base.filter (into v) (tuples G (length G))))
    as [|Hin]; [by left|]. right.
  apply list_elem_of_fmap in Hin as (p & E & Hp). apply list_elem_of_filter in Hp as [Hi Hp].
  destruct (is_walk_path p v) as [u Hu]; [intros e He; by eapply tuples_edges | done |].
  rewrite E. eauto.
Qed.

Lemma pot_le u p v : path G u p v → (pot v <= cost p)%lex.
Proof.
  intros Hp. destruct (path_simple u p v Hp) as (q & Hq & Hnd & Hle).
  eapply lle_trans; [|exact Hle]. destruct q as [|e q]; [apply minimum_le_zero|].
  apply minimum_le, list_elem_of_fmap. exists (e :: q). split; [done|].
  apply list_elem_of_filter. split; [by eapply path_is_walk|]. apply elem_of_tuples.
  - intros f Hf. by eapply path_edges.
  - apply NoDup_cons in Hnd as [_ Hnd].
    rewrite <- (length_fmap dst (e :: q)), <- (length_fmap dst G).
    apply submseteq_length, NoDup_submseteq; [done|].
    intros x (f & -> & Hf)%list_elem_of_fmap. apply list_elem_of_fmap.
    exists f. split; [done|]. by eapply path_edges.
Qed.

Lemma pot_satisfies : satisfies (λ v, - pot v)%lex G.
Proof.
  intros e He. assert (pot (dst e) <= pot (src e) + w e)%lex as Hle; [|lex].
  destruct (pot_attained (src e)) as [->|(u & p & Hp & ->)].
  - rewrite ladd_0_l, <- cost_one. by eapply pot_le, path_one.
  - rewrite <- cost_snoc. eapply pot_le. by constructor.
Qed.

End potential.

Lemma nonneg_satisfiable G : nonneg G ↔ ∃ x, satisfies x G.
Proof.
  split; [|intros [x Hx]; by eapply satisfies_nonneg].
  intros HG. eexists. by apply pot_satisfies.
Qed.

(** A set of values closed under sums that holds the costs of the edges holds
    the potentials. *)
Lemma cost_closed (S : lexq → Prop) G u p v : S lzero → (∀ a b, S a → S b → S (a + b)%lex) →
  (∀ e, e ∈ G → S (w e)) → path G u p v → S (cost p).
Proof.
  intros S0 Sadd HS Hp. induction Hp as [|p e Hp IH He]; [done|]. rewrite cost_snoc. auto.
Qed.

Lemma pot_closed (S : lexq → Prop) G v : S lzero → (∀ a b, S a → S b → S (a + b)%lex) →
  (∀ e, e ∈ G → S (w e)) → S (pot G v).
Proof.
  intros S0 Sadd HS. destruct (pot_attained G v) as [->|(u & p & Hp & ->)]; [done|].
  by eapply cost_closed.
Qed.
