(* ===== verification/StpNum.v ===== *)
(** * The cost domains of the difference-logic solver

    [STPSolver<T>] is a template; it runs on [SafeInt] (SafeInt.h,
    IDLSolver.h: integers, whose additions throw on overflow) and on [Delta]
    (RDLSolver.h).  [STPNum] is what the template uses of [T]: its operators
    and the functions of [Converter<T>] (Converter.h), with the laws its
    correctness rests on. *)
From S2P Require Import Prelude Gmp FastRational FastRationalFacts FastRationalInt Number Lex Delta DiffGraph.
From Stdlib Require Import Lqa Lia.

Class STPNum (T : Type) : Type := {
  t_val : T → lexq;
  t_zero : T;                        (* [Converter<T>::getValue(0)] *)
  t_add : T → T → res T;
  t_sub : T → T → res T;
  t_gt : T → T → bool;
  t_ge : T → T → bool;
  t_le : T → T → bool;
  t_eq : T → T → bool;
  t_negate : T → res T;              (* [Converter<T>::negate] *)

  t_err : error → Prop;              (* what the arithmetic may throw *)
  t_grid : lexq → Prop;              (* the sums of costs *)
  t_atom : T → Prop;                 (* the costs of atoms *)
  t_point : lexq → Prop;             (* the values of variables *)

  t_val_inj a b : t_val a = t_val b → t_eq a b = true;
  t_zero_val : t_val t_zero = lzero;
  t_add_val a b : wp t_err (λ c, t_val c = (t_val a + t_val b)%lex) (t_add a b);
  t_sub_val a b : wp t_err (λ c, t_val c = (t_val a - t_val b)%lex) (t_sub a b);
  t_gt_val a b : t_gt a b = true ↔ (t_val b < t_val a)%lex;
  t_ge_val a b : t_ge a b = true ↔ (t_val b <= t_val a)%lex;
  t_le_val a b : t_le a b = true ↔ (t_val a <= t_val b)%lex;
  t_eq_val a b : t_eq a b = true ↔ t_val a = t_val b;

  t_grid_zero : t_grid lzero;
  t_grid_add a b : t_grid a → t_grid b → t_grid (a + b)%lex;
  t_point_sub a b : t_point a → t_point b → t_point (a - b)%lex;
  t_point_real a : t_point a → a = Lex (lr a) 0;

  (* [negate c] is the cost of the opposite edge *)
  t_negate_val c : t_atom c → ∃ n, t_negate c = Ok n
    ∧ t_grid (t_val c) ∧ t_grid (t_val n) ∧ (t_val c + t_val n < lzero)%lex
    ∧ (∀ l, t_grid l → (t_val n < l)%lex → (lzero <= l + t_val c)%lex)
    ∧ (∀ l, t_grid l → (t_val c < l)%lex → (lzero <= l + t_val n)%lex)
    ∧ (∀ l, t_point l → ¬ (l <= t_val c)%lex ↔ (- l <= t_val n)%lex);

  (* a solution over the sums of costs gives a solution over the values *)
  t_concretize (G : list dedge) (x : nat → lexq) :
    (∀ e, e ∈ G → t_grid (w e)) → (∀ v, t_grid (- x v)%lex) → satisfies x G →
    ∃ y, (∀ v, t_point (y v)) ∧ satisfies y G ∧ y 0%nat = lzero;
}.

(** ** [SafeInt] *)

(** A [ptrdiff_t]. *)
Definition SafeInt : Type := { z : Z | in_lword z }.
Definition value (a : SafeInt) : Z := `a.

Definition PTRDIFF_MAX : Z := LWORD_MAX.
Definition PTRDIFF_MIN : Z := LWORD_MIN.

#[export] Instance in_lword_dec z : Decision (in_lword z).
Proof. unfold in_lword. apply _. Defined.

(** A signed result: undefined when it is out of range. *)
Definition ptrdiff (z : Z) : res SafeInt :=
  match decide (in_lword z) with left h => Ok (exist _ z h) | right _ => Err Signed_overflow end.

Definition safe_add (a b : SafeInt) : res SafeInt :=
  if ((0 <? value a) && (PTRDIFF_MAX - value a <? value b))
     || ((value a <? 0) && (value b <? PTRDIFF_MIN - value a))
  then Err Std_overflow_error
  else ptrdiff (value a + value b).

(** [operator-=], which [operator-] calls. *)
Definition safe_subAssign (a b : SafeInt) : res SafeInt :=
  if ((0 <? value b) && (value a <? PTRDIFF_MIN + value b))
     || ((value b <? 0) && (PTRDIFF_MAX + value b <? value a))
  then Err Std_underflow_error
  else ptrdiff (value a - value b).
Definition safe_sub (a b : SafeInt) : res SafeInt := safe_subAssign a b.
Definition safe_neg (a : SafeInt) : res SafeInt := ptrdiff (- value a).

Definition safe_eq (a b : SafeInt) : bool := value a =? value b.
Definition safe_ge (a b : SafeInt) : bool := value b <=? value a.
Definition safe_gt (a b : SafeInt) : bool := value b <? value a.
Definition safe_le (a b : SafeInt) : bool := value a <=? value b.

Lemma ptrdiff_ok z : in_lword z → ∃ a, ptrdiff z = Ok a ∧ value a = z.
Proof. intros Hz. unfold ptrdiff. destruct (decide _); [eauto | done]. Qed.

Lemma safe_add_spec a b :
  (in_lword (value a + value b) ∧ ∃ c, safe_add a b = Ok c ∧ value c = value a + value b)
  ∨ (¬ in_lword (value a + value b) ∧ safe_add a b = Err Std_overflow_error).
Proof.
  unfold safe_add, PTRDIFF_MAX, PTRDIFF_MIN. destruct a as [a Ha], b as [b Hb]. simpl.
  destruct (Z.ltb_spec 0 a), (Z.ltb_spec (LWORD_MAX - a) b), (Z.ltb_spec a 0),
    (Z.ltb_spec b (LWORD_MIN - a)); simpl;
    first [ right; split; [unfold_widths; lia | done]
          | left; split; [unfold_widths; lia | apply ptrdiff_ok; unfold_widths; lia] ].
Qed.

Lemma safe_sub_spec a b :
  (in_lword (value a - value b) ∧ ∃ c, safe_sub a b = Ok c ∧ value c = value a - value b)
  ∨ (¬ in_lword (value a - value b) ∧ safe_sub a b = Err Std_underflow_error).
Proof.
  unfold safe_sub, safe_subAssign, PTRDIFF_MAX, PTRDIFF_MIN.
  destruct a as [a Ha], b as [b Hb]. simpl.
  destruct (Z.ltb_spec 0 b), (Z.ltb_spec a (LWORD_MIN + b)), (Z.ltb_spec b 0),
    (Z.ltb_spec (LWORD_MAX + b) a); simpl;
    first [ right; split; [unfold_widths; lia | done]
          | left; split; [unfold_widths; lia | apply ptrdiff_ok; unfold_widths; lia] ].
Qed.

(** [Converter<SafeInt>]. *)
Definition Converter_SafeInt_getValue0 : SafeInt := exist _ 0 (conj (Zle_bool_imp_le LWORD_MIN 0 eq_refl) (Zle_bool_imp_le 0 LWORD_MAX eq_refl)).
Definition Converter_SafeInt_negate (a : SafeInt) : res SafeInt :=
  let! a1 := ptrdiff (value a + 1) in ptrdiff (- value a1).

Definition safe_val (a : SafeInt) : lexq := Lex (of_Z (value a)) 0.
Definition int_grid (l : lexq) : Prop := ∃ z, l = Lex (of_Z z) 0.

Lemma int_le x y : (Lex (of_Z x) 0 <= Lex (of_Z y) 0)%lex ↔ x ≤ y.
Proof.
  rewrite <- of_Z_le. unfold lle. simpl. split.
  - intros [H|[-> _]]; [by apply Qclt_le_weak | apply Qcle_refl].
  - intros [H|H]%Qcle_lt_or_eq; [by left | right; split; [done | apply Qcle_refl]].
Qed.
Lemma int_lt x y : (Lex (of_Z x) 0 < Lex (of_Z y) 0)%lex ↔ x < y.
Proof. rewrite <- llt_not_le, int_le. lia. Qed.
Lemma int_add x y : (Lex (of_Z x) 0 + Lex (of_Z y) 0)%lex = Lex (of_Z (x + y)) 0.
Proof. rewrite of_Z_add. lex. Qed.
Lemma int_opp x : (- Lex (of_Z x) 0)%lex = Lex (of_Z (- x)) 0.
Proof. rewrite of_Z_opp. lex. Qed.
Lemma int_sub x y : (Lex (of_Z x) 0 - Lex (of_Z y) 0)%lex = Lex (of_Z (x - y)) 0.
Proof. rewrite <- of_Z_sub. lex. Qed.
Lemma int_zero : lzero = Lex (of_Z 0) 0.
Proof. by rewrite of_Z_0. Qed.

Definition safe_err (e : error) : Prop := e = Std_overflow_error ∨ e = Std_underflow_error.

Lemma value_inj_val a b : safe_val a = safe_val b → value a = value b.
Proof. intros [H _]%lexq_eq. by apply of_Z_inj. Qed.

Lemma safe_negate_val c : value c < PTRDIFF_MAX →
  ∃ n, Converter_SafeInt_negate c = Ok n ∧ value n = - value c - 1.
Proof.
  intros Hc. unfold Converter_SafeInt_negate. destruct c as [c Hr]. unfold PTRDIFF_MAX in *. simpl in *.
  destruct (ptrdiff_ok (c + 1)) as (a & -> & Ea); [unfold_widths; lia|]. simpl.
  destruct (ptrdiff_ok (- value a)) as (n & -> & En); [unfold_widths; lia|].
  exists n. split; [done | lia].
Qed.

Lemma int_negation c n : n = - c - 1 →
  (∀ l, int_grid l → (Lex (of_Z n) 0 < l)%lex → (lzero <= l + Lex (of_Z c) 0)%lex).
Proof.
  intros -> l [z ->]. rewrite int_zero, int_add, int_lt, int_le. lia.
Qed.

#[refine, export] Instance SafeInt_STPNum : STPNum SafeInt := {
  t_val := safe_val;
  t_zero := Converter_SafeInt_getValue0;
  t_add := safe_add;
  t_sub := safe_sub;
  t_gt := safe_gt;
  t_ge := safe_ge;
  t_le := safe_le;
  t_eq := safe_eq;
  t_negate := Converter_SafeInt_negate;
  t_err := safe_err;
  t_grid := int_grid;
  t_atom c := value c < PTRDIFF_MAX;
  t_point := int_grid;
}.
Proof.
  - intros a b H%value_inj_val. by apply Z.eqb_eq.
  - symmetry. apply int_zero.
  - intros a b. destruct (safe_add_spec a b) as [(_ & c & -> & Hc)|[_ ->]]; simpl; [|by left].
    unfold safe_val. by rewrite int_add, Hc.
  - intros a b. destruct (safe_sub_spec a b) as [(_ & c & -> & Hc)|[_ ->]]; simpl; [|by right].
    unfold safe_val. by rewrite int_sub, Hc.
  - intros a b. unfold safe_gt, safe_val. by rewrite Z.ltb_lt, int_lt.
  - intros a b. unfold safe_ge, safe_val. by rewrite Z.leb_le, int_le.
  - intros a b. unfold safe_le, safe_val. by rewrite Z.leb_le, int_le.
  - intros a b. unfold safe_eq. rewrite Z.eqb_eq. split; [|apply value_inj_val].
    unfold safe_val. by intros ->.
  - exists 0. apply int_zero.
  - intros ? ? [a ->] [b ->]. exists (a + b). apply int_add.
  - intros ? ? [a ->] [b ->]. exists (a - b). apply int_sub.
  - by intros ? [a ->].
  - intros c Hc. destruct (safe_negate_val c Hc) as (n & -> & En). exists n.
    split; [done|]. split; [by eexists|]. split; [by eexists|].
    unfold safe_val. split; [rewrite int_add, int_zero, int_lt; lia|].
    split; [by apply int_negation|]. split; [apply int_negation; lia|].
    intros l [z ->]. rewrite int_opp, !int_le. lia.
  - intros G x HG Hx Hs. exists (λ v, x v - x 0%nat)%lex.
    assert (∀ v, int_grid (x v)) as Hi.
    { intros v. destruct (Hx v) as [z Hz]. exists (- z). rewrite <- int_opp, <- Hz. lex. }
    split; [|split].
    + intros v. destruct (Hi v) as [a ->], (Hi 0%nat) as [b ->]. exists (a - b). apply int_sub.
    + intros e He. specialize (Hs e He). lex.
    + lex.
Defined.

(** [Converter<SafeInt>::getValue(const FastRational &)]: the integer goes
    through [FastRational::get_d], whose [double(num)/double(den)] is exact for
    a word over 1; a [double] outside of [ptrdiff_t] has no defined cast. *)
Section SafeInt_getValue.
Context {gmp : GMP}.

Definition get_d (r : FastRational) : res Qc :=
  if wordPartValid r then Ok (mkQ (num r) (den r))
  else let! _ := check (mpqPartValid r) in Ok (mpq_get_d (mpq r)).

Definition Converter_SafeInt_getValue (v : fr) : res SafeInt :=
  let! _ := check (isInteger (`v)) in
  let! d := get_d (`v) in
  ptrdiff (Qnum (this d)).

Lemma of_Z_num z : Qnum (this (of_Z z)) = z.
Proof.
  unfold of_Z, mkQ. simpl. unfold Qred. simpl.
  pose proof (Z.ggcd_correct_divisors z 1) as Hd. pose proof (Z.ggcd_gcd z 1) as Hg.
  destruct (Z.ggcd z 1) as [g [a b]]. simpl in *. rewrite Z.gcd_1_r in Hg. subst g. lia.
Qed.

Lemma SafeInt_getValue_exact (v : fr) z : val (`v) = of_Z z → Z.abs z ≤ 2 ^ 53 →
  ∃ a, Converter_SafeInt_getValue v = Ok a ∧ value a = z.
Proof.
  destruct v as [r Hr]. simpl. intros Hv Hz. unfold Converter_SafeInt_getValue. simpl.
  assert (isInteger r = true) as Hi by (apply isInteger_correct; [done|]; exists z; by rewrite Hv).
  rewrite Hi. simpl.
  assert (get_d r = Ok (of_Z z)) as ->.
  2:{ cbn [rbind]. rewrite of_Z_num. apply ptrdiff_ok. unfold_widths. lia. }
  pose proof (isInteger_value r Hr Hi) as Hp. rewrite Hv in Hp. apply of_Z_inj in Hp.
  pose proof (isInteger_parts r Hr) as Hd. rewrite Hi in Hd. symmetry in Hd. apply Z.eqb_eq in Hd.
  destruct (parts_spec r Hr) as (_ & _ & Hval). unfold get_d, parts in *.
  destruct (wordPartValid r) eqn:Ew; simpl in *; [by rewrite Hd, <- Hp|].
  pose proof (mpq_valid_of_state r (wf_state r Hr) Ew) as Em. pose proof (wf_mpq r Hr Em) as Hc.
  rewrite Em. simpl.
  rewrite mpq_get_d_spec by (done || lia). unfold mpq_val. by rewrite Hd, <- Hp.
Qed.

End SafeInt_getValue.

(** ** [Delta] *)

Definition delta_grid (l : lexq) : Prop := ∃ q k, 0 ≤ k ∧ l = Lex q (- of_Z k).

Section Delta.
Context {N : Type} `{Number N}.

(** [Converter<Delta>]. *)
Definition Converter_Delta_getValue (v : N) : Delta N := MkDelta v (n_of_Z 0).
Definition Converter_Delta_getValue0 : Delta N := MkDelta (n_of_Z 0) (n_of_Z 0).
Definition Converter_Delta_negate (a : Delta N) : res (Delta N) :=
  let! _ := check (negb (hasDelta a)) in Ok (MkDelta (n_neg (R a)) (n_of_Z (-1))).

Lemma Delta_negate_value c : hasDelta c = false →
  ∃ n, Converter_Delta_negate c = Ok n ∧ dval n = Lex (- lr (dval c)) (- (1)).
Proof.
  intros Hc. unfold Converter_Delta_negate. rewrite Hc. eexists. split; [done|].
  unfold dval. simpl. rewrite n_neg_val, n_of_Z_val by (unfold_widths; lia). done.
Qed.

Lemma hasDelta_false a : hasDelta a = false → dval a = Lex (lr (dval a)) 0.
Proof.
  intros Ha. rewrite <- not_true_iff_false, hasDelta_val in Ha.
  destruct (decide (ld (dval a) = 0%Qc)) as [E|]; [|by destruct Ha]. destruct (dval a). simpl in *. by subst.
Qed.

Lemma Qc_nat_pos k : 0 ≤ k → (k = 0 ∨ (1 <= of_Z k)%Qc) ∧ (0 <= of_Z k)%Qc.
Proof.
  intros Hk. rewrite <- of_Z_1, <- of_Z_0, !of_Z_le. lia.
Qed.

Lemma delta_negation_1 q l : delta_grid l → (Lex (- q) (- (1)) < l)%lex → (lzero <= l + Lex q 0)%lex.
Proof.
  intros (q' & k & Hk & ->) Hl. destruct (Qc_nat_pos k Hk) as [[->|Hk1] Hk0]; [|lex].
  rewrite of_Z_0 in *. lex.
Qed.
Lemma delta_negation_2 q l : delta_grid l → (Lex q 0 < l)%lex → (lzero <= l + Lex (- q) (- (1)))%lex.
Proof.
  intros (q' & k & Hk & ->) Hl. destruct (Qc_nat_pos k Hk) as [_ Hk0]. lex.
Qed.

(** A positive rational below all the bounds of a list. *)
Lemma small_delta (l : list (lexq * lexq)) :
  ∃ e, (0 < e)%Qc ∧ ∀ a b, (a, b) ∈ l → delta_ok e a b.
Proof.
  induction l as [|[a b] l (e & He & Hl)].
  - exists 1%Qc. split; [done|]. by intros a b ?%elem_of_nil.
  - assert (∃ f, (0 < f)%Qc ∧ delta_ok f a b) as (f & Hf & Hab).
    { destruct (Qclt_le_dec (lr a) (lr b)) as [H1|H1];
        [|exists 1%Qc; split; [done|]; intros H2; exfalso; qc_lra].
      destruct (Qclt_le_dec (ld b) (ld a)) as [H2|H2];
        [|exists 1%Qc; split; [done|]; intros _ H3; exfalso; qc_lra].
      assert (0 < ld a - ld b)%Qc as Hp by qc_lra.
      assert (ld a - ld b ≠ 0)%Qc as Hn by (intros E; rewrite E in Hp; by apply Qclt_not_eq in Hp).
      exists ((lr b - lr a) / (ld a - ld b))%Qc. split.
      - apply Qcnot_le_lt. intros Hle.
        assert ((lr b - lr a) / (ld a - ld b) * (ld a - ld b) = lr b - lr a)%Qc as Em
          by (by rewrite Qcmult_comm, Qcmult_div_r).
        revert Em Hle. generalize ((lr b - lr a) / (ld a - ld b))%Qc. intros x Em Hle. qc_nra.
      - intros _ _. rewrite Qcmult_comm, Qcmult_div_r by done. apply Qcle_refl. }
    assert (∀ e e' a b, (0 < e)%Qc → (e <= e')%Qc → delta_ok e' a b → delta_ok e a b) as Hmono.
    { intros e1 e2 a1 b1 H1 H2 H3 Ha Hb. specialize (H3 Ha Hb). qc_nra. }
    destruct (Qclt_le_dec e f) as [Hef|Hef].
    + exists e. split; [done|]. intros a' b' [[= -> ->]|Hin]%elem_of_cons; [|auto].
      apply (Hmono e f); [done | by apply Qclt_le_weak | done].
    + exists f. split; [done|]. intros a' b' [[= -> ->]|Hin]%elem_of_cons; [done|].
      apply (Hmono f e); auto.
Qed.

Lemma at_delta_edge e a c : (0 < e)%Qc → (a <= c)%lex → delta_ok e a c → (ld c <= 0)%Qc →
  (Lex (at_delta e a) 0 <= c)%lex.
Proof.
  intros He Hac Hd Hc. pose proof (at_delta_le e a c (Qclt_le_weak _ _ He) Hac Hd) as Hle.
  destruct (Qcle_lt_or_eq _ _ Hc) as [Hl|E].
  - left. simpl. unfold at_delta in *. qc_nra.
  - unfold at_delta in Hle at 2. rewrite E, Qcmult_0_l, Qcplus_0_r in Hle. unfold lle. simpl. rewrite E.
    destruct (Qcle_lt_or_eq _ _ Hle) as [|Ee]; [by left | right; split; [done | apply Qcle_refl]].
Qed.

Lemma delta_concretize (G : list dedge) (x : nat → lexq) :
  (∀ e, e ∈ G → (ld (w e) <= 0)%Qc) → satisfies x G →
  ∃ y, (∀ v, ∃ q, y v = Lex q 0) ∧ satisfies y G ∧ y 0%nat = lzero.
Proof.
  intros HG Hs.
  destruct (small_delta ((λ e, (x (src e) - x (dst e), w e)%lex) <$> G)) as (e & He & Hd).
  exists (λ v, Lex (at_delta e (x v) - at_delta e (x 0%nat)) 0). split; [eauto|]. split.
  - intros f Hf. specialize (Hs f Hf).
    assert (delta_ok e (x (src f) - x (dst f))%lex (w f)) as Hdf
      by (apply Hd, list_elem_of_fmap; eauto).
    pose proof (at_delta_edge e _ _ He Hs Hdf (HG f Hf)) as Hle. rewrite at_delta_sub in Hle.
    eapply lle_trans; [|exact Hle]. lex.
  - lex.
Qed.

Lemma delta_grid_nonpos l : delta_grid l → (ld l <= 0)%Qc.
Proof. intros (q & k & Hk & ->). destruct (Qc_nat_pos k Hk) as [_ Hk0]. simpl. qc_lra. Qed.

#[refine, export] Instance Delta_STPNum : STPNum (Delta N) := {
  t_val := dval;
  t_zero := Converter_Delta_getValue0;
  t_add a b := Ok (Delta_add a b);
  t_sub a b := Ok (Delta_sub a b);
  t_gt := Delta_gt;
  t_ge := Delta_ge;
  t_le := Delta_le;
  t_eq := Delta_eq;
  t_negate := Converter_Delta_negate;
  t_err := no_error;
  t_grid := delta_grid;
  t_atom c := hasDelta c = false;
  t_point l := ∃ q, l = Lex q 0;
}.
Proof.
  - intros a b. by rewrite Delta_eq_val.
  - apply Delta_default_val.
  - intros a b. apply Delta_add_val.
  - intros a b. apply Delta_sub_val.
  - apply Delta_gt_val.
  - apply Delta_ge_val.
  - apply Delta_le_val.
  - apply Delta_eq_val.
  - exists 0%Qc, 0. split; [done|]. by rewrite of_Z_0.
  - intros ? ? (q & k & Hk & ->) (q' & k' & Hk' & ->). exists (q + q')%Qc, (k + k'). split; [lia|].
    rewrite of_Z_add. lex.
  - intros ? ? [q ->] [q' ->]. exists (q - q')%Qc. lex.
  - by intros ? [q ->].
  - intros c Hc. destruct (Delta_negate_value c Hc) as (n & -> & En). exists n.
    rewrite En. pose proof (hasDelta_false c Hc) as Ec. set (q := lr (dval c)) in *. clearbody q.
    rewrite Ec. split; [done|]. split; [exists q, 0; split; [done | by rewrite of_Z_0]|].
    split; [exists (- q)%Qc, 1; split; [done | by rewrite of_Z_1]|].
    split; [right; split; lex_arith; qc_lra|]. split; [apply delta_negation_1|].
    split; [apply delta_negation_2|]. intros l [q' ->]. rewrite llt_not_le. split; intros Hl; lex.
  - intros G x HG _ Hs. apply delta_concretize with (x := x); [|done].
    intros e He. by apply delta_grid_nonpos, HG.
Defined.

End Delta.
