(* ===== verification/Terms.v ===== *)
(** * Terms and literals as the theory solvers see them

    A theory solver reads terms through [Logic::getPterm] and the classifying
    functions of [ArithLogic]; the term store itself ([PtStore]) is read-only
    for it.  The store is a partial map from references to terms; [sym] keeps
    of a symbol what [ArithLogic::isLeq], [isPlus], [isTimes], [isNumConst],
    [isNumVar] and [getNumConst] tell apart. *)
From S2P Require Import Prelude Gmp FastRational FastRationalFacts FastRationalInt Number.
(** [lbool] of SolverTypes.h: the three values the constructors build. *)
Inductive lbool : Type := l_True | l_False | l_Undef.
#[export] Instance lbool_eq_dec : EqDecision lbool.
Proof. solve_decision. Defined.

(** [PTRef]: [PTRef_Undef] is the [None] of [option PTRef]. *)
Abbreviation PTRef := nat (only parsing).

(** [PtAsgn]: [PtAsgn_Undef] is the [None] of [option PtAsgn]. *)
Record PtAsgn : Type := MkPtAsgn { tr : PTRef; sgn : lbool }.
#[export] Instance PtAsgn_eq_dec : EqDecision PtAsgn.
Proof. solve_decision. Defined.

(** [PtAsgn_reason]; every solver modelled here leaves [reason] undefined. *)
Record PtAsgn_reason : Type := MkPtAsgn_reason { rtr : PTRef; rsgn : lbool; reason : option PTRef }.

Inductive sym (N : Type) : Type :=
| SLeq
| SPlus
| STimes
| SNumConst (c : N)
| SNumVar
| SOther.
Arguments SLeq {N}.
Arguments SPlus {N}.
Arguments STimes {N}.
Arguments SNumConst {N} c.
Arguments SNumVar {N}.
Arguments SOther {N}.

Section terms.
Context {N : Type}.

Record Pterm : Type := MkPterm { symb : sym N; args : list PTRef; getId : nat }.

Definition Logic : Type := PTRef → option Pterm.

Definition getPterm (l : Logic) (t : PTRef) : res Pterm :=
  match l t with Some p => Ok p | None => Err Out_of_range end.

Definition arg (p : Pterm) (i : nat) : res PTRef := at_ (args p) i.

Definition isLeq (l : Logic) (t : PTRef) : res bool :=
  let! p := getPterm l t in Ok (match symb p with SLeq => true | _ => false end).
Definition isPlus (l : Logic) (t : PTRef) : res bool :=
  let! p := getPterm l t in Ok (match symb p with SPlus => true | _ => false end).
Definition isTimes (l : Logic) (t : PTRef) : res bool :=
  let! p := getPterm l t in Ok (match symb p with STimes => true | _ => false end).
Definition isNumConst (l : Logic) (t : PTRef) : res bool :=
  let! p := getPterm l t in Ok (match symb p with SNumConst _ => true | _ => false end).
Definition isNumVar (l : Logic) (t : PTRef) : res bool :=
  let! p := getPterm l t in Ok (match symb p with SNumVar => true | _ => false end).
Definition getNumConst (l : Logic) (t : PTRef) : res N :=
  let! p := getPterm l t in match symb p with SNumConst c => Ok c | _ => Err Assertion_failed end.

(** [Idx(logic.getPterm(t).getId())], which the solvers index their tables
    with: [PtStore] numbers the terms it creates. *)
Definition termId (l : Logic) (t : PTRef) : res nat :=
  let! p := getPterm l t in Ok (getId p).

Definition ids_unique (l : Logic) : Prop :=
  ∀ t t' p p', l t = Some p → l t' = Some p' → getId p = getId p' → t = t'.

End terms.
Arguments Pterm N : clear implicits.
Arguments Logic N : clear implicits.
