(* ===== verification/TSolver.v ===== *)
(** * The base class of the theory solvers

    [TSolver] (tsolvers/TSolver.h, TSolver.cc) keeps the literals a solver has
    deduced, the position up to which they were handed to the SAT solver, the
    polarities it knows, and the marks that undo all of this on
    backtracking. *)
From S2P Require Import Prelude Gmp FastRational FastRationalFacts FastRationalInt Number Terms.
From stdpp Require Import gmap.
From Stdlib Require Import Lia.

Record TSolver : Type := MkTSolver {
  polarityMap : gmap PTRef lbool;
  th_deductions : list PtAsgn_reason;     (* in the order they were pushed *)
  deductions_next : nat;
  deductions_lim : list nat;              (* the last element is the top *)
  deductions_last : list nat;
  has_explanation : bool;
  informed_PTRefs : list PTRef;           (* a map with its keys in the order they were inserted *)
}.

Definition TSolver_init : TSolver := MkTSolver ∅ [] 0 [] [] false [].

Definition with_explanation (s : TSolver) (b : bool) : TSolver :=
  MkTSolver (polarityMap s) (th_deductions s) (deductions_next s) (deductions_lim s)
    (deductions_last s) b (informed_PTRefs s).

Definition setPolarity (s : TSolver) (t : PTRef) (p : lbool) : TSolver :=
  MkTSolver (<[t := p]> (polarityMap s)) (th_deductions s) (deductions_next s)
    (deductions_lim s) (deductions_last s) (has_explanation s) (informed_PTRefs s).

(** [polarityMap[tr] = l_Undef] *)
Definition clearPolarity (s : TSolver) (t : PTRef) : TSolver := setPolarity s t l_Undef.

Definition hasPolarity (s : TSolver) (t : PTRef) : bool :=
  match polarityMap s !! t with
  | Some p => negb (bool_decide (p = l_Undef))
  | None => false
  end.

Definition storeDeduction (s : TSolver) (ded : PtAsgn_reason) : TSolver :=
  setPolarity
    (MkTSolver (polarityMap s) (th_deductions s ++ [ded]) (deductions_next s)
       (deductions_lim s) (deductions_last s) (has_explanation s) (informed_PTRefs s))
    (rtr ded) (rsgn ded).

Definition isInformed (s : TSolver) (t : PTRef) : bool := bool_decide (t ∈ informed_PTRefs s).
Definition setInformed (s : TSolver) (t : PTRef) : TSolver :=
  MkTSolver (polarityMap s) (th_deductions s) (deductions_next s) (deductions_lim s)
    (deductions_last s) (has_explanation s) (informed_PTRefs s ++ [t]).

(** [TSolver::clearSolver]: the polarities stay. *)
Definition TSolver_clearSolver (s : TSolver) : TSolver :=
  MkTSolver (polarityMap s) [] 0 [] [] false [].

Definition TSolver_pushBacktrackPoint (s : TSolver) : TSolver :=
  MkTSolver (polarityMap s) (th_deductions s) (deductions_next s)
    (deductions_lim s ++ [length (th_deductions s)]) (deductions_last s ++ [deductions_next s])
    (has_explanation s) (informed_PTRefs s).

(** The [while] of [popBacktrackPoint], over the deductions to drop, last
    first. *)
Definition popDeduction (s : TSolver) (d : PtAsgn_reason) : TSolver :=
  let s := clearPolarity s (rtr d) in
  MkTSolver (polarityMap s) (removelast (th_deductions s)) (deductions_next s)
    (deductions_lim s) (deductions_last s) (has_explanation s) (informed_PTRefs s).

Definition popDeductions (s : TSolver) (size : nat) : TSolver :=
  foldl popDeduction s (reverse (drop size (th_deductions s))).

Definition TSolver_popBacktrackPoint (s : TSolver) : res TSolver :=
  match last (deductions_last s), last (deductions_lim s) with
  | Some next, Some size =>
      let s := MkTSolver (polarityMap s) (th_deductions s) next
                 (removelast (deductions_lim s)) (removelast (deductions_last s))
                 (has_explanation s) (informed_PTRefs s) in
      let s := popDeductions s size in
      let! _ := check (deductions_next s <=? length (th_deductions s))%nat in
      Ok s
  | _, _ => Err Assertion_failed
  end.

(** [getDeduction]: [None] is [PtAsgn_reason_Undef]. *)
Definition getDeduction (s : TSolver) : option PtAsgn_reason * TSolver :=
  match th_deductions s !! deductions_next s with
  | None => (None, s)
  | Some d =>
      (Some d, MkTSolver (polarityMap s) (th_deductions s) (S (deductions_next s))
                 (deductions_lim s) (deductions_last s) (has_explanation s) (informed_PTRefs s))
  end.

(** ** Backtracking *)

Record tsolver_wf (s : TSolver) : Prop := {
  twf_len : length (deductions_lim s) = length (deductions_last s);
  twf_next : (deductions_next s <= length (th_deductions s))%nat;
  twf_last : ∀ i a b, deductions_last s !! i = Some a → deductions_lim s !! i = Some b → (a <= b)%nat;
  twf_lim : ∀ i b, deductions_lim s !! i = Some b → (b <= length (th_deductions s))%nat;
  twf_mono : ∀ i j a b, (i <= j)%nat → deductions_lim s !! i = Some a →
    deductions_lim s !! j = Some b → (a <= b)%nat;
}.

Lemma removelast_app_one {A} (l : list A) x : removelast (l ++ [x]) = l.
Proof. apply removelast_last. Qed.

(** The fields the deductions do not touch. *)
Lemma popDeduction_fields s d :
  deductions_next (popDeduction s d) = deductions_next s
  ∧ deductions_lim (popDeduction s d) = deductions_lim s
  ∧ deductions_last (popDeduction s d) = deductions_last s
  ∧ has_explanation (popDeduction s d) = has_explanation s
  ∧ informed_PTRefs (popDeduction s d) = informed_PTRefs s
  ∧ th_deductions (popDeduction s d) = removelast (th_deductions s)
  ∧ polarityMap (popDeduction s d) = <[rtr d := l_Undef]> (polarityMap s).
Proof. done. Qed.

Lemma popDeductions_spec s l1 l2 : th_deductions s = l1 ++ l2 →
  let s' := popDeductions s (length l1) in
  th_deductions s' = l1 ∧ deductions_next s' = deductions_next s
  ∧ deductions_lim s' = deductions_lim s ∧ deductions_last s' = deductions_last s
  ∧ has_explanation s' = has_explanation s ∧ informed_PTRefs s' = informed_PTRefs s
  ∧ (∀ t, hasPolarity s' t = true → hasPolarity s t = true ∧ t ∉ (rtr <$> l2))
  ∧ (∀ t, hasPolarity s t = true → t ∉ (rtr <$> l2) → polarityMap s' !! t = polarityMap s !! t).
Proof.
  intros E. unfold popDeductions. rewrite E, drop_app_length. clear -E.
  revert s E. induction l2 as [|d l2 IH] using rev_ind; intros s E; simpl.
  - rewrite app_nil_r in E. repeat split; auto. by intros ?%elem_of_nil.
  - rewrite reverse_snoc. simpl.
    assert (th_deductions (popDeduction s d) = l1 ++ l2) as E'
      by (simpl; by rewrite E, app_assoc, removelast_app_one).
    destruct (IH _ E') as (H1 & H2 & H3 & H4 & H5 & H6 & H7 & H8).
    rewrite H1, H2, H3, H4, H5, H6. repeat split.
    + destruct (H7 t H) as [Hp _]. revert Hp. unfold hasPolarity. simpl.
      destruct (decide (rtr d = t)) as [->|]; [by rewrite lookup_insert_eq|by rewrite lookup_insert_ne].
    + destruct (H7 t H) as [Hp Hn]. rewrite fmap_app, elem_of_app. simpl.
      rewrite list_elem_of_singleton. intros [?| ->]; [done|]. revert Hp. unfold hasPolarity. simpl.
      by rewrite lookup_insert_eq.
    + intros t Ht Hn. rewrite fmap_app, elem_of_app in Hn. simpl in Hn.
      rewrite list_elem_of_singleton in Hn.
      assert (rtr d ≠ t) as Hd by (intros <-; tauto).
      rewrite H8; [simpl; by rewrite lookup_insert_ne | | tauto].
      unfold hasPolarity in *. simpl. by rewrite lookup_insert_ne.
Qed.

Lemma snoc_lookup {A} (l : list A) x i y : (l ++ [x]) !! i = Some y →
  (l !! i = Some y ∧ (i < length l)%nat) ∨ (i = length l ∧ y = x).
Proof.
  intros Hi. apply lookup_snoc_Some in Hi as [[? ?]|[-> <-]]; [left | right]; done.
Qed.

Lemma push_wf s : tsolver_wf s → tsolver_wf (TSolver_pushBacktrackPoint s).
Proof.
  intros [W1 W2 W3 W4 W5]. constructor; simpl.
  - rewrite !length_app. simpl. lia.
  - done.
  - intros i a b [[? ?]|[-> ->]]%snoc_lookup [[? ?]|[? ->]]%snoc_lookup; try lia. by eapply W3.
  - intros i b [[? ?]|[-> ->]]%snoc_lookup; [by eapply W4 | done].
  - intros i j a b Hij [[? ?]|[-> ->]]%snoc_lookup [[? ?]|[-> ->]]%snoc_lookup; try lia.
    + by apply (W5 i j).
    + by eapply W4.
Qed.

Lemma storeDeduction_wf s d : tsolver_wf s → tsolver_wf (storeDeduction s d).
Proof.
  intros [W1 W2 W3 W4 W5]. constructor; simpl; try done.
  - rewrite length_app. simpl. lia.
  - intros i b Hb. specialize (W4 i b Hb). rewrite length_app. simpl. lia.
Qed.

Lemma with_explanation_wf s b : tsolver_wf s → tsolver_wf (with_explanation s b).
Proof. intros [W1 W2 W3 W4 W5]. by constructor. Qed.

Lemma getDeduction_wf s : tsolver_wf s → tsolver_wf (snd (getDeduction s)).
Proof.
  intros [W1 W2 W3 W4 W5]. unfold getDeduction.
  destruct (th_deductions s !! deductions_next s) eqn:E; [|by constructor].
  apply lookup_lt_Some in E. by constructor.
Qed.

(** Popping a mark drops the deductions made since, and nothing else. *)
Lemma TSolver_pop_ok s lims size : tsolver_wf s → deductions_lim s = lims ++ [size] →
  ∃ s', TSolver_popBacktrackPoint s = Ok s' ∧ tsolver_wf s'
    ∧ deductions_lim s' = lims ∧ th_deductions s' = take size (th_deductions s)
    ∧ has_explanation s' = has_explanation s ∧ informed_PTRefs s' = informed_PTRefs s.
Proof.
  intros Hw El. pose proof Hw as [W1 W2 W3 W4 W5]. unfold TSolver_popBacktrackPoint.
  destruct (deductions_last s) as [|next lasts _] eqn:Eb using rev_ind.
  { rewrite El, length_app in W1. simpl in W1. lia. }
  rewrite El, !length_app in W1. simpl in W1.
  rewrite El, !last_snoc, !removelast_app_one.
  assert (size <= length (th_deductions s))%nat as Hsize.
  { apply (W4 (length lims)). rewrite El. apply lookup_snoc_Some. by right. }
  assert (next <= size)%nat as Hnext.
  { apply (W3 (length lims)); apply lookup_snoc_Some || rewrite El; [right; split; [lia | done]|].
    apply lookup_snoc_Some. by right. }
  set (s0 := MkTSolver _ _ _ _ _ _ _).
  pose proof (popDeductions_spec s0 (take size (th_deductions s)) (drop size (th_deductions s))) as Hp.
  rewrite length_take, Nat.min_l in Hp by lia.
  destruct (Hp ltac:(simpl; by rewrite take_drop)) as (P1 & P2 & P3 & P4 & P5 & P6 & _).
  rewrite P1, P2. simpl. rewrite length_take, Nat.min_l by lia.
  rewrite (proj2 (Nat.leb_le _ _) Hnext). simpl. eexists. split; [done|].
  split; [|done]. constructor.
  - rewrite P3, P4. simpl. lia.
  - rewrite P1, P2. simpl. rewrite length_take. lia.
  - rewrite P3, P4. simpl. intros i a b Ha Hb. apply (W3 i).
    + apply lookup_app_l_Some. done.
    + rewrite El. by apply lookup_app_l_Some.
  - rewrite P1, P3. simpl. intros i b Hb. rewrite length_take, Nat.min_l by lia.
    apply (W5 i (length lims)); rewrite ?El.
    + apply lookup_lt_Some in Hb. lia.
    + by apply lookup_app_l_Some.
    + apply lookup_snoc_Some. by right.
  - rewrite P3. simpl. intros i j a b Hij Ha Hb. apply (W5 i j); [done| |]; rewrite El;
      by apply lookup_app_l_Some.
Qed.

(** Popping [k] marks at once. *)
Lemma TSolver_pops_ok s lims size rest : tsolver_wf s → deductions_lim s = lims ++ size :: rest →
  ∃ s', foldM (λ b _, TSolver_popBacktrackPoint b) s (seq 0 (S (length rest))) = Ok s' ∧ tsolver_wf s'
    ∧ deductions_lim s' = lims ∧ th_deductions s' = take size (th_deductions s)
    ∧ has_explanation s' = has_explanation s ∧ informed_PTRefs s' = informed_PTRefs s.
Proof.
  assert (∀ (l l' : list nat) b, length l = length l' →
    foldM (λ b _, TSolver_popBacktrackPoint b) b l = foldM (λ b _, TSolver_popBacktrackPoint b) b l') as Hlen.
  { intros l. induction l as [|x l IH]; intros [|x' l'] b El; try done. simpl.
    destruct (TSolver_popBacktrackPoint b); simpl; [|done]. apply IH. simpl in El. lia. }
  revert s lims size. induction rest as [|x rest IH] using rev_ind; intros s lims size Hw El.
  - destruct (TSolver_pop_ok s lims size Hw El) as (s' & E & ?). exists s'. simpl. rewrite E. done.
  - rewrite app_comm_cons, app_assoc in El.
    destruct (TSolver_pop_ok s _ x Hw El) as (s1 & E & Hw1 & El1 & Ed1 & Eh1 & Ei1).
    destruct (IH s1 lims size Hw1 El1) as (s2 & E2 & Hw2 & El2 & Ed2 & Eh2 & Ei2).
    exists s2. rewrite (Hlen _ (0%nat :: seq 0 (S (length rest)))) by (simpl; rewrite !length_seq, length_app; simpl; lia).
    cbn [foldM]. rewrite E. cbn [rbind]. split; [done|]. split; [done|]. split; [done|].
    rewrite Ed2, Ed1, take_take, Nat.min_l, Eh2, Eh1, Ei2, Ei1; [done|].
    apply (twf_mono s Hw (length lims) (length (lims ++ size :: rest))).
    + rewrite length_app. lia.
    + rewrite El, <- app_assoc, lookup_app_r, Nat.sub_diag by lia. done.
    + rewrite El. apply lookup_snoc_Some. by right.
Qed.
