(* ===== verification/StpStore.v ===== *)
(** * The difference-logic solver: store, mapper and graph

    STPStore.h keeps the vertices and edges that were ever created,
    STPMapper.h relates them to terms, STPEdgeGraph.h holds the edges that are
    currently true, and STPGraphManager.h adds edges to that graph and searches
    it.  An edge [from → to] of cost [c] is the constraint
    [from - to ≤ c].  [VertRef_Undef] and [EdgeRef_Undef] are [None]. *)
From S2P Require Import Prelude Gmp FastRational FastRationalFacts FastRationalInt Number Lex Delta DiffGraph StpNum Terms TSolver.
From Stdlib Require Import Lia.

Abbreviation VertexRef := nat (only parsing).
Abbreviation EdgeRef := nat (only parsing).

Section stp.
Context {T : Type} `{STPNum T}.

(** ** STPStore *)

Record Edge : Type := MkEdge {
  from : VertexRef;
  to : VertexRef;
  neg : option EdgeRef;
  ecost : T;
  setTime : nat;        (* 0 when the edge is not true *)
}.

Definition with_setTime (e : Edge) (t : nat) : Edge := MkEdge (from e) (to e) (neg e) (ecost e) t.
Definition with_neg (e : Edge) (n : EdgeRef) : Edge :=
  MkEdge (from e) (to e) (Some n) (ecost e) (setTime e).

Record STPStore : Type := MkSTPStore { vertices : nat; edges : list Edge }.

Definition STPStore_init : STPStore := MkSTPStore 1 [].
Definition zero : VertexRef := 0%nat.
Definition vertexNum (s : STPStore) : nat := vertices s.
Definition edgeNum (s : STPStore) : nat := length (edges s).

Definition createVertex (s : STPStore) : VertexRef * STPStore :=
  (vertices s, MkSTPStore (S (vertices s)) (edges s)).

Definition createEdge (s : STPStore) (a b : VertexRef) (c : T) : EdgeRef * STPStore :=
  (length (edges s), MkSTPStore (vertices s) (edges s ++ [MkEdge a b None c 0])).

Definition getEdge (s : STPStore) (e : EdgeRef) : res Edge := at_ (edges s) e.
Definition getNegation (s : STPStore) (e : EdgeRef) : res (option EdgeRef) :=
  let! x := at_ (edges s) e in Ok (neg x).

Definition setEdge (s : STPStore) (e : EdgeRef) (x : Edge) : STPStore :=
  MkSTPStore (vertices s) (<[e := x]> (edges s)).

Definition setNegation (s : STPStore) (a b : EdgeRef) : res STPStore :=
  let! ea := at_ (edges s) a in
  let s := setEdge s a (with_neg ea b) in
  let! eb := at_ (edges s) b in
  Ok (setEdge s b (with_neg eb a)).

Definition STPStore_clear (s : STPStore) : STPStore := STPStore_init.

(** ** STPMapper *)

Record STPMapper : Type := MkSTPMapper {
  vertRefToVar : list (option PTRef);
  varToVertRef : list (option VertexRef);
  leqToEdgeRef : list (option EdgeRef);
  edgeRefToLeq : list (option PTRef);
  edgeRefToAsgn : list (option PtAsgn);
  edgesContainingVert : list (list EdgeRef);
}.

Definition STPMapper_init : STPMapper := MkSTPMapper [] [] [] [] [] [].

(** [if (v.size() <= i) v.resize(i + 1, Undef); v[i] = x;] *)
Definition vset {A : Type} (l : list (option A)) (i : nat) (x : A) : list (option A) :=
  <[i := Some x]> (grow l i None).
(** [v.size() <= i ? Undef : v[i]] *)
Definition vget {A : Type} (l : list (option A)) (i : nat) : option A := mjoin (l !! i).

Context {N : Type} (logic : Logic N).

Definition setVert (m : STPMapper) (var : PTRef) (vert : VertexRef) : res STPMapper :=
  let! v := isNumVar logic var in
  let! _ := check v in
  let! idx := termId logic var in
  Ok (MkSTPMapper (vset (vertRefToVar m) vert var) (vset (varToVertRef m) idx vert)
        (leqToEdgeRef m) (edgeRefToLeq m) (edgeRefToAsgn m) (edgesContainingVert m)).

Definition registerEdge (s : STPStore) (m : STPMapper) (e : EdgeRef) : res STPMapper :=
  let! x := getEdge s e in
  let l := grow (edgesContainingVert m) (Nat.max (from x) (to x)) [] in
  let! lf := at_ l (from x) in
  let! l := upd l (from x) (lf ++ [e]) in
  let! lt := at_ l (to x) in
  let! l := upd l (to x) (lt ++ [e]) in
  Ok (MkSTPMapper (vertRefToVar m) (varToVertRef m) (leqToEdgeRef m) (edgeRefToLeq m)
        (edgeRefToAsgn m) l).

Definition mapEdge (m : STPMapper) (leq : PTRef) (e : EdgeRef) : res STPMapper :=
  let! idx := termId logic leq in
  Ok (MkSTPMapper (vertRefToVar m) (varToVertRef m) (vset (leqToEdgeRef m) idx e)
        (vset (edgeRefToLeq m) e leq) (edgeRefToAsgn m) (edgesContainingVert m)).

Definition with_asgn (m : STPMapper) (l : list (option PtAsgn)) : STPMapper :=
  MkSTPMapper (vertRefToVar m) (varToVertRef m) (leqToEdgeRef m) (edgeRefToLeq m) l
    (edgesContainingVert m).

Definition setAssignment (m : STPMapper) (e : EdgeRef) (a : PtAsgn) : STPMapper :=
  with_asgn m (vset (edgeRefToAsgn m) e a).

Definition removeAssignment (m : STPMapper) (e : EdgeRef) : res STPMapper :=
  let! _ := check (e <? length (edgeRefToAsgn m))%nat in
  Ok (with_asgn m (<[e := None]> (edgeRefToAsgn m))).

Definition getAssignment (m : STPMapper) (e : EdgeRef) : option PtAsgn := vget (edgeRefToAsgn m) e.

(** The overloads of [getPTRef] and [getEdgeRef]. *)
Definition getPTRef_vert (m : STPMapper) (v : VertexRef) : option PTRef := vget (vertRefToVar m) v.
Definition getPTRef_edge (m : STPMapper) (e : EdgeRef) : option PTRef := vget (edgeRefToLeq m) e.

Definition getVertRef (m : STPMapper) (var : option PTRef) : res (option VertexRef) :=
  match var with
  | None => Ok (Some zero)
  | Some var => let! idx := termId logic var in Ok (vget (varToVertRef m) idx)
  end.

Definition getEdgeRef_leq (m : STPMapper) (leq : PTRef) : res (option EdgeRef) :=
  let! idx := termId logic leq in Ok (vget (leqToEdgeRef m) idx).

Definition edgesOf (m : STPMapper) (v : VertexRef) : res (list EdgeRef) :=
  at_ (edgesContainingVert m) v.

(** The [for] loop that looks for an edge [y → x] of cost [c]. *)
Fixpoint find_edge (s : STPStore) (y x : VertexRef) (c : T) (l : list EdgeRef)
    : res (option EdgeRef) :=
  match l with
  | [] => Ok None
  | e :: l =>
      let! edge := getEdge s e in
      if (from edge =? y)%nat && (to edge =? x)%nat && t_eq (ecost edge) c
      then Ok (Some e) else find_edge s y x c l
  end.

Definition getEdgeRef (s : STPStore) (m : STPMapper) (y x : option VertexRef) (c : T)
    : res (option EdgeRef) :=
  match y, x with
  | Some y, Some x => let! possible := edgesOf m y in find_edge s y x c possible
  | _, _ => Ok None
  end.

Definition STPMapper_clear (m : STPMapper) : STPMapper := STPMapper_init.

(** ** EdgeGraph *)

Record EdgeGraph : Type := MkEdgeGraph {
  addedEdges : list EdgeRef;
  incoming : list (list EdgeRef);
  outgoing : list (list EdgeRef);
}.

Definition EdgeGraph_init : EdgeGraph := MkEdgeGraph [] [] [].

Definition addEdge (g : EdgeGraph) (e : EdgeRef) (a b : VertexRef) : res EdgeGraph :=
  let mx := Nat.max a b in
  let inc := grow (incoming g) mx [] in
  (* both vectors are resized when [incoming] is too small *)
  let out := if (length (incoming g) <=? mx)%nat
             then take (S mx) (grow (outgoing g) mx []) else outgoing g in
  let! li := at_ inc b in
  let! inc := upd inc b (li ++ [e]) in
  let! lo := at_ out a in
  let! out := upd out a (lo ++ [e]) in
  Ok (MkEdgeGraph (addedEdges g ++ [e]) inc out).

Definition isEmpty (g : EdgeGraph) : res bool :=
  let! _ := check (length (incoming g) =? length (outgoing g))%nat in
  Ok (length (incoming g) =? 0)%nat.

(** ** STPGraphManager *)

(** The manager together with the store and the mapper it refers to. *)
Record STPGraphManager : Type := MkGraphMgr {
  store : STPStore;
  mapper : STPMapper;
  graph : EdgeGraph;
  timestamp : nat;
  deductions : list EdgeRef;
}.

Definition isTrue (g : STPGraphManager) (e : EdgeRef) : res bool :=
  let! x := getEdge (store g) e in Ok (negb (setTime x =? 0)%nat).

Definition setTrue (g : STPGraphManager) (e : EdgeRef) (asgn : PtAsgn) : res STPGraphManager :=
  let! edge := getEdge (store g) e in
  if negb (setTime edge =? 0)%nat then Ok g else
  let ts := S (timestamp g) in
  let store' := setEdge (store g) e (with_setTime edge ts) in
  let mapper' := setAssignment (mapper g) e asgn in
  let! graph' := addEdge (graph g) e (from edge) (to edge) in
  Ok (MkGraphMgr store' mapper' graph' ts (deductions g)).

Definition setDeduction (g : STPGraphManager) (e : EdgeRef) : res STPGraphManager :=
  let! edge := getEdge (store g) e in
  Ok (MkGraphMgr (setEdge (store g) e (with_setTime edge (timestamp g))) (mapper g) (graph g)
        (timestamp g) (deductions g ++ [e])).

(** [DFSResult] and the search in progress: [open] is the stack. *)
Record DFS : Type := MkDFS {
  visited : list bool;
  length_ : list T;
  total : nat;
  open : list VertexRef;
}.

(** One edge of the [for] loop of [dfsSearch]. *)
Definition dfs_scan (g : STPGraphManager) (forward : bool) (curr : VertexRef) (d : DFS)
    (eRef : EdgeRef) : res DFS :=
  let! edge := getEdge (store g) eRef in
  let next := if forward then to edge else from edge in
  let! vis := at_ (visited d) next in
  let! lc := at_ (length_ d) curr in
  if negb vis then
    let! visited' := upd (visited d) next true in
    let! c := t_add lc (ecost edge) in
    let! length' := upd (length_ d) next c in
    let! es := edgesOf (mapper g) next in
    Ok (MkDFS visited' length' (total d + length es)%nat (next :: open d))
  else
    let! ln := at_ (length_ d) next in
    let! c := t_add lc (ecost edge) in
    if t_gt ln c then
      let! length' := upd (length_ d) next c in
      Ok (MkDFS (visited d) length' (total d) (next :: open d))
    else Ok d.

Definition dfs_body (g : STPGraphManager) (forward : bool) (d : DFS) : res (DFS + DFS) :=
  match open d with
  | [] => Ok (inr d)
  | curr :: rest =>
      let! toScan := at_ (if forward then outgoing (graph g) else incoming (graph g)) curr in
      let! d := foldM (dfs_scan g forward curr)
                  (MkDFS (visited d) (length_ d) (total d) rest) toScan in
      Ok (inl d)
  end.

Definition dfs_fuel (g : STPGraphManager) : nat :=
  search_fuel (length (addedEdges (graph g))) (vertexNum (store g)).

Definition dfsSearch (g : STPGraphManager) (init : VertexRef) (forward : bool) : res DFS :=
  let n := vertexNum (store g) in
  let! visited' := upd (replicate n false) init true in
  let! length' := upd (replicate n t_zero) init t_zero in
  while (dfs_fuel g) (dfs_body g forward) (MkDFS visited' length' 0 [init]).

(** [findConsequences]: [forwardSide] says that the scan is over the vertices
    with a walk to the edge ([aRes.total < bRes.total]). *)
Definition consequence_scan (e : EdgeRef) (startCost : T) (this other : DFS) (aSide : bool)
    (i : VertexRef) (st : list EdgeRef * STPGraphManager) (eRef : EdgeRef)
    : res (list EdgeRef * STPGraphManager) :=
  let '(ret, g) := st in
  if (eRef =? e)%nat then Ok st else
  let! edge := getEdge (store g) eRef in
  let thisSide := if aSide then from edge else to edge in
  let otherSide := if aSide then to edge else from edge in
  if negb (thisSide =? i)%nat then Ok st else
  let! vis := at_ (visited other) otherSide in
  if negb vis then Ok st else
  let! lt := at_ (length_ this) thisSide in
  let! lo := at_ (length_ other) otherSide in
  let! s := t_add lt startCost in
  let! s := t_add s lo in
  if t_ge (ecost edge) s && (setTime edge =? 0)%nat then
    let! g := setDeduction g eRef in Ok (ret ++ [eRef], g)
  else Ok st.

Definition consequence_vertex (e : EdgeRef) (startCost : T) (this other : DFS) (aSide : bool)
    (st : list EdgeRef * STPGraphManager) (i : VertexRef) : res (list EdgeRef * STPGraphManager) :=
  let! vis := at_ (visited this) i in
  if negb vis then Ok st else
  let! es := edgesOf (mapper (snd st)) i in
  foldM (consequence_scan e startCost this other aSide i) st es.

Definition findConsequences (g : STPGraphManager) (e : EdgeRef)
    : res (list EdgeRef * STPGraphManager) :=
  let n := vertexNum (store g) in
  let! start := getEdge (store g) e in
  let! aRes := dfsSearch g (from start) false in
  let! bRes := dfsSearch g (to start) true in
  let aSide := (total aRes <? total bRes)%nat in
  let this := if aSide then aRes else bRes in
  let other := if aSide then bRes else aRes in
  foldM (consequence_vertex e (ecost start) this other aSide) ([], g) (seq 0 n).

End stp.
Arguments Edge T : clear implicits.
Arguments STPStore T : clear implicits.
Arguments STPGraphManager T : clear implicits.
Arguments DFS T : clear implicits.
