(* ===== verification/StpSearch.v ===== *)
(** * The search of the graph manager is exact

    [dfsSearch] terminates on a graph without negative cycles and returns the
    shortest distances from its start, forwards or backwards; the only error
    it can stop with is the one the arithmetic of the costs throws.
    Then: [findConsequences], which combines two searches. *)
From S2P Require Import Prelude Gmp FastRational FastRationalFacts FastRationalInt Number Lex Delta DiffGraph StpNum Terms TSolver StpStore.
From Stdlib Require Import Lia.

Section stp.
Context {T : Type} `{STPNum T}.

(** The constraint of an edge, and the constraints of the current graph. *)
Definition dedge_of (e : Edge T) : dedge := DEdge (from e) (to e) (t_val (ecost e)).

Definition refs_graph (s : STPStore T) (l : list EdgeRef) : list dedge :=
  omap (λ r, dedge_of <$> edges s !! r) l.

Definition leaves (s : STPStore T) (v : VertexRef) (r : EdgeRef) : Prop :=
  from <$> edges s !! r = Some v.
Definition enters (s : STPStore T) (v : VertexRef) (r : EdgeRef) : Prop :=
  to <$> edges s !! r = Some v.
#[export] Instance leaves_dec s v r : Decision (leaves s v r).
Proof. unfold leaves. apply _. Defined.
#[export] Instance enters_dec s v r : Decision (enters s v r).
Proof. unfold enters. apply _. Defined.

(** The adjacency lists are the added edges, in the order they were added. *)
Record graph_wf (s : STPStore T) (g : EdgeGraph) : Prop := {
  gw_len : length (incoming g) = length (outgoing g);
  gw_vert : (length (outgoing g) <= vertices s)%nat;
  gw_added : ∀ r, r ∈ addedEdges g → ∃ e, edges s !! r = Some e
    ∧ (from e < length (outgoing g))%nat ∧ (to e < length (outgoing g))%nat;
  gw_out : ∀ v l, outgoing g !! v = Some l → l = base.filter (leaves s v) (addedEdges g);
  gw_in : ∀ v l, incoming g !! v = Some l → l = base.filter (enters s v) (addedEdges g);
}.

Lemma elem_of_refs_graph s l d :
  d ∈ refs_graph s l ↔ ∃ r e, r ∈ l ∧ edges s !! r = Some e ∧ d = dedge_of e.
Proof.
  unfold refs_graph. rewrite list_elem_of_omap. split.
  - intros (r & Hr & E). destruct (edges s !! r) as [e|] eqn:Ee; [|done]. injection E as <-. eauto.
  - intros (r & e & Hr & Ee & ->). exists r. split; [done|]. by rewrite Ee.
Qed.

(** The labels of a search: the lengths of the visited vertices. *)
Definition lab_of (d : DFS T) : labels := λ v,
  match visited d !! v with Some true => t_val <$> length_ d !! v | _ => None end.

Lemma lab_of_Some d v c :
  lab_of d v = Some c ↔ visited d !! v = Some true ∧ ∃ l, length_ d !! v = Some l ∧ c = t_val l.
Proof.
  unfold lab_of. destruct (visited d !! v) as [[|]|], (length_ d !! v) as [l|]; simpl; naive_solver.
Qed.

(** ** Searching in one direction *)
Section dfs.
Context (g : STPGraphManager T) (forward : bool).

Definition dir (d : dedge) : dedge := if forward then d else flip d.
Definition dir_graph : list dedge := dir <$> refs_graph (store g) (addedEdges (graph g)).
Definition adjacency : list (list EdgeRef) :=
  if forward then outgoing (graph g) else incoming (graph g).
Definition next_of (e : Edge T) : VertexRef := if forward then to e else from e.
Definition prev_of (e : Edge T) : VertexRef := if forward then from e else to e.

Hypothesis Hwf : graph_wf (store g) (graph g).
Hypothesis Hreg : ∀ r e, r ∈ addedEdges (graph g) → edges (store g) !! r = Some e →
  (from e < length (edgesContainingVert (mapper g)))%nat
  ∧ (to e < length (edgesContainingVert (mapper g)))%nat.
Hypothesis Hnn : nonneg dir_graph.

Lemma dir_edge e : dir (dedge_of e) = DEdge (prev_of e) (next_of e) (t_val (ecost e)).
Proof. unfold dir, dedge_of, flip, prev_of, next_of. by destruct forward. Qed.

Lemma elem_of_dir_graph d :
  d ∈ dir_graph ↔ ∃ r e, r ∈ addedEdges (graph g) ∧ edges (store g) !! r = Some e ∧ d = dir (dedge_of e).
Proof.
  unfold dir_graph. rewrite list_elem_of_fmap. split.
  - intros (x & -> & (r & e & Hr & Ee & ->)%elem_of_refs_graph). eauto 10.
  - intros (r & e & Hr & Ee & ->). exists (dedge_of e). split; [done|].
    apply elem_of_refs_graph. eauto 10.
Qed.

(** The list scanned at [v] holds the edges that start there. *)
Lemma adjacency_spec v l r : adjacency !! v = Some l →
  r ∈ l ↔ r ∈ addedEdges (graph g) ∧ ∃ e, edges (store g) !! r = Some e ∧ prev_of e = v.
Proof.
  unfold adjacency, prev_of. intros Hl. destruct forward.
  - rewrite (gw_out _ _ Hwf _ _ Hl), list_elem_of_filter. unfold leaves.
    clear Hreg Hnn. destruct (edges (store g) !! r) as [e|]; simpl; naive_solver.
  - rewrite (gw_in _ _ Hwf _ _ Hl), list_elem_of_filter. unfold enters.
    clear Hreg Hnn. destruct (edges (store g) !! r) as [e|]; simpl; naive_solver.
Qed.

Lemma adjacency_length : length adjacency = length (outgoing (graph g)).
Proof. unfold adjacency. destruct forward; [done | apply Hwf]. Qed.

Lemma added_bounds r e : r ∈ addedEdges (graph g) → edges (store g) !! r = Some e →
  (next_of e < length adjacency)%nat ∧ (prev_of e < length adjacency)%nat
  ∧ (length adjacency <= vertices (store g))%nat
  ∧ (next_of e < length (edgesContainingVert (mapper g)))%nat.
Proof.
  intros Hr Ee. destruct (gw_added _ _ Hwf r Hr) as (e' & E' & Hf & Ht).
  rewrite Ee in E'. injection E' as <-. destruct (Hreg r e Hr Ee).
  rewrite adjacency_length. pose proof (gw_vert _ _ Hwf).
  unfold next_of, prev_of. destruct forward; lia.
Qed.

Definition scan_graph (l : list EdgeRef) : list dedge :=
  dir <$> refs_graph (store g) l.

Lemma scan_graph_cons r e l : edges (store g) !! r = Some e →
  scan_graph (r :: l) = dir (dedge_of e) :: scan_graph l.
Proof. intros Ee. unfold scan_graph, refs_graph. simpl. by rewrite Ee. Qed.

Context (init : VertexRef).

(** What holds of a search between two edges: [ex] are the edges still to be
    scanned at the current vertex. *)
Record dfs_inv (d : DFS T) (ex : list dedge) : Prop := {
  di_visited : length (visited d) = vertices (store g);
  di_length : length (length_ d) = vertices (store g);
  di_open : ∀ v, v ∈ open d → (v < length adjacency)%nat;
  di_lc : lc dir_graph init (lab_of d) (open d) ex;
}.

Definition dfs_measure (d : DFS T) : nat :=
  (unused_count dir_graph init (vertices (store g)) (lab_of d) + length (open d))%nat.

(** The labels after [length_[next] = c] on a vertex that is or becomes
    visited. *)
Lemma lab_of_update vis len tot op tot' op' v c : (v < length vis)%nat → (v < length len)%nat →
  ∀ x, relabel (lab_of (MkDFS vis len tot op)) v (t_val c) x
       = lab_of (MkDFS (<[v := true]> vis) (<[v := c]> len) tot' op') x.
Proof.
  intros Hv Hl x. unfold relabel, lab_of. simpl. destruct (decide (x = v)) as [->|Hne].
  - by rewrite !list_lookup_insert_eq by lia.
  - by rewrite !list_lookup_insert_ne by done.
Qed.

Lemma visited_insert_same (vis : list bool) v : vis !! v = Some true → <[v := true]> vis = vis.
Proof. apply list_insert_id. Qed.

(** Scanning one edge. *)
Lemma dfs_scan_wp curr r e l d :
  r ∈ addedEdges (graph g) → edges (store g) !! r = Some e → prev_of e = curr →
  dfs_inv d (scan_graph (r :: l)) → is_Some (lab_of d curr) → (init < vertices (store g))%nat →
  wp t_err (λ d', dfs_inv d' (scan_graph l) ∧ is_Some (lab_of d' curr)
                  ∧ (dfs_measure d' <= dfs_measure d)%nat)
    (dfs_scan g forward curr d r).
Proof.
  intros Hr Ee Hcurr Hd [lcur Hlab] Hinit.
  destruct (added_bounds r e Hr Ee) as (Bn & Bp & Bv & Be).
  pose proof Hd as [Dv Dl Do Dlc]. rewrite (scan_graph_cons r e l Ee) in Dlc.
  destruct d as [vis len tot op]. simpl in *.
  unfold dfs_scan. apply wp_bind. eapply at_wp; [exact Ee|]. fold (next_of e). simpl.
  destruct (lookup_lt_is_Some_2 vis (next_of e)) as [b Hb]; [lia|].
  destruct (lookup_lt_is_Some_2 len (next_of e)) as [ln Hln]; [lia|].
  apply lab_of_Some in Hlab as (Hvc & lcv & Hlc & Hlab). simpl in *.
  apply wp_bind. eapply at_wp; [exact Hb|]. apply wp_bind. eapply at_wp; [exact Hlc|].
  assert (lab_of (MkDFS vis len tot op) (src (dir (dedge_of e))) = Some lcur) as Hsrc.
  { rewrite dir_edge. simpl. unfold lab_of. simpl. by rewrite Hcurr, Hvc, Hlc, Hlab. }
  assert (dir (dedge_of e) ∈ dir_graph) as Hin by (apply elem_of_dir_graph; eauto).
  assert (∀ c tot', t_val c = (lcur + t_val (ecost e))%lex →
    improves (lab_of (MkDFS vis len tot op)) (next_of e) (t_val c) →
    let d' := MkDFS (<[next_of e := true]> vis) (<[next_of e := c]> len) tot' (next_of e :: op) in
    dfs_inv d' (scan_graph l) ∧ is_Some (lab_of d' curr)
    ∧ (dfs_measure d' <= dfs_measure (MkDFS vis len tot op))%nat) as Himp.
  { intros c tot' Hc Himp d'. subst d'.
    pose proof (lab_of_update vis len tot op tot' (next_of e :: op) (next_of e) c ltac:(lia) ltac:(lia)) as Hrel.
    pose proof (dir_edge e) as Hde.
    split; [constructor|split].
    - simpl. rewrite length_insert. lia.
    - simpl. rewrite length_insert. lia.
    - simpl. intros x [->|Hx]%elem_of_cons; [done | auto].
    - simpl. eapply lc_ext; [exact Hrel|]. rewrite Hc.
      pose proof (lc_improve _ _ Hnn _ _ (next_of e :: op) _ _ lcur Dlc Hin Hsrc) as Himp'.
      rewrite Hde in Himp'. simpl in Himp'. apply Himp'; [by rewrite <- Hc|].
      intros x. by rewrite elem_of_cons.
    - rewrite <- Hrel. unfold relabel. destruct (decide _); [eauto|].
      unfold lab_of. simpl. rewrite Hvc, Hlc. eauto.
    - unfold dfs_measure. simpl. rewrite <- (unused_ext _ _ _ _ _ Hrel), Hc.
      pose proof (improve_unused _ _ Hnn (vertices (store g)) _ _ _ _ lcur Dlc Hin Hsrc) as Hun.
      rewrite Hde in Hun. simpl in Hun.
      specialize (Hun ltac:(by rewrite <- Hc) Hinit).
      assert (∀ x, x ∈ dir_graph → (dst x < vertices (store g))%nat) as Hbnd.
      { intros x (r' & e' & Hr' & Ee' & ->)%elem_of_dir_graph. rewrite dir_edge. simpl.
        destruct (added_bounds r' e' Hr' Ee') as (? & ? & ? & ?). lia. }
      specialize (Hun Hbnd). lia. }
  destruct b; simpl.
  - (* visited already *)
    apply wp_bind. eapply at_wp; [exact Hln|]. apply wp_bind.
    eapply wp_mono; [apply t_add_val|]. intros c Hc. simpl in Hc. rewrite <- Hlab in Hc.
    destruct (t_gt ln c) eqn:Hgt.
    + apply wp_bind. apply upd_wp; [lia|]. simpl.
      rewrite <- (visited_insert_same vis (next_of e) Hb) at 1 2 3.
      apply (Himp c tot Hc). unfold improves, lab_of. simpl. rewrite Hb, Hln. simpl.
      by apply t_gt_val.
    + simpl. split; [|split; [|lia]].
      * constructor; try done. eapply lc_skip; [exact Dlc|].
        intros c1. rewrite Hsrc. intros [= <-]. rewrite dir_edge. simpl.
        exists (t_val ln). split; [unfold lab_of; simpl; by rewrite Hb, Hln|].
        rewrite <- Hc. apply lle_not_lt. rewrite <- t_gt_val. by rewrite Hgt.
      * unfold lab_of. simpl. rewrite Hvc, Hlc. eauto.
  - (* first visit *)
    apply wp_bind. apply upd_wp; [lia|]. simpl. apply wp_bind.
    eapply wp_mono; [apply t_add_val|]. intros c Hc. simpl in Hc. rewrite <- Hlab in Hc.
    apply wp_bind. apply upd_wp; [lia|]. simpl.
    destruct (lookup_lt_is_Some_2 (edgesContainingVert (mapper g)) (next_of e)) as [es Hes]; [lia|].
    apply wp_bind. eapply at_wp; [exact Hes|]. simpl. apply Himp; [done|].
    unfold improves, lab_of. simpl. by rewrite Hb.
Qed.

(** One round of the [while] loop. *)
Lemma dfs_body_wp d : (init < vertices (store g))%nat → dfs_inv d [] →
  wp t_err (λ r, match r with
                 | inl d' => dfs_inv d' [] ∧ (dfs_measure d' < dfs_measure d)%nat
                 | inr d' => dfs_inv d' [] ∧ open d' = []
                 end) (dfs_body g forward d).
Proof.
  intros Hinit Hd. pose proof Hd as [Dv Dl Do Dlc].
  destruct d as [vis len tot op]. simpl in *. unfold dfs_body. simpl.
  destruct op as [|curr rest]; [done|].
  destruct (lookup_lt_is_Some_2 adjacency curr) as [l Hl]; [apply Do; by left|].
  apply wp_bind. eapply at_wp; [exact Hl|].
  destruct (lc_todo _ _ _ _ _ Dlc curr ltac:(by left)) as [lcur Hlcur].
  set (d0 := MkDFS vis len tot rest).
  apply wp_bind. eapply wp_mono.
  - apply foldM_wp with (I := λ pre post d', dfs_inv d' (scan_graph post) ∧ is_Some (lab_of d' curr)
        ∧ (dfs_measure d' <= dfs_measure d0)%nat).
    + split; [|split; [by exists lcur | done]]. constructor; try done.
      * intros v Hv. apply Do. by right.
      * eapply lc_pop; [exact Dlc | by intros x ?%elem_of_cons | by right |].
        intros e (r & x & Hr & Ex & ->)%elem_of_dir_graph. rewrite dir_edge. simpl. intros Hp.
        unfold scan_graph. apply list_elem_of_fmap. exists (dedge_of x). split; [by rewrite dir_edge|].
        apply elem_of_refs_graph. exists r, x. split; [|done].
        apply (adjacency_spec curr l r Hl). eauto.
    + intros pre r post d' -> (Hd' & Hs & Hm).
      assert (r ∈ pre ++ r :: post) as Hin by (rewrite elem_of_app, elem_of_cons; auto).
      apply (adjacency_spec curr _ r Hl) in Hin as (Hr & e & Ee & Hp).
      eapply wp_mono; [by apply (dfs_scan_wp curr r e post d')|].
      intros d'' (? & ? & ?). split; [done|]. split; [done | lia].
  - intros d' (Hd' & _ & Hm). simpl. split; [done|]. unfold dfs_measure in Hm at 2. simpl in Hm.
    unfold dfs_measure at 2. simpl. unfold d0 in Hm. simpl in Hm.
    assert (lab_of (MkDFS vis len tot rest) = lab_of (MkDFS vis len tot (curr :: rest))) as <- by done.
    lia.
Qed.

Lemma dir_length : (length dir_graph <= length (addedEdges (graph g)))%nat.
Proof. unfold dir_graph. rewrite length_fmap. apply length_omap_le. Qed.

(** What the result of a search says. *)
Definition dfs_result (d : DFS T) : Prop :=
  length (visited d) = vertices (store g) ∧ length (length_ d) = vertices (store g)
  ∧ ∀ v, match lab_of d v with
         | Some c => is_dist dir_graph init v c
         | None => ∀ p, ¬ path dir_graph init p v
         end.

Lemma dfsSearch_wp : (init < length adjacency)%nat →
  wp t_err dfs_result (dfsSearch g init forward).
Proof.
  intros Hi. assert (init < vertices (store g))%nat as Hinit.
  { rewrite adjacency_length in Hi. pose proof (gw_vert _ _ Hwf). lia. }
  unfold dfsSearch, vertexNum.
  apply wp_bind, upd_wp; [rewrite length_replicate; lia|].
  apply wp_bind, upd_wp; [rewrite length_replicate; lia|].
  set (d0 := MkDFS _ _ _ _).
  assert (∀ v, relabel (λ _, None) init lzero v = lab_of d0 v) as Hlab.
  { intros v. unfold relabel, lab_of. simpl. destruct (decide (v = init)) as [->|Hne].
    - rewrite !list_lookup_insert_eq by (rewrite length_replicate; lia). simpl. by rewrite t_zero_val.
    - rewrite !list_lookup_insert_ne by done.
      destruct (replicate (vertices (store g)) false !! v) as [[|]|] eqn:E; [|done|done].
      apply lookup_replicate in E as [? _]. done. }
  assert (dfs_inv d0 []) as Hd0.
  { constructor; simpl.
    - by rewrite length_insert, length_replicate.
    - by rewrite length_insert, length_replicate.
    - intros v ->%list_elem_of_singleton. done.
    - eapply lc_ext; [exact Hlab|]. apply lc_start. }
  eapply wp_mono.
  - apply while_wp with (I := λ d, dfs_inv d []) (mu := dfs_measure)
      (P := λ d, dfs_inv d [] ∧ open d = []); [intros d Hd; by apply dfs_body_wp | exact Hd0 |].
    unfold dfs_measure. simpl.
    pose proof (unused_count_bound dir_graph init (vertices (store g)) (lab_of d0)).
    pose proof (search_fuel_enough (length (addedEdges (graph g))) (vertices (store g))).
    pose proof (Nat.pow_le_mono_l (length dir_graph + 1) (length (addedEdges (graph g)) + 1)
      (vertices (store g))). pose proof dir_length.
    unfold dfs_fuel, vertexNum. lia.
  - intros d ([D1 D2 _ D4] & Ho). split; [done|]. split; [done|]. intros v.
    rewrite Ho in D4. by apply lc_done.
Qed.

End dfs.

(** ** Both directions *)

(** A search forwards from [u] finds the distances from [u], a search
    backwards those to [u]. *)
Definition distance_result (g : STPGraphManager T) (u : VertexRef) (forward : bool) (d : DFS T) : Prop :=
  let G := refs_graph (store g) (addedEdges (graph g)) in
  length (visited d) = vertices (store g) ∧ length (length_ d) = vertices (store g)
  ∧ ∀ v, match lab_of d v with
         | Some c => if forward then is_dist G u v c else is_dist G v u c
         | None => ∀ p, if forward then ¬ path G u p v else ¬ path G v p u
         end.

Lemma dfsSearch_correct g u forward :
  graph_wf (store g) (graph g) →
  (∀ r e, r ∈ addedEdges (graph g) → edges (store g) !! r = Some e →
     (from e < length (edgesContainingVert (mapper g)))%nat
     ∧ (to e < length (edgesContainingVert (mapper g)))%nat) →
  nonneg (refs_graph (store g) (addedEdges (graph g))) →
  (u < length (outgoing (graph g)))%nat →
  wp t_err (distance_result g u forward) (dfsSearch g u forward).
Proof.
  intros Hwf Hreg Hnn Hu. eapply wp_mono.
  - apply dfsSearch_wp; [done | done | | by rewrite adjacency_length].
    unfold dir_graph. destruct forward; simpl.
    + replace (dir true <$> _) with (refs_graph (store g) (addedEdges (graph g))); [done|].
      symmetry. apply list_fmap_id.
    + by apply nonneg_flip.
  - intros d (H1 & H2 & H3). split; [done|]. split; [done|]. intros v. specialize (H3 v).
    unfold dir_graph in H3. destruct forward.
    + replace (dir true <$> _) with (refs_graph (store g) (addedEdges (graph g))) in H3
        by (symmetry; apply list_fmap_id). done.
    + change (dir false <$> refs_graph (store g) (addedEdges (graph g)))
        with (flip <$> refs_graph (store g) (addedEdges (graph g))) in H3.
      destruct (lab_of d v) as [c|]; [by apply is_dist_flip|].
      intros p Hp. eapply H3. by apply path_flip.
Qed.

End stp.

(** * The consequences of an added edge

    [findConsequences] marks and returns exactly the registered edges that
    are not true yet and are implied by a walk through the edge that was just
    added. *)

Section stp.
Context {T : Type} `{STPNum T}.

(** The graph of constraints of a manager. *)
Definition mgr_graph (g : STPGraphManager T) : list dedge :=
  refs_graph (store g) (addedEdges (graph g)).

Definition registered (m : STPMapper) (r : EdgeRef) : Prop :=
  ∃ v l, edgesContainingVert m !! v = Some l ∧ r ∈ l.

(** A registered edge is in the lists of both its ends. *)
Definition listed (s : STPStore T) (m : STPMapper) (r : EdgeRef) (e : Edge T) : Prop :=
  edges s !! r = Some e ∧ (from e < vertices s)%nat ∧ (to e < vertices s)%nat
  ∧ (∃ l, edgesContainingVert m !! from e = Some l ∧ r ∈ l)
  ∧ (∃ l, edgesContainingVert m !! to e = Some l ∧ r ∈ l).

Record mgr_wf (g : STPGraphManager T) : Prop := {
  mw_graph : graph_wf (store g) (graph g);
  mw_listed : ∀ r, registered (mapper g) r → ∃ e, listed (store g) (mapper g) r e;
  mw_added : ∀ r, r ∈ addedEdges (graph g) → registered (mapper g) r;
}.

Lemma listed_registered s m r e : listed s m r e → registered m r.
Proof. intros (_ & _ & _ & (l & El & Hr) & _). by exists (from e), l. Qed.

Lemma mgr_wf_added g r e : mgr_wf g → r ∈ addedEdges (graph g) → edges (store g) !! r = Some e →
  (from e < length (edgesContainingVert (mapper g)))%nat
  ∧ (to e < length (edgesContainingVert (mapper g)))%nat.
Proof.
  intros Hg Hr Ee. apply mw_added in Hr as Hreg; [|done].
  destruct (mw_listed g Hg r Hreg) as (e' & Ee' & _ & _ & (lf & Hlf & _) & (lt & Hlt & _)).
  rewrite Ee in Ee'. injection Ee' as <-. apply lookup_lt_Some in Hlf, Hlt. done.
Qed.

(** ** Marking edges true *)

Definition mark (s : STPStore T) (l : list EdgeRef) (t : nat) : STPStore T :=
  MkSTPStore (vertices s)
    (imap (λ r e, if decide (r ∈ l) then with_setTime e t else e) (edges s)).

Lemma mark_lookup s l t r :
  edges (mark s l t) !! r
  = (λ e, if decide (r ∈ l) then with_setTime e t else e) <$> edges s !! r.
Proof. simpl. by rewrite list_lookup_imap. Qed.

Lemma mark_nil s t : mark s [] t = s.
Proof.
  destruct s as [n es]. unfold mark. simpl. f_equal. apply list_eq. intros r.
  rewrite list_lookup_imap. by destruct (es !! r).
Qed.

Lemma mark_snoc s l t r e : edges s !! r = Some e → r ∉ l →
  setEdge (mark s l t) r (with_setTime e t) = mark s (l ++ [r]) t.
Proof.
  intros Ee Hr. unfold setEdge, mark. simpl. f_equal. apply list_eq. intros x.
  destruct (decide (x = r)) as [->|Hne].
  - rewrite list_lookup_insert_eq
      by (rewrite length_imap; by eapply lookup_lt_Some).
    rewrite list_lookup_imap, Ee. simpl. rewrite decide_True; [done|].
    rewrite elem_of_app, list_elem_of_singleton. auto.
  - rewrite list_lookup_insert_ne, !list_lookup_imap by done.
    destruct (edges s !! x); simpl; [|done]. f_equal.
    destruct (decide (x ∈ l)); [rewrite decide_True | rewrite decide_False];
      rewrite ?elem_of_app, ?list_elem_of_singleton; tauto.
Qed.

Definition marked (g : STPGraphManager T) (l : list EdgeRef) : STPGraphManager T :=
  MkGraphMgr (mark (store g) l (timestamp g)) (mapper g) (graph g) (timestamp g)
    (deductions g ++ l).

Section scan.
Context (g : STPGraphManager T) (e : EdgeRef) (start : Edge T).
Context (this other : DFS T) (aSide : bool).
Hypothesis Hts : (timestamp g ≠ 0)%nat.

Definition this_side (x : Edge T) : VertexRef := if aSide then from x else to x.
Definition other_side (x : Edge T) : VertexRef := if aSide then to x else from x.

(** The edges the two searches imply, read off the unmarked store. *)
Definition selected (r : EdgeRef) : Prop :=
  r ≠ e ∧ ∃ x a b, edges (store g) !! r = Some x ∧ setTime x = 0%nat
    ∧ lab_of this (this_side x) = Some a ∧ lab_of other (other_side x) = Some b
    ∧ (a + t_val (ecost start) + b <= t_val (ecost x))%lex.

Definition at_side (i : VertexRef) (r : EdgeRef) : Prop :=
  ∃ x, edges (store g) !! r = Some x ∧ this_side x = i.

Hypothesis Hlen : length (visited other) = vertices (store g)
  ∧ length (length_ this) = vertices (store g) ∧ length (length_ other) = vertices (store g).

(** One edge: it is appended when it is selected and not marked yet. *)
Lemma consequence_scan_wp i r ret : lab_of this i ≠ None →
  (∃ x, listed (store g) (mapper g) r x) → NoDup ret → (∀ x, x ∈ ret → selected x) →
  wp t_err (λ st, ∃ ret', st = (ret', marked g ret') ∧ NoDup ret'
      ∧ (∀ x, x ∈ ret' ↔ x ∈ ret ∨ (x = r ∧ selected r ∧ at_side i r)))
    (consequence_scan e (ecost start) this other aSide i (ret, marked g ret) r).
Proof.
  intros Hi (x & Ex & Hf & Ht & _) Hnd Hsel. unfold consequence_scan.
  assert (∀ P : Prop, ¬ P → ∃ ret', (ret, marked g ret) = (ret', marked g ret') ∧ NoDup ret'
      ∧ (∀ x, x ∈ ret' ↔ x ∈ ret ∨ (x = r ∧ P))) as Hskip.
  { intros P HP. exists ret. split; [done|]. split; [done|]. intros y. tauto. }
  destruct (Nat.eqb_spec r e) as [->|Hre].
  { apply Hskip. intros [[[] _] _]. done. }
  apply wp_bind. eapply at_wp; [rewrite (mark_lookup (store g) ret (timestamp g)), Ex; done|].
  set (x' := if decide (r ∈ ret) then _ else _).
  assert (from x' = from x ∧ to x' = to x ∧ ecost x' = ecost x) as (Ef & Et & Ec)
    by (unfold x'; by destruct (decide _)).
  rewrite Ef, Et, Ec. fold (this_side x) (other_side x).
  destruct (Nat.eqb_spec (this_side x) i) as [Hti|Hti]; simpl;
    [|apply Hskip; intros [_ (y & Ey & Hy)]; congruence].
  destruct Hlen as (L1 & L2 & L3).
  assert (this_side x < vertices (store g))%nat by (unfold this_side; by destruct aSide).
  assert (other_side x < vertices (store g))%nat by (unfold other_side; by destruct aSide).
  destruct (lookup_lt_is_Some_2 (visited other) (other_side x)) as [b Hb]; [lia|].
  apply wp_bind. eapply at_wp; [exact Hb|]. destruct b; simpl.
  2:{ apply Hskip. intros [(_ & y & a & c & Ey & _ & _ & Hc & _) _].
      rewrite Ex in Ey. injection Ey as <-. apply lab_of_Some in Hc as [Hc _]. congruence. }
  destruct (lookup_lt_is_Some_2 (length_ this) (this_side x)) as [lt Hlt]; [lia|].
  destruct (lookup_lt_is_Some_2 (length_ other) (other_side x)) as [lo Hlo]; [lia|].
  apply wp_bind. eapply at_wp; [exact Hlt|]. apply wp_bind. eapply at_wp; [exact Hlo|].
  apply wp_bind. eapply wp_mono; [apply t_add_val|]. intros s1 Hs1.
  apply wp_bind. eapply wp_mono; [apply t_add_val|]. intros s2 Hs2. simpl in Hs1, Hs2.
  assert (lab_of this (this_side x) = Some (t_val lt)) as Hlabt.
  { destruct (lab_of this i) as [c|] eqn:Ei; [|done]. rewrite <- Hti in Ei.
    apply lab_of_Some in Ei as (Hv & l & Hl & ->). rewrite Hlt in Hl. injection Hl as <-.
    unfold lab_of. by rewrite Hv, Hlt. }
  assert (lab_of other (other_side x) = Some (t_val lo)) as Hlabo
    by (unfold lab_of; by rewrite Hb, Hlo).
  assert (selected r ↔ setTime x = 0%nat ∧ t_ge (ecost x) s2 = true) as Hiff.
  { rewrite t_ge_val, Hs2, Hs1. split.
    - intros (_ & y & a & c & Ey & Hz & Ha & Hc & Hle). rewrite Ex in Ey. injection Ey as <-.
      rewrite Hlabt in Ha. rewrite Hlabo in Hc. injection Ha as <-. injection Hc as <-. done.
    - intros [Hz Hle]. split; [done|]. exists x, (t_val lt), (t_val lo). done. }
  destruct (t_ge (ecost x) s2) eqn:Hge; simpl; [|apply Hskip; rewrite Hiff; naive_solver].
  destruct (decide (r ∈ ret)) as [Hin|Hin].
  - assert (setTime x' = timestamp g) as -> by done.
    rewrite (proj2 (Nat.eqb_neq _ _) Hts). exists ret. split; [done|]. split; [done|].
    intros y. naive_solver.
  - assert (setTime x' = setTime x) as -> by done.
    destruct (Nat.eqb_spec (setTime x) 0) as [Hz|Hz];
      [|apply Hskip; rewrite Hiff; naive_solver].
    apply wp_bind. unfold setDeduction. apply wp_bind.
    eapply at_wp; [rewrite (mark_lookup (store g) ret (timestamp g)), Ex; done|]. simpl.
    rewrite (decide_False (P := r ∈ ret)) by done. exists (ret ++ [r]). split.
    + unfold marked. simpl. rewrite app_assoc.
      pose proof (mark_snoc (store g) ret (timestamp g) r x Ex Hin) as Em.
      unfold setEdge in Em. simpl in Em. unfold setEdge. simpl. by rewrite Em.
    + split.
      * apply NoDup_app. split; [done|]. split; [|apply NoDup_singleton].
        intros y Hy ->%list_elem_of_singleton. done.
      * intros y. rewrite elem_of_app, list_elem_of_singleton.
        assert (selected r ∧ at_side i r); [|naive_solver].
        split; [by apply Hiff | by exists x].
Qed.

Lemma listed_of i l r : mgr_wf g → edgesContainingVert (mapper g) !! i = Some l → r ∈ l →
  ∃ x, listed (store g) (mapper g) r x.
Proof. intros Hg Hl Hr. apply (mw_listed g Hg). by exists i, l. Qed.

(** All vertices: the selected registered edges. *)
Lemma consequences_wp n : mgr_wf g → n = vertices (store g) →
  length (visited this) = n →
  (∀ v, lab_of this v ≠ None → (v < length (edgesContainingVert (mapper g)))%nat) →
  wp t_err (λ st, ∃ ret, st = (ret, marked g ret) ∧ NoDup ret
      ∧ (∀ r, r ∈ ret ↔ registered (mapper g) r ∧ selected r))
    (foldM (consequence_vertex e (ecost start) this other aSide) ([], g) (seq 0 n)).
Proof.
  intros Hg -> Lv Hreach. eapply wp_mono.
  - apply foldM_wp with (I := λ pre _ st, ∃ ret, st = (ret, marked g ret) ∧ NoDup ret
        ∧ (∀ r, r ∈ ret ↔ selected r ∧ ∃ i l, i ∈ pre ∧ edgesContainingVert (mapper g) !! i = Some l
                            ∧ r ∈ l ∧ at_side i r)).
    + exists []. split; [by destruct g; unfold marked; simpl; rewrite mark_nil, app_nil_r|].
      split; [apply NoDup_nil_2|]. intros r. rewrite elem_of_nil. split; [done|].
      intros (_ & i & l & ?%elem_of_nil & _). done.
    + intros pre i post st Hseq (ret & -> & Hnd & Hret).
      assert (i < vertices (store g))%nat as Hi.
      { assert (i ∈ seq 0 (vertices (store g))) as Hin
          by (rewrite Hseq, elem_of_app, elem_of_cons; auto).
        apply elem_of_seq in Hin. lia. }
      unfold consequence_vertex.
      destruct (lookup_lt_is_Some_2 (visited this) i) as [b Hb]; [lia|].
      apply wp_bind. eapply at_wp; [exact Hb|]. destruct b; simpl.
      2:{ exists ret. split; [done|]. split; [done|]. intros r. rewrite Hret. split.
          - intros (Hs & j & l & Hj & Hl & Hr & Ha). split; [done|]. exists j, l.
            rewrite elem_of_app. auto.
          - intros (Hs & j & l & Hj & Hl & Hr & Ha). split; [done|]. exists j, l.
            rewrite elem_of_app, list_elem_of_singleton in Hj. destruct Hj as [Hj|Hj]; [done|].
            exfalso. subst j. destruct Ha as (x & Ex & Hx).
            destruct Hs as (_ & y & a & c & Ey & _ & Ha & _). rewrite Ex in Ey. injection Ey as <-.
            rewrite Hx in Ha. apply lab_of_Some in Ha as [Hv _]. congruence. }
      assert (lab_of this i ≠ None) as Hlab.
      { destruct (lookup_lt_is_Some_2 (length_ this) i) as [c Hc]; [lia|].
        unfold lab_of. by rewrite Hb, Hc. }
      destruct (lookup_lt_is_Some_2 (edgesContainingVert (mapper g)) i) as [l Hl]; [by apply Hreach|].
      apply wp_bind. eapply at_wp; [exact Hl|]. eapply wp_mono.
      * apply foldM_wp with (I := λ lpre _ st, ∃ ret', st = (ret', marked g ret') ∧ NoDup ret'
            ∧ (∀ r, r ∈ ret' ↔ r ∈ ret ∨ (r ∈ lpre ∧ selected r ∧ at_side i r))).
        -- exists ret. split; [done|]. split; [done|]. intros r. rewrite elem_of_nil. tauto.
        -- intros lpre r lpost st Hls (ret' & -> & Hnd' & Hret').
           eapply wp_mono; [apply consequence_scan_wp; try done|].
           ++ apply (listed_of i l r Hg Hl). rewrite Hls, elem_of_app, elem_of_cons. auto.
           ++ intros x [Hx|(_ & Hx & _)]%Hret'; [by apply Hret in Hx as [? _] | done].
           ++ intros st (ret'' & -> & Hnd'' & Hret''). exists ret''. split; [done|]. split; [done|].
              intros x. rewrite Hret'', Hret', elem_of_app, list_elem_of_singleton.
              naive_solver.
      * intros st (ret' & -> & Hnd' & Hret'). exists ret'. split; [done|]. split; [done|].
        intros r. rewrite Hret', Hret. split.
        -- intros [(Hs & j & l' & Hj & Hl' & Hr & Ha)|(Hr & Hs & Ha)].
           ++ split; [done|]. exists j, l'. rewrite elem_of_app. auto.
           ++ split; [done|]. exists i, l. rewrite elem_of_app, list_elem_of_singleton. auto.
        -- intros (Hs & j & l' & Hj & Hl' & Hr & Ha).
           rewrite elem_of_app, list_elem_of_singleton in Hj. destruct Hj as [Hj| ->].
           ++ left. eauto 10.
           ++ right. rewrite Hl in Hl'. injection Hl' as <-. done.
  - intros st (ret & -> & Hnd & Hret). exists ret. split; [done|]. split; [done|].
    intros r. rewrite Hret. split.
    + intros (Hs & i & l & _ & Hl & Hr & _). split; [by exists i, l | done].
    + intros (Hreg & Hs). split; [done|].
      destruct (mw_listed g Hg r Hreg) as (x & Ex & Hf & Ht & (lf & Hlf & Hrf) & (lt & Hlt & Hrt)).
      exists (this_side x). unfold at_side, this_side. destruct aSide.
      * exists lf. repeat split; [apply elem_of_seq; lia | done | done | by exists x].
      * exists lt. repeat split; [apply elem_of_seq; lia | done | done | by exists x].
Qed.

End scan.
(** The constraint of [x] follows from a walk through [start]. *)
Definition implied_through (G : list dedge) (start x : dedge) : Prop :=
  ∃ p q, path G (src x) p (src start) ∧ path G (dst start) q (dst x)
    ∧ (cost p + w start + cost q <= w x)%lex.

Lemma distance_reach g u fwd d v : distance_result g u fwd d → mgr_wf g →
  (u < length (edgesContainingVert (mapper g)))%nat → lab_of d v ≠ None →
  (v < length (edgesContainingVert (mapper g)))%nat.
Proof.
  intros (_ & _ & Hd) Hg Hu Hv. specialize (Hd v). destruct (lab_of d v) as [c|]; [|done].
  assert (∀ a p b, path (refs_graph (store g) (addedEdges (graph g))) a p b →
    a = b ∨ ((a < length (edgesContainingVert (mapper g)))%nat
             ∧ (b < length (edgesContainingVert (mapper g)))%nat)) as Hends.
  { intros a p b Hp. induction Hp as [|p x Hp IH Hx]; [by left|].
    apply elem_of_refs_graph in Hx as (r & e & Hr & Ee & ->).
    destruct (mgr_wf_added g r e Hg Hr Ee) as [? ?]. simpl in *. right.
    destruct IH as [->|[? ?]]; done. }
  destruct fwd; destruct Hd as [(p & Hp & _) _]; destruct (Hends _ _ _ Hp) as [->|[? ?]]; done.
Qed.

Lemma selected_through g e start this other aSide r :
  distance_result g (from start) false (if aSide : bool then this else other) →
  distance_result g (to start) true (if aSide then other else this) →
  selected g e start this other aSide r ↔
  r ≠ e ∧ ∃ x, edges (store g) !! r = Some x ∧ setTime x = 0%nat
    ∧ implied_through (mgr_graph g) (dedge_of start) (dedge_of x).
Proof.
  intros (_ & _ & Ha) (_ & _ & Hb). unfold selected, implied_through.
  assert (∀ x (c : lexq), (∃ a b, lab_of this (this_side aSide x) = Some a
      ∧ lab_of other (other_side aSide x) = Some b ∧ (a + t_val (ecost start) + b <= c)%lex)
    ↔ ∃ p q, path (mgr_graph g) (from x) p (from start) ∧ path (mgr_graph g) (to start) q (to x)
        ∧ (cost p + t_val (ecost start) + cost q <= c)%lex) as Hiff.
  { intros x c. specialize (Ha (from x)). specialize (Hb (to x)).
    unfold this_side, other_side, mgr_graph. destruct aSide.
    - split.
      + intros (a & b & Ea & Eb & Hle). rewrite Ea in Ha. rewrite Eb in Hb.
        destruct Ha as [(p & Hp & <-) _], Hb as [(q & Hq & <-) _]. eauto.
      + intros (p & q & Hp & Hq & Hle).
        destruct (lab_of this (from x)) as [a|]; [|by destruct (Ha p)].
        destruct (lab_of other (to x)) as [b|]; [|by destruct (Hb q)].
        destruct Ha as [_ Ha], Hb as [_ Hb]. specialize (Ha p Hp). specialize (Hb q Hq).
        exists a, b. split; [done|]. split; [done|]. lex.
    - split.
      + intros (a & b & Ea & Eb & Hle). rewrite Ea in Hb. rewrite Eb in Ha.
        destruct Ha as [(p & Hp & <-) _], Hb as [(q & Hq & <-) _]. exists p, q.
        split; [done|]. split; [done|]. lex.
      + intros (p & q & Hp & Hq & Hle).
        destruct (lab_of this (to x)) as [a|]; [|by destruct (Hb q)].
        destruct (lab_of other (from x)) as [b|]; [|by destruct (Ha p)].
        destruct Ha as [_ Ha], Hb as [_ Hb]. specialize (Ha p Hp). specialize (Hb q Hq).
        exists a, b. split; [done|]. split; [done|]. lex. }
  split.
  - intros (Hne & x & a & b & Ex & Hz & Ea & Eb & Hle). split; [done|]. exists x.
    split; [done|]. split; [done|]. apply Hiff. eauto.
  - intros (Hne & x & Ex & Hz & Hthr). split; [done|]. apply Hiff in Hthr as (a & b & ? & ? & ?).
    exists x, a, b. done.
Qed.

(** What [findConsequences] does. *)
Lemma findConsequences_wp g e start : mgr_wf g → nonneg (mgr_graph g) → (timestamp g ≠ 0)%nat →
  e ∈ addedEdges (graph g) → edges (store g) !! e = Some start →
  wp t_err (λ st, ∃ ret, st = (ret, marked g ret) ∧ NoDup ret
      ∧ ∀ r, r ∈ ret ↔ registered (mapper g) r ∧ r ≠ e ∧
          ∃ x, edges (store g) !! r = Some x ∧ setTime x = 0%nat
            ∧ implied_through (mgr_graph g) (dedge_of start) (dedge_of x))
    (findConsequences g e).
Proof.
  intros Hg Hnn Hts He Ee. pose proof (mw_graph g Hg) as Hw.
  destruct (gw_added _ _ Hw e He) as (e' & Ee' & Hf & Ht). rewrite Ee in Ee'. injection Ee' as <-.
  destruct (mgr_wf_added g e start Hg He Ee) as [Rf Rt].
  unfold findConsequences, vertexNum. apply wp_bind. eapply at_wp; [exact Ee|].
  assert (∀ r x, r ∈ addedEdges (graph g) → edges (store g) !! r = Some x →
     (from x < length (edgesContainingVert (mapper g)))%nat
     ∧ (to x < length (edgesContainingVert (mapper g)))%nat) as Hreg
    by (intros r x; by apply mgr_wf_added).
  apply wp_bind. eapply wp_mono; [by apply (dfsSearch_correct g (from start) false)|].
  intros aRes Ha.
  apply wp_bind. eapply wp_mono; [by apply (dfsSearch_correct g (to start) true)|].
  intros bRes Hb.
  set (aSide := (total aRes <? total bRes)%nat).
  set (this := if aSide then aRes else bRes). set (other := if aSide then bRes else aRes).
  assert (distance_result g (from start) false (if aSide then this else other)) as Ha'
    by (unfold this, other; by destruct aSide).
  assert (distance_result g (to start) true (if aSide then other else this)) as Hb'
    by (unfold this, other; by destruct aSide).
  assert (length (visited this) = vertices (store g)) as Lt
    by (unfold this; destruct aSide; [apply Ha | apply Hb]).
  eapply wp_mono; [apply consequences_wp with (g := g); try done|].
  - unfold this, other. destruct aSide; repeat split; first [apply Ha | apply Hb].
  - intros v Hv. unfold this in Hv. destruct aSide.
    + by apply (distance_reach g (from start) false aRes).
    + by apply (distance_reach g (to start) true bRes).
  - intros st (ret & -> & Hnd & Hret). exists ret. split; [done|]. split; [done|].
    intros r. by rewrite Hret, selected_through.
Qed.

End stp.
