(* ===== verification/StpInvariant.v ===== *)
(** * The invariant of the graph manager

    The central invariant is the timeline: for every moment [t], a registered
    edge is implied by the edges added up to [t] exactly when its timestamp is
    set and at most [t].  It says at once that propagation is complete, that
    it is sound, that the timestamps of deductions are the ones explanations
    need, and that dropping everything later than [t] restores the state at
    [t].
    Then: asserting a literal keeps the invariant. *)
From S2P Require Import Prelude Gmp FastRational FastRationalFacts FastRationalInt Number Lex Delta DiffGraph StpNum Terms TSolver StpStore.
From S2P Require Import StpSearch.
From Stdlib Require Import Sorted Lia.

Section stp.
Context {T : Type} `{STPNum T}.

(** ** Stores that differ in timestamps only *)

Definition untimed (e : Edge T) : Edge T := with_setTime e 0.

Definition same_edges (s s' : STPStore T) : Prop :=
  vertices s = vertices s' ∧ ∀ r, untimed <$> edges s !! r = untimed <$> edges s' !! r.

#[export] Instance same_edges_equivalence : Equivalence same_edges.
Proof.
  split.
  - by intros s.
  - intros s s' [H1 H2]. split; [done|]. intros r. by rewrite H2.
  - intros s s' s'' [H1 H2] [H3 H4]. split; [congruence|]. intros r. by rewrite H2, H4.
Qed.

Lemma same_edges_lookup s s' r e : same_edges s s' → edges s !! r = Some e →
  ∃ e', edges s' !! r = Some e' ∧ from e' = from e ∧ to e' = to e ∧ neg e' = neg e
    ∧ ecost e' = ecost e ∧ dedge_of e' = dedge_of e.
Proof.
  intros [_ Hs] Ee. specialize (Hs r). rewrite Ee in Hs.
  destruct (edges s' !! r) as [e'|]; [|done]. injection Hs as E1 E2 E3 E4.
  exists e'. repeat split; try congruence. unfold dedge_of. congruence.
Qed.

Lemma same_edges_setTime s r e t : edges s !! r = Some e →
  same_edges s (setEdge s r (with_setTime e t)).
Proof.
  intros Ee. split; [done|]. intros x. simpl. destruct (decide (x = r)) as [->|].
  - rewrite list_lookup_insert_eq by (by eapply lookup_lt_Some). by rewrite Ee.
  - by rewrite list_lookup_insert_ne.
Qed.

Lemma same_edges_mark s l t : same_edges s (mark s l t).
Proof.
  split; [done|]. intros r. rewrite mark_lookup. destruct (edges s !! r); simpl; [|done].
  by destruct (decide _).
Qed.

Lemma refs_graph_same s s' l : same_edges s s' → refs_graph s l = refs_graph s' l.
Proof.
  intros Hs. unfold refs_graph. induction l as [|r l IH]; csimpl; [done|]. rewrite IH.
  assert (dedge_of <$> edges s !! r = dedge_of <$> edges s' !! r) as ->; [|done].
  destruct (edges s !! r) as [e|] eqn:E.
  - destruct (same_edges_lookup s s' r e Hs E) as (e' & -> & _ & _ & _ & _ & Hd).
    simpl. by rewrite Hd.
  - destruct (edges s' !! r) as [e'|] eqn:E'; [|done].
    destruct (same_edges_lookup s' s r e' ltac:(by symmetry) E') as (? & ? & _). congruence.
Qed.

Lemma same_edges_ends s s' v r : same_edges s s' →
  (leaves s v r ↔ leaves s' v r) ∧ (enters s v r ↔ enters s' v r).
Proof.
  intros [_ Hs]. specialize (Hs r). unfold leaves, enters.
  destruct (edges s !! r) as [e|], (edges s' !! r) as [e'|]; try done.
  injection Hs as E1 E2 E3 E4. simpl. by rewrite E1, E2.
Qed.

Lemma graph_wf_same s s' g : same_edges s s' → graph_wf s g → graph_wf s' g.
Proof.
  intros Hs [G1 G2 G3 G4 G5]. constructor.
  - done.
  - by rewrite <- (proj1 Hs).
  - intros r Hr. destruct (G3 r Hr) as (e & Ee & Hf & Ht).
    destruct (same_edges_lookup _ _ _ _ Hs Ee) as (e' & Ee' & Ef & Et & _).
    exists e'. by rewrite Ef, Et.
  - intros v l Hl. rewrite (G4 v l Hl). apply list_filter_iff. intros r. by apply same_edges_ends.
  - intros v l Hl. rewrite (G5 v l Hl). apply list_filter_iff. intros r. by apply same_edges_ends.
Qed.

Lemma listed_same s s' m r e : same_edges s s' → listed s m r e →
  ∃ e', listed s' m r e' ∧ edges s' !! r = Some e' ∧ from e' = from e ∧ to e' = to e
    ∧ neg e' = neg e ∧ ecost e' = ecost e.
Proof.
  intros Hs (Ee & H1 & H2 & H3 & H4).
  destruct (same_edges_lookup _ _ _ _ Hs Ee) as (e' & Ee' & Ef & Et & En & Ec & _).
  exists e'. split; [|done]. unfold listed. rewrite Ef, Et, <- (proj1 Hs). done.
Qed.

(** ** Adding an edge to the graph *)

Lemma addEdge_wf (s : STPStore T) g e (x : Edge T) : graph_wf s g → edges s !! e = Some x →
  (from x < vertices s)%nat → (to x < vertices s)%nat →
  ∃ g', addEdge g e (from x) (to x) = Ok g' ∧ graph_wf s g' ∧ addedEdges g' = addedEdges g ++ [e].
Proof.
  intros Hg Ex Hf Ht. pose proof Hg as [G1 G2 G3 G4 G5].
  unfold addEdge. set (mx := Nat.max (from x) (to x)).
  assert ((if (length (incoming g) <=? mx)%nat then take (S mx) (grow (outgoing g) mx [])
           else outgoing g) = grow (outgoing g) mx []) as ->.
  { destruct (Nat.leb_spec (length (incoming g)) mx).
    - apply take_ge. rewrite grow_length. lia.
    - unfold grow. rewrite (proj2 (Nat.leb_gt _ _)) by lia. done. }
  assert (∀ v l, grow (outgoing g) mx [] !! v = Some l → l = base.filter (leaves s v) (addedEdges g)) as Ho.
  { intros v l. rewrite grow_lookup. destruct (outgoing g !! v) as [l'|] eqn:E.
    - intros [= <-]. by apply G4.
    - destruct (decide _); [|done]. intros [= <-]. symmetry. apply filter_none.
      intros r Hr. destruct (G3 r Hr) as (y & Ey & Hy & _).
      unfold leaves. rewrite Ey. intros [= <-]. apply lookup_ge_None in E. lia. }
  assert (∀ v l, grow (incoming g) mx [] !! v = Some l → l = base.filter (enters s v) (addedEdges g)) as Hi.
  { intros v l. rewrite grow_lookup. destruct (incoming g !! v) as [l'|] eqn:E.
    - intros [= <-]. by apply G5.
    - destruct (decide _); [|done]. intros [= <-]. symmetry. apply filter_none.
      intros r Hr. destruct (G3 r Hr) as (y & Ey & _ & Hy).
      unfold enters. rewrite Ey. intros [= <-]. apply lookup_ge_None in E. lia. }
  pose proof (grow_length (outgoing g) mx []) as Lo. pose proof (grow_length (incoming g) mx []) as Li.
  destruct (lookup_lt_is_Some_2 (grow (incoming g) mx []) (to x)) as [li Hli]; [lia|].
  destruct (lookup_lt_is_Some_2 (grow (outgoing g) mx []) (from x)) as [lo Hlo]; [lia|].
  unfold at_, upd. rewrite Hli. cbn [rbind].
  rewrite (proj2 (Nat.ltb_lt _ _)) by lia. cbn [rbind]. rewrite Hlo. cbn [rbind].
  rewrite (proj2 (Nat.ltb_lt _ _)) by lia. cbn [rbind].
  eexists. split; [done|]. split; [|done]. constructor; simpl.
  - rewrite !length_insert. lia.
  - rewrite length_insert. lia.
  - intros r Hr. rewrite length_insert, Lo.
    rewrite elem_of_app, list_elem_of_singleton in Hr. destruct Hr as [Hr| ->].
    + destruct (G3 r Hr) as (y & Ey & ? & ?). exists y. split; [done | lia].
    + exists x. split; [done | lia].
  - intros v l. rewrite filter_app. cbn [base.filter]. destruct (decide (v = from x)) as [->|Hne].
    + rewrite list_lookup_insert_eq by lia. intros [= <-]. rewrite (Ho _ _ Hlo). f_equal.
      rewrite filter_cons, decide_True; [done|]. unfold leaves. by rewrite Ex.
    + rewrite list_lookup_insert_ne by done. intros Hl. rewrite (Ho _ _ Hl).
      rewrite filter_cons, decide_False, app_nil_r; [done|]. unfold leaves. rewrite Ex. naive_solver.
  - intros v l. rewrite filter_app. cbn [base.filter]. destruct (decide (v = to x)) as [->|Hne].
    + rewrite list_lookup_insert_eq by lia. intros [= <-]. rewrite (Hi _ _ Hli). f_equal.
      rewrite filter_cons, decide_True; [done|]. unfold enters. by rewrite Ex.
    + rewrite list_lookup_insert_ne by done. intros Hl. rewrite (Hi _ _ Hl).
      rewrite filter_cons, decide_False, app_nil_r; [done|]. unfold enters. rewrite Ex. naive_solver.
Qed.

(** ** The timeline *)

Definition time (s : STPStore T) (r : EdgeRef) : nat := from_option setTime 0%nat (edges s !! r).

Definition added_at (g : STPGraphManager T) (t : nat) : list EdgeRef :=
  base.filter (λ r, time (store g) r <= t)%nat (addedEdges (graph g)).
Definition graph_at (g : STPGraphManager T) (t : nat) : list dedge :=
  refs_graph (store g) (added_at g t).

(** The costs of an edge and of its negation. *)
Record opposite (c n : lexq) : Prop := {
  op_grid : t_grid c ∧ t_grid n;
  op_neg : (c + n < lzero)%lex;
  op_l : ∀ l, t_grid l → (n < l)%lex → (lzero <= l + c)%lex;
  op_r : ∀ l, t_grid l → (c < l)%lex → (lzero <= l + n)%lex;
  op_point : ∀ l, t_point l → ¬ (l <= c)%lex ↔ (- l <= n)%lex;
}.

Lemma opposite_sym c n : opposite c n → opposite n c.
Proof.
  intros [[O1 O1'] O2 O3 O4 O5]. constructor; try done.
  - by rewrite ladd_comm.
  - intros l Hl. assert (t_point (- l)%lex) as Hl'.
    { replace (- l)%lex with ((l - l) - l)%lex by lex.
      apply t_point_sub; [by apply t_point_sub | done]. }
    specialize (O5 _ Hl'). replace (- - l)%lex with l in O5 by lex.
    destruct (decide (l <= n)%lex), (decide (- l <= c)%lex); tauto.
Qed.

Lemma negate_opposite c : t_atom c → ∃ n, t_negate c = Ok n ∧ opposite (t_val c) (t_val n).
Proof.
  intros Hc. destruct (t_negate_val c Hc) as (n & En & ? & ? & ? & ? & ? & ?).
  exists n. split; [done|]. by constructor.
Qed.

Record mgr_inv (g : STPGraphManager T) : Prop := {
  mi_wf : mgr_wf g;
  mi_nonneg : nonneg (mgr_graph g);
  mi_neg : ∀ r x, listed (store g) (mapper g) r x → ∃ n y, neg x = Some n ∧ n ≠ r
    ∧ listed (store g) (mapper g) n y ∧ neg y = Some r ∧ from y = to x ∧ to y = from x
    ∧ opposite (t_val (ecost x)) (t_val (ecost y));
  mi_timeline : ∀ r x t, listed (store g) (mapper g) r x →
    implied (graph_at g t) (from x) (to x) (t_val (ecost x)) ↔ (0 < setTime x ∧ setTime x <= t)%nat;
  mi_sorted : StronglySorted Nat.lt (time (store g) <$> addedEdges (graph g));
  mi_times : ∀ r, (time (store g) r <= timestamp g)%nat;
  mi_last : ∀ l r, addedEdges (graph g) = l ++ [r] → time (store g) r = timestamp g;
  mi_added : ∀ r, r ∈ addedEdges (graph g) → (0 < time (store g) r)%nat;
  mi_ded_sorted : StronglySorted Nat.le (time (store g) <$> deductions g);
  mi_ded : ∀ r, r ∈ deductions g →
    registered (mapper g) r ∧ (0 < time (store g) r)%nat ∧ r ∉ addedEdges (graph g);
  mi_ded_nodup : NoDup (deductions g);
  mi_cover : ∀ r, time (store g) r ≠ 0%nat → r ∈ addedEdges (graph g) ∨ r ∈ deductions g;
  mi_asgn : ∀ r, is_Some (getAssignment (mapper g) r) ↔ r ∈ addedEdges (graph g);
}.

Lemma graph_at_subset g t : graph_at g t ⊆ mgr_graph g.
Proof.
  intros d (r & e & Hr & Ee & ->)%elem_of_refs_graph. apply list_elem_of_filter in Hr as [_ Hr].
  apply elem_of_refs_graph. eauto.
Qed.

Lemma graph_at_now g t : mgr_inv g → (timestamp g <= t)%nat → graph_at g t = mgr_graph g.
Proof.
  intros Hg Ht. unfold graph_at, mgr_graph, added_at. f_equal. apply filter_every.
  intros r Hr. pose proof (mi_times g Hg r). lia.
Qed.

(** An edge is true exactly when the current constraints imply it. *)
Lemma true_implied g r x : mgr_inv g → listed (store g) (mapper g) r x →
  setTime x ≠ 0%nat ↔ implied (mgr_graph g) (from x) (to x) (t_val (ecost x)).
Proof.
  intros Hg Hx. rewrite <- (graph_at_now g (timestamp g) Hg) by done.
  rewrite (mi_timeline g Hg r x (timestamp g) Hx).
  pose proof (mi_times g Hg r) as Ht. unfold time in Ht. rewrite (proj1 Hx) in Ht. simpl in Ht. lia.
Qed.

Lemma mgr_grid g d : mgr_inv g → d ∈ mgr_graph g → t_grid (w d).
Proof.
  intros Hg (r & e & Hr & Ee & ->)%elem_of_refs_graph.
  apply (mw_added g (mi_wf g Hg)) in Hr. destruct (mw_listed g (mi_wf g Hg) r Hr) as (e' & He').
  pose proof (proj1 He') as E. rewrite Ee in E. injection E as <-.
  destruct (mi_neg g Hg r e He') as (n & y & _ & _ & _ & _ & _ & _ & Ho). apply Ho.
Qed.

(** An edge whose negation is not implied can be added without a negative
    cycle. *)
Lemma add_nonneg g r x : mgr_inv g → listed (store g) (mapper g) r x →
  (∀ n, neg x = Some n → time (store g) n = 0%nat) → nonneg (dedge_of x :: mgr_graph g).
Proof.
  intros Hg Hx Hn. destruct (mi_neg g Hg r x Hx) as (n & y & En & _ & Hy & _ & Ef & Et & Ho).
  apply nonneg_add_edge; [apply Hg|]. simpl. intros p Hp. apply (op_l _ _ Ho).
  - eapply cost_closed; [apply t_grid_zero | apply t_grid_add | | exact Hp].
    intros d Hd. by eapply mgr_grid.
  - apply llt_not_le. intros Hle. specialize (Hn n En). unfold time in Hn.
    rewrite (proj1 Hy) in Hn. simpl in Hn.
    assert (setTime y ≠ 0%nat) as Hne; [|done]. apply (true_implied g n y Hg Hy).
    rewrite Ef, Et. by exists p.
Qed.

End stp.

(** * Asserting an edge keeps the invariant *)

(** ** Vectors of optional entries *)

Lemma vget_vset {A} (l : list (option A)) i x j :
  vget (vset l i x) j = if decide (j = i) then Some x else vget l j.
Proof.
  unfold vget, vset. destruct (decide (j = i)) as [->|Hne].
  - rewrite list_lookup_insert_eq; [done|]. rewrite grow_length. lia.
  - rewrite list_lookup_insert_ne, grow_lookup by done.
    destruct (l !! j); [done|]. by destruct (decide _).
Qed.

Lemma StronglySorted_snoc {A} (R : A → A → Prop) l x :
  StronglySorted R l → (∀ y, y ∈ l → R y x) → StronglySorted R (l ++ [x]).
Proof.
  induction 1 as [|y l Hl IH Hy]; intros Hx; simpl.
  - constructor; constructor.
  - constructor; [apply IH; intros z Hz; apply Hx; by right|].
    apply Forall_app. split; [done|]. constructor; [apply Hx; by left | constructor].
Qed.

Lemma StronglySorted_app {A} (R : A → A → Prop) l l' :
  StronglySorted R l → StronglySorted R l' → (∀ x y, x ∈ l → y ∈ l' → R x y) →
  StronglySorted R (l ++ l').
Proof.
  induction 1 as [|y l Hl IH Hy]; intros Hl' Hx; simpl; [done|].
  constructor; [apply IH; [done | intros z z' Hz; apply Hx; by right]|].
  apply Forall_app. split; [done|]. apply Forall_forall. intros z Hz. apply Hx; [by left | done].
Qed.

Section stp.
Context {T : Type} `{STPNum T}.

Lemma time_lookup (s : STPStore T) r x : edges s !! r = Some x → time s r = setTime x.
Proof. unfold time. by intros ->. Qed.

(** The manager after an edge [e] and its consequences [ded] were set true. *)
Record extended (g : STPGraphManager T) (e : EdgeRef) (xe : Edge T) (asgn : PtAsgn)
    (ded : list EdgeRef) (g' : STPGraphManager T) : Prop := {
  ex_same : same_edges (store g) (store g');
  ex_time : ∀ r, time (store g') r
      = if decide (r = e ∨ r ∈ ded) then S (timestamp g) else time (store g) r;
  ex_mapper : mapper g' = setAssignment (mapper g) e asgn;
  ex_added : addedEdges (graph g') = addedEdges (graph g) ++ [e];
  ex_ts : timestamp g' = S (timestamp g);
  ex_ded : deductions g' = deductions g ++ ded;
  ex_wf : mgr_wf g';
  ex_nodup : NoDup ded;
  ex_sel : ∀ r, r ∈ ded ↔ registered (mapper g) r ∧ r ≠ e ∧ time (store g) r = 0%nat
      ∧ ∃ x, edges (store g) !! r = Some x
          ∧ implied_through (mgr_graph g') (dedge_of xe) (dedge_of x);
}.

Section extended.
Context (g : STPGraphManager T) (e : EdgeRef) (xe : Edge T) (asgn : PtAsgn).
Context (ded : list EdgeRef) (g' : STPGraphManager T).
Hypothesis Hg : mgr_inv g.
Hypothesis He : listed (store g) (mapper g) e xe.
Hypothesis He0 : time (store g) e = 0%nat.
Hypothesis Hnn : nonneg (dedge_of xe :: mgr_graph g).
Hypothesis Hx : extended g e xe asgn ded g'.

Lemma ext_old r : r ∈ addedEdges (graph g) → r ≠ e ∧ r ∉ ded.
Proof.
  intros Hr. pose proof (mi_added g Hg r Hr). split; [intros ->; lia|].
  intros (_ & _ & Hz & _)%(ex_sel _ _ _ _ _ _ Hx). lia.
Qed.

Lemma ext_graph : mgr_graph g' = mgr_graph g ++ [dedge_of xe].
Proof.
  unfold mgr_graph. rewrite (ex_added _ _ _ _ _ _ Hx).
  rewrite <- (refs_graph_same _ _ _ (ex_same _ _ _ _ _ _ Hx)).
  unfold refs_graph. rewrite omap_app. simpl. by rewrite (proj1 He).
Qed.

Lemma ext_graph_elem d : d ∈ mgr_graph g' ↔ d ∈ dedge_of xe :: mgr_graph g.
Proof. rewrite ext_graph, elem_of_app, list_elem_of_singleton, elem_of_cons. tauto. Qed.

Lemma ext_listed r x' : listed (store g') (mapper g') r x' →
  ∃ x, listed (store g) (mapper g) r x ∧ from x' = from x ∧ to x' = to x ∧ neg x' = neg x
    ∧ ecost x' = ecost x
    ∧ setTime x' = if decide (r = e ∨ r ∈ ded) then S (timestamp g) else setTime x.
Proof.
  intros Hr. rewrite (ex_mapper _ _ _ _ _ _ Hx) in Hr.
  assert (same_edges (store g') (store g)) as Hs by (symmetry; apply Hx).
  destruct (listed_same _ _ _ _ _ Hs Hr) as (x & Hl & E & Ef & Et & En & Ec).
  exists x. rewrite Ef, Et, En, Ec. do 5 (split; [done|]).
  pose proof (ex_time _ _ _ _ _ _ Hx r) as Ht. unfold time in Ht.
  by rewrite (proj1 Hr), E in Ht.
Qed.

Lemma ext_listed_rev r x : listed (store g) (mapper g) r x →
  ∃ x', listed (store g') (mapper g') r x' ∧ from x' = from x ∧ to x' = to x ∧ neg x' = neg x
    ∧ ecost x' = ecost x.
Proof.
  intros Hr. destruct (listed_same _ _ _ _ _ (ex_same _ _ _ _ _ _ Hx) Hr)
    as (x' & Hl & _ & Ef & Et & En & Ec).
  exists x'. rewrite (ex_mapper _ _ _ _ _ _ Hx). done.
Qed.

Lemma ext_past t : (t <= timestamp g)%nat → graph_at g' t = graph_at g t.
Proof.
  intros Ht. unfold graph_at. rewrite <- (refs_graph_same _ _ _ (ex_same _ _ _ _ _ _ Hx)).
  f_equal. unfold added_at. rewrite (ex_added _ _ _ _ _ _ Hx), filter_app.
  rewrite (filter_none _ [e]), app_nil_r.
  - apply filter_ext_in. intros r Hr. rewrite (ex_time _ _ _ _ _ _ Hx), decide_False; [done|].
    destruct (ext_old r Hr). tauto.
  - intros r ->%list_elem_of_singleton. rewrite (ex_time _ _ _ _ _ _ Hx), decide_True by auto. lia.
Qed.

Lemma ext_now t : (S (timestamp g) <= t)%nat → graph_at g' t = mgr_graph g'.
Proof.
  intros Ht. unfold graph_at, mgr_graph, added_at. f_equal. apply filter_every. intros r _.
  rewrite (ex_time _ _ _ _ _ _ Hx). pose proof (mi_times g Hg r). destruct (decide _); lia.
Qed.

Lemma ext_closes p : path (mgr_graph g) (dst (dedge_of xe)) p (src (dedge_of xe)) →
  (lzero <= cost p + w (dedge_of xe))%lex.
Proof.
  intros Hp. rewrite <- cost_snoc. apply (Hnn (dst (dedge_of xe))). constructor; [|by left].
  eapply path_mono; [|exact Hp]. by right.
Qed.

Lemma ext_timeline r x t : listed (store g') (mapper g') r x →
  implied (graph_at g' t) (from x) (to x) (t_val (ecost x)) ↔ (0 < setTime x ∧ setTime x <= t)%nat.
Proof.
  intros Hr. destruct (ext_listed r x Hr) as (y & Hy & Ef & Et & _ & Ec & Es).
  rewrite Ef, Et, Ec. pose proof (time_lookup _ _ _ (proj1 Hy)) as Ety.
  destruct (le_lt_dec t (timestamp g)) as [Ht|Ht].
  - rewrite ext_past, (mi_timeline g Hg r y t Hy) by done. rewrite Es.
    destruct (decide _) as [[->|Hd]|Hd]; [| |done].
    + lia.
    + apply (ex_sel _ _ _ _ _ _ Hx) in Hd as (_ & _ & Hz & _). lia.
  - rewrite ext_now by lia.
    assert (setTime y <= timestamp g)%nat as Hle by (rewrite <- Ety; apply Hg).
    assert (setTime y ≠ 0%nat ↔ implied (mgr_graph g) (from y) (to y) (t_val (ecost y))) as Hold
      by (by apply (true_implied g r y)).
    rewrite Es. split.
    + intros (p & Hp & Hc). enough ((r = e ∨ r ∈ ded) ∨ setTime y ≠ 0%nat) as Hor.
      { destruct (decide _); [lia|]. destruct Hor; [done | lia]. }
      assert (path (dedge_of xe :: mgr_graph g) (from y) p (to y)) as Hp'.
      { eapply path_mono; [|exact Hp]. intros d. apply ext_graph_elem. }
      destruct (path_add_edge_bound _ _ (mi_nonneg g Hg) ext_closes _ _ _ Hp')
        as [(q & Hq & Hqc)|(q1 & q2 & H1 & H2 & Hqc)].
      * right. apply Hold. exists q. split; [done|]. by eapply lle_trans.
      * destruct (decide (setTime y = 0%nat)) as [Hz|]; [|by right]. left.
        destruct (decide (r = e)) as [|Hne]; [by left|]. right.
        apply (ex_sel _ _ _ _ _ _ Hx). split; [by eapply listed_registered|]. split; [done|].
        split; [lia|]. exists y. split; [apply Hy|]. exists q1, q2. simpl.
        assert (mgr_graph g ⊆ mgr_graph g') as Hsub
          by (intros d Hd; apply ext_graph_elem; by right).
        split; [by eapply path_mono|]. split; [by eapply path_mono|]. simpl in Hqc.
        by eapply lle_trans.
    + intros [Hpos _]. destruct (decide _) as [[->|Hd]|Hd].
      * assert (y = xe) as -> by (destruct Hy as [Hy _], He as [He' _]; congruence).
        exists [dedge_of xe]. split; [|rewrite cost_one; apply lle_refl].
        change (from xe) with (src (dedge_of xe)). change (to xe) with (dst (dedge_of xe)).
        apply path_one, ext_graph_elem. by left.
      * apply (ex_sel _ _ _ _ _ _ Hx) in Hd as (_ & _ & _ & y' & Ey' & p & q & Hp & Hq & Hc).
        assert (y' = y) as -> by (destruct Hy; congruence). simpl in *.
        exists (p ++ dedge_of xe :: q). split.
        -- eapply path_app; [exact Hp|].
           change (from xe) with (src (dedge_of xe)). apply path_cons; [|done].
           apply ext_graph_elem. by left.
        -- rewrite cost_app. simpl. rewrite ladd_assoc. exact Hc.
      * destruct (proj1 Hold) as (p & Hp & Hc); [lia|]. exists p. split; [|done].
        eapply path_mono; [|exact Hp]. intros d Hd'. apply ext_graph_elem. by right.
Qed.

Lemma fmap_time_same (l : list EdgeRef) : (∀ r, r ∈ l → r ≠ e ∧ r ∉ ded) →
  time (store g') <$> l = time (store g) <$> l.
Proof.
  intros Hl. apply list_fmap_ext. intros i r Hi. rewrite (ex_time _ _ _ _ _ _ Hx), decide_False; [done|].
  apply list_elem_of_lookup_2, Hl in Hi. tauto.
Qed.

Lemma ext_ded_old r : r ∈ deductions g → r ≠ e ∧ r ∉ ded.
Proof.
  intros Hr. destruct (mi_ded g Hg r Hr) as (_ & Ht & _). split; [intros ->; lia|].
  intros (_ & _ & Hz & _)%(ex_sel _ _ _ _ _ _ Hx). lia.
Qed.

Lemma ext_sorted : StronglySorted Nat.lt (time (store g') <$> addedEdges (graph g'))
  ∧ StronglySorted Nat.le (time (store g') <$> deductions g').
Proof.
  assert (∀ (l : list EdgeRef) y, y ∈ time (store g) <$> l → (y < S (timestamp g))%nat) as Hlt.
  { intros l y (r & -> & _)%list_elem_of_fmap. pose proof (mi_times g Hg r). lia. }
  split.
  - rewrite (ex_added _ _ _ _ _ _ Hx), fmap_app, fmap_time_same by apply ext_old.
    apply StronglySorted_snoc; [apply Hg|]. intros y Hy.
    rewrite (ex_time _ _ _ _ _ _ Hx), decide_True by auto. by eapply Hlt.
  - rewrite (ex_ded _ _ _ _ _ _ Hx), fmap_app, fmap_time_same by apply ext_ded_old.
    assert (∀ y, y ∈ time (store g') <$> ded → y = S (timestamp g)) as Hd.
    { intros y (r & -> & Hr)%list_elem_of_fmap.
      rewrite (ex_time _ _ _ _ _ _ Hx), decide_True by auto. done. }
    apply StronglySorted_app; [apply Hg| |].
    + revert Hd. generalize (time (store g') <$> ded). intros l Hl.
      induction l as [|y l IH]; constructor; [apply IH; intros z Hz; apply Hl; by right|].
      apply Forall_forall. intros z Hz. rewrite (Hl y), (Hl z); [done | by right | by left].
    + intros y z Hy ->%Hd. apply Hlt in Hy. unfold Nat.le. lia.
Qed.

Lemma extended_inv : mgr_inv g'.
Proof.
  constructor.
  - apply Hx.
  - intros u p Hp. apply (Hnn u). eapply path_mono; [|exact Hp]. intros d. apply ext_graph_elem.
  - intros r x Hr. destruct (ext_listed r x Hr) as (y & Hy & Ef & Et & En & Ec & _).
    destruct (mi_neg g Hg r y Hy) as (n & z & E1 & E0 & Hz & E2 & E3 & E4 & E5).
    destruct (ext_listed_rev n z Hz) as (z' & Hz' & F1 & F2 & F3 & F4).
    exists n, z'. rewrite En, F1, F2, F3, F4, Ef, Et, Ec. done.
  - apply ext_timeline.
  - apply ext_sorted.
  - intros r. rewrite (ex_time _ _ _ _ _ _ Hx), (ex_ts _ _ _ _ _ _ Hx).
    pose proof (mi_times g Hg r). destruct (decide _); lia.
  - intros l r. rewrite (ex_added _ _ _ _ _ _ Hx). intros [_ ->]%app_inj_tail.
    rewrite (ex_time _ _ _ _ _ _ Hx), (ex_ts _ _ _ _ _ _ Hx), decide_True by auto. done.
  - intros r. rewrite (ex_added _ _ _ _ _ _ Hx), (ex_time _ _ _ _ _ _ Hx), elem_of_app.
    destruct (decide _); [lia|]. rewrite list_elem_of_singleton. intros [Hr| ->]; [|tauto].
    by apply (mi_added g Hg).
  - apply ext_sorted.
  - intros r. rewrite (ex_ded _ _ _ _ _ _ Hx), (ex_added _ _ _ _ _ _ Hx),
      (ex_time _ _ _ _ _ _ Hx), (ex_mapper _ _ _ _ _ _ Hx), !elem_of_app, list_elem_of_singleton.
    intros [Hr|Hr].
    + destruct (mi_ded g Hg r Hr) as (R1 & R2 & R3). destruct (ext_ded_old r Hr).
      split; [done|]. split; [destruct (decide _); lia | tauto].
    + rewrite decide_True by auto. pose proof Hr as Hr'.
      apply (ex_sel _ _ _ _ _ _ Hx) in Hr' as (R1 & R2 & R3 & _).
      split; [done|]. split; [lia|]. intros [R4|R4]; [|done].
      by destruct (ext_old r R4).
  - rewrite (ex_ded _ _ _ _ _ _ Hx). apply NoDup_app. split; [apply Hg|].
    split; [|apply Hx]. intros r Hr. by apply ext_ded_old.
  - intros r. rewrite (ex_time _ _ _ _ _ _ Hx), (ex_ded _ _ _ _ _ _ Hx), (ex_added _ _ _ _ _ _ Hx),
      !elem_of_app, list_elem_of_singleton.
    destruct (decide _); [tauto|]. intros [?|?]%(mi_cover g Hg); tauto.
  - intros r. rewrite (ex_mapper _ _ _ _ _ _ Hx), (ex_added _ _ _ _ _ _ Hx), elem_of_app,
      list_elem_of_singleton.
    unfold getAssignment, setAssignment. simpl. rewrite vget_vset.
    destruct (decide (r = e)); [split; eauto|].
    pose proof (mi_asgn g Hg r) as Ha. unfold getAssignment in Ha. rewrite Ha. tauto.
Qed.

End extended.

(** ** [setTrue] followed by [findConsequences] *)

Lemma setTrue_ok (g : STPGraphManager T) e x asgn : mgr_wf g → listed (store g) (mapper g) e x → setTime x = 0%nat →
  ∃ gr, setTrue g e asgn = Ok (MkGraphMgr (setEdge (store g) e (with_setTime x (S (timestamp g))))
          (setAssignment (mapper g) e asgn) gr (S (timestamp g)) (deductions g))
    ∧ addedEdges gr = addedEdges (graph g) ++ [e]
    ∧ mgr_wf (MkGraphMgr (setEdge (store g) e (with_setTime x (S (timestamp g))))
          (setAssignment (mapper g) e asgn) gr (S (timestamp g)) (deductions g)).
Proof.
  intros [G1 G2 G3] Hx Hz. pose proof Hx as (Ex & Hf & Ht & _).
  destruct (addEdge_wf (store g) (graph g) e x G1 Ex Hf Ht) as (gr & E & Hgr & Ha).
  exists gr. split; [|split; [done|]].
  - unfold setTrue, getEdge, at_. rewrite Ex. cbn [rbind]. rewrite Hz. cbn [Nat.eqb negb].
    by rewrite E.
  - pose proof (same_edges_setTime (store g) e x (S (timestamp g)) Ex) as Hs.
    constructor; simpl.
    + by eapply graph_wf_same.
    + intros r Hr. destruct (G2 r Hr) as (y & Hy).
      destruct (listed_same _ _ _ _ _ Hs Hy) as (y' & Hy' & _). eauto.
    + intros r. rewrite Ha, elem_of_app, list_elem_of_singleton.
      intros [Hr| ->]; [by apply G3 | by eapply listed_registered].
Qed.

Lemma marked_wf (g : STPGraphManager T) l : mgr_wf g → mgr_wf (marked g l).
Proof.
  intros [G1 G2 G3]. pose proof (same_edges_mark (store g) l (timestamp g)) as Hs.
  constructor; simpl.
  - by eapply graph_wf_same.
  - intros r Hr. destruct (G2 r Hr) as (y & Hy).
    destruct (listed_same _ _ _ _ _ Hs Hy) as (y' & Hy' & _). eauto.
  - done.
Qed.

Lemma time_setEdge (s : STPStore T) e x t r : edges s !! e = Some x →
  time (setEdge s e (with_setTime x t)) r = if decide (r = e) then t else time s r.
Proof.
  intros Ex. unfold time. simpl. destruct (decide (r = e)) as [->|].
  - rewrite list_lookup_insert_eq by (by eapply lookup_lt_Some). done.
  - by rewrite list_lookup_insert_ne.
Qed.

Lemma time_mark (s : STPStore T) l t r : (∀ x, x ∈ l → is_Some (edges s !! x)) →
  time (mark s l t) r = if decide (r ∈ l) then t else time s r.
Proof.
  intros Hl. unfold time. rewrite mark_lookup. destruct (edges s !! r) as [x|] eqn:E; simpl.
  - by destruct (decide _).
  - destruct (decide _) as [Hr|]; [|done]. destruct (Hl r Hr). congruence.
Qed.

Lemma assert_edge_wp (g : STPGraphManager T) e x asgn : mgr_inv g → listed (store g) (mapper g) e x →
  setTime x = 0%nat → (∀ n, neg x = Some n → time (store g) n = 0%nat) →
  wp t_err (λ '(ded, g'), mgr_inv g' ∧ extended g e x asgn ded g')
    (let! g1 := setTrue g e asgn in findConsequences g1 e).
Proof.
  intros Hg Hx Hz Hn. pose proof (add_nonneg g e x Hg Hx Hn) as Hnn.
  destruct (setTrue_ok g e x asgn (mi_wf g Hg) Hx Hz) as (gr & -> & Ha & Hw1). cbn [rbind].
  set (g1 := MkGraphMgr _ _ _ _ _) in *.
  pose proof (same_edges_setTime (store g) e x (S (timestamp g)) (proj1 Hx)) as Hs1.
  assert (mgr_graph g1 = mgr_graph g ++ [dedge_of x]) as Egr.
  { unfold mgr_graph, g1. simpl. rewrite Ha.
    rewrite <- (refs_graph_same _ _ _ Hs1). unfold refs_graph. rewrite omap_app. simpl.
    by rewrite (proj1 Hx). }
  eapply wp_mono.
  - apply (findConsequences_wp g1 e (with_setTime x (S (timestamp g)))); try done.
    + intros u p Hp. apply (Hnn u). eapply path_mono; [|exact Hp]. rewrite Egr. intros d.
      rewrite elem_of_app, list_elem_of_singleton, elem_of_cons. tauto.
    + unfold g1. simpl. rewrite Ha, elem_of_app, list_elem_of_singleton. auto.
    + unfold g1. simpl. rewrite list_lookup_insert_eq; [done|]. eapply lookup_lt_Some, Hx.
  - intros st (ret & -> & Hnd & Hret).
    assert (∀ r, time (store g1) r = if decide (r = e) then S (timestamp g) else time (store g) r) as Ht1
      by (intros r; apply time_setEdge, Hx).
    assert (extended g e x asgn ret (marked g1 ret)) as Hext.
    2:{ split; [|done]. apply (extended_inv g e x asgn ret); try done.
        by rewrite (time_lookup _ _ _ (proj1 Hx)). }
    constructor; simpl; try done.
    + etransitivity; [exact Hs1 | apply same_edges_mark].
    + intros r. rewrite (time_mark (store g1)).
      * rewrite Ht1. destruct (decide (r ∈ ret)), (decide (r = e)), (decide _); tauto.
      * intros y (_ & _ & z & Ez & _)%Hret. eauto.
    + by apply marked_wf.
    + intros r. rewrite Hret.
      assert (mgr_graph (marked g1 ret) = mgr_graph g1) as ->.
      { unfold mgr_graph. symmetry. apply refs_graph_same, same_edges_mark. }
      split.
      * intros (Hreg & Hne & y & Ey & Hy0 & Hthr). split; [done|]. split; [done|].
        unfold g1 in Ey. simpl in Ey. rewrite list_lookup_insert_ne in Ey by done.
        split; [by rewrite (time_lookup _ _ _ Ey)|]. by exists y.
      * intros (Hreg & Hne & Hz' & y & Ey & Hthr). split; [done|]. split; [done|]. exists y.
        unfold g1. simpl. rewrite list_lookup_insert_ne by done. split; [done|].
        by rewrite <- (time_lookup _ _ _ Ey).
Qed.

End stp.
