(* ===== verification/StpSolver.v ===== *)
(** * The difference-logic solver: explanations, models, the solver itself

    The backtracking and explanation of STPGraphManager.h, STPModel.h, and
    [STPSolver] (STPSolver.h), whose state is the base class, the graph
    manager, the inconsistent literal if there is one, and the stack of
    timestamps to return to. *)
From S2P Require Import Prelude Gmp FastRational FastRationalFacts FastRationalInt Number Lex Delta DiffGraph StpNum Terms TSolver StpStore.
From stdpp Require Import gmap.
From Stdlib Require Import Lia.

Section stp.
Context {T : Type} `{STPNum T}.

(** ** STPGraphManager::removeAfter *)

Definition pop_at (l : list (list EdgeRef)) (i : nat) : res (list (list EdgeRef)) :=
  let! x := at_ l i in upd l i (removelast x).

(** The first loop, over [addedEdges] from its end. *)
Fixpoint removeAdded (point : nat) (rev : list EdgeRef) (g : STPGraphManager T)
    : res (STPGraphManager T) :=
  match rev with
  | [] => Ok g
  | eRef :: rev =>
      let! edge := getEdge (store g) eRef in
      if (setTime edge <=? point)%nat then
        Ok (MkGraphMgr (store g) (mapper g) (graph g) (setTime edge) (deductions g))
      else
        let! inc := pop_at (incoming (graph g)) (to edge) in
        let! out := pop_at (outgoing (graph g)) (from edge) in
        let graph' := MkEdgeGraph (removelast (addedEdges (graph g))) inc out in
        let store' := setEdge (store g) eRef (with_setTime edge 0) in
        let! mapper' := removeAssignment (mapper g) eRef in
        removeAdded point rev (MkGraphMgr store' mapper' graph' (timestamp g) (deductions g))
  end.

(** The second loop, over [deductions]. *)
Fixpoint removeDeductions (point : nat) (rev : list EdgeRef) (g : STPGraphManager T)
    : res (STPGraphManager T) :=
  match rev with
  | [] => Ok g
  | eRef :: rev =>
      let! edge := getEdge (store g) eRef in
      if (setTime edge <=? point)%nat then Ok g
      else
        removeDeductions point rev
          (MkGraphMgr (setEdge (store g) eRef (with_setTime edge 0)) (mapper g) (graph g)
             (timestamp g) (removelast (deductions g)))
  end.

Definition removeAfter (point : nat) (g : STPGraphManager T) : res (STPGraphManager T) :=
  match addedEdges (graph g) with
  | [] => Ok g
  | added =>
      let! g := removeAdded point (reverse added) g in
      removeDeductions point (reverse (deductions g)) g
  end.

(** ** STPGraphManager::findExplanation *)

Record Expl : Type := MkExpl {
  evisited : list (option EdgeRef);
  elength : list T;
  eopen : list VertexRef;
}.

Definition expl_scan (g : STPGraphManager T) (e : EdgeRef) (expl : Edge T) (curr : VertexRef)
    (x : Expl) (eRef : EdgeRef) : res Expl :=
  if (eRef =? e)%nat then Ok x else
  let! edge := getEdge (store g) eRef in
  if (setTime expl <? setTime edge)%nat then Ok x else
  let! _ := check (bool_decide (is_Some (getAssignment (mapper g) eRef))) in
  let next := to edge in
  let! vis := at_ (evisited x) next in
  let! lc := at_ (elength x) curr in
  let! better :=
    match vis with
    | None => Ok true
    | Some _ =>
        let! ln := at_ (elength x) next in
        let! c := t_add lc (ecost edge) in
        Ok (t_gt ln c)
    end in
  if better then
    let! visited' := upd (evisited x) next (Some eRef) in
    let! c := t_add lc (ecost edge) in
    let! length' := upd (elength x) next c in
    Ok (MkExpl visited' length' (next :: eopen x))
  else Ok x.

Definition expl_body (g : STPGraphManager T) (e : EdgeRef) (expl : Edge T) (x : Expl)
    : res (Expl + Expl) :=
  match eopen x with
  | [] => Ok (inr x)
  | curr :: rest =>
      let x := MkExpl (evisited x) (elength x) rest in
      let! lc := at_ (elength x) curr in
      if (curr =? to expl)%nat && t_le lc (ecost expl) then Ok (inr x) else
      let! es := at_ (outgoing (graph g)) curr in
      let! x := foldM (expl_scan g e expl curr) x es in
      Ok (inl x)
  end.

(** The walk back from the end of the explained edge. *)
Fixpoint backtrack (fuel : nat) (g : STPGraphManager T) (expl : Edge T) (x : Expl)
    (bt : option EdgeRef) (v : list PtAsgn) : res (list PtAsgn) :=
  match fuel with
  | O => Err Out_of_fuel
  | S fuel =>
      match bt with
      | None => Err Assertion_failed
      | Some b =>
          let! edge := getEdge (store g) b in
          match getAssignment (mapper g) b with
          | None => Err Assertion_failed
          | Some a =>
              let v := v ++ [a] in
              if (from edge =? from expl)%nat then Ok v
              else
                let! bt := at_ (evisited x) (from edge) in
                backtrack fuel g expl x bt v
          end
      end
  end.

Definition findExplanation (g : STPGraphManager T) (e : EdgeRef) (v : list PtAsgn)
    : res (list PtAsgn) :=
  let! expl := getEdge (store g) e in
  match getAssignment (mapper g) e with
  | Some a => Ok (v ++ [a])
  | None =>
      let n := vertexNum (store g) in
      let fuel := search_fuel (length (addedEdges (graph g))) (S n) in
      let! x := while fuel (expl_body g e expl)
                  (MkExpl (replicate n None) (replicate n t_zero) [from expl]) in
      let! bt := at_ (evisited x) (to expl) in
      backtrack (S n) g expl x bt v
  end.

(** [clear]: the deductions stay. *)
Definition graphMgr_clear (g : STPGraphManager T) : STPGraphManager T :=
  MkGraphMgr (store g) (mapper g) EdgeGraph_init 0 (deductions g).

(** ** STPModel *)

Record STPModel : Type := MkSTPModel {
  mstore : STPStore T;
  mgraph : EdgeGraph;
  valMap : gmap VertexRef T;
}.

Definition nonempty (l : option (list EdgeRef)) : bool :=
  match l with Some (_ :: _) => true | _ => false end.

Definition vertsInGraph (g : EdgeGraph) : list VertexRef :=
  let n := Nat.min (length (incoming g)) (length (outgoing g)) in
  let rest := if (n =? length (incoming g))%nat then outgoing g else incoming g in
  base.filter (λ i, nonempty (incoming g !! i) || nonempty (outgoing g !! i) = true) (seq 0 n)
  ++ base.filter (λ i, nonempty (rest !! i) = true) (seq n (length rest - n)).

Definition addStartingPoint (m : STPModel) : res (VertexRef * STPModel) :=
  let '(start, s) := createVertex (mstore m) in
  let! (s, g) := foldM (λ '(s, g) v,
      let '(eRef, s) := createEdge s start v t_zero in
      let! g := addEdge g eRef start v in
      Ok (s, g)) (s, mgraph m) (vertsInGraph (mgraph m)) in
  Ok (start, MkSTPModel s g (valMap m)).

(** [bellmanFord]: the state is [dist] and the queue. *)
Definition bf_scan (m : STPModel) (v : VertexRef) (st : gmap VertexRef T * list VertexRef)
    (eRef : EdgeRef) : res (gmap VertexRef T * list VertexRef) :=
  let '(dist, open) := st in
  let! edge := getEdge (mstore m) eRef in
  let! dv := match dist !! v with Some d => Ok d | None => Err Out_of_range end in
  let! c := t_add dv (ecost edge) in
  match dist !! to edge with
  | None => Ok (<[to edge := c]> dist, open ++ [to edge])
  | Some d => if t_gt d c then Ok (<[to edge := c]> dist, open ++ [to edge]) else Ok st
  end.

Definition bf_body (m : STPModel) (st : gmap VertexRef T * list VertexRef)
    : res ((gmap VertexRef T * list VertexRef) + gmap VertexRef T) :=
  let '(dist, open) := st in
  match open with
  | [] => Ok (inr dist)
  | v :: open =>
      let! es := at_ (outgoing (mgraph m)) v in
      let! st := foldM (bf_scan m v) (dist, open) es in
      Ok (inl st)
  end.

Definition bellmanFord (m : STPModel) (start : VertexRef) : res STPModel :=
  let fuel := search_fuel (length (addedEdges (mgraph m))) (vertexNum (mstore m)) in
  let! dist := while fuel (bf_body m) ({[start := t_zero]}, [start]) in
  Ok (MkSTPModel (mstore m) (mgraph m) dist).

(** [pair.second -= shift], over the entries of the map. *)
Definition shiftZero (m : STPModel) : res STPModel :=
  match valMap m !! zero with
  | None => Ok m
  | Some shift =>
      let! l := foldM (λ l '(v, d), let! d := t_sub d shift in Ok (l ++ [(v, d)]))
                  [] (map_to_list (valMap m)) in
      let vals := list_to_map l in
      let! _ := check (match vals !! zero with Some z => t_eq z t_zero | None => false end) in
      Ok (MkSTPModel (mstore m) (mgraph m) vals)
  end.

Definition createModel (m : STPModel) : res STPModel :=
  let! empty := isEmpty (mgraph m) in
  if empty : bool then Ok m else
  let! (start, m) := addStartingPoint m in
  let! m := bellmanFord m start in
  shiftZero m.

Definition hasValue (m : STPModel) (v : VertexRef) : bool :=
  bool_decide (is_Some (valMap m !! v)).
Definition getValue (m : STPModel) (v : VertexRef) : res T :=
  match valMap m !! v with Some d => t_sub t_zero d | None => Err Out_of_range end.

Definition getAllValues (m : STPModel) : res (gmap VertexRef T) :=
  let! l := foldM (λ l '(v, _), let! d := getValue m v in Ok (l ++ [(v, d)]))
              [] (map_to_list (valMap m)) in
  Ok (list_to_map l).

(** ** STPSolver *)

Record STPSolver : Type := MkSTPSolver {
  base_ : TSolver;
  graphMgr : STPGraphManager T;
  inv_bpoint : Z;
  inv_asgn : option PtAsgn;
  backtrack_points : list nat;          (* the last element is the top *)
  model : option STPModel;
}.

(** [inv_bpoint(-1)]: the largest [size_t]. *)
Definition STPSolver_init : STPSolver :=
  MkSTPSolver TSolver_init (MkGraphMgr STPStore_init STPMapper_init EdgeGraph_init 0 [])
    ULWORD_MAX None [] None.

Definition with_base (s : STPSolver) (b : TSolver) : STPSolver :=
  MkSTPSolver b (graphMgr s) (inv_bpoint s) (inv_asgn s) (backtrack_points s) (model s).
Definition with_graphMgr (s : STPSolver) (g : STPGraphManager T) : STPSolver :=
  MkSTPSolver (base_ s) g (inv_bpoint s) (inv_asgn s) (backtrack_points s) (model s).

Context {N : Type} `{Number N} (logic : Logic N).
(** [Converter<T>::getValue(const FastRational &)]. *)
Context (Converter_getValue : N → res T).

(** The inequality [y - x ≤ c]; an absent variable is [None]. *)
Record ParsedPTRef : Type := MkParsed { px : option PTRef; py : option PTRef; pc : T }.

Definition parseRef (ref : PTRef) : res ParsedPTRef :=
  let! leq := getPterm logic ref in
  let! b := isLeq logic ref in
  let! _ := check b in
  let! l0 := arg leq 0 in
  let! b := isNumConst logic l0 in
  let! _ := check b in
  let! k := getNumConst logic l0 in
  let c := n_neg k in
  let! rhs := arg leq 1 in
  let! single := isNumVar logic rhs in
  let! (x, y) :=
    if single : bool then Ok (Some rhs, None)
    else
      let! rhsPt := getPterm logic rhs in
      let! plus := isPlus logic rhs in
      let! (x, mul) :=
        if plus : bool then
          let! r0 := arg rhsPt 0 in
          let! v0 := isNumVar logic r0 in
          let ix := if v0 : bool then 0%nat else 1%nat in
          let! x := arg rhsPt ix in
          let! mul := arg rhsPt (1 - ix) in
          Ok (Some x, mul)
        else Ok (None, rhs) in
      let! b := isTimes logic mul in
      let! _ := check b in
      let! mulPt := getPterm logic mul in
      let! m0 := arg mulPt 0 in
      let! b := isNumConst logic m0 in
      let! _ := check b in
      let! k := getNumConst logic m0 in
      let! _ := check (n_eq k (n_of_Z (-1))) in
      let! y := arg mulPt 1 in
      let! b := isNumVar logic y in
      let! _ := check b in
      Ok (x, Some y) in
  let! c := Converter_getValue c in
  Ok (MkParsed x y c).

(** A vertex for a variable that has none yet ([x == VertRef_Undef]). *)
Definition ensureVertex (g : STPGraphManager T) (v : option VertexRef) (var : option PTRef)
    : res (VertexRef * STPGraphManager T) :=
  match v with
  | Some v => Ok (v, g)
  | None =>
      let '(v, s) := createVertex (store g) in
      match var with
      | None => Err Assertion_failed
      | Some var =>
          let! m := setVert logic (mapper g) var v in
          Ok (v, MkGraphMgr s m (graph g) (timestamp g) (deductions g))
      end
  end.

Definition with_store_mapper (g : STPGraphManager T) (s : STPStore T) (m : STPMapper)
    : STPGraphManager T := MkGraphMgr s m (graph g) (timestamp g) (deductions g).

(** The part of [declareAtom] after [parseRef]. *)
Definition declareParsed (g : STPGraphManager T) (t : PTRef) (parsed : ParsedPTRef)
    : res (STPGraphManager T) :=
  let! x := getVertRef logic (mapper g) (px parsed) in
  let! y := getVertRef logic (mapper g) (py parsed) in
  let! e := getEdgeRef (store g) (mapper g) y x (pc parsed) in
  match e with
  | Some e =>
      let! m := mapEdge logic (mapper g) t e in
      Ok (with_store_mapper g (store g) m)
  | None =>
      let! (x, g) := ensureVertex g x (px parsed) in
      let! (y, g) := ensureVertex g y (py parsed) in
      let '(e, s) := createEdge (store g) y x (pc parsed) in
      let! nc := t_negate (pc parsed) in
      let '(ne, s) := createEdge s x y nc in
      let! s := setNegation s e ne in
      let! m := registerEdge s (mapper g) e in
      let! m := mapEdge logic m t e in
      let! m := registerEdge s m ne in
      Ok (with_store_mapper g s m)
  end.

Definition declareAtom (s : STPSolver) (t : PTRef) : res STPSolver :=
  if isInformed (base_ s) t then Ok s else
  let s := with_base s (setInformed (base_ s) t) in
  let! parsed := parseRef t in
  let! g := declareParsed (graphMgr s) t parsed in
  Ok (with_graphMgr s g).

(** The deductions of one implied edge, handed to the base class. *)
Definition storeEdgeDeductions (g : STPGraphManager T) (b : TSolver) (eRef : EdgeRef) : res TSolver :=
  let! n := getNegation (store g) eRef in
  let leq := getPTRef_edge (mapper g) eRef in
  let nleq := match n with Some n => getPTRef_edge (mapper g) n | None => None end in
  let b := match leq with
           | Some l => if hasPolarity b l then b
                       else storeDeduction b (MkPtAsgn_reason l l_True None)
           | None => b
           end in
  Ok (match nleq with
      | Some l => if hasPolarity b l then b
                  else storeDeduction b (MkPtAsgn_reason l l_False None)
      | None => b
      end).

Definition assertLit (s : STPSolver) (asgn : PtAsgn) : res (bool * STPSolver) :=
  match inv_asgn s with
  | Some _ => Ok (false, s)
  | None =>
      let g := graphMgr s in
      let! e := getEdgeRef_leq logic (mapper g) (tr asgn) in
      match e with
      | None => Err Assertion_failed
      | Some e =>
          let! n := getNegation (store g) e in
          match n with
          | None => Err Assertion_failed
          | Some n =>
              let set := if bool_decide (sgn asgn = l_True) then e else n in
              let nset := if (set =? e)%nat then n else e in
              let! t := isTrue g set in
              if t : bool then Ok (true, s) else
              let! f := isTrue g nset in
              if f : bool then
                Ok (false, MkSTPSolver (with_explanation (base_ s) true) g
                             (Z.of_nat (length (backtrack_points s))) (Some asgn)
                             (backtrack_points s) (model s))
              else
                let! g := setTrue g set asgn in
                let! (ded, g) := findConsequences g set in
                let b := match getPTRef_edge (mapper g) nset with
                         | Some l => storeDeduction (base_ s) (MkPtAsgn_reason l l_False None)
                         | None => base_ s
                         end in
                let! b := foldM (storeEdgeDeductions g) b ded in
                Ok (true, with_graphMgr (with_base s b) g)
          end
      end
  end.

Inductive TRes : Type := SAT | UNSAT | UNKNOWN | UNDEF.

(** [STPSolver::check]. *)
Definition check_ (s : STPSolver) : TRes :=
  match inv_asgn s with None => SAT | Some _ => UNSAT end.

Definition clearSolver (s : STPSolver) : STPSolver :=
  let g := graphMgr_clear (graphMgr s) in
  MkSTPSolver (TSolver_clearSolver (base_ s))
    (with_store_mapper g (STPStore_clear (store g)) (STPMapper_clear (mapper g)))
    (inv_bpoint s) (inv_asgn s) [] (model s).

Definition pushBacktrackPoint (s : STPSolver) : STPSolver :=
  MkSTPSolver (TSolver_pushBacktrackPoint (base_ s)) (graphMgr s) (inv_bpoint s) (inv_asgn s)
    (backtrack_points s ++ [timestamp (graphMgr s)]) (model s).

Definition popBacktrackPoints (s : STPSolver) (i : nat) : res STPSolver :=
  if (i =? 0)%nat then Ok s else
  let! _ := check (i <=? length (backtrack_points s))%nat in
  let size := length (backtrack_points s) in
  let s := if (Z.of_nat (size - i) <? inv_bpoint s)%Z
           then MkSTPSolver (with_explanation (base_ s) false) (graphMgr s) 0 None
                  (backtrack_points s) (model s)
           else s in
  let points := take (size - (i - 1)) (backtrack_points s) in
  match last points with
  | None => Err Out_of_range
  | Some point =>
      let! g := removeAfter point (graphMgr s) in
      let! b := foldM (λ b _, TSolver_popBacktrackPoint b) (base_ s) (seq 0 i) in
      Ok (MkSTPSolver b g (inv_bpoint s) (inv_asgn s) (removelast points) (model s))
  end.

Definition popBacktrackPoint (s : STPSolver) : res STPSolver := popBacktrackPoints s 1.

(** [computeModel]: the model shares the solver's store. *)
Definition computeModel (s : STPSolver) : res STPSolver :=
  match inv_asgn s with
  | Some _ =>
      Ok (MkSTPSolver (base_ s) (graphMgr s) (inv_bpoint s) (inv_asgn s) (backtrack_points s) None)
  | None =>
      let g := graphMgr s in
      let! m := createModel (MkSTPModel (store g) (graph g) ∅) in
      Ok (MkSTPSolver (base_ s) (with_store_mapper g (mstore m) (mapper g)) (inv_bpoint s)
            (inv_asgn s) (backtrack_points s) (Some m))
  end.

Definition getConflict (s : STPSolver) (conflict : list PtAsgn) : res (list PtAsgn) :=
  match inv_asgn s with
  | None => Ok conflict
  | Some a =>
      let g := graphMgr s in
      let conflict := conflict ++ [a] in
      let! e := getEdgeRef_leq logic (mapper g) (tr a) in
      match e with
      | None => Err Out_of_range
      | Some e =>
          let! n := getNegation (store g) e in
          match (if bool_decide (sgn a = l_True) then n else Some e) with
          | None => Err Out_of_range
          | Some e =>
              let! t := isTrue g e in
              let! _ := check t in
              findExplanation g e conflict
          end
      end
  end.

(** [TSolver::getReasonFor], which calls the methods of the derived class. *)
Definition getReasonFor (s : STPSolver) (lit : PtAsgn) : res (list PtAsgn * STPSolver) :=
  let s := pushBacktrackPoint s in
  let! _ := check (negb (bool_decide (sgn lit = l_Undef))) in
  let! (sat, s) := assertLit s (MkPtAsgn (tr lit)
                     (if bool_decide (sgn lit = l_True) then l_False else l_True)) in
  if sat : bool then Err Assertion_failed else
  let! conflict := getConflict s [] in
  let! s := popBacktrackPoint s in
  Ok (conflict, s).

End stp.
Arguments Expl T : clear implicits.
Arguments STPModel T : clear implicits.
Arguments STPSolver T : clear implicits.
Arguments ParsedPTRef T : clear implicits.

(** ** IDLSolver.h *)

(** [STPSolver<SafeInt>::fillTheoryFunctions]: the values given to the
    variables, as the integers whose decimal strings become constants. *)
Definition fillTheoryFunctions_IDL (m : STPMapper) (mod_ : STPModel SafeInt)
    : res (list (PTRef * Z)) :=
  let! knownValues := getAllValues mod_ in
  Ok (omap (λ '(v, d), (λ var, (var, value d)) <$> getPTRef_vert m v) (map_to_list knownValues)).

(** ** RDLSolver.h *)
Section rdl.
Context {N : Type} `{Number N}.

Definition valueAt (vals : gmap VertexRef (Delta N)) (v : VertexRef) : res (Delta N) :=
  match vals !! v with Some d => Ok d | None => Err Out_of_range end.

(** One edge of the loop that looks for the least δ that is too large; [None]
    is [deltaSet == false]. *)
Definition delta_scan (s : STPStore (Delta N)) (vals : gmap VertexRef (Delta N))
    (delta : option (Delta N)) (eRef : EdgeRef) : res (option (Delta N)) :=
  let! edge := getEdge s eRef in
  let! vf := valueAt vals (from edge) in
  let! vt := valueAt vals (to edge) in
  let realDiff := Delta_sub vf vt in
  let upperBound := ecost edge in
  let! _ := check (negb (n_lt (R upperBound) (R realDiff))) in
  if n_lt (R realDiff) (R upperBound) && n_gt (D realDiff) (D upperBound) then
    let! valOfDelta := n_div (n_sub (R upperBound) (R realDiff))
                             (n_sub (D realDiff) (D upperBound)) in
    let! _ := check (n_gt valOfDelta (n_of_Z 0)) in
    match delta with
    | Some d => if Delta_gt_Real d valOfDelta then Ok (Some (Delta_Real valOfDelta)) else Ok delta
    | None => Ok (Some (Delta_Real valOfDelta))
    end
  else Ok delta.

Definition chooseDelta (delta : option (Delta N)) : res N :=
  match delta with
  | None => Ok (n_of_Z 1)
  | Some d => if Delta_gt_Real d (n_of_Z 1) then Ok (n_of_Z 1) else n_div (R d) (n_of_Z 2)
  end.

Definition fillTheoryFunctions_RDL (s : STPStore (Delta N)) (m : STPMapper)
    (mod_ : STPModel (Delta N)) : res (list (PTRef * N)) :=
  let! knownValues := getAllValues mod_ in
  let! delta := foldM (delta_scan s knownValues) None (addedEdges (mgraph mod_)) in
  let! deltaVal := chooseDelta delta in
  Ok (omap (λ '(v, d), (λ var, (var, n_add (R d) (n_mul (D d) deltaVal))) <$> getPTRef_vert m v)
        (map_to_list knownValues)).

End rdl.
