(* ===== verification/StpBacktrack.v ===== *)
(** * Declaring atoms

    The state before any literal is asserted: [declareAtom] gives every
    variable its vertex and every atom its edge and the edge of its negation,
    never indexes out of range, and its result satisfies the invariant of the
    graph manager.
    The file starts with the declaration of atoms; its second part takes back
    levels. *)
From S2P Require Import Prelude Gmp FastRational FastRationalFacts FastRationalInt Number Lex Delta DiffGraph StpNum Terms TSolver StpStore.
From S2P Require Import StpSearch StpInvariant StpSolver.
From Stdlib Require Import Sorted Lia.

Section stp.
Context {T : Type} `{STPNum T}.
Context {N : Type} (logic : Logic N).
Hypothesis Hids : ids_unique logic.

Implicit Types (s : STPStore T) (g : STPGraphManager T) (m : STPMapper).

Definition in_list m (v : VertexRef) (r : EdgeRef) : Prop :=
  ∃ l, edgesContainingVert m !! v = Some l ∧ r ∈ l.

Lemma registered_in_list m r : registered m r ↔ ∃ v, in_list m v r.
Proof. unfold registered, in_list. split; intros (v & ?); exists v; naive_solver. Qed.

Lemma in_list_lt m v r : in_list m v r → (v < length (edgesContainingVert m))%nat.
Proof. intros (l & Hl & _). by eapply lookup_lt_Some. Qed.

Lemma upd_insert {A} (l : list A) i x : (i < length l)%nat → upd l i x = Ok (<[i := x]> l).
Proof. intros Hi. unfold upd. by rewrite (proj2 (Nat.ltb_lt _ _) Hi). Qed.

Lemma registerEdge_ok s m e x : edges s !! e = Some x →
  ∃ m', registerEdge s m e = Ok m'
    ∧ vertRefToVar m' = vertRefToVar m ∧ varToVertRef m' = varToVertRef m
    ∧ leqToEdgeRef m' = leqToEdgeRef m ∧ edgeRefToLeq m' = edgeRefToLeq m
    ∧ edgeRefToAsgn m' = edgeRefToAsgn m
    ∧ length (edgesContainingVert m')
      = Nat.max (length (edgesContainingVert m)) (S (Nat.max (from x) (to x)))
    ∧ ∀ v r, in_list m' v r ↔ in_list m v r ∨ (r = e ∧ (v = from x ∨ v = to x)).
Proof.
  intros Ex. unfold registerEdge, getEdge, at_ at 1. rewrite Ex. cbn [rbind].
  set (l := grow (edgesContainingVert m) (Nat.max (from x) (to x)) []).
  pose proof (grow_length (edgesContainingVert m) (Nat.max (from x) (to x)) []) as Hlen. fold l in Hlen.
  destruct (lookup_lt_is_Some_2 l (from x)) as [lf Hlf]; [lia|].
  unfold at_ at 1. rewrite Hlf. cbn [rbind]. rewrite upd_insert by lia. cbn [rbind].
  destruct (lookup_lt_is_Some_2 (<[from x := lf ++ [e]]> l) (to x)) as [lt Hlt];
    [rewrite length_insert; lia|].
  unfold at_. rewrite Hlt. cbn [rbind]. rewrite upd_insert by (rewrite length_insert; lia). cbn [rbind].
  eexists. split; [done|]. do 5 (split; [done|]). simpl. rewrite !length_insert. split; [done|].
  assert (∀ v r, (∃ k, l !! v = Some k ∧ r ∈ k) ↔ in_list m v r) as Hgrow.
  { intros v r. unfold in_list, l. setoid_rewrite grow_lookup.
    destruct (edgesContainingVert m !! v); [done|]. destruct (decide _).
    - split; intros (k & [= <-] & Hk); by apply elem_of_nil in Hk.
    - split; by intros (k & [=] & _). }
  assert (∀ v k e0 (l0 : list (list nat)), l0 !! v = Some k → ∀ v' r,
    (∃ k', <[v := k ++ [e0]]> l0 !! v' = Some k' ∧ r ∈ k')
    ↔ (∃ k', l0 !! v' = Some k' ∧ r ∈ k') ∨ (r = e0 ∧ v' = v)) as Hins.
  { intros v k e0 l0 Hk v' r. destruct (decide (v' = v)) as [->|Hne].
    - rewrite list_lookup_insert_eq by (by eapply lookup_lt_Some). split.
      + intros (k' & [= <-] & Hr). rewrite elem_of_app, list_elem_of_singleton in Hr.
        destruct Hr; [left; eauto | by right].
      + intros [(k' & Ek' & Hr)|[-> _]]; eexists; (split; [done|]);
          rewrite elem_of_app, list_elem_of_singleton; [left; congruence | by right].
    - rewrite list_lookup_insert_ne by done. naive_solver. }
  intros v r. unfold in_list at 1. simpl. rewrite (Hins _ _ _ _ Hlt), (Hins _ _ _ _ Hlf), Hgrow.
  naive_solver.
Qed.

(** ** The invariant of declarations *)

(** [fresh]: vertices created for variables of the atom being declared, whose
    edges are not registered yet. *)
Record decl_inv (fresh : list VertexRef) (g : STPGraphManager T) : Prop := {
  d_graph : graph g = EdgeGraph_init;
  d_ded : deductions g = [];
  d_ts : timestamp g = 0%nat;
  d_asgn : ∀ r, getAssignment (mapper g) r = None;
  d_time : ∀ r x, edges (store g) !! r = Some x → setTime x = 0%nat;
  d_listed : ∀ r, registered (mapper g) r → ∃ x, listed (store g) (mapper g) r x;
  d_neg : ∀ r x, listed (store g) (mapper g) r x → ∃ n y, neg x = Some n ∧ n ≠ r
    ∧ listed (store g) (mapper g) n y ∧ neg y = Some r ∧ from y = to x ∧ to y = from x
    ∧ opposite (t_val (ecost x)) (t_val (ecost y));
  d_loop : ∀ r x, listed (store g) (mapper g) r x → from x ≠ to x;
  d_leq : ∀ i e, vget (leqToEdgeRef (mapper g)) i = Some e → registered (mapper g) e;
  d_var : ∀ i v, vget (varToVertRef (mapper g)) i = Some v →
    v ≠ 0%nat ∧ ((v < length (edgesContainingVert (mapper g)))%nat ∨ v ∈ fresh)
    ∧ ∃ var, termId logic var = Ok i ∧ vget (vertRefToVar (mapper g)) v = Some var;
  d_vert : ∀ v var, vget (vertRefToVar (mapper g)) v = Some var →
    ∃ i, termId logic var = Ok i ∧ vget (varToVertRef (mapper g)) i = Some v;
  d_size : (length (edgesContainingVert (mapper g)) <= vertices (store g))%nat
    ∧ (0 < vertices (store g))%nat
    ∧ ∀ v var, vget (vertRefToVar (mapper g)) v = Some var → (v < vertices (store g))%nat;
  d_rev : ∀ e t, vget (edgeRefToLeq (mapper g)) e = Some t →
    getEdgeRef_leq logic (mapper g) t = Ok (Some e);
}.

(** No literal is asserted yet: the manager's invariant holds. *)
Lemma decl_mgr_inv fresh g : decl_inv fresh g → mgr_inv g.
Proof.
  intros [D1 D2 D3 D4 D5 D6 D7 D8 _ _ _ _ _].
  assert (∀ r, time (store g) r = 0%nat) as Hz.
  { intros r. unfold time. destruct (edges (store g) !! r) eqn:E; [by eapply D5 | done]. }
  constructor.
  - constructor; [|done|by rewrite D1; intros r ?%elem_of_nil].
    rewrite D1. constructor; try done; simpl; try lia. by intros r ?%elem_of_nil.
  - unfold mgr_graph. rewrite D1. intros u p Hp. destruct p as [|e p]; [apply lle_refl|].
    apply path_cons_inv in Hp as (_ & He & _). by apply elem_of_nil in He.
  - done.
  - intros r x t Hx. rewrite (D5 r x (proj1 Hx)). split; [|lia]. intros (p & Hp & _). exfalso.
    unfold graph_at, added_at in Hp. rewrite D1 in Hp. destruct p as [|e p].
    + apply path_nil_inv in Hp. by apply (D8 r x Hx).
    + apply path_cons_inv in Hp as (_ & He & _). by apply elem_of_nil in He.
  - rewrite D1. constructor.
  - intros r. rewrite Hz. lia.
  - intros l r E. rewrite D1 in E. by destruct l.
  - intros r. rewrite D1. by intros ?%elem_of_nil.
  - rewrite D2. constructor.
  - intros r. rewrite D2. by intros ?%elem_of_nil.
  - rewrite D2. constructor.
  - intros r. by rewrite Hz.
  - intros r. rewrite D4, D1. split; [by intros [? ?] | by intros ?%elem_of_nil].
Qed.

Lemma STPSolver_init_decl : decl_inv [] (graphMgr (STPSolver_init (T := T))).
Proof.
  assert (∀ r, ¬ registered STPMapper_init r) as Hno by (intros r (v & l & Hl & _); done).
  constructor; try done.
  - intros r Hr. by apply Hno in Hr.
  - intros r x Hx. by apply listed_registered, Hno in Hx.
  - intros r x Hx. by apply listed_registered, Hno in Hx.
  - simpl. split; [lia|]. split; [lia|]. done.
Qed.

(** ** One atom *)

(** The vertex of a variable in the mapper; [zero] for an absent one. *)
Definition vert_of m (var : option PTRef) (v : VertexRef) : Prop :=
  getVertRef logic m var = Ok (Some v).

(** The edge of an atom, and what it says. *)
Definition atom_edge g (t : PTRef) (p : ParsedPTRef T) (e : EdgeRef) (x : Edge T) : Prop :=
  getEdgeRef_leq logic (mapper g) t = Ok (Some e) ∧ listed (store g) (mapper g) e x
  ∧ vert_of (mapper g) (py p) (from x) ∧ vert_of (mapper g) (px p) (to x)
  ∧ t_val (ecost x) = t_val (pc p).

(** What is kept of the vertices and atoms that exist already. *)
Record grown g g' : Prop := {
  gr_vert : ∀ var v, vert_of (mapper g) var v → vert_of (mapper g') var v;
  gr_listed : ∀ r x, listed (store g) (mapper g) r x → ∃ x', listed (store g') (mapper g') r x'
    ∧ from x' = from x ∧ to x' = to x ∧ ecost x' = ecost x ∧ neg x' = neg x;
}.

Lemma termId_inj a b i : termId logic a = Ok i → termId logic b = Ok i → a = b.
Proof.
  unfold termId, getPterm. destruct (logic a) eqn:Ea, (logic b) eqn:Eb; try done.
  simpl. intros [= <-] [= E]. by eapply Hids.
Qed.

Lemma find_edge_wp s y x (c : T) l : (∀ r, r ∈ l → is_Some (edges s !! r)) →
  ∃ o, find_edge s y x c l = Ok o ∧ match o with
    | Some e => e ∈ l ∧ ∃ z, edges s !! e = Some z ∧ from z = y ∧ to z = x ∧ t_val (ecost z) = t_val c
    | None => True
    end.
Proof.
  induction l as [|r l IH]; intros Hl; simpl; [by exists None|].
  destruct (Hl r ltac:(by left)) as [z Ez]. unfold getEdge, at_. rewrite Ez. cbn [rbind].
  destruct ((from z =? y)%nat && (to z =? x)%nat && t_eq (ecost z) c) eqn:E.
  - apply andb_true_iff in E as [[E1%Nat.eqb_eq E2%Nat.eqb_eq]%andb_true_iff E3%t_eq_val].
    exists (Some r). split; [done|]. split; [by left|]. eauto.
  - destruct IH as (o & -> & Ho); [intros r' Hr'; apply Hl; by right|]. exists o. split; [done|].
    destruct o as [e|]; [|done]. destruct Ho as [? ?]. split; [by right | done].
Qed.

Lemma getVertRef_Some m var o : getVertRef logic m (Some var) = Ok o →
  ∃ i, termId logic var = Ok i ∧ o = vget (varToVertRef m) i.
Proof. simpl. destruct (termId logic var) as [i|]; [|done]. simpl. intros [= <-]. eauto. Qed.

Lemma vert_of_lt fresh g var v : decl_inv fresh g → vert_of (mapper g) var v → (v < vertices (store g))%nat.
Proof.
  intros Hd Hv. destruct (d_size _ _ Hd) as (_ & H0 & Hs). destruct var as [var|].
  - apply getVertRef_Some in Hv as (i & Ei & Ev). symmetry in Ev.
    destruct (d_var _ _ Hd i v Ev) as (_ & _ & var' & _ & Hv'). by eapply Hs.
  - injection Hv as <-. done.
Qed.

(** Two variables have two vertices. *)
Lemma vert_of_inj fresh g a b v : decl_inv fresh g → vert_of (mapper g) a v → vert_of (mapper g) b v → a = b.
Proof.
  intros Hd Ha Hb.
  assert (∀ a, vert_of (mapper g) (Some a) v → v ≠ 0%nat ∧ vget (vertRefToVar (mapper g)) v = Some a) as Hvar.
  { intros a' Ha'. apply getVertRef_Some in Ha' as (i & Ei & Ev). symmetry in Ev.
    destruct (d_var _ _ Hd i v Ev) as (Hz & _ & var & Et & Ew). split; [done|].
    by rewrite <- (termId_inj _ _ _ Et Ei). }
  destruct a as [a|], b as [b|].
  - destruct (Hvar a Ha) as [_ E1], (Hvar b Hb) as [_ E2]. congruence.
  - destruct (Hvar a Ha) as [Hz _]. injection Hb as <-. done.
  - destruct (Hvar b Hb) as [Hz _]. injection Ha as <-. done.
  - done.
Qed.

(** The vertex of a variable that may have none yet. *)
Lemma ensureVertex_ok fresh g o var : decl_inv fresh g → getVertRef logic (mapper g) var = Ok o →
  (∀ v, var = Some v → isNumVar logic v = Ok true) →
  ∃ v g', ensureVertex logic g o var = Ok (v, g') ∧ decl_inv (v :: fresh) g'
    ∧ vert_of (mapper g') var v ∧ edges (store g') = edges (store g)
    ∧ edgesContainingVert (mapper g') = edgesContainingVert (mapper g)
    ∧ leqToEdgeRef (mapper g') = leqToEdgeRef (mapper g)
    ∧ grown g g'
    ∧ (∀ var' o', var' ≠ var → getVertRef logic (mapper g) var' = Ok o' →
         getVertRef logic (mapper g') var' = Ok o').
Proof.
  intros Hd Ho Hnum. destruct o as [v|].
  { exists v, g. split; [done|]. split; [|split; [done|]; split; [done|]; split; [done|]; split; [done|]; split; [|done]].
    - destruct Hd as [D1 D2 D3 D4 D5 D6 D7 D8 D9 D10 D11 D12 D15]. constructor; try done.
      intros i v' Hv'. destruct (D10 i v' Hv') as (H1 & H2 & H3). split; [done|].
      split; [|done]. rewrite elem_of_cons. tauto.
    - constructor; [done|]. intros r x Hx. eauto 10. }
  destruct var as [var|]; [|done]. apply getVertRef_Some in Ho as (i & Ei & Ev).
  pose proof Hd as [D1 D2 D3 D4 D5 D6 D7 D8 D9 D10 D11 (D12 & D13 & D14) D15].
  unfold ensureVertex, createVertex, setVert. rewrite (Hnum var eq_refl). cbn [rbind check].
  rewrite Ei. cbn [rbind]. eexists _, _. split; [done|]. set (n := vertices (store g)) in *.
  set (g' := MkGraphMgr _ _ _ _ _).
  assert (∀ r x, listed (store g) (mapper g) r x → listed (store g') (mapper g') r x) as Hup.
  { intros r x (E & Hf & Ht & Hrest). split; [done|]. unfold g'. simpl.
    split; [unfold n; lia|]. split; [unfold n; lia | done]. }
  assert (∀ r x, listed (store g') (mapper g') r x → listed (store g) (mapper g) r x) as Hdown.
  { intros r x Hx. destruct (D6 r) as (x0 & Hx0); [by eapply listed_registered|].
    assert (x0 = x) as -> by (destruct Hx0, Hx; simpl in *; congruence). done. }
  split; [|split; [|split; [done|]; split; [done|]; split; [done|]; split]].
  - constructor; unfold g'; simpl; try done.
    + intros r Hr. destruct (D6 r Hr) as (x & Hx). exists x. by apply Hup.
    + intros r x Hx. destruct (D7 r x (Hdown r x Hx)) as (n' & y & E1 & E0 & Hy & E2 & E3 & E4 & E5).
      exists n', y. repeat (split; [done|]). split; [by apply Hup | done].
    + intros r x Hx. by apply (D8 r x), Hdown.
    + intros j v. rewrite vget_vset. destruct (decide (j = i)) as [->|Hj].
      * intros [= <-]. split; [unfold n; lia|]. split; [right; by left|].
        exists var. split; [done|]. rewrite vget_vset. by rewrite decide_True.
      * intros Hv. destruct (D10 j v Hv) as (H1 & H2 & var' & H3 & H4). split; [done|].
        split; [rewrite elem_of_cons; tauto|]. exists var'. split; [done|].
        rewrite vget_vset, decide_False; [done|]. intros ->. specialize (D14 _ _ H4). unfold n in *. lia.
    + intros v var'. rewrite vget_vset. destruct (decide (v = n)) as [->|Hv].
      * intros [= <-]. exists i. split; [done|]. rewrite vget_vset. by rewrite decide_True.
      * intros Hv'. destruct (D11 v var' Hv') as (j & Ej & Evj). exists j. split; [done|].
        rewrite vget_vset, decide_False; [done|]. intros ->. congruence.
    + split; [unfold n; lia|]. split; [lia|]. intros v var'. rewrite vget_vset.
      destruct (decide (v = n)) as [->|]; [intros _; unfold n; lia|]. intros Hv'.
      specialize (D14 _ _ Hv'). unfold n. lia.
  - unfold vert_of. simpl. rewrite Ei. cbn [rbind]. rewrite vget_vset. by rewrite decide_True.
  - constructor.
    + intros [var'|] v Hv; [|done]. unfold vert_of in *. simpl in *.
      destruct (termId logic var') as [j|] eqn:Ej; [|done]. cbn [rbind] in *. injection Hv as Hv.
      rewrite vget_vset, decide_False; [by rewrite Hv|]. intros ->. congruence.
    + intros r x Hx. exists x. split; [by apply Hup | done].
  - intros [var'|] o' Hne; [|done]. simpl. destruct (termId logic var') as [j|] eqn:Ej; [|done].
    cbn [rbind]. intros [= <-]. rewrite vget_vset, decide_False; [done|]. intros ->.
    apply Hne. f_equal. by eapply termId_inj.
Qed.

(** ** A new pair of edges *)

Definition new_pair (s : STPStore T) (a b : VertexRef) (c nc : T) : STPStore T :=
  let n := length (edges s) in
  MkSTPStore (vertices s) (edges s ++ [MkEdge a b (Some (S n)) c 0; MkEdge b a (Some n) nc 0]).

Lemma setNegation_new s a b (c nc : T) :
  setNegation (snd (createEdge (snd (createEdge s a b c)) b a nc)) (length (edges s)) (S (length (edges s)))
  = Ok (new_pair s a b c nc).
Proof.
  unfold setNegation, createEdge. simpl. rewrite <- app_assoc. simpl. unfold at_ at 1.
  rewrite lookup_app_r, Nat.sub_diag by lia. cbn [lookup list_lookup rbind]. simpl.
  unfold at_. rewrite list_lookup_insert_ne by lia.
  rewrite lookup_app_r by lia. replace (S (length (edges s)) - length (edges s))%nat with 1%nat by lia.
  simpl. unfold new_pair, setEdge, with_neg. simpl. do 2 f_equal.
  rewrite insert_app_r_alt, Nat.sub_diag by lia. simpl.
  rewrite insert_app_r_alt by lia. replace (S (length (edges s)) - length (edges s))%nat with 1%nat by lia.
  done.
Qed.

Lemma new_pair_lookup s a b (c nc : T) r : edges (new_pair s a b c nc) !! r =
  if decide (r = length (edges s)) then Some (MkEdge a b (Some (S (length (edges s)))) c 0)
  else if decide (r = S (length (edges s))) then Some (MkEdge b a (Some (length (edges s))) nc 0)
  else edges s !! r.
Proof.
  unfold new_pair. simpl. destruct (decide (r = _)) as [->|H1].
  - by rewrite lookup_app_r, Nat.sub_diag by lia.
  - destruct (decide (r = _)) as [->|H2].
    + rewrite lookup_app_r by lia. by replace (S (length (edges s)) - length (edges s))%nat with 1%nat by lia.
    + destruct (decide (r < length (edges s))%nat); [by apply lookup_app_l|].
      rewrite lookup_app_r, (lookup_ge_None_2 (edges s)) by lia. apply lookup_ge_None_2. simpl. lia.
Qed.

(** The state with the new pair registered and mapped. *)
Lemma declare_new fresh g a b c nc m t idx : termId logic t = Ok idx →
  vget (leqToEdgeRef (mapper g)) idx = None →
  (∀ e, vget (edgeRefToLeq m) e = if decide (e = length (edges (store g))) then Some t
                                  else vget (edgeRefToLeq (mapper g)) e) →
  decl_inv fresh g → (∀ v, v ∈ fresh → v = a ∨ v = b) → a ≠ b →
  (a < vertices (store g))%nat → (b < vertices (store g))%nat →
  opposite (t_val c) (t_val nc) →
  vertRefToVar m = vertRefToVar (mapper g) → varToVertRef m = varToVertRef (mapper g) →
  edgeRefToAsgn m = edgeRefToAsgn (mapper g) →
  (∀ i, vget (leqToEdgeRef m) i = if decide (i = idx) then Some (length (edges (store g)))
                                  else vget (leqToEdgeRef (mapper g)) i) →
  (length (edgesContainingVert (mapper g)) <= length (edgesContainingVert m))%nat →
  (length (edgesContainingVert m) <= vertices (store g))%nat →
  (∀ v r, in_list m v r ↔ in_list (mapper g) v r
     ∨ ((r = length (edges (store g)) ∨ r = S (length (edges (store g)))) ∧ (v = a ∨ v = b))) →
  let g' := with_store_mapper g (new_pair (store g) a b c nc) m in
  decl_inv [] g' ∧ grown g g'
  ∧ (∃ e x, getEdgeRef_leq logic m t = Ok (Some e)
       ∧ listed (store g') m e x ∧ from x = a ∧ to x = b ∧ ecost x = c).
Proof.
  intros Hidx Hnone M7 Hd Hfresh Hab Ba Bb Hop M1 M2 M3 M4 M5 M6 Min g'.
  pose proof Hd as [D1 D2 D3 D4 D5 D6 D7 D8 D9 D10 D11 (D12 & D13 & D14) D15].
  set (n := length (edges (store g))) in *.
  assert (∀ r, edges (store g') !! r = if decide (r = n) then Some (MkEdge a b (Some (S n)) c 0)
    else if decide (r = S n) then Some (MkEdge b a (Some n) nc 0) else edges (store g) !! r) as Hlk
    by (intros r; apply new_pair_lookup).
  assert (∀ r x, edges (store g) !! r = Some x → (r < n)%nat) as Hlt by (intros; by eapply lookup_lt_Some).
  assert (∀ r x, listed (store g) (mapper g) r x → listed (store g') m r x) as Hup.
  { intros r x (E & Hf & Ht & Hl1 & Hl2). specialize (Hlt r x E). split.
    - rewrite Hlk, !decide_False by lia. done.
    - split; [done|]. split; [done|]. split; [apply (Min (from x) r) | apply (Min (to x) r)]; by left. }
  assert (listed (store g') m n (MkEdge a b (Some (S n)) c 0)) as Hn1.
  { split; [by rewrite Hlk, decide_True|]. split; [done|]. split; [done|].
    split; [apply (Min a n) | apply (Min b n)]; simpl; tauto. }
  assert (listed (store g') m (S n) (MkEdge b a (Some n) nc 0)) as Hn2.
  { split; [rewrite Hlk, decide_False, decide_True by lia; done|].
    split; [done|]. split; [done|]. split; [apply (Min b (S n)) | apply (Min a (S n))]; simpl; tauto. }
  assert (∀ r x, listed (store g') m r x →
    listed (store g) (mapper g) r x ∨ (r = n ∧ x = MkEdge a b (Some (S n)) c 0)
    ∨ (r = S n ∧ x = MkEdge b a (Some n) nc 0)) as Hcases.
  { intros r x Hx. destruct (decide (r = n)) as [->|Hr1].
    { right; left. split; [done|]. destruct Hx as [E _], Hn1 as [E' _]. congruence. }
    destruct (decide (r = S n)) as [->|Hr2].
    { right; right. split; [done|]. destruct Hx as [E _], Hn2 as [E' _]. congruence. }
    left. assert (registered (mapper g) r) as Hr.
    { apply registered_in_list. apply listed_registered, registered_in_list in Hx as [v Hv].
      exists v. apply Min in Hv as [?|[[?|?] _]]; done. }
    destruct (D6 r Hr) as (x0 & Hx0). assert (x0 = x) as -> by (destruct (Hup r x0 Hx0), Hx; congruence).
    done. }
  split; [|split].
  - constructor; unfold g'; simpl; try done.
    + intros r. unfold getAssignment. rewrite M3. apply D4.
    + intros r x Hr. change (edges (store g') !! r = Some x) in Hr. rewrite Hlk in Hr. revert Hr.
      destruct (decide _); [by intros [= <-]|].
      destruct (decide _); [by intros [= <-] | apply D5].
    + intros r Hr. apply registered_in_list in Hr as [v Hv]. apply Min in Hv as [Hv|[[-> | ->] _]].
      * destruct (D6 r) as (x & Hx); [apply registered_in_list; eauto|]. exists x. by apply Hup.
      * by eexists.
      * by eexists.
    + intros r x Hx. destruct (Hcases r x Hx) as [Hx'|[[-> ->]|[-> ->]]].
      * destruct (D7 r x Hx') as (n' & y & E1 & E0 & Hy & E2 & E3 & E4 & E5).
        exists n', y. repeat (split; [done|]). split; [by apply Hup | done].
      * eexists (S n), _. split; [done|]. split; [lia|]. split; [exact Hn2|]. done.
      * eexists n, _. split; [done|]. split; [lia|]. split; [exact Hn1|]. simpl.
        repeat (split; [done|]). by apply opposite_sym.
    + intros r x Hx. destruct (Hcases r x Hx) as [Hx'|[[-> ->]|[-> ->]]]; simpl; [by apply (D8 r x)|done|done].
    + intros i e. rewrite M4. destruct (decide _).
      * intros [= <-]. by eapply listed_registered.
      * intros He. apply D9 in He. apply registered_in_list in He as [v Hv].
        apply registered_in_list. exists v. apply Min. by left.
    + intros i v. rewrite M2. intros Hv. destruct (D10 i v Hv) as (H1 & H2 & H3). split; [done|].
      rewrite M1. split; [|done]. left. destruct H2 as [H2|H2]; [lia|].
      apply (in_list_lt m v n), Min. right. split; [by left|]. by apply Hfresh.
    + intros v var. rewrite M1, M2. apply D11.
    + split; [done|]. split; [done|]. rewrite M1. apply D14.
    + intros e t'. rewrite M7. unfold getEdgeRef_leq. destruct (decide (e = n)) as [->|].
      * intros [= <-]. rewrite Hidx. cbn [rbind]. rewrite M4. by rewrite decide_True.
      * intros He. apply D15 in He. unfold getEdgeRef_leq in He.
        destruct (termId logic t') as [j|]; [|done]. cbn [rbind] in *. injection He as He.
        rewrite M4, decide_False; [by rewrite He|]. intros ->. congruence.
  - constructor.
    + intros [var|] v Hv; [|done]. unfold vert_of in *. simpl in *. by rewrite M2.
    + intros r x Hx. exists x. split; [by apply Hup | done].
  - eexists n, _. split.
    + unfold getEdgeRef_leq. rewrite Hidx. cbn [rbind]. rewrite M4. by rewrite decide_True.
    + split; [exact Hn1|]. done.
Qed.

(** ** [declareAtom], after the atom is parsed *)

Definition wf_parsed (p : ParsedPTRef T) : Prop :=
  px p ≠ py p ∧ t_atom (pc p)
  ∧ (∀ v, px p = Some v ∨ py p = Some v → isNumVar logic v = Ok true).

Lemma isNumVar_termId v : isNumVar logic v = Ok true → ∃ i, termId logic v = Ok i.
Proof. unfold isNumVar, termId, getPterm. destruct (logic v); simpl; [eauto | done]. Qed.

Lemma getVertRef_defined m var : (∀ v, var = Some v → isNumVar logic v = Ok true) →
  ∃ o, getVertRef logic m var = Ok o.
Proof.
  destruct var as [v|]; simpl; [|eauto]. intros Hv.
  destruct (isNumVar_termId v (Hv v eq_refl)) as [i ->]. simpl. eauto.
Qed.

Lemma grown_trans g1 g2 g3 : grown g1 g2 → grown g2 g3 → grown g1 g3.
Proof.
  intros [A1 A2] [B1 B2]. constructor; [auto|]. intros r x Hx.
  destruct (A2 r x Hx) as (x' & Hx' & E1 & E2 & E3 & E4).
  destruct (B2 r x' Hx') as (x'' & Hx'' & F1 & F2 & F3 & F4).
  exists x''. split; [done|]. repeat split; congruence.
Qed.

Lemma edge_lookup_ok g yo xo (p : ParsedPTRef T) : decl_inv [] g → px p ≠ py p →
  getVertRef logic (mapper g) (py p) = Ok yo → getVertRef logic (mapper g) (px p) = Ok xo →
  ∃ o, getEdgeRef (store g) (mapper g) yo xo (pc p) = Ok o ∧ match o with
    | Some e => ∃ z vy vx, yo = Some vy ∧ xo = Some vx ∧ listed (store g) (mapper g) e z
        ∧ from z = vy ∧ to z = vx ∧ t_val (ecost z) = t_val (pc p)
    | None => True
    end.
Proof.
  intros Hd Hne Hy Hx. unfold getEdgeRef. destruct yo as [vy|]; [|by exists None].
  destruct xo as [vx|]; [|by exists None].
  assert (∀ var v, vert_of (mapper g) (Some var) v →
    v ≠ 0%nat ∧ (v < length (edgesContainingVert (mapper g)))%nat) as Hvar.
  { intros var v Hv. apply getVertRef_Some in Hv as (i & Ei & Ev). symmetry in Ev.
    destruct (d_var _ _ Hd i v Ev) as (Hz & [Hl|Hl] & _); [done | by apply elem_of_nil in Hl]. }
  assert (vy < length (edgesContainingVert (mapper g)))%nat as By.
  { destruct (py p) as [b|] eqn:Ey; [by apply Hvar in Hy as [_ ?]|].
    injection Hy as <-. destruct (px p) as [a|]; [|done]. apply Hvar in Hx as [? ?]. unfold zero. lia. }
  destruct (lookup_lt_is_Some_2 _ _ By) as [l Hl]. unfold edgesOf, at_. rewrite Hl. cbn [rbind].
  destruct (find_edge_wp (store g) vy vx (pc p) l) as (o & -> & Ho).
  { intros r Hr. destruct (d_listed _ _ Hd r) as (z & Hz); [by exists vy, l|]. rewrite (proj1 Hz). eauto. }
  exists o. split; [done|]. destruct o as [e|]; [|done].
  destruct Ho as (He & z & Ez & E1 & E2 & E3).
  destruct (d_listed _ _ Hd e) as (z' & Hz'); [by exists vy, l|].
  assert (z' = z) as -> by (destruct Hz'; congruence). eauto 10.
Qed.

Lemma declareParsed_ok g t p idx : decl_inv [] g → termId logic t = Ok idx →
  vget (leqToEdgeRef (mapper g)) idx = None → wf_parsed p →
  ∃ g', declareParsed logic g t p = Ok g' ∧ decl_inv [] g' ∧ grown g g'
    ∧ (∃ e x, atom_edge g' t p e x)
    ∧ (∀ i, i ≠ idx → vget (leqToEdgeRef (mapper g')) i = vget (leqToEdgeRef (mapper g)) i).
Proof.
  intros Hd Hidx Hnone (Hne & Hat & Hnum). unfold declareParsed.
  destruct (getVertRef_defined (mapper g) (px p)) as [xo Hxo]; [intros v Hv; apply Hnum; by left|].
  destruct (getVertRef_defined (mapper g) (py p)) as [yo Hyo]; [intros v Hv; apply Hnum; by right|].
  rewrite Hxo, Hyo. cbn [rbind].
  destruct (edge_lookup_ok g yo xo p Hd Hne Hyo Hxo) as (o & -> & Ho). cbn [rbind].
  destruct o as [e|].
  - (* the edge exists *)
    destruct Ho as (z & vy & vx & -> & -> & Hz & Ef & Et & Ec).
    unfold mapEdge. rewrite Hidx. cbn [rbind]. eexists. split; [done|].
    destruct Hd as [D1 D2 D3 D4 D5 D6 D7 D8 D9 D10 D11 D12 D15].
    split; [constructor; simpl; try done|].
    + intros i e'. rewrite vget_vset. destruct (decide _); [|apply D9].
      intros [= <-]. by eapply listed_registered.
    + intros e' t'. rewrite vget_vset. unfold getEdgeRef_leq. simpl. destruct (decide (e' = e)) as [->|].
      * intros [= <-]. rewrite Hidx. cbn [rbind]. by rewrite vget_vset, decide_True.
      * intros He'. apply D15 in He'. unfold getEdgeRef_leq in He'.
        destruct (termId logic t') as [j|]; [|done]. cbn [rbind] in *. injection He' as He'.
        rewrite vget_vset, decide_False; [by rewrite He'|]. intros ->. congruence.
    + split; [constructor; [done|]; intros r x Hx; exists x; done|]. split.
      * exists e, z. unfold atom_edge, getEdgeRef_leq, vert_of. simpl. rewrite Hidx. cbn [rbind].
        rewrite vget_vset, decide_True by done. split; [done|]. split; [done|].
        rewrite Ef, Et. done.
      * intros i Hi. simpl. by rewrite vget_vset, decide_False.
  - (* a new pair *)
    destruct (ensureVertex_ok [] g xo (px p) Hd Hxo) as (vx & g1 & -> & Hd1 & Hvx1 & Es1 & Ec1 & El1 & Hg1 & Hk1).
    { intros v Hv. apply Hnum. by left. }
    cbn [rbind].
    destruct (ensureVertex_ok [vx] g1 yo (py p) Hd1) as (vy & g2 & -> & Hd2 & Hvy2 & Es2 & Ec2 & El2 & Hg2 & Hk2).
    { apply Hk1; [congruence | done]. }
    { intros v Hv. apply Hnum. by right. }
    cbn [rbind].
    assert (vert_of (mapper g2) (px p) vx) as Hvx2 by (by apply (gr_vert _ _ Hg2)).
    assert (vx ≠ vy) as Hvne by (intros ->; apply Hne; by eapply vert_of_inj).
    pose proof (vert_of_lt _ _ _ _ Hd2 Hvx2) as Bx. pose proof (vert_of_lt _ _ _ _ Hd2 Hvy2) as By.
    destruct (negate_opposite (pc p) Hat) as (nc & En & Hop).
    unfold createEdge at 1. cbn [fst snd]. rewrite En. cbn [rbind].
    set (n := length (edges (store g2))). set (s1 := MkSTPStore _ (edges (store g2) ++ _)).
    assert (createEdge s1 vx vy nc = (S n, snd (createEdge s1 vx vy nc))) as ->.
    { unfold createEdge. simpl. f_equal. rewrite length_app. simpl. unfold n. lia. }
    change (snd (createEdge s1 vx vy nc)) with
      (snd (createEdge (snd (createEdge (store g2) vy vx (pc p))) vx vy nc)).
    unfold n. rewrite setNegation_new. cbn [rbind]. fold n.
    set (s2 := new_pair (store g2) vy vx (pc p) nc).
    destruct (registerEdge_ok s2 (mapper g2) n (MkEdge vy vx (Some (S n)) (pc p) 0))
      as (m1 & -> & R1 & R2 & R3 & R4 & R5 & R6 & R7).
    { unfold s2. rewrite new_pair_lookup. by rewrite decide_True. }
    cbn [rbind]. unfold mapEdge. rewrite Hidx. cbn [rbind].
    set (m2 := MkSTPMapper _ _ _ _ _ _).
    destruct (registerEdge_ok s2 m2 (S n) (MkEdge vx vy (Some n) nc 0))
      as (m3 & -> & Q1 & Q2 & Q3 & Q4 & Q5 & Q6 & Q7).
    { unfold s2. rewrite new_pair_lookup, decide_False, decide_True by (fold n; lia). done. }
    cbn [rbind]. eexists. split; [done|].
    destruct (declare_new [vy; vx] g2 vy vx (pc p) nc m3 t idx) as (Hd3 & Hg3 & e & x & He & Hl & Ef & Et & Ecx);
      try done.
    + by rewrite El2, El1.
    + intros e'. rewrite Q4. unfold m2. simpl. rewrite vget_vset, R4. done.
    + intros v. rewrite elem_of_cons, list_elem_of_singleton. tauto.
    + by rewrite Q1.
    + by rewrite Q2.
    + by rewrite Q5.
    + intros i. rewrite Q3. unfold m2. simpl. rewrite vget_vset, R3. done.
    + rewrite Q6. unfold m2. simpl. rewrite R6. simpl. lia.
    + rewrite Q6. unfold m2. simpl. rewrite R6. simpl. destruct (d_size _ _ Hd2) as (? & _ & _). lia.
    + intros v r. rewrite Q7. unfold m2, in_list at 1. simpl. fold (in_list m1 v r). rewrite R7. simpl.
      fold n. naive_solver.
    + split; [done|]. split; [eapply grown_trans; [exact Hg1|]; by eapply grown_trans|]. split.
      * exists e, x. unfold atom_edge. simpl. split; [done|]. split; [done|]. rewrite Ef, Et, Ecx.
        unfold vert_of. split; [|split; [|done]].
        -- by apply (gr_vert _ _ Hg3).
        -- by apply (gr_vert _ _ Hg3).
      * intros i Hi. simpl. rewrite Q3. unfold m2. simpl. rewrite vget_vset, decide_False, R3, El2, El1 by done.
        done.
Qed.

End stp.

(** * Backtracking restores the graph manager

    [removeAfter p] takes away exactly the edges and deductions with a
    timestamp later than [p], in the store, in the mapper and in the adjacency
    lists, and what is left satisfies the invariant. *)

Section stp.
Context {T : Type} `{STPNum T}.

Implicit Types (s : STPStore T) (g : STPGraphManager T).

(** ** Taking the last edge out of the graph *)

Lemma pop_at_filter (P : nat → EdgeRef → Prop) `{∀ v r, Decision (P v r)} (ll : list (list EdgeRef)) l r v :
  (∀ u x, ll !! u = Some x → x = base.filter (P u) (l ++ [r])) →
  (∀ u, P u r ↔ u = v) → (v < length ll)%nat →
  ∃ ll', pop_at ll v = Ok ll' ∧ length ll' = length ll
    ∧ (∀ u x, ll' !! u = Some x → x = base.filter (P u) l).
Proof.
  intros Hll Hr Hv. destruct (lookup_lt_is_Some_2 ll v Hv) as [x Ex].
  unfold pop_at, at_, upd. rewrite Ex. cbn [rbind]. rewrite (proj2 (Nat.ltb_lt _ _) Hv).
  eexists. split; [done|]. split; [apply length_insert|].
  assert (∀ u, base.filter (P u) (l ++ [r]) = base.filter (P u) l ++ if decide (u = v) then [r] else []) as Hf.
  { intros u. rewrite filter_app. f_equal. rewrite filter_cons.
    destruct (decide (P u r)) as [Hp|Hp], (decide (u = v)) as [E|E]; rewrite Hr in Hp; done. }
  intros u y. destruct (decide (u = v)) as [->|Hne].
  - rewrite list_lookup_insert_eq by done. intros [= <-].
    rewrite (Hll v x Ex), Hf, decide_True by done. apply removelast_last.
  - rewrite list_lookup_insert_ne by done. intros Hy.
    by rewrite (Hll u y Hy), Hf, decide_False, app_nil_r by done.
Qed.

Lemma popEdge_wf s gr l r x : graph_wf s gr → addedEdges gr = l ++ [r] → edges s !! r = Some x →
  ∃ inc out, pop_at (incoming gr) (to x) = Ok inc ∧ pop_at (outgoing gr) (from x) = Ok out
    ∧ graph_wf s (MkEdgeGraph l inc out).
Proof.
  intros [G1 G2 G3 G4 G5] Ea Ex.
  destruct (G3 r) as (x' & Ex' & Hf & Ht); [rewrite Ea, elem_of_app, list_elem_of_singleton; auto|].
  rewrite Ex in Ex'. injection Ex' as <-. rewrite Ea in G4, G5.
  destruct (pop_at_filter (enters s) (incoming gr) l r (to x)) as (inc & E1 & L1 & F1); [done| |lia|].
  { intros u. unfold enters. rewrite Ex. simpl. naive_solver. }
  destruct (pop_at_filter (leaves s) (outgoing gr) l r (from x)) as (out & E2 & L2 & F2); [done| |lia|].
  { intros u. unfold leaves. rewrite Ex. simpl. naive_solver. }
  exists inc, out. split; [done|]. split; [done|]. constructor; simpl; try done; try lia.
  intros r' Hr'. rewrite L2. apply G3. rewrite Ea, elem_of_app. auto.
Qed.

Lemma graph_wf_with_asgn s m l : (∀ r e, listed s m r e ↔ listed s (with_asgn m l) r e)
  ∧ (∀ r, registered m r ↔ registered (with_asgn m l) r).
Proof. done. Qed.

(** ** The first loop *)

(** The manager after the edges [B] were taken out, [A] being left. *)
Record cut (g : STPGraphManager T) (A B : list EdgeRef) (g' : STPGraphManager T) : Prop := {
  ct_store : store g' = mark (store g) B 0;
  ct_mapper : ∃ l, mapper g' = with_asgn (mapper g) l
    ∧ ∀ r, vget l r = if decide (r ∈ B) then None else getAssignment (mapper g) r;
  ct_graph : graph_wf (store g) (graph g');
  ct_added : addedEdges (graph g') = A;
  ct_ded : deductions g' = deductions g;
}.

Lemma mark_front s B r e : edges s !! r = Some e → r ∉ B →
  setEdge (mark s B 0) r (with_setTime e 0) = mark s (r :: B) 0.
Proof.
  intros Ee Hr. unfold setEdge, mark. simpl. f_equal. apply list_eq. intros x.
  destruct (decide (x = r)) as [->|Hne].
  - rewrite list_lookup_insert_eq by (rewrite length_imap; by eapply lookup_lt_Some).
    rewrite list_lookup_imap, Ee. simpl. rewrite decide_True; [done | by left].
  - rewrite list_lookup_insert_ne, !list_lookup_imap by done.
    destruct (edges s !! x); simpl; [|done]. f_equal.
    destruct (decide (x ∈ B)); [rewrite decide_True | rewrite decide_False];
      rewrite ?elem_of_cons; tauto.
Qed.

Lemma vget_clear {A} (l : list (option A)) i r : (i < length l)%nat →
  vget (<[i := None]> l) r = if decide (r = i) then None else vget l r.
Proof.
  intros Hi. unfold vget. destruct (decide (r = i)) as [->|].
  - by rewrite list_lookup_insert_eq.
  - by rewrite list_lookup_insert_ne.
Qed.

Lemma removeAdded_cut point g A r B g1 e : NoDup (A ++ r :: B) → cut g (A ++ [r]) B g1 →
  edges (store g) !! r = Some e → (point < setTime e)%nat → is_Some (getAssignment (mapper g) r) →
  ∃ g2, removeAdded point (r :: reverse A) g1 = removeAdded point (reverse A) g2
    ∧ cut g A (r :: B) g2 ∧ timestamp g2 = timestamp g1.
Proof.
  intros Hnd [C1 (l & C2 & C3) C4 C5 C6] Ee Ht Has.
  assert (r ∉ B) as HrB.
  { apply NoDup_app in Hnd as (_ & _ & Hnd). by apply NoDup_cons in Hnd as [? _]. }
  destruct (popEdge_wf (store g) (graph g1) A r e C4 C5 Ee) as (inc & out & E1 & E2 & Hg).
  assert (edges (store g1) !! r = Some e) as Ee1.
  { rewrite C1, mark_lookup, Ee. simpl. by rewrite decide_False. }
  assert (r < length l)%nat as Hl.
  { destruct Has as [a Ea]. specialize (C3 r). rewrite decide_False, Ea in C3 by done.
    unfold vget in C3. destruct (l !! r) eqn:E; [|done]. by eapply lookup_lt_Some. }
  eexists. split.
  - cbn [removeAdded]. unfold getEdge, at_ at 1. rewrite Ee1. cbn [rbind].
    rewrite (proj2 (Nat.leb_gt _ _) Ht), E1. cbn [rbind]. rewrite E2. cbn [rbind].
    unfold removeAssignment. rewrite C2. simpl. rewrite (proj2 (Nat.ltb_lt _ _) Hl). cbn [check rbind].
    reflexivity.
  - split; [|done]. constructor; simpl.
    + rewrite C1. by apply mark_front.
    + eexists. split; [reflexivity|]. intros x. rewrite vget_clear, C3 by done.
      destruct (decide (x = r)) as [->|]; [by rewrite decide_True by (by left)|].
      destruct (decide (x ∈ B)); [rewrite decide_True | rewrite decide_False];
        rewrite ?elem_of_cons; tauto.
    + rewrite C5, removelast_last. done.
    + by rewrite C5, removelast_last.
    + done.
Qed.

(** The loop removes a suffix and stops at the first edge that stays. *)
Lemma removeAdded_spec point g A B g1 C : NoDup (A ++ B ++ C) → cut g (A ++ B) C g1 →
  (∀ r, r ∈ A → (time (store g) r <= point)%nat) →
  (∀ r, r ∈ B → ∃ e, edges (store g) !! r = Some e ∧ (point < setTime e)%nat
     ∧ is_Some (getAssignment (mapper g) r)) →
  (∀ r, r ∈ A → is_Some (edges (store g) !! r)) →
  ∃ g2, removeAdded point (reverse (A ++ B)) g1 = Ok g2 ∧ cut g A (B ++ C) g2
    ∧ timestamp g2 = match last A with Some r => time (store g) r | None => timestamp g1 end.
Proof.
  revert g1 C. induction B as [|r B IH] using rev_ind; intros g1 C Hnd Hc HA HB HAe.
  - rewrite app_nil_r in *. simpl. destruct A as [|r A _] using rev_ind.
    + exists g1. done.
    + rewrite reverse_snoc, last_snoc.
      destruct (HAe r) as [e Ee]; [rewrite elem_of_app, list_elem_of_singleton; auto|].
      specialize (HA r ltac:(rewrite elem_of_app, list_elem_of_singleton; auto)).
      rewrite (time_lookup _ _ _ Ee) in HA.
      assert (r ∉ C) as HrC.
      { rewrite <- app_assoc in Hnd. apply NoDup_app in Hnd as (_ & _ & Hnd).
        by apply NoDup_cons in Hnd as [? _]. }
      assert (edges (store g1) !! r = Some e) as Ee1.
      { rewrite (ct_store _ _ _ _ Hc), mark_lookup, Ee. simpl. by rewrite decide_False. }
      eexists. split; [|split].
      * cbn [removeAdded]. unfold getEdge, at_. rewrite Ee1. cbn [rbind].
        rewrite (proj2 (Nat.leb_le _ _) HA). reflexivity.
      * destruct Hc as [C1 C2 C3 C4 C5]. by constructor.
      * simpl. symmetry. by apply time_lookup.
  - rewrite <- (app_assoc B [r] C) in Hnd. simpl in Hnd.
    destruct (HB r) as (e & Ee & Ht & Ha); [rewrite elem_of_app, list_elem_of_singleton; auto|].
    rewrite app_assoc in Hc.
    destruct (removeAdded_cut point g (A ++ B) r C g1 e) as (g2 & E & Hc2 & Ets); try done.
    { by rewrite <- app_assoc. }
    destruct (IH g2 (r :: C)) as (g3 & E3 & Hc3 & Ets3); try done.
    { intros x Hx. apply HB. rewrite elem_of_app. auto. }
    exists g3. rewrite app_assoc, reverse_snoc, E. split; [done|].
    rewrite <- (app_assoc B [r] C). split; [done|]. by rewrite Ets3, Ets.
Qed.

(** ** The second loop *)

Lemma removeDeductions_spec point g1 A B C s : deductions g1 = A ++ B →
  NoDup (A ++ B ++ C) → store g1 = mark s C 0 →
  (∀ r, r ∈ A → (time s r <= point)%nat ∧ is_Some (edges s !! r)) →
  (∀ r, r ∈ B → ∃ e, edges s !! r = Some e ∧ (point < setTime e)%nat) →
  removeDeductions point (reverse (A ++ B)) g1
  = Ok (MkGraphMgr (mark s (B ++ C) 0) (mapper g1) (graph g1) (timestamp g1) A).
Proof.
  revert g1 C. induction B as [|r B IH] using rev_ind; intros g1 C Hd Hnd Hs HA HB.
  - rewrite app_nil_r in *. simpl. destruct A as [|r A _] using rev_ind.
    + simpl. destruct g1; simpl in *; by subst.
    + rewrite reverse_snoc.
      destruct (HA r) as [Ht [e Ee]]; [rewrite elem_of_app, list_elem_of_singleton; auto|].
      rewrite (time_lookup _ _ _ Ee) in Ht.
      assert (r ∉ C) as HrC.
      { rewrite <- app_assoc in Hnd. apply NoDup_app in Hnd as (_ & _ & Hnd).
        by apply NoDup_cons in Hnd as [? _]. }
      cbn [removeDeductions]. unfold getEdge, at_. rewrite Hs, mark_lookup, Ee. simpl.
      rewrite decide_False by done. rewrite (proj2 (Nat.leb_le _ _) Ht).
      destruct g1; simpl in *; by subst.
  - rewrite <- (app_assoc B [r] C) in Hnd. simpl in Hnd.
    destruct (HB r) as (e & Ee & Ht); [rewrite elem_of_app, list_elem_of_singleton; auto|].
    assert (r ∉ C) as HrC.
    { rewrite app_assoc in Hnd. apply NoDup_app in Hnd as (_ & _ & Hnd).
      by apply NoDup_cons in Hnd as [? _]. }
    rewrite app_assoc, reverse_snoc. cbn [removeDeductions]. unfold getEdge, at_.
    rewrite Hs, mark_lookup, Ee. simpl. rewrite decide_False by done.
    rewrite (proj2 (Nat.leb_gt _ _) Ht).
    rewrite (mark_front s C r e Ee HrC), Hd, app_assoc, removelast_last.
    rewrite (IH _ (r :: C)); simpl; try done.
    + by rewrite <- (app_assoc B [r] C).
    + intros x Hx. apply HB. rewrite elem_of_app. auto.
Qed.

(** A sorted list splits at a bound. *)
Lemma sorted_split (f : EdgeRef → nat) (R : nat → nat → Prop) l p :
  (∀ x y, R x y → (x <= y)%nat) → StronglySorted R (f <$> l) →
  l = base.filter (λ r, f r <= p)%nat l ++ base.filter (λ r, ¬ (f r <= p)%nat) l.
Proof.
  intros HR Hs. induction l as [|r l IH]; [done|]. simpl in Hs.
  apply StronglySorted_inv in Hs as [Hl Hr]. rewrite !filter_cons.
  destruct (decide (f r <= p)%nat) as [Hle|Hle].
  - rewrite (decide_False (P := ¬ _)) by tauto. simpl. f_equal. by apply IH.
  - rewrite (decide_True (P := ¬ _)) by done.
    rewrite (filter_none (λ r, f r <= p)%nat l).
    + simpl. f_equal. symmetry. apply filter_every.
      intros x Hx. rewrite Forall_forall in Hr.
      specialize (Hr (f x) ltac:(apply list_elem_of_fmap; eauto)). apply HR in Hr. lia.
    + intros x Hx. rewrite Forall_forall in Hr.
      specialize (Hr (f x) ltac:(apply list_elem_of_fmap; eauto)). apply HR in Hr. lia.
Qed.

(** ** The whole operation *)

Record restored (g : STPGraphManager T) (point : nat) (g' : STPGraphManager T) : Prop := {
  rs_same : same_edges (store g) (store g');
  rs_time : ∀ r, time (store g') r
      = if decide (time (store g) r <= point)%nat then time (store g) r else 0%nat;
  rs_mapper : ∃ l, mapper g' = with_asgn (mapper g) l
    ∧ ∀ r, vget l r = if decide (time (store g) r <= point)%nat then getAssignment (mapper g) r else None;
  rs_added : addedEdges (graph g') = added_at g point;
  rs_ded : deductions g' = base.filter (λ r, time (store g) r <= point)%nat (deductions g);
  rs_wf : mgr_wf g';
  rs_ts : timestamp g' = match last (added_at g point) with
                         | Some r => time (store g) r
                         | None => timestamp g
                         end;
}.

Lemma added_nodup g : mgr_inv g → NoDup (addedEdges (graph g)).
Proof.
  intros Hg. pose proof (mi_sorted g Hg) as Hs. revert Hs.
  generalize (addedEdges (graph g)). intros l Hs. induction l as [|r l IH]; [constructor|].
  simpl in Hs. apply StronglySorted_inv in Hs as [Hl Hr]. constructor; [|by apply IH].
  intros Hin. rewrite Forall_forall in Hr.
  specialize (Hr (time (store g) r) ltac:(apply list_elem_of_fmap; eauto)). unfold Nat.lt in Hr. lia.
Qed.

Lemma empty_untimed g r : mgr_inv g → addedEdges (graph g) = [] → time (store g) r = 0%nat.
Proof.
  intros Hg He. destruct (decide (time (store g) r = 0%nat)) as [|Hne]; [done|]. exfalso.
  destruct (mi_cover g Hg r Hne) as [Hr|Hr]; [rewrite He in Hr; by apply elem_of_nil in Hr|].
  destruct (mi_ded g Hg r Hr) as (Hreg & _).
  destruct (mw_listed g (mi_wf g Hg) r Hreg) as (x & Hx).
  assert (∀ t, graph_at g t = []) as Hnil by (intros t; unfold graph_at, added_at; by rewrite He).
  rewrite (time_lookup _ _ _ (proj1 Hx)) in Hne.
  pose proof (mi_timeline g Hg r x (setTime x) Hx) as Ht.
  pose proof (mi_timeline g Hg r x 0%nat Hx) as H0. rewrite Hnil in Ht, H0.
  rewrite H0 in Ht. lia.
Qed.

Lemma vget_asgn_none g r : mgr_inv g → r ∉ addedEdges (graph g) → getAssignment (mapper g) r = None.
Proof.
  intros Hg Hr. rewrite <- (mi_asgn g Hg) in Hr. destruct (getAssignment _ _); [|done].
  destruct Hr. eauto.
Qed.

Lemma removeAfter_ok g point : mgr_inv g → ∃ g', removeAfter point g = Ok g' ∧ restored g point g'.
Proof.
  intros Hg. unfold removeAfter. destruct (addedEdges (graph g)) as [|r0 l0] eqn:Ea.
  { exists g. split; [done|].
    assert (∀ r, time (store g) r = 0%nat) as Hz by (intros r; by apply empty_untimed).
    constructor; try done.
    - intros r. rewrite Hz. by destruct (decide _).
    - exists (edgeRefToAsgn (mapper g)). split; [by destruct (mapper g)|].
      intros r. rewrite Hz, decide_True by lia. done.
    - unfold added_at. by rewrite Ea.
    - symmetry. apply filter_every. intros r _. rewrite Hz. lia.
    - apply Hg.
    - unfold added_at. by rewrite Ea. }
  rewrite <- Ea. clear r0 l0 Ea.
  set (A := added_at g point). set (B := base.filter (λ r, ¬ (time (store g) r <= point)%nat) (addedEdges (graph g))).
  assert (addedEdges (graph g) = A ++ B) as EAB.
  { apply (sorted_split (time (store g)) Nat.lt); [intros ? ? ?; unfold Nat.lt in *; lia | apply Hg]. }
  pose proof (added_nodup g Hg) as Hnd. rewrite EAB in Hnd.
  assert (∀ r, r ∈ addedEdges (graph g) → ∃ e, edges (store g) !! r = Some e) as Hedge.
  { intros r Hr. destruct (gw_added _ _ (mw_graph g (mi_wf g Hg)) r Hr) as (e & Ee & _). eauto. }
  destruct (removeAdded_spec point g A B g []) as (g1 & E1 & Hc & Ets).
  { by rewrite app_nil_r. }
  { constructor; try done.
    - by rewrite mark_nil.
    - exists (edgeRefToAsgn (mapper g)). split; [by destruct (mapper g)|]. intros r.
      rewrite decide_False by apply not_elem_of_nil. done.
    - apply Hg. }
  { intros r Hr. by apply list_elem_of_filter in Hr as [? _]. }
  { intros r Hr. apply list_elem_of_filter in Hr as [Ht Hr].
    destruct (Hedge r Hr) as [e Ee]. exists e. split; [done|].
    rewrite (time_lookup _ _ _ Ee) in Ht. split; [lia|]. by apply (mi_asgn g Hg). }
  { intros r Hr. apply list_elem_of_filter in Hr as [_ Hr]. destruct (Hedge r Hr). eauto. }
  rewrite app_nil_r in Hc. rewrite <- EAB in E1. rewrite E1. cbn [rbind].
  set (DA := base.filter (λ r, time (store g) r <= point)%nat (deductions g)).
  set (DB := base.filter (λ r, ¬ (time (store g) r <= point)%nat) (deductions g)).
  assert (deductions g = DA ++ DB) as ED.
  { apply (sorted_split (time (store g)) Nat.le); [done | apply Hg]. }
  assert (∀ r, r ∈ deductions g → ∃ e, edges (store g) !! r = Some e) as Hded.
  { intros r Hr. destruct (mi_ded g Hg r Hr) as (Hreg & _).
    destruct (mw_listed g (mi_wf g Hg) r Hreg) as (x & Hx). exists x. apply Hx. }
  rewrite (ct_ded _ _ _ _ Hc), ED.
  rewrite (removeDeductions_spec point g1 DA DB B (store g)); try done.
  2:{ by rewrite (ct_ded _ _ _ _ Hc). }
  2:{ rewrite app_assoc, <- ED. apply NoDup_app. split; [apply Hg|]. split.
      - intros r Hr Hr'. destruct (mi_ded g Hg r Hr) as (_ & _ & Hna). apply Hna.
        by apply list_elem_of_filter in Hr' as [_ ?].
      - by apply NoDup_app in Hnd as (_ & _ & ?). }
  2:{ apply Hc. }
  2:{ intros r Hr. apply list_elem_of_filter in Hr as [Ht Hr]. split; [done|].
      destruct (Hded r Hr). eauto. }
  2:{ intros r Hr. apply list_elem_of_filter in Hr as [Ht Hr]. destruct (Hded r Hr) as [e Ee].
      exists e. split; [done|]. rewrite (time_lookup _ _ _ Ee) in Ht. lia. }
  assert (∀ r, time (mark (store g) (DB ++ B) 0) r
    = if decide (time (store g) r <= point)%nat then time (store g) r else 0%nat) as Htime.
  { intros r. rewrite time_mark.
    - destruct (decide (r ∈ DB ++ B)) as [Hin|Hin].
      + rewrite decide_False; [done|]. apply elem_of_app in Hin as [Hin|Hin];
          by apply list_elem_of_filter in Hin as [? _].
      + destruct (decide (time (store g) r <= point)%nat) as [|Hgt]; [done|]. exfalso. apply Hin.
        apply elem_of_app. destruct (mi_cover g Hg r) as [Hr|Hr]; [lia | right | left];
          by apply list_elem_of_filter.
    - intros r' [Hin|Hin]%elem_of_app; apply list_elem_of_filter in Hin as [_ Hin].
      + destruct (Hded r' Hin). eauto.
      + destruct (Hedge r' Hin). eauto. }
  destruct Hc as [C1 (l & C2 & C3) C4 C5 C6].
  eexists. split; [done|]. constructor; simpl; try done.
  - apply same_edges_mark.
  - exists l. split; [done|]. intros r. rewrite C3.
    destruct (decide (r ∈ B)) as [Hin|Hin].
    + apply list_elem_of_filter in Hin as [Hgt _]. by rewrite decide_False.
    + destruct (decide (time (store g) r <= point)%nat) as [|Hgt]; [done|].
      apply vget_asgn_none; [done|]. intros Hr. apply Hin. by apply list_elem_of_filter.
  - pose proof (same_edges_mark (store g) (DB ++ B) 0) as Hs. constructor; simpl.
    + by eapply graph_wf_same.
    + rewrite C2. intros r Hr. destruct (mw_listed g (mi_wf g Hg) r Hr) as (x & Hx).
      destruct (listed_same _ _ _ _ _ Hs Hx) as (x' & Hx' & _). eauto.
    + rewrite C5, C2. intros r Hr. apply list_elem_of_filter in Hr as [_ Hr].
      by apply (mw_added g (mi_wf g Hg)).
Qed.

(** ** The restored manager satisfies the invariant *)
Section restored.
Context (g : STPGraphManager T) (point : nat) (g' : STPGraphManager T).
Hypothesis Hg : mgr_inv g.
Hypothesis Hr : restored g point g'.

Lemma restored_listed r x' : listed (store g') (mapper g') r x' →
  ∃ x, listed (store g) (mapper g) r x ∧ from x' = from x ∧ to x' = to x ∧ neg x' = neg x
    ∧ ecost x' = ecost x ∧ setTime x' = if decide (setTime x <= point)%nat then setTime x else 0%nat.
Proof.
  intros Hx'. destruct (rs_mapper _ _ _ Hr) as (l & El & _). rewrite El in Hx'.
  assert (same_edges (store g') (store g)) as Hs by (symmetry; apply Hr).
  assert (listed (store g') (mapper g) r x') as Hx2 by exact Hx'.
  destruct (listed_same _ _ _ _ _ Hs Hx2) as (x & Hl & E & Ef & Et & En & Ec).
  exists x. rewrite Ef, Et, En, Ec. do 5 (split; [done|]).
  pose proof (rs_time _ _ _ Hr r) as Ht.
  by rewrite (time_lookup _ _ _ (proj1 Hx')), (time_lookup _ _ _ E) in Ht.
Qed.

Lemma restored_at t : graph_at g' t = graph_at g (Nat.min t point).
Proof.
  unfold graph_at. rewrite <- (refs_graph_same _ _ _ (rs_same _ _ _ Hr)). f_equal.
  unfold added_at at 1. rewrite (rs_added _ _ _ Hr). unfold added_at.
  rewrite list_filter_filter. apply list_filter_iff. intros r.
  rewrite (rs_time _ _ _ Hr). destruct (decide _); lia.
Qed.

Lemma restored_graph : mgr_graph g' = graph_at g point.
Proof.
  unfold mgr_graph, graph_at. rewrite (rs_added _ _ _ Hr).
  symmetry. apply refs_graph_same, Hr.
Qed.

Lemma sorted_filter (R : nat → nat → Prop) (f f' : EdgeRef → nat) (P : EdgeRef → Prop)
    `{∀ r, Decision (P r)} l :
  StronglySorted R (f <$> l) → (∀ r, P r → f' r = f r) → StronglySorted R (f' <$> base.filter P l).
Proof.
  intros Hs Hf. induction l as [|r l IH]; [constructor|]. simpl in Hs.
  apply StronglySorted_inv in Hs as [Hl Hall]. rewrite filter_cons.
  destruct (decide (P r)); [|by apply IH]. simpl. constructor; [by apply IH|].
  rewrite Forall_forall in *. intros y (x & -> & Hx)%list_elem_of_fmap.
  apply list_elem_of_filter in Hx as [HPx Hx]. rewrite !Hf by done. apply Hall.
  apply list_elem_of_fmap. eauto.
Qed.

Lemma restored_inv : mgr_inv g'.
Proof.
  destruct (rs_mapper _ _ _ Hr) as (l & El & Hl).
  assert (∀ r, (time (store g) r <= point)%nat → time (store g') r = time (store g) r) as Hkeep
    by (intros r ?; rewrite (rs_time _ _ _ Hr); by rewrite decide_True).
  constructor.
  - apply Hr.
  - intros u p Hp. apply (mi_nonneg g Hg u). eapply path_mono; [|exact Hp].
    rewrite restored_graph. apply graph_at_subset.
  - intros r x Hx. destruct (restored_listed r x Hx) as (y & Hy & Ef & Et & En & Ec & _).
    destruct (mi_neg g Hg r y Hy) as (n & z & E1 & E0 & Hz & E2 & E3 & E4 & E5).
    destruct (listed_same _ _ _ _ _ (rs_same _ _ _ Hr) Hz) as (z' & Hz' & _ & F1 & F2 & F3 & F4).
    exists n, z'. rewrite En, F1, F2, F3, F4, Ef, Et, Ec, El. done.
  - intros r x t Hx. destruct (restored_listed r x Hx) as (y & Hy & Ef & Et & _ & Ec & Es).
    rewrite restored_at, Ef, Et, Ec, (mi_timeline g Hg r y _ Hy), Es. destruct (decide _); lia.
  - rewrite (rs_added _ _ _ Hr). eapply sorted_filter; [apply Hg | exact Hkeep].
  - intros r. rewrite (rs_time _ _ _ Hr), (rs_ts _ _ _ Hr).
    destruct (decide _) as [Hle|]; [|lia].
    destruct (last (added_at g point)) as [z|] eqn:Elast; [|apply Hg].
    (* every time up to the bound is at most that of the last edge left *)
    destruct (decide (time (store g) r <= time (store g) z)%nat) as [|Hgt]; [done|]. exfalso.
    assert (∀ r, r ∈ added_at g point → (time (store g) r <= time (store g) z)%nat) as Hmax.
    { apply last_Some in Elast as [l' El'].
      pose proof (mi_sorted g Hg) as Hs.
      assert (StronglySorted Nat.lt (time (store g) <$> (l' ++ [z]))) as Hs'.
      { rewrite <- El'. by eapply sorted_filter. }
      intros x Hx. rewrite El', elem_of_app, list_elem_of_singleton in Hx.
      destruct Hx as [Hx| ->]; [|done]. rewrite fmap_app in Hs'. clear -Hs' Hx.
      induction l' as [|y l' IH]; [by apply elem_of_nil in Hx|]. simpl in Hs'.
      apply StronglySorted_inv in Hs' as [Hl Hall]. apply elem_of_cons in Hx as [->|Hx]; [|auto].
      rewrite Forall_forall in Hall.
      specialize (Hall (time (store g) z) ltac:(rewrite elem_of_app; right; by left)).
      unfold Nat.lt in Hall. lia. }
    destruct (mi_cover g Hg r ltac:(lia)) as [Ha|Hd].
    + specialize (Hmax r ltac:(by apply list_elem_of_filter)). lia.
    + destruct (mi_ded g Hg r Hd) as (Hreg & Hpos & _).
      destruct (mw_listed g (mi_wf g Hg) r Hreg) as (x & Hx).
      rewrite (time_lookup _ _ _ (proj1 Hx)) in *.
      assert (graph_at g (time (store g) z) = graph_at g (setTime x)) as Esame.
      { unfold graph_at. f_equal. apply filter_ext_in. intros y Hy. split; [lia|]. intros Hyx.
        apply Hmax, list_elem_of_filter. split; [lia | done]. }
      pose proof (mi_timeline g Hg r x (time (store g) z) Hx) as H1.
      pose proof (mi_timeline g Hg r x (setTime x) Hx) as H2. rewrite Esame in H1.
      rewrite H1 in H2. lia.
  - intros l' r E. rewrite (rs_added _ _ _ Hr) in E. rewrite (rs_ts _ _ _ Hr), E, last_snoc.
    apply Hkeep. assert (r ∈ added_at g point) as Hin
      by (rewrite E, elem_of_app, list_elem_of_singleton; auto).
    by apply list_elem_of_filter in Hin as [? _].
  - intros r. rewrite (rs_added _ _ _ Hr). intros [Hle Ha]%list_elem_of_filter.
    rewrite Hkeep by done. by apply (mi_added g Hg).
  - rewrite (rs_ded _ _ _ Hr). eapply sorted_filter; [apply Hg | exact Hkeep].
  - intros r. rewrite (rs_ded _ _ _ Hr), (rs_added _ _ _ Hr). intros [Hle Hd]%list_elem_of_filter.
    destruct (mi_ded g Hg r Hd) as (R1 & R2 & R3). rewrite El, Hkeep by done.
    split; [done|]. split; [done|]. by intros [_ ?]%list_elem_of_filter.
  - rewrite (rs_ded _ _ _ Hr). apply NoDup_filter, Hg.
  - intros r. rewrite (rs_time _ _ _ Hr), (rs_added _ _ _ Hr), (rs_ded _ _ _ Hr).
    destruct (decide _) as [Hle|]; [|done]. intros Hne. unfold added_at.
    rewrite !list_elem_of_filter. destruct (mi_cover g Hg r Hne); tauto.
  - intros r. rewrite El, (rs_added _ _ _ Hr). unfold getAssignment at 1. simpl. rewrite Hl.
    unfold added_at. rewrite list_elem_of_filter, <- (mi_asgn g Hg r).
    destruct (decide _); [tauto|]. split; [by intros [??] | tauto].
Qed.

End restored.
End stp.
