(* ===== verification/StpExplain.v ===== *)
(** * Explanations

    [findExplanation] returns literals that were asserted, no later than the
    explained edge became true, and whose constraints imply it.  The search
    treats its start as an unvisited vertex, so that a walk that comes back to
    the start gives it a second label; the invariant splits the start in two,
    the vertex the search begins in and the one such walks end in. *)
From S2P Require Import Prelude Gmp FastRational FastRationalFacts FastRationalInt Number Lex Delta DiffGraph StpNum Terms TSolver StpStore.
From S2P Require Import StpSearch StpInvariant StpSolver.
From Stdlib Require Import Sorted Lia.

Section stp.
Context {T : Type} `{STPNum T}.

(** No registered edge is a loop. *)
Lemma listed_no_loop (g : STPGraphManager T) r x : mgr_inv g → listed (store g) (mapper g) r x →
  from x ≠ to x.
Proof.
  intros Hg Hx E.
  assert (∀ r x, listed (store g) (mapper g) r x → from x = to x → (lzero <= t_val (ecost x))%lex → False) as Hpos.
  { intros r' y Hy Ey Hc. pose proof (mi_timeline g Hg r' y 0%nat Hy) as [Ht _].
    destruct Ht as [? ?]; [|lia]. rewrite Ey. exists []. split; [constructor | exact Hc]. }
  destruct (mi_neg g Hg r x Hx) as (n & y & _ & _ & Hy & _ & Ef & Et & Ho).
  destruct (lle_total lzero (t_val (ecost x))) as [Hc|Hc]; [by apply (Hpos r x)|].
  apply (Hpos n y Hy); [congruence|].
  pose proof (op_r _ _ Ho lzero t_grid_zero Hc). by rewrite ladd_0_l in *.
Qed.

Section explain.
Context (g : STPGraphManager T) (e : EdgeRef) (x : Edge T).
Hypothesis Hg : mgr_inv g.
Hypothesis Hx : listed (store g) (mapper g) e x.
Hypothesis Htrue : setTime x ≠ 0%nat.
Hypothesis Hnew : e ∉ addedEdges (graph g).

Definition u_ : VertexRef := from x.
Definition n_ : nat := vertices (store g).
(** The second copy of the start. *)
Definition back : VertexRef := n_.
Definition old : list EdgeRef := added_at g (setTime x).
Definition name (v : VertexRef) : VertexRef := if decide (v = u_) then back else v.
Definition unname (v : VertexRef) : VertexRef := if decide (v = back) then u_ else v.
Definition redirect (d : dedge) : dedge := DEdge (src d) (name (dst d)) (w d).
Definition split_graph : list dedge := redirect <$> graph_at g (setTime x).

Lemma u_lt : (u_ < n_)%nat.
Proof. apply Hx. Qed.

Lemma name_ne v : name v ≠ u_.
Proof. unfold name, back. pose proof u_lt. destruct (decide _); lia || done. Qed.
Lemma unname_name v : (v < n_)%nat → unname (name v) = v.
Proof.
  unfold unname, name, back. intros Hv. destruct (decide (v = u_)) as [->|].
  - by rewrite decide_True.
  - rewrite decide_False; [done | lia].
Qed.
Lemma name_back v : (v < n_)%nat → name v = back ↔ v = u_.
Proof. unfold name, back. intros Hv. destruct (decide _); [done|]. split; [lia | done]. Qed.

Lemma old_edge r : r ∈ old → r ∈ addedEdges (graph g) ∧ r ≠ e
  ∧ ∃ y, listed (store g) (mapper g) r y ∧ (setTime y <= setTime x)%nat
      ∧ (from y < n_)%nat ∧ (to y < n_)%nat ∧ from y ≠ to y
      ∧ (to y < length (outgoing (graph g)))%nat.
Proof.
  intros [Ht Hr]%list_elem_of_filter. split; [done|]. split; [by intros ->|].
  pose proof (mw_added g (mi_wf g Hg) r Hr) as Hreg.
  destruct (mw_listed g (mi_wf g Hg) r Hreg) as (y & Hy). exists y. split; [done|].
  rewrite (time_lookup _ _ _ (proj1 Hy)) in Ht. split; [done|].
  pose proof Hy as (Ey & ? & ? & _). split; [done|]. split; [done|].
  split; [by eapply listed_no_loop|].
  destruct (gw_added _ _ (mw_graph g (mi_wf g Hg)) r Hr) as (y' & Ey' & _ & Ho). congruence.
Qed.

Lemma elem_of_split d : d ∈ split_graph ↔
  ∃ r y, r ∈ old ∧ edges (store g) !! r = Some y ∧ d = redirect (dedge_of y).
Proof.
  unfold split_graph. rewrite list_elem_of_fmap. split.
  - intros (d' & -> & (r & y & Hr & Ey & ->)%elem_of_refs_graph). eauto 10.
  - intros (r & y & Hr & Ey & ->). eexists. split; [done|]. apply elem_of_refs_graph. eauto 10.
Qed.

Lemma old_nonneg : nonneg (graph_at g (setTime x)).
Proof.
  intros v p Hp. apply (mi_nonneg g Hg v). eapply path_mono; [apply graph_at_subset | done].
Qed.

(** Walks of the split graph are walks of the graph. *)
Lemma split_path a p b : path split_graph a p b → a ≠ back →
  ∃ q, path (graph_at g (setTime x)) a q (unname b) ∧ cost q = cost p.
Proof.
  intros Hp Ha. induction Hp as [|p d Hp IH Hd].
  - exists []. unfold unname. rewrite decide_False by done. split; [constructor | done].
  - apply elem_of_split in Hd as (r & y & Hr & Ey & ->).
    destruct (old_edge r Hr) as (_ & _ & y' & Hy & _ & Bf & Bt & _).
    assert (y' = y) as -> by (destruct Hy; congruence).
    destruct IH as (q & Hq & Ec). simpl in *.
    assert (unname (from y) = from y) as Eu by (unfold unname, back; rewrite decide_False; [done | lia]).
    rewrite Eu in Hq. exists (q ++ [dedge_of y]). rewrite !cost_snoc, Ec. split; [|done].
    rewrite unname_name by done. apply (path_snoc _ _ _ (dedge_of y)); [done|].
    apply elem_of_refs_graph. eauto.
Qed.

Lemma split_nonneg : nonneg split_graph.
Proof.
  intros a p Hp. destruct (decide (a = back)) as [->|Ha].
  - destruct p as [|d p]; [apply lle_refl|].
    apply path_cons_inv in Hp as (E & Hd & _). apply elem_of_split in Hd as (r & y & Hr & Ey & ->).
    destruct (old_edge r Hr) as (_ & _ & y' & Hy & _ & Bf & _).
    assert (y' = y) as -> by (destruct Hy; congruence). simpl in E. unfold back in E. lia.
  - destruct (split_path a p a Hp Ha) as (q & Hq & <-). unfold unname in Hq.
    rewrite decide_False in Hq by done. by apply old_nonneg in Hq.
Qed.

(** The constraint to explain is a walk of the split graph. *)
Lemma split_implied : ∃ p, path split_graph u_ p (to x) ∧ (cost p <= t_val (ecost x))%lex.
Proof.
  assert (implied (graph_at g (setTime x)) (from x) (to x) (t_val (ecost x))) as (p & Hp & Hc)
    by (apply (mi_timeline g Hg e x _ Hx); lia).
  destruct (path_simple _ old_nonneg _ _ _ Hp) as (q & Hq & Hnd & Hle).
  exists q. split; [|by eapply lle_trans]. clear Hp Hc Hle p. fold u_ in *.
  induction Hq as [|q d Hq IH Hd]; [constructor|].
  rewrite fmap_app, app_comm_cons in Hnd. apply NoDup_app in Hnd as (Hn1 & Hn2 & _).
  specialize (IH Hn1).
  assert (redirect d = d) as Er.
  { destruct d as [a b c]. unfold redirect, name. simpl. rewrite decide_False; [done|].
    intros ->. apply (Hn2 u_); [by left|]. by left. }
  assert (d ∈ split_graph) as Hd'.
  { rewrite <- Er. unfold split_graph. apply list_elem_of_fmap. eauto. }
  by constructor.
Qed.

(** ** Labels and parents of a search in progress *)

Definition elab (X : Expl T) : labels := λ v,
  if decide (v = u_) then Some lzero
  else match evisited X !! unname v with
       | Some (Some _) => t_val <$> elength X !! unname v
       | _ => None
       end.

Definition epar (X : Expl T) : parents := λ v,
  if decide (v = u_) then None
  else match evisited X !! unname v with
       | Some (Some r) => (λ y, redirect (dedge_of y)) <$> edges (store g) !! r
       | _ => None
       end.

Definition scan_edges (l : list EdgeRef) : list dedge :=
  redirect <$> refs_graph (store g) (base.filter (λ r, time (store g) r <= setTime x)%nat l).

Record einv (X : Expl T) (todo : list VertexRef) (ex : list dedge) : Prop := {
  ei_visited : length (evisited X) = n_;
  ei_length : length (elength X) = n_;
  ei_open : ∀ v, v ∈ eopen X → (v < length (outgoing (graph g)))%nat;
  ei_old : ∀ v r, evisited X !! v = Some (Some r) → r ∈ old;
  ei_lc : lc split_graph u_ (elab X) todo ex;
  ei_par : pinv split_graph u_ (elab X) (epar X);
}.

Definition emeasure (X : Expl T) : nat :=
  (unused_count split_graph u_ (S n_) (elab X) + length (eopen X))%nat.

Lemma elab_update X next r c todo : (next < n_)%nat → length (evisited X) = n_ → length (elength X) = n_ →
  ∀ v, relabel (elab X) (name next) (t_val c) v
       = elab (MkExpl (<[next := Some r]> (evisited X)) (<[next := c]> (elength X)) todo) v.
Proof.
  intros Hn Lv Ll v. unfold relabel, elab. simpl. destruct (decide (v = name next)) as [->|Hne].
  - rewrite decide_False by apply name_ne. rewrite unname_name by done.
    by rewrite !list_lookup_insert_eq by lia.
  - destruct (decide (v = u_)); [done|].
    assert (unname v ≠ next) as Hun.
    { intros <-. apply Hne. unfold name, unname. destruct (decide (v = back)) as [->|];
        [by rewrite decide_True | by rewrite decide_False]. }
    by rewrite !list_lookup_insert_ne by done.
Qed.

Lemma epar_update X next r y c todo : (next < n_)%nat → length (evisited X) = n_ →
  edges (store g) !! r = Some y →
  ∀ v, set_parent (epar X) (name next) (redirect (dedge_of y)) v
       = epar (MkExpl (<[next := Some r]> (evisited X)) (<[next := c]> (elength X)) todo) v.
Proof.
  intros Hn Lv Ey v. unfold set_parent, epar. simpl. destruct (decide (v = name next)) as [->|Hne].
  - rewrite decide_False by apply name_ne. rewrite unname_name by done.
    rewrite list_lookup_insert_eq by lia. by rewrite Ey.
  - destruct (decide (v = u_)); [done|].
    assert (unname v ≠ next) as Hun.
    { intros <-. apply Hne. unfold name, unname. destruct (decide (v = back)) as [->|];
        [by rewrite decide_True | by rewrite decide_False]. }
    by rewrite list_lookup_insert_ne by done.
Qed.

Lemma chain_ext (par par' : parents) v p : (∀ v, par v = par' v) →
  chain u_ par v p → chain u_ par' v p.
Proof. intros E Hc. induction Hc; constructor; auto. by rewrite <- E. Qed.

Lemma pinv_ext (lab lab' : labels) (par par' : parents) :
  (∀ v, lab v = lab' v) → (∀ v, par v = par' v) →
  pinv split_graph u_ lab par → pinv split_graph u_ lab' par'.
Proof.
  intros El Ep [P1 P2 P3]. constructor.
  - by rewrite <- El.
  - intros v d. rewrite <- Ep. intros Hd. destruct (P2 v d Hd) as (? & ? & a & b & ? & ? & ?).
    split; [done|]. split; [done|]. exists a, b. by rewrite <- !El.
  - intros v. rewrite <- El. intros Hv. destruct (P3 v Hv) as [p Hp]. exists p.
    by eapply chain_ext.
Qed.

Lemma scan_edges_cons r y l : edges (store g) !! r = Some y → (setTime y <= setTime x)%nat →
  scan_edges (r :: l) = redirect (dedge_of y) :: scan_edges l.
Proof.
  intros Ey Hy. unfold scan_edges. rewrite filter_cons, decide_True.
  - unfold refs_graph. simpl. by rewrite Ey.
  - by rewrite (time_lookup _ _ _ Ey).
Qed.
Lemma scan_edges_skip r y l : edges (store g) !! r = Some y → (setTime x < setTime y)%nat →
  scan_edges (r :: l) = scan_edges l.
Proof.
  intros Ey Hy. unfold scan_edges. rewrite filter_cons, decide_False; [done|].
  rewrite (time_lookup _ _ _ Ey). lia.
Qed.

(** Scanning an edge from a vertex whose label is the value it is scanned
    with. *)
Lemma expl_scan_wp curr lcv r l X todo :
  r ∈ addedEdges (graph g) → leaves (store g) curr r →
  einv X todo (scan_edges (r :: l)) → elength X !! curr = Some lcv → elab X curr = Some (t_val lcv) →
  (∀ v, v ∈ todo ↔ v ∈ name <$> eopen X) →
  wp t_err (λ X', ∃ todo', einv X' todo' (scan_edges l) ∧ (∀ v, v ∈ todo' ↔ v ∈ name <$> eopen X')
                  ∧ elength X' !! curr = Some lcv ∧ elab X' curr = Some (t_val lcv)
                  ∧ (emeasure X' <= emeasure X)%nat)
    (expl_scan g e x curr X r).
Proof.
  intros Hr Hlv HX Hlc Hlab Htodo. unfold expl_scan.
  destruct (Nat.eqb_spec r e) as [->|_]; [done|].
  unfold leaves in Hlv. destruct (edges (store g) !! r) as [y|] eqn:Ey; [|done]. injection Hlv as Hcurr.
  apply wp_bind. eapply at_wp; [exact Ey|].
  destruct (Nat.ltb_spec (setTime x) (setTime y)) as [Hlt|Hle].
  { rewrite (scan_edges_skip r y l Ey Hlt) in HX. simpl. exists todo. done. }
  rewrite (scan_edges_cons r y l Ey Hle) in HX.
  assert (r ∈ old) as Hold by (apply list_elem_of_filter; rewrite (time_lookup _ _ _ Ey); done).
  destruct (old_edge r Hold) as (_ & _ & y' & Hy & _ & Bf & Bt & Hloop & Bo).
  assert (y' = y) as -> by (destruct Hy; congruence).
  pose proof HX as [Lv Ll Lo Lold Llc Lpar]. destruct X as [vis len op]. simpl in *.
  apply wp_bind, wp_check; [apply bool_decide_eq_true, (mi_asgn g Hg r), Hr|].
  destruct (lookup_lt_is_Some_2 vis (to y)) as [ov Hov]; [lia|].
  destruct (lookup_lt_is_Some_2 len (to y)) as [ln Hln]; [lia|].
  apply wp_bind. eapply at_wp; [exact Hov|]. apply wp_bind. eapply at_wp; [exact Hlc|].
  set (d := redirect (dedge_of y)) in *.
  assert (d ∈ split_graph) as Hd by (apply elem_of_split; eauto).
  assert (elab (MkExpl vis len op) (src d) = Some (t_val lcv)) as Hsrc by (simpl; by rewrite Hcurr).
  assert (elab (MkExpl vis len op) (name (to y)) = match ov with Some _ => Some (t_val ln) | None => None end) as Hdst.
  { unfold elab. rewrite decide_False by apply name_ne. rewrite unname_name by done. simpl.
    rewrite Hov, Hln. by destruct ov. }
  assert (∀ c, t_val c = (t_val lcv + t_val (ecost y))%lex →
    improves (elab (MkExpl vis len op)) (name (to y)) (t_val c) →
    let X' := MkExpl (<[to y := Some r]> vis) (<[to y := c]> len) (to y :: op) in
    ∃ todo', einv X' todo' (scan_edges l) ∧ (∀ v, v ∈ todo' ↔ v ∈ name <$> eopen X')
      ∧ elength X' !! curr = Some lcv ∧ elab X' curr = Some (t_val lcv)
      ∧ (emeasure X' <= emeasure (MkExpl vis len op))%nat) as Himp.
  { intros c Hc Himp X'.
    pose proof (elab_update (MkExpl vis len op) (to y) r c (to y :: op) Bt Lv Ll) as Hrel.
    pose proof (epar_update (MkExpl vis len op) (to y) r y c (to y :: op) Bt Lv Ey) as Hpar.
    simpl in Hrel, Hpar. fold X' in Hrel, Hpar. fold d in Hpar.
    assert (improves (elab (MkExpl vis len op)) (dst d) (t_val lcv + w d)) as Himp'
      by (simpl; by rewrite <- Hc).
    exists (name (to y) :: todo). split; [constructor|split; [|split; [|split]]].
    - simpl. by rewrite length_insert.
    - simpl. by rewrite length_insert.
    - simpl. intros v [->|Hv]%elem_of_cons; [done | auto].
    - simpl. intros v r'. destruct (decide (v = to y)) as [->|Hv].
      + rewrite list_lookup_insert_eq by lia. by intros [= <-].
      + rewrite list_lookup_insert_ne by done. apply Lold.
    - eapply lc_ext; [exact Hrel|]. rewrite Hc.
      apply (lc_improve _ _ split_nonneg _ _ _ d _ (t_val lcv) Llc Hd Hsrc Himp').
      intros v. by rewrite elem_of_cons.
    - eapply pinv_ext; [exact Hrel | exact Hpar|]. rewrite Hc.
      apply (pinv_improve _ _ split_nonneg _ _ d (t_val lcv) Lpar Hd Hsrc Himp'). apply name_ne.
    - intros v. simpl. by rewrite !elem_of_cons, Htodo.
    - simpl. rewrite list_lookup_insert_ne by congruence. done.
    - rewrite <- Hrel. unfold relabel. rewrite decide_False; [done|].
      unfold name. destruct (decide _); [unfold back; lia | congruence].
    - unfold emeasure. simpl. rewrite <- (unused_ext _ _ _ _ _ Hrel), Hc.
      pose proof (improve_unused _ _ split_nonneg (S n_) _ _ _ d (t_val lcv) Llc Hd Hsrc Himp') as Hun.
      simpl in Hun. specialize (Hun ltac:(pose proof u_lt; lia)).
      assert (∀ z, z ∈ split_graph → (dst z < S n_)%nat) as Hbnd.
      { intros z (r' & z' & Hr' & Ez & ->)%elem_of_split. simpl.
        destruct (old_edge r' Hr') as (_ & _ & z'' & Hz & _ & _ & Bz & _).
        assert (z'' = z') as -> by (destruct Hz; congruence).
        unfold name, back. destruct (decide _); lia. }
      specialize (Hun Hbnd). lia. }
  assert (wp t_err (λ b : bool, if b then improves (elab (MkExpl vis len op)) (name (to y)) (t_val lcv + t_val (ecost y))
             else relaxed (elab (MkExpl vis len op)) d)
    (match ov with None => Ok true | Some _ =>
        let! ln := at_ len (to y) in let! c := t_add lcv (ecost y) in Ok (t_gt ln c) end)) as Hb.
  { destruct ov as [r0|]; simpl.
    - apply wp_bind. eapply at_wp; [exact Hln|]. apply wp_bind.
      eapply wp_mono; [apply t_add_val|]. intros c Hc. simpl in Hc.
      destruct (t_gt ln c) eqn:Hgt.
      + unfold improves. rewrite Hdst, <- Hc. by apply t_gt_val.
      + intros c1. rewrite Hsrc. intros [= <-]. exists (t_val ln). split; [done|]. simpl.
        rewrite <- Hc. apply lle_not_lt. rewrite <- t_gt_val. by rewrite Hgt.
    - unfold improves. by rewrite Hdst. }
  apply wp_bind. eapply wp_mono; [exact Hb|]. intros [|] Hbb.
  - apply wp_bind, upd_wp; [lia|]. apply wp_bind. eapply wp_mono; [apply t_add_val|].
    intros c Hc. simpl in Hc. apply wp_bind, upd_wp; [lia|]. simpl.
    apply Himp; [done | by rewrite Hc].
  - simpl. exists todo. split; [|done]. constructor; try done. by eapply lc_skip.
Qed.

(** Scanning the start a second time changes nothing. *)
Lemma expl_scan_noop lcv r X todo :
  r ∈ addedEdges (graph g) → leaves (store g) u_ r → einv X todo [] → u_ ∉ todo →
  elength X !! u_ = Some lcv → (lzero <= t_val lcv)%lex →
  wp t_err (λ X', X' = X) (expl_scan g e x u_ X r).
Proof.
  intros Hr Hlv HX Hu Hlc Hpos. unfold expl_scan.
  destruct (Nat.eqb_spec r e) as [->|_]; [done|].
  unfold leaves in Hlv. destruct (edges (store g) !! r) as [y|] eqn:Ey; [|done]. injection Hlv as Hcurr.
  apply wp_bind. eapply at_wp; [exact Ey|].
  destruct (Nat.ltb_spec (setTime x) (setTime y)) as [Hlt|Hle]; [done|].
  assert (r ∈ old) as Hold by (apply list_elem_of_filter; rewrite (time_lookup _ _ _ Ey); done).
  destruct (old_edge r Hold) as (_ & _ & y' & Hy & _ & Bf & Bt & Hloop & Bo).
  assert (y' = y) as -> by (destruct Hy; congruence).
  pose proof HX as [Lv Ll Lo Lold Llc Lpar].
  apply wp_bind, wp_check; [apply bool_decide_eq_true, (mi_asgn g Hg r), Hr|].
  destruct (lookup_lt_is_Some_2 (evisited X) (to y)) as [ov Hov]; [lia|].
  destruct (lookup_lt_is_Some_2 (elength X) (to y)) as [ln Hln]; [lia|].
  apply wp_bind. eapply at_wp; [exact Hov|]. apply wp_bind. eapply at_wp; [exact Hlc|].
  destruct (lc_relaxed _ _ _ _ _ Llc (redirect (dedge_of y))) with (c := lzero) as (c' & Ec' & Hle').
  { apply elem_of_split. eauto. }
  { simpl. by rewrite Hcurr. }
  { apply not_elem_of_nil. }
  { simpl. unfold elab. by rewrite decide_True. }
  simpl in Ec', Hle'. unfold elab in Ec'. rewrite decide_False in Ec' by apply name_ne.
  rewrite unname_name, Hov in Ec' by done. destruct ov as [r0|]; [|done].
  rewrite Hln in Ec'. simpl in Ec'. injection Ec' as Ec'.
  apply wp_bind, wp_bind. eapply at_wp; [exact Hln|]. apply wp_bind.
  eapply wp_mono; [apply t_add_val|]. intros c Hc. simpl in *.
  destruct (t_gt ln c) eqn:Hgt; [|done]. exfalso. apply t_gt_val in Hgt.
  rewrite Hc, Ec' in Hgt. lex.
Qed.

Definition X0 : Expl T := MkExpl (replicate n_ None) (replicate n_ t_zero) [u_].

Definition searching (X : Expl T) : Prop :=
  X = X0 ∨ ∃ todo, einv X todo [] ∧ (∀ v, v ∈ todo ↔ v ∈ name <$> eopen X).

(** What the search leaves for the walk back. *)
Record found (X : Expl T) : Prop := {
  fd_visited : length (evisited X) = n_;
  fd_old : ∀ v r, evisited X !! v = Some (Some r) → r ∈ old;
  fd_par : pinv split_graph u_ (elab X) (epar X);
  fd_label : ∃ c, elab X (to x) = Some c ∧ (c <= t_val (ecost x))%lex;
}.

Lemma X0_lab v : relabel (λ _, None) u_ lzero v = elab X0 v.
Proof.
  unfold relabel, elab. destruct (decide _); [done|]. simpl.
  destruct (replicate n_ None !! unname v) as [o|] eqn:E; [|done].
  by apply lookup_replicate in E as [-> _].
Qed.
Lemma X0_par v : None = epar X0 v.
Proof.
  unfold epar. destruct (decide _); [done|]. simpl.
  destruct (replicate n_ None !! unname v) as [o|] eqn:E; [|done].
  by apply lookup_replicate in E as [-> _].
Qed.

Lemma to_not_u : to x ≠ u_.
Proof. intros E. by apply (listed_no_loop g e x Hg Hx). Qed.
Lemma name_to : name (to x) = to x.
Proof. unfold name. rewrite decide_False; [done | apply to_not_u]. Qed.
Lemma unname_to : unname (to x) = to x.
Proof.
  unfold unname, back. rewrite decide_False; [done|]. destruct Hx as (_ & _ & Ht & _). unfold n_. lia.
Qed.

(** There is an edge in the graph, so the start has an adjacency list. *)
Lemma u_out : (u_ < length (outgoing (graph g)))%nat.
Proof.
  destruct split_implied as (p & Hp & _). destruct p as [|d p].
  - apply path_nil_inv in Hp. by destruct to_not_u.
  - apply path_cons_inv in Hp as (E & Hd & _). apply elem_of_split in Hd as (r & y & Hr & Ey & ->).
    destruct (old_edge r Hr) as (Ha & _).
    destruct (gw_added _ _ (mw_graph g (mi_wf g Hg)) r Ha) as (y' & Ey' & Hf & _).
    assert (y' = y) as -> by congruence. simpl in E. by rewrite E.
Qed.

Lemma outgoing_scan curr l r : outgoing (graph g) !! curr = Some l → r ∈ l →
  r ∈ addedEdges (graph g) ∧ leaves (store g) curr r.
Proof.
  intros Hl Hr. rewrite (gw_out _ _ (mw_graph g (mi_wf g Hg)) _ _ Hl) in Hr.
  apply list_elem_of_filter in Hr as [? ?]. done.
Qed.

Lemma scan_all curr l : outgoing (graph g) !! curr = Some l →
  ∀ d, d ∈ split_graph → src d = curr → d ∈ scan_edges l.
Proof.
  intros Hl d (r & y & Hr & Ey & ->)%elem_of_split Hs. simpl in Hs. unfold scan_edges.
  apply list_elem_of_fmap. eexists. split; [done|]. apply elem_of_refs_graph. exists r, y.
  split; [|done]. apply list_elem_of_filter in Hr as [Ht Ha]. apply list_elem_of_filter.
  split; [done|]. rewrite (gw_out _ _ (mw_graph g (mi_wf g Hg)) _ _ Hl).
  apply list_elem_of_filter. split; [|done]. unfold leaves. rewrite Ey. simpl. congruence.
Qed.

(** The scan of a whole adjacency list. *)
Lemma expl_scan_all curr l lcv X todo : outgoing (graph g) !! curr = Some l →
  einv X todo (scan_edges l) → elength X !! curr = Some lcv → elab X curr = Some (t_val lcv) →
  (∀ v, v ∈ todo ↔ v ∈ name <$> eopen X) →
  wp t_err (λ X', (∃ todo', einv X' todo' [] ∧ (∀ v, v ∈ todo' ↔ v ∈ name <$> eopen X'))
                  ∧ (emeasure X' <= emeasure X)%nat)
    (foldM (expl_scan g e x curr) X l).
Proof.
  intros Hl HX Hlc Hlab Htodo. eapply wp_mono.
  - apply foldM_wp with (I := λ _ post X', ∃ todo', einv X' todo' (scan_edges post)
        ∧ (∀ v, v ∈ todo' ↔ v ∈ name <$> eopen X') ∧ elength X' !! curr = Some lcv
        ∧ elab X' curr = Some (t_val lcv) ∧ (emeasure X' <= emeasure X)%nat).
    + by exists todo.
    + intros pre r post X' Hsplit (todo' & H1 & H2 & H3 & H4 & H5).
      destruct (outgoing_scan curr l r Hl) as [Ha Hlv];
        [rewrite Hsplit, elem_of_app, elem_of_cons; auto|].
      eapply wp_mono; [by apply (expl_scan_wp curr lcv r post X' todo')|].
      intros X'' (todo'' & ? & ? & ? & ? & ?). exists todo''. repeat (split; [done|]). lia.
  - intros X' (todo' & H1 & H2 & _ & _ & H5). split; [|done]. exists todo'. done.
Qed.

Lemma expl_body_wp X : searching X →
  wp t_err (λ r, match r with
                 | inl X' => searching X' ∧ (emeasure X' < emeasure X)%nat
                 | inr X' => found X'
                 end) (expl_body g e x X).
Proof.
  intros [->|(todo & HX & Htodo)].
  - (* the first round *)
    unfold expl_body. simpl. pose proof u_lt as Hu. pose proof u_out as Huo.
    apply wp_bind. eapply at_wp; [apply lookup_replicate_2; exact Hu|].
    rewrite (proj2 (Nat.eqb_neq u_ (to x))) by (intros E; by destruct to_not_u). simpl.
    destruct (lookup_lt_is_Some_2 _ _ Huo) as [l Hl].
    apply wp_bind. eapply at_wp; [exact Hl|].
    apply wp_bind. set (X1 := MkExpl _ _ _).
    eapply wp_mono; [apply (expl_scan_all u_ l t_zero X1 []); try done|].
    + constructor; simpl.
      * apply length_replicate.
      * apply length_replicate.
      * by intros v ?%elem_of_nil.
      * intros v r Hr. by apply lookup_replicate in Hr as [? _].
      * eapply lc_pop; [eapply lc_ext; [|apply lc_start]; apply X0_lab| | |].
        -- intros v Hv. apply list_elem_of_singleton in Hv as ->. by left.
        -- by intros v ?%elem_of_nil.
        -- by apply scan_all.
      * eapply pinv_ext; [| |apply pinv_start]; [apply X0_lab | apply X0_par].
    + simpl. apply lookup_replicate_2. done.
    + unfold elab. rewrite decide_True by done. by rewrite t_zero_val.
    + intros X' [Hs Hm]. simpl. split; [by right|]. unfold emeasure in Hm at 2.
      unfold emeasure at 2. simpl in *.
      assert (elab X1 = elab X0) as E by done. rewrite E in Hm. lia.
  - pose proof HX as [Lv Ll Lo Lold Llc Lpar]. unfold expl_body.
    destruct X as [vis len op]. simpl in *. destruct op as [|curr rest].
    + (* nothing left *)
      simpl. constructor; try done.
      destruct split_implied as (p & Hp & Hc).
      assert (lc split_graph u_ (elab (MkExpl vis len [])) [] []) as Hlc.
      { destruct todo as [|v todo]; [done|]. exfalso.
        apply (not_elem_of_nil (A := nat) v). apply (Htodo v). by left. }
      pose proof (lc_done _ _ _ (to x) Hlc) as Hd.
      destruct (elab _ (to x)) as [c|]; [|by destruct (Hd p)].
      destruct Hd as [_ Hd]. exists c. split; [done|]. by eapply lle_trans; [apply Hd|].
    + assert (name curr ∈ todo) as Hin by (apply Htodo; by left).
      destruct (lc_todo _ _ _ _ _ Llc _ Hin) as [cc Hcc].
      assert (curr < n_)%nat as Bc.
      { specialize (Lo curr ltac:(by left)). pose proof (gw_vert _ _ (mw_graph g (mi_wf g Hg))).
        unfold n_. lia. }
      assert (∃ r0 lcv, vis !! curr = Some (Some r0) ∧ len !! curr = Some lcv ∧ cc = t_val lcv)
        as (r0 & lcv & Hvc & Hlc & ->).
      { unfold elab in Hcc. rewrite decide_False in Hcc by apply name_ne.
        rewrite unname_name in Hcc by done. simpl in Hcc.
        destruct (vis !! curr) as [[r0|]|]; try done. destruct (len !! curr); [|done].
        injection Hcc as <-. eauto. }
      apply wp_bind. eapply at_wp; [exact Hlc|].
      destruct ((curr =? to x)%nat && t_le lcv (ecost x)) eqn:Ebreak.
      { apply andb_true_iff in Ebreak as [->%Nat.eqb_eq Hle%t_le_val]. simpl.
        constructor; try done. rewrite name_to in Hcc. exists (t_val lcv). done. }
      destruct (lookup_lt_is_Some_2 (outgoing (graph g)) curr) as [l Hl]; [apply Lo; by left|].
      apply wp_bind. eapply at_wp; [exact Hl|]. apply wp_bind.
      set (X1 := MkExpl vis len rest).
      assert (∀ ex, (∀ d, d ∈ split_graph → src d = name curr → d ∈ ex) →
        einv X1 (name <$> rest) ex) as HX1.
      { intros ex Hex. constructor; try done.
        - intros v Hv. apply Lo. by right.
        - eapply lc_pop; [exact Llc| | |exact Hex].
          + intros v Hv. apply Htodo in Hv. simpl in Hv. by apply elem_of_cons in Hv.
          + intros v Hv. apply Htodo. simpl. by right. }
      destruct (decide (curr = u_)) as [->|Hcu].
      * (* the start again *)
        assert (einv X1 (name <$> rest) []) as HX2.
        { apply HX1. intros d (r & y & Hr & Ey & ->)%elem_of_split. simpl. intros Hs. exfalso.
          destruct (old_edge r Hr) as (_ & _ & y' & Hy & _ & Bf & _).
          assert (y' = y) as -> by (destruct Hy; congruence).
          unfold name in Hs. rewrite decide_True in Hs by done. unfold back in Hs. lia. }
        assert (lzero <= t_val lcv)%lex as Hpos.
        { destruct (lc_label_path _ _ _ _ _ _ _ Llc Hcc) as (p & Hp & <-).
          destruct (split_path _ _ _ Hp) as (q & Hq & <-).
          { unfold back. pose proof u_lt. lia. }
          rewrite unname_name in Hq by done. by apply old_nonneg in Hq. }
        eapply wp_mono.
        -- apply foldM_wp with (I := λ _ _ X', X' = X1); [done|].
           intros pre r post X' Hsplit ->.
           destruct (outgoing_scan u_ l r Hl) as [Ha Hlv];
             [rewrite Hsplit, elem_of_app, elem_of_cons; auto|].
           apply (expl_scan_noop lcv r X1 (name <$> rest)); try done.
           intros (v & E & _)%list_elem_of_fmap. by apply (name_ne v).
        -- intros X' ->. simpl. split.
           ++ right. by exists (name <$> rest).
           ++ unfold emeasure. simpl. assert (elab X1 = elab (MkExpl vis len (u_ :: rest))) as -> by done. lia.
      * assert (name curr = curr) as En by (unfold name; by rewrite decide_False).
        rewrite En in *.
        eapply wp_mono; [apply (expl_scan_all curr l lcv X1 (name <$> rest)); try done|].
        -- apply HX1. by apply scan_all.
        -- intros X' [Hs Hm]. simpl. split; [by right|].
           unfold emeasure in Hm at 2. unfold emeasure at 2. simpl in *.
           assert (elab X1 = elab (MkExpl vis len (curr :: rest))) as E by done. rewrite E in Hm. lia.
Qed.

(** ** The walk back *)

Lemma backtrack_ok X v p fuel acc o : found X → chain u_ (epar X) v p → v ≠ u_ → (v < n_)%nat →
  evisited X !! v = Some o → (length p <= fuel)%nat →
  ∃ rs l, backtrack fuel g x X o acc = Ok (acc ++ l)
    ∧ Forall2 (λ r a, getAssignment (mapper g) r = Some a) rs l
    ∧ (∀ r, r ∈ rs → r ∈ old)
    ∧ path (refs_graph (store g) rs) u_ p v.
Proof.
  intros HX Hc. revert fuel acc o. induction Hc as [|v d p Hv Hpar Hc IH]; [done|].
  intros fuel acc o _ Bv Ho Hf.
  rewrite length_app in Hf. simpl in Hf. destruct fuel as [|fuel]; [lia|].
  unfold epar in Hpar. rewrite decide_False in Hpar by done.
  assert (unname v = v) as Euv by (unfold unname, back; rewrite decide_False; [done | lia]).
  rewrite Euv, Ho in Hpar. destruct o as [r|]; [|done].
  pose proof (fd_old _ HX v r Ho) as Hr.
  destruct (old_edge r Hr) as (Ha & _ & y & Hy & _ & Bf & Bt & _).
  rewrite (proj1 Hy) in Hpar. injection Hpar as <-.
  apply (mi_asgn g Hg) in Ha as [a Ea].
  assert (to y = v) as Etv.
  { assert (dst (redirect (dedge_of y)) = v) as Ed.
    { assert (epar X v = Some (redirect (dedge_of y))) as Hp.
      { unfold epar. rewrite decide_False by done. rewrite Euv, Ho, (proj1 Hy). done. }
      by apply (pi_par _ _ _ _ (fd_par _ HX)) in Hp as (_ & ? & _). }
    simpl in Ed. unfold name in Ed. destruct (decide _); [unfold back in Ed; lia | done]. }
  assert (redirect (dedge_of y) = dedge_of y) as Ered.
  { unfold redirect, name, dedge_of. simpl. rewrite decide_False by congruence. done. }
  cbn [backtrack]. unfold getEdge, at_ at 1. rewrite (proj1 Hy). cbn [rbind]. rewrite Ea.
  destruct (Nat.eqb_spec (from y) (from x)) as [Efx|Efx].
  - exists [r], [a]. split; [done|]. split; [by constructor|]. split.
    + by intros r' ->%list_elem_of_singleton.
    + rewrite Ered. simpl in Hc. change (from y = u_) in Efx. rewrite Efx in Hc.
      rewrite (chain_unique _ _ _ _ _ Hc (chain_init u_ (epar X))). cbn [app].
      rewrite <- Efx, <- Etv. change (from y) with (src (dedge_of y)). change (to y) with (dst (dedge_of y)).
      apply path_one. apply elem_of_refs_graph. exists r, y. split; [by left|]. split; [apply Hy | done].
  - destruct (lookup_lt_is_Some_2 (evisited X) (from y)) as [o' Ho']; [rewrite (fd_visited _ HX); lia|].
    unfold at_. rewrite Ho'. cbn [rbind].
    destruct (IH fuel (acc ++ [a]) o') as (rs & l & E & HF & Hrs & Hp); try done; [lia|].
    exists (r :: rs), (a :: l). rewrite E, <- app_assoc. split; [done|].
    split; [by constructor|]. split.
    + intros r' [->|Hr']%elem_of_cons; auto.
    + rewrite Ered, <- Etv. change (to y) with (dst (dedge_of y)). constructor.
      * eapply path_mono; [|exact Hp]. intros d' (r' & y' & Hr' & Ey' & ->)%elem_of_refs_graph.
        apply elem_of_refs_graph. exists r', y'. split; [by right | done].
      * apply elem_of_refs_graph. exists r, y. split; [by left|]. split; [apply Hy | done].
Qed.

Lemma split_length : (length split_graph <= length (addedEdges (graph g)))%nat.
Proof.
  unfold split_graph, graph_at, refs_graph. rewrite length_fmap.
  etransitivity; [apply length_omap_le|]. apply length_filter.
Qed.

Lemma explain_search acc : getAssignment (mapper g) e = None →
  wp t_err (λ v, ∃ rs l, v = acc ++ l
      ∧ Forall2 (λ r a, getAssignment (mapper g) r = Some a) rs l
      ∧ (∀ r, r ∈ rs → r ∈ old)
      ∧ implied (refs_graph (store g) rs) (from x) (to x) (t_val (ecost x)))
    (findExplanation g e acc).
Proof.
  intros Hna. unfold findExplanation. apply wp_bind. eapply at_wp; [apply Hx|]. rewrite Hna.
  apply wp_bind. eapply wp_mono.
  - apply while_wp with (I := searching) (mu := emeasure) (P := found);
      [apply expl_body_wp | by left |].
    change (MkExpl _ _ _) with X0. unfold emeasure. simpl.
    pose proof (unused_count_bound split_graph u_ (S n_) (elab X0)) as H1.
    pose proof (search_fuel_enough (length (addedEdges (graph g))) (S n_)) as H2.
    pose proof (Nat.pow_le_mono_l (length split_graph + 1) (length (addedEdges (graph g)) + 1)
      (S n_)) as H3. pose proof split_length.
    fold n_ in *. unfold vertexNum. fold n_. simpl in *. lia.
  - intros X HX. pose proof (fd_label _ HX) as (c & Ec & Hle).
    destruct Hx as (_ & _ & Bt & _). fold n_ in Bt.
    destruct (lookup_lt_is_Some_2 (evisited X) (to x)) as [o Ho];
      [rewrite (fd_visited _ HX); lia|].
    apply wp_bind. eapply at_wp; [exact Ho|].
    destruct (pi_chain _ _ _ _ (fd_par _ HX) (to x) ltac:(eauto)) as [p Hp].
    assert (length p <= S n_)%nat as Hlen.
    { assert (NoDup (u_ :: (dst <$> p))) as Hnd.
      { eapply chain_nodup; [exact Hp|]. intros v d Hd.
        by apply (pi_par _ _ _ _ (fd_par _ HX)) in Hd as (_ & ? & _). }
      destruct (chain_path _ _ _ _ _ _ (fd_par _ HX) Hp) as [Hpath _].
      assert (length (u_ :: (dst <$> p)) <= length (seq 0 (S n_)))%nat as Hl.
      { apply submseteq_length, NoDup_submseteq; [done|]. intros v Hv. apply elem_of_seq.
        apply elem_of_cons in Hv as [->|Hv]; [pose proof u_lt; lia|].
        apply list_elem_of_fmap in Hv as (d & -> & Hd).
        eapply path_edges in Hd; [|exact Hpath]. apply elem_of_split in Hd as (r & y & Hr & Ey & ->).
        destruct (old_edge r Hr) as (_ & _ & y' & Hy & _ & _ & By & _).
        assert (y' = y) as -> by (destruct Hy; congruence). simpl.
        unfold name, back. destruct (decide _); lia. }
      rewrite length_seq in Hl. simpl in Hl. rewrite length_fmap in Hl. lia. }
    destruct (backtrack_ok X (to x) p (S n_) acc o HX Hp to_not_u Bt Ho Hlen)
      as (rs & l & E & HF & Hrs & Hpath).
    unfold vertexNum. fold n_. rewrite E. simpl. exists rs, l. split; [done|]. split; [done|].
    split; [done|]. exists p. split; [done|].
    destruct (chain_path _ _ _ _ _ _ (fd_par _ HX) Hp) as [_ Hcost].
    eapply lle_trans; [by apply Hcost | done].
Qed.

End explain.

(** [findExplanation] of an edge that is true. *)
Lemma findExplanation_wp (g : STPGraphManager T) e x acc : mgr_inv g →
  listed (store g) (mapper g) e x → setTime x ≠ 0%nat →
  wp t_err (λ v, ∃ rs l, v = acc ++ l
      ∧ Forall2 (λ r a, getAssignment (mapper g) r = Some a) rs l
      ∧ (∀ r, r ∈ rs → r ∈ addedEdges (graph g) ∧ (time (store g) r <= setTime x)%nat)
      ∧ implied (refs_graph (store g) rs) (from x) (to x) (t_val (ecost x)))
    (findExplanation g e acc).
Proof.
  intros Hg Hx Ht. destruct (getAssignment (mapper g) e) as [a|] eqn:Ea.
  - unfold findExplanation. apply wp_bind. eapply at_wp; [apply Hx|]. rewrite Ea.
    exists [e], [a]. split; [done|]. split; [by constructor|]. split.
    + intros r ->%list_elem_of_singleton. split; [apply (mi_asgn g Hg); eauto|].
      by rewrite (time_lookup _ _ _ (proj1 Hx)).
    + exists [dedge_of x]. rewrite cost_one. split; [|apply lle_refl].
      change (from x) with (src (dedge_of x)). change (to x) with (dst (dedge_of x)).
      apply path_one, elem_of_refs_graph. exists e, x. split; [by left|]. split; [apply Hx | done].
  - assert (e ∉ addedEdges (graph g)) as Hna
      by (intros Hin; apply (mi_asgn g Hg) in Hin as [? ?]; congruence).
    eapply wp_mono; [by apply (explain_search g e x)|].
    intros v (rs & l & -> & HF & Hrs & Himp). exists rs, l. split; [done|]. split; [done|].
    split; [|done]. intros r Hr. apply Hrs, list_elem_of_filter in Hr as [? ?]. done.
Qed.

End stp.
