(* ===== verification/StpModel.v ===== *)
(** * Atoms of difference logic

    What the atoms mean as terms, that [parseRef] reads this meaning off, and
    that [declareAtom] gives every atom an edge with this meaning.
    The second part is about models, computed by the algorithm of Bellman and
    Ford. *)
From stdpp Require Import gmap.
From S2P Require Import Prelude Gmp FastRational FastRationalFacts FastRationalInt Number Lex Delta DiffGraph StpNum Terms TSolver StpStore.
From S2P Require Import StpSearch StpInvariant StpSolver StpBacktrack.
From Stdlib Require Import Sorted Lia.

Section stp.
Context {T : Type} `{STPNum T}.
Context {N : Type} `{Number N} (logic : Logic N) (getValue_ : N → res T).

(** ** The meaning of terms *)

Inductive num_value (ρ : PTRef → Qc) : PTRef → Qc → Prop :=
| nv_const t p c : logic t = Some p → symb p = SNumConst c → num_value ρ t (nval c)
| nv_var t p : logic t = Some p → symb p = SNumVar → num_value ρ t (ρ t)
| nv_times t p a b x y : logic t = Some p → symb p = STimes → args p = [a; b] →
    num_value ρ a x → num_value ρ b y → num_value ρ t (x * y)%Qc
| nv_plus t p a b x y : logic t = Some p → symb p = SPlus → args p = [a; b] →
    num_value ρ a x → num_value ρ b y → num_value ρ t (x + y)%Qc.

Definition leq_holds (ρ : PTRef → Qc) (t : PTRef) : Prop :=
  ∃ p a b x y, logic t = Some p ∧ symb p = SLeq ∧ args p = [a; b]
    ∧ num_value ρ a x ∧ num_value ρ b y ∧ (x <= y)%Qc.

Definition lit_holds (ρ : PTRef → Qc) (a : PtAsgn) : Prop :=
  match sgn a with l_True => leq_holds ρ (tr a) | _ => ¬ leq_holds ρ (tr a) end.

Lemma num_value_det ρ t x y : num_value ρ t x → num_value ρ t y → x = y.
Proof.
  intros Hx. revert y. induction Hx as [t p c E S|t p E S|t p a b x x' E S A Ha IHa Hb IHb
    |t p a b x x' E S A Ha IHa Hb IHb]; intros y Hy; inversion Hy; simplify_eq; try congruence.
  - assert (x = x0) as -> by (apply IHa; congruence). assert (x' = y0) as -> by (apply IHb; congruence). done.
  - assert (x = x0) as -> by (apply IHa; congruence). assert (x' = y0) as -> by (apply IHb; congruence). done.
Qed.

(** ** The shapes [parseRef] expects *)

Definition is_var (x : PTRef) : Prop := ∃ p, logic x = Some p ∧ symb p = SNumVar.

(** The term [-1 * y]. *)
Definition minus_var (m y : PTRef) : Prop :=
  ∃ p k pk c, logic m = Some p ∧ symb p = STimes ∧ args p = [k; y]
    ∧ logic k = Some pk ∧ symb pk = SNumConst c ∧ n_eq c (n_of_Z (-1)) = true ∧ is_var y.

(** The right-hand side [x - y]; either variable may be absent. *)
Inductive dl_rhs : PTRef → option PTRef → option PTRef → Prop :=
| rhs_pos x : is_var x → dl_rhs x (Some x) None
| rhs_neg m y : minus_var m y → dl_rhs m None (Some y)
| rhs_diff t p x m y : logic t = Some p → symb p = SPlus → args p = [x; m] ∨ args p = [m; x] →
    is_var x → minus_var m y → dl_rhs t (Some x) (Some y).

(** The atom [k ≤ x - y]. *)
Definition dl_atom (t : PTRef) (k : N) (x y : option PTRef) : Prop :=
  ∃ p l pl r, logic t = Some p ∧ symb p = SLeq ∧ args p = [l; r]
    ∧ logic l = Some pl ∧ symb pl = SNumConst k ∧ dl_rhs r x y.

Definition var_value (ρ : PTRef → Qc) (v : option PTRef) : Qc := from_option ρ 0%Qc v.

Lemma minus_var_value ρ m y : minus_var m y → num_value ρ m (- ρ y)%Qc.
Proof.
  intros (p & k & pk & c & E & S & A & Ek & Sk & Hc & py_ & Ey & Sy).
  replace (- ρ y)%Qc with (nval c * ρ y)%Qc.
  - eapply nv_times; [done | done | done | by eapply nv_const | by eapply nv_var].
  - apply n_eq_val in Hc. rewrite Hc, n_of_Z_val by (unfold_widths; lia).
    change (-1) with (- (1)). rewrite of_Z_opp, of_Z_1. ring.
Qed.

Lemma dl_rhs_value ρ r x y : dl_rhs r x y → num_value ρ r (var_value ρ x - var_value ρ y)%Qc.
Proof.
  intros [x' (p & E & S)|m y' Hm|t p x' m y' E S A (px_ & Ex & Sx) Hm]; simpl.
  - replace (ρ x' - 0)%Qc with (ρ x') by ring. by eapply nv_var.
  - replace (0 - ρ y')%Qc with (- ρ y')%Qc by ring. by apply minus_var_value.
  - destruct A as [A|A].
    + eapply nv_plus; [done | done | done | by eapply nv_var | by apply minus_var_value].
    + replace (ρ x' - ρ y')%Qc with (- ρ y' + ρ x')%Qc by ring.
      eapply nv_plus; [done | done | done | by apply minus_var_value | by eapply nv_var].
Qed.

(** The meaning of an atom is the inequality [y - x ≤ -k]. *)
Lemma dl_atom_holds ρ t k x y : dl_atom t k x y →
  leq_holds ρ t ↔ (var_value ρ y - var_value ρ x <= - nval k)%Qc.
Proof.
  intros (p & l & pl & r & E & S & A & El & Sl & Hr). pose proof (dl_rhs_value ρ r x y Hr) as Hv.
  assert (num_value ρ l (nval k)) as Hl by (by eapply nv_const). split.
  - intros (p' & a & b & u & v & E' & S' & A' & Ha & Hb & Hle).
    rewrite E in E'. injection E' as <-. rewrite A in A'. injection A' as <- <-.
    rewrite (num_value_det _ _ _ _ Ha Hl), (num_value_det _ _ _ _ Hb Hv) in Hle.
    qc_lra.
  - intros Hle. exists p, l, r, (nval k), (var_value ρ x - var_value ρ y)%Qc.
    repeat (split; [done|]). qc_lra.
Qed.

Lemma is_var_isNumVar x : is_var x → isNumVar logic x = Ok true.
Proof. intros (p & E & S). unfold isNumVar, getPterm. rewrite E. simpl. by rewrite S. Qed.

Lemma symb_tests t p : logic t = Some p → getPterm logic t = Ok p
  ∧ isLeq logic t = Ok (match symb p with SLeq => true | _ => false end)
  ∧ isPlus logic t = Ok (match symb p with SPlus => true | _ => false end)
  ∧ isTimes logic t = Ok (match symb p with STimes => true | _ => false end)
  ∧ isNumConst logic t = Ok (match symb p with SNumConst _ => true | _ => false end)
  ∧ isNumVar logic t = Ok (match symb p with SNumVar => true | _ => false end)
  ∧ getNumConst logic t = (match symb p with SNumConst c => Ok c | _ => Err Assertion_failed end).
Proof.
  intros E. unfold isLeq, isPlus, isTimes, isNumConst, isNumVar, getNumConst, getPterm. rewrite E. done.
Qed.

(** The part of [parseRef] that reads the negative variable. *)
Lemma parse_minus m y (u : option PTRef) : minus_var m y →
  (let! b := isTimes logic m in
   let! _ := check b in
   let! mulPt := getPterm logic m in
   let! m0 := arg mulPt 0 in
   let! b := isNumConst logic m0 in
   let! _ := check b in
   let! k := getNumConst logic m0 in
   let! _ := check (n_eq k (n_of_Z (-1))) in
   let! y := arg mulPt 1 in
   let! b := isNumVar logic y in
   let! _ := check b in
   Ok (u, Some y)) = Ok (u, Some y).
Proof.
  intros (p & k & pk & c & E & S & A & Ek & Sk & Hc & Hy).
  destruct (symb_tests m p E) as (E1 & _ & _ & E2 & _). rewrite E2, S. cbn [rbind check].
  rewrite E1. cbn [rbind]. unfold arg, at_. rewrite A. cbn [lookup list_lookup rbind].
  destruct (symb_tests k pk Ek) as (_ & _ & _ & _ & K1 & _ & K2). rewrite K1, Sk. cbn [rbind check].
  rewrite K2, Sk. cbn [rbind]. rewrite Hc. cbn [rbind check]. by rewrite (is_var_isNumVar y Hy).
Qed.

(** [parseRef] on such an atom. *)
Lemma parseRef_dl t k x y : dl_atom t k x y →
  parseRef logic getValue_ t = (let! c := getValue_ (n_neg k) in Ok (MkParsed x y c)).
Proof.
  intros (p & l & pl & r & E & S & A & El & Sl & Hr). unfold parseRef.
  destruct (symb_tests t p E) as (E1 & E2 & _). rewrite E1, E2, S. cbn [rbind check].
  unfold arg at 1, at_. rewrite A. cbn [lookup list_lookup rbind].
  destruct (symb_tests l pl El) as (_ & _ & _ & _ & L1 & _ & L2). rewrite L1, Sl. cbn [rbind check].
  rewrite L2, Sl. cbn [rbind]. unfold arg at 1, at_. rewrite A. cbn [lookup list_lookup rbind].
  assert (∀ m y, minus_var m y → isNumVar logic m = Ok false) as Hno.
  { intros m y' (mp & ? & ? & ? & Em & Sm & _). destruct (symb_tests m mp Em) as (_ & _ & _ & _ & _ & M & _).
    by rewrite M, Sm. }
  destruct Hr as [x' Hx|m y' Hm|t' p' x' m y' E' S' A' Hx Hm].
  - rewrite (is_var_isNumVar _ Hx). done.
  - rewrite (Hno m y' Hm). cbn [rbind]. pose proof Hm as (mp & ? & ? & ? & Em & Sm & _).
    destruct (symb_tests m mp Em) as (M1 & _ & M2 & _). rewrite M1. cbn [rbind]. rewrite M2, Sm. cbn [rbind].
    by rewrite (parse_minus m y' None Hm).
  - destruct (symb_tests t' p' E') as (T1 & _ & T2 & _ & _ & T3 & _).
    rewrite T3, S'. cbn [rbind]. rewrite T1. cbn [rbind]. rewrite T2, S'. cbn [rbind].
    assert ((let! r0 := arg p' 0 in let! v0 := isNumVar logic r0 in
      let! x := arg p' (if v0 : bool then 0%nat else 1%nat) in
      let! mul := arg p' (1 - (if v0 : bool then 0%nat else 1%nat)) in Ok (Some x, mul)) = Ok (Some x', m)) as ->.
    { unfold arg, at_. destruct A' as [-> | ->]; cbn [lookup list_lookup rbind].
      - by rewrite (is_var_isNumVar _ Hx).
      - by rewrite (Hno m y' Hm). }
    cbn [rbind]. by rewrite (parse_minus m y' (Some x') Hm).
Qed.

(** An atom the solver can represent: two distinct variables at most, and a
    constant its arithmetic holds exactly. *)
Definition atom_wf (t : PTRef) : Prop :=
  ∃ k x y c, dl_atom t k x y ∧ x ≠ y ∧ getValue_ (n_neg k) = Ok c
    ∧ t_val c = Lex (- nval k) 0 ∧ t_atom c.

(** ** The atoms of a state *)

Record atoms_ok (g : STPGraphManager T) : Prop := {
  ao_var : ∀ i v, vget (varToVertRef (mapper g)) i = Some v →
    v ≠ 0%nat ∧ ∃ var, termId logic var = Ok i ∧ vget (vertRefToVar (mapper g)) v = Some var;
  ao_vert : ∀ v var, vget (vertRefToVar (mapper g)) v = Some var →
    ∃ i, termId logic var = Ok i ∧ vget (varToVertRef (mapper g)) i = Some v;
  ao_atom : ∀ t e, getEdgeRef_leq logic (mapper g) t = Ok (Some e) →
    ∃ k x y c xe, dl_atom t k x y ∧ t_val c = Lex (- nval k) 0
      ∧ atom_edge logic g t (MkParsed x y c) e xe;
}.

(** The state while atoms are being declared. *)
Record decl_state (s : STPSolver T) : Prop := {
  ds_inv : decl_inv logic [] (graphMgr s);
  ds_atoms : atoms_ok (graphMgr s);
  ds_informed : ∀ t e, getEdgeRef_leq logic (mapper (graphMgr s)) t = Ok (Some e) →
    isInformed (base_ s) t = true;
  ds_all : ∀ t, isInformed (base_ s) t = true → ∃ e, getEdgeRef_leq logic (mapper (graphMgr s)) t = Ok (Some e);
  ds_asgn : inv_asgn s = None;
  ds_points : backtrack_points s = [];
  ds_ded : th_deductions (base_ s) = [] ∧ deductions_next (base_ s) = 0%nat
    ∧ deductions_lim (base_ s) = [] ∧ deductions_last (base_ s) = [];
}.

Lemma init_decl_state : decl_state STPSolver_init.
Proof.
  assert (∀ t e, getEdgeRef_leq logic STPMapper_init t ≠ Ok (Some e)) as Hno.
  { intros t e. unfold getEdgeRef_leq. by destruct (termId logic t). }
  constructor; try done.
  - apply STPSolver_init_decl.
  - constructor; [done | done|]. intros t e Ht. by apply Hno in Ht.
  - intros t e Ht. by apply Hno in Ht.
Qed.

(** Clearing a solver nothing is asserted in starts afresh. *)
Lemma clear_decl_state s : inv_asgn s = None → deductions (graphMgr s) = [] → decl_state (clearSolver s).
Proof.
  intros Hi Hd. pose proof init_decl_state as [D1 D2 D3 D4 D5 D6 D7].
  assert (graphMgr (clearSolver s) = graphMgr STPSolver_init) as E
    by (unfold clearSolver, graphMgr_clear, with_store_mapper; simpl; by rewrite Hd).
  constructor; rewrite ?E; done.
Qed.

Lemma declared_termId (g : STPGraphManager T) t e : getEdgeRef_leq logic (mapper g) t = Ok (Some e) →
  ∃ i, termId logic t = Ok i ∧ vget (leqToEdgeRef (mapper g)) i = Some e.
Proof. unfold getEdgeRef_leq. destruct (termId logic t) as [i|]; [|done]. intros [= E]. eauto. Qed.

Lemma dl_rhs_vars r x y : dl_rhs r x y → ∀ v, x = Some v ∨ y = Some v → isNumVar logic v = Ok true.
Proof.
  assert (∀ m y, minus_var m y → isNumVar logic y = Ok true) as Hm.
  { intros m y' (? & ? & ? & ? & _ & _ & _ & _ & _ & _ & Hy). by apply is_var_isNumVar. }
  intros [x' Hx|m y' Hy|t p x' m y' E S A Hx Hy] v [Ev|Ev]; simplify_eq; eauto using is_var_isNumVar.
Qed.

Lemma atom_edge_grown (g g' : STPGraphManager T) t p e x : grown logic g g' →
  getEdgeRef_leq logic (mapper g') t = getEdgeRef_leq logic (mapper g) t →
  atom_edge logic g t p e x → ∃ x', atom_edge logic g' t p e x'.
Proof.
  intros Hg Et (E & Hx & Hf & Ht & Hc). destruct (gr_listed _ _ _ Hg e x Hx) as (x' & Hx' & F1 & F2 & F3 & _).
  exists x'. unfold atom_edge. rewrite Et, F1, F2, F3. split; [done|]. split; [done|].
  split; [by apply (gr_vert _ _ _ Hg)|]. split; [by apply (gr_vert _ _ _ Hg) | done].
Qed.

Hypothesis Hids : ids_unique logic.

(** [declareAtom] never fails on such an atom, and keeps the others. *)
Lemma declareAtom_ok s t : decl_state s → atom_wf t →
  ∃ s', declareAtom logic getValue_ s t = Ok s' ∧ decl_state s'
    ∧ (∃ e, getEdgeRef_leq logic (mapper (graphMgr s')) t = Ok (Some e))
    ∧ (∀ t' e, getEdgeRef_leq logic (mapper (graphMgr s)) t' = Ok (Some e) →
         getEdgeRef_leq logic (mapper (graphMgr s')) t' = Ok (Some e)).
Proof.
  intros Hs (k & x & y & c & Hat & Hne & Hc & Hcv & Hca). pose proof Hs as [D1 D2 D3 D4 D5 D6 D7].
  unfold declareAtom. destruct (isInformed (base_ s) t) eqn:Ei.
  { exists s. split; [done|]. split; [done|]. split; [by apply D4 | done]. }
  rewrite (parseRef_dl t k x y Hat), Hc. cbn [rbind].
  pose proof Hat as (p & l & pl & r & Et & St & At & El & Sl & Hr).
  assert (∃ idx, termId logic t = Ok idx) as [idx Hidx] by (unfold termId, getPterm; rewrite Et; simpl; eauto).
  assert (vget (leqToEdgeRef (mapper (graphMgr s))) idx = None) as Hnone.
  { destruct (vget _ idx) as [e|] eqn:Ee; [|done]. exfalso. rewrite (D3 t e) in Ei; [done|].
    unfold getEdgeRef_leq. rewrite Hidx. simpl. by rewrite Ee. }
  destruct (declareParsed_ok logic Hids (graphMgr s) t (MkParsed x y c) idx D1 Hidx Hnone)
    as (g' & Eg & D1' & Hgr & (e & xe & Hae) & Hother).
  { split; [done|]. split; [done|]. by eapply dl_rhs_vars. }
  simpl. rewrite Eg. cbn [rbind]. eexists. split; [done|].
  assert (∀ t', t' ≠ t → getEdgeRef_leq logic (mapper g') t' = getEdgeRef_leq logic (mapper (graphMgr s)) t')
    as Hsame.
  { intros t' Ht'. unfold getEdgeRef_leq. destruct (termId logic t') as [i|] eqn:Ei'; [|done]. cbn [rbind].
    rewrite Hother; [done|]. intros ->. apply Ht'. by eapply (termId_inj logic Hids). }
  split; [|split; [exists e; apply Hae|]].
  - constructor; simpl; try done.
    + constructor.
      * intros i v Hv. destruct (d_var _ _ _ D1' i v Hv) as (H1 & _ & H2). done.
      * intros v var Hv. by apply (d_vert _ _ _ D1').
      * intros t' e' Ht'. destruct (decide (t' = t)) as [->|Hnt].
        -- assert (e' = e) as -> by (destruct Hae as [He _]; congruence). exists k, x, y, c, xe. done.
        -- rewrite Hsame in Ht' by done.
           destruct (ao_atom _ D2 t' e' Ht') as (k' & x' & y' & c' & xe' & A1 & A2 & A3).
           destruct (atom_edge_grown _ _ _ _ _ _ Hgr (Hsame t' Hnt) A3) as (xe'' & A4).
           exists k', x', y', c', xe''. done.
    + intros t' e' Ht'. unfold isInformed, setInformed. simpl. apply bool_decide_eq_true_2.
      destruct (decide (t' = t)) as [->|Hnt]; [set_solver|]. rewrite Hsame in Ht' by done.
      apply D3, bool_decide_eq_true_1 in Ht'. set_solver.
    + intros t' Ht'. unfold isInformed, setInformed in Ht'. simpl in Ht'. apply bool_decide_eq_true_1 in Ht'.
      destruct (decide (t' = t)) as [->|Hnt]; [exists e; apply Hae|]. rewrite Hsame by done.
      apply D4. unfold isInformed. apply bool_decide_eq_true_2. set_solver.
  - intros t' e' Ht'. simpl. destruct (decide (t' = t)) as [->|Hnt]; [|by rewrite Hsame].
    exfalso. apply declared_termId in Ht' as (i & Hi & Hv). congruence.
Qed.

End stp.

(** * The model of the difference-logic solver

    [createModel] adds a vertex with an edge of cost 0 to every vertex in use
    and runs Bellman-Ford from it; the negated distances, shifted so that the
    vertex [zero] gets 0, satisfy every constraint.  The vertex and its edges
    stay in the store the model shares with the solver, without any effect on
    the solver's invariant. *)

Section stp.
Context {T : Type} `{STPNum T}.

Implicit Types (s : STPStore T) (g : STPGraphManager T).

(** ** Stores with more vertices and edges *)

Definition store_ext s s' : Prop :=
  (vertices s <= vertices s')%nat
  ∧ ∃ l, edges s' = edges s ++ l ∧ ∀ x, x ∈ l → setTime x = 0%nat.

#[export] Instance store_ext_preorder : PreOrder store_ext.
Proof.
  split.
  - intros s. split; [done|]. exists []. rewrite app_nil_r. split; [done|]. by intros x ?%elem_of_nil.
  - intros s s' s'' [H1 (l & E1 & L1)] [H2 (l' & E2 & L2)]. split; [lia|].
    exists (l ++ l'). split; [by rewrite E2, E1, app_assoc|]. intros x [?|?]%elem_of_app; auto.
Qed.

Lemma store_ext_lookup s s' r x : store_ext s s' → edges s !! r = Some x → edges s' !! r = Some x.
Proof. intros [_ (l & -> & _)]. apply lookup_app_l_Some. Qed.

Lemma store_ext_time s s' r : store_ext s s' → time s' r = time s r.
Proof.
  intros [_ (l & E & Hl)]. unfold time. rewrite E.
  destruct (edges s !! r) as [x|] eqn:Ex.
  - by rewrite (lookup_app_l_Some _ _ _ _ Ex).
  - rewrite lookup_app_r by (by apply lookup_ge_None).
    destruct (l !! _) as [x|] eqn:El; [|done]. simpl. by eapply Hl, list_elem_of_lookup_2.
Qed.

Lemma refs_graph_ext s s' l : store_ext s s' → (∀ r, r ∈ l → is_Some (edges s !! r)) →
  refs_graph s' l = refs_graph s l.
Proof.
  intros Hs Hl. unfold refs_graph. induction l as [|r l IH]; csimpl; [done|].
  destruct (Hl r ltac:(by left)) as [x Hx]. rewrite (store_ext_lookup _ _ _ _ Hs Hx), Hx. simpl.
  f_equal. apply IH. intros r' ?. apply Hl. by right.
Qed.

Lemma graph_wf_ext s s' gr : store_ext s s' → graph_wf s gr → graph_wf s' gr.
Proof.
  intros Hs [G1 G2 G3 G4 G5].
  assert (∀ r, r ∈ addedEdges gr → edges s' !! r = edges s !! r) as Hlk.
  { intros r Hr. destruct (G3 r Hr) as (x & Ex & _). by rewrite Ex, (store_ext_lookup _ _ _ _ Hs Ex). }
  constructor.
  - done.
  - destruct Hs. lia.
  - intros r Hr. destruct (G3 r Hr) as (x & Ex & ?). exists x. by rewrite Hlk.
  - intros v l Hl. rewrite (G4 v l Hl). apply filter_ext_in. intros r Hr. unfold leaves. by rewrite Hlk.
  - intros v l Hl. rewrite (G5 v l Hl). apply filter_ext_in. intros r Hr. unfold enters. by rewrite Hlk.
Qed.

Section ext.
Context (g : STPGraphManager T) (s' : STPStore T).
Hypothesis Hg : mgr_inv g.
Hypothesis Hs : store_ext (store g) s'.

Lemma listed_ext r x : listed s' (mapper g) r x ↔ listed (store g) (mapper g) r x.
Proof.
  assert (∀ r x, listed (store g) (mapper g) r x → listed s' (mapper g) r x) as Hup.
  { intros r' y (E & H1 & H2 & H3). split; [by eapply store_ext_lookup|].
    destruct Hs. split; [lia|]. split; [lia | done]. }
  split; [|apply Hup]. intros Hx.
  destruct (mw_listed g (mi_wf g Hg) r) as (y & Hy); [by eapply listed_registered|].
  assert (y = x) as -> by (destruct (Hup r y Hy), Hx; congruence). done.
Qed.

Lemma added_defined r : r ∈ addedEdges (graph g) → is_Some (edges (store g) !! r).
Proof. intros Hr. destruct (gw_added _ _ (mw_graph g (mi_wf g Hg)) r Hr) as (x & -> & _). eauto. Qed.

Lemma added_at_ext t : added_at (with_store_mapper g s' (mapper g)) t = added_at g t.
Proof. apply list_filter_iff. intros r. simpl. by rewrite (store_ext_time _ _ _ Hs). Qed.

Lemma graph_at_ext t : graph_at (with_store_mapper g s' (mapper g)) t = graph_at g t.
Proof.
  unfold graph_at. rewrite added_at_ext. simpl. apply refs_graph_ext; [done|].
  intros r Hr. apply list_elem_of_filter in Hr as [_ Hr]. by apply added_defined.
Qed.

Lemma mgr_graph_ext : mgr_graph (with_store_mapper g s' (mapper g)) = mgr_graph g.
Proof. apply refs_graph_ext; [done|]. apply added_defined. Qed.

Lemma store_ext_inv : mgr_inv (with_store_mapper g s' (mapper g)).
Proof.
  assert (∀ (l : list EdgeRef), time s' <$> l = time (store g) <$> l) as Hf
    by (intros l; apply list_fmap_ext; intros; by apply store_ext_time).
  destruct Hg as [[M1 M2 M3] M4 M5 M6 M7 M8 M9 M10 M11 M12 M13 M14 M15].
  constructor; simpl; try done.
  - constructor; simpl; [by eapply graph_wf_ext| |done].
    intros r Hr. destruct (M2 r Hr) as (x & Hx). exists x. by apply listed_ext.
  - by rewrite mgr_graph_ext.
  - intros r x Hx%listed_ext. destruct (M5 r x Hx) as (n & y & E1 & E0 & Hy & E2).
    exists n, y. repeat (split; [done|]). split; [by apply listed_ext | done].
  - intros r x t Hx%listed_ext. rewrite graph_at_ext. by apply (M6 r).
  - by rewrite Hf.
  - intros r. rewrite (store_ext_time _ _ _ Hs). apply M8.
  - intros l r E. rewrite (store_ext_time _ _ _ Hs). by apply (M9 l).
  - intros r Hr. rewrite (store_ext_time _ _ _ Hs). by apply M10.
  - by rewrite Hf.
  - intros r Hr. rewrite (store_ext_time _ _ _ Hs). by apply M12.
  - intros r. rewrite (store_ext_time _ _ _ Hs). apply M14.
Qed.

End ext.

(** ** The starting point *)

Lemma elem_of_vertsInGraph s gr v : graph_wf s gr →
  v ∈ vertsInGraph gr ↔
  ∃ r x, r ∈ addedEdges gr ∧ edges s !! r = Some x ∧ (from x = v ∨ to x = v).
Proof.
  intros [G1 G2 G3 G4 G5]. unfold vertsInGraph. rewrite G1, Nat.min_id, Nat.eqb_refl, Nat.sub_diag.
  cbn [seq]. rewrite filter_nil, app_nil_r, list_elem_of_filter, elem_of_seq, orb_true_iff.
  assert (∀ o (P : EdgeRef → Prop), (∀ l, o = Some l → ∀ r, r ∈ l ↔ P r) →
    nonempty o = true ↔ is_Some o ∧ ∃ r, P r) as Hne.
  { intros [l|] P Hl; simpl; [|split; [done | by intros [[? ?] _]]]. destruct l as [|r l].
    - split; [done|]. intros [_ [r Hr]]. apply (Hl [] eq_refl) in Hr. by apply elem_of_nil in Hr.
    - split; [|done]. intros _. split; [eauto|]. exists r. apply (Hl _ eq_refl). by left. }
  rewrite (Hne (incoming gr !! v) (λ r, r ∈ addedEdges gr ∧ enters s v r)),
    (Hne (outgoing gr !! v) (λ r, r ∈ addedEdges gr ∧ leaves s v r)).
  2:{ intros l Hl r. rewrite (G4 v l Hl), list_elem_of_filter. tauto. }
  2:{ intros l Hl r. rewrite (G5 v l Hl), list_elem_of_filter. tauto. }
  rewrite !lookup_lt_is_Some, G1. unfold enters, leaves. split.
  - intros [[[_ (r & Hr & Hv)]|[_ (r & Hr & Hv)]] _]; destruct (edges s !! r) as [x|] eqn:Ex; simplify_eq/=;
      eauto 10.
  - intros (r & x & Hr & Ex & Hv). destruct (G3 r Hr) as (x' & Ex' & Hf & Ht).
    assert (x' = x) as -> by congruence. split; [|destruct Hv; lia].
    destruct Hv as [<-|<-]; [right | left]; (split; [done|]); exists r; by rewrite Ex.
Qed.

(** The starting point of the search. *)
Record started g (m : STPModel T) (start : VertexRef) : Prop := {
  sp_new : start = vertices (store g);
  sp_store : store_ext (store g) (mstore m);
  sp_wf : graph_wf (mstore m) (mgraph m);
  sp_graph : refs_graph (mstore m) (addedEdges (mgraph m))
    = mgr_graph g ++ ((λ v, DEdge start v lzero) <$> vertsInGraph (graph g));
  sp_added : addedEdges (graph g) ⊆ addedEdges (mgraph m);
  sp_out : vertsInGraph (graph g) ≠ [] → (start < length (outgoing (mgraph m)))%nat;
}.

Lemma createEdge_ext s a b (c : T) : store_ext s (snd (createEdge s a b c)).
Proof.
  split; [done|]. eexists. split; [done|]. by intros x ->%list_elem_of_singleton.
Qed.

Lemma addStartingPoint_ok g : mgr_inv g →
  ∃ start m, addStartingPoint (MkSTPModel (store g) (graph g) ∅) = Ok (start, m)
    ∧ started g m start ∧ valMap m = ∅.
Proof.
  intros Hg. unfold addStartingPoint, createVertex. cbn [mstore mgraph].
  set (start := vertices (store g)). set (s0 := MkSTPStore _ _).
  assert (store_ext (store g) s0) as Hs0.
  { split; [simpl; lia|]. exists []. simpl. rewrite app_nil_r. split; [done|]. by intros x ?%elem_of_nil. }
  pose proof (mw_graph g (mi_wf g Hg)) as Hwf.
  assert (wp no_error (λ '(s, gr), store_ext (store g) s ∧ (start < vertices s)%nat ∧ graph_wf s gr
      ∧ refs_graph s (addedEdges gr) = mgr_graph g ++ ((λ v, DEdge start v lzero) <$> vertsInGraph (graph g))
      ∧ addedEdges (graph g) ⊆ addedEdges gr
      ∧ (vertsInGraph (graph g) ≠ [] → (start < length (outgoing gr))%nat))
    (foldM (λ '(s, gr) v,
      let '(eRef, s) := createEdge s start v t_zero in
      let! gr := addEdge gr eRef start v in
      Ok (s, gr)) (s0, graph g) (vertsInGraph (graph g)))) as Hfold.
  { apply foldM_wp with (I := λ pre _ '(s, gr), store_ext (store g) s ∧ (start < vertices s)%nat ∧ graph_wf s gr
      ∧ refs_graph s (addedEdges gr) = mgr_graph g ++ ((λ v, DEdge start v lzero) <$> pre)
      ∧ addedEdges (graph g) ⊆ addedEdges gr
      ∧ (pre ≠ [] → (start < length (outgoing gr))%nat)).
    - split; [done|]. split; [simpl; lia|]. split; [by eapply graph_wf_ext|]. simpl. rewrite app_nil_r.
      split; [|done]. apply refs_graph_ext; [done | by apply added_defined].
    - intros pre v post [s gr] Epre (I1 & I2 & I3 & I4 & I5 & _).
      set (s' := snd (createEdge s start v t_zero)).
      assert (edges s' !! length (edges s) = Some (MkEdge start v None t_zero 0)) as Ee
        by (unfold s', createEdge; simpl; apply lookup_snoc_Some; by right).
      assert (v < vertices s')%nat as Bv.
      { assert (v ∈ vertsInGraph (graph g)) as Hv by (rewrite Epre, elem_of_app, elem_of_cons; auto).
        apply (elem_of_vertsInGraph _ _ _ Hwf) in Hv as (r & x & Hr & Ex & Hv).
        destruct (gw_added _ _ Hwf r Hr) as (x' & Ex' & Hf & Ht). assert (x' = x) as -> by congruence.
        pose proof (gw_vert _ _ Hwf). unfold s'. simpl. unfold start in I2. destruct Hv; lia. }
      pose proof (createEdge_ext s start v t_zero) as Hext. fold s' in Hext.
      destruct (addEdge_wf s' gr (length (edges s)) _ (graph_wf_ext _ _ _ Hext I3) Ee) as (gr' & E & Hwf' & Ha);
        [done | done|].
      cbn [from to] in E. unfold createEdge. fold (createEdge s start v t_zero). cbn [fst snd].
      rewrite E. cbn [rbind wp]. change (MkSTPStore _ _) with s'. split; [by etransitivity|]. split; [done|]. split; [done|].
      rewrite Ha. split; [|split].
      + assert (refs_graph s' (addedEdges gr ++ [length (edges s)])
          = refs_graph s (addedEdges gr) ++ [DEdge start v lzero]) as ->.
        { rewrite <- (refs_graph_ext s s' (addedEdges gr) Hext).
          - unfold refs_graph. rewrite omap_app. f_equal. cbn [omap list_omap]. rewrite Ee.
            cbn [fmap option_fmap option_map]. unfold dedge_of. cbn [from to ecost]. by rewrite t_zero_val.
          - intros r Hr. destruct (gw_added _ _ I3 r Hr) as (? & -> & _). eauto. }
        by rewrite I4, fmap_app, app_assoc.
      + intros r Hr. rewrite elem_of_app. left. by apply I5.
      + intros _. destruct (gw_added _ _ Hwf' (length (edges s))) as (x & Ex & Hf & _).
        { rewrite Ha, elem_of_app, list_elem_of_singleton. auto. }
        rewrite Ee in Ex. injection Ex as <-. done. }
  apply wp_total in Hfold as ([s gr] & -> & H1 & H2 & H3 & H4 & H5 & H6). cbn [rbind].
  eexists _, _. split; [done|]. split; [|done]. by constructor.
Qed.

(** ** Bellman-Ford *)

Definition bf_lab (dist : gmap VertexRef T) : labels := λ v, t_val <$> dist !! v.

Lemma bf_lab_insert dist v c x : relabel (bf_lab dist) v (t_val c) x = bf_lab (<[v := c]> dist) x.
Proof.
  unfold relabel, bf_lab. destruct (decide (x = v)) as [->|].
  - by rewrite lookup_insert_eq.
  - by rewrite lookup_insert_ne.
Qed.

Section bellman_ford.
Context (m : STPModel T) (start : VertexRef).
Let G := refs_graph (mstore m) (addedEdges (mgraph m)).
Hypothesis Hwf : graph_wf (mstore m) (mgraph m).
Hypothesis Hnn : nonneg G.
Hypothesis Hstart : (start < length (outgoing (mgraph m)))%nat.

Record bf_inv (st : gmap VertexRef T * list VertexRef) (ex : list dedge) : Prop := {
  bi_open : ∀ v, v ∈ snd st → (v < length (outgoing (mgraph m)))%nat;
  bi_lc : lc G start (bf_lab (fst st)) (snd st) ex;
}.

Definition bf_measure (st : gmap VertexRef T * list VertexRef) : nat :=
  (unused_count G start (vertices (mstore m)) (bf_lab (fst st)) + length (snd st))%nat.

Lemma G_dst d : d ∈ G → (dst d < vertices (mstore m))%nat.
Proof.
  intros (r & x & Hr & Ex & ->)%elem_of_refs_graph. destruct (gw_added _ _ Hwf r Hr) as (x' & Ex' & _ & Ht).
  assert (x' = x) as -> by congruence. pose proof (gw_vert _ _ Hwf). simpl. lia.
Qed.

Lemma bf_scan_wp v r x l st : r ∈ addedEdges (mgraph m) → edges (mstore m) !! r = Some x → from x = v →
  bf_inv st (dedge_of x :: l) → is_Some (bf_lab (fst st) v) →
  wp t_err (λ st', bf_inv st' l ∧ is_Some (bf_lab (fst st') v) ∧ (bf_measure st' <= bf_measure st)%nat)
    (bf_scan m v st r).
Proof.
  intros Hr Ex Hv [Ho Hlc] [cv Hcv]. destruct st as [dist op]. simpl in *.
  unfold bf_lab in Hcv. destruct (dist !! v) as [dv|] eqn:Edv; [|done]. injection Hcv as Hcv.
  apply wp_bind. eapply at_wp; [exact Ex|]. cbv beta. apply wp_bind. cbn [wp].
  apply wp_bind. eapply wp_mono; [apply t_add_val|]. intros c Hc. simpl in Hc. rewrite Hcv in Hc.
  assert (dedge_of x ∈ G) as Hin by (apply elem_of_refs_graph; eauto).
  assert (bf_lab dist (src (dedge_of x)) = Some cv) as Hsrc
    by (change (src (dedge_of x)) with (from x); unfold bf_lab; by rewrite Hv, Edv, <- Hcv).
  assert (improves (bf_lab dist) (to x) (t_val c) →
    bf_inv (<[to x := c]> dist, op ++ [to x]) l ∧ is_Some (bf_lab (<[to x := c]> dist) v)
    ∧ (bf_measure (<[to x := c]> dist, op ++ [to x]) <= bf_measure (dist, op))%nat) as Himp.
  { intros Himp. split; [constructor; simpl|split].
    - intros u. rewrite elem_of_app, list_elem_of_singleton. intros [?| ->]; [auto|].
      destruct (gw_added _ _ Hwf r Hr) as (x' & Ex' & _ & ?). assert (x' = x) as -> by congruence. done.
    - eapply lc_ext; [apply bf_lab_insert|]. rewrite Hc.
      apply (lc_improve _ _ Hnn _ op (op ++ [to x]) (dedge_of x)); [done | done | done | simpl; by rewrite <- Hc |].
      intros u. rewrite elem_of_app, list_elem_of_singleton. simpl. tauto.
    - rewrite <- bf_lab_insert. unfold relabel. destruct (decide _); [eauto|].
      unfold bf_lab. rewrite Edv. eauto.
    - unfold bf_measure. cbn [fst snd].
      rewrite <- (unused_ext _ _ _ _ _ (bf_lab_insert dist (to x) c)), Hc, length_app. simpl.
      pose proof (improve_unused _ _ Hnn (vertices (mstore m)) _ _ _ _ cv Hlc Hin Hsrc) as Hun.
      pose proof (gw_vert _ _ Hwf). simpl in Hun. rewrite <- Hc in *.
      specialize (Hun Himp ltac:(lia) G_dst). lia. }
  destruct (dist !! to x) as [dt|] eqn:Edt.
  - destruct (t_gt dt c) eqn:Hgt.
    + apply Himp. unfold improves, bf_lab. rewrite Edt. by apply t_gt_val.
    + simpl. split; [|split; [unfold bf_lab; rewrite Edv; eauto | done]].
      constructor; [done|]. eapply lc_skip; [exact Hlc|]. intros c1 Hc1. simpl in Hc1, Hsrc. rewrite Hsrc in Hc1. injection Hc1 as <-.
      exists (t_val dt). simpl. split; [unfold bf_lab; by rewrite Edt|].
      rewrite <- Hc. apply lle_not_lt. rewrite <- t_gt_val. by rewrite Hgt.
  - apply Himp. unfold improves, bf_lab. by rewrite Edt.
Qed.

Lemma bf_body_wp st : bf_inv st [] →
  wp t_err (λ r, match r with
                 | inl st' => bf_inv st' [] ∧ (bf_measure st' < bf_measure st)%nat
                 | inr dist => bf_inv (dist, []) []
                 end) (bf_body m st).
Proof.
  intros Hst. pose proof Hst as [Ho Hlc]. destruct st as [dist [|v op]]; simpl in *; [done|].
  destruct (lookup_lt_is_Some_2 (outgoing (mgraph m)) v) as [l Hl]; [apply Ho; by left|].
  apply wp_bind. eapply at_wp; [exact Hl|].
  destruct (lc_todo _ _ _ _ _ Hlc v ltac:(by left)) as [cv Hcv].
  apply wp_bind. eapply wp_mono.
  - apply foldM_wp with (I := λ pre post st', bf_inv st' (refs_graph (mstore m) post)
      ∧ is_Some (bf_lab (fst st') v) ∧ (bf_measure st' <= bf_measure (dist, op))%nat).
    + split; [|split; [by exists cv | done]]. constructor; simpl.
      * intros u Hu. apply Ho. by right.
      * eapply lc_pop; [exact Hlc | by intros u ?%elem_of_cons | by right |].
        intros d (r & x & Hr & Ex & ->)%elem_of_refs_graph Hs. simpl in Hs.
        apply elem_of_refs_graph. exists r, x. split; [|done].
        rewrite (gw_out _ _ Hwf v l Hl), list_elem_of_filter. unfold leaves. rewrite Ex. simpl. by rewrite Hs.
    + intros pre r post st' -> (I1 & I2 & I3).
      assert (r ∈ pre ++ r :: post) as Hin by (rewrite elem_of_app, elem_of_cons; auto).
      rewrite (gw_out _ _ Hwf v _ Hl), list_elem_of_filter in Hin. destruct Hin as [Hlv Hr].
      unfold leaves in Hlv. destruct (edges (mstore m) !! r) as [x|] eqn:Ex; [|done]. injection Hlv as Hlv.
      eapply wp_mono.
      * apply (bf_scan_wp v r x (refs_graph (mstore m) post)); try done.
        assert (refs_graph (mstore m) (r :: post) = dedge_of x :: refs_graph (mstore m) post) as <-; [|done].
        unfold refs_graph. cbn [omap list_omap]. by rewrite Ex.
      * intros st'' (? & ? & ?). split; [done|]. split; [done | lia].
  - intros st' (I1 & _ & I3). simpl. split; [done|]. unfold bf_measure in *. simpl in *. lia.
Qed.

(** The distances from the starting point. *)
Lemma bellmanFord_wp :
  wp t_err (λ m', mstore m' = mstore m ∧ mgraph m' = mgraph m
      ∧ ∀ v, match valMap m' !! v with
             | Some c => is_dist G start v (t_val c)
             | None => ∀ p, ¬ path G start p v
             end) (bellmanFord m start).
Proof.
  unfold bellmanFord. apply wp_bind. eapply wp_mono.
  - apply while_wp with (I := λ st, bf_inv st []) (mu := bf_measure) (P := λ dist, bf_inv (dist, []) []).
    + apply bf_body_wp.
    + constructor; simpl.
      * by intros v ->%list_elem_of_singleton.
      * eapply lc_ext; [|apply lc_start]. intros v. unfold relabel, bf_lab.
        destruct (decide (v = start)) as [->|].
        -- rewrite lookup_singleton_eq. simpl. by rewrite t_zero_val.
        -- by rewrite lookup_singleton_ne.
    + unfold bf_measure. simpl.
      pose proof (unused_count_bound G start (vertices (mstore m)) (bf_lab {[start := t_zero]})).
      pose proof (search_fuel_enough (length (addedEdges (mgraph m))) (vertices (mstore m))).
      pose proof (Nat.pow_le_mono_l (length G + 1) (length (addedEdges (mgraph m)) + 1)
        (vertices (mstore m))) as Hpow.
      assert (length G <= length (addedEdges (mgraph m)))%nat by apply length_omap_le.
      unfold vertexNum. lia.
  - intros dist [_ Hlc]. simpl in *. split; [done|]. split; [done|]. intros v.
    pose proof (lc_done _ _ _ v Hlc) as Hd. unfold bf_lab in Hd. by destruct (dist !! v).
Qed.

End bellman_ford.

(** ** Shifting *)

(** Every entry of a map through a function that may fail. *)
Lemma foldM_entries_wp (E : error → Prop) (f : VertexRef → T → res T) (P : T → T → Prop) (vals : gmap VertexRef T) :
  (∀ v d, vals !! v = Some d → wp E (P d) (f v d)) →
  wp E (λ l, ∀ v, match vals !! v, (list_to_map l : gmap VertexRef T) !! v with
                  | Some d, Some d' => P d d'
                  | None, None => True
                  | _, _ => False
                  end)
    (foldM (λ l '(v, d), let! d := f v d in Ok (l ++ [(v, d)])) [] (map_to_list vals)).
Proof.
  intros Hf. eapply wp_mono.
  - apply foldM_wp with (I := λ pre _ (l : list (VertexRef * T)),
      Forall2 (λ p q, fst p = fst q ∧ P (snd p) (snd q)) pre l).
    + constructor.
    + intros pre [v d] post l Epre HF. apply wp_bind. eapply wp_mono.
      * apply Hf. apply elem_of_map_to_list. rewrite Epre, elem_of_app, elem_of_cons. auto.
      * intros d' Hd'. simpl. apply Forall2_app; [done|]. by constructor.
  - intros l HF. simpl in HF. assert ((map_to_list vals).*1 = l.*1) as Hkeys.
    { induction HF as [|p q ps qs [Hk _] _ IH]; [done|]. by rewrite !fmap_cons, Hk, IH. }
    assert (NoDup (l.*1)) as Hnd by (rewrite <- Hkeys; apply NoDup_fst_map_to_list).
    intros v. destruct (vals !! v) as [d|] eqn:Ev.
    + apply elem_of_map_to_list, list_elem_of_lookup_1 in Ev as [i Hi].
      destruct (Forall2_lookup_l _ _ _ _ _ HF Hi) as ([v' d'] & Hi' & Hk & HP). simpl in *. subst v'.
      rewrite (elem_of_list_to_map_1 l v d'); [done | done | by eapply list_elem_of_lookup_2].
    + destruct (list_to_map l !! v) as [d'|] eqn:El; [|done].
      apply elem_of_list_to_map_2 in El. assert (v ∈ (map_to_list vals).*1) as Hin.
      { rewrite Hkeys. apply list_elem_of_fmap. by exists (v, d'). }
      apply list_elem_of_fmap in Hin as ([v' d] & Ek & Hin). simpl in Ek. subst v'.
      apply elem_of_map_to_list in Hin. congruence.
Qed.

Lemma shiftZero_wp (m : STPModel T) :
  wp t_err (λ m', mstore m' = mstore m ∧ mgraph m' = mgraph m
      ∧ (∀ v, is_Some (valMap m' !! v) ↔ is_Some (valMap m !! v))
      ∧ ∃ shift, (∀ v d d', valMap m !! v = Some d → valMap m' !! v = Some d' →
                    t_val d' = (t_val d - shift)%lex)
               ∧ (∀ d, valMap m' !! zero = Some d → t_val d = lzero))
    (shiftZero m).
Proof.
  unfold shiftZero. destruct (valMap m !! zero) as [shift|] eqn:Ez.
  - apply wp_bind. eapply wp_mono.
    { apply (foldM_entries_wp t_err (λ _ d, t_sub d shift) (λ d d', t_val d' = (t_val d - t_val shift)%lex)).
      intros v d _. apply t_sub_val. }
    cbv beta. intros l Hl. cbv beta in Hl. set (vals := list_to_map l : gmap VertexRef T) in *.
    pose proof (Hl zero) as Hz. rewrite Ez in Hz. destruct (vals !! zero) as [z|] eqn:Evz. 2: done.
    assert (t_val z = lzero) as Hz0 by (rewrite Hz; lex).
    assert (t_eq z t_zero = true) as -> by (apply t_eq_val; by rewrite t_zero_val). simpl.
    split; [done|]. split; [done|]. split.
    + intros v. specialize (Hl v). unfold is_Some. destruct (valMap m !! v), (vals !! v); naive_solver.
    + exists (t_val shift). split; [|intros d E; congruence].
      intros v d d' Ed Ed'. specialize (Hl v). by rewrite Ed, Ed' in Hl.
  - simpl. split; [done|]. split; [done|]. split; [done|]. exists lzero. split; [|congruence].
    intros v d d' E1 E2. assert (d' = d) as -> by congruence. lex.
Qed.

(** ** The model satisfies the constraints *)

(** The value of a vertex: [getValue] negates the distance. *)
Definition model_value (m : STPModel T) (v : VertexRef) : lexq :=
  (- from_option t_val lzero (valMap m !! v))%lex.

(** The constraints of the model's own graph. *)
Definition model_graph (m : STPModel T) : list dedge := refs_graph (mstore m) (addedEdges (mgraph m)).

Record model_ok g (m : STPModel T) : Prop := {
  mo_store : store_ext (store g) (mstore m);
  mo_wf : graph_wf (mstore m) (mgraph m);
  mo_graph : mgr_graph g ⊆ model_graph m;
  mo_new : ∀ d, d ∈ model_graph m → d ∈ mgr_graph g ∨ w d = lzero;
  mo_has : ∀ d, d ∈ model_graph m → is_Some (valMap m !! src d) ∧ is_Some (valMap m !! dst d);
  mo_sat : satisfies (model_value m) (model_graph m);
  mo_zero : model_value m zero = lzero;
}.

(** The search never comes back to the starting point. *)
Lemma started_nonneg g m start : mgr_inv g → started g m start →
  nonneg (refs_graph (mstore m) (addedEdges (mgraph m))).
Proof.
  intros Hg Hm. rewrite (sp_graph _ _ _ Hm).
  apply (satisfies_nonneg (λ v, if decide (v = start) then lzero else - pot (mgr_graph g) v)%lex).
  pose proof (pot_satisfies _ (mi_nonneg g Hg)) as Hp.
  assert (∀ d, d ∈ mgr_graph g → src d ≠ start ∧ dst d ≠ start) as Hold.
  { intros d (r & x & Hr & Ex & ->)%elem_of_refs_graph.
    pose proof (mw_graph g (mi_wf g Hg)) as Hw. destruct (gw_added _ _ Hw r Hr) as (x' & Ex' & Hf & Ht).
    assert (x' = x) as -> by congruence. pose proof (gw_vert _ _ Hw). rewrite (sp_new _ _ _ Hm). simpl. lia. }
  intros d [Hd|Hd]%elem_of_app.
  - destruct (Hold d Hd). rewrite !decide_False by done. by apply Hp.
  - apply list_elem_of_fmap in Hd as (v & -> & Hv). simpl. rewrite decide_True by done.
    assert (pot (mgr_graph g) v <= lzero)%lex by apply minimum_le_zero.
    destruct (decide _); lex.
Qed.

Lemma createModel_wp g : mgr_inv g → addedEdges (graph g) ≠ [] →
  wp t_err (model_ok g) (createModel (MkSTPModel (store g) (graph g) ∅)).
Proof.
  intros Hg Hne. pose proof (mw_graph g (mi_wf g Hg)) as Hw. unfold createModel, isEmpty. cbn [mgraph].
  rewrite (gw_len _ _ Hw), Nat.eqb_refl. cbn [check rbind].
  destruct (addedEdges (graph g)) as [|r0 l0] eqn:Ea; [done|].
  destruct (gw_added _ _ Hw r0) as (x0 & Ex0 & Hf0 & _); [rewrite Ea; by left|].
  rewrite (proj2 (Nat.eqb_neq _ _)) by lia.
  destruct (addStartingPoint_ok g Hg) as (start & m & -> & Hm & _). cbn [rbind].
  assert (vertsInGraph (graph g) ≠ []) as Hverts.
  { intros E. assert (from x0 ∈ vertsInGraph (graph g)) as Hin.
    { apply (elem_of_vertsInGraph _ _ _ Hw). exists r0, x0. rewrite Ea. split; [by left|]. auto. }
    rewrite E in Hin. by apply elem_of_nil in Hin. }
  pose proof (started_nonneg _ _ _ Hg Hm) as Hnn.
  apply wp_bind. eapply wp_mono.
  { apply (bellmanFord_wp m start (sp_wf _ _ _ Hm) Hnn). by apply (sp_out _ _ _ Hm). }
  intros m1 (E1 & E2 & Hd). eapply wp_mono; [apply shiftZero_wp|].
  intros m2 (F1 & F2 & Hhas & shift & Hval & Hz).
  assert (∀ v, v ∈ vertsInGraph (graph g) → is_Some (valMap m1 !! v)) as Hreach.
  { intros v Hv. specialize (Hd v). destruct (valMap m1 !! v); [eauto|]. exfalso.
    apply (Hd [DEdge start v lzero]). apply (path_one _ (DEdge start v lzero)).
    rewrite (sp_graph _ _ _ Hm), elem_of_app, list_elem_of_fmap. right. eauto. }
  assert (model_graph m2 = refs_graph (mstore m) (addedEdges (mgraph m))) as EG
    by (unfold model_graph; by rewrite F1, F2, E1, E2).
  assert (∀ d, d ∈ model_graph m2 → is_Some (valMap m1 !! src d) ∧ is_Some (valMap m1 !! dst d)) as Hin.
  { intros d. rewrite EG, (sp_graph _ _ _ Hm). intros [Hd'|Hd']%elem_of_app.
    - apply elem_of_refs_graph in Hd' as (r & x & Hr & Ex & ->).
      split; apply Hreach, (elem_of_vertsInGraph _ _ _ Hw); exists r, x; simpl; auto.
    - apply list_elem_of_fmap in Hd' as (v & -> & Hv). simpl. split; [|by apply Hreach].
      specialize (Hd start). destruct (valMap m1 !! start); [eauto|]. exfalso.
      apply (Hd []). constructor. }
  constructor.
  - rewrite F1, E1. apply Hm.
  - rewrite F1, F2, E1, E2. apply Hm.
  - intros d Hdg. rewrite EG, (sp_graph _ _ _ Hm), elem_of_app. by left.
  - intros d. rewrite EG, (sp_graph _ _ _ Hm). intros [?|Hd']%elem_of_app; [by left|].
    apply list_elem_of_fmap in Hd' as (v & -> & Hv). by right.
  - intros d Hdg. destruct (Hin d Hdg). split; by apply Hhas.
  - intros d Hdg. destruct (Hin d Hdg) as [[ds Eds] [dt Edt]].
    destruct (proj2 (Hhas (src d)) ltac:(eauto)) as [ds' Eds'].
    destruct (proj2 (Hhas (dst d)) ltac:(eauto)) as [dt' Edt'].
    unfold model_value. rewrite Eds', Edt'. cbn [from_option].
    rewrite (Hval _ _ _ Eds Eds'), (Hval _ _ _ Edt Edt').
    pose proof (Hd (src d)) as Hds. pose proof (Hd (dst d)) as Hdt. rewrite Eds in Hds. rewrite Edt in Hdt.
    destruct Hds as [(p & Pp & Cp) _]. destruct Hdt as [_ Hmin].
    specialize (Hmin (p ++ [d])). rewrite cost_snoc, Cp in Hmin. rewrite EG in Hdg.
    specialize (Hmin ltac:(constructor; done)). lex.
  - unfold model_value. destruct (valMap m2 !! zero) as [d|] eqn:Ez; simpl; [|lex].
    rewrite (Hz d eq_refl). lex.
Qed.

(** A graph from which every edge was removed again keeps its adjacency lists:
    the starting point then has none, and the search indexes past the end. *)
Lemma createModel_emptied g : mgr_inv g → addedEdges (graph g) = [] → outgoing (graph g) ≠ [] →
  createModel (MkSTPModel (store g) (graph g) ∅) = Err Out_of_range.
Proof.
  intros Hg He Ho. pose proof (mw_graph g (mi_wf g Hg)) as Hw. unfold createModel, isEmpty. cbn [mgraph].
  rewrite (gw_len _ _ Hw), Nat.eqb_refl. cbn [check rbind].
  rewrite (proj2 (Nat.eqb_neq _ _)) by (by destruct (outgoing (graph g))).
  assert (vertsInGraph (graph g) = []) as Ev.
  { destruct (vertsInGraph (graph g)) as [|v l] eqn:E; [done|].
    destruct (proj1 (elem_of_vertsInGraph _ _ v Hw)) as (r & x & Hr & _); [rewrite E; by left|].
    rewrite He in Hr. by apply elem_of_nil in Hr. }
  simpl. unfold addStartingPoint. cbn [mstore mgraph]. rewrite Ev. cbn [foldM rbind createVertex].
  unfold bellmanFord. erewrite while_err; [done|]. unfold bf_body, at_. cbn [mgraph].
  rewrite (lookup_ge_None_2 (outgoing (graph g))); [done | apply Hw].
Qed.

End stp.
