(* ===== verification/StpRefine.v ===== *)
(** * The difference-logic solver implements a stack of literals

    The abstract solver keeps frames of asserted literals: [push] opens a
    frame, [assert] adds a literal to the last one, [pop k] drops [k] frames.
    [solver_inv] relates a state of [STPSolver] to such frames; every
    operation keeps the relation, and the verdict of the solver is the
    satisfiability of the frames' literals. *)
From S2P Require Import Prelude Gmp FastRational FastRationalFacts FastRationalInt Number Lex Delta DiffGraph StpNum Terms TSolver StpStore.
From S2P Require Import StpSearch StpInvariant StpSolver StpBacktrack StpExplain.
From Stdlib Require Import Sorted Lia.

Section stp.
Context {T : Type} `{STPNum T}.
Context {N : Type} (logic : Logic N).

Implicit Types (g : STPGraphManager T) (s : STPSolver T) (a : PtAsgn).

(** ** States with the same atoms *)

Definition same_atoms g g' : Prop :=
  (∃ l, mapper g' = with_asgn (mapper g) l) ∧ (vertices (store g) <= vertices (store g'))%nat
  ∧ ∀ r x, edges (store g) !! r = Some x → ∃ x', edges (store g') !! r = Some x' ∧ from x' = from x
      ∧ to x' = to x ∧ neg x' = neg x ∧ ecost x' = ecost x.

Lemma same_atoms_refl g : same_atoms g g.
Proof.
  split; [exists (edgeRefToAsgn (mapper g)); by destruct (mapper g)|]. split; [done|]. eauto 10.
Qed.

Lemma same_edges_atoms g g' : same_edges (store g) (store g') →
  (∃ l, mapper g' = with_asgn (mapper g) l) → same_atoms g g'.
Proof.
  intros Hs Hl. split; [done|]. split; [by rewrite (proj1 Hs)|]. intros r x Hx.
  destruct (same_edges_lookup _ _ _ _ Hs Hx) as (x' & ? & ? & ? & ? & ? & _). eauto 10.
Qed.

Lemma same_atoms_listed g g' r x : same_atoms g g' → listed (store g) (mapper g) r x →
  ∃ x', listed (store g') (mapper g') r x' ∧ from x' = from x ∧ to x' = to x ∧ neg x' = neg x
    ∧ ecost x' = ecost x.
Proof.
  intros ((l & El) & Hv & He) (Ex & H1 & H2 & H3). destruct (He r x Ex) as (x' & Ex' & E1 & E2 & E3 & E4).
  exists x'. split; [|done]. unfold listed. rewrite E1, E2, El. split; [done|]. split; [lia|]. split; [lia | done].
Qed.

(** ** Literals and their edges *)

(** [r] is the edge that the literal [a] makes true. *)
Definition lit_ref g a (r : EdgeRef) : Prop :=
  ∃ e x n, getEdgeRef_leq logic (mapper g) (tr a) = Ok (Some e)
    ∧ listed (store g) (mapper g) e x ∧ neg x = Some n
    ∧ ((sgn a = l_True ∧ r = e) ∨ (sgn a = l_False ∧ r = n)).

(** Truth of an atom, and of a literal, under values for the vertices. *)
Definition atom_true g (y : VertexRef → lexq) (t : PTRef) : Prop :=
  ∃ e x, getEdgeRef_leq logic (mapper g) t = Ok (Some e) ∧ edges (store g) !! e = Some x
    ∧ (y (from x) - y (to x) <= t_val (ecost x))%lex.

Definition lit_true g (y : VertexRef → lexq) a : Prop :=
  match sgn a with
  | l_True => atom_true g y (tr a)
  | _ => ¬ atom_true g y (tr a)
  end.

(** Values the theory allows; the vertex [zero] stands for the number 0. *)
Definition valuation (y : VertexRef → lexq) : Prop := (∀ v, t_point (y v)) ∧ y zero = lzero.

Definition satisfiable g (lits : list PtAsgn) : Prop :=
  ∃ y, valuation y ∧ ∀ a, a ∈ lits → lit_true g y a.

Lemma lit_ref_listed g a r : mgr_inv g → lit_ref g a r → ∃ x, listed (store g) (mapper g) r x.
Proof.
  intros Hg (e & x & n & _ & Hx & En & [[_ ->]|[_ ->]]); [eauto|].
  destruct (mi_neg g Hg e x Hx) as (n' & y & En' & _ & Hy & _). exists y. congruence.
Qed.

Lemma lit_ref_unique g a r r' : lit_ref g a r → lit_ref g a r' → r = r'.
Proof.
  intros (e & x & n & E & Hx & En & Hr) (e' & x' & n' & E' & Hx' & En' & Hr').
  rewrite E in E'. injection E' as <-. assert (x' = x) as -> by (destruct Hx, Hx'; congruence).
  rewrite En in En'. injection En' as <-. destruct Hr as [[? ->]|[? ->]], Hr' as [[? ->]|[? ->]]; congruence.
Qed.

(** A literal is true exactly when its edge's constraint holds. *)
Lemma lit_true_edge g a r x y : mgr_inv g → valuation y → lit_ref g a r →
  listed (store g) (mapper g) r x →
  lit_true g y a ↔ (y (from x) - y (to x) <= t_val (ecost x))%lex.
Proof.
  intros Hg [Hy _] (e & z & n & Ee & Hz & En & Hr) Hx.
  assert (atom_true g y (tr a) ↔ (y (from z) - y (to z) <= t_val (ecost z))%lex) as Hat.
  { unfold atom_true. split.
    - intros (e' & z' & E' & Ez' & Hle). rewrite Ee in E'. injection E' as <-.
      assert (z' = z) as -> by (destruct Hz; congruence). done.
    - intros Hle. exists e, z. split; [done|]. split; [apply Hz | done]. }
  unfold lit_true. destruct Hr as [[-> ->]|[-> ->]].
  - assert (x = z) as -> by (destruct Hx, Hz; congruence). done.
  - destruct (mi_neg g Hg e z Hz) as (n' & z' & En' & _ & Hz' & _ & Ef & Et & Ho).
    assert (n' = n) as -> by congruence. assert (x = z') as -> by (destruct Hx, Hz'; congruence).
    rewrite Hat, Ef, Et, (op_point _ _ Ho (y (from z) - y (to z))%lex) by (apply t_point_sub; apply Hy).
    replace (- (y (from z) - y (to z)))%lex with (y (to z) - y (from z))%lex by lex. done.
Qed.

(** The current constraints have a solution among the values. *)
Lemma graph_solution g : mgr_inv g → ∃ y, valuation y ∧ satisfies y (mgr_graph g).
Proof.
  intros Hg. destruct (t_concretize (mgr_graph g) (λ v, - pot (mgr_graph g) v)%lex) as (y & Hp & Hs & H0).
  - intros d Hd. by apply (mgr_grid g).
  - intros v. replace (- - pot (mgr_graph g) v)%lex with (pot (mgr_graph g) v) by lex.
    apply pot_closed; [apply t_grid_zero | apply t_grid_add |]. intros d Hd. by apply (mgr_grid g).
  - apply pot_satisfies, Hg.
  - exists y. done.
Qed.

(** ** The relation between a state and its frames *)

Definition limit s (i : nat) : nat := default (timestamp (graphMgr s)) (backtrack_points s !! i).
Definition ded_limit s (i : nat) : nat :=
  default (length (th_deductions (base_ s))) (deductions_lim (base_ s) !! i).

Record core_inv s (core : list (list PtAsgn)) : Prop := {
  ci_mgr : mgr_inv (graphMgr s);
  ci_leq : ∀ i e, vget (leqToEdgeRef (mapper (graphMgr s))) i = Some e → registered (mapper (graphMgr s)) e;
  ci_rev : ∀ e t, vget (edgeRefToLeq (mapper (graphMgr s))) e = Some t →
    getEdgeRef_leq logic (mapper (graphMgr s)) t = Ok (Some e);
  ci_lit : ∀ r a, getAssignment (mapper (graphMgr s)) r = Some a → lit_ref (graphMgr s) a r;
  ci_len : length core = S (length (backtrack_points s));
  ci_points : ∀ i b, backtrack_points s !! i = Some b → (b <= timestamp (graphMgr s))%nat
    ∧ ∀ l r, added_at (graphMgr s) b = l ++ [r] → time (store (graphMgr s)) r = b;
  ci_mono : ∀ i j b b', (i <= j)%nat → backtrack_points s !! i = Some b →
    backtrack_points s !! j = Some b' → (b <= b')%nat;
  ci_true : ∀ i fr a, core !! i = Some fr → a ∈ fr → ∃ r, lit_ref (graphMgr s) a r
    ∧ (0 < time (store (graphMgr s)) r)%nat ∧ (time (store (graphMgr s)) r <= limit s i)%nat;
  ci_added : ∀ r a i, getAssignment (mapper (graphMgr s)) r = Some a → (i < length core)%nat →
    (time (store (graphMgr s)) r <= limit s i)%nat → ∃ j fr, (j <= i)%nat ∧ core !! j = Some fr ∧ a ∈ fr;
  ci_base : tsolver_wf (base_ s)
    ∧ length (deductions_lim (base_ s)) = length (backtrack_points s);
  ci_ded : ∀ k d i, th_deductions (base_ s) !! k = Some d → (k < ded_limit s i)%nat →
    (i < length core)%nat → ∃ r, lit_ref (graphMgr s) (MkPtAsgn (rtr d) (rsgn d)) r
      ∧ (0 < time (store (graphMgr s)) r)%nat ∧ (time (store (graphMgr s)) r <= limit s i)%nat;
}.

(** The solver ignores what is asserted after an inconsistency: [core] is what
    it took into account.  [inv_bpoint] is the frame of the literal that made
    the frames inconsistent, and no edge was added since. *)
Record solver_inv s (frames : list (list PtAsgn)) : Prop := {
  sv_core : ∃ core, core_inv s core ∧ length core = length frames
    ∧ (∀ i fr, core !! i = Some fr → ∃ fr', frames !! i = Some fr' ∧ fr ⊆ fr')
    ∧ match inv_asgn s with
      | None => core = frames
      | Some a => ∃ l fr r x n, inv_bpoint s = Z.of_nat l ∧ (l < length frames)%nat
          ∧ (∀ i, (i < l)%nat → core !! i = frames !! i)
          ∧ frames !! l = Some fr ∧ a ∈ fr
          ∧ lit_ref (graphMgr s) a r ∧ listed (store (graphMgr s)) (mapper (graphMgr s)) r x
          ∧ neg x = Some n ∧ (0 < time (store (graphMgr s)) n)%nat
          ∧ (∀ i b, (l <= i)%nat → backtrack_points s !! i = Some b → b = timestamp (graphMgr s))
      end;
}.

Definition all_lits (frames : list (list PtAsgn)) : list PtAsgn := concat frames.

Lemma elem_of_lits frames a : a ∈ all_lits frames ↔ ∃ i fr, frames !! i = Some fr ∧ a ∈ fr.
Proof.
  unfold all_lits. split.
  - intros Ha. apply list_elem_of_In, in_concat in Ha as (fr & Hfr & Ha).
    apply list_elem_of_In, list_elem_of_lookup_1 in Hfr as [i Hi].
    exists i, fr. split; [done|]. by apply list_elem_of_In.
  - intros (i & fr & Hi & Ha). apply list_elem_of_In, in_concat. exists fr.
    split; apply list_elem_of_In; [by eapply list_elem_of_lookup_2 | done].
Qed.

(** A solution of the constraints makes the literals taken into account
    true. *)
Lemma core_solution s core y : core_inv s core → valuation y →
  satisfies y (mgr_graph (graphMgr s)) → ∀ a, a ∈ all_lits core → lit_true (graphMgr s) y a.
Proof.
  intros Hc Hy Hs a (i & fr & Hi & Ha)%elem_of_lits. pose proof (ci_mgr _ _ Hc) as Hg.
  destruct (ci_true _ _ Hc i fr a Hi Ha) as (r & Hr & Hpos & _).
  destruct (lit_ref_listed _ _ _ Hg Hr) as (x & Hx).
  rewrite (lit_true_edge _ _ _ _ _ Hg Hy Hr Hx). apply (satisfies_implied y (mgr_graph (graphMgr s))); [done|].
  apply (true_implied _ r x Hg Hx). rewrite (time_lookup _ _ _ (proj1 Hx)) in Hpos. lia.
Qed.

(** Values that make those literals true satisfy the constraints. *)
Lemma core_constraints s core y : core_inv s core → valuation y →
  (∀ a, a ∈ all_lits core → lit_true (graphMgr s) y a) → satisfies y (mgr_graph (graphMgr s)).
Proof.
  intros Hc Hy Hl d (r & x & Hr & Ex & ->)%elem_of_refs_graph. pose proof (ci_mgr _ _ Hc) as Hg.
  apply (mi_asgn _ Hg) in Hr as [a Ha]. pose proof (ci_lit _ _ Hc r a Ha) as Href.
  destruct (lit_ref_listed _ _ _ Hg Href) as (x' & Hx').
  assert (x' = x) as -> by (destruct Hx'; congruence).
  simpl. apply (lit_true_edge _ _ _ _ _ Hg Hy Href Hx'). apply Hl, elem_of_lits.
  pose proof (ci_len _ _ Hc) as Hlen.
  destruct (ci_added _ _ Hc r a (length (backtrack_points s)) Ha) as (j & fr & _ & Hj & Hin).
  - lia.
  - unfold limit. rewrite lookup_ge_None_2 by lia. simpl. apply (mi_times _ Hg).
  - eauto.
Qed.

(** ** The verdict *)

Lemma check_correct s frames : solver_inv s frames →
  check_ s = (match inv_asgn s with None => SAT | Some _ => UNSAT end)
  ∧ (check_ s = SAT ↔ satisfiable (graphMgr s) (all_lits frames)).
Proof.
  intros [(core & Hc & Hlen & Hsub & Hinv)]. split; [done|]. unfold check_.
  pose proof (ci_mgr _ _ Hc) as Hg. destruct (inv_asgn s) as [a|].
  - split; [done|]. intros (y & Hy & Hl). exfalso.
    destruct Hinv as (l & fr & r & x & n & _ & _ & _ & Hfr & Ha & Hr & Hx & En & Hpos & _).
    assert (satisfies y (mgr_graph (graphMgr s))) as Hs.
    { eapply core_constraints; [done|done|]. intros b (i & fr' & Hi & Hb)%elem_of_lits. apply Hl.
      destruct (Hsub i fr' Hi) as (fr'' & Hi' & Hss). apply elem_of_lits. eauto. }
    destruct (mi_neg _ Hg r x Hx) as (n' & z & En' & _ & Hz & _ & Ef & Et & Ho).
    assert (n' = n) as -> by congruence.
    assert (y (from z) - y (to z) <= t_val (ecost z))%lex as Hneg.
    { apply (satisfies_implied y (mgr_graph (graphMgr s))); [done|].
      apply (true_implied _ n z Hg Hz). rewrite (time_lookup _ _ _ (proj1 Hz)) in Hpos. lia. }
    assert (y (from x) - y (to x) <= t_val (ecost x))%lex as Hposi.
    { apply (lit_true_edge _ _ _ _ _ Hg Hy Hr Hx), Hl, elem_of_lits. eauto. }
    pose proof (op_neg _ _ Ho) as Hsum. rewrite Ef, Et in Hneg. lex.
  - split; [|done]. intros _. subst core.
    destruct (graph_solution _ Hg) as (y & Hy & Hs). exists y. split; [done|].
    by eapply core_solution.
Qed.

(** ** Initial state *)

Lemma declared_solver_inv s : decl_inv logic [] (graphMgr s) → inv_asgn s = None →
  backtrack_points s = [] → th_deductions (base_ s) = [] → deductions_next (base_ s) = 0%nat →
  deductions_lim (base_ s) = [] → deductions_last (base_ s) = [] →
  solver_inv s [[]].
Proof.
  intros Hd Hi Hb Ht Hn Hl Hla. constructor. exists [[]]. split; [|split; [done|]; split; [|by rewrite Hi]].
  - pose proof (decl_mgr_inv logic [] _ Hd) as Hg. constructor; try done.
    + apply Hd.
    + apply Hd.
    + intros r a Ha. by rewrite (d_asgn _ _ _ Hd) in Ha.
    + by rewrite Hb.
    + intros i b. by rewrite Hb.
    + intros i j a b _. by rewrite Hb.
    + intros [|i] fr a; [|done]. intros [= <-]. by intros ?%elem_of_nil.
    + intros r a i Ha. by rewrite (d_asgn _ _ _ Hd) in Ha.
    + split; [|by rewrite Hl, Hb]. constructor; rewrite ?Hl, ?Hla, ?Hn; try done. lia.
    + intros k d i. by rewrite Ht.
  - intros i fr Hfr. exists fr. done.
Qed.

(** ** Pushing a backtrack point *)

Lemma lookup_snoc_last {A} (l : list A) x : (l ++ [x]) !! length l = Some x.
Proof. apply lookup_snoc_Some. by right. Qed.

Lemma push_limit s i : (i < S (length (backtrack_points s)))%nat → limit (pushBacktrackPoint s) i = limit s i.
Proof.
  intros Hi. unfold limit. simpl. destruct (decide (i < length (backtrack_points s))%nat) as [Hl|Hl].
  - by rewrite lookup_app_l.
  - assert (i = length (backtrack_points s)) as -> by lia.
    rewrite lookup_snoc_last, lookup_ge_None_2 by lia. done.
Qed.

Lemma push_core s core : core_inv s core → core_inv (pushBacktrackPoint s) (core ++ [[]]).
Proof.
  intros Hc. pose proof Hc as [C1 C2 C2' C3 C4 C5 C6 C7 C8 [C9 C10] C11].
  constructor; simpl; try done.
  - rewrite !length_app. simpl. lia.
  - intros i b [[Hb _]|[-> ->]]%snoc_lookup; [by apply (C5 i)|]. split; [done|].
    intros l r E. apply (mi_last _ C1 l r). rewrite <- E. symmetry. apply filter_every.
    intros r' _. apply (mi_times _ C1).
  - intros i j a b Hij [[Ha ?]|[-> ->]]%snoc_lookup [[Hb ?]|[-> ->]]%snoc_lookup; try lia.
    + by apply (C6 i j).
    + by apply (C5 i).
  - intros i fr a [[Hi Hl]|[-> ->]]%snoc_lookup; [|by intros ?%elem_of_nil].
    rewrite push_limit by lia. by apply C7.
  - intros r a i Ha Hi Ht. rewrite length_app in Hi. simpl in Hi.
    destruct (decide (i < length core)%nat) as [Hl|Hl].
    + rewrite push_limit in Ht by lia. destruct (C8 r a i Ha Hl Ht) as (j & fr & ? & Hj & ?).
      exists j, fr. split; [done|]. split; [by apply lookup_app_l_Some | done].
    + destruct (C8 r a (length (backtrack_points s)) Ha) as (j & fr & ? & Hj & ?); [lia| |].
      * unfold limit. rewrite lookup_ge_None_2 by lia. simpl. apply (mi_times _ C1).
      * exists j, fr. split; [lia|]. split; [by apply lookup_app_l_Some | done].
  - split; [by apply push_wf|]. rewrite !length_app. simpl. lia.
  - intros k d i Hk Hlim Hi. rewrite length_app in Hi. simpl in Hi.
    destruct (decide (i < length core)%nat) as [Hl|Hl].
    + rewrite push_limit by lia. apply (C11 k d i Hk); [|done].
      unfold ded_limit in *. simpl in Hlim.
      destruct (decide (i < length (deductions_lim (base_ s)))%nat) as [Hl'|Hl'].
      * by rewrite lookup_app_l in Hlim.
      * rewrite lookup_ge_None_2 by lia. simpl. by apply lookup_lt_Some in Hk.
    + destruct (C11 k d (length (backtrack_points s)) Hk) as (r & Hr & H1 & H2); [|lia|].
      * unfold ded_limit. rewrite lookup_ge_None_2 by lia. simpl. by apply lookup_lt_Some in Hk.
      * exists r. split; [done|]. split; [done|].
        unfold limit. simpl. rewrite lookup_ge_None_2 by (rewrite length_app; simpl; lia). simpl.
        apply (mi_times _ C1).
Qed.

Lemma push_inv s frames : solver_inv s frames → solver_inv (pushBacktrackPoint s) (frames ++ [[]]).
Proof.
  intros [(core & Hc & Hlen & Hsub & Hinv)]. constructor. exists (core ++ [[]]).
  split; [by apply push_core|]. split; [by rewrite !length_app, Hlen|]. split.
  - intros i fr [[Hi Hl]|[-> ->]]%snoc_lookup.
    + destruct (Hsub i fr Hi) as (fr' & Hi' & ?). exists fr'. split; [by apply lookup_app_l_Some | done].
    + exists []. split; [rewrite Hlen; apply lookup_snoc_last | done].
  - simpl. destruct (inv_asgn s) as [a|]; [|by subst].
    destruct Hinv as (l & fr & r & x & n & H1 & H2 & H3 & H4 & H5 & H6 & H7 & H8 & H9 & H10).
    exists l, fr, r, x, n. split; [done|]. split; [rewrite length_app; lia|].
    split; [intros i Hi; rewrite !lookup_app_l by lia; by apply H3|].
    split; [by apply lookup_app_l_Some|]. repeat (split; [done|]).
    intros i b Hi [[Hb _]|[_ ->]]%snoc_lookup; [by apply (H10 i) | done].
Qed.

(** ** Asserting a literal *)

Lemma lit_ref_extended g e xe asgn ded g' b r : mgr_inv g → extended g e xe asgn ded g' →
  lit_ref g b r → lit_ref g' b r.
Proof.
  intros Hg Hx (e0 & x & n & E1 & Hl & En & Hr).
  destruct (ext_listed_rev _ _ _ _ _ _ Hx e0 x Hl) as (x' & Hl' & _ & _ & En' & _).
  exists e0, x', n. rewrite (ex_mapper _ _ _ _ _ _ Hx) in *. rewrite En'. done.
Qed.

(** The literals an implied edge gives are the ones it makes true. *)
Lemma storeEdgeDeductions_ok g b r x :
  (∀ e t, vget (edgeRefToLeq (mapper g)) e = Some t → getEdgeRef_leq logic (mapper g) t = Ok (Some e)) →
  mgr_inv g → listed (store g) (mapper g) r x → tsolver_wf b →
  ∃ b' ds, storeEdgeDeductions g b r = Ok b' ∧ tsolver_wf b'
    ∧ deductions_lim b' = deductions_lim b ∧ has_explanation b' = has_explanation b
    ∧ th_deductions b' = th_deductions b ++ ds
    ∧ ∀ d, d ∈ ds → lit_ref g (MkPtAsgn (rtr d) (rsgn d)) r.
Proof.
  intros Hrev Hg Hx Hb. destruct (mi_neg g Hg r x Hx) as (n & y & En & _ & Hy & Eny & _).
  assert (∀ (b0 : TSolver) (o : option PTRef) sg, tsolver_wf b0 →
    (∀ t, o = Some t → lit_ref g (MkPtAsgn t sg) r) → ∃ ds,
    let b1 := match o with
              | Some l => if hasPolarity b0 l then b0 else storeDeduction b0 (MkPtAsgn_reason l sg None)
              | None => b0
              end in
    tsolver_wf b1 ∧ deductions_lim b1 = deductions_lim b0 ∧ has_explanation b1 = has_explanation b0
    ∧ th_deductions b1 = th_deductions b0 ++ ds
    ∧ ∀ d, d ∈ ds → lit_ref g (MkPtAsgn (rtr d) (rsgn d)) r) as Hone.
  { intros b0 [t|] sg Hb0 Ht.
    - destruct (hasPolarity b0 t).
      + exists []. rewrite app_nil_r. repeat (split; [done|]). by intros d ?%elem_of_nil.
      + eexists [_]. split; [by apply storeDeduction_wf|]. repeat (split; [done|]).
        intros d ->%list_elem_of_singleton. by apply Ht.
    - exists []. rewrite app_nil_r. repeat (split; [done|]). by intros d ?%elem_of_nil. }
  unfold storeEdgeDeductions, getNegation, getEdge, at_. rewrite (proj1 Hx). cbn [rbind]. rewrite En.
  unfold getPTRef_edge.
  destruct (Hone b (vget (edgeRefToLeq (mapper g)) r) l_True Hb) as (d1 & W1 & L1 & E1 & T1 & D1).
  { intros t Ht. exists r, x, n. split; [by apply Hrev|]. split; [done|]. split; [done|]. by left. }
  destruct (Hone _ (vget (edgeRefToLeq (mapper g)) n) l_False W1) as (d2 & W2 & L2 & E2 & T2 & D2).
  { intros t Ht. exists n, y, r. split; [by apply Hrev|]. split; [done|]. split; [done|]. by right. }
  cbv zeta in *. eexists _, (d1 ++ d2). split; [reflexivity|]. rewrite L2, L1, E2, E1, T2, T1, app_assoc.
  repeat (split; [done|]). intros d [Hd|Hd]%elem_of_app; auto.
Qed.

Lemma storeEdges_ok g b (ded : list EdgeRef) :
  (∀ e t, vget (edgeRefToLeq (mapper g)) e = Some t → getEdgeRef_leq logic (mapper g) t = Ok (Some e)) →
  mgr_inv g → (∀ r, r ∈ ded → registered (mapper g) r) → tsolver_wf b →
  ∃ b' ds, foldM (storeEdgeDeductions g) b ded = Ok b' ∧ tsolver_wf b'
    ∧ deductions_lim b' = deductions_lim b ∧ has_explanation b' = has_explanation b
    ∧ th_deductions b' = th_deductions b ++ ds
    ∧ ∀ d, d ∈ ds → ∃ r, r ∈ ded ∧ lit_ref g (MkPtAsgn (rtr d) (rsgn d)) r.
Proof.
  intros Hrev Hg. revert b. induction ded as [|r ded IH]; intros b Hded Hb; simpl.
  - exists b, []. rewrite app_nil_r. repeat (split; [done|]). by intros d ?%elem_of_nil.
  - destruct (mw_listed g (mi_wf g Hg) r (Hded r ltac:(by left))) as (x & Hx).
    destruct (storeEdgeDeductions_ok g b r x Hrev Hg Hx Hb) as (b1 & d1 & -> & W1 & L1 & E1 & T1 & D1).
    destruct (IH b1) as (b2 & d2 & E & W2 & L2 & E2 & T2 & D2); [intros r' ?; apply Hded; by right | done |].
    exists b2, (d1 ++ d2). cbn [rbind]. rewrite L2, L1, E2, E1, T2, T1, app_assoc.
    repeat (split; [done|]). intros d [Hd|Hd]%elem_of_app.
    + exists r. split; [by left | by apply D1].
    + destruct (D2 d Hd) as (r' & ? & ?). exists r'. split; [by right | done].
Qed.

Lemma limit_last s : limit s (length (backtrack_points s)) = timestamp (graphMgr s).
Proof. unfold limit. by rewrite lookup_ge_None_2. Qed.

Lemma limit_le s core i : core_inv s core → (limit s i <= timestamp (graphMgr s))%nat.
Proof.
  intros Hc. unfold limit. destruct (backtrack_points s !! i) as [b|] eqn:E; simpl; [|done].
  by apply (ci_points _ _ Hc) in E as [? _].
Qed.

(** The state after an edge [e] was set true for the literal [a]. *)
Lemma extended_core s fs fr a e xe ded g' b' ds :
  core_inv s (fs ++ [fr]) → lit_ref (graphMgr s) a e → time (store (graphMgr s)) e = 0%nat →
  mgr_inv g' → extended (graphMgr s) e xe a ded g' → tsolver_wf b' →
  deductions_lim b' = deductions_lim (base_ s) → th_deductions b' = th_deductions (base_ s) ++ ds →
  (∀ d, d ∈ ds → ∃ r, (r = e ∨ r ∈ ded) ∧ lit_ref g' (MkPtAsgn (rtr d) (rsgn d)) r) →
  core_inv (with_graphMgr (with_base s b') g') (fs ++ [fr ++ [a]]).
Proof.
  intros Hc Ha He0 Hg' Hx Hb' El Et Hds. pose proof Hc as [C1 C2 C2' C3 C4 C5 C6 C7 C8 [C9 C10] C11].
  set (s' := with_graphMgr (with_base s b') g').
  assert (∀ r c, lit_ref (graphMgr s) c r → lit_ref g' c r) as Hlit
    by (intros r c; by apply (lit_ref_extended _ e xe a ded)).
  assert (∀ r, (0 < time (store (graphMgr s)) r)%nat →
    time (store g') r = time (store (graphMgr s)) r) as Htime.
  { intros r Hr. rewrite (ex_time _ _ _ _ _ _ Hx), decide_False; [done|]. intros [->|Hd]; [lia|].
    apply (ex_sel _ _ _ _ _ _ Hx) in Hd as (_ & _ & ? & _). lia. }
  assert (∀ r, r = e ∨ r ∈ ded → time (store g') r = S (timestamp (graphMgr s))) as Hnew
    by (intros r Hr; rewrite (ex_time _ _ _ _ _ _ Hx); by rewrite decide_True).
  assert (∀ i, (limit s i <= limit s' i)%nat) as Hlim.
  { intros i. unfold limit, s'. simpl. rewrite (ex_ts _ _ _ _ _ _ Hx). destruct (_ !! i); simpl; lia. }
  assert (∀ i, (i < length (backtrack_points s))%nat → limit s' i = limit s i) as Hlim'.
  { intros i Hi. unfold limit, s'. simpl. destruct (lookup_lt_is_Some_2 _ _ Hi) as [b ->]. done. }
  assert (limit s' (length (backtrack_points s)) = S (timestamp (graphMgr s))) as HlimS.
  { change (backtrack_points s) with (backtrack_points s'). rewrite limit_last. apply Hx. }
  rewrite length_app in C4. simpl in C4.
  assert (∀ r, (time (store g') r <= timestamp (graphMgr s))%nat →
    time (store g') r = time (store (graphMgr s)) r) as Hold.
  { intros r Hr. destruct (decide (r = e ∨ r ∈ ded)) as [Hd|Hd]; [rewrite (Hnew r Hd) in Hr; lia|].
    rewrite (ex_time _ _ _ _ _ _ Hx). by rewrite decide_False. }
  constructor; simpl; try done.
  - rewrite (ex_mapper _ _ _ _ _ _ Hx). done.
  - rewrite (ex_mapper _ _ _ _ _ _ Hx). done.
  - intros r c. rewrite (ex_mapper _ _ _ _ _ _ Hx) at 1. unfold getAssignment, setAssignment. simpl.
    rewrite vget_vset. destruct (decide (r = e)) as [->|]; [intros [= <-]; by apply Hlit|].
    intros Hr. by apply Hlit, C3.
  - rewrite length_app. simpl. lia.
  - intros i b Hi. destruct (C5 i b Hi) as [Hle Hlast]. split; [rewrite (ex_ts _ _ _ _ _ _ Hx); lia|].
    assert (added_at g' b = added_at (graphMgr s) b) as Eadd.
    { unfold added_at. rewrite (ex_added _ _ _ _ _ _ Hx), filter_app, (filter_none _ [e]), app_nil_r.
      - apply filter_ext_in. intros r Hr. pose proof (mi_added _ C1 r Hr). rewrite Htime by done. done.
      - intros r ->%list_elem_of_singleton. rewrite Hnew by auto. lia. }
    intros l r E. rewrite Eadd in E. rewrite Htime; [by apply (Hlast l)|].
    apply (mi_added _ C1). assert (r ∈ added_at (graphMgr s) b) as Hin
      by (rewrite E, elem_of_app, list_elem_of_singleton; auto).
    by apply list_elem_of_filter in Hin as [_ ?].
  - intros i fr' c Hi Hcf.
    assert (c ∈ fr' → (∃ fr0, (fs ++ [fr]) !! i = Some fr0 ∧ c ∈ fr0) ∨ (c = a ∧ i = length fs)) as Hcase.
    { intros _. apply snoc_lookup in Hi as [[Hi Hl]|[-> ->]].
      - left. exists fr'. split; [by apply lookup_app_l_Some | done].
      - rewrite elem_of_app, list_elem_of_singleton in Hcf. destruct Hcf as [Hcf| ->]; [|by right].
        left. exists fr. split; [apply lookup_snoc_last | done]. }
    destruct (Hcase Hcf) as [(fr0 & H0 & H1)|[-> ->]].
    + destruct (C7 i fr0 c H0 H1) as (r & Hr & Hp & Hle). exists r. split; [by apply Hlit|].
      rewrite Htime by done. split; [done|]. specialize (Hlim i). lia.
    + exists e. split; [by apply Hlit|]. rewrite Hnew by auto.
      replace (length fs) with (length (backtrack_points s)) by lia. rewrite HlimS. lia.
  - intros r c i. rewrite (ex_mapper _ _ _ _ _ _ Hx). unfold getAssignment, setAssignment. simpl.
    rewrite vget_vset, length_app. simpl. intros Hr Hi Ht. destruct (decide (r = e)) as [->|Hne].
    + injection Hr as <-. rewrite Hnew in Ht by auto.
      assert (i = length (backtrack_points s)) as ->.
      { destruct (decide (i < length (backtrack_points s))%nat) as [Hlt|]; [|lia].
        rewrite Hlim' in Ht by done. pose proof (limit_le s _ i Hc). lia. }
      exists (length fs), (fr ++ [a]). split; [lia|]. split; [apply lookup_snoc_last|].
      rewrite elem_of_app, list_elem_of_singleton. auto.
    + assert ((time (store (graphMgr s)) r <= limit s i)%nat) as Ht'.
      { assert (r ∈ addedEdges (graph (graphMgr s))) as Hin by (apply (mi_asgn _ C1); eauto).
        rewrite Htime in Ht by (by apply (mi_added _ C1)).
        destruct (decide (i < length (backtrack_points s))%nat) as [Hlt|]; [by rewrite Hlim' in Ht|].
        assert (i = length (backtrack_points s)) as -> by lia. rewrite limit_last. apply (mi_times _ C1). }
      destruct (C8 r c i Hr) as (j & fr0 & Hj & Hfr0 & Hin); [rewrite length_app; simpl; lia | done |].
      apply snoc_lookup in Hfr0 as [[Hfr0 Hl]|[-> ->]].
      * exists j, fr0. split; [done|]. split; [by apply lookup_app_l_Some | done].
      * exists (length fs), (fr ++ [a]). split; [done|]. split; [apply lookup_snoc_last|].
        rewrite elem_of_app. auto.
  - rewrite El. done.
  - intros k d i Hk Hlk Hi. rewrite length_app in Hi. simpl in Hi. rewrite Et in Hk.
    assert (∀ i, (i < length (deductions_lim (base_ s)))%nat → ded_limit s' i = ded_limit s i) as Hdl.
    { intros j Hj. unfold ded_limit, s'. simpl. rewrite El. destruct (lookup_lt_is_Some_2 _ _ Hj) as [q ->]. done. }
    apply lookup_app_Some in Hk as [Hk|[Hge Hk]].
    + destruct (C11 k d i Hk) as (r & Hr & Hp & Hle).
      * destruct (decide (i < length (deductions_lim (base_ s)))%nat) as [Hlt|]; [by rewrite Hdl in Hlk|].
        unfold ded_limit. rewrite lookup_ge_None_2 by lia. simpl. by apply lookup_lt_Some in Hk.
      * rewrite length_app. simpl. lia.
      * exists r. split; [by apply Hlit|]. rewrite Htime by done. split; [done|]. specialize (Hlim i). lia.
    + destruct (Hds d) as (r & Hr & Hlr); [by eapply list_elem_of_lookup_2|].
      exists r. split; [done|]. rewrite Hnew by done. split; [lia|].
      assert (i = length (backtrack_points s)) as ->; [|rewrite HlimS; lia].
      destruct (decide (i < length (deductions_lim (base_ s)))%nat) as [Hlt|]; [|lia].
      rewrite Hdl in Hlk by done. unfold ded_limit in Hlk.
      destruct (lookup_lt_is_Some_2 _ _ Hlt) as [q Hq]. rewrite Hq in Hlk. simpl in Hlk.
      pose proof (twf_lim _ C9 i q Hq). lia.
Qed.

(** A literal on a declared atom. *)
Definition declared_lit g a : Prop :=
  sgn a ≠ l_Undef ∧ ∃ e, getEdgeRef_leq logic (mapper g) (tr a) = Ok (Some e).

Lemma declared_ref s core a : core_inv s core → declared_lit (graphMgr s) a →
  ∃ e x n, getEdgeRef_leq logic (mapper (graphMgr s)) (tr a) = Ok (Some e)
    ∧ listed (store (graphMgr s)) (mapper (graphMgr s)) e x ∧ neg x = Some n.
Proof.
  intros Hc (_ & e & He). pose proof (ci_mgr _ _ Hc) as Hg.
  assert (registered (mapper (graphMgr s)) e) as Hr.
  { unfold getEdgeRef_leq in He. destruct (termId logic (tr a)) as [i|]; [|done].
    injection He as He. by apply (ci_leq _ _ Hc i). }
  destruct (mw_listed _ (mi_wf _ Hg) e Hr) as (x & Hx).
  destruct (mi_neg _ Hg e x Hx) as (n & _ & En & _). eauto 10.
Qed.

Lemma isTrue_time g r x : edges (store g) !! r = Some x →
  isTrue g r = Ok (negb (time (store g) r =? 0)%nat).
Proof. intros E. unfold isTrue, getEdge, at_. rewrite E. cbn [rbind]. by rewrite (time_lookup _ _ _ E). Qed.

(** The two edges [assertLit] works on. *)
Lemma assert_edges s core a : core_inv s core → declared_lit (graphMgr s) a →
  ∃ e x n r xr nr xn, getEdgeRef_leq logic (mapper (graphMgr s)) (tr a) = Ok (Some e)
    ∧ edges (store (graphMgr s)) !! e = Some x ∧ neg x = Some n
    ∧ r = (if bool_decide (sgn a = l_True) then e else n)
    ∧ nr = (if (r =? e)%nat then n else e)
    ∧ lit_ref (graphMgr s) a r ∧ listed (store (graphMgr s)) (mapper (graphMgr s)) r xr
    ∧ neg xr = Some nr ∧ listed (store (graphMgr s)) (mapper (graphMgr s)) nr xn ∧ neg xn = Some r.
Proof.
  intros Hc Hd. pose proof (ci_mgr _ _ Hc) as Hg.
  destruct (declared_ref s core a Hc Hd) as (e & x & n & He & Hx & En).
  destruct (mi_neg _ Hg e x Hx) as (n' & y & En' & Hne & Hy & Eny & _).
  assert (n' = n) as -> by congruence. destruct Hd as [Hs _].
  destruct (bool_decide_reflect (sgn a = l_True)) as [Hs'|Hs'].
  - exists e, x, n, e, x, n, y. rewrite Nat.eqb_refl. repeat (split; [done || apply Hx|]). split.
    + exists e, x, n. repeat (split; [done|]). by left.
    + done.
  - exists e, x, n, n, y, e, x. rewrite (proj2 (Nat.eqb_neq _ _)) by done.
    repeat (split; [done || apply Hx|]). split; [|done].
    exists e, x, n. repeat (split; [done|]). right. split; [|done]. by destruct (sgn a).
Qed.

Lemma frames_snoc_sub (core fs : list (list PtAsgn)) fr a :
  (∀ i c, core !! i = Some c → ∃ f, (fs ++ [fr]) !! i = Some f ∧ c ⊆ f) →
  ∀ i c, core !! i = Some c → ∃ f, (fs ++ [fr ++ [a]]) !! i = Some f ∧ c ⊆ f.
Proof.
  intros Hs i c Hi. destruct (Hs i c Hi) as (f & Hf & Hsub).
  apply snoc_lookup in Hf as [[Hf Hl]|[-> ->]].
  - exists f. split; [by apply lookup_app_l_Some | done].
  - exists (fr ++ [a]). split; [apply lookup_snoc_last|]. intros b Hb. rewrite elem_of_app. auto.
Qed.

(** A literal that is true already changes nothing. *)
Lemma assert_true_core s fs fr a r : core_inv s (fs ++ [fr]) → lit_ref (graphMgr s) a r →
  (0 < time (store (graphMgr s)) r)%nat → core_inv s (fs ++ [fr ++ [a]]).
Proof.
  intros Hc Ha Hp. pose proof Hc as [C1 C2 C2' C3 C4 C5 C6 C7 C8 C9 C11].
  rewrite length_app in C4. simpl in C4. constructor; try done.
  - rewrite length_app. simpl. lia.
  - intros i f c [[Hi Hl]|[-> ->]]%snoc_lookup Hcf.
    + apply (C7 i f); [by apply lookup_app_l_Some | done].
    + rewrite elem_of_app, list_elem_of_singleton in Hcf. destruct Hcf as [Hcf| ->].
      * apply (C7 (length fs) fr); [apply lookup_snoc_last | done].
      * exists r. split; [done|]. split; [done|].
        replace (length fs) with (length (backtrack_points s)) by lia.
        rewrite limit_last. apply (mi_times _ C1).
  - intros r' c i Hr Hi Ht. rewrite length_app in Hi. simpl in Hi.
    destruct (C8 r' c i Hr) as (j & f & Hj & Hf & Hin); [rewrite length_app; simpl; lia | done |].
    destruct (frames_snoc_sub (fs ++ [fr]) fs fr a) with (i := j) (c := f) as (f' & Hf' & Hs); [eauto | done|].
    exists j, f'. split; [done|]. split; [done | by apply Hs].
  - intros k d i Hk Hl Hi. apply (C11 k d i Hk Hl). rewrite !length_app in *. simpl in *. lia.
Qed.

(** [assertLit] adds the literal to the last frame, and answers whether the
    literals are still satisfiable. *)
Lemma assert_inv s fs fr a : solver_inv s (fs ++ [fr]) → declared_lit (graphMgr s) a →
  wp t_err (λ '(b, s'), solver_inv s' (fs ++ [fr ++ [a]])
      ∧ b = bool_decide (inv_asgn s' = None)
      ∧ same_atoms (graphMgr s) (graphMgr s'))
    (assertLit logic s a).
Proof.
  intros [(core & Hc & Hlen & Hsub & Hinv)] Hd. pose proof (ci_len _ _ Hc) as Hlb.
  rewrite Hlen, length_app in Hlb. simpl in Hlb. unfold assertLit.
  destruct (inv_asgn s) as [a0|] eqn:Ei.
  { simpl. rewrite Ei. split; [|split; [done|]; apply same_atoms_refl].
    constructor. exists core. split; [done|]. split; [rewrite Hlen, !length_app; done|].
    split; [by apply frames_snoc_sub|]. rewrite Ei.
    destruct Hinv as (l & f & r & x & n & H1 & H2 & H3 & H4 & H5 & H6).
    rewrite length_app in H2. simpl in H2.
    apply snoc_lookup in H4 as [[H4 Hl]|[-> ->]].
    - exists l, f, r, x, n. split; [done|]. split; [rewrite length_app; simpl; lia|].
      split; [intros i Hi; rewrite H3, !lookup_app_l by lia; done|].
      split; [by apply lookup_app_l_Some|]. done.
    - exists (length fs), (fr ++ [a]), r, x, n. split; [done|]. split; [rewrite length_app; simpl; lia|].
      split; [intros i Hi; rewrite H3, !lookup_app_l by lia; done|].
      split; [apply lookup_snoc_last|]. rewrite elem_of_app. auto. }
  subst core. pose proof (ci_mgr _ _ Hc) as Hg.
  destruct (assert_edges s _ a Hc Hd)
    as (e & x & n & r & xr & nr & xn & He & Ex & En & Er & Enr & Href & Hxr & Enxr & Hxn & Enxn).
  rewrite He. cbn [rbind]. unfold getNegation, getEdge, at_. rewrite Ex. cbn [rbind]. rewrite En.
  cbv zeta. rewrite <- Er, <- Enr. rewrite (isTrue_time _ _ _ (proj1 Hxr)), (isTrue_time _ _ _ (proj1 Hxn)).
  cbn [rbind]. destruct (Nat.eqb_spec (time (store (graphMgr s)) r) 0) as [Hz|Hnz]; simpl.
  2:{ rewrite Ei. split; [|split; [done|]; apply same_atoms_refl].
      constructor. exists (fs ++ [fr ++ [a]]).
      split; [apply (assert_true_core s fs fr a r); [done | done | lia]|]. split; [done|].
      rewrite Ei. eauto. }
  destruct (Nat.eqb_spec (time (store (graphMgr s)) nr) 0) as [Hnz|Hnz]; simpl.
  2:{ split; [|split; [done|]; apply same_atoms_refl].
      constructor. exists (fs ++ [fr]). split; [|split; [by rewrite !length_app|]; split].
      - destruct Hc as [C1 C2 C2' C3 C4 C5 C6 C7 C8 [C9 C10] C11]. constructor; try done.
        split; [by apply with_explanation_wf | done].
      - apply frames_snoc_sub. eauto.
      - simpl. exists (length (backtrack_points s)), (fr ++ [a]), r, xr, nr. split; [done|].
        rewrite length_app. simpl. split; [lia|].
        split; [intros i Hi; rewrite !lookup_app_l by lia; done|].
        replace (length (backtrack_points s)) with (length fs) by lia.
        split; [apply lookup_snoc_last|]. rewrite elem_of_app, list_elem_of_singleton.
        split; [auto|]. repeat (split; [done|]). split; [lia|].
        intros i b Hi Hb. apply lookup_lt_Some in Hb. lia. }
  assert (setTime xr = 0%nat) as Hz' by (by rewrite <- (time_lookup _ _ _ (proj1 Hxr))).
  pose proof (assert_edge_wp (graphMgr s) r xr a Hg Hxr Hz') as Hwp.
  assert (∀ n, neg xr = Some n → time (store (graphMgr s)) n = 0%nat) as Hn0 by (intros ?; congruence).
  specialize (Hwp Hn0). destruct (setTrue (graphMgr s) r a) as [g1|]; cbn [rbind] in *; [|done].
  apply wp_bind. eapply wp_mono; [exact Hwp|]. intros [ded g'] [Hg' Hx].
  assert (∀ e t, vget (edgeRefToLeq (mapper g')) e = Some t →
    getEdgeRef_leq logic (mapper g') t = Ok (Some e)) as Hrev.
  { rewrite (ex_mapper _ _ _ _ _ _ Hx). apply (ci_rev _ _ Hc). }
  set (b0 := match getPTRef_edge (mapper g') nr with Some l => _ | None => _ end).
  assert (∃ d0, tsolver_wf b0 ∧ deductions_lim b0 = deductions_lim (base_ s)
    ∧ th_deductions b0 = th_deductions (base_ s) ++ d0
    ∧ ∀ d, d ∈ d0 → lit_ref g' (MkPtAsgn (rtr d) (rsgn d)) r) as (d0 & W0 & L0 & T0 & D0).
  { unfold b0, getPTRef_edge. destruct (vget (edgeRefToLeq (mapper g')) nr) as [t|] eqn:Et.
    - eexists [_]. split; [apply storeDeduction_wf, Hc|]. split; [done|]. split; [done|].
      intros d ->%list_elem_of_singleton.
      destruct (ext_listed_rev _ _ _ _ _ _ Hx nr xn Hxn) as (xn' & Hxn' & _ & _ & En' & _).
      exists nr, xn', r. split; [by apply Hrev|]. split; [done|]. split; [congruence|]. by right.
    - exists []. rewrite app_nil_r. split; [apply Hc|]. repeat (split; [done|]). by intros d ?%elem_of_nil. }
  destruct (storeEdges_ok g' b0 ded Hrev Hg') as (b' & ds & -> & W1 & L1 & _ & T1 & D1); [|done|].
  { intros q (Hq & _)%(ex_sel _ _ _ _ _ _ Hx). by rewrite (ex_mapper _ _ _ _ _ _ Hx). }
  cbn [rbind]. simpl. rewrite Ei. split; [|split; [done|]].
  - constructor. exists (fs ++ [fr ++ [a]]). split; [|split; [done|]; split; [eauto|]; simpl; by rewrite Ei].
    apply (extended_core s fs fr a r xr ded g' b' (d0 ++ ds)); try done.
    + by rewrite L1.
    + by rewrite T1, T0, app_assoc.
    + intros d [Hd0|Hd1]%elem_of_app; [exists r; auto|].
      destruct (D1 d Hd1) as (q & ? & ?). exists q. auto.
  - apply same_edges_atoms; [apply Hx|]. rewrite (ex_mapper _ _ _ _ _ _ Hx). unfold setAssignment. eauto.
Qed.

(** ** Popping backtrack points *)

Lemma lit_ref_restored g point g' a r : restored g point g' → lit_ref g a r → lit_ref g' a r.
Proof.
  intros Hr (e & x & n & E & Hx & En & Hs). destruct (rs_mapper _ _ _ Hr) as (l & El & _).
  destruct (listed_same _ _ _ _ _ (rs_same _ _ _ Hr) Hx) as (x' & Hx' & _ & _ & _ & En' & _).
  exists e, x', n. rewrite El, En'. done.
Qed.

Lemma take_lookup_lt {A} (l : list A) k i x : take k l !! i = Some x → l !! i = Some x ∧ (i < k)%nat.
Proof.
  intros Hi. destruct (decide (i < k)%nat).
  - by rewrite lookup_take_lt in Hi.
  - by rewrite lookup_take_ge in Hi by lia.
Qed.

Lemma restored_core s core k point size g' b' bp ia m : core_inv s core →
  backtrack_points s !! k = Some point → restored (graphMgr s) point g' →
  deductions_lim (base_ s) !! k = Some size → tsolver_wf b' →
  deductions_lim b' = take k (deductions_lim (base_ s)) →
  th_deductions b' = take size (th_deductions (base_ s)) →
  core_inv (MkSTPSolver b' g' bp ia (take k (backtrack_points s)) m) (take (S k) core).
Proof.
  intros Hc Hk Hr Hsz Hb' El Et. pose proof Hc as [C1 C2 C2' C3 C4 C5 C6 C7 C8 [C9 C10] C11].
  set (s' := MkSTPSolver b' g' bp ia (take k (backtrack_points s)) m).
  pose proof (restored_inv _ _ _ C1 Hr) as Hg'. destruct (rs_mapper _ _ _ Hr) as (la & Ela & Hla).
  pose proof (lookup_lt_Some _ _ _ Hk) as Hkl.
  assert (∀ r, (time (store (graphMgr s)) r <= point)%nat →
    time (store g') r = time (store (graphMgr s)) r) as Hkeep
    by (intros r ?; rewrite (rs_time _ _ _ Hr); by rewrite decide_True).
  assert (∀ j, (j <= k)%nat → (limit s j <= point)%nat) as Hlp.
  { intros j Hj. unfold limit. destruct (backtrack_points s !! j) as [b|] eqn:Eb.
    - by apply (C6 j k).
    - apply lookup_ge_None in Eb. lia. }
  assert (∀ j, (j < k)%nat → limit s' j = limit s j) as Hlt.
  { intros j Hj. unfold limit, s'. simpl. rewrite lookup_take_lt by done.
    destruct (lookup_lt_is_Some_2 (backtrack_points s) j) as [b ->]; [lia | done]. }
  assert (limit s' k = timestamp g') as Hlk
    by (unfold limit, s'; simpl; by rewrite lookup_take_ge by lia).
  assert (limit s k = point) as Hlk' by (unfold limit; by rewrite Hk).
  assert (∀ a r j, (j <= k)%nat → lit_ref (graphMgr s) a r →
    (0 < time (store (graphMgr s)) r)%nat → (time (store (graphMgr s)) r <= limit s j)%nat →
    ∃ r, lit_ref g' a r ∧ (0 < time (store g') r)%nat ∧ (time (store g') r <= limit s' j)%nat) as Hmove.
  { intros a r j Hj Ha Hp Hle. exists r. split; [by eapply lit_ref_restored|].
    specialize (Hlp j Hj). split; [rewrite Hkeep by lia; done|].
    destruct (decide (j = k)) as [->|]; [rewrite Hlk; apply (mi_times _ Hg')|].
    rewrite Hlt, Hkeep by lia. done. }
  assert (length (take (S k) core) = S k) as Hlc by (rewrite length_take; lia).
  constructor; simpl; try done.
  - intros j e. rewrite Ela. apply C2.
  - intros e t. rewrite Ela. apply C2'.
  - intros r a. rewrite Ela. unfold getAssignment. simpl. rewrite Hla.
    destruct (decide _); [|done]. intros Ha. eapply lit_ref_restored; [done|]. by apply C3.
  - rewrite !length_take. lia.
  - intros j b [Hb Hj]%take_lookup_lt. destruct (C5 j b Hb) as [Hbt Hlast].
    assert (b <= point)%nat as Hbp by (apply (C6 j k); [lia | done | done]).
    assert (added_at g' b = added_at (graphMgr s) b) as Ea.
    { unfold added_at. rewrite (rs_added _ _ _ Hr). unfold added_at. rewrite list_filter_filter.
      apply list_filter_iff. intros r. rewrite (rs_time _ _ _ Hr). destruct (decide _); lia. }
    split.
    + rewrite (rs_ts _ _ _ Hr). destruct (added_at (graphMgr s) point) as [|r l _] eqn:E using rev_ind; [done|].
      rewrite last_snoc. destruct (C5 k point Hk) as [_ Hl]. by rewrite (Hl l r E).
    + intros l r E. rewrite Ea in E. rewrite Hkeep; [by apply (Hlast l)|]. rewrite (Hlast l r E). done.
  - intros i j b c Hij [Hi _]%take_lookup_lt [Hj _]%take_lookup_lt. by apply (C6 i j).
  - intros i f a [Hi Hik]%take_lookup_lt Ha. destruct (C7 i f a Hi Ha) as (r & H1 & H2 & H3).
    apply (Hmove a r i); [lia | done | done | done].
  - intros r a i. rewrite Ela. unfold getAssignment. simpl. rewrite Hla, Hlc.
    destruct (decide _) as [Hle|]; [|done]. intros Ha Hi Hti. rewrite Hkeep in Hti by done.
    destruct (C8 r a i Ha) as (j & f & Hj & Hf & Hin); [lia| |].
    + destruct (decide (i = k)) as [->|]; [by rewrite Hlk' | rewrite <- Hlt by lia; done].
    + exists j, f. split; [done|]. split; [rewrite lookup_take_lt by lia; done | done].
  - split; [done|]. rewrite El, !length_take. lia.
  - intros q d i Hq Hlim Hi. rewrite Hlc in Hi. rewrite Et in Hq. apply take_lookup_lt in Hq as [Hq Hqs].
    destruct (C11 q d i Hq) as (r & H1 & H2 & H3).
    + unfold ded_limit in *. simpl in Hlim. rewrite El in Hlim. destruct (decide (i = k)) as [->|].
      * by rewrite Hsz.
      * rewrite lookup_take_lt in Hlim by lia.
        destruct (lookup_lt_is_Some_2 (deductions_lim (base_ s)) i) as [z Ez]; [lia|]. by rewrite Ez in *.
    + lia.
    + apply (Hmove _ r i); [lia | done | done | done].
Qed.

(** Nothing later than the last moment is dropped. *)
Lemma restored_all g g' : mgr_inv g → restored g (timestamp g) g' →
  timestamp g' = timestamp g ∧ ∀ r, time (store g') r = time (store g) r.
Proof.
  intros Hg Hr. split.
  - rewrite (rs_ts _ _ _ Hr). assert (added_at g (timestamp g) = addedEdges (graph g)) as ->.
    { apply filter_every. intros r _. apply (mi_times _ Hg). }
    destruct (addedEdges (graph g)) as [|r l _] eqn:E using rev_ind; [done|]. rewrite last_snoc.
    by apply (mi_last _ Hg l).
  - intros r. rewrite (rs_time _ _ _ Hr), decide_True; [done | apply (mi_times _ Hg)].
Qed.

(** [popBacktrackPoints i] drops the last [i] frames; it never fails when there
    are that many. *)
Lemma pop_inv s frames i : solver_inv s frames → (i < length frames)%nat →
  ∃ s', popBacktrackPoints s i = Ok s' ∧ solver_inv s' (take (length frames - i) frames)
    ∧ same_atoms (graphMgr s) (graphMgr s').
Proof.
  intros [(core & Hc & Hlen & Hsub & Hinv)] Hi. pose proof (ci_len _ _ Hc) as Hlb.
  pose proof (ci_mgr _ _ Hc) as Hg. unfold popBacktrackPoints.
  destruct (Nat.eqb_spec i 0) as [->|Hi0].
  { exists s. rewrite Nat.sub_0_r, take_ge by done. split; [done|].
    split; [constructor; eauto | apply same_atoms_refl]. }
  rewrite (proj2 (Nat.leb_le _ _)) by lia. cbn [rbind check].
  set (k := (length (backtrack_points s) - i)%nat).
  replace (length (backtrack_points s) - (i - 1))%nat with (S k) by lia.
  destruct (lookup_lt_is_Some_2 (backtrack_points s) k) as [point Hk]; [lia|].
  assert (take (S k) (backtrack_points s) = take k (backtrack_points s) ++ [point]) as Etk
    by (by apply take_S_r).
  set (s1 := if (Z.of_nat k <? inv_bpoint s)%Z then _ else s).
  assert (backtrack_points s1 = backtrack_points s ∧ graphMgr s1 = graphMgr s
    ∧ ∃ eb, base_ s1 = with_explanation (base_ s) eb) as (E1 & E2 & eb & E3).
  { unfold s1. destruct (_ <? _)%Z; simpl; [by eauto|]. split; [done|]. split; [done|].
    exists (has_explanation (base_ s)). by destruct (base_ s). }
  rewrite E1, E2, E3, Etk, last_snoc, removelast_app_one.
  destruct (removeAfter_ok (graphMgr s) point Hg) as (g' & -> & Hr). cbn [rbind].
  destruct (ci_base _ _ Hc) as [Hw Hl].
  destruct (lookup_lt_is_Some_2 (deductions_lim (base_ s)) k) as [size Hsz]; [lia|].
  assert (deductions_lim (with_explanation (base_ s) eb)
    = take k (deductions_lim (base_ s)) ++ size :: drop (S k) (deductions_lim (base_ s))) as Ed
    by (simpl; symmetry; by apply take_drop_middle).
  destruct (TSolver_pops_ok (with_explanation (base_ s) eb) _ _ _ (with_explanation_wf _ eb Hw) Ed)
    as (b' & Eb & Hw' & El & Et & _).
  rewrite length_drop in Eb. replace (S (length (deductions_lim (base_ s)) - S k)) with i in Eb by lia.
  rewrite Eb. cbn [rbind]. eexists. split; [done|].
  destruct (rs_mapper _ _ _ Hr) as (la & Ela & _).
  split; [|apply same_edges_atoms; [apply Hr | simpl; eauto]].
  replace (length frames - i)%nat with (S k) by lia.
  constructor. exists (take (S k) core).
  split; [by eapply restored_core|]. split; [rewrite !length_take; lia|]. split.
  { intros j f [Hj Hjk]%take_lookup_lt. destruct (Hsub j f Hj) as (f' & Hf' & ?).
    exists f'. rewrite lookup_take_lt by done. done. }
  simpl. unfold s1. destruct (Z.ltb_spec (Z.of_nat k) (inv_bpoint s)) as [Hb|Hb]; simpl.
  - destruct (inv_asgn s) as [a|]; [|by subst].
    destruct Hinv as (l & f & r & x & n & H1 & H2 & H3 & _).
    apply list_eq. intros j. destruct (decide (j < S k)%nat).
    + rewrite !lookup_take_lt by done. apply H3. lia.
    + by rewrite !lookup_take_ge by lia.
  - destruct (inv_asgn s) as [a|]; [|by subst].
    destruct Hinv as (l & f & r & x & n & H1 & H2 & H3 & H4 & H5 & H6 & H7 & H8 & H9 & H10).
    assert (point = timestamp (graphMgr s)) as -> by (apply (H10 k); [lia | done]).
    destruct (restored_all _ _ Hg Hr) as [Ets Etm].
    destruct (listed_same _ _ _ _ _ (rs_same _ _ _ Hr) H7) as (x' & Hx' & _ & _ & _ & En' & _).
    exists l, f, r, x', n. split; [done|]. rewrite length_take. split; [lia|].
    split; [intros j Hj; rewrite !lookup_take_lt by lia; by apply H3|].
    rewrite lookup_take_lt by lia. split; [done|]. split; [done|].
    simpl. split; [by eapply lit_ref_restored|]. rewrite Ela. split; [done|]. split; [congruence|].
    rewrite Etm. split; [done|]. simpl. intros j b Hj [Hjb _]%take_lookup_lt. rewrite Ets. by apply (H10 j).
Qed.

(** ** Conflicts and reasons *)

(** An edge and its negation are never both true. *)
Lemma neg_exclusive g r x n : mgr_inv g → listed (store g) (mapper g) r x → neg x = Some n →
  (0 < time (store g) n)%nat → time (store g) r = 0%nat.
Proof.
  intros Hg Hx En Hp. destruct (mi_neg g Hg r x Hx) as (n' & y & En' & _ & Hy & _ & Ef & Et & Ho).
  assert (n' = n) as -> by congruence.
  destruct (decide (time (store g) r = 0%nat)) as [|Hnz]; [done|]. exfalso.
  rewrite (time_lookup _ _ _ (proj1 Hx)) in Hnz. rewrite (time_lookup _ _ _ (proj1 Hy)) in Hp.
  destruct (proj1 (true_implied g r x Hg Hx) Hnz) as (p & Pp & Cp).
  destruct (proj1 (true_implied g n y Hg Hy) ltac:(lia)) as (q & Pq & Cq).
  rewrite Ef, Et in Pq. pose proof (mi_nonneg g Hg _ _ (path_app _ _ _ _ _ _ Pp Pq)) as Hnn.
  rewrite cost_app in Hnn. pose proof (op_neg _ _ Ho). lex.
Qed.

(** The explanation of the negation of a literal's edge is a set of asserted
    literals that contradicts the literal. *)
Lemma explain_negation s core a r x n acc : core_inv s core → lit_ref (graphMgr s) a r →
  listed (store (graphMgr s)) (mapper (graphMgr s)) r x → neg x = Some n →
  (0 < time (store (graphMgr s)) n)%nat →
  wp t_err (λ v, ∃ l, v = acc ++ l ∧ l ⊆ all_lits core
      ∧ ∀ y, valuation y → (∀ b, b ∈ l → lit_true (graphMgr s) y b) → ¬ lit_true (graphMgr s) y a)
    (findExplanation (graphMgr s) n acc).
Proof.
  intros Hc Ha Hx En Hp. pose proof (ci_mgr _ _ Hc) as Hg.
  destruct (mi_neg _ Hg r x Hx) as (n' & z & En' & _ & Hz & _ & Ef & Et & Ho).
  assert (n' = n) as -> by congruence. rewrite (time_lookup _ _ _ (proj1 Hz)) in Hp.
  eapply wp_mono; [apply (findExplanation_wp (graphMgr s) n z acc Hg Hz); lia|].
  intros v (rs & l & -> & HF & Hrs & Himp). exists l. split; [done|]. split.
  - intros b (j & Hj)%list_elem_of_lookup_1.
    destruct (Forall2_lookup_r _ _ _ _ _ HF Hj) as (q & Hq & Hb).
    pose proof (ci_len _ _ Hc) as Hlen.
    destruct (ci_added _ _ Hc q b (length (backtrack_points s)) Hb) as (j' & f & _ & Hf & Hin).
    + lia.
    + rewrite limit_last. apply (mi_times _ Hg).
    + apply elem_of_lits. eauto.
  - intros y Hy Hl Hta. apply (lit_true_edge _ _ _ _ _ Hg Hy Ha Hx) in Hta.
    assert (satisfies y (refs_graph (store (graphMgr s)) rs)) as Hs.
    { intros d (q & xq & Hq & Eq & ->)%elem_of_refs_graph.
      apply list_elem_of_lookup_1 in Hq as [j Hj].
      destruct (Forall2_lookup_l _ _ _ _ _ HF Hj) as (b & Hb & Hqb).
      pose proof (ci_lit _ _ Hc q b Hqb) as Href.
      destruct (lit_ref_listed _ _ _ Hg Href) as (xq' & Hxq).
      assert (xq' = xq) as -> by (destruct Hxq; congruence).
      apply (lit_true_edge _ _ _ _ _ Hg Hy Href Hxq), Hl. by eapply list_elem_of_lookup_2. }
    pose proof (satisfies_implied _ _ _ _ _ Hs Himp) as Hneg. pose proof (op_neg _ _ Ho) as Hsum.
    rewrite Ef, Et in Hneg. lex.
Qed.

(** The state in which [getConflict] is called. *)
Lemma getConflict_explains s core a r x n acc : core_inv s core → inv_asgn s = Some a →
  lit_ref (graphMgr s) a r → listed (store (graphMgr s)) (mapper (graphMgr s)) r x → neg x = Some n →
  (0 < time (store (graphMgr s)) n)%nat →
  wp t_err (λ v, ∃ l, v = acc ++ a :: l ∧ l ⊆ all_lits core
      ∧ ∀ y, valuation y → (∀ b, b ∈ l → lit_true (graphMgr s) y b) → ¬ lit_true (graphMgr s) y a)
    (getConflict logic s acc).
Proof.
  intros Hc Ei Ha Hx En Hp. pose proof (ci_mgr _ _ Hc) as Hg. unfold getConflict. rewrite Ei.
  pose proof Ha as (e & z & n0 & Ee & Hz & En0 & Hr). rewrite Ee. cbn [rbind].
  unfold getNegation, getEdge, at_. rewrite (proj1 Hz). cbn [rbind]. rewrite En0.
  assert ((if bool_decide (sgn a = l_True) then Some n0 else Some e) = Some n) as ->.
  { destruct Hr as [[-> ->]|[-> ->]]; simpl.
    - assert (x = z) as -> by (destruct Hx, Hz; congruence). congruence.
    - destruct (mi_neg _ Hg e z Hz) as (n' & y & En' & _ & Hy & Eny & _).
      assert (n' = n0) as -> by congruence. assert (x = y) as -> by (destruct Hx, Hy; congruence). congruence. }
  destruct (mi_neg _ Hg r x Hx) as (n' & y & En' & _ & Hy & _). assert (n' = n) as -> by congruence.
  rewrite (isTrue_time _ _ _ (proj1 Hy)). rewrite (proj2 (Nat.eqb_neq _ 0)) by lia. cbn [rbind check negb].
  eapply wp_mono; [by apply (explain_negation s core a r x n (acc ++ [a]))|].
  intros v (l & -> & Hl & Hno). exists l. split; [by rewrite <- app_assoc | done].
Qed.

(** The conflict is a set of asserted literals that cannot hold together. *)
Lemma conflict_sound s frames : solver_inv s frames → inv_asgn s ≠ None →
  wp t_err (λ v, v ⊆ all_lits frames ∧ ¬ satisfiable (graphMgr s) v) (getConflict logic s []).
Proof.
  intros [(core & Hc & Hlen & Hsub & Hinv)] Hi. destruct (inv_asgn s) as [a|] eqn:Ei; [|done].
  destruct Hinv as (l & f & r & x & n & H1 & H2 & H3 & H4 & H5 & H6 & H7 & H8 & H9 & _).
  eapply wp_mono; [by apply (getConflict_explains s core a r x n [])|].
  intros v (ls & -> & Hls & Hno). simpl. split.
  - intros b [->|Hb]%elem_of_cons; [apply elem_of_lits; eauto|].
    apply Hls, elem_of_lits in Hb as (i & c & Hc' & Hb). destruct (Hsub i c Hc') as (f' & Hf' & Hs).
    apply elem_of_lits. exists i, f'. auto.
  - intros (y & Hy & Hl). apply (Hno y Hy); [intros b Hb; apply Hl; by right | apply Hl; by left].
Qed.

Definition flip_lit a : PtAsgn :=
  MkPtAsgn (tr a) (if bool_decide (sgn a = l_True) then l_False else l_True).

(** The edge of a literal and of its complement. *)
Lemma flip_ref g a r x n : mgr_inv g → lit_ref g a r → listed (store g) (mapper g) r x → neg x = Some n →
  lit_ref g (flip_lit a) n ∧ ∃ y, listed (store g) (mapper g) n y ∧ neg y = Some r.
Proof.
  intros Hg (e & z & n0 & Ee & Hz & En0 & Hr) Hx En.
  destruct (mi_neg _ Hg r x Hx) as (n' & y & En' & _ & Hy & Eny & _). assert (n' = n) as -> by congruence.
  split; [|by exists y]. destruct Hr as [[Hs ->]|[Hs ->]].
  - exists e, z, n0. simpl. rewrite Hs. assert (x = z) as -> by (destruct Hx, Hz; congruence).
    repeat (split; [done|]). right. split; [done | congruence].
  - exists e, z, n0. simpl. rewrite Hs. repeat (split; [done|]). left. split; [done|].
    destruct (mi_neg _ Hg e z Hz) as (n' & y' & En1 & _ & Hy' & Eny' & _).
    assert (n' = n0) as -> by congruence. assert (x = y') as -> by (destruct Hx, Hy'; congruence). congruence.
Qed.

(** Asserting a literal whose complement is true. *)
Lemma assert_conflict s core a r x n : core_inv s core → inv_asgn s = None →
  lit_ref (graphMgr s) a r → listed (store (graphMgr s)) (mapper (graphMgr s)) r x → neg x = Some n →
  (0 < time (store (graphMgr s)) n)%nat → sgn a ≠ l_Undef →
  assertLit logic s a = Ok (false, MkSTPSolver (with_explanation (base_ s) true) (graphMgr s)
    (Z.of_nat (length (backtrack_points s))) (Some a) (backtrack_points s) (model s)).
Proof.
  intros Hc Ei Ha Hx En Hp Hs. pose proof (ci_mgr _ _ Hc) as Hg.
  assert (declared_lit (graphMgr s) a) as Hd by (split; [done|]; destruct Ha as (e & ? & ? & ? & _); eauto).
  destruct (assert_edges s _ a Hc Hd)
    as (e & x0 & n0 & r0 & xr & nr & xn & He & Ex & En0 & Er & Enr & Href & Hxr & Enxr & Hxn & Enxn).
  assert (r0 = r) as -> by (by eapply lit_ref_unique).
  assert (xr = x) as -> by (destruct Hxr, Hx; congruence). assert (nr = n) as -> by congruence.
  unfold assertLit. rewrite Ei, He. cbn [rbind]. unfold getNegation, getEdge, at_. rewrite Ex.
  cbn [rbind]. rewrite En0. cbv zeta. rewrite <- Er, <- Enr.
  rewrite (isTrue_time _ _ _ (proj1 Hxr)), (isTrue_time _ _ _ (proj1 Hxn)).
  rewrite (neg_exclusive _ r x n Hg Hx En Hp).
  rewrite (proj2 (Nat.eqb_neq (time (store (graphMgr s)) n) 0)) by lia. done.
Qed.

(** [getReasonFor] a literal that is true: asserted literals that imply it,
    behind its complement; the frames are as before. *)
Lemma reason_sound s frames a r : solver_inv s frames → inv_asgn s = None → sgn a ≠ l_Undef →
  lit_ref (graphMgr s) a r → (0 < time (store (graphMgr s)) r)%nat →
  wp t_err (λ '(v, s'), solver_inv s' frames ∧ same_atoms (graphMgr s) (graphMgr s') ∧ ∃ l, v = flip_lit a :: l ∧ l ⊆ all_lits frames
      ∧ ∀ y, valuation y → (∀ b, b ∈ l → lit_true (graphMgr s) y b) → lit_true (graphMgr s) y a)
    (getReasonFor logic s a).
Proof.
  intros Hs Ei Hsg Ha Hp. pose proof (push_inv s frames Hs) as Hpush.
  pose proof Hs as [(core & Hc & Hlen & Hsub & Hinv)]. pose proof (ci_mgr _ _ Hc) as Hg.
  rewrite Ei in Hinv. subst core. destruct (lit_ref_listed _ _ _ Hg Ha) as (x & Hx).
  destruct (mi_neg _ Hg r x Hx) as (n & y & En & _).
  destruct (flip_ref _ _ _ _ _ Hg Ha Hx En) as (Hf & xn & Hxn & Enx).
  unfold getReasonFor. rewrite bool_decide_eq_false_2 by done. cbn [check negb rbind].
  change (MkPtAsgn (tr a) _) with (flip_lit a).
  pose proof (push_core s frames Hc) as Hpc.
  rewrite (assert_conflict (pushBacktrackPoint s) (frames ++ [[]]) (flip_lit a) n xn r Hpc); try done.
  2:{ unfold flip_lit. simpl. by destruct (bool_decide _). }
  cbn [rbind]. set (s1 := MkSTPSolver _ _ _ _ _ _).
  assert (core_inv s1 (frames ++ [[]])) as Hc1.
  { destruct Hpc as [C1 C2 C2' C3 C4 C5 C6 C7 C8 [C9 C10] C11]. constructor; try done.
    split; [by apply with_explanation_wf | done]. }
  apply wp_bind. eapply wp_mono.
  { apply (getConflict_explains s1 (frames ++ [[]]) (flip_lit a) n xn r []); done. }
  intros v (l & -> & Hl & Hno).
  assert (solver_inv s1 (frames ++ [[flip_lit a]])) as Hs1.
  { pose proof (assert_inv (pushBacktrackPoint s) frames [] (flip_lit a) Hpush) as Hwp.
    rewrite (assert_conflict (pushBacktrackPoint s) (frames ++ [[]]) (flip_lit a) n xn r Hpc) in Hwp; try done.
    2:{ unfold flip_lit. simpl. by destruct (bool_decide _). }
    apply Hwp. split; [unfold flip_lit; simpl; by destruct (bool_decide _)|].
    destruct Hf as (e & ? & ? & ? & _). eauto. }
  destruct (pop_inv s1 _ 1 Hs1) as (s' & Es' & Hs' & Hsame).
  { rewrite length_app. simpl. pose proof (ci_len _ _ Hc). lia. }
  unfold popBacktrackPoint. rewrite Es'. cbn [rbind]. split.
  - rewrite length_app in Hs'. simpl in Hs'.
    replace (length frames + 1 - 1)%nat with (length frames) in Hs' by lia.
    by rewrite take_app_length in Hs'.
  - split; [exact Hsame|]. exists l. split; [done|]. split.
    + intros b Hb. apply Hl in Hb. unfold all_lits in *. rewrite concat_app, elem_of_app in Hb.
      destruct Hb as [?|Hb]; [done|]. by apply elem_of_nil in Hb.
    + intros v Hv Hall. specialize (Hno v Hv Hall).
      apply (lit_true_edge _ _ _ _ _ Hg Hv Ha Hx).
      change (graphMgr s1) with (graphMgr s) in Hno.
      rewrite (lit_true_edge _ _ _ _ _ Hg Hv Hf Hxn) in Hno.
      destruct (mi_neg _ Hg r x Hx) as (n' & y' & En' & _ & Hy' & _ & Ef & Et & Ho).
      assert (n' = n) as -> by congruence. assert (y' = xn) as -> by (destruct Hy', Hxn; congruence).
      destruct (decide (v (from x) - v (to x) <= t_val (ecost x))%lex) as [|Hn]; [done|].
      exfalso. apply Hno. rewrite Ef, Et.
      apply (op_point _ _ Ho) in Hn; [|apply t_point_sub; apply Hv].
      replace (- (v (from x) - v (to x)))%lex with (v (to x) - v (from x))%lex in Hn by lex. done.
Qed.

End stp.
