(* ===== verification/StpReach.v ===== *)
(** * Runs of the difference-logic solver

    [reach] holds of the states a caller can bring the solver into, together
    with the frames of literals asserted in them: atoms are declared first,
    then literals are asserted, backtrack points pushed and popped, deductions
    taken, reasons asked for and models computed; a solver whose frames are
    empty may be cleared and started again.  Every such state satisfies the
    invariant of [StpRefine], read on the terms the atoms are.
    Then: reading a model off into the table of values. *)
From stdpp Require Import gmap.
From S2P Require Import Prelude Gmp FastRational FastRationalFacts FastRationalInt Number Lex Delta DiffGraph StpNum Terms TSolver StpStore.
From S2P Require Import StpSearch StpInvariant StpSolver StpBacktrack StpExplain StpModel StpRefine.
From Stdlib Require Import Sorted Lia.

Section stp.
Context {T : Type} `{STPNum T}.
Context {N : Type} `{Number N} (logic : Logic N) (getValue_ : N → res T).
Hypothesis Hids : ids_unique logic.

Implicit Types (g : STPGraphManager T) (s : STPSolver T) (a : PtAsgn).

(** ** States with the same atoms *)

Lemma atoms_ok_same g g' : same_atoms g g' → atoms_ok logic g → atoms_ok logic g'.
Proof.
  intros Hs [A1 A2 A3]. pose proof Hs as ((l & El) & _). constructor.
  - intros i v. rewrite El. apply A1.
  - intros v var. rewrite El. apply A2.
  - intros t e He. rewrite El in He. destruct (A3 t e He) as (k & x & y & c & xe & B1 & B2 & B3 & B4 & B5).
    destruct (same_atoms_listed _ _ _ _ Hs B4) as (xe' & Hxe' & F1 & F2 & F3 & F4).
    exists k, x, y, c, xe'. split; [done|]. split; [done|]. unfold atom_edge, vert_of. rewrite F1, F2, F4, El in *.
    done.
Qed.

Lemma declared_same g g' a : same_atoms g g' → declared_lit logic g a → declared_lit logic g' a.
Proof. intros ((l & El) & _) [Hs He]. split; [done|]. by rewrite El. Qed.

(** ** Literals as terms *)

(** The values a theory allows: the integers, or all rationals. *)
Definition theory_valuation (ρ : PTRef → Qc) : Prop := ∀ v, t_point (Lex (ρ v) 0).

Definition theory_sat (lits : list PtAsgn) : Prop :=
  ∃ ρ, theory_valuation ρ ∧ ∀ a, a ∈ lits → lit_holds logic ρ a.

(** Values for the vertices that come from values for the variables. *)
Definition agrees g (ρ : PTRef → Qc) (y : VertexRef → lexq) : Prop :=
  ∀ var v, vert_of logic (mapper g) var v → y v = Lex (var_value ρ var) 0.

Lemma lex_diff_le (a b c : Qc) : (Lex a 0 - Lex b 0 <= Lex c 0)%lex ↔ (a - b <= c)%Qc.
Proof.
  replace (Lex a 0 - Lex b 0)%lex with (Lex (a - b) 0) by lex. unfold lle. simpl. split.
  - intros [Hl|[E _]]; [by apply Qclt_le_weak | rewrite E; apply Qcle_refl].
  - intros [Hl|E]%Qcle_lt_or_eq; [by left | right; split; [done | apply Qcle_refl]].
Qed.

Lemma atom_agrees g ρ y t e : atoms_ok logic g → agrees g ρ y →
  getEdgeRef_leq logic (mapper g) t = Ok (Some e) → atom_true logic g y t ↔ leq_holds logic ρ t.
Proof.
  intros Ha Hy He. destruct (ao_atom _ _ Ha t e He) as (k & x & z & c & xe & B1 & B2 & B3 & B4 & B5 & B6 & B7).
  rewrite (dl_atom_holds logic ρ t k x z B1), <- lex_diff_le.
  assert ((y (from xe) - y (to xe) <= t_val (ecost xe))%lex
    ↔ (Lex (var_value ρ z) 0 - Lex (var_value ρ x) 0 <= Lex (- nval k) 0)%lex) as <-.
  { rewrite (Hy _ _ B5), (Hy _ _ B6), B7. simpl. by rewrite B2. }
  unfold atom_true. split.
  - intros (e' & x' & E' & Ex' & Hle). rewrite He in E'. injection E' as <-.
    assert (x' = xe) as -> by (destruct B4; congruence). done.
  - intros Hle. exists e, xe. split; [done|]. split; [apply B4 | done].
Qed.

Lemma lit_agrees g ρ y a : atoms_ok logic g → agrees g ρ y → declared_lit logic g a →
  lit_true logic g y a ↔ lit_holds logic ρ a.
Proof.
  intros Ha Hy (_ & e & He). unfold lit_true, lit_holds.
  pose proof (atom_agrees g ρ y (tr a) e Ha Hy He). destruct (sgn a); tauto.
Qed.

Definition vertex_values g (ρ : PTRef → Qc) (v : VertexRef) : lexq :=
  match vget (vertRefToVar (mapper g)) v with Some var => Lex (ρ var) 0 | None => lzero end.

Lemma vertex_values_ok g ρ : atoms_ok logic g → theory_valuation ρ →
  valuation (vertex_values g ρ) ∧ agrees g ρ (vertex_values g ρ).
Proof.
  intros [A1 A2 A3] Hρ. unfold vertex_values. split; [split|].
  - intros v. destruct (vget _ v); [apply Hρ|].
    replace lzero with (Lex (ρ 0%nat) 0 - Lex (ρ 0%nat) 0)%lex by lex. apply t_point_sub; apply Hρ.
  - destruct (vget _ zero) as [var|] eqn:E; [|done]. apply A2 in E as (i & _ & Ev).
    by apply A1 in Ev as [? _].
  - intros [var|] v Hv; simpl.
    + apply getVertRef_Some in Hv as (i & Ei & Ev). symmetry in Ev. destruct (A1 i v Ev) as (_ & var' & E' & ->).
      by rewrite (termId_inj logic Hids var' var i E' Ei).
    + injection Hv as <-. destruct (vget _ zero) as [var|] eqn:E; [|done]. apply A2 in E as (i & _ & Ev).
      by apply A1 in Ev as [? _].
Qed.

Definition term_values g (y : VertexRef → lexq) (var : PTRef) : Qc :=
  match getVertRef logic (mapper g) (Some var) with Ok (Some v) => lr (y v) | _ => 0%Qc end.

Lemma term_values_ok g y : valuation y →
  theory_valuation (term_values g y) ∧ agrees g (term_values g y) y.
Proof.
  intros [Hp Hz]. unfold term_values. split.
  - intros var. destruct (getVertRef _ _ _) as [[v|]|].
    + rewrite <- (t_point_real _ (Hp v)). apply Hp.
    + change (Lex 0 0) with lzero. rewrite <- Hz. apply Hp.
    + change (Lex 0 0) with lzero. rewrite <- Hz. apply Hp.
  - intros [var|] v Hv.
    + cbn [var_value from_option]. unfold vert_of in Hv. rewrite Hv. apply t_point_real, Hp.
    + injection Hv as <-. exact Hz.
Qed.

(** Satisfiable edges are satisfiable terms. *)
Lemma satisfiable_terms g lits : atoms_ok logic g → (∀ a, a ∈ lits → declared_lit logic g a) →
  satisfiable logic g lits ↔ theory_sat lits.
Proof.
  intros Ha Hl. split.
  - intros (y & Hy & Hlit). destruct (term_values_ok g y Hy) as [Hv Hag].
    exists (term_values g y). split; [done|]. intros a Hin. apply (lit_agrees g _ y a Ha Hag); auto.
  - intros (ρ & Hρ & Hlit). destruct (vertex_values_ok g ρ Ha Hρ) as [Hv Hag].
    exists (vertex_values g ρ). split; [done|]. intros a Hin. apply (lit_agrees g ρ _ a Ha Hag); auto.
Qed.

(** ** Computing a model *)

Lemma lit_ref_ext g (s' : STPStore T) a r : mgr_inv g → store_ext (store g) s' → lit_ref logic g a r →
  lit_ref logic (with_store_mapper g s' (mapper g)) a r.
Proof.
  intros Hg Hs (e & x & n & E & Hx & Hrest). exists e, x, n. split; [done|]. split; [|done].
  simpl. by apply (listed_ext g s' Hg Hs).
Qed.

Lemma core_inv_ext s core (s' : STPStore T) b bp ia m : core_inv logic s core → store_ext (store (graphMgr s)) s' →
  tsolver_wf b → deductions_lim b = deductions_lim (base_ s) → th_deductions b = th_deductions (base_ s) →
  core_inv logic (MkSTPSolver b (with_store_mapper (graphMgr s) s' (mapper (graphMgr s))) bp ia
    (backtrack_points s) m) core.
Proof.
  intros Hc Hs Hb Eb Et. pose proof Hc as [C1 C2 C2' C3 C4 C5 C6 C7 C8 [C9 C10] C11].
  assert (∀ r, time s' r = time (store (graphMgr s)) r) as Ht by (intros r; by apply store_ext_time).
  constructor; simpl; try done.
  - by apply store_ext_inv.
  - intros r a Ha. apply lit_ref_ext; [done | done | by apply C3].
  - intros i p Hp. rewrite added_at_ext by done. destruct (C5 i p Hp) as [? Hl]. split; [done|].
    intros l r E. rewrite Ht. by apply (Hl l).
  - intros i fr a Hi Ha. destruct (C7 i fr a Hi Ha) as (r & H1 & H2 & H3). exists r. rewrite !Ht.
    split; [by apply lit_ref_ext | done].
  - intros r a i Ha Hi. rewrite Ht. intros Hle. by apply (C8 r a i).
  - by rewrite Eb.
  - intros k d i Hk Hl Hi. rewrite Et in Hk. unfold ded_limit in Hl. simpl in Hl. rewrite Eb, Et in Hl.
    destruct (C11 k d i Hk Hl Hi) as (r & H1 & H2 & H3). exists r. rewrite !Ht.
    split; [by apply lit_ref_ext | done].
Qed.

Lemma solver_inv_ext s frames (s' : STPStore T) b m : solver_inv logic s frames → store_ext (store (graphMgr s)) s' →
  tsolver_wf b → deductions_lim b = deductions_lim (base_ s) → th_deductions b = th_deductions (base_ s) →
  solver_inv logic (MkSTPSolver b (with_store_mapper (graphMgr s) s' (mapper (graphMgr s))) (inv_bpoint s)
    (inv_asgn s) (backtrack_points s) m) frames.
Proof.
  intros [(core & Hc & Hlen & Hsub & Hinv)] Hs Hb Eb Et. constructor. exists core.
  split; [by apply core_inv_ext|]. split; [done|]. split; [done|]. simpl.
  destruct (inv_asgn s) as [a|]; [|done].
  destruct Hinv as (l & fr & r & x & n & H1 & H2 & H3 & H4 & H5 & H6 & H7 & H8 & H9 & H10).
  pose proof (ci_mgr _ _ _ Hc) as Hg.
  exists l, fr, r, x, n. repeat (split; [done|]). split; [by apply lit_ref_ext|].
  split; [by apply (listed_ext _ _ Hg Hs)|]. split; [done|]. by rewrite (store_ext_time _ _ _ Hs).
Qed.

Lemma solver_mgr s frames : solver_inv logic s frames → mgr_inv (graphMgr s).
Proof. intros [(core & Hc & _)]. apply Hc. Qed.

Lemma with_store_same g : with_store_mapper g (store g) (mapper g) = g.
Proof. by destruct g. Qed.

Lemma solver_base s frames : solver_inv logic s frames → tsolver_wf (base_ s).
Proof. intros [(core & Hc & _)]. apply Hc. Qed.

(** Computing a model leaves the frames as they are. *)
Lemma model_inv s frames s' : solver_inv logic s frames → computeModel s = Ok s' →
  solver_inv logic s' frames ∧ same_atoms (graphMgr s) (graphMgr s') ∧ inv_asgn s' = inv_asgn s.
Proof.
  intros Hs. pose proof (solver_mgr s frames Hs) as Hg. pose proof (solver_base s frames Hs) as Hb.
  assert (∀ st m, store_ext (store (graphMgr s)) st →
    let s1 := MkSTPSolver (base_ s) (with_store_mapper (graphMgr s) st (mapper (graphMgr s))) (inv_bpoint s)
      (inv_asgn s) (backtrack_points s) m in
    solver_inv logic s1 frames ∧ same_atoms (graphMgr s) (graphMgr s1)) as Hext.
  { intros st m Hst. split; [by apply solver_inv_ext|]. split; [|split].
    - exists (edgeRefToAsgn (mapper (graphMgr s))). simpl. by destruct (mapper (graphMgr s)).
    - apply Hst.
    - intros r x Hx. exists x. simpl. split; [by eapply store_ext_lookup | done]. }
  unfold computeModel. destruct (inv_asgn s) as [a|] eqn:Ei.
  - intros [= <-]. destruct (Hext (store (graphMgr s)) None (PreOrder_Reflexive _)) as [H1 H2].
    rewrite with_store_same in *. done.
  - intros E. destruct (createModel _) as [m|] eqn:Em; [|done]. injection E as <-.
    assert (store_ext (store (graphMgr s)) (mstore m)) as Hst.
    { destruct (decide (addedEdges (graph (graphMgr s)) = [])) as [Ha|Ha].
      - destruct (decide (outgoing (graph (graphMgr s)) = [])) as [Ho|Ho].
        + unfold createModel, isEmpty in Em. cbn [mgraph] in Em.
          rewrite (gw_len _ _ (mw_graph _ (mi_wf _ Hg))), Ho in Em. simpl in Em. injection Em as <-. reflexivity.
        + by rewrite (createModel_emptied _ Hg Ha Ho) in Em.
      - pose proof (createModel_wp _ Hg Ha) as Hwp. rewrite Em in Hwp. apply Hwp. }
    destruct (Hext (mstore m) (Some m) Hst). done.
Qed.

(** ** Reachable states *)

Inductive reach : bool → STPSolver T → list (list PtAsgn) → Prop :=
| reach_init : reach true STPSolver_init [[]]
| reach_declare s t s' : reach true s [[]] → atom_wf logic getValue_ t →
    declareAtom logic getValue_ s t = Ok s' → reach true s' [[]]
| reach_solve s : reach true s [[]] → reach false s [[]]
| reach_push s frames : reach false s frames → reach false (pushBacktrackPoint s) (frames ++ [[]])
| reach_assert s fs fr a b s' : reach false s (fs ++ [fr]) → declared_lit logic (graphMgr s) a →
    assertLit logic s a = Ok (b, s') → reach false s' (fs ++ [fr ++ [a]])
| reach_pop s frames i s' : reach false s frames → (i < length frames)%nat →
    popBacktrackPoints s i = Ok s' → reach false s' (take (length frames - i) frames)
| reach_deduction s frames : reach false s frames →
    reach false (with_base s (snd (getDeduction (base_ s)))) frames
| reach_model s frames s' : reach false s frames → computeModel s = Ok s' → reach false s' frames
| reach_reason s frames a r c s' : reach false s frames → check_ s = SAT → declared_lit logic (graphMgr s) a →
    lit_ref logic (graphMgr s) a r → isTrue (graphMgr s) r = Ok true →
    getReasonFor logic s a = Ok (c, s') → reach false s' frames
| reach_clear s : reach false s [[]] → reach true (clearSolver s) [[]].

Record running s (frames : list (list PtAsgn)) : Prop := {
  rn_inv : solver_inv logic s frames;
  rn_atoms : atoms_ok logic (graphMgr s);
  rn_lits : ∀ a, a ∈ all_lits frames → declared_lit logic (graphMgr s) a;
  rn_some : frames ≠ [];
}.

Lemma with_base_same s : with_graphMgr s (graphMgr s) = s.
Proof. by destruct s. Qed.

Lemma all_lits_snoc fs fr a : a ∈ all_lits (fs ++ [fr]) ↔ a ∈ all_lits fs ∨ a ∈ fr.
Proof.
  unfold all_lits. rewrite concat_app, elem_of_app. simpl. by rewrite app_nil_r.
Qed.

Lemma all_lits_take frames i a : a ∈ all_lits (take i frames) → a ∈ all_lits frames.
Proof.
  intros Ha. rewrite <- (take_drop i frames). unfold all_lits in *. rewrite concat_app, elem_of_app. by left.
Qed.

Lemma running_same s s' frames frames' : running s frames → solver_inv logic s' frames' →
  same_atoms (graphMgr s) (graphMgr s') → frames' ≠ [] →
  (∀ a, a ∈ all_lits frames' → declared_lit logic (graphMgr s) a) → running s' frames'.
Proof.
  intros [R1 R2 R3 R4] Hi Hs Hne Hl. constructor; [done | by eapply atoms_ok_same | | done].
  intros a Ha. eapply declared_same; [done|]. by apply Hl.
Qed.

(** Nothing is asserted in empty frames, so a cleared solver is a new one. *)
Lemma empty_frames s : solver_inv logic s [[]] → inv_asgn s = None ∧ deductions (graphMgr s) = [].
Proof.
  intros Hs. pose proof (solver_mgr s _ Hs) as Hg. destruct Hs as [(core & Hc & Hlen & Hsub & Hinv)].
  assert (inv_asgn s = None) as Hi.
  { destruct (inv_asgn s) as [a|]; [|done].
    destruct Hinv as ([|l] & fr & r & x & n & _ & _ & _ & H4 & H5 & _); [|done]. injection H4 as <-.
    by apply elem_of_nil in H5. }
  split; [done|]. rewrite Hi in Hinv. subst core. destruct (deductions (graphMgr s)) as [|r l] eqn:E; [done|].
  exfalso. destruct (mi_ded _ Hg r) as (_ & Ht & _); [rewrite E; by left|].
  enough (addedEdges (graph (graphMgr s)) = []) as Ea by (rewrite (empty_untimed _ r Hg Ea) in Ht; lia).
  destruct (addedEdges (graph (graphMgr s))) as [|q ql] eqn:Eq; [done|]. exfalso.
  destruct (proj2 (mi_asgn _ Hg q)) as [a Ha]; [rewrite Eq; by left|].
  pose proof (ci_len _ _ _ Hc) as Hl. simpl in Hl.
  destruct (ci_added _ _ _ Hc q a 0%nat Ha) as (j & fr & Hj & Hfr & Hin).
  - simpl. lia.
  - unfold limit. rewrite lookup_ge_None_2 by lia. simpl. apply (mi_times _ Hg).
  - destruct j; [|lia]. injection Hfr as <-. by apply elem_of_nil in Hin.
Qed.

Lemma reason_running s frames a r : running s frames → check_ s = SAT → declared_lit logic (graphMgr s) a →
  lit_ref logic (graphMgr s) a r → isTrue (graphMgr s) r = Ok true →
  wp t_err (λ '(c, s'), running s' frames ∧ ∃ l, c = flip_lit a :: l ∧ l ⊆ all_lits frames
      ∧ ∀ y, valuation y → (∀ b, b ∈ l → lit_true logic (graphMgr s) y b) → lit_true logic (graphMgr s) y a)
    (getReasonFor logic s a).
Proof.
  intros Hr Hsat Ha Href Ht. unfold check_ in Hsat.
  assert (inv_asgn s = None) as Hi by (by destruct (inv_asgn s)).
  pose proof (solver_mgr s frames (rn_inv _ _ Hr)) as Hg.
  destruct (lit_ref_listed _ _ _ _ Hg Href) as (x & Hx).
  rewrite (isTrue_time _ _ _ (proj1 Hx)) in Ht. injection Ht as Ht. apply negb_true_iff, Nat.eqb_neq in Ht.
  eapply wp_mono; [apply (reason_sound logic s frames a r (rn_inv _ _ Hr) Hi (proj1 Ha) Href); lia|].
  intros [c s'] (Hinv & Hsame & Hl). split; [|done].
  apply (running_same s s' frames); [done | done | done | apply Hr | apply Hr].
Qed.

Lemma reach_inv d s frames : reach d s frames →
  if d then decl_state logic s ∧ frames = [[]] else running s frames.
Proof.
  induction 1 as [|s t s' _ [IH _] Hw E|s _ [IH _]|s frames _ IH|s fs fr a b s' _ IH Hd E|s frames i s' _ IH Hi E
    |s frames _ IH|s frames s' _ IH E|s frames a r c s' _ IH Hsat Ha Href Ht E|s _ IH].
  - split; [apply init_decl_state | done].
  - destruct (declareAtom_ok logic getValue_ Hids s t IH Hw) as (s1 & E1 & Hs1 & _). split; congruence.
  - destruct IH as [D1 D2 D3 D4 D5 D6 (D7 & D8 & D9 & D10)]. constructor.
    + by apply declared_solver_inv.
    + done.
    + by intros a ?%elem_of_nil.
    + done.
  - apply (running_same s _ frames); [done | apply push_inv, IH | apply same_atoms_refl | by destruct frames |].
    intros a [Ha|Ha]%all_lits_snoc; [by apply IH | by apply elem_of_nil in Ha].
  - pose proof (assert_inv logic s fs fr a (rn_inv _ _ IH) Hd) as Hwp. rewrite E in Hwp.
    destruct Hwp as (H1 & _ & H2). apply (running_same s _ (fs ++ [fr])); [done | done | done | by destruct fs |].
    intros a' [Ha|Ha]%all_lits_snoc.
    + apply IH, all_lits_snoc. by left.
    + rewrite elem_of_app, list_elem_of_singleton in Ha. destruct Ha as [Ha| ->]; [|done].
      apply IH, all_lits_snoc. by right.
  - destruct (pop_inv logic s frames i (rn_inv _ _ IH) Hi) as (s1 & E1 & H1 & H2).
    assert (s1 = s') as -> by congruence. apply (running_same s _ frames); [done | done | done | |].
    + intros E0. apply (f_equal length) in E0. rewrite length_take in E0. simpl in E0. lia.
    + intros a Ha%all_lits_take. by apply IH.
  - apply (running_same s _ frames); [done | | apply same_atoms_refl | apply IH | apply IH].
    pose proof (solver_inv_ext s frames (store (graphMgr s)) (snd (getDeduction (base_ s))) (model s)
      (rn_inv _ _ IH) (PreOrder_Reflexive _)) as Hext.
    rewrite with_store_same in Hext. apply Hext.
    + apply getDeduction_wf, (solver_base s frames), IH.
    + unfold getDeduction. by destruct (_ !! _).
    + unfold getDeduction. by destruct (_ !! _).
  - destruct (model_inv s frames s' (rn_inv _ _ IH) E) as (H1 & H2 & _).
    apply (running_same s _ frames); [done | done | done | apply IH | apply IH].
  - pose proof (reason_running s frames a r IH Hsat Ha Href Ht) as Hwp. rewrite E in Hwp. apply Hwp.
  - destruct (empty_frames s (rn_inv _ _ IH)) as [H1 H2]. split; [by apply clear_decl_state | done].
Qed.

Lemma reach_running s frames : reach false s frames → running s frames.
Proof. apply reach_inv. Qed.

Lemma running_satisfiable s frames lits : running s frames →
  (∀ a, a ∈ lits → declared_lit logic (graphMgr s) a) →
  satisfiable logic (graphMgr s) lits ↔ theory_sat lits.
Proof. intros Hr Hl. apply satisfiable_terms; [apply Hr | done]. Qed.

End stp.

(** * The values handed to the model builder

    [fillTheoryFunctions] of IDLSolver.h and RDLSolver.h: the values the
    variables get satisfy every asserted literal.  The real solver first turns
    pairs into rationals, by a value for the infinitesimal that no constraint
    rules out. *)

(** The value a list of assignments gives a variable. *)
Definition assigned {A : Type} (f : A → Qc) (vals : list (PTRef * A)) (v : PTRef) : Qc :=
  match list_find (λ p, fst p = v) vals with Some (_, (_, x)) => f x | None => 0%Qc end.

Lemma assigned_in {A} (f : A → Qc) vals v :
  (∃ x, (v, x) ∈ vals ∧ assigned f vals v = f x) ∨ ((∀ x, (v, x) ∉ vals) ∧ assigned f vals v = 0%Qc).
Proof.
  unfold assigned. destruct (list_find _ vals) as [[i [v' x]]|] eqn:E.
  - apply list_find_Some in E as (Hi & Hv & _). simpl in Hv. subst v'. left. exists x.
    split; [by eapply list_elem_of_lookup_2 | done].
  - right. split; [|done]. intros x Hin. apply list_find_None in E. rewrite Forall_forall in E.
    by apply (E (v, x)).
Qed.

Section stp.
Context {T : Type} `{STPNum T}.
Context {N : Type} `{Number N} (logic : Logic N).
Hypothesis Hids : ids_unique logic.

(** [getAllValues] negates the distances. *)
Lemma getAllValues_wp (m : STPModel T) :
  wp t_err (λ vals : gmap VertexRef T, ∀ v, match valMap m !! v, vals !! v with
                 | Some _, Some d => t_val d = model_value m v
                 | None, None => True
                 | _, _ => False
                 end) (getAllValues m).
Proof.
  unfold getAllValues. apply wp_bind. eapply wp_mono.
  - apply (foldM_entries_wp t_err (λ v _, getValue m v) (λ d d', t_val d' = (- t_val d)%lex)).
    intros v d Hv. unfold getValue. rewrite Hv. eapply wp_mono; [apply t_sub_val|].
    intros c Hc. rewrite Hc, t_zero_val. lex.
  - intros l Hl. cbv beta in Hl. cbn [wp]. intros v. specialize (Hl v). unfold model_value.
    destruct (valMap m !! v), (list_to_map l !! v); done.
Qed.

(** The assignments of [fillTheoryFunctions], from the values [f] of the
    vertices. *)
Definition fill {A : Type} (mp : STPMapper) (f : T → A) (vals : gmap VertexRef T) : list (PTRef * A) :=
  omap (λ '(v, d), (λ var, (var, f d)) <$> getPTRef_vert mp v) (map_to_list vals).

Lemma elem_of_fill {A} mp (f : T → A) vals var x :
  (var, x) ∈ fill mp f vals ↔ ∃ v d, vals !! v = Some d ∧ getPTRef_vert mp v = Some var ∧ x = f d.
Proof.
  unfold fill. rewrite list_elem_of_omap. split.
  - intros ([v d] & Hin & E). apply elem_of_map_to_list in Hin.
    destruct (getPTRef_vert mp v) as [var'|] eqn:Ev; [|done]. injection E as <- <-. eauto.
  - intros (v & d & Hin & Ev & ->). exists (v, d). split; [by apply elem_of_map_to_list|]. by rewrite Ev.
Qed.

(** A variable gets the value of its vertex. *)
Lemma fill_agrees {A} (g : STPGraphManager T) (f : T → A) (h : A → Qc) vals (y : VertexRef → lexq) :
  atoms_ok logic g → y zero = lzero →
  (∀ v, match vals !! v with Some d => y v = Lex (h (f d)) 0 | None => y v = lzero end) →
  agrees logic g (assigned h (fill (mapper g) f vals)) y.
Proof.
  intros [A1 A2 A3] Hz Hv [var|] v Hvert; [|injection Hvert as <-; exact Hz].
  apply getVertRef_Some in Hvert as (i & Ei & Ev). symmetry in Ev.
  destruct (A1 i v Ev) as (_ & var' & Ei' & Ew). pose proof (termId_inj logic Hids var' var i Ei' Ei) as ->.
  cbn [var_value from_option].
  assert (∀ x, (var, x) ∈ fill (mapper g) f vals ↔ ∃ d, vals !! v = Some d ∧ x = f d) as Hin.
  { intros x. rewrite elem_of_fill. split.
    - intros (v' & d & Hd & Hp & ->). apply A2 in Hp as (i' & Ei'' & Ev').
      assert (i' = i) as -> by congruence. assert (v' = v) as -> by congruence. eauto.
    - intros (d & Hd & ->). exists v, d. done. }
  specialize (Hv v). destruct (assigned_in h (fill (mapper g) f vals) var) as [(x & Hx & ->)|[Hno ->]].
  - apply Hin in Hx as (d & Hd & ->). by rewrite Hd in Hv.
  - destruct (vals !! v) as [d|] eqn:Ed; [|done]. exfalso. apply (Hno (f d)), Hin. eauto.
Qed.

(** A consistent, non-empty graph: the model and its invariant. *)
Lemma computeModel_ok (s : STPSolver T) frames : running logic s frames → check_ s = SAT →
  addedEdges (graph (graphMgr s)) ≠ [] →
  wp t_err (λ s', ∃ m, model s' = Some m ∧ mapper (graphMgr s') = mapper (graphMgr s)
      ∧ store (graphMgr s') = mstore m ∧ model_ok (graphMgr s) m) (computeModel s).
Proof.
  intros Hr Hsat Ha. unfold check_ in Hsat. unfold computeModel.
  destruct (inv_asgn s); [done|]. pose proof (solver_mgr _ _ _ (rn_inv _ _ _ Hr)) as Hg.
  apply wp_bind. eapply wp_mono; [by apply createModel_wp|]. intros m Hm. simpl. eauto.
Qed.

Lemma frames_hold (s : STPSolver T) frames ρ y : running logic s frames → check_ s = SAT →
  valuation y → satisfies y (mgr_graph (graphMgr s)) → agrees logic (graphMgr s) ρ y →
  ∀ a, a ∈ all_lits frames → lit_holds logic ρ a.
Proof.
  intros Hr Hsat Hy Hs Hag a Ha. unfold check_ in Hsat.
  apply (lit_agrees logic (graphMgr s) ρ y a (rn_atoms _ _ _ Hr) Hag (rn_lits _ _ _ Hr a Ha)).
  destruct (rn_inv _ _ _ Hr) as [(core & Hc & _ & _ & Hinv)]. destruct (inv_asgn s); [done|]. subst core.
  by eapply core_solution.
Qed.

End stp.

(** ** Integers *)
Section idl.
Context {N : Type} `{Number N} (logic : Logic N) (getValue_ : N → res SafeInt).
Hypothesis Hids : ids_unique logic.

Lemma idl_values (m : STPModel SafeInt) (g : STPGraphManager SafeInt) : model_ok g m → valuation (model_value m).
Proof.
  intros Hm. split; [|apply Hm]. intros v. unfold model_value.
  destruct (valMap m !! v) as [d|]; simpl.
  - exists (- value d)%Z. unfold safe_val. by rewrite int_opp.
  - exists 0. rewrite int_zero, int_opp. done.
Qed.

Lemma idl_fill s frames : running logic s frames → check_ s = SAT → addedEdges (graph (graphMgr s)) ≠ [] →
  wp t_err (λ s', ∃ m, model s' = Some m ∧ wp t_err
      (λ vals, ∀ a, a ∈ all_lits frames → lit_holds logic (assigned of_Z vals) a)
      (fillTheoryFunctions_IDL (mapper (graphMgr s')) m)) (computeModel s).
Proof.
  intros Hr Hsat Ha. eapply wp_mono; [by apply (computeModel_ok logic s frames)|].
  intros s' (m & Em & Emap & _ & Hm). exists m. split; [done|]. rewrite Emap.
  unfold fillTheoryFunctions_IDL. apply wp_bind. eapply wp_mono; [apply getAllValues_wp|].
  intros vals Hv. cbn [wp].
  change (omap _ (map_to_list vals)) with (fill (mapper (graphMgr s)) value vals).
  apply (frames_hold logic s frames _ (model_value m) Hr Hsat (idl_values m _ Hm)).
  - intros d Hd. apply Hm. by apply Hm.
  - apply (fill_agrees logic Hids); [apply Hr | apply Hm |]. intros v. specialize (Hv v).
    unfold model_value in *. by destruct (valMap m !! v), (vals !! v).
Qed.

End idl.

(** ** Reals *)
Section rdl.
Context {M : Type} `{Number M}.

(** What the chosen infinitesimal is good for: the bounds of the edges scanned
    so far. *)
Definition below_bounds (delta : option (Delta M)) (l : list (lexq * lexq)) : Prop :=
  match delta with
  | None => ∀ a b, (a, b) ∈ l → (lr a < lr b)%Qc → (ld b < ld a)%Qc → False
  | Some d => ∃ q, dval d = Lex q 0 ∧ (0 < q)%Qc ∧ ∀ a b, (a, b) ∈ l → delta_ok q a b
  end.

Lemma real_lt a b : (Lex a 0 < Lex b 0)%lex ↔ (a < b)%Qc.
Proof.
  unfold llt. simpl. split; [|by left]. intros [Hl|[_ Hl]]; [done|]. by apply Qclt_not_eq in Hl.
Qed.

Lemma delta_ok_mono e e' a b : (e <= e')%Qc → delta_ok e' a b → delta_ok e a b.
Proof. intros He Hok H1 H2. specialize (Hok H1 H2). qc_nra. Qed.

Lemma delta_scan_wp (s : STPStore (Delta M)) vals delta r x df dt l :
  edges s !! r = Some x → vals !! from x = Some df → vals !! to x = Some dt →
  (dval df - dval dt <= dval (ecost x))%lex → below_bounds delta l →
  wp no_error (λ delta', below_bounds delta' (l ++ [(dval df - dval dt, dval (ecost x))%lex]))
    (delta_scan s vals delta r).
Proof.
  intros Ex Ef Et Hle Hb. unfold delta_scan, getEdge. apply wp_bind. eapply at_wp; [exact Ex|].
  unfold valueAt. rewrite Ef, Et. cbn [rbind].
  set (rd := Delta_sub df dt).
  assert (dval rd = (dval df - dval dt)%lex) as Erd by apply Delta_sub_val. rewrite <- Erd in *.
  set (u := ecost x) in *.
  assert (nval (R rd) = lr (dval rd) ∧ nval (D rd) = ld (dval rd)
    ∧ nval (R u) = lr (dval u) ∧ nval (D u) = ld (dval u)) as (Vr & Vd & Ur & Ud) by done.
  assert (n_lt (R u) (R rd) = false) as Hchk.
  { apply not_true_iff_false. rewrite n_lt_val, Ur, Vr. intros Hl. destruct Hle as [Hl'|[E _]]; qc_lra. }
  rewrite Hchk. cbn [rbind check negb].
  destruct (n_lt (R rd) (R u) && n_gt (D rd) (D u)) eqn:Eb.
  - apply andb_true_iff in Eb as [E1%n_lt_val E2]. unfold n_gt in E2. apply n_lt_val in E2.
    rewrite Vr, Ur in E1. rewrite Vd, Ud in E2.
    destruct (n_div_val (n_sub (R u) (R rd)) (n_sub (D rd) (D u))) as (v & -> & Ev).
    { rewrite n_sub_val, Vd, Ud. intros E. qc_lra. }
    rewrite !n_sub_val, Vr, Vd, Ur, Ud in Ev. cbn [rbind].
    assert (nval v * (ld (dval rd) - ld (dval u)) = lr (dval u) - lr (dval rd))%Qc as Em.
    { rewrite Ev, Qcmult_comm. apply Qcmult_div_r. intros E. qc_lra. }
    assert (0 < nval v)%Qc as Hpos.
    { apply Qcnot_le_lt. intros Hn. clear -E1 E2 Em Hn. generalize dependent (nval v). intros q Em Hn. qc_nra. }
    assert (n_gt v (n_of_Z 0) = true) as ->.
    { unfold n_gt. apply n_lt_val. rewrite n_of_Z_val by (unfold_widths; lia). by rewrite of_Z_0. }
    cbn [rbind check].
    assert (delta_ok (nval v) (dval rd) (dval u)) as Hok.
    { intros _ _. rewrite Qcmult_comm in Em. clear -Em. generalize dependent (nval v). intros q Em. qc_lra. }
    assert (∀ d', below_bounds (Some d') l → (∀ q, dval d' = Lex q 0 → (nval v < q)%Qc) →
      below_bounds (Some (Delta_Real v)) (l ++ [(dval rd, dval u)])) as Hnew.
    { intros d' (q & Eq & Hq & Hl) Hlt. exists (nval v). split; [apply Delta_Real_val|]. split; [done|].
      intros a b [Hin|[= -> ->]%list_elem_of_singleton]%elem_of_app; [|done].
      apply (delta_ok_mono _ q); [apply Qclt_le_weak; by apply Hlt | by apply Hl]. }
    destruct delta as [d|].
    + destruct (Delta_gt_Real d v) eqn:Eg.
      * apply Hnew with (d' := d); [done|]. intros q Eq. apply isGreater_val in Eg. by rewrite Eq, real_lt in Eg.
      * destruct Hb as (q & Eq & Hq & Hl). exists q. split; [done|]. split; [done|].
        intros a b [Hin|[= -> ->]%list_elem_of_singleton]%elem_of_app; [by apply Hl|].
        apply (delta_ok_mono _ (nval v)); [|done]. apply Qcnot_lt_le. intros Hlt.
        apply not_true_iff_false in Eg. apply Eg, isGreater_val. by rewrite Eq, real_lt.
    + simpl. exists (nval v). split; [apply Delta_Real_val|]. split; [done|].
      intros a b [Hin|[= -> ->]%list_elem_of_singleton]%elem_of_app; [|done].
      intros H1 H2. exfalso. by apply (Hb a b).
  - assert ((lr (dval rd) < lr (dval u))%Qc → (ld (dval u) < ld (dval rd))%Qc → False) as Hno.
    { intros H1 H2. apply not_true_iff_false in Eb. apply Eb, andb_true_iff. unfold n_gt.
      rewrite !n_lt_val. done. }
    cbn [wp]. destruct delta as [d|].
    + destruct Hb as (q & Eq & Hq & Hl). exists q. split; [done|]. split; [done|].
      intros a b [Hin|[= -> ->]%list_elem_of_singleton]%elem_of_app; [by apply Hl|].
      intros H1 H2. exfalso. by apply Hno.
    + intros a b [Hin|[= -> ->]%list_elem_of_singleton]%elem_of_app; [by apply (Hb a b) | done].
Qed.

Lemma chooseDelta_wp delta l : below_bounds delta l →
  wp no_error (λ e, (0 < nval e)%Qc ∧ ∀ a b, (a, b) ∈ l → delta_ok (nval e) a b) (chooseDelta delta).
Proof.
  intros Hb. assert (nval (n_of_Z 1) = 1%Qc) as E1 by (rewrite n_of_Z_val by (unfold_widths; lia); apply of_Z_1).
  assert (nval (n_of_Z 2) = (1 + 1)%Qc) as E2.
  { rewrite n_of_Z_val by (unfold_widths; lia). change 2 with (1 + 1). by rewrite of_Z_add, of_Z_1. }
  unfold chooseDelta. destruct delta as [d|]; simpl.
  - destruct Hb as (q & Eq & Hq & Hl). destruct (Delta_gt_Real d (n_of_Z 1)) eqn:Eg.
    + apply isGreater_val in Eg. rewrite Eq, E1 in Eg. simpl. rewrite E1. split; [done|].
      intros a b Hin. apply (delta_ok_mono _ q); [|by apply Hl].
      apply Qclt_le_weak. by rewrite real_lt in Eg.
    + destruct (n_div_val (R d) (n_of_Z 2)) as (v & -> & Ev); [rewrite E2; done|]. simpl.
      assert (nval (R d) = q) as Er by (change (lr (dval d) = q); by rewrite Eq). rewrite Er, E2 in Ev.
      assert (nval v * (1 + 1) = q)%Qc as Em.
      { rewrite Ev, Qcmult_comm. by apply Qcmult_div_r. }
      split; [qc_lra|]. intros a b Hin. apply (delta_ok_mono _ q); [qc_lra | by apply Hl].
  - rewrite E1. split; [done|]. intros a b Hin H1 H2. exfalso. by apply (Hb a b).
Qed.

Context {N : Type} `{Number N} (logic : Logic N).
Hypothesis Hids : ids_unique logic.

(** Every edge of the model's graph is scanned. *)
Lemma delta_scans_wp (g : STPGraphManager (Delta M)) m (vals : gmap VertexRef (Delta M)) :
  model_ok g m →
  (∀ v, match valMap m !! v, vals !! v with
        | Some _, Some d => t_val d = model_value m v
        | None, None => True
        | _, _ => False
        end) →
  wp no_error (λ delta, below_bounds delta ((λ d, (model_value m (src d) - model_value m (dst d), w d)%lex)
                 <$> model_graph m))
    (foldM (delta_scan (mstore m) vals) None (addedEdges (mgraph m))).
Proof.
  intros Hm Hv. unfold model_graph.
  apply foldM_wp with (I := λ pre _ delta, below_bounds delta
    ((λ d, (model_value m (src d) - model_value m (dst d), w d)%lex) <$> refs_graph (mstore m) pre)).
  - by intros a b ?%elem_of_nil.
  - intros pre r post delta Epre Hb.
    assert (r ∈ addedEdges (mgraph m)) as Hr by (rewrite Epre, elem_of_app, elem_of_cons; auto).
    destruct (gw_added _ _ (mo_wf _ _ Hm) r Hr) as (x & Ex & _).
    assert (dedge_of x ∈ model_graph m) as Hd by (apply elem_of_refs_graph; eauto).
    destruct (mo_has _ _ Hm _ Hd) as [[df Ef] [dt Et]]. simpl in Ef, Et.
    pose proof (Hv (from x)) as Hf. pose proof (Hv (to x)) as Ht. rewrite Ef in Hf. rewrite Et in Ht.
    destruct (vals !! from x) as [df'|] eqn:Ef'; [|done]. destruct (vals !! to x) as [dt'|] eqn:Et'; [|done].
    pose proof (mo_sat _ _ Hm _ Hd) as Hle. simpl in Hf, Ht, Hle.
    assert (refs_graph (mstore m) (pre ++ [r]) = refs_graph (mstore m) pre ++ [dedge_of x]) as ->.
    { unfold refs_graph. rewrite omap_app. f_equal. cbn [omap list_omap]. by rewrite Ex. }
    rewrite fmap_app. cbn [fmap list_fmap]. simpl. rewrite <- Hf, <- Ht.
    apply delta_scan_wp; [done | done | done | by rewrite Hf, Ht | done].
Qed.

Lemma rdl_fill (s : STPSolver (Delta M)) frames : running logic s frames → check_ s = SAT →
  addedEdges (graph (graphMgr s)) ≠ [] →
  ∃ s' m vals, computeModel s = Ok s' ∧ model s' = Some m
    ∧ fillTheoryFunctions_RDL (store (graphMgr s')) (mapper (graphMgr s')) m = Ok vals
    ∧ ∀ a, a ∈ all_lits frames → lit_holds logic (assigned nval vals) a.
Proof.
  intros Hr Hsat Ha. pose proof (computeModel_ok logic s frames Hr Hsat Ha) as Hwp.
  apply wp_total in Hwp as (s' & Es' & m & Em & Emap & Est & Hm).
  assert (wp no_error (λ vals, ∀ a, a ∈ all_lits frames → lit_holds logic (assigned nval vals) a)
    (fillTheoryFunctions_RDL (store (graphMgr s')) (mapper (graphMgr s')) m)) as Hfill.
  { rewrite Emap, Est. unfold fillTheoryFunctions_RDL. apply wp_bind.
    eapply wp_mono; [exact (getAllValues_wp (T := Delta M) m)|]. intros vals Hv.
    apply wp_bind. eapply wp_mono; [by apply (delta_scans_wp (graphMgr s))|]. intros delta Hb.
    apply wp_bind. eapply wp_mono; [by apply chooseDelta_wp with (1 := Hb)|]. intros e [He Hok]. cbn [wp].
    change (omap _ (map_to_list vals)) with
      (fill (mapper (graphMgr s)) (λ d, n_add (R d) (n_mul (D d) e)) vals).
    assert (∀ d : Delta M, nval (n_add (R d) (n_mul (D d) e)) = at_delta (nval e) (dval d)) as Hval.
    { intros d. by rewrite n_add_val, n_mul_val. }
    assert (at_delta (nval e) lzero = 0%Qc) as Hz by (unfold at_delta; simpl; ring).
    apply (frames_hold logic s frames _ (λ v, Lex (at_delta (nval e) (model_value m v)) 0) Hr Hsat).
    - split; [intros v; eexists; done|]. rewrite (mo_zero _ _ Hm), Hz. done.
    - intros d Hd. apply (mo_graph _ _ Hm) in Hd as Hdm.
      pose proof (solver_mgr _ _ _ (rn_inv _ _ _ Hr)) as Hg.
      pose proof (at_delta_edge (nval e) _ _ He (mo_sat _ _ Hm d Hdm)) as Hle.
      rewrite at_delta_sub in Hle. eapply lle_trans; [|apply Hle].
      + right. split; [done | apply Qcle_refl].
      + apply Hok, list_elem_of_fmap. eauto.
      + apply delta_grid_nonpos. by apply (mgr_grid _ _ Hg Hd).
    - apply (fill_agrees logic Hids); [apply Hr | by rewrite (mo_zero _ _ Hm), Hz |].
      intros v. specialize (Hv v). destruct (valMap m !! v) as [d0|] eqn:Ev, (vals !! v) as [d|] eqn:Ed; try done.
      + rewrite Hval. by rewrite <- Hv.
      + unfold model_value. rewrite Ev. simpl. rewrite at_delta_opp, Hz. done. }
  apply wp_total in Hfill as (vals & Ev & Hl). exists s', m, vals. done.
Qed.

End rdl.
