(* ===== verification/StpTheorems.v ===== *)
(** * The difference-logic solver: what its callers rely on

    The theorems hold of the integer solver ([IDLSolver], costs in [SafeInt])
    and of the real one ([RDLSolver], costs in [Delta]): both are instances of
    [STPNum].  [wp t_err] says that an operation ends, and that the only errors
    it may stop with are those of the cost arithmetic: the exceptions of
    [SafeInt] on overflow, none for [Delta]. *)
From stdpp Require Import gmap.
From S2P Require Import Prelude Gmp FastRational FastRationalFacts FastRationalInt Number Lex Delta DiffGraph StpNum Terms TSolver StpStore.
From S2P Require Import StpSearch StpInvariant StpSolver StpBacktrack StpExplain StpModel StpRefine StpReach.
From Stdlib Require Import Sorted Lia.

Section stp.
Context {T : Type} `{STPNum T}.
Context {N : Type} `{Number N} (logic : Logic N) (getValue_ : N → res T).
Hypothesis Hids : ids_unique logic.

Implicit Types (g : STPGraphManager T) (s : STPSolver T) (a : PtAsgn).

(** Every solution of [lits] makes [a] true. *)
Definition entails (lits : list PtAsgn) a : Prop :=
  ∀ ρ, theory_valuation ρ → (∀ b, b ∈ lits → lit_holds logic ρ b) → lit_holds logic ρ a.

Lemma core_of s frames : solver_inv logic s frames → inv_asgn s = None → core_inv logic s frames.
Proof. intros [(core & Hc & _ & _ & Hinv)] Hi. rewrite Hi in Hinv. by subst. Qed.

(** The two worlds agree on what follows from the frames. *)
Lemma entails_edges s frames a : running logic s frames → declared_lit logic (graphMgr s) a →
  entails (all_lits frames) a ↔
  ∀ y, valuation y → (∀ b, b ∈ all_lits frames → lit_true logic (graphMgr s) y b) →
    lit_true logic (graphMgr s) y a.
Proof.
  intros [R1 R2 R3 R4] Ha. split.
  - intros He y Hy Hl. destruct (term_values_ok logic (graphMgr s) y Hy) as [Hv Hag].
    apply (lit_agrees logic (graphMgr s) _ y a R2 Hag Ha), He; [done|].
    intros b Hb. apply (lit_agrees logic (graphMgr s) _ y b R2 Hag); auto.
  - intros He ρ Hρ Hl. destruct (vertex_values_ok logic Hids (graphMgr s) ρ R2 Hρ) as [Hv Hag].
    apply (lit_agrees logic (graphMgr s) ρ _ a R2 Hag Ha), He; [done|].
    intros b Hb. apply (lit_agrees logic (graphMgr s) ρ _ b R2 Hag); auto.
Qed.

Lemma core_sub s frames : solver_inv logic s frames → ∃ core, core_inv logic s core
  ∧ (∀ a, a ∈ all_lits core → a ∈ all_lits frames).
Proof.
  intros [(core & Hc & Hlen & Hsub & _)]. exists core. split; [done|].
  intros a (i & fr & Hi & Ha)%elem_of_lits. destruct (Hsub i fr Hi) as (fr' & Hi' & Hs).
  apply elem_of_lits. exists i, fr'. auto.
Qed.

(** A literal whose edge is true follows from the frames. *)
Lemma true_entailed s frames a r : running logic s frames → declared_lit logic (graphMgr s) a →
  lit_ref logic (graphMgr s) a r → (0 < time (store (graphMgr s)) r)%nat → entails (all_lits frames) a.
Proof.
  intros Hr Ha Href Hp. apply (entails_edges s frames a Hr Ha). intros y Hy Hl.
  destruct (core_sub s frames (rn_inv _ _ _ Hr)) as (core & Hc & Hsub). pose proof (ci_mgr _ _ _ Hc) as Hg.
  assert (satisfies y (mgr_graph (graphMgr s))) as Hs by (eapply core_constraints; eauto).
  destruct (lit_ref_listed _ _ _ _ Hg Href) as (x & Hx).
  apply (lit_true_edge _ _ _ _ _ _ Hg Hy Href Hx), (satisfies_implied y (mgr_graph (graphMgr s))); [done|].
  apply (true_implied _ r x Hg Hx). rewrite (time_lookup _ _ _ (proj1 Hx)) in Hp. lia.
Qed.

(** A literal that is not true has a solution of the frames in which it is
    false. *)
Lemma untrue_refuted s frames a r : core_inv logic s frames → lit_ref logic (graphMgr s) a r →
  time (store (graphMgr s)) r = 0%nat → ∃ y, valuation y
    ∧ (∀ b, b ∈ all_lits frames → lit_true logic (graphMgr s) y b) ∧ ¬ lit_true logic (graphMgr s) y a.
Proof.
  intros Hc Href Hz. pose proof (ci_mgr _ _ _ Hc) as Hg.
  destruct (lit_ref_listed _ _ _ _ Hg Href) as (x & Hx).
  destruct (mi_neg _ Hg r x Hx) as (n & xn & En & _ & Hxn & Enx & Ef & Et & Ho).
  assert (nonneg (dedge_of xn :: mgr_graph (graphMgr s))) as Hnn.
  { apply (add_nonneg _ n xn Hg Hxn). intros r' Er'. congruence. }
  set (G := dedge_of xn :: mgr_graph (graphMgr s)) in *.
  assert (∀ d, d ∈ G → t_grid (w d)) as Hgrid.
  { intros d [->|Hd]%elem_of_cons; [apply Ho | by eapply mgr_grid]. }
  destruct (t_concretize G (λ v, - pot G v)%lex) as (y & Hp & Hs & Hy0); [done| | by apply pot_satisfies |].
  { intros v. replace (- - pot G v)%lex with (pot G v) by lex.
    apply pot_closed; [apply t_grid_zero | apply t_grid_add | done]. }
  exists y. assert (valuation y) as Hy by done. split; [done|]. split.
  - apply (core_solution logic s frames y Hc Hy). intros d Hd. apply Hs. by right.
  - rewrite (lit_true_edge _ _ _ _ _ _ Hg Hy Href Hx).
    assert (y (from xn) - y (to xn) <= t_val (ecost xn))%lex as Hle
      by (apply (Hs (dedge_of xn)); by left).
    rewrite Ef, Et in Hle. pose proof (op_neg _ _ Ho). intros Hle'. lex.
Qed.

(** ** Claims *)


(** C16: [assertLit] of a declared literal ends without an index out of range,
    a failed assertion or a search that does not terminate; it answers true
    exactly when the asserted literals, the new one included, are satisfiable. *)
Theorem assertLit_correct s fs fr a : reach logic getValue_ false s (fs ++ [fr]) →
  declared_lit logic (graphMgr s) a →
  wp t_err (λ '(b, s'), reach logic getValue_ false s' (fs ++ [fr ++ [a]])
      ∧ (b = true ↔ theory_sat logic (all_lits (fs ++ [fr ++ [a]]))))
    (assertLit logic s a).
Proof.
  intros Hr Ha. pose proof (reach_running logic getValue_ Hids _ _ Hr) as Hrun.
  pose proof (assert_inv logic s fs fr a (rn_inv _ _ _ Hrun) Ha) as Hwp.
  destruct (assertLit logic s a) as [[b s']|e] eqn:E; [|done]. destruct Hwp as (H1 & H2 & _).
  assert (reach logic getValue_ false s' (fs ++ [fr ++ [a]])) as Hr' by (by eapply reach_assert).
  split; [done|]. apply (reach_running logic getValue_ Hids) in Hr'.
  rewrite <- (running_satisfiable logic Hids s' _) by (done || apply Hr').
  destruct (check_correct logic s' _ H1) as [Hv Hc]. rewrite <- Hc, Hv, H2. by destruct (inv_asgn s').
Qed.

(** C29: theory propagation is sound: every literal among the deductions kept
    for the SAT solver, whether handed over already or not, is true in all
    solutions of the asserted literals. *)
Theorem deductions_sound s frames d : reach logic getValue_ false s frames →
  d ∈ th_deductions (base_ s) → entails (all_lits frames) (MkPtAsgn (rtr d) (rsgn d)).
Proof.
  intros Hr%(reach_running logic getValue_ Hids) [k Hk]%list_elem_of_lookup_1.
  destruct (core_sub s frames (rn_inv _ _ _ Hr)) as (core & Hc & Hsub).
  pose proof (ci_len _ _ _ Hc) as Hlen. destruct (ci_base _ _ _ Hc) as [Hw Hl].
  destruct (ci_ded _ _ _ Hc k d (length (backtrack_points s)) Hk) as (r & Href & Hp & _); [|lia|].
  - unfold ded_limit. rewrite lookup_ge_None_2 by lia. simpl. by apply lookup_lt_Some in Hk.
  - apply (true_entailed s frames _ r Hr); [|done|done].
    split; [|destruct Href as (e & ? & ? & ? & _); eauto].
    destruct Href as (? & ? & ? & _ & _ & _ & [[-> _]|[-> _]]); done.
Qed.

(** C28: propagation is complete: in a consistent state the edge of a declared
    literal is marked true exactly when the asserted literals entail it, for
    every literal and not only for those that were asserted. *)
Theorem propagation_complete s frames a : reach logic getValue_ false s frames → check_ s = SAT →
  declared_lit logic (graphMgr s) a →
  ∃ r b, lit_ref logic (graphMgr s) a r ∧ isTrue (graphMgr s) r = Ok b
    ∧ (b = true ↔ entails (all_lits frames) a).
Proof.
  intros Hr%(reach_running logic getValue_ Hids) Hsat Ha. unfold check_ in Hsat.
  assert (inv_asgn s = None) as Hi by (by destruct (inv_asgn s)).
  pose proof (core_of s frames (rn_inv _ _ _ Hr) Hi) as Hc.
  destruct (assert_edges logic s frames a Hc Ha)
    as (e & x & n & r & xr & nr & xn & _ & _ & _ & _ & _ & Href & Hxr & _).
  exists r. eexists. split; [done|]. split; [apply (isTrue_time _ _ _ (proj1 Hxr))|].
  destruct (Nat.eqb_spec (time (store (graphMgr s)) r) 0) as [Hz|Hz]; simpl.
  - split; [done|]. intros He. exfalso. pose proof (proj1 (entails_edges s frames a Hr Ha) He) as He'.
    destruct (untrue_refuted s frames a r Hc Href Hz) as (y & Hy & Hl & Hn). by apply Hn, He'.
  - split; [|done]. intros _. apply (true_entailed s frames a r Hr Ha Href). lia.
Qed.

(** C30: a conflict is a real one: in an inconsistent state [getConflict]
    returns asserted literals that no valuation satisfies together, and the
    search for the explanation ends. *)
Theorem getConflict_sound s frames : reach logic getValue_ false s frames → check_ s = UNSAT →
  wp t_err (λ c, c ⊆ all_lits frames ∧ ¬ theory_sat logic c) (getConflict logic s []).
Proof.
  intros Hr%(reach_running logic getValue_ Hids) Hun. eapply wp_mono.
  - apply (conflict_sound logic s frames (rn_inv _ _ _ Hr)). intros E. unfold check_ in Hun. by rewrite E in Hun.
  - intros c [Hsub Hno]. split; [done|].
    rewrite <- (running_satisfiable logic Hids s frames c Hr); [done|]. intros a Ha. by apply Hr, Hsub.
Qed.


(** C17: backtracking never fails and is exact: popping any number of open
    backtrack points, at once, ends in a state whose verdict is that of the
    frames left. *)
Theorem popBacktrackPoints_correct s frames i : reach logic getValue_ false s frames →
  (i < length frames)%nat →
  ∃ s', popBacktrackPoints s i = Ok s' ∧ reach logic getValue_ false s' (take (length frames - i) frames)
    ∧ (check_ s' = SAT ↔ theory_sat logic (all_lits (take (length frames - i) frames))).
Proof.
  intros Hr Hi. pose proof (reach_running logic getValue_ Hids _ _ Hr) as Hrun.
  destruct (pop_inv logic s frames i (rn_inv _ _ _ Hrun) Hi) as (s' & E & H1 & H2).
  assert (reach logic getValue_ false s' (take (length frames - i) frames)) as Hr' by (by eapply reach_pop).
  exists s'. split; [done|]. split; [done|]. apply (reach_running logic getValue_ Hids) in Hr'.
  rewrite <- (running_satisfiable logic Hids s' _) by (done || apply Hr').
  by apply check_correct.
Qed.

(** [declareAtom] never fails on an atom [k ≤ x - y] (either variable may
    be absent, the other order of the sum is allowed too) whose constant the
    cost type holds: the atom gets an edge, and every atom declared before
    keeps its own. *)
Theorem declareAtom_total s t : reach logic getValue_ true s [[]] → atom_wf logic getValue_ t →
  ∃ s', declareAtom logic getValue_ s t = Ok s' ∧ reach logic getValue_ true s' [[]]
    ∧ (∃ e, getEdgeRef_leq logic (mapper (graphMgr s')) t = Ok (Some e))
    ∧ (∀ t' e, getEdgeRef_leq logic (mapper (graphMgr s)) t' = Ok (Some e) →
         getEdgeRef_leq logic (mapper (graphMgr s')) t' = Ok (Some e)).
Proof.
  intros Hr Hw. pose proof (reach_inv logic getValue_ Hids _ _ _ Hr) as [Hd _].
  destruct (declareAtom_ok logic getValue_ Hids s t Hd Hw) as (s' & E & _ & H1 & H2).
  exists s'. split; [done|]. split; [by eapply reach_declare | done].
Qed.

(** [parseRef] reads the atom's meaning: the parsed constraint [y - x ≤ c]
    holds under a valuation exactly when the term does. *)
Theorem parseRef_meaning t k x y c ρ : dl_atom logic t k x y → getValue_ (n_neg k) = Ok c →
  t_val c = Lex (- nval k) 0 →
  ∃ p, parseRef logic getValue_ t = Ok p
    ∧ (leq_holds logic ρ t
       ↔ (Lex (var_value ρ (py p)) 0 - Lex (var_value ρ (px p)) 0 <= t_val (pc p))%lex).
Proof.
  intros Hat Hc Hv. rewrite (parseRef_dl logic getValue_ t k x y Hat), Hc. eexists. split; [done|]. simpl.
  by rewrite Hv, lex_diff_le, (dl_atom_holds logic ρ t k x y Hat).
Qed.

End stp.

(** ** Models *)
Section models.
Context {N : Type} `{Number N} (logic : Logic N).
Hypothesis Hids : ids_unique logic.

(** C32: the integer model: in a consistent state with a constraint in the
    graph, [computeModel] and [fillTheoryFunctions] of the integer solver end
    (or report an overflow), and the integers they give the variables satisfy
    every asserted literal. *)
Theorem idl_model_satisfies getValue_ (s : STPSolver SafeInt) frames :
  reach logic getValue_ false s frames → check_ s = SAT → addedEdges (graph (graphMgr s)) ≠ [] →
  wp t_err (λ s', ∃ m, model s' = Some m ∧ wp t_err
      (λ vals, ∀ a, a ∈ all_lits frames → lit_holds logic (assigned of_Z vals) a)
      (fillTheoryFunctions_IDL (mapper (graphMgr s')) m)) (computeModel s).
Proof. intros Hr%(reach_running logic getValue_ Hids) Hsat Ha. by apply idl_fill. Qed.


(** once every edge was removed again by backtracking, the adjacency
    lists are still there but empty: [createModel] does not take its early exit
    and the search then reads the list of the starting point, which has none. *)
Theorem emptied_graph_model_out_of_range {T} `{STPNum T} getValue_ (s : STPSolver T) frames :
  reach logic getValue_ false s frames → check_ s = SAT →
  addedEdges (graph (graphMgr s)) = [] → outgoing (graph (graphMgr s)) ≠ [] →
  computeModel s = Err Out_of_range.
Proof.
  intros Hr%(reach_running logic getValue_ Hids) Hsat Ha Ho. unfold check_ in Hsat. unfold computeModel.
  destruct (inv_asgn s); [done|]. rewrite createModel_emptied; [done | | done | done].
  by apply (solver_mgr logic s frames), Hr.
Qed.

End models.

(** ** A run of the integer solver *)

Definition logic_of {N : Type} (l : list (sym N * list PTRef)) : Logic N :=
  λ t, (λ '(f, a), MkPterm f a t) <$> l !! t.

Lemma logic_of_ids {N} (l : list (sym N * list PTRef)) : ids_unique (logic_of l).
Proof.
  intros t t' p p'. unfold logic_of.
  destruct (l !! t) as [[f a]|], (l !! t') as [[f' a']|]; try done. by intros [= <-] [= <-].
Qed.

(** Three variables [x], [y], [z] and the atoms [5 ≤ x - y], [-1 ≤ y - z],
    [-10 ≤ x - z] and [5 ≤ x - z]. *)
Definition dl_terms {N : Type} `{Number N} : list (sym N * list PTRef) :=
  [(SNumVar, []); (SNumVar, []); (SNumVar, []); (SNumConst (n_of_Z (-1)), []);
   (STimes, [3; 1]%nat); (STimes, [3; 2]%nat);
   (SPlus, [0; 4]%nat); (SPlus, [1; 5]%nat); (SPlus, [5; 0]%nat); (SNumConst (n_of_Z 5), []);
   (SLeq, [9; 6]%nat); (SLeq, [3; 7]%nat); (SNumConst (n_of_Z (-10)), []); (SLeq, [12; 8]%nat);
   (SLeq, [9; 8]%nat)].

Definition dl_logic {N : Type} `{Number N} : Logic N := logic_of dl_terms.

Section dl_atoms.
Context {N : Type} `{Number N}.
Hypothesis Hm1 : n_eq (n_of_Z (N := N) (-1)) (n_of_Z (-1)) = true.

Lemma dl_minus (m y : PTRef) : (m = 4 ∧ y = 1)%nat ∨ (m = 5 ∧ y = 2)%nat → minus_var (dl_logic (N := N)) m y.
Proof.
  intros [[-> ->]|[-> ->]]; eexists _, _, _, _; repeat (split; [done|]); by eexists.
Qed.

Lemma dl_atom_10 : dl_atom (dl_logic (N := N)) 10 (n_of_Z 5) (Some 0%nat) (Some 1%nat).
Proof.
  eexists _, _, _, _. repeat (split; [done|]).
  eapply rhs_diff; [done | done | by left | by eexists | by apply dl_minus; left].
Qed.
Lemma dl_atom_11 : dl_atom (dl_logic (N := N)) 11 (n_of_Z (-1)) (Some 1%nat) (Some 2%nat).
Proof.
  eexists _, _, _, _. repeat (split; [done|]).
  eapply rhs_diff; [done | done | by left | by eexists | by apply dl_minus; right].
Qed.
Lemma dl_atom_13 : dl_atom (dl_logic (N := N)) 13 (n_of_Z (-10)) (Some 0%nat) (Some 2%nat).
Proof.
  eexists _, _, _, _. repeat (split; [done|]).
  eapply rhs_diff; [done | done | by right | by eexists | by apply dl_minus; right].
Qed.
Lemma dl_atom_14 : dl_atom (dl_logic (N := N)) 14 (n_of_Z 5) (Some 0%nat) (Some 2%nat).
Proof.
  eexists _, _, _, _. repeat (split; [done|]).
  eapply rhs_diff; [done | done | by right | by eexists | by apply dl_minus; right].
Qed.

End dl_atoms.

(** The states of a run, for any of the two solvers. *)
Section run.
Context {T : Type} `{STPNum T} {N : Type} `{Number N} (getValue_ : N → res T).
Definition run_declare (s : STPSolver T) (t : PTRef) : STPSolver T :=
  get s (declareAtom dl_logic getValue_ s t).
Definition run_assert (s : STPSolver T) (a : PtAsgn) : STPSolver T :=
  snd (get (false, s) (assertLit dl_logic s a)).

Definition st_declared : STPSolver T :=
  run_declare (run_declare (run_declare (run_declare STPSolver_init 10) 11) 13) 14.
Definition st_first : STPSolver T := run_assert (pushBacktrackPoint st_declared) (MkPtAsgn 10 l_True).
Definition st_second : STPSolver T := run_assert (pushBacktrackPoint st_first) (MkPtAsgn 11 l_True).
Definition st_conflict : STPSolver T := run_assert (pushBacktrackPoint st_second) (MkPtAsgn 13 l_False).
End run.

Section run_reach.
Context {T : Type} `{STPNum T} {N : Type} `{Number N} (getValue_ : N → res T).
Let logic : Logic N := dl_logic.
Let ids : ids_unique logic := logic_of_ids _.

Lemma run_declare_reach (s : STPSolver T) t : reach logic getValue_ true s [[]] →
  atom_wf logic getValue_ t → reach logic getValue_ true (run_declare getValue_ s t) [[]].
Proof.
  intros Hr Hw. destruct (declareAtom_ok logic getValue_ ids s t) as (s' & E & _).
  - by apply (reach_inv logic getValue_ ids true s [[]]).
  - done.
  - eapply reach_declare; [exact Hr | exact Hw|]. unfold run_declare, logic in *. by rewrite E.
Qed.

Lemma run_assert_reach (s : STPSolver T) fs f a : reach logic getValue_ false s (fs ++ [f]) →
  declared_lit logic (graphMgr s) a → is_ok (assertLit logic s a) = true →
  reach logic getValue_ false (run_assert (N := N) s a) (fs ++ [f ++ [a]]).
Proof.
  intros Hr Ha Hok. unfold run_assert, logic in *. destruct (assertLit _ s a) as [[b s']|] eqn:E; [|done].
  simpl. exact (reach_assert _ _ s fs f a b s' Hr Ha E).
Qed.

Definition is_declared (s : STPSolver T) (t : PTRef) : bool :=
  match getEdgeRef_leq logic (mapper (graphMgr s)) t with Ok (Some _) => true | _ => false end.

Lemma declared_by (s : STPSolver T) a : is_declared s (tr a) = true → sgn a ≠ l_Undef →
  declared_lit logic (graphMgr s) a.
Proof.
  unfold is_declared. intros Hd Hs. split; [done|].
  destruct (getEdgeRef_leq _ _ _) as [[e|]|]; [eauto | done | done].
Qed.


End run_reach.

(** The literals of the run. *)
Definition lit10 : PtAsgn := MkPtAsgn 10 l_True.
Definition lit11 : PtAsgn := MkPtAsgn 11 l_True.
Definition lit13 : PtAsgn := MkPtAsgn 13 l_True.
Definition not13 : PtAsgn := MkPtAsgn 13 l_False.

(** *** Integers *)

Definition idl_logic : Logic fr := dl_logic.
Definition idl_getValue : fr → res SafeInt := Converter_SafeInt_getValue.
Definition idl_ids : ids_unique idl_logic := logic_of_ids _.

Lemma idl_atom_wf t (k : Z) x y : dl_atom idl_logic t (n_of_Z k) x y → x ≠ y →
  in_word k → atom_wf idl_logic idl_getValue t.
Proof.
  intros Hat Hne Hk. assert (val (proj1_sig (n_neg (n_of_Z k : fr))) = of_Z (- k)) as Hv.
  { change (nval (n_neg (n_of_Z k : fr)) = of_Z (- k)). by rewrite n_neg_val, n_of_Z_val, of_Z_opp. }
  destruct (SafeInt_getValue_exact _ _ Hv) as (c & Hc & Hcv); [unfold_widths; lia|].
  exists (n_of_Z k), x, y, c. split; [done|]. split; [done|]. split; [done|]. simpl.
  unfold safe_val. rewrite Hcv, of_Z_opp. change (val (proj1_sig (fr_of_Z k))) with (nval (n_of_Z k : fr)).
  rewrite n_of_Z_val by done. split; [done|]. unfold_widths. unfold PTRDIFF_MAX. unfold_widths. lia.
Qed.

Lemma idl_declared_reach : reach idl_logic idl_getValue true (st_declared idl_getValue) [[]].
Proof.
  do 4 (apply run_declare_reach; [|eapply idl_atom_wf;
    [first [apply dl_atom_10 | apply dl_atom_11 | apply dl_atom_13 | apply dl_atom_14]; vm_compute; reflexivity
    | done | unfold_widths; lia]]).
  apply reach_init.
Qed.

Lemma idl_first_reach : reach idl_logic idl_getValue false (st_first idl_getValue) [[]; [lit10]].
Proof.
  apply (run_assert_reach idl_getValue _ [[]] [] lit10); [|by apply declared_by; vm_compute | by vm_compute].
  apply (reach_push _ _ _ [[]]), reach_solve, idl_declared_reach.
Qed.

Lemma idl_second_reach : reach idl_logic idl_getValue false (st_second idl_getValue) [[]; [lit10]; [lit11]].
Proof.
  apply (run_assert_reach idl_getValue _ [[]; [lit10]] [] lit11); [|by apply declared_by; vm_compute | by vm_compute].
  apply (reach_push _ _ _ [[]; [lit10]]), idl_first_reach.
Qed.

Lemma idl_conflict_reach :
  reach idl_logic idl_getValue false (st_conflict idl_getValue) [[]; [lit10]; [lit11]; [not13]].
Proof.
  apply (run_assert_reach idl_getValue _ [[]; [lit10]; [lit11]] [] not13); [|by apply declared_by; vm_compute | by vm_compute].
  apply (reach_push _ _ _ [[]; [lit10]; [lit11]]), idl_second_reach.
Qed.


Lemma assertLit_correct_witness :
  wp t_err (λ '(b, s'), reach idl_logic idl_getValue false s' [[]; [lit10]; [lit11; not13]]
      ∧ (b = true ↔ theory_sat (T := SafeInt) idl_logic [lit10; lit11; not13]))
    (assertLit idl_logic (st_second idl_getValue) not13).
Proof.
  apply (assertLit_correct idl_logic idl_getValue idl_ids (st_second idl_getValue) [[]; [lit10]] [lit11] not13).
  - apply idl_second_reach.
  - by apply declared_by; vm_compute.
Defined.

Lemma deductions_sound_witness :
  MkPtAsgn_reason 13 l_True None ∈ th_deductions (base_ (st_second idl_getValue))
  ∧ entails (T := SafeInt) idl_logic [lit10; lit11] lit13.
Proof.
  assert (MkPtAsgn_reason 13 l_True None ∈ th_deductions (base_ (st_second idl_getValue))) as Hd.
  { apply (list_elem_of_lookup_2 _ 0). by vm_compute. }
  split; [exact Hd|].
  apply (deductions_sound idl_logic idl_getValue idl_ids (st_second idl_getValue) [[]; [lit10]; [lit11]]
    (MkPtAsgn_reason 13 l_True None)); [apply idl_second_reach | exact Hd].
Defined.

Lemma propagation_complete_witness : ∃ r b, lit_ref idl_logic (graphMgr (st_second idl_getValue)) lit13 r
  ∧ isTrue (graphMgr (st_second idl_getValue)) r = Ok b
  ∧ (b = true ↔ entails (T := SafeInt) idl_logic [lit10; lit11] lit13).
Proof.
  apply (propagation_complete idl_logic idl_getValue idl_ids (st_second idl_getValue) [[]; [lit10]; [lit11]] lit13).
  - apply idl_second_reach.
  - by vm_compute.
  - by apply declared_by; vm_compute.
Defined.

Lemma getConflict_sound_witness :
  getConflict idl_logic (st_conflict idl_getValue) [] = Ok [not13; lit10; lit11]
  ∧ ¬ theory_sat (T := SafeInt) idl_logic [not13; lit10; lit11].
Proof.
  assert (getConflict idl_logic (st_conflict idl_getValue) [] = Ok [not13; lit10; lit11]) as E by by vm_compute.
  split; [exact E|].
  pose proof (getConflict_sound idl_logic idl_getValue idl_ids (st_conflict idl_getValue) _ idl_conflict_reach
    ltac:(by vm_compute)) as Hwp.
  rewrite E in Hwp. apply Hwp.
Defined.


Lemma popBacktrackPoints_correct_witness : ∃ s', popBacktrackPoints (st_conflict idl_getValue) 2 = Ok s'
  ∧ reach idl_logic idl_getValue false s' [[]; [lit10]]
  ∧ (check_ s' = SAT ↔ theory_sat (T := SafeInt) idl_logic [lit10]).
Proof.
  apply (popBacktrackPoints_correct idl_logic idl_getValue idl_ids (st_conflict idl_getValue)
    [[]; [lit10]; [lit11]; [not13]] 2).
  - apply idl_conflict_reach.
  - simpl. lia.
Defined.

Lemma declareAtom_total_witness : ∃ s', declareAtom idl_logic idl_getValue STPSolver_init 10 = Ok s'
  ∧ reach idl_logic idl_getValue true s' [[]]
  ∧ (∃ e, getEdgeRef_leq idl_logic (mapper (graphMgr s')) 10 = Ok (Some e))
  ∧ (∀ t' e, getEdgeRef_leq idl_logic (mapper (graphMgr (STPSolver_init (T := SafeInt)))) t' = Ok (Some e) →
       getEdgeRef_leq idl_logic (mapper (graphMgr s')) t' = Ok (Some e)).
Proof.
  apply (declareAtom_total idl_logic idl_getValue idl_ids STPSolver_init 10).
  - apply reach_init.
  - eapply idl_atom_wf; [apply dl_atom_10; by vm_compute | done | unfold_widths; lia].
Defined.

Lemma idl_model_satisfies_witness : wp t_err (λ s', ∃ m, model s' = Some m ∧ wp t_err
      (λ vals, ∀ a, a ∈ [lit10; lit11] → lit_holds idl_logic (assigned of_Z vals) a)
      (fillTheoryFunctions_IDL (mapper (graphMgr s')) m)) (computeModel (st_second idl_getValue)).
Proof.
  apply (idl_model_satisfies idl_logic idl_ids idl_getValue (st_second idl_getValue) [[]; [lit10]; [lit11]]).
  - apply idl_second_reach.
  - by vm_compute.
  - by vm_compute.
Defined.

(** *** Reals *)

Definition rdl_logic : Logic Qc := dl_logic.
Definition rdl_getValue (v : Qc) : res (Delta Qc) := Ok (Converter_Delta_getValue v).
Definition rdl_ids : ids_unique rdl_logic := logic_of_ids _.

Lemma rdl_atom_wf t k x y : dl_atom rdl_logic t k x y → x ≠ y → atom_wf rdl_logic rdl_getValue t.
Proof.
  intros Hat Hne. exists k, x, y, (Converter_Delta_getValue (n_neg k)).
  split; [done|]. split; [done|]. split; [done|]. split; [|by vm_compute].
  unfold Converter_Delta_getValue. change (MkDelta (n_neg k) (n_of_Z 0)) with (Delta_Real (n_neg k)).
  change (t_val (Delta_Real (n_neg k))) with (dval (Delta_Real (n_neg k))).
  by rewrite Delta_Real_val, n_neg_val.
Qed.

Lemma rdl_declared_reach : reach rdl_logic rdl_getValue true (st_declared rdl_getValue) [[]].
Proof.
  do 4 (apply run_declare_reach; [|eapply rdl_atom_wf;
    [first [apply dl_atom_10 | apply dl_atom_11 | apply dl_atom_13 | apply dl_atom_14]; vm_compute; reflexivity
    | done]]).
  apply reach_init.
Qed.

Definition not14 : PtAsgn := MkPtAsgn 14 l_False.

(** The strict constraint [x - z < 5] beside [5 ≤ x - y]. *)
Definition rdl_strict : STPSolver (Delta Qc) :=
  run_assert (N := Qc) (pushBacktrackPoint (st_first rdl_getValue)) not14.

Lemma rdl_first_reach : reach rdl_logic rdl_getValue false (st_first rdl_getValue) [[]; [lit10]].
Proof.
  apply (run_assert_reach rdl_getValue _ [[]] [] lit10); [|by apply declared_by; vm_compute | by vm_compute].
  apply (reach_push _ _ _ [[]]), reach_solve, rdl_declared_reach.
Qed.

Lemma rdl_strict_reach : reach rdl_logic rdl_getValue false rdl_strict [[]; [lit10]; [not14]].
Proof.
  apply (run_assert_reach rdl_getValue _ [[]; [lit10]] [] not14); [|by apply declared_by; vm_compute | by vm_compute].
  apply (reach_push _ _ _ [[]; [lit10]]), rdl_first_reach.
Qed.


Definition some_values (v : PTRef) : Qc := of_Z (Z.of_nat v).

Lemma parseRef_meaning_witness : ∃ p, parseRef rdl_logic rdl_getValue 13 = Ok p
  ∧ (leq_holds rdl_logic some_values 13
     ↔ (Lex (var_value some_values (py p)) 0 - Lex (var_value some_values (px p)) 0 <= t_val (pc p))%lex).
Proof.
  apply (parseRef_meaning rdl_logic rdl_getValue 13 (n_of_Z (-10)) (Some 0%nat) (Some 2%nat)
    (Converter_Delta_getValue (n_neg (n_of_Z (-10)))) some_values).
  - apply dl_atom_13. by vm_compute.
  - done.
  - rewrite <- n_neg_val. apply (Delta_Real_val (n_neg (n_of_Z (-10)))).
Defined.

(** The state after both frames were popped again. *)
Definition rdl_popped : STPSolver (Delta Qc) := get rdl_strict (popBacktrackPoints rdl_strict 2).

Lemma rdl_popped_reach : reach rdl_logic rdl_getValue false rdl_popped [[]].
Proof.
  destruct (pop_inv rdl_logic rdl_strict [[]; [lit10]; [not14]] 2) as (s' & E & _).
  - by apply (reach_running rdl_logic rdl_getValue rdl_ids), rdl_strict_reach.
  - simpl. lia.
  - unfold rdl_popped. rewrite E. simpl.
    apply (reach_pop rdl_logic rdl_getValue rdl_strict [[]; [lit10]; [not14]] 2 s'); [|simpl; lia | exact E].
    apply rdl_strict_reach.
Qed.

Lemma emptied_graph_model_out_of_range_witness : computeModel rdl_popped = Err Out_of_range.
Proof.
  apply (emptied_graph_model_out_of_range rdl_logic rdl_ids rdl_getValue rdl_popped [[]]).
  - apply rdl_popped_reach.
  - by vm_compute.
  - by vm_compute.
  - by vm_compute.
Defined.

(** ** The arithmetic of the costs *)

(** The arithmetic of [SafeInt] is exact or refuses: a sum or difference
    is returned exactly when it fits [ptrdiff_t], and otherwise the overflow
    (for [-], the underflow) exception is raised; no result ever wraps. *)
Theorem SafeInt_exact (a b : SafeInt) :
  match safe_add a b with
  | Ok c => value c = value a + value b
  | Err e => e = Std_overflow_error ∧ ¬ in_lword (value a + value b)
  end
  ∧ match safe_sub a b with
    | Ok c => value c = value a - value b
    | Err e => e = Std_underflow_error ∧ ¬ in_lword (value a - value b)
    end.
Proof.
  split.
  - destruct (safe_add_spec a b) as [(_ & c & -> & Hc)|[Hn ->]]; done.
  - destruct (safe_sub_spec a b) as [(_ & c & -> & Hc)|[Hn ->]]; done.
Qed.

(** C40: constants of integer atoms are read through a [double]: exactly up to
    [2 ^ 53] in absolute value, but the next integer is rounded, so that the
    atom asserted is another one than the atom read; the cost of a negated atom
    is [-c - 1], which overflows at the largest constant. *)
Theorem SafeInt_constants_through_double :
  (∀ (v : fr) z, nval v = of_Z z → Z.abs z ≤ 2 ^ 53 →
     ∃ a, Converter_SafeInt_getValue v = Ok a ∧ value a = z)
  ∧ (∃ a, Converter_SafeInt_getValue (n_of_Z (2 ^ 53 + 1) : fr) = Ok a ∧ value a = 2 ^ 53)
  ∧ (∀ c, value c < PTRDIFF_MAX → ∃ n, Converter_SafeInt_negate c = Ok n ∧ value n = - value c - 1)
  ∧ (∀ c, value c = PTRDIFF_MAX → Converter_SafeInt_negate c = Err Signed_overflow).
Proof.
  split; [intros v z Hv Hz; by apply SafeInt_getValue_exact|]. split; [|split; [apply safe_negate_val|]].
  - destruct (Converter_SafeInt_getValue (n_of_Z (2 ^ 53 + 1) : fr)) as [a|] eqn:E.
    + exists a. split; [done|]. apply (f_equal (λ r, match r with Ok a => value a | Err _ => 0 end)) in E.
      simpl in E. rewrite <- E. by vm_compute.
    + apply (f_equal is_ok) in E. by vm_compute in E.
  - intros c Hc. unfold Converter_SafeInt_negate. rewrite Hc. unfold ptrdiff at 1.
    destruct (decide _) as [Hin|]; [|done]. exfalso. unfold PTRDIFF_MAX in Hin. unfold_widths. lia.
Qed.
