(* ===== verification/ArithTerms.v ===== *)
(** * Arithmetic terms

    The part of the term manager the arithmetic solver builds and reads terms
    with: PtStore.cc and [Logic::mkFun] (hash-consing), and of ArithLogic.cc
    the classification of terms, [splitTermToVarAndConst], [mkConst], [mkNeg]
    and the order of the arguments of a sum.

    A [PTRef] is the number of the term in creation order; the allocator's
    offsets, which [LessThan_deepPTRef] compares, grow in the same order.
    Then: facts about the store, and the negation of terms. *)
From stdpp Require Import sorting.
From S2P Require Import Prelude Sort Gmp FastRationalInt Number Terms.
From Stdlib Require Import Lia.

#[local] Open Scope nat_scope.

Inductive nsort : Type := IntSort | RealSort.
#[global] Instance nsort_eq_dec : EqDecision nsort.
Proof. solve_decision. Defined.

Section logic.
Context {N : Type} `{Number N}.

(** Symbols.  A numeric constant is named by its sort and its printed value;
    [sym_like] are the remaining number-valued functions ([div], [mod],
    uninterpreted functions), [sym_bool] everything else. *)
Inductive Sym : Type :=
| sym_LEQ (s : nsort)
| sym_PLUS (s : nsort)
| sym_TIMES (s : nsort)
| sym_const (s : nsort) (c : N)
| sym_var (s : nsort) (name : nat)
| sym_ite (s : nsort)
| sym_like (s : nsort) (name : nat)
| sym_bool (name : nat).

Definition sym_eqb (f g : Sym) : bool :=
  match f, g with
  | sym_LEQ s, sym_LEQ s' | sym_PLUS s, sym_PLUS s' | sym_TIMES s, sym_TIMES s' | sym_ite s, sym_ite s' =>
      bool_decide (s = s')
  | sym_const s c, sym_const s' c' => bool_decide (s = s') && n_eq c c'
  | sym_var s n, sym_var s' n' | sym_like s n, sym_like s' n' => bool_decide (s = s') && (n =? n')
  | sym_bool n, sym_bool n' => n =? n'
  | _, _ => false
  end.

(** [sym_store[sym].commutes()] *)
Definition commutes (f : Sym) : bool :=
  match f with sym_PLUS _ | sym_TIMES _ => true | _ => false end.

Record Node : Type := MkNode { nsym : Sym; nargs : list PTRef }.

(** [PtStore] with its maps from symbols and keys to terms, and the constant
    terms the constructor of [ArithLogic] makes. *)
Record ArithLogic : Type := MkArithLogic {
  pterms : list Node;
  cterm_map : list (Sym * PTRef);
  cplx_map : list (Sym * list PTRef * PTRef);
  term_TRUE : PTRef;
  term_FALSE : PTRef;
  term_ONE : nsort → PTRef;
  term_MINUSONE : nsort → PTRef;
}.
Implicit Types l : ArithLogic.

Definition node l (t : PTRef) : res Node := at_ (pterms l) t.
Definition symOf l (t : PTRef) : res Sym := let! n := node l t in Ok (nsym n).
Definition argOf l (t : PTRef) (i : nat) : res PTRef := let! n := node l t in at_ (nargs n) i.

(** ** Classification *)

Definition sort_of (f : Sym) : option nsort :=
  match f with
  | sym_PLUS s | sym_TIMES s | sym_const s _ | sym_var s _ | sym_ite s | sym_like s _ => Some s
  | sym_LEQ _ | sym_bool _ => None
  end.

Definition test_sym (q : Sym → bool) l (t : PTRef) : res bool := let! f := symOf l t in Ok (q f).
Definition is_LEQ (f : Sym) : bool := match f with sym_LEQ _ => true | _ => false end.
Definition is_PLUS (f : Sym) : bool := match f with sym_PLUS _ => true | _ => false end.
Definition is_TIMES (f : Sym) : bool := match f with sym_TIMES _ => true | _ => false end.
Definition is_const (f : Sym) : bool := match f with sym_const _ _ => true | _ => false end.
Definition is_var (f : Sym) : bool := match f with sym_var _ _ => true | _ => false end.
Definition is_ite (f : Sym) : bool := match f with sym_ite _ => true | _ => false end.
Definition is_like (f : Sym) : bool := match f with sym_like _ _ => true | _ => false end.

Definition a_isLeq := test_sym is_LEQ.
Definition a_isPlus := test_sym is_PLUS.
Definition a_isTimes := test_sym is_TIMES.
Definition a_isNumConst := test_sym is_const.
Definition a_isNumVar := test_sym is_var.
Definition a_isIte := test_sym is_ite.
Definition isNumVarOrIte := test_sym (λ f, is_var f || is_ite f).
Definition isNumVarLike := test_sym (λ f, is_var f || is_ite f || is_like f).
Definition yieldsSortInt := test_sym (λ f, bool_decide (sort_of f = Some IntSort)).

Definition a_getNumConst l (t : PTRef) : res N :=
  let! f := symOf l t in match f with sym_const _ c => Ok c | _ => Err Assertion_failed end.

Definition isLinearFactor l (t : PTRef) : res bool :=
  let! c := a_isNumConst l t in
  let! v := isNumVarLike l t in
  if c || v then Ok true
  else
    let! m := a_isTimes l t in
    if m then
      let! n := node l t in
      match nargs n with
      | [a; b] =>
          let! ca := a_isNumConst l a in
          let! vb := isNumVarLike l b in
          if ca && vb then Ok true
          else
            let! cb := a_isNumConst l b in
            let! va := isNumVarLike l a in
            Ok (cb && va)
      | _ => Ok false
      end
    else Ok false.

Fixpoint all_linear l (ts : list PTRef) : res bool :=
  match ts with
  | [] => Ok true
  | t :: ts => let! b := isLinearFactor l t in if b then all_linear l ts else Ok false
  end.

Definition isLinearTerm l (t : PTRef) : res bool :=
  let! b := isLinearFactor l t in
  if b then Ok true
  else
    let! p := a_isPlus l t in
    if p then let! n := node l t in all_linear l (nargs n) else Ok false.

(** [PTRef_Undef] is [None]. *)
Definition splitTermToVarAndConst l (t : PTRef) : res (option PTRef * PTRef) :=
  let! f := symOf l t in
  match f with
  | sym_TIMES _ =>
      let! n := node l t in
      match nargs n with
      | [fac; var] =>
          let! c := a_isNumConst l fac in
          let (fac, var) := if (c : bool) then (fac, var) else (var, fac) in
          let! c := a_isNumConst l fac in
          let! _ := check c in
          let! v := isNumVarLike l var in
          let! _ := check v in
          Ok (Some var, fac)
      | _ => Err Assertion_failed
      end
  | sym_var s _ | sym_ite s | sym_like s _ => Ok (Some t, term_ONE l s)
  | sym_const _ _ => Ok (None, t)
  | _ => Err Assertion_failed
  end.

(** [leqToConstantAndTerm] *)
Definition leqToConstantAndTerm l (leq : PTRef) : res (PTRef * PTRef) :=
  let! b := a_isLeq l leq in
  let! _ := check b in
  let! c := argOf l leq 0 in
  let! t := argOf l leq 1 in
  Ok (c, t).

(** ** Building terms *)

(** [LessThan_deepPTRef] *)
Definition deep_id l (t : PTRef) : res PTRef :=
  let! m := a_isTimes l t in
  if m then
    let! vc := splitTermToVarAndConst l t in
    match vc.1 with Some v => Ok v | None => Err Assertion_failed end
  else Ok t.
Definition LessThan_deepPTRef l (x y : PTRef) : res bool :=
  let! i := deep_id l x in
  let! j := deep_id l y in
  Ok (i <? j).
Definition termSort l (v : list PTRef) : res (list PTRef) := sort (LessThan_deepPTRef l) v.

Definition newTerm (f : Sym) (args : list PTRef) l : PTRef * ArithLogic :=
  (length (pterms l),
   MkArithLogic (pterms l ++ [MkNode f args]) (cterm_map l) (cplx_map l) (term_TRUE l) (term_FALSE l)
     (term_ONE l) (term_MINUSONE l)).

Definition find_cterm (f : Sym) l : option PTRef :=
  snd <$> find (λ e, sym_eqb e.1 f) (cterm_map l).
Definition find_cplx (f : Sym) (args : list PTRef) l : option PTRef :=
  snd <$> find (λ e, sym_eqb e.1.1 f && bool_decide (e.1.2 = args)) (cplx_map l).

(** The branches for constant and for non-Boolean symbols. *)
Definition mkFun (f : Sym) (args : list PTRef) l : res (PTRef * ArithLogic) :=
  match args with
  | [] =>
      match find_cterm f l with
      | Some t => Ok (t, l)
      | None =>
          let (t, l) := newTerm f [] l in
          Ok (t, MkArithLogic (pterms l) (cterm_map l ++ [(f, t)]) (cplx_map l) (term_TRUE l) (term_FALSE l)
                   (term_ONE l) (term_MINUSONE l))
      end
  | _ =>
      let! key := if commutes f then termSort l args else Ok args in
      match find_cplx f key l with
      | Some t => Ok (t, l)
      | None =>
          let (t, l) := newTerm f key l in
          Ok (t, MkArithLogic (pterms l) (cterm_map l) (cplx_map l ++ [(f, key, t)]) (term_TRUE l) (term_FALSE l)
                   (term_ONE l) (term_MINUSONE l))
      end
  end.

Definition mkConst (s : nsort) (c : N) l : res (PTRef * ArithLogic) := mkFun (sym_const s c) [] l.

(** [for (PTRef & tr_arg : args) tr_arg = mkNeg(tr_arg);] *)
Definition map_state (f : PTRef → ArithLogic → res (PTRef * ArithLogic)) (ts : list PTRef) l :
    res (list PTRef * ArithLogic) :=
  foldM (λ st t, let! r := f t st.2 in Ok (st.1 ++ [r.1], r.2)) ([], l) ts.

(** The arguments of a term are older than the term, so a fuel of more than its
    number is never used up. *)
Fixpoint mkNeg_from (fuel : nat) (t : PTRef) l : res (PTRef * ArithLogic) :=
  match fuel with
  | O => Err Out_of_fuel
  | S fuel =>
      let! n := node l t in
      match nsym n with
      | sym_const s c => mkConst s (n_neg c) l
      | sym_PLUS s =>
          let! r := map_state (mkNeg_from fuel) (nargs n) l in
          mkFun (sym_PLUS s) r.1 r.2
      | sym_TIMES s =>
          let! _ := check (length (nargs n) =? 2) in
          let! vc := splitTermToVarAndConst l t in
          match vc.1 with
          | None => Err Assertion_failed
          | Some var =>
              if vc.2 =? term_MINUSONE l s then Ok (var, l)
              else
                let! r := mkNeg_from fuel vc.2 l in
                mkFun (sym_TIMES s) [var; r.1] r.2
          end
      | sym_var s _ | sym_ite s | sym_like s _ => mkFun (sym_TIMES s) [t; term_MINUSONE l s] l
      | _ => Err Assertion_failed
      end
  end.

Definition mkNeg (t : PTRef) l : res (PTRef * ArithLogic) := mkNeg_from (S t) t l.

End logic.
Arguments Sym N : clear implicits.
Arguments Node N : clear implicits.
Arguments ArithLogic N : clear implicits.

(** * The term manager keeps terms shared

    Hash-consing gives equal terms equal numbers, and [mkNeg] builds the
    negation of a normalised linear term: the same variables in the same order,
    with the opposite coefficients.  Negating twice gives the term itself. *)

(** ** Sorting by a number *)

Section keyed.
Context {T : Type} (key : T → nat) (cmp : T → T → res bool).

Lemma increasing_unique (a a' : list T) : StronglySorted lt (key <$> a) → a' ≡ₚ a →
  (∀ i j x y, i ≤ j → a' !! i = Some x → a' !! j = Some y → key x ≤ key y) → a' = a.
Proof.
  intros Hs Hp Ho.
  assert (NoDup (key <$> a)) as Hnd.
  { clear -Hs. induction Hs as [|x l Hs IH Hf]; constructor; [|done]. intros Hin.
    rewrite Forall_forall in Hf. specialize (Hf x Hin). lia. }
  assert (StronglySorted le (key <$> a)) as Hs1.
  { clear -Hs. induction Hs as [|x l Hs IH Hf]; constructor; [done|]. eapply Forall_impl; [done|]. simpl. lia. }
  assert (StronglySorted le (key <$> a')) as Hs2.
  { clear -Ho. induction a' as [|x a' IH]; simpl; constructor.
    - apply IH. intros i j y z Hij Hy Hz. apply (Ho (S i) (S j)); [lia|done..].
    - apply Forall_fmap, Forall_forall. intros y (j & Hj)%list_elem_of_lookup_1. apply (Ho 0 (S j)); [lia|done..]. }
  assert (key <$> a' = key <$> a) as Hk.
  { apply (StronglySorted_unique le); [done..|]. by apply fmap_Permutation. }
  apply list_eq. intros i. destruct (a' !! i) as [x|] eqn:Ex.
  - assert (x ∈ a) as (j & Hj)%list_elem_of_lookup_1 by (rewrite <- Hp; by eapply list_elem_of_lookup_2).
    pose proof (f_equal (λ l, l !! i) Hk) as Hi. simpl in Hi. rewrite !list_lookup_fmap, Ex in Hi. simpl in Hi.
    assert (i = j) as ->; [|done]. apply (NoDup_lookup _ i j (key x) Hnd); rewrite list_lookup_fmap; [done|by rewrite Hj].
  - apply lookup_ge_None in Ex. symmetry. apply lookup_ge_None. by rewrite <- Hp.
Qed.

(** The array as it is, when it is in strictly increasing order. *)
Lemma keyed_sort (a : list T) (valid : T → Prop) :
  (∀ x y, valid x → valid y → cmp x y = Ok (key x <? key y)) → (∀ x, x ∈ a → valid x) →
  ∃ a', sort cmp a = Ok a' ∧ a' ≡ₚ a ∧ ∀ i j x y, i ≤ j → a' !! i = Some x → a' !! j = Some y → key x ≤ key y.
Proof.
  intros Hc Hv. pose proof (sort_wp cmp (λ x y, key x ≤ key y) valid) as Hw.
  assert (wp no_error (λ a', a' ≡ₚ a ∧ ∀ i j, i ≤ j → below (λ x y, key x ≤ key y) a' i j) (sort cmp a)) as Hs.
  { apply Hw.
    - intros x y Hx Hy. exists (key x <? key y). split; [by apply Hc|]. destruct (Nat.ltb_spec (key x) (key y)); lia.
    - intros x y _ _. lia.
    - intros x y z _ _ _. lia.
    - intros i x Hi. apply Hv. by eapply list_elem_of_lookup_2. }
  apply wp_total in Hs as (a' & E & Hp & Ho). exists a'. split; [done|]. split; [done|].
  intros i j x y Hij. by apply Ho.
Qed.

End keyed.

Section facts.
Context {N : Type} `{Number N}.
Implicit Types (l : ArithLogic N) (f : Sym N) (t x : PTRef) (s : nsort).

(** ** Shared terms *)

Lemma sym_eqb_refl f : sym_eqb f f = true.
Proof.
  destruct f; simpl; rewrite ?andb_true_iff, ?bool_decide_eq_true, ?Nat.eqb_eq, ?n_eq_val; done.
Qed.

(** Equal symbols: constants of the same sort and value. *)
Lemma sym_eqb_iff f g : sym_eqb f g = true ↔
  f = g ∨ ∃ s c c', f = sym_const s c ∧ g = sym_const s c' ∧ nval c = nval c'.
Proof.
  split.
  - destruct f, g; simpl; rewrite ?andb_true_iff, ?bool_decide_eq_true, ?Nat.eqb_eq, ?n_eq_val; try done;
      try (intros; left; f_equal; naive_solver).
    intros [-> Hc]. right. by eexists _, _, _.
  - intros [-> | (s & c & c' & -> & -> & Hc)]; [apply sym_eqb_refl|]. simpl.
    rewrite andb_true_iff, bool_decide_eq_true, n_eq_val. done.
Qed.

Lemma sym_eqb_trans f g h : sym_eqb f g = true → sym_eqb h f = sym_eqb h g.
Proof.
  rewrite sym_eqb_iff. intros [->|(s & c & c' & -> & -> & Hc)]; [done|]. destruct h; try done. simpl.
  f_equal. apply eq_true_iff_eq. rewrite !n_eq_val. by rewrite Hc.
Qed.

Record logic_wf l : Prop := {
  lw_args t n a : pterms l !! t = Some n → a ∈ nargs n → a < t;
  lw_cterm f t : (f, t) ∈ cterm_map l → pterms l !! t = Some (MkNode f []);
  lw_cterm_all f t : pterms l !! t = Some (MkNode f []) → find_cterm f l = Some t;
  lw_cplx f args t : (f, args, t) ∈ cplx_map l → pterms l !! t = Some (MkNode f args) ∧ args ≠ [];
  lw_cplx_all f args t : pterms l !! t = Some (MkNode f args) → args ≠ [] → sort_of f ≠ None →
    find_cplx f args l = Some t;
  lw_const t s c args : pterms l !! t = Some (MkNode (sym_const s c) args) → args = [];
  lw_one s : ∃ c, pterms l !! term_ONE l s = Some (MkNode (sym_const s c) []) ∧ nval c = 1%Qc;
  lw_minusone s : ∃ c, pterms l !! term_MINUSONE l s = Some (MkNode (sym_const s c) []) ∧ nval c = (-(1))%Qc;
}.

(** Terms are only added. *)
Record logic_le l l' : Prop := {
  ll_terms : ∃ more, pterms l' = pterms l ++ more;
  ll_one : term_ONE l' = term_ONE l;
  ll_minusone : term_MINUSONE l' = term_MINUSONE l;
  ll_true : term_TRUE l' = term_TRUE l;
  ll_false : term_FALSE l' = term_FALSE l;
}.

Lemma logic_le_refl l : logic_le l l.
Proof. split; try done. exists []. by rewrite app_nil_r. Qed.
Lemma logic_le_trans l1 l2 l3 : logic_le l1 l2 → logic_le l2 l3 → logic_le l1 l3.
Proof.
  intros [(m1 & E1) ? ? ? ?] [(m2 & E2) ? ? ? ?]. split; try congruence. exists (m1 ++ m2). by rewrite E2, E1, app_assoc.
Qed.
Lemma logic_le_node l l' t n : logic_le l l' → pterms l !! t = Some n → pterms l' !! t = Some n.
Proof. intros [(m & ->) _ _ _ _] Ht. by apply lookup_app_l_Some. Qed.

Lemma find_snoc {A} (p : A → bool) (k : list A) e : find p (k ++ [e]) =
  match find p k with Some x => Some x | None => if p e then Some e else None end.
Proof. induction k as [|x k IH]; simpl; [done|]. by destruct (p x). Qed.

Lemma find_cterm_Some l f t : logic_wf l → find_cterm f l = Some t →
  ∃ g, sym_eqb g f = true ∧ pterms l !! t = Some (MkNode g []).
Proof.
  intros W Hf. unfold find_cterm in Hf. apply fmap_Some in Hf as ([g t'] & Hf & ->).
  apply find_some in Hf as [Hin%list_elem_of_In He]. exists g. split; [done|]. by apply (lw_cterm l W).
Qed.

Lemma find_cplx_Some l f args t : logic_wf l → find_cplx f args l = Some t →
  ∃ g, sym_eqb g f = true ∧ pterms l !! t = Some (MkNode g args) ∧ args ≠ [].
Proof.
  intros W Hf. unfold find_cplx in Hf. apply fmap_Some in Hf as ([[g args'] t'] & Hf & ->).
  apply find_some in Hf as [Hin%list_elem_of_In He]. simpl in He. apply andb_prop in He as [He Ha].
  apply bool_decide_eq_true in Ha as ->. exists g. split; [done|]. by apply (lw_cplx l W).
Qed.

Lemma new_node l f args t n : (pterms l ++ [MkNode f args]) !! t = Some n →
  pterms l !! t = Some n ∨ t = length (pterms l) ∧ n = MkNode f args.
Proof. intros [[? ?]|[-> <-]]%lookup_snoc_Some; [by left | by right]. Qed.

(** A term of the given symbol and arguments, new or old. *)
Definition shared l l' f args t : Prop :=
  logic_wf l' ∧ logic_le l l' ∧ ∃ g, sym_eqb g f = true ∧ pterms l' !! t = Some (MkNode g args).

Lemma wf_base l l' : logic_wf l → (∃ m, pterms l' = pterms l ++ m) → term_ONE l' = term_ONE l →
  term_MINUSONE l' = term_MINUSONE l →
  (∀ s, ∃ c, pterms l' !! term_ONE l' s = Some (MkNode (sym_const s c) []) ∧ nval c = 1%Qc)
  ∧ ∀ s, ∃ c, pterms l' !! term_MINUSONE l' s = Some (MkNode (sym_const s c) []) ∧ nval c = (-(1))%Qc.
Proof.
  intros W (m & Em) E1 E2. rewrite E1, E2, Em. split; intros s.
  - destruct (lw_one l W s) as (c & Hc & Hv). exists c. split; [by apply lookup_app_l_Some|done].
  - destruct (lw_minusone l W s) as (c & Hc & Hv). exists c. split; [by apply lookup_app_l_Some|done].
Qed.

Lemma mkFun_const_ok l f : logic_wf l → ∃ t l', mkFun f [] l = Ok (t, l') ∧ shared l l' f [] t.
Proof.
  intros W. unfold mkFun. destruct (find_cterm f l) as [t|] eqn:Ef.
  - exists t, l. split; [done|]. split; [done|]. split; [apply logic_le_refl|].
    destruct (find_cterm_Some l f t W Ef) as (g & ? & ?). eauto.
  - simpl. eexists _, _. split; [done|]. set (l' := MkArithLogic _ _ _ _ _ _ _).
    assert (pterms l' = pterms l ++ [MkNode f []]) as El by done.
    destruct (wf_base l l' W (ex_intro _ _ El) eq_refl eq_refl) as [W1 W2].
    split; [|split; [by split; [eexists|..]|]].
    2:{ exists f. split; [apply sym_eqb_refl|]. simpl. apply lookup_snoc_Some. by right. }
    split; [..|exact W1|exact W2]; unfold l'; simpl.
    + intros t n a [Ht|[-> ->]]%new_node; [by apply (lw_args l W)|]. simpl. by intros ?%not_elem_of_nil.
    + intros g t [Hin|[= -> ->]%list_elem_of_singleton]%elem_of_app.
      * apply lookup_app_l_Some. by apply (lw_cterm l W).
      * apply lookup_snoc_Some. by right.
    + intros g t [Ht|[-> [= ->]]]%new_node; unfold find_cterm; simpl; rewrite find_snoc.
      * pose proof (lw_cterm_all l W g t Ht) as Hf. unfold find_cterm in Hf.
        by destruct (find (λ e, sym_eqb e.1 g) (cterm_map l)).
      * unfold find_cterm in Ef. destruct (find (λ e, sym_eqb e.1 f) (cterm_map l)); [done|].
        simpl. by rewrite sym_eqb_refl.
    + intros g args t Hin. destruct (lw_cplx l W g args t Hin) as [Ht Hne]. split; [|done].
      by apply lookup_app_l_Some.
    + intros g args t [Ht|[_ [= -> ->]]]%new_node Hne Hs; [|done]. exact (lw_cplx_all l W g args t Ht Hne Hs).
    + intros t s c args [Ht|[_ [= _ ->]]]%new_node; [by apply (lw_const l W t s c)|done].
Qed.

Lemma mkFun_cplx_ok l f args key : logic_wf l → args ≠ [] → (∀ s c, f ≠ sym_const s c) →
  (if commutes f then termSort l args else Ok args) = Ok key → key ≠ [] → (∀ a, a ∈ key → a < length (pterms l)) →
  ∃ t l', mkFun f args l = Ok (t, l') ∧ shared l l' f key t.
Proof.
  intros W Hne Hfc Ek Hkey Ha. unfold mkFun. destruct args as [|a0 args]; [done|]. rewrite Ek. cbn [rbind].
  destruct (find_cplx f key l) as [t|] eqn:Ef.
  - exists t, l. split; [done|]. split; [done|]. split; [apply logic_le_refl|].
    destruct (find_cplx_Some l f key t W Ef) as (g & ? & ? & _). eauto.
  - simpl. eexists _, _. split; [done|]. set (l' := MkArithLogic _ _ _ _ _ _ _).
    assert (pterms l' = pterms l ++ [MkNode f key]) as El by done.
    destruct (wf_base l l' W (ex_intro _ _ El) eq_refl eq_refl) as [W1 W2].
    split; [|split; [by split; [eexists|..]|]].
    2:{ exists f. split; [apply sym_eqb_refl|]. simpl. apply lookup_snoc_Some. by right. }
    split; [..|exact W1|exact W2]; unfold l'; simpl.
    + intros t n a [Ht|[-> ->]]%new_node; [by apply (lw_args l W)|]. simpl. apply Ha.
    + intros g t Hin. apply lookup_app_l_Some. by apply (lw_cterm l W).
    + intros g t [Ht|[_ [= _ Hk]]]%new_node; [|by destruct Hkey]. exact (lw_cterm_all l W g t Ht).
    + intros g args' t [Hin|[= -> -> ->]%list_elem_of_singleton]%elem_of_app.
      * destruct (lw_cplx l W g args' t Hin) as [Ht Hne']. split; [by apply lookup_app_l_Some|done].
      * split; [apply lookup_snoc_Some; by right|done].
    + intros g args' t [Ht|[-> [= -> ->]]]%new_node Hne' Hs; unfold find_cplx; simpl; rewrite find_snoc.
      * pose proof (lw_cplx_all l W g args' t Ht Hne' Hs) as Hf. unfold find_cplx in Hf.
        by destruct (find _ (cplx_map l)).
      * unfold find_cplx in Ef. destruct (find _ (cplx_map l)); [done|].
        simpl. by rewrite sym_eqb_refl, bool_decide_true.
    + intros t s c args' [Ht|[_ [= Hc ->]]]%new_node; [by apply (lw_const l W t s c)|]. by destruct (Hfc s c).
Qed.

End facts.

(** * Negating a linear term

    Normalised linear terms, as the front end of ArithLogic.cc makes them: a
    variable, a product of a variable and a constant other than 0 and 1, or a
    sum of at least two of these in the order of their variables. *)

Section neg.
Context {N : Type} `{Number N}.
Implicit Types (l : ArithLogic N) (f : Sym N) (t x : PTRef) (s : nsort) (xs : list (PTRef * Qc)).

Definition varlike f s : Prop :=
  match f with sym_var s' _ | sym_ite s' | sym_like s' _ => s' = s | _ => False end.

(** The arguments of a product in the order [mkFun] stores them. *)
Definition sorted_pair (x k : PTRef) : list PTRef := if x <? k then [x; k] else [k; x].

(** [t] is [q * x]. *)
Inductive nfactor l s : PTRef → PTRef → Qc → Prop :=
| nf_var t f args : pterms l !! t = Some (MkNode f args) → varlike f s → nfactor l s t t 1
| nf_times t x k c f args : pterms l !! t = Some (MkNode (sym_TIMES s) (sorted_pair x k)) →
    pterms l !! x = Some (MkNode f args) → varlike f s →
    pterms l !! k = Some (MkNode (sym_const s c) []) → nval c ≠ 0%Qc → nval c ≠ 1%Qc →
    nfactor l s t x (nval c).

(** [t] is the sum of the products in [xs]. *)
Inductive linear l s : PTRef → list (PTRef * Qc) → Prop :=
| lin_factor t x q : nfactor l s t x q → linear l s t [(x, q)]
| lin_sum t ts xs : pterms l !! t = Some (MkNode (sym_PLUS s) ts) → 2 ≤ length ts →
    Forall2 (λ t xq, nfactor l s t xq.1 xq.2) ts xs → StronglySorted lt (fst <$> xs) → linear l s t xs.

Definition negated xs : list (PTRef * Qc) := (λ xq, (xq.1, (- xq.2)%Qc)) <$> xs.

Lemma negated_negated xs : negated (negated xs) = xs.
Proof.
  unfold negated. rewrite <- list_fmap_compose. rewrite <- (list_fmap_id xs) at 2. apply list_fmap_ext.
  intros _ [x q] _. simpl. f_equal. ring.
Qed.

Lemma negated_vars xs : fst <$> negated xs = fst <$> xs.
Proof. unfold negated. by rewrite <- list_fmap_compose. Qed.

Lemma Forall2_elem_of_l {A B} (P : A → B → Prop) la lb a : Forall2 P la lb → a ∈ la → ∃ b, b ∈ lb ∧ P a b.
Proof.
  intros Hf [i Ha]%list_elem_of_lookup_1. destruct (Forall2_lookup_l _ _ _ _ _ Hf Ha) as (b & Hb & Hp).
  exists b. split; [by eapply list_elem_of_lookup_2|done].
Qed.

Lemma nfactor_mono l l' s t x q : logic_le l l' → nfactor l s t x q → nfactor l' s t x q.
Proof.
  intros Hle Hf. destruct Hf as [t f args Ht Hv|t x k c f args Ht Hx Hv Hk H0 H1].
  - eapply nf_var; [by eapply logic_le_node|done].
  - eapply nf_times; eauto; by eapply logic_le_node.
Qed.

Lemma linear_mono l l' s t xs : logic_le l l' → linear l s t xs → linear l' s t xs.
Proof.
  intros Hle Hl. destruct Hl as [t x q Hf|t ts xs Ht Hn Hf Hs].
  - constructor. by eapply nfactor_mono.
  - eapply lin_sum; [by eapply logic_le_node|done| |done]. eapply Forall2_impl; [done|].
    intros a b. by apply nfactor_mono.
Qed.

(** ** Equal terms are shared *)

Lemma const_unique l s k k' c c' : logic_wf l → pterms l !! k = Some (MkNode (sym_const s c) []) →
  pterms l !! k' = Some (MkNode (sym_const s c') []) → nval c = nval c' → k = k'.
Proof.
  intros W Hk Hk' Hc. apply (lw_cterm_all l W) in Hk, Hk'.
  assert (find_cterm (sym_const s c) l = find_cterm (sym_const s c') l) as E; [|congruence].
  unfold find_cterm. f_equal. induction (cterm_map l) as [|e m IH]; [done|]. simpl.
  rewrite (sym_eqb_trans (sym_const s c) (sym_const s c') e.1), IH; [done|].
  apply sym_eqb_iff. right. by eexists _, _, _.
Qed.

Lemma cplx_unique l f args t t' : logic_wf l → args ≠ [] → sort_of f ≠ None →
  pterms l !! t = Some (MkNode f args) → pterms l !! t' = Some (MkNode f args) → t = t'.
Proof.
  intros W Hne Hs Ht Ht'. pose proof (lw_cplx_all l W f args t Ht Hne Hs).
  pose proof (lw_cplx_all l W f args t' Ht' Hne Hs). congruence.
Qed.

Lemma sorted_pair_ne x k : sorted_pair x k ≠ [].
Proof. unfold sorted_pair. by destruct (x <? k). Qed.

Lemma nfactor_node l s t x q : nfactor l s t x q → ∃ n, pterms l !! t = Some n.
Proof. intros []; eauto. Qed.

Lemma nfactor_unique l s t t' x q : logic_wf l → nfactor l s t x q → nfactor l s t' x q → t = t'.
Proof.
  intros W H1 H2. remember q as q' eqn:Eq in H2.
  destruct H1 as [t f args Ht Hv|t x k c f args Ht Hx Hv Hk H0 H1];
    destruct H2 as [t' f' args' Ht' Hv'|t' x' k' c' f' args' Ht' Hx' Hv' Hk' H0' H1']; try done; try (by destruct H1');
    try (by destruct H1).
  assert (k = k') as -> by (by eapply const_unique).
  eapply cplx_unique; [done|apply sorted_pair_ne| |exact Ht|exact Ht']. done.
Qed.

Lemma linear_unique l s t t' xs : logic_wf l → linear l s t xs → linear l s t' xs → t = t'.
Proof.
  intros W H1 H2. remember xs as xs' eqn:Ex in H2.
  destruct H1 as [t x q Hf|t ts xs Ht Hn Hf Hs]; destruct H2 as [t' x' q' Hf'|t' ts' xs' Ht' Hn' Hf' Hs'].
  - injection Ex as -> ->. by eapply nfactor_unique.
  - subst. apply Forall2_length in Hf'. simpl in Hf'. lia.
  - subst. apply Forall2_length in Hf. simpl in Hf. lia.
  - subst xs'. assert (ts = ts') as ->.
    { clear -W Hf Hf'. revert ts' Hf'. induction Hf as [|a b ts xs Hab Hf IH]; intros ts' Hf'.
      - by inversion Hf'.
      - inversion Hf' as [|a' b' ts2 xs2 Hab' Hf2 E1 E2]. subst. f_equal; [by eapply nfactor_unique|by apply IH]. }
    eapply (cplx_unique l (sym_PLUS s) ts'); [done| |done|exact Ht|exact Ht']. intros ->. simpl in Hn. lia.
Qed.

(** ** Reading a factor *)

Lemma at_pterms l t n : pterms l !! t = Some n → node l t = Ok n.
Proof. unfold node, at_. by intros ->. Qed.

Lemma symOf_ok l t n : pterms l !! t = Some n → symOf l t = Ok (nsym n).
Proof. intros Ht. unfold symOf. by rewrite (at_pterms _ _ _ Ht). Qed.

Lemma test_ok p l t n : pterms l !! t = Some n → test_sym p l t = Ok (p (nsym n)).
Proof. intros Ht. unfold test_sym. by rewrite (symOf_ok _ _ _ Ht). Qed.

Lemma split_times l t s x k c f args : pterms l !! t = Some (MkNode (sym_TIMES s) (sorted_pair x k)) →
  pterms l !! x = Some (MkNode f args) → varlike f s → pterms l !! k = Some (MkNode (sym_const s c) []) →
  splitTermToVarAndConst l t = Ok (Some x, k).
Proof.
  intros Ht Hx Hv Hk. unfold splitTermToVarAndConst. rewrite (symOf_ok _ _ _ Ht), (at_pterms _ _ _ Ht). cbn [rbind nsym nargs].
  assert (a_isNumConst l x = Ok false) as E1 by (unfold a_isNumConst; rewrite (test_ok _ _ _ _ Hx); by destruct f).
  assert (isNumVarLike l x = Ok true) as E2 by (unfold isNumVarLike; rewrite (test_ok _ _ _ _ Hx); by destruct f).
  assert (a_isNumConst l k = Ok true) as E3 by (unfold a_isNumConst; by rewrite (test_ok _ _ _ _ Hk)).
  unfold sorted_pair. destruct (x <? k); rewrite ?E1, ?E3; cbn [rbind]; rewrite ?E1, ?E3; cbn [rbind check]; by rewrite E2.
Qed.

(** [splitTermToVarAndConst] on a factor. *)
Lemma split_factor l s t x q : logic_wf l → nfactor l s t x q →
  ∃ k c, splitTermToVarAndConst l t = Ok (Some x, k) ∧ pterms l !! k = Some (MkNode (sym_const s c) [])
    ∧ nval c = q.
Proof.
  intros W [t' f args Ht Hv|t' x' k c f args Ht Hx Hv Hk H0 H1].
  - destruct (lw_one l W s) as (c & Hc & Hq). exists (term_ONE l s), c. split; [|done].
    unfold splitTermToVarAndConst. rewrite (symOf_ok _ _ _ Ht). cbn [rbind nsym].
    destruct f; try done; simpl in Hv; by subst.
  - exists k, c. split; [by eapply split_times|done].
Qed.

Lemma deep_id_factor l s t x q : nfactor l s t x q → deep_id l t = Ok x.
Proof.
  intros [t' f args Ht Hv|t' x' k c f args Ht Hx Hv Hk H0 H1]; unfold deep_id, a_isTimes; rewrite (test_ok _ _ _ _ Ht); cbn [rbind nsym].
  - destruct f; done.
  - simpl. by rewrite (split_times _ _ _ _ _ _ _ _ Ht Hx Hv Hk).
Qed.

Lemma deep_id_const l t s c args : pterms l !! t = Some (MkNode (sym_const s c) args) → deep_id l t = Ok t.
Proof. intros Ht. unfold deep_id, a_isTimes. by rewrite (test_ok _ _ _ _ Ht). Qed.

Lemma deep_id_var l t f s args : pterms l !! t = Some (MkNode f args) → varlike f s → deep_id l t = Ok t.
Proof. intros Ht Hv. unfold deep_id, a_isTimes. rewrite (test_ok _ _ _ _ Ht). cbn [rbind nsym]. by destruct f. Qed.

(** ** Building a product *)

Lemma pair_sort l s x k c f args : pterms l !! x = Some (MkNode f args) → varlike f s →
  pterms l !! k = Some (MkNode (sym_const s c) []) → termSort l [x; k] = Ok (sorted_pair x k).
Proof.
  intros Hx Hv Hk. pose proof (deep_id_var _ _ _ _ _ Hx Hv) as Ex. pose proof (deep_id_const _ _ _ _ _ Hk) as Ek.
  assert (x ≠ k) as Hne by (intros ->; rewrite Hk in Hx; injection Hx as <- _; done).
  destruct (keyed_sort (λ y, y) (LessThan_deepPTRef l) [x; k] (λ y, y = x ∨ y = k)) as (a & Ea & Hp & Ho).
  - intros y z Hy Hz. unfold LessThan_deepPTRef.
    assert (deep_id l y = Ok y) as -> by (destruct Hy; subst; done).
    by assert (deep_id l z = Ok z) as -> by (destruct Hz; subst; done).
  - set_solver.
  - unfold termSort. rewrite Ea. f_equal. unfold sorted_pair.
    symmetry in Hp. apply Permutation_length_2_inv in Hp as [-> | ->]; specialize (Ho 0 1); simpl in Ho;
      destruct (Nat.ltb_spec x k); try done.
    + specialize (Ho x k ltac:(lia) eq_refl eq_refl). lia.
    + specialize (Ho k x ltac:(lia) eq_refl eq_refl). lia.
Qed.

Lemma exact_symbol l f args t : (∀ s c, f ≠ sym_const s c) →
  (∃ g, sym_eqb g f = true ∧ pterms l !! t = Some (MkNode g args)) → pterms l !! t = Some (MkNode f args).
Proof. intros Hf (g & [->|(s & c & c' & _ & -> & _)]%sym_eqb_iff & Ht); [done|]. by destruct (Hf s c'). Qed.

Lemma mkTimes_ok l s x k c f args : logic_wf l → pterms l !! x = Some (MkNode f args) → varlike f s →
  pterms l !! k = Some (MkNode (sym_const s c) []) →
  ∃ t l', mkFun (sym_TIMES s) [x; k] l = Ok (t, l') ∧ logic_wf l' ∧ logic_le l l'
    ∧ pterms l' !! t = Some (MkNode (sym_TIMES s) (sorted_pair x k)).
Proof.
  intros W Hx Hv Hk. destruct (mkFun_cplx_ok l (sym_TIMES s) [x; k] (sorted_pair x k)) as (t & l' & E & W' & Hle & Hg).
  - done.
  - done.
  - done.
  - by eapply pair_sort.
  - apply sorted_pair_ne.
  - intros a Ha. assert (a = x ∨ a = k) as [-> | ->] by (unfold sorted_pair in Ha; destruct (x <? k); set_solver);
      by eapply lookup_lt_Some.
  - exists t, l'. split; [done|]. split; [done|]. split; [done|]. by apply exact_symbol.
Qed.

(** ** Negation *)

Lemma sorted_pair_in x k : x ∈ sorted_pair x k ∧ k ∈ sorted_pair x k.
Proof. unfold sorted_pair. destruct (x <? k); set_solver. Qed.

Lemma Qc_opp_1 (q : Qc) : (- q)%Qc = 1%Qc → q = (-(1))%Qc.
Proof. intros E. rewrite <- E. ring. Qed.

Lemma neg_factor l s t x q fuel : logic_wf l → nfactor l s t x q → t < fuel →
  ∃ t' l', mkNeg_from fuel t l = Ok (t', l') ∧ logic_wf l' ∧ logic_le l l' ∧ nfactor l' s t' x (- q).
Proof.
  intros W Hf Hfuel. destruct fuel as [|fuel]; [lia|]. cbn [mkNeg_from].
  destruct Hf as [t f args Ht Hv|t x k c f args Ht Hx Hv Hk H0 H1]; rewrite (at_pterms _ _ _ Ht); cbn [rbind nsym nargs].
  - destruct (lw_minusone l W s) as (c & Hc & Hq).
    destruct (mkTimes_ok l s t (term_MINUSONE l s) c f args W Ht Hv Hc) as (t' & l' & E & W' & Hle & Ht').
    exists t', l'. split; [destruct f; try done; simpl in Hv; by subst|]. split; [done|]. split; [done|].
    rewrite <- Hq. eapply nf_times; [exact Ht'| |exact Hv| | |]; [by eapply logic_le_node..| |]; rewrite Hq; done.
  - assert (length (sorted_pair x k) = 2) as -> by (unfold sorted_pair; by destruct (x <? k)).
    cbn [Nat.eqb check rbind]. rewrite (split_times _ _ _ _ _ _ _ _ Ht Hx Hv Hk). cbn [rbind fst snd].
    destruct (lw_minusone l W s) as (c1 & Hc1 & Hq1).
    destruct (Nat.eqb_spec k (term_MINUSONE l s)) as [->|Hne].
    + exists x, l. split; [done|]. split; [done|]. split; [apply logic_le_refl|].
      assert (c = c1) as -> by (rewrite Hc1 in Hk; by injection Hk). rewrite Hq1.
      replace (- - (1))%Qc with 1%Qc by ring. by eapply nf_var.
    + assert (k < t) as Hkt by (apply (lw_args l W t _ k Ht), sorted_pair_in).
      destruct fuel as [|fuel]; [lia|]. cbn [mkNeg_from]. rewrite (at_pterms _ _ _ Hk). cbn [rbind nsym nargs].
      destruct (mkFun_const_ok l (sym_const s (n_neg c)) W) as (k' & l1 & E1 & W1 & Hle1 & g & Hg & Hk').
      unfold mkConst. rewrite E1. cbn [rbind fst snd].
      assert (∃ c', g = sym_const s c' ∧ nval c' = (- nval c)%Qc) as (c' & -> & Hc').
      { apply sym_eqb_iff in Hg as [->|(s' & a & b & -> & [= <- <-] & Hab)]; eexists; (split; [done|]);
          by rewrite ?Hab, n_neg_val. }
      destruct (mkTimes_ok l1 s x k' c' f args W1) as (t' & l2 & E2 & W2 & Hle2 & Ht').
      { by eapply logic_le_node. } { done. } { done. }
      exists t', l2. split; [done|]. split; [done|]. split; [by eapply logic_le_trans|].
      rewrite <- Hc'. eapply nf_times; [exact Ht'| |exact Hv| | |].
      * eapply logic_le_node; [done|]. by eapply logic_le_node.
      * by eapply logic_le_node.
      * rewrite Hc'. intros E0. apply H0. transitivity (- - nval c)%Qc; [ring | rewrite E0; ring].
      * rewrite Hc'. intros E0%Qc_opp_1. apply Hne. eapply const_unique; [exact W|exact Hk|exact Hc1|congruence].
Qed.

Lemma neg_factors s fuel ts xs : ∀ l, logic_wf l → Forall2 (λ t xq, nfactor l s t xq.1 xq.2) ts xs →
  (∀ t, t ∈ ts → t < fuel) → ∀ done_,
  ∃ ts' l', foldM (λ st t, let! r := mkNeg_from fuel t st.2 in Ok (st.1 ++ [r.1], r.2)) (done_, l) ts = Ok (done_ ++ ts', l')
    ∧ logic_wf l' ∧ logic_le l l' ∧ Forall2 (λ t xq, nfactor l' s t xq.1 xq.2) ts' (negated xs).
Proof.
  revert xs. induction ts as [|t ts IH]; intros xs l W Hf Hfuel done_.
  - inversion Hf. subst. exists [], l. rewrite app_nil_r. split; [done|]. split; [done|].
    split; [apply logic_le_refl|constructor].
  - inversion Hf as [|? [x q] ? xs' Hxq Hf' E1 E2]. subst. simpl in Hxq.
    destruct (neg_factor l s t x q fuel W Hxq) as (t' & l1 & E & W1 & Hle1 & Hn).
    { apply Hfuel. apply elem_of_cons. by left. }
    cbn [foldM fst snd]. rewrite E. cbn [rbind fst snd].
    destruct (IH xs' l1 W1) with (done_ := done_ ++ [t']) as (ts' & l2 & E2 & W2 & Hle2 & Hf2).
    { eapply Forall2_impl; [done|]. intros a b. by apply nfactor_mono. }
    { intros a Ha. apply Hfuel. apply elem_of_cons. by right. }
    exists (t' :: ts'), l2. rewrite E2, <- app_assoc. split; [done|]. split; [done|].
    split; [by eapply logic_le_trans|]. constructor; [by eapply nfactor_mono|done].
Qed.

Definition sum_key l t : nat := match deep_id l t with Ok i => i | Err _ => 0 end.

Lemma factors_sorted l s ts xs : Forall2 (λ t xq, nfactor l s t xq.1 xq.2) ts xs →
  StronglySorted lt (fst <$> xs) → termSort l ts = Ok ts.
Proof.
  intros Hf Hs. assert (∀ t, t ∈ ts → deep_id l t = Ok (sum_key l t)) as Hk.
  { intros t (xq & _ & Ht)%(Forall2_elem_of_l _ _ _ _ Hf). unfold sum_key. by rewrite (deep_id_factor _ _ _ _ _ Ht). }
  assert (sum_key l <$> ts = fst <$> xs) as Ek.
  { clear Hs Hk. induction Hf as [|t xq ts xs Ht _ IH]; [done|]. rewrite !fmap_cons, IH. f_equal.
    unfold sum_key. by rewrite (deep_id_factor _ _ _ _ _ Ht). }
  destruct (keyed_sort (sum_key l) (LessThan_deepPTRef l) ts (λ t, t ∈ ts)) as (a & Ea & Hp & Ho).
  - intros x y Hx Hy. unfold LessThan_deepPTRef. by rewrite (Hk x Hx), (Hk y Hy).
  - done.
  - unfold termSort. rewrite Ea. f_equal. by apply (increasing_unique (sum_key l)); [rewrite Ek|..].
Qed.

(** The negation of a normalised linear term. *)
Lemma mkNeg_ok l s t xs : logic_wf l → linear l s t xs →
  ∃ t' l', mkNeg t l = Ok (t', l') ∧ logic_wf l' ∧ logic_le l l' ∧ linear l' s t' (negated xs).
Proof.
  intros W Hl. unfold mkNeg. destruct Hl as [t x q Hf|t ts xs Ht Hn Hf Hs].
  - destruct (neg_factor l s t x q (S t) W Hf ltac:(lia)) as (t' & l' & E & W' & Hle & Hf').
    exists t', l'. split; [done|]. split; [done|]. split; [done|]. by constructor.
  - cbn [mkNeg_from]. rewrite (at_pterms _ _ _ Ht). cbn [rbind nsym nargs]. unfold map_state.
    destruct (neg_factors s t ts xs l W Hf) with (done_ := @nil PTRef) as (ts' & l1 & E1 & W1 & Hle1 & Hf1).
    { intros a Ha. exact (lw_args l W t _ a Ht Ha). }
    rewrite E1. cbn [rbind fst snd app].
    assert (length ts' = length ts) as Hlen.
    { apply Forall2_length in Hf, Hf1. unfold negated in Hf1. rewrite length_fmap in Hf1. congruence. }
    assert (StronglySorted lt (fst <$> negated xs)) as Hs1 by (by rewrite negated_vars).
    destruct (mkFun_cplx_ok l1 (sym_PLUS s) ts' ts') as (t' & l2 & E2 & W2 & Hle2 & Hg); try done.
    + intros ->. simpl in Hlen. lia.
    + cbn [commutes]. by eapply factors_sorted.
    + intros ->. simpl in Hlen. lia.
    + intros a (xq & _ & Ha)%(Forall2_elem_of_l _ _ _ _ Hf1). apply nfactor_node in Ha as [n Hn'].
      by eapply lookup_lt_Some.
    + exists t', l2. split; [done|]. split; [done|]. split; [by eapply logic_le_trans|].
      eapply lin_sum; [by apply exact_symbol|lia| |done].
      eapply Forall2_impl; [done|]. intros a b. by apply nfactor_mono.
Qed.

(** Negating twice gives the term itself, and nothing new. *)
Lemma mkNeg_twice l s t xs t' l' : logic_wf l → linear l s t xs → mkNeg t l = Ok (t', l') →
  ∃ l2, mkNeg t' l' = Ok (t, l2) ∧ logic_le l' l2 ∧ logic_wf l2.
Proof.
  intros W Hl E. destruct (mkNeg_ok l s t xs W Hl) as (t1 & l1 & E1 & W1 & Hle1 & Hl1). rewrite E in E1. injection E1 as <- <-.
  destruct (mkNeg_ok l' s t' _ W1 Hl1) as (t2 & l2 & E2 & W2 & Hle2 & Hl2). rewrite negated_negated in Hl2.
  exists l2. assert (t2 = t) as ->; [|done]. eapply linear_unique; [exact W2|exact Hl2|].
  eapply linear_mono; [exact Hle2|]. by eapply linear_mono.
Qed.

(** ** Values *)

Definition lval (ρ : PTRef → Qc) xs : Qc := foldr (λ xq acc, (xq.2 * ρ xq.1 + acc)%Qc) 0%Qc xs.

Lemma lval_negated ρ xs : lval ρ (negated xs) = (- lval ρ xs)%Qc.
Proof.
  unfold lval, negated. induction xs as [|[x q] xs IH]; [simpl; ring|]. rewrite fmap_cons. cbn [foldr fst snd].
  rewrite IH. ring.
Qed.

End neg.
