(* ===== verification/LASolver.v ===== *)
(** * The linear arithmetic solver

    LASolver.cc, LASolver.h, LAVarMapper.cc: inequalities between a constant and
    a linear term become pairs of bounds on the simplex variable of the term;
    literals assert one bound of the pair.  Explanations and deductions are
    translated back to literals.

    The bound store and the variable store are members of the simplex state.
    Cuts and splits on integer variables, interpolation and the equalities for
    combination with other theories are left out. *)
From S2P Require Import Prelude Gmp FastRationalInt Number Delta Polynomial Tableau LABounds LABuild LRAModel Simplex Terms TSolver ArithTerms.
From Stdlib Require Import Lia.

#[local] Open Scope nat_scope.

Inductive LASolverStatus : Type := INIT | INCREMENT | SAT | UNSAT | NEWSPLIT | UNKNOWN | ERROR.
#[global] Instance LASolverStatus_eq_dec : EqDecision LASolverStatus.
Proof. solve_decision. Defined.

Section lasolver.
Context {N : Type} `{Number N}.

(** Entries that [growTo] default-constructs are [None]. *)
Record LASolver : Type := MkLASolver {
  base : TSolver;
  logic : ArithLogic N;
  ptermToLavar : list (option LVRef);
  laVarToPTRef : list (option PTRef);
  simplex : Simplex N;
  decision_trace : list PtAsgn;
  dec_limit : list nat;
  int_decisions : list (PtAsgn * nat);
  explanation : list PtAsgn;
  explanationCoefficients : list N;
  LABoundRefToLeqAsgn : list (option PtAsgn);
  LeqToLABoundRefPair : list (option (LABoundRef * LABoundRef));
  int_vars : list LVRef;
  concrete_model : list N;
  status : LASolverStatus;
}.
Implicit Types s : LASolver.

Definition with_base b s : LASolver := MkLASolver b (logic s) (ptermToLavar s) (laVarToPTRef s) (simplex s)
  (decision_trace s) (dec_limit s) (int_decisions s) (explanation s) (explanationCoefficients s)
  (LABoundRefToLeqAsgn s) (LeqToLABoundRefPair s) (int_vars s) (concrete_model s) (status s).
Definition with_logic l s : LASolver := MkLASolver (base s) l (ptermToLavar s) (laVarToPTRef s) (simplex s)
  (decision_trace s) (dec_limit s) (int_decisions s) (explanation s) (explanationCoefficients s)
  (LABoundRefToLeqAsgn s) (LeqToLABoundRefPair s) (int_vars s) (concrete_model s) (status s).
Definition with_mapper p v s : LASolver := MkLASolver (base s) (logic s) p v (simplex s)
  (decision_trace s) (dec_limit s) (int_decisions s) (explanation s) (explanationCoefficients s)
  (LABoundRefToLeqAsgn s) (LeqToLABoundRefPair s) (int_vars s) (concrete_model s) (status s).
Definition with_simplex x s : LASolver := MkLASolver (base s) (logic s) (ptermToLavar s) (laVarToPTRef s) x
  (decision_trace s) (dec_limit s) (int_decisions s) (explanation s) (explanationCoefficients s)
  (LABoundRefToLeqAsgn s) (LeqToLABoundRefPair s) (int_vars s) (concrete_model s) (status s).
Definition with_decisions tr lim d s : LASolver := MkLASolver (base s) (logic s) (ptermToLavar s) (laVarToPTRef s)
  (simplex s) tr lim d (explanation s) (explanationCoefficients s)
  (LABoundRefToLeqAsgn s) (LeqToLABoundRefPair s) (int_vars s) (concrete_model s) (status s).
Definition with_expl e c s : LASolver := MkLASolver (base s) (logic s) (ptermToLavar s) (laVarToPTRef s)
  (simplex s) (decision_trace s) (dec_limit s) (int_decisions s) e c
  (LABoundRefToLeqAsgn s) (LeqToLABoundRefPair s) (int_vars s) (concrete_model s) (status s).
Definition with_tables a p s : LASolver := MkLASolver (base s) (logic s) (ptermToLavar s) (laVarToPTRef s)
  (simplex s) (decision_trace s) (dec_limit s) (int_decisions s) (explanation s) (explanationCoefficients s)
  a p (int_vars s) (concrete_model s) (status s).
Definition with_int_vars i s : LASolver := MkLASolver (base s) (logic s) (ptermToLavar s) (laVarToPTRef s)
  (simplex s) (decision_trace s) (dec_limit s) (int_decisions s) (explanation s) (explanationCoefficients s)
  (LABoundRefToLeqAsgn s) (LeqToLABoundRefPair s) i (concrete_model s) (status s).
Definition with_concrete m s : LASolver := MkLASolver (base s) (logic s) (ptermToLavar s) (laVarToPTRef s)
  (simplex s) (decision_trace s) (dec_limit s) (int_decisions s) (explanation s) (explanationCoefficients s)
  (LABoundRefToLeqAsgn s) (LeqToLABoundRefPair s) (int_vars s) m (status s).
Definition with_status st s : LASolver := MkLASolver (base s) (logic s) (ptermToLavar s) (laVarToPTRef s)
  (simplex s) (decision_trace s) (dec_limit s) (int_decisions s) (explanation s) (explanationCoefficients s)
  (LABoundRefToLeqAsgn s) (LeqToLABoundRefPair s) (int_vars s) (concrete_model s) st.

Definition boundStore_ s : LABoundStore N := boundStore (simplex s).
Definition with_boundStore st s : LASolver := with_simplex (with_store st (simplex s)) s.

(** The constructor, on a given logic. *)
Definition LASolver_init (l : ArithLogic N) : LASolver :=
  MkLASolver TSolver_init l [] [] (Simplex_init (MkLABoundStore [] [] [] [])) [] [0] [] [] [] [] [] [] [] INIT.

(** [clearSolver]: the [Simplex] and the vectors are emptied. *)
Definition LASolver_clear s : LASolver :=
  let x := Simplex_clear (simplex s) in
  MkLASolver (TSolver_clearSolver (base s)) (logic s) [] []
    (with_store (LABoundStore_clear (MkLABoundStore (in_bounds (boundStore x)) (ba (boundStore x)) [] (bounds (boundStore x)))) x)
    [] [] [] (explanation s) (explanationCoefficients s) [] [] [] (concrete_model s) INIT.

(** ** Status *)

(** [UNKNOWN] becomes [SAT]; [INIT], [INCREMENT] and [ERROR] throw. *)
Definition getStatus s : res (bool * LASolver) :=
  match status s with
  | SAT | NEWSPLIT => Ok (true, s)
  | UNSAT => Ok (false, s)
  | UNKNOWN => Ok (true, with_status SAT s)
  | INIT | INCREMENT | ERROR => Err Assertion_failed
  end.

Definition setStatus (st : LASolverStatus) s : res (bool * LASolver) :=
  let s := with_status st s in
  let s := match st with UNSAT => with_base (with_explanation (base s) true) s | _ => s end in
  getStatus s.

(** ** The mapper *)

Definition hasVarId (i : nat) s : bool := match ptermToLavar s !! i with Some (Some _) => true | _ => false end.
Definition mapper_hasVar (t : PTRef) s : res bool := let! _ := node (logic s) t in Ok (hasVarId t s).

(** [LVRef::Undef] is no variable of the solver. *)
Definition getVarByPTId (i : nat) s : res LVRef :=
  let! v := at_ (ptermToLavar s) i in match v with Some v => Ok v | None => Err Out_of_range end.

Definition getVarPTRef (v : LVRef) s : res PTRef :=
  let! t := at_ (laVarToPTRef s) v in match t with Some t => Ok t | None => Err Out_of_range end.

(** The recursion is into the first argument of a sum: of a product the
    constant is tested. *)
Fixpoint isNegated_from (fuel : nat) (l : ArithLogic N) (t : PTRef) : res bool :=
  match fuel with
  | O => Err Out_of_fuel
  | S fuel =>
      let! n := node l t in
      match nsym n with
      | sym_const _ c => Ok (n_lt c (n_of_Z 0))
      | sym_var _ _ => Ok false
      | sym_TIMES _ => let! vc := splitTermToVarAndConst l t in isNegated_from fuel l vc.2
      | sym_ite _ => Ok false
      | _ => let! a := at_ (nargs n) 0 in isNegated_from fuel l a
      end
  end.
Definition isNegated (t : PTRef) s : res bool := isNegated_from (S t) (logic s) t.

Definition registerNewMapping (lv : LVRef) (e : PTRef) s : res LASolver :=
  let! b := mapper_hasVar e s in
  let! _ := check (negb b) in
  let! b := isNegated e s in
  let! _ := check (negb b) in
  let! vs := upd (grow (laVarToPTRef s) lv None) lv (Some e) in
  let! r := mkNeg e (logic s) in
  let s := with_logic r.2 s in
  let id_neg := r.1 in
  let! _ := check (negb (hasVarId e s)) in
  let ps := grow (ptermToLavar s) (Nat.max e id_neg) None in
  let! a := at_ ps e in
  let! b := at_ ps id_neg in
  let! _ := check (bool_decide (a = b)) in
  let! ps := upd ps e (Some lv) in
  let! ps := upd ps id_neg (Some lv) in
  Ok (with_mapper ps vs s).

(** ** Integer variables *)

Definition isIntVar (v : LVRef) s : bool := bool_decide (v ∈ int_vars s).
Definition markVarAsInt (v : LVRef) s : LASolver :=
  if isIntVar v s then s else with_int_vars (int_vars s ++ [v]) s.

Definition notifyVar (v : LVRef) s : res LASolver :=
  let! t := getVarPTRef v s in
  let! b := isNumVarOrIte (logic s) t in
  let! _ := check b in
  let! i := yieldsSortInt (logic s) t in
  Ok (if (i : bool) then markVarAsInt v s else s).

(** ** Bounds of an inequality *)

Definition getBoundsValueForIntVar (c : N) (strict : bool) : BoundValuePair N :=
  if strict
  then MkBoundValuePair (Delta_Real (n_ceil (n_sub c (n_of_Z 1)))) (Delta_Real (n_ceil c))
  else MkBoundValuePair (Delta_Real (n_floor c)) (Delta_Real (n_floor (n_add c (n_of_Z 1)))).
Definition getBoundsValueForRealVar (c : N) (strict : bool) : BoundValuePair N :=
  if strict
  then MkBoundValuePair (MkDelta c (n_of_Z (-1))) (Delta_Real c)
  else MkBoundValuePair (Delta_Real c) (MkDelta c (n_of_Z 1)).
Definition getBoundsValue (v : LVRef) (c : N) (strict : bool) s : BoundValuePair N :=
  if isIntVar v s then getBoundsValueForIntVar c strict else getBoundsValueForRealVar c strict.

(** [if (v.size() <= i) v.growTo(i + 1); v[i] = x;] *)
Definition store_at {A : Type} (v : list (option A)) (i : nat) (x : A) : res (list (option A)) :=
  upd (grow v i None) i (Some x).

Definition addBound (leq : PTRef) s : res (BoundInfo * LASolver) :=
  let! ct := leqToConstantAndTerm (logic s) leq in
  let '(const_tr, sum_tr) := ct in
  let! b1 := a_isNumConst (logic s) const_tr in
  let! b2 := isLinearTerm (logic s) sum_tr in
  let! _ := check (b1 && b2) in
  let! sum_term_is_negated := isNegated sum_tr s in
  let! v := getVarByPTId sum_tr s in
  let! constr := a_getNumConst (logic s) const_tr in
  let bp := if (sum_term_is_negated : bool) then getBoundsValue v (n_neg constr) false s
            else getBoundsValue v constr true s in
  let (bi, st) := allocBoundPair v bp (boundStore_ s) in
  let s := with_boundStore st s in
  let (br_pos, br_neg) := if (sum_term_is_negated : bool) then (bi_ub bi, bi_lb bi) else (bi_lb bi, bi_ub bi) in
  let! pairs := store_at (LeqToLABoundRefPair s) leq (br_pos, br_neg) in
  let asgns := grow (LABoundRefToLeqAsgn s) (Nat.max br_pos br_neg) None in
  let! asgns := upd asgns br_pos (Some (MkPtAsgn leq l_True)) in
  let! asgns := upd asgns br_neg (Some (MkPtAsgn leq l_False)) in
  Ok (bi, with_tables asgns pairs s).

Definition setBound (leq : PTRef) s : res LASolver := let! r := addBound leq s in Ok r.2.

Definition LA_updateBound (leq : PTRef) s : res LASolver :=
  match LeqToLABoundRefPair s !! leq with
  | Some (Some _) => Ok s
  | _ =>
      let! r := addBound leq s in
      let! st := updateBound r.1 (boundStore_ r.2) in
      Ok (with_boundStore st r.2)
  end.

Definition getBoundRefPair (leq : PTRef) s : res (LABoundRef * LABoundRef) :=
  let! p := at_ (LeqToLABoundRefPair s) leq in match p with Some p => Ok p | None => Err Out_of_range end.

Definition getAsgnByBound (br : LABoundRef) s : res PtAsgn :=
  let! b := get_bound (boundStore_ s) br in
  let! a := at_ (LABoundRefToLeqAsgn s) (id b) in
  match a with Some a => Ok a | None => Err Out_of_range end.

(** ** Registering terms *)

Definition getVarForTerm (t : PTRef) s : res LVRef := getVarByPTId t s.

Definition getVarForLeq (leq : PTRef) s : res LVRef :=
  let! ct := leqToConstantAndTerm (logic s) leq in getVarByPTId ct.2 s.

Definition getLAVar_single (expr_in : PTRef) s : res (LVRef * LASolver) :=
  let! b := isLinearTerm (logic s) expr_in in
  let! _ := check b in
  if hasVarId expr_in s then let! v := getVarForTerm expr_in s in Ok (v, s)
  else
    let! neg := isNegated expr_in s in
    let! r := (if (neg : bool) then mkNeg expr_in (logic s) else Ok (expr_in, logic s)) in
    let s := with_logic r.2 s in
    let (x, lv) := getNewVar (lvstore (boundStore_ s)) in
    let st := boundStore_ s in
    let s := with_boundStore (MkLABoundStore (in_bounds st) (ba st) lv (bounds st)) s in
    let! s := registerNewMapping x r.1 s in
    Ok (x, s).

(** One argument of the sum. *)
Definition add_argument (negated : bool) (st : poly_t N * LASolver) (a : PTRef) : res (poly_t N * LASolver) :=
  let '(poly, s) := st in
  let! vc := splitTermToVarAndConst (logic s) a in
  match vc.1 with
  | None => Err Assertion_failed
  | Some v =>
      let! r := getLAVar_single v s in
      let! c := a_getNumConst (logic r.2) vc.2 in
      let c := if negated then n_neg c else c in
      let! poly := addTerm poly r.1 c in
      Ok (poly, r.2)
  end.

Definition expressionToLVarPoly (term : PTRef) s : res (poly_t N * LASolver) :=
  let! negated := isNegated term s in
  let! n := node (logic s) term in
  foldM (add_argument negated) ([], s) (nargs n).

(** The loop over the terms of the polynomial: the state and [isInt]. *)
Definition declare_variable (st : LASolver * bool) (term : Term N) : res (LASolver * bool) :=
  let '(s, isInt) := st in
  let! s := notifyVar (var term) s in
  let! x := Simplex_nonbasicVar (var term) (simplex s) in
  let s := with_simplex x s in
  Ok (s, isInt && isIntVar (var term) s && n_isInteger (coeff term)).

Definition registerArithmeticTerm (expr : PTRef) s : res (LVRef * LASolver) :=
  let! known := mapper_hasVar expr s in
  let! done_ := (if (known : bool) then
                   let! x := getVarForTerm expr s in
                   Ok (if isProcessedByTableau (simplex s) x then Some x else None)
                 else Ok None) in
  match done_ with
  | Some x => Ok (x, s)
  | None =>
      let! b1 := isNumVarOrIte (logic s) expr in
      let! b2 := a_isTimes (logic s) expr in
      if b1 || b2 then
        let! vc := splitTermToVarAndConst (logic s) expr in
        match vc.1 with
        | None => Err Assertion_failed
        | Some v =>
            let! b := isNumVarOrIte (logic s) v in
            let! _ := check b in
            let! r := getLAVar_single v s in
            let '(x, s) := r in
            let! y := Simplex_newNonbasicVar x (simplex s) in
            let! s := notifyVar x (with_simplex y s) in
            Ok (x, s)
        end
      else
        let! r := getLAVar_single expr s in
        let '(x, s) := r in
        let! r := expressionToLVarPoly expr s in
        let '(poly, s) := r in
        let! r := foldM declare_variable (s, true) poly in
        let '(s, isInt) := r in
        let! y := Simplex_newRow x poly (simplex s) in
        let s := with_simplex y s in
        Ok (x, if (isInt : bool) then markVarAsInt x s else s)
  end.

(** ** Declaring atoms *)

Definition LA_declareAtom (leq : PTRef) s : res LASolver :=
  let! b := a_isLeq (logic s) leq in
  if negb b then Ok s
  else if isInformed (base s) leq then Ok s
  else
    let s := with_base (setInformed (base s) leq) s in
    match status s with
    | INIT => Ok s
    | _ =>
        let! _ := check (bool_decide (status s = SAT)) in
        let! term := argOf (logic s) leq 1 in
        let! r := registerArithmeticTerm term s in
        LA_updateBound leq r.2
    end.

(** [order] is the order in which [buildBounds] meets the variables of the
    pairs: that of a hash table. *)
Definition initSolver (order : list BoundInfo → list LVRef) s : res LASolver :=
  match status s with
  | INIT =>
      let! s := foldM (λ s leq,
          let! term := argOf (logic s) leq 1 in
          let! r := registerArithmeticTerm term s in
          setBound leq r.2) s (informed_PTRefs (base s)) in
      let! st := buildBounds (order (in_bounds (boundStore_ s))) (boundStore_ s) in
      let s := with_boundStore st s in
      Ok (with_status SAT (with_simplex (initModel (simplex s)) s))
  | _ => Err Assertion_failed
  end.

Definition ensure_init (order : list BoundInfo → list LVRef) s : res LASolver :=
  match status s with INIT => initSolver order s | _ => Ok s end.

(** ** Checking and asserting *)

Definition storeExplanation (e : Explanation N) s : res LASolver :=
  let! r := foldM (λ st t, let! a := getAsgnByBound (boundref t) s in
                           Ok (st.1 ++ [a], st.2 ++ [ecoeff t])) ([], []) e in
  Ok (with_expl r.1 r.2 s).

(** [check] without the search for integer solutions. *)
Definition check_simplex (order : list BoundInfo → list LVRef) (fuel : nat) s : res (bool * LASolver) :=
  let! s := ensure_init order s in
  let! r := checkSimplex fuel (simplex s) in
  let! s := storeExplanation r.1 (with_simplex r.2 s) in
  let! r := setStatus (match explanation s with [] => SAT | _ => UNSAT end) s in
  getStatus r.2.

Definition LA_assertBoundOnVar (it : LVRef) (br : LABoundRef) s : res (bool * LASolver) :=
  let! _ := check (bool_decide (status s = SAT)) in
  let! r := assertBoundOnVar it br (simplex s) in
  let! s := storeExplanation r.1 (with_simplex r.2 s) in
  match explanation s with
  | [] => getStatus s
  | _ => setStatus UNSAT s
  end.

Definition deduce (br : LABoundRef) s : res LASolver :=
  let! a := getAsgnByBound br s in
  if hasPolarity (base s) (tr a) then Ok s
  else Ok (with_base (storeDeduction (base s) (MkPtAsgn_reason (tr a) (sgn a) None)) s).

(** One place of the list in the loops of [getSimpleDeductions]. *)
Definition deduce_at (v : LVRef) (ty : BoundT) s (it : nat) : res LASolver :=
  let! br := getBoundByIdx (boundStore_ s) v it in
  let! b := get_bound (boundStore_ s) br in
  if decide (type b = ty) then deduce br s else Ok s.

(** Downwards from the place below a lower bound; upwards from the place above
    an upper bound to the last place but one. *)
Definition getSimpleDeductions (v : LVRef) (br : LABoundRef) s : res LASolver :=
  let! bound := get_bound (boundStore_ s) br in
  match bidx bound with
  | None => Err Out_of_range
  | Some i =>
      match type bound with
      | bound_l => foldM (deduce_at v bound_l) s (reverse (seq 0 i))
      | bound_u =>
          let! l := getBounds (boundStore_ s) v in
          foldM (deduce_at v bound_u) s (seq (S i) (length l - 1 - S i))
      end
  end.

Definition LA_backtrackLevel s : nat := length (dec_limit s) - 1.
Definition pushDecision (a : PtAsgn) s : LASolver :=
  with_decisions (decision_trace s ++ [a]) (dec_limit s) (int_decisions s ++ [(a, LA_backtrackLevel s)]) s.

(** [polarityMap[tr]]; absent is [l_Undef]. *)
Definition getPolarity (b : TSolver) (t : PTRef) : lbool := default l_Undef (polarityMap b !! t).

Definition LA_assertLit (order : list BoundInfo → list LVRef) (a : PtAsgn) s : res (bool * LASolver) :=
  let! _ := check (negb (bool_decide (sgn a = l_Undef))) in
  if decide (tr a = term_TRUE (logic s) ∧ sgn a = l_True) then Ok (true, s)
  else if decide (tr a = term_FALSE (logic s) ∧ sgn a = l_False) then Ok (true, s)
  else if decide (tr a = term_TRUE (logic s) ∧ sgn a = l_False) then Ok (false, s)
  else if decide (tr a = term_FALSE (logic s) ∧ sgn a = l_True) then Ok (false, s)
  else
    let! s := ensure_init order s in
    if hasPolarity (base s) (tr a) && bool_decide (getPolarity (base s) (tr a) = sgn a) then
      let! r := getStatus s in
      let! _ := check r.1 in
      getStatus r.2
    else
      let! p := getBoundRefPair (tr a) s in
      let bound_ref := if decide (sgn a = l_False) then p.2 else p.1 in
      let! it := getVarForLeq (tr a) s in
      let! r := LA_assertBoundOnVar it bound_ref s in
      if (r.1 : bool) then
        let! r := getStatus r.2 in
        let! _ := check r.1 in
        let s := with_base (setPolarity (base r.2) (tr a) (sgn a)) r.2 in
        let s := pushDecision a s in
        let! s := getSimpleDeductions it bound_ref s in
        getStatus s
      else getStatus r.2.

Definition LA_getConflict s : list PtAsgn := explanation s.

(** ** Backtracking *)

Definition LA_pushBacktrackPoint s : LASolver :=
  let s := with_simplex (Simplex_pushBacktrackPoint (simplex s)) s in
  let s := with_decisions (decision_trace s) (dec_limit s ++ [length (decision_trace s)]) (int_decisions s) s in
  with_base (TSolver_pushBacktrackPoint (base s)) s.

(** [None] is [PtAsgn_Undef]. *)
Definition popDecisions s : res (option PtAsgn * LASolver) :=
  let! lim := last_ (dec_limit s) in
  let d := length (decision_trace s) - lim in
  let! _ := check ((lim <=? length (decision_trace s)) && ((d =? 1) || (d =? 0))) in
  let! r := (if d =? 1 then
               let! x := last_ (int_decisions s) in
               let! ds := pop (int_decisions s) in
               Ok (Some x.1, ds)
             else Ok (None, int_decisions s)) in
  let! tr := shrink (decision_trace s) d in
  Ok (r.1, with_decisions tr (dec_limit s) r.2 s).

Definition popTermBacktrackPoint s : res (option PtAsgn * LASolver) :=
  let! x := Simplex_popBacktrackPoint (simplex s) in
  let! r := popDecisions (with_simplex x s) in
  let! lim := pop (dec_limit r.2) in
  Ok (r.1, with_decisions (decision_trace r.2) lim (int_decisions r.2) r.2).

(** One round of the loop of [popBacktrackPoints]. *)
Definition pop_point s : res LASolver :=
  let! r := popTermBacktrackPoint s in
  let! s := (match r.1 with
             | None => Ok r.2
             | Some dec =>
                 let s := with_base (clearPolarity (base r.2) (tr dec)) r.2 in
                 let! it := getVarForLeq (tr dec) s in
                 let! x := boundDeactivated it (simplex s) in
                 Ok (with_simplex x s)
             end) in
  let! b := TSolver_popBacktrackPoint (base s) in
  Ok (with_base b s).

Definition LA_popBacktrackPoints (count : nat) s : res LASolver :=
  let! s := foldM (λ s _, pop_point s) s (seq 0 count) in
  let! x := finalizeBacktracking (simplex s) in
  let! r := setStatus SAT (with_simplex x s) in
  Ok r.2.
Definition LA_popBacktrackPoint s : res LASolver := LA_popBacktrackPoints 1 s.

(** ** Models *)

Definition computeConcreteModel (v : LVRef) (d : N) s : res LASolver :=
  let m := grow (concrete_model s) v (n_of_Z 0) in
  let! r := getValuation v (simplex s) in
  let! m := upd m v (n_add (R r.1) (n_mul (D r.1) d)) in
  Ok (with_concrete m (with_simplex r.2 s)).

Definition LA_computeModel s : res LASolver :=
  let! _ := check (bool_decide (status s = SAT)) in
  let! d := computeDelta (simplex s) in
  foldM (λ s v, computeConcreteModel v d s) s (lvstore (boundStore_ s)).

(** The values given to the model builder. *)
Definition LA_fillTheoryFunctions s : res (list (PTRef * N)) :=
  foldM (λ acc v,
    let! t := getVarPTRef v s in
    let! b := a_isNumVar (logic s) t in
    if (b : bool) then let! x := at_ (concrete_model s) v in Ok (acc ++ [(t, x)]) else Ok acc)
    [] (lvstore (boundStore_ s)).

Definition LA_hasVar (expr : PTRef) s : res (bool * LASolver) :=
  let! neg := isNegated expr s in
  let! r := (if (neg : bool) then mkNeg expr (logic s) else Ok (expr, logic s)) in
  Ok (hasVarId r.1 s, with_logic r.2 s).

Definition evaluateTerm (t : PTRef) s : res (N * LASolver) :=
  let! b := a_isNumConst (logic s) t in
  if (b : bool) then let! c := a_getNumConst (logic s) t in Ok (c, s)
  else
    let! vc := splitTermToVarAndConst (logic s) t in
    match vc.1 with
    | None => Err Assertion_failed
    | Some v =>
        let! h := LA_hasVar v s in
        if (h.1 : bool) then
          let! c := a_getNumConst (logic h.2) vc.2 in
          let! lv := getVarForTerm v h.2 in
          let! x := at_ (concrete_model h.2) lv in
          Ok (n_add (n_of_Z 0) (n_mul c x), h.2)
        else Ok (n_of_Z 0, h.2)
    end.

Definition LA_getPolaritySuggestion (leq : PTRef) s : res (lbool * LASolver) :=
  if negb (isInformed (base s) leq) then Ok (l_Undef, s)
  else
    let! v := getVarForLeq leq s in
    let! p := getBoundRefPair leq s in
    let! r := getPolaritySuggestion v p.1 p.2 (simplex s) in
    Ok (match r.1 with Some true => l_True | Some false => l_False | None => l_Undef end, with_simplex r.2 s).

Definition isModelInteger (v : LVRef) s : res (bool * LASolver) :=
  let! r := getValuation v (simplex s) in
  Ok (negb (hasDelta r.1 || negb (n_isInteger (R r.1))), with_simplex r.2 s).

End lasolver.
Arguments LASolver N : clear implicits.
