(* ===== verification/LAMapper.v ===== *)
(** * The meaning of linear terms and inequalities

    The first part is about terms that are sums of products, the second about
    the mapper. *)
From stdpp Require Import sorting.
From S2P Require Import Prelude Gmp FastRationalInt Number Lex Delta Polynomial Tableau LABounds LABuild LRAModel Simplex SimplexSession Terms.
From S2P Require Import TSolver ArithTerms LASolver.
From Stdlib Require Import Lia.

#[local] Open Scope nat_scope.

Section terms.
Context {N : Type} `{Number N}.
Implicit Types (l : ArithLogic N) (t x : PTRef) (xs : list (PTRef * Qc)) (ρ : PTRef → Qc).

(** ** Values of terms, as the store spells them *)

Definition const_val l (k : PTRef) : Qc :=
  match pterms l !! k with Some n => match nsym n with sym_const _ c => nval c | _ => 0%Qc end | None => 0%Qc end.

Definition factor_val l ρ t : Qc :=
  match splitTermToVarAndConst l t with
  | Ok (Some x, k) => (const_val l k * ρ x)%Qc
  | Ok (None, k) => const_val l k
  | Err _ => 0%Qc
  end.

Definition summands l t : list PTRef :=
  match pterms l !! t with Some n => match nsym n with sym_PLUS _ => nargs n | _ => [t] end | None => [t] end.

Definition term_val l ρ t : Qc := foldr (λ a acc, (factor_val l ρ a + acc)%Qc) 0%Qc (summands l t).

Lemma factor_value l s t x q ρ : logic_wf l → nfactor l s t x q → factor_val l ρ t = (q * ρ x)%Qc.
Proof.
  intros W Hf. destruct (split_factor l s t x q W Hf) as (k & c & E & Hk & <-).
  unfold factor_val, const_val. by rewrite E, Hk.
Qed.

Lemma factor_summands l s t x q : nfactor l s t x q → summands l t = [t].
Proof. intros []; unfold summands; rewrite ?H0; [destruct f|]; done. Qed.

Lemma linear_value l s t xs ρ : logic_wf l → linear l s t xs → term_val l ρ t = lval ρ xs.
Proof.
  intros W Hl. unfold term_val. destruct Hl as [t x q Hf|t ts xs Ht Hn Hf Hs].
  - rewrite (factor_summands _ _ _ _ _ Hf). simpl. by rewrite (factor_value _ _ _ _ _ ρ W Hf).
  - unfold summands. rewrite Ht. simpl. clear Ht Hn Hs. unfold lval.
    induction Hf as [|a [x q] ts xs Ha _ IH]; [done|]. simpl. rewrite IH. by rewrite (factor_value _ _ _ _ _ ρ W Ha).
Qed.

(** ** Terms determine their variables and coefficients *)

Lemma pair_inv x k x' k' : sorted_pair x k = sorted_pair x' k' → x = x' ∧ k = k' ∨ x = k' ∧ k = x'.
Proof. unfold sorted_pair. destruct (x <? k), (x' <? k'); intros [= -> ->]; tauto. Qed.

Lemma nfactor_det l s s' t x x' q q' : nfactor l s t x q → nfactor l s' t x' q' → s = s' ∧ x = x' ∧ q = q'.
Proof.
  intros H1 H2. destruct H1 as [t f args Ht Hv|t x k c f args Ht Hx Hv Hk H0 H1];
    destruct H2 as [t' f' args' Ht' Hv'|t' x' k' c' f' args' Ht' Hx' Hv' Hk' H0' H1']; rewrite Ht in Ht'.
  - injection Ht' as <- _. split; [|done]. destruct f; try done; simpl in *; congruence.
  - injection Ht' as -> _. by destruct Hv.
  - injection Ht' as <- _. by destruct Hv'.
  - injection Ht' as <- Ep. destruct (pair_inv _ _ _ _ Ep) as [[<- <-]|[<- <-]].
    + rewrite Hk in Hk'. by injection Hk' as <-.
    + rewrite Hx in Hk'. injection Hk' as -> _. done.
Qed.

Lemma factor_not_sum l s t x q s' ts : nfactor l s t x q → pterms l !! t = Some (MkNode (sym_PLUS s') ts) → False.
Proof.
  intros [t' f args Ht Hv|t' x' k c f args Ht _ _ _ _ _] Hp; rewrite Hp in Ht; [injection Ht as <- _; done | discriminate Ht].
Qed.

Lemma linear_det l s s' t xs xs' : linear l s t xs → linear l s' t xs' → s = s' ∧ xs = xs'.
Proof.
  intros H1 H2. destruct H1 as [t x q Hf|t ts xs Ht Hn Hf Hs]; destruct H2 as [t' x' q' Hf'|t' ts' xs' Ht' Hn' Hf' Hs'].
  - by destruct (nfactor_det _ _ _ _ _ _ _ _ Hf Hf') as (-> & -> & ->).
  - by destruct (factor_not_sum _ _ _ _ _ _ _ Hf Ht').
  - by destruct (factor_not_sum _ _ _ _ _ _ _ Hf' Ht).
  - rewrite Ht in Ht'. injection Ht' as <- <-. split; [done|]. clear Ht Hn Hs Hn' Hs'. revert xs' Hf'.
    induction Hf as [|a [x q] ts xs Ha _ IH]; intros xs' Hf'; inversion Hf' as [|? [x' q'] ? xs2 Ha' Hf2]; [done|]. subst.
    destruct (nfactor_det _ _ _ _ _ _ _ _ Ha Ha') as (_ & Ex & Eq). simpl in Ex, Eq. subst. f_equal. by apply IH.
Qed.

(** ** Leading coefficients *)

Definition leading xs : Qc := match xs with [] => 0%Qc | (_, q) :: _ => q end.

(** The variables are variables or conditional terms, as [isProperLeq] says. *)
Definition plain l x : Prop := ∃ n, pterms l !! x = Some n ∧ is_var (nsym n) || is_ite (nsym n) = true.
Definition lin l s t xs : Prop := linear l s t xs ∧ ∀ x, x ∈ xs.*1 → plain l x.

Lemma plain_mono l l' x : logic_le l l' → plain l x → plain l' x.
Proof. intros Hle (n & Hn & Hp). exists n. split; [by eapply logic_le_node|done]. Qed.

Lemma lin_mono l l' s t xs : logic_le l l' → lin l s t xs → lin l' s t xs.
Proof. intros Hle [Hl Hp]. split; [by eapply linear_mono|]. intros x Hx. eapply plain_mono; eauto. Qed.

Lemma nfactor_nonzero l s t x q : nfactor l s t x q → q ≠ 0%Qc.
Proof. by intros []. Qed.

Lemma leading_nonzero l s t xs : linear l s t xs → leading xs ≠ 0%Qc.
Proof.
  intros [t' x q Hf|t' ts xs' _ Hn Hf _]; [by eapply nfactor_nonzero|].
  destruct Hf as [|a [x q] ts2 xs2 Ha _]; [simpl in Hn; lia|]. simpl. by eapply nfactor_nonzero.
Qed.

Lemma leading_negated xs : leading (negated xs) = (- leading xs)%Qc.
Proof. destruct xs as [|[x q] xs]; simpl; [ring | done]. Qed.

Lemma isNegated_factor l s t x q fuel : logic_wf l → nfactor l s t x q → plain l x → t < fuel →
  isNegated_from fuel l t = Ok (bool_decide (q < 0)%Qc).
Proof.
  intros W Hf (n & Hn & Hp) Hfuel. destruct fuel as [|fuel]; [lia|]. cbn [isNegated_from].
  destruct Hf as [t f args Ht Hv|t x k c f args Ht Hx Hv Hk H0 H1]; rewrite (at_pterms _ _ _ Ht); cbn [rbind nsym].
  - rewrite Ht in Hn. injection Hn as <-. simpl in Hp. rewrite bool_decide_false by (intros ?; qc_lra). by destruct f.
  - erewrite split_times by eauto. cbn [rbind snd].
    assert (k < t) as Hkt by (apply (lw_args l W t _ k Ht), sorted_pair_in). destruct fuel as [|fuel]; [lia|].
    cbn [isNegated_from]. rewrite (at_pterms _ _ _ Hk). cbn [rbind nsym]. f_equal. apply eq_true_iff_eq.
    by rewrite n_lt_val, n_zero_val, bool_decide_eq_true.
Qed.

Lemma isNegated_ok l s t xs : logic_wf l → lin l s t xs →
  isNegated_from (S t) l t = Ok (bool_decide (leading xs < 0)%Qc).
Proof.
  intros W [Hl Hp]. destruct Hl as [t x q Hf|t ts xs Ht Hn Hf Hs].
  - apply (isNegated_factor l s t x q); [done|done| |lia]. apply Hp. simpl. set_solver.
  - cbn [isNegated_from]. rewrite (at_pterms _ _ _ Ht). cbn [rbind nsym nargs].
    destruct Hf as [|a [x q] ts2 xs2 Ha Hf]; [simpl in Hn; lia|]. unfold at_. simpl.
    apply (isNegated_factor l s a x q); [done|done| |].
    + apply Hp. simpl. set_solver.
    + apply (lw_args l W t _ a Ht). simpl. set_solver.
Qed.

(** [isLinearTerm] accepts these terms. *)
Lemma isLinearFactor_ok l s t x q : nfactor l s t x q → isLinearFactor l t = Ok true.
Proof.
  intros [t' f args Ht Hv|t' x' k c f args Ht Hx Hv Hk H0 H1]; unfold isLinearFactor, a_isNumConst, isNumVarLike, a_isTimes;
    rewrite !(test_ok _ _ _ _ Ht); cbn [rbind nsym].
  - by destruct f.
  - rewrite (at_pterms _ _ _ Ht). cbn [rbind nargs is_const is_var is_ite is_like is_TIMES orb].
    unfold sorted_pair. destruct (x' <? k); rewrite !(test_ok _ _ _ _ Hx), !(test_ok _ _ _ _ Hk); cbn [rbind nsym is_const is_var is_ite is_like orb andb].
    + destruct f; done.
    + destruct f; done.
Qed.

Lemma isLinearTerm_ok l s t xs : linear l s t xs → isLinearTerm l t = Ok true.
Proof.
  intros [t' x q Hf|t' ts xs' Ht Hn Hf _]; unfold isLinearTerm.
  - by rewrite (isLinearFactor_ok _ _ _ _ _ Hf).
  - assert (isLinearFactor l t' = Ok false) as ->.
    { unfold isLinearFactor, a_isNumConst, isNumVarLike, a_isTimes. by rewrite !(test_ok _ _ _ _ Ht). }
    cbn [rbind]. unfold a_isPlus. rewrite (test_ok _ _ _ _ Ht), (at_pterms _ _ _ Ht). cbn [rbind nsym is_PLUS nargs].
    clear Ht Hn. induction Hf as [|a [x q] ts2 xs2 Ha _ IH]; [done|]. simpl. by rewrite (isLinearFactor_ok _ _ _ _ _ Ha).
Qed.

End terms.

(** * Terms and variables of the linear arithmetic solver

    The invariant of LAVarMapper.cc: a variable stands for a linear term with a
    positive first coefficient, and the term and its negation are both mapped
    to it.  [getLAVar_single] returns the variable of a term, making one when
    there is none. *)

Section mapper.
Context {N : Type} `{Number N}.
Implicit Types (l : ArithLogic N) (s : LASolver N) (t x : PTRef) (v u : LVRef) (xs : list (PTRef * Qc))
  (ps : list (option LVRef)) (vs : list (option PTRef)).

Definition mapped ps t v : Prop := ps !! t = Some (Some v).
Definition names vs v t : Prop := vs !! v = Some (Some t).

Record mapper_ok l ps vs : Prop := {
  mp_term v t : names vs v t → ∃ so xs t', lin l so t xs ∧ (0 < leading xs)%Qc ∧ mapped ps t v
    ∧ linear l so t' (negated xs) ∧ mapped ps t' v;
  mp_back t v : mapped ps t v → ∃ t0 so xs, names vs v t0 ∧ lin l so t0 xs ∧ (t = t0 ∨ linear l so t (negated xs));
}.

(** The terms and their signs, as the mapper normalises them. *)
Definition norm xs : list (PTRef * Qc) := if decide (leading xs < 0)%Qc then negated xs else xs.

Lemma norm_pos xs : (0 < leading xs)%Qc → norm xs = xs.
Proof. intros Hp. unfold norm. rewrite decide_False; [done|]. qc_lra. Qed.

Lemma norm_neg xs : (0 < leading xs)%Qc → norm (negated xs) = xs.
Proof. intros Hp. unfold norm. rewrite decide_True; [apply negated_negated|]. rewrite leading_negated. qc_lra. Qed.

Lemma mapper_mono l l' ps vs : logic_le l l' → mapper_ok l ps vs → mapper_ok l' ps vs.
Proof.
  intros Hle [M1 M2]. constructor.
  - intros v t Ht. destruct (M1 v t Ht) as (so & xs & t' & Hl & Hp & Hm & Hn & Hm').
    exists so, xs, t'. split; [by eapply lin_mono|]. split; [done|]. split; [done|]. split; [by eapply linear_mono|done].
  - intros t v Ht. destruct (M2 t v Ht) as (t0 & so & xs & Hn & Hl & Hc). exists t0, so, xs. split; [done|].
    split; [by eapply lin_mono|]. destruct Hc as [->|Hc]; [by left|right; by eapply linear_mono].
Qed.

Lemma hasVarId_iff t s : hasVarId t s = true ↔ ∃ v, mapped (ptermToLavar s) t v.
Proof.
  unfold hasVarId, mapped. destruct (ptermToLavar s !! t) as [[v|]|]; split; try done; eauto; by intros (u & Hu).
Qed.

Section facts.
Context l ps vs (W : logic_wf l) (M : mapper_ok l ps vs).

(** A mapped linear term stands for its variable, up to the sign. *)
Lemma mapped_norm t v so xs : mapped ps t v → linear l so t xs → ∃ t0, names vs v t0 ∧ lin l so t0 (norm xs).
Proof.
  intros Hm Hl. destruct (mp_back _ _ _ M t v Hm) as (t0 & so0 & xs0 & Hn & Hl0 & Hc). exists t0. split; [done|].
  destruct (mp_term _ _ _ M v t0 Hn) as (so1 & xs1 & _ & Hl1 & Hpos & _).
  destruct (linear_det _ _ _ _ _ _ (proj1 Hl0) (proj1 Hl1)) as [<- <-].
  destruct Hc as [->|Hc].
  - destruct (linear_det _ _ _ _ _ _ (proj1 Hl0) Hl) as [<- <-]. by rewrite norm_pos.
  - destruct (linear_det _ _ _ _ _ _ Hc Hl) as [<- <-]. by rewrite norm_neg.
Qed.

(** The term and its negation have the same variable. *)
Lemma mapped_norm_term t t' v so xs : linear l so t xs → linear l so t' (norm xs) → mapped ps t' v → mapped ps t v.
Proof.
  intros Hl Hl' Hm. destruct (mapped_norm t' v so _ Hm Hl') as (t0 & Hn & Hl0 & _).
  destruct (mp_term _ _ _ M v t0 Hn) as (so1 & xs1 & t1 & Hl1 & Hpos & Hm1 & Hn1 & Hm1').
  destruct (linear_det _ _ _ _ _ _ Hl0 (proj1 Hl1)) as [<- <-]. clear Hl1.
  assert (norm (norm xs) = xs ∨ negated (norm (norm xs)) = xs) as [E|E].
  { unfold norm. destruct (decide (leading xs < 0)%Qc) as [Hd|Hd]; [|rewrite decide_False by done; tauto].
    rewrite decide_False by (rewrite leading_negated; qc_lra). right. apply negated_negated. }
  - rewrite E in Hl0. by rewrite (linear_unique _ _ _ _ _ W Hl Hl0).
  - rewrite E in Hn1. by rewrite (linear_unique _ _ _ _ _ W Hl Hn1).
Qed.

Lemma mapped_fun t v v' : mapped ps t v → mapped ps t v' → v = v'.
Proof. unfold mapped. congruence. Qed.

(** Variables are mapped to variables. *)
Lemma mapped_var x v f so args : pterms l !! x = Some (MkNode f args) → varlike f so → mapped ps x v → names vs v x.
Proof.
  intros Hx Hv Hm. assert (linear l so x [(x, 1%Qc)]) as Hl by (constructor; by eapply nf_var).
  destruct (mapped_norm x v so _ Hm Hl) as (t0 & Hn & Hl0 & _). rewrite norm_pos in Hl0 by done.
  by rewrite <- (linear_unique _ _ _ _ _ W Hl0 Hl).
Qed.

End facts.

(** ** A new variable *)

Lemma registerNewMapping_wp E v t so xs s : logic_wf (logic s) → mapper_ok (logic s) (ptermToLavar s) (laVarToPTRef s) →
  lin (logic s) so t xs → (0 < leading xs)%Qc → (∀ u, ¬ mapped (ptermToLavar s) t u) →
  (∀ t', ¬ names (laVarToPTRef s) v t') →
  wp E (λ s', ∃ l' ps' vs', s' = with_mapper ps' vs' (with_logic l' s) ∧ logic_wf l' ∧ logic_le (logic s) l'
    ∧ mapper_ok l' ps' vs' ∧ mapped ps' t v ∧ names vs' v t
    ∧ (∀ t' u, mapped (ptermToLavar s) t' u → mapped ps' t' u) ∧ (∀ t' u, mapped ps' t' u → u = v ∨ mapped (ptermToLavar s) t' u)
    ∧ (∀ u t', names vs' u t' ↔ if decide (u = v) then t' = t else names (laVarToPTRef s) u t'))
    (registerNewMapping v t s).
Proof.
  intros W M Hl Hpos Hno Hv. unfold registerNewMapping, mapper_hasVar.
  assert (∃ n, pterms (logic s) !! t = Some n) as [n Hn].
  { destruct Hl as [[? ? ? Hf|? ? ? Ht _ _ _] _]; [by eapply nfactor_node|eauto]. }
  assert (hasVarId t s = false) as Eh.
  { apply not_true_iff_false. rewrite hasVarId_iff. intros [u Hu]. by apply (Hno u). }
  rewrite (at_pterms _ _ _ Hn). cbn [rbind]. rewrite Eh. cbn [negb check rbind].
  unfold isNegated. rewrite (isNegated_ok _ _ _ _ W Hl), bool_decide_false by qc_lra. cbn [negb check rbind].
  apply wp_bind, upd_wp; [rewrite grow_length; lia|].
  destruct (mkNeg_ok _ _ _ _ W (proj1 Hl)) as (t' & l' & -> & W' & Hle & Hneg). cbn [rbind fst snd].
  unfold hasVarId in *. cbn [with_logic ptermToLavar logic]. rewrite Eh. cbn [negb check rbind].
  pose proof (mapper_mono _ _ _ _ Hle M) as M'. pose proof (lin_mono _ _ _ _ _ Hle Hl) as Hl'.
  set (ps := ptermToLavar s) in *. set (vs := laVarToPTRef s) in *. set (g := grow ps (Nat.max t t') None).
  assert (∀ u, ¬ mapped ps t' u) as Hno'.
  { intros u Hu. apply (Hno u). destruct (mapped_norm _ _ _ M' t' u _ _ Hu Hneg) as (t0 & Hn0 & Hl0 & _).
    rewrite norm_neg in Hl0 by done. rewrite <- (linear_unique _ _ _ _ _ W' Hl0 (proj1 Hl')).
    by destruct (mp_term _ _ _ M' u t0 Hn0) as (_ & _ & _ & _ & _ & ? & _). }
  assert (∀ x, (x = t ∨ x = t') → g !! x = Some None) as Hg.
  { intros x Hx. unfold g. rewrite grow_lookup. destruct (ps !! x) as [[u|]|] eqn:Ex; [|done|rewrite decide_True; [done|lia]].
    destruct Hx as [-> | ->]; [by destruct (Hno u)|by destruct (Hno' u)]. }
  unfold at_. rewrite !Hg by tauto. cbn [rbind check bool_decide]. rewrite bool_decide_true by done. cbn [check rbind].
  assert (t < length g ∧ t' < length g) as [Lt Lt'] by (unfold g; rewrite grow_length; lia).
  apply wp_bind, upd_wp; [done|]. apply wp_bind, upd_wp; [by rewrite length_insert|]. cbn [wp].
  set (ps' := <[t':=Some v]> (<[t:=Some v]> g)). set (vs' := <[v:=Some t]> (grow vs v None)).
  assert (∀ x u, mapped ps' x u ↔ (x = t ∨ x = t') ∧ u = v ∨ mapped ps x u) as Hps.
  { intros x u. unfold mapped, ps'. destruct (decide (x = t')) as [->|Hx'].
    { rewrite list_lookup_insert_eq by (by rewrite length_insert). split; [intros [= <-]; tauto|].
      intros [[_ ->]|Hu]; [done|]. by destruct (Hno' u). }
    rewrite list_lookup_insert_ne by done. destruct (decide (x = t)) as [->|Hx].
    { rewrite list_lookup_insert_eq by done. split; [intros [= <-]; tauto|].
      intros [[_ ->]|Hu]; [done|]. by destruct (Hno u). }
    rewrite list_lookup_insert_ne by done. unfold g. rewrite grow_lookup.
    destruct (ps !! x) as [o|]; [tauto|]. destruct (decide _); naive_solver. }
  assert (∀ u x, names vs' u x ↔ if decide (u = v) then x = t else names vs u x) as Hvs.
  { intros u x. unfold names, vs'. destruct (decide (u = v)) as [->|Hu].
    - rewrite list_lookup_insert_eq by (rewrite grow_length; lia). split; [by intros [= ->]|by intros ->].
    - rewrite list_lookup_insert_ne by done. rewrite grow_lookup. destruct (vs !! u) as [o|]; [done|].
      by destruct (decide _). }
  exists l', ps', vs'. split; [done|]. split; [done|]. split; [done|]. split; [|split; [|split; [|split; [|split; [|exact Hvs]]]]].
  - constructor.
    + intros u x Hx. apply Hvs in Hx. destruct (decide (u = v)) as [->|Hu].
      * subst x. exists so, xs, t'. rewrite !Hps. tauto.
      * destruct (mp_term _ _ _ M' u x Hx) as (so0 & xs0 & x' & ?). exists so0, xs0, x'. rewrite !Hps. tauto.
    + intros x u [[Hx ->]|Hx]%Hps.
      * exists t, so, xs. rewrite Hvs, decide_True by done. split; [done|]. split; [done|]. destruct Hx as [-> | ->]; tauto.
      * destruct (mp_back _ _ _ M' x u Hx) as (t0 & so0 & xs0 & Hx0 & ?). exists t0, so0, xs0. rewrite Hvs.
        destruct (decide (u = v)) as [->|]; [by destruct (Hv t0)|]. done.
  - apply Hps. tauto.
  - apply Hvs. by rewrite decide_True.
  - intros x u Hx. apply Hps. by right.
  - intros x u [[_ ->]|Hx]%Hps; [by left|by right].
Qed.

(** ** [getLAVar_single] *)

Lemma lin_norm l so t xs : (0 < leading xs)%Qc ∨ (leading xs < 0)%Qc → logic_wf l → lin l so t xs →
  wp no_error (λ r, logic_wf r.2 ∧ logic_le l r.2 ∧ lin r.2 so r.1 (norm xs))
    (if bool_decide (leading xs < 0)%Qc then mkNeg t l else Ok (t, l)).
Proof.
  intros Hs W Hl. unfold norm. destruct (decide (leading xs < 0)%Qc) as [Hd|Hd].
  - rewrite bool_decide_true by done. destruct (mkNeg_ok l so t xs W (proj1 Hl)) as (t' & l' & -> & W' & Hle & Hn).
    cbn [wp fst snd]. split; [done|]. split; [done|]. split; [done|]. intros x Hx. unfold negated in Hx.
    rewrite <- list_fmap_compose in Hx. eapply plain_mono; [done|]. apply (proj2 Hl). exact Hx.
  - rewrite bool_decide_false by done. cbn [wp fst snd]. split; [done|]. split; [apply logic_le_refl|done].
Qed.

Lemma leading_sign l so t xs : linear l so t xs → (0 < leading xs)%Qc ∨ (leading xs < 0)%Qc.
Proof. intros Hl%leading_nonzero. destruct (Qc_trichotomy (leading xs) 0) as [|[|]]; tauto. Qed.

Lemma norm_positive l so t xs : linear l so t xs → (0 < leading (norm xs))%Qc.
Proof.
  intros Hl%leading_sign. unfold norm. destruct (decide _); [rewrite leading_negated|]; [qc_lra|]. tauto.
Qed.

Lemma getLAVar_single_wp t so xs s : logic_wf (logic s) → mapper_ok (logic s) (ptermToLavar s) (laVarToPTRef s) →
  lin (logic s) so t xs → (∀ t', ¬ names (laVarToPTRef s) (length (lvstore (boundStore_ s))) t') →
  wp no_error (λ r, r.2 = s ∧ mapped (ptermToLavar s) t r.1 ∨
      r.1 = length (lvstore (boundStore_ s)) ∧ ∃ l' ps' vs' t0,
        r.2 = with_mapper ps' vs' (with_logic l' (with_boundStore (new_var (boundStore_ s)) s))
        ∧ logic_wf l' ∧ logic_le (logic s) l' ∧ mapper_ok l' ps' vs' ∧ mapped ps' t r.1
        ∧ (∀ t' u, mapped (ptermToLavar s) t' u → mapped ps' t' u)
        ∧ (∀ u t', names vs' u t' ↔ if decide (u = r.1) then t' = t0 else names (laVarToPTRef s) u t'))
    (getLAVar_single t s).
Proof.
  intros W M Hl Hv. unfold getLAVar_single. rewrite (isLinearTerm_ok _ _ _ _ (proj1 Hl)). cbn [rbind check].
  destruct (hasVarId t s) eqn:Eh.
  - apply hasVarId_iff in Eh as [v Ev]. unfold getVarForTerm, getVarByPTId, at_. rewrite Ev. cbn [rbind wp]. by left.
  - unfold isNegated. rewrite (isNegated_ok _ _ _ _ W Hl). cbn [rbind]. apply wp_bind.
    eapply wp_mono; [apply (lin_norm _ so t xs (leading_sign _ _ _ _ (proj1 Hl)) W Hl)|]. intros [t0 l1] (W1 & Hle & Hl0).
    cbn [fst snd] in *. apply wp_bind. pose proof (lin_mono _ _ _ _ _ Hle Hl) as [Hl1 _].
    set (s1 := with_boundStore (new_var (boundStore_ s)) (with_logic l1 s)).
    eapply wp_mono; [apply (registerNewMapping_wp no_error _ t0 so (norm xs) s1 W1)|].
    + by eapply mapper_mono.
    + done.
    + exact (norm_positive _ _ _ _ Hl1).
    + intros u Hu. assert (hasVarId t s = true) as E; [|congruence]. apply hasVarId_iff. exists u.
      apply (mapped_norm_term _ _ _ W1 (mapper_mono _ _ _ _ Hle M) t t0 u so xs Hl1 (proj1 Hl0) Hu).
    + exact Hv.
    + intros s' (l' & ps' & vs' & -> & W' & Hle' & M' & Hm & Hn & Hm1 & _ & Hn1). cbn [wp fst snd]. right.
      split; [done|]. exists l', ps', vs', t0. split; [done|]. split; [done|]. split; [by eapply logic_le_trans|].
      split; [done|]. split; [|done].
      apply (mapped_norm_term _ _ _ W' M' t t0 _ so xs); [by eapply linear_mono|by eapply linear_mono; [|apply Hl0]|done].
Qed.

End mapper.
