(* ===== verification/LARegister.v ===== *)
(** * Registering terms: the rows of the tableau and the meaning of terms

    [registerArithmeticTerm] (LASolver.cc) declares the variables of a term and,
    for a sum, a row.  Afterwards the rational solutions of the rows are exactly
    the values the terms take when their variables are assigned rationals. *)
From stdpp Require Import sorting.
From S2P Require Import Prelude Gmp FastRationalInt Number Lex Delta NatSet Polynomial Tableau TableauFacts LABounds LABuild LRAModel Simplex.
From S2P Require Import SimplexFacts SimplexClient SimplexSession Terms TSolver ArithTerms LASolver LAMapper.
From Stdlib Require Import Lia.

#[local] Open Scope nat_scope.

Lemma is_int_0 : is_int 0.
Proof. exists 0%Z. by rewrite of_Z_0. Qed.
Lemma is_int_add x y : is_int x → is_int y → is_int (x + y)%Qc.
Proof. intros [a ->] [b ->]. exists (a + b)%Z. by rewrite of_Z_add. Qed.
Lemma is_int_mul x y : is_int x → is_int y → is_int (x * y)%Qc.
Proof. intros [a ->] [b ->]. exists (a * b)%Z. unfold of_Z. rewrite mkQ_mul by lia. apply mkQ_eq; lia. Qed.

Section register.
Context {N : Type} `{Number N}.
Implicit Types (l : ArithLogic N) (s : LASolver N) (t x : PTRef) (v u : LVRef) (xs : list (PTRef * Qc))
  (ps : list (option LVRef)) (vs : list (option PTRef)) (ρ : PTRef → Qc) (A : list event) (M : list nat).

(** The value of a variable is that of its term. *)
Definition term_value l vs ρ v : Qc := match vs !! v with Some (Some t) => term_val l ρ t | _ => 0%Qc end.
Definition tv s ρ : LVRef → Qc := term_value (logic s) (laVarToPTRef s) ρ.
Definition var_of ps x : LVRef := match ps !! x with Some (Some v) => v | _ => 0 end.

(** Integer variables have integer values. *)
Definition int_term l x : Prop := ∃ n, pterms l !! x = Some n ∧ is_var (nsym n) || is_ite (nsym n) = true
  ∧ sort_of (nsym n) = Some IntSort.
Definition integral l ρ : Prop := ∀ x, int_term l x → is_int (ρ x).

Lemma integral_mono l l' ρ : logic_le l l' → integral l' ρ → integral l ρ.
Proof. intros Hle Hi x (n & Hn & Hp & Hs). apply Hi. exists n. split; [by eapply logic_le_node|done]. Qed.

(** In the solutions of the rows the variable has the value of its term. *)
Definition defined_var l ps vs (tb : Tableau N) v : Prop :=
  ∃ so t xs, names vs v t ∧ lin l so t xs ∧ (∀ x, x ∈ xs.*1 → ∃ u, mapped ps x u)
    ∧ ∀ ρ', rat_solution tb ρ' → ρ' v = lval (λ x, ρ' (var_of ps x)) xs.

Record reg_inv ph A0 M A s : Prop := {
  ri_wf : logic_wf (logic s);
  ri_map : mapper_ok (logic s) (ptermToLavar s) (laVarToPTRef s);
  ri_session : session ph A0 M A (simplex s);
  ri_lv : lvstore (boundStore_ s) = seq 0 (length (lvstore (boundStore_ s)));
  ri_named v : v < length (lvstore (boundStore_ s)) ↔ ∃ t, names (laVarToPTRef s) v t;
  ri_type v : type_of (tableau (simplex s)) v ≠ NONE → v < length (lvstore (boundStore_ s));
  ri_sound ρ : rat_solution (tableau (simplex s)) (tv s ρ);
  ri_def v : type_of (tableau (simplex s)) v ≠ NONE →
    defined_var (logic s) (ptermToLavar s) (laVarToPTRef s) (tableau (simplex s)) v;
  ri_int v : v ∈ int_vars s → (∃ t, names (laVarToPTRef s) v t) ∧ ∀ ρ, integral (logic s) ρ → is_int (tv s ρ v);
}.

(** What registering leaves alone. *)
Definition rest s := (base s, decision_trace s, dec_limit s, int_decisions s,
  (explanation s, explanationCoefficients s, LABoundRefToLeqAsgn s, LeqToLABoundRefPair s, concrete_model s, status s)).

Record reg_le s s' : Prop := {
  rl_logic : logic_le (logic s) (logic s');
  rl_mapped t v : mapped (ptermToLavar s) t v → mapped (ptermToLavar s') t v;
  rl_names v t : names (laVarToPTRef s) v t → names (laVarToPTRef s') v t;
  rl_ba : ba (boundStore_ s') = ba (boundStore_ s);
  rl_in : in_bounds (boundStore_ s') = in_bounds (boundStore_ s);
  rl_known v br : known (boundStore_ s) v br → known (boundStore_ s') v br;
  rl_type v : type_of (tableau (simplex s)) v ≠ NONE → type_of (tableau (simplex s')) v ≠ NONE;
  rl_int v : v ∈ int_vars s → v ∈ int_vars s';
  rl_rest : rest s' = rest s;
}.

Lemma reg_le_refl s : reg_le s s.
Proof. constructor; try done. apply logic_le_refl. Qed.

Lemma reg_le_trans s1 s2 s3 : reg_le s1 s2 → reg_le s2 s3 → reg_le s1 s3.
Proof. intros [] []. constructor; try (by eauto); [by eapply logic_le_trans|congruence..]. Qed.

(** ** Values are stable *)

Lemma term_value_stable l l' ps vs vs' ρ v t : logic_wf l → logic_wf l' → logic_le l l' → mapper_ok l ps vs →
  names vs v t → names vs' v t → term_value l' vs' ρ v = term_value l vs ρ v.
Proof.
  intros W W' Hle M Hn Hn'. unfold term_value. rewrite Hn, Hn'.
  destruct (mp_term _ _ _ M v t Hn) as (so & xs & _ & [Hl _] & _).
  rewrite (linear_value _ so t xs ρ W Hl), (linear_value _ so t xs ρ W'); [done|]. by eapply linear_mono.
Qed.

Lemma tv_stable ph A0 M A s s' ρ v : reg_inv ph A0 M A s → logic_wf (logic s') → reg_le s s' →
  v < length (lvstore (boundStore_ s)) → tv s' ρ v = tv s ρ v.
Proof.
  intros I W' L [t Ht]%(ri_named _ _ _ _ _ I). unfold tv.
  eapply term_value_stable; [apply I|done|apply L|apply I|exact Ht|by apply L].
Qed.

Lemma tv_lval ph A0 M A s ρ v so t xs : reg_inv ph A0 M A s → names (laVarToPTRef s) v t → linear (logic s) so t xs →
  tv s ρ v = lval ρ xs.
Proof. intros I Hn Hl. unfold tv, term_value. rewrite Hn. apply (linear_value _ so); [apply I|done]. Qed.

Lemma session_tab ph A0 M A (x : Simplex N) : session ph A0 M A x → tab_inv (tableau x).
Proof.
  intros Hs. pose proof (session_holds _ _ _ _ _ Hs) as [_ _ Hph].
  assert (sx_inv M A x) as [] by (destruct ph; simpl in Hph; apply Hph). done.
Qed.

Lemma qeval_ext (ρ1 ρ2 : LVRef → Qc) (p : poly_t N) : (∀ v, v ∈ keys p → ρ1 v = ρ2 v) → qeval ρ1 p = qeval ρ2 p.
Proof.
  induction p as [|term p IH]; intros Hv; [done|]. simpl. rewrite IH, (Hv (var term)); [done|set_solver|].
  intros u Hu. apply Hv. by right.
Qed.

Lemma rat_solution_ext (tb : Tableau N) (ρ1 ρ2 : LVRef → Qc) : tab_inv tb → (∀ v, type_of tb v ≠ NONE → ρ1 v = ρ2 v) →
  rat_solution tb ρ1 → rat_solution tb ρ2.
Proof.
  intros [_ O _] He Hs v p Hp. assert (type_of tb v ≠ NONE) as HT.
  { destruct (proj1 (ok_row _ _ _ O v)) as [E|E]; [by eexists|congruence..]. }
  rewrite <- He by done. rewrite (Hs v p Hp). apply qeval_ext. intros u Hu. apply He. by eapply (ok_vars _ _ _ O).
Qed.

Lemma rat_solution_iff (tb tb' : Tableau N) ρ' : (∀ σ, solution tb' σ ↔ solution tb σ) →
  rat_solution tb' ρ' ↔ rat_solution tb ρ'.
Proof. intros Hs. rewrite !rat_solution_embed. apply Hs. Qed.

Lemma lval_ext ρ1 ρ2 xs : (∀ x, x ∈ xs.*1 → ρ1 x = ρ2 x) → lval ρ1 xs = lval ρ2 xs.
Proof.
  induction xs as [|[x q] xs IH]; intros Hx; [done|]. simpl. rewrite IH, (Hx x); [done|simpl; set_solver|].
  intros y Hy. apply Hx. simpl. by right.
Qed.

Lemma var_of_mapped ps x v : mapped ps x v → var_of ps x = v.
Proof. unfold mapped, var_of. by intros ->. Qed.

Lemma defined_mono l l' ps ps' vs vs' (tb tb' : Tableau N) v : logic_le l l' →
  (∀ t u, mapped ps t u → mapped ps' t u) → (∀ u t, names vs u t → names vs' u t) →
  (∀ ρ', rat_solution tb' ρ' → rat_solution tb ρ') → defined_var l ps vs tb v → defined_var l' ps' vs' tb' v.
Proof.
  intros Hle Hm Hn Hs (so & t & xs & Ht & Hl & Hx & He). exists so, t, xs. split; [by apply Hn|].
  split; [by eapply lin_mono|]. split; [intros x Hin; destruct (Hx x Hin) as [u Hu]; eauto|].
  intros ρ' Hρ. rewrite (He ρ') by by apply Hs. apply lval_ext. intros x Hin. destruct (Hx x Hin) as [u Hu].
  by rewrite (var_of_mapped _ _ _ Hu), (var_of_mapped _ _ _ (Hm _ _ Hu)).
Qed.

(** ** A variable of the mapper *)

Lemma getLAVar_reg A0 M A s t so xs : reg_inv Ready A0 M A s → lin (logic s) so t xs →
  wp no_error (λ r, reg_inv Ready A0 M A r.2 ∧ reg_le s r.2 ∧ mapped (ptermToLavar r.2) t r.1
    ∧ tableau (simplex r.2) = tableau (simplex s)
    ∧ (mapped (ptermToLavar s) t r.1 ∨ type_of (tableau (simplex s)) r.1 = NONE)
    ∧ ∀ v t', names (laVarToPTRef r.2) v t' → v = r.1 ∨ names (laVarToPTRef s) v t') (getLAVar_single t s).
Proof.
  intros I Hl. pose proof I as [I1 I2 I3 I4 I5 I6 I7 I8 I9]. eapply wp_mono; [apply (getLAVar_single_wp t so xs s I1 I2 Hl)|].
  { intros t' Ht. assert (length (lvstore (boundStore_ s)) < length (lvstore (boundStore_ s))); [|lia]. apply I5. eauto. }
  intros [v s'] [[E Hm]|(Ev & l' & ps' & vs' & t0 & E & W' & Hle & M' & Hm & Hmm & Hn)]; cbn [fst snd] in *; subst s'.
  { split; [done|]. split; [apply reg_le_refl|]. split; [done|]. split; [done|]. split; [by left|]. intros v' t' Ht'. by right. }
  set (s' := with_mapper _ _ _).
  assert (lvstore (boundStore_ s') = lvstore (boundStore_ s) ++ [v]) as Elv by (rewrite Ev; done).
  assert (∀ u t', names (laVarToPTRef s) u t' → names vs' u t') as Hnn.
  { intros u t' Hu. apply Hn. rewrite decide_False; [done|]. intros ->. assert (v < v); [|lia]. rewrite Ev at 2. apply I5. eauto. }
  assert (reg_le s s') as L.
  { constructor; try done. }
  assert (∀ ρ u, u < v → tv s' ρ u = tv s ρ u) as Etv.
  { intros ρ u Hu. apply (tv_stable Ready A0 M A); [done|exact W'|exact L|]. by rewrite <- Ev. }
  assert (type_of (tableau (simplex s)) v = NONE) as HN.
  { destruct (decide (type_of (tableau (simplex s)) v = NONE)) as [|HT%I6]; [done|]. rewrite Ev in HT. lia. }
  assert (∀ v' t', names vs' v' t' → v' = v ∨ names (laVarToPTRef s) v' t') as Hnew.
  { intros v' t' Ht'. apply Hn in Ht'. destruct (decide (v' = v)) as [->|]; [by left|by right]. }
  split; [|split; [done|split; [done|split; [done|split; [by right|exact Hnew]]]]]. constructor; try done.
  - apply ses_getNewVar. exact I3.
  - rewrite Elv, length_app, Nat.add_1_r, seq_S, <- Ev. by rewrite I4, <- Ev.
  - intros u. rewrite Elv, length_app, <- Ev. simpl. split.
    + intros Hu. destruct (decide (u = v)) as [->|Hne]; [exists t0; apply Hn; by rewrite decide_True|].
      destruct (proj1 (I5 u)) as [t' Ht']; [rewrite <- Ev; lia|]. exists t'. by apply Hnn.
    + intros [t' Ht']. apply Hn in Ht'. destruct (decide (u = v)) as [->|Hne]; [lia|].
      assert (u < v); [rewrite Ev; apply I5; eauto|lia].
  - intros u Hu. rewrite Elv, length_app. simpl. apply I6 in Hu. lia.
  - intros ρ. eapply (rat_solution_ext _ (tv s ρ)); [exact (session_tab _ _ _ _ _ I3)| |apply I7].
    intros u Hu. symmetry. apply Etv. rewrite Ev. by apply I6.
  - intros u Hu. eapply defined_mono; [exact Hle|exact Hmm|exact Hnn| |by apply I8]. done.
  - intros u Hu. destruct (I9 u Hu) as [[t' Ht'] Hi]. split; [exists t'; by apply Hnn|].
    intros ρ Hρ. rewrite Etv; [|rewrite Ev; apply I5; eauto]. apply Hi. by eapply integral_mono.
Qed.

(** ** Variables of sort integer *)

Lemma plain_linear l t : plain l t → ∃ so f args, pterms l !! t = Some (MkNode f args) ∧ varlike f so
  ∧ lin l so t [(t, 1%Qc)] ∧ sort_of f = Some so.
Proof.
  intros (n & Hn & Hp). destruct n as [f args]. simpl in *. assert (∃ so, varlike f so ∧ sort_of f = Some so) as (so & Hv & Hs).
  { destruct f; try done; simpl; eauto. }
  exists so, f, args. split; [done|]. split; [done|]. split; [|done]. split; [constructor; by eapply nf_var|].
  simpl. intros x ->%list_elem_of_singleton. by exists (MkNode f args).
Qed.

Lemma tv_plain ph A0 M A s ρ v t : reg_inv ph A0 M A s → names (laVarToPTRef s) v t → plain (logic s) t → tv s ρ v = ρ t.
Proof.
  intros I Hn (so & _ & _ & _ & _ & [Hl _] & _)%plain_linear. rewrite (tv_lval _ _ _ _ _ ρ v so t _ I Hn Hl).
  simpl. ring.
Qed.

Lemma mark_reg A0 M A s v t : reg_inv Ready A0 M A s → names (laVarToPTRef s) v t →
  (∀ ρ, integral (logic s) ρ → is_int (tv s ρ v)) → reg_inv Ready A0 M A (markVarAsInt v s) ∧ reg_le s (markVarAsInt v s)
  ∧ simplex (markVarAsInt v s) = simplex s ∧ ptermToLavar (markVarAsInt v s) = ptermToLavar s
  ∧ laVarToPTRef (markVarAsInt v s) = laVarToPTRef s ∧ logic (markVarAsInt v s) = logic s.
Proof.
  intros I Hn Hi. unfold markVarAsInt. destruct (isIntVar v s); [split; [done|]; split; [apply reg_le_refl|done]|].
  pose proof I as [I1 I2 I3 I4 I5 I6 I7 I8 I9]. split; [|split; [|done]].
  - constructor; try done. intros u [Hu| ->%list_elem_of_singleton]%elem_of_app; [by apply I9|]. split; [by exists t|done].
  - constructor; try done; [apply logic_le_refl|]. intros u Hu. apply elem_of_app. by left.
Qed.

Lemma notifyVar_reg A0 M A s v t : reg_inv Ready A0 M A s → names (laVarToPTRef s) v t → plain (logic s) t →
  wp no_error (λ s', reg_inv Ready A0 M A s' ∧ reg_le s s' ∧ simplex s' = simplex s ∧ ptermToLavar s' = ptermToLavar s
    ∧ laVarToPTRef s' = laVarToPTRef s ∧ logic s' = logic s) (notifyVar v s).
Proof.
  intros I Hn Hp. unfold notifyVar, getVarPTRef, at_. rewrite Hn. cbn [rbind].
  pose proof Hp as (n & Hn' & Hp'). unfold isNumVarOrIte, yieldsSortInt. rewrite !(test_ok _ _ _ _ Hn'). cbn [rbind].
  rewrite Hp'. cbn [check rbind wp]. case_bool_decide as Hs.
  - apply (mark_reg A0 M A s v t I Hn). intros ρ Hρ. rewrite (tv_plain Ready A0 M A s ρ v t I Hn Hp). apply Hρ. by exists n.
  - split; [done|]. split; [apply reg_le_refl|done].
Qed.

(** ** Declaring a variable to the tableau *)

Lemma reg_le_simplex s (y : Simplex N) : ba (boundStore y) = ba (boundStore_ s) → in_bounds (boundStore y) = in_bounds (boundStore_ s) →
  (∀ v br, known (boundStore_ s) v br → known (boundStore y) v br) →
  (∀ v, type_of (tableau (simplex s)) v ≠ NONE → type_of (tableau y) v ≠ NONE) → reg_le s (with_simplex y s).
Proof. intros. constructor; try done. apply logic_le_refl. Qed.

Lemma nonbasicVar_reg A0 M A s v t : reg_inv Ready A0 M A s → names (laVarToPTRef s) v t → plain (logic s) t →
  wp no_error (λ y, reg_inv Ready A0 M A (with_simplex y s) ∧ reg_le s (with_simplex y s)
    ∧ (∀ u, type_of (tableau y) u ≠ NONE ↔ u = v ∨ type_of (tableau (simplex s)) u ≠ NONE))
    (Simplex_nonbasicVar v (simplex s)).
Proof.
  intros I Hn Hp. pose proof I as [I1 I2 I3 I4 I5 I6 I7 I8 I9].
  pose proof (ss_state _ _ _ _ _ (session_holds _ _ _ _ _ I3)) as Id. simpl in Id.
  pose proof (Simplex_nonbasicVar_wp no_error A0 M A (simplex s) v Id) as Hw.
  apply wp_total in Hw as (x & E & Id' & Hv & HT & Hs & Est). rewrite E. cbn [wp].
  assert (∀ u, type_of (tableau x) u ≠ NONE ↔ u = v ∨ type_of (tableau (simplex s)) u ≠ NONE) as HTv.
  { intros u. destruct (decide (u = v)) as [->|Hne]; [tauto|]. rewrite HT by tauto. tauto. }
  set (s' := with_simplex x s).
  assert (lvstore (boundStore_ s') = lvstore (boundStore_ s)) as Elv by (unfold s', boundStore_; simpl; by rewrite Est).
  split; [|split; [|done]].
  - constructor; try done; rewrite ?Elv; try done.
    + by eapply ses_nonbasicVar.
    + intros u [->|Hu]%HTv; [|by apply I6]. apply I5. by exists t.
    + intros ρ. apply (rat_solution_iff (tableau (simplex s))); [done|]. apply I7.
    + intros u Hu. destruct (decide (type_of (tableau (simplex s)) u = NONE)) as [HN|HN].
      * apply HTv in Hu as [->|?]; [|done]. destruct (plain_linear _ _ Hp) as (so & f & args & Hf & Hv' & Hl & _).
        exists so, t, [(t, 1%Qc)]. split; [done|]. split; [done|].
        assert (mapped (ptermToLavar s') t v) as Hm by (destruct (mp_term _ _ _ I2 v t Hn) as (? & ? & ? & ? & ? & ? & _); done).
        split; [simpl; intros y ->%list_elem_of_singleton; by exists v|].
        intros ρ' _. assert (var_of (ptermToLavar s) t = v) as Ev by exact (var_of_mapped _ _ _ Hm).
        simpl. rewrite Ev. ring.
      * eapply defined_mono; [apply logic_le_refl| | | |by apply I8]; [done|done|].
        intros ρ'. by apply (rat_solution_iff (tableau (simplex s))).
  - apply reg_le_simplex; rewrite ?Est; try done.
    + intros u br. apply known_grow.
    + intros u Hu. apply HTv. by right.
Qed.

Lemma newNonbasicVar_alt v (x : Simplex N) : type_of (tableau x) v = NONE → Simplex_newNonbasicVar v x = Simplex_nonbasicVar v x.
Proof.
  intros HT. unfold Simplex_newNonbasicVar, Simplex_nonbasicVar, nonbasicVar. cbn [newVar with_store with_model with_activated tableau].
  assert (isProcessed (tableau x) v = false) as ->; [|done]. apply not_true_iff_false. rewrite isProcessed_iff. tauto.
Qed.

(** ** The polynomial of a sum *)

(** [p] is the polynomial of the variables of [xs]. *)
Record poly_is ps (p : poly_t N) xs : Prop := {
  pi_wf : poly_wf p;
  pi_keys u : u ∈ keys p ↔ ∃ x, x ∈ xs.*1 ∧ mapped ps x u;
  pi_mapped x : x ∈ xs.*1 → ∃ u, mapped ps x u;
  pi_value ρ' : qeval ρ' p = lval (λ x, ρ' (var_of ps x)) xs;
}.

Lemma poly_is_mono ps ps' p xs : (∀ t u, mapped ps t u → mapped ps' t u) → poly_is ps p xs → poly_is ps' p xs.
Proof.
  intros Hm [P1 P2 P3 P4]. constructor; [done| | |].
  - intros u. rewrite P2. split; intros (x & Hx & Hu); exists x; (split; [done|]); [by apply Hm|].
    destruct (P3 x Hx) as [u' Hu']. pose proof (Hm _ _ Hu') as E. unfold mapped in *. congruence.
  - intros x Hx. destruct (P3 x Hx) as [u Hu]. eauto.
  - intros ρ'. rewrite P4. apply lval_ext. intros x Hx. destruct (P3 x Hx) as [u Hu].
    by rewrite (var_of_mapped _ _ _ Hu), (var_of_mapped _ _ _ (Hm _ _ Hu)).
Qed.

Definition signed (neg : bool) xs : list (PTRef * Qc) := if neg then negated xs else xs.

Lemma signed_vars neg xs : (signed neg xs).*1 = xs.*1.
Proof. unfold signed. destruct neg; [apply negated_vars|done]. Qed.

Lemma signed_app neg xs ys : signed neg (xs ++ ys) = signed neg xs ++ signed neg ys.
Proof. unfold signed, negated. destruct neg; [apply fmap_app|done]. Qed.

Lemma lval_app ρ xs ys : lval ρ (xs ++ ys) = (lval ρ xs + lval ρ ys)%Qc.
Proof. induction xs as [|x xs IH]; simpl; [ring|]. rewrite IH. ring. Qed.

Lemma addTerm_is ps p xs x u c : poly_is ps p xs → mapped ps x u → u ∉ keys p → nval c ≠ 0%Qc →
  ∃ p', addTerm p u c = Ok p' ∧ poly_is ps p' (xs ++ [(x, nval c)]).
Proof.
  intros [P1 P2 P3 P4] Hu Hk Hc. destruct (addTerm_ok p u c P1 Hk Hc) as (p' & -> & Hw & He & Hin). exists p'. split; [done|].
  assert (∀ v, v ∈ keys p' ↔ v = u ∨ v ∈ keys p) as Hkeys.
  { intros v. rewrite !elem_of_keys. setoid_rewrite Hin. naive_solver. }
  constructor; [done| | |].
  - intros v. rewrite Hkeys, P2, fmap_app. setoid_rewrite elem_of_app. simpl. setoid_rewrite list_elem_of_singleton.
    unfold mapped in *. naive_solver.
  - intros y. rewrite fmap_app, elem_of_app. simpl. rewrite list_elem_of_singleton. intros [Hy| ->]; eauto.
  - intros ρ'. specialize (He (embed ρ')). rewrite !peval_embed in He. injection He as He. rewrite He, P4, lval_app.
    simpl. rewrite (var_of_mapped _ _ _ Hu). ring.
Qed.

Lemma add_argument_wp A0 M A neg s p xs0 so a x q : reg_inv Ready A0 M A s → nfactor (logic s) so a x q → plain (logic s) x →
  poly_is (ptermToLavar s) p (signed neg xs0) → (∀ y, y ∈ xs0.*1 → plain (logic s) y) → x ∉ xs0.*1 →
  wp no_error (λ r, reg_inv Ready A0 M A r.2 ∧ reg_le s r.2 ∧ tableau (simplex r.2) = tableau (simplex s)
    ∧ poly_is (ptermToLavar r.2) r.1 (signed neg (xs0 ++ [(x, q)]))
    ∧ (∀ v t, names (laVarToPTRef r.2) v t → v ∈ keys r.1 ∨ names (laVarToPTRef s) v t)) (add_argument neg (p, s) a).
Proof.
  intros I Hf Hp P Hxs Hx. unfold add_argument.
  destruct (split_factor _ _ _ _ _ (ri_wf _ _ _ _ _ I) Hf) as (k & c & -> & Hk & Hq). cbn [rbind fst snd].
  destruct (plain_linear _ _ Hp) as (so' & f & args & Hn & Hv & Hl & _).
  apply wp_bind. eapply wp_mono; [exact (getLAVar_reg A0 M A s x so' _ I Hl)|].
  intros [u s'] (I' & L & Hu & Et & _ & Hnew). cbn [fst snd] in *. pose proof (ri_map _ _ _ _ _ I') as M'. pose proof (ri_wf _ _ _ _ _ I') as W'.
  unfold a_getNumConst, symOf. rewrite (at_pterms _ _ _ (logic_le_node _ _ _ _ (rl_logic _ _ L) Hk)). cbn [rbind nsym].
  pose proof (poly_is_mono _ _ _ _ (rl_mapped _ _ L) P) as Pm.
  destruct (addTerm_is (ptermToLavar s') p (signed neg xs0) x u (if neg then n_neg c else c)) as (p' & -> & P').
  - done.
  - done.
  - intros (y & Hy & Hyu)%(pi_keys _ _ _ Pm). rewrite signed_vars in Hy.
    destruct (plain_mono _ _ _ (rl_logic _ _ L) (Hxs y Hy)) as (ny & Hny & Hpy).
    destruct (plain_linear _ _ (ex_intro _ ny (conj Hny Hpy))) as (so2 & f2 & args2 & Hn2 & Hv2 & _).
    pose proof (mapped_var _ _ _ W' M' y u _ _ _ Hn2 Hv2 Hyu) as E1.
    pose proof (mapped_var _ _ _ W' M' x u _ _ _ (logic_le_node _ _ _ _ (rl_logic _ _ L) Hn) Hv Hu) as E2.
    unfold names in *. rewrite E1 in E2. injection E2 as ->. done.
  - pose proof (nfactor_nonzero _ _ _ _ _ Hf) as Hq0. destruct neg; rewrite ?n_neg_val, Hq; [|done].
    intros E. apply Hq0. qc_lra.
  - cbn [rbind wp fst snd]. split; [done|]. split; [done|]. split; [done|].
    rewrite signed_app. assert (signed neg [(x, q)] = [(x, nval (if neg then n_neg c else c))]) as ->.
    { destruct neg; simpl; [by rewrite n_neg_val, Hq|by rewrite Hq]. }
    split; [done|]. intros v t [->|Hvt]%Hnew; [left|by right]. apply (pi_keys _ _ _ P'). exists x.
    rewrite fmap_app, elem_of_app. split; [right; simpl; set_solver|done].
Qed.

Lemma add_arguments_wp A0 M A neg so ts xs : ∀ s p xs0, reg_inv Ready A0 M A s →
  Forall2 (λ t xq, nfactor (logic s) so t xq.1 xq.2) ts xs → (∀ x, x ∈ (xs0 ++ xs).*1 → plain (logic s) x) →
  poly_is (ptermToLavar s) p (signed neg xs0) → NoDup (xs0 ++ xs).*1 →
  wp no_error (λ r, reg_inv Ready A0 M A r.2 ∧ reg_le s r.2 ∧ tableau (simplex r.2) = tableau (simplex s)
    ∧ poly_is (ptermToLavar r.2) r.1 (signed neg (xs0 ++ xs))
    ∧ (∀ v t, names (laVarToPTRef r.2) v t → v ∈ keys r.1 ∨ names (laVarToPTRef s) v t)) (foldM (add_argument neg) (p, s) ts).
Proof.
  revert xs. induction ts as [|a ts IH]; intros xs s p xs0 I Hf Hp P Hnd; inversion Hf as [|? [x q] ? xs' Hxq Hf']; subst.
  - cbn [foldM wp fst snd]. rewrite app_nil_r. split; [done|]. split; [apply reg_le_refl|]. split; [done|]. split; [done|]. by right.
  - cbn [foldM]. simpl in Hxq. apply wp_bind. eapply wp_mono; [apply (add_argument_wp A0 M A neg s p xs0 so a x q)|]; try done.
    + apply Hp. rewrite fmap_app, elem_of_app. simpl. set_solver.
    + intros y Hy. apply Hp. rewrite fmap_app, elem_of_app. by left.
    + rewrite fmap_app in Hnd. apply NoDup_app in Hnd as (_ & Hnd & _). intros Hx. apply (Hnd x Hx). simpl. set_solver.
    + intros [p' s'] (I' & L & Et & P' & Hnew). cbn [fst snd] in *.
      replace (xs0 ++ (x, q) :: xs') with ((xs0 ++ [(x, q)]) ++ xs') in * by by rewrite <- app_assoc.
      eapply wp_mono; [apply (IH xs' s' p' (xs0 ++ [(x, q)]) I')|].
      * eapply Forall2_impl; [done|]. intros b y. apply nfactor_mono, L.
      * intros y Hy. eapply plain_mono; [apply L|by apply Hp].
      * done.
      * done.
      * intros [p2 s2] (I2 & L2 & Et2 & P2 & Hnew2). cbn [fst snd] in *. split; [done|]. split; [by eapply reg_le_trans|].
        split; [congruence|]. split; [done|]. intros v t [Hv|[Hv|Hv]%Hnew]%Hnew2; [by left| |by right]. left.
        apply (pi_keys _ _ _ P') in Hv as (y & Hy & Hyv). apply (pi_keys _ _ _ P2). exists y.
        split; [|by apply L2]. rewrite signed_vars in *. rewrite fmap_app, elem_of_app. by left.
Qed.

(** ** The loop over the variables of the polynomial *)

Definition named_plain s v : Prop := ∃ t, names (laVarToPTRef s) v t ∧ plain (logic s) t.

(** [isInt] only holds when the polynomial is one over the integers. *)
Definition int_poly s (p : poly_t N) : Prop := ∀ term, term ∈ p → var term ∈ int_vars s ∧ is_int (nval (coeff term)).

Lemma isIntVar_iff s v : isIntVar v s = true ↔ v ∈ int_vars s.
Proof. apply bool_decide_eq_true. Qed.

Record declared s (pre : list LVRef) s' : Prop := {
  dc_le : reg_le s s';
  dc_types v : type_of (tableau (simplex s')) v ≠ NONE ↔ v ∈ pre ∨ type_of (tableau (simplex s)) v ≠ NONE;
  dc_mapper : ptermToLavar s' = ptermToLavar s;
  dc_names : laVarToPTRef s' = laVarToPTRef s;
  dc_logic : logic s' = logic s;
}.

Lemma declare_variable_wp A0 M A s b term : reg_inv Ready A0 M A s → named_plain s (var term) →
  wp no_error (λ r, reg_inv Ready A0 M A r.1 ∧ declared s [var term] r.1
    ∧ (r.2 = true → b = true ∧ var term ∈ int_vars r.1 ∧ is_int (nval (coeff term)))) (declare_variable (s, b) term).
Proof.
  intros I (t & Hn & Hp). unfold declare_variable. apply wp_bind.
  eapply wp_mono; [by apply (notifyVar_reg A0 M A s (var term) t)|].
  intros s1 (I1 & L1 & Ex & Ep & Ev & El). apply wp_bind.
  eapply wp_mono; [apply (nonbasicVar_reg A0 M A s1 (var term) t I1)|]; [by rewrite Ev|by rewrite El|].
  intros y (I2 & L2 & HT). cbn [wp fst snd]. split; [done|]. split.
  - constructor; try done; [by eapply reg_le_trans|]. intros v. simpl. rewrite HT, Ex. by rewrite list_elem_of_singleton.
  - intros [[Hb Hi]%andb_prop Hc]%andb_prop. split; [done|]. split; [by apply isIntVar_iff|by apply n_isInteger_val].
Qed.

Lemma declare_variables_wp A0 M A p : ∀ s b, reg_inv Ready A0 M A s → (∀ v, v ∈ keys p → named_plain s v) →
  wp no_error (λ r, reg_inv Ready A0 M A r.1 ∧ declared s (keys p) r.1 ∧ (r.2 = true → b = true ∧ int_poly r.1 p))
    (foldM declare_variable (s, b) p).
Proof.
  induction p as [|term p IH]; intros s b I Hk.
  - cbn [foldM wp fst snd]. split; [done|]. split; [constructor; try done; [apply reg_le_refl|]|].
    + intros v. simpl. pose proof (not_elem_of_nil v). tauto.
    + intros ->. split; [done|]. by intros ? ?%not_elem_of_nil.
  - cbn [foldM]. apply wp_bind. eapply wp_mono; [apply (declare_variable_wp A0 M A s b term I)|].
    { apply Hk. by left. }
    intros [s1 b1] (I1 & [L1 T1 P1 N1 O1] & Hb1). cbn [fst snd] in *.
    eapply wp_mono; [apply (IH s1 b1 I1)|].
    { intros v Hv. destruct (Hk v) as (t & Ht & Hp); [by right|]. exists t. by rewrite N1, O1. }
    intros [s2 b2] (I2 & [L2 T2 P2 N2 O2] & Hb2). cbn [fst snd] in *. split; [done|]. split; [constructor; try congruence|].
    + by eapply reg_le_trans.
    + intros v. rewrite T2, T1, keys_cons, list_elem_of_singleton, elem_of_cons. tauto.
    + intros E. destruct (Hb2 E) as [E1 Hi]. destruct (Hb1 E1) as (E0 & Hv & Hc). split; [done|].
      intros w [->|Hw]%elem_of_cons; [|by apply Hi]. split; [by apply (rl_int _ _ L2)|done].
Qed.

(** ** Registering a term *)

(** Every variable of the mapper is declared to the tableau. *)
Definition complete s : Prop := ∀ v t, names (laVarToPTRef s) v t → type_of (tableau (simplex s)) v ≠ NONE.

(** The terms of inequalities: sums, variables and negated variables. *)
Definition reg_term l so t xs : Prop := lin l so t xs ∧ ∀ x q, xs = [(x, q)] → q = 1%Qc ∨ q = (-(1))%Qc.

Lemma qeval_int s p ρ : int_poly s p → (∀ v, v ∈ int_vars s → is_int (tv s ρ v)) → is_int (qeval (tv s ρ) p).
Proof.
  intros Hp Hi. induction p as [|term p IH]; simpl; [apply is_int_0|]. destruct (Hp term) as [Hv Hc]; [by left|].
  apply is_int_add; [apply is_int_mul; [done|by apply Hi]|]. apply IH. intros w Hw. apply Hp. by right.
Qed.

Lemma poly_value ph A0 M A s p xs ρ : reg_inv ph A0 M A s → poly_is (ptermToLavar s) p xs →
  (∀ x, x ∈ xs.*1 → plain (logic s) x) → qeval (tv s ρ) p = lval ρ xs.
Proof.
  intros I P Hp. rewrite (pi_value _ _ _ P). apply lval_ext. intros x Hx.
  destruct (pi_mapped _ _ _ P x Hx) as [u Hu]. rewrite (var_of_mapped _ _ _ Hu).
  destruct (plain_linear _ _ (Hp x Hx)) as (so & f & args & Hf & Hv & _).
  apply (tv_plain ph A0 M A); [done| |by apply Hp].
  eapply mapped_var; [apply I|apply I|exact Hf|exact Hv|exact Hu].
Qed.

(** The row of a sum. *)
Lemma newRow_reg A0 M A s v t so xs p : reg_inv Ready A0 M A s → names (laVarToPTRef s) v t → lin (logic s) so t xs →
  type_of (tableau (simplex s)) v = NONE → poly_is (ptermToLavar s) p xs →
  (∀ u, u ∈ keys p → type_of (tableau (simplex s)) u ≠ NONE) →
  wp no_error (λ y, reg_inv Ready A0 M A (with_simplex y s) ∧ reg_le s (with_simplex y s)
    ∧ (∀ u, type_of (tableau y) u ≠ NONE ↔ u = v ∨ type_of (tableau (simplex s)) u ≠ NONE))
    (Simplex_newRow v p (simplex s)).
Proof.
  intros I Hn Hl HT P Hk. pose proof I as [I1 I2 I3 I4 I5 I6 I7 I8 I9].
  pose proof (ss_state _ _ _ _ _ (session_holds _ _ _ _ _ I3)) as Id. simpl in Id.
  pose proof (Simplex_newRow_wp no_error A0 M A (simplex s) v p Id HT (pi_wf _ _ _ P) Hk) as Hw.
  apply wp_total in Hw as (y & E & Id' & HTy & Hs & Est). rewrite E. cbn [wp].
  assert (∀ u, type_of (tableau y) u ≠ NONE ↔ u = v ∨ type_of (tableau (simplex s)) u ≠ NONE) as HTv.
  { intros u. rewrite HTy. destruct (decide (u = v)) as [->|Hne]; [split; [tauto|done]|tauto]. }
  assert (∀ ρ', rat_solution (tableau y) ρ' ↔ rat_solution (tableau (simplex s)) ρ' ∧ ρ' v = qeval ρ' p) as Hr.
  { intros ρ'. rewrite !rat_solution_embed, Hs, peval_embed. unfold embed. split; intros [? Hv]; (split; [done|]).
    - by injection Hv.
    - by rewrite Hv. }
  set (s' := with_simplex y s).
  assert (lvstore (boundStore_ s') = lvstore (boundStore_ s)) as Elv by (unfold s', boundStore_; simpl; by rewrite Est).
  split; [|split; [|done]].
  - constructor; try done; rewrite ?Elv; try done.
    + exact (ses_newRow A0 M A (simplex s) v p y I3 HT (pi_wf _ _ _ P) Hk E).
    + intros u [->|Hu]%HTv; [|by apply I6]. apply I5. by exists t.
    + intros ρ. apply Hr. split; [apply I7|]. change (tv s ρ v = qeval (tv s ρ) p).
      rewrite (poly_value Ready A0 M A s p xs ρ I P (proj2 Hl)). exact (tv_lval Ready A0 M A s ρ v so t xs I Hn (proj1 Hl)).
    + intros u [->|Hu]%HTv.
      * exists so, t, xs. split; [done|]. split; [done|]. split; [apply P|]. intros ρ' [_ Hv]%Hr. rewrite Hv. apply P.
      * eapply defined_mono; [apply logic_le_refl| | | |by apply I8]; [done|done|]. by intros ρ' [? _]%Hr.
  - apply reg_le_simplex; rewrite ?Est; try done.
    + intros u br. apply known_grow.
    + intros u Hu. apply HTv. by right.
Qed.

Record registered A0 M A s t v s' : Prop := {
  rg_inv : reg_inv Ready A0 M A s';
  rg_complete : complete s';
  rg_le : reg_le s s';
  rg_mapped : mapped (ptermToLavar s') t v;
}.

Lemma complete_step s s' v : complete s → reg_le s s' → type_of (tableau (simplex s')) v ≠ NONE →
  (∀ u t, names (laVarToPTRef s') u t → u = v ∨ names (laVarToPTRef s) u t) → complete s'.
Proof. intros Hc L Hv Hn u t [->|Hu]%Hn; [done|]. apply L. by eapply Hc. Qed.

Lemma mapped_not_new A0 M A s t v : reg_inv Ready A0 M A s → complete s → mapped (ptermToLavar s) t v →
  type_of (tableau (simplex s)) v ≠ NONE.
Proof. intros I Hc (t0 & _ & _ & Hn & _)%(mp_back _ _ _ (ri_map _ _ _ _ _ I)). by eapply Hc. Qed.

Definition unmapped s t : Prop := ∀ u, ¬ mapped (ptermToLavar s) t u.

Lemma factor_register A0 M A s so t x q : reg_inv Ready A0 M A s → complete s → nfactor (logic s) so t x q →
  plain (logic s) x → q = 1%Qc ∨ q = (-(1))%Qc → unmapped s t →
  wp no_error (λ r, registered A0 M A s t r.1 r.2)
    (let! r := getLAVar_single x s in
     let '(v, s) := r in
     let! y := Simplex_newNonbasicVar v (simplex s) in
     let! s := notifyVar v (with_simplex y s) in
     Ok (v, s)).
Proof.
  intros I Hc Hf Hp Hq Hno. destruct (plain_linear _ _ Hp) as (so' & f & args & Hn & Hv & Hl & _).
  assert (so' = so) as ->.
  { assert (nfactor (logic s) so x x 1) as Hx.
    { destruct Hf as [t f' args' Ht Hv'|t x k c f' args' _ Hx Hv' _ _ _]; [exact (nf_var _ _ _ _ _ Ht Hv')|exact (nf_var _ _ _ _ _ Hx Hv')]. }
    by destruct (linear_det _ _ _ _ _ _ (proj1 Hl) (lin_factor _ _ _ _ _ Hx)). }
  assert (norm [(x, q)] = [(x, 1%Qc)]) as Eq.
  { destruct Hq as [-> | ->]; [done|]. unfold norm. rewrite decide_True by done. unfold negated. simpl.
    f_equal. }
  assert (∀ s' u, reg_inv Ready A0 M A s' → reg_le s s' → mapped (ptermToLavar s') x u → mapped (ptermToLavar s') t u) as Hsame.
  { intros s' u I' L Hu. apply (mapped_norm_term _ _ _ (ri_wf _ _ _ _ _ I') (ri_map _ _ _ _ _ I') t x u so [(x, q)]); [| |done].
    - constructor. eapply nfactor_mono; [apply L|done].
    - rewrite Eq. eapply linear_mono; [apply L|apply Hl]. }
  apply wp_bind. eapply wp_mono; [exact (getLAVar_reg A0 M A s x so [(x, 1%Qc)] I Hl)|].
  intros [v s1] (I1 & L1 & Hm & Et & HT & Hnew). cbn [fst snd] in *.
  assert (type_of (tableau (simplex s1)) v = NONE) as HN.
  { rewrite Et. destruct HT as [HT|HT]; [|done]. destruct (Hno v). apply (Hsame s v I); [apply reg_le_refl|done]. }
  rewrite newNonbasicVar_alt by done. pose proof (plain_mono _ _ _ (rl_logic _ _ L1) Hp) as Hp1.
  assert (names (laVarToPTRef s1) v x) as Hx.
  { eapply mapped_var; [apply I1|apply I1|by eapply logic_le_node; [apply L1|exact Hn]|exact Hv|exact Hm]. }
  apply wp_bind. eapply wp_mono; [apply (nonbasicVar_reg A0 M A s1 v x I1 Hx Hp1)|]. intros y (I2 & L2 & HT2).
  apply wp_bind. eapply wp_mono; [apply (notifyVar_reg A0 M A (with_simplex y s1) v x I2 Hx Hp1)|].
  intros s3 (I3 & L3 & Es & Ep & Ev & El). cbn [wp fst snd].
  assert (reg_le s s3) as L by (eapply reg_le_trans; [exact L1|]; by eapply reg_le_trans). constructor; [done| |done|].
  - apply (complete_step s s3 v Hc L); [rewrite Es; apply HT2; by left|]. intros u t'. rewrite Ev. apply Hnew.
  - apply (Hsame s3 v I3 L). rewrite Ep. exact Hm.
Qed.

Lemma increasing_nodup (k : list nat) : StronglySorted lt k → NoDup k.
Proof.
  induction 1 as [|a k _ IH Hf]; constructor; [|done]. intros Ha. rewrite Forall_forall in Hf. specialize (Hf a Ha). lia.
Qed.

Lemma vars_nodup so l t ts xs : linear l so t xs → pterms l !! t = Some (MkNode (sym_PLUS so) ts) → NoDup xs.*1.
Proof.
  intros Hl Ht. destruct Hl as [t x q Hf|t ts' xs _ _ _ Hs]; [by destruct (factor_not_sum _ _ _ _ _ _ _ Hf Ht)|].
  by apply increasing_nodup.
Qed.

Lemma poly_is_nil ps neg : poly_is ps [] (signed neg []).
Proof.
  assert (signed neg [] = []) as -> by (by destruct neg). constructor; [apply poly_wf_nil| | |done].
  - intros u. split; [by intros ?%not_elem_of_nil|]. by intros (x & ?%not_elem_of_nil & _).
  - by intros x ?%not_elem_of_nil.
Qed.

Lemma sum_register A0 M A s so t ts xs : reg_inv Ready A0 M A s → complete s → lin (logic s) so t xs →
  pterms (logic s) !! t = Some (MkNode (sym_PLUS so) ts) → unmapped s t →
  wp no_error (λ r, registered A0 M A s t r.1 r.2)
    (let! r := getLAVar_single t s in
     let '(x, s) := r in
     let! r := expressionToLVarPoly t s in
     let '(poly, s) := r in
     let! r := foldM declare_variable (s, true) poly in
     let '(s, isInt) := r in
     let! y := Simplex_newRow x poly (simplex s) in
     let s := with_simplex y s in
     Ok (x, if (isInt : bool) then markVarAsInt x s else s)).
Proof.
  intros I Hc Hl Ht Hno. apply wp_bind. eapply wp_mono; [exact (getLAVar_reg A0 M A s t so xs I Hl)|].
  intros [v s1] (I1 & L1 & Hm & Et & HT & Hnew). cbn [fst snd] in *.
  destruct HT as [HT|HT]; [by destruct (Hno v)|].
  pose proof (lin_mono _ _ _ _ _ (rl_logic _ _ L1) Hl) as Hl1. pose proof (logic_le_node _ _ _ _ (rl_logic _ _ L1) Ht) as Ht1.
  unfold expressionToLVarPoly, isNegated. rewrite (isNegated_ok _ _ _ _ (ri_wf _ _ _ _ _ I1) Hl1), (at_pterms _ _ _ Ht1). cbn [rbind nargs].
  set (neg := bool_decide (leading xs < 0)%Qc).
  assert (signed neg xs = norm xs) as Eneg.
  { unfold signed, norm, neg. case_bool_decide; [by rewrite decide_True|by rewrite decide_False]. }
  assert (Forall2 (λ t xq, nfactor (logic s1) so t xq.1 xq.2) ts xs ∧ 2 ≤ length xs) as [Hf Hlen].
  { destruct (proj1 Hl1) as [t' x q Hf|t' ts' xs' Ht' Hlen Hf _]; [by destruct (factor_not_sum _ _ _ _ _ _ _ Hf Ht1)|].
    rewrite Ht' in Ht1. injection Ht1 as ->. split; [done|]. by rewrite <- (Forall2_length _ _ _ Hf). }
  apply wp_bind. eapply wp_mono; [apply (add_arguments_wp A0 M A neg so ts xs s1 [] [] I1 Hf)|].
  { apply Hl1. } { apply poly_is_nil. } { by eapply vars_nodup; [apply Hl1|]. }
  intros [p s2] (I2 & L2 & Et2 & P & Hnew2). cbn [fst snd app] in *. rewrite Eneg in P.
  pose proof (reg_le_trans _ _ _ L1 L2) as L02.
  pose proof (lin_mono _ _ _ _ _ (rl_logic _ _ L2) Hl1) as Hl2.
  destruct (mapped_norm _ _ _ (ri_map _ _ _ _ _ I2) t v so xs (rl_mapped _ _ L2 _ _ Hm) (proj1 Hl2)) as (t0 & Hv & Hl0).
  assert (∀ u, u ∈ keys p → ∃ y, plain (logic s2) y ∧ names (laVarToPTRef s2) u y) as Hkp.
  { intros u (y & Hy & Hyu)%(pi_keys _ _ _ P). exists y. pose proof (proj2 Hl0 y Hy) as Hp. split; [done|].
    destruct (plain_linear _ _ Hp) as (so2 & f & args & Hfy & Hvy & _).
    eapply mapped_var; [apply I2|apply I2|exact Hfy|exact Hvy|done]. }
  apply wp_bind. eapply wp_mono; [apply (declare_variables_wp A0 M A p s2 true I2)|].
  { intros u Hu. destruct (Hkp u Hu) as (y & ? & ?). by exists y. }
  intros [s3 b] (I3 & [L3 T3 P3 N3 O3] & Hb). cbn [fst snd] in *.
  assert (v ∉ keys p) as Hvk.
  { intros Hvp. destruct (Hkp v Hvp) as (y & Hp & Hy). assert (y = t0) as -> by (unfold names in *; congruence).
    destruct (plain_linear _ _ Hp) as (so2 & _ & _ & _ & _ & Hly & _).
    destruct (linear_det _ _ _ _ _ _ (proj1 Hly) (proj1 Hl0)) as [_ E]. apply (f_equal length) in E. simpl in E.
    unfold norm, negated in E. destruct (decide _); rewrite ?length_fmap in E; lia. }
  assert (type_of (tableau (simplex s3)) v = NONE) as HN.
  { destruct (decide (type_of (tableau (simplex s3)) v = NONE)) as [|HNe%T3]; [done|]. destruct HNe as [|HNe]; [done|].
    rewrite Et2, Et in HNe. done. }
  apply wp_bind. eapply wp_mono; [apply (newRow_reg A0 M A s3 v t0 so (norm xs) p I3)|].
  { by rewrite N3. } { by rewrite O3. } { done. } { by rewrite P3. } { intros u Hu. apply T3. by left. }
  intros y (I4 & L4 & T4). cbn [wp fst snd]. set (s4 := with_simplex y s3) in *.
  pose proof (reg_le_trans _ _ _ (reg_le_trans _ _ _ L02 L3) L4) as L04.
  assert (complete s4) as Hc4.
  { intros u t' Hu. apply T4. change (laVarToPTRef s4) with (laVarToPTRef s3) in Hu. rewrite N3 in Hu.
    apply Hnew2 in Hu as [Hu|Hu]; [right; apply T3; by left|]. apply Hnew in Hu as [->|Hu]; [by left|].
    right. apply T3. right. rewrite Et2, Et. by eapply Hc. }
  assert (mapped (ptermToLavar s4) t v) as Hm4.
  { change (ptermToLavar s4) with (ptermToLavar s3). rewrite P3. by apply L2. }
  destruct b; [|by constructor].
  assert (names (laVarToPTRef s4) v t0) as Hv4 by (change (laVarToPTRef s4) with (laVarToPTRef s3); by rewrite N3).
  destruct (mark_reg A0 M A s4 v t0 I4 Hv4) as (I5 & L5 & E1 & E2 & E3 & E4).
  - intros ρ Hρ. rewrite (tv_lval Ready A0 M A s4 ρ v so t0 (norm xs) I4 Hv4).
    2:{ change (logic s4) with (logic s3). rewrite O3. apply Hl0. }
    rewrite <- (poly_value Ready A0 M A s4 p (norm xs) ρ I4).
    + apply (qeval_int s4); [apply (Hb eq_refl)|]. intros u Hu. by apply (ri_int _ _ _ _ _ I4).
    + change (ptermToLavar s4) with (ptermToLavar s3). by rewrite P3.
    + change (logic s4) with (logic s3). rewrite O3. apply Hl0.
  - constructor; [done| |by eapply reg_le_trans|by rewrite E2].
    intros u t'. rewrite E3, E1. apply Hc4.
Qed.

(** Registering a term never fails, and the term is mapped afterwards. *)
Lemma registerArithmeticTerm_wp A0 M A s so t xs : reg_inv Ready A0 M A s → complete s → reg_term (logic s) so t xs →
  wp no_error (λ r, registered A0 M A s t r.1 r.2) (registerArithmeticTerm t s).
Proof.
  intros I Hc [Hl H1]. unfold registerArithmeticTerm, mapper_hasVar.
  assert (∃ n, pterms (logic s) !! t = Some n) as [n Hn].
  { destruct (proj1 Hl) as [? ? ? Hf|? ? ? Ht _ _ _]; [by eapply nfactor_node|eauto]. }
  rewrite (at_pterms _ _ _ Hn). cbn [rbind]. destruct (hasVarId t s) eqn:Eh.
  - apply hasVarId_iff in Eh as [v Hv]. unfold getVarForTerm, getVarByPTId, at_. rewrite Hv. cbn [rbind].
    unfold isProcessedByTableau. rewrite (proj2 (isProcessed_iff _ v)) by by eapply mapped_not_new. cbn [wp fst snd].
    constructor; [done..|apply reg_le_refl|done].
  - cbn [rbind]. assert (unmapped s t) as Hno.
    { intros u Hu. assert (hasVarId t s = true) as E; [|congruence]. apply hasVarId_iff. by exists u. }
    unfold isNumVarOrIte, a_isTimes. rewrite !(test_ok _ _ _ _ Hn). cbn [rbind].
    destruct (proj1 Hl) as [t x q Hf|t ts xs Ht Hlen Hf Hs].
    + assert (plain (logic s) x) as Hp by (apply Hl; simpl; set_solver).
      assert ((is_var (nsym n) || is_ite (nsym n)) || is_TIMES (nsym n) = true) as ->.
      { destruct Hp as (nx & Hnx & Hp). destruct Hf as [t f args Ht Hv|t x k c f args Ht _ _ _ _ _].
        - rewrite Hnx in Hn. injection Hn as ->. by rewrite Hp.
        - rewrite Ht in Hn. by injection Hn as <-. }
      destruct (split_factor _ _ _ _ _ (ri_wf _ _ _ _ _ I) Hf) as (k & c & -> & _ & _). cbn [rbind fst].
      destruct Hp as (nx & Hnx & Hpx). rewrite (test_ok _ _ _ _ Hnx). cbn [rbind]. rewrite Hpx. cbn [check rbind].
      apply (factor_register A0 M A s so t x q I Hc Hf); [by exists nx|by apply (H1 x q)|done].
    + rewrite Ht in Hn. injection Hn as <-. cbn [nsym is_var is_ite is_TIMES orb].
      by apply (sum_register A0 M A s so t ts xs).
Qed.

End register.
