(* ===== verification/LAAtoms.v ===== *)
(** * Inequalities and their bounds

    [addBound] (LASolver.cc) gives an inequality [c ≤ t] a pair of bounds on the
    variable of [t].  Over the integers the bounds are rounded, so that a bound
    implies its literal, and the literal the bound when the integer variables
    have integer values. *)
From S2P Require Import Prelude Gmp FastRationalInt Number Lex Delta Polynomial Tableau TableauFacts LABounds LABuild LRAModel Simplex.
From S2P Require Import SimplexClient SimplexSession Terms TSolver ArithTerms LASolver LAMapper LARegister.
From Stdlib Require Import Lia.

#[local] Open Scope nat_scope.

(** ** Bound values *)

Section values.
Context {N : Type} `{Number N}.

(** The pair of bounds of [c ≤ x] and [x < c], and that of [x ≤ c] and [c < x];
    [ok] is what may be assumed of the value. *)
Definition strict_pair (ok : Qc → Prop) (c : Qc) (bp : BoundValuePair N) : Prop :=
  ∀ q, (lower_at (dval (bv_lower bp)) q → (c <= q)%Qc) ∧ (upper_at (dval (bv_upper bp)) q → (q < c)%Qc)
  ∧ (ok q → (c <= q)%Qc → lower_at (dval (bv_lower bp)) q) ∧ (ok q → (q < c)%Qc → upper_at (dval (bv_upper bp)) q).
Definition weak_pair (ok : Qc → Prop) (c : Qc) (bp : BoundValuePair N) : Prop :=
  ∀ q, (upper_at (dval (bv_upper bp)) q → (q <= c)%Qc) ∧ (lower_at (dval (bv_lower bp)) q → (c < q)%Qc)
  ∧ (ok q → (q <= c)%Qc → upper_at (dval (bv_upper bp)) q) ∧ (ok q → (c < q)%Qc → lower_at (dval (bv_lower bp)) q).
Definition sharp_pair (bp : BoundValuePair N) : Prop :=
  (0 <= ld (dval (bv_lower bp)))%Qc ∧ (ld (dval (bv_upper bp)) <= 0)%Qc.

Lemma minus_one_val : nval (n_of_Z (-1)) = (-(1))%Qc.
Proof. rewrite n_of_Z_val by (unfold_widths; lia). change (-1)%Z with (- (1))%Z. by rewrite of_Z_opp, of_Z_1. Qed.

Lemma real_strict c : strict_pair (λ _, True) (nval c) (getBoundsValueForRealVar c true)
  ∧ sharp_pair (getBoundsValueForRealVar c true).
Proof.
  unfold getBoundsValueForRealVar, strict_pair, sharp_pair, lower_at, upper_at. cbn [bv_lower bv_upper].
  rewrite Delta_Real_val. unfold dval. cbn [R D lr ld]. rewrite minus_one_val. split.
  - intros q. split; [tauto|]. split; [intros [_ Hq]; by apply Hq|]. split.
    + intros _ Hq. split; [done|]. by intros [].
    + intros _ Hq. split; [qc_lra|done].
  - split; [done|]. by vm_compute.
Qed.

Lemma real_weak c : weak_pair (λ _, True) (nval c) (getBoundsValueForRealVar c false)
  ∧ sharp_pair (getBoundsValueForRealVar c false).
Proof.
  unfold getBoundsValueForRealVar, weak_pair, sharp_pair, lower_at, upper_at. cbn [bv_lower bv_upper].
  rewrite Delta_Real_val. unfold dval. cbn [R D lr ld]. rewrite n_one_val. split.
  - intros q. split; [tauto|]. split; [intros [_ Hq]; by apply Hq|]. split.
    + intros _ Hq. split; [done|]. by intros [].
    + intros _ Hq. split; [qc_lra|done].
  - split; [by vm_compute|done].
Qed.

Lemma int_strict c : strict_pair is_int (nval c) (getBoundsValueForIntVar c true)
  ∧ sharp_pair (getBoundsValueForIntVar c true).
Proof.
  unfold getBoundsValueForIntVar, strict_pair, sharp_pair, lower_at, upper_at. cbn [bv_lower bv_upper].
  rewrite !Delta_Real_val. cbn [lr ld]. split; [|done].
  destruct (n_ceil_val c) as (z & -> & Hz1 & Hz2).
  destruct (n_ceil_val (n_sub c (n_of_Z 1))) as (y & -> & Hy1 & Hy2). rewrite n_sub_val, n_one_val in Hy1, Hy2.
  assert (of_Z (y - 1) = of_Z y - 1)%Qc as Ey by (unfold Z.sub; rewrite of_Z_add, of_Z_opp, of_Z_1; done).
  rewrite Ey in Hy1.
  intros q. split; [intros [Hq _]; qc_lra|]. split; [intros [Hq _]; qc_lra|]. split.
  - intros [x ->] Hq. split; [|by intros []]. apply of_Z_le.
    assert (of_Z (z - 1) < of_Z x)%Qc as Hlt by qc_lra. pose proof (proj1 (of_Z_lt _ _) Hlt). lia.
  - intros [x ->] Hq. split; [|by intros []]. apply of_Z_le.
    assert (of_Z x < of_Z (y + 1))%Qc as Hlt by (rewrite of_Z_add, of_Z_1; qc_lra). pose proof (proj1 (of_Z_lt _ _) Hlt). lia.
Qed.

Lemma int_weak c : weak_pair is_int (nval c) (getBoundsValueForIntVar c false)
  ∧ sharp_pair (getBoundsValueForIntVar c false).
Proof.
  unfold getBoundsValueForIntVar, weak_pair, sharp_pair, lower_at, upper_at. cbn [bv_lower bv_upper].
  rewrite !Delta_Real_val. cbn [lr ld]. split; [|done].
  destruct (n_floor_val c) as (z & -> & Hz1 & Hz2).
  destruct (n_floor_val (n_add c (n_of_Z 1))) as (y & -> & Hy1 & Hy2). rewrite n_add_val, n_one_val in Hy1, Hy2.
  rewrite of_Z_add, of_Z_1 in Hy2. rewrite of_Z_add, of_Z_1 in Hz2.
  intros q. split; [intros [Hq _]; qc_lra|]. split; [intros [Hq _]; qc_lra|]. split.
  - intros [x ->] Hq. split; [|by intros []]. apply of_Z_le.
    assert (of_Z x < of_Z (z + 1))%Qc as Hlt by (rewrite of_Z_add, of_Z_1; qc_lra). pose proof (proj1 (of_Z_lt _ _) Hlt). lia.
  - intros [x ->] Hq. split; [|by intros []]. apply of_Z_le.
    assert (of_Z y < of_Z (x + 1))%Qc as Hlt by (rewrite of_Z_add, of_Z_1; qc_lra). pose proof (proj1 (of_Z_lt _ _) Hlt). lia.
Qed.

End values.

Section atoms.
Context {N : Type} `{Number N}.
Implicit Types (l : ArithLogic N) (s : LASolver N) (t leq : PTRef) (v u : LVRef) (xs : list (PTRef * Qc))
  (br : LABoundRef) (a : PtAsgn) (ρ : PTRef → Qc) (A : list event) (M : list nat).

(** ** Literals *)

Definition la_leq_holds l ρ leq : Prop :=
  match pterms l !! leq with
  | Some n =>
      match nsym n, nargs n with
      | sym_LEQ _, [k; t] => (const_val l k <= term_val l ρ t)%Qc
      | _, _ => False
      end
  | None => False
  end.
Definition la_lit_holds l ρ a : Prop :=
  match sgn a with l_True => la_leq_holds l ρ (tr a) | _ => ¬ la_leq_holds l ρ (tr a) end.

(** [leq] is [c ≤ t] for a term the solver can register. *)
Definition atom l leq so (c : N) t xs : Prop := ∃ k, pterms l !! leq = Some (MkNode (sym_LEQ so) [k; t])
  ∧ pterms l !! k = Some (MkNode (sym_const so c) []) ∧ reg_term l so t xs.
Definition is_atom l leq : Prop := ∃ so c t xs, atom l leq so c t xs.

Lemma atom_mono l l' leq so c t xs : logic_le l l' → atom l leq so c t xs → atom l' leq so c t xs.
Proof.
  intros Hle (k & H1 & H2 & Hl & Hq). exists k. split; [by eapply logic_le_node|]. split; [by eapply logic_le_node|].
  split; [by eapply lin_mono|done].
Qed.

Lemma atom_holds l leq so c t xs ρ : logic_wf l → atom l leq so c t xs → la_leq_holds l ρ leq ↔ (nval c <= lval ρ xs)%Qc.
Proof.
  intros W (k & H1 & H2 & [Hl _] & _). unfold la_leq_holds, const_val. rewrite H1. simpl. rewrite H2. simpl.
  by rewrite (linear_value l so t xs ρ W Hl).
Qed.

Lemma lit_mono l l' ρ a : logic_wf l → logic_wf l' → logic_le l l' → is_atom l (tr a) →
  la_lit_holds l' ρ a ↔ la_lit_holds l ρ a.
Proof.
  intros W W' Hle (so & c & t & xs & Ha). unfold la_lit_holds.
  pose proof (atom_holds l _ so c t xs ρ W Ha) as E. pose proof (atom_holds l' _ so c t xs ρ W' (atom_mono _ _ _ _ _ _ _ Hle Ha)) as E'.
  destruct (sgn a); by rewrite E, E'.
Qed.

(** ** What a bound means *)

Definition means s br a : Prop := ∃ b so c t xs, ba (boundStore_ s) !! br = Some b ∧ id b = br
  ∧ atom (logic s) (tr a) so c t xs ∧ mapped (ptermToLavar s) t (lvref b)
  ∧ ∀ ρ, (rat_bound (tv s ρ) b → la_lit_holds (logic s) ρ a)
       ∧ (integral (logic s) ρ → la_lit_holds (logic s) ρ a → rat_bound (tv s ρ) b).

Record atoms_inv s : Prop := {
  ai_asgn br a : LABoundRefToLeqAsgn s !! br = Some (Some a) → means s br a;
  ai_pair leq p : LeqToLABoundRefPair s !! leq = Some (Some p) →
    LABoundRefToLeqAsgn s !! p.1 = Some (Some (MkPtAsgn leq l_True))
    ∧ LABoundRefToLeqAsgn s !! p.2 = Some (Some (MkPtAsgn leq l_False))
    ∧ ∃ i, i ∈ in_bounds (boundStore_ s) ∧ (p = (bi_ub i, bi_lb i) ∨ p = (bi_lb i, bi_ub i));
  ai_back br a : LABoundRefToLeqAsgn s !! br = Some (Some a) → ∃ p, LeqToLABoundRefPair s !! tr a = Some (Some p)
    ∧ (a = MkPtAsgn (tr a) l_True ∧ br = p.1 ∨ a = MkPtAsgn (tr a) l_False ∧ br = p.2);
  ai_all br b : ba (boundStore_ s) !! br = Some b → ∃ a, LABoundRefToLeqAsgn s !! br = Some (Some a);
  ai_sharp : sharp (ba (boundStore_ s));
}.

(** The bounds stay, with new places at most. *)
Definition ba_le (b b' : list (LABound N)) : Prop := ∀ br x, b !! br = Some x →
  ∃ x', b' !! br = Some x' ∧ type x' = type x ∧ id x' = id x ∧ lvref x' = lvref x ∧ delta x' = delta x.

Lemma ba_le_refl b : ba_le b b.
Proof. intros br x Hx. by exists x. Qed.

Lemma same_bound ρ' (b b' : LABound N) : type b' = type b → lvref b' = lvref b → delta b' = delta b →
  rat_bound ρ' b' ↔ rat_bound ρ' b.
Proof. unfold rat_bound. by intros -> -> ->. Qed.

Lemma rat_bound_ext (ρ1 ρ2 : LVRef → Qc) (b : LABound N) : ρ1 (lvref b) = ρ2 (lvref b) → rat_bound ρ1 b ↔ rat_bound ρ2 b.
Proof. unfold rat_bound. by intros ->. Qed.

Record grown s s' : Prop := {
  gr_logic : logic_le (logic s) (logic s');
  gr_mapped t v : mapped (ptermToLavar s) t v → mapped (ptermToLavar s') t v;
  gr_names v t : names (laVarToPTRef s) v t → names (laVarToPTRef s') v t;
  gr_ba : ba_le (ba (boundStore_ s)) (ba (boundStore_ s'));
}.

Lemma reg_le_grown s s' : reg_le s s' → grown s s'.
Proof. intros []. constructor; try done. rewrite rl_ba. apply ba_le_refl. Qed.

Lemma solver_grown_trans s1 s2 s3 : grown s1 s2 → grown s2 s3 → grown s1 s3.
Proof.
  intros [A1 A2 A3 A4] [B1 B2 B3 B4]. constructor; [by eapply logic_le_trans|eauto..|].
  intros br x Hx. destruct (A4 br x Hx) as (y & Hy & ? & ? & ? & ?). destruct (B4 br y Hy) as (z & Hz & ? & ? & ? & ?).
  exists z. repeat split; congruence.
Qed.

Lemma mapped_lv ph A0 M A s t v : reg_inv ph A0 M A s → mapped (ptermToLavar s) t v → v < length (lvstore (boundStore_ s)).
Proof.
  intros I Hm. apply (ri_named _ _ _ _ _ I). destruct (mp_back _ _ _ (ri_map _ _ _ _ _ I) t v Hm) as (t0 & _ & _ & Hn & _).
  by exists t0.
Qed.

Lemma grown_tv ph A0 M A s s' ρ v : reg_inv ph A0 M A s → logic_wf (logic s') → grown s s' →
  v < length (lvstore (boundStore_ s)) → tv s' ρ v = tv s ρ v.
Proof.
  intros I W' G [t Ht]%(ri_named _ _ _ _ _ I). unfold tv.
  eapply term_value_stable; [apply I|done|apply G|apply I|exact Ht|by apply G].
Qed.

Lemma means_mono ph A0 M A s s' br a : reg_inv ph A0 M A s → logic_wf (logic s') → grown s s' → means s br a → means s' br a.
Proof.
  intros I W' G (b & so & c & t & xs & Hb & Hid & Ha & Hm & Hr). destruct (gr_ba _ _ G br b Hb) as (b' & Hb' & E1 & E2 & E3 & E4).
  exists b', so, c, t, xs. split; [done|]. split; [congruence|]. split; [eapply atom_mono; [apply G|done]|].
  split; [rewrite E3; by apply G|]. intros ρ. rewrite (same_bound _ b b' E1 E3 E4).
  assert (tv s' ρ (lvref b) = tv s ρ (lvref b)) as Ev.
  { apply (grown_tv ph A0 M A s s' ρ _ I W' G). by eapply mapped_lv. }
  rewrite (rat_bound_ext _ (tv s ρ) b Ev), lit_mono; [|apply I|done|apply G|by exists so, c, t, xs].
  destruct (Hr ρ) as [H1 H2]. split; [done|]. intros Hi. apply H2. eapply integral_mono; [apply G|done].
Qed.

(** ** [addBound] *)

(** The values chosen for the two bounds, whatever the sort. *)
Definition var_ok s v : Qc → Prop := if isIntVar v s then is_int else λ _, True.

Lemma getBoundsValue_strict v c s : strict_pair (var_ok s v) (nval c) (getBoundsValue v c true s)
  ∧ sharp_pair (getBoundsValue v c true s).
Proof. unfold getBoundsValue, var_ok. destruct (isIntVar v s); [apply int_strict|apply real_strict]. Qed.
Lemma getBoundsValue_weak v c s : weak_pair (var_ok s v) (nval c) (getBoundsValue v c false s)
  ∧ sharp_pair (getBoundsValue v c false s).
Proof. unfold getBoundsValue, var_ok. destruct (isIntVar v s); [apply int_weak|apply real_weak]. Qed.

Lemma var_ok_tv ph A0 M A s v ρ : reg_inv ph A0 M A s → integral (logic s) ρ → var_ok s v (tv s ρ v).
Proof.
  intros I Hρ. unfold var_ok. destruct (isIntVar v s) eqn:E; [|done]. apply isIntVar_iff in E.
  by apply (ri_int _ _ _ _ _ I v E).
Qed.

(** The value of the variable, from that of the term. *)
Lemma tv_norm ph A0 M A s t v so xs ρ : reg_inv ph A0 M A s → mapped (ptermToLavar s) t v → linear (logic s) so t xs →
  tv s ρ v = lval ρ (norm xs).
Proof.
  intros I Hm Hl. destruct (mapped_norm _ _ _ (ri_map _ _ _ _ _ I) t v so xs Hm Hl) as (t0 & Hn & Hl0 & _).
  by apply (tv_lval ph A0 M A s ρ v so t0).
Qed.

(** The pair of values as [addBound] chooses it. *)
Definition chosen_pair (neg : bool) v (c : N) s : BoundValuePair N :=
  if neg then getBoundsValue v (n_neg c) false s else getBoundsValue v c true s.

Lemma chosen_sharp neg v c s : sharp_pair (chosen_pair neg v c s).
Proof. destruct neg; [apply getBoundsValue_weak|apply getBoundsValue_strict]. Qed.

(** The bound for the literal and the one for its complement. *)
Lemma chosen_meaning ph A0 M A s leq so c t xs v ρ : reg_inv ph A0 M A s → atom (logic s) leq so c t xs →
  mapped (ptermToLavar s) t v →
  let neg := bool_decide (leading xs < 0)%Qc in
  let bp := chosen_pair neg v c s in
  let up := upper_at (dval (bv_upper bp)) (tv s ρ v) in
  let lo := lower_at (dval (bv_lower bp)) (tv s ρ v) in
  ((if neg then up else lo) → la_leq_holds (logic s) ρ leq)
  ∧ ((if neg then lo else up) → ¬ la_leq_holds (logic s) ρ leq)
  ∧ (integral (logic s) ρ → la_leq_holds (logic s) ρ leq → if neg then up else lo)
  ∧ (integral (logic s) ρ → ¬ la_leq_holds (logic s) ρ leq → if neg then lo else up).
Proof.
  intros I Ha Hm neg bp up lo. rewrite (atom_holds _ _ _ _ _ _ ρ (ri_wf _ _ _ _ _ I) Ha).
  pose proof Ha as (k & _ & _ & [Hl _] & _). pose proof (tv_norm ph A0 M A s t v so xs ρ I Hm Hl) as Ev.
  assert (integral (logic s) ρ → var_ok s v (tv s ρ v)) as Hok by (intros Hρ; by apply (var_ok_tv ph A0 M A)).
  unfold up, lo, bp, chosen_pair, neg, norm in *. rewrite Ev in *. clear Ev. case_bool_decide as Hd.
  - rewrite decide_True in * by done. rewrite lval_negated in *.
    destruct (proj1 (getBoundsValue_weak v (n_neg c) s) (- lval ρ xs)%Qc) as (H1 & H2 & H3 & H4). rewrite n_neg_val in *.
    split; [intros Hu%H1; qc_lra|]. split; [intros Hu%H2; qc_lra|]. split; intros Hi%Hok Hc; [apply H3|apply H4]; try done; qc_lra.
  - rewrite decide_False in * by done.
    destruct (proj1 (getBoundsValue_strict v c s) (lval ρ xs)) as (H1 & H2 & H3 & H4).
    split; [by intros Hu%H1|]. split; [intros Hu%H2; qc_lra|]. split; intros Hi%Hok Hc; [apply H3|apply H4]; try done; qc_lra.
Qed.

Lemma reg_other ph A0 M A s s' : reg_inv ph A0 M A s → logic s' = logic s → ptermToLavar s' = ptermToLavar s →
  laVarToPTRef s' = laVarToPTRef s → simplex s' = simplex s → int_vars s' = int_vars s → reg_inv ph A0 M A s'.
Proof.
  intros [I1 I2 I3 I4 I5 I6 I7 I8 I9] E1 E2 E3 E4 E5.
  constructor; unfold tv, boundStore_ in *; rewrite ?E1, ?E2, ?E3, ?E4, ?E5; done.
Qed.

Lemma reg_store A0 M A s st : reg_inv Ready A0 M A s → session Ready A0 M A (with_store st (simplex s)) →
  lvstore st = lvstore (boundStore_ s) → reg_inv Ready A0 M A (with_boundStore st s).
Proof.
  intros [I1 I2 I3 I4 I5 I6 I7 I8 I9] Hs E. constructor; try done.
  - change (lvstore st = seq 0 (length (lvstore st))). by rewrite E.
  - intros v. change (v < length (lvstore st) ↔ ∃ t, names (laVarToPTRef s) v t). by rewrite E.
  - intros v. change (type_of (tableau (simplex s)) v ≠ NONE → v < length (lvstore st)). rewrite E. apply I6.
Qed.

(** ** The tables *)

Lemma store_at_ok {B} (k : list (option B)) i (y : B) : ∃ k', store_at k i y = Ok k'
  ∧ ∀ j z, k' !! j = Some (Some z) ↔ if decide (j = i) then z = y else k !! j = Some (Some z).
Proof.
  unfold store_at, upd. rewrite grow_length, (proj2 (Nat.ltb_lt _ _)) by lia. eexists. split; [done|].
  intros j z. destruct (decide (j = i)) as [->|Hne].
  - rewrite list_lookup_insert_eq by (rewrite grow_length; lia). naive_solver.
  - rewrite list_lookup_insert_ne, grow_lookup by done. destruct (k !! j) eqn:E; [done|].
    by destruct (decide _).
Qed.

Lemma store_two_ok {B} (k : list (option B)) i j (y z : B) : i ≠ j →
  ∃ k', (let! k := upd (grow k (Nat.max i j) None) i (Some y) in upd k j (Some z)) = Ok k'
  ∧ ∀ m w, k' !! m = Some (Some w) ↔
      if decide (m = i) then w = y else if decide (m = j) then w = z else k !! m = Some (Some w).
Proof.
  intros Hij. unfold upd. rewrite grow_length, (proj2 (Nat.ltb_lt _ _)) by lia. cbn [rbind].
  rewrite length_insert, grow_length, (proj2 (Nat.ltb_lt _ _)) by lia. eexists. split; [done|].
  intros m w. destruct (decide (m = j)) as [->|Hj].
  - rewrite list_lookup_insert_eq by (rewrite length_insert, grow_length; lia). rewrite decide_False by done. naive_solver.
  - rewrite list_lookup_insert_ne by done. destruct (decide (m = i)) as [->|Hi].
    + rewrite list_lookup_insert_eq by (rewrite grow_length; lia). naive_solver.
    + rewrite list_lookup_insert_ne, grow_lookup by done. destruct (k !! m) eqn:E; [done|]. by destruct (decide _).
Qed.

Definition has_pair s leq : Prop := ∃ p, LeqToLABoundRefPair s !! leq = Some (Some p).

Definition frame s := (base s, decision_trace s, dec_limit s, int_decisions s,
  (explanation s, explanationCoefficients s, concrete_model s, status s)).

Lemma rest_frame s s' : rest s' = rest s → frame s' = frame s ∧ LABoundRefToLeqAsgn s' = LABoundRefToLeqAsgn s
  ∧ LeqToLABoundRefPair s' = LeqToLABoundRefPair s.
Proof. unfold rest, frame. intros [= -> -> -> -> -> -> -> -> -> ->]. done. Qed.

(** The state after a new pair of bounds. *)
Record bound_added A0 M A s leq bi s' : Prop := {
  bd_reg : reg_inv Ready A0 M A s';
  bd_complete : complete s';
  bd_atoms : atoms_inv s';
  bd_grown : grown s s';
  bd_pair : has_pair s' leq;
  bd_pairs leq' : has_pair s leq' → has_pair s' leq';
  bd_only leq' : has_pair s' leq' → leq' = leq ∨ has_pair s leq';
  bd_asgn br a : LABoundRefToLeqAsgn s !! br = Some (Some a) → LABoundRefToLeqAsgn s' !! br = Some (Some a);
  bd_alloc : ∃ v bp, allocBoundPair v bp (boundStore_ s) = (bi, boundStore_ s');
  bd_frame : frame s' = frame s;
}.

Lemma addBound_eq A0 M A s leq so c t xs v : reg_inv Ready A0 M A s → atom (logic s) leq so c t xs → mapped (ptermToLavar s) t v →
  let neg := bool_decide (leading xs < 0)%Qc in
  addBound leq s =
    (let (bi, st) := allocBoundPair v (chosen_pair neg v c s) (boundStore_ s) in
     let s := with_boundStore st s in
     let (br_pos, br_neg) := if neg then (bi_ub bi, bi_lb bi) else (bi_lb bi, bi_ub bi) in
     let! pairs := store_at (LeqToLABoundRefPair s) leq (br_pos, br_neg) in
     let asgns := grow (LABoundRefToLeqAsgn s) (Nat.max br_pos br_neg) None in
     let! asgns := upd asgns br_pos (Some (MkPtAsgn leq l_True)) in
     let! asgns := upd asgns br_neg (Some (MkPtAsgn leq l_False)) in
     Ok (bi, with_tables asgns pairs s)).
Proof.
  intros I (k & H1 & H2 & Hl & _) Hm neg. unfold addBound, leqToConstantAndTerm, a_isLeq, argOf, a_isNumConst, a_getNumConst, symOf.
  rewrite (test_ok _ _ _ _ H1), !(at_pterms _ _ _ H1). cbn [rbind nsym is_LEQ check nargs at_ lookup list_lookup].
  rewrite (test_ok _ _ _ _ H2), (at_pterms _ _ _ H2), (isLinearTerm_ok _ _ _ _ (proj1 Hl)). cbn [rbind nsym is_const andb check].
  unfold isNegated. rewrite (isNegated_ok _ _ _ _ (ri_wf _ _ _ _ _ I) Hl). unfold getVarByPTId, at_. rewrite Hm. cbn [rbind].
  fold neg. by destruct neg.
Qed.

Lemma alloc_ba v bp (st st' : LABoundStore N) bi : allocBoundPair v bp st = (bi, st') →
  let n := length (ba st) in
  bi = MkBoundInfo v n (S n) ∧ in_bounds st' = in_bounds st ++ [bi] ∧ lvstore st' = lvstore st
  ∧ ba st' = (ba st ++ [LABound_new bound_u v (bv_upper bp) n]) ++ [LABound_new bound_l v (bv_lower bp) (S n)].
Proof.
  unfold allocBoundPair, alloc. simpl. intros [= <- <-]. simpl. rewrite length_app. simpl. by rewrite Nat.add_1_r.
Qed.

Lemma addBound_wp A0 M A s leq so c t xs v : reg_inv Ready A0 M A s → complete s → atoms_inv s →
  atom (logic s) leq so c t xs → mapped (ptermToLavar s) t v → ¬ has_pair s leq →
  wp no_error (λ r, bound_added A0 M A s leq r.1 r.2) (addBound leq s).
Proof.
  intros I Hc T Ha Hm Hnp. rewrite (addBound_eq A0 M A s leq so c t xs v I Ha Hm).
  set (neg := bool_decide (leading xs < 0)%Qc). set (bp := chosen_pair neg v c s).
  destruct (allocBoundPair v bp (boundStore_ s)) as [bi st] eqn:Ea.
  destruct (alloc_ba v bp _ _ _ Ea) as (Ebi & Ein & Elv & Eba). set (n := length (ba (boundStore_ s))) in *.
  set (b1 := LABound_new bound_u v (bv_upper bp) n) in *. set (b2 := LABound_new bound_l v (bv_lower bp) (S n)) in *.
  assert (∀ br b, ba st !! br = Some b ↔ ba (boundStore_ s) !! br = Some b ∨ (br = n ∧ b = b1) ∨ (br = S n ∧ b = b2)) as Hba.
  { intros br b. rewrite Eba, !lookup_snoc_Some, length_app. fold n. simpl. rewrite Nat.add_1_r. split.
    - intros [[_ [[_ ?]|[<- <-]]]|[<- <-]]; tauto.
    - intros [Hb|[[-> ->]|[-> ->]]]; [|left; split; [lia|by right]|by right].
      pose proof (lookup_lt_Some _ _ _ Hb). left. split; [lia|]. by left. }
  set (pos := if neg then n else S n). set (ngt := if neg then S n else n).
  assert (pos ≠ ngt) as Hne by (unfold pos, ngt; destruct neg; lia).
  assert ((if neg then (bi_ub bi, bi_lb bi) else (bi_lb bi, bi_ub bi)) = (pos, ngt)) as -> by (rewrite Ebi; by destruct neg).
  cbn [with_boundStore with_simplex LeqToLABoundRefPair LABoundRefToLeqAsgn].
  destruct (store_at_ok (LeqToLABoundRefPair s) leq (pos, ngt)) as (pairs & -> & Hpairs). cbn [rbind].
  destruct (store_two_ok (LABoundRefToLeqAsgn s) pos ngt (MkPtAsgn leq l_True) (MkPtAsgn leq l_False) Hne) as (asgns & Easg & Hasg).
  destruct (upd (grow (LABoundRefToLeqAsgn s) (Nat.max pos ngt) None) pos (Some (MkPtAsgn leq l_True))) as [g|] eqn:Eg;
    cbn [rbind] in Easg |- *; [|done].
  rewrite Easg. cbn [rbind wp fst snd]. set (s' := with_tables asgns pairs _).
  assert (session Ready A0 M A (with_store st (simplex s))) as Hses by (by eapply ses_allocBoundPair; [apply I|exact Ea]).
  assert (reg_inv Ready A0 M A s') as I'.
  { apply (reg_other Ready A0 M A (with_boundStore st s)); try done. by apply reg_store. }
  assert (grown s s') as G.
  { constructor; [apply logic_le_refl|done|done|]. intros br b Hb. exists b. split; [|done]. apply Hba. by left. }
  assert (∀ br a, LABoundRefToLeqAsgn s !! br = Some (Some a) → br < n) as Hold.
  { intros br a (b & _ & _ & _ & _ & Hb & _)%(ai_asgn _ T). by apply lookup_lt_Some in Hb. }
  constructor; try done.
  - assert (∀ w ρ, tv s' ρ w = tv s ρ w) as Etv by done.
    pose proof (λ ρ, chosen_meaning Ready A0 M A s leq so c t xs v ρ I Ha Hm) as Hmean. cbn zeta in Hmean. fold neg bp in Hmean.
    constructor.
    + intros br a Hbr. apply Hasg in Hbr. destruct (decide (br = pos)) as [->|Hp]; [subst a|destruct (decide (br = ngt)) as [->|Hn]; [subst a|]].
      * exists (if neg then b1 else b2), so, c, t, xs. split; [apply Hba; unfold pos; destruct neg; tauto|].
        split; [by destruct neg|]. split; [done|]. split; [by destruct neg|]. intros ρ. specialize (Hmean ρ).
        unfold la_lit_holds, rat_bound. cbn [sgn tr]. destruct neg; tauto.
      * exists (if neg then b2 else b1), so, c, t, xs. split; [apply Hba; unfold ngt; destruct neg; tauto|].
        split; [by destruct neg|]. split; [done|]. split; [by destruct neg|]. intros ρ. specialize (Hmean ρ).
        unfold la_lit_holds, rat_bound. cbn [sgn tr]. destruct neg; tauto.
      * eapply (means_mono Ready A0 M A s); [done|apply I'|done|]. by apply (ai_asgn _ T).
    + intros leq' p Hp. apply Hpairs in Hp. change (LABoundRefToLeqAsgn s') with asgns. change (in_bounds (boundStore_ s')) with (in_bounds st). rewrite !Hasg. destruct (decide (leq' = leq)) as [->|Hl].
      * subst p. cbn [fst snd]. rewrite decide_True by done. split; [done|].
        rewrite decide_False, decide_True by done. split; [done|]. exists bi. split; [rewrite Ein; set_solver|].
        rewrite Ebi. unfold pos, ngt. destruct neg; tauto.
      * destruct (ai_pair _ T leq' p Hp) as (H1 & H2 & i & Hi & Hpi). pose proof (Hold _ _ H1). pose proof (Hold _ _ H2).
        assert (pos ≥ n ∧ ngt ≥ n) as [? ?] by (unfold pos, ngt; destruct neg; lia).
        rewrite !decide_False by lia. split; [done|]. split; [done|]. exists i. split; [|done]. rewrite Ein. set_solver.
    + intros br a Hbr. apply Hasg in Hbr. change (LeqToLABoundRefPair s') with pairs.
      destruct (decide (br = pos)) as [->|Hp]; [subst a; exists (pos, ngt); split; [apply Hpairs; by rewrite decide_True|tauto]|].
      destruct (decide (br = ngt)) as [->|Hn]; [subst a; exists (pos, ngt); split; [apply Hpairs; by rewrite decide_True|tauto]|].
      destruct (ai_back _ T br a Hbr) as (p & Hp' & Hc'). exists p. split; [|done]. apply Hpairs.
      rewrite decide_False; [done|]. intros E. apply Hnp. exists p. by rewrite <- E.
    + intros br b [Hb|Hb]%Hba.
      * destruct (ai_all _ T br b Hb) as [a Hla]. pose proof (Hold _ _ Hla). exists a. apply Hasg.
        assert (pos ≥ n ∧ ngt ≥ n) as [? ?] by (unfold pos, ngt; destruct neg; lia). by rewrite !decide_False by lia.
      * assert (br = pos ∨ br = ngt) as [-> | ->] by (unfold pos, ngt; destruct neg; tauto).
        -- eexists. apply Hasg. by rewrite decide_True.
        -- eexists. apply Hasg. by rewrite decide_False, decide_True.
    + intros br b [Hb|[[_ ->]|[_ ->]]]%Hba; [by apply (ai_sharp _ T br)|apply chosen_sharp..].
  - exists (pos, ngt). apply Hpairs. by rewrite decide_True.
  - intros leq' [p Hp]. destruct (decide (leq' = leq)) as [->|Hl].
    + exists (pos, ngt). apply Hpairs. by rewrite decide_True.
    + exists p. apply Hpairs. by rewrite decide_False.
  - intros leq' [p Hp]. apply Hpairs in Hp. destruct (decide (leq' = leq)) as [->|Hl]; [by left|right]. by exists p.
  - intros br a Hbr. pose proof (Hold _ _ Hbr). apply Hasg.
    assert (pos ≥ n ∧ ngt ≥ n) as [? ?] by (unfold pos, ngt; destruct neg; lia). by rewrite !decide_False by lia.
  - by exists v, bp.
Qed.

End atoms.
