(* ===== verification/LADeclare.v ===== *)
(** * Declaring inequalities

    [initSolver], [declareAtom] and [updateBound] of LASolver.cc: afterwards
    every inequality the solver was told of has its two bounds, in order, on the
    variable of its term. *)
From S2P Require Import Prelude Gmp FastRationalInt Number Lex Delta Polynomial Tableau TableauFacts LABounds LABuild LRAModel Simplex.
From S2P Require Import SimplexClient SimplexSession Terms TSolver ArithTerms LASolver LAMapper LARegister LAAtoms.
From Stdlib Require Import Lia.

#[local] Open Scope nat_scope.

Section declare.
Context {N : Type} `{Number N}.
Implicit Types (l : ArithLogic N) (s : LASolver N) (t leq : PTRef) (v u : LVRef) (xs : list (PTRef * Qc))
  (br : LABoundRef) (a : PtAsgn) (ρ : PTRef → Qc) (A : list event) (M : list nat).

(** The bounds of every pair are listed with their variables. *)
Definition all_known (st : LABoundStore N) : Prop := ∀ i, i ∈ in_bounds st →
  known st (bi_v i) (bi_ub i) ∧ known st (bi_v i) (bi_lb i).

Record declarable ph A0 M A s : Prop := {
  de_reg : reg_inv ph A0 M A s;
  de_complete : complete s;
  de_atoms : atoms_inv s;
  de_informed leq : leq ∈ informed_PTRefs (base s) → is_atom (logic s) leq;
}.

(** After [initSolver]. *)
Record la_ready ph A0 M A s : Prop := {
  lr_declarable : declarable ph A0 M A s;
  lr_known : all_known (boundStore_ s);
  lr_pairs leq : leq ∈ informed_PTRefs (base s) → has_pair s leq;
}.

Lemma session_store ph A0 M A (x : Simplex N) : session ph A0 M A x → store_inv (boundStore x).
Proof. intros Hs. apply (ss_store _ _ _ _ _ (session_holds _ _ _ _ _ Hs)). Qed.

Lemma atoms_tables ph A0 M A s s' : reg_inv ph A0 M A s → logic_wf (logic s') → grown s s' → atoms_inv s →
  LABoundRefToLeqAsgn s' = LABoundRefToLeqAsgn s → LeqToLABoundRefPair s' = LeqToLABoundRefPair s →
  length (ba (boundStore_ s')) = length (ba (boundStore_ s)) → in_bounds (boundStore_ s') = in_bounds (boundStore_ s) →
  atoms_inv s'.
Proof.
  intros I W' G [T1 T2 Tb T3 T4] E1 E2 E3 E4.
  assert (∀ br b', ba (boundStore_ s') !! br = Some b' → ∃ b, ba (boundStore_ s) !! br = Some b
    ∧ type b' = type b ∧ delta b' = delta b) as Hback.
  { intros br b' Hb'. pose proof (lookup_lt_Some _ _ _ Hb') as Hlt. rewrite E3 in Hlt.
    apply lookup_lt_is_Some in Hlt as [b Hb]. destruct (gr_ba _ _ G br b Hb) as (b2 & Hb2 & Ht & _ & _ & Hd).
    exists b. split; [done|]. assert (b2 = b') as -> by congruence. done. }
  constructor; rewrite ?E1, ?E2, ?E4.
  - intros br a Ha. eapply (means_mono ph A0 M A s); eauto.
  - exact T2.
  - exact Tb.
  - intros br b' Hb'. destruct (Hback br b' Hb') as (b & Hb & _). by apply (T3 br b).
  - intros br b' Hb'. destruct (Hback br b' Hb') as (b & Hb & -> & ->). by apply (T4 br).
Qed.

Lemma atoms_reg A0 M A s s' : reg_inv Ready A0 M A s → reg_inv Ready A0 M A s' → reg_le s s' → atoms_inv s → atoms_inv s'.
Proof.
  intros I I' L T. destruct (rest_frame _ _ (rl_rest _ _ L)) as (_ & E1 & E2).
  eapply (atoms_tables Ready A0 M A s); [done|apply I'|by apply reg_le_grown|done|done|done| |].
  - by rewrite (rl_ba _ _ L).
  - by rewrite (rl_in _ _ L).
Qed.

Lemma frame_informed s s' : frame s' = frame s → informed_PTRefs (base s') = informed_PTRefs (base s).
Proof. unfold frame. by intros [= -> _ _ _ _ _ _ _]. Qed.

(** Registering the term of an inequality and making its bounds. *)
Definition set_up leq s : res (BoundInfo * LASolver N) :=
  let! term := argOf (logic s) leq 1 in
  let! r := registerArithmeticTerm term s in
  addBound leq r.2.

Record setup A0 M A s leq bi s' : Prop := {
  se_reg : reg_inv Ready A0 M A s';
  se_complete : complete s';
  se_atoms : atoms_inv s';
  se_grown : grown s s';
  se_pair : has_pair s' leq;
  se_pairs leq' : has_pair s leq' → has_pair s' leq';
  se_only leq' : has_pair s' leq' → leq' = leq ∨ has_pair s leq';
  se_asgn br a : LABoundRefToLeqAsgn s !! br = Some (Some a) → LABoundRefToLeqAsgn s' !! br = Some (Some a);
  se_frame : frame s' = frame s;
  se_store : ∃ v bp (st : LABoundStore N), store_inv st ∧ allocBoundPair v bp st = (bi, boundStore_ s')
    ∧ in_bounds st = in_bounds (boundStore_ s) ∧ ∀ u br, known (boundStore_ s) u br → known st u br;
}.

Lemma set_up_wp A0 M A s leq : reg_inv Ready A0 M A s → complete s → atoms_inv s → is_atom (logic s) leq → ¬ has_pair s leq →
  wp no_error (λ r, setup A0 M A s leq r.1 r.2) (set_up leq s).
Proof.
  intros I Hc T (so & c & t & xs & Ha) Hnp. pose proof Ha as (k & H1 & _ & Ht). unfold set_up, argOf.
  rewrite (at_pterms _ _ _ H1). cbn [rbind nargs at_ lookup list_lookup].
  apply wp_bind. eapply wp_mono; [apply (registerArithmeticTerm_wp A0 M A s so t xs I Hc Ht)|].
  intros [v s1] [I1 Hc1 L1 Hm]. cbn [fst snd] in *. pose proof (atoms_reg _ _ _ _ _ I I1 L1 T) as T1.
  destruct (rest_frame _ _ (rl_rest _ _ L1)) as (Ef & Ea & Ep).
  eapply wp_mono; [apply (addBound_wp A0 M A s1 leq so c t xs v I1 Hc1 T1)|].
  - eapply atom_mono; [apply L1|done].
  - done.
  - unfold has_pair in *. by rewrite Ep.
  - intros [bi s2] [I2 Hc2 T2 G2 Hp Hps Hon Has Hal Ef2]. cbn [fst snd] in *. constructor; try done.
    + eapply solver_grown_trans; [by apply reg_le_grown|done].
    + intros leq' Hp'. apply Hps. unfold has_pair in *. by rewrite Ep.
    + intros leq' Hp'. unfold has_pair in *. rewrite <- Ep. by apply Hon.
    + intros br a Hbr. apply Has. by rewrite Ea.
    + congruence.
    + destruct Hal as (v' & bp & Hal). exists v', bp, (boundStore_ s1). split; [|split; [done|]].
      * eapply session_store, I1.
      * split; [apply L1|]. apply L1.
Qed.

Lemma has_pair_frame s s' leq : LeqToLABoundRefPair s' = LeqToLABoundRefPair s → has_pair s leq → has_pair s' leq.
Proof. unfold has_pair. by intros ->. Qed.

(** The loop of [initSolver]. *)
Lemma set_ups_wp A0 M A s0 leqs : reg_inv Ready A0 M A s0 → complete s0 → atoms_inv s0 → (∀ leq, leq ∈ leqs → is_atom (logic s0) leq) →
  (∀ leq, ¬ has_pair s0 leq) → NoDup leqs →
  wp no_error (λ s', reg_inv Ready A0 M A s' ∧ complete s' ∧ atoms_inv s' ∧ grown s0 s' ∧ frame s' = frame s0
    ∧ ∀ leq, leq ∈ leqs → has_pair s' leq)
    (foldM (λ s leq,
          let! term := argOf (logic s) leq 1 in
          let! r := registerArithmeticTerm term s in
          setBound leq r.2) s0 leqs).
Proof.
  intros I Hc T Hat Hnp Hnd. eapply wp_mono; [apply (foldM_wp no_error _ (λ pre _ s, reg_inv Ready A0 M A s ∧ complete s ∧ atoms_inv s
    ∧ grown s0 s ∧ frame s = frame s0 ∧ ∀ leq, has_pair s leq ↔ leq ∈ pre))|].

  - split; [done|]. split; [done|]. split; [done|]. split; [by apply reg_le_grown, reg_le_refl|]. split; [done|].
    intros leq. split; [by intros ?%Hnp|by intros ?%not_elem_of_nil].
  - intros pre leq post s El (I1 & Hc1 & T1 & G1 & Ef & Hp).
    assert (is_atom (logic s) leq) as Ha.
    { destruct (Hat leq) as (so & c & t & xs & Ha); [rewrite El; set_solver|]. exists so, c, t, xs.
      eapply atom_mono; [apply G1|done]. }
    assert (¬ has_pair s leq) as Hn.
    { rewrite Hp. intros Hin. rewrite El in Hnd. apply NoDup_app in Hnd as (_ & Hnd & _). apply (Hnd leq Hin). by left. }
    pose proof (set_up_wp A0 M A s leq I1 Hc1 T1 Ha Hn) as Hw. unfold set_up in Hw. unfold setBound.
    destruct (argOf (logic s) leq 1); cbn [rbind] in *; [|done].
    destruct (registerArithmeticTerm a s); cbn [rbind] in *; [|done].
    destruct (addBound leq a0.2) as [[bi s']|]; cbn [rbind wp fst snd] in *; [|done].
    destruct Hw as [I2 Hc2 T2 G2 Hp2 Hps2 Hon2 _ Ef2 _]. split; [done|]. split; [done|]. split; [done|].
    split; [by eapply solver_grown_trans|]. split; [congruence|].
    intros leq'. rewrite elem_of_app, list_elem_of_singleton, <- Hp. split; [intros [->|]%Hon2; tauto|].
    intros [Hl| ->]; [by apply Hps2|done].
  - intros s' (? & ? & ? & ? & ? & Hp). split; [done|]. split; [done|]. split; [done|]. split; [done|]. split; [done|].
    intros leq. by apply Hp.
Qed.

(** ** The lists of the bounds *)

Lemma reindexed_ba_le (b b' : list (LABound N)) : reindexed b b' → ba_le b b'.
Proof. intros [_ Hr] br x Hx. destruct (Hr br x Hx) as (y & ? & ? & ? & ? & ?). by exists y. Qed.

Lemma relisted A0 M A s st : reg_inv Ready A0 M A s → complete s → atoms_inv s →
  session Ready A0 M A (with_store st (simplex s)) → reindexed (ba (boundStore_ s)) (ba st) →
  in_bounds st = in_bounds (boundStore_ s) → lvstore st = lvstore (boundStore_ s) →
  let s' := with_boundStore st s in
  reg_inv Ready A0 M A s' ∧ complete s' ∧ atoms_inv s' ∧ grown s s'.
Proof.
  intros I Hc T Hs R Ein Elv s'. assert (reg_inv Ready A0 M A s') as I' by by apply reg_store.
  assert (grown s s') as G by (constructor; [apply logic_le_refl|done|done|by apply reindexed_ba_le]).
  split; [done|]. split; [exact Hc|]. split; [|done]. apply (atoms_tables Ready A0 M A s s'); try done; [apply I'|apply R].
Qed.

Lemma lv_declared A0 M A s v : reg_inv Ready A0 M A s → complete s → v ∈ lvstore (boundStore_ s) → v < dim (simplex s).
Proof.
  intros I Hc Hv. rewrite (ri_lv _ _ _ _ _ I) in Hv. apply elem_of_seq in Hv as [_ Hv]. simpl in Hv.
  destruct (proj1 (ri_named _ _ _ _ _ I v) Hv) as [t Ht].
  pose proof (ss_state _ _ _ _ _ (session_holds _ _ _ _ _ (ri_session _ _ _ _ _ I))) as Id. simpl in Id.
  apply (client_range M A _ (st_inv _ _ _ _ (id_settled _ _ _ _ Id))). by eapply Hc.
Qed.

Lemma initialised A0 M A s : reg_inv Ready A0 M A s → complete s → atoms_inv s →
  let s' := with_status SAT (with_simplex (initModel (simplex s)) s) in
  reg_inv Ready A0 M A s' ∧ complete s' ∧ atoms_inv s' ∧ grown s s'.
Proof.
  intros I Hc T s'. pose proof I as [I1 I2 I3 I4 I5 I6 I7 I8 I9].
  assert (reg_inv Ready A0 M A s') as I'.
  { constructor; try done. apply ses_initModel; [done|]. intros v. by apply (lv_declared A0 M A). }
  assert (grown s s') as G by (constructor; [apply logic_le_refl|done|done|apply ba_le_refl]).
  split; [done|]. split; [exact Hc|]. split; [|done]. by apply (atoms_tables Ready A0 M A s s').
Qed.

(** ** [initSolver] and [declareAtom] *)

Section order.
Context (order : list BoundInfo → list LVRef) (Order : ∀ infos, keys_of infos (order infos)).

Definition unstarted s : Prop := status s = INIT ∧ (∀ leq, ¬ has_pair s leq) ∧ NoDup (informed_PTRefs (base s)).

Lemma initSolver_wp A0 M A s : declarable Ready A0 M A s → unstarted s →
  wp no_error (λ s', la_ready Ready A0 M A s' ∧ grown s s' ∧ frame s' = frame (with_status SAT s)) (initSolver order s).
Proof.
  intros [I Hc T Hinf] (Est & Hnp & Hnd). unfold initSolver. rewrite Est. apply wp_bind.
  eapply wp_mono; [by apply (set_ups_wp A0 M A s)|]. intros s1 (I1 & Hc1 & T1 & G1 & Ef1 & Hp1).
  pose proof (session_store _ _ _ _ _ (ri_session _ _ _ _ _ I1)) as Hst.
  pose proof (buildBounds_inv no_error (order (in_bounds (boundStore_ s1))) (boundStore_ s1) Hst (Order _)) as Hw.
  apply wp_total in Hw as (st & Eb & _ & _ & Ein & Elv & R & Hk). rewrite Eb. cbn [rbind wp].
  destruct (relisted A0 M A s1 st I1 Hc1 T1) as (I2 & Hc2 & T2 & G2); try done.
  { eapply ses_buildBounds; [apply I1|apply Order|exact Eb]. }
  destruct (initialised A0 M A _ I2 Hc2 T2) as (I3 & Hc3 & T3 & G3).
  set (s3 := with_status SAT _) in *.
  assert (grown s s3) as G by (eapply solver_grown_trans; [exact G1|]; by eapply solver_grown_trans).
  assert (frame s3 = frame (with_status SAT s)) as Ef.
  { unfold frame in *. injection Ef1 as E1 E2 E3 E4 E5 E6 E7 E8. unfold s3. simpl. by rewrite E1, E2, E3, E4, E5, E6, E7. }
  pose proof (frame_informed _ _ Ef) as Einf. change (base (with_status SAT s)) with (base s) in Einf.
  split; [|done]. constructor.
  - constructor; [done..|]. intros leq. rewrite Einf. intros (so & c & t & xs & Ha)%Hinf. exists so, c, t, xs.
    eapply atom_mono; [apply G|done].
  - intros i Hi. change (boundStore_ s3) with st in *. rewrite Ein in Hi. by apply Hk.
  - intros leq. rewrite Einf. apply Hp1.
Qed.

Lemma ensure_init_wp A0 M A s : (unstarted s ∧ declarable Ready A0 M A s) ∨ (status s ≠ INIT ∧ la_ready Ready A0 M A s) →
  wp no_error (λ s', la_ready Ready A0 M A s' ∧ grown s s' ∧
    frame s' = frame (if decide (status s = INIT) then with_status SAT s else s)) (ensure_init order s).
Proof.
  intros [[U D]|[Est R]]; unfold ensure_init.
  - rewrite decide_True by apply U. rewrite (proj1 U). by apply initSolver_wp.
  - rewrite decide_False by done. assert (grown s s) as G by apply reg_le_grown, reg_le_refl.
    by destruct (status s).
Qed.

End order.

(** A pair of bounds added when the lists are built already. *)
Lemma updated_known (st st1 : LABoundStore N) v bp bi : store_inv st → all_known st → allocBoundPair v bp st = (bi, st1) →
  store_inv st1 ∧ bi ∈ in_bounds st1 ∧ bi_ub bi ≠ bi_lb bi ∧ fresh_bound st1 (bi_v bi) (bi_ub bi) ∧ fresh_bound st1 (bi_v bi) (bi_lb bi)
  ∧ wp no_error (λ st2, all_known st2 ∧ in_bounds st2 = in_bounds st1 ∧ lvstore st2 = lvstore st1
      ∧ reindexed (ba st1) (ba st2)) (updateBound bi st1).
Proof.
  intros Hst Hk Ea. destruct (allocBoundPair_ok v bp st bi st1 Hst Ea) as (Hst1 & Hle & Hin & Ev & Hlt & Hne & Fu & Fl).
  rewrite <- Ev in Fu, Fl. split; [done|]. split; [done|]. split; [done|]. split; [done|]. split; [done|].
  eapply wp_mono; [by apply (updateBound_inv no_error bi st1 Hst1 Hin Hne)|].
  intros st' (_ & Hle' & Ein & Elv & K1 & K2 & R). split; [|done]. intros i. rewrite Ein.
  destruct (alloc_ba v bp st st1 bi Ea) as (_ & -> & _). intros [Hi| ->%list_elem_of_singleton]%elem_of_app; [|done].
  destruct (Hk i Hi) as [H1 H2]. split; apply Hle', Hle; done.
Qed.

Lemma known_step (st st' : LABoundStore N) : in_bounds st' = in_bounds st → (∀ v br, known st v br → known st' v br) →
  all_known st → all_known st'.
Proof. intros E Hk Ha i. rewrite E. intros Hi. destruct (Ha i Hi). split; by apply Hk. Qed.

(** The bounds of a new inequality, listed at once. *)
Definition known_grown A0 M A s leq s' : Prop :=
  reg_inv Ready A0 M A s' ∧ complete s' ∧ atoms_inv s' ∧ all_known (boundStore_ s') ∧ grown s s' ∧ has_pair s' leq
  ∧ (∀ leq', has_pair s leq' → has_pair s' leq')
  ∧ (∀ br a, LABoundRefToLeqAsgn s !! br = Some (Some a) → LABoundRefToLeqAsgn s' !! br = Some (Some a))
  ∧ frame s' = frame s.

Lemma LA_add_wp A0 M A s leq so c t xs v : reg_inv Ready A0 M A s → complete s → atoms_inv s → all_known (boundStore_ s) →
  atom (logic s) leq so c t xs → mapped (ptermToLavar s) t v → ¬ has_pair s leq →
  wp no_error (known_grown A0 M A s leq)
    (let! r := addBound leq s in
     let! st := updateBound r.1 (boundStore_ r.2) in Ok (with_boundStore st r.2)).
Proof.
  intros I Hc T Hk Ha Hm Hnp. apply wp_bind. eapply wp_mono; [by apply (addBound_wp A0 M A s leq so c t xs v)|].
  intros [bi s1] [I1 Hc1 T1 G1 Hp1 Hps1 Hon1 Has1 (w & bp & Ea) Ef1]. cbn [fst snd] in *.
  pose proof (session_store _ _ _ _ _ (ri_session _ _ _ _ _ I)) as Hst.
  destruct (updated_known _ (boundStore_ s1) w bp bi Hst Hk Ea) as (Hst1 & Hin & Hne & Fu & Fl & Hw).
  apply wp_total in Hw as (st & Eu & Hk2 & Ein & Elv & R). rewrite Eu. cbn [rbind wp].
  destruct (relisted A0 M A s1 st I1 Hc1 T1) as (I2 & Hc2 & T2 & G2); try done.
  { by eapply ses_updateBound; [apply I1|..]. }
  do 4 (split; [done|]). split; [by eapply solver_grown_trans|]. done.
Qed.

(** [updateBound] for an inequality whose term is registered. *)
Lemma LA_updateBound_wp A0 M A s leq so c t xs v : reg_inv Ready A0 M A s → complete s → atoms_inv s → all_known (boundStore_ s) →
  atom (logic s) leq so c t xs → mapped (ptermToLavar s) t v →
  wp no_error (known_grown A0 M A s leq) (LA_updateBound leq s).
Proof.
  intros I Hc T Hk Ha Hm. unfold LA_updateBound. destruct (LeqToLABoundRefPair s !! leq) as [[p|]|] eqn:Ep.
  { cbn [wp]. assert (grown s s) as G by apply reg_le_grown, reg_le_refl.
    assert (has_pair s leq) as Hp by by exists p. done. }
  1,2: apply (LA_add_wp A0 M A s leq so c t xs v I Hc T Hk Ha Hm); intros [q Hq]; congruence.
Qed.

Definition informed leq s : LASolver N := with_base (setInformed (base s) leq) s.

(** A change of the base class only. *)
Lemma declarable_base A0 M A s b : (∀ leq, leq ∈ informed_PTRefs b → is_atom (logic s) leq) →
  declarable Ready A0 M A s → declarable Ready A0 M A (with_base b s).
Proof.
  intros Hb [I Hc T _]. constructor; [by apply (reg_other Ready A0 M A s)|exact Hc| |done].
  destruct T as [T1 T2 Tb T3 T4]. by constructor.
Qed.

Lemma declareAtom_ready A0 M A s leq : la_ready Ready A0 M A s → status s = SAT → is_atom (logic s) leq →
  wp no_error (λ s', la_ready Ready A0 M A s' ∧ grown s s' ∧ leq ∈ informed_PTRefs (base s')
    ∧ (∀ br a, LABoundRefToLeqAsgn s !! br = Some (Some a) → LABoundRefToLeqAsgn s' !! br = Some (Some a))
    ∧ frame s' = frame (if isInformed (base s) leq then s else informed leq s)) (LA_declareAtom leq s).
Proof.
  intros R Est Ha. pose proof R as [[I Hc T Hinf] Hk Hp]. pose proof Ha as (so & c & t & xs & Hat).
  pose proof Hat as (k & H1 & _ & Ht). unfold LA_declareAtom, a_isLeq. rewrite (test_ok _ _ _ _ H1). cbn [rbind nsym is_LEQ negb].
  destruct (isInformed (base s) leq) eqn:Ei.
  { apply bool_decide_eq_true in Ei. assert (grown s s) as G by apply reg_le_grown, reg_le_refl. done. }
  cbn zeta. fold (informed leq s). set (s1 := informed leq s). change (status s1) with (status s). rewrite Est.
  assert (∀ leq', leq' ∈ informed_PTRefs (base s1) → is_atom (logic s1) leq') as Hinf1.
  { intros leq' [Hl| ->%list_elem_of_singleton]%elem_of_app; [by apply Hinf|done]. }
  destruct (declarable_base A0 M A s (base s1) Hinf1 (lr_declarable _ _ _ _ _ R)) as [I1 Hc1 T1 _].
  change (with_base (base s1) s) with s1 in *. rewrite bool_decide_true by done. cbn [check rbind].
  unfold argOf. rewrite (at_pterms (logic s1) _ _ H1). cbn [rbind nargs at_ lookup list_lookup].
  apply wp_bind. eapply wp_mono; [apply (registerArithmeticTerm_wp A0 M A s1 so t xs I1 Hc1 Ht)|].
  intros [v s2] [I2 Hc2 L2 Hm]. cbn [fst snd] in *. pose proof (atoms_reg _ _ _ _ _ I1 I2 L2 T1) as T2.
  destruct (rest_frame _ _ (rl_rest _ _ L2)) as (Ef & Eas & Ep).
  eapply wp_mono; [apply (LA_updateBound_wp A0 M A s2 leq so c t xs v I2 Hc2 T2)|].
  - apply (known_step (boundStore_ s1)); [apply L2|apply L2|exact Hk].
  - eapply atom_mono; [apply L2|done].
  - done.
  - intros s' (I3 & Hc3 & T3 & Hk3 & G3 & Hp3 & Hps3 & Has3 & Ef3).
    assert (frame s' = frame s1) as Ef' by congruence. pose proof (frame_informed _ _ Ef') as Ei'.
    assert (grown s s') as G.
    { eapply solver_grown_trans; [|exact G3]. apply (solver_grown_trans s s1); [|by apply reg_le_grown].
      constructor; [apply logic_le_refl|done|done|apply ba_le_refl]. }
    split; [|split; [done|split; [rewrite Ei'; apply elem_of_app; right; by apply list_elem_of_singleton|]]].
    2:{ split; [|done]. intros br a Hbr. apply Has3. by rewrite Eas. }
    constructor; [constructor; try done|done|].
    + intros leq'. rewrite Ei'. intros (so' & c' & t' & xs' & Ha')%Hinf1. exists so', c', t', xs'.
      eapply atom_mono; [apply G|done].
    + intros leq'. rewrite Ei'. intros [Hl| ->%list_elem_of_singleton]%elem_of_app; [|done].
      apply Hps3. eapply has_pair_frame; [exact Ep|]. by apply (has_pair_frame s), Hp.
Qed.

(** Before the first check an inequality is only noted. *)
Lemma declareAtom_init A0 M A s leq : declarable Ready A0 M A s → status s = INIT → is_atom (logic s) leq →
  ∃ s', LA_declareAtom leq s = Ok s' ∧ declarable Ready A0 M A s' ∧ leq ∈ informed_PTRefs (base s')
    ∧ s' = if isInformed (base s) leq then s else informed leq s.
Proof.
  intros D Est Ha. pose proof Ha as (so & c & t & xs & k & H1 & _). unfold LA_declareAtom, a_isLeq.
  rewrite (test_ok _ _ _ _ H1). cbn [rbind nsym is_LEQ negb]. destruct (isInformed (base s) leq) eqn:Ei.
  { apply bool_decide_eq_true in Ei. eauto. }
  cbn [with_base status]. rewrite Est. eexists. split; [done|]. split; [|split; [|done]].
  - apply declarable_base; [|done]. intros leq' [Hl| ->%list_elem_of_singleton]%elem_of_app; [by apply D|done].
  - apply elem_of_app. right. by apply list_elem_of_singleton.
Qed.

End declare.
