(* ===== verification/LASearch.v ===== *)
(** * Literals, bounds and levels

    During a search the solver holds the literals it was told of level by level,
    each as the bound it stands for.  This file says what the recorded, the
    accepted and the deduced literals have to do with the values of the terms,
    and that the steps of the solver keep it.
    Then: the levels of the trail. *)
From stdpp Require Import gmap.
From S2P Require Import Prelude Gmp FastRationalInt Number Lex Delta Polynomial Tableau TableauFacts LABounds LABuild LRAModel Simplex.
From S2P Require Import SimplexSelect SimplexClient SimplexSession Terms TSolver ArithTerms LASolver LAMapper LARegister LAAtoms LADeclare.
From Stdlib Require Import Lia.

#[local] Open Scope nat_scope.

(** A level: the literal recorded at it, and the literals accepted. *)
Record Level : Type := MkLevel { lrec : option PtAsgn; lacc : list PtAsgn }.
Implicit Types (lv : list Level).

Definition lits lv : list PtAsgn := omap lrec lv.
Definition accepted lv : list PtAsgn := concat (lacc <$> lv).
(** How many literals were recorded when each level was opened. *)
Definition marks lv : list nat := (λ i, length (lits (take i lv))) <$> seq 0 (length lv).

Lemma lits_app lv lw : lits (lv ++ lw) = lits lv ++ lits lw.
Proof. apply omap_app. Qed.
Lemma accepted_app lv lw : accepted (lv ++ lw) = accepted lv ++ accepted lw.
Proof. unfold accepted. by rewrite fmap_app, concat_app. Qed.
Lemma marks_snoc lv x : marks (lv ++ [x]) = marks lv ++ [length (lits lv)].
Proof.
  unfold marks. rewrite length_app, Nat.add_1_r, seq_S, fmap_app. cbn [plus list_fmap fmap]. f_equal.
  - apply list_fmap_ext. intros i k [-> Hi]%lookup_seq. simpl. by rewrite take_app_le by lia.
  - by rewrite take_app_length.
Qed.
Lemma lits_take lv i a : a ∈ lits (take i lv) → a ∈ lits lv.
Proof. intros Ha. rewrite <- (take_drop i lv), lits_app. apply elem_of_app. by left. Qed.
Lemma lits_take_le lv i : length (lits (take i lv)) ≤ length (lits lv).
Proof. rewrite <- (take_drop i lv) at 2. rewrite lits_app, length_app. lia. Qed.

Section search.
Context {N : Type} `{Number N}.
Implicit Types (l : ArithLogic N) (s : LASolver N) (t leq : PTRef) (v u : LVRef) (xs : list (PTRef * Qc))
  (br : LABoundRef) (a : PtAsgn) (ρ : PTRef → Qc) (A : list event) (M : list nat) (L : list PtAsgn).

(** ** The bound of a literal *)

Definition has_lit s a : Prop := ∃ br, LABoundRefToLeqAsgn s !! br = Some (Some a).
(** The values of the terms satisfy the bound of the literal. *)
Definition bound_true s ρ a : Prop := ∃ br b, LABoundRefToLeqAsgn s !! br = Some (Some a)
  ∧ ba (boundStore_ s) !! br = Some b ∧ rat_bound (tv s ρ) b.
Definition implied s L a : Prop := has_lit s a ∧ ∀ ρ, (∀ c, c ∈ L → bound_true s ρ c) → bound_true s ρ a.

Lemma lit_unique s br br' a : atoms_inv s → LABoundRefToLeqAsgn s !! br = Some (Some a) →
  LABoundRefToLeqAsgn s !! br' = Some (Some a) → br = br'.
Proof.
  intros T Hb Hb'. destruct (ai_back _ T br a Hb) as (p & Hp & Hc). destruct (ai_back _ T br' a Hb') as (p' & Hp' & Hc').
  rewrite Hp in Hp'. injection Hp' as <-. destruct a as [t sg]. simpl in *.
  destruct Hc as [[[= ->] ->]|[[= ->] ->]], Hc' as [[[=] ->]|[[=] ->]]; done.
Qed.

(** A bound implies its literal; over the integers the literal implies it. *)
Lemma bound_true_lit s ρ a : atoms_inv s → bound_true s ρ a → la_lit_holds (logic s) ρ a.
Proof.
  intros T (br & b & Ha & Hb & Hr). destruct (ai_asgn _ T br a Ha) as (b' & so & c & t & xs & Hb' & _ & _ & _ & Hm).
  assert (b' = b) as -> by congruence. by apply Hm.
Qed.

Lemma lit_bound_true s ρ a : atoms_inv s → has_lit s a → integral (logic s) ρ → la_lit_holds (logic s) ρ a → bound_true s ρ a.
Proof.
  intros T [br Ha] Hi Hl. destruct (ai_asgn _ T br a Ha) as (b & so & c & t & xs & Hb & _ & _ & _ & Hm).
  exists br, b. split; [done|]. split; [done|]. by apply Hm.
Qed.

Lemma implied_sub s L L' a : (∀ c, c ∈ L → c ∈ L') → implied s L a → implied s L' a.
Proof. intros HL [Ha Hi]. split; [done|]. intros ρ Hc. apply Hi. intros c Hin. by apply Hc, HL. Qed.

Lemma implied_in s L a : has_lit s a → a ∈ L → implied s L a.
Proof. intros Ha Hin. split; [done|]. intros ρ Hc. by apply Hc. Qed.

(** ** Steps that keep the meaning of the literals *)

Record kept s s' : Prop := {
  kp_grown : grown s s';
  kp_asgn br a : LABoundRefToLeqAsgn s !! br = Some (Some a) → LABoundRefToLeqAsgn s' !! br = Some (Some a);
  kp_wf : logic_wf (logic s');
  kp_atoms : atoms_inv s';
}.

Lemma la_kept_trans s1 s2 s3 : kept s1 s2 → kept s2 s3 → kept s1 s3.
Proof. intros [G1 A1 W1 T1] [G2 A2 W2 T2]. constructor; eauto. by eapply solver_grown_trans. Qed.

Lemma kept_lit s s' a : kept s s' → has_lit s a → has_lit s' a.
Proof. intros K [br Ha]. exists br. by apply K. Qed.

Lemma kept_bound ph A0 M A s s' ρ a : reg_inv ph A0 M A s → atoms_inv s → kept s s' → has_lit s a →
  bound_true s' ρ a ↔ bound_true s ρ a.
Proof.
  intros I T [G As W' T'] [br Ha]. destruct (ai_asgn _ T br a Ha) as (b & so & c & t & xs & Hb & _ & _ & Hm & _).
  destruct (gr_ba _ _ G br b Hb) as (b' & Hb' & E1 & _ & E3 & E4).
  assert (rat_bound (tv s' ρ) b' ↔ rat_bound (tv s ρ) b) as Hr.
  { rewrite (same_bound _ b b' E1 E3 E4). apply rat_bound_ext. apply (grown_tv ph A0 M A s s' ρ _ I W' G).
    by eapply mapped_lv. }
  split; intros (br2 & b2 & Ha2 & Hb2 & Hr2).
  - assert (br2 = br) as -> by (eapply (lit_unique s'); eauto). assert (b2 = b') as -> by congruence.
    exists br, b. split; [done|]. split; [done|]. by apply Hr.
  - assert (br2 = br) as -> by (eapply (lit_unique s); eauto). assert (b2 = b) as -> by congruence.
    exists br, b'. split; [by apply As|]. split; [done|]. by apply Hr.
Qed.

Lemma kept_implied ph A0 M A s s' L a : reg_inv ph A0 M A s → atoms_inv s → kept s s' → (∀ c, c ∈ L → has_lit s c) →
  implied s L a → implied s' L a.
Proof.
  intros I T K HL [Ha Hi]. split; [by eapply kept_lit|]. intros ρ Hc.
  apply (kept_bound ph A0 M A s s' ρ a I T K Ha), Hi. intros c Hin.
  apply (kept_bound ph A0 M A s s' ρ c I T K); [by apply HL|by apply Hc].
Qed.

(** What the invariants of the declarations are about. *)
Definition core s := (logic s, ptermToLavar s, laVarToPTRef s, simplex s, int_vars s,
  (LABoundRefToLeqAsgn s, LeqToLABoundRefPair s, informed_PTRefs (base s))).

Lemma core_atoms s s' : core s' = core s → atoms_inv s → atoms_inv s'.
Proof.
  unfold core. intros [= El Ep Ev Ex Ei Ea El' Eb] [T1 T2 T3 T4 T5]. constructor; unfold means, boundStore_ in *;
    rewrite ?Ea, ?El', ?Ex, ?El, ?Ep; try done. intros br a Ha. destruct (T1 br a Ha) as (b & so & c & t & xs & Hm).
  exists b, so, c, t, xs. unfold tv. rewrite El, Ev. exact Hm.
Qed.

Lemma core_declarable ph A0 M A s s' : core s' = core s → declarable ph A0 M A s → declarable ph A0 M A s'.
Proof.
  intros E [I Hc T Hi]. pose proof (core_atoms s s' E T) as T'. unfold core in E. injection E as El Ep Ev Ex Ei Ea El' Eb.
  constructor; [by apply (reg_other ph A0 M A s)| |done|rewrite Eb, El; done].
  intros v t. rewrite Ev, Ex. apply Hc.
Qed.

Lemma core_ready ph A0 M A s s' : core s' = core s → la_ready ph A0 M A s → la_ready ph A0 M A s'.
Proof.
  intros E [D Hk Hp]. pose proof (core_declarable ph A0 M A s s' E D) as D'. unfold core in E. injection E as El Ep Ev Ex Ei Ea El' Eb.
  constructor; [done|unfold boundStore_; by rewrite Ex|]. intros leq. rewrite Eb. unfold has_pair. rewrite El'. apply Hp.
Qed.

Lemma core_grown s s' : core s' = core s → grown s s'.
Proof.
  unfold core. intros [= El Ep Ev Ex Ei Ea El' Eb]. constructor.
  - rewrite El. apply logic_le_refl.
  - by rewrite Ep.
  - by rewrite Ev.
  - unfold boundStore_. rewrite Ex. apply ba_le_refl.
Qed.

Lemma core_kept ph A0 M A s s' : core s' = core s → declarable ph A0 M A s → kept s s'.
Proof.
  intros E D. pose proof (core_declarable ph A0 M A s s' E D) as [I' _ T' _]. constructor; [by apply core_grown| |apply I'|done].
  unfold core in E. injection E as El Ep Ev Ex Ei Ea El' Eb. by rewrite Ea.
Qed.

(** A step of the simplex solver. *)
Record simplex_step (x y : Simplex N) : Prop := {
  xs_store : boundStore y = boundStore x;
  xs_none v : type_of (tableau y) v = NONE ↔ type_of (tableau x) v = NONE;
  xs_sat σ : solution (tableau y) σ ↔ solution (tableau x) σ;
}.

Lemma simplex_step_refl x : simplex_step x x.
Proof. done. Qed.

Lemma reg_step ph A0 M A s ph' A0' M' A' y : reg_inv ph A0 M A s → session ph' A0' M' A' y → simplex_step (simplex s) y →
  reg_inv ph' A0' M' A' (with_simplex y s).
Proof.
  intros [I1 I2 I3 I4 I5 I6 I7 I8 I9] Hs [Est Hn Hsat].
  assert (∀ v, type_of (tableau y) v ≠ NONE ↔ type_of (tableau (simplex s)) v ≠ NONE) as Hn' by (intros v; by rewrite Hn).
  assert (∀ ρ', rat_solution (tableau y) ρ' ↔ rat_solution (tableau (simplex s)) ρ') as Hr by (intros ρ'; by apply rat_solution_iff).
  constructor; unfold boundStore_ in *; cbn [with_simplex simplex logic ptermToLavar laVarToPTRef int_vars]; rewrite ?Est; try done.
  - intros v HT. by apply I6, Hn'.
  - intros ρ. apply Hr, I7.
  - intros v HT%Hn'%I8. eapply defined_mono; [apply logic_le_refl|done|done| |exact HT]. apply Hr.
Qed.

Lemma ready_step ph A0 M A s ph' A0' M' A' y : la_ready ph A0 M A s → session ph' A0' M' A' y → simplex_step (simplex s) y →
  la_ready ph' A0' M' A' (with_simplex y s) ∧ kept s (with_simplex y s).
Proof.
  intros [[I Hc T Hi] Hk Hp] Hs X. pose proof (reg_step _ _ _ _ _ _ _ _ _ _ I Hs X) as I'.
  pose proof X as [Est Hn Hsat]. unfold boundStore_ in *.
  assert (atoms_inv (with_simplex y s)) as T'.
  { destruct T as [T1 T2 T3 T4 T5]. constructor; unfold means, boundStore_ in *; cbn [with_simplex simplex]; rewrite ?Est; done. }
  split.
  - constructor; [constructor|..]; try done.
    + intros v t Hv. rewrite Hn. by apply Hc in Hv.
    + unfold boundStore_. simpl. by rewrite Est.
  - constructor; [|done|apply I'|done]. constructor; [apply logic_le_refl|done|done|].
    unfold boundStore_. simpl. rewrite Est. apply ba_le_refl.
Qed.

Lemma declarable_step ph A0 M A s ph' A0' M' A' y : declarable ph A0 M A s → session ph' A0' M' A' y → simplex_step (simplex s) y →
  declarable ph' A0' M' A' (with_simplex y s).
Proof.
  intros [I Hc T Hi] Hs X. pose proof (reg_step _ _ _ _ _ _ _ _ _ _ I Hs X) as I'. destruct X as [Est Hn Hsat].
  constructor; try done.
  - intros v t Hv. simpl. rewrite Hn. by apply Hc in Hv.
  - destruct T as [T1 T2 T3 T4 T5]. constructor; unfold means, boundStore_ in *; cbn [with_simplex simplex]; rewrite ?Est; done.
Qed.

End search.

(** * The trail of the linear arithmetic solver

    The invariant of a search: the recorded literals are the bounds asserted in
    the simplex solver, level by level, and the literals accepted without a bound
    and the literals deduced follow from them.  Deductions and explanations,
    translated back to literals. *)

Definition ded_lit (d : PtAsgn_reason) : PtAsgn := MkPtAsgn (rtr d) (rsgn d).
(** The deductions made on the first [i] levels. *)
Definition lim_at (b : TSolver) (i : nat) : nat := default (length (th_deductions b)) (deductions_lim b !! i).

(** The base class with the deductions [ds] more. *)
Record base_ext (b b' : TSolver) (ds : list PtAsgn_reason) : Prop := {
  be_wf : tsolver_wf b → tsolver_wf b';
  be_lim : deductions_lim b' = deductions_lim b;
  be_ded : th_deductions b' = th_deductions b ++ ds;
  be_pol t p : polarityMap b' !! t = Some p → polarityMap b !! t = Some p ∨ ∃ d, d ∈ ds ∧ ded_lit d = MkPtAsgn t p;
  be_informed : informed_PTRefs b' = informed_PTRefs b;
}.

Lemma base_ext_refl b : base_ext b b [].
Proof. constructor; try done; [by rewrite app_nil_r|tauto]. Qed.

(** The same deductions. *)
Record base_same (b b' : TSolver) : Prop := {
  bs_wf : tsolver_wf b → tsolver_wf b';
  bs_lim : deductions_lim b' = deductions_lim b;
  bs_ded : th_deductions b' = th_deductions b;
  bs_pol t p : polarityMap b' !! t = Some p → polarityMap b !! t = Some p;
}.

Lemma base_ext_same b b' : base_ext b b' [] → base_same b b'.
Proof.
  intros [W El Ed Ep _]. constructor; [done|done|by rewrite Ed, app_nil_r|].
  intros t p [?|(d & ?%not_elem_of_nil & _)]%Ep; done.
Qed.

Lemma base_ext_store b b' ds d : base_ext b b' ds → base_ext b (storeDeduction b' d) (ds ++ [d]).
Proof.
  intros [W El Ed Ep Ei]. constructor; try done.
  - intros Hw. by apply storeDeduction_wf, W.
  - simpl. by rewrite Ed, app_assoc.
  - intros t p. simpl. destruct (decide (rtr d = t)) as [Et|Hne].
    + rewrite Et, lookup_insert_eq. intros [= Ep']. right. exists d. split; [set_solver|]. unfold ded_lit. congruence.
    + rewrite lookup_insert_ne by done. intros [?|(d' & ? & ?)]%Ep; [by left|]. right. exists d'. set_solver.
Qed.

Section trail.
Context {N : Type} `{Number N}.
Implicit Types (s : LASolver N) (t leq : PTRef) (v u : LVRef) (xs : list (PTRef * Qc))
  (br : LABoundRef) (a : PtAsgn) (ρ : PTRef → Qc) (A : list event) (M : list nat) (L : list PtAsgn).

(** ** The invariant *)

(** A recorded literal is the bound asserted for it. *)
Definition lit_event s a (e : event) : Prop := LABoundRefToLeqAsgn s !! ev_bound e = Some (Some a)
  ∧ ∃ b, ba (boundStore_ s) !! ev_bound e = Some b ∧ lvref b = ev_var e.

Record recorded s lv A : Prop := {
  rc_events : Forall2 (lit_event s) (lits lv) A;
  rc_trace : decision_trace s = lits lv;
  rc_decisions : (int_decisions s).*1 = lits lv;
  rc_limits : dec_limit s = 0 :: marks lv;
}.

(** Accepted and deduced literals follow from the ones recorded on the levels
    up to theirs. *)
Record deduced s lv : Prop := {
  dd_wf : tsolver_wf (base s);
  dd_depth : length (deductions_lim (base s)) = length lv;
  dd_lits a : a ∈ lits lv → has_lit s a;
  dd_pol t p : polarityMap (base s) !! t = Some p → p ≠ l_Undef →
    MkPtAsgn t p ∈ lits lv ∨ ∃ d, d ∈ th_deductions (base s) ∧ ded_lit d = MkPtAsgn t p;
  dd_ded i d : i ≤ length lv → d ∈ take (lim_at (base s) i) (th_deductions (base s)) → implied s (lits (take i lv)) (ded_lit d);
  dd_acc i a : i ≤ length lv → a ∈ accepted (take i lv) → implied s (lits (take i lv)) a;
}.

(** [c] levels were there at the last consistent check. *)
Definition settled_part c lv A : list event := take (length (lits (take c lv))) A.

Record search ph c lv A s : Prop := {
  sr_state : (ph = Ready ∧ status s = INIT ∧ unstarted s ∧ declarable Ready (settled_part c lv A) (marks lv) A s)
    ∨ (status s = SAT ∧ ph = Ready ∨ status s = UNSAT) ∧ la_ready ph (settled_part c lv A) (marks lv) A s;
  sr_recorded : recorded s lv A;
  sr_deduced : deduced s lv;
  sr_cover : c ≤ length lv;
}.

Lemma search_declarable ph c lv A s : search ph c lv A s → declarable ph (settled_part c lv A) (marks lv) A s.
Proof. by intros [[(-> & _ & _ & D)|[_ [D _ _]]] _ _ _]. Qed.

Lemma settled_all c lv A s : recorded s lv A → length lv ≤ c → settled_part c lv A = A.
Proof.
  intros R Hc. unfold settled_part. rewrite (take_ge lv) by done. apply take_ge. by rewrite (Forall2_length _ _ _ (rc_events _ _ _ R)).
Qed.

(** ** Steps *)

Lemma events_kept s s' L A : kept s s' → Forall2 (lit_event s) L A → Forall2 (lit_event s') L A.
Proof.
  intros K R. eapply Forall2_impl; [exact R|]. intros a e (Ha & b & Hb & Hv).
  destruct (gr_ba _ _ (kp_grown _ _ K) _ b Hb) as (b' & Hb' & _ & _ & Ev & _).
  split; [by apply K|]. exists b'. split; [done|congruence].
Qed.

Lemma recorded_kept s s' lv A : kept s s' → decision_trace s' = decision_trace s → dec_limit s' = dec_limit s →
  int_decisions s' = int_decisions s → recorded s lv A → recorded s' lv A.
Proof.
  intros K E1 E2 E3 [R1 R2 R3 R4]. constructor; rewrite ?E1, ?E2, ?E3; try done. by apply (events_kept s).
Qed.

Lemma deduced_same ph A0 M A s s' lv : declarable ph A0 M A s → kept s s' → base_same (base s) (base s') →
  deduced s lv → deduced s' lv.
Proof.
  intros [I _ T _] K [Bw Bl Bd Bp] [D1 D2 D3 D4 D5 D6].
  assert (∀ i a, implied s (lits (take i lv)) a → implied s' (lits (take i lv)) a) as Himp.
  { intros i a. apply (kept_implied ph A0 M A s s' _ a I T K). intros c Hc. by apply D3, (lits_take lv i). }
  constructor; rewrite ?Bl, ?Bd.
  - by apply Bw.
  - done.
  - intros a Ha. eapply kept_lit; [done|by apply D3].
  - intros t p Hp%Bp. by apply D4.
  - intros i d Hi. unfold lim_at. rewrite Bl, Bd. intros Hd. by apply Himp, D5.
  - intros i a Hi Ha. by apply Himp, D6.
Qed.

Lemma deduced_kept ph A0 M A s s' lv : declarable ph A0 M A s → kept s s' → base_ext (base s) (base s') [] →
  deduced s lv → deduced s' lv.
Proof. intros D K Be. by apply (deduced_same ph A0 M A), base_ext_same. Qed.

(** A change of the last level. *)
Lemma deduced_top ph A0 M A s s' lv x y ds : declarable ph A0 M A s → kept s s' → deduced s (lv ++ [x]) →
  (∀ a, a ∈ lits [x] → a ∈ lits [y]) → (∀ a, a ∈ lits [y] → has_lit s' a) →
  (∀ a, a ∈ lacc y → a ∈ lacc x ∨ implied s' (lits (lv ++ [y])) a) →
  tsolver_wf (base s') → deductions_lim (base s') = deductions_lim (base s) →
  th_deductions (base s') = th_deductions (base s) ++ ds → (∀ d, d ∈ ds → implied s' (lits (lv ++ [y])) (ded_lit d)) →
  (∀ t p, polarityMap (base s') !! t = Some p → p ≠ l_Undef → polarityMap (base s) !! t = Some p
    ∨ MkPtAsgn t p ∈ lits [y] ∨ ∃ d, d ∈ ds ∧ ded_lit d = MkPtAsgn t p) →
  deduced s' (lv ++ [y]).
Proof.
  intros [I _ T _] K [D1 D2 D3 D4 D5 D6] Hxy Hy Hacc Hw El Ed Hds Hpol.
  rewrite length_app in D2, D5, D6. simpl in D2, D5, D6.
  assert (∀ a, a ∈ lits (lv ++ [x]) → a ∈ lits (lv ++ [y])) as Hsub.
  { intros a. rewrite !lits_app, !elem_of_app. intros [?|?]; [by left|right; by apply Hxy]. }
  assert (∀ i a, implied s (lits (take i (lv ++ [x]))) a → implied s' (lits (take i (lv ++ [x]))) a) as Himp.
  { intros i a. apply (kept_implied ph A0 M A s s' _ a I T K). intros c Hc. by apply D3, (lits_take _ i). }
  assert (∀ i a, i ≤ length lv → implied s (lits (take i (lv ++ [x]))) a → implied s' (lits (take i (lv ++ [y]))) a) as Hlow.
  { intros i a Hi Ha%Himp. revert Ha. by rewrite !take_app_le by done. }
  assert (∀ a, implied s (lits (lv ++ [x])) a → implied s' (lits (lv ++ [y])) a) as Htop.
  { intros a Ha. apply (implied_sub s' (lits (lv ++ [x]))); [done|]. specialize (Himp (length (lv ++ [x])) a).
    rewrite take_ge in Himp by done. by apply Himp. }
  constructor; rewrite ?length_app, ?El; cbn [length]; try done.
  - intros a. rewrite lits_app, elem_of_app. intros [Ha|Ha]; [|by apply Hy]. eapply kept_lit; [done|]. apply D3.
    rewrite lits_app. apply elem_of_app. by left.
  - intros t p Hp Hu. rewrite Ed. setoid_rewrite elem_of_app. destruct (Hpol t p Hp Hu) as [Hp'|[Hp'|(d & ? & ?)]].
    + destruct (D4 t p Hp' Hu) as [Hin|(d & ? & ?)]; [left; by apply Hsub|right; exists d; tauto].
    + left. rewrite lits_app. apply elem_of_app. by right.
    + right. exists d. tauto.
  - intros i d Hi. unfold lim_at. rewrite El, Ed. destruct (decide (i = S (length lv))) as [->|Hne].
    + rewrite (lookup_ge_None_2 (deductions_lim (base s))) by lia. cbn [default from_option].
      rewrite (take_ge (_ ++ ds)), (take_ge (lv ++ _)) by (rewrite ?length_app; simpl; lia).
      intros [Hd|Hd]%elem_of_app; [|by apply Hds]. apply Htop. specialize (D5 (S (length lv)) d). revert D5. unfold lim_at.
      rewrite (lookup_ge_None_2 (deductions_lim (base s))) by lia. cbn [default from_option].
      rewrite !take_ge by (rewrite ?length_app; simpl; lia). intros D5. apply D5; [lia|done].
    + assert (i < length (deductions_lim (base s))) as [k Hk]%lookup_lt_is_Some by lia. rewrite Hk. cbn [default from_option].
      pose proof (twf_lim _ D1 i k Hk). rewrite take_app_le by done. intros Hd. apply Hlow; [lia|]. apply D5; [lia|].
      unfold lim_at. by rewrite Hk.
  - intros i a Hi Ha. destruct (decide (i = S (length lv))) as [->|Hne].
    + rewrite (take_ge (lv ++ _)) in Ha |- * by (rewrite length_app; simpl; lia).
      assert (∀ z, z ∈ accepted (lv ++ [x]) → implied s' (lits (lv ++ [y])) z) as Hold.
      { intros z Hz. apply Htop. specialize (D6 (S (length lv)) z). rewrite take_ge in D6 by (rewrite length_app; simpl; lia).
        apply D6; [lia|done]. }
      rewrite accepted_app in Ha. apply elem_of_app in Ha as [Ha|Ha].
      * apply Hold. rewrite accepted_app. apply elem_of_app. by left.
      * unfold accepted in Ha. simpl in Ha. rewrite app_nil_r in Ha. apply Hacc in Ha as [Ha|Ha]; [|done].
        apply Hold. rewrite accepted_app. apply elem_of_app. right. unfold accepted. simpl. by rewrite app_nil_r.
    + apply Hlow; [lia|]. apply D6; [lia|]. by rewrite take_app_le in Ha |- * by lia.
Qed.

(** ** Explanations *)

Lemma getAsgnByBound_ok s br b a : atoms_inv s → ba (boundStore_ s) !! br = Some b →
  LABoundRefToLeqAsgn s !! br = Some (Some a) → getAsgnByBound br s = Ok a.
Proof.
  intros T Hb Ha. destruct (ai_asgn _ T br a Ha) as (b' & _ & _ & _ & _ & Hb' & Hid & _).
  assert (b' = b) as -> by congruence. unfold getAsgnByBound, get_bound, at_. rewrite Hb. cbn [rbind]. by rewrite Hid, Ha.
Qed.

Lemma storeExplanation_wp s (e : Explanation N) : atoms_inv s → (∀ x, x ∈ e → is_Some (ba (boundStore_ s) !! boundref x)) →
  wp no_error (λ s', ∃ es, s' = with_expl es (ecoeff <$> e) s
    ∧ Forall2 (λ x a, LABoundRefToLeqAsgn s !! boundref x = Some (Some a)) e es) (storeExplanation e s).
Proof.
  intros T Hall. unfold storeExplanation. apply wp_bind.
  eapply wp_mono; [apply (foldM_wp no_error _ (λ pre _ st, st.2 = ecoeff <$> pre
    ∧ Forall2 (λ x a, LABoundRefToLeqAsgn s !! boundref x = Some (Some a)) pre st.1))|].
  - done.
  - intros pre x post [es cs] El [Ec Hes]. cbn [fst snd] in *. destruct (Hall x) as [b Hb]; [rewrite El; set_solver|].
    destruct (ai_all _ T _ b Hb) as [a Ha]. rewrite (getAsgnByBound_ok s _ b a T Hb Ha). cbn [rbind wp fst snd].
    split; [by rewrite Ec, fmap_app|]. by apply Forall2_app, Forall2_cons.
  - intros [es cs] [Ec Hes]. cbn [fst snd] in *. subst cs. by exists es.
Qed.

(** No integer values satisfy the literals. *)
Definition refuted (l : ArithLogic N) L : Prop := ∀ ρ, integral l ρ → ¬ ∀ a, a ∈ L → la_lit_holds l ρ a.

Lemma refuted_mono (l : ArithLogic N) L L' : (∀ a, a ∈ L → a ∈ L') → refuted l L → refuted l L'.
Proof. intros HL Hr ρ Hi Ha. apply (Hr ρ Hi). intros a Hin. by apply Ha, HL. Qed.

Lemma rat_bound_embed (ρ' : LVRef → Qc) (b : LABound N) : rat_bound ρ' b → bound_holds (embed ρ') b.
Proof.
  intros Hb. destruct (rational_solution (Tableau_init (N := N)) (MkLABoundStore [] [b] [] []) [Ev (lvref b) 0 true] ρ') as [_ Hh].
  - intros v p Hp. by destruct v.
  - intros e b' ->%list_elem_of_singleton [= <-]. done.
  - apply (Hh (Ev (lvref b) 0 true) b); [by left|done].
Qed.

Lemma explained s ph A0 M A (e : Explanation N) es : declarable ph A0 M A s → farkas (boundStore_ s) (tableau (simplex s)) e →
  Forall2 (λ x a, LABoundRefToLeqAsgn s !! boundref x = Some (Some a)) e es → refuted (logic s) es.
Proof.
  intros [I _ T _] F Hes ρ Hi Hall. apply (farkas_refutes _ _ e (embed (tv s ρ)) F).
  - apply rat_solution_embed, I.
  - intros x b Ht Hb. apply list_elem_of_lookup in Ht as [i Ht].
    destruct (Forall2_lookup_l _ _ _ i x Hes Ht) as (a & Ha & Hla). apply list_elem_of_lookup_2 in Ha.
    destruct (lit_bound_true s ρ a T) as (br & b' & Hbr & Hb' & Hr); [by exists (boundref x)|done|by apply Hall|].
    assert (br = boundref x) as -> by (by eapply lit_unique). assert (b' = b) as -> by congruence.
    by apply rat_bound_embed.
Qed.

(** The literals of an explanation were recorded. *)
Lemma explained_lits s lv A (e : Explanation N) es : recorded s lv A →
  (∀ x, x ∈ e → ∃ ev, ev ∈ A ∧ ev_bound ev = boundref x) →
  Forall2 (λ x a, LABoundRefToLeqAsgn s !! boundref x = Some (Some a)) e es → ∀ a, a ∈ es → a ∈ lits lv.
Proof.
  intros R He Hes a [i Hi]%list_elem_of_lookup. destruct (Forall2_lookup_r _ _ _ i a Hes Hi) as (x & Ht & Ha).
  destruct (He x) as (ev & [j Hj]%list_elem_of_lookup & Eb); [by eapply list_elem_of_lookup_2|].
  destruct (Forall2_lookup_r _ _ _ j ev (rc_events _ _ _ R) Hj) as (a' & Ha' & Hla & _). rewrite Eb in Hla.
  assert (a' = a) as -> by congruence. by eapply list_elem_of_lookup_2.
Qed.

(** ** Deductions *)

(** The bounds below a lower bound and above an upper bound follow from it. *)
Lemma weaker_bound s v br br' b b' l i j (ρ' : LVRef → Qc) : store_inv (boundStore_ s) → sharp (ba (boundStore_ s)) →
  bounds (boundStore_ s) !! v = Some l → l !! i = Some br → l !! j = Some br' →
  ba (boundStore_ s) !! br = Some b → ba (boundStore_ s) !! br' = Some b' → type b' = type b →
  (match type b with bound_l => j ≤ i | bound_u => i ≤ j end) → rat_bound ρ' b → rat_bound ρ' b'.
Proof.
  intros Hst Hsh Hl Hi Hj Hb Hb' Ht Hij. pose proof (so_lists _ (vi_store _ Hst) v l Hl) as [B1 B2 _].
  destruct (B1 br) as (c & Hc & Ev); [by eapply list_elem_of_lookup_2|]. assert (c = b) as -> by congruence.
  destruct (B1 br') as (c & Hc' & Ev'); [by eapply list_elem_of_lookup_2|]. assert (c = b') as -> by congruence.
  pose proof (Hsh br' b' Hb') as Hs. unfold rat_bound. rewrite Ht, Ev, Ev' in *. destruct (type b) eqn:E.
  - pose proof (B2 j i br' br Hij Hj Hi) as Hle. unfold bval in Hle. rewrite Hb, Hb' in Hle. by apply lower_mono.
  - pose proof (B2 i j br br' Hij Hi Hj) as Hle. unfold bval in Hle. rewrite Hb, Hb' in Hle. by apply upper_mono.
Qed.

(** The solver with more deductions. *)
Definition more_deduced L s s' : Prop := ∃ b ds, s' = with_base b s ∧ base_ext (base s) b ds ∧ ∀ d, d ∈ ds → implied s L (ded_lit d).

Lemma deduce_wp L s s' br b a : atoms_inv s → ba (boundStore_ s) !! br = Some b → LABoundRefToLeqAsgn s !! br = Some (Some a) →
  implied s L a → more_deduced L s s' → wp no_error (more_deduced L s) (deduce br s').
Proof.
  intros T Hb Ha Hi (b0 & ds & -> & E & Hds). unfold deduce.
  assert (getAsgnByBound br (with_base b0 s) = getAsgnByBound br s) as -> by done.
  rewrite (getAsgnByBound_ok s br b a T Hb Ha). cbn [rbind]. destruct (hasPolarity _ _); cbn [wp]; [by exists b0, ds|].
  eexists _, (ds ++ [_]). split; [reflexivity|]. split; [by apply base_ext_store|].
  intros d [Hd| ->%list_elem_of_singleton]%elem_of_app; [by apply Hds|]. by destruct a.
Qed.

Lemma deduce_at_wp L s s' v br b a l i j : store_inv (boundStore_ s) → atoms_inv s → bounds (boundStore_ s) !! v = Some l →
  l !! i = Some br → ba (boundStore_ s) !! br = Some b → LABoundRefToLeqAsgn s !! br = Some (Some a) → a ∈ L → j < length l →
  (match type b with bound_l => j ≤ i | bound_u => i ≤ j end) → more_deduced L s s' →
  wp no_error (more_deduced L s) (deduce_at v (type b) s' j).
Proof.
  intros Hst T Hl Hi Hb Ha HL Hj Hij Hm. pose proof Hm as (b0 & ds & -> & _ & _). unfold deduce_at.
  change (boundStore_ (with_base b0 s)) with (boundStore_ s).
  apply lookup_lt_is_Some in Hj as [br' Hj]. unfold getBoundByIdx, getBounds, at_. rewrite Hl. cbn [rbind].
  rewrite (proj2 (Nat.ltb_lt _ _)) by by eapply lookup_lt_Some. cbn [check rbind]. rewrite Hj. cbn [rbind].
  destruct (bo_alloc _ _ _ (so_lists _ (vi_store _ Hst) v l Hl) br') as (b' & Hb' & _); [by eapply list_elem_of_lookup_2|].
  unfold get_bound, at_. rewrite Hb'. cbn [rbind]. destruct (decide (type b' = type b)) as [Et|]; [|done].
  destruct (ai_all _ T br' b' Hb') as [a' Ha']. apply (deduce_wp L s _ br' b' a' T Hb' Ha'); [|done].
  split; [by exists br'|]. intros ρ Hρ. destruct (Hρ a HL) as (br2 & b2 & Ha2 & Hb2 & Hr2).
  assert (br2 = br) as -> by (by eapply lit_unique). assert (b2 = b) as -> by congruence.
  exists br', b'. split; [done|]. split; [done|].
  eapply (weaker_bound s v br br' b b' l i j); try done. apply (ai_sharp _ T).
Qed.

Lemma getSimpleDeductions_wp L s v br b a l : store_inv (boundStore_ s) → atoms_inv s → bounds (boundStore_ s) !! v = Some l →
  br ∈ l → ba (boundStore_ s) !! br = Some b → LABoundRefToLeqAsgn s !! br = Some (Some a) → a ∈ L →
  wp no_error (more_deduced L s) (getSimpleDeductions v br s).
Proof.
  intros Hst T Hl [i Hi]%list_elem_of_lookup Hb Ha HL. pose proof (so_lists _ (vi_store _ Hst) v l Hl) as [_ _ B3].
  unfold getSimpleDeductions, get_bound, at_ at 1. rewrite Hb. cbn [rbind]. rewrite (B3 i br b Hi Hb).
  assert (more_deduced L s s) as H0.
  { exists (base s), []. split; [by destruct s|]. split; [apply base_ext_refl|]. by intros d ?%not_elem_of_nil. }
  pose proof (lookup_lt_Some _ _ _ Hi).
  assert (∀ js, (∀ j, j ∈ js → j < length l ∧ match type b with bound_l => j ≤ i | bound_u => i ≤ j end) →
    wp no_error (more_deduced L s) (foldM (deduce_at v (type b)) s js)) as Hloop.
  { intros js Hjs. apply (foldM_wp no_error _ (λ _ _ s', more_deduced L s s')); [done|].
    intros pre j post s' El Hm. destruct (Hjs j) as [? ?]; [rewrite El; set_solver|].
    by apply (deduce_at_wp L s s' v br b a l i j). }
  destruct (type b).
  - apply Hloop. intros j [_ Hj]%elem_of_reverse%elem_of_seq. lia.
  - unfold getBounds, at_. rewrite Hl. cbn [rbind]. apply Hloop. intros j [? Hj]%elem_of_seq. lia.
Qed.

End trail.
