(* ===== verification/LASteps.v ===== *)
(** * Levels, literals and checks

    [pushBacktrackPoint], [assertLit] and [check] keep the invariant of the
    search; a refused literal and a failed check leave a conflict: recorded
    literals no integer values satisfy together.
    Then: backtracking. *)
From stdpp Require Import gmap.
From S2P Require Import Prelude Gmp FastRationalInt Number Lex Delta Polynomial Tableau TableauFacts LABounds LABuild LRAModel Simplex.
From S2P Require Import SimplexSelect SimplexClient SimplexSession SimplexTheorems Terms TSolver ArithTerms LASolver LAMapper LARegister.
From S2P Require Import LAAtoms LADeclare LASearch.
From Stdlib Require Import Lia.

#[local] Open Scope nat_scope.

Section steps.
Context {N : Type} `{Number N}.
Implicit Types (s : LASolver N) (leq : PTRef) (v : LVRef) (br : LABoundRef) (a : PtAsgn) (ρ : PTRef → Qc)
  (A : list event) (M : list nat) (L : list PtAsgn) (lv : list Level) (x y : Level).

Lemma lits_one x : lits [x] = option_list (lrec x).
Proof. unfold lits. simpl. by destruct (lrec x). Qed.

Lemma search_ready c lv A ph s : search ph c lv A s → status s ≠ INIT → la_ready ph (settled_part c lv A) (marks lv) A s.
Proof. by intros [[(_ & ? & _)|[_ R]] _ _ _]. Qed.

Lemma search_length ph c lv A s : search ph c lv A s → length A = length (lits lv).
Proof. intros R. symmetry. apply (Forall2_length _ _ _ (rc_events _ _ _ (sr_recorded _ _ _ _ _ R))). Qed.

(** A change of the other fields. *)
Lemma search_fields ph c lv A s s' : search ph c lv A s → core s' = core s → decision_trace s' = decision_trace s →
  dec_limit s' = dec_limit s → int_decisions s' = int_decisions s → base_ext (base s) (base s') [] →
  status s ≠ INIT → status s' = SAT ∧ ph = Ready ∨ status s' = UNSAT → search ph c lv A s' ∧ kept s s'.
Proof.
  intros R E E1 E2 E3 Be Hst Hst'. pose proof (search_declarable _ _ _ _ _ R) as D.
  pose proof (core_kept _ _ _ _ s s' E D) as K. split; [|done]. constructor; [right; split; [done|]|..].
  - apply (core_ready _ _ _ _ s); [done|by apply search_ready].
  - apply (recorded_kept s s'); [done..|apply R].
  - apply (deduced_kept _ _ _ _ s s' lv D K Be). apply R.
  - apply R.
Qed.

(** ** [initSolver] *)

Section order.
Context (order : list BoundInfo → list LVRef) (Order : ∀ infos, keys_of infos (order infos)).

Lemma unstarted_no_lit s br a : atoms_inv s → unstarted s → LABoundRefToLeqAsgn s !! br ≠ Some (Some a).
Proof. intros T (_ & Hnp & _) Ha. destruct (ai_back _ T br a Ha) as (p & Hp & _). destruct (Hnp (tr a)). by exists p. Qed.

Lemma ensure_search c lv A s : search Ready c lv A s → status s ≠ UNSAT →
  wp no_error (λ s', search Ready c lv A s' ∧ status s' = SAT ∧ kept s s' ∧ base s' = base s) (ensure_init order s).
Proof.
  intros R Hu. pose proof (sr_state _ _ _ _ _ R) as [(_ & Est & U & D)|[[[Est _]|Est] R0]]; [| |done].
  - unfold ensure_init. rewrite Est. eapply wp_mono; [by apply initSolver_wp|]. intros s' (R' & G & Ef).
    pose proof R' as [[I' _ T' _] _ _].
    assert (kept s s') as K.
    { constructor; [done| |apply I'|done]. intros br a Ha. by destruct (unstarted_no_lit s br a (de_atoms _ _ _ _ _ D) U). }
    unfold frame in Ef. simpl in Ef. injection Ef as E1 E2 E3 E4 E5 E6 E7 E8. split; [|done].
    constructor; [right; split; [by left|done]| | |apply R].
    + apply (recorded_kept s s'); [done..|apply R].
    + apply (deduced_kept _ _ _ _ s s' lv D K); [rewrite E1; apply base_ext_refl|apply R].
  - unfold ensure_init. rewrite Est. cbn [wp]. split; [done|]. split; [done|]. split; [|done].
    by apply (core_kept _ _ _ _ s s (eq_refl _) (lr_declarable _ _ _ _ _ R0)).
Qed.

End order.

(** ** The bound of a literal *)

Lemma getVarForLeq_ok s leq so c t xs v : atom (logic s) leq so c t xs → mapped (ptermToLavar s) t v → getVarForLeq leq s = Ok v.
Proof.
  intros (k & H1 & H2 & Hl & _) Hm. unfold getVarForLeq, leqToConstantAndTerm, a_isLeq, argOf.
  rewrite (test_ok _ _ _ _ H1), !(at_pterms _ _ _ H1). cbn [rbind nsym is_LEQ check nargs at_ lookup list_lookup snd].
  unfold getVarByPTId, at_. by rewrite Hm.
Qed.

(** The bound a literal stands for, with its variable. *)
Record stands_for s a v br : Prop := {
  sf_leq : getVarForLeq (tr a) s = Ok v;
  sf_asgn : LABoundRefToLeqAsgn s !! br = Some (Some a);
  sf_ba : ∃ b, ba (boundStore_ s) !! br = Some b ∧ lvref b = v;
  sf_known : known (boundStore_ s) v br;
  sf_type : type_of (tableau (simplex s)) v ≠ NONE;
}.

Lemma literal_bound ph A0 M A s a : la_ready ph A0 M A s → tr a ∈ informed_PTRefs (base s) → sgn a ≠ l_Undef →
  ∃ p v, getBoundRefPair (tr a) s = Ok p ∧ stands_for s a v (if decide (sgn a = l_False) then p.2 else p.1).
Proof.
  intros [[I Hc T _] Hk Hp] Hin Hs. destruct (Hp _ Hin) as [p Ep]. destruct (ai_pair _ T _ p Ep) as (A1 & A2 & i & Hi & Hpi).
  destruct (Hk i Hi) as [K1 K2]. assert (store_inv (boundStore_ s)) as Hst by exact (session_store _ _ _ _ _ (ri_session _ _ _ _ _ I)).
  exists p, (bi_v i). split; [unfold getBoundRefPair, at_; by rewrite Ep|].
  set (br := if decide (sgn a = l_False) then p.2 else p.1).
  assert (LABoundRefToLeqAsgn s !! br = Some (Some a)) as Ha.
  { unfold br. destruct a as [t [| |]]; cbn [sgn tr] in *; [|by rewrite decide_True|done]. by rewrite decide_False. }
  assert (known (boundStore_ s) (bi_v i) br) as Kb.
  { unfold br. destruct Hpi as [-> | ->]; simpl; by destruct (decide _). }
  clearbody br. destruct (known_alloc _ _ _ (vi_store _ Hst) Kb) as (b & Hb & Hv).
  destruct (ai_asgn _ T br a Ha) as (b' & so & c & t & xs & Hb' & _ & Hat & Hm & _).
  assert (b' = b) as -> by congruence. rewrite <- Hv in *.
  constructor; [by eapply getVarForLeq_ok|done|by exists b|done|].
  destruct (mp_back _ _ _ (ri_map _ _ _ _ _ I) t _ Hm) as (t0 & _ & _ & Hn & _). by eapply Hc.
Qed.

(** ** [pushBacktrackPoint] *)

Definition new_level : Level := MkLevel None [].

Lemma settled_snoc c lv x A : c ≤ length lv → settled_part c (lv ++ [x]) A = settled_part c lv A.
Proof. intros Hc. unfold settled_part. by rewrite take_app_le. Qed.

Lemma lits_new lv : lits (lv ++ [new_level]) = lits lv.
Proof. rewrite lits_app. apply app_nil_r. Qed.

Lemma deduced_push ph A0 M A s s' lv : declarable ph A0 M A s → kept s s' → base s' = TSolver_pushBacktrackPoint (base s) →
  deduced s lv → deduced s' (lv ++ [new_level]).
Proof.
  intros [I _ T _] K Eb [D1 D2 D3 D4 D5 D6].
  assert (∀ i a, implied s (lits (take i lv)) a → implied s' (lits (take i lv)) a) as Himp.
  { intros i a. apply (kept_implied ph A0 M A s s' _ a I T K). intros c Hc. by apply D3, (lits_take lv i). }
  constructor; rewrite ?Eb, ?lits_new; cbn [TSolver_pushBacktrackPoint polarityMap th_deductions deductions_lim].
  - by apply push_wf.
  - rewrite !length_app. simpl. lia.
  - intros a Ha. eapply kept_lit; [done|by apply D3].
  - exact D4.
  - intros i d Hi. rewrite length_app in Hi. simpl in Hi. unfold lim_at. cbn [TSolver_pushBacktrackPoint th_deductions deductions_lim].
    assert (i = S (length lv) ∨ i ≤ length lv) as [-> |Hle] by lia.
    + rewrite (lookup_ge_None_2 (deductions_lim (base s) ++ _)) by (rewrite length_app; simpl; lia). cbn [default from_option].
      rewrite take_ge, (take_ge (lv ++ _)), lits_new by (rewrite ?length_app; simpl; lia). intros Hd.
      specialize (Himp (length lv)). rewrite take_ge in Himp by done. apply Himp.
      specialize (D5 (length lv) d). unfold lim_at in D5. rewrite lookup_ge_None_2 in D5 by lia. cbn [default from_option] in D5.
      rewrite !take_ge in D5 by done. by apply D5.
    + rewrite take_app_le by done. intros Hd. apply Himp, D5; [done|]. unfold lim_at.
      destruct (decide (i = length lv)) as [->|Hne].
      * rewrite <- D2, list_lookup_middle in Hd by done. rewrite lookup_ge_None_2 by lia. exact Hd.
      * rewrite lookup_app_l in Hd by lia. exact Hd.
  - intros i a Hi. rewrite length_app in Hi. simpl in Hi. assert (i = S (length lv) ∨ i ≤ length lv) as [-> |Hle] by lia.
    + rewrite !take_ge, lits_new, accepted_app by (rewrite length_app; simpl; lia). unfold accepted at 2. simpl. rewrite app_nil_r.
      intros Ha. specialize (Himp (length lv)). specialize (D6 (length lv) a). rewrite take_ge in Himp, D6 by done.
      by apply Himp, D6.
    + rewrite take_app_le by done. intros Ha. by apply Himp, D6.
Qed.

Lemma push_search c lv A s : search Ready c lv A s → status s ≠ UNSAT →
  search Ready c (lv ++ [new_level]) A (LA_pushBacktrackPoint s) ∧ kept s (LA_pushBacktrackPoint s).
Proof.
  intros R Hu. set (s' := LA_pushBacktrackPoint s). set (s1 := with_simplex (Simplex_pushBacktrackPoint (simplex s)) s).
  pose proof (search_declarable _ _ _ _ _ R) as D. pose proof R as [St Rc Dd Hc].
  assert (core s' = core s1) as E1 by done.
  assert (simplex_step (simplex s) (Simplex_pushBacktrackPoint (simplex s))) as X by done.
  assert (session Ready (settled_part c lv A) (marks (lv ++ [new_level])) A (Simplex_pushBacktrackPoint (simplex s))) as Hs.
  { rewrite marks_snoc, <- (search_length _ _ _ _ _ R). apply ses_pushBacktrackPoint, D. }
  pose proof (declarable_step _ _ _ _ s _ _ _ _ _ D Hs X) as D1.
  assert (kept s s') as K.
  { constructor; [|done|apply D|apply (core_atoms s1 s' E1), D1]. constructor; [apply logic_le_refl|done|done|apply ba_le_refl]. }
  split; [|done]. constructor.
  - rewrite settled_snoc by done. destruct St as [(_ & Est & U & _)|(Est & R0)].
    + left. split; [done|]. split; [done|]. split; [done|]. by apply (core_declarable _ _ _ _ s1).
    + right. split; [done|]. apply (core_ready _ _ _ _ s1); [done|]. by apply (ready_step _ _ _ _ s _ _ _ _ _ R0 Hs X).
  - destruct Rc as [R1 R2 R3 R4]. constructor; rewrite ?lits_new; try done.
    change (dec_limit s') with (dec_limit s ++ [length (decision_trace s)]). by rewrite R4, R2, marks_snoc.
  - by apply (deduced_push _ _ _ _ s s' lv D K).
  - rewrite length_app. lia.
Qed.

(** ** [assertLit] *)

(** A conflict: an explanation of literals among [L]. *)
Record conflict s L : Prop := {
  cf_lits a : a ∈ LA_getConflict s → a ∈ L;
  cf_refuted : refuted (logic s) (LA_getConflict s);
  cf_nonempty : LA_getConflict s ≠ [];
  cf_explanation : has_explanation (base s) = true;
}.

Lemma assertBound_wp A0 M A s a v br : la_ready Ready A0 M A s → status s = SAT → stands_for s a v br →
  wp no_error (λ r, (r.1 = true ∧ ∃ z p, r.2 = with_expl [] [] (with_simplex z s) ∧ simplex_step (simplex s) z
        ∧ session Ready A0 M (A ++ [Ev v br p]) z)
      ∨ r.1 = false ∧ ∃ e es, r.2 = with_base (with_explanation (base s) true) (with_status UNSAT (with_expl es (ecoeff <$> e) s))
        ∧ explains (simplex s) (A ++ [Ev v br true]) e ∧ e ≠ []
        ∧ Forall2 (λ t a, LABoundRefToLeqAsgn s !! boundref t = Some (Some a)) e es) (LA_assertBoundOnVar v br s).
Proof.
  intros R Est S. pose proof R as [[I Hc T Hinf] Hk Hp]. pose proof (ri_session _ _ _ _ _ I) as Hs.
  pose proof (ss_state _ _ _ _ _ (session_holds _ _ _ _ _ Hs)) as Id. simpl in Id.
  unfold LA_assertBoundOnVar. rewrite bool_decide_true by done. cbn [check rbind].
  pose proof (assertBoundOnVar_wp no_error A0 M A v br (simplex s) Id (sf_type _ _ _ _ S) (sf_known _ _ _ _ S)) as Hw.
  apply wp_total in Hw as ([e z] & E & Hr). rewrite E. cbn [rbind fst snd] in *.
  destruct Hr as [(-> & Eb & Hsol & Hno & p & _)|(He & -> & Hx)].
  - cbn [storeExplanation foldM rbind fst snd explanation with_expl]. unfold getStatus. cbn [with_expl with_simplex status].
    rewrite Est. cbn [wp fst snd]. left. split; [done|]. eexists z, _. split; [done|]. split; [done|].
    eapply ses_assert; [exact Hs|apply S|apply S|exact E].
  - assert (with_simplex (simplex s) s = s) as -> by by destruct s.
    pose proof (storeExplanation_wp s e T) as Hw. apply wp_total in Hw as (s' & Es & es & -> & Hes); [|intros t Ht; by apply (fk_pos _ _ _ (proj1 Hx))].
    rewrite Es. cbn [rbind explanation with_expl].
    destruct es as [|a' es]; [by apply Forall2_nil_inv_r in Hes|]. cbn. right. split; [done|]. by exists e, (a' :: es).
Qed.

Lemma settled_min c lv x y A B : lrec x = None → length A = length (lits (lv ++ [x])) → c ≤ length (lv ++ [x]) →
  settled_part (Nat.min c (length lv)) (lv ++ [y]) (A ++ B) = settled_part c (lv ++ [x]) A.
Proof.
  intros Hx HA Hc. unfold settled_part. rewrite (take_app_le lv [y]) by lia.
  assert (length (lits (take c (lv ++ [x]))) = length (lits (take (Nat.min c (length lv)) lv))) as ->.
  { destruct (decide (c ≤ length lv)) as [Hle|Hgt]; [by rewrite take_app_le, Nat.min_l by done|].
    rewrite Nat.min_r, (take_ge lv), take_ge, lits_app, lits_one, Hx by (rewrite ?length_app in *; simpl in *; lia).
    simpl. by rewrite app_nil_r. }
  rewrite take_app_le; [done|]. rewrite HA, lits_app, lits_one, Hx, app_nil_r.
  apply lits_take_le.
Qed.

(** The state in which a literal is recorded. *)
Definition record_lit a z s : LASolver N :=
  pushDecision a (with_base (setPolarity (base s) (tr a) (sgn a)) (with_expl [] [] (with_simplex z s))).

Lemma record_search c lv x A s a v br z p : search Ready c (lv ++ [x]) A s → status s = SAT → lrec x = None →
  stands_for s a v br → simplex_step (simplex s) z →
  session Ready (settled_part c (lv ++ [x]) A) (marks (lv ++ [x])) (A ++ [Ev v br p]) z →
  wp no_error (λ s', kept s s' ∧ status s' = SAT
    ∧ search Ready (Nat.min c (length lv)) (lv ++ [MkLevel (Some a) (lacc x ++ [a])]) (A ++ [Ev v br p]) s')
    (getSimpleDeductions v br (record_lit a z s)).
Proof.
  intros Sr Est Hx Sf X Hs. pose proof (search_ready _ _ _ _ _ Sr ltac:(congruence)) as R. pose proof (search_length _ _ _ _ _ Sr) as HA.
  pose proof Sr as [_ Rc Dd Hc]. set (y := MkLevel (Some a) (lacc x ++ [a])). set (e := Ev v br p) in *.
  destruct (ready_step _ _ _ _ s _ _ _ _ _ R Hs X) as [R1 K1]. set (s1 := with_simplex z s) in *.
  set (s3 := record_lit a z s). assert (core s3 = core s1) as E3 by done.
  pose proof (core_ready _ _ _ _ s1 s3 E3 R1) as R3. pose proof R3 as [[I3 _ T3 _] _ _].
  destruct Sf as [Hleq Has (b & Hb & Hbv) (l & Hl & Hin) _].
  assert (boundStore_ s3 = boundStore_ s) as Ebs by apply X. rewrite <- Ebs in Hl.
  assert (ba (boundStore_ s3) !! br = Some b) as Hb3 by by rewrite Ebs.
  assert (lits (lv ++ [y]) = lits (lv ++ [x]) ++ [a]) as Ey by (rewrite !lits_app, !lits_one, Hx; by rewrite app_nil_r).
  eapply wp_mono; [apply (getSimpleDeductions_wp (lits (lv ++ [y])) s3 v br b a l (session_store _ _ _ _ _ (ri_session _ _ _ _ _ I3)) T3 Hl Hin Hb3 Has)|].
  { rewrite Ey. set_solver. }
  intros s4 (b4 & ds & -> & Be & Hds). set (s4 := with_base b4 s3).
  assert (core s4 = core s3) as E4 by (unfold core; simpl; by rewrite (be_informed _ _ _ Be)).
  pose proof (core_ready _ _ _ _ s3 s4 E4 R3) as R4.
  assert (kept s3 s4) as K34 by exact (core_kept _ _ _ _ s3 s4 E4 (lr_declarable _ _ _ _ _ R3)).
  assert (kept s s3) as K3 by (eapply la_kept_trans; [exact K1|]; exact (core_kept _ _ _ _ s1 s3 E3 (lr_declarable _ _ _ _ _ R1))).
  assert (kept s s4) as K by by eapply la_kept_trans.
  split; [done|]. split; [done|]. constructor.
  - right. split; [by left|]. rewrite (settled_min c lv x y A [e]) by (try done; apply Hc). by rewrite marks_snoc in R4 |- *.
  - destruct Rc as [C1 C2 C3 C4]. constructor; rewrite ?Ey.
    + apply Forall2_app; [by apply (events_kept s)|]. apply Forall2_cons. split; [|done]. split; [by apply K|]. by exists b.
    + change (decision_trace s4) with (decision_trace s ++ [a]). by rewrite C2.
    + change (int_decisions s4) with (int_decisions s ++ [(a, LA_backtrackLevel s)]). by rewrite fmap_app, C3.
    + change (dec_limit s4) with (dec_limit s). by rewrite C4, !marks_snoc.
  - apply (deduced_top _ _ _ _ s s4 lv x y ds (lr_declarable _ _ _ _ _ R) K Dd).
    + rewrite lits_one, Hx. by intros a' ?%not_elem_of_nil.
    + intros a' ->%list_elem_of_singleton. exists br. by apply K.
    + intros a' [?| ->%list_elem_of_singleton]%elem_of_app; [by left|]. right. apply implied_in; [exists br; by apply K|].
      rewrite Ey. set_solver.
    + apply (be_wf _ _ _ Be). destruct (dd_wf _ _ Dd). by constructor.
    + exact (be_lim _ _ _ Be).
    + exact (be_ded _ _ _ Be).
    + intros d Hd. apply (kept_implied _ _ _ _ s3 s4 _ _ I3 T3 K34); [|by apply Hds].
      intros a' Ha'. rewrite Ey in Ha'. apply elem_of_app in Ha' as [Ha'| ->%list_elem_of_singleton]; [|by exists br].
      by apply (kept_lit s), Dd.
    + intros t q [Hq|Hq]%(be_pol _ _ _ Be) Hu; [|by right; right]. revert Hq. simpl.
      destruct (decide (tr a = t)) as [<-|Hne]; [rewrite lookup_insert_eq; intros [= <-]; right; left|rewrite lookup_insert_ne by done; by left].
      destruct a. by left.
  - rewrite length_app. simpl. lia.
Qed.

(** A literal that follows from the recorded ones is accepted. *)
Lemma accept_search c lv x A s a : search Ready c (lv ++ [x]) A s → status s = SAT → lrec x = None → implied s (lits lv) a →
  search Ready (Nat.min c (length lv)) (lv ++ [MkLevel None (lacc x ++ [a])]) A s.
Proof.
  intros Sr Est Hx Hi. pose proof (search_ready _ _ _ _ _ Sr ltac:(congruence)) as R. pose proof (search_length _ _ _ _ _ Sr) as HA.
  pose proof Sr as [_ Rc Dd Hc]. set (y := MkLevel None (lacc x ++ [a])).
  assert (lits (lv ++ [y]) = lits (lv ++ [x])) as Ey by (by rewrite !lits_app, !lits_one, Hx).
  pose proof (settled_min c lv x y A [] Hx HA Hc) as Es. rewrite app_nil_r in Es. constructor.
  - right. split; [by left|]. rewrite Es. by rewrite marks_snoc in R |- *.
  - destruct Rc as [C1 C2 C3 C4]. constructor; rewrite ?Ey; try done. by rewrite C4, !marks_snoc.
  - apply (deduced_top _ _ _ _ s s lv x y [] (lr_declarable _ _ _ _ _ R)); try done.
    + by apply (core_kept _ _ _ _ s s (eq_refl _) (lr_declarable _ _ _ _ _ R)).
    + rewrite lits_one, Hx. by intros a' ?%not_elem_of_nil.
    + by intros a' ?%not_elem_of_nil.
    + intros a' [?| ->%list_elem_of_singleton]%elem_of_app; [by left|]. right. apply (implied_sub s (lits lv)); [|done].
      intros a'. rewrite lits_app, elem_of_app. by left.
    + apply Dd.
    + by rewrite app_nil_r.
    + by intros d ?%not_elem_of_nil.
    + by left.
  - rewrite length_app. simpl. lia.
Qed.

(** What [assertLit] leaves. *)
Definition asserted_lit c lv x A s a (ok : bool) s' : Prop := kept s s' ∧ if ok
  then status s' = SAT ∧ ∃ o A', (o = Some a ∨ o = None ∧ implied s' (lits lv) a)
    ∧ search Ready (Nat.min c (length lv)) (lv ++ [MkLevel o (lacc x ++ [a])]) A' s'
  else status s' = UNSAT ∧ search Ready c (lv ++ [x]) A s' ∧ conflict s' (lits lv ++ [a]).

Lemma refuse_search c lv x A s a v br e es : search Ready c (lv ++ [x]) A s → status s = SAT → lrec x = None → stands_for s a v br →
  explains (simplex s) (A ++ [Ev v br true]) e → e ≠ [] →
  Forall2 (λ t a, LABoundRefToLeqAsgn s !! boundref t = Some (Some a)) e es →
  asserted_lit c lv x A s a false (with_base (with_explanation (base s) true) (with_status UNSAT (with_expl es (ecoeff <$> e) s))).
Proof.
  intros Sr Est Hx Sf [F He] Hne Hes. set (s' := with_base _ _).
  destruct (search_fields Ready c (lv ++ [x]) A s s' Sr) as [Sr' K]; try done; [|congruence|by right|].
  { constructor; try done; [apply with_explanation_wf|by rewrite app_nil_r|by left]. }
  split; [done|]. split; [done|]. split; [done|]. pose proof (search_declarable _ _ _ _ _ Sr) as D.
  constructor; [|by eapply (explained s)| |done].
  - intros a' Ha'. change (LA_getConflict s') with es in Ha'.
    assert (recorded (record_lit a (simplex s) s) (lv ++ [MkLevel (Some a) []]) (A ++ [Ev v br true])) as Rc.
    { pose proof (sr_recorded _ _ _ _ _ Sr) as [C1 C2 C3 C4]. rewrite lits_app, lits_one, Hx, app_nil_r in C1, C2, C3.
      constructor; rewrite ?lits_app, ?lits_one; simpl.
      - apply Forall2_app; [exact C1|]. apply Forall2_cons. split; [|done]. split; [apply Sf|]. destruct Sf as [_ _ (b & ? & ?) _ _]. by exists b.
      - by rewrite C2.
      - by rewrite fmap_app, C3.
      - by rewrite C4, !marks_snoc. }
    pose proof (explained_lits _ _ _ e es Rc He Hes a' Ha') as Hin. by rewrite lits_app, lits_one in Hin.
  - intros E. change (LA_getConflict s') with es in E. rewrite E in Hes. by apply Forall2_nil_inv_r in Hes.
Qed.

Lemma hasPolarity_lit b t p : hasPolarity b t = true → getPolarity b t = p → polarityMap b !! t = Some p ∧ p ≠ l_Undef.
Proof.
  unfold hasPolarity, getPolarity. destruct (polarityMap b !! t) as [q|]; [|done]. simpl.
  intros Hp <-. split; [done|]. intros ->. by rewrite bool_decide_true in Hp.
Qed.

Lemma assert_search order c lv x A s a : (∀ infos, keys_of infos (order infos)) → search Ready c (lv ++ [x]) A s → status s ≠ UNSAT →
  lrec x = None → tr a ∈ informed_PTRefs (base s) → sgn a ≠ l_Undef → tr a ≠ term_TRUE (logic s) → tr a ≠ term_FALSE (logic s) →
  wp no_error (λ r, asserted_lit c lv x A s a r.1 r.2) (LA_assertLit order a s).
Proof.
  intros Order Sr Hu Hx Hin Hs Ht Hf. unfold LA_assertLit. rewrite (bool_decide_false (sgn a = l_Undef)) by done.
  cbn [negb check rbind]. rewrite !decide_False by tauto. apply wp_bind.
  eapply wp_mono; [by apply (ensure_search order Order c (lv ++ [x]) A s)|]. intros s1 (S1 & Est & K & Eb).
  rewrite <- Eb in Hin. pose proof (search_ready _ _ _ _ _ S1 ltac:(congruence)) as R1.
  destruct (hasPolarity (base s1) (tr a) && bool_decide (getPolarity (base s1) (tr a) = sgn a)) eqn:Ep.
  - apply andb_prop in Ep as [Ep Ep'%bool_decide_eq_true]. unfold getStatus. rewrite Est. cbn [rbind fst snd check]. rewrite Est. cbn [wp fst snd].
    destruct (hasPolarity_lit _ _ _ Ep Ep') as [Hp Hpu]. split; [done|]. split; [done|].
    assert (implied s1 (lits lv) a) as Hi.
    { pose proof (sr_deduced _ _ _ _ _ S1) as Dd. assert (lits (lv ++ [x]) = lits lv) as El by (rewrite lits_app, lits_one, Hx; apply app_nil_r).
      destruct (dd_pol _ _ Dd _ _ Hp Hpu) as [Hl|(d & Hd & Ed)].
      - destruct a as [t p]. simpl in *. rewrite El in Hl. apply implied_in; [|done]. apply (dd_lits _ _ Dd). by rewrite El.
      - destruct a as [t p]. simpl in *. rewrite <- Ed, <- El. pose proof (dd_ded _ _ Dd (length (lv ++ [x])) d (le_n _)) as H1.
        unfold lim_at in H1. rewrite lookup_ge_None_2 in H1 by (by rewrite (dd_depth _ _ Dd)).
        cbn [default from_option] in H1. rewrite !take_ge in H1 by done. by apply H1. }
    exists None, A. split; [by right|]. by apply accept_search.
  - destruct (literal_bound _ _ _ _ s1 a R1 Hin Hs) as (p & v & -> & Sf). cbn [rbind]. set (br := if decide _ then _ else _) in *.
    rewrite (sf_leq _ _ _ _ Sf). cbn [rbind].
    pose proof (assertBound_wp _ _ _ s1 a v br R1 Est Sf) as Hw. apply wp_total in Hw as ([ok s2] & -> & Hr). cbn [rbind fst snd] in *.
    destruct Hr as [(-> & z & q & -> & X & Hses)|(-> & e & es & -> & He & Hne & Hes)].
    + unfold getStatus at 1. cbn [status with_expl with_simplex]. rewrite Est. cbn [rbind fst snd check]. apply wp_bind.
      eapply wp_mono; [by apply (record_search c lv x A s1 a v br z q)|]. intros s3 (K3 & Est3 & S3). unfold getStatus. rewrite Est3.
      cbn [wp fst snd]. split; [by eapply la_kept_trans|]. split; [done|]. exists (Some a), (A ++ [Ev v br q]). split; [by left|exact S3].
    + cbn. pose proof (refuse_search c lv x A s1 a v br e es S1 Est Hx Sf He Hne Hes) as (K2 & ? & ? & ?).
      split; [by eapply la_kept_trans|]. done.
Qed.

(** ** [check] *)

Definition checked c lv A s (ok : bool) s' : Prop := kept s s' ∧ if ok
  then status s' = SAT ∧ search Ready (length lv) lv A s'
  else status s' = UNSAT ∧ search Conflict c lv A s' ∧ conflict s' (lits lv).

(** The rest of [check], once the solver is initialised. *)
Definition check_started (fuel : nat) s : res (bool * LASolver N) :=
  let! r := checkSimplex fuel (simplex s) in
  let! s := storeExplanation r.1 (with_simplex r.2 s) in
  let! r := setStatus (match explanation s with [] => SAT | _ => UNSAT end) s in
  getStatus r.2.

(** After the simplex solver has moved on. *)
Lemma search_moved c lv A s ph' c' z b st es cs : search Ready c lv A s → status s = SAT → simplex_step (simplex s) z →
  session ph' (settled_part c' lv A) (marks lv) A z → base_ext (base s) b [] → st = SAT ∧ ph' = Ready ∨ st = UNSAT → c' ≤ length lv →
  let s' := with_base b (with_status st (with_expl es cs (with_simplex z s))) in kept s s' ∧ search ph' c' lv A s'.
Proof.
  intros Sr Est X Hs Be Hst Hc' s'. pose proof (search_ready _ _ _ _ _ Sr ltac:(congruence)) as R.
  destruct (ready_step _ _ _ _ s _ _ _ _ _ R Hs X) as [R1 K1]. set (s1 := with_simplex z s) in *.
  assert (core s' = core s1) as E by (unfold core; simpl; by rewrite (be_informed _ _ _ Be)).
  assert (kept s s') as K by (eapply la_kept_trans; [exact K1|]; exact (core_kept _ _ _ _ s1 s' E (lr_declarable _ _ _ _ _ R1))).
  split; [done|]. constructor.
  - right. split; [exact Hst|]. by apply (core_ready _ _ _ _ s1).
  - apply (recorded_kept s s'); [done..|apply Sr].
  - apply (deduced_kept _ _ _ _ s s' lv (lr_declarable _ _ _ _ _ R) K Be). apply Sr.
  - done.
Qed.

Lemma check_started_wp c lv A s k : search Ready c lv A s → status s = SAT → 2 * dim (simplex s) + 2 ≤ k →
  wp no_error (λ r, checked c lv A s r.1 r.2) (check_started k s).
Proof.
  intros Sr Est Hk. pose proof (search_ready _ _ _ _ _ Sr ltac:(congruence)) as R. pose proof R as [[I _ T _] _ _].
  pose proof (ri_session _ _ _ _ _ I) as Hs. pose proof (session_fuel (simplex s) k Hk) as Hf.
  destruct (session_check _ _ _ _ k Hs Hk) as (e & z & E & [Hsat Hst Hno Hv]). unfold check_started. rewrite E. cbn [rbind fst snd].
  assert (simplex_step (simplex s) z) as X by done. set (s1 := with_simplex z s).
  assert (boundStore_ s1 = boundStore_ s) as Ebs by exact Hst.
  assert (atoms_inv s1) as T1.
  { destruct T as [T1 T2 T3 T4 T5]. constructor; unfold means; rewrite ?Ebs; done. }
  pose proof (search_declarable _ _ _ _ _ Sr) as D.
  destruct Hv as [[-> _]|[_ Hx]].
  - cbn. assert (with_status SAT (with_expl [] [] s1) = with_base (base s) (with_status SAT (with_expl [] [] s1))) as -> by done.
    destruct (search_moved c lv A s Ready (length lv) z (base s) SAT [] [] Sr Est X) as [K Sr'].
    + rewrite (settled_all (length lv) lv A s) by (try done; apply Sr). by eapply ses_consistent.
    + apply base_ext_refl.
    + by left.
    + done.
    + split; [exact K|]. split; [done|exact Sr'].
  - assert (e ≠ []) as Hne by (intros ->; by destruct Hx as [Hx%explanation_nonempty _]).
    pose proof (storeExplanation_wp s1 e T1) as Hw. apply wp_total in Hw as (s' & -> & es & -> & Hes).
    2:{ intros t Ht. rewrite Ebs. unfold boundStore_. rewrite <- Hst. by apply (fk_pos _ _ _ (proj1 Hx)). }
    destruct es as [|a' es]; [by apply Forall2_nil_inv_r in Hes|]. cbn.
    destruct (search_moved c lv A s Conflict c z (with_explanation (base s) true) UNSAT (a' :: es) (ecoeff <$> e) Sr Est X) as [K Sr'].
    + eapply ses_conflict; [exact Hs|exact Hf|exact E|done].
    + constructor; try done; [apply with_explanation_wf|by rewrite app_nil_r|by left].
    + by right.
    + apply Sr.
    + split; [exact K|]. split; [done|]. split; [exact Sr'|]. destruct Hx as [F He].
      assert (farkas (boundStore_ s) (tableau (simplex s)) e) as F'.
      { destruct F as [F1 F2 F3]. rewrite Hst in *. constructor; [done|intros σ Hσ; by apply F2, Hsat|done]. }
      constructor; try done.
      * apply (explained_lits s lv A e); [apply Sr|exact He|exact Hes].
      * exact (explained s _ _ _ _ e _ D F' Hes).
Qed.

Lemma check_started_more s k k' r : check_started k s = Ok r → k ≤ k' → check_started k' s = Ok r.
Proof.
  unfold check_started. destruct (checkSimplex k (simplex s)) as [r0|] eqn:E; cbn [rbind]; [|done]. intros Er Hk.
  by rewrite (checkSimplex_more _ _ _ _ E Hk).
Qed.

(** Enough fuel gives the result of [check]. *)
Lemma check_search order c lv A s : (∀ infos, keys_of infos (order infos)) → search Ready c lv A s → status s ≠ UNSAT →
  ∃ k r, (∀ k', k ≤ k' → check_simplex order k' s = Ok r) ∧ checked c lv A s r.1 r.2.
Proof.
  intros Order Sr Hu. pose proof (ensure_search order Order c lv A s Sr Hu) as Hw. apply wp_total in Hw as (s1 & E & S1 & Est & K & Eb).
  pose proof (check_started_wp c lv A s1 _ S1 Est (le_n _)) as Hw. apply wp_total in Hw as (r & Er & K' & Hr).
  exists (2 * dim (simplex s1) + 2), r. split.
  - intros k' Hk. unfold check_simplex. rewrite E. cbn [rbind]. exact (check_started_more s1 _ k' r Er Hk).
  - split; [by eapply la_kept_trans|exact Hr].
Qed.

End steps.

(** * Backtracking in the linear arithmetic solver

    [popBacktrackPoints] (LASolver.cc) takes back levels: afterwards the state is
    that of a search with the levels before. *)

(** ** The base class *)

Lemma TSolver_pop_polarity b b' lims size : deductions_lim b = lims ++ [size] → size ≤ length (th_deductions b) →
  TSolver_popBacktrackPoint b = Ok b' → ∀ t, hasPolarity b' t = true →
  hasPolarity b t = true ∧ polarityMap b' !! t = polarityMap b !! t ∧ t ∉ rtr <$> drop size (th_deductions b).
Proof.
  intros El Hs. unfold TSolver_popBacktrackPoint. destruct (last (deductions_last b)) as [next|]; [|done].
  rewrite El, last_snoc. cbn zeta. set (s0 := MkTSolver _ _ _ _ _ _ _).
  pose proof (popDeductions_spec s0 (take size (th_deductions b)) (drop size (th_deductions b))) as Hp.
  rewrite length_take, Nat.min_l in Hp by done. destruct (Hp ltac:(simpl; by rewrite take_drop)) as (_ & _ & _ & _ & _ & _ & H7 & H8).
  destruct (check _); cbn [rbind]; [|done]. intros [= <-] t Ht. destruct (H7 t Ht) as [H1 H2].
  split; [exact H1|]. split; [|done]. by apply H8.
Qed.

Section backtrack.
Context {N : Type} `{Number N}.
Implicit Types (s : LASolver N) (leq : PTRef) (v : LVRef) (br : LABoundRef) (a : PtAsgn) (ρ : PTRef → Qc)
  (A B : list event) (M : list nat) (lv lw : list Level) (x y : Level).

Definition without_lit (b : TSolver) x : TSolver := match lrec x with Some a => clearPolarity b (tr a) | None => b end.

Lemma without_polarity b x t p : polarityMap (without_lit b x) !! t = Some p → p ≠ l_Undef →
  polarityMap b !! t = Some p ∧ ∀ a, lrec x = Some a → t ≠ tr a.
Proof.
  unfold without_lit. destruct (lrec x) as [a|]; [|done]. simpl. destruct (decide (tr a = t)) as [<-|Hne].
  - rewrite lookup_insert_eq. by intros [= <-].
  - rewrite lookup_insert_ne by done. intros Hp _. split; [done|]. intros ? [= <-]. congruence.
Qed.

Lemma deduced_pop ph A0 M A s s' lv x b : declarable ph A0 M A s → kept s s' → deduced s (lv ++ [x]) →
  TSolver_popBacktrackPoint (without_lit (base s) x) = Ok b → base s' = b → deduced s' lv.
Proof.
  intros [I _ T _] K [D1 D2 D3 D4 D5 D6] Eb Es'. rewrite length_app in D2, D5, D6. simpl in D2, D5, D6.
  assert (∃ lims size, deductions_lim (base s) = lims ++ [size]) as (lims & size & El).
  { destruct (deductions_lim (base s)) as [|size lims _] using rev_ind; [simpl in D2; lia|by exists lims, size]. }
  rewrite El, length_app in D2. simpl in D2. assert (length lims = length lv) as Hlen by lia. clear D2.
  set (b0 := without_lit (base s) x) in *.
  assert (th_deductions b0 = th_deductions (base s) ∧ deductions_lim b0 = lims ++ [size] ∧ tsolver_wf b0) as (Ed0 & El0 & W0).
  { unfold b0, without_lit. destruct (lrec x); [|done]. split; [done|]. split; [done|]. destruct D1. by constructor. }
  assert (size ≤ length (th_deductions (base s))) as Hsize by (apply (twf_lim _ D1 (length lims)); rewrite El; by apply list_lookup_middle).
  destruct (TSolver_pop_ok b0 lims size W0 El0) as (b' & Eb' & W' & El' & Ed' & _ & _).
  rewrite Eb in Eb'. injection Eb' as <-. rewrite Ed0 in Ed'.
  pose proof (TSolver_pop_polarity b0 b lims size El0 ltac:(by rewrite Ed0) Eb) as Hpol. rewrite Ed0 in Hpol.
  assert (∀ i, i ≤ length lv → take i (lv ++ [x]) = take i lv) as Htake by (intros; by rewrite take_app_le).
  assert (∀ i a, i ≤ length lv → implied s (lits (take i (lv ++ [x]))) a → implied s' (lits (take i lv)) a) as Himp.
  { intros i a Hi. rewrite Htake by done. apply (kept_implied ph A0 M A s s' _ a I T K). intros c Hc. apply D3.
    rewrite lits_app. apply elem_of_app. left. by eapply lits_take. }
  constructor; rewrite ?Es', ?El', ?Ed'.
  - done.
  - done.
  - intros a Ha. apply (kept_lit s); [done|]. apply D3. rewrite lits_app. apply elem_of_app. by left.
  - intros t p Hp Hu.
    assert (hasPolarity b t = true) as Hb by (unfold hasPolarity; rewrite Hp; by rewrite bool_decide_false).
    destruct (Hpol t Hb) as (_ & E1 & Hn). rewrite E1 in Hp. destruct (without_polarity _ _ _ _ Hp Hu) as [Hp' Hx].
    destruct (D4 t p Hp' Hu) as [Hin|(d & Hd & Et)].
    + rewrite lits_app in Hin. apply elem_of_app in Hin as [|Hin]; [by left|]. rewrite lits_one in Hin.
      destruct (lrec x) as [a|]; [|by apply not_elem_of_nil in Hin]. apply list_elem_of_singleton in Hin as <-. by destruct (Hx _ eq_refl).
    + right. exists d. split; [|done]. rewrite <- (take_drop size (th_deductions (base s))) in Hd.
      apply elem_of_app in Hd as [|Hd]; [done|]. destruct Hn. apply list_elem_of_fmap. exists d. split; [|done]. by injection Et.
  - intros i d Hi Hd. apply Himp; [done|]. apply D5; [lia|]. revert Hd. unfold lim_at. rewrite El', Ed', El, length_take, Nat.min_l by done.
    destruct (decide (i = length lv)) as [->|Hne].
    + rewrite lookup_ge_None_2, <- Hlen, list_lookup_middle by lia. cbn [default from_option]. by rewrite take_take, Nat.min_id.
    + assert (i < length lims) as [k Hk]%lookup_lt_is_Some by lia. rewrite lookup_app_l, Hk by lia. cbn [default from_option].
      rewrite take_take, Nat.min_comm, <- take_take. intros Hd. rewrite <- (take_drop size (take k _)). apply elem_of_app. by left.
  - intros i a Hi Ha. apply Himp; [done|]. apply D6; [lia|]. by rewrite Htake.
Qed.

Lemma base_pop s lv x : deduced s (lv ++ [x]) → ∃ b, TSolver_popBacktrackPoint (without_lit (base s) x) = Ok b
  ∧ informed_PTRefs b = informed_PTRefs (base s).
Proof.
  intros [W D2 _ _ _ _]. rewrite length_app in D2. simpl in D2.
  destruct (deductions_lim (base s)) as [|size lims _] eqn:El using rev_ind; [simpl in D2; lia|].
  destruct (TSolver_pop_ok (without_lit (base s) x) lims size) as (b & E & _ & _ & _ & _ & Ei).
  - unfold without_lit. destruct (lrec x); [|done]. destruct W. by constructor.
  - unfold without_lit. by destruct (lrec x).
  - exists b. split; [done|]. rewrite Ei. unfold without_lit. by destruct (lrec x).
Qed.

(** ** One level *)

Record popping A0 lv A s : Prop := {
  pg_ready : la_ready Popping A0 (marks lv) A s;
  pg_recorded : recorded s lv A;
  pg_deduced : deduced s lv;
}.

Lemma pop_limits {C} (l : list C) k : pop (l ++ [k]) = Ok l.
Proof. unfold pop. destruct (l ++ [k]) eqn:E; [by destruct l|]. by rewrite <- E, length_app, Nat.add_sub, take_app_length. Qed.

(** The literal of the level, and the counts, as [popTermBacktrackPoint] finds
    them. *)
Lemma popDecisions_ok s lv x : decision_trace s = lits (lv ++ [x]) → (int_decisions s).*1 = lits (lv ++ [x]) →
  dec_limit s = 0 :: marks (lv ++ [x]) → ∃ ds,
  popDecisions s = Ok (lrec x, with_decisions (lits lv) (dec_limit s) ds s) ∧ ds.*1 = lits lv.
Proof.
  intros C2 C3 C4. unfold popDecisions, last_. rewrite C4, marks_snoc, app_comm_cons, last_snoc. cbn [rbind].
  rewrite lits_app, lits_one in C2, C3. rewrite C2, length_app, (proj2 (Nat.leb_le _ _)) by lia.
  assert (length (lits lv) + length (option_list (lrec x)) - length (lits lv) = length (option_list (lrec x))) as -> by lia.
  unfold shrink. rewrite length_app, (proj2 (Nat.leb_le (length (option_list (lrec x))) _)), Nat.add_sub, take_app_length by lia.
  destruct (lrec x) as [a|]; cbn [option_list length Nat.eqb orb andb check rbind].
  - destruct (int_decisions s) as [|[a' k] ds _] eqn:Ed using rev_ind; [by destruct (lits lv)|].
    rewrite fmap_app in C3. apply app_inj_tail in C3 as [C3 Ea]. simpl in Ea. subst a'. rewrite last_snoc, pop_limits. by exists ds.
  - exists (int_decisions s). by rewrite app_nil_r in C3.
Qed.

(** The simplex solver takes back the bound of the level, if it has one. *)
Lemma simplex_pop A0 M A1 B (w : Simplex N) : session Popping A0 (M ++ [length A1]) (A1 ++ B) w → B = [] ∨ (∃ e, B = [e]) →
  ∃ w1 z, Simplex_popBacktrackPoint w = Ok w1
    ∧ match B with e :: _ => boundDeactivated (ev_var e) w1 | [] => Ok w1 end = Ok z
    ∧ session Popping A0 M A1 z ∧ simplex_step w z.
Proof.
  intros Hs HB. pose proof (session_holds _ _ _ _ _ Hs) as [_ _ Re]. simpl in Re.
  pose proof (pop_level_wp no_error A0 M A1 B w Re HB) as Hw. apply wp_total in Hw as (z & E & _ & Hst & Hsat & Hno).
  destruct (Simplex_popBacktrackPoint w) as [w1|] eqn:E1; cbn [rbind] in E; [|done].
  exists w1, z. split; [done|]. split; [done|]. split; [by apply (ses_pop A0 M A1 B w w1 z Hs HB E1 E)|done].
Qed.

(** The solver after a level. *)
Definition popped (b : TSolver) (z : Simplex N) lv ds s : LASolver N :=
  with_base b (with_decisions (lits lv) (0 :: marks lv) ds (with_simplex z s)).

Lemma popped_popping A0 lv x A1 B s b z ds : popping A0 (lv ++ [x]) (A1 ++ B) s → length A1 = length (lits lv) →
  session Popping A0 (marks lv) A1 z → simplex_step (simplex s) z → ds.*1 = lits lv →
  TSolver_popBacktrackPoint (without_lit (base s) x) = Ok b → informed_PTRefs b = informed_PTRefs (base s) →
  popping A0 lv A1 (popped b z lv ds s) ∧ kept s (popped b z lv ds s).
Proof.
  intros [R Rc Dd] HA Hs X Hds Eb Ei. set (s' := popped b z lv ds s). set (s1 := with_simplex z s).
  destruct (ready_step _ _ _ _ s _ _ _ _ _ R Hs X) as [R1 K1].
  assert (core s' = core s1) as E by (unfold core; simpl; by rewrite Ei).
  assert (kept s s') as K by (eapply la_kept_trans; [exact K1|]; exact (core_kept _ _ _ _ s1 s' E (lr_declarable _ _ _ _ _ R1))).
  split; [|done]. constructor.
  - by apply (core_ready _ _ _ _ s1).
  - constructor; try done. apply (events_kept s); [done|]. pose proof (rc_events _ _ _ Rc) as Hev. rewrite lits_app in Hev.
    by apply Forall2_app_inv in Hev as [? _].
  - by apply (deduced_pop _ _ _ _ s s' lv x b (lr_declarable _ _ _ _ _ R) K Dd Eb).
Qed.

Lemma pop_point_wp A0 lv x A s : popping A0 (lv ++ [x]) A s →
  wp no_error (λ s', popping A0 lv (take (length (lits lv)) A) s' ∧ kept s s' ∧ status s' = status s) (pop_point s).
Proof.
  intros P. pose proof P as [R Rc Dd]. destruct (base_pop _ _ _ Dd) as (b & Eb & Ei).
  pose proof (rc_events _ _ _ Rc) as Hev. rewrite lits_app, lits_one in Hev.
  apply Forall2_app_inv_l in Hev as (A1 & B & H1 & H2 & ->). pose proof (Forall2_length _ _ _ H1) as HA. symmetry in HA.
  rewrite <- HA, take_app_length. pose proof (ri_session _ _ _ _ _ (de_reg _ _ _ _ _ (lr_declarable _ _ _ _ _ R))) as Hs.
  rewrite marks_snoc, <- HA in Hs.
  destruct (simplex_pop A0 (marks lv) A1 B _ Hs) as (w1 & z & E1 & E2 & Hz & X).
  { destruct (lrec x); [right|left]; [|by apply Forall2_nil_inv_l in H2].
    apply Forall2_cons_inv_l in H2 as (e & B' & _ & HB%Forall2_nil_inv_l & ->). exists e. by rewrite HB. }
  unfold pop_point, popTermBacktrackPoint. rewrite E1. cbn [rbind].
  destruct (popDecisions_ok (with_simplex w1 s) lv x) as (ds & -> & Hds); [apply Rc..|].
  cbn [rbind fst snd dec_limit with_decisions with_simplex]. rewrite (rc_limits _ _ _ Rc), marks_snoc, app_comm_cons, pop_limits.
  cbn [rbind fst snd]. destruct (popped_popping A0 lv x A1 B s b z ds P HA Hz X Hds Eb Ei) as [P' K'].
  destruct (lrec x) as [a|] eqn:Ex.
  - apply Forall2_cons_inv_l in H2 as (e & B' & [Has (bd & Hb & Hv)] & HB%Forall2_nil_inv_l & ->). subst B'.
    destruct (ai_asgn _ (de_atoms _ _ _ _ _ (lr_declarable _ _ _ _ _ R)) _ _ Has) as (bd' & so & c & t & xs & Hb' & _ & Hat & Hm & _).
    assert (bd' = bd) as -> by congruence. rewrite Hv in Hm.
    erewrite getVarForLeq_ok by (exact Hat || exact Hm). cbn [rbind]. cbn [simplex with_base with_decisions with_simplex base].
    rewrite E2. cbn [rbind base with_simplex with_base with_decisions]. unfold without_lit in Eb. rewrite Ex in Eb. rewrite Eb.
    cbn [rbind wp]. split; [exact P'|]. split; [exact K'|done].
  - apply Forall2_nil_inv_l in H2 as ->. injection E2 as ->. cbn [rbind base with_simplex with_base with_decisions].
    unfold without_lit in Eb. rewrite Ex in Eb. rewrite Eb. cbn [rbind wp]. split; [exact P'|]. split; [exact K'|done].
Qed.

(** ** Many levels *)

Lemma la_kept_refl ph A0 M A s : declarable ph A0 M A s → kept s s.
Proof. intros D. by apply (core_kept _ _ _ _ s s (eq_refl _) D). Qed.

Lemma pop_points_wp A0 lv lw A s (l : list nat) : length l = length lw → popping A0 (lv ++ lw) A s →
  wp no_error (λ s', popping A0 lv (take (length (lits lv)) A) s' ∧ kept s s' ∧ status s' = status s)
    (foldM (λ s _, pop_point s) s l).
Proof.
  revert A s l. induction lw as [|x lw IH] using rev_ind; intros A s l El P.
  - destruct l; [|done]. rewrite app_nil_r in P. pose proof P as [R Rc _]. cbn [foldM wp].
    rewrite take_ge by (by rewrite (Forall2_length _ _ _ (rc_events _ _ _ Rc))).
    split; [done|]. split; [|done]. by eapply la_kept_refl, R.
  - rewrite length_app, Nat.add_1_r in El. destruct l as [|k l]; [done|]. injection El as El. rewrite app_assoc in P. cbn [foldM].
    apply wp_bind. eapply wp_mono; [by apply (pop_point_wp A0 (lv ++ lw) x A s)|]. intros s1 (P1 & K1 & E1).
    eapply wp_mono; [exact (IH _ s1 l El P1)|]. intros s2 (P2 & K2 & E2). split; [|split; [by eapply la_kept_trans|congruence]].
    rewrite take_take, Nat.min_l in P2; [done|]. rewrite lits_app, length_app. lia.
Qed.

Lemma settled_prefix c lv lw A : length lv ≤ c → ∃ C, settled_part c (lv ++ lw) A = take (length (lits lv)) A ++ C.
Proof.
  intros Hc. unfold settled_part. rewrite take_app_ge, lits_app, length_app by done. set (m := _ + _).
  exists (drop (length (lits lv)) (take m A)). rewrite <- (take_drop (length (lits lv)) (take m A)) at 1.
  rewrite take_take, Nat.min_l; [done|]. unfold m. lia.
Qed.

Lemma pop_search ph c lv lw A s : search ph c (lv ++ lw) A s → status s ≠ INIT → length lv ≤ c →
  wp no_error (λ s', search Ready (length lv) lv (take (length (lits lv)) A) s' ∧ status s' = SAT ∧ kept s s')
    (LA_popBacktrackPoints (length lw) s).
Proof.
  intros Sr Hi Hc. pose proof (search_ready _ _ _ _ _ Sr Hi) as R. pose proof Sr as [_ Rc Dd _].
  set (A0 := settled_part c (lv ++ lw) A) in *. destruct (settled_prefix c lv lw A Hc) as [C EA]. fold A0 in EA.
  set (A' := take (length (lits lv)) A) in *.
  pose proof (ri_session _ _ _ _ _ (de_reg _ _ _ _ _ (lr_declarable _ _ _ _ _ R))) as Hs.
  destruct (ready_step _ _ _ _ s _ _ _ _ (simplex s) R (ses_backtrack _ _ _ _ _ Hs) (simplex_step_refl _)) as [R0 _].
  assert (with_simplex (simplex s) s = s) as Ess by by destruct s. rewrite Ess in R0.
  unfold LA_popBacktrackPoints. apply wp_bind.
  eapply wp_mono; [apply (pop_points_wp A0 lv lw A s); [by rewrite length_seq|by constructor]|].
  intros s1 ([R1 Rc1 Dd1] & K1 & _). fold A' in R1, Rc1.
  pose proof (ri_session _ _ _ _ _ (de_reg _ _ _ _ _ (lr_declarable _ _ _ _ _ R1))) as Hs1.
  pose proof (session_holds _ _ _ _ _ Hs1) as [_ Hev Re]. simpl in Re.
  pose proof (finalizeBacktracking_wp no_error A0 _ A' _ Re (ex_intro _ C EA) Hev) as Hw.
  apply wp_total in Hw as (z & E & _ & Hst & Et). rewrite E. cbn.
  assert (simplex_step (simplex s1) z) as X by (split; [exact Hst|by rewrite Et|by rewrite Et]).
  destruct (ready_step _ _ _ _ s1 _ _ _ _ z R1 (ses_finalize A0 _ A' C _ z Hs1 EA E) X) as [R2 K2].
  set (s2 := with_simplex z s1) in *. set (s' := with_status SAT s2).
  assert (kept s2 s') as K3 by exact (core_kept _ _ _ _ s2 s' (eq_refl _) (lr_declarable _ _ _ _ _ R2)).
  assert (kept s1 s') as K13 by by eapply la_kept_trans.
  assert (recorded s' lv A') as Rc' by by apply (recorded_kept s1 s').
  split; [|split; [done|by eapply la_kept_trans]]. constructor; [|done| |done].
  - right. split; [by left|]. rewrite (settled_all (length lv) lv A' s' Rc') by done. by apply (core_ready _ _ _ _ s2).
  - apply (deduced_kept _ _ _ _ s1 s' lv (lr_declarable _ _ _ _ _ R1) K13); [apply base_ext_refl|done].
Qed.

End backtrack.
