(* ===== verification/LAReach.v ===== *)
(** * Models of the linear arithmetic solver

    [computeModel] and [fillTheoryFunctions] (LASolver.cc): after a consistent
    check the values given to the variables make every accepted literal true.
    The file starts with the models; then come the states a caller reaches and
    a run on a small problem. *)
From stdpp Require Import gmap.
From S2P Require Import Prelude Gmp FastRationalInt Number Lex Delta Polynomial Tableau TableauFacts LABounds LABuild LRAModel Simplex.
From S2P Require Import SimplexFacts SimplexSelect SimplexClient SimplexSession Terms TSolver ArithTerms LASolver LAMapper LARegister LAAtoms.
From S2P Require Import LADeclare LASearch LASteps.
From Stdlib Require Import Lia.

#[local] Open Scope nat_scope.

Section model.
Context {N : Type} `{Number N}.
Implicit Types (s : LASolver N) (t leq : PTRef) (v u : LVRef) (br : LABoundRef) (a : PtAsgn) (ρ : PTRef → Qc)
  (A : list event) (M : list nat) (lv : list Level) (ρv : LVRef → Qc).

(** ** From values of variables to values of terms *)

Definition terms_of s ρv : PTRef → Qc := λ x, ρv (var_of (ptermToLavar s) x).

Lemma terms_of_tv ph A0 M A s ρv v : reg_inv ph A0 M A s → rat_solution (tableau (simplex s)) ρv →
  type_of (tableau (simplex s)) v ≠ NONE → tv s (terms_of s ρv) v = ρv v.
Proof.
  intros I Hs HT. destruct (ri_def _ _ _ _ _ I v HT) as (so & t & xs & Hn & [Hl _] & _ & He).
  rewrite (tv_lval _ _ _ _ _ _ v so t xs I Hn Hl). symmetry. by apply He.
Qed.

Lemma session_event ph A0 M A (x : Simplex N) e : session ph A0 M A x → e ∈ A → type_of (tableau x) (ev_var e) ≠ NONE.
Proof.
  intros Hs He. pose proof (session_holds _ _ _ _ _ Hs) as [_ _ Hph].
  assert (sx_inv M A x) as I by (destruct ph; simpl in Hph; apply Hph). by apply (si_event _ _ _ I).
Qed.

(** Values that satisfy the asserted bounds make the recorded, and so the
    accepted literals true. *)
Lemma values_lits ph c lv A s ρv a : search ph c lv A s → rat_solution (tableau (simplex s)) ρv →
  rat_holds (boundStore_ s) A ρv → a ∈ lits lv ∨ a ∈ accepted lv → la_lit_holds (logic s) (terms_of s ρv) a.
Proof.
  intros Sr Hs Hh. pose proof (search_declarable _ _ _ _ _ Sr) as [I Hc T _].
  assert (∀ a, a ∈ lits lv → bound_true s (terms_of s ρv) a) as Hb.
  { intros a' [i Ha]%list_elem_of_lookup.
    destruct (Forall2_lookup_l _ _ _ i a' (rc_events _ _ _ (sr_recorded _ _ _ _ _ Sr)) Ha) as (e & He & Has & b & Hb & Hv).
    apply list_elem_of_lookup_2 in He. exists (ev_bound e), b. split; [done|]. split; [done|].
    apply (rat_bound_ext ρv); [|by apply (Hh e b He)]. symmetry. apply (terms_of_tv _ _ _ _ _ _ _ I Hs). rewrite Hv.
    eapply session_event; [apply I|done]. }
  intros [Ha|Ha]; apply (bound_true_lit _ _ _ T); [by apply Hb|].
  pose proof (dd_acc _ _ (sr_deduced _ _ _ _ _ Sr) (length lv) a (le_n _)) as Hi. rewrite !take_ge in Hi by done.
  by apply Hi.
Qed.

(** ** Reading the values *)

(** The values after the variables of [vs] were read. *)
Record reading A M s (σ : LVRef → lexq) (d : N) (vs : list LVRef) s' : Prop := {
  rd_core : ∃ z m, s' = with_concrete m (with_simplex z s) ∧ simplex_step (simplex s) z ∧ session Ready A M A z ∧ extends z σ;
  rd_values v : v ∈ vs → ∃ q, concrete_model s' !! v = Some q ∧ nval q = eval_at (nval d) (σ v);
}.

Lemma computeConcreteModel_wp A M s σ d vs v s' : type_of (tableau (simplex s)) v ≠ NONE → reading A M s σ d vs s' →
  wp no_error (reading A M s σ d (vs ++ [v])) (computeConcreteModel v d s').
Proof.
  intros HT [(z & m & -> & X & Hs & Hσ) Hv]. unfold computeConcreteModel. cbn [with_concrete with_simplex simplex concrete_model].
  assert (type_of (tableau z) v ≠ NONE) as HT' by by rewrite (xs_none _ _ X).
  pose proof (ss_state _ _ _ _ _ (session_holds _ _ _ _ _ Hs)) as Id. simpl in Id.
  pose proof (getValuation_wp no_error A M A z v Id HT') as Hw. apply wp_total in Hw as ([x z'] & E & _ & Est & Hsol & Hno & Hx).
  rewrite E. cbn [rbind fst snd] in *. destruct (Hx σ Hσ) as [Ex Hσ'].
  unfold upd. rewrite grow_length, (proj2 (Nat.ltb_lt _ _)) by lia. cbn [rbind wp]. constructor.
  - eexists z', _. split; [reflexivity|]. split.
    + destruct X as [X1 X2 X3]. constructor; [congruence|intros u; by rewrite Hno|intros σ'; by rewrite Hsol].
    + split; [exact (ses_getValuation _ _ _ _ v (x, z') Hs HT' E)|done].
  - intros u Hu. cbn [with_concrete concrete_model]. destruct (decide (u = v)) as [->|Hne].
    + rewrite list_lookup_insert_eq by (rewrite grow_length; lia). eexists. split; [done|].
      rewrite n_add_val, n_mul_val, <- Ex. unfold eval_at, dval. cbn [lr ld]. done.
    + rewrite list_lookup_insert_ne by done. apply elem_of_app in Hu as [Hu|Hu%list_elem_of_singleton]; [|done].
      destruct (Hv u Hu) as (q & Hq & Eq). exists q. split; [|done]. rewrite grow_lookup. simpl in Hq. by rewrite Hq.
Qed.

(** A state after a consistent check, with no bound asserted since. *)
Lemma computeModel_wp lv A s : search Ready (length lv) lv A s → status s = SAT →
  wp no_error (λ s', ∃ ρv z m, s' = with_concrete m (with_simplex z s) ∧ simplex_step (simplex s) z ∧ session Ready A (marks lv) A z
      ∧ rat_solution (tableau (simplex s)) ρv ∧ rat_holds (boundStore_ s) A ρv
      ∧ ∀ v, v ∈ lvstore (boundStore_ s) → ∃ q, m !! v = Some q ∧ nval q = ρv v)
    (LA_computeModel s).
Proof.
  intros Sr Est. pose proof (search_ready _ _ _ _ _ Sr ltac:(congruence)) as R.
  rewrite (settled_all (length lv) lv A s) in R by (apply Sr || done). pose proof R as [[I Hc T _] _ _].
  pose proof (ri_session _ _ _ _ _ I) as Hs. pose proof (ss_state _ _ _ _ _ (session_holds _ _ _ _ _ Hs)) as Id. simpl in Id.
  pose proof (id_settled _ _ _ _ Id) as St. destruct (extends_exists (marks lv) A _ (st_inv _ _ _ _ St)) as [σ Hσ].
  unfold LA_computeModel. rewrite bool_decide_true by done. cbn [check rbind].
  assert (∀ v, v ∈ lvstore (boundStore_ s) → type_of (tableau (simplex s)) v ≠ NONE) as Hdecl.
  { intros v Hv. rewrite (ri_lv _ _ _ _ _ I) in Hv. apply elem_of_seq in Hv as [_ Hv]. simpl in Hv.
    destruct (proj1 (ri_named _ _ _ _ _ I v) Hv) as [t Ht]. by eapply Hc. }
  pose proof (settled_rational no_error (marks lv) A (simplex s) St (ai_sharp _ T)) as Hw.
  apply wp_total in Hw as (d & Ed & Hd & Hall).
  - rewrite Ed. cbn [rbind]. destruct (Hall σ Hσ) as [H1 H2].
    eapply wp_mono; [apply (foldM_wp no_error _ (λ pre _ s', reading A (marks lv) s σ d pre s'))|].
    + constructor; [|by intros v ?%not_elem_of_nil]. exists (simplex s), (concrete_model s). split; [by destruct s|done].
    + intros pre v post s' El Hr. apply computeConcreteModel_wp; [|done]. apply Hdecl. rewrite El. set_solver.
    + intros s' [(z & m & -> & X & Hz & _) Hv]. exists (λ v, eval_at (nval d) (σ v)), z, m.
      split; [done|]. split; [done|]. split; [done|]. split; [done|]. split; [exact H2|]. exact Hv.
  - intros v Hv. apply (client_range (marks lv) A _ (st_inv _ _ _ _ St)). by apply Hdecl.
  - intros e He. pose proof (ri_type _ _ _ _ _ I _ (session_event _ _ _ _ _ e Hs He)) as Hlt.
    assert (ev_var e ∈ lvstore (boundStore_ s)); [|done]. rewrite (ri_lv _ _ _ _ _ I). apply elem_of_seq. simpl. lia.
Qed.

(** ** [fillTheoryFunctions] *)

Definition num_var s t : Prop := ∃ n, pterms (logic s) !! t = Some n ∧ is_var (nsym n) = true.

Lemma fill_wp ph A0 M A s ρv : reg_inv ph A0 M A s → (∀ v, v ∈ lvstore (boundStore_ s) → ∃ q, concrete_model s !! v = Some q ∧ nval q = ρv v) →
  wp no_error (λ acc, (∀ t q, (t, q) ∈ acc → num_var s t ∧ ∃ v, names (laVarToPTRef s) v t ∧ nval q = ρv v)
      ∧ ∀ v t, names (laVarToPTRef s) v t → num_var s t → ∃ q, (t, q) ∈ acc) (LA_fillTheoryFunctions s).
Proof.
  intros I Hm. unfold LA_fillTheoryFunctions.
  eapply wp_mono; [apply (foldM_wp no_error _ (λ pre _ acc,
    (∀ t q, (t, q) ∈ acc → num_var s t ∧ ∃ v, names (laVarToPTRef s) v t ∧ nval q = ρv v)
    ∧ ∀ v t, v ∈ pre → names (laVarToPTRef s) v t → num_var s t → ∃ q, (t, q) ∈ acc))|].
  - split; [by intros t q ?%not_elem_of_nil|by intros v t ?%not_elem_of_nil].
  - intros pre v post acc El [H1 H2]. destruct (Hm v) as (q & Hq & Eq); [rewrite El; set_solver|].
    assert (v < length (lvstore (boundStore_ s))) as [t Ht]%(ri_named _ _ _ _ _ I).
    { assert (v ∈ seq 0 (length (lvstore (boundStore_ s)))) as [_ ?]%elem_of_seq by (rewrite <- (ri_lv _ _ _ _ _ I), El; set_solver). done. }
    destruct (mp_term _ _ _ (ri_map _ _ _ _ _ I) v t Ht) as (so & xs & _ & [Hl _] & _).
    assert (is_Some (pterms (logic s) !! t)) as [n Hn].
    { destruct Hl as [t' x c Hf|t' ts xs Hp _ _ _]; [|by eexists]. destruct Hf; by eexists. }
    unfold getVarPTRef, at_ at 1. rewrite Ht. cbn [rbind]. unfold a_isNumVar. rewrite (test_ok _ _ _ _ Hn). cbn [rbind].
    destruct (is_var (nsym n)) eqn:Ev; [unfold at_; rewrite Hq|]; cbn [rbind wp].
    + split.
      * intros t' q' [?|[= -> ->]%list_elem_of_singleton]%elem_of_app; [by apply H1|]. split; [by exists n|by exists v].
      * intros u t' [Hu| ->%list_elem_of_singleton]%elem_of_app Hn' Hv.
        -- destruct (H2 u t' Hu Hn' Hv) as [q' ?]. exists q'. set_solver.
        -- unfold names in *. assert (t' = t) as -> by congruence. exists q. set_solver.
    + split; [done|]. intros u t' [Hu| ->%list_elem_of_singleton]%elem_of_app Hn' (n' & Hn2 & Hv); [by apply (H2 u); [..|exists n']|].
      unfold names in *. assert (t' = t) as -> by congruence. congruence.
  - intros acc [H1 H2]. split; [done|]. intros v t Ht Hv. apply (H2 v); [|done..].
    rewrite (ri_lv _ _ _ _ _ I). apply elem_of_seq. simpl. split; [lia|]. apply (ri_named _ _ _ _ _ I). by exists t.
Qed.

End model.

(** * The states of the linear arithmetic solver

    The states LASolver.cc goes through when it is used as THandler.cc does:
    terms are made, inequalities declared, levels opened, one literal asserted at
    a level, checks made, deductions fetched, models computed, and levels taken
    back, after a conflict at the latest to the levels of the last consistent
    check.  All of them satisfy the invariant of the search. *)

Section reach.
Context {N : Type} `{Number N}.
Implicit Types (s : LASolver N) (t leq : PTRef) (a : PtAsgn) (A : list event) (M : list nat) (lv lw : list Level) (x : Level).

Context (order : list BoundInfo → list LVRef) (Order : ∀ infos, keys_of infos (order infos)).

(** Was the literal recorded, or did it follow from the ones before? *)
Definition newly_recorded a s s' : option PtAsgn :=
  if length (decision_trace s') =? length (decision_trace s) then None else Some a.

(** What the client asserts: literals of the inequalities it declared. *)
Definition assertable s a : Prop := tr a ∈ informed_PTRefs (base s) ∧ sgn a ≠ l_Undef
  ∧ tr a ≠ term_TRUE (logic s) ∧ tr a ≠ term_FALSE (logic s).

(** [reach c lv s]: the levels are [lv], and at the last consistent check [c]
    of them were there. *)
Inductive reach : nat → list Level → LASolver N → Prop :=
| re_init l : logic_wf l → reach 0 [] (LASolver_init l)
| re_terms c lv s l : reach c lv s → logic_wf l → logic_le (logic s) l → reach c lv (with_logic l s)
| re_declare c lv s leq s' : reach c lv s → status s ≠ UNSAT → is_atom (logic s) leq →
    LA_declareAtom leq s = Ok s' → reach c lv s'
| re_push c lv s : reach c lv s → status s ≠ UNSAT → reach c (lv ++ [new_level]) (LA_pushBacktrackPoint s)
| re_assert c lv x s a s' : reach c (lv ++ [x]) s → status s ≠ UNSAT → lrec x = None → assertable s a →
    LA_assertLit order a s = Ok (true, s') →
    reach (Nat.min c (length lv)) (lv ++ [MkLevel (newly_recorded a s s') (lacc x ++ [a])]) s'
| re_refuse c lv x s a s' : reach c (lv ++ [x]) s → status s ≠ UNSAT → lrec x = None → assertable s a →
    LA_assertLit order a s = Ok (false, s') → reach c (lv ++ [x]) s'
| re_check c lv s k s' : reach c lv s → status s ≠ UNSAT →
    (∀ k', k ≤ k' → check_simplex order k' s = Ok (true, s')) → reach (length lv) lv s'
| re_fail c lv s k s' : reach c lv s → status s ≠ UNSAT →
    (∀ k', k ≤ k' → check_simplex order k' s = Ok (false, s')) → reach c lv s'
| re_deduction c lv s : reach c lv s → reach c lv (with_base (getDeduction (base s)).2 s)
| re_model lv s s' : reach (length lv) lv s → status s = SAT → LA_computeModel s = Ok s' → reach (length lv) lv s'
| re_pop c lv lw s s' : reach c (lv ++ lw) s → status s ≠ INIT → length lv ≤ c →
    LA_popBacktrackPoints (length lw) s = Ok s' → reach (length lv) lv s'.

(** ** The invariant *)

Lemma search_init (l : ArithLogic N) : logic_wf l → search Ready 0 [] [] (LASolver_init l).
Proof.
  intros W. set (s := LASolver_init l). constructor; [left; split; [done|]; split; [done|]; split| | |done].
  - split; [done|]. split; [|constructor]. intros leq [p Hp]. done.
  - constructor; [constructor; try done|done|by constructor|].
    + by constructor.
    + intros v. simpl. split; [lia|]. by intros [t Ht].
    + intros v Hv. by apply not_elem_of_nil in Hv.
    + intros leq Hl. by apply not_elem_of_nil in Hl.
  - constructor; done.
  - constructor; try done.
    + intros a Ha. by apply not_elem_of_nil in Ha.
    + intros i d _ Hd. change (th_deductions (base s)) with (@nil PtAsgn_reason) in Hd. rewrite take_nil in Hd. by apply not_elem_of_nil in Hd.
    + intros i a _ Ha. rewrite take_nil in Ha. by apply not_elem_of_nil in Ha.
Qed.

(** New terms. *)
Lemma logic_grown s l : logic_le (logic s) l → grown s (with_logic l s).
Proof. intros Hle. constructor; [done..|apply ba_le_refl]. Qed.

Lemma logic_tv ph A0 M A s l ρ v : reg_inv ph A0 M A s → logic_wf l → logic_le (logic s) l →
  v < length (lvstore (boundStore_ s)) → tv (with_logic l s) ρ v = tv s ρ v.
Proof. intros I W Hle Hv. apply (grown_tv ph A0 M A s); [done|done|by apply logic_grown|done]. Qed.

Lemma logic_reg ph A0 M A s l : reg_inv ph A0 M A s → logic_wf l → logic_le (logic s) l → reg_inv ph A0 M A (with_logic l s).
Proof.
  intros I W Hle. pose proof I as [I1 I2 I3 I4 I5 I6 I7 I8 I9]. constructor; try done.
  - by eapply mapper_mono.
  - intros ρ. eapply (rat_solution_ext _ (tv s ρ)); [exact (session_tab _ _ _ _ _ I3)| |apply I7].
    intros u Hu. symmetry. apply (logic_tv ph A0 M A); [done..|]. by apply I6.
  - intros u Hu. by eapply defined_mono; [exact Hle|done..|apply I8].
  - intros u Hu. destruct (I9 u Hu) as [[t Ht] Hi]. split; [by exists t|]. intros ρ Hρ.
    rewrite (logic_tv ph A0 M A) by (try done; apply I5; by exists t). apply Hi. by eapply integral_mono.
Qed.

Lemma logic_declarable ph A0 M A s l : declarable ph A0 M A s → logic_wf l → logic_le (logic s) l →
  declarable ph A0 M A (with_logic l s) ∧ kept s (with_logic l s).
Proof.
  intros [I Hc T Hi] W Hle. pose proof (logic_reg _ _ _ _ _ _ I W Hle) as I'.
  assert (atoms_inv (with_logic l s)) as T' by (apply (atoms_tables ph A0 M A s); [done|done|by apply logic_grown|done..]).
  split; [|by constructor; [apply logic_grown|..]]. constructor; [done|done|done|].
  intros leq (so & c & t & xs & Ha)%Hi. exists so, c, t, xs. by eapply atom_mono.
Qed.

Lemma search_kept ph c lv A s s' : search ph c lv A s → kept s s' → decision_trace s' = decision_trace s →
  dec_limit s' = dec_limit s → int_decisions s' = int_decisions s → base_same (base s) (base s') →
  (ph = Ready ∧ status s' = INIT ∧ unstarted s' ∧ declarable Ready (settled_part c lv A) (marks lv) A s'
    ∨ (status s' = SAT ∧ ph = Ready ∨ status s' = UNSAT) ∧ la_ready ph (settled_part c lv A) (marks lv) A s') →
  search ph c lv A s'.
Proof.
  intros Sr K E1 E2 E3 Be St. constructor; [done|by apply (recorded_kept s s'); [..|apply Sr]| |apply Sr].
  apply (deduced_same _ _ _ _ s s' lv (search_declarable _ _ _ _ _ Sr) K Be). apply Sr.
Qed.

Lemma terms_search ph c lv A s l : search ph c lv A s → logic_wf l → logic_le (logic s) l → search ph c lv A (with_logic l s).
Proof.
  intros Sr W Hle. destruct (logic_declarable _ _ _ _ s l (search_declarable _ _ _ _ _ Sr) W Hle) as [D K].
  apply (search_kept ph c lv A s); [done..|].
  destruct (sr_state _ _ _ _ _ Sr) as [(-> & Est & U & _)|[Est [_ Hk Hp]]]; [by left|right; split; [done|by constructor]].
Qed.

(** Declarations. *)
Lemma setInformed_same (b : TSolver) leq : base_same b (setInformed b leq).
Proof. constructor; try done. by intros [? ? ? ? ?]. Qed.

Lemma unstarted_informed s leq : unstarted s → leq ∉ informed_PTRefs (base s) → unstarted (informed leq s).
Proof.
  intros (Est & Hp & Hn) Hl. split; [done|]. split; [done|]. apply NoDup_app. split; [done|]. split; [|apply NoDup_singleton].
  intros l Hin ->%list_elem_of_singleton. done.
Qed.

Lemma declare_search c lv A s leq : search Ready c lv A s → status s ≠ UNSAT → is_atom (logic s) leq →
  wp no_error (λ s', search Ready c lv A s' ∧ kept s s' ∧ leq ∈ informed_PTRefs (base s')) (LA_declareAtom leq s).
Proof.
  intros Sr Hu Ha. destruct (sr_state _ _ _ _ _ Sr) as [(_ & Est & U & D)|[[[Est _]|?] R]]; [| |done].
  - destruct (declareAtom_init _ _ _ s leq D Est Ha) as (s' & -> & D' & Hin & Es'). cbn [wp].
    assert (kept s s') as K.
    { pose proof D' as [I' _ T' _]. constructor; [|subst s'; by destruct (isInformed _ _)|apply I'|done].
      subst s'. destruct (isInformed _ _); [by apply reg_le_grown, reg_le_refl|]. constructor; [apply logic_le_refl|done|done|apply ba_le_refl]. }
    split; [|done]. unfold isInformed in Es'. case_bool_decide as Hi; [by rewrite Es'|].
    apply (search_kept Ready c lv A s); [done|done|by rewrite Es'..|rewrite Es'; apply setInformed_same|].
    left. split; [done|]. split; [by rewrite Es'|]. split; [|done]. rewrite Es'. by apply unstarted_informed.
  - eapply wp_mono; [by apply (declareAtom_ready _ _ _ s leq R Est Ha)|]. intros s' (R' & G & Hin & Has & Ef).
    pose proof R' as [[I' _ T' _] _ _]. assert (kept s s') as K by by constructor; [..|apply I'|].
    split; [|done]. unfold frame in Ef. simpl in Ef.
    assert (base_same (base s) (base s')) as Bs.
    { destruct (isInformed (base s) leq); injection Ef as -> _; [by constructor|apply setInformed_same]. }
    assert (decision_trace s' = decision_trace s ∧ dec_limit s' = dec_limit s ∧ int_decisions s' = int_decisions s ∧ status s' = status s)
      as (E1 & E2 & E3 & E4) by (by destruct (isInformed (base s) leq); injection Ef).
    apply (search_kept Ready c lv A s); [done..|]. right. split; [|done]. left. split; [congruence|done].
Qed.

(** Deductions are handed over, and models read. *)
Lemma getDeduction_same (b : TSolver) : base_same b (getDeduction b).2 ∧ informed_PTRefs (getDeduction b).2 = informed_PTRefs b.
Proof.
  split; [constructor; [apply getDeduction_wf|..]|]; unfold getDeduction; by destruct (th_deductions b !! deductions_next b).
Qed.

Lemma deduction_search ph c lv A s : search ph c lv A s → search ph c lv A (with_base (getDeduction (base s)).2 s).
Proof.
  intros Sr. destruct (getDeduction_same (base s)) as [Bs Ei]. set (s' := with_base _ s).
  assert (core s' = core s) as E by (unfold core; simpl; by rewrite Ei). pose proof (search_declarable _ _ _ _ _ Sr) as D.
  apply (search_kept ph c lv A s); [done|exact (core_kept _ _ _ _ s s' E D)|done..|].
  destruct (sr_state _ _ _ _ _ Sr) as [(-> & Est & (U1 & U2 & U3) & _)|[Est R]].
  - left. split; [done|]. split; [done|]. split; [|by apply (core_declarable _ _ _ _ s)]. split; [done|]. split; [done|].
    change (base s') with (getDeduction (base s)).2. by rewrite Ei.
  - right. split; [done|]. by apply (core_ready _ _ _ _ s).
Qed.

Lemma model_search lv A s : search Ready (length lv) lv A s → status s = SAT →
  wp no_error (λ s', search Ready (length lv) lv A s' ∧ status s' = SAT) (LA_computeModel s).
Proof.
  intros Sr Est. eapply wp_mono; [by apply (computeModel_wp lv A s)|]. intros s' (ρv & z & m & -> & X & Hz & _).
  rewrite <- (settled_all (length lv) lv A s (sr_recorded _ _ _ _ _ Sr) (le_n _)) in Hz at 1.
  destruct (search_moved (length lv) lv A s Ready (length lv) z (base s) SAT (explanation s) (explanationCoefficients s) Sr Est X Hz)
    as [K Sr']; [apply base_ext_refl|by left|done|]. split; [|done].
  set (s1 := with_base _ _) in Sr'. set (s2 := with_concrete _ _). assert (core s2 = core s1) as E by done.
  pose proof (search_ready _ _ _ _ _ Sr' ltac:(done)) as R1.
  apply (search_kept Ready (length lv) lv A s1); [done|exact (core_kept _ _ _ _ s1 s2 E (lr_declarable _ _ _ _ _ R1))|done..|].
  right. split; [by left|]. by apply (core_ready _ _ _ _ s1).
Qed.

(** ** Every state reached is that of a search *)

Lemma search_phase ph c lv A s : search ph c lv A s → status s ≠ UNSAT → search Ready c lv A s.
Proof. intros Sr Hu. by destruct (sr_state _ _ _ _ _ Sr) as [(<- & _)|[[[_ <-]|?] _]]. Qed.

Lemma newly_recorded_is c c' lv x A A' s s' a o ph ph' accs : search ph c (lv ++ [x]) A s → lrec x = None →
  search ph' c' (lv ++ [MkLevel o accs]) A' s' → o = Some a ∨ o = None → newly_recorded a s s' = o.
Proof.
  intros Sr Hx Sr' Ho. unfold newly_recorded. rewrite (rc_trace _ _ _ (sr_recorded _ _ _ _ _ Sr)), (rc_trace _ _ _ (sr_recorded _ _ _ _ _ Sr')).
  rewrite !lits_app, !lits_one, Hx, !length_app. destruct Ho as [-> | ->]; simpl.
  - by rewrite (proj2 (Nat.eqb_neq _ _)) by lia.
  - by rewrite Nat.eqb_refl.
Qed.

Lemma stable_check c lv A s k r : search Ready c lv A s → status s ≠ UNSAT →
  (∀ k', k ≤ k' → check_simplex order k' s = Ok r) → checked c lv A s r.1 r.2.
Proof.
  intros Sr Hu Hk. destruct (check_search order c lv A s Order Sr Hu) as (n & r' & Hn & Hr).
  specialize (Hn (Nat.max k n) (Nat.le_max_r _ _)). rewrite Hk in Hn by lia. by injection Hn as <-.
Qed.

Lemma reach_search c lv s : reach c lv s → ∃ ph A, search ph c lv A s.
Proof.
  induction 1 as [l W|c lv s l _ (ph & A & Sr) W Hle|c lv s leq s' _ (ph & A & Sr) Hu Ha E|c lv s _ (ph & A & Sr) Hu
    |c lv x s a s' _ (ph & A & Sr) Hu Hx (Ha1 & Ha2 & Ha3 & Ha4) E|c lv x s a s' _ (ph & A & Sr) Hu Hx (Ha1 & Ha2 & Ha3 & Ha4) E
    |c lv s k s' _ (ph & A & Sr) Hu E|c lv s k s' _ (ph & A & Sr) Hu E|c lv s _ (ph & A & Sr)|lv s s' _ (ph & A & Sr) Est E
    |c lv lw s s' _ (ph & A & Sr) Hi Hc E].
  - exists Ready, []. by apply search_init.
  - exists ph, A. by apply terms_search.
  - apply search_phase in Sr; [|done]. destruct (wp_Ok _ _ _ _ (declare_search c lv A s leq Sr Hu Ha) E) as [Sr' _]. eauto.
  - apply search_phase in Sr; [|done]. destruct (push_search c lv A s Sr Hu). eauto.
  - apply search_phase in Sr; [|done].
    destruct (wp_Ok _ _ _ _ (assert_search order c lv x A s a Order Sr Hu Hx Ha1 Ha2 Ha3 Ha4) E) as (_ & _ & o & A' & Ho & Sr').
    rewrite (newly_recorded_is _ _ lv x _ _ s s' a o _ _ _ Sr Hx Sr'); [eauto|tauto].
  - apply search_phase in Sr; [|done].
    destruct (wp_Ok _ _ _ _ (assert_search order c lv x A s a Order Sr Hu Hx Ha1 Ha2 Ha3 Ha4) E) as (_ & _ & Sr' & _). eauto.
  - apply search_phase in Sr; [|done]. destruct (stable_check c lv A s k _ Sr Hu E) as (_ & _ & Sr'). eauto.
  - apply search_phase in Sr; [|done]. destruct (stable_check c lv A s k _ Sr Hu E) as (_ & _ & Sr' & _). eauto.
  - exists ph, A. by apply deduction_search.
  - apply search_phase in Sr; [|congruence]. destruct (wp_Ok _ _ _ _ (model_search lv A s Sr Est) E) as [Sr' _]. eauto.
  - destruct (wp_Ok _ _ _ _ (pop_search ph c lv lw A s Sr Hi Hc) E) as [Sr' _]. eauto.
Qed.

End reach.

(** * A run of the linear arithmetic solver

    The states of a small problem over the standard library's rationals: [1 ≤ x],
    [1 ≤ y], [1 ≤ x + y] and [2 ≤ x], to which the theorems are applied. *)

Definition ex_nodes : list (Node Qc) :=
  [MkNode (sym_bool 0) []; MkNode (sym_bool 1) [];
   MkNode (sym_const IntSort 1%Qc) []; MkNode (sym_const IntSort (-(1))%Qc) [];
   MkNode (sym_const RealSort 1%Qc) []; MkNode (sym_const RealSort (-(1))%Qc) [];
   MkNode (sym_var RealSort 0) []; MkNode (sym_var RealSort 1) [];
   MkNode (sym_PLUS RealSort) [6; 7];
   MkNode (sym_LEQ RealSort) [4; 6]; MkNode (sym_LEQ RealSort) [4; 7]; MkNode (sym_LEQ RealSort) [4; 8];
   MkNode (sym_const RealSort (1 + 1)%Qc) []; MkNode (sym_LEQ RealSort) [12; 6]].

Definition ex_logic : ArithLogic Qc := MkArithLogic ex_nodes
  [(sym_bool 0, 0); (sym_bool 1, 1); (sym_const IntSort 1%Qc, 2); (sym_const IntSort (-(1))%Qc, 3);
   (sym_const RealSort 1%Qc, 4); (sym_const RealSort (-(1))%Qc, 5); (sym_var RealSort 0, 6); (sym_var RealSort 1, 7);
   (sym_const RealSort (1 + 1)%Qc, 12)]
  [(sym_PLUS RealSort, [6; 7], 8); (sym_LEQ RealSort, [4; 6], 9); (sym_LEQ RealSort, [4; 7], 10);
   (sym_LEQ RealSort, [4; 8], 11); (sym_LEQ RealSort, [12; 6], 13)]
  0 1 (λ so, if decide (so = IntSort) then 2 else 4) (λ so, if decide (so = IntSort) then 3 else 5).

Lemma ex_logic_wf : logic_wf ex_logic.
Proof.
  constructor.
  - intros t n a Hn. do 14 (destruct t as [|t]; [injection Hn as <-; simpl; rewrite ?elem_of_cons, ?elem_of_nil; intros Ha; lia|]). done.
  - intros f t Ht. simpl in Ht. rewrite ?elem_of_cons, ?elem_of_nil in Ht.
    destruct_or! Ht; try done; injection Ht as -> ->; reflexivity.
  - intros f t Hn. do 14 (destruct t as [|t]; [first [discriminate Hn | injection Hn as <-; vm_compute; reflexivity]|]). done.
  - intros f args t Ht. simpl in Ht. rewrite ?elem_of_cons, ?elem_of_nil in Ht.
    destruct_or! Ht; try done; injection Ht as -> -> ->; done.
  - intros f args t Hn. do 14 (destruct t as [|t]; [injection Hn as <- <-; try done; intros _ _; vm_compute; reflexivity|]). done.
  - intros t so c args Hn. do 14 (destruct t as [|t]; [by injection Hn|]). done.
  - intros []; eexists; done.
  - intros []; eexists; done.
Qed.

(** ** Terms *)

Lemma ex_plain t so name : pterms ex_logic !! t = Some (MkNode (sym_var so name) []) → plain ex_logic t.
Proof. intros Ht. by eexists. Qed.

Lemma ex_factor t name : pterms ex_logic !! t = Some (MkNode (sym_var RealSort name) []) → nfactor ex_logic RealSort t t 1%Qc.
Proof. intros Ht. by eapply nf_var. Qed.

Lemma ex_reg_var t name : pterms ex_logic !! t = Some (MkNode (sym_var RealSort name) []) →
  reg_term ex_logic RealSort t [(t, 1%Qc)].
Proof.
  intros Ht. split; [split; [constructor; by eapply ex_factor|]|].
  - intros x ->%list_elem_of_singleton. by eapply ex_plain.
  - intros x q [= <- <-]. by left.
Qed.

Lemma ex_reg_sum : reg_term ex_logic RealSort 8 [(6, 1%Qc); (7, 1%Qc)].
Proof.
  split; [split|done].
  - eapply (lin_sum _ _ 8 [6; 7]); [done|simpl; lia| |].
    + repeat constructor; by eapply ex_factor.
    + simpl. repeat constructor.
  - intros x [->|[->|?%not_elem_of_nil]%elem_of_cons]%elem_of_cons; [by eapply ex_plain..|done].
Qed.

Lemma ex_atom9 : is_atom ex_logic 9.
Proof. exists RealSort, 1%Qc, 6, [(6, 1%Qc)]. exists 4. split; [done|]. split; [done|]. by eapply ex_reg_var. Qed.
Lemma ex_atom10 : is_atom ex_logic 10.
Proof. exists RealSort, 1%Qc, 7, [(7, 1%Qc)]. exists 4. split; [done|]. split; [done|]. by eapply ex_reg_var. Qed.
Lemma ex_atom11 : is_atom ex_logic 11.
Proof. exists RealSort, 1%Qc, 8, [(6, 1%Qc); (7, 1%Qc)]. exists 4. split; [done|]. split; [done|]. apply ex_reg_sum. Qed.
Lemma ex_atom13 : is_atom ex_logic 13.
Proof. exists RealSort, (1 + 1)%Qc, 6, [(6, 1%Qc)]. exists 12. split; [done|]. split; [done|]. by eapply ex_reg_var. Qed.

Lemma ex_real_only t : ¬ int_term ex_logic t.
Proof. intros (n & Hn & Hv & Hs). do 14 (destruct t as [|t]; [injection Hn as <-; done|]). done. Qed.

(** ** The run *)

Definition ex_order (infos : list BoundInfo) : list LVRef := remove_dups (bi_v <$> infos).
Lemma ex_Order infos : keys_of infos (ex_order infos).
Proof. split; [apply NoDup_remove_dups|]. intros v. apply elem_of_remove_dups. Qed.

Definition ex_declare (leq : PTRef) (s : LASolver Qc) : LASolver Qc := get s (LA_declareAtom leq s).
Definition ex_declared : LASolver Qc := ex_declare 13 (ex_declare 11 (ex_declare 10 (ex_declare 9 (LASolver_init ex_logic)))).

(** A literal on a level of its own, and a check. *)
Definition ex_lit (t : PTRef) (sg : lbool) (s : LASolver Qc) : bool * LASolver Qc :=
  get (false, s) (LA_assertLit ex_order (MkPtAsgn t sg) (LA_pushBacktrackPoint s)).
Definition ex_check (s : LASolver Qc) : bool * LASolver Qc := get (false, s) (check_simplex ex_order 10 s).

(** [2 ≤ x], from which [1 ≤ x] is deduced and then accepted without a bound;
    [1 ≤ y]; consistent.  Then [x + y < 1], which is not. *)
Definition ex_s1 : LASolver Qc := (ex_lit 13 l_True ex_declared).2.
Definition ex_s2 : LASolver Qc := (ex_lit 9 l_True ex_s1).2.
Definition ex_s3 : LASolver Qc := (ex_lit 10 l_True ex_s2).2.
Definition ex_ok : LASolver Qc := (ex_check ex_s3).2.
Definition ex_s4 : LASolver Qc := (ex_lit 11 l_False ex_ok).2.
Definition ex_bad : LASolver Qc := (ex_check ex_s4).2.

Definition lit13 : PtAsgn := MkPtAsgn 13 l_True.
Definition lit9 : PtAsgn := MkPtAsgn 9 l_True.
Definition lit10 : PtAsgn := MkPtAsgn 10 l_True.
Definition not11 : PtAsgn := MkPtAsgn 11 l_False.
Definition lv3 : list Level := [MkLevel (Some lit13) [lit13]; MkLevel None [lit9]; MkLevel (Some lit10) [lit10]].
Definition lv4 : list Level := lv3 ++ [MkLevel (Some not11) [not11]].

(** ** The states are reached *)

Lemma ex_step c lv s t sg x o : reach ex_order c lv s → status s ≠ UNSAT → assertable (LA_pushBacktrackPoint s) (MkPtAsgn t sg) →
  is_ok (LA_assertLit ex_order (MkPtAsgn t sg) (LA_pushBacktrackPoint s)) = true → (ex_lit t sg s).1 = true →
  newly_recorded (MkPtAsgn t sg) (LA_pushBacktrackPoint s) (ex_lit t sg s).2 = o → x = MkLevel o [MkPtAsgn t sg] →
  reach ex_order (Nat.min c (length lv)) (lv ++ [x]) (ex_lit t sg s).2.
Proof.
  intros Hr Hu Ha Hok Ht Ho ->. apply (get_ok (false, LA_pushBacktrackPoint s)) in Hok.
  rewrite <- Ho. eapply (re_assert ex_order c lv new_level _ (MkPtAsgn t sg)); [by apply re_push|done|done|done|].
  unfold ex_lit in *. destruct (LA_assertLit ex_order (MkPtAsgn t sg) (LA_pushBacktrackPoint s)) as [[ok s']|]; [|done].
  simpl in *. by subst ok.
Qed.

Lemma check_more s k k' r : check_simplex ex_order k s = Ok r → k ≤ k' → check_simplex (N := Qc) ex_order k' s = Ok r.
Proof.
  unfold check_simplex. destruct (ensure_init ex_order s) as [s1|]; cbn [rbind]; [|done]. apply check_started_more.
Qed.

Lemma ex_checked s (ok : bool) : is_ok (check_simplex ex_order 10 s) = true → (ex_check s).1 = ok →
  ∀ k', 10 ≤ k' → check_simplex ex_order k' s = Ok (ok, (ex_check s).2).
Proof.
  intros Hok Ht k' Hk. apply (get_ok (false, s)) in Hok. apply (check_more s 10 k'); [|done].
  unfold ex_check in *. destruct (check_simplex ex_order 10 s) as [[ok' s']|]; [|done]. simpl in *. by subst ok'.
Qed.

Lemma ex_declare_reach leq s : reach ex_order 0 [] s → status s = INIT → is_atom (logic s) leq →
  is_ok (LA_declareAtom leq s) = true → reach ex_order 0 [] (ex_declare leq s).
Proof. intros Hr Hu Ha Hok. eapply re_declare; [exact Hr|congruence|exact Ha|by apply get_ok]. Qed.

Lemma ex_declared_reach : reach ex_order 0 [] ex_declared.
Proof.
  repeat apply ex_declare_reach; try (vm_compute; reflexivity); [apply re_init, ex_logic_wf|..].
  - exact ex_atom9.
  - exact ex_atom10.
  - exact ex_atom11.
  - exact ex_atom13.
Qed.

(** Literals of the declared inequalities. *)
Ltac ex_assertable := split; [apply (bool_decide_unpack _); vm_compute; exact I | split; [done | split; vm_compute; discriminate]].

Lemma ex_s1_reach : reach ex_order 0 (take 1 lv3) ex_s1.
Proof.
  apply (ex_step 0 [] ex_declared 13 l_True _ (Some lit13) ex_declared_reach);
    [vm_compute; discriminate|ex_assertable|vm_compute; reflexivity..].
Qed.
Lemma ex_s2_reach : reach ex_order 0 (take 2 lv3) ex_s2.
Proof.
  apply (ex_step 0 (take 1 lv3) ex_s1 9 l_True _ None ex_s1_reach);
    [vm_compute; discriminate|ex_assertable|vm_compute; reflexivity..].
Qed.
Lemma ex_s3_reach : reach ex_order 0 lv3 ex_s3.
Proof.
  apply (ex_step 0 (take 2 lv3) ex_s2 10 l_True _ (Some lit10) ex_s2_reach);
    [vm_compute; discriminate|ex_assertable|vm_compute; reflexivity..].
Qed.
Lemma ex_ok_reach : reach ex_order 3 lv3 ex_ok.
Proof.
  apply (re_check ex_order 0 lv3 ex_s3 10 _ ex_s3_reach); [vm_compute; discriminate|].
  apply ex_checked; vm_compute; reflexivity.
Qed.
Lemma ex_s4_reach : reach ex_order 3 lv4 ex_s4.
Proof.
  apply (ex_step 3 lv3 ex_ok 11 l_False _ (Some not11) ex_ok_reach);
    [vm_compute; discriminate|ex_assertable|vm_compute; reflexivity..].
Qed.
Lemma ex_bad_reach : reach ex_order 3 lv4 ex_bad.
Proof.
  apply (re_fail ex_order 3 lv4 ex_s4 10 _ ex_s4_reach); [vm_compute; discriminate|].
  apply ex_checked; vm_compute; reflexivity.
Qed.

(** ** Declaring while a search is on *)

Definition ex_first : LASolver Qc := ex_declare 9 (LASolver_init ex_logic).
Definition ex_started : LASolver Qc := (ex_check ex_first).2.

Lemma ex_started_reach : reach ex_order 0 [] ex_started.
Proof.
  assert (reach ex_order 0 [] ex_first) as Hr.
  { apply ex_declare_reach; [apply re_init, ex_logic_wf|done|exact ex_atom9|vm_compute; reflexivity]. }
  apply (re_check ex_order 0 [] ex_first 10 _ Hr); [vm_compute; discriminate|]. apply ex_checked; vm_compute; reflexivity.
Qed.

Lemma ex_started_logic : logic_le ex_logic (logic ex_started).
Proof. constructor; [exists (drop 14 (pterms (logic ex_started)))|..]; vm_compute; reflexivity. Qed.

(** No integer variables. *)
Lemma real_check (l : ArithLogic Qc) :
  forallb (λ n, negb ((is_var (nsym n) || is_ite (nsym n)) && bool_decide (sort_of (nsym n) = Some IntSort))) (pterms l) = true →
  ∀ t, ¬ int_term l t.
Proof.
  intros Hf t (n & Hn & Hv & Hs). rewrite forallb_forall in Hf. specialize (Hf n).
  rewrite Hv, bool_decide_true in Hf by done. discriminate Hf. by apply list_elem_of_In, list_elem_of_lookup_2 with t.
Qed.
