(* ===== verification/LATheorems.v ===== *)
(** * The linear arithmetic solver: what its callers rely on

    The theorems about the states of the solver, and a run over the standard
    library's rationals to apply them to. *)
From stdpp Require Import gmap.
From S2P Require Import Prelude Gmp FastRationalInt Number Lex Delta Polynomial Tableau TableauFacts LABounds LABuild LRAModel Simplex.
From S2P Require Import SimplexFacts SimplexSelect SimplexClient SimplexSession Terms TSolver ArithTerms LASolver LAMapper LARegister LAAtoms.
From S2P Require Import LADeclare LASearch LASteps LAReach.
From Stdlib Require Import Lia.

#[local] Open Scope nat_scope.

Section theorems.
Context {N : Type} `{Number N}.
Implicit Types (s : LASolver N) (t leq : PTRef) (a : PtAsgn) (ρ : PTRef → Qc) (A : list event) (lv lw : list Level) (x : Level)
  (L : list PtAsgn).
Context (order : list BoundInfo → list LVRef) (Order : ∀ infos, keys_of infos (order infos)).

Definition lits_hold (l : ArithLogic N) ρ L : Prop := ∀ a, a ∈ L → la_lit_holds l ρ a.
(** A problem over the reals only. *)
Definition real_only (l : ArithLogic N) : Prop := ∀ t, ¬ int_term l t.

(** Recorded literals were accepted. *)
Lemma reach_levels c lv s : reach order c lv s → Forall (λ x, ∀ a, lrec x = Some a → a ∈ lacc x) lv.
Proof.
  induction 1 as [| | | |c lv x s a s' _ IH _ _ _ _| | | | | |c lv lw s s' _ IH _ _ _]; try done.
  - apply Forall_app. split; [done|]. by constructor.
  - apply Forall_app in IH as [IH _]. apply Forall_app. split; [done|]. constructor; [|done].
    simpl. unfold newly_recorded. destruct (_ =? _); [done|]. intros b [= <-]. set_solver.
  - by apply Forall_app in IH as [IH _].
Qed.

Lemma lits_accepted c lv s a : reach order c lv s → a ∈ lits lv → a ∈ accepted lv.
Proof.
  intros Hl%reach_levels Ha. unfold lits in Ha. apply list_elem_of_omap in Ha as (x & Hx & Ea).
  rewrite Forall_forall in Hl. unfold accepted. apply list_elem_of_In, in_concat. exists (lacc x).
  split; apply list_elem_of_In; [by apply list_elem_of_fmap_2|by eapply Hl].
Qed.

(** What follows from bounds follows from literals. *)
Lemma implied_lits s L a ρ : atoms_inv s → (∀ b, b ∈ L → has_lit s b) → implied s L a → integral (logic s) ρ →
  lits_hold (logic s) ρ L → la_lit_holds (logic s) ρ a.
Proof.
  intros T HL [_ Hi] Hρ Hall. apply (bound_true_lit _ _ _ T), Hi. intros b Hb.
  apply (lit_bound_true _ _ _ T); [by apply HL|done|by apply Hall].
Qed.

Lemma reach_ready c lv s : reach order c lv s → status s ≠ UNSAT → ∃ A, search Ready c lv A s.
Proof. intros (ph & A & Sr)%reach_search Hu; [|done]. exists A. by apply (search_phase ph). Qed.

Lemma search_atoms ph c lv A s : search ph c lv A s → atoms_inv s ∧ reg_inv ph (settled_part c lv A) (marks lv) A s.
Proof. intros Sr%search_declarable. split; apply Sr. Qed.

(** The values satisfy the literals recorded, so no conflict among them. *)
Lemma conflict_excludes s L ρ : conflict s L → integral (logic s) ρ → ¬ lits_hold (logic s) ρ L.
Proof. intros C Hi Hall. apply (cf_refuted _ _ C ρ Hi). intros a Ha. by apply Hall, (cf_lits _ _ C). Qed.

Lemma real_integral (l : ArithLogic N) ρ : real_only l → integral l ρ.
Proof. intros Hr t Ht. by destruct (Hr t). Qed.

(** A state after a consistent check: some values satisfy what was accepted. *)
Lemma search_values lv A s : search Ready (length lv) lv A s → status s = SAT → ∃ ρ, lits_hold (logic s) ρ (accepted lv).
Proof.
  intros Sr Est. pose proof (computeModel_wp lv A s Sr Est) as Hw. apply wp_total in Hw as (s' & _ & ρv & z & m & _ & _ & _ & Hs & Hh & _).
  exists (terms_of s ρv). intros a Ha. apply (values_lits _ _ _ _ _ ρv a Sr Hs Hh). by right.
Qed.

(** C1: [check] returns, whatever more fuel it is given.  When it answers true,
    rational values of the terms satisfy every literal accepted on the open
    levels; when it answers false, the conflict consists of literals accepted
    on the open levels that no values satisfy together that are integers where
    the sort is.  So over the reals the answer is true exactly when the accepted
    literals are satisfiable. *)
Theorem LA_check_decides c lv s : reach order c lv s → status s ≠ UNSAT →
  ∃ k ok s', (∀ k', k ≤ k' → check_simplex order k' s = Ok (ok, s')) ∧ reach order (if ok then length lv else c) lv s'
    ∧ (if (ok : bool) then ∃ ρ, lits_hold (logic s') ρ (accepted lv) else conflict s' (accepted lv))
    ∧ (real_only (logic s') → ok = true ↔ ∃ ρ, lits_hold (logic s') ρ (accepted lv)).
Proof.
  intros Hr Hu. destruct (reach_ready c lv s Hr Hu) as [A Sr]. destruct (check_search order c lv A s Order Sr Hu) as (k & [ok s'] & E & _ & Hc).
  exists k, ok, s'. cbn [fst snd] in Hc. split; [done|]. destruct ok.
  - destruct Hc as [Est Sr']. pose proof (search_values lv A s' Sr' Est) as Hρ.
    split; [by eapply re_check|]. split; [done|]. intros _. tauto.
  - destruct Hc as (_ & Sr' & C). assert (conflict s' (accepted lv)) as C'.
    { destruct C as [C1 C2 C3 C4]. constructor; [|done..]. intros a Ha. eapply lits_accepted; [exact Hr|by apply C1]. }
    split; [by eapply re_fail|]. split; [done|]. intros Ho. split; [done|]. intros [ρ Hall].
    by destruct (conflict_excludes s' _ ρ C' (real_integral _ ρ Ho)).
Qed.

(** C2: asserting a literal returns.  Accepted, it is recorded on its level or
    it follows from the literals recorded on the levels before; refused, the
    conflict consists of those literals and the new one, and no values satisfy
    them together that are integers where the sort is. *)
Theorem LA_assertLit_correct c lv x s a : reach order c (lv ++ [x]) s → status s ≠ UNSAT → lrec x = None → assertable s a →
  ∃ ok s', LA_assertLit order a s = Ok (ok, s') ∧
    if (ok : bool)
    then let y := MkLevel (newly_recorded a s s') (lacc x ++ [a]) in
      reach order (Nat.min c (length lv)) (lv ++ [y]) s' ∧ decision_trace s' = lits (lv ++ [y])
      ∧ (lrec y = Some a ∨ ∀ ρ, integral (logic s') ρ → lits_hold (logic s') ρ (lits lv) → la_lit_holds (logic s') ρ a)
    else reach order c (lv ++ [x]) s' ∧ conflict s' (lits lv ++ [a]).
Proof.
  intros Hr Hu Hx Ha. destruct (reach_ready _ _ s Hr Hu) as [A Sr]. pose proof Ha as (Ha1 & Ha2 & Ha3 & Ha4).
  pose proof (assert_search order c lv x A s a Order Sr Hu Hx Ha1 Ha2 Ha3 Ha4) as Hw.
  apply wp_total in Hw as ([ok s'] & E & K & Hc). exists ok, s'. cbn [fst snd] in *. split; [done|]. destruct ok.
  - destruct Hc as (Est & o & A' & Ho & Sr').
    assert (newly_recorded a s s' = o) as Eo by (eapply newly_recorded_is; [exact Sr|exact Hx|exact Sr'|tauto]).
    split; [by eapply re_assert|]. rewrite Eo. split; [apply Sr'|]. destruct Ho as [->|[-> Hi]]; [by left|right].
    intros ρ Hρ Hall. apply (implied_lits s' (lits lv)); try done; [by apply (search_atoms _ _ _ _ _ Sr')|].
    intros b Hb. apply (dd_lits _ _ (sr_deduced _ _ _ _ _ Sr')). rewrite lits_app. apply elem_of_app. by left.
  - destruct Hc as (_ & _ & C). split; [by eapply re_refuse|done].
Qed.

(** C8: theory propagation is sound, level by level: a literal deduced while no
    more than [i] levels were open holds for all values, integers where the
    sort is, that satisfy the literals accepted on those levels. *)
Theorem LA_deductions_sound c lv s i d ρ : reach order c lv s → i ≤ length lv →
  d ∈ take (lim_at (base s) i) (th_deductions (base s)) → integral (logic s) ρ →
  lits_hold (logic s) ρ (accepted (take i lv)) → la_lit_holds (logic s) ρ (ded_lit d).
Proof.
  intros Hr Hi Hd Hρ Hall. destruct (reach_search order Order c lv s Hr) as (ph & A & Sr). pose proof (sr_deduced _ _ _ _ _ Sr) as Dd.
  apply (implied_lits s (lits (take i lv))); [by apply (search_atoms _ _ _ _ _ Sr)| |by apply (dd_ded _ _ Dd)|done|].
  - intros b Hb. apply (dd_lits _ _ Dd). by eapply lits_take.
  - intros b Hb. apply Hall. pose proof (reach_levels c lv s Hr) as Hl. unfold lits in Hb. apply list_elem_of_omap in Hb as (x & Hx & Eb).
    rewrite Forall_forall in Hl. unfold accepted. apply list_elem_of_In, in_concat. exists (lacc x).
    split; apply list_elem_of_In; [by apply list_elem_of_fmap_2|]. apply Hl; [|done].
    rewrite <- (take_drop i lv). apply elem_of_app. by left.
Qed.

(** C9: taking back levels, from a consistent state or from a conflict, returns
    to a state from which the search goes on: it answers true, its literals are
    those recorded on the levels left, and the literals known before mean what
    they meant. *)
Theorem LA_backtrack_recovers c lv lw s : reach order c (lv ++ lw) s → status s ≠ INIT → length lv ≤ c →
  ∃ s', LA_popBacktrackPoints (length lw) s = Ok s' ∧ reach order (length lv) lv s' ∧ getStatus s' = Ok (true, s')
    ∧ decision_trace s' = lits lv ∧ dec_limit s' = 0 :: marks lv
    ∧ ∀ a ρ, has_lit s a → has_lit s' a ∧ (la_lit_holds (logic s') ρ a ↔ la_lit_holds (logic s) ρ a).
Proof.
  intros Hr Hi Hc. destruct (reach_search order Order _ _ s Hr) as (ph & A & Sr).
  pose proof (pop_search ph c lv lw A s Sr Hi Hc) as Hw. apply wp_total in Hw as (s' & E & Sr' & Est & K).
  exists s'. split; [done|]. split; [by eapply re_pop|]. split; [unfold getStatus; by rewrite Est|].
  split; [apply Sr'|]. split; [apply Sr'|]. intros a ρ Ha. split; [by apply (kept_lit s)|].
  destruct (search_atoms _ _ _ _ _ Sr) as [T I]. destruct (search_atoms _ _ _ _ _ Sr') as [_ I'].
  apply (lit_mono (logic s)); [apply I|apply I'|apply K|]. destruct Ha as [br Ha].
  destruct (ai_asgn _ T br a Ha) as (b & so & k & t & xs & _ & _ & Hat & _). by exists so, k, t, xs.
Qed.

(** C3: after a consistent check [computeModel] and [fillTheoryFunctions] return
    a value for every variable the solver knows, and with these values every
    accepted literal holds. *)
Theorem LA_model_satisfies lv s : reach order (length lv) lv s → status s = SAT →
  ∃ s' acc ρ, LA_computeModel s = Ok s' ∧ reach order (length lv) lv s' ∧ LA_fillTheoryFunctions s' = Ok acc
    ∧ (∀ t q, (t, q) ∈ acc → ρ t = nval q) ∧ (∀ v t, names (laVarToPTRef s) v t → num_var s t → ∃ q, (t, q) ∈ acc)
    ∧ lits_hold (logic s) ρ (accepted lv).
Proof.
  intros Hr Est. destruct (reach_ready _ _ s Hr ltac:(congruence)) as [A Sr].
  pose proof (computeModel_wp lv A s Sr Est) as Hw. apply wp_total in Hw as (s' & E & ρv & z & m & -> & X & Hz & Hs & Hh & Hm).
  pose proof (re_model order lv s _ Hr Est E) as Hr'. set (s' := with_concrete m (with_simplex z s)) in *.
  destruct (search_atoms _ _ _ _ _ Sr) as [_ I]. rewrite (settled_all (length lv) lv A s) in I by (apply Sr || done).
  assert (reg_inv Ready A (marks lv) A s') as I' by by apply (reg_other _ _ _ _ (with_simplex z s)); [apply (reg_step _ _ _ _ s _ _ _ _ z I Hz X)|..].
  assert (boundStore_ s' = boundStore_ s) as Ebs by apply X.
  pose proof (fill_wp _ _ _ _ s' ρv I' ltac:(by rewrite Ebs)) as Hw. apply wp_total in Hw as (acc & Ef & H1 & H2).
  exists s', acc, (terms_of s ρv). split; [done|]. split; [done|]. split; [done|]. split; [|split; [exact H2|]].
  - intros t q Hq. destruct (H1 t q Hq) as [(n & Hn & Hv) (v & Hv' & ->)].
    assert (type_of (tableau (simplex s)) v ≠ NONE) as HT.
    { apply (de_complete _ _ _ _ _ (search_declarable _ _ _ _ _ Sr) v t Hv'). }
    rewrite <- (terms_of_tv _ _ _ _ _ ρv v I Hs HT). symmetry. apply (tv_plain _ _ _ _ _ _ v t I Hv').
    exists n. split; [done|]. by rewrite Hv.
  - intros a Ha. apply (values_lits _ _ _ _ _ ρv a Sr Hs Hh). by right.
Qed.

(** C10: declaring an inequality returns.  Once the solver is initialised,
    each of its two literals stands for one bound on the variable of its term;
    the bound implies the literal, and the literal implies the bound when the
    values are integers where the sort is: the rounding of the constants to
    integers loses nothing. *)
Theorem LA_declareAtom_means c lv s leq : reach order c lv s → status s ≠ UNSAT → is_atom (logic s) leq →
  ∃ s', LA_declareAtom leq s = Ok s' ∧ reach order c lv s' ∧ leq ∈ informed_PTRefs (base s')
    ∧ (status s' = SAT → ∀ sg, sg ≠ l_Undef → ∃ p v b, getBoundRefPair leq s' = Ok p ∧ getVarForLeq leq s' = Ok v
        ∧ get_bound (boundStore_ s') (if decide (sg = l_False) then p.2 else p.1) = Ok b ∧ lvref b = v
        ∧ ∀ ρ, (rat_bound (tv s' ρ) b → la_lit_holds (logic s') ρ (MkPtAsgn leq sg))
             ∧ (integral (logic s') ρ → la_lit_holds (logic s') ρ (MkPtAsgn leq sg) → rat_bound (tv s' ρ) b)).
Proof.
  intros Hr Hu Ha. destruct (reach_ready _ _ s Hr Hu) as [A Sr]. pose proof (declare_search c lv A s leq Sr Hu Ha) as Hw.
  apply wp_total in Hw as (s' & E & Sr' & K & Hin). exists s'. split; [done|]. split; [by eapply re_declare|]. split; [done|].
  intros Est sg Hs. pose proof (search_ready _ _ _ _ _ Sr' ltac:(congruence)) as R. destruct (search_atoms _ _ _ _ _ Sr') as [T _].
  destruct (literal_bound _ _ _ _ s' (MkPtAsgn leq sg) R Hin Hs) as (p & v & Ep & [Hv Has (b & Hb & Hbv) _ _]).
  exists p, v, b. split; [done|]. split; [done|]. split; [unfold get_bound, at_; cbn [sgn] in Hb; by rewrite Hb|]. split; [done|].
  destruct (ai_asgn _ T _ _ Has) as (b' & so & k & t & xs & Hb' & _ & _ & _ & Hm). assert (b' = b) as -> by congruence. exact Hm.
Qed.

(** C22: registering the term of an inequality returns a variable.  The values
    of the terms, for any values of their variables, satisfy the rows of the
    tableau; and in every rational solution of the rows the variable has the
    value of the term, negated if its leading coefficient is negative. *)
Theorem registerArithmeticTerm_means c lv s t so xs : reach order c lv s → status s = SAT → reg_term (logic s) so t xs →
  ∃ v s', registerArithmeticTerm t s = Ok (v, s') ∧ getVarForTerm t s' = Ok v
    ∧ (∀ ρ, rat_solution (tableau (simplex s')) (tv s' ρ) ∧ tv s' ρ v = lval ρ (norm xs))
    ∧ ∀ ρv, rat_solution (tableau (simplex s')) ρv → ρv v = lval (terms_of s' ρv) (norm xs).
Proof.
  intros Hr Est Ht. destruct (reach_ready _ _ s Hr ltac:(congruence)) as [A Sr]. destruct (search_atoms _ _ _ _ _ Sr) as [_ I].
  pose proof (registerArithmeticTerm_wp _ _ _ s so t xs I (de_complete _ _ _ _ _ (search_declarable _ _ _ _ _ Sr)) Ht) as Hw.
  apply wp_total in Hw as ([v s'] & E & [I' Hc' L Hm]). cbn [fst snd] in *. exists v, s'. split; [done|].
  split; [unfold getVarForTerm, getVarByPTId, at_; by rewrite Hm|].
  assert (linear (logic s') so t xs) as Hl by (eapply linear_mono; [apply L|apply Ht]).
  assert (∀ ρ, tv s' ρ v = lval ρ (norm xs)) as Etv by (intros ρ; by apply (tv_norm _ _ _ _ s' t v so xs ρ I')).
  split; [intros ρ; split; [apply I'|apply Etv]|]. intros ρv Hs. rewrite <- Etv. symmetry.
  apply (terms_of_tv _ _ _ _ s' ρv v I' Hs). destruct (mp_back _ _ _ (ri_map _ _ _ _ _ I') t v Hm) as (t0 & _ & _ & Hn & _).
  by eapply Hc'.
Qed.

(** the negation of a normalised linear term: [mkNeg] returns the term with
    the same variables and the opposite coefficients, whose value is the
    opposite, and negating that gives the first term again, not a copy of it. *)
Theorem mkNeg_round_trip (l : ArithLogic N) so t xs : logic_wf l → linear l so t xs →
  ∃ t' l' l2, mkNeg t l = Ok (t', l') ∧ linear l' so t' (negated xs) ∧ (∀ ρ, term_val l' ρ t' = (- term_val l ρ t)%Qc)
    ∧ mkNeg t' l' = Ok (t, l2) ∧ logic_wf l2 ∧ logic_le l l2.
Proof.
  intros W Hl. destruct (mkNeg_ok l so t xs W Hl) as (t' & l' & E & W' & Hle & Hl').
  destruct (mkNeg_twice l so t xs t' l' W Hl E) as (l2 & E2 & Hle2 & W2). exists t', l', l2.
  split; [done|]. split; [done|]. split; [|split; [done|split; [done|by eapply logic_le_trans]]].
  intros ρ. by rewrite (linear_value l' so t' _ ρ W' Hl'), (linear_value l so t xs ρ W Hl), lval_negated.
Qed.

(** C23: in every state the solver reaches its tables agree: terms are shared,
    every simplex variable names a term and the term and its negation lead back
    to it, every bound stands for a literal and the pair of an inequality for
    its two literals, decisions are the recorded literals, level by level, and
    the variables marked as integers have integer values. *)
Theorem LA_state_well_formed c lv s : reach order c lv s →
  logic_wf (logic s) ∧ mapper_ok (logic s) (ptermToLavar s) (laVarToPTRef s) ∧ atoms_inv s
  ∧ (∀ v, v ∈ lvstore (boundStore_ s) ↔ ∃ t, getVarPTRef v s = Ok t)
  ∧ decision_trace s = lits lv ∧ (int_decisions s).*1 = lits lv ∧ dec_limit s = 0 :: marks lv
  ∧ length (deductions_lim (base s)) = length lv ∧ tab_inv (tableau (simplex s))
  ∧ ∀ v ρ, isIntVar v s = true → integral (logic s) ρ → is_int (tv s ρ v).
Proof.
  intros Hr. destruct (reach_search order Order _ _ s Hr) as (ph & A & Sr). destruct (search_atoms _ _ _ _ _ Sr) as [T I].
  split; [apply I|]. split; [apply I|]. split; [done|]. split.
  { intros v. rewrite (ri_lv _ _ _ _ _ I), elem_of_seq. pose proof (ri_named _ _ _ _ _ I v) as Hn.
    assert ((∃ t, getVarPTRef v s = Ok t) ↔ ∃ t, names (laVarToPTRef s) v t) as ->; [|rewrite <- Hn; lia].
    unfold getVarPTRef, at_, names. destruct (laVarToPTRef s !! v) as [[t|]|]; simpl; split; intros [t' Ht']; try done; by exists t. }
  split; [apply Sr|]. split; [apply Sr|]. split; [apply Sr|]. split; [apply Sr|]. split.
  - eapply session_tab, I.
  - intros v ρ Hv Hρ. apply isIntVar_iff in Hv. by apply (ri_int _ _ _ _ _ I v Hv).
Qed.

End theorems.

(** ** Witnesses *)

Lemma ex_not_unsat (s : LASolver Qc) : bool_decide (status s = UNSAT) = false → status s ≠ UNSAT.
Proof. by intros ?%bool_decide_eq_false. Qed.

Lemma LA_check_decides_witness : ∃ ok s', (∃ k, ∀ k', k ≤ k' → check_simplex ex_order k' ex_s4 = Ok (ok, s'))
  ∧ (if (ok : bool) then ∃ ρ, lits_hold (logic s') ρ (accepted lv4) else conflict s' (accepted lv4)).
Proof.
  destruct (LA_check_decides ex_order ex_Order 3 lv4 ex_s4 ex_s4_reach) as (k & ok & s' & E & _ & Hc & _).
  - apply ex_not_unsat. vm_compute. reflexivity.
  - exists ok, s'. split; [exists k; exact E|exact Hc].
Defined.

Lemma LA_assertLit_correct_witness : ∃ ok s', LA_assertLit ex_order (MkPtAsgn 11 l_False) (LA_pushBacktrackPoint ex_ok) = Ok (ok, s')
  ∧ (ok = false → conflict s' (lits lv3 ++ [not11])).
Proof.
  destruct (LA_assertLit_correct ex_order ex_Order 3 lv3 new_level (LA_pushBacktrackPoint ex_ok) not11) as (ok & s' & E & Hc).
  - apply re_push; [exact ex_ok_reach|]. apply ex_not_unsat. vm_compute. reflexivity.
  - apply ex_not_unsat. vm_compute. reflexivity.
  - reflexivity.
  - ex_assertable.
  - exists ok, s'. split; [exact E|]. intros ->. exact (proj2 Hc).
Defined.

Lemma LA_deductions_sound_witness : la_lit_holds (logic ex_s1) (λ _, (1 + 1)%Qc) lit9.
Proof.
  apply (LA_deductions_sound ex_order ex_Order 0 (take 1 lv3) ex_s1 1 (MkPtAsgn_reason 9 l_True None) (λ _, (1 + 1)%Qc)).
  - exact ex_s1_reach.
  - apply le_n.
  - assert (take (lim_at (base ex_s1) 1) (th_deductions (base ex_s1)) = [MkPtAsgn_reason 9 l_True None]) as -> by (vm_compute; reflexivity).
    by left.
  - apply real_integral. exact (real_check (logic ex_s1) ltac:(vm_compute; reflexivity)).
  - intros a Ha. apply list_elem_of_singleton in Ha as ->. vm_compute. discriminate.
Defined.

Lemma LA_backtrack_recovers_witness : ∃ s', LA_popBacktrackPoints 1 ex_bad = Ok s' ∧ getStatus s' = Ok (true, s')
  ∧ decision_trace s' = [lit13; lit10].
Proof.
  destruct (LA_backtrack_recovers ex_order ex_Order 3 lv3 [MkLevel (Some not11) [not11]] ex_bad) as (s' & E & _ & H1 & H2 & _).
  - exact ex_bad_reach.
  - vm_compute. discriminate.
  - apply le_n.
  - exists s'. split; [exact E|]. split; [exact H1|exact H2].
Defined.

Lemma LA_model_satisfies_witness : ∃ s' acc ρ, LA_computeModel ex_ok = Ok s' ∧ LA_fillTheoryFunctions s' = Ok acc
  ∧ (∀ t q, (t, q) ∈ acc → ρ t = nval q) ∧ lits_hold (logic ex_ok) ρ [lit13; lit9; lit10].
Proof.
  destruct (LA_model_satisfies ex_order ex_Order lv3 ex_ok) as (s' & acc & ρ & E1 & _ & E2 & H1 & _ & H2).
  - exact ex_ok_reach.
  - vm_compute. reflexivity.
  - exists s', acc, ρ. split; [exact E1|]. split; [exact E2|]. split; [exact H1|exact H2].
Defined.

Lemma LA_declareAtom_means_witness : ∃ s', LA_declareAtom 11 ex_started = Ok s' ∧ reach ex_order 0 [] s'.
Proof.
  destruct (LA_declareAtom_means ex_order ex_Order 0 [] ex_started 11) as (s' & E & H1 & _).
  - exact ex_started_reach.
  - apply ex_not_unsat. vm_compute. reflexivity.
  - destruct ex_atom11 as (so & c & t & xs & Ha). exists so, c, t, xs. exact (atom_mono _ _ _ _ _ _ _ ex_started_logic Ha).
  - exists s'. split; [exact E|exact H1].
Defined.

Lemma registerArithmeticTerm_means_witness : ∃ v s', registerArithmeticTerm 8 ex_started = Ok (v, s') ∧ getVarForTerm 8 s' = Ok v.
Proof.
  destruct (registerArithmeticTerm_means ex_order ex_Order 0 [] ex_started 8 RealSort [(6, 1%Qc); (7, 1%Qc)]) as (v & s' & E & H1 & _).
  - exact ex_started_reach.
  - vm_compute. reflexivity.
  - destruct ex_reg_sum as [Hl Hq]. split; [exact (lin_mono _ _ _ _ _ ex_started_logic Hl)|exact Hq].
  - exists v, s'. split; [exact E|exact H1].
Defined.

Lemma mkNeg_round_trip_witness : ∃ t' l' l2, mkNeg 8 ex_logic = Ok (t', l') ∧ mkNeg t' l' = Ok (8, l2).
Proof.
  destruct (mkNeg_round_trip ex_logic RealSort 8 [(6, 1%Qc); (7, 1%Qc)] ex_logic_wf (proj1 (proj1 ex_reg_sum)))
    as (t' & l' & l2 & E1 & _ & _ & E2 & _).
  exists t', l', l2. split; [exact E1|exact E2].
Defined.

Lemma LA_state_well_formed_witness : logic_wf (logic ex_bad) ∧ dec_limit ex_bad = [0; 0; 1; 1; 2].
Proof.
  destruct (LA_state_well_formed ex_order ex_Order 3 lv4 ex_bad ex_bad_reach) as (H1 & _ & _ & _ & _ & _ & H2 & _).
  split; [exact H1|exact H2].
Defined.
