(* ===== verification/BoolTerms.v ===== *)
(** * Boolean terms

    The part of the term manager the conversion to clauses works on:
    pterms/PtStore.cc and [Logic::mkFun] (hash-consing), the declarations of
    symbols/Symbol.h, and of logics/Logic.cc the classification of terms, the
    check of sorts and the constructors of Boolean terms with their
    simplifications.

    A [PTRef] is the number of the term in creation order, which is also its
    identifier; a sort is a number, 0 is the sort of the Booleans.
    [PTRef_Undef], which the constructors return on arguments of other sorts, is
    [None]. *)
From S2P Require Import Prelude Sort NatSet Terms.
From stdpp Require Import strings sorting.
From Stdlib Require Import Lia.

#[local] Open Scope nat_scope.

(** ** Symbols *)

Inductive SymbolProperty : Type := NoProperty | LeftAssoc | RightAssoc | Chainable | Pairwise.
#[export] Instance SymbolProperty_eq_dec : EqDecision SymbolProperty.
Proof. solve_decision. Defined.

Abbreviation SRef := nat (only parsing).
Definition sort_BOOL : SRef := 0.

Record Symbol : Type := MkSymbol {
  sym_name : string;
  rsort : SRef;
  sym_args : list SRef;
  sym_commutes : bool;
  noScoping : bool;
  sym_interpreted : bool;
  sym_type : SymbolProperty;
  sym_constant : bool;      (** [Logic::constants] *)
}.
#[export] Instance Symbol_eq_dec : EqDecision Symbol.
Proof. solve_decision. Defined.

(** The symbols the constructor of [Logic] declares, and the others. *)
Inductive BSym : Type :=
| sym_TRUE | sym_FALSE
| sym_AND | sym_OR | sym_XOR | sym_NOT | sym_EQ | sym_IMPLIES | sym_DISTINCT | sym_ITE
| sym_other (f : Symbol).
#[export] Instance BSym_eq_dec : EqDecision BSym.
Proof. solve_decision. Defined.

Definition symbol (f : BSym) : Symbol :=
  match f with
  | sym_TRUE => MkSymbol "true" sort_BOOL [] false false false NoProperty true
  | sym_FALSE => MkSymbol "false" sort_BOOL [] false false false NoProperty true
  | sym_AND => MkSymbol "and" sort_BOOL [sort_BOOL; sort_BOOL] true true true LeftAssoc false
  | sym_OR => MkSymbol "or" sort_BOOL [sort_BOOL; sort_BOOL] true true true LeftAssoc false
  | sym_XOR => MkSymbol "xor" sort_BOOL [sort_BOOL; sort_BOOL] true true true LeftAssoc false
  | sym_NOT => MkSymbol "not" sort_BOOL [sort_BOOL] false true true NoProperty false
  | sym_EQ => MkSymbol "=" sort_BOOL [sort_BOOL; sort_BOOL] true true true Chainable false
  | sym_IMPLIES => MkSymbol "=>" sort_BOOL [sort_BOOL; sort_BOOL] false true true NoProperty false
  | sym_DISTINCT => MkSymbol "distinct" sort_BOOL [sort_BOOL; sort_BOOL] true true true Pairwise false
  | sym_ITE => MkSymbol "ite" sort_BOOL [sort_BOOL; sort_BOOL; sort_BOOL] false true true NoProperty false
  | sym_other f => f
  end.

(** [instantiateFunctions]: equality, [distinct] and [ite] of another sort. *)
Definition sortToEquality (s : SRef) : BSym :=
  if s =? sort_BOOL then sym_EQ else sym_other (MkSymbol "=" sort_BOOL [s; s] true true true Chainable false).
Definition sortToDisequality (s : SRef) : BSym :=
  if s =? sort_BOOL then sym_DISTINCT
  else sym_other (MkSymbol "distinct" sort_BOOL [s; s] true true true Pairwise false).
Definition sortToIte (s : SRef) : BSym :=
  if s =? sort_BOOL then sym_ITE
  else sym_other (MkSymbol "ite" s [sort_BOOL; s; s] false true true NoProperty false).

(** [equalities.has(sym)]: the table holds what [instantiateFunctions] declares. *)
Definition isEquality_sym (f : BSym) : bool :=
  match sym_args (symbol f) with s :: _ => bool_decide (f = sortToEquality s) | [] => false end.
Definition isDisequality_sym (f : BSym) : bool :=
  match sym_args (symbol f) with s :: _ => bool_decide (f = sortToDisequality s) | [] => false end.

Definition isBooleanOperator_sym (f : BSym) : bool :=
  match f with
  | sym_AND | sym_OR | sym_NOT | sym_EQ | sym_XOR | sym_ITE | sym_IMPLIES | sym_DISTINCT => true
  | sym_TRUE | sym_FALSE | sym_other _ => false
  end.

Definition isUF_sym (f : BSym) : bool :=
  (0 <? length (sym_args (symbol f))) && negb (sym_interpreted (symbol f)).
Definition isVar_sym (f : BSym) : bool :=
  (length (sym_args (symbol f)) =? 0) && negb (sym_constant (symbol f)).

(** ** The store *)

Record BNode : Type := MkBNode { bsymb : BSym; bargs : list PTRef }.
#[export] Instance BNode_eq_dec : EqDecision BNode.
Proof. solve_decision. Defined.

(** [UFAppearanceStatus] *)
Inductive UFAppearanceStatus : Type := uf_unseen | uf_removed | uf_appears.
#[export] Instance UFAppearanceStatus_eq_dec : EqDecision UFAppearanceStatus.
Proof. solve_decision. Defined.

(** [arithmetic] tells the logics with arithmetic, which override [isAtom] and
    [getNestedBoolRoots], from the others. *)
Record BLogic : Type := MkBLogic {
  bterms : list BNode;
  b_cterm_map : list (BSym * PTRef);
  b_cplx_map : list (BSym * list PTRef * PTRef);
  bool_map : list (BSym * list PTRef * PTRef);
  term_TRUE : PTRef;
  term_FALSE : PTRef;
  appears_in_uf : list UFAppearanceStatus;
  propFormulasAppearingInUF : list PTRef;
  arithmetic : bool;
  auxiliaryNatSet : nat_set.nat_set;
}.
Implicit Types (l : BLogic) (t : PTRef).

Definition bnode l t : res BNode := at_ (bterms l) t.
Definition bsym_of l t : res BSym := let! n := bnode l t in Ok (bsymb n).
Definition barg l t (i : nat) : res PTRef := let! n := bnode l t in at_ (bargs n) i.
Definition test_bsym (q : BSym → bool) l t : res bool := let! f := bsym_of l t in Ok (q f).

(** ** Classification *)

Definition isAnd := test_bsym (λ f, bool_decide (f = sym_AND)).
Definition isOr := test_bsym (λ f, bool_decide (f = sym_OR)).
Definition isNot := test_bsym (λ f, bool_decide (f = sym_NOT)).
Definition isXor := test_bsym (λ f, bool_decide (f = sym_XOR)).
Definition isImplies := test_bsym (λ f, bool_decide (f = sym_IMPLIES)).
Definition isIff := test_bsym (λ f, bool_decide (f = sym_EQ)).
Definition isTrue := test_bsym (λ f, bool_decide (f = sym_TRUE)).
Definition isFalse := test_bsym (λ f, bool_decide (f = sym_FALSE)).
Definition isBooleanOperator := test_bsym isBooleanOperator_sym.
Definition isVar := test_bsym isVar_sym.
Definition isUF := test_bsym isUF_sym.
Definition isConstant := test_bsym (λ f, sym_constant (symbol f)).
Definition hasSortBool := test_bsym (λ f, rsort (symbol f) =? sort_BOOL).
Definition getSortRef l t : res SRef := let! f := bsym_of l t in Ok (rsort (symbol f)).

Definition isUP l t : res bool :=
  let! u := isUF l t in
  if u then hasSortBool l t else Ok false.

Definition Logic_isAtom l t : res bool :=
  let! n := bnode l t in
  if rsort (symbol (bsymb n)) =? sort_BOOL then
    match bargs n with
    | [] => Ok true
    | a :: _ =>
        if bool_decide (bsymb n = sym_NOT) then Ok false
        else
          let! s := getSortRef l a in
          if isEquality_sym (bsymb n) && negb (s =? sort_BOOL) then Ok true
          else if isDisequality_sym (bsymb n) then Ok true
          else isUP l t
    end
  else Ok false.

(** [isNumEq], [isLt], [isGt], [isLeq], [isGeq] of ArithLogic.h: an interpreted
    predicate over another sort than the Booleans. *)
Definition isNumPredicate_sym (f : BSym) : bool :=
  match f with
  | sym_other g =>
      sym_interpreted g && (rsort g =? sort_BOOL) && bool_decide (sym_name g ∈ ["="; "<"; ">"; "<="; ">="])
      && match sym_args g with s :: _ => negb (s =? sort_BOOL) | [] => false end
  | _ => false
  end.

Definition isAtom l t : res bool :=
  if arithmetic l then
    let! p := test_bsym isNumPredicate_sym l t in
    if p then Ok true else Logic_isAtom l t
  else Logic_isAtom l t.

(** [Cnfizer::isLiteral] *)
Definition isLiteral l t : res bool :=
  let! n := isNot l t in
  let! b := if n then let! a := barg l t 0 in isAtom l a else Ok false in
  if b then Ok true else isAtom l t.

(** [Logic::setAppearsInUF] *)
Definition setAppearsInUF t l : res BLogic :=
  let! n := isNot l t in
  let! _ := check (negb n) in
  let new := match appears_in_uf l !! t with None | Some uf_unseen => true | _ => false end in
  let! u := upd (grow (appears_in_uf l) t uf_unseen) t uf_appears in
  Ok (MkBLogic (bterms l) (b_cterm_map l) (b_cplx_map l) (bool_map l) (term_TRUE l) (term_FALSE l) u
        (if new then propFormulasAppearingInUF l ++ [t] else propFormulasAppearingInUF l) (arithmetic l)
        (auxiliaryNatSet l)).

(** ** Sorts of arguments *)

Definition all_of_sort (s : SRef) l (ts : list PTRef) : res bool :=
  foldM (λ b t, let! s' := getSortRef l t in Ok (b && (s' =? s))) true ts.

Fixpoint sorts_match (ss : list SRef) l (ts : list PTRef) : res bool :=
  match ss, ts with
  | s :: ss, t :: ts =>
      let! s' := getSortRef l t in
      if s =? s' then sorts_match ss l ts else Ok false
  | _, _ => Ok true
  end.

Definition typeCheck (f : BSym) (ts : list PTRef) l : res bool :=
  let g := symbol f in
  match sym_type g with
  | Chainable | Pairwise =>
      match ts with
      | t :: _ :: _ =>
          let! s := getSortRef l t in
          let! s0 := at_ (sym_args g) 0 in
          if s =? s0 then all_of_sort s l ts else Ok false
      | _ => Ok false
      end
  | LeftAssoc =>
      match ts with
      | t :: ((_ :: _) as ts) =>
          let! s := getSortRef l t in
          let! s0 := at_ (sym_args g) 0 in
          let! s1 := at_ (sym_args g) 1 in
          if s0 =? s then all_of_sort s1 l ts else Ok false
      | _ => Ok false
      end
  | RightAssoc =>
      match reverse ts with
      | t :: ((_ :: _) as ts) =>
          let! s := getSortRef l t in
          let! s0 := at_ (sym_args g) 0 in
          let! s1 := at_ (sym_args g) 1 in
          if s1 =? s then all_of_sort s0 l (reverse ts) else Ok false
      | _ => Ok false
      end
  | NoProperty =>
      if length (sym_args g) =? length ts then sorts_match (sym_args g) l ts else Ok false
  end.

(** ** Making terms *)

Definition b_newTerm (f : BSym) (ts : list PTRef) l : PTRef * BLogic :=
  (length (bterms l),
   MkBLogic (bterms l ++ [MkBNode f ts]) (b_cterm_map l) (b_cplx_map l) (bool_map l) (term_TRUE l) (term_FALSE l)
     (appears_in_uf l) (propFormulasAppearingInUF l) (arithmetic l) (auxiliaryNatSet l)).

Definition with_maps cm xm bm l : BLogic :=
  MkBLogic (bterms l) cm xm bm (term_TRUE l) (term_FALSE l) (appears_in_uf l) (propFormulasAppearingInUF l)
    (arithmetic l) (auxiliaryNatSet l).
Definition with_marks (n : nat_set.nat_set) l : BLogic :=
  MkBLogic (bterms l) (b_cterm_map l) (b_cplx_map l) (bool_map l) (term_TRUE l) (term_FALSE l) (appears_in_uf l)
    (propFormulasAppearingInUF l) (arithmetic l) n.

Definition find_key (f : BSym) (ts : list PTRef) (m : list (BSym * list PTRef * PTRef)) : option PTRef :=
  snd <$> find (λ e, bool_decide (e.1.1 = f) && bool_decide (e.1.2 = ts)) m.
Definition find_constant (f : BSym) (m : list (BSym * PTRef)) : option PTRef :=
  snd <$> find (λ e, bool_decide (e.1 = f)) m.

(** [Logic::termSort] *)
Definition b_termSort (ts : list PTRef) : res (list PTRef) := Sort.sort (λ x y, Ok (x <? y)) ts.

Definition has_assoc (g : Symbol) : bool :=
  match sym_type g with NoProperty => false | _ => true end.

(** [if (not b) throw Osmt...Exception(...);] *)
Definition require (b : bool) : res unit := if b then Ok () else Err Osmt_exception.

Definition b_mkFun (f : BSym) (ts : list PTRef) l : res (PTRef * BLogic) :=
  let! ok := typeCheck f ts l in
  let! _ := require ok in
  match ts with
  | [] =>
      match find_constant f (b_cterm_map l) with
      | Some t => Ok (t, l)
      | None =>
          let (t, l) := b_newTerm f [] l in
          Ok (t, with_maps (b_cterm_map l ++ [(f, t)]) (b_cplx_map l) (bool_map l) l)
      end
  | _ =>
      if negb (isBooleanOperator_sym f) then
        let! _ := require (has_assoc (symbol f) || (length (sym_args (symbol f)) =? length ts)) in
        let! key := if sym_commutes (symbol f) then b_termSort ts else Ok ts in
        match find_key f key (b_cplx_map l) with
        | Some t => Ok (t, l)
        | None =>
            let (t, l) := b_newTerm f key l in
            Ok (t, with_maps (b_cterm_map l) (b_cplx_map l ++ [(f, key, t)]) (bool_map l) l)
        end
      else
        match find_key f ts (bool_map l) with
        | Some t => Ok (t, l)
        | None =>
            let (t, l) := b_newTerm f ts l in
            Ok (t, with_maps (b_cterm_map l) (b_cplx_map l) (bool_map l ++ [(f, ts, t)]) l)
        end
  end.

(** A result used as an argument: the store has no term [PTRef_Undef]. *)
Definition defined (o : option PTRef) : res PTRef := match o with Some t => Ok t | None => Err Out_of_range end.

Definition some_fst (r : PTRef * BLogic) : res (option PTRef * BLogic) := Ok (Some r.1, r.2).

Definition mkNot t l : res (option PTRef * BLogic) :=
  let! b := hasSortBool l t in
  if negb b then Ok (None, l)
  else
    let! n := isNot l t in
    if n then let! a := barg l t 0 in Ok (Some a, l)
    else
      let! b1 := isTrue l t in
      if b1 then Ok (Some (term_FALSE l), l)
      else
        let! b0 := isFalse l t in
        if b0 then Ok (Some (term_TRUE l), l)
        else let! r := b_mkFun sym_NOT [t] l in some_fst r.

(** [args.push(mkNot(tr))] *)
Definition mkNot_def t l : res (PTRef * BLogic) :=
  let! r := mkNot t l in
  let! t := defined r.1 in
  Ok (t, r.2).

(** [for (...) if (!hasSortBool(args[i])) return PTRef_Undef;] *)
Definition all_bool l (ts : list PTRef) : res bool := all_of_sort sort_BOOL l ts.

(** ** Conjunctions and disjunctions *)

(** [std::sort] with [LessThan_PtAsgn], which compares the terms only: some
    sorted permutation. *)
Class StdSort : Type := {
  std_sort : list PtAsgn → list PtAsgn;
  std_sort_perm xs : std_sort xs ≡ₚ xs;
  std_sort_sorted xs : StronglySorted (λ a b, tr a ≤ tr b) (std_sort xs);
}.

(** The first loop: [None] is [return PTRef_Undef]. *)
Definition signed_arg l (o : option (list PtAsgn)) t : res (option (list PtAsgn)) :=
  match o with
  | None => Ok None
  | Some ps =>
      let! b := hasSortBool l t in
      if negb b then Ok None
      else
        let! n := isNot l t in
        if n then let! a := barg l t 0 in Ok (Some (ps ++ [MkPtAsgn a l_False]))
        else Ok (Some (ps ++ [MkPtAsgn t l_True]))
  end.
Definition signed_args l (ts : list PTRef) : res (option (list PtAsgn)) := foldM (signed_arg l) (Some []) ts.

(** The second loop, which [mkAnd] and [mkOr] share up to the roles of true and
    false: [None] is [return] of the absorbing constant; [p] is the last
    argument kept. *)
Fixpoint keep_args (absorbing neutral : BSym) l (p : option PtAsgn) (ps : list PtAsgn) :
    res (option (list PtAsgn)) :=
  match ps with
  | [] => Ok (Some [])
  | q :: ps =>
      let! f := bsym_of l (tr q) in
      if bool_decide (f = absorbing) then
        let! _ := check (bool_decide (sgn q = l_True)) in Ok None
      else if bool_decide (f = neutral) then
        let! _ := check (bool_decide (sgn q = l_True)) in keep_args absorbing neutral l p ps
      else if bool_decide (p = Some q) then keep_args absorbing neutral l p ps
      else if match p with Some p => (tr p =? tr q) && negb (bool_decide (sgn p = sgn q)) | None => false end then
        Ok None
      else
        let! r := keep_args absorbing neutral l (Some q) ps in
        Ok ((q ::.) <$> r)
  end.

(** [tmp_arg.sgn == l_True ? tmp_arg.tr : mkNot(tmp_arg.tr)] *)
Definition unsigned (q : PtAsgn) l : res (PTRef * BLogic) :=
  if bool_decide (sgn q = l_True) then Ok (tr q, l) else mkNot_def (tr q) l.

Definition unsigned_args (ps : list PtAsgn) l : res (list PTRef * BLogic) :=
  foldM (λ st q, let! r := unsigned q st.2 in Ok (st.1 ++ [r.1], r.2)) ([], l) ps.

Section junctions.
Context `{StdSort}.

Definition mkAnd (ts : list PTRef) l : res (option PTRef * BLogic) :=
  match ts with
  | [] => Ok (Some (term_TRUE l), l)
  | _ =>
      let! tmp_args := signed_args l ts in
      match tmp_args with
      | None => Ok (None, l)
      | Some ps =>
          let! kept := keep_args sym_FALSE sym_TRUE l None (std_sort ps) in
          match kept with
          | None => Ok (Some (term_FALSE l), l)
          | Some [] => Ok (Some (term_TRUE l), l)
          | Some [q] => if bool_decide (sgn q = l_True) then Ok (Some (tr q), l) else mkNot (tr q) l
          | Some qs =>
              let! r := unsigned_args qs l in
              let! r := b_mkFun sym_AND r.1 r.2 in some_fst r
          end
      end
  end.

Definition mkOr (ts : list PTRef) l : res (option PTRef * BLogic) :=
  match ts with
  | [] => Ok (Some (term_FALSE l), l)
  | _ =>
      let! tmp_args := signed_args l ts in
      match tmp_args with
      | None => Ok (None, l)
      | Some ps =>
          let! kept := keep_args sym_TRUE sym_FALSE l None (std_sort ps) in
          match kept with
          | None => Ok (Some (term_TRUE l), l)
          | Some [] => Ok (Some (term_FALSE l), l)
          | Some [q] => if bool_decide (sgn q = l_True) then Ok (Some (tr q), l) else mkNot (tr q) l
          | Some qs =>
              let! r := unsigned_args qs l in
              let! r := b_mkFun sym_OR r.1 r.2 in some_fst r
          end
      end
  end.

(** ** The other connectives *)

Definition mkXor (ts : list PTRef) l : res (option PTRef * BLogic) :=
  let! b := all_bool l ts in
  if negb b then Ok (None, l)
  else
    match ts with
    | [x; y] =>
        if x =? y then Ok (Some (term_FALSE l), l)
        else
          let! r := mkNot y l in
          let l := r.2 in
          if bool_decide (Some x = r.1) then Ok (Some (term_TRUE l), l)
          else if (x =? term_TRUE l) || (y =? term_TRUE l) then
            if x =? term_TRUE l then mkNot y l else mkNot x l
          else if (x =? term_FALSE l) || (y =? term_FALSE l) then
            Ok (Some (if x =? term_FALSE l then y else x), l)
          else
            let! ts := b_termSort [x; y] in
            let! r := b_mkFun sym_XOR ts l in some_fst r
    | _ => Ok (None, l)
    end.

Definition mkImpl (ts : list PTRef) l : res (option PTRef * BLogic) :=
  let! b := all_bool l ts in
  if negb b then Ok (None, l)
  else
    match ts with
    | [x; y] =>
        let! fx := isFalse l x in
        if fx then Ok (Some (term_TRUE l), l)
        else
          let! ty := isTrue l y in
          if ty then Ok (Some (term_TRUE l), l)
          else
            let! tx := isTrue l x in
            let! fy := isFalse l y in
            if tx && fy then Ok (Some (term_FALSE l), l)
            else
              let! r := mkNot_def x l in
              mkOr [r.1; y] r.2
    | _ => Err Assertion_failed
    end.

(** [lookupSymbol(tk_equals, args)] finds the equality of the sort of the
    arguments, if they have the same. *)
Definition lookup_equality (x y : PTRef) l : res BSym :=
  let! s := getSortRef l x in
  let! s' := getSortRef l y in
  if s =? s' then Ok (sortToEquality s) else Err Out_of_range.

Definition mkBinaryEq (x y : PTRef) l : res (option PTRef * BLogic) :=
  if x =? y then Ok (Some (term_TRUE l), l)
  else
    let! cx := isConstant l x in
    let! cy := isConstant l y in
    if cx && cy then Ok (Some (term_FALSE l), l)
    else
      let! b := hasSortBool l x in
      let! o :=
        if b then
          let! r := mkNot y l in
          let l := r.2 in
          if bool_decide (Some x = r.1) then Ok (Some (Some (term_FALSE l)), l)
          else if (x =? term_TRUE l) || (y =? term_TRUE l) then
            Ok (Some (Some (if x =? term_TRUE l then y else x)), l)
          else if (x =? term_FALSE l) || (y =? term_FALSE l) then
            let! r := if x =? term_FALSE l then mkNot y l else mkNot x l in
            Ok (Some r.1, r.2)
          else Ok (None, l)
        else Ok (None, l) in
      match o.1 with
      | Some r => Ok (r, o.2)
      | None =>
          let! f := lookup_equality x y o.2 in
          let! r := b_mkFun f [x; y] o.2 in some_fst r
      end.

(** [for (i = 0; i < args.size() - 1; ++i) push(mkBinaryEq(args[i], args[i + 1]));] *)
Fixpoint binary_equalities (x : PTRef) (ts : list PTRef) l : res (list PTRef * BLogic) :=
  match ts with
  | [] => Ok ([], l)
  | y :: ts =>
      let! r := mkBinaryEq x y l in
      let! e := defined r.1 in
      let! rs := binary_equalities y ts r.2 in
      Ok (e :: rs.1, rs.2)
  end.

Definition mkEq (ts : list PTRef) l : res (option PTRef * BLogic) :=
  match ts with
  | [] | [_] => Ok (None, l)
  | [x; y] => mkBinaryEq x y l
  | x :: ts =>
      let! r := binary_equalities x ts l in
      mkAnd r.1 r.2
  end.

Definition mkIte (ts : list PTRef) l : res (option PTRef * BLogic) :=
  let! c := at_ ts 0 in
  let! b := hasSortBool l c in
  if negb b then Ok (None, l)
  else
    match ts with
    | [c; x; y] =>
        let! tc := isTrue l c in
        if tc then Ok (Some x, l)
        else
          let! fc := isFalse l c in
          if fc then Ok (Some y, l)
          else if x =? y then Ok (Some x, l)
          else
            let! sx := getSortRef l x in
            let! sy := getSortRef l y in
            if negb (sx =? sy) then Err Osmt_exception
            else let! r := b_mkFun (sortToIte sx) ts l in some_fst r
    | _ => Err Osmt_exception
    end.

End junctions.

(** [mkBoolVar]: the symbol is found again by its name and sort. *)
Definition bool_var (name : string) : BSym :=
  sym_other (MkSymbol name sort_BOOL [] false false false NoProperty false).
Definition mkBoolVar (name : string) l : res (PTRef * BLogic) := b_mkFun (bool_var name) [] l.

(** The constructor: true is made first. *)
Definition empty_blogic (arith : bool) : BLogic :=
  MkBLogic [MkBNode sym_TRUE []; MkBNode sym_FALSE []] [(sym_TRUE, 0); (sym_FALSE, 1)] [] [] 0 1 [] [] arith
    (nat_set.init 0).
