(* ===== verification/BoolFacts.v ===== *)
(** * Boolean terms: the invariant of the store and its valuations

    [store_ok] is the invariant of the store: arguments are older than their
    terms, the connectives are applied to Booleans with the arity the code
    assumes, the Boolean constants are true and false, negations of negations and of constants do not occur, and no two
    terms have the same symbol and arguments.  A valuation is [consistent] when
    it gives every connective its meaning; a term built by the code [makes] a
    function of the valuations.
    Then: [mkFun] keeps the invariant and shares terms. *)
From S2P Require Import Prelude Sort NatSet Terms BoolTerms.
From Stdlib Require Import Lia.

#[local] Open Scope nat_scope.
Implicit Types (l : BLogic) (t : PTRef) (ρ : PTRef → bool).

(** ** Valuations *)

Definition bool_op (f : BSym) (bs : list bool) : option bool :=
  match f, bs with
  | sym_TRUE, _ => Some true
  | sym_FALSE, _ => Some false
  | sym_AND, _ => Some (forallb id bs)
  | sym_OR, _ => Some (existsb id bs)
  | sym_XOR, [x; y] => Some (xorb x y)
  | sym_NOT, [x] => Some (negb x)
  | sym_EQ, [x; y] => Some (eqb x y)
  | sym_IMPLIES, [x; y] => Some (implb x y)
  | _, _ => None
  end.

Definition consistent l ρ : Prop :=
  ∀ t n b, bterms l !! t = Some n → bool_op (bsymb n) (ρ <$> bargs n) = Some b → ρ t = b.

(** The terms whose value a valuation is free to choose, for these connectives:
    variables, atoms of theories, [ite]s (which the ite handler defines). *)
Definition meaningful (f : BSym) : bool :=
  match f with sym_DISTINCT | sym_ITE | sym_other _ => false | _ => true end.
Definition free_term l t : Prop := ∃ n, bterms l !! t = Some n ∧ meaningful (bsymb n) = false.

(** ** The invariant *)

Definition is_bool l t : Prop := ∃ n, bterms l !! t = Some n ∧ rsort (symbol (bsymb n)) = sort_BOOL.
Definition sym_at l t (f : BSym) : Prop := ∃ ts, bterms l !! t = Some (MkBNode f ts).

Definition negatable l t : Prop :=
  ∃ n, bterms l !! t = Some n ∧ bsymb n ≠ sym_NOT ∧ bsymb n ≠ sym_TRUE ∧ bsymb n ≠ sym_FALSE.

Definition shape_ok l (f : BSym) (ts : list PTRef) : Prop :=
  match f with
  | sym_TRUE | sym_FALSE => ts = []
  | sym_AND | sym_OR | sym_DISTINCT => 2 ≤ length ts
  | sym_XOR | sym_EQ | sym_IMPLIES => length ts = 2
  | sym_NOT => ∃ t, ts = [t] ∧ negatable l t
  | sym_ITE => length ts = 3
  | sym_other g => sym_constant g && (rsort g =? sort_BOOL) = false ∧ (sym_args g = [] → ts = [])
  end.

Record node_ok l t (n : BNode) : Prop := {
  no_older : Forall (λ a, a < t) (bargs n);
  no_shape : shape_ok l (bsymb n) (bargs n);
  no_bool : isBooleanOperator_sym (bsymb n) = true → Forall (is_bool l) (bargs n);
}.

Record store_ok l : Prop := {
  so_node t n : bterms l !! t = Some n → node_ok l t n;
  so_unique t t' n : bterms l !! t = Some n → bterms l !! t' = Some n → t = t';
  so_const f t : (f, t) ∈ b_cterm_map l ↔ bterms l !! t = Some (MkBNode f []);
  so_cplx f ts t : (f, ts, t) ∈ b_cplx_map l ↔
    bterms l !! t = Some (MkBNode f ts) ∧ ts ≠ [] ∧ isBooleanOperator_sym f = false;
  so_op f ts t : (f, ts, t) ∈ bool_map l ↔
    bterms l !! t = Some (MkBNode f ts) ∧ ts ≠ [] ∧ isBooleanOperator_sym f = true;
  so_true : bterms l !! term_TRUE l = Some (MkBNode sym_TRUE []);
  so_false : bterms l !! term_FALSE l = Some (MkBNode sym_FALSE []);
  so_marks : nat_set.inv (auxiliaryNatSet l);
  so_uf : Forall (is_bool l) (propFormulasAppearingInUF l);
}.

(** Stores only grow. *)
Record store_le l l' : Prop := {
  le_terms : ∃ k, bterms l' = bterms l ++ k;
  le_true : term_TRUE l' = term_TRUE l;
  le_false : term_FALSE l' = term_FALSE l;
  le_arith : arithmetic l' = arithmetic l;
}.

#[export] Instance store_le_preorder : PreOrder store_le.
Proof.
  split.
  - intros l. constructor; try done. exists []. by rewrite app_nil_r.
  - intros l1 l2 l3 [[k E] T F A] [[k' E'] T' F' A']. constructor; try congruence.
    exists (k ++ k'). by rewrite E', E, app_assoc.
Qed.

Lemma le_node l l' t n : store_le l l' → bterms l !! t = Some n → bterms l' !! t = Some n.
Proof. intros [[k ->] _ _ _] Hn. by apply lookup_app_l_Some. Qed.

Lemma is_bool_mono l l' t : store_le l l' → is_bool l t → is_bool l' t.
Proof. intros Hle (n & Hn & Hs). exists n. split; [by eapply le_node|done]. Qed.
Lemma negatable_mono l l' t : store_le l l' → negatable l t → negatable l' t.
Proof. intros Hle (n & Hn & Hs). exists n. split; [by eapply le_node|done]. Qed.
Lemma shape_mono l l' f ts : store_le l l' → shape_ok l f ts → shape_ok l' f ts.
Proof. intros Hle. destruct f; try done. simpl. intros (t & -> & Ht). exists t. eauto using negatable_mono. Qed.
Lemma node_ok_mono l l' t n : store_le l l' → node_ok l t n → node_ok l' t n.
Proof.
  intros Hle [H1 H2 H3]. constructor; [done|by eapply shape_mono|].
  intros Hop. eapply Forall_impl; [by apply H3|]. intros a. by apply is_bool_mono.
Qed.
Lemma consistent_mono l l' ρ : store_le l l' → consistent l' ρ → consistent l ρ.
Proof. intros Hle C t n b Hn. apply C. by eapply le_node. Qed.
Create HintDb store.
#[export] Hint Resolve is_bool_mono negatable_mono consistent_mono le_node : store.

Lemma at_bterms l t n : bterms l !! t = Some n → bnode l t = Ok n.
Proof. unfold bnode, at_. by intros ->. Qed.
Lemma bsym_of_eq l t n : bterms l !! t = Some n → bsym_of l t = Ok (bsymb n).
Proof. intros Hn. unfold bsym_of. by rewrite (at_bterms _ _ _ Hn). Qed.
Lemma test_eq q l t n : bterms l !! t = Some n → test_bsym q l t = Ok (q (bsymb n)).
Proof. intros Hn. unfold test_bsym. by rewrite (bsym_of_eq _ _ _ Hn). Qed.
Lemma sort_eq l t n : bterms l !! t = Some n → getSortRef l t = Ok (rsort (symbol (bsymb n))).
Proof. intros Hn. unfold getSortRef. by rewrite (bsym_of_eq _ _ _ Hn). Qed.
Lemma hasSortBool_ok l t : is_bool l t → hasSortBool l t = Ok true.
Proof. intros (n & Hn & Hs). unfold hasSortBool. rewrite (test_eq _ _ _ _ Hn), Hs. done. Qed.

Section facts.
Context l (W : store_ok l).

Lemma node_bound t n : bterms l !! t = Some n → t < length (bterms l).
Proof. apply lookup_lt_Some. Qed.

Lemma bool_bound t : is_bool l t → t < length (bterms l).
Proof. intros (n & Hn & _). by eapply node_bound. Qed.

Lemma true_unique t ts : bterms l !! t = Some (MkBNode sym_TRUE ts) → t = term_TRUE l.
Proof.
  intros Hn. pose proof (no_shape _ _ _ (so_node _ W _ _ Hn)) as Ha. simpl in Ha. subst ts.
  eapply (so_unique _ W); [done|apply so_true, W].
Qed.
Lemma false_unique t ts : bterms l !! t = Some (MkBNode sym_FALSE ts) → t = term_FALSE l.
Proof.
  intros Hn. pose proof (no_shape _ _ _ (so_node _ W _ _ Hn)) as Ha. simpl in Ha. subst ts.
  eapply (so_unique _ W); [done|apply so_false, W].
Qed.

Lemma true_bool : is_bool l (term_TRUE l).
Proof. eexists. by split; [apply so_true, W|]. Qed.
Lemma false_bool : is_bool l (term_FALSE l).
Proof. eexists. by split; [apply so_false, W|]. Qed.

Lemma true_value ρ : consistent l ρ → ρ (term_TRUE l) = true.
Proof. intros C. by eapply C; [apply so_true, W|]. Qed.
Lemma false_value ρ : consistent l ρ → ρ (term_FALSE l) = false.
Proof. intros C. by eapply C; [apply so_false, W|]. Qed.

Lemma not_node t ts : bterms l !! t = Some (MkBNode sym_NOT ts) → ∃ a, ts = [a] ∧ negatable l a ∧ is_bool l a ∧ a < t.
Proof.
  intros Hn. destruct (so_node _ W _ _ Hn) as [H1 (a & E & Ha) H3]. cbn in E. subst ts. exists a.
  split; [done|]. split; [done|]. 
  split; [by apply Forall_singleton, H3|exact (proj1 (Forall_singleton (λ a, a < t) a) H1)].
Qed.

Lemma not_value ρ t a : consistent l ρ → bterms l !! t = Some (MkBNode sym_NOT [a]) → ρ t = negb (ρ a).
Proof. intros C Hn. by eapply C; [exact Hn|]. Qed.

(** ** The tables *)

Lemma find_constant_spec f t : find_constant f (b_cterm_map l) = Some t → bterms l !! t = Some (MkBNode f []).
Proof.
  unfold find_constant. destruct (find _ _) as [[g u]|] eqn:E; [|done]. intros [= <-].
  apply find_some in E as [Hin Hb%bool_decide_eq_true_1]. cbn in Hb. subst g.
  by apply (so_const _ W), list_elem_of_In.
Qed.
Lemma find_constant_none f t : find_constant f (b_cterm_map l) = None → bterms l !! t ≠ Some (MkBNode f []).
Proof.
  unfold find_constant. destruct (find _ _) as [|] eqn:E; [done|]. intros _ Hn.
  apply (so_const _ W), list_elem_of_In in Hn. pose proof (find_none _ _ E _ Hn) as F%bool_decide_eq_false_1. done.
Qed.

Lemma find_key_some f ts m t : find_key f ts m = Some t → (f, ts, t) ∈ m.
Proof.
  unfold find_key. destruct (find _ _) as [[[g us] u]|] eqn:E; [|done]. intros [= <-].
  apply find_some in E as [Hin [Hb1%bool_decide_eq_true_1 Hb2%bool_decide_eq_true_1]%andb_prop]. cbn in *. subst.
  by apply list_elem_of_In.
Qed.
Lemma find_key_none f ts m t : find_key f ts m = None → (f, ts, t) ∉ m.
Proof.
  unfold find_key. destruct (find _ _) as [|] eqn:E; [done|]. intros _ Hn.
  apply list_elem_of_In in Hn.
  pose proof (find_none _ _ E _ Hn) as [F|F]%andb_false_iff; by apply bool_decide_eq_false_1 in F.
Qed.

End facts.

(** ** Adding a node *)

Definition with_node (n : BNode) cm xm bm l : BLogic :=
  with_maps cm xm bm (b_newTerm (bsymb n) (bargs n) l).2.

Lemma with_node_le n cm xm bm l : store_le l (with_node n cm xm bm l).
Proof. constructor; try done. by eexists. Qed.

Lemma with_node_at n cm xm bm l t m : bterms (with_node n cm xm bm l) !! t = Some m ↔
  bterms l !! t = Some m ∨ t = length (bterms l) ∧ m = n.
Proof.
  destruct n as [f ts]. cbn. rewrite lookup_app. destruct (bterms l !! t) as [m'|] eqn:E.
  - split; [by left|]. intros [?|[-> _]]; [done|]. apply lookup_lt_Some in E. lia.
  - apply lookup_ge_None in E. destruct (t - length (bterms l)) as [|d] eqn:D; cbn.
    + split; [intros [= <-]; right; split; [lia|done]|]. by intros [[=]|[_ ->]].
    + split; [done|]. intros [[=]|[-> _]]. lia.
Qed.

Lemma with_node_ok n l cm xm bm : store_ok l →
  node_ok (with_node n cm xm bm l) (length (bterms l)) n →
  (∀ t, bterms l !! t ≠ Some n) →
  (∀ f t, (f, t) ∈ cm ↔ (f, t) ∈ b_cterm_map l ∨ MkBNode f [] = n ∧ t = length (bterms l)) →
  (∀ f ts t, (f, ts, t) ∈ xm ↔ (f, ts, t) ∈ b_cplx_map l ∨
    (MkBNode f ts = n ∧ ts ≠ [] ∧ isBooleanOperator_sym f = false) ∧ t = length (bterms l)) →
  (∀ f ts t, (f, ts, t) ∈ bm ↔ (f, ts, t) ∈ bool_map l ∨
    (MkBNode f ts = n ∧ ts ≠ [] ∧ isBooleanOperator_sym f = true) ∧ t = length (bterms l)) →
  store_ok (with_node n cm xm bm l).
Proof.
  intros W Hn Hnew Hc Hx Hb. pose proof (with_node_le n cm xm bm l) as Hle. constructor.
  - intros t m [Hm|[-> ->]]%with_node_at; [|done]. eapply node_ok_mono; [done|by apply (so_node _ W)].
  - intros t t' m [H1|[-> ->]]%with_node_at [H2|[-> E]]%with_node_at.
    + by eapply (so_unique _ W).
    + subst m. by destruct (Hnew t).
    + by destruct (Hnew t').
    + done.
  - intros f t. rewrite with_node_at. cbn. rewrite Hc, (so_const _ W). naive_solver.
  - intros f ts t. rewrite with_node_at. cbn. rewrite Hx, (so_cplx _ W). naive_solver.
  - intros f ts t. rewrite with_node_at. cbn. rewrite Hb, (so_op _ W). naive_solver.
  - eapply le_node; [done|]. apply (so_true _ W).
  - eapply le_node; [done|]. apply (so_false _ W).
  - apply (so_marks _ W).
  - eapply Forall_impl; [exact (so_uf _ W)|]. intros t. by apply is_bool_mono.
Qed.

Lemma b_termSort_ok ts : ∃ us, b_termSort ts = Ok us ∧ us ≡ₚ ts.
Proof.
  apply wp_total. eapply wp_mono; [apply (sort_wp (λ x y, Ok (x <? y)) Nat.le (λ _, True))|]; try done.
  - intros x y _ _. eexists. split; [done|]. destruct (Nat.ltb_spec x y); lia.
  - intros x y _ _. lia.
  - intros x y z _ _ _. lia.
  - by intros us [P _].
Qed.

(** * Boolean terms: the constructors mean what their names say

    [mkFun] finds or adds the node asked for; [mkNot], [mkAnd], [mkOr],
    [mkXor], [mkImpl], [mkBinaryEq], [mkEq] and [mkIte] make a term with the
    value of the connective, whatever they simplify. *)

(** ** Sorts *)

Definition has_sort l (s : SRef) t : Prop := getSortRef l t = Ok s.

Lemma is_bool_sort l t : is_bool l t → has_sort l sort_BOOL t.
Proof. intros (n & Hn & Hs). unfold has_sort. by rewrite (sort_eq _ _ _ Hn), Hs. Qed.

Lemma all_of_sort_ok s l ts : Forall (has_sort l s) ts → all_of_sort s l ts = Ok true.
Proof.
  unfold all_of_sort. intros H. generalize true. induction H as [|t ts Ht _ IH]; intros b; [done|].
  cbn [foldM]. rewrite Ht. cbn [rbind]. by rewrite Nat.eqb_refl, andb_true_r.
Qed.

Lemma all_bool_ok l ts : Forall (is_bool l) ts → all_bool l ts = Ok true.
Proof. intros H. apply all_of_sort_ok. eapply Forall_impl; [exact H|]. apply is_bool_sort. Qed.

(** The connectives whose arguments are Booleans. *)
Definition connective (f : BSym) : bool :=
  match f with sym_TRUE | sym_FALSE | sym_other _ => false | _ => true end.

Lemma sorts_match_ok l ss ts : length ss = length ts → Forall (λ s, s = sort_BOOL) ss → Forall (has_sort l sort_BOOL) ts →
  sorts_match ss l ts = Ok true.
Proof.
  revert ts. induction ss as [|s ss IH]; intros [|t ts] Hl H1 H2; try done. apply Forall_cons in H1 as [-> H1].
  apply Forall_cons in H2 as [H2 H3]. cbn [sorts_match]. rewrite H2. cbn [rbind]. rewrite Nat.eqb_refl.
  apply IH; try done. by injection Hl.
Qed.

Lemma typeCheck_ok l f ts : connective f = true → shape_ok l f ts → Forall (is_bool l) ts → typeCheck f ts l = Ok true.
Proof.
  intros Hf Ha Hts. assert (Forall (has_sort l sort_BOOL) ts) as Hs
    by (eapply Forall_impl; [exact Hts|]; apply is_bool_sort).
  assert (length ts = length (sym_args (symbol f)) ∨ 2 ≤ length ts ∧ sym_type (symbol f) ≠ NoProperty) as Hn.
  { destruct f; try done; cbn in Ha |- *; try lia; try (right; split; [lia|done]). destruct Ha as (t & -> & _). by left. }
  assert (Forall (λ s, s = sort_BOOL) (sym_args (symbol f))) as Hb by (destruct f; try done; repeat constructor).
  destruct f; try done; unfold typeCheck; cbn [symbol sym_type sym_args] in *; cbn [length] in Hn.
  4, 6, 8: destruct Hn as [Hn|[_ Hn]]; [|done]; rewrite Hn; apply sorts_match_ok; by rewrite ?Hn.
  all: destruct ts as [|x [|y ts]]; cbn in Hn; try lia; pose proof (proj1 (Forall_cons _ _ _) Hs) as [Hx Hs']; rewrite Hx;
    cbn [rbind at_ lookup list_lookup]; rewrite Nat.eqb_refl; apply all_of_sort_ok; try done; by constructor.
Qed.

(** ** [mkFun] *)

Lemma typeCheck_nil f l : typeCheck f [] l = Ok true → sym_args (symbol f) = [] ∨ sym_type (symbol f) ≠ NoProperty.
Proof. unfold typeCheck. destruct (sym_type _); try (by right). destruct (sym_args _); [by left|done]. Qed.

Lemma typeCheck_args f ts l : typeCheck f ts l = Ok true →
  has_assoc (symbol f) || (length (sym_args (symbol f)) =? length ts) = true.
Proof. unfold typeCheck, has_assoc. destruct (sym_type _); try done. by destruct (_ =? _). Qed.

Record made_node l (f : BSym) (ts : list PTRef) t l' : Prop := {
  mn_ok : store_ok l';
  mn_le : store_le l l';
  mn_at : ∃ us, us ≡ₚ ts ∧ (connective f = true → us = ts) ∧ bterms l' !! t = Some (MkBNode f us);
}.

Lemma made_old l f ts us t : store_ok l → bterms l !! t = Some (MkBNode f us) → us ≡ₚ ts →
  (connective f = true → us = ts) → made_node l f ts t l.
Proof. intros W Ht P E. constructor; [done|reflexivity|]. by exists us. Qed.

Lemma made_new l f ts us cm xm bm : store_ok l → us ≡ₚ ts → (connective f = true → us = ts) →
  Forall (λ a, a < length (bterms l)) ts → shape_ok l f us → (isBooleanOperator_sym f = true → Forall (is_bool l) us) →
  store_ok (with_node (MkBNode f us) cm xm bm l) →
  made_node l f ts (length (bterms l)) (with_node (MkBNode f us) cm xm bm l).
Proof.
  intros W P E Ho Ha Hb Hok. constructor; [done|apply with_node_le|]. exists us. split; [done|]. split; [done|].
  apply with_node_at. by right.
Qed.

Lemma new_node_ok l f ts us cm xm bm : us ≡ₚ ts → Forall (λ a, a < length (bterms l)) ts → shape_ok l f us →
  (isBooleanOperator_sym f = true → Forall (is_bool l) us) →
  node_ok (with_node (MkBNode f us) cm xm bm l) (length (bterms l)) (MkBNode f us).
Proof.
  intros P Ho Ha Hb. pose proof (with_node_le (MkBNode f us) cm xm bm l) as Hle. constructor; cbn [bargs bsymb].
  - by rewrite P.
  - by eapply shape_mono.
  - intros Hop. eapply Forall_impl; [by apply Hb|]. intros a. by apply is_bool_mono.
Qed.

Lemma not_there l f us : store_ok l →
  match us with
  | [] => find_constant f (b_cterm_map l) = None
  | _ => find_key f us (if isBooleanOperator_sym f then bool_map l else b_cplx_map l) = None
  end → ∀ t, bterms l !! t ≠ Some (MkBNode f us).
Proof.
  intros W Hno t Ht. destruct us as [|u us]; [by eapply find_constant_none|].
  apply (find_key_none _ _ _ t) in Hno. apply Hno. destruct (isBooleanOperator_sym f) eqn:E.
  - by apply (so_op _ W).
  - by apply (so_cplx _ W).
Qed.

Lemma table_same (m : list (BSym * list PTRef * PTRef)) n b f ts t k :
  isBooleanOperator_sym (bsymb n) = negb b ∨ bargs n = [] →
  (f, ts, t) ∈ m ↔ (f, ts, t) ∈ m ∨ (MkBNode f ts = n ∧ ts ≠ [] ∧ isBooleanOperator_sym f = b) ∧ t = k.
Proof. intros Hn. split; [by left|]. intros [?|[(<- & Hne & Hb) _]]; [done|]. 
  destruct Hn as [Hn|Hn]; [|done]. cbn [bsymb] in Hn. rewrite Hb in Hn. by destruct b.
Qed.

Lemma table_add (m : list (BSym * list PTRef * PTRef)) n b f ts t k :
  isBooleanOperator_sym (bsymb n) = b → bargs n ≠ [] →
  (f, ts, t) ∈ m ++ [(bsymb n, bargs n, k)] ↔
    (f, ts, t) ∈ m ∨ (MkBNode f ts = n ∧ ts ≠ [] ∧ isBooleanOperator_sym f = b) ∧ t = k.
Proof.
  intros Hb Hne. rewrite elem_of_app, list_elem_of_singleton. destruct n as [g us]; cbn in *.
  split; (intros [?|H]; [by left|right]); [by injection H as -> -> ->|].
  destruct H as [(E & _) ->]. by injection E as -> ->.
Qed.

Lemma b_mkFun_ok l f ts : store_ok l → typeCheck f ts l = Ok true → Forall (λ a, a < length (bterms l)) ts →
  (∀ us, us ≡ₚ ts → (connective f = true → us = ts) → shape_ok l f us) →
  (isBooleanOperator_sym f = true → Forall (is_bool l) ts) →
  ∃ t l', b_mkFun f ts l = Ok (t, l') ∧ made_node l f ts t l'.
Proof.
  intros W Ht Ho Ha Hb. unfold b_mkFun. rewrite Ht. cbn [rbind require].
  pose proof (typeCheck_args _ _ _ Ht) as Hn. destruct ts as [|x ts0].
  - destruct (find_constant f (b_cterm_map l)) as [t|] eqn:E.
    + exists t, l. split; [done|]. by apply (made_old _ _ _ _ _ W (find_constant_spec _ W _ _ E)).
    + eexists _, _. split; [done|]. eapply (made_new l f [] []); try done; [by apply Ha|].
      apply with_node_ok; [done|apply (new_node_ok l f []); auto|by apply (not_there l f [])| | |].
      * intros g t. rewrite elem_of_app, list_elem_of_singleton. naive_solver.
      * intros *. apply table_same. by right.
      * intros *. apply table_same. by right.
  - set (ts := x :: ts0) in *. assert (ts ≠ []) as Hne0 by done. clearbody ts. destruct (isBooleanOperator_sym f) eqn:Eop; cbn [negb].
    + destruct (find_key f ts (bool_map l)) as [t|] eqn:E.
      * exists t, l. split; [done|]. apply find_key_some, (so_op _ W) in E as [E _]. by eapply made_old.
      * eexists _, _. split; [done|]. eapply (made_new l f ts ts); try done; [by apply Ha|by auto|].
        apply with_node_ok; [done|apply (new_node_ok l f ts); auto| | | |].
        -- apply not_there; [done|]. rewrite Eop. by destruct ts.
        -- naive_solver.
        -- intros *. apply table_same. by left.
        -- intros *. by apply (table_add (bool_map l) (MkBNode f ts)).
    + rewrite Hn. cbn [require rbind]. assert (connective f = false) as Ec by (by destruct f).
      assert (∃ us, (if sym_commutes (symbol f) then b_termSort ts else Ok ts) = Ok us ∧ us ≡ₚ ts) as (us & -> & P)
        by (destruct (sym_commutes _); [apply b_termSort_ok|by exists ts]).
      cbn [rbind]. assert (us ≠ []) as Hne by (intros ->; by apply Permutation_nil_l in P).
      destruct (find_key f us (b_cplx_map l)) as [t|] eqn:E.
      * exists t, l. split; [done|]. apply find_key_some, (so_cplx _ W) in E as [E _]. eapply made_old; try done. congruence.
      * eexists _, _. split; [done|]. assert (shape_ok l f us) as Ha' by (apply Ha; [done|congruence]).
        eapply (made_new l f ts us); try done; try congruence.
        apply with_node_ok; [done|apply (new_node_ok l f ts); try done; congruence| | | |].
        -- apply not_there; [done|]. rewrite Eop. by destruct us.
        -- naive_solver.
        -- intros *. by apply (table_add (b_cplx_map l) (MkBNode f us)).
        -- intros *. apply table_same. by left.
Qed.

(** A node that is there is found. *)
Lemma b_mkFun_found l f ts t : store_ok l → connective f = true → bterms l !! t = Some (MkBNode f ts) → b_mkFun f ts l = Ok (t, l).
Proof.
  intros W Hc Ht. destruct (so_node _ W _ _ Ht) as [H1 H2 H3]. cbn in *.
  assert (isBooleanOperator_sym f = true) as Eop by (by destruct f).
  unfold b_mkFun. rewrite typeCheck_ok by auto. cbn [rbind require].
  assert (ts ≠ []) as Hne by (intros ->; destruct f; cbn in *; try done; try lia; by destruct H2 as (? & ? & _)).
  destruct ts as [|x ts0]; [done|]. rewrite Eop. cbn [negb].
  destruct (find_key f (x :: ts0) (bool_map l)) as [u|] eqn:E.
  - apply find_key_some, (so_op _ W) in E as [E _]. by rewrite (so_unique _ W _ _ _ E Ht).
  - exfalso. apply (find_key_none _ _ _ t) in E. apply E. by apply (so_op _ W).
Qed.

(** ** Hash-consing *)

Lemma sort_grows l l' t : store_le l l' → t < length (bterms l) → getSortRef l' t = getSortRef l t.
Proof.
  intros Hle Ht. destruct (lookup_lt_is_Some_2 _ _ Ht) as [n Hn]. rewrite (sort_eq _ _ _ Hn).
  apply sort_eq. by eapply le_node.
Qed.

Lemma all_of_sort_grows s l l' ts : store_le l l' → Forall (λ a, a < length (bterms l)) ts → all_of_sort s l' ts = all_of_sort s l ts.
Proof.
  intros Hle Hts. unfold all_of_sort. generalize true. induction Hts as [|t ts Ht _ IH]; intros b; [done|].
  cbn [foldM]. rewrite (sort_grows l l') by done. destruct (getSortRef l t); [apply IH|done].
Qed.

Lemma sorts_match_grows ss l l' ts : store_le l l' → Forall (λ a, a < length (bterms l)) ts → sorts_match ss l' ts = sorts_match ss l ts.
Proof.
  intros Hle Hts. revert ss. induction Hts as [|t ts Ht _ IH]; intros [|s ss]; try done. cbn [sorts_match].
  rewrite (sort_grows l l') by done. destruct (getSortRef l t); [|done]. cbn [rbind]. by rewrite IH.
Qed.

Lemma typeCheck_grows f ts l l' : store_le l l' → Forall (λ a, a < length (bterms l)) ts → typeCheck f ts l' = typeCheck f ts l.
Proof.
  intros Hle Hts. pose proof (λ s, all_of_sort_grows s l l' ts Hle Hts) as Hall. unfold typeCheck. destruct (sym_type (symbol f)).
  - by rewrite (sorts_match_grows _ l l').
  - destruct Hts as [|x ts Hx Hts]; [done|]. destruct ts as [|y ts]; [done|]. rewrite (sort_grows l l') by done.
    destruct (getSortRef l x); [|done]. cbn [rbind]. destruct (at_ _ 0); [|done]. cbn [rbind]. destruct (at_ _ 1); [|done]. cbn [rbind].
    by rewrite (all_of_sort_grows _ l l').
  - apply Forall_reverse in Hts. destruct Hts as [|x us Hx Hus]; [done|]. destruct us as [|y us]; [done|]. rewrite (sort_grows l l') by done.
    destruct (getSortRef l x); [|done]. cbn [rbind]. destruct (at_ _ 0); [|done]. cbn [rbind]. destruct (at_ _ 1); [|done]. cbn [rbind].
    by rewrite (all_of_sort_grows _ l l') by (done || by apply Forall_reverse).
  - destruct ts as [|x [|y us]]; [done|done|]. rewrite (sort_grows l l'); [|done|by apply Forall_cons in Hts as [? _]].
    destruct (getSortRef l x); [|done]. cbn [rbind]. destruct (at_ _ 0); [|done]. cbn [rbind]. by rewrite Hall.
  - destruct ts as [|x [|y us]]; [done|done|]. rewrite (sort_grows l l'); [|done|by apply Forall_cons in Hts as [? _]].
    destruct (getSortRef l x); [|done]. cbn [rbind]. destruct (at_ _ 0); [|done]. cbn [rbind]. by rewrite Hall.
Qed.

(** The arguments a term is stored with. *)
Definition mkFun_key (f : BSym) (ts : list PTRef) : res (list PTRef) :=
  match ts with
  | [] => Ok []
  | _ => if isBooleanOperator_sym f then Ok ts else if sym_commutes (symbol f) then b_termSort ts else Ok ts
  end.

Lemma b_mkFun_stored l f ts t l' : store_ok l → b_mkFun f ts l = Ok (t, l') →
  typeCheck f ts l = Ok true ∧ store_le l l' ∧ ∃ key, mkFun_key f ts = Ok key ∧ bterms l' !! t = Some (MkBNode f key).
Proof.
  intros W. assert (∀ us cm xm bm, store_le l (with_node (MkBNode f us) cm xm bm l)) as Hle by (intros *; apply with_node_le). assert (∀ us cm xm bm, bterms (with_node (MkBNode f us) cm xm bm l) !! length (bterms l) = Some (MkBNode f us)) as Hnew
    by (intros *; apply with_node_at; by right).
  unfold b_mkFun. destruct (typeCheck f ts l) as [[|]|]; try done. cbn [rbind require]. intros E. split; [done|].
  destruct ts as [|x ts0].
  { destruct (find_constant f (b_cterm_map l)) eqn:Ef; injection E as <- <-; (split; [done || apply Hle|]); exists []; (split; [done|]);
      [by apply find_constant_spec|apply Hnew]. }
  set (ts := x :: ts0) in *. unfold mkFun_key. destruct (isBooleanOperator_sym f) eqn:Eop; cbn [negb] in E.
  - destruct (find_key f ts (bool_map l)) eqn:Ef; injection E as <- <-; (split; [done || apply Hle|]); exists ts; (split; [done|]); [|apply Hnew].
    by apply find_key_some, (so_op _ W) in Ef as [? _].
  - destruct (has_assoc _ || _); [|done]. cbn [require rbind] in E. unfold ts at 1. cbn match.
    destruct (if sym_commutes (symbol f) then b_termSort ts else Ok ts) as [key|]; [|done]. cbn [rbind] in E.
    destruct (find_key f key (b_cplx_map l)) eqn:Ef; injection E as <- <-; (split; [done || apply Hle|]); exists key; (split; [done|]); [|apply Hnew].
    by apply find_key_some, (so_cplx _ W) in Ef as [? _].
Qed.

Lemma b_mkFun_finds l f ts key t : store_ok l → typeCheck f ts l = Ok true → mkFun_key f ts = Ok key →
  bterms l !! t = Some (MkBNode f key) → b_mkFun f ts l = Ok (t, l).
Proof.
  intros W Ht Hk Hn. unfold b_mkFun. rewrite Ht. cbn [rbind require]. destruct ts as [|x ts0].
  { injection Hk as <-. destruct (find_constant f (b_cterm_map l)) as [u|] eqn:E.
    - apply find_constant_spec in E; [|done]. by rewrite (so_unique _ W _ _ _ E Hn).
    - by apply (find_constant_none _ W _ t) in E. }
  pose proof (typeCheck_args _ _ _ Ht) as Hargs. set (ts := x :: ts0) in *. unfold mkFun_key in Hk. destruct (isBooleanOperator_sym f) eqn:Eop; cbn [negb].
  - injection Hk as <-. destruct (find_key f ts (bool_map l)) as [u|] eqn:E.
    + apply find_key_some, (so_op _ W) in E as [E _]. by rewrite (so_unique _ W _ _ _ E Hn).
    + exfalso. apply (find_key_none _ _ _ t) in E. apply E. by apply (so_op _ W).
  - rewrite Hargs. cbn [require rbind]. unfold ts at 1 in Hk. cbn match in Hk.
    assert (key ≠ []) as Hne.
    { destruct (sym_commutes _); [|by injection Hk as <-]. destruct (b_termSort_ok ts) as (us & E & P). rewrite E in Hk. injection Hk as ->.
      intros ->. by apply Permutation_nil_l in P. }
    rewrite Hk. cbn [rbind]. destruct (find_key f key (b_cplx_map l)) as [u|] eqn:E.
    + apply find_key_some, (so_cplx _ W) in E as [E _]. by rewrite (so_unique _ W _ _ _ E Hn).
    + exfalso. apply (find_key_none _ _ _ t) in E. apply E. by apply (so_cplx _ W).
Qed.

(** A Boolean variable. *)
Lemma mkBoolVar_ok l name : store_ok l → ∃ t l', mkBoolVar name l = Ok (t, l') ∧ store_ok l' ∧ store_le l l' ∧
  bterms l' !! t = Some (MkBNode (bool_var name) []).
Proof.
  intros W. destruct (b_mkFun_ok l (bool_var name) []) as (t & l' & E & [M1 M2 (us & P & _ & Hn)]); try done.
  { by intros us ->%Permutation_nil_r _. }
  assert (us = []) as -> by (by apply Permutation_nil_r). by exists t, l'.
Qed.
