(* ===== verification/BoolConnectives.v ===== *)
(** * Boolean terms: the value of what the constructors make

    Then: exclusive or, implication, equality and [ite]. *)
From S2P Require Import Prelude Sort Terms BoolTerms BoolFacts.
From stdpp Require Import sorting strings.
From Stdlib Require Import Lia.

#[local] Open Scope nat_scope.
Implicit Types (l : BLogic) (t : PTRef) (ρ : PTRef → bool) (q : PtAsgn).

(** The run [m] in the store [l] makes a Boolean term with the value [F]. *)
Definition makes l (F : (PTRef → bool) → bool) (m : res (option PTRef * BLogic)) : Prop :=
  ∃ t l', m = Ok (Some t, l') ∧ store_ok l' ∧ store_le l l' ∧ is_bool l' t ∧ ∀ ρ, consistent l' ρ → ρ t = F ρ.

Lemma makes_here l (F : (PTRef → bool) → bool) t : store_ok l → is_bool l t → (∀ ρ, consistent l ρ → ρ t = F ρ) →
  makes l F (Ok (Some t, l)).
Proof. intros W Ht HF. exists t, l. split; [done|]. split; [done|]. by split; [reflexivity|]. Qed.

Lemma makes_later l l' (F : (PTRef → bool) → bool) m : store_le l l' → makes l' F m → makes l F m.
Proof. intros Hle (t & l2 & E & W & Hle' & Hb & HF). exists t, l2. repeat (split; [done|]). split; [by etrans|done]. Qed.

Lemma makes_ext l (F G : (PTRef → bool) → bool) m : makes l F m → (∀ ρ, consistent l ρ → F ρ = G ρ) → makes l G m.
Proof.
  intros (t & l' & E & W & Hle & Hb & HF) HG. exists t, l'. repeat (split; [done|]). intros ρ C. rewrite HF by done.
  apply HG. by eapply consistent_mono.
Qed.

(** [mkFun] on a connective. *)
Lemma makes_fun l f ts (F : (PTRef → bool) → bool) : store_ok l → connective f = true → shape_ok l f ts → Forall (is_bool l) ts →
  (∀ ρ l' t, store_le l l' → bterms l' !! t = Some (MkBNode f ts) → consistent l' ρ → ρ t = F ρ) →
  makes l F (let! r := b_mkFun f ts l in some_fst r).
Proof.
  intros W Hf Ha Hts HF. destruct (b_mkFun_ok l f ts) as (t & l' & -> & [W' Hle (us & _ & Hus & Hn)]); try done.
  - by apply typeCheck_ok.
  - eapply Forall_impl; [exact Hts|]. intros a. apply bool_bound.
  - intros us _ E. by rewrite E.
  - rewrite Hus in Hn by done. exists t, l'. split; [done|]. split; [done|]. split; [done|]. split.
    + eexists. split; [done|]. by destruct f.
    + intros ρ C. by eapply HF.
Qed.

(** ** Negation *)

Lemma mkNot_ok l t : store_ok l → is_bool l t → makes l (λ ρ, negb (ρ t)) (mkNot t l).
Proof.
  intros W Hb. pose proof Hb as ([f ts] & Hn & Hs). unfold mkNot. rewrite (hasSortBool_ok _ _ Hb). cbn [rbind negb].
  unfold isNot, isTrue, isFalse. rewrite !(test_eq _ _ _ _ Hn). cbn [rbind bsymb].
  destruct (decide (f = sym_NOT)) as [->|H1].
  - rewrite bool_decide_true by done. destruct (not_node l W t ts Hn) as (a & -> & _ & Ha & _).
    unfold barg. rewrite (at_bterms _ _ _ Hn). cbn. apply makes_here; [done|done|]. intros ρ C.
    by rewrite (not_value _ _ _ _ C Hn), negb_involutive.
  - rewrite bool_decide_false by done. destruct (decide (f = sym_TRUE)) as [->|H2].
    + rewrite bool_decide_true by done. apply makes_here; [done|by apply false_bool|]. intros ρ C.
      by rewrite (true_unique l W _ _ Hn), true_value, false_value.
    + rewrite bool_decide_false by done. destruct (decide (f = sym_FALSE)) as [->|H3].
      * rewrite bool_decide_true by done. apply makes_here; [done|by apply true_bool|]. intros ρ C.
        by rewrite (false_unique l W _ _ Hn), true_value, false_value.
      * rewrite bool_decide_false by done. apply makes_fun; try done; [|by constructor|].
        -- exists t. split; [done|]. by exists (MkBNode f ts).
        -- intros ρ l' u _ Hu C. by apply (not_value l').
Qed.

(** Negating twice gives the term back. *)
Lemma mkNot_twice l t t' l' : store_ok l → is_bool l t → mkNot t l = Ok (Some t', l') → mkNot t' l' = Ok (Some t, l').
Proof.
  intros W Hb E. destruct (mkNot_ok l t W Hb) as (t1 & l1 & E1 & W1 & Hle & Hb1 & _). rewrite E in E1. injection E1 as <- <-.
  pose proof Hb as ([f ts] & Hn & Hs). unfold mkNot in E. rewrite (hasSortBool_ok _ _ Hb) in E. cbn [rbind negb] in E.
  unfold isNot, isTrue, isFalse in E. rewrite !(test_eq _ _ _ _ Hn) in E. cbn [rbind bsymb] in E.
  unfold mkNot. rewrite (hasSortBool_ok _ _ Hb1). unfold isNot, isTrue, isFalse. cbn [rbind negb].
  destruct (decide (f = sym_NOT)) as [->|H1].
  - rewrite bool_decide_true in E by done. destruct (not_node l W t ts Hn) as (a & -> & (n & Hna & N1 & N2 & N3) & Ha & _).
    unfold barg in E. rewrite (at_bterms _ _ _ Hn) in E. cbn in E. injection E as <- <-.
    rewrite !(test_eq _ _ _ _ Hna). cbn [rbind bsymb]. rewrite !bool_decide_false by done.
    by rewrite (b_mkFun_found l sym_NOT [a] t).
  - rewrite bool_decide_false in E by done. destruct (decide (f = sym_TRUE)) as [->|H2].
    + rewrite bool_decide_true in E by done. injection E as <- <-. rewrite !(test_eq _ _ _ _ (so_false _ W)). cbn.
      by rewrite (true_unique l W _ _ Hn).
    + rewrite bool_decide_false in E by done. destruct (decide (f = sym_FALSE)) as [->|H3].
      * rewrite bool_decide_true in E by done. injection E as <- <-. rewrite !(test_eq _ _ _ _ (so_true _ W)). cbn.
        by rewrite (false_unique l W _ _ Hn).
      * rewrite bool_decide_false in E by done. cbn [rbind] in E.
        destruct (b_mkFun_ok l sym_NOT [t]) as (u & l2 & E2 & [W2 Hle2 (us & _ & Hus & Hu)]); try done.
        -- apply typeCheck_ok; [done| |by constructor]. exists t. split; [done|]. by exists (MkBNode f ts).
        -- constructor; [by apply bool_bound|done].
        -- intros us P _. apply Permutation_singleton_r in P as ->. exists t. split; [done|]. by exists (MkBNode f ts).
        -- intros _. by constructor.
        -- rewrite E2 in E. injection E as <- <-. rewrite Hus in Hu by done. rewrite (test_eq _ _ _ _ Hu). cbn.
           unfold barg. by rewrite (at_bterms _ _ _ Hu).
Qed.

Lemma mkNot_def_ok l t : store_ok l → is_bool l t →
  ∃ t' l', mkNot_def t l = Ok (t', l') ∧ store_ok l' ∧ store_le l l' ∧ is_bool l' t' ∧ ∀ ρ, consistent l' ρ → ρ t' = negb (ρ t).
Proof.
  intros W Hb. destruct (mkNot_ok l t W Hb) as (t' & l' & E & H). exists t', l'. split; [|done].
  unfold mkNot_def. by rewrite E.
Qed.

(** ** Conjunctions and disjunctions

    Both are [junction]s: with an argument of the absorbing value that value,
    else the other. *)
Definition junction (a : bool) (bs : list bool) : bool := if bool_decide (a ∈ bs) then a else negb a.

Lemma forallb_junction bs : forallb id bs = junction false bs.
Proof.
  unfold junction. case_bool_decide as H.
  - apply not_true_iff_false. rewrite forallb_forall. intros Hf. apply list_elem_of_In in H. by apply Hf in H.
  - apply forallb_forall. intros b Hb. apply list_elem_of_In in Hb. by destruct b.
Qed.
Lemma existsb_junction bs : existsb id bs = junction true bs.
Proof.
  unfold junction. case_bool_decide as H.
  - apply existsb_exists. exists true. by split; [apply list_elem_of_In|].
  - apply not_true_iff_false. rewrite existsb_exists. intros (b & Hb & Hv). apply list_elem_of_In in Hb. by destruct b.
Qed.

Lemma junction_iff a bs bs' : (a ∈ bs ↔ a ∈ bs') → junction a bs = junction a bs'.
Proof. unfold junction. intros H. by rewrite (bool_decide_ext _ _ H). Qed.

Definition signed_value ρ q : bool := if bool_decide (sgn q = l_True) then ρ (tr q) else negb (ρ (tr q)).

Record signed_ok l q : Prop := {
  sg_bool : is_bool l (tr q);
  sg_sign : sgn q = l_True ∨ sgn q = l_False ∧ negatable l (tr q);
}.

Lemma signed_ok_mono l l' q : store_le l l' → signed_ok l q → signed_ok l' q.
Proof. intros Hle [H1 H2]. constructor; [by eapply is_bool_mono|]. destruct H2 as [?|[? ?]]; [by left|right; eauto with store]. Qed.

Lemma signed_args_ok l ts : store_ok l → Forall (is_bool l) ts →
  ∃ ps, signed_args l ts = Ok (Some ps) ∧ Forall (signed_ok l) ps ∧ length ps = length ts
    ∧ ∀ ρ, consistent l ρ → signed_value ρ <$> ps = ρ <$> ts.
Proof.
  intros W H. enough (∀ ps0, ∃ ps, foldM (signed_arg l) (Some ps0) ts = Ok (Some (ps0 ++ ps)) ∧ Forall (signed_ok l) ps
    ∧ length ps = length ts ∧ ∀ ρ, consistent l ρ → signed_value ρ <$> ps = ρ <$> ts) as He by exact (He []).
  induction H as [|t ts Hb _ IH]; intros ps0; [exists []; by rewrite app_nil_r|].
  assert (∃ q, signed_arg l (Some ps0) t = Ok (Some (ps0 ++ [q])) ∧ signed_ok l q
    ∧ ∀ ρ, consistent l ρ → signed_value ρ q = ρ t) as (q & Eq & Hq & Hv).
  { pose proof Hb as ([f us] & Hn & Hs). unfold signed_arg, isNot. rewrite (hasSortBool_ok _ _ Hb). cbn [rbind negb].
    rewrite (test_eq _ _ _ _ Hn). cbn [rbind bsymb]. destruct (decide (f = sym_NOT)) as [->|Hf].
    - rewrite bool_decide_true by done. destruct (not_node l W t us Hn) as (a & -> & Hg & Ha & _).
      unfold barg. rewrite (at_bterms _ _ _ Hn). exists (MkPtAsgn a l_False). split; [done|]. split; [constructor; auto|].
      intros ρ C. unfold signed_value. cbn. by rewrite (not_value _ _ _ _ C Hn).
    - rewrite bool_decide_false by done. exists (MkPtAsgn t l_True). split; [done|]. split; [constructor; auto|]. done. }
  cbn [foldM]. rewrite Eq. cbn [rbind]. destruct (IH (ps0 ++ [q])) as (ps & -> & Hps & Hl & Hvs). exists (q :: ps).
  rewrite <- app_assoc. split; [done|]. split; [by constructor|]. split; [by cbn; rewrite Hl|].
  intros ρ C. cbn. by rewrite Hv, Hvs.
Qed.

(** The constants with the absorbing value [a] and its negation. *)
Definition constant_sym (a : bool) : BSym := if a then sym_TRUE else sym_FALSE.

Lemma constant_value l ρ t a ts : store_ok l → consistent l ρ → bterms l !! t = Some (MkBNode (constant_sym a) ts) → ρ t = a.
Proof. intros W C Hn. eapply C; [exact Hn|]. by destruct a. Qed.

Definition values ρ (p : option PtAsgn) (ps : list PtAsgn) : list bool := signed_value ρ <$> (option_list p ++ ps).

Lemma elem_of_values a ρ p ps : a ∈ values ρ p ps ↔ (∃ q, p = Some q ∧ signed_value ρ q = a) ∨ a ∈ values ρ None ps.
Proof.
  unfold values. cbn [option_list app]. destruct p as [q|]; cbn; [|naive_solver].
  rewrite elem_of_cons. naive_solver.
Qed.

Lemma elem_of_values_cons a ρ p q ps : a ∈ values ρ p (q :: ps) ↔ a ∈ values ρ p [] ∨ a ∈ values ρ (Some q) ps.
Proof. unfold values. destruct p as [p|]; cbn; rewrite !elem_of_cons, ?elem_of_nil; naive_solver. Qed.

Lemma elem_of_values_last a ρ p ps : a ∈ values ρ (Some p) [] → a ∈ values ρ (Some p) ps.
Proof. unfold values. cbn. rewrite !elem_of_cons, elem_of_nil. naive_solver. Qed.

Lemma signed_opposite l ρ p q : signed_ok l p → signed_ok l q → tr p = tr q → sgn p ≠ sgn q →
  signed_value ρ q = negb (signed_value ρ p).
Proof.
  intros [_ Hp] [_ Hq] E Hne. unfold signed_value. rewrite E.
  repeat case_bool_decide; rewrite ?negb_involutive; try done; destruct Hp as [?|[? _]], Hq as [?|[? _]]; congruence.
Qed.

Lemma signed_constant l q a ts : store_ok l → signed_ok l q → bterms l !! tr q = Some (MkBNode (constant_sym a) ts) →
  sgn q = l_True ∧ ∀ ρ, consistent l ρ → signed_value ρ q = a.
Proof.
  intros W [_ Hq] Hn. assert (sgn q = l_True) as E.
  { destruct Hq as [?|[_ (n & Hn' & _ & N1 & N2)]]; [done|]. rewrite Hn in Hn'. injection Hn' as <-. by destruct a. }
  split; [done|]. intros ρ C. unfold signed_value. rewrite E. cbn. by eapply constant_value.
Qed.

Lemma keep_args_ok a l : store_ok l → ∀ ps p, Forall (signed_ok l) ps → (∀ q, p = Some q → signed_ok l q) →
  ∃ r, keep_args (constant_sym a) (constant_sym (negb a)) l p ps = Ok r ∧
    match r with
    | None => ∀ ρ, consistent l ρ → a ∈ values ρ p ps
    | Some qs => Forall (signed_ok l) qs ∧ ∀ ρ, consistent l ρ → a ∈ values ρ p ps ↔ a ∈ values ρ p qs
    end.
Proof.
  intros W. induction ps as [|q ps IH]; intros p Hps Hp; [by exists (Some [])|].
  apply Forall_cons in Hps as [Hq Hps]. destruct (sg_bool _ _ Hq) as ([f us] & Hn & _).
  cbn [keep_args]. rewrite (bsym_of_eq _ _ _ Hn). cbn [rbind bsymb].
  destruct (decide (f = constant_sym a)) as [->|Hf1].
  { rewrite bool_decide_true by done. destruct (signed_constant _ _ _ _ W Hq Hn) as [-> Hv].
    exists None. split; [done|]. intros ρ C. apply elem_of_values_cons. right. apply elem_of_values. left. exists q. auto. }
  rewrite bool_decide_false by done. destruct (decide (f = constant_sym (negb a))) as [->|Hf2].
  { rewrite bool_decide_true by done. destruct (signed_constant _ _ _ _ W Hq Hn) as [-> Hv].
    cbn [check bool_decide rbind]. rewrite bool_decide_true by done. cbn [check rbind].
    destruct (IH p Hps Hp) as (r & -> & Hr). exists r. split; [done|].
    assert (∀ ρ, consistent l ρ → a ∈ values ρ p (q :: ps) ↔ a ∈ values ρ p ps) as He.
    { intros ρ C. rewrite elem_of_values_cons, (elem_of_values a ρ p []), (elem_of_values a ρ (Some q) ps), (elem_of_values a ρ p ps).
      specialize (Hv ρ C). split; [|intros [?|?]; auto]. intros [[?|[]%elem_of_nil]|[(q' & [= <-] & E)|?]]; auto.
      rewrite Hv in E. by destruct a. }
    destruct r as [qs|]; [destruct Hr as [H1 H2]; split; [done|]|]; intros ρ C; rewrite He by done; auto. }
  rewrite bool_decide_false by done. destruct (decide (p = Some q)) as [->|Hpq].
  { rewrite bool_decide_true by done. destruct (IH (Some q) Hps Hp) as (r & -> & Hr). exists r. split; [done|].
    assert (∀ ρ, a ∈ values ρ (Some q) (q :: ps) ↔ a ∈ values ρ (Some q) ps) as He.
    { intros ρ. rewrite elem_of_values_cons. split; [intros [H|?]; [by apply elem_of_values_last|done]|by right]. }
    destruct r as [qs|]; [destruct Hr as [H1 H2]; split; [done|]|]; intros ρ C; rewrite He; auto. }
  rewrite bool_decide_false by done.
  destruct (match p with Some p => (tr p =? tr q) && negb (bool_decide (sgn p = sgn q)) | None => false end) eqn:Eo.
  { exists None. split; [done|]. intros ρ C. destruct p as [p|]; [|done].
    apply andb_true_iff in Eo as [E1%Nat.eqb_eq E2%negb_true_iff%bool_decide_eq_false].
    pose proof (signed_opposite l ρ p q (Hp _ eq_refl) Hq E1 E2) as E. unfold values. cbn. rewrite !elem_of_cons, E.
    destruct a, (signed_value ρ p); auto. }
  destruct (IH (Some q) Hps) as (r & -> & Hr); [by intros q' [= <-]|]. cbn [rbind]. exists ((q ::.) <$> r). split; [done|].
  destruct r as [qs|]; cbn.
  - destruct Hr as [H1 H2]. split; [by constructor|]. intros ρ C. rewrite !(elem_of_values_cons a ρ p q), H2 by done. done.
  - intros ρ C. apply elem_of_values_cons. right. by apply Hr.
Qed.

Lemma unsigned_ok l q : store_ok l → signed_ok l q →
  ∃ t l', unsigned q l = Ok (t, l') ∧ store_ok l' ∧ store_le l l' ∧ is_bool l' t ∧ ∀ ρ, consistent l' ρ → ρ t = signed_value ρ q.
Proof.
  intros W [Hb Hs]. unfold unsigned, signed_value. destruct Hs as [->|[-> _]].
  - rewrite bool_decide_true by done. exists (tr q), l. split; [done|]. split; [done|]. by split; [reflexivity|].
  - rewrite bool_decide_false by done. by apply mkNot_def_ok.
Qed.

Lemma unsigned_args_ok l qs : store_ok l → Forall (signed_ok l) qs →
  ∃ ts l', unsigned_args qs l = Ok (ts, l') ∧ store_ok l' ∧ store_le l l' ∧ Forall (is_bool l') ts ∧ length ts = length qs
    ∧ ∀ ρ, consistent l' ρ → ρ <$> ts = signed_value ρ <$> qs.
Proof.
  intros W. unfold unsigned_args. intros H.
  enough (∀ ts0 l1, store_ok l1 → store_le l l1 → Forall (is_bool l1) ts0 → ∃ ts l',
    foldM (λ st q, let! r := unsigned q st.2 in Ok (st.1 ++ [r.1], r.2)) (ts0, l1) qs = Ok (ts0 ++ ts, l')
    ∧ store_ok l' ∧ store_le l1 l' ∧ Forall (is_bool l') ts ∧ length ts = length qs
    ∧ ∀ ρ, consistent l' ρ → ρ <$> ts = signed_value ρ <$> qs) as He by (apply (He []); [done|reflexivity|constructor]).
  induction H as [|q qs Hq _ IH]; intros ts0 l1 W1 Hle1 H1.
  - exists [], l1. rewrite app_nil_r. split; [done|]. split; [done|]. split; [reflexivity|]. split; [constructor|]. by split.
  - cbn [foldM fst snd]. destruct (unsigned_ok l1 q W1 (signed_ok_mono _ _ _ Hle1 Hq)) as (t & l2 & -> & W2 & Hle2 & Hb & Hv).
    cbn [rbind fst snd].
    destruct (IH (ts0 ++ [t]) l2) as (ts & l' & -> & W' & Hle' & Hts & Hl & Hvs); [done|by etrans| |].
    { apply Forall_app_2; [|by constructor]. eapply Forall_impl; [exact H1|]. intros a. by apply is_bool_mono. }
    exists (t :: ts), l'. rewrite <- app_assoc. split; [done|]. split; [done|]. split; [by etrans|].
    split; [constructor; [by eapply is_bool_mono|done]|]. split; [by cbn; rewrite Hl|].
    intros ρ C. cbn. rewrite Hvs by done. f_equal. apply Hv. by eapply consistent_mono.
Qed.

Section junctions.
Context `{StdSort}.

(** [mkAnd] is [mk_junction false], [mkOr] is [mk_junction true]. *)
Definition mk_junction (a : bool) (ts : list PTRef) l : res (option PTRef * BLogic) :=
  let one := if a then term_TRUE l else term_FALSE l in
  let zero := if a then term_FALSE l else term_TRUE l in
  match ts with
  | [] => Ok (Some zero, l)
  | _ =>
      let! tmp_args := signed_args l ts in
      match tmp_args with
      | None => Ok (None, l)
      | Some ps =>
          let! kept := keep_args (constant_sym a) (constant_sym (negb a)) l None (std_sort ps) in
          match kept with
          | None => Ok (Some one, l)
          | Some [] => Ok (Some zero, l)
          | Some [q] => if bool_decide (sgn q = l_True) then Ok (Some (tr q), l) else mkNot (tr q) l
          | Some qs =>
              let! r := unsigned_args qs l in
              let! r := b_mkFun (if a then sym_OR else sym_AND) r.1 r.2 in some_fst r
          end
      end
  end.

Lemma constant_ok l (a : bool) : store_ok l → is_bool l (if a then term_TRUE l else term_FALSE l)
  ∧ ∀ ρ, consistent l ρ → ρ (if a then term_TRUE l else term_FALSE l) = a.
Proof.
  intros W. destruct a.
  - split; [by apply true_bool|]. intros ρ. by apply true_value.
  - split; [by apply false_bool|]. intros ρ. by apply false_value.
Qed.

Lemma zero_ok l (a : bool) : store_ok l → is_bool l (if a then term_FALSE l else term_TRUE l)
  ∧ ∀ ρ, consistent l ρ → ρ (if a then term_FALSE l else term_TRUE l) = negb a.
Proof. intros W. destruct a; [apply (constant_ok l false W)|apply (constant_ok l true W)]. Qed.

Lemma junction_one a bs : a ∈ bs → junction a bs = a.
Proof. intros Hb. unfold junction. by rewrite bool_decide_true. Qed.
Lemma junction_zero a bs : a ∉ bs → junction a bs = negb a.
Proof. intros Hb. unfold junction. by rewrite bool_decide_false. Qed.

Lemma mk_junction_ok a l ts : store_ok l → Forall (is_bool l) ts → makes l (λ ρ, junction a (ρ <$> ts)) (mk_junction a ts l).
Proof.
  intros W Hts. pose proof (constant_ok l a W) as [B1 V1]. pose proof (zero_ok l a W) as [B0 V0].
  unfold mk_junction. destruct ts as [|t0 ts0].
  { apply makes_here; [done..|]. intros ρ C. rewrite V0 by done. symmetry. apply junction_zero. by intros ?%elem_of_nil. }
  set (ts := t0 :: ts0) in *. clearbody ts. clear t0 ts0.
  destruct (signed_args_ok l ts W Hts) as (ps & -> & Hps & _ & Hv). cbn [rbind].
  destruct (keep_args_ok a l W (std_sort ps) None) as (r & -> & Hr); [by rewrite std_sort_perm|done|]. cbn [rbind].
  assert (∀ ρ, consistent l ρ → a ∈ ρ <$> ts ↔ a ∈ values ρ None (std_sort ps)) as He.
  { intros ρ C. unfold values. cbn. by rewrite std_sort_perm, Hv. }
  destruct r as [qs|].
  2: { apply makes_here; [done..|]. intros ρ C. rewrite V1 by done. symmetry. apply junction_one, He; auto. }
  destruct Hr as [Hqs Hr].
  assert (∀ ρ, consistent l ρ → junction a (ρ <$> ts) = junction a (signed_value ρ <$> qs)) as Hj.
  { intros ρ C. apply junction_iff. by rewrite He, Hr. }
  apply (makes_ext _ (λ ρ, junction a (signed_value ρ <$> qs))); [|intros ρ C; by rewrite Hj].
  destruct qs as [|q [|q' qs]].
  - apply makes_here; [done..|]. intros ρ C. rewrite V0 by done. symmetry. apply junction_zero. by intros ?%elem_of_nil.
  - apply (proj1 (Forall_singleton _ _)) in Hqs. assert (∀ b, junction a [b] = b) as Hs.
    { intros b. unfold junction. case_bool_decide as E; rewrite list_elem_of_singleton in E; destruct a, b; done. }
    case_bool_decide as Eq.
    + apply makes_here; [done|apply Hqs|]. intros ρ C. cbn. rewrite Hs. unfold signed_value. by rewrite Eq.
    + eapply makes_ext; [apply mkNot_ok; [done|apply Hqs]|]. intros ρ C. cbn. rewrite Hs. unfold signed_value.
      by rewrite bool_decide_false.
  - set (qs0 := q :: q' :: qs) in *. destruct (unsigned_args_ok l qs0 W Hqs) as (us & l' & -> & W' & Hle & Hus & Hlen & Hvs).
    cbn [rbind fst snd]. apply (makes_later _ l'); [done|]. apply makes_fun; try done; [by destruct a| |].
    + destruct a; cbn; rewrite Hlen; cbn; lia.
    + intros ρ l2 t Hle2 Hn C. rewrite <- (Hvs ρ) by by eapply consistent_mono.
      eapply C; [exact Hn|]. destruct a; cbn; [by rewrite existsb_junction|by rewrite forallb_junction].
Qed.

Lemma mkAnd_ok l ts : store_ok l → Forall (is_bool l) ts → makes l (λ ρ, forallb id (ρ <$> ts)) (mkAnd ts l).
Proof.
  intros W Hts. change (mkAnd ts l) with (mk_junction false ts l). eapply makes_ext; [by apply mk_junction_ok|].
  intros ρ _. by rewrite forallb_junction.
Qed.

Lemma mkOr_ok l ts : store_ok l → Forall (is_bool l) ts → makes l (λ ρ, existsb id (ρ <$> ts)) (mkOr ts l).
Proof.
  intros W Hts. change (mkOr ts l) with (mk_junction true ts l). eapply makes_ext; [by apply mk_junction_ok|].
  intros ρ _. by rewrite existsb_junction.
Qed.

End junctions.

(** * Boolean terms: exclusive or, implication, equality, [ite]

    And the statement for clients: what every constructor of Boolean terms
    makes. *)

#[local] Open Scope nat_scope.
Implicit Types (x y c : PTRef).

Lemma makes_inv l F m : makes l F m → ∃ t l', m = Ok (Some t, l') ∧ store_ok l' ∧ store_le l l' ∧ is_bool l' t
  ∧ ∀ ρ, consistent l' ρ → ρ t = F ρ.
Proof. done. Qed.

Lemma le_consts l l' : store_le l l' → term_TRUE l' = term_TRUE l ∧ term_FALSE l' = term_FALSE l.
Proof. by intros [_ ? ? _]. Qed.

Lemma test_true_iff l t f : (∃ n, bterms l !! t = Some n) →
  ∃ b : bool, test_bsym (λ g, bool_decide (g = f)) l t = Ok b ∧ (b = true → ∃ ts, bterms l !! t = Some (MkBNode f ts)).
Proof.
  intros [[g ts] Hn]. rewrite (test_eq _ _ _ _ Hn). eexists. split; [done|]. cbn.
  intros ->%bool_decide_eq_true_1. eauto.
Qed.

Section ops.
Context `{StdSort}.

(** What [x = mkNot(y)] tells, the store possibly grown by the negation. *)
Lemma complement_ok l x y : store_ok l → is_bool l y →
  ∃ u l', mkNot y l = Ok (Some u, l') ∧ store_ok l' ∧ store_le l l' ∧ (∀ ρ, consistent l' ρ → ρ u = negb (ρ y)).
Proof. intros W Hy. destruct (mkNot_ok l y W Hy) as (u & l' & E & W' & Hle & _ & Hv). eauto 10. Qed.

Lemma mkXor_ok l x y : store_ok l → is_bool l x → is_bool l y → makes l (λ ρ, xorb (ρ x) (ρ y)) (mkXor [x; y] l).
Proof.
  intros W Hx Hy. unfold mkXor. rewrite all_bool_ok by (by repeat constructor). cbn [rbind negb].
  destruct (Nat.eqb_spec x y) as [->|Hne].
  { apply makes_here; [done|by apply false_bool|]. intros ρ C. by rewrite false_value, xorb_nilpotent. }
  destruct (complement_ok l x y W Hy) as (u & l' & -> & W' & Hle & Hv). cbn [rbind fst snd].
  pose proof (is_bool_mono _ _ _ Hle Hx) as Hx'. pose proof (is_bool_mono _ _ _ Hle Hy) as Hy'.
  apply (makes_later _ l'); [done|]. case_bool_decide as Eu.
  { injection Eu as <-. apply makes_here; [done|by apply true_bool|]. intros ρ C. rewrite true_value, Hv by done. by destruct (ρ y). }
  destruct (Nat.eqb_spec x (term_TRUE l')) as [->|H1]; cbn [orb].
  { eapply makes_ext; [by apply mkNot_ok|]. intros ρ C. by rewrite (true_value l'). }
  destruct (Nat.eqb_spec y (term_TRUE l')) as [->|H2]; cbn [orb].
  { eapply makes_ext; [by apply mkNot_ok|]. intros ρ C. by rewrite (true_value l'), xorb_true_r. }
  destruct (Nat.eqb_spec x (term_FALSE l')) as [->|H3]; cbn [orb].
  { apply makes_here; try done. intros ρ C. by rewrite (false_value l'). }
  destruct (Nat.eqb_spec y (term_FALSE l')) as [->|H4]; cbn [orb].
  { apply makes_here; try done. intros ρ C. by rewrite (false_value l'), xorb_false_r. }
  destruct (b_termSort_ok [x; y]) as (us & -> & P). cbn [rbind].
  assert (us = [x; y] ∨ us = [y; x]) as Hus by (by apply Permutation_length_2_inv, symmetry).
  apply makes_fun; try done; [by destruct Hus as [-> | ->]|destruct Hus as [-> | ->]; by repeat constructor|].
  intros ρ l2 t _ Hn C. destruct Hus as [-> | ->]; (eapply C; [exact Hn|]); cbn; [done|by rewrite xorb_comm].
Qed.

Lemma mkImpl_ok l x y : store_ok l → is_bool l x → is_bool l y → makes l (λ ρ, implb (ρ x) (ρ y)) (mkImpl [x; y] l).
Proof.
  intros W Hx Hy. unfold mkImpl. rewrite all_bool_ok by (by repeat constructor). cbn [rbind negb].
  assert (∀ t, is_bool l t → ∃ n, bterms l !! t = Some n) as Hb by (intros t (n & Hn & _); eauto).
  destruct (test_true_iff l x sym_FALSE (Hb _ Hx)) as (b1 & E1 & F1). unfold isFalse at 1. rewrite E1. cbn [rbind].
  destruct b1.
  { destruct (F1 eq_refl) as [ts Hn]. apply makes_here; [done|by apply true_bool|]. intros ρ C.
    by rewrite (false_unique l W _ _ Hn), true_value, false_value. }
  destruct (test_true_iff l y sym_TRUE (Hb _ Hy)) as (b2 & E2 & F2). unfold isTrue at 1. rewrite E2. cbn [rbind].
  destruct b2.
  { destruct (F2 eq_refl) as [ts Hn]. apply makes_here; [done|by apply true_bool|]. intros ρ C.
    rewrite (true_unique l W _ _ Hn), true_value by done. by destruct (ρ x). }
  destruct (test_true_iff l x sym_TRUE (Hb _ Hx)) as (b3 & E3 & F3). unfold isTrue. rewrite E3. cbn [rbind].
  destruct (test_true_iff l y sym_FALSE (Hb _ Hy)) as (b4 & E4 & F4). unfold isFalse. rewrite E4. cbn [rbind].
  destruct (b3 && b4) eqn:E.
  { apply andb_true_iff in E as [-> ->]. destruct (F3 eq_refl) as [ts Hn]. destruct (F4 eq_refl) as [us Hm].
    apply makes_here; [done|by apply false_bool|]. intros ρ C.
    by rewrite (true_unique l W _ _ Hn), (false_unique l W _ _ Hm), true_value, false_value. }
  destruct (mkNot_def_ok l x W Hx) as (u & l' & -> & W' & Hle & Hu & Hv). cbn [rbind fst snd].
  apply (makes_later _ l'); [done|]. eapply makes_ext; [apply mkOr_ok; [done|]|].
  - constructor; [done|]. constructor; [by eapply is_bool_mono|done].
  - intros ρ C. cbn. rewrite Hv, orb_false_r by done. by destruct (ρ x).
Qed.

Lemma mkBinaryEq_ok l x y : store_ok l → is_bool l x → is_bool l y → makes l (λ ρ, eqb (ρ x) (ρ y)) (mkBinaryEq x y l).
Proof.
  intros W Hx Hy. unfold mkBinaryEq. destruct (Nat.eqb_spec x y) as [->|Hne].
  { apply makes_here; [done|by apply true_bool|]. intros ρ C. by rewrite true_value, eqb_reflx. }
  destruct Hx as ([fx tx] & Hx & Sx). destruct Hy as ([fy ty] & Hy & Sy). unfold isConstant.
  rewrite (test_eq _ _ _ _ Hx), (test_eq _ _ _ _ Hy). cbn [rbind bsymb].
  assert (is_bool l x) as Bx by (by exists (MkBNode fx tx)). assert (is_bool l y) as By by (by exists (MkBNode fy ty)).
  destruct (sym_constant (symbol fx) && sym_constant (symbol fy)) eqn:Ec.
  { apply andb_true_iff in Ec as [Cx Cy].
    assert (∀ t f ts, bterms l !! t = Some (MkBNode f ts) → rsort (symbol f) = sort_BOOL → sym_constant (symbol f) = true →
      t = term_TRUE l ∨ t = term_FALSE l) as Hc.
    { intros t f ts Hn Hs Hf. pose proof (no_shape _ _ _ (so_node _ W _ _ Hn)) as Hsh.
      destruct f; try done; [left; by eapply true_unique|right; by eapply false_unique|]. cbn in Hsh, Hs, Hf.
      destruct Hsh as [Hsh _]. by rewrite Hf, Hs in Hsh. }
    apply makes_here; [done|by apply false_bool|]. intros ρ C. rewrite false_value by done.
    destruct (Hc _ _ _ Hx Sx Cx) as [-> | ->], (Hc _ _ _ Hy Sy Cy) as [-> | ->]; try done;
      by rewrite true_value, false_value. }
  rewrite (hasSortBool_ok _ _ Bx). cbn [rbind].
  destruct (complement_ok l x y W By) as (u & l' & -> & W' & Hle & Hv). cbn [rbind fst snd].
  pose proof (is_bool_mono _ _ _ Hle Bx) as Bx'. pose proof (is_bool_mono _ _ _ Hle By) as By'.
  apply (makes_later _ l'); [done|]. case_bool_decide as Eu; cbn [rbind fst snd].
  { injection Eu as <-. apply makes_here; [done|by apply false_bool|]. intros ρ C. rewrite false_value, Hv by done. by destruct (ρ y). }
  destruct (Nat.eqb_spec x (term_TRUE l')) as [->|H1]; cbn [orb rbind fst snd].
  { apply makes_here; try done. intros ρ C. rewrite (true_value l') by done. by destruct (ρ y). }
  destruct (Nat.eqb_spec y (term_TRUE l')) as [->|H2]; cbn [orb rbind fst snd].
  { apply makes_here; try done. intros ρ C. rewrite (true_value l') by done. by destruct (ρ x). }
  destruct (Nat.eqb_spec x (term_FALSE l')) as [->|H3]; cbn [orb].
  { destruct (mkNot_ok l' y W' By') as (t & l2 & -> & H4). cbn. exists t, l2. split; [done|].
    destruct H4 as (W2 & Hle2 & B2 & H4). split; [done|]. split; [done|]. split; [done|]. intros ρ C. rewrite H4 by done.
    rewrite (false_value l' W') by by eapply consistent_mono. by destruct (ρ y). }
  destruct (Nat.eqb_spec y (term_FALSE l')) as [->|H4]; cbn [orb].
  { destruct (mkNot_ok l' x W' Bx') as (t & l2 & -> & H5). cbn. exists t, l2. split; [done|].
    destruct H5 as (W2 & Hle2 & B2 & H5). split; [done|]. split; [done|]. split; [done|]. intros ρ C. rewrite H5 by done.
    rewrite (false_value l' W') by by eapply consistent_mono. by destruct (ρ x). }
  cbn [rbind fst snd]. unfold lookup_equality.
  rewrite (sort_eq _ _ _ (le_node _ _ _ _ Hle Hx)), (sort_eq _ _ _ (le_node _ _ _ _ Hle Hy)). cbn [rbind bsymb].
  cbn [bsymb] in Sx, Sy. rewrite Sx, Sy. cbn [rbind Nat.eqb sort_BOOL sortToEquality]. apply makes_fun; try done; [by repeat constructor|].
  intros ρ l2 t _ Hn C. eapply C; [exact Hn|]. done.
Qed.

(** A chain of equalities. *)
Fixpoint adjacent_equal (b : bool) (bs : list bool) : bool :=
  match bs with [] => true | b' :: bs => eqb b b' && adjacent_equal b' bs end.

Lemma binary_equalities_ok ts : ∀ l x, store_ok l → is_bool l x → Forall (is_bool l) ts →
  ∃ es l', binary_equalities x ts l = Ok (es, l') ∧ store_ok l' ∧ store_le l l' ∧ Forall (is_bool l') es
    ∧ ∀ ρ, consistent l' ρ → forallb id (ρ <$> es) = adjacent_equal (ρ x) (ρ <$> ts).
Proof.
  induction ts as [|y ts IH]; intros l x W Hx Hts; cbn [binary_equalities].
  { exists [], l. split; [done|]. split; [done|]. split; [reflexivity|]. by split; [constructor|]. }
  apply Forall_cons in Hts as [Hy Hts]. destruct (mkBinaryEq_ok l x y W Hx Hy) as (e & l1 & -> & W1 & Hle1 & Be & Hv).
  cbn [rbind fst snd defined].
  destruct (IH l1 y W1) as (es & l2 & -> & W2 & Hle2 & Bes & Hvs); [by eapply is_bool_mono| |].
  { eapply Forall_impl; [exact Hts|]. intros a. by apply is_bool_mono. }
  cbn [rbind fst snd]. exists (e :: es), l2. split; [done|]. split; [done|]. split; [by etrans|].
  split; [constructor; [by eapply is_bool_mono|done]|]. intros ρ C. cbn. rewrite Hvs by done. f_equal.
  apply Hv. by eapply consistent_mono.
Qed.

Lemma mkEq_ok l x y ts : store_ok l → is_bool l x → is_bool l y → Forall (is_bool l) ts →
  makes l (λ ρ, adjacent_equal (ρ x) (ρ <$> (y :: ts))) (mkEq (x :: y :: ts) l).
Proof.
  intros W Hx Hy Hts. cbn [mkEq]. destruct ts as [|z ts].
  - eapply makes_ext; [by apply mkBinaryEq_ok|]. intros ρ _. cbn. by rewrite andb_true_r.
  - destruct (binary_equalities_ok (y :: z :: ts) l x) as (es & l' & -> & W' & Hle & Bes & Hv); [done|done|by constructor|].
    cbn [rbind fst snd]. apply (makes_later _ l'); [done|]. eapply makes_ext; [by apply mkAnd_ok|].
    intros ρ C. by apply Hv.
Qed.

(** [ite] over the Booleans: the value of the term is what valuations that
    respect [ite]s give it. *)
Definition respects_ite l ρ : Prop :=
  ∀ t c x y, bterms l !! t = Some (MkBNode sym_ITE [c; x; y]) → ρ t = if ρ c then ρ x else ρ y.

Lemma mkIte_ok l c x y : store_ok l → is_bool l c → is_bool l x → is_bool l y →
  ∃ t l', mkIte [c; x; y] l = Ok (Some t, l') ∧ store_ok l' ∧ store_le l l' ∧ is_bool l' t
    ∧ ∀ ρ, consistent l' ρ → respects_ite l' ρ → ρ t = if ρ c then ρ x else ρ y.
Proof.
  intros W Hc Hx Hy. unfold mkIte. cbn [at_ lookup list_lookup rbind]. rewrite (hasSortBool_ok _ _ Hc). cbn [rbind negb].
  assert (∃ n, bterms l !! c = Some n) as Hn by (destruct Hc as (n & Hn & _); eauto).
  destruct (test_true_iff l c sym_TRUE Hn) as (b1 & E1 & F1). unfold isTrue. rewrite E1. cbn [rbind]. destruct b1.
  { destruct (F1 eq_refl) as [ts Hm]. exists x, l. split; [done|]. split; [done|]. split; [reflexivity|]. split; [done|].
    intros ρ C _. by rewrite (true_unique l W _ _ Hm), true_value. }
  destruct (test_true_iff l c sym_FALSE Hn) as (b2 & E2 & F2). unfold isFalse. rewrite E2. cbn [rbind]. destruct b2.
  { destruct (F2 eq_refl) as [ts Hm]. exists y, l. split; [done|]. split; [done|]. split; [reflexivity|]. split; [done|].
    intros ρ C _. by rewrite (false_unique l W _ _ Hm), false_value. }
  destruct (Nat.eqb_spec x y) as [->|Hne].
  { exists y, l. split; [done|]. split; [done|]. split; [reflexivity|]. split; [done|]. intros ρ _ _. by destruct (ρ c). }
  rewrite (is_bool_sort _ _ Hx), (is_bool_sort _ _ Hy). cbn [rbind]. rewrite Nat.eqb_refl. cbn [negb].
  change (sortToIte sort_BOOL) with sym_ITE.
  destruct (b_mkFun_ok l sym_ITE [c; x; y]) as (t & l' & -> & [W' Hle (us & _ & Hus & Ht)]); try done.
  - apply typeCheck_ok; [done|done|by repeat constructor].
  - repeat constructor; by apply bool_bound.
  - intros us _ E. by rewrite E.
  - intros _. by repeat constructor.
  - rewrite Hus in Ht by done. exists t, l'. split; [done|]. split; [done|]. split; [done|].
    split; [by exists (MkBNode sym_ITE [c; x; y])|]. intros ρ _ R. by apply R.
Qed.

End ops.
