(* ===== verification/BoolValues.v ===== *)
(** * Boolean terms: valuations

    Values of the free terms extend to a consistent valuation, and a consistent
    valuation of a term only depends on the free terms below it.
    Then: declared symbols, the store of a new logic, and a small store made
    by the constructors. *)
From S2P Require Import Prelude NatSet Terms BoolTerms BoolFacts BoolConnectives.
From stdpp Require Import strings sorting.
From Stdlib Require Import Lia.

#[local] Open Scope nat_scope.
Implicit Types (l : BLogic) (t a u : PTRef) (ρ α : PTRef → bool).

Lemma bool_op_free f bs : meaningful f = false → bool_op f bs = None.
Proof. by destruct f. Qed.

Lemma bool_op_meaning l f ts bs : shape_ok l f ts → length bs = length ts → meaningful f = true → ∃ b, bool_op f bs = Some b.
Proof.
  intros Hs Hl Hm. destruct f; try done; cbn [bool_op]; eauto; cbn in Hs; try destruct Hs as (t & -> & _);
    destruct bs as [|b1 [|b2 [|b3 bs]]]; cbn in Hl; try lia; eauto.
Qed.

Lemma meaning_value l t n : store_ok l → bterms l !! t = Some n → meaningful (bsymb n) = true →
  ∀ ρ, ∃ b, bool_op (bsymb n) (ρ <$> bargs n) = Some b.
Proof.
  intros W Hn Hm ρ. eapply bool_op_meaning; [by eapply no_shape, (so_node _ W)| |done]. by rewrite length_fmap.
Qed.

(** A term is free or its value is the connective's. *)
Lemma term_cases l t n : store_ok l → bterms l !! t = Some n →
  free_term l t ∨ meaningful (bsymb n) = true ∧ ∀ ρ, consistent l ρ → bool_op (bsymb n) (ρ <$> bargs n) = Some (ρ t).
Proof.
  intros W Hn. destruct (meaningful (bsymb n)) eqn:Hm; [right|left; by exists n]. split; [done|]. intros ρ C.
  destruct (meaning_value l t n W Hn Hm ρ) as [b Hb]. by rewrite Hb, (C _ _ _ Hn Hb).
Qed.

(** ** Extension *)

Definition node_value α (vs : list bool) (n : BNode) : bool :=
  match bool_op (bsymb n) ((λ a, default false (vs !! a)) <$> bargs n) with Some b => b | None => α (length vs) end.
Definition table α (ns : list BNode) : list bool := foldl (λ vs n, vs ++ [node_value α vs n]) [] ns.
Definition extend l α t : bool := default false (table α (bterms l) !! t).

Lemma table_snoc α ns n : table α (ns ++ [n]) = table α ns ++ [node_value α (table α ns) n].
Proof. unfold table. by rewrite foldl_app. Qed.

Lemma table_length α ns : length (table α ns) = length ns.
Proof. induction ns as [|n ns IH] using rev_ind; [done|]. rewrite table_snoc, !length_app, IH. done. Qed.

Lemma table_at α ns t n : ns !! t = Some n → table α ns !! t = Some (node_value α (table α (take t ns)) n).
Proof.
  induction ns as [|m ns IH] using rev_ind; [done|]. rewrite table_snoc. intros Hn.
  apply lookup_app_Some in Hn as [Hn|[Hge Hn]].
  - rewrite lookup_app_l by (rewrite table_length; by eapply lookup_lt_Some). rewrite IH by done.
    by rewrite take_app_le by (apply lookup_lt_Some in Hn; lia).
  - destruct (t - length ns) as [|?] eqn:E; [|done]. injection Hn as ->. assert (t = length ns) as -> by lia.
    rewrite lookup_app_r by (rewrite table_length; lia). rewrite table_length, Nat.sub_diag. by rewrite take_app_length.
Qed.

Lemma table_prefix α ns t a : a < t → t <= length ns → table α (take t ns) !! a = table α ns !! a.
Proof.
  intros Ha Ht. destruct (lookup_lt_is_Some_2 ns a) as [n Hn]; [lia|]. rewrite (table_at _ ns a n Hn).
  rewrite (table_at _ (take t ns) a n) by (by rewrite lookup_take_lt). by rewrite take_take, Nat.min_l by lia.
Qed.

Lemma extend_value l α t n : store_ok l → bterms l !! t = Some n →
  extend l α t = match bool_op (bsymb n) (extend l α <$> bargs n) with Some b => b | None => α t end.
Proof.
  intros W Hn. pose proof (lookup_lt_Some _ _ _ Hn) as Ht. unfold extend at 1. rewrite (table_at _ _ _ _ Hn). cbn.
  unfold node_value. rewrite table_length, length_take, Nat.min_l by lia.
  replace ((λ a, default false (table α (take t (bterms l)) !! a)) <$> bargs n) with (extend l α <$> bargs n); [done|].
  apply list_fmap_ext. intros i a Ha. unfold extend. rewrite table_prefix; [done| |lia].
  eapply (Forall_lookup_1 _ _ _ _ (no_older _ _ _ (so_node _ W _ _ Hn)) Ha).
Qed.

Lemma extend_consistent l α : store_ok l → consistent l (extend l α).
Proof. intros W t n b Hn Hb. by rewrite (extend_value _ _ _ _ W Hn), Hb. Qed.

Lemma extend_free l α t : store_ok l → free_term l t → extend l α t = α t.
Proof. intros W (n & Hn & Hm). by rewrite (extend_value _ _ _ _ W Hn), bool_op_free. Qed.

(** ** The terms a value depends on *)

Inductive below l : PTRef → PTRef → Prop :=
| below_refl t : below l t t
| below_arg t n a u : bterms l !! t = Some n → meaningful (bsymb n) = true → a ∈ bargs n → below l a u → below l t u.

Lemma consistent_agree l ρ ρ' : store_ok l → consistent l ρ → consistent l ρ' →
  ∀ t n, bterms l !! t = Some n → (∀ u, below l t u → free_term l u → ρ u = ρ' u) → ρ t = ρ' t.
Proof.
  intros W C C' t. induction (lt_wf t) as [t _ IH]. intros n Hn Hu.
  destruct (term_cases l t n W Hn) as [Hf|[Hm Hv]]; [apply Hu; [constructor|done]|].
  pose proof (Hv ρ C) as E. rewrite (list_fmap_ext ρ ρ' (bargs n)) in E; [|intros i a Ha].
  - rewrite (Hv ρ' C') in E. by injection E.
  - pose proof (Forall_lookup_1 _ _ _ _ (no_older _ _ _ (so_node _ W _ _ Hn)) Ha) as Hlt. cbn in Hlt.
    destruct (lookup_lt_is_Some_2 (bterms l) a) as [m Hm']; [apply lookup_lt_Some in Hn; lia|].
    apply (IH a Hlt m Hm'). intros u Hb Hf. apply Hu; [|done]. eapply below_arg; try done. by apply list_elem_of_lookup_2 in Ha.
Qed.

(** * Boolean terms: declared symbols, and a store

    Making terms of declared symbols, the store of a new logic, a merge sort for
    [std::sort], and a small store made by the constructors. *)

(** ** Declared symbols *)

(** Neither a constant of the Booleans nor an associative symbol without
    arguments. *)
Definition declared (g : Symbol) : Prop := sym_constant g && (rsort g =? sort_BOOL) = false ∧ sym_type g = NoProperty.

Lemma declared_ok l g ts : store_ok l → declared g → Forall (λ a, a < length (bterms l)) ts → typeCheck (sym_other g) ts l = Ok true →
  ∃ t l', b_mkFun (sym_other g) ts l = Ok (t, l') ∧ made_node l (sym_other g) ts t l'.
Proof.
  intros W [Hc Hn] Hts Ht. apply b_mkFun_ok; try done. intros us P _. split; [done|]. intros Eg.
  unfold typeCheck in Ht. cbn [symbol] in Ht. rewrite Hn, Eg in Ht. destruct ts; [by apply Permutation_nil_r in P|done].
Qed.

(** ** A new store *)

Lemma empty_store_ok b : store_ok (empty_blogic b).
Proof.
  assert (∀ t n, bterms (empty_blogic b) !! t = Some n ↔ t = 0 ∧ n = MkBNode sym_TRUE [] ∨ t = 1 ∧ n = MkBNode sym_FALSE []) as Ht.
  { intros [|[|t]] n; cbn; naive_solver. }
  constructor; try done.
  - intros t n [[-> ->]|[-> ->]]%Ht; by constructor.
  - intros t t' n [[-> ->]|[-> ->]]%Ht [[-> E]|[-> E]]%Ht; done.
  - intros f t. rewrite Ht. cbn. set_solver.
  - intros f ts t. rewrite Ht. cbn. rewrite elem_of_nil. naive_solver.
  - intros f ts t. rewrite Ht. cbn. rewrite elem_of_nil. naive_solver.
Qed.

(** ** [std::sort] *)

Definition tr_le (a b : PtAsgn) : Prop := tr a ≤ tr b.
#[export] Instance tr_le_dec : RelDecision tr_le.
Proof. intros a b. unfold tr_le. apply _. Defined.
#[export] Instance tr_le_trans : Transitive tr_le.
Proof. intros a b c. unfold tr_le. lia. Qed.
#[export] Instance tr_le_total : Total tr_le.
Proof. intros a b. unfold tr_le. lia. Qed.

#[export] Instance merge_std_sort : StdSort := {|
  std_sort := merge_sort tr_le;
  std_sort_perm := merge_sort_Permutation tr_le;
  std_sort_sorted := StronglySorted_merge_sort tr_le;
|}.

(** ** An example *)

(** The variables [p] (term 2) and [q] (3), [p or q] (4), [p = q] (6), for which
    [not q] is made first, [not p] (7) and the conjunction of 4 and 6 (8). *)
Definition store_after {A : Type} (m : res (A * BLogic)) : BLogic := match m with Ok r => r.2 | Err _ => empty_blogic false end.
Definition ex_p : BLogic := store_after (mkBoolVar "p" (empty_blogic false)).
Definition ex_q : BLogic := store_after (mkBoolVar "q" ex_p).
Definition ex_or : BLogic := store_after (mkOr [2; 3] ex_q).
Definition ex_eq : BLogic := store_after (mkEq [2; 3] ex_or).
Definition ex_not : BLogic := store_after (mkNot 2 ex_eq).
Definition ex_store : BLogic := store_after (mkAnd [4; 6] ex_not).

Lemma ex_terms : bterms ex_store = [MkBNode sym_TRUE []; MkBNode sym_FALSE []; MkBNode (bool_var "p") []; MkBNode (bool_var "q") [];
  MkBNode sym_OR [2; 3]; MkBNode sym_NOT [3]; MkBNode sym_EQ [2; 3]; MkBNode sym_NOT [2]; MkBNode sym_AND [4; 6]].
Proof. vm_compute. reflexivity. Qed.

Lemma makes_after l F m : makes l F m → store_ok (store_after m).
Proof. by intros (t & l' & -> & W & _). Qed.

Lemma var_after l name : store_ok l → store_ok (store_after (mkBoolVar name l)).
Proof. intros W. by destruct (mkBoolVar_ok l name W) as (t & l' & -> & W' & _). Qed.

(** A term of a given store is Boolean. *)
Ltac bool_term := (eexists; split; [vm_compute; reflexivity|reflexivity]).

Lemma ex_store_ok : store_ok ex_store.
Proof.
  assert (store_ok ex_q) as Wq by apply var_after, var_after, empty_store_ok.
  assert (store_ok ex_or) as Wo.
  { eapply makes_after, mkOr_ok; [done|]. repeat (constructor; [bool_term|]). constructor. }
  assert (store_ok ex_eq) as We by (eapply makes_after, mkEq_ok; [done|bool_term|bool_term|constructor]).
  assert (store_ok ex_not) as Wn by (eapply makes_after, mkNot_ok; [done|bool_term]).
  eapply makes_after, mkAnd_ok; [done|]. repeat (constructor; [bool_term|]). constructor.
Qed.
