(* ===== verification/TermMapper.v ===== *)
(** * Terms and variables of the SAT solver

    cnfizers/TermMapper.h/.cc: Boolean terms without negations in front are
    numbered by variables, a term with negations is a literal.  The invariant:
    the two tables are inverse to each other. *)
From S2P Require Import Prelude SatLits Terms BoolTerms BoolFacts BoolConnectives.
From stdpp Require Import sorting.
From Stdlib Require Import Lia.

#[local] Open Scope nat_scope.
Implicit Types (l : BLogic) (t a : PTRef).

Record TermMapper : Type := MkTermMapper {
  var_cnt : nat;
  frozen : list bool;
  varToTerm : list (option PTRef);
  termToVar : list (option Var);
}.
Implicit Types m : TermMapper.

Definition new_mapper : TermMapper := MkTermMapper 0 [] [] [].

(** The positive term and the sign.  The fuel is enough as arguments are older
    than their terms. *)
Fixpoint getTerm_from (fuel : nat) l (r : PTRef) (sgn : bool) : res (PTRef * bool) :=
  match fuel with
  | O => Err Out_of_fuel
  | S fuel =>
      let! f := bsym_of l r in
      if bool_decide (f = sym_NOT) then let! r := barg l r 0 in getTerm_from fuel l r (negb sgn)
      else Ok (r, sgn)
  end.
Definition getTerm l (r : PTRef) : res (PTRef * bool) := getTerm_from (S r) l r false.
Definition toPositive l t : res PTRef := let! p := getTerm l t in Ok p.1.

Definition peekVar l t m : res (option Var) :=
  let! n := isNot l t in
  let! _ := check (negb n) in
  Ok (match termToVar m !! t with Some v => v | None => None end).

Definition getVar_pos l (r : PTRef) m : res (PTRef * option Var) :=
  let! p := getTerm l r in
  let! v := peekVar l p.1 m in
  Ok (p.1, v).
Definition getVar l (r : PTRef) m : res (option Var) := let! p := getVar_pos l r m in Ok p.2.

Definition hasLit l t m : res bool :=
  let! p := toPositive l t in
  let! v := peekVar l p m in
  Ok (bool_decide (v ≠ None)).

Definition getLit l (r : PTRef) m : res Lit :=
  let! p := getTerm l r in
  let! v := peekVar l p.1 m in
  match v with Some v => Ok (mkLit v p.2) | None => Err Assertion_failed end.

(** [while (varToTerm.size() <= v) { varToTerm.push(PTRef_Undef); frozen.push(false); }]
    is [grow], as the two have the same size. *)
Definition addBinding l t m : res (Var * TermMapper) :=
  let! _ := check (length (varToTerm m) =? var_cnt m) in
  let! p := getVar_pos l t m in
  let! _ := check (bool_decide (p.2 = None)) in
  let v := var_cnt m in
  let! h := hasLit l p.1 m in
  let! _ := check (negb h) in
  let! tv := upd (grow (termToVar m) p.1 None) p.1 (Some v) in
  let! _ := check (length (varToTerm m) =? length (frozen m)) in
  let! vt := upd (grow (varToTerm m) v None) v (Some p.1) in
  Ok (v, MkTermMapper (S v) (grow (frozen m) v false) vt tv).

Definition getOrCreateLit l t m : res (Lit * TermMapper) :=
  let! p := getTerm l t in
  let! v := peekVar l p.1 m in
  match v with
  | Some v => Ok (mkLit v p.2, m)
  | None =>
      let! b := hasSortBool l p.1 in
      let! _ := check b in
      let! r := addBinding l p.1 m in
      Ok (mkLit r.1 p.2, r.2)
  end.

Definition setFrozen (v : Var) m : res TermMapper :=
  let! f := upd (frozen m) v true in Ok (MkTermMapper (var_cnt m) f (varToTerm m) (termToVar m)).
Definition isFrozen (v : Var) m : res bool := at_ (frozen m) v.
Definition nVars m : nat := length (varToTerm m).
Definition varToPTRef (v : Var) m : res (option PTRef) := at_ (varToTerm m) v.

Definition litToPTRef (p : Lit) m l : res (option PTRef * BLogic) :=
  let! o := varToPTRef (var p) m in
  if sign p then let! a := defined o in mkNot a l else Ok (o, l).

(** ** The invariant *)

Definition binds m t v : Prop := termToVar m !! t = Some (Some v).

Record mapper_ok l m : Prop := {
  tm_terms : length (varToTerm m) = var_cnt m;
  tm_frozen : length (frozen m) = var_cnt m;
  tm_inverse t v : varToTerm m !! v = Some (Some t) ↔ binds m t v;
  tm_defined v : v < var_cnt m → ∃ t, varToTerm m !! v = Some (Some t);
  tm_positive t v : binds m t v → is_bool l t ∧ ¬ sym_at l t sym_NOT;
}.

Lemma new_mapper_ok l : mapper_ok l new_mapper.
Proof. constructor; try done. intros v Hv. cbn in Hv. lia. Qed.

(** The positive term and the sign, in a store without double negations. *)
Definition purify l t : PTRef * bool :=
  match bterms l !! t with Some (MkBNode sym_NOT [a]) => (a, true) | _ => (t, false) end.

Definition lit_at l m t p : Prop := ∃ v, binds m (purify l t).1 v ∧ p = mkLit v (purify l t).2.

Definition mapper_le m m' : Prop := ∀ t v, binds m t v → binds m' t v.
#[export] Instance mapper_le_preorder : PreOrder mapper_le.
Proof. split; [by intros m t v|]. intros m1 m2 m3 H1 H2 t v H. auto. Qed.

Lemma sym_at_det l t f g : sym_at l t f → sym_at l t g → f = g.
Proof. intros [ts H1] [us H2]. congruence. Qed.

Lemma sym_at_mono l l' t f : store_le l l' → sym_at l t f → sym_at l' t f.
Proof. intros Hle [ts H]. exists ts. by eapply le_node. Qed.

Section facts.
Context l (W : store_ok l).

Lemma purify_spec t : is_bool l t → is_bool l (purify l t).1 ∧ ¬ sym_at l (purify l t).1 sym_NOT
  ∧ (∀ ρ, consistent l ρ → ρ t = xorb (ρ (purify l t).1) (purify l t).2) ∧ (purify l t).1 ≤ t.
Proof.
  intros ([f ts] & Hn & Hs). unfold purify. rewrite Hn. destruct (decide (f = sym_NOT)) as [->|Hf].
  - destruct (not_node l W t ts Hn) as (a & -> & (n & Hna & N1 & _) & Ha & Hlt). cbn. split; [done|]. split.
    + intros [us Hu]. rewrite Hna in Hu. by injection Hu as ->.
    + split; [|lia]. intros ρ C. by rewrite (not_value _ _ _ _ C Hn), xorb_true_r.
  - assert (match f with sym_NOT => match ts with [a] => (a, true) | _ => (t, false) end | _ => (t, false) end = (t, false)) as Et
      by (by destruct f).
    assert (match f, ts with sym_NOT, [a] => (a, true) | _, _ => (t, false) end = (t, false)) as -> by (by destruct f).
    cbn. split; [by exists (MkBNode f ts)|]. split; [|split; [|lia]].
    + intros [us Hu]. congruence.
    + intros ρ _. by rewrite xorb_false_r.
Qed.

Lemma getTerm_ok t : is_bool l t → getTerm l t = Ok (purify l t).
Proof.
  intros Hb. pose proof Hb as ([f ts] & Hn & Hs). unfold getTerm. cbn [getTerm_from]. rewrite (bsym_of_eq _ _ _ Hn).
  cbn [rbind bsymb]. case_bool_decide as Hf.
  - subst f. destruct (not_node l W t ts Hn) as (a & -> & (n & Hna & N1 & _) & Ha & Hlt). unfold barg.
    rewrite (at_bterms _ _ _ Hn). cbn. destruct t as [|t]; [lia|]. cbn. rewrite (bsym_of_eq _ _ _ Hna). cbn.
    rewrite bool_decide_false by done. unfold purify. by rewrite Hn.
  - unfold purify. rewrite Hn. by destruct f.
Qed.

Lemma purify_positive t : is_bool l t → ¬ sym_at l t sym_NOT → purify l t = (t, false).
Proof.
  intros ([f ts] & Hn & _) Hf. unfold purify. rewrite Hn. destruct f; try done. destruct Hf. by exists ts.
Qed.

Lemma peekVar_ok t m : is_bool l t → ¬ sym_at l t sym_NOT →
  peekVar l t m = Ok (match termToVar m !! t with Some v => v | None => None end).
Proof.
  intros ([f ts] & Hn & _) Hf. unfold peekVar, isNot. rewrite (test_eq _ _ _ _ Hn). cbn.
  rewrite bool_decide_false; [done|]. intros ->. destruct Hf. by exists ts.
Qed.

Lemma binds_var_cnt m t v : mapper_ok l m → binds m t v → v < var_cnt m.
Proof.
  intros M Hb. apply (tm_inverse _ _ M) in Hb. rewrite <- (tm_terms _ _ M). by eapply lookup_lt_Some.
Qed.

Lemma binds_fun m t v v' : binds m t v → binds m t v' → v = v'.
Proof. unfold binds. congruence. Qed.
Lemma binds_inj m t t' v : mapper_ok l m → binds m t v → binds m t' v → t = t'.
Proof. intros M H1%(tm_inverse _ _ M) H2%(tm_inverse _ _ M). congruence. Qed.

Lemma lit_at_fun m t p p' : lit_at l m t p → lit_at l m t p' → p = p'.
Proof. intros (v & Hv & ->) (v' & Hv' & ->). by rewrite (binds_fun _ _ _ _ Hv Hv'). Qed.
Lemma lit_at_le m m' t p : mapper_le m m' → lit_at l m t p → lit_at l m' t p.
Proof. intros Hle (v & Hv & ->). exists v. auto. Qed.

(** ** A new variable *)

Lemma addBinding_ok m t : mapper_ok l m → is_bool l t → ¬ sym_at l t sym_NOT → (∀ v, ¬ binds m t v) →
  ∃ m', addBinding l t m = Ok (var_cnt m, m') ∧ mapper_ok l m' ∧ mapper_le m m' ∧ binds m' t (var_cnt m)
    ∧ (∀ t' v, binds m' t' v → t' = t ∧ v = var_cnt m ∨ binds m t' v).
Proof.
  intros M Hb Hp Hno. unfold addBinding. rewrite (tm_terms _ _ M), Nat.eqb_refl. cbn [check rbind].
  assert (match termToVar m !! t with Some v => v | None => None end = None) as Hnone.
  { destruct (termToVar m !! t) as [[v|]|] eqn:E; try done. by destruct (Hno v). }
  unfold getVar_pos, hasLit, toPositive. rewrite !(getTerm_ok t Hb), (purify_positive t Hb Hp). cbn [rbind fst snd].
  rewrite (peekVar_ok t m Hb Hp), Hnone. cbn [rbind fst snd bool_decide check].
  rewrite bool_decide_true by done. cbn [check rbind]. rewrite (getTerm_ok t Hb), (purify_positive t Hb Hp). cbn [rbind fst snd].
  rewrite (peekVar_ok t m Hb Hp), Hnone. cbn [rbind]. rewrite bool_decide_false by (intros H; by apply H). cbn [negb check rbind].
  unfold upd. rewrite (proj2 (Nat.ltb_lt _ _)) by (rewrite grow_length; lia). cbn [rbind].
  rewrite (tm_frozen _ _ M), Nat.eqb_refl. cbn [check rbind].
  rewrite (proj2 (Nat.ltb_lt _ _)) by (rewrite grow_length; lia). cbn [rbind].
  set (m' := MkTermMapper _ _ _ _). exists m'. split; [done|].
  assert (∀ t' v, binds m' t' v ↔ t' = t ∧ v = var_cnt m ∨ binds m t' v) as Hbinds.
  { intros t' v. unfold binds, m'. cbn [termToVar]. destruct (decide (t' = t)) as [->|Hne].
    - rewrite list_lookup_insert_eq by (rewrite grow_length; lia). split; [intros [= <-]; by left|].
      intros [[_ ->]|Hv]; [done|by destruct (Hno v)].
    - rewrite list_lookup_insert_ne by done. rewrite grow_lookup. destruct (termToVar m !! t') as [[u|]|] eqn:E.
      + naive_solver.
      + naive_solver.
      + case_decide; naive_solver. }
  assert (∀ v t', varToTerm m' !! v = Some (Some t') ↔ v = var_cnt m ∧ t' = t ∨ varToTerm m !! v = Some (Some t')) as Hterms.
  { intros v t'. unfold m'. cbn [varToTerm]. destruct (decide (v = var_cnt m)) as [->|Hne].
    - rewrite list_lookup_insert_eq by (rewrite grow_length; lia). split; [intros [= <-]; by left|].
      intros [[_ ->]|Hv]; [done|]. apply lookup_lt_Some in Hv. rewrite (tm_terms _ _ M) in Hv. lia.
    - rewrite list_lookup_insert_ne by done. rewrite grow_lookup. destruct (varToTerm m !! v) as [[u|]|] eqn:E; [naive_solver|naive_solver|].
      case_decide; naive_solver. }
  split; [|split; [intros t' v Hv; apply Hbinds; by right|split; [apply Hbinds; by left|intros t' v; apply Hbinds]]].
  constructor.
  - cbn. rewrite length_insert, grow_length, (tm_terms _ _ M). lia.
  - cbn. rewrite grow_length, (tm_frozen _ _ M). lia.
  - intros t' v. rewrite Hterms, Hbinds, (tm_inverse _ _ M). tauto.
  - intros v Hv. cbn in Hv. destruct (decide (v = var_cnt m)) as [->|Hne]; [exists t; apply Hterms; by left|].
    destruct (tm_defined _ _ M v) as [t' Ht']; [lia|]. exists t'. apply Hterms. by right.
  - intros t' v [[-> _]|Hv]%Hbinds; [done|by eapply (tm_positive _ _ M)].
Qed.

Lemma getOrCreateLit_ok m t : mapper_ok l m → is_bool l t →
  ∃ p m', getOrCreateLit l t m = Ok (p, m') ∧ mapper_ok l m' ∧ mapper_le m m' ∧ lit_at l m' t p
    ∧ (∀ t' v, binds m' t' v → t' = (purify l t).1 ∨ binds m t' v).
Proof.
  intros M Hb. destruct (purify_spec t Hb) as (Hb' & Hp & _). unfold getOrCreateLit.
  rewrite (getTerm_ok t Hb). cbn [rbind]. rewrite (peekVar_ok _ m Hb' Hp). cbn [rbind].
  destruct (termToVar m !! (purify l t).1) as [[v|]|] eqn:E.
  1: { exists (mkLit v (purify l t).2), m. split; [done|]. split; [done|]. split; [reflexivity|]. split; [by exists v|auto]. }
  all: rewrite (hasSortBool_ok _ _ Hb'); cbn [rbind check];
    destruct (addBinding_ok m _ M Hb' Hp) as (m' & -> & M' & Hle & Hv & Hnew); [intros v; unfold binds; congruence|];
    cbn [rbind fst snd]; eexists _, m'; split; [done|]; split; [done|]; split; [done|]; split; [by eexists|];
    intros t' v [[-> _]|?]%Hnew; auto.
Qed.

Lemma setFrozen_ok m v : mapper_ok l m → v < var_cnt m →
  ∃ m', setFrozen v m = Ok m' ∧ mapper_ok l m' ∧ (∀ t u, binds m' t u ↔ binds m t u).
Proof.
  intros M Hv. unfold setFrozen, upd. rewrite (proj2 (Nat.ltb_lt _ _)) by (rewrite (tm_frozen _ _ M); lia). cbn [rbind].
  eexists. split; [done|]. split; [|done]. destruct M. constructor; cbn; try done. by rewrite length_insert.
Qed.

Lemma getLit_ok m t p : is_bool l t → lit_at l m t p → getLit l t m = Ok p.
Proof.
  intros Hb (v & Hv & ->). destruct (purify_spec t Hb) as (Hb' & Hp & _). unfold getLit.
  rewrite (getTerm_ok t Hb). cbn [rbind]. rewrite (peekVar_ok _ m Hb' Hp). cbn [rbind]. unfold binds in Hv. by rewrite Hv.
Qed.

(** The literal of a term names the term. *)
Lemma litToPTRef_ok m t p : mapper_ok l m → is_bool l t → lit_at l m t p → litToPTRef p m l = Ok (Some t, l).
Proof.
  intros M Hb (v & Hv & ->). unfold litToPTRef, varToPTRef, at_. rewrite var_mkLit, sign_mkLit.
  rewrite (proj2 (tm_inverse _ _ M _ _) Hv). cbn [rbind]. pose proof Hb as ([f ts] & Hn & Hs).
  unfold purify in *. rewrite Hn in *. destruct (decide (f = sym_NOT)) as [->|Hf].
  - destruct (not_node l W t ts Hn) as (a & -> & (n & Hna & N1 & N2 & N3) & Ha & _). cbn.
    unfold mkNot. rewrite (hasSortBool_ok _ _ Ha). cbn [rbind negb]. unfold isNot, isTrue, isFalse.
    rewrite !(test_eq _ _ _ _ Hna). cbn [rbind]. rewrite !bool_decide_false by done.
    by rewrite (b_mkFun_found l sym_NOT [a] t W eq_refl Hn).
  - by destruct f.
Qed.

End facts.
