(* ===== verification/TermVisitor.v ===== *)
(** * Visiting the terms below a term

    [TermVisitor] of common/TreeOps.h, depth first, each term once, with the
    marks of the logic (a [nat_set]); its instances [topLevelConjuncts],
    [subTerms], [variables] and [AppearsInUfVisitor]; and
    [Logic::getNestedBoolRoots], which walks with a set of its own.
    Then: the proofs that the visits end and what they collect. *)
From S2P Require Import Prelude NatSet Terms BoolTerms BoolFacts.
From stdpp Require Import gmap.
From Stdlib Require Import Lia.

#[local] Open Scope nat_scope.
Implicit Types (l : BLogic) (t : PTRef).

(** The back of [toProcess] is the head of the list. *)
Record DFSEntry : Type := MkDFSEntry { term : PTRef; nextChild : nat }.

(** More than the loops over the terms of a store take. *)
Definition store_size l : nat := sum_list_with (λ n, 2 + length (bargs n)) (bterms l).
Definition fuel_for (n : nat) : nat := S (Nat.log2 n).

Section visitor.
Context {C : Type} (previsit : PTRef → C → res (bool * C)) (visit : PTRef → C → res C).

Abbreviation visit_state := (list DFSEntry * nat_set.nat_set * C)%type.

Definition visit_round l (s : visit_state) : res (visit_state + nat_set.nat_set * C) :=
  let '(toProcess, termMarks, cfg) := s in
  match toProcess with
  | [] => Ok (inr (termMarks, cfg))
  | e :: rest =>
      let! p := previsit (term e) cfg in
      if negb p.1 then
        let! termMarks := nat_set.insert (term e) termMarks in
        Ok (inl (rest, termMarks, p.2))
      else
        let! b := nat_set.contains termMarks (term e) in
        let! _ := check (negb b) in
        let! n := bnode l (term e) in
        if nextChild e <? length (bargs n) then
          let! child := at_ (bargs n) (nextChild e) in
          let e := MkDFSEntry (term e) (S (nextChild e)) in
          let! b := nat_set.contains termMarks child in
          Ok (inl (if b then e :: rest else MkDFSEntry child 0 :: e :: rest, termMarks, p.2))
        else
          let! cfg := visit (term e) p.2 in
          let! termMarks := nat_set.insert (term e) termMarks in
          Ok (inl (rest, termMarks, cfg))
  end.

(** [getTermMarks] makes room for the root and empties the set. *)
Definition TermVisitor_visit (root : PTRef) (cfg : C) l : res (C * BLogic) :=
  let! b := isVar l root in
  if b then
    let! p := previsit root cfg in
    if p.1 then let! cfg := visit root p.2 in Ok (cfg, l) else Ok (p.2, l)
  else
    let termMarks := nat_set.reset (nat_set.assure_domain (S root) (auxiliaryNatSet l)) in
    let! r := while (fuel_for (store_size l)) (visit_round l) ([MkDFSEntry root 0], termMarks, cfg) in
    Ok (r.2, with_marks r.1 l).
End visitor.

(** [TopLevelConjunctsConfig] *)
Definition conjuncts_previsit l t (conjuncts : list PTRef) : res (bool * list PTRef) :=
  let! b := isAnd l t in
  if negb b then Ok (false, conjuncts ++ [t]) else Ok (true, conjuncts).

Definition topLevelConjuncts (fla : PTRef) l : res (list PTRef * BLogic) :=
  TermVisitor_visit (conjuncts_previsit l) (λ _ c, Ok c) fla [] l.

(** [TermCollectorConfig] *)
Definition collector_visit (predicate : PTRef → res bool) t (gathered : list PTRef) : res (list PTRef) :=
  let! b := predicate t in Ok (if (b : bool) then gathered ++ [t] else gathered).

Definition matchingSubTerms (predicate : PTRef → res bool) t l : res (list PTRef * BLogic) :=
  TermVisitor_visit (λ _ c, Ok (true, c)) (collector_visit predicate) t [] l.
Definition subTerms t l : res (list PTRef * BLogic) := matchingSubTerms (λ _, Ok true) t l.
Definition variables t l : res (list PTRef * BLogic) := matchingSubTerms (isVar l) t l.

(** [AppearsInUFVisitorConfig]: the configuration is the logic, of which the
    visit reads what this one does not change. *)
Definition appears_visit t l : res BLogic :=
  let! b := isUF l t in
  if b then
    let! n := bnode l t in
    foldM (λ l child,
      let! b := hasSortBool l child in
      if b then
        let! n := isNot l child in
        let! t := if n then barg l child 0 else Ok child in
        setAppearsInUF t l
      else Ok l) l (bargs n)
  else Ok l.

Definition AppearsInUfVisitor_visit t l : res BLogic :=
  let! r := TermVisitor_visit (λ _ c, Ok (true, c)) appears_visit t l l in
  Ok (with_marks (auxiliaryNatSet r.2) r.1).

(** [Logic::getNestedBoolRoots]; the back of [queue] is the head of the list. *)
Definition nested_round l (s : list PTRef * gset PTRef * list PTRef) :
    res (list PTRef * gset PTRef * list PTRef + list PTRef) :=
  let '(queue, processed, roots) := s in
  match queue with
  | [] => Ok (inr roots)
  | t :: queue =>
      if decide (t ∈ processed) then Ok (inl (queue, processed, roots))
      else
        let! n := bnode l t in
        let! op := isBooleanOperator l t in
        let! st := foldM (λ st a,
          let! b := if negb op then hasSortBool l a else Ok false in
          Ok (a :: st.1, if (b : bool) then st.2 ++ [a] else st.2)) (queue, roots) (bargs n) in
        Ok (inl (st.1, {[t]} ∪ processed, st.2))
  end.

Definition Logic_getNestedBoolRoots l (root : PTRef) : res (list PTRef) :=
  while (fuel_for (S (store_size l))) (nested_round l) ([root], ∅, []).

(** Logics with arithmetic override it. *)
Definition getNestedBoolRoots l (root : PTRef) : res (list PTRef) :=
  if arithmetic l then Ok [] else Logic_getNestedBoolRoots l root.

(** * Visiting the terms below a term: correctness

    A visit whose [previsit] decides by the term alone runs through the terms
    it can reach, each once, arguments before their terms. *)

#[local] Open Scope nat_scope.
Implicit Types (a : PTRef).

(** ** Sums *)

Lemma sum_le {A} (w w' : A → nat) (xs : list A) : (∀ x, x ∈ xs → w' x ≤ w x) →
  sum_list_with w' xs ≤ sum_list_with w xs.
Proof.
  induction xs as [|x xs IH]; intros H; simpl; [lia|].
  pose proof (H x ltac:(apply elem_of_cons; by left)). specialize (IH (λ y Hy, H y ltac:(apply elem_of_cons; by right))). lia.
Qed.

Lemma sum_lt {A} (w w' : A → nat) (xs : list A) y : (∀ x, x ∈ xs → w' x ≤ w x) → y ∈ xs → w' y < w y →
  sum_list_with w' xs < sum_list_with w xs.
Proof.
  induction xs as [|x xs IH]; intros H Hy Hlt; simpl; [by apply elem_of_nil in Hy|].
  pose proof (H x ltac:(apply elem_of_cons; by left)) as Hx.
  assert (∀ x, x ∈ xs → w' x ≤ w x) as H' by (intros z Hz; apply H, elem_of_cons; by right).
  apply elem_of_cons in Hy as [-> |Hy].
  - pose proof (sum_le w w' xs H'). lia.
  - specialize (IH H' Hy Hlt). lia.
Qed.

Lemma sum_drop (w w' : nat → nat) t d k : t < k → (∀ u, w' u ≤ w u) → w' t + d ≤ w t →
  sum_list_with w' (seq 0 k) + d ≤ sum_list_with w (seq 0 k).
Proof.
  intros Ht Hle Hd. induction k as [|k IH]; [lia|]. rewrite seq_S, !sum_list_with_app. cbn.
  destruct (decide (t = k)) as [<-|Hne]; [|specialize (IH ltac:(lia)); specialize (Hle k); lia].
  assert (sum_list_with w' (seq 0 t) ≤ sum_list_with w (seq 0 t)) by (by apply sum_le). lia.
Qed.

Lemma sum_positions {A} (f : A → nat) (ns : list A) :
  sum_list_with (λ i, match ns !! i with Some n => f n | None => 0 end) (seq 0 (length ns)) = sum_list_with f ns.
Proof.
  induction ns as [|n ns IH] using rev_ind; [done|]. rewrite length_app, seq_app, !sum_list_with_app. simpl.
  rewrite list_lookup_middle by done. f_equal. rewrite <- IH. clear IH.
  assert (∀ i, i ∈ seq 0 (length ns) → (ns ++ [n]) !! i = ns !! i) as H.
  { intros i Hi%elem_of_seq. apply lookup_app_l. lia. }
  induction (seq 0 (length ns)) as [|i js IH]; [done|]. simpl. rewrite H by (apply elem_of_cons; by left).
  rewrite IH; [done|]. intros j Hj. apply H, elem_of_cons. by right.
Qed.

Lemma fuel_for_enough n m : m <= n → m < 2 ^ fuel_for n.
Proof.
  intros Hm. unfold fuel_for. destruct n as [|n]; [cbn; lia|]. pose proof (Nat.log2_spec (S n) ltac:(lia)). lia.
Qed.

(** ** Visits *)

Section visit.
Context {C : Type} (previsit : PTRef → C → res (bool * C)) (visit : PTRef → C → res C).
Context l (W : store_ok l) (descend : PTRef → bool) (leave finish : PTRef → C → C) (good : C → Prop).
Hypothesis previsit_ok : ∀ t c, t < length (bterms l) → good c →
  previsit t c = Ok (descend t, if descend t then c else leave t c) ∧ good (leave t c).
Hypothesis visit_ok : ∀ t c, t < length (bterms l) → good c → descend t = true →
  visit t c = Ok (finish t c) ∧ good (finish t c).

Inductive reach (r : PTRef) : PTRef → Prop :=
| reach_refl : reach r r
| reach_arg u n a : reach r u → descend u = true → bterms l !! u = Some n → a ∈ bargs n → reach r a.

Definition event (c : C) t : C := if descend t then finish t c else leave t c.

(** The terms in the order of their visits. *)
Record visited (root : PTRef) (ts : list PTRef) : Prop := {
  vi_nodup : NoDup ts;
  vi_reach t : t ∈ ts → reach root t;
  vi_args pre t post n a : ts = pre ++ t :: post → descend t = true → bterms l !! t = Some n → a ∈ bargs n → a ∈ pre;
}.

Context (root : PTRef) (Hroot : root < length (bterms l)) (cfg0 : C) (Hcfg0 : good cfg0).

Lemma reach_le t : reach root t → t ≤ root.
Proof.
  induction 1 as [|u n a _ IH _ Hn Ha]; [done|]. apply list_elem_of_lookup in Ha as [i Ha].
  pose proof (Forall_lookup_1 _ _ _ _ (no_older _ _ _ (so_node _ W _ _ Hn)) Ha). cbn in *. lia.
Qed.

Fixpoint stack_ok (ts : list PTRef) (above : option PTRef) (st : list DFSEntry) : Prop :=
  match st with
  | [] => True
  | e :: rest =>
      ((reach root (term e) ∧ (term e ∉ ts) ∧ (∀ u, above = Some u → u < term e ∧ descend (term e) = true) ∧
       (∃ n, bterms l !! term e = Some n ∧ nextChild e ≤ length (bargs n) ∧
         ∀ j a, j < nextChild e → bargs n !! j = Some a → a ∈ ts ∨ above = Some a)) ∧
      stack_ok ts (Some (term e)) rest)
  end.

Record round_ok (ts : list PTRef) (s : list DFSEntry * nat_set.nat_set * C) : Prop := {
  ro_cfg : s.2 = foldl event cfg0 ts;
  ro_good : good s.2;
  ro_marks : nat_set.inv s.1.2;
  ro_domain : root < nat_set.get_domain s.1.2;
  ro_member t : nat_set.member s.1.2 t ↔ t ∈ ts;
  ro_visited : visited root ts;
  ro_stack : stack_ok ts None s.1.1;
  ro_root : root ∈ ts ∨ ∃ e, e ∈ s.1.1 ∧ term e = root;
}.

Lemma stack_reach ts above st e : stack_ok ts above st → e ∈ st → reach root (term e) ∧ term e ∉ ts.
Proof.
  revert above. induction st as [|e0 st IH]; intros above Hs He; [by apply elem_of_nil in He|].
  destruct Hs as [(H1 & H2 & _) Hs]. apply elem_of_cons in He as [-> |He]; [done|by eapply IH].
Qed.

(** Terms further down the stack are younger. *)
Lemma stack_above ts u st e : stack_ok ts (Some u) st → e ∈ st → u < term e.
Proof.
  revert u. induction st as [|e0 st IH]; intros u Hs He; [by apply elem_of_nil in He|].
  destruct Hs as [(_ & _ & H3 & _) Hs]. destruct (H3 u eq_refl) as [Hlt _]. apply elem_of_cons in He as [-> |He]; [done|].
  pose proof (IH _ Hs He). lia.
Qed.

(** The head is marked and popped. *)
Lemma stack_pop ts t st : stack_ok ts (Some t) st → stack_ok (ts ++ [t]) None st.
Proof.
  assert (∀ above st, (∀ e, e ∈ st → t < term e) → stack_ok ts above st → stack_ok (ts ++ [t]) above st) as Hm.
  { clear st. intros above st. revert above. induction st as [|e st IH]; intros above Hlt; [done|].
    pose proof (Hlt e ltac:(apply elem_of_cons; by left)) as He.
    intros [(H1 & H2 & H3 & n & H4 & H5 & H6) Hs]. split; [|apply IH; [|done]; intros e' He'; apply Hlt, elem_of_cons; by right].
    split; [done|]. split; [rewrite elem_of_app, list_elem_of_singleton; intros [?|?]; [done|lia]|]. split; [done|].
    exists n. split; [done|]. split; [done|]. intros j a Hj Ha. destruct (H6 j a Hj Ha); [left; apply elem_of_app; by left|by right]. }
  intros Hs. pose proof (λ e, stack_above _ _ _ e Hs) as Hlt. destruct st as [|e st]; [done|].
  apply (Hm (Some t)) in Hs; [|done]. destruct Hs as [(H1 & H2 & H3 & n & H4 & H5 & H6) Hs]. split; [|done].
  split; [done|]. split; [done|]. split; [done|]. exists n. split; [done|]. split; [done|]. intros j a Hj Ha. left.
  destruct (H6 j a Hj Ha) as [?|[= <-]]; [done|]. apply elem_of_app. right. by apply list_elem_of_singleton.
Qed.

Lemma visited_snoc ts t : visited root ts → reach root t → t ∉ ts →
  (∀ n a, descend t = true → bterms l !! t = Some n → a ∈ bargs n → a ∈ ts) → visited root (ts ++ [t]).
Proof.
  intros [V1 V2 V3] Hr Ht Ha. constructor.
  - apply NoDup_app. split; [done|]. split; [|apply NoDup_singleton]. intros x Hx ->%list_elem_of_singleton. done.
  - intros u [?| ->%list_elem_of_singleton]%elem_of_app; auto.
  - intros pre u post n a E. destruct post as [|w post] using rev_ind.
    + apply app_inj_tail in E as [<- <-]. apply Ha.
    + clear IHpost. rewrite app_comm_cons, app_assoc in E. apply app_inj_tail in E as [-> _]. by eapply V3.
Qed.

(** ** Termination *)

Definition nargs t : nat := match bterms l !! t with Some n => length (bargs n) | None => 0 end.

Fixpoint next_of (st : list DFSEntry) t : option nat :=
  match st with [] => None | e :: st => if term e =? t then Some (nextChild e) else next_of st t end.

Definition weight (ts : list PTRef) (st : list DFSEntry) t : nat :=
  if decide (t ∈ ts) then 0
  else match next_of st t with Some k => 1 + (nargs t - k) | None => 2 + nargs t end.

Definition remaining (ts : list PTRef) (st : list DFSEntry) : nat :=
  sum_list_with (weight ts st) (seq 0 (length (bterms l))).

Lemma next_of_none st t : (∀ e, e ∈ st → term e ≠ t) → next_of st t = None.
Proof.
  induction st as [|e st IH]; intros H; [done|]. simpl. destruct (Nat.eqb_spec (term e) t) as [E|_].
  - exfalso. apply (H e); [apply elem_of_cons; by left|done].
  - apply IH. intros e' He'. apply H, elem_of_cons. by right.
Qed.

Lemma remaining_pop ts e st : term e < length (bterms l) → term e ∉ ts → stack_ok ts (Some (term e)) st →
  remaining (ts ++ [term e]) st < remaining ts (e :: st).
Proof.
  intros Hb Ht Hs. apply (sum_lt _ _ _ (term e)).
  - intros t _. unfold weight. simpl. destruct (Nat.eqb_spec (term e) t) as [<-|Hne].
    + rewrite (decide_True (P := term e ∈ ts ++ _)) by (apply elem_of_app; right; by apply list_elem_of_singleton). lia.
    + destruct (decide (t ∈ ts)) as [Hin|Hnin].
      * rewrite decide_True by (apply elem_of_app; by left). done.
      * rewrite decide_False; [done|]. rewrite elem_of_app, list_elem_of_singleton. intros [?|?]; congruence.
  - apply elem_of_seq. lia.
  - unfold weight. rewrite decide_True by (apply elem_of_app; right; by apply list_elem_of_singleton).
    rewrite decide_False by done. simpl. rewrite Nat.eqb_refl. lia.
Qed.

Lemma remaining_advance ts e st n : bterms l !! term e = Some n → term e ∉ ts → nextChild e < length (bargs n) →
  remaining ts (MkDFSEntry (term e) (S (nextChild e)) :: st) < remaining ts (e :: st).
Proof.
  intros Hn Ht Hk. apply (sum_lt _ _ _ (term e)).
  - intros t _. unfold weight. simpl. destruct (decide (t ∈ ts)); [lia|]. destruct (_ =? _); lia.
  - apply elem_of_seq. apply lookup_lt_Some in Hn. lia.
  - unfold weight, nargs. rewrite !decide_False by done. simpl. rewrite Nat.eqb_refl, Hn. lia.
Qed.

Lemma remaining_push ts a st : next_of st a = None → remaining ts (MkDFSEntry a 0 :: st) ≤ remaining ts st.
Proof.
  intros Ha. apply sum_le. intros t _. unfold weight. simpl. destruct (decide (t ∈ ts)); [lia|].
  destruct (Nat.eqb_spec a t) as [<-|]; [|lia]. rewrite Ha. lia.
Qed.

(** ** A round *)

Lemma round_step ts s : round_ok ts s →
  wp no_error (λ r, match r with
    | inl s' => ∃ ts', round_ok ts' s' ∧ remaining ts' s'.1.1 < remaining ts s.1.1
    | inr r => nat_set.inv r.1 ∧ r.2 = foldl event cfg0 ts ∧ visited root ts ∧ root ∈ ts
    end) (visit_round previsit visit l s).
Proof.
  destruct s as [[st marks] cfg]. intros [R1 Rg R2 R3 R4 R5 R6 R7]. cbn [fst snd] in *. cbn [visit_round].
  destruct st as [|e rest].
  { cbn. split; [done|]. split; [done|]. split; [done|]. destruct R7 as [?|(e & He & _)]; [done|by apply elem_of_nil in He]. }
  destruct R6 as [(Hr & Ht & _ & n & Hn & Hk & Hargs) Hs]. pose proof (lookup_lt_Some _ _ _ Hn) as Hb.
  pose proof (reach_le _ Hr) as Hle. destruct (previsit_ok (term e) cfg Hb Rg) as [-> Hg1]. cbn [rbind fst snd].
  assert (∀ ms cfg', nat_set.inv ms → nat_set.get_domain ms = nat_set.get_domain marks →
    (∀ u, nat_set.member ms u ↔ u = term e ∨ nat_set.member marks u) → cfg' = event cfg (term e) → good cfg' →
    (∀ n' a, descend (term e) = true → bterms l !! term e = Some n' → a ∈ bargs n' → a ∈ ts) →
    ∃ ts', round_ok ts' (rest, ms, cfg') ∧ remaining ts' rest < remaining ts (e :: rest)) as Hpop.
  { intros ms cfg' M1 M2 M3 -> Hg Ha. exists (ts ++ [term e]). split; [|by apply remaining_pop].
    constructor; cbn [fst snd].
    - rewrite foldl_app. cbn. by rewrite <- R1.
    - done.
    - done.
    - lia.
    - intros t. rewrite M3, R4, elem_of_app, list_elem_of_singleton. tauto.
    - by apply visited_snoc.
    - by apply stack_pop.
    - destruct R7 as [?|(e' & He' & E)]; [left; apply elem_of_app; by left|].
      apply elem_of_cons in He' as [-> |He']; [|by eauto]. left. apply elem_of_app. right. rewrite E. by apply list_elem_of_singleton. }
  destruct (descend (term e)) eqn:Hd; cbn [negb].
  2: { apply wp_bind. eapply wp_mono; [apply nat_set.insert_wp; [done|lia]|]. intros ms (M1 & M2 & M3). cbn.
    apply Hpop; try done. unfold event. by rewrite Hd. }
  apply wp_bind. eapply wp_mono; [apply nat_set.contains_wp; lia|]. intros b Hbm. cbn beta.
  destruct b; [by destruct Ht; apply R4, Hbm|]. cbn [negb check rbind]. rewrite (at_bterms _ _ _ Hn). cbn [rbind].
  destruct (Nat.ltb_spec (nextChild e) (length (bargs n))) as [Hlt|Hge].
  - destruct (lookup_lt_is_Some_2 _ _ Hlt) as [a Ha]. unfold at_. rewrite Ha. cbn [rbind].
    pose proof (Forall_lookup_1 _ _ _ _ (no_older _ _ _ (so_node _ W _ _ Hn)) Ha) as Hae. cbn in Hae.
    apply wp_bind. eapply wp_mono; [apply nat_set.contains_wp; lia|]. intros b Hba. cbn.
    exists ts. set (e' := MkDFSEntry (term e) (S (nextChild e))).
    pose proof (remaining_advance ts e rest n Hn Ht Hlt) as Hm. fold e' in Hm.
    assert (∀ above, (∀ u, above = Some u → u < term e ∧ descend (term e) = true) → (a ∈ ts ∨ above = Some a) →
      stack_ok ts above (e' :: rest)) as Hst.
    { intros above H1 H2. split; [|done]. split; [done|]. split; [done|]. split; [done|]. exists n. split; [done|].
      split; [done|]. intros j x Hj Hx. change (j < S (nextChild e)) in Hj. destruct (decide (j = nextChild e)) as [-> |]; [|left; destruct (Hargs j x); [lia|done|done|done]].
      rewrite Ha in Hx. injection Hx as <-. done. }
    assert (root ∈ ts ∨ ∃ e0, e0 ∈ e' :: rest ∧ term e0 = root) as Hro.
    { destruct R7 as [?|(e0 & [-> |He0]%elem_of_cons & E)]; [by left| |]; right.
      - exists e'. split; [apply elem_of_cons; by left|done].
      - exists e0. split; [apply elem_of_cons; by right|done]. }
    destruct b.
    + split; [|done]. constructor; cbn [fst snd]; try done. apply Hst; [done|]. left. by apply R4, Hba.
    + split.
      * constructor; cbn [fst snd]; try done.
        -- split; [|apply Hst; [|by right]; intros u [= <-]; done]. cbn [term nextChild]. split.
           { eapply reach_arg; try done. by eapply list_elem_of_lookup_2. }
           split; [rewrite <- R4, <- Hba; done|]. split; [done|].
           destruct (lookup_lt_is_Some_2 (bterms l) a) as [m Hm']; [lia|]. exists m. split; [done|]. split; [lia|]. lia.
        -- destruct Hro as [?|(e0 & He0 & E)]; [by left|]. right. exists e0. split; [apply elem_of_cons; by right|done].
      * eapply Nat.le_lt_trans; [apply remaining_push|exact Hm]. apply next_of_none. intros e0 [-> |He0]%elem_of_cons; [cbn; lia|].
        pose proof (stack_above _ _ _ _ Hs He0). lia.
  - destruct (visit_ok (term e) cfg Hb Rg Hd) as [-> Hg2]. cbn [rbind]. apply wp_bind. eapply wp_mono; [apply nat_set.insert_wp; [done|lia]|].
    intros ms (M1 & M2 & M3). cbn. apply Hpop; try done; [unfold event; by rewrite Hd|].
    intros n' a _ Hn' Ha. rewrite Hn in Hn'. injection Hn' as <-. apply list_elem_of_lookup in Ha as [j Ha].
    destruct (Hargs j a) as [?|[=]]; [|done|done]. apply lookup_lt_Some in Ha. lia.
Qed.

(** The measure of a state, without the visited terms. *)
Definition marked (n : nat_set.nat_set) t : bool := get false (nat_set.contains n t).
Definition measure (s : list DFSEntry * nat_set.nat_set * C) : nat :=
  remaining (filter (λ t, marked s.1.2 t = true) (seq 0 (length (bterms l)))) s.1.1.

Lemma marked_iff n t : marked n t = true ↔ nat_set.member n t.
Proof.
  unfold marked, nat_set.contains, nat_set.member, at_. destruct (nat_set.m_timestamps n !! t) as [x|]; cbn; [|naive_solver].
  rewrite Z.ltb_lt. naive_solver.
Qed.

Lemma measure_remaining ts s : round_ok ts s → measure s = remaining ts s.1.1.
Proof.
  intros [_ _ _ _ R4 R5 _ _]. unfold measure. assert (∀ t, t ∈ filter (λ t, marked s.1.2 t = true)
    (seq 0 (length (bterms l))) ↔ t ∈ ts) as He.
  { intros t. rewrite list_elem_of_filter, elem_of_seq, marked_iff, R4. split; [tauto|]. intros Ht. split; [done|].
    pose proof (reach_le _ (vi_reach _ _ R5 _ Ht)). lia. }
  unfold remaining. apply Nat.le_antisymm; apply sum_le; intros t _; unfold weight;
    by rewrite (decide_ext _ _ _ _ (He t)).
Qed.

Lemma remaining_start : remaining [] [MkDFSEntry root 0] ≤ store_size l.
Proof.
  unfold remaining, store_size. rewrite <- (sum_positions _ (bterms l)). apply sum_le. intros t Ht%elem_of_seq.
  destruct (lookup_lt_is_Some_2 (bterms l) t) as [n Hn]; [lia|]. unfold weight, nargs. rewrite Hn.
  rewrite decide_False by apply not_elem_of_nil. destruct (next_of _ _); lia.
Qed.

Lemma TermVisitor_visit_ok : ∃ ts marks, TermVisitor_visit previsit visit root cfg0 l = Ok (foldl event cfg0 ts, with_marks marks l)
  ∧ nat_set.inv marks ∧ visited root ts ∧ root ∈ ts.
Proof using All.
  destruct (lookup_lt_is_Some_2 _ _ Hroot) as [n Hn]. unfold TermVisitor_visit, isVar. rewrite (test_eq _ _ _ _ Hn). cbn [rbind].
  destruct (isVar_sym (bsymb n)) eqn:Hv.
  - assert (bargs n = []) as Hnil.
    { pose proof (no_shape _ _ _ (so_node _ W _ _ Hn)) as Hs. unfold isVar_sym in Hv.
      apply andb_true_iff in Hv as [Hz%Nat.eqb_eq%nil_length_inv Hc]. destruct (bsymb n); try done. by apply Hs. }
    exists [root], (auxiliaryNatSet l). destruct (previsit_ok root cfg0 Hroot Hcfg0) as [-> _]. cbn [rbind fst snd foldl]. split; [|split; [apply (so_marks _ W)|]].
    + unfold event. destruct (descend root) eqn:Hd; [rewrite (proj1 (visit_ok root cfg0 Hroot Hcfg0 Hd))|]; by destruct l.
    + split; [|by apply list_elem_of_singleton]. constructor.
      * apply NoDup_singleton.
      * intros t ->%list_elem_of_singleton. constructor.
      * intros pre t post m a E _ Hm Ha. destruct pre as [|u pre]; [|by destruct pre]. injection E as <- <-.
        rewrite Hn in Hm. injection Hm as <-. rewrite Hnil in Ha. by apply elem_of_nil in Ha.
  - destruct (nat_set.assure_domain_inv (S root) _ (so_marks _ W)) as (A1 & A2 & _).
    destruct (nat_set.reset_inv _ A1) as (B1 & B2 & B3).
    set (marks := nat_set.reset _) in *.
    assert (round_ok [] ([MkDFSEntry root 0], marks, cfg0)) as H0.
    { constructor; cbn [fst snd]; try done.
      - lia.
      - intros t. split; [by intros ?%B3|by intros ?%elem_of_nil].
      - constructor; [constructor|by intros t ?%elem_of_nil|]. by intros [] ? ? ? ? [=].
      - split; [|done]. cbn. split; [constructor|]. split; [apply not_elem_of_nil|]. split; [done|].
        exists n. split; [done|]. split; [lia|]. lia.
      - right. exists (MkDFSEntry root 0). by split; [apply list_elem_of_singleton|]. }
    assert (wp no_error (λ r, ∃ ts, nat_set.inv r.1 ∧ r.2 = foldl event cfg0 ts ∧ visited root ts ∧ root ∈ ts)
      (while (fuel_for (store_size l)) (visit_round previsit visit l) ([MkDFSEntry root 0], marks, cfg0))) as Hw.
    { apply (while_wp _ _ (λ s, ∃ ts, round_ok ts s) measure).
      - intros s [ts Hs]. eapply wp_mono; [by apply (round_step ts)|]. intros [s'|r]; [|by exists ts].
        intros (ts' & Hs' & Hlt). split; [by exists ts'|]. by rewrite (measure_remaining ts s Hs), (measure_remaining ts' s' Hs').
      - by exists [].
      - rewrite (measure_remaining _ _ H0). apply fuel_for_enough, remaining_start. }
    apply wp_total in Hw as ([ms c] & -> & ts & H1 & H2 & H3 & H4). cbn [rbind fst snd] in *. subst c. by exists ts, ms.
Qed.
End visit.

(** ** Top-level conjuncts *)

Definition is_and l t : bool := match bterms l !! t with Some n => bool_decide (bsymb n = sym_AND) | None => false end.

Lemma foldl_leaves (d : PTRef → bool) (ts cs : list PTRef) :
  foldl (λ c t, if d t then c else c ++ [t]) cs ts = cs ++ filter (λ t, d t = false) ts.
Proof.
  revert cs. induction ts as [|t ts IH]; intros cs; [by rewrite app_nil_r|]. cbn [foldl]. rewrite IH, filter_cons.
  destruct (d t); [done|]. cbn. by rewrite <- app_assoc.
Qed.

Section conjuncts.
Context l (W : store_ok l) (fla : PTRef) (Hb : fla < length (bterms l)).

Lemma visited_closed ts d t n a : visited l d fla ts → t ∈ ts → d t = true → bterms l !! t = Some n → a ∈ bargs n → a ∈ ts.
Proof.
  intros V Ht Hd Hn Ha. apply list_elem_of_split in Ht as (pre & post & ->). apply elem_of_app. left.
  by eapply (vi_args _ _ _ _ V).
Qed.

Lemma and_value ρ t n : consistent l ρ → bterms l !! t = Some n → bsymb n = sym_AND → ρ t = forallb id (ρ <$> bargs n).
Proof. intros C Hn E. eapply C; [exact Hn|]. by rewrite E. Qed.

(** The formula holds iff its conjuncts do. *)
Lemma topLevelConjuncts_ok : ∃ cs marks, topLevelConjuncts fla l = Ok (cs, with_marks marks l) ∧ nat_set.inv marks
  ∧ cs ≠ [] ∧ (∀ c, c ∈ cs → is_and l c = false ∧ reach l (is_and l) fla c)
  ∧ ∀ ρ, consistent l ρ → ρ fla = true ↔ ∀ c, c ∈ cs → ρ c = true.
Proof.
  destruct (TermVisitor_visit_ok (conjuncts_previsit l) (λ _ c, Ok c) l W (is_and l) (λ t c, c ++ [t]) (λ _ c, c) (λ _, True))
    with (root := fla) (cfg0 := @nil PTRef) as (ts & marks & E & M & V & Hin); try done.
  { intros t c Ht _. split; [|done]. destruct (lookup_lt_is_Some_2 _ _ Ht) as [n Hn]. unfold conjuncts_previsit, isAnd, is_and.
    rewrite (test_eq _ _ _ _ Hn), Hn. cbn. by case_bool_decide. }
  unfold event in E. rewrite (foldl_leaves (is_and l) ts []) in E. cbn [app] in E.
  set (cs := filter _ _) in *. exists cs, marks. split; [exact E|]. split; [done|].
  assert (∀ c, c ∈ cs ↔ is_and l c = false ∧ c ∈ ts) as Hcs by (intros c; unfold cs; by rewrite list_elem_of_filter).
  assert (∀ t, is_and l t = true → ∃ n, bterms l !! t = Some n ∧ bsymb n = sym_AND ∧ 2 ≤ length (bargs n) ∧
    Forall (λ a, a < t) (bargs n)) as Hand.
  { intros t Ht. unfold is_and in Ht. destruct (bterms l !! t) as [n|] eqn:Hn; [|done]. apply bool_decide_eq_true_1 in Ht.
    exists n. split; [done|]. split; [done|]. destruct (so_node _ W _ _ Hn) as [H1 H2 _]. by rewrite Ht in H2. }
  split; [|split].
  - intros Hnil. assert (∀ t, t ∉ ts) as Hno; [|by apply (Hno fla)].
    intros t. induction (lt_wf t) as [t _ IH]. intros Ht. destruct (is_and l t) eqn:Ea.
    + destruct (Hand t Ea) as (n & Hn & _ & Hlen & Hold). destruct (bargs n) as [|a as_] eqn:Eb; [cbn in Hlen; lia|].
      apply (IH a); [exact (proj1 (proj1 (Forall_cons (λ a, a < t) _ _) Hold))|]. eapply visited_closed; try done. rewrite Eb. apply elem_of_cons. by left.
    + assert (t ∈ cs) as Hc by (by apply Hcs). rewrite Hnil in Hc. by apply elem_of_nil in Hc.
  - intros c [Hc1 Hc2]%Hcs. split; [done|]. by apply (vi_reach _ _ _ _ V).
  - intros ρ C. split.
    + intros Hf c [_ Hc]%Hcs. apply (vi_reach _ _ _ _ V) in Hc. induction Hc as [|u n a _ IH Hd Hn Ha]; [done|].
      unfold is_and in Hd. rewrite Hn in Hd. apply bool_decide_eq_true_1 in Hd. rewrite (and_value ρ u n C Hn Hd) in IH.
      rewrite forallb_forall in IH. apply (IH (ρ a)), list_elem_of_In, list_elem_of_fmap_2, Ha.
    + intros Hall. enough (∀ t, t ∈ ts → ρ t = true) as H by (by apply H). intros t. induction (lt_wf t) as [t _ IH]. intros Ht.
      destruct (is_and l t) eqn:Ea; [|by apply Hall, Hcs]. destruct (Hand t Ea) as (n & Hn & Es & _ & Hold).
      rewrite (and_value ρ t n C Hn Es). apply forallb_forall. intros b Hb'. apply list_elem_of_In, list_elem_of_fmap in Hb' as (a & -> & Ha).
      apply IH; [exact (proj1 (Forall_forall (λ a, a < t) _) Hold a Ha)|by eapply visited_closed].
Qed.

End conjuncts.

(** ** Collecting subterms *)

Definition subterm l : PTRef → PTRef → Prop := reach l (λ _, true).

Lemma matchingSubTerms_ok l (p : PTRef → bool) (predicate : PTRef → res bool) t : store_ok l → t < length (bterms l) →
  (∀ u, u < length (bterms l) → predicate u = Ok (p u)) →
  ∃ us marks, matchingSubTerms predicate t l = Ok (us, with_marks marks l) ∧ nat_set.inv marks ∧ NoDup us
    ∧ ∀ u, u ∈ us ↔ subterm l t u ∧ p u = true.
Proof.
  intros W Hb Hp.
  destruct (TermVisitor_visit_ok (λ _ c, Ok (true, c)) (collector_visit predicate) l W (λ _, true) (λ _ c, c)
    (λ u c, if p u then c ++ [u] else c) (λ _, True)) with (root := t) (cfg0 := @nil PTRef) as (ts & marks & E & M & V & Hin); try done.
  { intros u c Hu _ _. split; [|done]. unfold collector_visit. by rewrite Hp. }
  assert (∀ us0, foldl (event (λ _, true) (λ _ c, c) (λ u c, if p u then c ++ [u] else c)) us0 ts = us0 ++ filter (λ u, p u = true) ts) as Hf.
  { clear. induction ts as [|u ts IH]; intros us0; [by rewrite app_nil_r|]. cbn [foldl]. rewrite IH, filter_cons. unfold event.
    destruct (p u); [|done]. cbn. by rewrite <- app_assoc. }
  rewrite Hf in E. cbn [app] in E. eexists _, marks. split; [exact E|]. split; [done|]. split; [apply NoDup_filter, V|].
  intros u. rewrite list_elem_of_filter. split; [intros [? ?]; split; [by apply (vi_reach _ _ _ _ V)|done]|].
  intros [Hr Hpu]. split; [done|]. clear Hpu. induction Hr as [|v n a _ IH _ Hn Ha]; [done|].
  by eapply (visited_closed l t ts (λ _, true)).
Qed.

(** * Boolean terms below other terms

    [getNestedBoolRoots] lists the Boolean arguments of the terms that are no
    connectives, anywhere below the root. *)

Definition bool_arg l (op : bool) a : bool :=
  negb op && match bterms l !! a with Some n => rsort (symbol (bsymb n)) =? sort_BOOL | None => false end.

Lemma push_args_ok l (op : bool) (ts queue roots : list PTRef) : Forall (λ a, a < length (bterms l)) ts →
  foldM (λ st a,
    let! b := if negb op then hasSortBool l a else Ok false in
    Ok (a :: st.1, if (b : bool) then st.2 ++ [a] else st.2)) (queue, roots) ts
  = Ok (reverse ts ++ queue, roots ++ filter (λ a, bool_arg l op a = true) ts).
Proof.
  intros H. revert queue roots. induction H as [|a ts Ha _ IH]; intros queue roots; [by rewrite app_nil_r|].
  cbn [foldM fst snd]. destruct (lookup_lt_is_Some_2 _ _ Ha) as [n Hn].
  assert ((if negb op then hasSortBool l a else Ok false) = Ok (bool_arg l op a)) as ->.
  { unfold bool_arg. rewrite Hn. destruct op; [done|]. unfold hasSortBool. by rewrite (test_eq _ _ _ _ Hn). }
  cbn [rbind]. rewrite IH, reverse_cons, filter_cons, <- app_assoc. f_equal. f_equal.
  destruct (bool_arg l op a); [|done]. cbn. by rewrite <- app_assoc.
Qed.

Section nested.
Context l (W : store_ok l) (root : PTRef) (Hb : root < length (bterms l)).

Definition nested_root t : Prop := is_bool l t ∧
  ∃ u n, subterm l root u ∧ bterms l !! u = Some n ∧ isBooleanOperator_sym (bsymb n) = false ∧ t ∈ bargs n.

Record nested_ok (s : list PTRef * gset PTRef * list PTRef) : Prop := {
  ne_queue t : t ∈ s.1.1 → subterm l root t;
  ne_processed t : t ∈ s.1.2 → subterm l root t;
  ne_roots t : t ∈ s.2 ↔ is_bool l t ∧
    ∃ u n, u ∈ s.1.2 ∧ bterms l !! u = Some n ∧ isBooleanOperator_sym (bsymb n) = false ∧ t ∈ bargs n;
  ne_closed u n a : u ∈ s.1.2 → bterms l !! u = Some n → a ∈ bargs n → a ∈ s.1.2 ∨ a ∈ s.1.1;
  ne_root : root ∈ s.1.2 ∨ root ∈ s.1.1;
}.

Definition waiting (processed : gset PTRef) t : nat := if decide (t ∈ processed) then 0 else 2 + nargs l t.
Definition nested_measure (s : list PTRef * gset PTRef * list PTRef) : nat :=
  length s.1.1 + sum_list_with (waiting s.1.2) (seq 0 (length (bterms l))).

Lemma waiting_drop (processed : gset PTRef) t k : t < k → t ∉ processed →
  sum_list_with (waiting ({[t]} ∪ processed)) (seq 0 k) + (2 + nargs l t) ≤ sum_list_with (waiting processed) (seq 0 k).
Proof.
  intros Ht Hp. apply (sum_drop _ _ t); [done| |].
  - intros u. unfold waiting. destruct (decide (u ∈ processed)); [rewrite decide_True by set_solver; lia|].
    destruct (decide (u ∈ _)); lia.
  - unfold waiting. rewrite decide_True, decide_False by set_solver. lia.
Qed.

Lemma is_bool_test t : is_bool l t ↔ bool_arg l false t = true.
Proof.
  unfold is_bool, bool_arg. cbn. destruct (bterms l !! t) as [n|]; [|naive_solver]. rewrite Nat.eqb_eq. naive_solver.
Qed.

Lemma nested_step s : nested_ok s → wp no_error (λ r, match r with
    | inl s' => nested_ok s' ∧ nested_measure s' < nested_measure s
    | inr roots => ∀ t, t ∈ roots ↔ nested_root t
    end) (nested_round l s).
Proof.
  destruct s as [[queue processed] roots]. intros [N1 N2 N3 N4 N5]. cbn [fst snd] in *. unfold nested_round.
  destruct queue as [|t queue].
  { intros t. rewrite N3. unfold nested_root.
    assert (∀ u, u ∈ processed ↔ subterm l root u) as Hp; [|by setoid_rewrite Hp].
    intros u. split; [apply N2|]. induction 1 as [|u n a _ IH _ Hn Ha].
    - destruct N5 as [?|?%elem_of_nil]; done.
    - destruct (N4 u n a IH Hn Ha) as [?|?%elem_of_nil]; done. }
  assert (subterm l root t) as Ht by (apply N1, elem_of_cons; by left).
  destruct (decide (t ∈ processed)) as [Hin|Hnin].
  { cbn. split; [|unfold nested_measure; cbn; lia]. constructor; cbn [fst snd]; try done.
    - intros u Hu. apply N1, elem_of_cons. by right.
    - intros u n a Hu Hn Ha. destruct (N4 u n a Hu Hn Ha) as [?|[-> |?]%elem_of_cons]; auto.
    - destruct N5 as [?|[-> |?]%elem_of_cons]; auto. }
  pose proof (reach_le _ W (λ _, true) root Hb t Ht) as Hle. destruct (lookup_lt_is_Some_2 (bterms l) t) as [n Hn]; [lia|].
  rewrite (at_bterms _ _ _ Hn). unfold isBooleanOperator. rewrite (test_eq _ _ _ _ Hn). cbn [rbind].
  assert (Forall (λ a, a < length (bterms l)) (bargs n)) as Ho.
  { eapply Forall_impl; [exact (no_older _ _ _ (so_node _ W _ _ Hn))|]. intros a Ha. cbn in Ha. lia. }
  rewrite push_args_ok by done. cbn [rbind wp fst snd]. split.
  - constructor; cbn [fst snd].
    + intros u [Hu|Hu]%elem_of_app; [rewrite reverse_Permutation in Hu; by apply (reach_arg l (λ _, true) root t n u)|].
      apply N1, elem_of_cons. by right.
    + intros u [->%elem_of_singleton|Hu]%elem_of_union; auto.
    + intros u. rewrite elem_of_app, N3, list_elem_of_filter. split.
      * intros [(Hu & v & m & Hv & H)|[Hu Ha]]; [split; [done|]; exists v, m; split; [set_solver|done]|].
        unfold bool_arg in Hu. apply andb_true_iff in Hu as [Hop Hs]. split; [by apply is_bool_test|].
        exists t, n. split; [set_solver|]. split; [done|]. split; [by apply negb_true_iff|done].
      * intros (Hu & v & m & [->%elem_of_singleton|Hv]%elem_of_union & Hm & Hop & Ha); [|left; eauto 10].
        rewrite Hn in Hm. injection Hm as <-. right. split; [|done]. unfold bool_arg. rewrite Hop. by apply is_bool_test.
    + intros u m a [->%elem_of_singleton|Hu]%elem_of_union Hm Ha.
      * rewrite Hn in Hm. injection Hm as <-. right. apply elem_of_app. left. by apply elem_of_reverse.
      * destruct (N4 u m a Hu Hm Ha) as [?|[-> |?]%elem_of_cons]; [set_solver|set_solver|]. right. apply elem_of_app. by right.
    + destruct N5 as [?|[-> |?]%elem_of_cons]; [set_solver|set_solver|]. right. apply elem_of_app. by right.
  - unfold nested_measure. cbn [fst snd length]. rewrite length_app, length_reverse.
    pose proof (waiting_drop processed t (length (bterms l)) ltac:(lia) Hnin) as Hd. unfold nargs in Hd. rewrite Hn in Hd. lia.
Qed.

Lemma Logic_getNestedBoolRoots_ok : ∃ roots, Logic_getNestedBoolRoots l root = Ok roots ∧ ∀ t, t ∈ roots ↔ nested_root t.
Proof.
  apply wp_total. unfold Logic_getNestedBoolRoots. apply (while_wp _ _ nested_ok nested_measure); [apply nested_step| |].
  - constructor; cbn [fst snd].
    + intros t ->%list_elem_of_singleton. constructor.
    + intros t Ht. set_solver.
    + intros t. split; [by intros ?%elem_of_nil|]. intros (_ & u & n & Hu & _). set_solver.
    + intros u n a Hu. set_solver.
    + right. by apply list_elem_of_singleton.
  - apply fuel_for_enough. unfold nested_measure. cbn. apply le_n_S. unfold store_size.
    rewrite <- (sum_positions _ (bterms l)). apply sum_le. intros t Ht%elem_of_seq. unfold waiting, nargs.
    destruct (lookup_lt_is_Some_2 (bterms l) t) as [n ->]; [lia|]. rewrite decide_False by set_solver. lia.
Qed.

Lemma getNestedBoolRoots_ok : ∃ roots, getNestedBoolRoots l root = Ok roots ∧ ∀ t, t ∈ roots → is_bool l t.
Proof.
  unfold getNestedBoolRoots. destruct (arithmetic l); [exists []; split; [done|]; by intros t ?%elem_of_nil|].
  destruct Logic_getNestedBoolRoots_ok as (roots & -> & Hr). exists roots. split; [done|]. by intros t [? _]%Hr.
Qed.

End nested.
