(* ===== verification/BoolTheorems.v ===== *)
(** * Boolean terms: theorems *)
From S2P Require Import Prelude NatSet SatLits Terms BoolTerms BoolFacts BoolConnectives BoolValues TermMapper TermVisitor.
From stdpp Require Import strings sorting.
From Stdlib Require Import Lia.

#[local] Open Scope nat_scope.
Implicit Types (l : BLogic) (t : PTRef).

(** C18: The constructors of Boolean terms keep the store well formed and return,
    after all their simplifications, a Boolean term whose value is the
    connective of the values of the arguments: [mkAnd], [mkOr] and [mkEq] of any
    number of them, [mkXor], [mkImpl] and [mkNot]. *)
Theorem connectives_correct `{StdSort} l x y ts : store_ok l → is_bool l x → is_bool l y → Forall (is_bool l) ts →
  makes l (λ ρ, forallb id (ρ <$> ts)) (mkAnd ts l)
  ∧ makes l (λ ρ, existsb id (ρ <$> ts)) (mkOr ts l)
  ∧ makes l (λ ρ, adjacent_equal (ρ x) (ρ <$> (y :: ts))) (mkEq (x :: y :: ts) l)
  ∧ makes l (λ ρ, xorb (ρ x) (ρ y)) (mkXor [x; y] l)
  ∧ makes l (λ ρ, implb (ρ x) (ρ y)) (mkImpl [x; y] l)
  ∧ makes l (λ ρ, negb (ρ x)) (mkNot x l).
Proof.
  intros W Hx Hy Hts. split; [by apply mkAnd_ok|]. split; [by apply mkOr_ok|]. split; [by apply mkEq_ok|].
  split; [by apply mkXor_ok|]. split; [by apply mkImpl_ok|by apply mkNot_ok].
Qed.

Lemma connectives_correct_witness :
  store_ok ex_store ∧ makes ex_store (λ ρ, forallb id (ρ <$> [4; 7; 2])) (mkAnd [4; 7; 2] ex_store).
Proof.
  split; [apply ex_store_ok|]. refine (proj1 (connectives_correct ex_store 2 3 [4; 7; 2] ex_store_ok _ _ _)); [bool_term|bool_term|].
  repeat (constructor; [bool_term|]). constructor.
Defined.






(** C21: The literal that a Boolean term gets from the mapper names the term:
    [litToPTRef] gives the term back, with the negation found again and nothing
    added to the store. *)
Theorem literal_round_trip l m t : store_ok l → mapper_ok l m → is_bool l t →
  ∃ p m', getOrCreateLit l t m = Ok (p, m') ∧ mapper_ok l m' ∧ litToPTRef p m' l = Ok (Some t, l) ∧ getLit l t m' = Ok p.
Proof.
  intros W M Hb. destruct (getOrCreateLit_ok l W m t M Hb) as (p & m' & E & M' & _ & Hp & _). exists p, m'. split; [done|]. split; [done|].
  split; [by apply litToPTRef_ok|]. by apply getLit_ok.
Qed.

Lemma literal_round_trip_witness : is_bool ex_store 7 ∧
  ∃ p m', getOrCreateLit ex_store 7 new_mapper = Ok (p, m') ∧ mapper_ok ex_store m' ∧ litToPTRef p m' ex_store = Ok (Some 7, ex_store)
    ∧ getLit ex_store 7 m' = Ok p.
Proof. split; [bool_term|]. apply (literal_round_trip ex_store new_mapper 7); [apply ex_store_ok|apply new_mapper_ok|bool_term]. Defined.

(** [variables] ends and collects, each once, the variables below the term
    and nothing else, whatever is shared below it. *)
Theorem variables_collected l t : store_ok l → t < length (bterms l) →
  ∃ us marks, variables t l = Ok (us, with_marks marks l) ∧ nat_set.inv marks ∧ NoDup us
    ∧ ∀ u, u ∈ us ↔ subterm l t u ∧ ∃ n, bterms l !! u = Some n ∧ isVar_sym (bsymb n) = true.
Proof.
  intros W Ht. destruct (matchingSubTerms_ok l (λ u, match bterms l !! u with Some n => isVar_sym (bsymb n) | None => false end) (isVar l) t)
    as (us & marks & E & M & N & Hus); [done|done| |].
  - intros u [n Hn]%lookup_lt_is_Some_2. rewrite Hn. by apply test_eq.
  - exists us, marks. split; [done|]. split; [done|]. split; [done|]. intros u. rewrite Hus. apply and_iff_compat_l.
    destruct (bterms l !! u) as [n|]; naive_solver.
Qed.

Lemma variables_collected_witness : 8 < length (bterms ex_store) ∧
  ∃ us marks, variables 8 ex_store = Ok (us, with_marks marks ex_store) ∧ nat_set.inv marks ∧ NoDup us
    ∧ ∀ u, u ∈ us ↔ subterm ex_store 8 u ∧ ∃ n, bterms ex_store !! u = Some n ∧ isVar_sym (bsymb n) = true.
Proof.
  assert (8 < length (bterms ex_store)) as Hlt by (vm_compute; lia). split; [exact Hlt|].
  apply (variables_collected ex_store 8); [apply ex_store_ok|exact Hlt].
Defined.
