(* ===== verification/Cnfizer.v ===== *)
(** * Conversion to clauses

    cnfizers/Cnfizer.h/.cc and cnfizers/Tseitin.h/.cc, for a configuration
    without interpolation.  The SAT solver the clauses go to is an interface,
    [SatSolver]; its laws, and the contract of the conversion, are in [CnfSpec]. *)
From S2P Require Import Prelude NatSet SatLits Terms BoolTerms TermMapper TermVisitor.
From stdpp Require Import gmap strings pretty.
From Stdlib Require Import Lia.

#[local] Open Scope nat_scope.

(** [FrameId]: [FrameId_bottom] is 0. *)
Abbreviation FrameId := nat (only parsing).

(** What [SimpSMTSolver] offers; [addOriginalSMTClause] and [addVar] look
    variables up in the mapper; [prevId] of [mapEnabledFrameIdToVar] is passed by
    reference, [UINT32_MAX] is [None]. *)
Class SatSolver (S : Type) : Type := {
  addOriginalSMTClause : TermMapper → list Lit → S → res (bool * S);
  addVar : TermMapper → Var → S → res S;
  addAssumptionVar : Var → S → res S;
  isOK : S → bool;
  mapEnabledFrameIdToVar : Var → nat → option nat → S → res (option nat * S);
  sat_solve : TermMapper → list Lit → bool → bool → S → res (lbool * S);
  modelValue : Lit → S → res lbool;
}.

(** [Cnfizer::Cache] *)
Record Cache : Type := MkCache { zeroLevelTerm : PTRef; cache : gset (PTRef * PTRef) }.

Definition Cache_contains (c : Cache) (term frame_term : PTRef) : bool :=
  bool_decide ((term, frame_term) ∈ cache c)
  || (negb (frame_term =? zeroLevelTerm c) && bool_decide ((term, zeroLevelTerm c) ∈ cache c)).

Definition Cache_insert (term frame_term : PTRef) (c : Cache) : res Cache :=
  let! _ := check (negb (Cache_contains c term frame_term)) in
  Ok (MkCache (zeroLevelTerm c) ({[(term, frame_term)]} ∪ cache c)).

(** The clauses of a term that is a disjunction of literals, a conjunction of
    clauses, or the negation of a conjunction of literals. *)
Section shapes.
Context (l : BLogic).
Implicit Types (t e : PTRef).

(** The worklists visit occurrences: a term may be visited as often as it
    occurs below the formula. *)
Definition tree_fuel t : nat := S t * fuel_for (store_size l).

Definition clause_round (to_process : list PTRef) : res (list PTRef + bool) :=
  match to_process with
  | [] => Ok (inr true)
  | e :: to_process =>
      let! n := bnode l e in
      let! r := foldM (λ st t,
        match st with
        | None => Ok None
        | Some to_process =>
            let! o := isOr l t in
            if o then Ok (Some (t :: to_process))
            else let! b := isLiteral l t in Ok (if b then Some to_process else None)
        end) (Some to_process) (bargs n) in
      Ok (match r with Some to_process => inl to_process | None => inr false end)
  end.

Definition isClause e : res bool :=
  let! b := isLiteral l e in
  if b then Ok true
  else
    let! o := isOr l e in
    if negb o then Ok false else while (tree_fuel e) clause_round [e].

Definition conjunction_round (to_process : list PTRef) : res (list PTRef + bool) :=
  match to_process with
  | [] => Ok (inr true)
  | e :: to_process =>
      let! n := bnode l e in
      let! r := foldM (λ st t,
        match st with
        | None => Ok None
        | Some to_process =>
            let! a := isAnd l t in
            if a then Ok (Some (t :: to_process))
            else let! b := isClause t in Ok (if b then Some to_process else None)
        end) (Some to_process) (bargs n) in
      Ok (match r with Some to_process => inl to_process | None => inr false end)
  end.

Definition isConjunctionOfClauses e : res bool :=
  let! b := isClause e in
  if b then Ok true
  else
    let! a := isAnd l e in
    if negb a then Ok false else while (tree_fuel e) conjunction_round [e].
Definition isCnf e : res bool := isConjunctionOfClauses e.

(** [check_cache] with the keys in the order of their insertion. *)
Definition pure_round (s : list PTRef * list PTRef) : res (list PTRef * list PTRef + bool * list PTRef) :=
  match s.1 with
  | [] => Ok (inr (true, s.2))
  | e :: to_process =>
      let! n := bnode l e in
      let! a := isAnd l e in
      if a then Ok (inl (reverse (bargs n) ++ to_process, s.2 ++ [e]))
      else
        let! b := isLiteral l e in
        Ok (if b then inl (to_process, s.2 ++ [e]) else inr (false, s.2))
  end.

Definition checkPureConj e (check_cache : list PTRef) : res (bool * list PTRef) :=
  if bool_decide (e ∈ check_cache) then Ok (true, check_cache)
  else
    let! a := isAnd l e in
    if negb a then Ok (false, check_cache) else while (tree_fuel e) pure_round ([e], check_cache).

Definition checkDeMorgan e : res bool :=
  let! n := isNot l e in
  if n then
    let! a := barg l e 0 in
    let! r := checkPureConj a [] in Ok r.1
  else Ok false.

(** [retrieveClause] and [retrieveConjuncts], recursive in the source. *)
Fixpoint retrieveClause_from (fuel : nat) (f : PTRef) (clause : list PTRef) : res (list PTRef) :=
  match fuel with
  | O => Err Out_of_fuel
  | S fuel =>
      let! b := isLiteral l f in
      let! o := isOr l f in
      let! _ := check (b || o) in
      if b then Ok (clause ++ [f])
      else let! n := bnode l f in foldM (λ c t, retrieveClause_from fuel t c) clause (bargs n)
  end.
Definition retrieveClause f : res (list PTRef) := retrieveClause_from (S f) f [].

Fixpoint retrieveConjuncts_from (fuel : nat) (f : PTRef) (conjuncts : list PTRef) : res (list PTRef) :=
  match fuel with
  | O => Err Out_of_fuel
  | S fuel =>
      let! b := isLiteral l f in
      let! a := isAnd l f in
      let! _ := check (b || a) in
      if b then Ok (conjuncts ++ [f])
      else let! n := bnode l f in foldM (λ c t, retrieveConjuncts_from fuel t c) conjuncts (bargs n)
  end.
Definition retrieveConjuncts f : res (list PTRef) := retrieveConjuncts_from (S f) f [].

End shapes.

Section cnfizer.
Context {S : Type} `{SatSolver S}.

(** The object, with the logic and the mapper it refers to; [alreadyCnfized] is
    the member of the derived class [Tseitin]. *)
Record Cnfizer : Type := MkCnfizer {
  solver : S;
  c_logic : BLogic;
  tmap : TermMapper;
  s_empty : bool;
  alreadyAsserted : Cache;
  alreadyCnfized : Cache;
  frame_terms : list PTRef;
  current_frame_term : PTRef;
}.
Implicit Types (s : Cnfizer) (t : PTRef).

Definition set_solver (o : S) s : Cnfizer :=
  MkCnfizer o (c_logic s) (tmap s) (s_empty s) (alreadyAsserted s) (alreadyCnfized s) (frame_terms s) (current_frame_term s).
Definition set_logic (l : BLogic) s : Cnfizer :=
  MkCnfizer (solver s) l (tmap s) (s_empty s) (alreadyAsserted s) (alreadyCnfized s) (frame_terms s) (current_frame_term s).
Definition set_tmap (m : TermMapper) s : Cnfizer :=
  MkCnfizer (solver s) (c_logic s) m (s_empty s) (alreadyAsserted s) (alreadyCnfized s) (frame_terms s) (current_frame_term s).
Definition set_asserted (c : Cache) s : Cnfizer :=
  MkCnfizer (solver s) (c_logic s) (tmap s) (s_empty s) c (alreadyCnfized s) (frame_terms s) (current_frame_term s).
Definition set_cnfized (c : Cache) s : Cnfizer :=
  MkCnfizer (solver s) (c_logic s) (tmap s) (s_empty s) (alreadyAsserted s) c (frame_terms s) (current_frame_term s).
Definition set_frames (fs : list PTRef) (f : PTRef) s : Cnfizer :=
  MkCnfizer (solver s) (c_logic s) (tmap s) (s_empty s) (alreadyAsserted s) (alreadyCnfized s) fs f.
Definition set_nonempty s : Cnfizer :=
  MkCnfizer (solver s) (c_logic s) (tmap s) false (alreadyAsserted s) (alreadyCnfized s) (frame_terms s) (current_frame_term s).

Definition new_cnfizer (o : S) (l : BLogic) (m : TermMapper) : Cnfizer :=
  MkCnfizer o l m true (MkCache (term_TRUE l) ∅) (MkCache (term_TRUE l) ∅) [term_TRUE l] (term_TRUE l).

Definition solverEmpty s : bool := s_empty s.

Definition getOrCreateLiteralFor t s : res (Lit * Cnfizer) :=
  let! r := getOrCreateLit (c_logic s) t (tmap s) in Ok (r.1, set_tmap r.2 s).

Definition addClause (c_in : list Lit) s : res (bool * Cnfizer) :=
  let! cs :=
    if negb (current_frame_term s =? term_TRUE (c_logic s)) then
      let! r := getOrCreateLiteralFor (current_frame_term s) s in
      let v := var r.1 in
      let! m := setFrozen v (tmap r.2) in
      let! o := addAssumptionVar v (solver r.2) in
      Ok (c_in ++ [r.1], set_solver o (set_tmap m r.2))
    else Ok (c_in, s) in
  let! r := addOriginalSMTClause (tmap cs.2) cs.1 (solver cs.2) in
  Ok (r.1, set_solver r.2 cs.2).

(** [res &= addClause(c)], one after the other. *)
Definition addClauses (cs : list (list Lit)) s : res (bool * Cnfizer) :=
  foldM (λ st c, let! r := addClause c st.2 in Ok (st.1 && r.1, r.2)) (true, s) cs.

(** The literals of some terms, made from the first to the last. *)
Definition literalsFor (ts : list PTRef) s : res (list Lit * Cnfizer) :=
  foldM (λ st t, let! r := getOrCreateLiteralFor t st.2 in Ok (st.1 ++ [r.1], r.2)) ([], s) ts.

Definition initialize s : res Cnfizer :=
  let! r := getOrCreateLiteralFor (term_TRUE (c_logic s)) s in
  let! r := addClause [r.1] r.2 in
  let! r := getOrCreateLiteralFor (term_FALSE (c_logic r.2)) r.2 in
  let! r := addClause [lit_not r.1] r.2 in
  Ok r.2.

(** ** Tseitin's definitions *)

Definition cnfizeAnd (and_term : PTRef) s : res (bool * Cnfizer) :=
  let! v := getOrCreateLiteralFor and_term s in
  let! n := bnode (c_logic v.2) and_term in
  let! st := foldM (λ (st : list Lit * bool * Cnfizer) arg,
    let! a := getOrCreateLiteralFor arg st.2 in
    let! a' := getOrCreateLiteralFor arg a.2 in
    let! r := addClause [lit_not v.1; a.1] a'.2 in
    Ok (st.1.1 ++ [lit_not a'.1], st.1.2 && r.1, r.2)) ([v.1], true, v.2) (bargs n) in
  let! r := addClause st.1.1 st.2 in
  Ok (st.1.2 && r.1, r.2).

Definition cnfizeOr (or_term : PTRef) s : res (bool * Cnfizer) :=
  let! v := getOrCreateLiteralFor or_term s in
  let! n := bnode (c_logic v.2) or_term in
  let! st := foldM (λ (st : list Lit * bool * Cnfizer) arg,
    let! a := getOrCreateLiteralFor arg st.2 in
    let! r := addClause [v.1; lit_not a.1] a.2 in
    Ok (st.1.1 ++ [a.1], st.1.2 && r.1, r.2)) ([lit_not v.1], true, v.2) (bargs n) in
  let! r := addClause st.1.1 st.2 in
  Ok (st.1.2 && r.1, r.2).

Definition cnfizeXor (xor_term : PTRef) s : res (bool * Cnfizer) :=
  let! v := getOrCreateLiteralFor xor_term s in
  let! x := barg (c_logic v.2) xor_term 0 in
  let! arg0 := getOrCreateLiteralFor x v.2 in
  let! y := barg (c_logic v.2) xor_term 1 in
  let! arg1 := getOrCreateLiteralFor y arg0.2 in
  addClauses
    [[lit_not v.1; arg0.1; arg1.1]; [lit_not v.1; lit_not arg0.1; lit_not arg1.1];
     [v.1; lit_not arg0.1; arg1.1]; [v.1; arg0.1; lit_not arg1.1]] arg1.2.

Definition cnfizeIff (eq_term : PTRef) s : res (bool * Cnfizer) :=
  let! n := bnode (c_logic s) eq_term in
  let! _ := check (length (bargs n) =? 2) in
  let! v := getOrCreateLiteralFor eq_term s in
  let! x := barg (c_logic v.2) eq_term 0 in
  let! arg0 := getOrCreateLiteralFor x v.2 in
  let! y := barg (c_logic v.2) eq_term 1 in
  let! arg1 := getOrCreateLiteralFor y arg0.2 in
  addClauses
    [[lit_not v.1; arg0.1; lit_not arg1.1]; [lit_not v.1; lit_not arg0.1; arg1.1];
     [v.1; arg0.1; arg1.1]; [v.1; lit_not arg0.1; lit_not arg1.1]] arg1.2.

Definition cnfizeImplies (impl_term : PTRef) s : res (bool * Cnfizer) :=
  let! n := bnode (c_logic s) impl_term in
  let! _ := check (length (bargs n) =? 2) in
  let! v := getOrCreateLiteralFor impl_term s in
  let! x := barg (c_logic v.2) impl_term 0 in
  let! a0 := getOrCreateLiteralFor x v.2 in
  let! y := barg (c_logic v.2) impl_term 1 in
  let! a1 := getOrCreateLiteralFor y a0.2 in
  addClauses [[v.1; a0.1]; [v.1; lit_not a1.1]; [lit_not v.1; lit_not a0.1; a1.1]] a1.2.

(** Not called: [ite]s are left to the ite manager. *)
Definition cnfizeIfthenelse (ite_term : PTRef) s : res (bool * Cnfizer) :=
  let! n := bnode (c_logic s) ite_term in
  let! _ := check (length (bargs n) =? 3) in
  let! v := getOrCreateLiteralFor ite_term s in
  let! c := barg (c_logic v.2) ite_term 0 in
  let! a0 := getOrCreateLiteralFor c v.2 in
  let! x := barg (c_logic v.2) ite_term 1 in
  let! a1 := getOrCreateLiteralFor x a0.2 in
  let! y := barg (c_logic v.2) ite_term 2 in
  let! a2 := getOrCreateLiteralFor y a1.2 in
  addClauses
    [[lit_not v.1; lit_not a0.1; a1.1]; [lit_not v.1; a0.1; a2.1];
     [v.1; lit_not a0.1; lit_not a1.1]; [v.1; a0.1; lit_not a2.1]] a2.2.

(** The back of [unprocessed_terms] is the head of the list. *)
Definition cnfize_round (st : list PTRef * bool * Cnfizer) : res (list PTRef * bool * Cnfizer + bool * Cnfizer) :=
  let '(unprocessed, b, s) := st in
  match unprocessed with
  | [] => Ok (inr (b, s))
  | t :: unprocessed =>
      if Cache_contains (alreadyCnfized s) t (current_frame_term s) then Ok (inl (unprocessed, b, s))
      else
        let! n := bnode (c_logic s) t in
        let! r :=
          match bsymb n with
          | sym_AND => let! r := cnfizeAnd t s in Ok (Some r)
          | sym_OR => let! r := cnfizeOr t s in Ok (Some r)
          | sym_XOR => let! r := cnfizeXor t s in Ok (Some r)
          | sym_EQ => let! r := cnfizeIff t s in Ok (Some r)
          | sym_IMPLIES => let! r := cnfizeImplies t s in Ok (Some r)
          | f => Ok (if negb (bool_decide (f = sym_NOT)) && (0 <? length (bargs n)) then None else Some (true, s))
          end in
        match r with
        | Some (b', s) =>
            let! n := bnode (c_logic s) t in
            let! c := Cache_insert t (current_frame_term s) (alreadyCnfized s) in
            Ok (inl (reverse (bargs n) ++ unprocessed, b && b', set_cnfized c s))
        | None =>
            let! c := Cache_insert t (current_frame_term s) (alreadyCnfized s) in
            Ok (inl (unprocessed, b, set_cnfized c s))
        end
  end.

Definition cnfize t s : res (bool * Cnfizer) :=
  while (fuel_for (Datatypes.S (store_size (c_logic s)))) cnfize_round ([t], true, s).

(** ** Asserting *)

Definition cnfizeAndAssert (formula : PTRef) s : res (bool * Cnfizer) :=
  let! a := isAnd (c_logic s) formula in
  let! _ := check (negb a) in
  let! p := getOrCreateLiteralFor formula s in
  let! r := addClause [p.1] p.2 in
  let! r' := cnfize formula r.2 in
  Ok (r.1 && r'.1, r'.2).

Definition declareVars (ts : list PTRef) s : res Cnfizer :=
  foldM (λ s t,
    let! r := getOrCreateLiteralFor t s in
    let! o := addVar (tmap r.2) (var r.1) (solver r.2) in
    Ok (set_solver o r.2)) s ts.

Definition deMorganize (formula : PTRef) s : res (bool * Cnfizer) :=
  let! a := isAnd (c_logic s) formula in
  let! _ := check (negb a) in
  let! n := isNot (c_logic s) formula in
  if n then
    let! x := barg (c_logic s) formula 0 in
    let! a := isAnd (c_logic s) x in
    if a then
      let! conjuncts := retrieveConjuncts (c_logic s) x in
      let! r := literalsFor conjuncts s in
      addClause (lit_not <$> r.1) r.2
    else Ok (true, s)
  else Ok (true, s).

Definition assertClause (f : PTRef) s : res (bool * Cnfizer) :=
  let! b := isLiteral (c_logic s) f in
  if b then
    let! r := getOrCreateLiteralFor f s in addClause [r.1] r.2
  else
    let! o := isOr (c_logic s) f in
    if o then
      let! lits := retrieveClause (c_logic s) f in
      let! r := literalsFor lits s in
      addClause r.1 r.2
    else Err Osmt_exception.

Definition frame_name (id : FrameId) : string := ".frame" +:+ pretty id.

Definition setFrameTerm (frame_id : FrameId) s : res Cnfizer :=
  let fs := grow (frame_terms s) frame_id (term_TRUE (c_logic s)) in
  let! f := at_ fs frame_id in
  if negb (frame_id =? 0) && (f =? term_TRUE (c_logic s)) then
    let! r := mkBoolVar (frame_name frame_id) (c_logic s) in
    let! fs := upd fs frame_id r.1 in
    Ok (set_frames fs r.1 (set_logic r.2 s))
  else Ok (set_frames fs f s).

(** One turn of the loop over the conjuncts, while [res] is true. *)
Definition assert_conjunct (st : bool * Cnfizer) (f : PTRef) : res (bool * Cnfizer) :=
  let (b, s) := st in
  if negb b then Ok st
  else
    let! a := isAnd (c_logic s) f in
    let! _ := check (negb a) in
    if Cache_contains (alreadyAsserted s) f (current_frame_term s) then Ok st
    else
      let! c := isClause (c_logic s) f in
      let! r :=
        if c then assertClause f s
        else
          let! d := checkDeMorgan (c_logic s) f in
          if d then deMorganize f s else cnfizeAndAssert f s in
      let! c := Cache_insert f (current_frame_term r.2) (alreadyAsserted r.2) in
      Ok (r.1, set_asserted c r.2).

(** [true] is [l_Undef]. *)
Definition cnfizeAndGiveToSolver (formula : PTRef) (frame_id : FrameId) s : res (lbool * Cnfizer) :=
  let! s := setFrameTerm frame_id s in
  if negb (isOK (solver s)) then Ok (l_False, s)
  else
    let! tl := topLevelConjuncts formula (c_logic s) in
    let s := set_logic tl.2 s in
    let! _ := check (bool_decide (tl.1 ≠ [])) in
    let! r := foldM assert_conjunct (true, s) tl.1 in
    let s := set_nonempty r.2 in
    let! s :=
      if (r.1 : bool) then
        let! roots := getNestedBoolRoots (c_logic s) formula in
        let! q := foldM (λ st t, let! r := cnfize t st.2 in Ok (st.1 && r.1, r.2)) (true, s) roots in
        let! _ := check q.1 in
        declareVars (propFormulasAppearingInUF (c_logic q.2)) q.2
      else Ok s in
    Ok (if r.1 then l_Undef else l_False, s).

(** ** Solving *)

(** [assumps] after the loops; the solver may fail on the ids of the frames. *)
Definition assumptions (en_frames : list FrameId) s : res (list Lit * Cnfizer) :=
  let! a := literalsFor (frame_terms s) s in
  let! st := foldM (λ (st : list Lit * option nat * Cnfizer) fid,
    let! p := at_ st.1.1 fid in
    let! assumps := upd st.1.1 fid (lit_not p) in
    let! q := at_ assumps fid in
    let! r := mapEnabledFrameIdToVar (var q) fid st.1.2 (solver st.2) in
    Ok (assumps, r.1, set_solver r.2 st.2)) (a.1, None, a.2) en_frames in
  let! lit_true := getOrCreateLiteralFor (term_TRUE (c_logic st.2)) st.2 in
  Ok (filter (λ p, p ≠ lit_true.1 ∧ p ≠ lit_not lit_true.1) st.1.1, lit_true.2).

Definition solve (isIncremental : bool) (en_frames : list FrameId) s : res (lbool * Cnfizer) :=
  let! a := assumptions en_frames s in
  let! r := sat_solve (tmap a.2) a.1 (negb isIncremental) isIncremental (solver a.2) in
  Ok (r.1, set_solver r.2 a.2).

Definition getTermValue t s : res lbool :=
  let! _ := check (isOK (solver s)) in
  let! h := hasLit (c_logic s) t (tmap s) in
  if h then
    let! p := getLit (c_logic s) t (tmap s) in
    let! val := modelValue p (solver s) in
    let! _ := check (negb (bool_decide (val = l_Undef))) in
    Ok val
  else Ok l_Undef.

End cnfizer.
Arguments Cnfizer S : clear implicits.
