(* ===== verification/CnfSpec.v ===== *)
(** * Conversion to clauses: the contract

    The laws of the SAT solver as the conversion relies on them, and the
    invariant of the conversion: what the clauses given so far say of every
    assignment ([defined], [secured]: nothing asserted is lost) and of every
    valuation of the terms (nothing more is said).
    Then: making literals and adding clauses. *)
From S2P Require Import Prelude NatSet SatLits Terms BoolTerms BoolFacts BoolValues TermMapper TermVisitor Cnfizer.
From stdpp Require Import gmap strings pretty.
From Stdlib Require Import Lia.

#[local] Open Scope nat_scope.

(** A variable the mapper knows. *)
Definition bound_var (m : TermMapper) (v : Var) : Prop := ∃ t, binds m t v ∧ varToTerm m !! v = Some (Some t).
Definition bound_lits (m : TermMapper) (c : list Lit) : Prop := Forall (λ p, bound_var m (var p)) c.

(** [sat_models o] are the assignments that satisfy the clauses given to [o].
    A solver that is not OK drops clauses, which its clients may do only when
    there is no such assignment left. *)
Class SatSolverLaws (S : Type) `{SatSolver S} : Type := {
  sat_models : S → (Var → bool) → Prop;
  sat_usable : S → Prop;
  usable_iff o : sat_usable o ↔ isOK o = true ∨ ∀ σ, ¬ sat_models o σ;
  addOriginalSMTClause_ok m c o : bound_lits m c → sat_usable o →
    wp no_error (λ r, (∀ σ, sat_models r.2 σ ↔ sat_models o σ ∧ clause_true σ c = true)
      ∧ (r.1 = false → ∀ σ, ¬ sat_models r.2 σ) ∧ sat_usable r.2) (addOriginalSMTClause m c o);
  addVar_ok m v o : bound_var m v → sat_usable o →
    wp no_error (λ o', (∀ σ, sat_models o' σ ↔ sat_models o σ) ∧ sat_usable o') (addVar m v o);
  addAssumptionVar_ok v o : sat_usable o →
    wp no_error (λ o', (∀ σ, sat_models o' σ ↔ sat_models o σ) ∧ sat_usable o') (addAssumptionVar v o);
  mapEnabledFrameIdToVar_ok v fid prev o : match prev with Some p => p < fid | None => True end →
    wp no_error (λ r, (r.1 = prev ∨ r.1 = Some fid) ∧ (∀ σ, sat_models r.2 σ ↔ sat_models o σ)
      ∧ (sat_usable o → sat_usable r.2)) (mapEnabledFrameIdToVar v fid prev o);
}.

Section spec.
Context {S : Type} `{SatSolverLaws S}.
Implicit Types (s : Cnfizer S) (l : BLogic) (m : TermMapper) (t f : PTRef) (σ : Var → bool) (ρ : PTRef → bool).

(** ** Values *)

(** The terms whose value the clauses do not define: free terms and constants. *)
Definition leaf l t : Prop :=
  ∃ n, bterms l !! t = Some n ∧ (meaningful (bsymb n) = false ∨ bsymb n = sym_TRUE ∨ bsymb n = sym_FALSE).

Definition matches m ρ σ : Prop := ∀ t v, binds m t v → σ v = ρ t.
Definition agrees l m ρ σ : Prop := ∀ t v, binds m t v → leaf l t → σ v = ρ t.

(** The frame of [f] is enabled; the bottom frame has the term true. *)
Definition frame_on l m σ f : Prop := f = term_TRUE l ∨ ∀ v, binds m f v → σ v = false.
Definition frame_off l ρ f : Prop := f ≠ term_TRUE l ∧ ρ f = true.

(** ** What the clauses say *)

Definition secured s f fr : Prop := ∀ σ ρ, sat_models (solver s) σ → frame_on (c_logic s) (tmap s) σ fr →
  consistent (c_logic s) ρ → agrees (c_logic s) (tmap s) ρ σ → ρ f = true.

(** The connectives that get definitions. *)
Definition has_definition (f : BSym) : bool :=
  match f with sym_AND | sym_OR | sym_XOR | sym_EQ | sym_IMPLIES => true | _ => false end.

Definition defined s (n : BNode) t fr : Prop := has_definition (bsymb n) = true →
  ∃ p ps, lit_at (c_logic s) (tmap s) t p ∧ Forall2 (lit_at (c_logic s) (tmap s)) (bargs n) ps ∧
    ∀ σ, sat_models (solver s) σ → frame_on (c_logic s) (tmap s) σ fr →
      bool_op (bsymb n) (lit_value σ <$> ps) = Some (lit_value σ p).

Definition contained s t fr : Prop := Cache_contains (alreadyCnfized s) t fr = true.

(** The terms a cnfized term needs are cnfized, or waiting in [Q]. *)
Definition children_done s (Q : list PTRef) (n : BNode) fr : Prop :=
  has_definition (bsymb n) = true ∨ bsymb n = sym_NOT →
  ∀ a, a ∈ bargs n → contained s a fr ∨ fr = current_frame_term s ∧ a ∈ Q.

(** ** The invariant

    [Q] are the terms waiting to be cnfized, [D] the formulas demanded with the
    terms of their frames. *)
Definition demands l ρ (D : list (PTRef * PTRef)) : Prop := ∀ f fr, (f, fr) ∈ D → frame_off l ρ fr ∨ ρ f = true.

Definition frame_node l (i : FrameId) f : Prop :=
  f = term_TRUE l ∨ 0 < i ∧ bterms l !! f = Some (MkBNode (bool_var (frame_name i)) []).

(** The bottom frame is the first. *)
Definition frames_ok l (fs : list PTRef) : Prop :=
  fs !! 0 = Some (term_TRUE l) ∧ ∀ i f, fs !! i = Some f → frame_node l i f.

Record cnf_inv (Q : list PTRef) (D : list (PTRef * PTRef)) s : Prop := {
  ci_store : store_ok (c_logic s);
  ci_mapper : mapper_ok (c_logic s) (tmap s);
  ci_usable : sat_usable (solver s);
  ci_zero1 : zeroLevelTerm (alreadyCnfized s) = term_TRUE (c_logic s);
  ci_zero2 : zeroLevelTerm (alreadyAsserted s) = term_TRUE (c_logic s);
  ci_frames : frames_ok (c_logic s) (frame_terms s);
  ci_current : current_frame_term s ∈ frame_terms s;
  ci_cnfized t fr : (t, fr) ∈ cache (alreadyCnfized s) → fr ∈ frame_terms s ∧
    ∃ n, bterms (c_logic s) !! t = Some n ∧ defined s n t fr ∧ children_done s Q n fr;
  ci_asserted f fr : (f, fr) ∈ cache (alreadyAsserted s) → fr ∈ frame_terms s ∧ secured s f fr;
  ci_complete ρ σ : consistent (c_logic s) ρ → matches (tmap s) ρ σ → demands (c_logic s) ρ D → sat_models (solver s) σ;
}.

(** The constants have the literals they should. *)
Record constants_ok s : Prop := {
  co_true : ∃ v, binds (tmap s) (term_TRUE (c_logic s)) v ∧ ∀ σ, sat_models (solver s) σ → σ v = true;
  co_false : ∃ v, binds (tmap s) (term_FALSE (c_logic s)) v ∧ ∀ σ, sat_models (solver s) σ → σ v = false;
}.

(** Steps only add. *)
Record cnf_le s s' : Prop := {
  cl_store : store_le (c_logic s) (c_logic s');
  cl_mapper : mapper_le (tmap s) (tmap s');
  cl_models σ : sat_models (solver s') σ → sat_models (solver s) σ;
  cl_cnfized e : e ∈ cache (alreadyCnfized s) → e ∈ cache (alreadyCnfized s');
  cl_zero : zeroLevelTerm (alreadyCnfized s') = zeroLevelTerm (alreadyCnfized s);
}.

#[export] Instance cnf_le_preorder : PreOrder cnf_le.
Proof.
  split.
  - intros s. by constructor.
  - intros s1 s2 s3 [A1 A2 A3 A4 A5] [B1 B2 B3 B4 B5]. constructor; [by etrans|by etrans|auto|auto|congruence].
Qed.

Lemma leaf_mono l l' t : store_le l l' → leaf l t → leaf l' t.
Proof. intros Hle (n & Hn & Hl). exists n. split; [by eapply le_node|done]. Qed.

Lemma purify_mono l l' t : store_le l l' → is_bool l t → purify l' t = purify l t.
Proof. intros Hle (n & Hn & _). unfold purify. by rewrite Hn, (le_node _ _ _ _ Hle Hn). Qed.

Lemma lit_at_mono l l' m m' t p : store_le l l' → mapper_le m m' → is_bool l t → lit_at l m t p → lit_at l' m' t p.
Proof. intros Hle Hm Hb (v & Hv & ->). exists v. rewrite (purify_mono l l') by done. split; [by apply Hm|done]. Qed.

Lemma lits_at_mono l l' m m' ts ps : store_le l l' → mapper_le m m' → Forall (is_bool l) ts →
  Forall2 (lit_at l m) ts ps → Forall2 (lit_at l' m') ts ps.
Proof.
  intros Hle Hm Hb Hps. induction Hps as [|a q ts qs Ha _ IH]; [done|]. apply Forall_cons in Hb as [? ?].
  constructor; [by eapply lit_at_mono|by apply IH].
Qed.

Lemma frame_on_mono l l' m m' σ f : store_le l l' → mapper_le m m' → frame_on l' m' σ f → frame_on l m σ f.
Proof. intros Hle Hm [->|Hv]; [left; apply (le_true _ _ Hle)|right; auto]. Qed.

Lemma agrees_mono l l' m m' ρ σ : store_le l l' → mapper_le m m' → agrees l' m' ρ σ → agrees l m ρ σ.
Proof. intros Hle Hm Ha t v Hv Ht. apply Ha; [by apply Hm|by eapply leaf_mono]. Qed.

Lemma matches_mono m m' ρ σ : mapper_le m m' → matches m' ρ σ → matches m ρ σ.
Proof. intros Hm Hs t v Hv. auto. Qed.

Lemma secured_mono s s' f fr : cnf_le s s' → secured s f fr → secured s' f fr.
Proof.
  intros [A1 A2 A3 _ _] Hs σ ρ M F C G. apply (Hs σ ρ); [by apply A3|by eapply frame_on_mono|by eapply consistent_mono|by eapply agrees_mono].
Qed.

Lemma contained_mono s s' t fr : cnf_le s s' → contained s t fr → contained s' t fr.
Proof.
  intros [_ _ _ A4 A5]. unfold contained, Cache_contains. rewrite A5, !orb_true_iff, !andb_true_iff, !bool_decide_eq_true. naive_solver.
Qed.

Lemma cnf_defined_mono s s' n t fr : cnf_le s s' → store_ok (c_logic s) → bterms (c_logic s) !! t = Some n →
  (has_definition (bsymb n) = true → is_bool (c_logic s) t ∧ Forall (is_bool (c_logic s)) (bargs n)) →
  defined s n t fr → defined s' n t fr.
Proof.
  intros [A1 A2 A3 _ _] W Hn Hb Hd Hh. destruct (Hd Hh) as (p & ps & Hp & Hps & Hv). destruct (Hb Hh) as [Hb1 Hb2]. exists p, ps.
  split; [by eapply lit_at_mono|]. split.
  - by eapply lits_at_mono.
  - intros σ M F. apply Hv; [by apply A3|by eapply frame_on_mono].
Qed.

Lemma children_mono s s' Q Q' n fr : cnf_le s s' → current_frame_term s' = current_frame_term s → Q ⊆ Q' →
  children_done s Q n fr → children_done s' Q' n fr.
Proof.
  intros Hle Hc HQ Hd Hs a Ha. destruct (Hd Hs a Ha) as [?|[-> ?]]; [left; by eapply contained_mono|right]. auto.
Qed.

Lemma definition_bools l t n : store_ok l → bterms l !! t = Some n → has_definition (bsymb n) = true →
  is_bool l t ∧ Forall (is_bool l) (bargs n).
Proof.
  intros W Hn Hh. split; [exists n; split; [done|by destruct (bsymb n)]|].
  apply (no_bool _ _ _ (so_node _ W _ _ Hn)). by destruct (bsymb n).
Qed.

Lemma consts_mono s s' : cnf_le s s' → constants_ok s → constants_ok s'.
Proof.
  intros [A1 A2 A3 _ _] [(v & B1 & B2) (u & B3 & B4)]. constructor.
  - exists v. rewrite (le_true _ _ A1). auto.
  - exists u. rewrite (le_false _ _ A1). auto.
Qed.

(** Literals have the values of their terms. *)
Lemma lit_matches l m t p ρ σ : store_ok l → is_bool l t → lit_at l m t p → consistent l ρ → matches m ρ σ →
  lit_value σ p = ρ t.
Proof.
  intros W Hb (v & Hv & ->) C M. destruct (purify_spec l W t Hb) as (_ & _ & Hρ & _).
  by rewrite lit_value_mkLit, (M _ _ Hv), <- Hρ.
Qed.

Lemma lits_match l m ts ps ρ σ : store_ok l → Forall (is_bool l) ts → Forall2 (lit_at l m) ts ps → consistent l ρ → matches m ρ σ →
  lit_value σ <$> ps = ρ <$> ts.
Proof.
  intros W Hb Hp C M. induction Hp as [|t p ts ps Ht _ IH]; [done|]. apply Forall_cons in Hb as [? ?]. cbn.
  rewrite (lit_matches l m t p ρ σ), IH; done.
Qed.

End spec.

(** * Conversion to clauses: literals and clauses

    Making literals and adding clauses keep the invariant, when the clause
    follows from the meaning of the terms and the demands of the frame. *)

Section clauses.
Context {S : Type} `{SatSolverLaws S}.
Implicit Types (s : Cnfizer S) (l : BLogic) (m : TermMapper) (t f : PTRef) (σ : Var → bool) (ρ : PTRef → bool).
Context (Q : list PTRef) (D : list (PTRef * PTRef)).

(** What a step of the conversion between two visits leaves as it is. *)
Record cnf_step s s' : Prop := {
  st_inv : cnf_inv Q D s';
  st_le : cnf_le s s';
  st_logic : c_logic s' = c_logic s;
  st_cnfized : alreadyCnfized s' = alreadyCnfized s;
  st_asserted : alreadyAsserted s' = alreadyAsserted s;
  st_frames : frame_terms s' = frame_terms s;
  st_current : current_frame_term s' = current_frame_term s;
}.

Lemma cnf_step_refl s : cnf_inv Q D s → cnf_step s s.
Proof. by constructor. Qed.
Lemma cnf_step_trans s1 s2 s3 : cnf_step s1 s2 → cnf_step s2 s3 → cnf_step s1 s3.
Proof. intros [A1 A2 A3 A4 A5 A6 A7] [B1 B2 B3 B4 B5 B6 B7]. constructor; try congruence. by etrans. Qed.

(** A new mapper and a new solver. *)
Lemma inv_update s m o : cnf_inv Q D s → mapper_ok (c_logic s) m → mapper_le (tmap s) m → sat_usable o →
  (∀ σ, sat_models o σ → sat_models (solver s) σ) →
  (∀ ρ σ, consistent (c_logic s) ρ → matches m ρ σ → demands (c_logic s) ρ D → sat_models (solver s) σ → sat_models o σ) →
  cnf_step s (set_solver o (set_tmap m s)).
Proof.
  intros [I1 I2 I3 I4 I5 I6 I7 I8 I9 I10] Hm Hle Hu Ho Hc. set (s' := set_solver o (set_tmap m s)).
  assert (cnf_le s s') as Hls by (by constructor). constructor; try done. constructor; try done.
  - intros t fr Hin. destruct (I8 t fr Hin) as (Hf & n & Hn & Hd & Hk). split; [done|]. exists n. split; [done|]. split.
    + eapply cnf_defined_mono; try done. intros Hh. by eapply definition_bools.
    + by eapply children_mono.
  - intros f fr Hin. destruct (I9 f fr Hin) as [? ?]. split; [done|]. by eapply secured_mono.
  - intros ρ σ C M Hd. apply (Hc ρ σ); try done. eapply I10; try done. by eapply matches_mono.
Qed.

Lemma bound_binds l m t v : mapper_ok l m → binds m t v → bound_var m v.
Proof. intros M Hv. exists t. split; [done|]. by apply (tm_inverse _ _ M). Qed.

Lemma bound_lit l m t p : mapper_ok l m → lit_at l m t p → bound_var m (var p).
Proof. intros M (v & Hv & ->). rewrite var_mkLit. by eapply bound_binds. Qed.

Lemma getOrCreateLiteralFor_ok s t : cnf_inv Q D s → is_bool (c_logic s) t →
  wp no_error (λ r, cnf_step s r.2 ∧ lit_at (c_logic r.2) (tmap r.2) t r.1
    ∧ (∀ t' v, binds (tmap r.2) t' v → t' = (purify (c_logic s) t).1 ∨ binds (tmap s) t' v)) (getOrCreateLiteralFor t s).
Proof.
  intros I Hb. unfold getOrCreateLiteralFor.
  destruct (getOrCreateLit_ok _ (ci_store _ _ _ I) (tmap s) t (ci_mapper _ _ _ I) Hb) as (p & m & -> & M & Hle & Hp & Hnew).
  cbn. split; [|done]. change (set_tmap m s) with (set_solver (solver s) (set_tmap m s)).
  by apply inv_update; [..|apply I| |].
Qed.

Lemma literalsFor_ok s ts : cnf_inv Q D s → Forall (is_bool (c_logic s)) ts →
  wp no_error (λ r, cnf_step s r.2 ∧ Forall2 (lit_at (c_logic r.2) (tmap r.2)) ts r.1) (literalsFor ts s).
Proof.
  intros I Hb. unfold literalsFor.
  apply (foldM_wp _ _ (λ pre post (st : list Lit * Cnfizer S), cnf_step s st.2 ∧
    Forall2 (lit_at (c_logic st.2) (tmap st.2)) pre st.1)).
  - cbn. split; [by apply cnf_step_refl|constructor].
  - intros pre t post [ps s1] -> [St Hps]. cbn [fst snd] in *. apply Forall_app in Hb as [Hb1 Hb2].
    apply Forall_cons in Hb2 as [Ht _]. apply wp_bind. eapply wp_mono.
    { apply getOrCreateLiteralFor_ok; [apply St|]. by rewrite (st_logic _ _ St). }
    intros [p s2] (St2 & Hp & _). cbn in *. split; [by eapply cnf_step_trans|]. apply Forall2_app; [|by constructor].
    eapply lits_at_mono; [apply St2|apply St2| |done]. by rewrite (st_logic _ _ St).
Qed.

(** ** Adding a clause *)

Lemma frame_bool s f : cnf_inv Q D s → f ∈ frame_terms s → f ≠ term_TRUE (c_logic s) →
  is_bool (c_logic s) f ∧ purify (c_logic s) f = (f, false).
Proof.
  intros I Hf Hne. apply list_elem_of_lookup in Hf as [i Hi]. destruct (proj2 (ci_frames _ _ _ I) i f Hi) as [?|[_ Hn]]; [done|].
  split; [by eexists|]. unfold purify. by rewrite Hn.
Qed.

Definition clause_follows s (c : list Lit) : Prop := ∀ ρ σ, consistent (c_logic s) ρ → matches (tmap s) ρ σ →
  demands (c_logic s) ρ D → ¬ frame_off (c_logic s) ρ (current_frame_term s) → clause_true σ c = true.

Definition clause_added s s' (c : list Lit) : Prop := ∀ σ, sat_models (solver s') σ →
  frame_on (c_logic s) (tmap s') σ (current_frame_term s) → clause_true σ c = true.

Lemma clause_true_app σ c d : clause_true σ (c ++ d) = clause_true σ c || clause_true σ d.
Proof. apply existsb_app. Qed.

Lemma give_clause s c c' : cnf_inv Q D s → bound_lits (tmap s) c → clause_follows s c' →
  (∀ ρ σ, consistent (c_logic s) ρ → matches (tmap s) ρ σ → clause_true σ c' = true ∨ frame_off (c_logic s) ρ (current_frame_term s) →
    clause_true σ c = true) →
  (∀ σ, frame_on (c_logic s) (tmap s) σ (current_frame_term s) → clause_true σ c = true → clause_true σ c' = true) →
  wp no_error (λ r, cnf_step s r.2 ∧ clause_added s r.2 c' ∧ (r.1 = false → ∀ σ, ¬ sat_models (solver r.2) σ))
    (let! r := addOriginalSMTClause (tmap s) c (solver s) in Ok (r.1, set_solver r.2 s)).
Proof.
  intros I Hc Hf H1 H2. apply wp_bind. eapply wp_mono; [apply addOriginalSMTClause_ok; [done|apply I]|].
  intros [b o] (Hm & Hb & Hu). cbn [wp fst snd] in *. split; [|split; [|done]].
  - change (set_solver o s) with (set_solver o (set_tmap (tmap s) s)). apply inv_update; try done; [apply I| |].
    + by intros σ [? _]%Hm.
    + intros ρ σ C M Hd Hs. apply Hm. split; [done|]. apply (H1 ρ σ C M).
      destruct (ρ (current_frame_term s)) eqn:E.
      * destruct (decide (current_frame_term s = term_TRUE (c_logic s))) as [Et|Et]; [left|by right].
        apply (Hf ρ σ C M Hd). by intros [? _].
      * left. apply (Hf ρ σ C M Hd). intros [_ ?]. congruence.
  - intros σ [_ ?]%Hm Hon. by apply H2.
Qed.

Lemma addClause_ok s c : cnf_inv Q D s → bound_lits (tmap s) c → clause_follows s c →
  wp no_error (λ r, cnf_step s r.2 ∧ clause_added s r.2 c ∧ (r.1 = false → ∀ σ, ¬ sat_models (solver r.2) σ)) (addClause c s).
Proof.
  intros I Hc Hf. unfold addClause. set (cur := current_frame_term s) in *.
  destruct (Nat.eqb_spec cur (term_TRUE (c_logic s))) as [E|Hne]; cbn [negb].
  { cbn [rbind fst snd]. apply (give_clause s c c); try done. intros ρ σ _ _ [?|[? _]]; done. }
  destruct (frame_bool s cur I (ci_current _ _ _ I) Hne) as [Hb Hp].
  apply wp_bind, wp_bind. eapply wp_mono; [apply (getOrCreateLiteralFor_ok s cur I Hb)|].
  intros [p s1] (St & (v & Hv & Ep) & _). cbn [fst snd] in *. rewrite (st_logic _ _ St), Hp in Hv, Ep. cbn in Hv, Ep. subst p.
  rewrite var_mkLit. pose proof (st_inv _ _ St) as I1. pose proof (ci_mapper _ _ _ I1) as M1.
  destruct (setFrozen_ok _ (tmap s1) v M1) as (m & -> & M2 & Hbinds); [by eapply binds_var_cnt|]. cbn [rbind].
  apply wp_bind. eapply wp_mono; [apply addAssumptionVar_ok, I1|]. intros o (Ho & Hu). cbn [wp rbind fst snd].
  assert (cnf_step s1 (set_solver o (set_tmap m s1))) as St2.
  { apply inv_update; try done; [by intros t u ?%Hbinds|by intros σ ?%Ho|]. intros ρ σ _ _ _ Hs. by apply Ho. }
  set (s2 := set_solver o (set_tmap m s1)) in *. pose proof (cnf_step_trans _ _ _ St St2) as St3.
  pose proof (st_inv _ _ St3) as I3. pose proof (st_le _ _ St3) as Le. pose proof (st_logic _ _ St3) as El. pose proof (st_current _ _ St3) as Ec.
  assert (binds (tmap s2) cur v) as Hv2 by (by apply Hbinds).
  eapply wp_mono; [apply (give_clause s2 (c ++ [mkLit v false]) c)|].
  - done.
  - apply Forall_app. split; [|constructor; [|constructor]].
    + eapply Forall_impl; [exact Hc|]. intros q (u & Hu1 & _). eapply bound_binds; [apply I3|by apply (cl_mapper _ _ Le)].
    + rewrite var_mkLit. eapply bound_binds; [apply I3|done].
  - intros ρ σ C M Hd Hon. rewrite El in *. rewrite Ec in Hon. apply (Hf ρ σ C); try done. eapply matches_mono; [apply Le|done].
  - intros ρ σ C M Hor. rewrite clause_true_app, orb_true_iff. destruct Hor as [?|[_ Hoff]]; [by left|right].
    rewrite Ec in Hoff. change (ρ cur = true) in Hoff. unfold clause_true. cbn. by rewrite lit_value_mkLit, (M _ _ Hv2), Hoff.
  - intros σ Hon. rewrite clause_true_app, orb_true_iff. intros [?|Hl]; [done|]. exfalso. rewrite El, Ec in Hon.
    destruct Hon as [?|Hoff]; [done|]. unfold clause_true in Hl. cbn in Hl. by rewrite lit_value_mkLit, (Hoff _ Hv2) in Hl.
  - intros [b s3] (St4 & Hadd & Hbad). cbn [fst snd] in *. split; [by eapply cnf_step_trans|]. split; [|done].
    intros σ Hs Hon. apply Hadd; [done|]. by rewrite El, Ec.
Qed.

(** Several clauses. *)
Lemma addClauses_ok s cs : cnf_inv Q D s → Forall (bound_lits (tmap s)) cs → Forall (clause_follows s) cs →
  wp no_error (λ r, cnf_step s r.2 ∧ Forall (clause_added s r.2) cs ∧ (r.1 = false → ∀ σ, ¬ sat_models (solver r.2) σ))
    (addClauses cs s).
Proof.
  intros I Hb Hf. unfold addClauses.
  apply (foldM_wp _ _ (λ pre post (st : bool * Cnfizer S), cnf_step s st.2 ∧ Forall (clause_added s st.2) pre
    ∧ (st.1 = false → ∀ σ, ¬ sat_models (solver st.2) σ))).
  - cbn. split; [by apply cnf_step_refl|]. by split; [constructor|].
  - intros pre c post [b s1] -> (St & Hadd & Hbad). cbn [fst snd] in *. apply Forall_app in Hb as [_ Hb].
    apply Forall_cons in Hb as [Hb _]. apply Forall_app in Hf as [_ Hf]. apply Forall_cons in Hf as [Hf _].
    pose proof (st_le _ _ St) as Le. pose proof (st_logic _ _ St) as El. pose proof (st_current _ _ St) as Ec.
    apply wp_bind. eapply wp_mono; [apply (addClause_ok s1 c); [apply St| |]|].
    + eapply Forall_impl; [exact Hb|]. intros p (u & Hu & _). eapply bound_binds; [apply St|by apply (cl_mapper _ _ Le)].
    + intros ρ σ C M Hd Hon. rewrite El in *. rewrite Ec in Hon. apply (Hf ρ σ C); try done. eapply matches_mono; [apply Le|done].
    + intros [b2 s2] (St2 & Hadd2 & Hbad2). cbn [wp fst snd] in *. pose proof (st_le _ _ St2) as Le2.
      split; [by eapply cnf_step_trans|]. split.
      * apply Forall_app. split; [|constructor; [|constructor]].
        -- eapply Forall_impl; [exact Hadd|]. intros c' Hc' σ Hs Hon. apply Hc'; [by apply (cl_models _ _ Le2)|].
           eapply frame_on_mono; [reflexivity|apply Le2|done].
        -- intros σ Hs Hon. apply Hadd2; [done|]. by rewrite El, Ec.
      * intros [E|E]%andb_false_iff σ Hs; [|by eapply Hbad2]. subst b. eapply Hbad; [done|]. by apply (cl_models _ _ Le2).
Qed.

End clauses.
