(* ===== verification/CnfTseitin.v ===== *)
(** * Conversion to clauses: the definitions of the connectives

    Each [cnfize...] adds clauses that say: the literal of the term has the
    value of the connective on the literals of the arguments.
    Then: the worklist of [cnfize]. *)
From S2P Require Import Prelude NatSet SatLits Terms BoolTerms BoolFacts BoolConnectives BoolValues TermMapper TermVisitor Cnfizer CnfSpec.
From stdpp Require Import gmap.
From Stdlib Require Import Lia.

#[local] Open Scope nat_scope.

Section tseitin.
Context {S : Type} `{SatSolverLaws S}.
Implicit Types (s : Cnfizer S) (l : BLogic) (m : TermMapper) (t f : PTRef) (σ : Var → bool) (ρ : PTRef → bool) (n : BNode).
Context (Q : list PTRef) (D : list (PTRef * PTRef)).

Abbreviation step := (cnf_step Q D).

(** What the conversion of a term returns with. *)
Definition defines s t n (r : bool * Cnfizer S) : Prop :=
  step s r.2 ∧ defined r.2 n t (current_frame_term s) ∧ (r.1 = false → ∀ σ, ¬ sat_models (solver r.2) σ).

Lemma added_later s s1 s2 c : clause_added s s1 c → step s1 s2 → clause_added s s2 c.
Proof.
  intros Hc St σ Hs Hon. apply Hc; [by apply (cl_models _ _ (st_le _ _ _ _ St))|].
  eapply frame_on_mono; [reflexivity|apply (st_le _ _ _ _ St)|done].
Qed.

Lemma lit_later s1 s2 t p : step s1 s2 → is_bool (c_logic s1) t → lit_at (c_logic s1) (tmap s1) t p →
  lit_at (c_logic s2) (tmap s2) t p.
Proof. intros St Hb. by eapply lit_at_mono; [apply (st_le _ _ _ _ St)|apply (st_le _ _ _ _ St)|]. Qed.

Lemma step_node s s1 t n : step s s1 → bterms (c_logic s) !! t = Some n → bterms (c_logic s1) !! t = Some n.
Proof. intros St. by rewrite (st_logic _ _ _ _ St). Qed.
Lemma step_bool s s1 t : step s s1 → is_bool (c_logic s) t → is_bool (c_logic s1) t.
Proof. intros St. by rewrite (st_logic _ _ _ _ St). Qed.

(** The value of a term with a definition. *)
Lemma defined_value s t n ρ σ p ps : cnf_inv Q D s → bterms (c_logic s) !! t = Some n → has_definition (bsymb n) = true →
  lit_at (c_logic s) (tmap s) t p → Forall2 (lit_at (c_logic s) (tmap s)) (bargs n) ps →
  consistent (c_logic s) ρ → matches (tmap s) ρ σ → bool_op (bsymb n) (lit_value σ <$> ps) = Some (lit_value σ p).
Proof.
  intros I Hn Hd Hp Hps C M. destruct (definition_bools _ _ _ (ci_store _ _ _ I) Hn Hd) as [Hb1 Hb2].
  rewrite (lits_match _ _ _ _ ρ σ (ci_store _ _ _ I) Hb2 Hps C M), (lit_matches _ _ _ _ ρ σ (ci_store _ _ _ I) Hb1 Hp C M).
  destruct (term_cases _ t n (ci_store _ _ _ I) Hn) as [(n' & Hn' & Hm)|[_ Hv]]; [|by apply Hv].
  rewrite Hn in Hn'. injection Hn' as <-. by destruct (bsymb n).
Qed.

(** Clauses over the literals of the term and its arguments that are
    equivalent to the definition. *)
Lemma define_by s t n p ps cs : cnf_inv Q D s → bterms (c_logic s) !! t = Some n → has_definition (bsymb n) = true →
  lit_at (c_logic s) (tmap s) t p → Forall2 (lit_at (c_logic s) (tmap s)) (bargs n) ps →
  Forall (Forall (λ q, q ∈ p :: ps ∨ lit_not q ∈ p :: ps)) cs →
  (∀ σ, bool_op (bsymb n) (lit_value σ <$> ps) = Some (lit_value σ p) ↔ Forall (λ c, clause_true σ c = true) cs) →
  wp no_error (defines s t n) (addClauses cs s).
Proof.
  intros I Hn Hd Hp Hps Hc Heq. eapply wp_mono; [apply (addClauses_ok Q D); [done| |]|].
  - eapply Forall_impl; [exact Hc|]. intros c Hlits. eapply Forall_impl; [exact Hlits|]. intros q Hq.
    assert (∀ q, q ∈ p :: ps → bound_var (tmap s) (var q)) as Hall.
    { intros q' [-> |Hq']%elem_of_cons; [eapply bound_lit; [apply I|done]|].
      apply list_elem_of_lookup in Hq' as [i Hi]. destruct (Forall2_lookup_r _ _ _ _ _ Hps Hi) as (a & _ & Ha).
      eapply bound_lit; [apply I|done]. }
    destruct Hq as [Hq|Hq]; [by apply Hall|]. rewrite <- (var_not q). by apply Hall.
  - apply Forall_forall. intros c Hin ρ σ C M _ _.
    pose proof (proj1 (Heq σ) (defined_value s t n ρ σ p ps I Hn Hd Hp Hps C M)) as Hall.
    by apply (proj1 (Forall_forall _ _) Hall).
  - intros [b s1] (St & Hadd & Hbad). split; [done|]. split; [|done]. intros _. cbn [fst snd] in *.
    destruct (definition_bools _ _ _ (ci_store _ _ _ I) Hn Hd) as [Hb1 Hb2]. exists p, ps.
    split; [by eapply lit_later|]. split; [eapply lits_at_mono; [apply St|apply St|done|done]|].
    intros σ Hs Hon. apply Heq. apply Forall_forall. intros c Hin. apply (proj1 (Forall_forall _ _) Hadd c Hin); [done|].
    by rewrite (st_logic _ _ _ _ St) in Hon.
Qed.

Lemma clauses_iff2 σ (cs : list (list Lit)) (P : Prop) :
  (P ↔ forallb (clause_true σ) cs = true) → P ↔ Forall (λ c, clause_true σ c = true) cs.
Proof. intros ->. rewrite forallb_forall, Forall_forall. by setoid_rewrite <- list_elem_of_In. Qed.

(** The literals of a binary connective. *)
Lemma binary_literals s t n x y : cnf_inv Q D s → bterms (c_logic s) !! t = Some n → bargs n = [x; y] →
  has_definition (bsymb n) = true → ∀ (k : Lit → Lit → Lit → Cnfizer S → res (bool * Cnfizer S)),
  (∀ s1 p a b, step s s1 → lit_at (c_logic s1) (tmap s1) t p → Forall2 (lit_at (c_logic s1) (tmap s1)) (bargs n) [a; b] →
    wp no_error (defines s1 t n) (k p a b s1)) →
  wp no_error (defines s t n)
    (let! v := getOrCreateLiteralFor t s in
     let! x := barg (c_logic v.2) t 0 in
     let! arg0 := getOrCreateLiteralFor x v.2 in
     let! y := barg (c_logic v.2) t 1 in
     let! arg1 := getOrCreateLiteralFor y arg0.2 in
     k v.1 arg0.1 arg1.1 arg1.2).
Proof.
  intros I Hn Ea Hd k Hk. destruct (definition_bools _ _ _ (ci_store _ _ _ I) Hn Hd) as [Hbt Hb].
  rewrite Ea in Hb. apply Forall_cons in Hb as [Hx Hb]. apply Forall_cons in Hb as [Hy _].
  apply wp_bind. eapply wp_mono; [by apply (getOrCreateLiteralFor_ok Q D)|]. intros [p s1] (St1 & Hp & _). cbn [fst snd] in *.
  assert (∀ i a, bargs n !! i = Some a → barg (c_logic s1) t i = Ok a) as Harg.
  { intros i a Hi. unfold barg. rewrite (at_bterms _ _ _ (step_node _ _ _ _ St1 Hn)). cbn. unfold at_. by rewrite Hi. }
  rewrite (Harg 0 x), (Harg 1 y) by (by rewrite Ea). cbn [rbind].
  apply wp_bind. eapply wp_mono; [apply (getOrCreateLiteralFor_ok Q D); [apply St1|by eapply step_bool]|].
  intros [a s2] (St2 & Ha & _). cbn [fst snd] in *. pose proof (cnf_step_trans _ _ _ _ _ St1 St2) as St12.
  apply wp_bind. eapply wp_mono; [apply (getOrCreateLiteralFor_ok Q D); [apply St2|by eapply step_bool]|].
  intros [b s3] (St3 & Hbl & _). cbn [fst snd] in *. pose proof (cnf_step_trans _ _ _ _ _ St12 St3) as St13.
  eapply wp_mono; [apply Hk; [done| |]|].
  - eapply lit_later; [exact St3|by eapply step_bool|]. eapply lit_later; [exact St2|by eapply step_bool|done].
  - rewrite Ea. constructor; [|by repeat constructor]. eapply lit_later; [exact St3|by eapply step_bool|done].
  - intros [r s4] (St4 & Hdef & Hbad). cbn [fst snd] in *. split; [by eapply cnf_step_trans|]. split; [|done].
    by rewrite (st_current _ _ _ _ St13) in Hdef.
Qed.

Ltac clause_cases p a b :=
  intros σ; apply clauses_iff2; unfold clause_true; cbn [forallb existsb list_fmap fmap list_fmap bool_op];
  rewrite !lit_value_not; destruct (lit_value σ p), (lit_value σ a), (lit_value σ b); cbn; by split; intros [=] || done.

Ltac among := rewrite ?lit_not_not, !elem_of_cons; solve [auto 6].
Ltac lits_among := repeat first [apply Forall_nil_2|apply Forall_cons_2]; first [left; among|right; among].

Lemma cnfizeXor_ok s t n : cnf_inv Q D s → bterms (c_logic s) !! t = Some n → bsymb n = sym_XOR →
  wp no_error (defines s t n) (cnfizeXor t s).
Proof.
  intros I Hn Es. pose proof (no_shape _ _ _ (so_node _ (ci_store _ _ _ I) _ _ Hn)) as Hl. rewrite Es in Hl. cbn in Hl.
  destruct (bargs n) as [|x [|y [|]]] eqn:Ea; try done. assert (has_definition (bsymb n) = true) as Hd by (by rewrite Es).
  apply (binary_literals s t n x y I Hn Ea Hd (λ p a b s1, addClauses [[lit_not p; a; b]; [lit_not p; lit_not a; lit_not b];
     [p; lit_not a; b]; [p; a; lit_not b]] s1)).
  intros s1 p a b St Hp Hps. eapply define_by; try done; [apply St|by eapply step_node|lits_among|].
  rewrite Es. clause_cases p a b.
Qed.

Lemma cnfizeIff_ok s t n : cnf_inv Q D s → bterms (c_logic s) !! t = Some n → bsymb n = sym_EQ →
  wp no_error (defines s t n) (cnfizeIff t s).
Proof.
  intros I Hn Es. pose proof (no_shape _ _ _ (so_node _ (ci_store _ _ _ I) _ _ Hn)) as Hl. rewrite Es in Hl. cbn in Hl.
  destruct (bargs n) as [|x [|y [|]]] eqn:Ea; try done. assert (has_definition (bsymb n) = true) as Hd by (by rewrite Es).
  unfold cnfizeIff. rewrite (at_bterms _ _ _ Hn). cbn [rbind]. rewrite Ea. cbn [length Nat.eqb check rbind].
  apply (binary_literals s t n x y I Hn Ea Hd (λ p a b s1, addClauses [[lit_not p; a; lit_not b]; [lit_not p; lit_not a; b];
     [p; a; b]; [p; lit_not a; lit_not b]] s1)).
  intros s1 p a b St Hp Hps. eapply define_by; try done; [apply St|by eapply step_node|lits_among|].
  rewrite Es. clause_cases p a b.
Qed.

Lemma cnfizeImplies_ok s t n : cnf_inv Q D s → bterms (c_logic s) !! t = Some n → bsymb n = sym_IMPLIES →
  wp no_error (defines s t n) (cnfizeImplies t s).
Proof.
  intros I Hn Es. pose proof (no_shape _ _ _ (so_node _ (ci_store _ _ _ I) _ _ Hn)) as Hl. rewrite Es in Hl. cbn in Hl.
  destruct (bargs n) as [|x [|y [|]]] eqn:Ea; try done. assert (has_definition (bsymb n) = true) as Hd by (by rewrite Es).
  unfold cnfizeImplies. rewrite (at_bterms _ _ _ Hn). cbn [rbind]. rewrite Ea. cbn [length Nat.eqb check rbind].
  apply (binary_literals s t n x y I Hn Ea Hd (λ p a b s1, addClauses [[p; a]; [p; lit_not b]; [lit_not p; lit_not a; b]] s1)).
  intros s1 p a b St Hp Hps. eapply define_by; try done; [apply St|by eapply step_node|lits_among|].
  rewrite Es. clause_cases p a b.
Qed.

(** ** Conjunctions and disjunctions

    [e] is the absorbing value; the small clauses have the literal [small], the
    large one its negation. *)
Definition flip_lit (e : bool) (q : Lit) : Lit := if e then lit_not q else q.

Lemma flip_value σ e q : lit_value σ (flip_lit e q) = xorb e (lit_value σ q).
Proof. destruct e; cbn; rewrite ?lit_value_not; by destruct (lit_value σ q). Qed.
Lemma flip_var e q : var (flip_lit e q) = var q.
Proof. destruct e; [apply var_not|done]. Qed.

Definition junction_sym (e : bool) : BSym := if e then sym_OR else sym_AND.

Lemma junction_op e bs : bool_op (junction_sym e) bs = Some (junction e bs).
Proof. destruct e; cbn; [by rewrite existsb_junction|by rewrite forallb_junction]. Qed.

Definition small_clause e p q : list Lit := [flip_lit (negb e) p; flip_lit e q].
Definition big_clause e p (ps : list Lit) : list Lit := flip_lit e p :: (flip_lit (negb e) <$> ps).

(** A conjunction and a disjunction are defined by their clauses. *)
Lemma junction_clauses σ e p ps : lit_value σ p = junction e (lit_value σ <$> ps) ↔
  Forall (λ q, clause_true σ (small_clause e p q) = true) ps ∧ clause_true σ (big_clause e p ps) = true.
Proof.
  assert (∀ q, clause_true σ (small_clause e p q) = true ↔ (lit_value σ p = negb e → lit_value σ q = negb e)) as Hsmall.
  { intros q. unfold clause_true, small_clause. cbn. rewrite !flip_value, orb_false_r, orb_true_iff.
    destruct e, (lit_value σ p), (lit_value σ q); cbn; naive_solver. }
  assert (clause_true σ (big_clause e p ps) = true ↔ (lit_value σ p = e → e ∈ lit_value σ <$> ps)) as Hbig.
  { rewrite clause_true_iff. unfold big_clause. split.
    - intros (q & [-> |Hq]%elem_of_cons & Hv) E; [rewrite flip_value, E in Hv; by destruct e|].
      apply list_elem_of_fmap in Hq as (q' & -> & Hq'). apply list_elem_of_fmap. exists q'. split; [|done].
      rewrite flip_value in Hv. by destruct e, (lit_value σ q').
    - intros Hin. destruct (decide (lit_value σ p = e)) as [E|Hne].
      + apply Hin, list_elem_of_fmap in E as (q & Eq & Hq). exists (flip_lit (negb e) q). split.
        * apply elem_of_cons. right. by apply list_elem_of_fmap_2.
        * rewrite flip_value, <- Eq. by destruct e.
      + exists (flip_lit e p). split; [apply elem_of_cons; by left|]. rewrite flip_value. by destruct e, (lit_value σ p). }
  rewrite Hbig, Forall_forall. setoid_rewrite Hsmall. unfold junction. case_bool_decide as Hin.
  - split; [intros E; split; [|done]; intros q _ E'; rewrite E in E'; by destruct e|]. intros [H1 _].
    apply list_elem_of_fmap in Hin as (q & Eq & Hq). destruct (decide (lit_value σ p = e)); [done|].
    specialize (H1 q Hq). rewrite <- Eq in H1. destruct e, (lit_value σ p); try done; by rewrite H1.
  - split.
    + intros E. split.
      * intros q Hq _. destruct (decide (lit_value σ q = e)) as [E'|]; [|by destruct e, (lit_value σ q)].
        destruct Hin. rewrite <- E'. by apply list_elem_of_fmap_2.
      * intros E'. rewrite E in E'. by destruct e.
    + intros [_ H2]. destruct (decide (lit_value σ p = e)) as [E|]; [by destruct Hin; apply H2|by destruct e, (lit_value σ p)].
Qed.

Section loop.
Context (s : Cnfizer S) (t : PTRef) (n : BNode) (I : cnf_inv Q D s) (Hn : bterms (c_logic s) !! t = Some n)
  (e : bool) (Es : bsymb n = junction_sym e) (p : Lit) (Hp : lit_at (c_logic s) (tmap s) t p).

Record arg_done (pre : list PTRef) (st : list Lit * bool * Cnfizer S) : Prop := {
  ad_step : step s st.2;
  ad_lits : ∃ ps, Forall2 (lit_at (c_logic st.2) (tmap st.2)) pre ps ∧ st.1.1 = big_clause e p ps
    ∧ Forall (λ q, clause_added s st.2 (small_clause e p q)) ps;
  ad_bad : st.1.2 = false → ∀ σ, ¬ sat_models (solver st.2) σ;
}.

Lemma has_def : has_definition (bsymb n) = true.
Proof using Es. rewrite Es. by destruct e. Qed.
Lemma arg_bools : is_bool (c_logic s) t ∧ Forall (is_bool (c_logic s)) (bargs n).
Proof using I Hn Es. apply (definition_bools _ _ _ (ci_store _ _ _ I) Hn), has_def. Qed.

Lemma bound_flip s1 t' q b : cnf_inv Q D s1 → lit_at (c_logic s1) (tmap s1) t' q → bound_var (tmap s1) (var (flip_lit b q)).
Proof. intros I1 Hq. rewrite flip_var. eapply bound_lit; [apply I1|done]. Qed.

(** One turn of the loop: the small clause of an argument. *)
Lemma small_ok s1 a q : step s s1 → a ∈ bargs n → lit_at (c_logic s1) (tmap s1) a q →
  wp no_error (λ r, step s1 r.2 ∧ clause_added s r.2 (small_clause e p q)
    ∧ (r.1 = false → ∀ σ, ¬ sat_models (solver r.2) σ)) (addClause (small_clause e p q) s1).
Proof using I Hn Es Hp.
  intros St Ha Hq. destruct arg_bools as [Hbt Hb]. pose proof (proj1 (Forall_forall _ _) Hb a Ha) as Hba.
  pose proof (st_inv _ _ _ _ St) as I1. pose proof (lit_later _ _ _ _ St Hbt Hp) as Hp1.
  eapply wp_mono; [apply (addClause_ok Q D); [done| |]|].
  - repeat constructor; by eapply bound_flip.
  - intros ρ σ C M _ _. pose proof (ci_store _ _ _ I1) as W1. unfold clause_true, small_clause. cbn.
    rewrite !flip_value, (lit_matches _ _ _ _ ρ σ W1 (step_bool _ _ _ St Hbt) Hp1 C M),
      (lit_matches _ _ _ _ ρ σ W1 (step_bool _ _ _ St Hba) Hq C M).
    assert (ρ t = junction e (ρ <$> bargs n)) as Ht.
    { eapply C; [eapply step_node; [exact St|exact Hn]|]. rewrite Es. apply junction_op. }
    rewrite Ht. unfold junction. case_bool_decide as Hin; [by destruct e|]. destruct (decide (ρ a = e)) as [E|].
    + destruct Hin. rewrite <- E. by apply list_elem_of_fmap_2.
    + by destruct e, (ρ a).
  - intros [b s2] (St2 & Hadd & Hbad). cbn [fst snd] in *. split; [done|]. split; [|done]. intros σ Hs Hon. apply Hadd; [done|].
    by rewrite (st_logic _ _ _ _ St), (st_current _ _ _ _ St).
Qed.

Lemma arg_next pre big b s1 a q r : arg_done pre (big, b, s1) → a ∈ bargs n → pre ⊆ bargs n →
  step s1 r.2 → lit_at (c_logic r.2) (tmap r.2) a q → clause_added s r.2 (small_clause e p q) →
  (r.1 = false → ∀ σ, ¬ sat_models (solver r.2) σ) →
  arg_done (pre ++ [a]) (big ++ [flip_lit (negb e) q], b && r.1, r.2).
Proof using I Hn Es.
  intros [St (ps & Hps & Eb & Hadd) Hbad] Ha Hpre St1 Hq Hadd1 Hbad1. cbn [fst snd] in *. constructor; cbn [fst snd].
  - by eapply cnf_step_trans.
  - exists (ps ++ [q]). split; [|split].
    + apply Forall2_app; [|by constructor]. eapply lits_at_mono; [apply St1|apply St1| |done].
      apply Forall_forall. intros x Hx. eapply step_bool; [exact St|]. apply (proj1 (Forall_forall _ _) (proj2 arg_bools)), Hpre, Hx.
    + rewrite Eb. unfold big_clause. by rewrite fmap_app.
    + apply Forall_app. split; [|by constructor]. eapply Forall_impl; [exact Hadd|]. intros q'. cbn. intros Hq'. by eapply added_later.
  - intros [E|E]%andb_false_iff σ Hs; [|by eapply Hbad1]. eapply Hbad; [done|]. by apply (cl_models _ _ (st_le _ _ _ _ St1)).
Qed.

(** After the loop: the large clause. *)
Lemma big_ok st : arg_done (bargs n) st →
  wp no_error (defines s t n) (let! r := addClause st.1.1 st.2 in Ok (st.1.2 && r.1, r.2)).
Proof using I Hn Es Hp.
  destruct st as [[big b] s1]. intros [St (ps & Hps & -> & Hadd) Hbad]. cbn [fst snd] in *. destruct arg_bools as [Hbt Hb].
  pose proof (st_inv _ _ _ _ St) as I1. pose proof (lit_later _ _ _ _ St Hbt Hp) as Hp1.
  apply wp_bind. eapply wp_mono; [apply (addClause_ok Q D); [done| |]|].
  - constructor; [by eapply bound_flip|]. apply Forall_fmap, Forall_forall. intros q Hq.
    apply list_elem_of_lookup in Hq as [i Hi]. destruct (Forall2_lookup_r _ _ _ _ _ Hps Hi) as (a & _ & Ha). cbn. by eapply bound_flip.
  - intros ρ σ C M _ _. eapply proj2, junction_clauses.
    pose proof (defined_value s1 t n ρ σ p ps I1 (step_node _ _ _ _ St Hn) has_def Hp1 Hps C M) as Hv.
    rewrite Es, junction_op in Hv. by injection Hv.
  - intros [b2 s2] (St2 & Hadd2 & Hbad2). cbn [wp fst snd] in *. pose proof (cnf_step_trans _ _ _ _ _ St St2) as St3.
    split; [done|]. split.
    + intros _. exists p, ps. cbn [snd]. split; [by eapply lit_later|]. split.
      { eapply lits_at_mono; [apply St2|apply St2| |done]. by rewrite (st_logic _ _ _ _ St). }
      intros σ Hs Hon. rewrite Es, junction_op. f_equal. symmetry. apply junction_clauses.
      rewrite (st_logic _ _ _ _ St3) in Hon. split.
      * apply Forall_forall. intros q Hq. pose proof (proj1 (Forall_forall _ _) Hadd q Hq) as Hq'.
        by apply (added_later _ _ _ _ Hq' St2).
      * apply Hadd2; [done|]. by rewrite (st_logic _ _ _ _ St), (st_current _ _ _ _ St).
    + intros [E|E]%andb_false_iff σ Hs; [|by eapply Hbad2]. cbn in E. eapply Hbad; [done|].
      by apply (cl_models _ _ (st_le _ _ _ _ St2)).
Qed.

End loop.

Lemma defines_later s s1 t n r : step s s1 → defines s1 t n r → defines s t n r.
Proof.
  intros St (St1 & Hd & Hb). split; [by eapply cnf_step_trans|]. split; [|done]. by rewrite (st_current _ _ _ _ St) in Hd.
Qed.

Lemma cnfizeAnd_ok s t n : cnf_inv Q D s → bterms (c_logic s) !! t = Some n → bsymb n = sym_AND →
  wp no_error (defines s t n) (cnfizeAnd t s).
Proof.
  intros I Hn Es. destruct (arg_bools s t n I Hn false Es) as [Hbt Hb]. unfold cnfizeAnd.
  apply wp_bind. eapply wp_mono; [by apply (getOrCreateLiteralFor_ok Q D)|]. intros [p s0] (St0 & Hp & _). cbn [fst snd] in *.
  pose proof (step_node _ _ _ _ St0 Hn) as Hn0. pose proof (st_inv _ _ _ _ St0) as I0. rewrite (at_bterms _ _ _ Hn0). cbn [rbind].
  apply wp_bind. eapply wp_mono.
  { apply (foldM_wp _ _ (λ pre _, arg_done s0 false p pre) (bargs n)).
    - constructor; cbn [fst snd]; [by apply cnf_step_refl| |done]. exists []. by repeat split.
    - intros pre a post [[big b] s1] Ea Hd. cbn [fst snd]. pose proof (ad_step _ _ _ _ _ Hd) as St1. cbn [snd] in St1.
      assert (a ∈ bargs n) as Ha by (rewrite Ea; apply elem_of_app; right; apply elem_of_cons; by left).
      assert (is_bool (c_logic s1) a) as Hba.
      { eapply step_bool; [exact St1|]. eapply step_bool; [exact St0|]. by apply (proj1 (Forall_forall _ _) Hb). }
      apply wp_bind. eapply wp_mono; [apply (getOrCreateLiteralFor_ok Q D); [apply St1|done]|]. intros [q s2] (St2 & Hq & _).
      cbn [fst snd] in *. pose proof (step_bool _ _ _ St2 Hba) as Hba2.
      apply wp_bind. eapply wp_mono; [apply (getOrCreateLiteralFor_ok Q D); [apply St2|done]|]. intros [q' s3] (St3 & Hq' & _).
      cbn [fst snd] in *. pose proof (lit_at_fun _ _ _ _ _ (lit_later _ _ _ _ St3 Hba2 Hq) Hq') as <-.
      pose proof (cnf_step_trans _ _ _ _ _ St2 St3) as St23. pose proof (cnf_step_trans _ _ _ _ _ St1 St23) as St13.
      apply wp_bind. eapply wp_mono; [apply (small_ok s0 t n I0 Hn0 false Es p Hp s3 a q St13 Ha Hq')|].
      intros [b' s4] (St4 & Hadd & Hbad). cbn [wp fst snd] in *.
      apply (arg_next s0 t n I0 Hn0 false Es p pre big b s1 a q (b', s4)); try done.
      + rewrite Ea. set_solver.
      + by eapply cnf_step_trans.
      + eapply lit_later; [exact St4|exact (step_bool _ _ _ St3 Hba2)|done]. }
  intros st Hd. eapply wp_mono; [by apply (big_ok s0 t n I0 Hn0 false Es p Hp)|]. intros r. by apply defines_later.
Qed.

Lemma cnfizeOr_ok s t n : cnf_inv Q D s → bterms (c_logic s) !! t = Some n → bsymb n = sym_OR →
  wp no_error (defines s t n) (cnfizeOr t s).
Proof.
  intros I Hn Es. destruct (arg_bools s t n I Hn true Es) as [Hbt Hb]. unfold cnfizeOr.
  apply wp_bind. eapply wp_mono; [by apply (getOrCreateLiteralFor_ok Q D)|]. intros [p s0] (St0 & Hp & _). cbn [fst snd] in *.
  pose proof (step_node _ _ _ _ St0 Hn) as Hn0. pose proof (st_inv _ _ _ _ St0) as I0. rewrite (at_bterms _ _ _ Hn0). cbn [rbind].
  apply wp_bind. eapply wp_mono.
  { apply (foldM_wp _ _ (λ pre _, arg_done s0 true p pre) (bargs n)).
    - constructor; cbn [fst snd]; [by apply cnf_step_refl| |done]. exists []. by repeat split.
    - intros pre a post [[big b] s1] Ea Hd. cbn [fst snd]. pose proof (ad_step _ _ _ _ _ Hd) as St1. cbn [snd] in St1.
      assert (a ∈ bargs n) as Ha by (rewrite Ea; apply elem_of_app; right; apply elem_of_cons; by left).
      assert (is_bool (c_logic s1) a) as Hba.
      { eapply step_bool; [exact St1|]. eapply step_bool; [exact St0|]. by apply (proj1 (Forall_forall _ _) Hb). }
      apply wp_bind. eapply wp_mono; [apply (getOrCreateLiteralFor_ok Q D); [apply St1|done]|]. intros [q s2] (St2 & Hq & _).
      cbn [fst snd] in *. pose proof (cnf_step_trans _ _ _ _ _ St1 St2) as St12.
      apply wp_bind. eapply wp_mono; [apply (small_ok s0 t n I0 Hn0 true Es p Hp s2 a q St12 Ha Hq)|].
      intros [b' s3] (St3 & Hadd & Hbad). cbn [wp fst snd] in *.
      apply (arg_next s0 t n I0 Hn0 true Es p pre big b s1 a q (b', s3)); try done.
      + rewrite Ea. set_solver.
      + by eapply cnf_step_trans.
      + eapply lit_later; [exact St3|exact (step_bool _ _ _ St2 Hba)|done]. }
  intros st Hd. eapply wp_mono; [by apply (big_ok s0 t n I0 Hn0 true Es p Hp)|]. intros r. by apply defines_later.
Qed.

End tseitin.

(** * Conversion to clauses: the worklist

    [cnfize] ends, and then the term and the terms below it have their
    definitions in the current frame. *)

Section work.
Context {S : Type} `{SatSolverLaws S}.
Implicit Types (s : Cnfizer S) (l : BLogic) (t f : PTRef) (Q : list PTRef) (σ : Var → bool) (ρ : PTRef → bool) (n : BNode).
Context (D : list (PTRef * PTRef)).

(** What a conversion leaves as it is. *)
Record cnf_same s s' : Prop := {
  sa_le : cnf_le s s';
  sa_logic : c_logic s' = c_logic s;
  sa_asserted : alreadyAsserted s' = alreadyAsserted s;
  sa_frames : frame_terms s' = frame_terms s;
  sa_current : current_frame_term s' = current_frame_term s;
}.

#[export] Instance cnf_same_preorder : PreOrder cnf_same.
Proof.
  split; [by intros s; constructor|]. intros s1 s2 s3 [A1 A2 A3 A4 A5] [B1 B2 B3 B4 B5].
  constructor; try congruence. by etrans.
Qed.

Lemma step_same Q s s' : cnf_step Q D s s' → cnf_same s s'.
Proof. by intros [A1 A2 A3 A4 A5 A6 A7]. Qed.

Definition no_models s : Prop := ∀ σ, ¬ sat_models (solver s) σ.

(** ** The waiting terms *)

Lemma inv_queue Q Q' s : cnf_inv Q D s → (∀ a, a ∈ Q → contained s a (current_frame_term s) ∨ a ∈ Q') → cnf_inv Q' D s.
Proof.
  intros [I1 I2 I3 I4 I5 I6 I7 I8 I9 I10] HQ. constructor; try done. intros t fr Hin.
  destruct (I8 t fr Hin) as (Hf & n & Hn & Hd & Hk). split; [done|]. exists n. split; [done|]. split; [done|].
  intros Hs a Ha. destruct (Hk Hs a Ha) as [?|[-> Ha']]; [by left|]. destruct (HQ a Ha'); auto.
Qed.

Lemma contained_inserted s t fr c : Cache_insert t fr (alreadyCnfized s) = Ok c →
  contained (set_cnfized c s) t fr ∧ (∀ e, e ∈ cache c ↔ e = (t, fr) ∨ e ∈ cache (alreadyCnfized s))
  ∧ zeroLevelTerm c = zeroLevelTerm (alreadyCnfized s).
Proof.
  unfold Cache_insert, contained, Cache_contains. destruct (negb _); [|done]. cbn. intros [= <-]. cbn. split; [|split; [set_solver|done]].
  rewrite bool_decide_true by set_solver. done.
Qed.

Lemma cache_insert_fresh t fr c : Cache_contains c t fr = false →
  Cache_insert t fr c = Ok (MkCache (zeroLevelTerm c) ({[(t, fr)]} ∪ cache c)).
Proof. intros E. unfold Cache_insert. by rewrite E. Qed.

Lemma mark_cnfized Q Q' s t n c : cnf_inv (t :: Q) D s → bterms (c_logic s) !! t = Some n →
  Cache_insert t (current_frame_term s) (alreadyCnfized s) = Ok c →
  defined s n t (current_frame_term s) → (has_definition (bsymb n) = true ∨ bsymb n = sym_NOT → bargs n ⊆ Q') → Q ⊆ Q' →
  cnf_inv Q' D (set_cnfized c s) ∧ cnf_same s (set_cnfized c s).
Proof.
  intros [I1 I2 I3 I4 I5 I6 I7 I8 I9 I10] Hn Hc Hd Ha HQ. destruct (contained_inserted _ _ _ _ Hc) as (C1 & C2 & C3).
  set (s' := set_cnfized c s) in *.
  assert (cnf_same s s') as Hsame.
  { constructor; try done. constructor; try done. intros e He. apply C2. by right. }
  split; [|done]. pose proof (sa_le _ _ Hsame) as Hle. constructor; try done.
  - cbn. by rewrite C3.
  - intros u fr [[= -> ->]|Hin]%C2.
    + split; [done|]. exists n. split; [done|]. split.
      * eapply cnf_defined_mono; try done. intros Hh. by eapply definition_bools.
      * intros Hs a Hin. right. split; [done|]. by apply Ha.
    + destruct (I8 u fr Hin) as (Hf & m & Hm & Hdm & Hk). split; [done|]. exists m. split; [done|]. split.
      * eapply cnf_defined_mono; try done. intros Hh. by eapply definition_bools.
      * intros Hs a Hin'. destruct (Hk Hs a Hin') as [Hca|[-> [-> |Ha']%elem_of_cons]].
        -- left. by eapply contained_mono.
        -- by left.
        -- right. split; [done|]. by apply HQ.
Qed.

(** ** A round *)

Definition todo s t : nat := if Cache_contains (alreadyCnfized s) t (current_frame_term s) then 0 else 2 + nargs (c_logic s) t.
Definition work_left (st : list PTRef * bool * Cnfizer S) : nat :=
  length st.1.1 + sum_list_with (todo st.2) (seq 0 (length (bterms (c_logic st.2)))).

Lemma work_shrinks Q Q' b b' s s' t n : cnf_same s s' → bterms (c_logic s) !! t = Some n → ¬ contained s t (current_frame_term s) →
  contained s' t (current_frame_term s) → length Q' ≤ length (bargs n) + length Q →
  work_left (Q', b', s') < work_left (t :: Q, b, s).
Proof.
  intros Hs Hn Hc Hc' Hl. unfold work_left. cbn [fst snd length]. rewrite (sa_logic _ _ Hs).
  pose proof (sum_drop (todo s) (todo s') t (2 + length (bargs n)) (length (bterms (c_logic s)))) as Hd.
  assert (sum_list_with (todo s') (seq 0 (length (bterms (c_logic s)))) + (2 + length (bargs n)) ≤
    sum_list_with (todo s) (seq 0 (length (bterms (c_logic s))))); [|lia].
  apply Hd.
  - by eapply lookup_lt_Some.
  - intros u. unfold todo. rewrite (sa_logic _ _ Hs), (sa_current _ _ Hs).
    destruct (Cache_contains (alreadyCnfized s) u (current_frame_term s)) eqn:E.
    + by rewrite (contained_mono s s' u _ (sa_le _ _ Hs) E).
    + destruct (Cache_contains (alreadyCnfized s') u _); lia.
  - unfold todo. rewrite (sa_current _ _ Hs), Hc'. destruct (Cache_contains (alreadyCnfized s) t _) eqn:E; [done|].
    unfold nargs. rewrite Hn. lia.
Qed.

(** Converting the popped term. *)
Definition convert n t s : res (option (bool * Cnfizer S)) :=
  match bsymb n with
  | sym_AND => let! r := cnfizeAnd t s in Ok (Some r)
  | sym_OR => let! r := cnfizeOr t s in Ok (Some r)
  | sym_XOR => let! r := cnfizeXor t s in Ok (Some r)
  | sym_EQ => let! r := cnfizeIff t s in Ok (Some r)
  | sym_IMPLIES => let! r := cnfizeImplies t s in Ok (Some r)
  | f => Ok (if negb (bool_decide (f = sym_NOT)) && (0 <? length (bargs n)) then None else Some (true, s))
  end.

Lemma convert_ok Q s t n : cnf_inv Q D s → bterms (c_logic s) !! t = Some n →
  wp no_error (λ r, match r with
    | Some r => defines Q D s t n r
    | None => has_definition (bsymb n) = false ∧ bsymb n ≠ sym_NOT
    end) (convert n t s).
Proof.
  intros I Hn. unfold convert. assert (∀ (m : res (bool * Cnfizer S)), wp no_error (defines Q D s t n) m →
    wp no_error (λ r, match r with Some r => defines Q D s t n r | None => has_definition (bsymb n) = false ∧ bsymb n ≠ sym_NOT end)
      (let! r := m in Ok (Some r))) as Hm.
  { intros m Hw. apply wp_bind. eapply wp_mono; [exact Hw|]. done. }
  assert (has_definition (bsymb n) = false → defines Q D s t n (true, s)) as Hno.
  { intros E. split; [by apply cnf_step_refl|]. split; [|done]. intros E'. congruence. }
  destruct (bsymb n) eqn:Es; try (apply Hm); try (rewrite bool_decide_false by done; cbn [negb andb]; destruct (_ <? _); [by split|by apply Hno]).
  - by apply cnfizeAnd_ok.
  - by apply cnfizeOr_ok.
  - by apply cnfizeXor_ok.
  - rewrite bool_decide_true by done. by apply Hno.
  - by apply cnfizeIff_ok.
  - by apply cnfizeImplies_ok.
Qed.

Record work_ok s0 t0 (st : list PTRef * bool * Cnfizer S) : Prop := {
  wo_inv : cnf_inv st.1.1 D st.2;
  wo_same : cnf_same s0 st.2;
  wo_valid : Forall (λ q, q < length (bterms (c_logic s0))) st.1.1;
  wo_root : contained st.2 t0 (current_frame_term s0) ∨ t0 ∈ st.1.1;
  wo_bad : st.1.2 = false → no_models st.2;
}.

Lemma cnfize_round_ok s0 t0 st : work_ok s0 t0 st →
  wp no_error (λ r, match r with
    | inl st' => work_ok s0 t0 st' ∧ work_left st' < work_left st
    | inr r => cnf_inv [] D r.2 ∧ cnf_same s0 r.2 ∧ contained r.2 t0 (current_frame_term s0) ∧ (r.1 = false → no_models r.2)
    end) (cnfize_round st).
Proof.
  destruct st as [[Q b] s]. intros [I Hs Hv Hr Hb]. cbn [fst snd] in *. pose proof (sa_current _ _ Hs) as Ec. destruct Q as [|t Q].
  { cbn. split; [done|]. split; [done|]. split; [|done]. destruct Hr as [?|?%elem_of_nil]; done. }
  apply Forall_cons in Hv as [Ht Hv]. cbn [cnfize_round].
  destruct (Cache_contains (alreadyCnfized s) t (current_frame_term s)) eqn:Ec0.
  { cbn. split; [|unfold work_left; cbn; lia]. constructor; try done.
    - cbn. eapply inv_queue; [exact I|]. intros a [-> |?]%elem_of_cons; auto.
    - cbn. destruct Hr as [?|[-> |?]%elem_of_cons]; auto. left. by rewrite <- Ec. }
  rewrite <- (sa_logic _ _ Hs) in Ht. destruct (lookup_lt_is_Some_2 _ _ Ht) as [n Hn].
  rewrite (at_bterms _ _ _ Hn). cbn [rbind].
  change (wp no_error (λ r, match r with
    | inl st' => work_ok s0 t0 st' ∧ work_left st' < work_left (t :: Q, b, s)
    | inr r => cnf_inv [] D r.2 ∧ cnf_same s0 r.2 ∧ contained r.2 t0 (current_frame_term s0) ∧ (r.1 = false → no_models r.2)
    end) (let! r := convert n t s in match r with
        | Some (b', s) =>
            let! n := bnode (c_logic s) t in
            let! c := Cache_insert t (current_frame_term s) (alreadyCnfized s) in
            Ok (inl (reverse (bargs n) ++ Q, b && b', set_cnfized c s))
        | None =>
            let! c := Cache_insert t (current_frame_term s) (alreadyCnfized s) in
            Ok (inl (Q, b, set_cnfized c s))
        end)).
  apply wp_bind. eapply wp_mono; [by apply (convert_ok (t :: Q) s t n)|].
  assert (Forall (λ q, q < length (bterms (c_logic s0))) (bargs n)) as Hargs.
  { pose proof (no_older _ _ _ (so_node _ (ci_store _ _ _ I) _ _ Hn)) as Ho. eapply Forall_impl; [exact Ho|]. intros a Ha.
    cbn in Ha. rewrite <- (sa_logic _ _ Hs). lia. }
  intros [[b' s1]|].
  - intros (St & Hd & Hbad). cbn [fst snd] in *. pose proof (step_same _ _ _ St) as Hs1. pose proof (sa_current _ _ Hs1) as Ec1.
    rewrite (at_bterms _ _ n) by (by rewrite (sa_logic _ _ Hs1)). cbn [rbind].
    assert (Cache_contains (alreadyCnfized s1) t (current_frame_term s1) = false) as Ec2
      by (by rewrite (st_cnfized _ _ _ _ St), Ec1).
    pose proof (cache_insert_fresh _ _ _ Ec2) as Hins. rewrite Hins. cbn [rbind].
    assert (bterms (c_logic s1) !! t = Some n) as Hn1 by (by rewrite (sa_logic _ _ Hs1)).
    destruct (mark_cnfized Q (reverse (bargs n) ++ Q) s1 t n _ (st_inv _ _ _ _ St) Hn1 Hins) as [I2 Hs2];
      [by rewrite Ec1| |set_solver|].
    { intros _ a Ha. apply elem_of_app. left. by rewrite reverse_Permutation. }
    set (c := MkCache _ _) in *. set (s2 := set_cnfized c s1) in *.
    assert (contained s2 t (current_frame_term s)) as Hct.
    { unfold contained, Cache_contains. cbn. rewrite Ec1, bool_decide_true by set_solver. done. }
    cbn [wp]. split.
    + constructor; cbn [fst snd].
      * done.
      * etrans; [exact Hs|]. by etrans.
      * apply Forall_app. split; [by apply Forall_reverse|done].
      * destruct Hr as [?|[-> |?]%elem_of_cons].
        -- left. eapply contained_mono; [|done]. etrans; [apply (sa_le _ _ Hs1)|apply (sa_le _ _ Hs2)].
        -- left. by rewrite <- Ec.
        -- right. apply elem_of_app. by right.
      * intros [E|E]%andb_false_iff σ Hm; [|by eapply (Hbad E)]. eapply (Hb E). by apply (cl_models _ _ (sa_le _ _ Hs1)).
    + eapply work_shrinks; [by etrans|done|unfold contained; by rewrite Ec0|done|]. rewrite length_app, length_reverse. lia.
  - intros [Hd1 Hd2]. rewrite cache_insert_fresh by done. cbn [rbind wp].
    destruct (mark_cnfized Q Q s t n _ I Hn (cache_insert_fresh _ _ _ Ec0)) as [I2 Hs2]; [congruence|intros [?|?]; congruence|done|].
    set (c := MkCache _ _) in *. set (s2 := set_cnfized c s) in *.
    assert (contained s2 t (current_frame_term s)) as Hct.
    { unfold contained, Cache_contains. cbn. rewrite bool_decide_true by set_solver. done. }
    split.
    + constructor; cbn [fst snd]; try done; [by etrans|]. destruct Hr as [?|[-> |?]%elem_of_cons].
      * left. eapply contained_mono; [apply (sa_le _ _ Hs2)|done].
      * left. by rewrite <- Ec.
      * by right.
    + eapply work_shrinks; [done|done|unfold contained; by rewrite Ec0|done|]. lia.
Qed.

Lemma cnfize_ok s t : cnf_inv [] D s → t < length (bterms (c_logic s)) →
  wp no_error (λ r, cnf_inv [] D r.2 ∧ cnf_same s r.2 ∧ contained r.2 t (current_frame_term s) ∧ (r.1 = false → no_models r.2))
    (cnfize t s).
Proof.
  intros I Ht. unfold cnfize.
  apply (while_wp _ _ (work_ok s t) work_left); [apply cnfize_round_ok| |].
  - constructor; cbn [fst snd]; try done.
    + apply (inv_queue []); [done|]. by intros a ?%elem_of_nil.
    + by constructor.
    + right. by apply list_elem_of_singleton.
  - apply fuel_for_enough. unfold work_left. cbn. apply le_n_S. unfold store_size.
    rewrite <- (sum_positions _ (bterms (c_logic s))). apply sum_le. intros u Hu%elem_of_seq. unfold todo, nargs.
    destruct (lookup_lt_is_Some_2 (bterms (c_logic s)) u) as [n ->]; [lia|]. destruct (Cache_contains _ _ _); lia.
Qed.

End work.
