(* ===== verification/CnfAssert.v ===== *)
(** * Conversion to clauses: formulas that are clauses already

    [isClause], [checkPureConj] end, and a formula they accept is a tree of
    disjunctions (conjunctions) over literals, which [retrieveClause]
    ([retrieveConjuncts]) lists.
    Then: asserting a conjunct in one of three ways. *)
From S2P Require Import Prelude NatSet SatLits Terms BoolTerms BoolFacts BoolConnectives BoolValues TermMapper TermVisitor Cnfizer CnfSpec.
From S2P Require Import CnfTseitin.
From stdpp Require Import gmap.
From Stdlib Require Import Lia.

#[local] Open Scope nat_scope.

Section shapes.
Context (l : BLogic) (W : store_ok l).
Implicit Types (t e a : PTRef) (ρ : PTRef → bool).

Lemma valid_node t : t < length (bterms l) → ∃ n, bterms l !! t = Some n.
Proof. apply lookup_lt_is_Some_2. Qed.

Lemma arg_older t n a : bterms l !! t = Some n → a ∈ bargs n → a < t.
Proof. intros Hn Ha. exact (proj1 (Forall_forall (λ a, a < t) _) (no_older _ _ _ (so_node _ W _ _ Hn)) a Ha). Qed.

(** ** Literals *)

Lemma Logic_isAtom_ok t : t < length (bterms l) → ∃ b, Logic_isAtom l t = Ok b ∧ (b = true → is_bool l t ∧ leaf l t).
Proof.
  intros Ht. destruct (valid_node t Ht) as [n Hn]. destruct (so_node _ W _ _ Hn) as [Ho Hs Hb]. unfold Logic_isAtom.
  rewrite (at_bterms _ _ _ Hn). cbn [rbind]. destruct (Nat.eqb_spec (rsort (symbol (bsymb n))) sort_BOOL) as [Er|]; [|by exists false].
  assert (is_bool l t) as Hbt by (by exists n). destruct (bargs n) as [|a args] eqn:Ea.
  { exists true. split; [done|]. intros _. split; [done|]. exists n. split; [done|].
    destruct (bsymb n); cbn in Hs; try lia; auto; by destruct Hs as (? & ? & _). }
  case_bool_decide as Enot; [by exists false|]. destruct (valid_node a) as [m Hm].
  { apply Forall_cons in Ho as [? _]. lia. }
  rewrite (sort_eq _ _ _ Hm). cbn [rbind].
  assert (∀ b : bool, (b = true → meaningful (bsymb n) = false) → ∃ b', Ok b = Ok b' ∧ (b' = true → is_bool l t ∧ leaf l t)) as Hk.
  { intros b Hf. exists b. split; [done|]. intros E. split; [done|]. exists n. split; [done|]. left. by apply Hf. }
  destruct (isEquality_sym (bsymb n) && negb (rsort (symbol (bsymb m)) =? sort_BOOL)) eqn:E1.
  { apply Hk. intros _. apply andb_true_iff in E1 as [E1 E2%negb_true_iff]. destruct (bsymb n) eqn:Es; try done.
    assert (is_bool l a) as (m' & Hm' & Hs'). { specialize (Hb eq_refl). by apply Forall_cons in Hb as [? _]. }
    rewrite Hm in Hm'. injection Hm' as <-. by rewrite Hs' in E2. }
  destruct (isDisequality_sym (bsymb n)) eqn:E2; [apply Hk; intros _; by destruct (bsymb n)|].
  unfold isUP, isUF, hasSortBool. rewrite !(test_eq _ _ _ _ Hn). cbn [rbind]. destruct (isUF_sym (bsymb n)) eqn:E3; [|by exists false].
  apply Hk. intros _. by destruct (bsymb n).
Qed.

Lemma isAtom_ok t : t < length (bterms l) → ∃ b, isAtom l t = Ok b ∧ (b = true → is_bool l t ∧ leaf l t).
Proof.
  intros Ht. destruct (valid_node t Ht) as [n Hn]. unfold isAtom. destruct (arithmetic l); [|by apply Logic_isAtom_ok].
  rewrite (test_eq _ _ _ _ Hn). cbn [rbind]. destruct (isNumPredicate_sym (bsymb n)) eqn:E; [|by apply Logic_isAtom_ok].
  exists true. split; [done|]. intros _. unfold isNumPredicate_sym in E. destruct (bsymb n) as [| | | | | | | | | |g] eqn:Es; try done.
  apply andb_true_iff in E as [E _]. apply andb_true_iff in E as [E _]. apply andb_true_iff in E as [_ E%Nat.eqb_eq].
  split; exists n; (split; [done|]); [by rewrite Es|left; by rewrite Es].
Qed.

(** A literal: a leaf or the negation of one. *)
Lemma isLiteral_ok t : t < length (bterms l) →
  ∃ b, isLiteral l t = Ok b ∧ (b = true → is_bool l t ∧ leaf l (purify l t).1 ∧ ¬ sym_at l t sym_OR ∧ ¬ sym_at l t sym_AND).
Proof.
  intros Ht. destruct (valid_node t Ht) as [[f ts] Hn]. unfold isLiteral, isNot. rewrite (test_eq _ _ _ _ Hn). cbn [rbind bsymb].
  assert (∀ u, leaf l u → ¬ sym_at l u sym_OR ∧ ¬ sym_at l u sym_AND) as Hleaf.
  { intros u (n & Hu & Hm). split; intros [us Hu']; rewrite Hu in Hu'; injection Hu' as ->; by destruct Hm as [?|[?|?]]. }
  case_bool_decide as Ef.
  - subst f. destruct (not_node l W t ts Hn) as (a & -> & Hg & Ha & Hlt). unfold barg. rewrite (at_bterms _ _ _ Hn). cbn.
    destruct (isAtom_ok a) as (b & -> & Hb); [lia|]. cbn. assert (is_bool l t) as Hbt by (by eexists).
    assert (¬ sym_at l t sym_OR ∧ ¬ sym_at l t sym_AND) as Hs by (split; intros [us Hus]; congruence).
    destruct b; [|destruct (isAtom_ok t Ht) as (b & -> & Hb')]; eexists; (split; [done|]); intros E.
    + split; [done|]. split; [|done]. unfold purify. rewrite Hn. by apply Hb.
    + destruct (Hb' E) as [_ (n & Hn' & Hm)]. rewrite Hn in Hn'. injection Hn' as <-. by destruct Hm as [?|[?|?]].
  - cbn. destruct (isAtom_ok t Ht) as (b & -> & Hb). eexists. split; [done|]. intros E. destruct (Hb E) as [H1 H2].
    split; [done|]. split; [|by apply Hleaf]. rewrite purify_positive; [done|done|]. intros [us Hus]. congruence.
Qed.

(** ** Trees of one connective *)

Inductive flat (f : BSym) (L : PTRef → Prop) : PTRef → list PTRef → Prop :=
| flat_leaf t : L t → flat f L t [t]
| flat_node t n ts : bterms l !! t = Some n → bsymb n = f → flats f L (bargs n) ts → flat f L t ts
with flats (f : BSym) (L : PTRef → Prop) : list PTRef → list PTRef → Prop :=
| flats_nil : flats f L [] []
| flats_cons a args ts us : flat f L a ts → flats f L args us → flats f L (a :: args) (ts ++ us).

Definition tree f (L : PTRef → Prop) t : Prop := ∃ ts, flat f L t ts.

Lemma tree_node f L t n : bterms l !! t = Some n → bsymb n = f → (∀ a, a ∈ bargs n → tree f L a) → tree f L t.
Proof.
  intros Hn Hf Ha. enough (∃ ts, flats f L (bargs n) ts) as [ts Hts] by (exists ts; by eapply flat_node).
  clear Hn Hf. induction (bargs n) as [|a args IH]; [by exists []; constructor|].
  destruct (Ha a) as [ts Hts]; [apply elem_of_cons; by left|]. destruct IH as [us Hus].
  { intros b Hb. apply Ha, elem_of_cons. by right. }
  exists (ts ++ us). by constructor.
Qed.

Lemma flat_leaves f L t ts : flat f L t ts → Forall L ts.
Proof.
  revert ts. induction (lt_wf t) as [t _ IH]. intros ts Hfl. revert IH. destruct Hfl as [u Hu|u n us Hn Hf Hs]; intros IH; [by constructor|].
  assert (∀ a, a ∈ bargs n → a < u) as Ho by (intros a; by eapply arg_older). clear Hn.
  induction Hs as [|a args vs ws Ha _ IHs]; [constructor|]. apply Forall_app. split.
  - apply (IH a); [apply Ho, elem_of_cons; by left|done].
  - apply IHs. intros b Hb. apply Ho, elem_of_cons. by right.
Qed.

Lemma flat_value f (e : bool) (L : PTRef → Prop) t (ts : list PTRef) ρ : consistent l ρ → (∀ bs, bool_op f bs = Some (junction e bs)) → flat f L t ts →
  ρ t = junction e (ρ <$> ts).
Proof.
  intros C Hop. assert (∀ b, junction e [b] = b) as H1.
  { intros b. unfold junction. case_bool_decide as E; rewrite list_elem_of_singleton in E; destruct e, b; done. }
  revert ts. induction (lt_wf t) as [t _ IH]. intros ts Hfl. revert IH. destruct Hfl as [u Hu|u n us Hn Hf Hs]; intros IH; [by cbn; rewrite H1|].
  assert (ρ u = junction e (ρ <$> bargs n)) as -> by (eapply C; [exact Hn|]; by rewrite Hf).
  assert (∀ a, a ∈ bargs n → a < u) as Ho by (intros a; by eapply arg_older). clear Hn.
  apply junction_iff. induction Hs as [|a args vs ws Ha _ IHs]; [done|].
  rewrite fmap_app, elem_of_app. cbn. rewrite elem_of_cons, IHs by (intros b Hb; apply Ho, elem_of_cons; by right).
  rewrite (IH a ltac:(apply Ho, elem_of_cons; by left) vs Ha). unfold junction. case_bool_decide as E; [tauto|].
  assert (e ≠ negb e) by (by destruct e). naive_solver.
Qed.

(** ** The worklists *)

Definition occurrences (ts : list PTRef) : nat := sum_list_with (λ t, store_size l ^ S t) ts.

Lemma store_size_node t n : bterms l !! t = Some n → 2 + length (bargs n) ≤ store_size l.
Proof.
  intros Hn. unfold store_size. apply list_elem_of_lookup_2 in Hn. induction (bterms l) as [|m ns IH]; [by apply elem_of_nil in Hn|].
  cbn [sum_list_with]. apply elem_of_cons in Hn as [->|Hn]; [lia|]. specialize (IH Hn). lia.
Qed.

Lemma occurrences_args t n ts : bterms l !! t = Some n → (∀ a, a ∈ ts → a < t) → length ts ≤ length (bargs n) →
  occurrences ts < store_size l ^ S t.
Proof.
  intros Hn Ho Hl. pose proof (store_size_node t n Hn) as Hm.
  assert (occurrences ts ≤ length ts * store_size l ^ t) as Hle.
  { clear Hl. unfold occurrences. induction ts as [|a ts IH]; [done|]. cbn [sum_list_with length].
    assert (store_size l ^ S a ≤ store_size l ^ t) by (apply Nat.pow_le_mono_r; [lia|]; apply Ho, elem_of_cons; by left).
    specialize (IH (λ b Hb, Ho b ltac:(apply elem_of_cons; by right))). lia. }
  rewrite Nat.pow_succ_r'. assert (0 < store_size l ^ t) by (apply Nat.neq_0_lt_0, Nat.pow_nonzero; lia). nia.
Qed.

Lemma occurrences_app ts us : occurrences (ts ++ us) = occurrences ts + occurrences us.
Proof. apply sum_list_with_app. Qed.

Lemma tree_fuel_enough t n : bterms l !! t = Some n → occurrences [t] < 2 ^ tree_fuel l t.
Proof.
  intros Hn. unfold occurrences, tree_fuel. cbn [sum_list_with]. rewrite Nat.add_0_r, Nat.mul_comm, Nat.pow_mul_r.
  pose proof (store_size_node t n Hn). apply Nat.pow_lt_mono_l; [lia|]. by apply fuel_for_enough.
Qed.

Definition literal t : Prop := isLiteral l t = Ok true.

(** The invariant of the worklists: the root is a tree if the terms waiting are. *)
Definition list_ok (L : PTRef → Prop) (f : BSym) (root : PTRef) (ts : list PTRef) : Prop :=
  Forall (λ t, t < length (bterms l)) ts ∧ ((∀ t, t ∈ ts → tree f L t) → tree f L root).

Lemma isOr_ok t n : bterms l !! t = Some n → isOr l t = Ok (bool_decide (bsymb n = sym_OR)).
Proof. apply test_eq. Qed.
Lemma isAnd_ok t n : bterms l !! t = Some n → isAnd l t = Ok (bool_decide (bsymb n = sym_AND)).
Proof. apply test_eq. Qed.

(** The inner loop of a round, with the test for leaves. *)
Lemma push_subtrees f (test : PTRef → res bool) (leafb : PTRef → res bool) (L : PTRef → Prop) args ts0 :
  Forall (λ a, a < length (bterms l)) args →
  (∀ a n, bterms l !! a = Some n → test a = Ok (bool_decide (bsymb n = f))) →
  (∀ a, a < length (bterms l) → ∃ b : bool, leafb a = Ok b ∧ (b = true → L a)) →
  ∃ r, foldM (λ st t, match st with
        | None => Ok None
        | Some to_process =>
            let! o := test t in
            if (o : bool) then Ok (Some (t :: to_process))
            else let! b := leafb t in Ok (if (b : bool) then Some to_process else None)
        end) (Some ts0) args = Ok r ∧
    (∀ ts, r = Some ts → ∃ us, ts = us ++ ts0 ∧ us ⊆ args ∧ length us ≤ length args ∧
      Forall (λ u, ∃ n, bterms l !! u = Some n ∧ bsymb n = f) us ∧
      ((∀ u, u ∈ us → tree f L u) → ∀ a, a ∈ args → tree f L a)).
Proof.
  intros Hv Ht Hl. revert ts0. induction Hv as [|a args Ha _ IH]; intros ts0.
  { exists (Some ts0). split; [done|]. intros ts [= <-]. exists []. split; [done|]. split; [done|]. split; [done|].
    split; [constructor|]. by intros _ a ?%elem_of_nil. }
  destruct (valid_node a Ha) as [n Hn]. cbn [foldM]. rewrite (Ht a n Hn). cbn [rbind]. case_bool_decide as Ef.
  - cbn [rbind]. destruct (IH (a :: ts0)) as (r & -> & Hr). exists r. split; [done|]. intros ts E.
    destruct (Hr ts E) as (us & -> & Hsub & Hlen & Hf & Htree). exists (us ++ [a]). rewrite <- app_assoc. split; [done|].
    split; [set_solver|]. split; [rewrite length_app; cbn; lia|]. split; [apply Forall_app; split; [done|]; constructor; [by exists n|constructor]|].
    intros Hall b [-> |Hb]%elem_of_cons; [apply Hall; set_solver|]. apply Htree; [|done]. intros u Hu. apply Hall. set_solver.
  - destruct (Hl a Ha) as (b & -> & Hb). cbn [rbind]. destruct b.
    + destruct (IH ts0) as (r & -> & Hr). exists r. split; [done|]. intros ts E.
      destruct (Hr ts E) as (us & -> & Hsub & Hlen & Hf & Htree). exists us. split; [done|].
      split; [set_solver|]. split; [cbn; lia|]. split; [done|].
      intros Hall c [-> |Hc]%elem_of_cons; [exists [a]; constructor; by apply Hb|]. by apply Htree.
    + exists None. split; [|done]. clear IH Ht Hl. induction args as [|c args IH]; done.
Qed.

Definition round_ok f L root ts : Prop :=
  list_ok L f root ts ∧ Forall (λ u, ∃ n, bterms l !! u = Some n ∧ bsymb n = f) ts.

Lemma round_done f L root ts e n us : round_ok f L root (e :: ts) → bterms l !! e = Some n → us ⊆ bargs n →
  length us ≤ length (bargs n) → Forall (λ u, ∃ n, bterms l !! u = Some n ∧ bsymb n = f) us →
  ((∀ u, u ∈ us → tree f L u) → ∀ a, a ∈ bargs n → tree f L a) →
  round_ok f L root (us ++ ts) ∧ occurrences (us ++ ts) < occurrences (e :: ts).
Proof.
  intros [[Hv Hr] Hf] Hn Hsub Hlen Hus Htree. apply Forall_cons in Hv as [Hve Hv]. apply Forall_cons in Hf as [(n' & Hn' & Ef) Hf].
  rewrite Hn in Hn'. injection Hn' as <-. split.
  - split; [split|by apply Forall_app].
    + apply Forall_app. split; [|done]. apply Forall_forall. intros u Hu. pose proof (arg_older e n u Hn (Hsub u Hu)). lia.
    + intros Hall. apply Hr. intros t [-> |Ht]%elem_of_cons; [|apply Hall; set_solver].
      eapply tree_node; [done|done|]. apply Htree. intros u Hu. apply Hall. set_solver.
  - rewrite occurrences_app. pose proof (occurrences_args e n us Hn (λ a Ha, arg_older e n a Hn (Hsub a Ha)) Hlen).
    change (occurrences (e :: ts)) with (store_size l ^ S e + occurrences ts). lia.
Qed.

Lemma valid_args e n : bterms l !! e = Some n → Forall (λ a, a < length (bterms l)) (bargs n).
Proof.
  intros Hn. apply Forall_forall. intros a Ha. pose proof (arg_older e n a Hn Ha). apply lookup_lt_Some in Hn. lia.
Qed.

Lemma isClause_ok e : e < length (bterms l) →
  ∃ b, isClause l e = Ok b ∧ (b = true → tree sym_OR literal e).
Proof.
  intros He. unfold isClause. destruct (isLiteral_ok e He) as (b & Eb & _). rewrite Eb. cbn [rbind].
  destruct b; [exists true; split; [done|]; intros _; exists [e]; by constructor|].
  destruct (valid_node e He) as [n Hn]. rewrite (isOr_ok e n Hn). cbn [rbind]. case_bool_decide as Eo; cbn [negb]; [|by exists false].
  apply wp_total. apply (while_wp _ _ (round_ok sym_OR literal e) occurrences).
  - intros ts Hr. destruct ts as [|u ts]; [cbn; intros _; by apply Hr; intros ? ?%elem_of_nil|]. cbn [clause_round].
    pose proof (proj2 Hr) as Hf. apply Forall_cons in Hf as [(m & Hm & Em) _]. rewrite (at_bterms _ _ _ Hm). cbn [rbind].
    destruct (push_subtrees sym_OR (isOr l) (isLiteral l) literal (bargs m) ts) as (r & -> & Hr').
    + by eapply valid_args.
    + apply isOr_ok.
    + intros a Ha. destruct (isLiteral_ok a Ha) as (b & E & _). exists b. split; [done|]. by intros ->.
    + cbn [rbind wp]. destruct r as [us|]; [|done]. destruct (Hr' us eq_refl) as (vs & -> & H1 & H2 & H3 & H4). by eapply round_done.
  - split; [split|].
    + by constructor.
    + intros Hall. apply Hall, list_elem_of_singleton. done.
    + constructor; [by exists n|constructor].
  - by eapply tree_fuel_enough.
Qed.

Definition clause t : Prop := isClause l t = Ok true.

(** [isCnf]: a tree of conjunctions over clauses. *)
Lemma isCnf_ok e : e < length (bterms l) → ∃ b, isCnf l e = Ok b ∧ (b = true → tree sym_AND clause e).
Proof.
  intros He. unfold isCnf, isConjunctionOfClauses. destruct (isClause_ok e He) as (b & Eb & _). rewrite Eb. cbn [rbind].
  destruct b; [exists true; split; [done|]; intros _; exists [e]; by constructor|].
  destruct (valid_node e He) as [n Hn]. rewrite (isAnd_ok e n Hn). cbn [rbind]. case_bool_decide as Eo; cbn [negb]; [|by exists false].
  apply wp_total. apply (while_wp _ _ (round_ok sym_AND clause e) occurrences).
  - intros ts Hr. destruct ts as [|u ts]; [cbn; intros _; by apply Hr; intros ? ?%elem_of_nil|]. cbn [conjunction_round].
    pose proof (proj2 Hr) as Hf. apply Forall_cons in Hf as [(m & Hm & Em) _]. rewrite (at_bterms _ _ _ Hm). cbn [rbind].
    destruct (push_subtrees sym_AND (isAnd l) (isClause l) clause (bargs m) ts) as (r & -> & Hr').
    + by eapply valid_args.
    + apply isAnd_ok.
    + intros a Ha. destruct (isClause_ok a Ha) as (b & E & _). exists b. split; [done|]. by intros ->.
    + cbn [rbind wp]. destruct r as [us|]; [|done]. destruct (Hr' us eq_refl) as (vs & -> & H1 & H2 & H3 & H4). by eapply round_done.
  - split; [split|].
    + by constructor.
    + intros Hall. apply Hall, list_elem_of_singleton. done.
    + constructor; [by exists n|constructor].
  - by eapply tree_fuel_enough.
Qed.

Lemma checkPureConj_ok e : e < length (bterms l) →
  ∃ b keys, checkPureConj l e [] = Ok (b, keys) ∧ (b = true → sym_at l e sym_AND ∧ tree sym_AND literal e).
Proof.
  intros He. unfold checkPureConj. rewrite bool_decide_false by apply not_elem_of_nil.
  destruct (valid_node e He) as [[f args] Hn]. rewrite (isAnd_ok e _ Hn). cbn [rbind bsymb]. case_bool_decide as Eo; cbn [negb]; [|by exists false, []].
  subst f. assert (wp no_error (λ r : bool * list PTRef, r.1 = true → tree sym_AND literal e)
    (while (tree_fuel l e) (pure_round l) ([e], []))) as Hw.
  - apply (while_wp _ _ (λ st : list PTRef * list PTRef, list_ok literal sym_AND e st.1) (λ st, occurrences st.1)).
    + intros [ts keys] [Hv Hr]. cbn [fst snd] in *. unfold pure_round. cbn [fst snd].
      destruct ts as [|u ts]; [cbn; intros _; by apply Hr; intros ? ?%elem_of_nil|]. apply Forall_cons in Hv as [Hu Hv].
      destruct (valid_node u Hu) as [m Hm]. rewrite (at_bterms _ _ _ Hm), (isAnd_ok u m Hm). cbn [rbind]. case_bool_decide as Ea.
      * cbn [wp fst]. split; [split|].
        -- apply Forall_app. split; [|done]. apply Forall_reverse. by eapply valid_args.
        -- intros Hall. apply Hr. intros t [-> |Ht]%elem_of_cons; [|apply Hall, elem_of_app; by right].
           eapply tree_node; [done|done|]. intros a Ha. apply Hall, elem_of_app. left. by rewrite reverse_Permutation.
        -- rewrite occurrences_app. pose proof (occurrences_args u m (reverse (bargs m)) Hm) as Hlt.
           change (occurrences (u :: ts)) with (store_size l ^ S u + occurrences ts). rewrite length_reverse in Hlt.
           assert (∀ a, a ∈ reverse (bargs m) → a < u) as Ho by (intros a Ha; rewrite reverse_Permutation in Ha; by eapply arg_older).
           specialize (Hlt Ho (le_n _)). lia.
      * destruct (isLiteral_ok u Hu) as (b & Eb & _). rewrite Eb. cbn [rbind wp]. destruct b; [|done]. split; [split|].
        -- done.
        -- intros Hall. apply Hr. intros t [-> |Ht]%elem_of_cons; [exists [u]; by constructor|by apply Hall].
        -- cbn [fst]. change (occurrences (u :: ts)) with (store_size l ^ S u + occurrences ts).
           pose proof (store_size_node u m Hm). pose proof (Nat.pow_nonzero (store_size l) (S u)). lia.
    + split; [by constructor|]. intros Hall. apply Hall. cbn. by apply list_elem_of_singleton.
    + by eapply tree_fuel_enough.
  - apply wp_total in Hw as ([b keys] & -> & Hb). exists b, keys. split; [done|]. intros E. split; [by exists args|by apply Hb].
Qed.

Lemma checkDeMorgan_ok e : e < length (bterms l) → ∃ b, checkDeMorgan l e = Ok b ∧
  (b = true → ∃ x ts, bterms l !! e = Some (MkBNode sym_NOT [x]) ∧ is_bool l e ∧ sym_at l x sym_AND ∧ flat sym_AND literal x ts).
Proof.
  intros He. destruct (valid_node e He) as [[f args] Hn]. unfold checkDeMorgan, isNot. rewrite (test_eq _ _ _ _ Hn). cbn [rbind bsymb].
  case_bool_decide as Ef; [|by exists false]. subst f. destruct (not_node l W e args Hn) as (x & -> & _ & _ & Hlt).
  unfold barg. rewrite (at_bterms _ _ _ Hn). cbn. destruct (checkPureConj_ok x) as (b & keys & -> & Hb); [lia|]. cbn.
  exists b. split; [done|]. intros E. destruct (Hb E) as [Hx [ts Hts]]. exists x, ts. split; [done|]. split; [by eexists|done].
Qed.

(** ** Retrieving the literals *)

Lemma retrieveClause_from_ok fuel : ∀ t ts acc, t < fuel → t < length (bterms l) → flat sym_OR literal t ts →
  retrieveClause_from l fuel t acc = Ok (acc ++ ts).
Proof.
  induction fuel as [|fuel IH]; intros t ts acc Hf Ht Hfl; [lia|]. cbn [retrieveClause_from].
  destruct (valid_node t Ht) as [m Hm]. rewrite (isOr_ok t m Hm). destruct Hfl as [t Hl|t n ts Hn Es Hs].
  - rewrite Hl. done.
  - rewrite Hm in Hn. injection Hn as <-. destruct (isLiteral_ok t Ht) as (b & Eb & Hb). rewrite Eb. cbn [rbind].
    rewrite bool_decide_true by done. destruct b.
    { destruct (Hb eq_refl) as (_ & _ & Hno & _). destruct Hno. exists (bargs m). rewrite Hm. destruct m. cbn in Es. by rewrite Es. }
    cbn [orb check rbind]. rewrite (at_bterms _ _ _ Hm). cbn [rbind].
    assert (∀ a, a ∈ bargs m → a < t) as Ho by (intros a; by eapply arg_older). clear Hm Eb Hb Es.
    revert acc. induction Hs as [|a args us vs Ha _ IHs]; intros acc; [cbn; by rewrite app_nil_r|]. cbn [foldM].
    assert (a < t) by (apply Ho, elem_of_cons; by left). rewrite (IH a us acc) by (done || lia). cbn [rbind].
    rewrite IHs by (intros b Hb; apply Ho, elem_of_cons; by right). by rewrite app_assoc.
Qed.

Lemma retrieveConjuncts_from_ok fuel : ∀ t ts acc, t < fuel → t < length (bterms l) → flat sym_AND literal t ts →
  retrieveConjuncts_from l fuel t acc = Ok (acc ++ ts).
Proof.
  induction fuel as [|fuel IH]; intros t ts acc Hf Ht Hfl; [lia|]. cbn [retrieveConjuncts_from].
  destruct (valid_node t Ht) as [m Hm]. rewrite (isAnd_ok t m Hm). destruct Hfl as [t Hl|t n ts Hn Es Hs].
  - rewrite Hl. done.
  - rewrite Hm in Hn. injection Hn as <-. destruct (isLiteral_ok t Ht) as (b & Eb & Hb). rewrite Eb. cbn [rbind].
    rewrite bool_decide_true by done. destruct b.
    { destruct (Hb eq_refl) as (_ & _ & _ & Hno). destruct Hno. exists (bargs m). rewrite Hm. destruct m. cbn in Es. by rewrite Es. }
    cbn [orb check rbind]. rewrite (at_bterms _ _ _ Hm). cbn [rbind].
    assert (∀ a, a ∈ bargs m → a < t) as Ho by (intros a; by eapply arg_older). clear Hm Eb Hb Es.
    revert acc. induction Hs as [|a args us vs Ha _ IHs]; intros acc; [cbn; by rewrite app_nil_r|]. cbn [foldM].
    assert (a < t) by (apply Ho, elem_of_cons; by left). rewrite (IH a us acc) by (done || lia). cbn [rbind].
    rewrite IHs by (intros b Hb; apply Ho, elem_of_cons; by right). by rewrite app_assoc.
Qed.

Lemma literal_bool t : t < length (bterms l) → literal t → is_bool l t ∧ leaf l (purify l t).1.
Proof.
  intros Ht Hl. destruct (isLiteral_ok t Ht) as (b & Eb & Hb). unfold literal in Hl. rewrite Eb in Hl. injection Hl as ->.
  destruct (Hb eq_refl) as (? & ? & _). done.
Qed.

Lemma flat_valid f t ts : flat f literal t ts → t < length (bterms l) → Forall (λ u, is_bool l u ∧ leaf l (purify l u).1) ts.
Proof.
  revert ts. induction (lt_wf t) as [t _ IH]. intros ts Hfl. revert IH. destruct Hfl as [u Hu|u n us Hn Hf Hs]; intros IH Ht;
    [constructor; [by apply literal_bool|constructor]|].
  assert (∀ a, a ∈ bargs n → a < u) as Ho by (intros a; by eapply arg_older). clear Hn.
  induction Hs as [|a args vs ws Ha _ IHs]; [constructor|]. assert (a < u) by (apply Ho, elem_of_cons; by left). apply Forall_app. split.
  - apply (IH a); [done|done|lia].
  - apply IHs. intros b Hb. apply Ho, elem_of_cons. by right.
Qed.

End shapes.

(** * Conversion to clauses: asserting

    A conjunct that is a clause, the negation of a conjunction of literals, or
    any other term is [secured] once it is asserted: an assignment that satisfies
    the clauses and enables the frame makes it true. *)

Section assert.
Context {S : Type} `{SatSolverLaws S}.
Implicit Types (s : Cnfizer S) (l : BLogic) (m : TermMapper) (t f : PTRef) (σ : Var → bool) (ρ : PTRef → bool) (n : BNode).
Context (D : list (PTRef * PTRef)).

(** ** The literal of a cnfized term has its value *)

Lemma leaf_value l m t p ρ σ : store_ok l → is_bool l t → leaf l (purify l t).1 → lit_at l m t p → consistent l ρ → agrees l m ρ σ →
  lit_value σ p = ρ t.
Proof.
  intros W Hb Hl (v & Hv & ->) C A. destruct (purify_spec l W t Hb) as (_ & _ & Hρ & _).
  by rewrite lit_value_mkLit, (A _ _ Hv Hl), <- Hρ.
Qed.

Lemma leaf_values l m ts ps ρ σ : store_ok l → Forall (λ u, is_bool l u ∧ leaf l (purify l u).1) ts → Forall2 (lit_at l m) ts ps →
  consistent l ρ → agrees l m ρ σ → lit_value σ <$> ps = ρ <$> ts.
Proof.
  intros W Hts Hps C A. induction Hps as [|t p ts ps Hp _ IH]; [done|]. apply Forall_cons in Hts as [[Hb Hl] Hts]. cbn.
  by rewrite (leaf_value l m t p ρ σ), IH.
Qed.

Lemma contained_cache s t fr : cnf_inv [] D s → contained s t fr ↔
  ∃ fr', (t, fr') ∈ cache (alreadyCnfized s) ∧ (fr' = fr ∨ fr' = term_TRUE (c_logic s)).
Proof.
  intros I. unfold contained, Cache_contains. rewrite (ci_zero1 _ _ _ I), orb_true_iff, andb_true_iff, !bool_decide_eq_true, negb_true_iff, Nat.eqb_neq.
  split; [naive_solver|]. intros (fr' & Hin & [-> | ->]); [by left|]. destruct (decide (fr = term_TRUE (c_logic s))) as [->|]; auto.
Qed.

Lemma contained_value s fr σ ρ t : cnf_inv [] D s → sat_models (solver s) σ → frame_on (c_logic s) (tmap s) σ fr →
  consistent (c_logic s) ρ → agrees (c_logic s) (tmap s) ρ σ →
  contained s t fr → ∀ p, is_bool (c_logic s) t → lit_at (c_logic s) (tmap s) t p → lit_value σ p = ρ t.
Proof.
  intros I M F C A. pose proof (ci_store _ _ _ I) as W. induction (lt_wf t) as [t _ IH]. intros Hc p Hb Hp.
  apply (contained_cache s t fr I) in Hc as (fr' & Hin & Hfr). destruct (ci_cnfized _ _ _ I t fr' Hin) as (_ & n & Hn & Hd & Hk).
  assert (frame_on (c_logic s) (tmap s) σ fr') as F' by (destruct Hfr as [-> | ->]; [done|by left]).
  assert (∀ a, has_definition (bsymb n) = true ∨ bsymb n = sym_NOT → a ∈ bargs n → contained s a fr) as Hargs.
  { intros a Hs Ha. destruct (Hk Hs a Ha) as [Hca|[_ ?%elem_of_nil]]; [|done].
    apply (contained_cache s a fr' I) in Hca as (fr2 & Hin2 & Hfr2). apply (contained_cache s a fr I). exists fr2. split; [done|].
    destruct Hfr2 as [-> | ->]; [done|by right]. }
  pose proof (no_older _ _ _ (so_node _ W _ _ Hn)) as Ho. destruct (has_definition (bsymb n)) eqn:Hh.
  - destruct (Hd Hh) as (p' & ps & Hp' & Hps & Hv). rewrite (lit_at_fun _ _ _ _ _ Hp Hp'). symmetry.
    eapply C; [exact Hn|]. rewrite <- (Hv σ M F'). f_equal. destruct (definition_bools _ _ _ W Hn Hh) as [_ Hbs].
    specialize (Hargs) as Hca. clear Hn Hd Hk Hv Hargs. induction Hps as [|a q args ps Hq _ IHps]; [done|].
    apply Forall_cons in Ho as [Ha Ho]. apply Forall_cons in Hbs as [Hba Hbs]. cbn. f_equal.
    + symmetry. apply (IH a Ha); try done. apply Hca; [by left|]. apply elem_of_cons. by left.
    + apply IHps; try done. intros b Hs Hb'. apply Hca; [done|]. apply elem_of_cons. by right.
  - destruct n as [f ts]. cbn in Hh, Hargs, Ho. destruct (decide (f = sym_NOT)) as [->|Hne].
    + destruct (not_node _ W t ts Hn) as (a & -> & (na & Hna & N1 & _) & Hba & Hlt). destruct Hp as (v & Hv & ->).
      assert (purify (c_logic s) t = (a, true)) as Ep by (unfold purify; by rewrite Hn). rewrite Ep in *. cbn [fst snd] in *.
      assert (purify (c_logic s) a = (a, false)) as Ea.
      { apply purify_positive; [done|]. intros [us Hus]. rewrite Hna in Hus. by injection Hus as ->. }
      assert (lit_value σ (mkLit v false) = ρ a) as Hva.
      { apply (IH a Hlt); [apply Hargs; [by right|by apply list_elem_of_singleton]|done|]. exists v. by rewrite Ea. }
      rewrite lit_value_mkLit in *. rewrite xorb_false_r in Hva. by rewrite (not_value _ _ _ _ C Hn), Hva, xorb_true_r.
    + apply (leaf_value (c_logic s) (tmap s)); try done. rewrite purify_positive; [|done|intros [us Hus]; congruence].
      exists (MkBNode f ts). split; [done|]. cbn. destruct f; try done; auto.
Qed.

(** ** What asserting leaves as it is *)

Record cnf_kept s s' : Prop := {
  ck_le : cnf_le s s';
  ck_logic : c_logic s' = c_logic s;
  ck_frames : frame_terms s' = frame_terms s;
  ck_current : current_frame_term s' = current_frame_term s;
}.

#[export] Instance cnf_kept_preorder : PreOrder cnf_kept.
Proof.
  split; [by intros s; constructor|]. intros s1 s2 s3 [A1 A2 A3 A4] [B1 B2 B3 B4].
  constructor; try congruence. by etrans.
Qed.

Lemma step_kept Q s s' : cnf_step Q D s s' → cnf_kept s s'.
Proof. by intros [A1 A2 A3 A4 A5 A6 A7]. Qed.
Lemma same_kept s s' : cnf_same s s' → cnf_kept s s'.
Proof. by intros [A1 A2 A3 A4 A5]. Qed.

Definition demanded s f : Prop := ∀ ρ, consistent (c_logic s) ρ → demands (c_logic s) ρ D →
  ¬ frame_off (c_logic s) ρ (current_frame_term s) → ρ f = true.

Definition asserted s f (r : bool * Cnfizer S) : Prop :=
  cnf_inv [] D r.2 ∧ cnf_kept s r.2 ∧ alreadyAsserted r.2 = alreadyAsserted s ∧ (r.1 = false → no_models r.2)
  ∧ secured r.2 f (current_frame_term s).

Lemma existsb_fmap {A B} (g : A → B) (h : B → bool) xs : existsb h (g <$> xs) = existsb (λ x, h (g x)) xs.
Proof. induction xs as [|x xs IH]; [done|]. cbn. by rewrite IH. Qed.

Lemma clause_flip σ e ps : clause_true σ (flip_lit e <$> ps) = existsb (xorb e) (lit_value σ <$> ps).
Proof.
  unfold clause_true. rewrite !existsb_fmap. induction ps as [|p ps IH]; [done|]. cbn. by rewrite IH, flip_value.
Qed.

(** A clause made of literals, or of their negations. *)
Lemma assert_literals s f ts (e : bool) : cnf_inv [] D s →
  Forall (λ u, is_bool (c_logic s) u ∧ leaf (c_logic s) (purify (c_logic s) u).1) ts →
  (∀ ρ, consistent (c_logic s) ρ → ρ f = existsb (xorb e) (ρ <$> ts)) → demanded s f →
  wp no_error (asserted s f) (let! r := literalsFor ts s in addClause (flip_lit e <$> r.1) r.2).
Proof.
  intros I Hts Hf Hd. apply wp_bind. eapply wp_mono.
  { apply (literalsFor_ok [] D s ts I). eapply Forall_impl; [exact Hts|]. by intros u [? _]. }
  intros [ps s1] [St Hps]. cbn [fst snd] in *. pose proof (st_inv _ _ _ _ St) as I1. pose proof (st_logic _ _ _ _ St) as El.
  pose proof (st_current _ _ _ _ St) as Ec. assert (Forall (is_bool (c_logic s)) ts) as Hbs by (eapply Forall_impl; [exact Hts|]; by intros u [? _]).
  eapply wp_mono; [apply (addClause_ok [] D s1 (flip_lit e <$> ps) I1)|].
  - apply Forall_fmap. clear -Hps I1. induction Hps as [|t p ts ps Hp _ IH]; [constructor|]. constructor; [|done].
    change (bound_var (tmap s1) (var (flip_lit e p))). rewrite flip_var. by eapply bound_lit; [apply I1|].
  - intros ρ σ C M Hdm Hon. rewrite El in *. rewrite Ec in Hon. rewrite clause_flip, (lits_match (c_logic s) (tmap s1) ts ps ρ σ); try done.
    + rewrite <- Hf by done. by apply Hd.
    + apply I.
  - intros [b s2] (St2 & Hadd & Hbad). cbn [fst snd] in *. split; [apply St2|]. split; [etrans; by eapply step_kept|].
    split; [cbn; by rewrite (st_asserted _ _ _ _ St2), (st_asserted _ _ _ _ St)|]. split; [done|].
    intros σ ρ M F C A. cbn in *. pose proof (st_logic _ _ _ _ St2) as El2. rewrite El2, El in C, A, F.
    rewrite (Hf ρ C), <- (leaf_values (c_logic s) (tmap s2) ts ps ρ σ (ci_store _ _ _ I) Hts), <- clause_flip; try done.
    + apply Hadd; [done|]. by rewrite El, Ec.
    + eapply Forall2_impl; [exact Hps|]. intros t p Hp. rewrite El in Hp. eapply lit_at_le; [|exact Hp]. apply (st_le _ _ _ _ St2).
Qed.

(** ** The three ways to assert a conjunct *)

Lemma literalsFor_one s f : literalsFor [f] s = let! r := getOrCreateLiteralFor f s in Ok ([r.1], r.2).
Proof. unfold literalsFor. cbn. by destruct (getOrCreateLiteralFor f s). Qed.

Lemma assertClause_ok s f : cnf_inv [] D s → is_bool (c_logic s) f → clause (c_logic s) f → demanded s f →
  wp no_error (asserted s f) (assertClause f s).
Proof.
  intros I Hb Hcl Hd. pose proof (ci_store _ _ _ I) as W. pose proof (bool_bound _ f Hb) as Hf.
  destruct (isClause_ok _ W f Hf) as (b & Eb & Ht). unfold clause in Hcl. rewrite Eb in Hcl. injection Hcl as ->. destruct (Ht eq_refl) as [ts Hts].
  assert (∀ us, flat (c_logic s) sym_OR (literal (c_logic s)) f us → wp no_error (asserted s f)
    (let! r := literalsFor us s in addClause r.1 r.2)) as Hassert.
  { intros us Hus. pose proof (assert_literals s f us false I) as Hw. cbn [flip_lit] in Hw.
    assert (∀ (m : res (list Lit * Cnfizer S)), (let! r := m in addClause ((λ q, q) <$> r.1) r.2) = let! r := m in addClause r.1 r.2) as E.
    { intros [r|e]; [|done]. cbn. by rewrite list_fmap_id. }
    change (CnfTseitin.flip_lit false) with (λ q : Lit, q) in Hw. rewrite E in Hw. apply Hw; [|..|done].
    - by eapply flat_valid.
    - intros ρ C. rewrite (flat_value _ W sym_OR true _ f us ρ C) by (done || (intros bs; apply (junction_op true))). symmetry. exact (existsb_junction (ρ <$> us)). }
  unfold assertClause. destruct (isLiteral_ok _ W f Hf) as (b & El & _). rewrite El. cbn [rbind]. destruct b.
  - specialize (Hassert [f]). rewrite literalsFor_one in Hassert. destruct (getOrCreateLiteralFor f s) as [r|e]; cbn in *; apply Hassert; by constructor.
  - destruct (valid_node _ f Hf) as [n Hn]. unfold isClause in Eb. rewrite El in Eb. cbn [rbind] in Eb. rewrite (isOr_ok _ f n Hn) in Eb |- *.
    cbn [rbind] in *. case_bool_decide; [|done]. unfold retrieveClause.
    rewrite (retrieveClause_from_ok _ W _ f ts []) by (done || lia). by apply Hassert.
Qed.

Lemma deMorganize_ok s f : cnf_inv [] D s → is_bool (c_logic s) f → checkDeMorgan (c_logic s) f = Ok true → demanded s f →
  wp no_error (asserted s f) (deMorganize f s).
Proof.
  intros I Hb Hc Hd. pose proof (ci_store _ _ _ I) as W. pose proof (bool_bound _ f Hb) as Hf.
  destruct (checkDeMorgan_ok _ W f Hf) as (b & Eb & Ht). rewrite Eb in Hc. injection Hc as ->.
  destruct (Ht eq_refl) as (x & ts & Hn & _ & [us Hx] & Hts). unfold deMorganize, isNot.
  rewrite (isAnd_ok _ f _ Hn), (test_eq _ _ _ _ Hn). cbn [rbind bsymb check negb bool_decide]. rewrite !bool_decide_false, bool_decide_true by done.
  cbn [negb check rbind]. unfold barg. rewrite (at_bterms _ _ _ Hn). cbn [rbind bargs].
  change (at_ [x] 0) with (Ok x). cbn [rbind]. rewrite (isAnd_ok _ x _ Hx). cbn [rbind bsymb]. rewrite bool_decide_true by done. unfold retrieveConjuncts.
  assert (x < length (bterms (c_logic s))) as Hxv by (by eapply lookup_lt_Some).
  rewrite (retrieveConjuncts_from_ok _ W _ x ts []) by (done || lia). cbn [app rbind].
  apply (assert_literals s f ts true I); [by eapply flat_valid| |done].
  intros ρ C. rewrite (not_value _ _ _ _ C Hn), (flat_value _ W sym_AND false _ x ts ρ C) by (done || (intros bs; apply (junction_op false))).
  rewrite <- forallb_junction. clear. induction ts as [|t ts IH]; [done|]. cbn. rewrite <- IH. unfold id. by destruct (ρ t).
Qed.

Lemma cnfizeAndAssert_ok s f : cnf_inv [] D s → is_bool (c_logic s) f → ¬ sym_at (c_logic s) f sym_AND → demanded s f →
  wp no_error (asserted s f) (cnfizeAndAssert f s).
Proof.
  intros I Hb Ha Hd. pose proof (ci_store _ _ _ I) as W. pose proof Hb as (n & Hn & _). unfold cnfizeAndAssert.
  rewrite (isAnd_ok _ f n Hn). cbn [rbind]. rewrite bool_decide_false; [|intros E; apply Ha; exists (bargs n); rewrite Hn, <- E; by destruct n].
  cbn [negb check rbind]. apply wp_bind. eapply wp_mono; [by apply (getOrCreateLiteralFor_ok [] D s f I)|].
  intros [p s1] (St & Hp & _). cbn [fst snd] in *. pose proof (st_inv _ _ _ _ St) as I1. pose proof (st_logic _ _ _ _ St) as El.
  pose proof (st_current _ _ _ _ St) as Ec. apply wp_bind. eapply wp_mono; [apply (addClause_ok [] D s1 [p] I1)|].
  - constructor; [|constructor]. by eapply bound_lit; [apply I1|].
  - intros ρ σ C M Hdm Hon. rewrite El in *. rewrite Ec in Hon. unfold clause_true. cbn.
    rewrite (lit_matches (c_logic s) (tmap s1) f p ρ σ), Hd by done. done.
  - intros [b s2] (St2 & Hadd & Hbad). cbn [fst snd] in *. pose proof (cnf_step_trans _ _ _ _ _ St St2) as St3.
    pose proof (st_logic _ _ _ _ St3) as El2. pose proof (st_current _ _ _ _ St3) as Ec2.
    apply wp_bind. eapply wp_mono; [apply (cnfize_ok D s2 f); [apply St3|]|].
    { rewrite El2. by eapply bool_bound. }
    intros [b' s3] (I3 & Hs & Hct & Hbad'). cbn [fst snd wp] in *. rewrite Ec2 in Hct. pose proof (sa_logic _ _ Hs) as El3.
    split; [done|]. split; [etrans; [by eapply step_kept|by apply same_kept]|]. cbn.
    split; [by rewrite (sa_asserted _ _ Hs), (st_asserted _ _ _ _ St3)|]. split.
    { intros [->|E]%andb_false_iff σ Hm; [|by eapply Hbad']. eapply Hbad; [done|]. by apply (cl_models _ _ (sa_le _ _ Hs)). }
    intros σ ρ M F C A. cbn in *. assert (lit_at (c_logic s3) (tmap s3) f p) as Hp3.
    { eapply (lit_at_mono (c_logic s1)); [|etrans; [apply (st_le _ _ _ _ St2)|apply (sa_le _ _ Hs)]|by rewrite El|done].
      etrans; [apply (st_le _ _ _ _ St2)|apply (sa_le _ _ Hs)]. }
    rewrite <- (contained_value s3 (current_frame_term s) σ ρ f I3 M F C A Hct p); [|by rewrite El3, El2|done].
    assert (clause_true σ [p] = true) as Hcl.
    { apply Hadd; [by apply (cl_models _ _ (sa_le _ _ Hs))|]. rewrite El, Ec. rewrite El3, El2 in F.
      eapply frame_on_mono; [reflexivity|apply (sa_le _ _ Hs)|done]. }
    unfold clause_true in Hcl. cbn in Hcl. by rewrite orb_false_r in Hcl.
Qed.

End assert.
