(* ===== verification/CnfSolve.v ===== *)
(** * Conversion to clauses: a formula in a frame

    [cnfizeAndGiveToSolver] makes the term of the frame, asserts the conjuncts
    of the formula in it and converts the formulas below the terms of theories.
    The file starts with [cnfizeAndGiveToSolver]; its second part is about the
    assumptions of [solve]. *)
From S2P Require Import Prelude NatSet SatLits Terms BoolTerms BoolFacts BoolConnectives BoolValues TermMapper TermVisitor Cnfizer CnfSpec.
From S2P Require Import CnfTseitin CnfAssert.
From stdpp Require Import gmap strings pretty sorting.
From Stdlib Require Import Lia.

#[local] Open Scope nat_scope.

Section give.
Context {S : Type} `{SatSolverLaws S}.
Implicit Types (s : Cnfizer S) (l : BLogic) (m : TermMapper) (t f : PTRef) (σ : Var → bool) (ρ : PTRef → bool) (n : BNode).

Section demands.
Context (D : list (PTRef * PTRef)).

Lemma kept_secured s s' f fr : cnf_kept s s' → secured s f fr → secured s' f fr.
Proof. intros Hk. apply secured_mono, Hk. Qed.

Lemma secured_everywhere s f fr : secured s f (term_TRUE (c_logic s)) → secured s f fr.
Proof. intros Hs σ ρ M _. apply Hs; [done|by left]. Qed.

Lemma cached_secured s f : cnf_inv [] D s → Cache_contains (alreadyAsserted s) f (current_frame_term s) = true →
  secured s f (current_frame_term s).
Proof.
  intros I. unfold Cache_contains. rewrite orb_true_iff, andb_true_iff, !bool_decide_eq_true, (ci_zero2 _ _ _ I).
  intros [Hin|[_ Hin]]; apply (ci_asserted _ _ _ I) in Hin as [_ Hs]; [done|]. by apply secured_everywhere.
Qed.

Lemma mark_asserted s f c : cnf_inv [] D s → secured s f (current_frame_term s) →
  Cache_insert f (current_frame_term s) (alreadyAsserted s) = Ok c → cnf_inv [] D (set_asserted c s) ∧ cnf_kept s (set_asserted c s).
Proof.
  intros I Hs Hc. unfold Cache_insert in Hc. destruct (negb _); [|done]. injection Hc as <-.
  destruct I as [I1 I2 I3 I4 I5 I6 I7 I8 I9 I10]. split; [|by constructor]. constructor; try done.
  intros g fr [[= -> ->]%elem_of_singleton|Hin]%elem_of_union; [done|]. by apply I9.
Qed.

Definition asserting s f (st : bool * Cnfizer S) : Prop :=
  cnf_inv [] D st.2 ∧ cnf_kept s st.2 ∧ (st.1 = false → no_models st.2) ∧ secured st.2 f (current_frame_term s).

Lemma assert_conjunct_ok s f : cnf_inv [] D s → is_bool (c_logic s) f → ¬ sym_at (c_logic s) f sym_AND → demanded D s f →
  wp no_error (asserting s f) (assert_conjunct (true, s) f).
Proof.
  intros I Hb Ha Hd. pose proof (ci_store _ _ _ I) as W. pose proof Hb as (n & Hn & _). pose proof (bool_bound _ f Hb) as Hf.
  unfold assert_conjunct. cbn [negb]. rewrite (isAnd_ok _ f n Hn). cbn [rbind]. rewrite bool_decide_false.
  2: { intros E. apply Ha. exists (bargs n). rewrite Hn, <- E. by destruct n. }
  cbn [negb check rbind]. destruct (Cache_contains (alreadyAsserted s) f (current_frame_term s)) eqn:Ec.
  { cbn. split; [done|]. split; [reflexivity|]. split; [done|]. by apply cached_secured. }
  destruct (isClause_ok _ W f Hf) as (c & Ecl & _). rewrite Ecl. cbn [rbind].
  apply wp_bind. apply wp_mono with (P := asserted D s f).
  - destruct c; [by apply assertClause_ok|]. destruct (checkDeMorgan_ok _ W f Hf) as (d & Ed & _). rewrite Ed. cbn [rbind].
    destruct d; [by apply deMorganize_ok|by apply cnfizeAndAssert_ok].
  - intros [b s1] (I1 & Hk & Es & Hbad & Hs). cbn [fst snd] in *. pose proof (ck_current _ _ Hk) as Ecur.
    assert (Cache_insert f (current_frame_term s1) (alreadyAsserted s1) =
      Ok (MkCache (zeroLevelTerm (alreadyAsserted s1)) ({[(f, current_frame_term s1)]} ∪ cache (alreadyAsserted s1)))) as Hins.
    { apply cache_insert_fresh. by rewrite Ecur, Es. }
    rewrite <- Ecur in Hs. destruct (mark_asserted s1 f _ I1 Hs Hins) as [I2 Hk2]. rewrite Hins. cbn [rbind wp].
    split; [done|]. split; [by etrans|]. split; [done|]. rewrite <- Ecur. by eapply kept_secured.
Qed.

Lemma demanded_kept s s' f : cnf_kept s s' → demanded D s f → demanded D s' f.
Proof. intros [_ El _ Ec] Hd ρ. rewrite El, Ec. apply Hd. Qed.

Lemma assert_conjuncts_ok s cs : cnf_inv [] D s →
  Forall (λ f, is_bool (c_logic s) f ∧ ¬ sym_at (c_logic s) f sym_AND ∧ demanded D s f) cs →
  wp no_error (λ st, cnf_inv [] D st.2 ∧ cnf_kept s st.2 ∧ (st.1 = false → no_models st.2)
    ∧ (st.1 = true → Forall (λ f, secured st.2 f (current_frame_term s)) cs)) (foldM assert_conjunct (true, s) cs).
Proof.
  intros I Hcs. apply (foldM_wp _ _ (λ pre post (st : bool * Cnfizer S), cnf_inv [] D st.2 ∧ cnf_kept s st.2 ∧ (st.1 = false → no_models st.2)
    ∧ (st.1 = true → Forall (λ f, secured st.2 f (current_frame_term s)) pre))).
  - cbn. split; [done|]. split; [reflexivity|]. split; [done|]. constructor.
  - intros pre f post [b s1] -> (I1 & Hk & Hbad & Hsec). cbn [fst snd] in *. destruct b.
    2: { cbn. split; [done|]. split; [done|]. by split. }
    apply Forall_app in Hcs as [_ Hcs]. apply Forall_cons in Hcs as [(Hb & Ha & Hd) _].
    eapply wp_mono; [apply assert_conjunct_ok; [done| | |]|].
    + by rewrite (ck_logic _ _ Hk).
    + by rewrite (ck_logic _ _ Hk).
    + by eapply demanded_kept.
    + intros [b s2] (I2 & Hk2 & Hbad2 & Hs2). cbn [fst snd] in *. split; [done|]. split; [by etrans|]. split; [done|].
      intros _. apply Forall_app. split; [|constructor; [|constructor]].
      * eapply Forall_impl; [by apply Hsec|]. intros g. by apply kept_secured.
      * by rewrite <- (ck_current _ _ Hk).
Qed.

(** ** The formulas below terms of theories *)

Lemma cnfize_all_ok s ts : cnf_inv [] D s → Forall (is_bool (c_logic s)) ts →
  wp no_error (λ st, cnf_inv [] D st.2 ∧ cnf_kept s st.2 ∧ (st.1 = false → no_models st.2)
      ∧ Forall (λ t, contained st.2 t (current_frame_term s)) ts)
    (foldM (λ st t, let! r := cnfize t st.2 in Ok (st.1 && r.1, r.2)) (true, s) ts).
Proof.
  intros I Hts. apply (foldM_wp _ _ (λ pre post (st : bool * Cnfizer S), cnf_inv [] D st.2 ∧ cnf_kept s st.2 ∧ (st.1 = false → no_models st.2)
      ∧ Forall (λ t, contained st.2 t (current_frame_term s)) pre)).
  - cbn. split; [done|]. split; [reflexivity|]. split; [done|]. constructor.
  - intros pre t post [b s1] -> (I1 & Hk & Hbad & Hc). cbn [fst snd] in *. apply Forall_app in Hts as [_ Hts].
    apply Forall_cons in Hts as [Ht _]. apply wp_bind. eapply wp_mono; [apply (cnfize_ok D s1 t I1)|].
    { rewrite (ck_logic _ _ Hk). by apply bool_bound. }
    intros [b' s2] (I2 & Hs & Hct & Hbad'). cbn [fst snd wp] in *. split; [done|]. split; [etrans; [done|by apply same_kept]|]. split.
    + intros [->|E]%andb_false_iff σ Hm; [|by eapply Hbad']. eapply Hbad; [done|]. by apply (cl_models _ _ (sa_le _ _ Hs)).
    + apply Forall_app. split; [|constructor; [|constructor]].
      * eapply Forall_impl; [exact Hc|]. intros u. apply contained_mono, Hs.
      * by rewrite <- (ck_current _ _ Hk).
Qed.

Lemma declareVars_ok s ts : cnf_inv [] D s → Forall (is_bool (c_logic s)) ts →
  wp no_error (λ s', cnf_step [] D s s' ∧ ∀ t, t ∈ ts → ∃ v, binds (tmap s') (purify (c_logic s) t).1 v) (declareVars ts s).
Proof.
  intros I Hts. apply (foldM_wp _ _ (λ pre post (s' : Cnfizer S), cnf_step [] D s s' ∧
    ∀ t, t ∈ pre → ∃ v, binds (tmap s') (purify (c_logic s) t).1 v)).
  - split; [by apply cnf_step_refl|]. by intros t ?%elem_of_nil.
  - intros pre t post s1 -> [St Hpre]. apply Forall_app in Hts as [_ Hts]. apply Forall_cons in Hts as [Ht _].
    pose proof (st_logic _ _ _ _ St) as El. apply wp_bind. eapply wp_mono; [apply (getOrCreateLiteralFor_ok [] D s1 t)|].
    { apply St. } { by rewrite El. }
    intros [p s2] (St2 & Hp & _). cbn [fst snd] in *. pose proof (st_inv _ _ _ _ St2) as I2. apply wp_bind.
    eapply wp_mono; [apply addVar_ok; [by eapply bound_lit; [apply I2|]|apply I2]|]. intros o (Ho & Hu). cbn [wp].
    assert (cnf_step [] D s2 (set_solver o s2)) as St3.
    { change (set_solver o s2) with (set_solver o (set_tmap (tmap s2) s2)). apply inv_update; try done; [apply I2|by intros σ ?%Ho|].
      intros ρ σ _ _ _ Hs. by apply Ho. }
    pose proof (st_logic _ _ _ _ St2) as El2. destruct Hp as (v & Hv & _). rewrite El2, El in Hv.
    split; [eapply cnf_step_trans; [done|by eapply cnf_step_trans]|]. intros u [Hin|Hin]%elem_of_app.
    + destruct (Hpre u Hin) as [w Hw]. exists w. cbn. by apply (cl_mapper _ _ (st_le _ _ _ _ St2)).
    + apply list_elem_of_singleton in Hin as ->. by exists v.
Qed.

End demands.

(** ** Opening a frame *)

Lemma cnf_mapper_mono l l' m : store_le l l' → mapper_ok l m → mapper_ok l' m.
Proof.
  intros Hle [M1 M2 M3 M4 M5]. constructor; try done. intros t v Hv. destruct (M5 t v Hv) as [(n & Hn & Hs) Hp].
  pose proof (le_node _ _ _ _ Hle Hn) as Hn'. split; [by exists n|]. intros [ts Ht]. apply Hp. exists ts. congruence.
Qed.

Lemma frame_node_mono l l' i f : store_le l l' → frame_node l i f → frame_node l' i f.
Proof. intros Hle [->|[? ?]]; [left; symmetry; apply (le_true _ _ Hle)|right; eauto using le_node]. Qed.

(** The logic may grow between the steps of the conversion. *)
Lemma inv_grow Q D s l' : cnf_inv Q D s → store_ok l' → store_le (c_logic s) l' →
  cnf_inv Q D (set_logic l' s) ∧ cnf_le s (set_logic l' s).
Proof.
  intros [I1 I2 I3 I4 I5 I6 I7 I8 I9 I10] W Hle. assert (cnf_le s (set_logic l' s)) as Hls by (by constructor).
  pose proof (le_true _ _ Hle) as Et. split; [|done]. constructor; try done; cbn.
  - by eapply cnf_mapper_mono.
  - by rewrite Et.
  - by rewrite Et.
  - split; [rewrite Et; apply I6|]. intros i f Hf. eapply frame_node_mono; [done|]. by apply I6.
  - intros t fr Hin. destruct (I8 t fr Hin) as (Hf & n & Hn & Hd & Hk). split; [done|]. exists n. split; [by eapply le_node|]. split.
    + eapply (cnf_defined_mono s); try done. intros Hh. by eapply definition_bools.
    + by eapply (children_mono s).
  - intros f fr Hin. destruct (I9 f fr Hin) as [? ?]. split; [done|]. by eapply (secured_mono s).
  - intros ρ σ C M Hd. apply (I10 ρ σ); [by eapply consistent_mono|done|]. intros f fr Hin.
    destruct (Hd f fr Hin) as [[? ?]|?]; [left|by right]. split; [by rewrite <- Et|done].
Qed.

Lemma inv_frames D s fs f : cnf_inv [] D s → frames_ok (c_logic s) fs → (∀ g, g ∈ frame_terms s → g ∈ fs) → f ∈ fs →
  cnf_inv [] D (set_frames fs f s).
Proof.
  intros [I1 I2 I3 I4 I5 I6 I7 I8 I9 I10] Hfs Hsub Hf. constructor; try done; cbn.
  - intros t fr Hin. destruct (I8 t fr Hin) as (Hfr & n & Hn & Hd & Hk). split; [by apply Hsub|]. exists n. split; [done|]. split; [done|].
    intros Hs a Ha. destruct (Hk Hs a Ha) as [?|[_ ?%elem_of_nil]]; [by left|done].
  - intros g fr Hin. destruct (I9 g fr Hin) as [? ?]. split; [by apply Hsub|done].
Qed.

Record opened D s (i : FrameId) s' : Prop := {
  op_inv : cnf_inv [] D s';
  op_le : cnf_le s s';
  op_solver : solver s' = solver s;
  op_tmap : tmap s' = tmap s;
  op_frames j f : frame_terms s !! j = Some f → f ≠ term_TRUE (c_logic s) → frame_terms s' !! j = Some f;
  op_current : frame_terms s' !! i = Some (current_frame_term s');
  op_bottom : current_frame_term s' = term_TRUE (c_logic s') → i = 0;
}.

Lemma setFrameTerm_ok D s i : cnf_inv [] D s → wp no_error (opened D s i) (setFrameTerm i s).
Proof.
  intros I. destruct (ci_frames _ _ _ I) as [F0 F1]. unfold setFrameTerm. set (fs := grow _ _ _).
  assert (∀ j, fs !! j = match frame_terms s !! j with Some f => Some f | None => if decide (j ≤ i) then Some (term_TRUE (c_logic s)) else None end)
    as Hfs by (intros j; unfold fs; rewrite grow_lookup; by destruct (frame_terms s !! j)).
  assert (frames_ok (c_logic s) fs) as Hok.
  { split; [by rewrite Hfs, F0|]. intros j f. rewrite Hfs. destruct (frame_terms s !! j) eqn:E; [intros [= <-]; by apply F1|].
    case_decide; [intros [= <-]; by left|done]. }
  assert (∀ g, g ∈ frame_terms s → g ∈ fs) as Hsub.
  { intros g [j Hj]%list_elem_of_lookup. apply list_elem_of_lookup. exists j. by rewrite Hfs, Hj. }
  destruct (fs !! i) as [f|] eqn:Hf.
  2: { rewrite Hfs in Hf. destruct (frame_terms s !! i); [done|]. by rewrite decide_True in Hf. }
  unfold at_. rewrite Hf. cbn [rbind]. destruct (negb (i =? 0) && (f =? term_TRUE (c_logic s))) eqn:Ei.
  - apply andb_true_iff in Ei as [Hi%negb_true_iff%Nat.eqb_neq ->%Nat.eqb_eq].
    destruct (mkBoolVar_ok (c_logic s) (frame_name i) (ci_store _ _ _ I)) as (t & l' & -> & W & Hle & Ht). cbn [rbind].
    assert (i < length fs) as Hlen by (by eapply lookup_lt_Some). unfold upd. rewrite (proj2 (Nat.ltb_lt _ _)) by done. cbn [rbind wp fst snd].
    destruct (inv_grow [] D s l' I W Hle) as [I' Hls]. pose proof (le_true _ _ Hle) as Et.
    assert (frames_ok l' (<[i:=t]> fs)) as Hok'.
    { split; [rewrite list_lookup_insert_ne by done; rewrite Et; apply Hok|]. intros j g. destruct (decide (j = i)) as [->|Hne].
      - rewrite list_lookup_insert_eq by done. intros [= <-]. right. split; [lia|done].
      - rewrite list_lookup_insert_ne by done. intros Hg. eapply frame_node_mono; [done|]. by apply Hok. }
    constructor; try done; cbn.
    + apply (inv_frames D (set_logic l' s)); [done|done| |].
      * intros g [j Hj]%Hsub%list_elem_of_lookup. apply list_elem_of_lookup. destruct (decide (j = i)) as [->|Hne].
        -- exists 0. rewrite list_lookup_insert_ne by done. rewrite Hf in Hj. injection Hj as <-. apply Hok.
        -- exists j. by rewrite list_lookup_insert_ne.
      * apply list_elem_of_lookup. exists i. by rewrite list_lookup_insert_eq.
    + intros j g Hj Hg. rewrite list_lookup_insert_ne; [by rewrite Hfs, Hj|]. intros <-. rewrite Hfs, Hj in Hf. by injection Hf as ->.
    + by rewrite list_lookup_insert_eq.
    + intros E. exfalso. rewrite E in Ht. by rewrite (so_true _ W) in Ht.
  - constructor; try done; cbn.
    + apply inv_frames; try done. by eapply list_elem_of_lookup_2.
    + intros j g Hj _. by rewrite Hfs, Hj.
    + intros ->. rewrite Nat.eqb_refl, andb_true_r in Ei. by apply negb_false_iff, Nat.eqb_eq in Ei.
Qed.

(** ** A formula *)

Lemma with_marks_ok l marks : store_ok l → nat_set.inv marks → store_ok (with_marks marks l) ∧ store_le l (with_marks marks l).
Proof.
  intros W Hm. assert (store_le l (with_marks marks l)) as Hle by (constructor; try done; exists []; by rewrite app_nil_r).
  split; [|done]. destruct W as [W1 W2 W3 W4 W5 W6 W7 W8 W9]. constructor; try done. intros t n Hn.
  eapply node_ok_mono; [done|]. by apply W1.
Qed.

Lemma reach_bool l fla t : store_ok l → is_bool l fla → reach l (is_and l) fla t → is_bool l t.
Proof.
  intros W Hb. induction 1 as [|u n a _ _ Ha Hn Hin]; [done|]. unfold is_and in Ha. rewrite Hn in Ha. apply bool_decide_eq_true in Ha.
  destruct (definition_bools l u n W Hn) as [_ Hbs]; [by rewrite Ha|]. exact (proj1 (Forall_forall _ _) Hbs a Hin).
Qed.

Lemma not_and l t : is_and l t = false → ¬ sym_at l t sym_AND.
Proof. unfold is_and. intros E [ts Ht]. by rewrite Ht in E. Qed.

Lemma inv_demand D d s : cnf_inv [] D s → cnf_inv [] (d :: D) s.
Proof.
  intros [I1 I2 I3 I4 I5 I6 I7 I8 I9 I10]. constructor; try done. intros ρ σ C M Hd. apply (I10 ρ σ C M).
  intros f fr Hin. apply Hd, elem_of_cons. by right.
Qed.

(** An assignment that matches a valuation. *)
Definition assignment m ρ (v : Var) : bool := match varToTerm m !! v with Some (Some t) => ρ t | _ => false end.
Lemma assignment_matches l m ρ : mapper_ok l m → matches m ρ (assignment m ρ).
Proof. intros M t v Hv%(tm_inverse _ _ M). unfold assignment. by rewrite Hv. Qed.

Definition unsatisfiable l D : Prop := ∀ ρ, consistent l ρ → ¬ demands l ρ D.

Lemma no_models_unsat D s : cnf_inv [] D s → no_models s → unsatisfiable (c_logic s) D.
Proof.
  intros I Hno ρ C Hd. apply (Hno (assignment (tmap s) ρ)). apply (ci_complete _ _ _ I ρ _ C); [|done].
  exact (assignment_matches _ _ ρ (ci_mapper _ _ _ I)).
Qed.

(** What is known when a formula has been given; [r.1] is false only when
    nothing is left that satisfies the clauses. *)
Record given D s f i (r : lbool * Cnfizer S) : Prop := {
  gv_inv : cnf_inv [] ((f, current_frame_term r.2) :: D) r.2;
  gv_le : cnf_le s r.2;
  gv_frames j g : frame_terms s !! j = Some g → g ≠ term_TRUE (c_logic s) → frame_terms r.2 !! j = Some g;
  gv_current : frame_terms r.2 !! i = Some (current_frame_term r.2);
  gv_bottom : current_frame_term r.2 = term_TRUE (c_logic r.2) → i = 0;
  gv_result : r.1 = l_Undef ∨ r.1 = l_False ∧ no_models r.2;
  gv_secured : secured r.2 f (current_frame_term r.2);
}.

(** The assertion fails only for formulas that contradict each other. *)
Definition given_error D s f i (e : error) : Prop := e = Assertion_failed ∧
  ∃ s', opened D s i s' ∧ unsatisfiable (c_logic s') ((f, current_frame_term s') :: D).

Lemma no_models_secured s f fr : no_models s → secured s f fr.
Proof. intros Hno σ ρ M. by destruct (Hno σ). Qed.

Lemma given_kept D s s1 s2 f i b : opened D s i s1 → cnf_inv [] ((f, current_frame_term s1) :: D) s2 → cnf_le s1 s2 →
  frame_terms s2 = frame_terms s1 → current_frame_term s2 = current_frame_term s1 →
  (b = l_Undef ∨ b = l_False ∧ no_models s2) → secured s2 f (current_frame_term s1) → given D s f i (b, s2).
Proof.
  intros [O1 O2 O3 O4 O5 O6 O7] I Hle Ef Ec Hb Hs. constructor; cbn; try rewrite Ec; try rewrite Ef; try done.
  - by etrans.
  - rewrite (le_true _ _ (cl_store _ _ Hle)). apply O7.
Qed.

Lemma cnfizeAndGiveToSolver_ok D s f i : cnf_inv [] D s → is_bool (c_logic s) f →
  wp (given_error D s f i) (given D s f i) (cnfizeAndGiveToSolver f i s).
Proof.
  intros I Hb. unfold cnfizeAndGiveToSolver. apply wp_bind. pose proof (setFrameTerm_ok D s i I) as Hw.
  apply wp_total in Hw as (s1 & -> & O). cbn [wp]. pose proof (op_inv _ _ _ _ O) as I0. pose proof (inv_demand D (f, current_frame_term s1) s1 I0) as I1.
  set (D' := (f, current_frame_term s1) :: D) in *. pose proof (ci_store _ _ _ I1) as W.
  assert (is_bool (c_logic s1) f) as Hb1 by (eapply is_bool_mono; [apply (op_le _ _ _ _ O)|done]).
  destruct (isOK (solver s1)) eqn:Eok; cbn [negb].
  2: { assert (no_models s1) as Hno.
    { pose proof (ci_usable _ _ _ I1) as [?|Hno]%usable_iff; [congruence|exact Hno]. }
    cbn. eapply given_kept; try done; [by right|]. by apply no_models_secured. }
  destruct (topLevelConjuncts_ok (c_logic s1) W f (bool_bound _ f Hb1)) as (cs & marks & -> & Hmarks & Hne & Hcs & Hval). cbn [rbind fst snd].
  destruct (with_marks_ok _ marks W Hmarks) as [W2 Hle]. rewrite bool_decide_true by done. cbn [check rbind].
  destruct (inv_grow [] D' s1 (with_marks marks (c_logic s1)) I1 W2 Hle) as [I2 Hls]. set (s2 := set_logic _ s1) in *.
  assert (Forall (λ c, is_bool (c_logic s2) c ∧ ¬ sym_at (c_logic s2) c sym_AND ∧ demanded D' s2 c) cs) as Hall.
  { apply Forall_forall. intros c Hc. destruct (Hcs c Hc) as [Ha Hr]. split; [|split].
    - eapply is_bool_mono; [exact Hle|]. by apply (reach_bool _ f).
    - apply (not_and (c_logic s1)), Ha.
    - intros ρ C Hd Hoff. assert (ρ f = true) as Hf; [|by apply (proj1 (Hval ρ C) Hf)].
      destruct (Hd f (current_frame_term s1)) as [?|?]; [apply elem_of_cons; by left|by destruct Hoff|done]. }
  apply wp_bind. pose proof (assert_conjuncts_ok D' s2 cs I2 Hall) as Hw. apply wp_total in Hw as ([b s3] & -> & I3 & Hk & Hbad & Hsec).
  cbn [wp fst snd] in *. assert (cnf_inv [] D' (set_nonempty s3) ∧ cnf_kept s3 (set_nonempty s3)) as [I4 Hk4].
  { split; [|by constructor]. destruct I3. by constructor. }
  set (s4 := set_nonempty s3) in *. assert (cnf_kept s2 s4) as Hk24 by (by etrans).
  destruct b; cbn [rbind].
  2: { cbn [wp]. eapply (given_kept D s s1 s4); try done; [etrans; [done|apply Hk24]|apply (ck_frames _ _ Hk24)|apply (ck_current _ _ Hk24)|..].
    - right. split; [done|]. intros σ Hm. by eapply Hbad.
    - apply no_models_secured. by apply Hbad. }
  assert (secured s4 f (current_frame_term s1)) as Hsf.
  { intros σ ρ M F C A. apply (Hval ρ).
    - rewrite (ck_logic _ _ Hk24) in C. exact C.
    - intros c Hc. pose proof (proj1 (Forall_forall _ _) (Hsec eq_refl) c Hc) as Hs. by apply (Hs σ ρ). }
  rewrite (ck_logic _ _ Hk24). change (c_logic s2) with (with_marks marks (c_logic s1)).
  destruct (getNestedBoolRoots_ok _ W2 f) as (roots & -> & Hroots); [by apply (bool_bound _ f Hb1)|]. cbn [rbind].
  apply wp_bind, wp_bind. pose proof (cnfize_all_ok D' s4 roots I4) as Hw.
  apply wp_total in Hw as ([q s5] & -> & I5 & Hk5 & Hbad5 & _).
  2: { apply Forall_forall. intros t Ht. rewrite (ck_logic _ _ Hk24). by apply Hroots. }
  cbn [wp fst snd] in *. destruct q; cbn [check rbind].
  2: { cbn. split; [done|]. exists s1. split; [done|]. apply (no_models_unsat D' s5) in I5 as Hu; [|by apply Hbad5].
    rewrite (ck_logic _ _ Hk5), (ck_logic _ _ Hk24) in Hu. exact Hu. }
  pose proof (declareVars_ok D' s5 (propFormulasAppearingInUF (c_logic s5)) I5 (so_uf _ (ci_store _ _ _ I5))) as Hw.
  apply wp_total in Hw as (s6 & -> & St & _). cbn [wp]. pose proof (step_kept _ _ _ _ St) as Hk6.
  assert (cnf_kept s2 s6) as Hk26 by (etrans; [done|by etrans]).
  eapply (given_kept D s s1 s6); try done; [apply St|etrans; [done|apply Hk26]|apply (ck_frames _ _ Hk26)|apply (ck_current _ _ Hk26)|by left|].
  eapply kept_secured; [exact Hk6|]. by eapply kept_secured.
Qed.

End give.

(** * Conversion to clauses: the assumptions

    [solve] turns frames on and off by assumptions.  An assignment that
    satisfies the clauses and the assumptions is a valuation of the terms that
    makes the formulas of the enabled frames true, and the other way round. *)

Section solve.
Context {S : Type} `{SatSolverLaws S}.
Implicit Types (s : Cnfizer S) (l : BLogic) (m : TermMapper) (t f : PTRef) (σ : Var → bool) (ρ : PTRef → bool) (n : BNode) (D : list (PTRef * PTRef)) (en : list FrameId).

(** ** From assignments to valuations *)

Definition lit_choice m σ t : bool := match termToVar m !! t with Some (Some v) => σ v | _ => false end.
Definition valuation s σ : PTRef → bool := extend (c_logic s) (lit_choice (tmap s) σ).

Lemma valuation_agrees D s σ : cnf_inv [] D s → constants_ok s → sat_models (solver s) σ →
  consistent (c_logic s) (valuation s σ) ∧ agrees (c_logic s) (tmap s) (valuation s σ) σ.
Proof.
  intros I [(v1 & B1 & V1) (v0 & B0 & V0)] M. pose proof (ci_store _ _ _ I) as W.
  pose proof (extend_consistent (c_logic s) (lit_choice (tmap s) σ) W) as C. split; [exact C|].
  intros t v Hv (n & Hn & Hl). unfold valuation. destruct Hl as [Hf|[Hf|Hf]].
  - rewrite extend_free; [|done|by exists n]. unfold lit_choice. unfold binds in Hv. by rewrite Hv.
  - destruct n as [f ts]. cbn in Hf. subst f. rewrite (true_unique _ W _ _ Hn) in *. rewrite (binds_fun _ _ _ _ Hv B1).
    by rewrite (true_value _ W _ C), V1.
  - destruct n as [f ts]. cbn in Hf. subst f. rewrite (false_unique _ W _ _ Hn) in *. rewrite (binds_fun _ _ _ _ Hv B0).
    by rewrite (false_value _ W _ C), V0.
Qed.

(** ** The frames *)

Lemma frame_names_distinct D s i j f : cnf_inv [] D s → frame_terms s !! i = Some f → frame_terms s !! j = Some f →
  f ≠ term_TRUE (c_logic s) → i = j.
Proof.
  intros I Hi Hj Hf. destruct (ci_frames _ _ _ I) as [_ F]. destruct (F i f Hi) as [?|[_ Ni]]; [done|].
  destruct (F j f Hj) as [?|[_ Nj]]; [done|]. rewrite Ni in Nj. injection Nj as E. by apply (inj pretty).
Qed.

Lemma frame_free D s i f : cnf_inv [] D s → frame_terms s !! i = Some f → f ≠ term_TRUE (c_logic s) →
  free_term (c_logic s) f ∧ is_bool (c_logic s) f ∧ purify (c_logic s) f = (f, false).
Proof.
  intros I Hi Hf. destruct (proj2 (ci_frames _ _ _ I) i f Hi) as [?|[_ Hn]]; [done|].
  split; [by eexists|]. split; [by eexists|]. unfold purify. by rewrite Hn.
Qed.

Lemma frames_bool D s : cnf_inv [] D s → Forall (is_bool (c_logic s)) (frame_terms s).
Proof.
  intros I. apply Forall_lookup. intros i f Hi. destruct (decide (f = term_TRUE (c_logic s))) as [->|Hf].
  - apply true_bool, I.
  - by eapply frame_free.
Qed.

(** The frames have the values an assignment should give them. *)
Definition frames_set s (en : list FrameId) (value : PTRef → bool) : Prop :=
  ∀ i f, frame_terms s !! i = Some f → f ≠ term_TRUE (c_logic s) → value f = negb (bool_decide (i ∈ en)).
Definition frame_vars_set s (en : list FrameId) σ : Prop :=
  ∀ i f v, frame_terms s !! i = Some f → f ≠ term_TRUE (c_logic s) → binds (tmap s) f v → σ v = negb (bool_decide (i ∈ en)).
Definition frames_bound s : Prop := ∀ i f, frame_terms s !! i = Some f → f ≠ term_TRUE (c_logic s) → ∃ v, binds (tmap s) f v.

Definition increasing (en : list FrameId) : Prop := StronglySorted lt en.

Lemma toggle_frames D s lits en : cnf_inv [] D s → increasing en → Forall (λ i, i < length lits) en →
  wp no_error (λ st : list Lit * option nat * Cnfizer S, cnf_step [] D s st.2 ∧ tmap st.2 = tmap s
      ∧ (∀ i, st.1.1 !! i = (λ p, if decide (i ∈ en) then lit_not p else p) <$> lits !! i))
    (foldM (λ (st : list Lit * option nat * Cnfizer S) fid,
      let! p := at_ st.1.1 fid in
      let! assumps := upd st.1.1 fid (lit_not p) in
      let! q := at_ assumps fid in
      let! r := mapEnabledFrameIdToVar (var q) fid st.1.2 (solver st.2) in
      Ok (assumps, r.1, set_solver r.2 st.2)) (lits, None, s) en).
Proof.
  intros I Hs Hen. eapply wp_mono; [apply (foldM_wp _ _ (λ pre post (st : list Lit * option nat * Cnfizer S),
    cnf_step [] D s st.2 ∧ tmap st.2 = tmap s ∧ (∀ x, st.1.2 = Some x → x ∈ pre)
    ∧ (∀ i, st.1.1 !! i = (λ p, if decide (i ∈ pre) then lit_not p else p) <$> lits !! i)))|].
  - cbn. split; [by apply cnf_step_refl|]. split; [done|]. split; [done|]. intros i. destruct (lits !! i); [|done]. cbn.
    by rewrite decide_False by apply not_elem_of_nil.
  - intros pre i post [[as_ prev] s1] -> (St & Em & Hprev & Has). cbn [fst snd] in *.
    assert (∀ x, x ∈ pre → x < i) as Hlt.
    { intros x Hx. apply (StronglySorted_app_1_elem_of lt pre (i :: post) x i Hs Hx). apply elem_of_cons. by left. }
    apply Forall_app in Hen as [_ Hen]. apply Forall_cons in Hen as [Hi _]. destruct (lookup_lt_is_Some_2 lits i Hi) as [p Hp].
    assert (i ∉ pre) as Hnin by (intros Hin; apply Hlt in Hin; lia).
    unfold at_. rewrite (Has i), Hp. cbn [fmap option_fmap option_map rbind]. rewrite decide_False by done.
    assert (i < length as_) as Hlen by (apply lookup_lt_is_Some_1; rewrite Has, Hp; by eexists).
    unfold upd. rewrite (proj2 (Nat.ltb_lt _ _)) by done. cbn [rbind]. rewrite list_lookup_insert_eq by done. cbn [rbind].
    apply wp_bind. eapply wp_mono; [apply mapEnabledFrameIdToVar_ok; destruct prev as [x|]; [by apply Hlt, Hprev|done]|].
    intros [prev' o] (Hprev' & Hm & Hu). cbn [wp fst snd] in *. pose proof (st_inv _ _ _ _ St) as I1. split; [|split; [done|split]].
    + eapply cnf_step_trans; [done|]. change (set_solver o s1) with (set_solver o (set_tmap (tmap s1) s1)). apply inv_update; try done.
      * apply I1.
      * by apply Hu, I1.
      * by intros σ ?%Hm.
      * intros ρ σ _ _ _ Hσ. by apply Hm.
    + intros x ->. destruct Hprev' as [E|[= ->]]; apply elem_of_app; [left; by apply Hprev|right; by apply list_elem_of_singleton].
    + intros j. destruct (decide (j = i)) as [->|Hne].
      * rewrite list_lookup_insert_eq by done. rewrite Hp. cbn. rewrite decide_True by (apply elem_of_app; right; by apply list_elem_of_singleton). done.
      * rewrite list_lookup_insert_ne, Has by done. destruct (lits !! j); [|done]. cbn. f_equal. apply decide_ext.
        rewrite elem_of_app, list_elem_of_singleton. tauto.
  - intros [[as_ prev] s1] (St & Em & _ & Has). done.
Qed.

(** The literals of the frames, in their order. *)
Lemma frame_lit D s i f p : cnf_inv [] D s → frame_terms s !! i = Some f → lit_at (c_logic s) (tmap s) f p →
  p = mkLit (var p) false ∧ binds (tmap s) f (var p).
Proof.
  intros I Hi (v & Hv & ->). assert (purify (c_logic s) f = (f, false)) as Ep.
  { destruct (decide (f = term_TRUE (c_logic s))) as [->|Hf]; [|by eapply frame_free].
    unfold purify. by rewrite (so_true _ (ci_store _ _ _ I)). }
  rewrite Ep in *. cbn [fst snd] in *. by rewrite var_mkLit.
Qed.

(** What the assumptions say, before the literals of true are dropped. *)
Lemma toggled_values D s lits as_ en σ : cnf_inv [] D s →
  Forall2 (lit_at (c_logic s) (tmap s)) (frame_terms s) lits →
  (∀ i, as_ !! i = (λ p, if decide (i ∈ en) then lit_not p else p) <$> lits !! i) →
  ∀ p1, lit_at (c_logic s) (tmap s) (term_TRUE (c_logic s)) p1 →
  Forall (λ p, lit_value σ p = true) (filter (λ p, p ≠ p1 ∧ p ≠ lit_not p1) as_) ↔ frame_vars_set s en σ.
Proof.
  intros I Hl Has p1 Hp1. pose proof (proj1 (ci_frames _ _ _ I)) as Hf0. destruct (frame_lit D s 0 _ p1 I Hf0 Hp1) as [E1 B1].
  assert (∀ i f p, frame_terms s !! i = Some f → lits !! i = Some p → lit_at (c_logic s) (tmap s) f p) as Hat.
  { intros i f p Hi Hp. by eapply Forall2_lookup_lr. }
  rewrite Forall_forall. unfold frame_vars_set. split.
  - intros Hall i f v Hi Hf Hv. destruct (Forall2_lookup_l _ _ _ _ _ Hl Hi) as (p & Hp & Hpf).
    destruct (frame_lit D s i f p I Hi Hpf) as [Ep Bp]. pose proof (binds_fun _ _ _ _ Hv Bp) as ->. specialize (Has i). rewrite Hp in Has. cbn in Has.
    assert (var p ≠ var p1) as Hne.
    { intros E. rewrite E in Bp. destruct Hf. apply (binds_inj (c_logic s) (tmap s) _ _ (var p1)); [apply I|done|done]. }
    assert (∀ q, as_ !! i = Some q → var q = var p → lit_value σ q = true) as Hq.
    { intros q Hq Evq. apply Hall, list_elem_of_filter. split; [|by apply list_elem_of_lookup_2 in Hq].
      split; intros ->; apply Hne; [done|]. by rewrite <- Evq, var_not. }
    case_decide as Hin.
    + rewrite bool_decide_true by done. specialize (Hq _ Has (var_not p)). rewrite lit_value_not, Ep, lit_value_mkLit, xorb_false_r in Hq.
      by apply negb_true_iff in Hq.
    + rewrite bool_decide_false by done. specialize (Hq _ Has eq_refl). by rewrite Ep, lit_value_mkLit, xorb_false_r in Hq.
  - intros Hset q [[Hq1 Hq2] Hin]%list_elem_of_filter. apply list_elem_of_lookup in Hin as [i Hi]. rewrite Has in Hi.
    destruct (lits !! i) as [p|] eqn:Hp; [|done]. cbn in Hi. injection Hi as <-.
    destruct (Forall2_lookup_r _ _ _ _ _ Hl Hp) as (f & Hf & Hpf). destruct (frame_lit D s i f p I Hf Hpf) as [Ep Bp].
    destruct (decide (f = term_TRUE (c_logic s))) as [->|Hne].
    { pose proof (lit_at_fun _ _ _ _ _ Hpf Hp1) as ->. by case_decide. }
    specialize (Hset i f (var p) Hf Hne Bp). case_decide as Hi.
    + rewrite bool_decide_true in Hset by done. by rewrite lit_value_not, Ep, lit_value_mkLit, Hset.
    + rewrite bool_decide_false in Hset by done. by rewrite Ep, lit_value_mkLit, Hset.
Qed.

Lemma assumptions_ok D s en : cnf_inv [] D s → increasing en → Forall (λ i, i < length (frame_terms s)) en →
  wp no_error (λ r, cnf_step [] D s r.2 ∧ frames_bound r.2 ∧ bound_lits (tmap r.2) r.1
      ∧ (∀ σ, Forall (λ p, lit_value σ p = true) r.1 ↔ frame_vars_set r.2 en σ)) (assumptions en s).
Proof.
  intros I Hs Hen. unfold assumptions. apply wp_bind. eapply wp_mono; [exact (literalsFor_ok [] D s _ I (frames_bool D s I))|].
  intros [lits s1] (St & Hl). cbn [fst snd] in *. pose proof (st_frames _ _ _ _ St) as Ef. pose proof (st_logic _ _ _ _ St) as El.
  apply wp_bind. eapply wp_mono; [apply (toggle_frames D s1 lits en)|].
  { apply St. } { done. }
  { eapply Forall_impl; [exact Hen|]. intros i Hi. cbn. rewrite <- (Forall2_length _ _ _ Hl). exact Hi. }
  intros [[as_ prev] s2] (St2 & Em & Has). cbn [fst snd] in *. apply wp_bind.
  pose proof (st_logic _ _ _ _ St2) as El2. pose proof (st_frames _ _ _ _ St2) as Ef2.
  eapply wp_mono; [apply (getOrCreateLiteralFor_ok [] D s2); [apply St2|apply true_bool; apply St2]|].
  intros [p1 s3] (St3 & Hp1 & _). cbn [wp fst snd] in *. pose proof (cnf_step_trans _ _ _ _ _ St (cnf_step_trans _ _ _ _ _ St2 St3)) as St4.
  pose proof (st_logic _ _ _ _ St3) as El3. pose proof (st_frames _ _ _ _ St3) as Ef3. rewrite El3 in Hp1. split; [done|].
  assert (Forall2 (lit_at (c_logic s3) (tmap s3)) (frame_terms s3) lits) as Hl3.
  { rewrite Ef3, Ef2, Ef. eapply Forall2_impl; [exact Hl|]. intros t p Hp. rewrite El3, El2.
    eapply lit_at_le; [|exact Hp]. rewrite <- Em. apply (st_le _ _ _ _ St3). }
  rewrite <- El3 in Hp1. split; [|split].
  - intros i f Hi Hf. destruct (Forall2_lookup_l _ _ _ _ _ Hl3 Hi) as (p & _ & Hp). exists (var p).
    eapply frame_lit; [apply (st_inv _ _ _ _ St3)|exact Hi|done].
  - apply Forall_forall. intros q [_ Hq]%list_elem_of_filter. apply list_elem_of_lookup in Hq as [i Hi]. rewrite Has in Hi.
    destruct (lits !! i) as [p|] eqn:Hp; [|done]. cbn in Hi. injection Hi as <-.
    destruct (Forall2_lookup_r _ _ _ _ _ Hl3 Hp) as (f & Hf & Hpf).
    assert (bound_var (tmap s3) (var p)) by (eapply bound_lit; [apply (st_inv _ _ _ _ St3)|done]).
    case_decide; [by rewrite var_not|done].
  - intros σ. apply (toggled_values D s3 lits as_ en σ (st_inv _ _ _ _ St3) Hl3 Has p1 Hp1).
Qed.

(** ** The answer *)

(** The formulas given and the terms of their frames: each holds in a model of
    the clauses when its frame is on. *)
Definition all_secured D s : Prop := ∀ f fr, (f, fr) ∈ D → fr ∈ frame_terms s ∧ secured s f fr.

(** A formula is enabled in the bottom frame, and with its frame. *)
Definition enabled_true s (en : list FrameId) D ρ : Prop := ∀ f fr i, (f, fr) ∈ D → frame_terms s !! i = Some fr →
  fr = term_TRUE (c_logic s) ∨ i ∈ en → ρ f = true.

Lemma model_to_valuation D s en σ : cnf_inv [] D s → constants_ok s → all_secured D s → frames_bound s →
  sat_models (solver s) σ → frame_vars_set s en σ →
  consistent (c_logic s) (valuation s σ) ∧ agrees (c_logic s) (tmap s) (valuation s σ) σ
    ∧ frames_set s en (valuation s σ) ∧ enabled_true s en D (valuation s σ).
Proof.
  intros I Hco Hsec Hbd M F. destruct (valuation_agrees D s σ I Hco M) as [C A]. split; [done|]. split; [done|]. split.
  - intros i f Hi Hf. destruct (Hbd i f Hi Hf) as [v Hv]. destruct (frame_free D s i f I Hi Hf) as ((n & Hn & Hm) & _).
    rewrite <- (A f v Hv); [by apply (F i f v Hi Hf Hv)|]. exists n. split; [done|]. by left.
  - intros f fr i Hin Hi Hen. destruct (Hsec f fr Hin) as [_ Hs]. apply (Hs σ); [done| |done|done].
    destruct (decide (fr = term_TRUE (c_logic s))) as [->|Hf]; [by left|]. destruct Hen as [?|Hen]; [done|].
    right. intros v Hv. by rewrite (F i fr v Hi Hf Hv), bool_decide_true.
Qed.

Lemma valuation_to_model D s en ρ : cnf_inv [] D s → all_secured D s → consistent (c_logic s) ρ → frames_set s en ρ →
  enabled_true s en D ρ → sat_models (solver s) (assignment (tmap s) ρ) ∧ frame_vars_set s en (assignment (tmap s) ρ).
Proof.
  intros I Hsec C F Hen. pose proof (assignment_matches _ _ ρ (ci_mapper _ _ _ I)) as M. split.
  - apply (ci_complete _ _ _ I ρ); [done|done|]. intros f fr Hin. destruct (Hsec f fr Hin) as [Hfr _].
    apply list_elem_of_lookup in Hfr as [i Hi]. destruct (decide (fr = term_TRUE (c_logic s))) as [->|Hne].
    { right. eapply Hen; [done|done|by left]. }
    destruct (decide (i ∈ en)) as [Hi'|Hi']; [right; eapply Hen; [done|done|by right]|left].
    split; [done|]. by rewrite (F i fr Hi Hne), bool_decide_false.
  - intros i f v Hi Hf Hv. rewrite (M f v Hv). by apply F.
Qed.

(** No formula uses the variable of a frame. *)
Definition fresh_frames D s : Prop := ∀ f fr, (f, fr) ∈ D → ∀ g, g ∈ frame_terms s → g ≠ term_TRUE (c_logic s) → ¬ below (c_logic s) f g.

Definition frame_choice s (en : list FrameId) ρ t : bool :=
  match list_find (λ f, f = t) (frame_terms s) with
  | Some (i, _) => if decide (t = term_TRUE (c_logic s)) then ρ t else negb (bool_decide (i ∈ en))
  | None => ρ t
  end.

(** Then the frames can be set without changing the values of the formulas. *)
Lemma set_frames_on D s en ρ : cnf_inv [] D s → fresh_frames D s → (∀ f fr, (f, fr) ∈ D → is_bool (c_logic s) f) → consistent (c_logic s) ρ →
  ∃ ρ', consistent (c_logic s) ρ' ∧ frames_set s en ρ' ∧ ∀ f fr, (f, fr) ∈ D → ρ' f = ρ f.
Proof.
  intros I Hfr Hb C. pose proof (ci_store _ _ _ I) as W. set (ρ' := extend (c_logic s) (frame_choice s en ρ)).
  pose proof (extend_consistent (c_logic s) (frame_choice s en ρ) W) as C'. exists ρ'. split; [exact C'|]. split.
  - intros i f Hi Hf. destruct (frame_free D s i f I Hi Hf) as (Hfree & _). unfold ρ'. rewrite extend_free by done. unfold frame_choice.
    destruct (list_find (λ g, g = f) (frame_terms s)) as [[j g]|] eqn:E.
    + apply list_find_Some in E as (Hj & -> & _). rewrite decide_False by done. by rewrite (frame_names_distinct D s i j f I Hi Hj Hf).
    + rewrite list_find_None in E. apply list_elem_of_lookup_2 in Hi. by destruct (proj1 (Forall_forall _ _) E f Hi).
  - intros f fr Hin. destruct (Hb f fr Hin) as (n & Hn & _). apply (consistent_agree (c_logic s) ρ' ρ W C' C f n Hn).
    intros u Hu Hfree. unfold ρ'. rewrite extend_free by done. unfold frame_choice.
    destruct (list_find (λ g, g = u) (frame_terms s)) as [[j g]|] eqn:E; [|done]. apply list_find_Some in E as (Hj & -> & _).
    case_decide as Ht; [done|]. exfalso. apply (Hfr f fr Hin u); [by apply list_elem_of_lookup_2 in Hj|done|done].
Qed.

End solve.
