(* ===== verification/CnfReach.v ===== *)
(** * Conversion to clauses: runs

    The laws of a solver that decides the clauses, and the states a sequence of
    calls reaches: terms are made, formulas are given to frames, and the
    formulas of some frames are checked.
    Then: what the answers mean. *)
From S2P Require Import Prelude NatSet SatLits Terms BoolTerms BoolFacts BoolConnectives BoolValues TermMapper TermVisitor Cnfizer CnfSpec.
From S2P Require Import CnfTseitin CnfAssert CnfSolve.
From stdpp Require Import gmap strings pretty sorting.
From Stdlib Require Import Lia.

#[local] Open Scope nat_scope.

Definition lbool_of (b : bool) : lbool := if b then l_True else l_False.

Definition satisfies (σ : Var → bool) (ps : list Lit) : Prop := Forall (λ p, lit_value σ p = true) ps.

(** A solver without theories: its answers, and the values of its model.  After
    [l_False] its client has to call [restoreOK], and after eliminating
    variables no clauses may follow. *)
Class SatSolverDecides (S : Type) `{SatSolverLaws S} : Type := {
  sat_solve_ok m ps do_simp turn_off o : bound_lits m ps → sat_usable o →
    wp no_error (λ r,
      (r.1 = l_True → isOK r.2 = true ∧ ∃ σ, sat_models o σ ∧ satisfies σ ps
        ∧ ∀ p, bound_var m (var p) → modelValue p r.2 = Ok (lbool_of (lit_value σ p)))
      ∧ (r.1 = l_False → ∀ σ, sat_models o σ → ¬ satisfies σ ps)
      ∧ (r.1 ≠ l_False → do_simp = false → sat_usable r.2 ∧ ∀ σ, sat_models r.2 σ ↔ sat_models o σ))
    (sat_solve m ps do_simp turn_off o);
}.

Section reach.
Context {S : Type} `{SatSolverDecides S}.
Implicit Types (s : Cnfizer S) (l : BLogic) (t f : PTRef) (σ : Var → bool) (ρ : PTRef → bool) (D : list (PTRef * PTRef)) (en : list FrameId).

(** ** The start *)

Lemma new_inv o l : store_ok l → sat_usable o → (∀ σ, sat_models o σ) → cnf_inv [] [] (new_cnfizer o l new_mapper).
Proof.
  intros W Hu Hall. constructor; try done; cbn.
  - apply new_mapper_ok.
  - split; [done|]. intros [|i] f; [intros [= <-]; by left|done].
  - by apply list_elem_of_singleton.
Qed.

Lemma initialize_ok D s : cnf_inv [] D s → current_frame_term s = term_TRUE (c_logic s) →
  wp no_error (λ s', cnf_step [] D s s' ∧ constants_ok s') (initialize s).
Proof.
  intros I Ec. pose proof (ci_store _ _ _ I) as W. unfold initialize. apply wp_bind.
  eapply wp_mono; [apply (getOrCreateLiteralFor_ok [] D s _ I), true_bool, W|]. intros [p s1] (St & Hp & _). cbn [fst snd] in *.
  pose proof (st_logic _ _ _ _ St) as El. apply wp_bind. eapply wp_mono; [apply (addClause_ok [] D s1 [p])|].
  { apply St. } { constructor; [|constructor]. eapply bound_lit; [apply St|done]. }
  { intros ρ σ C M _ _. rewrite El in *. unfold clause_true. cbn. rewrite (lit_matches _ _ _ _ _ _ W (true_bool _ W) Hp C M).
    by rewrite (true_value _ W _ C). }
  intros [b s2] (St2 & Hadd & _). cbn [fst snd] in *. pose proof (cnf_step_trans _ _ _ _ _ St St2) as St12. apply wp_bind.
  pose proof (st_logic _ _ _ _ St12) as El2. eapply wp_mono; [apply (getOrCreateLiteralFor_ok [] D s2); [apply St2|rewrite El2; apply false_bool, W]|].
  intros [q s3] (St3 & Hq & _). cbn [fst snd] in *. pose proof (cnf_step_trans _ _ _ _ _ St12 St3) as St13.
  pose proof (st_logic _ _ _ _ St13) as El3. rewrite El2, El3 in Hq. apply wp_bind. eapply wp_mono; [apply (addClause_ok [] D s3 [lit_not q])|].
  { apply St3. } { constructor; [|constructor]. rewrite var_not. eapply bound_lit; [apply St3|]. by rewrite El3. }
  { intros ρ σ C M _ _. rewrite El3 in *. unfold clause_true. cbn. rewrite lit_value_not, (lit_matches _ _ _ _ _ _ W (false_bool _ W) Hq C M).
    by rewrite (false_value _ W _ C). }
  intros [b' s4] (St4 & Hadd' & _). cbn [wp fst snd] in *. pose proof (cnf_step_trans _ _ _ _ _ St13 St4) as St14. split; [done|].
  pose proof (st_logic _ _ _ _ St14) as El4. constructor; rewrite El4.
  - rewrite El in Hp. destruct Hp as (v & Hv & ->). unfold purify in *. rewrite (so_true _ W) in *. cbn in *. exists v. split.
    + apply (cl_mapper _ _ (st_le _ _ _ _ St4)), (cl_mapper _ _ (st_le _ _ _ _ St3)), (cl_mapper _ _ (st_le _ _ _ _ St2)), Hv.
    + intros σ M. assert (clause_true σ [mkLit v false] = true) as Hc.
      { apply Hadd; [|left; by rewrite El, (st_current _ _ _ _ St)].
        apply (cl_models _ _ (st_le _ _ _ _ St3)), (cl_models _ _ (st_le _ _ _ _ St4)), M. }
      unfold clause_true in Hc. cbn in Hc. by rewrite lit_value_mkLit, xorb_false_r, orb_false_r in Hc.
  - destruct Hq as (v & Hv & ->). unfold purify in *. rewrite (so_false _ W) in *. cbn in *. exists v. split.
    + apply (cl_mapper _ _ (st_le _ _ _ _ St4)), Hv.
    + intros σ M. assert (clause_true σ [lit_not (mkLit v false)] = true) as Hc.
      { apply Hadd'; [done|]. left. by rewrite El3, (st_current _ _ _ _ St13). }
      unfold clause_true in Hc. cbn in Hc. rewrite lit_value_not, lit_value_mkLit, xorb_false_r, orb_false_r in Hc. by apply negb_true_iff in Hc.
Qed.

(** ** Runs *)

(** The formulas given, with their frames, the last one first. *)
Abbreviation given_list := (list (PTRef * FrameId)) (only parsing).

Inductive run (o : S) (l0 : BLogic) : Cnfizer S → given_list → Prop :=
| run_start s : initialize (new_cnfizer o l0 new_mapper) = Ok s → run o l0 s []
| run_terms s A l : run o l0 s A → store_le (c_logic s) l → store_ok l → run o l0 (set_logic l s) A
| run_give s A f i r s' : run o l0 s A → is_bool (c_logic s) f →
    cnfizeAndGiveToSolver f i s = Ok (r, s') → run o l0 s' ((f, i) :: A)
| run_solve s A en r s' : run o l0 s A → increasing en → Forall (λ i, i < length (frame_terms s)) en →
    solve true en s = Ok (r, s') → r ≠ l_False → run o l0 s' A.

(** The pairs of the invariant are those of the run. *)
Definition same_given s (A : given_list) D : Prop :=
  Forall2 (λ a d, d.1 = a.1 ∧ frame_terms s !! a.2 = Some d.2 ∧ (d.2 = term_TRUE (c_logic s) → a.2 = 0) ∧ is_bool (c_logic s) a.1) A D.

Record run_ok s A D : Prop := {
  ro_inv : cnf_inv [] D s;
  ro_consts : constants_ok s;
  ro_secured : all_secured D s;
  ro_given : same_given s A D;
}.

Lemma given_grow s s' A D : store_le (c_logic s) (c_logic s') →
  (∀ j g, frame_terms s !! j = Some g → g ≠ term_TRUE (c_logic s) ∨ j = 0 → frame_terms s' !! j = Some g) →
  same_given s A D → same_given s' A D.
Proof.
  intros Hle Hf Hg. eapply Forall2_impl; [exact Hg|]. intros [f i] [g fr] (E & Hi & Hbot & Hb). cbn in *. split; [done|].
  split; [|split; [by rewrite (le_true _ _ Hle)|by eapply is_bool_mono]].
  apply Hf; [done|]. destruct (decide (fr = term_TRUE (c_logic s))); [right; by apply Hbot|by left].
Qed.

Lemma secured_grow s s' D : cnf_le s s' → (∀ g, g ∈ frame_terms s → g ∈ frame_terms s') → all_secured D s → all_secured D s'.
Proof. intros Hle Hf Hs f fr Hin. destruct (Hs f fr Hin). split; [by apply Hf|by eapply secured_mono]. Qed.

Lemma run_ok_step s s' A D : run_ok s A D → cnf_step [] D s s' → run_ok s' A D.
Proof.
  intros [R1 R2 R3 R4] St. pose proof (st_le _ _ _ _ St) as Hle. pose proof (st_frames _ _ _ _ St) as Ef. constructor.
  - apply St.
  - by eapply consts_mono.
  - eapply secured_grow; [done| |done]. by rewrite Ef.
  - eapply given_grow; [apply Hle| |done]. rewrite Ef. auto.
Qed.

Lemma frames_kept_elem D s s' : cnf_inv [] D s → frames_ok (c_logic s') (frame_terms s') → store_le (c_logic s) (c_logic s') →
  (∀ j g, frame_terms s !! j = Some g → g ≠ term_TRUE (c_logic s) → frame_terms s' !! j = Some g) →
  (∀ g, g ∈ frame_terms s → g ∈ frame_terms s')
  ∧ (∀ j g, frame_terms s !! j = Some g → g ≠ term_TRUE (c_logic s) ∨ j = 0 → frame_terms s' !! j = Some g).
Proof.
  intros I [F0 _] Hle Hf. pose proof (le_true _ _ Hle) as Et. pose proof (proj1 (ci_frames _ _ _ I)) as F0'.
  assert (∀ j g, frame_terms s !! j = Some g → g ≠ term_TRUE (c_logic s) ∨ j = 0 → frame_terms s' !! j = Some g) as Hk.
  { intros j g Hj [Hg| ->]; [by apply Hf|]. rewrite F0' in Hj. injection Hj as <-. by rewrite <- Et. }
  split; [|done]. intros g [j Hj]%list_elem_of_lookup. destruct (decide (g = term_TRUE (c_logic s))) as [->|Hg].
  - apply list_elem_of_lookup. exists 0. by rewrite <- Et.
  - apply list_elem_of_lookup. exists j. apply Hf; done.
Qed.

Lemma run_ok_given s A D f i r : run_ok s A D → is_bool (c_logic s) f → given D s f i r →
  run_ok r.2 ((f, i) :: A) ((f, current_frame_term r.2) :: D).
Proof.
  intros [R1 R2 R3 R4] Hb [G1 G2 G3 G4 G5 G6 G7].
  destruct (frames_kept_elem D s r.2 R1 (ci_frames _ _ _ G1) (cl_store _ _ G2) G3) as [Hsub Hk].
  constructor; [done|by eapply consts_mono| |].
  - intros g fr [[= -> ->]|Hin]%elem_of_cons; [by split; [apply G1|]|]. by eapply secured_grow.
  - constructor; [|eapply given_grow; [apply G2|exact Hk|done]]. cbn. split; [done|]. split; [done|]. split; [done|].
    eapply is_bool_mono; [apply G2|done].
Qed.

Lemma solve_ok D s inc en : cnf_inv [] D s → increasing en → Forall (λ i, i < length (frame_terms s)) en →
  wp no_error (λ r, ∃ s1, cnf_step [] D s s1 ∧ frames_bound s1 ∧ r.2 = set_solver (solver r.2) s1
    ∧ (r.1 = l_True → isOK (solver r.2) = true ∧ ∃ σ, sat_models (solver s1) σ ∧ frame_vars_set s1 en σ
        ∧ ∀ p, bound_var (tmap s1) (var p) → modelValue p (solver r.2) = Ok (lbool_of (lit_value σ p)))
    ∧ (r.1 = l_False → ∀ σ, sat_models (solver s1) σ → ¬ frame_vars_set s1 en σ)
    ∧ (r.1 ≠ l_False → inc = true → cnf_step [] D s r.2)) (solve inc en s).
Proof.
  intros I Hs Hen. unfold solve. apply wp_bind. eapply wp_mono; [by apply (assumptions_ok D s en I)|].
  intros [ps s1] (St & Hbd & Hps & Hval). cbn [fst snd] in *. apply wp_bind.
  eapply wp_mono; [apply sat_solve_ok; [exact Hps|apply St]|]. intros [b o] (A1 & A2 & A3). cbn [wp fst snd] in *.
  exists s1. split; [done|]. split; [done|]. split; [by destruct s1|]. split; [|split].
  - intros E. destruct (A1 E) as (Hok & σ & M & Hσ & Hv). split; [done|]. exists σ. split; [done|]. split; [by apply Hval|done].
  - intros E σ M F. apply (A2 E σ M). by apply Hval.
  - intros E ->. destruct (A3 E eq_refl) as [Hu Hm]. eapply cnf_step_trans; [exact St|].
    change (set_solver o s1) with (set_solver o (set_tmap (tmap s1) s1)). pose proof (st_inv _ _ _ _ St) as I1.
    apply inv_update; try done; [apply I1|by intros σ ?%Hm|]. intros ρ σ _ _ _ Hσ. by apply Hm.
Qed.

Lemma run_invariant o l0 s A : store_ok l0 → sat_usable o → (∀ σ, sat_models o σ) → run o l0 s A → ∃ D, run_ok s A D.
Proof.
  intros W Hu Hall. induction 1 as [s E|s A l _ [D R] Hle Wl|s A f i r s' _ [D R] Hb E|s A en r s' _ [D R] Hs Hen E Hr].
  - exists []. destruct (wp_Ok _ _ _ _ (initialize_ok [] _ (new_inv o l0 W Hu Hall) eq_refl) E) as [St Hc].
    constructor; [apply St|done| |constructor]. by intros f fr ?%elem_of_nil.
  - exists D. destruct R as [R1 R2 R3 R4]. destruct (inv_grow [] D s l R1 Wl Hle) as [I' Hls]. constructor; [done|by eapply consts_mono| |].
    + by eapply (secured_grow s).
    + eapply (given_grow s); [done| |done]. auto.
  - eexists. pose proof (wp_Ok _ _ _ _ (cnfizeAndGiveToSolver_ok D s f i (ro_inv _ _ _ R) Hb) E) as G.
    apply (run_ok_given s A D f i (r, s')); done.
  - exists D. destruct (wp_Ok _ _ _ _ (solve_ok D s true en (ro_inv _ _ _ R) Hs Hen) E) as (s1 & _ & _ & _ & _ & _ & St).
    eapply run_ok_step; [done|]. by apply (St Hr).
Qed.

End reach.

(** * Conversion to clauses: what the answers mean

    A formula is judged by the valuations of the terms: the formulas given to
    the bottom frame and to the enabled frames are satisfiable together or not.
    Names of frame variables are reserved: no formula uses one ([plain]). *)

(** ** Terms of a larger store *)

Lemma below_old l l' t u : store_ok l → store_le l l' → t < length (bterms l) → below l' t u → below l t u.
Proof.
  intros W Hle Ht Hb. induction Hb as [t|t n a u Hn Hm Ha _ IH]; [constructor|].
  destruct (lookup_lt_is_Some_2 _ _ Ht) as [n' Hn']. rewrite (le_node _ _ _ _ Hle Hn') in Hn. injection Hn as ->.
  eapply below_arg; [done|done|done|]. apply IH.
  pose proof (proj1 (Forall_forall _ _) (no_older _ _ _ (so_node _ W _ _ Hn')) a Ha) as Hlt. cbn in Hlt. lia.
Qed.

Lemma below_valid l t u : store_ok l → t < length (bterms l) → below l t u → u < length (bterms l).
Proof.
  intros W Ht Hb. induction Hb as [t|t n a u Hn Hm Ha _ IH]; [done|]. apply IH.
  pose proof (proj1 (Forall_forall _ _) (no_older _ _ _ (so_node _ W _ _ Hn)) a Ha) as Hlt. cbn in Hlt. lia.
Qed.

Lemma valuation_grows l l' ρ : store_ok l → store_ok l' → store_le l l' → consistent l ρ →
  ∃ ρ', consistent l' ρ' ∧ ∀ t, t < length (bterms l) → ρ' t = ρ t.
Proof.
  intros W W' Hle C. exists (extend l' ρ). pose proof (extend_consistent l' ρ W') as C'. split; [exact C'|]. intros t Ht.
  destruct (lookup_lt_is_Some_2 _ _ Ht) as [n Hn]. apply (consistent_agree l _ _ W (consistent_mono _ _ _ Hle C') C t n Hn).
  intros u _ (m & Hm & Hf). apply extend_free; [done|]. exists m. split; [by eapply le_node|done].
Qed.

(** ** Formulas and frames *)

(** No name of a frame in a formula. *)
Definition plain (l : BLogic) (A : list (PTRef * FrameId)) : Prop := ∀ f i, (f, i) ∈ A → ∀ u j, below l f u →
  bterms l !! u ≠ Some (MkBNode (bool_var (frame_name j)) []).

Definition enabled_hold (A : list (PTRef * FrameId)) (en : list FrameId) (ρ : PTRef → bool) : Prop :=
  ∀ f i, (f, i) ∈ A → i = 0 ∨ i ∈ en → ρ f = true.

Definition satisfiable (l : BLogic) (A : list (PTRef * FrameId)) (en : list FrameId) : Prop :=
  ∃ ρ, consistent l ρ ∧ enabled_hold A en ρ.

Definition terms_of (l : BLogic) (A : list (PTRef * FrameId)) : Prop := Forall (λ a, is_bool l a.1) A.

Lemma plain_grows l l' A : store_ok l → store_le l l' → terms_of l A → plain l A → plain l' A.
Proof.
  intros W Hle Hb Hp f i Hin u j Hu Hn. pose proof (bool_bound _ _ (proj1 (Forall_forall _ _) Hb _ Hin)) as Hf. cbn in Hf.
  pose proof (below_old l l' f u W Hle Hf Hu) as Hu'. pose proof (below_valid l f u W Hf Hu') as Hlt.
  destruct (lookup_lt_is_Some_2 _ _ Hlt) as [n Hn']. rewrite (le_node _ _ _ _ Hle Hn') in Hn. injection Hn as ->. by eapply Hp.
Qed.

Lemma satisfiable_grows l l' A en : store_ok l → store_ok l' → store_le l l' → terms_of l A →
  satisfiable l A en ↔ satisfiable l' A en.
Proof.
  intros W W' Hle Hb. split.
  - intros (ρ & C & He). destruct (valuation_grows l l' ρ W W' Hle C) as (ρ' & C' & Hv). exists ρ'. split; [done|].
    intros f i Hin Hi. pose proof (bool_bound _ _ (proj1 (Forall_forall _ _) Hb _ Hin)) as Hf. rewrite Hv by done. by eapply He.
  - intros (ρ & C & He). exists ρ. split; [by eapply consistent_mono|done].
Qed.

Section answer.
Context {S : Type} `{SatSolverDecides S}.
Implicit Types (s : Cnfizer S) (l : BLogic) (t f : PTRef) (σ : Var → bool) (ρ : PTRef → bool) (D : list (PTRef * PTRef)) (en : list FrameId)
  (A : list (PTRef * FrameId)).

Lemma given_terms s A D : same_given s A D → terms_of (c_logic s) A.
Proof. intros Hg. induction Hg as [|a d A D (_ & _ & _ & Hb) _ IH]; by constructor. Qed.

Lemma given_enabled s A D en ρ : run_ok s A D → enabled_true s en D ρ ↔ enabled_hold A en ρ.
Proof.
  intros [R1 R2 R3 R4]. pose proof (proj1 (ci_frames _ _ _ R1)) as F0. split.
  - intros He f i Hin Hi. apply list_elem_of_lookup in Hin as [k Hk]. destruct (Forall2_lookup_l _ _ _ _ _ R4 Hk) as ([g fr] & Hd & E & Hfr & Hbot & _).
    cbn in *. subst g. apply (He f fr i); [by apply list_elem_of_lookup_2 in Hd|done|]. destruct Hi as [->|Hi]; [left|by right].
    rewrite F0 in Hfr. by injection Hfr as ->.
  - intros He f fr i Hin Hfr Hi. apply list_elem_of_lookup in Hin as [k Hk]. destruct (Forall2_lookup_r _ _ _ _ _ R4 Hk) as ([g j] & Ha & E & Hfr' & Hbot & _).
    cbn in *. subst g. apply (He f j); [by apply list_elem_of_lookup_2 in Ha|]. destruct Hi as [->|Hi]; [left; by apply Hbot|].
    destruct (decide (fr = term_TRUE (c_logic s))) as [E|E]; [left; by apply Hbot|right].
    by rewrite (frame_names_distinct D s j i fr R1 Hfr' Hfr E).
Qed.

Lemma plain_fresh s A D : cnf_inv [] D s → same_given s A D → plain (c_logic s) A → fresh_frames D s.
Proof.
  intros I Hg Hp f fr Hin g Hgf Hne Hb. apply list_elem_of_lookup in Hin as [k Hk].
  destruct (Forall2_lookup_r _ _ _ _ _ Hg Hk) as ([f' j] & Ha & E & _). cbn in E. subst f'.
  apply list_elem_of_lookup in Hgf as [i Hi]. destruct (proj2 (ci_frames _ _ _ I) i g Hi) as [?|[_ Hn]]; [done|].
  eapply Hp; [by apply list_elem_of_lookup_2 in Ha|done|done].
Qed.

Lemma given_bool s A D f fr : same_given s A D → (f, fr) ∈ D → is_bool (c_logic s) f.
Proof.
  intros Hg Hin. apply list_elem_of_lookup in Hin as [k Hk].
  destruct (Forall2_lookup_r _ _ _ _ _ Hg Hk) as ([f' j] & _ & E & _ & _ & Hb). cbn in *. by subst f'.
Qed.

(** The clauses and the frames' variables have a model iff the formulas have. *)
Lemma models_iff s A D en : run_ok s A D → plain (c_logic s) A → frames_bound s →
  (∃ σ, sat_models (solver s) σ ∧ frame_vars_set s en σ) ↔ satisfiable (c_logic s) A en.
Proof.
  intros R Hp Hbd. pose proof R as [R1 R2 R3 R4]. split.
  - intros (σ & M & F). destruct (model_to_valuation D s en σ R1 R2 R3 Hbd M F) as (C & _ & _ & He).
    exists (valuation s σ). split; [done|]. by apply (given_enabled s A D).
  - intros (ρ & C & He). destruct (set_frames_on D s en ρ R1) as (ρ' & C' & F & Hv); [by eapply plain_fresh|by intros; eapply given_bool|done|].
    exists (assignment (tmap s) ρ'). apply (valuation_to_model D s en ρ' R1 R3 C' F).
    apply (given_enabled s A D en ρ R) in He. intros f fr i Hin Hi Hen. rewrite (Hv f fr Hin). by eapply He.
Qed.

(** No valuation satisfies the demands: the bottom frame contradicts itself. *)
Lemma unsat_bottom s A D : cnf_inv [] D s → same_given s A D → (∀ f fr, (f, fr) ∈ D → fr ∈ frame_terms s) → plain (c_logic s) A →
  unsatisfiable (c_logic s) D → ¬ satisfiable (c_logic s) A [].
Proof.
  intros I Hg Hfr Hp Hu (ρ & C & He). destruct (set_frames_on D s [] ρ I) as (ρ' & C' & F & Hv); [by eapply plain_fresh|by intros; eapply given_bool|done|].
  apply (Hu ρ' C'). intros f fr Hin. destruct (decide (fr = term_TRUE (c_logic s))) as [E|E].
  - right. rewrite (Hv f fr Hin). apply list_elem_of_lookup in Hin as [k Hk].
    destruct (Forall2_lookup_r _ _ _ _ _ Hg Hk) as ([f' j] & Ha & Ef & _ & Hbot & _). cbn in *. subst f'.
    apply (He f j); [by apply list_elem_of_lookup_2 in Ha|left; by apply Hbot].
  - left. split; [done|]. apply Hfr, list_elem_of_lookup in Hin as [i Hi]. rewrite (F i fr Hi E). by rewrite bool_decide_false by apply not_elem_of_nil.
Qed.

(** A formula is given. *)
Lemma opened_given s A D f i s1 : run_ok s A D → is_bool (c_logic s) f → opened D s i s1 →
  cnf_inv [] ((f, current_frame_term s1) :: D) s1 ∧ same_given s1 ((f, i) :: A) ((f, current_frame_term s1) :: D)
  ∧ ∀ g fr, (g, fr) ∈ (f, current_frame_term s1) :: D → fr ∈ frame_terms s1.
Proof.
  intros [R1 R2 R3 R4] Hb [O1 O2 O3 O4 O5 O6 O7].
  destruct (frames_kept_elem D s s1 R1 (ci_frames _ _ _ O1) (cl_store _ _ O2) O5) as [Hsub Hk]. split; [by apply inv_demand|]. split.
  - constructor; [|eapply given_grow; [apply O2|exact Hk|done]]. cbn. split; [done|]. split; [done|]. split; [done|].
    eapply is_bool_mono; [apply O2|done].
  - intros g fr [[= -> ->]|Hin]%elem_of_cons; [by apply list_elem_of_lookup_2 in O6|]. apply Hsub. by apply (R3 g fr).
Qed.

Lemma give_answer s A D f i : run_ok s A D → is_bool (c_logic s) f → plain (c_logic s) ((f, i) :: A) →
  wp (λ e, e = Assertion_failed ∧ ¬ satisfiable (c_logic s) ((f, i) :: A) [])
    (λ r, r.1 = l_Undef ∨ r.1 = l_False ∧ ¬ satisfiable (c_logic r.2) ((f, i) :: A) []) (cnfizeAndGiveToSolver f i s).
Proof.
  intros R Hb Hp. pose proof (cnfizeAndGiveToSolver_ok D s f i (ro_inv _ _ _ R) Hb) as Hw. pose proof (ci_store _ _ _ (ro_inv _ _ _ R)) as W.
  assert (terms_of (c_logic s) ((f, i) :: A)) as Hts by (constructor; [done|by apply (given_terms s A D), R]).
  destruct (cnfizeAndGiveToSolver f i s) as [[r s']|e]; cbn in *.
  - pose proof (run_ok_given s A D f i (r, s') R Hb Hw) as R'. destruct Hw as [G1 G2 _ _ _ [G|[G Hno]] _]; cbn in *; [by left|right].
    split; [done|]. apply (unsat_bottom s' _ _ G1 (ro_given _ _ _ R')).
    + intros g fr Hin. by apply (ro_secured _ _ _ R' g fr).
    + eapply (plain_grows (c_logic s)); try done. apply G2.
    + by apply no_models_unsat.
  - destruct Hw as (-> & s1 & O & Hu). split; [done|]. destruct (opened_given s A D f i s1 R Hb O) as (I1 & Hg & Hfr).
    pose proof (cl_store _ _ (op_le _ _ _ _ O)) as Hle. rewrite (satisfiable_grows _ (c_logic s1)); try done; [|apply I1].
    eapply unsat_bottom; [exact I1|done|done| |done]. by eapply (plain_grows (c_logic s)).
Qed.

Lemma solve_answer s A D inc en : run_ok s A D → plain (c_logic s) A → increasing en → Forall (λ i, i < length (frame_terms s)) en →
  wp no_error (λ r, (r.1 = l_True → satisfiable (c_logic s) A en) ∧ (r.1 = l_False → ¬ satisfiable (c_logic s) A en)) (solve inc en s).
Proof.
  intros R Hp Hs Hen. eapply wp_mono; [by apply (solve_ok D s inc en (ro_inv _ _ _ R))|]. intros r (s1 & St & Hbd & _ & A1 & A2 & _).
  pose proof (run_ok_step s s1 A D R St) as R1. pose proof (st_logic _ _ _ _ St) as El. rewrite <- El in Hp |- *.
  pose proof (models_iff s1 A D en R1 Hp Hbd) as Hiff. split; intros E.
  - apply Hiff. destruct (A1 E) as (_ & σ & M & F & _). by exists σ.
  - rewrite <- Hiff. intros (σ & M & F). by apply (A2 E σ).
Qed.

(** ** The values of a model *)

Lemma hasLit_ok l m t : store_ok l → mapper_ok l m → is_bool l t →
  hasLit l t m = Ok false ∨ ∃ p, lit_at l m t p ∧ hasLit l t m = Ok true ∧ getLit l t m = Ok p.
Proof.
  intros W M Hb. destruct (purify_spec l W t Hb) as (Hb' & Hp & _). unfold hasLit, toPositive, getLit.
  rewrite (getTerm_ok l W t Hb). cbn [rbind]. rewrite (peekVar_ok l _ m Hb' Hp). cbn [rbind].
  destruct (termToVar m !! (purify l t).1) as [[v|]|] eqn:E; [right|by left|by left].
  exists (mkLit v (purify l t).2). split; [by exists v|done].
Qed.

(** The answer "satisfiable" comes with one valuation that makes the enabled
    formulas true and that the values of the leaves are read from. *)
Lemma model_answer s A D inc en : run_ok s A D → increasing en → Forall (λ i, i < length (frame_terms s)) en →
  wp no_error (λ r, r.1 = l_True → ∃ ρ, consistent (c_logic s) ρ ∧ enabled_hold A en ρ
      ∧ ∀ t, is_bool (c_logic s) t → leaf (c_logic s) (purify (c_logic s) t).1 →
        getTermValue t r.2 = Ok l_Undef ∨ getTermValue t r.2 = Ok (lbool_of (ρ t))) (solve inc en s).
Proof.
  intros R Hs Hen. eapply wp_mono; [by apply (solve_ok D s inc en (ro_inv _ _ _ R))|]. intros [b s2] (s1 & St & Hbd & E2 & A1 & _ & _) Eb.
  cbn [fst snd] in *. destruct (A1 Eb) as (Hok & σ & M & F & Hval). pose proof (run_ok_step s s1 A D R St) as R1.
  pose proof (st_logic _ _ _ _ St) as El. pose proof R1 as [I1 Hco Hsec _].
  destruct (model_to_valuation D s1 en σ I1 Hco Hsec Hbd M F) as (C & Ag & _ & He). exists (valuation s1 σ).
  rewrite <- El. split; [done|]. split; [by apply (given_enabled s1 A D)|]. intros t Hb Hl. pose proof (ci_store _ _ _ I1) as W.
  unfold getTermValue. rewrite Hok. cbn [check rbind]. rewrite E2. cbn [c_logic tmap set_solver solver].
  destruct (hasLit_ok (c_logic s1) (tmap s1) t W (ci_mapper _ _ _ I1) Hb) as [-> |(p & Hp & -> & ->)]; cbn [rbind]; [by left|right].
  rewrite Hval by (by eapply bound_lit; [apply I1|]). cbn [rbind].
  rewrite (leaf_value (c_logic s1) (tmap s1) t p (valuation s1 σ) σ) by done. by destruct (valuation s1 σ t).
Qed.

End answer.
