(* ===== verification/CnfExample.v ===== *)
(** * Conversion to clauses: a solver by enumeration

    A solver that keeps the clauses and tries all assignments has the laws the
    conversion relies on. *)
From S2P Require Import Prelude NatSet SatLits Terms BoolTerms BoolFacts BoolConnectives BoolValues TermMapper Cnfizer CnfSpec CnfSolve.
From S2P Require Import CnfReach.
From stdpp Require Import gmap.
From Stdlib Require Import Lia.

#[local] Open Scope nat_scope.

(** ** The solver *)

Record EnumSolver : Type := MkEnum { e_clauses : list (list Lit); e_model : list bool }.
Definition new_enum : EnumSolver := MkEnum [] [].

Definition of_values (bs : list bool) (v : Var) : bool := default false (bs !! v).

Fixpoint all_values (n : nat) : list (list bool) :=
  match n with
  | O => [[]]
  | S n => bs ← all_values n; [true :: bs; false :: bs]
  end.

Definition var_bound (cs : list (list Lit)) : nat := max_list_with (λ c, max_list_with (λ p, S (var p)) c) cs.
Definition all_true (σ : Var → bool) (cs : list (list Lit)) : bool := forallb (clause_true σ) cs.

Definition enum_solve (ps : list Lit) (o : EnumSolver) : lbool * EnumSolver :=
  let cs := e_clauses o ++ ((λ p, [p]) <$> ps) in
  match list_find (λ bs, all_true (of_values bs) cs = true) (all_values (var_bound cs)) with
  | Some (_, bs) => (l_True, MkEnum (e_clauses o) bs)
  | None => (l_False, o)
  end.

#[export] Instance enum_sat_solver : SatSolver EnumSolver := {|
  addOriginalSMTClause := λ _ c o, Ok (true, MkEnum (c :: e_clauses o) (e_model o));
  addVar := λ _ _ o, Ok o;
  addAssumptionVar := λ _ o, Ok o;
  isOK := λ _, true;
  mapEnabledFrameIdToVar := λ _ _ prev o, Ok (prev, o);
  sat_solve := λ _ ps _ _ o, Ok (enum_solve ps o);
  modelValue := λ p o, Ok (lbool_of (lit_value (of_values (e_model o)) p));
|}.

#[export] Program Instance enum_laws : SatSolverLaws EnumSolver := {|
  sat_models := λ o σ, all_true σ (e_clauses o) = true;
  sat_usable := λ _, True;
|}.
Next Obligation. intros o. split; [by left|done]. Qed.
Next Obligation.
  intros m c o _ _. cbn. split; [|done]. intros σ. unfold all_true. cbn. rewrite andb_true_iff. tauto.
Qed.
Next Obligation. done. Qed.
Next Obligation. done. Qed.
Next Obligation. intros v fid prev o _. cbn. split; [by left|done]. Qed.

Lemma all_values_complete n σ : ∃ bs, bs ∈ all_values n ∧ ∀ v, v < n → of_values bs v = σ v.
Proof.
  revert σ. induction n as [|n IH]; intros σ; [exists []; split; [by apply list_elem_of_singleton|lia]|].
  destruct (IH (λ v, σ (S v))) as (bs & Hin & Hbs). exists (σ 0 :: bs). split.
  - cbn. apply list_elem_of_bind. exists bs. split; [|done]. destruct (σ 0); set_solver.
  - intros [|v] Hv; [done|]. apply (Hbs v). lia.
Qed.

Lemma max_list_with_in {A : Type} (f : A → nat) xs x : x ∈ xs → f x ≤ max_list_with f xs.
Proof. induction 1; cbn; lia. Qed.

Lemma var_bound_in c p cs : c ∈ cs → p ∈ c → var p < var_bound cs.
Proof.
  intros Hc Hp. apply (Nat.lt_le_trans _ (max_list_with (λ p, S (var p)) c)).
  - exact (max_list_with_in (λ p, S (var p)) c p Hp).
  - by apply (max_list_with_in (λ c, max_list_with (λ p, S (var p)) c)).
Qed.

Lemma all_true_agree σ σ' cs : (∀ v, v < var_bound cs → σ v = σ' v) → all_true σ cs = all_true σ' cs.
Proof.
  intros Hv. unfold all_true. apply eq_true_iff_eq. rewrite !forallb_forall.
  assert (∀ c, In c cs → clause_true σ c = clause_true σ' c) as Hc.
  { intros c Hc%list_elem_of_In. apply eq_true_iff_eq. rewrite !clause_true_iff.
    assert (∀ p, p ∈ c → lit_value σ p = lit_value σ' p) as Hp.
    { intros p Hp. unfold lit_value. by rewrite Hv by (by eapply var_bound_in). }
    split; intros (p & Hin & Hval); exists p; (split; [done|]); [by rewrite <- Hp|by rewrite Hp]. }
  split; intros Hall c Hin; [rewrite <- Hc|rewrite Hc]; auto.
Qed.

Lemma all_true_app σ cs ps : all_true σ (cs ++ ((λ p, [p]) <$> ps)) = true ↔ all_true σ cs = true ∧ satisfies σ ps.
Proof.
  unfold all_true. rewrite forallb_app, andb_true_iff. apply and_iff_compat_l. unfold satisfies.
  rewrite forallb_forall, Forall_forall. split.
  - intros Hall p Hp. specialize (Hall [p]). unfold clause_true in Hall. cbn in Hall. rewrite orb_false_r in Hall.
    apply Hall, list_elem_of_In, list_elem_of_fmap. by exists p.
  - intros Hall c (p & -> & Hp)%list_elem_of_In%list_elem_of_fmap. unfold clause_true. cbn. by rewrite Hall.
Qed.

#[export] Instance enum_decides : SatSolverDecides EnumSolver.
Proof.
  constructor. intros m ps do_simp turn_off o _ _. cbn. unfold enum_solve. set (cs := e_clauses o ++ _).
  destruct (list_find _ _) as [[i bs]|] eqn:E; cbn.
  - apply list_find_Some in E as (_ & Hb & _). apply all_true_app in Hb as [Hm Hs]. split; [|by split].
    intros _. split; [done|]. by exists (of_values bs).
  - split; [done|]. split; [|done]. intros _ σ Hm Hs. rewrite list_find_None, Forall_forall in E.
    destruct (all_values_complete (var_bound cs) σ) as (bs & Hin & Hbs). apply (E bs Hin).
    rewrite (all_true_agree _ σ) by done. by apply all_true_app.
Qed.

(** ** A run

    The formula 8, [(p or q) and p = q], in the bottom frame and 7, [not p], in
    frame 1. *)
Definition state_of {A : Type} (d : Cnfizer EnumSolver) (r : res (A * Cnfizer EnumSolver)) : Cnfizer EnumSolver :=
  match r with Ok r => r.2 | Err _ => d end.
Definition answer_of {A : Type} (r : res (A * Cnfizer EnumSolver)) : option A := match r with Ok r => Some r.1 | Err _ => None end.

Definition ex_new : Cnfizer EnumSolver := new_cnfizer new_enum ex_store new_mapper.
Definition ex_start : Cnfizer EnumSolver := match initialize ex_new with Ok s => s | Err _ => ex_new end.
Definition ex_one : Cnfizer EnumSolver := state_of ex_new (cnfizeAndGiveToSolver 8 0 ex_start).
Definition ex_two : Cnfizer EnumSolver := state_of ex_new (cnfizeAndGiveToSolver 7 1 ex_one).

Lemma ex_answers :
  answer_of (cnfizeAndGiveToSolver 8 0 ex_start) = Some l_Undef ∧ answer_of (cnfizeAndGiveToSolver 7 1 ex_one) = Some l_Undef
  ∧ answer_of (solve true [0] ex_two) = Some l_True ∧ answer_of (solve true [0; 1] ex_two) = Some l_False.
Proof. vm_compute. repeat split. Qed.

Lemma ex_run : run new_enum ex_store ex_two [(7, 1); (8, 0)].
Proof.
  apply (run_give new_enum ex_store ex_one [(8, 0)] 7 1 l_Undef); [|bool_term|vm_compute; reflexivity].
  apply (run_give new_enum ex_store ex_start [] 8 0 l_Undef); [|bool_term|vm_compute; reflexivity].
  apply run_start. vm_compute. reflexivity.
Qed.

(** Terms of the example store are not variables of frames. *)
Lemma cnf_ex_plain A : (∀ f i, (f, i) ∈ A → f < length (bterms ex_store)) → plain ex_store A.
Proof.
  intros HA f i Hin u j Hb Hn. pose proof (below_valid ex_store f u ex_store_ok (HA f i Hin) Hb) as Hlt.
  rewrite ex_terms in Hn, Hlt. cbn [length] in Hlt.
  do 9 (destruct u as [|u]; [cbn in Hn; injection Hn; intros; discriminate|]). lia.
Qed.

Lemma ex_given_plain : plain (c_logic ex_two) [(7, 1); (8, 0)].
Proof.
  apply (plain_grows ex_store); [apply ex_store_ok| |repeat (constructor; [bool_term|]); constructor|].
  - constructor; [exists (drop 9 (bterms (c_logic ex_two)))|..]; vm_compute; reflexivity.
  - apply cnf_ex_plain. rewrite ex_terms. intros f i [[= -> ->]|[[= -> ->]|[]%elem_of_nil]%elem_of_cons]%elem_of_cons; cbn; lia.
Qed.

Lemma ex_frames : increasing [0; 1] ∧ Forall (λ i, i < length (frame_terms ex_two)) [0; 1].
Proof. split; [repeat constructor|vm_compute; repeat constructor]. Qed.
