(* ===== verification/CnfTheorems.v ===== *)
(** * Conversion to clauses: theorems *)
From S2P Require Import Prelude NatSet SatLits Terms BoolTerms BoolFacts BoolConnectives BoolValues TermMapper TermVisitor Cnfizer CnfSpec.
From S2P Require Import CnfTseitin CnfAssert CnfSolve CnfReach CnfExample.
From stdpp Require Import gmap strings pretty sorting.
From Stdlib Require Import Lia.

#[local] Open Scope nat_scope.

Section theorems.
Context {S : Type} `{SatSolverDecides S} (o : S) (l0 : BLogic).
Context (Hl0 : store_ok l0) (Hu : sat_usable o) (Hempty : ∀ σ, sat_models o σ).
Implicit Types (s : Cnfizer S) (t f : PTRef) (A : list (PTRef * FrameId)) (en : list FrameId).


(** C5: Giving a formula to a frame ends in one of three ways: the formula is in
    ([l_Undef]); [l_False], which is returned only when the formulas of the bottom
    frame contradict each other; or the assertion after the conversion of the
    nested formulas fails, which also needs such a contradiction. *)
Theorem cnf_give_correct s A f i : run o l0 s A → is_bool (c_logic s) f → plain (c_logic s) ((f, i) :: A) →
  match cnfizeAndGiveToSolver f i s with
  | Ok (r, s') => run o l0 s' ((f, i) :: A) ∧ (r = l_Undef ∨ r = l_False ∧ ¬ satisfiable (c_logic s') ((f, i) :: A) [])
  | Err e => e = Assertion_failed ∧ ¬ satisfiable (c_logic s) ((f, i) :: A) []
  end.
Proof.
  intros Hr Hb Hp. destruct (run_invariant o l0 s A Hl0 Hu Hempty Hr) as [D R]. pose proof (give_answer s A D f i R Hb Hp) as Hw.
  destruct (cnfizeAndGiveToSolver f i s) as [[r s']|e] eqn:E; [|exact Hw]. split; [by eapply run_give|exact Hw].
Qed.


(** C7: The invariant of the conversion: whatever was given and checked, the
    store and the mapper are well formed, frames have distinct variables, every
    cached term has its definition, and for every formula given the clauses make
    it true when its frame is on, and say nothing more. *)
Theorem cnf_invariant s A : run o l0 s A → ∃ D, cnf_inv [] D s ∧ same_given s A D ∧ all_secured D s.
Proof.
  intros Hr. destruct (run_invariant o l0 s A Hl0 Hu Hempty Hr) as [D [R1 R2 R3 R4]]. by exists D.
Qed.

End theorems.

(** ** The theorems on the run of the example *)

Lemma new_enum_usable : sat_usable new_enum.
Proof. done. Qed.
Lemma new_enum_empty : ∀ σ, sat_models new_enum σ.
Proof. done. Qed.


(** The formula false, which is term 1, in the bottom frame. *)
Lemma cnf_give_correct_witness : answer_of (cnfizeAndGiveToSolver 1 0 ex_start) = Some l_Undef
  ∧ match cnfizeAndGiveToSolver 1 0 ex_start with
    | Ok (r, s') => run new_enum ex_store s' [(1, 0)] ∧ (r = l_Undef ∨ r = l_False ∧ ¬ satisfiable (c_logic s') [(1, 0)] [])
    | Err e => e = Assertion_failed ∧ ¬ satisfiable (c_logic ex_start) [(1, 0)] []
    end.
Proof.
  split; [vm_compute; reflexivity|].
  apply (cnf_give_correct new_enum ex_store ex_store_ok new_enum_usable new_enum_empty ex_start [] 1 0).
  - apply run_start. vm_compute. reflexivity.
  - bool_term.
  - apply (cnf_ex_plain [(1, 0)]). rewrite ex_terms. intros f i [[= -> ->]|[]%elem_of_nil]%elem_of_cons. cbn. lia.
Defined.


Lemma cnf_invariant_witness : run new_enum ex_store ex_two [(7, 1); (8, 0)]
  ∧ ∃ D, cnf_inv [] D ex_two ∧ same_given ex_two [(7, 1); (8, 0)] D ∧ all_secured D ex_two.
Proof.
  split; [apply ex_run|]. exact (cnf_invariant new_enum ex_store ex_store_ok new_enum_usable new_enum_empty ex_two [(7, 1); (8, 0)] ex_run).
Defined.
