(* ===== verification/Heap.v ===== *)
(** * Priority queues

    minisat/mtl/Heap.h: a binary heap of small numbers with the position of each
    of them, so that a key can change in place.  The order is fallible, as the
    clients' orders look the elements up in a table; [-1] in [indices] is [None].
    The second part proves that the operations keep the positions consistent,
    that they keep the heap ordered, and that [removeMin] returns a least
    element. *)
From S2P Require Import Prelude.
From Stdlib Require Import Lia.

#[local] Open Scope nat_scope.

Record Heap : Type := MkHeap { heap : list nat; indices : list (option nat) }.

Definition left (i : nat) : nat := i * 2 + 1.
Definition right (i : nat) : nat := (i + 1) * 2.
Definition parent (i : nat) : nat := (i - 1) / 2.

Definition empty_heap : Heap := MkHeap [] [].
Definition heap_size (h : Heap) : nat := length (heap h).
Definition inHeap (h : Heap) (n : nat) : bool :=
  match indices h !! n with Some (Some _) => true | _ => false end.
(** [indices[n]], where the code relies on [inHeap(n)]. *)
Definition position (h : Heap) (n : nat) : res nat :=
  let! o := at_ (indices h) n in match o with Some i => Ok i | None => Err Assertion_failed end.
(** [heap[i] = x; indices[x] = i;] *)
Definition place (h : Heap) (i x : nat) : res Heap :=
  let! hp := upd (heap h) i x in let! ix := upd (indices h) x (Some i) in Ok (MkHeap hp ix).
Definition unplace (h : Heap) (x : nat) : res Heap :=
  let! ix := upd (indices h) x None in Ok (MkHeap (heap h) ix).
(** [heap.last()] and [heap.pop()] *)
Definition last_ (l : list nat) : res nat := match last l with Some x => Ok x | None => Err Out_of_range end.
Definition pop (h : Heap) : res Heap := let! _ := last_ (heap h) in Ok (MkHeap (take (length (heap h) - 1) (heap h)) (indices h)).

Section heap.
Context (lt : nat → nat → res bool).

(** The loop of [percolateUp], holding [x] out of position [i]. *)
Fixpoint up_from (fuel : nat) (x i : nat) (h : Heap) : res Heap :=
  let! b := (if i =? 0 then Ok false else let! y := at_ (heap h) (parent i) in lt x y) in
  if b : bool then
    match fuel with
    | O => Err Out_of_fuel
    | S fuel =>
        let! y := at_ (heap h) (parent i) in
        let! h := place h i y in
        up_from fuel x (parent i) h
    end
  else place h i x.
(** The position at least halves. *)
Definition percolateUp (i : nat) (h : Heap) : res Heap := let! x := at_ (heap h) i in up_from i x i h.

Definition child (i : nat) (h : Heap) : res nat :=
  if right i <? heap_size h then
    let! r := at_ (heap h) (right i) in
    let! l := at_ (heap h) (left i) in
    let! b := lt r l in Ok (if b : bool then right i else left i)
  else Ok (left i).

Fixpoint down_from (fuel : nat) (x i : nat) (h : Heap) : res Heap :=
  if left i <? heap_size h then
    let! c := child i h in
    let! y := at_ (heap h) c in
    let! b := lt y x in
    if b : bool then
      match fuel with
      | O => Err Out_of_fuel
      | S fuel => let! h := place h i y in down_from fuel x c h
      end
    else place h i x
  else place h i x.
Definition percolateDown (i : nat) (h : Heap) : res Heap := let! x := at_ (heap h) i in down_from (heap_size h) x i h.

Definition decrease (n : nat) (h : Heap) : res Heap := let! i := position h n in percolateUp i h.
Definition increase (n : nat) (h : Heap) : res Heap := let! i := position h n in percolateDown i h.

Definition insert (n : nat) (h : Heap) : res Heap :=
  let indices := grow (indices h) n None in
  let! _ := check (negb (inHeap (MkHeap (heap h) indices) n)) in
  let! ix := upd indices n (Some (length (heap h))) in
  let h := MkHeap (heap h ++ [n]) ix in
  let! i := position h n in percolateUp i h.

Definition update (n : nat) (h : Heap) : res Heap :=
  if inHeap h n then
    let! i := position h n in
    let! h := percolateUp i h in
    let! i := position h n in percolateDown i h
  else insert n h.

Definition removeMin (h : Heap) : res (nat * Heap) :=
  let! x := at_ (heap h) 0 in
  let! y := last_ (heap h) in
  let! h := place h 0 y in
  let! h := unplace h x in
  let! h := pop h in
  let! h := (if 1 <? heap_size h then percolateDown 0 h else Ok h) in
  Ok (x, h).

(** Removal from the middle; the element that takes the place only moves down. *)
Definition remove (n : nat) (h : Heap) : res Heap :=
  let! ind := position h n in
  let! y := last_ (heap h) in
  let! h := place h ind y in
  let! h := pop h in
  let! h := (if 1 <? heap_size h then percolateDown ind h else Ok h) in
  unplace h n.

(** [for (int i = heap.size() / 2 - 1; i >= 0; i--) percolateDown(i);] *)
Definition heapify (h : Heap) : res Heap := foldM (λ h i, percolateDown i h) h (reverse (seq 0 (heap_size h / 2))).

Definition clear (h : Heap) : res Heap :=
  let! h' := foldM (λ h x, unplace h x) h (heap h) in Ok (MkHeap [] (indices h')).

(** [indices[ns[i]] = i; heap.push(ns[i]);] *)
Definition push_at (h : Heap) (x : nat) : res Heap :=
  let! ix := upd (indices h) x (Some (length (heap h))) in Ok (MkHeap (heap h ++ [x]) ix).
Definition build (ns : list nat) (h : Heap) : res Heap :=
  let! h := clear h in
  let! h := foldM push_at h ns in
  heapify h.

(** The kept elements are written over the beginning of the vector. *)
Definition filter (filt : nat → res bool) (h : Heap) : res Heap :=
  let! h := foldM (λ h' x, let! b := filt x in if b : bool then push_at h' x else unplace h' x) (MkHeap [] (indices h)) (heap h) in
  heapify h.

End heap.

(** ** Correctness *)

Lemma parent_children k i : 0 < k → parent k = i ↔ k = left i ∨ k = right i.
Proof.
  intros Hk. unfold parent, left, right. pose proof (Nat.div_mod_eq (k - 1) 2). pose proof (Nat.mod_upper_bound (k - 1) 2 ltac:(lia)). lia.
Qed.
Lemma parent_lt k : 0 < k → parent k < k.
Proof. intros Hk. unfold parent. pose proof (Nat.div_mod_eq (k - 1) 2). lia. Qed.
Lemma child_gt i k : k = left i ∨ k = right i → i < k.
Proof. unfold left, right. lia. Qed.
Lemma left_parent i : parent (left i) = i.
Proof. apply parent_children; [unfold left; lia|by left]. Qed.
Lemma right_parent i : parent (right i) = i.
Proof. apply parent_children; [unfold right; lia|by right]. Qed.

Definition consistent (h : Heap) : Prop := ∀ i x, heap h !! i = Some x ↔ indices h !! x = Some (Some i).
Definition same_elements (h h' : Heap) : Prop :=
  length (heap h') = length (heap h) ∧ length (indices h') = length (indices h) ∧ ∀ x, inHeap h' x = inHeap h x.

#[export] Instance same_elements_refl : Reflexive same_elements.
Proof. done. Qed.
#[export] Instance same_elements_trans : Transitive same_elements.
Proof. intros h1 h2 h3 (A1 & A2 & A3) (B1 & B2 & B3). unfold same_elements. by rewrite B1, B2; repeat split; [..|intros x; rewrite B3]. Qed.

Lemma inHeap_iff h x : inHeap h x = true ↔ ∃ i, indices h !! x = Some (Some i).
Proof. unfold inHeap. destruct (indices h !! x) as [[i|]|]; naive_solver. Qed.
Lemma inHeap_elem h x : consistent h → inHeap h x = true ↔ x ∈ heap h.
Proof. intros Hc. rewrite inHeap_iff, list_elem_of_lookup. by setoid_rewrite (Hc _ x). Qed.
Lemma consistent_index h i x : consistent h → heap h !! i = Some x → x < length (indices h).
Proof. intros Hc Hi. apply Hc in Hi. by eapply lookup_lt_Some. Qed.
Lemma consistent_inj h i j x : consistent h → heap h !! i = Some x → heap h !! j = Some x → i = j.
Proof. intros Hc Hi%Hc Hj%Hc. congruence. Qed.

(** [h] with [x] put at [i]. *)
Definition placed (h : Heap) (i x : nat) : Heap := MkHeap (<[i := x]> (heap h)) (<[x := Some i]> (indices h)).

Lemma place_ok h i x : i < length (heap h) → x < length (indices h) → place h i x = Ok (placed h i x).
Proof. intros Hi Hx. unfold place, upd. by rewrite (proj2 (Nat.ltb_lt _ _) Hi), (proj2 (Nat.ltb_lt _ _) Hx). Qed.

(** Exchanging the elements at two positions. *)
Lemma exchange_consistent h i j x y : consistent h → heap h !! i = Some x → heap h !! j = Some y → i ≠ j →
  let h' := MkHeap (<[j := x]> (<[i := y]> (heap h))) (<[x := Some j]> (<[y := Some i]> (indices h))) in
  consistent h' ∧ same_elements h h'.
Proof.
  intros Hc Hi Hj Hne h'. pose proof (lookup_lt_Some _ _ _ Hi) as Li. pose proof (lookup_lt_Some _ _ _ Hj) as Lj.
  pose proof (consistent_index _ _ _ Hc Hi) as Lx. pose proof (consistent_index _ _ _ Hc Hj) as Ly.
  assert (x ≠ y) as Hxy by (intros ->; by apply Hne, (consistent_inj h i j y)).
  pose proof (proj1 (Hc _ _) Hi) as Ix. pose proof (proj1 (Hc _ _) Hj) as Iy. split; [|split; [|split]].
  - intros k z. unfold h'. cbn. destruct (decide (k = j)) as [->|Hkj].
    + rewrite list_lookup_insert_eq by (by rewrite length_insert). destruct (decide (z = x)) as [->|Hzx].
      * by rewrite list_lookup_insert_eq by (by rewrite length_insert).
      * rewrite list_lookup_insert_ne by done. destruct (decide (z = y)) as [->|Hzy].
        -- rewrite list_lookup_insert_eq by done. naive_solver.
        -- rewrite list_lookup_insert_ne by done. rewrite <- (Hc _ _). naive_solver.
    + rewrite list_lookup_insert_ne by done. destruct (decide (k = i)) as [->|Hki].
      * rewrite list_lookup_insert_eq by done. destruct (decide (z = x)) as [->|Hzx].
        -- rewrite list_lookup_insert_eq by (by rewrite length_insert). naive_solver.
        -- rewrite list_lookup_insert_ne by done. destruct (decide (z = y)) as [->|Hzy].
           ++ by rewrite list_lookup_insert_eq by done.
           ++ rewrite list_lookup_insert_ne by done. rewrite <- (Hc _ _). naive_solver.
      * rewrite list_lookup_insert_ne by done. destruct (decide (z = x)) as [->|Hzx].
        -- rewrite list_lookup_insert_eq by (by rewrite length_insert). rewrite (Hc _ _). naive_solver.
        -- rewrite list_lookup_insert_ne by done. destruct (decide (z = y)) as [->|Hzy].
           ++ rewrite list_lookup_insert_eq by done. rewrite (Hc _ _). naive_solver.
           ++ rewrite list_lookup_insert_ne by done. apply Hc.
  - unfold h'. cbn. by rewrite !length_insert.
  - unfold h'. cbn. by rewrite !length_insert.
  - intros z. unfold h', inHeap. cbn. destruct (decide (z = x)) as [->|Hzx].
    + rewrite list_lookup_insert_eq by (by rewrite length_insert). by rewrite Ix.
    + rewrite list_lookup_insert_ne by done. destruct (decide (z = y)) as [->|Hzy].
      * rewrite list_lookup_insert_eq by done. by rewrite Iy.
      * by rewrite list_lookup_insert_ne by done.
Qed.

(** One step of a loop that holds [x] out of position [i]. *)
Lemma move_hole h i j x y : consistent (placed h i x) → i < length (heap h) → x < length (indices h) →
  heap h !! j = Some y → i ≠ j →
  y < length (indices h) ∧ consistent (placed (placed h i y) j x) ∧ same_elements (placed h i x) (placed (placed h i y) j x).
Proof.
  intros Hc Li Lx Hj Hne.
  assert (heap (placed h i x) !! i = Some x) as Hi by (cbn; by rewrite list_lookup_insert_eq).
  assert (heap (placed h i x) !! j = Some y) as Hj' by (cbn; by rewrite list_lookup_insert_ne).
  assert (x ≠ y) as Hxy by (intros ->; by apply Hne, (consistent_inj _ i j y Hc)).
  pose proof (consistent_index _ _ _ Hc Hj') as Ly. cbn in Ly. rewrite length_insert in Ly. split; [done|].
  pose proof (exchange_consistent _ i j x y Hc Hi Hj' Hne) as He. cbn in He. rewrite list_insert_insert_eq in He.
  rewrite (list_insert_insert_ne _ y x) in He by done. by rewrite list_insert_insert_eq in He.
Qed.

Section order.
Context (lt : nat → nat → res bool) (ltb : nat → nat → bool) (valid : nat → Prop).
Hypothesis lt_ok : ∀ x y, valid x → valid y → lt x y = Ok (ltb x y).
Hypothesis lt_asym : ∀ x y, valid x → valid y → ltb x y = true → ltb y x = false.
Hypothesis le_trans : ∀ x y z, valid x → valid y → valid z → ltb y x = false → ltb z y = false → ltb z x = false.

(** No element is less than its parent. *)
Definition edge_ok (h : Heap) (k : nat) : Prop :=
  ∀ x y, heap h !! k = Some x → heap h !! parent k = Some y → ltb x y = false.
Definition skip_ok (h : Heap) (i k : nat) : Prop :=
  ∀ x y, heap h !! k = Some x → heap h !! parent i = Some y → ltb x y = false.
Definition ordered_from (r : nat) (h : Heap) : Prop := ∀ k, 0 < k → r ≤ parent k → edge_ok h k.
Definition ordered : Heap → Prop := ordered_from 0.
(** Ordered but at [i], where the element may be too small or too large. *)
Definition ordered_above (i : nat) (h : Heap) : Prop :=
  (∀ k, 0 < k → k ≠ i → edge_ok h k) ∧ ∀ k, 0 < k → 0 < i → parent k = i → skip_ok h i k.
Definition ordered_below (r i : nat) (h : Heap) : Prop :=
  (∀ k, 0 < k → r ≤ parent k → parent k ≠ i → edge_ok h k) ∧ ∀ k, 0 < k → 0 < i → r ≤ parent i → parent k = i → skip_ok h i k.

Definition all_valid (h : Heap) : Prop := ∀ x, inHeap h x = true → valid x.

Lemma all_valid_same h h' : same_elements h h' → all_valid h → all_valid h'.
Proof. intros (_ & _ & E) Hv x. rewrite E. apply Hv. Qed.
Lemma valid_elem h i x : consistent h → all_valid h → heap h !! i = Some x → valid x.
Proof. intros Hc Hv Hi. apply Hv, inHeap_iff. exists i. by apply Hc. Qed.

(** What a loop does from a heap with [x] at [i]. *)
Definition settles (P Q : Heap → Prop) (h h' : Heap) : Prop := consistent h' ∧ same_elements h h' ∧ (P h → Q h').

Lemma placed_lookup_eq h i x : i < length (heap h) → heap (placed h i x) !! i = Some x.
Proof. intros. cbn. by apply list_lookup_insert_eq. Qed.
Lemma placed_lookup_ne h i j x : i ≠ j → heap (placed h i x) !! j = heap h !! j.
Proof. intros. cbn. by apply list_lookup_insert_ne. Qed.

Lemma placed_length h i x : length (heap (placed h i x)) = length (heap h).
Proof. apply length_insert. Qed.
Lemma placed_indices h i x : length (indices (placed h i x)) = length (indices h).
Proof. apply length_insert. Qed.

Lemma up_step h i x y : consistent (placed h i x) → all_valid (placed h i x) → i < length (heap h) → 0 < i →
  heap h !! parent i = Some y → ltb x y = true → ordered_above i (placed h i x) →
  ordered_above (parent i) (placed (placed h i y) (parent i) x).
Proof.
  intros Hc Hv Li Hi Hy Hlt [H1 H2]. pose proof (parent_lt i Hi) as Hp. set (V := placed h i x) in *.
  assert (heap V !! i = Some x) as Vi by by apply placed_lookup_eq.
  assert (heap V !! parent i = Some y) as Vp by (unfold V; by rewrite placed_lookup_ne by lia).
  pose proof (valid_elem V _ _ Hc Hv Vi) as vx. pose proof (valid_elem V _ _ Hc Hv Vp) as vy.
  assert (∀ k z, k ≠ i → k ≠ parent i → heap (placed (placed h i y) (parent i) x) !! k = Some z → heap V !! k = Some z) as Hk.
  { intros k z ??. unfold V. by rewrite !placed_lookup_ne by done. }
  assert (heap (placed (placed h i y) (parent i) x) !! i = Some y) as Wi by (rewrite placed_lookup_ne by lia; by apply placed_lookup_eq).
  assert (heap (placed (placed h i y) (parent i) x) !! parent i = Some x) as Wp.
  { apply placed_lookup_eq. rewrite placed_length. lia. }
  split.
  - intros k K0 Kp u v Hu Hv'. destruct (decide (k = i)) as [->|Ki].
    { rewrite Wi in Hu. rewrite Wp in Hv'. injection Hu as <-. injection Hv' as <-. by apply lt_asym. }
    apply Hk in Hu; [|done..]. pose proof (valid_elem V _ _ Hc Hv Hu) as vu.
    destruct (decide (parent k = i)) as [Ek|Ni].
    { rewrite Ek, Wi in Hv'. injection Hv' as <-. by apply (H2 k K0 Hi Ek u y). }
    destruct (decide (parent k = parent i)) as [Ek|Np].
    + rewrite Ek, Wp in Hv'. injection Hv' as <-. apply (le_trans x y u); [done..|by apply lt_asym|].
      apply (H1 k K0 Ki u y Hu). by rewrite Ek.
    + apply Hk in Hv'; [|done..]. by apply (H1 k K0 Ki u v).
  - intros k K0 P0 Ek u w Hu Hw. pose proof (parent_lt (parent i) P0) as Hpp. apply Hk in Hw; [|lia..].
    pose proof (valid_elem V _ _ Hc Hv Hw) as vw.
    assert (ltb y w = false) as Hyw by (apply (H1 (parent i) P0 ltac:(lia) y w Vp Hw)).
    destruct (decide (k = i)) as [->|Ki].
    { rewrite Wi in Hu. by injection Hu as <-. }
    pose proof (parent_lt k K0). apply Hk in Hu; [|lia..]. pose proof (valid_elem V _ _ Hc Hv Hu) as vu.
    apply (le_trans w y u); [done..|]. apply (H1 k K0 Ki u y Hu). by rewrite Ek.
Qed.

Lemma up_from_wp E fuel : ∀ x i h, consistent (placed h i x) → all_valid (placed h i x) → i < length (heap h) → x < length (indices h) → i ≤ fuel →
  wp E (settles (ordered_above i) ordered (placed h i x)) (up_from lt fuel x i h).
Proof.
  induction fuel as [|fuel IH]; intros x i h Hc Hv Li Lx Hf; cbn [up_from].
  all: assert (wp E (settles (λ V, ordered V) ordered (placed h i x)) (place h i x)) as Hend
    by (rewrite place_ok by done; by refine (conj Hc (conj _ _))).
  all: destruct (Nat.eqb_spec i 0) as [->|Hi]; cbn [rbind].
  1,3: eapply wp_mono; [exact Hend|]; intros h' (Hc' & Hs & Ho); split; [done|]; split; [done|];
       intros [H1 _]; apply Ho; intros k K0 _; apply H1; lia.
  1: lia.
  pose proof (parent_lt i ltac:(lia)) as Hp. destruct (lookup_lt_is_Some_2 (heap h) (parent i) ltac:(lia)) as [y Hy].
  assert (heap (placed h i x) !! parent i = Some y) as Hy' by (by rewrite placed_lookup_ne by lia).
  assert (valid y) as vy by (by eapply valid_elem). assert (valid x) as vx by (eapply valid_elem; [done..|by apply placed_lookup_eq]).
  unfold at_ at 1. rewrite Hy. cbn [rbind]. rewrite lt_ok by done. cbn [rbind]. destruct (ltb x y) eqn:Hlt.
  - unfold at_. rewrite Hy. cbn [rbind]. destruct (move_hole h i (parent i) x y Hc Li Lx Hy ltac:(lia)) as (Ly & Hc' & Hs').
    rewrite place_ok by done. cbn [rbind]. eapply wp_mono; [apply IH; try done|].
    + by eapply all_valid_same.
    + rewrite placed_length. lia.
    + by rewrite placed_indices.
    + lia.
    + intros h' (Hc'' & Hs'' & Ho). split; [done|]. split; [by etrans|]. intros Hab. apply Ho. apply (up_step h i x y); solve [done|lia].
  - eapply wp_mono; [exact Hend|]. intros h' (Hc' & Hs & Ho). split; [done|]. split; [done|]. intros [H1 _]. apply Ho.
    intros k K0 _. destruct (decide (k = i)) as [->|]; [|by apply H1]. intros u v Hu Hv'. rewrite placed_lookup_eq in Hu by done.
    rewrite Hy' in Hv'. by injection Hu as <-; injection Hv' as <-.
Qed.

Lemma placed_id h i x : consistent h → heap h !! i = Some x → placed h i x = h.
Proof. intros Hc Hi. unfold placed. rewrite list_insert_id by done. rewrite list_insert_id by by apply Hc. by destruct h. Qed.

Lemma percolateUp_wp E i h : consistent h → all_valid h → i < length (heap h) →
  wp E (settles (ordered_above i) ordered h) (percolateUp lt i h).
Proof.
  intros Hc Hv Li. destruct (lookup_lt_is_Some_2 _ _ Li) as [x Hx]. unfold percolateUp. apply wp_bind. apply at_wp with x; [done|].
  pose proof (placed_id h i x Hc Hx) as Ei. pose proof (up_from_wp E i x i h) as Hw. rewrite Ei in Hw.
  apply Hw; [done..| |lia]. by eapply consistent_index.
Qed.

Lemma child_wp E i h : (∀ k z, k ≠ i → heap h !! k = Some z → valid z) → left i < length (heap h) →
  wp E (λ c, 0 < c ∧ parent c = i ∧ ∃ y, heap h !! c = Some y ∧ ∀ k z, 0 < k → parent k = i → heap h !! k = Some z → ltb z y = false) (child lt i h).
Proof.
  intros Hv Hl. unfold child, heap_size. assert (i ≠ left i ∧ i ≠ right i) as [N1 N2] by (unfold left, right; lia).
  assert (0 < left i ∧ 0 < right i) as [P1 P2] by (unfold left, right; lia).
  destruct (lookup_lt_is_Some_2 _ _ Hl) as [y Hy]. pose proof (Hv _ _ (not_eq_sym N1) Hy) as vy.
  assert (ltb y y = false) as Hyy by (destruct (ltb y y) eqn:L; [by rewrite <- (lt_asym y y vy vy L), L|done]).
  destruct (Nat.ltb_spec (right i) (length (heap h))) as [Hr|Hr].
  - destruct (lookup_lt_is_Some_2 _ _ Hr) as [z Hz]. pose proof (Hv _ _ (not_eq_sym N2) Hz) as vz. unfold at_. rewrite Hz, Hy. cbn [rbind].
    assert (ltb z z = false) as Hzz by (destruct (ltb z z) eqn:L; [by rewrite <- (lt_asym z z vz vz L), L|done]).
    rewrite lt_ok by done. cbn [rbind]. destruct (ltb z y) eqn:L; (split; [done|]).
    + split; [apply right_parent|]. exists z. split; [done|]. intros k u K0 [->| ->]%parent_children Hu; [|congruence|done].
      rewrite Hy in Hu. injection Hu as <-. by apply lt_asym.
    + split; [apply left_parent|]. exists y. split; [done|]. intros k u K0 [->| ->]%parent_children Hu; congruence.
  - split; [done|]. split; [apply left_parent|]. exists y. split; [done|].
    intros k u K0 [->| ->]%parent_children Hu; [congruence| |done]. apply lookup_lt_Some in Hu. lia.
Qed.

Lemma down_step r h i c x y : r ≤ i → consistent (placed h i x) → all_valid (placed h i x) → i < length (heap h) → 0 < c → parent c = i →
  heap h !! c = Some y → (∀ k z, 0 < k → parent k = i → heap h !! k = Some z → ltb z y = false) → ltb y x = true →
  ordered_below r i (placed h i x) → ordered_below r c (placed (placed h i y) c x).
Proof.
  intros Hr Hc Hv Li Hc0 Ec Hy Hmin Hlt [H1 H2]. pose proof (parent_lt c Hc0) as Hp. set (V := placed h i x) in *.
  assert (heap V !! i = Some x) as Vi by by apply placed_lookup_eq.
  assert (heap V !! c = Some y) as Vc by (unfold V; by rewrite placed_lookup_ne by lia).
  pose proof (valid_elem V _ _ Hc Hv Vi) as vx. pose proof (valid_elem V _ _ Hc Hv Vc) as vy.
  set (W := placed (placed h i y) c x).
  assert (∀ k z, k ≠ i → k ≠ c → heap W !! k = Some z → heap V !! k = Some z) as Hk.
  { intros k z ??. unfold V, W. by rewrite !placed_lookup_ne by done. }
  assert (heap W !! i = Some y) as Wi by (unfold W; rewrite placed_lookup_ne by lia; by apply placed_lookup_eq).
  assert (heap W !! c = Some x) as Wc by (apply placed_lookup_eq; rewrite placed_length; by eapply lookup_lt_Some).
  split.
  - intros k K0 Kr Kc u v Hu Hv'. pose proof (parent_lt k K0). destruct (decide (parent k = i)) as [Ek|Ni].
    + rewrite Ek, Wi in Hv'. injection Hv' as <-. destruct (decide (k = c)) as [->|].
      { rewrite Wc in Hu. injection Hu as <-. by apply lt_asym. }
      apply (Hmin k u K0 Ek). unfold W in Hu. by rewrite !placed_lookup_ne in Hu by lia.
    + apply Hk in Hv'; [|done..]. destruct (decide (k = i)) as [->|Ki].
      * rewrite Wi in Hu. injection Hu as <-. by apply (H2 c Hc0 K0 Kr Ec y v).
      * assert (k ≠ c) as Kc' by (intros ->; done). apply Hk in Hu; [|done..]. by apply (H1 k K0 Kr Ni u v).
  - intros k K0 _ _ Ek u w Hu Hw. pose proof (parent_lt k K0). rewrite Ec, Wi in Hw. injection Hw as <-.
    apply Hk in Hu; [|lia..]. apply (H1 k K0 ltac:(lia) ltac:(lia) u y Hu). by rewrite Ek.
Qed.

Lemma down_from_wp E r fuel : ∀ x i h, r ≤ i → consistent (placed h i x) → all_valid (placed h i x) → i < length (heap h) → x < length (indices h) →
  length (heap h) ≤ fuel + i → wp E (settles (ordered_below r i) (ordered_from r) (placed h i x)) (down_from lt fuel x i h).
Proof.
  induction fuel as [|fuel IH]; intros x i h Hr Hc Hv Li Lx Hf; [lia|]; cbn [down_from]. unfold heap_size.
  assert ((ordered_below r i (placed h i x) → ordered_from r (placed h i x)) →
    wp E (settles (ordered_below r i) (ordered_from r) (placed h i x)) (place h i x)) as Hend
    by (intros; rewrite place_ok by done; by refine (conj Hc (conj _ _))).
  destruct (Nat.ltb_spec (left i) (length (heap h))) as [Hl|Hl].
  - assert (∀ k z, k ≠ i → heap h !! k = Some z → valid z) as Hvz.
    { intros k z Hk Hz. apply (valid_elem (placed h i x) k z Hc Hv). by rewrite placed_lookup_ne. }
    assert (valid x) as vx by (eapply valid_elem; [done..|by apply placed_lookup_eq]).
    apply wp_bind. eapply wp_mono; [by apply child_wp|]. intros c (Hc0 & Ec & y & Hy & Hmin). pose proof (parent_lt c Hc0).
    assert (valid y) as vy by (apply (Hvz c y); [lia|done]). unfold at_. rewrite Hy. cbn [rbind]. rewrite lt_ok by done. cbn [rbind].
    destruct (ltb y x) eqn:Hlt.
    + destruct (move_hole h i c x y Hc Li Lx Hy ltac:(lia)) as (Ly & Hc' & Hs'). pose proof (lookup_lt_Some _ _ _ Hy).
      rewrite place_ok by done. cbn [rbind]. eapply wp_mono; [apply IH; try done|].
      * lia.
      * by eapply all_valid_same.
      * by rewrite placed_length.
      * by rewrite placed_indices.
      * rewrite placed_length. lia.
      * intros h' (Hc'' & Hs'' & Ho). split; [done|]. split; [by etrans|]. intros Hab. apply Ho. by apply (down_step r h i c x y).
    + apply Hend. intros [H1 _] k K0 Kr u v Hu Hv'. destruct (decide (parent k = i)) as [Ek|]; [|by eapply H1].
      rewrite Ek, placed_lookup_eq in Hv' by done. injection Hv' as <-. pose proof (parent_lt k K0). rewrite placed_lookup_ne in Hu by lia.
      apply (le_trans x y u); [done..|by apply (Hvz k); [lia|]|done|]. by apply (Hmin k).
  - apply Hend. intros [H1 _] k K0 Kr u v Hu Hv'. destruct (decide (parent k = i)) as [Ek|]; [|by eapply H1].
    apply lookup_lt_Some in Hu. rewrite placed_length in Hu. apply parent_children in Ek; [|done]. unfold left, right in *. lia.
Qed.

Lemma percolateDown_wp E r i h : r ≤ i → consistent h → all_valid h → i < length (heap h) →
  wp E (settles (ordered_below r i) (ordered_from r) h) (percolateDown lt i h).
Proof.
  intros Hr Hc Hv Li. destruct (lookup_lt_is_Some_2 _ _ Li) as [x Hx]. unfold percolateDown. apply wp_bind. apply at_wp with x; [done|].
  pose proof (placed_id h i x Hc Hx) as Ei. pose proof (down_from_wp E r (heap_size h) x i h) as Hw. rewrite Ei in Hw.
  apply Hw; [done..| |unfold heap_size; lia]. by eapply consistent_index.
Qed.

(** ** Operations *)

Lemma position_ok h n : consistent h → inHeap h n = true → ∃ i, position h n = Ok i ∧ heap h !! i = Some n.
Proof.
  intros Hc (i & Hi)%inHeap_iff. exists i. unfold position, at_. rewrite Hi. split; [done|]. by apply Hc.
Qed.

Lemma decrease_wp E n h : consistent h → all_valid h → inHeap h n = true →
  wp E (λ h', consistent h' ∧ same_elements h h' ∧ ∀ i, heap h !! i = Some n → ordered_above i h → ordered h') (decrease lt n h).
Proof.
  intros Hc Hv Hn. destruct (position_ok h n Hc Hn) as (i & E1 & Hi). unfold decrease. rewrite E1. cbn [rbind].
  eapply wp_mono; [apply percolateUp_wp; try done; by eapply lookup_lt_Some|]. intros h' (Hc' & Hs & Ho). split; [done|]. split; [done|].
  intros j Hj. by rewrite (consistent_inj h j i n).
Qed.

Lemma heapify_from E m : ∀ h, consistent h → all_valid h → m ≤ length (heap h) → ordered_from m h →
  wp E (λ h', consistent h' ∧ same_elements h h' ∧ ordered h') (foldM (λ h i, percolateDown lt i h) h (reverse (seq 0 m))).
Proof.
  induction m as [|m IH]; intros h Hc Hv Hm Ho; [done|]. rewrite seq_S, reverse_snoc. cbn [foldM Nat.add].
  apply wp_bind. eapply wp_mono; [by apply (percolateDown_wp E m m)|]. intros h' (Hc' & Hs & Ho').
  eapply wp_mono; [apply IH; [done|by eapply all_valid_same| |]|].
  - destruct Hs as [-> _]. lia.
  - apply Ho'. split.
    + intros k K0 Kr Kn. apply Ho; lia.
    + intros k K0 Hm0 Hp. pose proof (parent_lt m Hm0). lia.
  - intros h'' (Hc'' & Hs'' & Ho''). split; [done|]. split; [by etrans|done].
Qed.

Lemma heapify_wp E h : consistent h → all_valid h → wp E (λ h', consistent h' ∧ same_elements h h' ∧ ordered h') (heapify lt h).
Proof.
  intros Hc Hv. pose proof (Nat.div_mod_eq (length (heap h)) 2) as D. pose proof (Nat.mod_upper_bound (length (heap h)) 2 ltac:(lia)).
  apply heapify_from; [done|done|unfold heap_size; lia|].
  intros k K0 Kr x y Hx _. apply lookup_lt_Some in Hx. unfold heap_size, parent in *. pose proof (Nat.div_mod_eq (k - 1) 2). lia.
Qed.

Lemma grow_none_consistent h n : consistent h → consistent (MkHeap (heap h) (grow (indices h) n None)).
Proof.
  intros Hc i x. cbn. rewrite grow_lookup, (Hc i x). destruct (indices h !! x); [done|]. by case_decide.
Qed.

Lemma push_at_ok h x : consistent h → x < length (indices h) → inHeap h x = false →
  ∃ h', push_at h x = Ok h' ∧ consistent h' ∧ heap h' = heap h ++ [x] ∧ length (indices h') = length (indices h)
    ∧ ∀ y, inHeap h' y = bool_decide (y = x) || inHeap h y.
Proof.
  intros Hc Lx Hx. eexists. unfold push_at, upd. rewrite (proj2 (Nat.ltb_lt _ _) Lx). split; [done|]. split; [|split; [done|split; [apply length_insert|]]].
  - intros i z. cbn. destruct (decide (z = x)) as [->|Hz].
    + rewrite list_lookup_insert_eq by done. split.
      * intros [Hi|[Hi Hr]]%lookup_app_Some.
        -- apply list_elem_of_lookup_2, inHeap_elem in Hi; [congruence|done].
        -- apply list_lookup_singleton_Some in Hr as [Hr _]. f_equal. f_equal. lia.
      * intros [= <-]. by apply list_lookup_middle.
    + rewrite list_lookup_insert_ne by done. rewrite <- (Hc i z), lookup_app_Some, list_lookup_singleton_Some. naive_solver.
  - intros y. unfold inHeap. cbn. case_bool_decide as Hy.
    + subst y. by rewrite list_lookup_insert_eq.
    + by rewrite list_lookup_insert_ne by done.
Qed.

Lemma heap_insert_wp E n h : consistent h → all_valid h → valid n → inHeap h n = false →
  wp E (λ h', consistent h' ∧ (∀ x, inHeap h' x = bool_decide (x = n) || inHeap h x) ∧ (ordered h → ordered h')) (insert lt n h).
Proof.
  intros Hc Hv Vn Hn. unfold insert. set (h1 := MkHeap (heap h) (grow (indices h) n None)).
  assert (consistent h1) as Hc1 by by apply grow_none_consistent.
  assert (∀ x, inHeap h1 x = inHeap h x) as Hin.
  { intros x. unfold inHeap. cbn. rewrite grow_lookup. destruct (indices h !! x); [done|]. by case_decide. }
  rewrite Hin, Hn. cbn [negb check rbind].
  destruct (push_at_ok h1 n Hc1) as (h2 & E2 & Hc2 & Eh & _ & Hin2); [cbn; rewrite grow_length; lia|by rewrite Hin|].
  unfold push_at in E2. cbn [indices heap h1] in E2. destruct (upd (grow (indices h) n None) n _) as [ix|]; [|done]. cbn [rbind] in *.
  injection E2 as <-. assert (all_valid (MkHeap (heap h ++ [n]) ix)) as Hv2.
  { intros x. rewrite Hin2, Hin. case_bool_decide; [by subst|apply Hv]. }
  assert (heap (MkHeap (heap h ++ [n]) ix) !! length (heap h) = Some n) as Hi by by apply list_lookup_middle.
  destruct (position_ok (MkHeap (heap h ++ [n]) ix) n Hc2) as (i & E1 & Hi'); [by rewrite Hin2, bool_decide_true|].
  rewrite E1. cbn [rbind]. assert (i = length (heap h)) as -> by by eapply consistent_inj.
  eapply wp_mono; [apply percolateUp_wp; [done|done|cbn; rewrite length_app; cbn; lia]|]. intros h' (Hc' & (_ & _ & Hs) & Ho).
  split; [done|]. split; [intros x; by rewrite Hs, Hin2, Hin|]. intros Hord. apply Ho. split.
  - intros k K0 Kn x y Hx Hy. cbn [heap] in Hx, Hy. apply (Hord k K0 ltac:(lia) x y).
    + apply lookup_app_Some in Hx as [?|[? Hr]]; [done|]. apply list_lookup_singleton_Some in Hr. lia.
    + pose proof (parent_lt k K0). assert (k < length (heap h)).
      { apply lookup_lt_Some in Hx. rewrite length_app in Hx. cbn in Hx. lia. }
      by rewrite lookup_app_l in Hy by lia.
  - intros k K0 _ Ek x y Hx _. cbn [heap] in Hx. apply lookup_lt_Some in Hx. rewrite length_app in Hx. cbn in Hx. pose proof (parent_lt k K0). lia.
Qed.

(** Taking the last element off. *)
Lemma pop_consistent h y : consistent h → last (heap h) = Some y →
  consistent (MkHeap (take (length (heap h) - 1) (heap h)) (<[y := None]> (indices h)))
  ∧ ∀ x, inHeap (MkHeap (take (length (heap h) - 1) (heap h)) (<[y := None]> (indices h))) x = negb (bool_decide (x = y)) && inHeap h x.
Proof.
  intros Hc Hl. rewrite last_lookup in Hl. pose proof (consistent_index _ _ _ Hc Hl) as Ly. pose proof (lookup_lt_Some _ _ _ Hl) as Lh.
  replace (Nat.pred (length (heap h))) with (length (heap h) - 1) in * by lia. split.
  - intros i x. cbn. destruct (decide (x = y)) as [->|Hx].
    + rewrite list_lookup_insert_eq by done. split; [|done]. intros [Hi Hlt]%lookup_take_Some.
      pose proof (consistent_inj h _ _ _ Hc Hi Hl). lia.
    + rewrite list_lookup_insert_ne by done. rewrite <- (Hc i x), lookup_take_Some. split; [tauto|]. intros Hi. split; [done|].
      apply lookup_lt_Some in Hi as Li. destruct (decide (i = length (heap h) - 1)) as [->|]; [congruence|lia].
  - intros x. unfold inHeap. cbn. case_bool_decide as Hx.
    + subst x. by rewrite list_lookup_insert_eq.
    + by rewrite list_lookup_insert_ne by done.
Qed.

Lemma root_least h x : consistent h → all_valid h → ordered h → heap h !! 0 = Some x → ∀ y, inHeap h y = true → ltb y x = false.
Proof.
  intros Hc Hv Ho Hx. assert (∀ i y, heap h !! i = Some y → ltb y x = false) as H.
  { pose proof (valid_elem h _ _ Hc Hv Hx) as vx. intros i. induction (lt_wf i) as [i _ IH]. intros y Hy. pose proof (valid_elem h _ _ Hc Hv Hy) as vy.
    destruct (Nat.eq_dec i 0) as [->|Hi].
    { assert (y = x) as -> by congruence. destruct (ltb x x) eqn:L; [|done]. by rewrite <- (lt_asym x x), L. }
    pose proof (parent_lt i ltac:(lia)) as Hp. destruct (lookup_lt_is_Some_2 (heap h) (parent i)) as [z Hz].
    { apply lookup_lt_Some in Hy. lia. }
    apply (le_trans x z y); [done|by eapply valid_elem|done|by eapply IH|]. apply (Ho i); [lia|lia|done|done]. }
  intros y (i & Hi)%inHeap_iff. apply (H i). by apply Hc.
Qed.

Lemma removeMin_wp E h : consistent h → all_valid h → heap h ≠ [] →
  wp E (λ r, inHeap h r.1 = true ∧ consistent r.2 ∧ (∀ y, inHeap r.2 y = negb (bool_decide (y = r.1)) && inHeap h y)
    ∧ (ordered h → ordered r.2 ∧ ∀ y, inHeap h y = true → ltb y r.1 = false)) (removeMin lt h).
Proof.
  intros Hc Hv Hne. destruct (heap h) as [|x hs] eqn:Eh; [done|]. clear Hne.
  assert (heap h !! 0 = Some x) as Hx by by rewrite Eh. destruct (last (heap h)) as [y|] eqn:Hl; [|by rewrite Eh, last_cons in Hl; destruct (last hs)].
  pose proof Hl as Hy. rewrite last_lookup in Hy. pose proof (consistent_index _ _ _ Hc Hx) as Lx. pose proof (consistent_index _ _ _ Hc Hy) as Ly.
  pose proof (lookup_lt_Some _ _ _ Hx) as L0. pose proof (lookup_lt_Some _ _ _ Hy) as Ln.
  set (h3 := MkHeap (take (length (heap h) - 1) (<[0 := y]> (heap h))) (<[x := None]> (<[y := Some 0]> (indices h)))).
  assert (consistent h3 ∧ ∀ z, inHeap h3 z = negb (bool_decide (z = x)) && inHeap h z) as [Hc3 Hin3].
  { destruct (Nat.eq_dec (Nat.pred (length (heap h))) 0) as [En|En].
    - assert (y = x) as -> by (rewrite En in Hy; congruence). unfold h3. rewrite list_insert_insert_eq.
      replace (take (length (heap h) - 1) (<[0 := x]> (heap h))) with (take (length (heap h) - 1) (heap h)); [by apply pop_consistent|].
      by replace (length (heap h) - 1) with 0 by lia.
    - destruct (exchange_consistent h 0 (Nat.pred (length (heap h))) x y Hc Hx Hy ltac:(lia)) as [Hc' (El & _ & Hin')].
      destruct (pop_consistent _ x Hc') as [Hc2 Hin2].
      { rewrite last_lookup, El. cbn. by rewrite list_lookup_insert_eq by (rewrite length_insert; lia). }
      rewrite El in Hc2, Hin2. cbn [heap indices] in Hc2, Hin2. rewrite take_insert_ge, list_insert_insert_eq in Hc2, Hin2 by lia.
      split; [exact Hc2|]. intros z. by rewrite <- (Hin' z), <- (Hin2 z). }
  unfold removeMin, at_, last_. rewrite Hx, Hl. cbn [rbind]. rewrite place_ok by done. cbn [rbind]. unfold unplace, upd.
  rewrite placed_indices, (proj2 (Nat.ltb_lt _ _) Lx). cbn [rbind]. unfold pop, last_. cbn [heap placed].
  destruct (last (<[0 := y]> (heap h))) as [u|] eqn:Hl'.
  2:{ apply last_None in Hl'. apply (f_equal length) in Hl'. rewrite length_insert in Hl'. cbn in Hl'. lia. }
  cbn [rbind indices placed]. rewrite length_insert. fold h3.
  assert (all_valid h3) as Hv3 by (intros z; rewrite Hin3; intros [_ ?]%andb_true_iff; by apply Hv).
  assert (inHeap h x = true) as Hinx by (apply inHeap_iff; exists 0; by apply Hc).
  destruct (Nat.ltb_spec 1 (heap_size h3)) as [Hs|Hs]; cbn [rbind].
  - apply wp_bind. eapply wp_mono; [apply (percolateDown_wp E 0 0); [done..|unfold heap_size in *; lia]|].
    intros h' (Hc' & (_ & _ & Hin') & Ho). cbn. split; [done|]. split; [done|]. split; [intros z; by rewrite Hin'|]. intros Hord.
    split; [|by apply root_least]. apply Ho. split; [|lia]. intros k K0 _ Kp a b Ha Hb. cbn [heap h3] in Ha, Hb.
    apply lookup_take_Some in Ha as [Ha _]. apply lookup_take_Some in Hb as [Hb _]. rewrite list_lookup_insert_ne in Ha by lia.
    rewrite list_lookup_insert_ne in Hb by done. apply (Hord k K0 ltac:(lia) a b Ha Hb).
  - cbn. split; [done|]. split; [done|]. split; [done|]. intros Hord. split; [|by apply root_least].
    intros k K0 _ a b Ha _. apply lookup_lt_Some in Ha. unfold heap_size in Hs. lia.
Qed.


(** The loops of [filter] and [clear], with the elements [xs] still to be read. *)
Definition partial (xs : list nat) (h : Heap) : Prop :=
  NoDup xs ∧ (∀ x, x ∈ xs → x < length (indices h)) ∧ ∀ i x, heap h !! i = Some x ↔ (x ∉ xs) ∧ indices h !! x = Some (Some i).

Lemma partial_start h : consistent h → partial (heap h) (MkHeap [] (indices h)).
Proof.
  intros Hc. split; [|split].
  - apply NoDup_alt. intros i j x. by apply consistent_inj.
  - intros x [i Hi]%list_elem_of_lookup. exact (consistent_index h i x Hc Hi).
  - intros i x. cbn. split; [by rewrite lookup_nil|]. intros [Hx Hi%Hc]. exfalso. by eapply Hx, list_elem_of_lookup_2.
Qed.
Lemma partial_end h : partial [] h → consistent h.
Proof. intros (_ & _ & H) i x. rewrite H. set_solver. Qed.

Lemma filter_step (b : bool) x xs h : partial (x :: xs) h →
  ∃ h', (if b then push_at h x else unplace h x) = Ok h' ∧ partial xs h' ∧ length (indices h') = length (indices h)
    ∧ ∀ y, inHeap h' y = if bool_decide (y = x) then b else inHeap h y.
Proof.
  intros ((Hx & Hn)%NoDup_cons & Hl & Hp). pose proof (Hl x ltac:(set_solver)) as Lx.
  exists (MkHeap (if b then heap h ++ [x] else heap h) (<[x := if b then Some (length (heap h)) else None]> (indices h))).
  assert (∀ z, z ≠ x → z ∉ x :: xs ↔ z ∉ xs) as Hz by set_solver. split; [|split; [split; [done|split]|split]].
  - destruct b; unfold push_at, unplace, upd; by rewrite (proj2 (Nat.ltb_lt _ _) Lx).
  - intros y Hy. cbn. rewrite length_insert. apply Hl. set_solver.
  - intros i z. cbn. destruct (decide (z = x)) as [->|Hzx].
    + rewrite list_lookup_insert_eq by done. assert (heap h !! i ≠ Some x) as Hi by (rewrite Hp; set_solver). destruct b.
      * rewrite lookup_app_Some, list_lookup_singleton_Some. split; [intros [|[? [? _]]]; [done|]|intros [_ [= <-]]; right; split; [done|split; [lia|done]]].
        split; [done|]. f_equal. f_equal. lia.
      * split; [done|]. by intros [_ ?].
    + rewrite list_lookup_insert_ne by done. rewrite <- (Hz z Hzx), <- (Hp i z). destruct b; [|done].
      rewrite lookup_app_Some, list_lookup_singleton_Some. naive_solver.
  - apply length_insert.
  - intros y. unfold inHeap. cbn. case_bool_decide as Hy.
    + subst y. rewrite list_lookup_insert_eq by done. by destruct b.
    + by rewrite list_lookup_insert_ne by done.
Qed.

Lemma filter_loop (step : Heap → nat → res Heap) (g : nat → bool) xs : ∀ h,
  (∀ h x, x ∈ xs → step h x = if g x then push_at h x else unplace h x) → partial xs h →
  ∃ h', foldM step h xs = Ok h' ∧ consistent h' ∧ length (indices h') = length (indices h)
    ∧ ∀ y, inHeap h' y = if bool_decide (y ∈ xs) then g y else inHeap h y.
Proof.
  induction xs as [|x xs IH]; intros h Hs Hp; cbn [foldM].
  - exists h. split; [done|]. split; [by apply partial_end|]. done.
  - rewrite Hs by set_solver. destruct (filter_step (g x) x xs h Hp) as (h1 & -> & Hp1 & El & Hin). cbn [rbind].
    destruct (IH h1) as (h' & E & Hc & El' & Hin'); [intros; apply Hs; set_solver|done|]. exists h'. split; [done|]. split; [done|].
    split; [congruence|]. intros y. rewrite Hin', Hin. destruct Hp as ((Hx & _)%NoDup_cons & _).
    repeat case_bool_decide; set_solver.
Qed.

Lemma filter_wp E f (g : nat → bool) h : consistent h → all_valid h → (∀ x, x ∈ heap h → f x = Ok (g x)) →
  wp E (λ h', consistent h' ∧ ordered h' ∧ ∀ y, inHeap h' y = g y && inHeap h y) (filter lt f h).
Proof.
  intros Hc Hv Hf. unfold filter.
  destruct (filter_loop (λ h' x, let! b := f x in if b : bool then push_at h' x else unplace h' x) g (heap h) (MkHeap [] (indices h)))
    as (h1 & -> & Hc1 & _ & Hin); [|by apply partial_start|].
  { intros h1 x Hx. by rewrite Hf. }
  cbn [rbind]. assert (∀ y, inHeap h1 y = g y && inHeap h y) as Hin1.
  { intros y. rewrite Hin. pose proof (inHeap_elem h y Hc) as Hy. case_bool_decide as D.
    - apply Hy in D. by rewrite D, andb_true_r.
    - destruct (inHeap h y) eqn:Ey; [by destruct D; apply Hy|]. rewrite andb_false_r. exact Ey. }
  eapply wp_mono; [apply heapify_wp; [done|]|].
  - intros x. rewrite Hin1. intros [_ ?]%andb_true_iff. by apply Hv.
  - intros h' (Hc' & (_ & _ & Hs) & Ho). split; [done|]. split; [done|]. intros y. by rewrite Hs.
Qed.

Lemma clear_ok h : consistent h → ∃ h', clear h = Ok h' ∧ consistent h' ∧ length (indices h') = length (indices h) ∧ ∀ y, inHeap h' y = false.
Proof.
  intros Hc. unfold clear.
  enough (∀ xs h0, heap h0 = heap h → (∀ x, x ∈ xs → x < length (indices h)) → length (indices h0) = length (indices h) →
    (∀ y, y ∉ xs → inHeap h0 y = false) → ∃ h', foldM (λ h x, unplace h x) h0 xs = Ok h' ∧ length (indices h') = length (indices h) ∧ ∀ y, inHeap h' y = false) as H.
  { destruct (H (heap h) h) as (h' & -> & El & Hin); [done| |done| |].
    - intros x [i Hi]%list_elem_of_lookup. by eapply consistent_index.
    - intros y Hy. destruct (inHeap h y) eqn:E; [|done]. by apply inHeap_elem in E.
    - cbn [rbind]. eexists. split; [done|]. split; [|done]. intros i x. cbn. split; [done|]. intros Hi.
      specialize (Hin x). unfold inHeap in Hin. by rewrite Hi in Hin. }
  induction xs as [|x xs IH]; intros h0 Eh Hl El Hin; cbn [foldM].
  - exists h0. split; [done|]. split; [done|]. intros y. apply Hin. set_solver.
  - unfold unplace at 1, upd. rewrite El, (proj2 (Nat.ltb_lt _ _) (Hl x ltac:(set_solver))). cbn [rbind].
    apply IH; [done|intros; apply Hl; set_solver|cbn; by rewrite length_insert|].
    intros y Hy. unfold inHeap. cbn. destruct (decide (y = x)) as [->|Hyx].
    + rewrite list_lookup_insert_eq by (rewrite El; apply Hl; set_solver). done.
    + rewrite list_lookup_insert_ne by done. apply Hin. set_solver.
Qed.

Lemma build_wp E ns h : consistent h → NoDup ns → (∀ x, x ∈ ns → valid x ∧ x < length (indices h)) →
  wp E (λ h', consistent h' ∧ ordered h' ∧ ∀ y, inHeap h' y = bool_decide (y ∈ ns)) (build lt ns h).
Proof.
  intros Hc Hn Hv. unfold build. destruct (clear_ok h Hc) as (h0 & -> & Hc0 & El & Hin). cbn [rbind].
  destruct (filter_loop push_at (λ _, true) ns h0) as (h1 & -> & Hc1 & _ & Hin1); [done| |].
  { split; [done|]. split; [intros; rewrite El; by apply Hv|]. intros i x. rewrite (Hc0 i x). split; [|tauto]. intros Hi.
    specialize (Hin x). unfold inHeap in Hin. by rewrite Hi in Hin. }
  cbn [rbind]. assert (∀ y, inHeap h1 y = bool_decide (y ∈ ns)) as Hin2 by (intros y; rewrite Hin1, Hin; by case_bool_decide).
  eapply wp_mono; [apply heapify_wp; [done|]|].
  - intros x. rewrite Hin2. intros ?%bool_decide_eq_true. by apply Hv.
  - intros h' (Hc' & (_ & _ & Hs) & Ho). split; [done|]. split; [done|]. intros y. by rewrite Hs.
Qed.

End order.
