(* ===== verification/SatData.v ===== *)
(** * Data of the SAT solver

    minisat/core/SolverTypes.h: clauses and their allocator, the lists of
    watchers with lazy removal; common/Random.h; and the two parts of the state
    of [CoreSMTSolver] (smtsolvers/CoreSMTSolver.h/.cc) that nearly all of its
    operations share: the assignment, with its levels and reasons, and the data
    base of clauses.  Floating-point numbers are a class: none of the results
    depends on how they are rounded. *)
From S2P Require Import Prelude Terms SatLits Heap Sort.
From Stdlib Require Import Lia.

#[local] Open Scope nat_scope.

(** ** Floating point

    [double]: the conversion from [int], decimal literals [m * 10 ^ e], the
    operations, the conversion to [int], and rounding to [float]. *)
Class Double (F : Type) : Type := {
  d_of_Z : Z → F;
  d_lit : Z → Z → F;
  d_add : F → F → F;
  d_sub : F → F → F;
  d_mul : F → F → F;
  d_div : F → F → F;
  d_lt : F → F → bool;
  d_eq : F → F → bool;
  d_trunc : F → Z;
  d_float : F → F;
}.

Section random.
Context {F : Type} `{Double F}.

(** The number and the new seed. *)
Definition drand (seed : F) : res (F * F) :=
  let! _ := check (negb (d_eq seed (d_of_Z 0))) in
  let seed := d_mul seed (d_of_Z 1389796) in
  let q := d_trunc (d_div seed (d_of_Z 2147483647)) in
  let seed := d_sub seed (d_mul (d_of_Z q) (d_of_Z 2147483647)) in
  Ok (d_div seed (d_of_Z 2147483647), seed).
Definition irand (seed : F) (size : nat) : res (Z * F) :=
  let! r := drand seed in Ok (d_trunc (d_mul r.1 (d_of_Z (Z.of_nat size))), r.2).

End random.

(** What the solver needs of these numbers: the order is a strict weak order (no
    operation of the solver makes a NaN), and the random numbers are in their
    range. *)
Class DoubleLaws (F : Type) `{Double F} : Type := {
  d_lt_asym x y : d_lt x y = true → d_lt y x = false;
  d_lt_neg_trans x y z : d_lt y x = false → d_lt z y = false → d_lt z x = false;
  seed_ok : F → Prop;
  drand_ok s : seed_ok s → ∃ x s', drand s = Ok (x, s') ∧ seed_ok s';
  irand_ok s n : seed_ok s → 0 < n → ∃ i s', irand s n = Ok (i, s') ∧ seed_ok s' ∧ (0 ≤ i < Z.of_nat n)%Z;
}.

(** ** Values *)

Definition lbool_of_bool (b : bool) : lbool := if b then l_True else l_False.
(** [lbool::operator ^] *)
Definition lbool_xor (x : lbool) (b : bool) : lbool :=
  match x with l_True => if b then l_False else l_True | l_False => if b then l_True else l_False | l_Undef => l_Undef end.

(** ** Clauses *)

(** A reference to a clause is its number, in the order of allocation. *)
Abbreviation CRef := nat (only parsing).

(** The reasons of assignments: [CRef_Undef], [CRef_Fake] for what the theory
    deduced, or a clause. *)
Inductive Reason : Type := CRef_Undef | CRef_Fake | CRef_at (cr : CRef).
#[export] Instance Reason_eq_dec : EqDecision Reason.
Proof. solve_decision. Defined.

Section clauses.
Context {F : Type} `{Double F}.

(** The activity is in the extra field; the abstraction of the literals that other
    clauses have there is only used by the preprocessor. *)
Record Clause : Type := MkClause {
  lits : list Lit;
  c_mark : nat;
  c_learnt : bool;
  c_extra : bool;
  c_activity : F;
  c_glue : nat;
}.

Definition set_lits (ps : list Lit) (c : Clause) : Clause := MkClause ps (c_mark c) (c_learnt c) (c_extra c) (c_activity c) (c_glue c).
Definition set_mark (m : nat) (c : Clause) : Clause := MkClause (lits c) m (c_learnt c) (c_extra c) (c_activity c) (c_glue c).
Definition set_activity (x : F) (c : Clause) : Clause := MkClause (lits c) (c_mark c) (c_learnt c) (c_extra c) x (c_glue c).
Definition setGlue (g : nat) (c : Clause) : res Clause :=
  let! _ := check (g <? 8) in Ok (MkClause (lits c) (c_mark c) (c_learnt c) (c_extra c) (c_activity c) g).
Definition activity_of (c : Clause) : res F := let! _ := check (c_extra c) in Ok (c_activity c).

(** The memory; [ca_size] and [ca_wasted] count words of 32 bits. *)
Record ClauseAllocator : Type := MkCA { mem : list Clause; ca_size : nat; ca_wasted : nat; extra_clause_field : bool }.

Definition clauseWord32Size (size : nat) (has_extra : bool) : nat := 1 + size + Nat.b2n has_extra.
Definition clause_words (c : Clause) : nat := clauseWord32Size (length (lits c)) (c_extra c).

Definition alloc (ps : list Lit) (learnt : bool) (glue : nat) (ca : ClauseAllocator) : res (CRef * ClauseAllocator) :=
  let use_extra := learnt || extra_clause_field ca in
  let c := MkClause ps 0 learnt use_extra (d_of_Z 0) 7 in
  let! c := (if learnt then setGlue glue c else Ok c) in
  Ok (length (mem ca), MkCA (mem ca ++ [c]) (ca_size ca + clause_words c) (ca_wasted ca) (extra_clause_field ca)).
Definition free (cid : CRef) (ca : ClauseAllocator) : res ClauseAllocator :=
  let! c := at_ (mem ca) cid in Ok (MkCA (mem ca) (ca_size ca) (ca_wasted ca + clause_words c) (extra_clause_field ca)).
Definition set_clause (cr : CRef) (c : Clause) (ca : ClauseAllocator) : res ClauseAllocator :=
  let! m := upd (mem ca) cr c in Ok (MkCA m (ca_size ca) (ca_wasted ca) (extra_clause_field ca)).

(** ** Watchers *)

Record Watcher : Type := MkWatcher { cref : CRef; blocker : Lit }.

(** [OccLists<Lit, vec<Watcher>, WatcherDeleted>] *)
Record OccLists : Type := MkOccLists { occs : list (list Watcher); dirty : list bool; dirties : list Lit }.

Definition WatcherDeleted (ca : ClauseAllocator) (w : Watcher) : res bool :=
  let! c := at_ (mem ca) (cref w) in Ok (c_mark c =? 1).

Definition occs_init (idx : Lit) (o : OccLists) : OccLists :=
  MkOccLists (grow (occs o) (toInt idx) []) (grow (dirty o) (toInt idx) false) (dirties o).
Definition occs_at (idx : Lit) (o : OccLists) : res (list Watcher) := at_ (occs o) (toInt idx).
Definition occs_set (idx : Lit) (ws : list Watcher) (o : OccLists) : res OccLists :=
  let! l := upd (occs o) (toInt idx) ws in Ok (MkOccLists l (dirty o) (dirties o)).
Definition occs_push (idx : Lit) (w : Watcher) (o : OccLists) : res OccLists :=
  let! ws := occs_at idx o in occs_set idx (ws ++ [w]) o.
Definition clean (ca : ClauseAllocator) (idx : Lit) (o : OccLists) : res OccLists :=
  let! ws := occs_at idx o in
  let! ws := foldM (λ ws' w, let! b := WatcherDeleted ca w in Ok (if b : bool then ws' else ws' ++ [w])) [] ws in
  let! o := occs_set idx ws o in
  let! d := upd (dirty o) (toInt idx) false in
  Ok (MkOccLists (occs o) d (dirties o)).
Definition cleanAll (ca : ClauseAllocator) (o : OccLists) : res OccLists :=
  let! o := foldM (λ o idx, let! b := at_ (dirty o) (toInt idx) in if b : bool then clean ca idx o else Ok o) o (dirties o) in
  Ok (MkOccLists (occs o) (dirty o) []).
Definition smudge (idx : Lit) (o : OccLists) : res OccLists :=
  let! b := at_ (dirty o) (toInt idx) in
  if b : bool then Ok o
  else let! d := upd (dirty o) (toInt idx) true in Ok (MkOccLists (occs o) d (dirties o ++ [idx])).

(** [remove] of minisat/mtl/Alg.h, on watchers; they are compared by their clauses. *)
Fixpoint remove_watcher (cr : CRef) (ws : list Watcher) : res (list Watcher) :=
  match ws with
  | [] => Err Assertion_failed
  | w :: ws => if cref w =? cr then Ok ws else let! ws := remove_watcher cr ws in Ok (w :: ws)
  end.

End clauses.
Arguments Clause : clear implicits.
Arguments ClauseAllocator : clear implicits.

(** ** The assignment *)

Record VarData : Type := MkVarData { reason : Reason; level : nat }.

Record Assignment : Type := MkAssignment {
  assigns : list lbool;
  vardata : list VarData;
  trail : list Lit;
  trail_lim : list nat;
  qhead : nat;
}.

Section assignment.
Implicit Types (a : Assignment).

Definition set_qhead (q : nat) a : Assignment := MkAssignment (assigns a) (vardata a) (trail a) (trail_lim a) q.
Definition set_trail (t : list Lit) a : Assignment := MkAssignment (assigns a) (vardata a) t (trail_lim a) (qhead a).
Definition set_trail_lim (l : list nat) a : Assignment := MkAssignment (assigns a) (vardata a) (trail a) l (qhead a).

Definition decisionLevel a : nat := length (trail_lim a).
Definition nVars a : nat := length (vardata a).
Definition nAssigns a : nat := length (trail a).
Definition value_var a (x : Var) : res lbool := at_ (assigns a) x.
Definition value a (p : Lit) : res lbool := let! x := at_ (assigns a) (var p) in Ok (lbool_xor x (sign p)).
Definition level_of a (x : Var) : res nat := let! d := at_ (vardata a) x in Ok (level d).
Definition reason_of a (x : Var) : res Reason := let! d := at_ (vardata a) x in Ok (reason d).
Definition set_reason (x : Var) (r : Reason) a : res Assignment :=
  let! d := at_ (vardata a) x in
  let! l := upd (vardata a) x (MkVarData r (level d)) in
  Ok (MkAssignment (assigns a) l (trail a) (trail_lim a) (qhead a)).
(** [assigns[x] = l_Undef] *)
Definition unassign (x : Var) a : res Assignment :=
  let! l := upd (assigns a) x l_Undef in Ok (MkAssignment l (vardata a) (trail a) (trail_lim a) (qhead a)).

(** [isTheoryTerm] says whether the atom of a variable is one of the theory. *)
Definition uncheckedEnqueue (isTheoryTerm : Var → bool) (p : Lit) (from : Reason) a : res Assignment :=
  let! _ := check (negb (bool_decide (from = CRef_Fake)) || isTheoryTerm (var p)) in
  let! x := value a p in
  let! _ := check (bool_decide (x = l_Undef)) in
  let! s := upd (assigns a) (var p) (lbool_of_bool (negb (sign p))) in
  let! d := upd (vardata a) (var p) (MkVarData from (decisionLevel a)) in
  Ok (MkAssignment s d (trail a ++ [p]) (trail_lim a) (qhead a)).

(** [1 << (level(x) & 31)] *)
Definition abstractLevel a (x : Var) : res Z := let! l := level_of a x in Ok (Z.shiftl 1 (Z.of_nat l mod 32)).

End assignment.

(** ** The data base of clauses *)

Section database.
Context {F : Type} `{Double F}.

Record Database : Type := MkDatabase {
  ca : ClauseAllocator F;
  watches : OccLists;
  clauses : list CRef;
  learnts : list CRef;
  clauses_literals : nat;
  learnts_literals : nat;
  cla_inc : F;
}.
Implicit Types (a : Assignment) (d : Database).

Definition set_ca (m : ClauseAllocator F) d : Database := MkDatabase m (watches d) (clauses d) (learnts d) (clauses_literals d) (learnts_literals d) (cla_inc d).
Definition set_watches (w : OccLists) d : Database := MkDatabase (ca d) w (clauses d) (learnts d) (clauses_literals d) (learnts_literals d) (cla_inc d).
Definition set_clauses (l : list CRef) d : Database := MkDatabase (ca d) (watches d) l (learnts d) (clauses_literals d) (learnts_literals d) (cla_inc d).
Definition set_learnts (l : list CRef) d : Database := MkDatabase (ca d) (watches d) (clauses d) l (clauses_literals d) (learnts_literals d) (cla_inc d).
Definition set_literals (m n : nat) d : Database := MkDatabase (ca d) (watches d) (clauses d) (learnts d) m n (cla_inc d).
Definition set_cla_inc (x : F) d : Database := MkDatabase (ca d) (watches d) (clauses d) (learnts d) (clauses_literals d) (learnts_literals d) x.

Definition clause_at (cr : CRef) d : res (Clause F) := at_ (mem (ca d)) cr.
Definition put_clause (cr : CRef) (c : Clause F) d : res Database := let! m := set_clause cr c (ca d) in Ok (set_ca m d).
Definition new_clause (ps : list Lit) (learnt : bool) (glue : nat) d : res (CRef * Database) :=
  let! r := alloc ps learnt glue (ca d) in Ok (r.1, set_ca r.2 d).
Definition free_clause (cr : CRef) d : res Database := let! m := free cr (ca d) in Ok (set_ca m d).
Definition watch (p : Lit) (w : Watcher) d : res Database := let! o := occs_push p w (watches d) in Ok (set_watches o d).

Definition attachClause a (cr : CRef) d : res Database :=
  let! c := clause_at cr d in
  let! _ := check (1 <? length (lits c)) in
  let! c0 := at_ (lits c) 0 in
  let! c1 := at_ (lits c) 1 in
  let! v0 := value a c0 in
  let! v1 := value a c1 in
  let! _ := check (bool_decide (v0 ≠ l_False) || bool_decide (v1 ≠ l_False)) in
  let! d := watch (lit_not c0) (MkWatcher cr c1) d in
  let! d := watch (lit_not c1) (MkWatcher cr c0) d in
  Ok (if c_learnt c then set_literals (clauses_literals d) (learnts_literals d + length (lits c)) d
      else set_literals (clauses_literals d + length (lits c)) (learnts_literals d) d).

Definition detachClause (cr : CRef) (strict : bool) d : res Database :=
  let! c := clause_at cr d in
  let! _ := check (1 <? length (lits c)) in
  let! c0 := at_ (lits c) 0 in
  let! c1 := at_ (lits c) 1 in
  let! o :=
    (if strict then
       let! ws := occs_at (lit_not c0) (watches d) in
       let! ws := remove_watcher cr ws in
       let! o := occs_set (lit_not c0) ws (watches d) in
       let! ws := occs_at (lit_not c1) o in
       let! ws := remove_watcher cr ws in
       occs_set (lit_not c1) ws o
     else
       let! o := smudge (lit_not c0) (watches d) in
       smudge (lit_not c1) o) in
  let d := set_watches o d in
  Ok (if c_learnt c then set_literals (clauses_literals d) (learnts_literals d - length (lits c)) d
      else set_literals (clauses_literals d - length (lits c)) (learnts_literals d) d).

(** Whether the clause is the reason of its first literal. *)
Definition locked a (cr : CRef) (c : Clause F) : res bool :=
  let! c0 := at_ (lits c) 0 in
  let! v := value a c0 in
  if bool_decide (v = l_True) then let! r := reason_of a (var c0) in Ok (bool_decide (r = CRef_at cr)) else Ok false.

Definition removeClause (cr : CRef) a d : res (Assignment * Database) :=
  let! d := detachClause cr false d in
  let! c := clause_at cr d in
  let! b := locked a cr c in
  let! a := (if b : bool then let! c0 := at_ (lits c) 0 in set_reason (var c0) CRef_Undef a else Ok a) in
  let! d := put_clause cr (set_mark 1 c) d in
  let! d := free_clause cr d in
  Ok (a, d).

(** The loop returns at the first true literal. *)
Definition satisfied a (c : Clause F) : res bool :=
  foldM (λ (b : bool) p, if b then Ok b else let! x := value a p in Ok (bool_decide (x = l_True))) false (lits c).

Definition claBumpActivity (cr : CRef) d : res Database :=
  let! c := clause_at cr d in
  let! x := activity_of c in
  let x := d_float (d_add x (cla_inc d)) in
  let! d := put_clause cr (set_activity x c) d in
  if d_lt (d_lit 1 20) x then
    let! d := foldM (λ d cr,
      let! c := clause_at cr d in
      let! x := activity_of c in
      put_clause cr (set_activity (d_float (d_mul x (d_lit 1 (-20)))) c) d) d (learnts d) in
    Ok (set_cla_inc (d_mul (cla_inc d) (d_lit 1 (-20))) d)
  else Ok d.

End database.
Arguments Database : clear implicits.
