(* ===== verification/SatCore.v ===== *)
(** * The SAT solver

    [CoreSMTSolver] (smtsolvers/CoreSMTSolver.h/.cc, TheoryIF.cc): conflict-driven
    clause learning with two watched literals, over a theory.  The theory
    handler is the class [THandler]; its laws are in [SatSpec].  Proofs for
    interpolation are not logged, nothing is printed, and the statistics that no
    decision depends on are left out. *)
From S2P Require Import Prelude NatSet Terms SatLits Heap Sort SatData.
From stdpp Require Import gmap sorting.
From Stdlib Require Import Lia.

#[local] Open Scope nat_scope.

(** [TRes] and [TPropRes] *)
Inductive TRes : Type := TSAT | TUNSAT | TUNKNOWN.
Inductive TPropRes : Type := PUndef | PUnsat | PPropagate | PDecide.

(** [THandler] with the term mapper and the logic behind it, on variables of the
    solver; [max_decision_level] of [getConflict] may be negative. *)
Class THandler (Th : Type) : Type := {
  isTheoryTerm : Var → bool;
  appearsInUF : Var → bool;
  th_clear : Th → res Th;
  th_declareAtom : Var → Th → res Th;
  th_isDeclared : Var → Th → bool;
  th_assertLits : list Lit → Th → res (bool * Th);
  th_check : bool → Th → res (TRes * Th);
  th_getNewSplits : Th → res (list (list Lit) * Th);
  th_getDeduction : Th → res (option Lit * Th);
  th_getConflict : list VarData → Th → res (list Lit * Z * Th);
  th_getReason : Lit → Th → res (list Lit * Th);
  th_getPolaritySuggestion : Var → Th → res (lbool * Th);
  th_backtrack : Z → Th → res Th;
}.

(** The options of [SMTConfig] that the solver reads. *)
Record SatConfig {F : Type} : Type := MkSatConfig {
  var_decay : F;
  clause_decay : F;
  random_var_freq : F;
  garbage_frac : F;
  restart_first : Z;
  restart_inc : F;
  ccmin_mode : Z;
  rnd_init_act : bool;
  initial_random_seed : F;
  sat_initial_skip_step : F;
  sat_skip_step_factor : F;
  sat_use_luby_restart : bool;
  sat_learn_up_to_size : nat;
  sat_temporary_learn : bool;
  sat_minimize_conflicts : Z;
  use_theory_polarity_suggestion : bool;
}.
Arguments SatConfig : clear implicits.

(** ** State *)

Section solver.
Context {F Th : Type} `{Double F} `{THandler Th}.

(** What decisions are made with. *)
Record Decisions : Type := MkDecisions {
  activity : list F;
  var_inc : F;
  order_heap : Heap;
  decision : list bool;
  savedPolarity : list bool;
  longestTrail : nat;
  conflictsUntilFlip : Z;
  flipState : bool;
  random_seed : F;
}.

(** Counters, budgets and restarts; [stop_after] is the number of further times
    that [opensmt::stop], which another thread sets, is read as false. *)
Record Control : Type := MkControl {
  conflicts : nat;
  propagations : nat;
  conflict_budget : Z;
  propagation_budget : Z;
  asynch_interrupt : bool;
  stop_after : nat;
  simpDB_assigns : Z;
  simpDB_props : Z;
  nof_learnts : Z;
  skip_step : F;
  skipped_calls : nat;
  luby_i : nat;
  luby_k : nat;
  luby_previous : list Z;
}.

Record Solver : Type := MkSolver {
  config : SatConfig F;
  theory : Th;
  asg : Assignment;
  db : Database F;
  dec : Decisions;
  ctl : Control;
  ok : bool;
  conflict_frame : nat;
  remove_satisfied : bool;
  assumptions : list Lit;
  assumptions_order : gmap Var nat;
  model : list lbool;
  conflict : list Lit;
  seen : list bool;
  var_seen : list bool;
  levelsInClause : nat_set.nat_set;
  analyze_toclear : list Lit;
  cleanup : list CRef;
}.
Implicit Types (s : Solver) (a : Assignment) (d : Database F) (o : Decisions).

Definition set_theory x s : Solver := MkSolver (config s) x (asg s) (db s) (dec s) (ctl s) (ok s) (conflict_frame s) (remove_satisfied s)
  (assumptions s) (assumptions_order s) (model s) (conflict s) (seen s) (var_seen s) (levelsInClause s) (analyze_toclear s) (cleanup s).
Definition set_asg x s : Solver := MkSolver (config s) (theory s) x (db s) (dec s) (ctl s) (ok s) (conflict_frame s) (remove_satisfied s)
  (assumptions s) (assumptions_order s) (model s) (conflict s) (seen s) (var_seen s) (levelsInClause s) (analyze_toclear s) (cleanup s).
Definition set_db x s : Solver := MkSolver (config s) (theory s) (asg s) x (dec s) (ctl s) (ok s) (conflict_frame s) (remove_satisfied s)
  (assumptions s) (assumptions_order s) (model s) (conflict s) (seen s) (var_seen s) (levelsInClause s) (analyze_toclear s) (cleanup s).
Definition set_dec x s : Solver := MkSolver (config s) (theory s) (asg s) (db s) x (ctl s) (ok s) (conflict_frame s) (remove_satisfied s)
  (assumptions s) (assumptions_order s) (model s) (conflict s) (seen s) (var_seen s) (levelsInClause s) (analyze_toclear s) (cleanup s).
Definition set_ctl x s : Solver := MkSolver (config s) (theory s) (asg s) (db s) (dec s) x (ok s) (conflict_frame s) (remove_satisfied s)
  (assumptions s) (assumptions_order s) (model s) (conflict s) (seen s) (var_seen s) (levelsInClause s) (analyze_toclear s) (cleanup s).
Definition set_ok x s : Solver := MkSolver (config s) (theory s) (asg s) (db s) (dec s) (ctl s) x (conflict_frame s) (remove_satisfied s)
  (assumptions s) (assumptions_order s) (model s) (conflict s) (seen s) (var_seen s) (levelsInClause s) (analyze_toclear s) (cleanup s).
Definition set_conflict_frame x s : Solver := MkSolver (config s) (theory s) (asg s) (db s) (dec s) (ctl s) (ok s) x (remove_satisfied s)
  (assumptions s) (assumptions_order s) (model s) (conflict s) (seen s) (var_seen s) (levelsInClause s) (analyze_toclear s) (cleanup s).
Definition set_assumptions x y s : Solver := MkSolver (config s) (theory s) (asg s) (db s) (dec s) (ctl s) (ok s) (conflict_frame s) (remove_satisfied s)
  x y (model s) (conflict s) (seen s) (var_seen s) (levelsInClause s) (analyze_toclear s) (cleanup s).
Definition set_results x y s : Solver := MkSolver (config s) (theory s) (asg s) (db s) (dec s) (ctl s) (ok s) (conflict_frame s) (remove_satisfied s)
  (assumptions s) (assumptions_order s) x y (seen s) (var_seen s) (levelsInClause s) (analyze_toclear s) (cleanup s).
Definition set_seen x s : Solver := MkSolver (config s) (theory s) (asg s) (db s) (dec s) (ctl s) (ok s) (conflict_frame s) (remove_satisfied s)
  (assumptions s) (assumptions_order s) (model s) (conflict s) x (var_seen s) (levelsInClause s) (analyze_toclear s) (cleanup s).
Definition set_var_seen x s : Solver := MkSolver (config s) (theory s) (asg s) (db s) (dec s) (ctl s) (ok s) (conflict_frame s) (remove_satisfied s)
  (assumptions s) (assumptions_order s) (model s) (conflict s) (seen s) x (levelsInClause s) (analyze_toclear s) (cleanup s).
Definition set_levels x s : Solver := MkSolver (config s) (theory s) (asg s) (db s) (dec s) (ctl s) (ok s) (conflict_frame s) (remove_satisfied s)
  (assumptions s) (assumptions_order s) (model s) (conflict s) (seen s) (var_seen s) x (analyze_toclear s) (cleanup s).
Definition set_toclear x s : Solver := MkSolver (config s) (theory s) (asg s) (db s) (dec s) (ctl s) (ok s) (conflict_frame s) (remove_satisfied s)
  (assumptions s) (assumptions_order s) (model s) (conflict s) (seen s) (var_seen s) (levelsInClause s) x (cleanup s).
Definition set_cleanup x s : Solver := MkSolver (config s) (theory s) (asg s) (db s) (dec s) (ctl s) (ok s) (conflict_frame s) (remove_satisfied s)
  (assumptions s) (assumptions_order s) (model s) (conflict s) (seen s) (var_seen s) (levelsInClause s) (analyze_toclear s) x.

Definition set_activity_inc x y o : Decisions :=
  MkDecisions x y (order_heap o) (decision o) (savedPolarity o) (longestTrail o) (conflictsUntilFlip o) (flipState o) (random_seed o).
Definition set_order_heap x o : Decisions :=
  MkDecisions (activity o) (var_inc o) x (decision o) (savedPolarity o) (longestTrail o) (conflictsUntilFlip o) (flipState o) (random_seed o).
Definition set_decision x o : Decisions :=
  MkDecisions (activity o) (var_inc o) (order_heap o) x (savedPolarity o) (longestTrail o) (conflictsUntilFlip o) (flipState o) (random_seed o).
Definition set_polarity x y o : Decisions :=
  MkDecisions (activity o) (var_inc o) (order_heap o) (decision o) x y (conflictsUntilFlip o) (flipState o) (random_seed o).
Definition set_flip x y o : Decisions :=
  MkDecisions (activity o) (var_inc o) (order_heap o) (decision o) (savedPolarity o) (longestTrail o) x y (random_seed o).
Definition set_random_seed x o : Decisions :=
  MkDecisions (activity o) (var_inc o) (order_heap o) (decision o) (savedPolarity o) (longestTrail o) (conflictsUntilFlip o) (flipState o) x.

Definition set_conflicts x (c : Control) : Control := MkControl x (propagations c) (conflict_budget c) (propagation_budget c) (asynch_interrupt c) (stop_after c)
  (simpDB_assigns c) (simpDB_props c) (nof_learnts c) (skip_step c) (skipped_calls c) (luby_i c) (luby_k c) (luby_previous c).
Definition set_propagations x y (c : Control) : Control := MkControl (conflicts c) x (conflict_budget c) (propagation_budget c) (asynch_interrupt c) (stop_after c)
  (simpDB_assigns c) y (nof_learnts c) (skip_step c) (skipped_calls c) (luby_i c) (luby_k c) (luby_previous c).
Definition set_budgets x y (c : Control) : Control := MkControl (conflicts c) (propagations c) x y (asynch_interrupt c) (stop_after c)
  (simpDB_assigns c) (simpDB_props c) (nof_learnts c) (skip_step c) (skipped_calls c) (luby_i c) (luby_k c) (luby_previous c).
Definition set_stop_after x (c : Control) : Control := MkControl (conflicts c) (propagations c) (conflict_budget c) (propagation_budget c) (asynch_interrupt c) x
  (simpDB_assigns c) (simpDB_props c) (nof_learnts c) (skip_step c) (skipped_calls c) (luby_i c) (luby_k c) (luby_previous c).
Definition set_simpDB x y (c : Control) : Control := MkControl (conflicts c) (propagations c) (conflict_budget c) (propagation_budget c) (asynch_interrupt c) (stop_after c)
  x y (nof_learnts c) (skip_step c) (skipped_calls c) (luby_i c) (luby_k c) (luby_previous c).
Definition set_nof_learnts x (c : Control) : Control := MkControl (conflicts c) (propagations c) (conflict_budget c) (propagation_budget c) (asynch_interrupt c) (stop_after c)
  (simpDB_assigns c) (simpDB_props c) x (skip_step c) (skipped_calls c) (luby_i c) (luby_k c) (luby_previous c).
Definition set_skip x y (c : Control) : Control := MkControl (conflicts c) (propagations c) (conflict_budget c) (propagation_budget c) (asynch_interrupt c) (stop_after c)
  (simpDB_assigns c) (simpDB_props c) (nof_learnts c) x y (luby_i c) (luby_k c) (luby_previous c).
Definition set_luby x y z (c : Control) : Control := MkControl (conflicts c) (propagations c) (conflict_budget c) (propagation_budget c) (asynch_interrupt c) (stop_after c)
  (simpDB_assigns c) (simpDB_props c) (nof_learnts c) (skip_step c) (skipped_calls c) x y z.

(** ** Decisions: the heap of variables and their activities *)

(** [VarOrderLt] *)
Definition VarOrderLt (act : list F) (x y : Var) : res bool :=
  let! ax := at_ act x in let! ay := at_ act y in Ok (d_lt ay ax).

Definition insertVarOrder (x : Var) o : res Decisions :=
  if inHeap (order_heap o) x then Ok o
  else
    let! b := at_ (decision o) x in
    if b : bool then let! h := Heap.insert (VarOrderLt (activity o)) x (order_heap o) in Ok (set_order_heap h o) else Ok o.

Definition setDecisionVar (v : Var) (b : bool) o : res Decisions :=
  let! l := upd (decision o) v b in insertVarOrder v (set_decision l o).

Definition varDecayActivity (cfg : SatConfig F) o : Decisions := set_activity_inc (activity o) (d_mul (var_inc o) (var_decay cfg)) o.
Definition claDecayActivity (cfg : SatConfig F) d : Database F := set_cla_inc (d_mul (cla_inc d) (clause_decay cfg)) d.

Definition varBumpActivity (v : Var) o : res Decisions :=
  let! x := at_ (activity o) v in
  let x := d_add x (var_inc o) in
  let! act := upd (activity o) v x in
  let o := set_activity_inc act (var_inc o) o in
  let o := (if d_lt (d_lit 1 100) x
            then set_activity_inc ((λ y, d_mul y (d_lit 1 (-100))) <$> activity o) (d_mul (var_inc o) (d_lit 1 (-100))) o else o) in
  if inHeap (order_heap o) v then let! h := decrease (VarOrderLt (activity o)) v (order_heap o) in Ok (set_order_heap h o) else Ok o.

Definition branchLitRandom (cfg : SatConfig F) o : res (bool * Decisions) :=
  let! r := drand (random_seed o) in
  Ok (d_lt r.1 (random_var_freq cfg) && (0 <? heap_size (order_heap o)), set_random_seed r.2 o).

(** [var_Undef] is [None]. *)
Definition doRandomDecision (cfg : SatConfig F) o : res (option Var * Decisions) :=
  let! r := branchLitRandom cfg o in
  if r.1 : bool then
    let! i := irand (random_seed r.2) (heap_size (order_heap r.2)) in
    let! _ := check (0 <=? i.1)%Z in
    let! next := at_ (heap (order_heap r.2)) (Z.to_nat i.1) in
    Ok (Some next, set_random_seed i.2 r.2)
  else Ok (None, r.2).

(** Whether a candidate cannot be decided. *)
Definition rejected a o (next : Var) : res bool :=
  let! x := value_var a next in
  let! b := at_ (decision o) next in
  Ok (bool_decide (x ≠ l_Undef) || negb b).

(** Every round takes an element off the heap. *)
Fixpoint activity_from (fuel : nat) a o : res (option Var * Decisions) :=
  if heap_size (order_heap o) =? 0 then Ok (None, o)
  else
    match fuel with
    | O => Err Out_of_fuel
    | S fuel =>
        let! r := removeMin (VarOrderLt (activity o)) (order_heap o) in
        let o := set_order_heap r.2 o in
        let! b := rejected a o r.1 in
        if b : bool then activity_from fuel a o else Ok (Some r.1, o)
    end.
Definition doActivityDecision a o : res (option Var * Decisions) := activity_from (heap_size (order_heap o)) a o.

Definition choosePolarity (next : Var) s : res (Lit * Solver) :=
  let! r := (if use_theory_polarity_suggestion (config s) && th_isDeclared next (theory s)
             then th_getPolaritySuggestion next (theory s) else Ok (l_Undef, theory s)) in
  let s := set_theory r.2 s in
  if bool_decide (r.1 = l_Undef) then
    let! p := at_ (savedPolarity (dec s)) next in Ok (mkLit next (Bool.eqb p (flipState (dec s))), s)
  else Ok (mkLit next (bool_decide (r.1 ≠ l_True)), s).

(** [lit_Undef] is [None]. *)
Definition pickBranchLit s : res (option Lit * Solver) :=
  let! r := doRandomDecision (config s) (dec s) in
  let! b := match r.1 with Some next => rejected (asg s) r.2 next | None => Ok true end in
  let! r := (if b : bool then doActivityDecision (asg s) r.2 else Ok r) in
  let s := set_dec r.2 s in
  match r.1 with
  | None => Ok (None, s)
  | Some next => let! p := choosePolarity next s in Ok (Some p.1, p.2)
  end.

(** ** Variables *)

(** In [CoreSMTSolver::newVar] all vectors of variables get an element. *)
Definition newVar (dvar : bool) s : res (Var * Solver) :=
  let v := nVars (asg s) in
  let d := db s in
  let d := set_watches (occs_init (mkLit v true) (occs_init (mkLit v false) (watches d))) d in
  let a := asg s in
  let a := MkAssignment (assigns a ++ [l_Undef]) (vardata a ++ [MkVarData CRef_Undef 0]) (trail a) (trail_lim a) (qhead a) in
  let! r := (if rnd_init_act (config s)
             then let! r := drand (random_seed (dec s)) in Ok (d_mul r.1 (d_lit 1 (-5)), r.2)
             else Ok (d_of_Z 0, random_seed (dec s))) in
  let o := set_random_seed r.2 (set_activity_inc (activity (dec s) ++ [r.1]) (var_inc (dec s)) (dec s)) in
  let! o := setDecisionVar v dvar (set_decision (decision o ++ [false]) o) in
  let o := set_polarity (savedPolarity o ++ [true]) (longestTrail o) o in
  let! b := at_ (decision o) v in
  let! _ := check (negb b || inHeap (order_heap o) v) in
  Ok (v, set_var_seen (var_seen s ++ [false]) (set_seen (seen s ++ [false]) (set_dec o (set_asg a (set_db d s))))).

Fixpoint new_vars (n : nat) s : res Solver :=
  match n with O => Ok s | S n => let! r := newVar true s in new_vars n r.2 end.

Definition addVar_ (v : Var) s : res Solver :=
  if v <? nVars (asg s) then
    let! l := upd (decision (dec s)) v true in
    let! o := insertVarOrder v (set_decision l (dec s)) in
    Ok (set_dec o s)
  else new_vars (S v - nVars (asg s)) s.

(** ** Levels and backtracking *)

Definition newDecisionLevel s : Solver :=
  let a := set_trail_lim (trail_lim (asg s) ++ [nAssigns (asg s)]) (asg s) in
  set_levels (nat_set.set_domain (decisionLevel a + 1) (levelsInClause s)) (set_asg a s).

(** [assigns[x] = l_Undef; insertVarOrder(x);] *)
Definition undo (x : Var) (st : Assignment * Decisions) : res (Assignment * Decisions) :=
  let! a := unassign x st.1 in let! o := insertVarOrder x st.2 in Ok (a, o).

Definition save_polarities a o : res Decisions :=
  if longestTrail o <? nAssigns a then
    let! l := foldM (λ l p, upd l (var p) (negb (sign p))) (savedPolarity o) (trail a) in
    Ok (set_polarity l (nAssigns a) o)
  else Ok o.

Definition cancelUntil (lvl : nat) s : res Solver :=
  if lvl <? decisionLevel (asg s) then
    let! o := save_polarities (asg s) (dec s) in
    let! lim := at_ (trail_lim (asg s)) lvl in
    let! st := foldM (λ st p, undo (var p) st) (asg s, o) (reverse (drop lim (trail (asg s)))) in
    let a := set_trail_lim (take lvl (trail_lim st.1)) (set_trail (take lim (trail st.1)) (set_qhead lim st.1)) in
    let! th := th_backtrack (Z.of_nat lim) (theory s) in
    Ok (set_theory th (set_dec st.2 (set_asg a s)))
  else Ok s.

(** The position of the last literal of [v] below [i]. *)
Fixpoint last_position (v : Var) (t : list Lit) (i : nat) : res nat :=
  match i with
  | O => Err Out_of_range
  | S i => let! p := at_ t i in if var p =? v then Ok i else last_position v t i
  end.

(** The last branch is for variables below the current level. *)
Definition cancelUntilVar (v : Var) s : res Solver :=
  let! c := last_position v (trail (asg s)) (nAssigns (asg s)) in
  let! st := foldM (λ st p, undo (var p) st) (asg s, dec s) (reverse (drop c (trail (asg s)))) in
  let a := set_qhead c (set_trail (take c (trail st.1)) st.1) in
  let! lv := level_of a v in
  let! a :=
    (if lv <? decisionLevel a then
       let! _ := check (0 <? c) in
       let! p := at_ (trail a) (c - 1) in
       let! lev := level_of a (var p) in
       let! _ := check (lev <? length (trail_lim a)) in
       let! l := upd (trail_lim a) lev c in
       Ok (set_trail_lim (take lev l) a)
     else Ok a) in
  let! th := th_backtrack (Z.of_nat (nAssigns a)) (theory s) in
  Ok (set_theory th (set_dec st.2 (set_asg a s))).

(** [cancelUntilVarTempInit] and [cancelUntilVarTempDone] frame a call of
    [getReason]; the literals taken off are put back. *)
Definition cancelUntilVarTempInit (v : Var) s : res (list Lit * list lbool * Solver) :=
  let! c := last_position v (trail (asg s)) (nAssigns (asg s)) in
  let! r := foldM (λ r p, let! x := value_var r.2 (var p) in let! a := unassign (var p) r.2 in Ok (r.1.1 ++ [p], r.1.2 ++ [x], a))
    ([], [], asg s) (reverse (drop c (trail (asg s)))) in
  let a := set_trail (take c (trail r.2)) r.2 in
  let! th := th_backtrack (Z.of_nat (nAssigns a)) (theory s) in
  Ok (r.1, set_theory th (set_asg a s)).

Definition cancelUntilVarTempDone (lit_to_restore : list Lit) (val_to_restore : list lbool) s : res Solver :=
  let! a := foldM (λ a px,
    let! l := upd (assigns a) (var px.1) px.2 in
    Ok (set_trail (trail a ++ [px.1]) (MkAssignment l (vardata a) (trail a) (trail_lim a) (qhead a))))
    (asg s) (reverse (zip lit_to_restore val_to_restore)) in
  let! r := th_assertLits (trail a) (theory s) in
  let s := set_theory r.2 (set_asg a s) in
  if r.1 : bool then Ok s else let! c := th_getConflict (vardata a) (theory s) in Ok (set_theory c.2 s).

(** ** Unit propagation *)

(** The first position from [k] on of a literal that is not false. *)
Fixpoint find_watch a (ps : list Lit) (k : nat) : res (option nat) :=
  match ps with
  | [] => Ok None
  | p :: ps => let! x := value a p in if bool_decide (x ≠ l_False) then Ok (Some k) else find_watch a ps (S k)
  end.

(** The loop over the watchers of [p]: the ones kept, and the conflicting clause,
    after which the remaining ones are copied.  A push to the vector that is being
    traversed would invalidate the pointers to it. *)
Definition visit_watcher (p : Lit) (st : list Watcher * Assignment * Database F * option CRef) (w : Watcher) :
    res (list Watcher * Assignment * Database F * option CRef) :=
  let '(ws, a, d, confl) := st in
  match confl with
  | Some _ => Ok (ws ++ [w], a, d, confl)
  | None =>
      let! x := value a (blocker w) in
      if bool_decide (x = l_True) then Ok (ws ++ [w], a, d, None)
      else
        let cr := cref w in
        let! c := clause_at cr d in
        let false_lit := lit_not p in
        let! c0 := at_ (lits c) 0 in
        let! c1 := at_ (lits c) 1 in
        let! ps := (if bool_decide (c0 = false_lit) then let! ps := upd (lits c) 0 c1 in upd ps 1 false_lit else Ok (lits c)) in
        let! d := put_clause cr (set_lits ps c) d in
        let! c1 := at_ ps 1 in
        let! _ := check (bool_decide (c1 = false_lit)) in
        let! first := at_ ps 0 in
        let w' := MkWatcher cr first in
        let! x := value a first in
        if bool_decide (first ≠ blocker w) && bool_decide (x = l_True) then Ok (ws ++ [w'], a, d, None)
        else
          let! k := find_watch a (drop 2 ps) 2 in
          match k with
          | Some k =>
              let! ck := at_ ps k in
              let! ps := upd ps 1 ck in
              let! ps := upd ps k false_lit in
              let! d := put_clause cr (set_lits ps c) d in
              if bool_decide (lit_not ck = p) then Err Out_of_range
              else let! d := watch (lit_not ck) w' d in Ok (ws, a, d, None)
          | None =>
              if bool_decide (x = l_False) then Ok (ws ++ [w'], set_qhead (nAssigns a) a, d, Some cr)
              else let! a := uncheckedEnqueue isTheoryTerm first (CRef_at cr) a in Ok (ws ++ [w'], a, d, None)
          end
  end.

Definition propagate_round (st : Assignment * Database F * option CRef * nat) :
    res (Assignment * Database F * option CRef * nat + Assignment * Database F * option CRef * nat) :=
  let '(a, d, confl, num_props) := st in
  if qhead a <? nAssigns a then
    let! p := at_ (trail a) (qhead a) in
    let a := set_qhead (S (qhead a)) a in
    let! ws := occs_at p (watches d) in
    let! r := foldM (visit_watcher p) ([], a, d, confl) ws in
    let '(ws, a, d, confl) := r in
    let! occ := occs_set p ws (watches d) in
    Ok (inl (a, set_watches occ d, confl, S num_props))
  else Ok (inr st).

(** Every round takes a literal off the queue. *)
Definition propagate_loop a d : res (Assignment * Database F * option CRef * nat) :=
  let! w := cleanAll (ca d) (watches d) in
  while (nVars a) propagate_round (a, set_watches w d, None, 0).

Definition propagate s : res (option CRef * Solver) :=
  let! r := propagate_loop (asg s) (db s) in
  let '(a, d, confl, num_props) := r in
  let c := ctl s in
  let c := set_propagations (propagations c + num_props) (simpDB_props c - Z.of_nat num_props)%Z c in
  Ok (confl, set_ctl c (set_db d (set_asg a s))).

(** ** Original clauses *)

(** The loop that removes false and repeated literals: [None] when the clause is
    satisfied; [p] is the last literal kept. *)
Definition keep_literal a (st : option (list Lit * option Lit)) (q : Lit) : res (option (list Lit * option Lit)) :=
  match st with
  | None => Ok None
  | Some (ps, p) =>
      let! x := value a q in
      if bool_decide (x = l_True) || bool_decide (Some q = lit_not <$> p) then Ok None
      else if bool_decide (x ≠ l_False) && bool_decide (Some q ≠ p) then Ok (Some (ps ++ [q], Some q))
      else Ok (Some (ps, p))
  end.

Definition Lit_lt (p q : Lit) : res bool := Ok (toInt p <? toInt q).

Definition addOriginalClause_ (_ps : list Lit) s : res (bool * Solver) :=
  let! _ := check (decisionLevel (asg s) =? 0) in
  if negb (ok s) then Ok (false, s)
  else
    let! ps := Sort.sort Lit_lt _ps in
    let! st := foldM (keep_literal (asg s)) (Some ([], None)) ps in
    match st with
    | None => Ok (true, s)
    | Some ([], _) => Ok (false, set_ok false s)
    | Some ([p], _) =>
        let! x := value (asg s) p in
        let! _ := check (bool_decide (x = l_Undef)) in
        let! a := uncheckedEnqueue isTheoryTerm p CRef_Undef (asg s) in
        let! r := propagate (set_asg a s) in
        let b := bool_decide (r.1 = None) in
        Ok (b, set_ok b r.2)
    | Some (ps, _) =>
        let! r := new_clause ps false 0 (db s) in
        let d := set_clauses (clauses r.2 ++ [r.1]) r.2 in
        let! d := attachClause (asg s) r.1 d in
        Ok (true, set_db d s)
    end.

(** ** Conflict analysis *)

(** [std::vector]-style clauses are read through [vardata]; the loop stops at four. *)
Definition computeGlue (ps : list Lit) s : res (nat * Solver) :=
  let! r := foldM (λ (st : nat * nat_set.nat_set) p,
    if 4 <=? st.1 then Ok st
    else
      let! l := level_of (asg s) (var p) in
      if l =? 0 then Ok st
      else
        let! b := nat_set.contains st.2 l in
        if b : bool then Ok st else let! n := nat_set.insert l st.2 in Ok (S st.1, n)) (0, nat_set.reset (levelsInClause s)) ps in
  Ok (r.1, set_levels r.2 s).

Definition bump_learnt (cr : CRef) s : res Solver :=
  let! c := clause_at cr (db s) in
  if c_learnt c then
    let! d := claBumpActivity cr (db s) in
    let s := set_db d s in
    let! g := computeGlue (lits c) s in
    let s := g.2 in
    if g.1 <? c_glue c then
      let! c := clause_at cr (db s) in
      let! c := setGlue g.1 c in
      let! d := put_clause cr c (db s) in Ok (set_db d s)
    else Ok s
  else Ok s.

(** A literal of a clause that is resolved with; the state is [pathC], the
    literals of lower levels, and the solver. *)
Definition visit_literal (st : nat * list Lit * Solver) (q : Lit) : res (nat * list Lit * Solver) :=
  let '(pathC, out_learnt, s) := st in
  let! b := at_ (seen s) (var q) in
  if b : bool then Ok st
  else
    let! l := level_of (asg s) (var q) in
    if l =? 0 then Ok st
    else
      let! o := varBumpActivity (var q) (dec s) in
      let! sn := upd (seen s) (var q) true in
      let s := set_seen sn (set_dec o s) in
      if decisionLevel (asg s) <=? l then Ok (S pathC, out_learnt, s) else Ok (pathC, out_learnt ++ [q], s).

(** [while (!seen[var(trail[index--])]);] *)
Fixpoint last_seen (sn : list bool) (t : list Lit) (index : nat) : res nat :=
  match index with
  | O => Err Out_of_range
  | S index =>
      let! p := at_ t index in
      let! b := at_ sn (var p) in
      if b : bool then Ok index else last_seen sn t index
  end.

(** The reason of a literal that the theory deduced, made into a clause. *)
Definition theory_reason (p : Lit) s : res Solver :=
  let! x := value (asg s) p in
  let! _ := check (bool_decide (x = l_True)) in
  let! s := cancelUntilVar (var p) s in
  let! r := th_getReason p (theory s) in
  let s := set_theory r.2 s in
  let r := r.1 in
  let! _ := check (0 <? length r) in
  let! st :=
    (if sat_learn_up_to_size (config s) <? length r then
       let! n := new_clause r false 0 (db s) in
       Ok (n.1, set_cleanup (cleanup s ++ [n.1]) (set_db n.2 s))
     else
       let! g := (if sat_temporary_learn (config s) then computeGlue r s else Ok (0, s)) in
       let s := g.2 in
       let! n := new_clause r (sat_temporary_learn (config s)) g.1 (db s) in
       let d := set_learnts (learnts n.2 ++ [n.1]) n.2 in
       let! d := attachClause (asg s) n.1 d in
       let! d := claBumpActivity n.1 d in
       Ok (n.1, set_db d s)) in
  let! a := set_reason (var p) (CRef_at st.1) (asg st.2) in
  Ok (set_asg a st.2).

(** A round of the loop that makes the learnt clause: the clause [confl], the
    literal [p] it is the reason of, the number of positions of the trail that are
    still to be looked at, [pathC], and the literals of lower levels.  The result
    is the last literal and the ones of lower levels. *)
Definition analyze_round (st : Reason * option Lit * nat * nat * list Lit * Solver) :
    res (Reason * option Lit * nat * nat * list Lit * Solver + Lit * list Lit * Solver) :=
  let '(confl, p, index, pathC, out_learnt, s) := st in
  match confl with
  | CRef_Undef => Err Assertion_failed
  | CRef_Fake => Err Out_of_range
  | CRef_at cr =>
      let! s := bump_learnt cr s in
      let! c := clause_at cr (db s) in
      let! st := foldM visit_literal (pathC, out_learnt, s) (drop (match p with None => 0 | Some _ => 1 end) (lits c)) in
      let '(pathC, out_learnt, s) := st in
      let! index := last_seen (seen s) (trail (asg s)) index in
      let! _ := check (0 <? index) in
      let! p := at_ (trail (asg s)) index in
      let! r := reason_of (asg s) (var p) in
      let! s := (if bool_decide (r = CRef_Fake) then theory_reason p s else Ok s) in
      let! confl := reason_of (asg s) (var p) in
      let! _ := check ((pathC =? 1) || negb (bool_decide (confl = CRef_Undef))) in
      let! sn := upd (seen s) (var p) false in
      let s := set_seen sn s in
      if 1 <? pathC then Ok (inl (confl, Some p, index, pathC - 1, out_learnt, s)) else Ok (inr (p, out_learnt, s))
  end.

(** *** Minimization *)

(** [for (int j = top; ...) seen[...] = 0; analyze_toclear.shrink(...)] *)
Definition forget_from (top : nat) s : res Solver :=
  let! sn := foldM (λ sn q, upd sn (var q) false) (seen s) (drop top (analyze_toclear s)) in
  Ok (set_toclear (take top (analyze_toclear s)) (set_seen sn s)).

(** A literal of a reason on the stack; the flag says that one cannot be resolved
    away, which ends the loop. *)
Definition redundant_literal (abstract_levels : Z) (st : list Lit * Solver * bool) (p : Lit) : res (list Lit * Solver * bool) :=
  let '(stack, s, failed) := st in
  if failed : bool then Ok st
  else
    let! b := at_ (seen s) (var p) in
    let! l := level_of (asg s) (var p) in
    if negb b && (0 <? l) then
      let! r := reason_of (asg s) (var p) in
      let! al := abstractLevel (asg s) (var p) in
      if negb (bool_decide (r = CRef_Undef)) && negb (Z.land al abstract_levels =? 0)%Z then
        let! sn := upd (seen s) (var p) true in
        Ok (p :: stack, set_toclear (analyze_toclear s ++ [p]) (set_seen sn s), false)
      else Ok (stack, s, true)
    else Ok st.

(** With [sat_minimize_conflicts] at least 2, the branch for a reason of the
    theory gets a clause for it, but ends in reading the clause [CRef_Fake]; a
    reason that is a clause then violates the assertion of the other branch. *)
Definition redundant_round (abstract_levels : Z) (top : nat) (st : list Lit * Solver) : res (list Lit * Solver + bool * Solver) :=
  let '(stack, s) := st in
  match stack with
  | [] => Ok (inr (true, s))
  | q :: stack =>
      let! cr := reason_of (asg s) (var q) in
      let! _ := check (negb (bool_decide (cr = CRef_Undef))) in
      if (2 <=? sat_minimize_conflicts (config s))%Z && bool_decide (cr = CRef_Fake) then Err Out_of_range
      else
        let! _ := check (sat_minimize_conflicts (config s) =? 1)%Z in
        match cr with
        | CRef_at cr =>
            let! c := clause_at cr (db s) in
            let! r := foldM (redundant_literal abstract_levels) (stack, s, false) (drop 1 (lits c)) in
            let '(stack, s, failed) := r in
            if failed : bool then let! s := forget_from top s in Ok (inr (false, s)) else Ok (inl (stack, s))
        | _ => let! s := forget_from top s in Ok (inr (false, s))
        end
  end.

(** Every literal pushed is a variable seen for the first time. *)
Definition litRedundant (p : Lit) (abstract_levels : Z) s : res (bool * Solver) :=
  if (sat_minimize_conflicts (config s) <=? 0)%Z then Ok (false, s)
  else while (S (nVars (asg s))) (redundant_round abstract_levels (length (analyze_toclear s))) ([p], s).

(** [ccmin_mode] 2: [out_learnt[0]] stays. *)
Definition minimize_deep (abstract_level : Z) (st : list Lit * Solver) (q : Lit) : res (list Lit * Solver) :=
  let! r := reason_of (asg st.2) (var q) in
  if bool_decide (r = CRef_Undef) then Ok (st.1 ++ [q], st.2)
  else
    let! b := litRedundant q abstract_level st.2 in
    Ok (if b.1 : bool then st.1 else st.1 ++ [q], b.2).

(** The first literal of the highest level, from position 1. *)
Definition max_level_at a (ps : list Lit) : res nat :=
  foldM (λ max_i i,
    let! p := at_ ps i in
    let! q := at_ ps max_i in
    let! l := level_of a (var p) in
    let! m := level_of a (var q) in
    Ok (if m <? l then i else max_i)) 1 (seq 2 (length ps - 2)).

(** The learnt clause, with the literal that determines the backtrack level
    at position 1, and this level. *)
Definition backtrack_level a (ps : list Lit) : res (list Lit * nat) :=
  if length ps =? 1 then Ok (ps, 0)
  else
    let! max_i := max_level_at a ps in
    let! p := at_ ps max_i in
    let! q := at_ ps 1 in
    let! ps := upd ps max_i q in
    let! ps := upd ps 1 p in
    let! l := level_of a (var p) in
    Ok (ps, l).

Definition minimize (p : Lit) (out_learnt : list Lit) s : res (list Lit * Solver) :=
  if (ccmin_mode (config s) =? 2)%Z then
    let! abstract_level := foldM (λ l q, let! al := abstractLevel (asg s) (var q) in Ok (Z.lor l al)) 0%Z out_learnt in
    let! st := foldM (minimize_deep abstract_level) ([], s) out_learnt in
    Ok (lit_not p :: st.1, st.2)
  else if (ccmin_mode (config s) =? 1)%Z then Err Assertion_failed
  else Ok (lit_not p :: out_learnt, s).

Definition analyze (confl : Reason) s : res (list Lit * nat * Solver) :=
  let! _ := check (negb (bool_decide (confl = CRef_Undef))) in
  let! _ := check (bool_decide (cleanup s = [])) in
  let! _ := check (forallb negb (seen s)) in
  let! r := while (nAssigns (asg s)) analyze_round (confl, None, nAssigns (asg s), 0, [], s) in
  let '(p, out_learnt, s) := r in
  let s := set_toclear (lit_not p :: out_learnt) s in
  let! m := minimize p out_learnt s in
  let! b := backtrack_level (asg m.2) m.1 in
  let s := m.2 in
  let! sn := foldM (λ sn q, upd sn (var q) false) (seen s) (analyze_toclear s) in
  let! _ := check (forallb negb sn) in
  let s := set_seen sn s in
  let! d := foldM (λ d cr, free_clause cr d) (db s) (cleanup s) in
  Ok (b.1, b.2, set_cleanup [] (set_db d s)).

(** *** The final conflict, in terms of the assumptions *)

Definition mark_seen (sn : list bool) (ps : list Lit) : res (list bool) := foldM (λ sn q, upd sn (var q) true) sn ps.

Definition final_literal (st : list Lit * Solver) (i : nat) : res (list Lit * Solver) :=
  let '(out_conflict, s) := st in
  let! q := at_ (trail (asg s)) i in
  let x := var q in
  let! b := at_ (seen s) x in
  if b : bool then
    let! r := reason_of (asg s) x in
    let! st :=
      match r with
      | CRef_Undef => Ok (if bool_decide (is_Some (assumptions_order s !! x)) then out_conflict ++ [lit_not q] else out_conflict, s)
      | CRef_Fake =>
          let! st := cancelUntilVarTempInit x s in
          let '(ps, xs, s) := st in
          let! r := th_getReason q (theory s) in
          let s := set_theory r.2 s in
          let! _ := check (0 <? length r.1) in
          let! r0 := at_ r.1 0 in
          let! _ := check (bool_decide (r0 = q)) in
          let! sn := mark_seen (seen s) (drop 1 r.1) in
          let! s := cancelUntilVarTempDone ps xs (set_seen sn s) in
          Ok (out_conflict, s)
      | CRef_at cr =>
          let! c := clause_at cr (db s) in
          let! c0 := at_ (lits c) 0 in
          let! _ := check (bool_decide (c0 = q)) in
          let! sn := mark_seen (seen s) (drop 1 (lits c)) in
          Ok (out_conflict, set_seen sn s)
      end in
    let! sn := upd (seen st.2) x false in
    Ok (st.1, set_seen sn st.2)
  else Ok st.

Definition analyzeFinal (p : Lit) s : res (list Lit * Solver) :=
  let! sn := upd (seen s) (var p) true in
  let! r := foldM final_literal ([p], set_seen sn s) (reverse (seq 0 (nAssigns (asg s)))) in
  let! b := at_ (seen r.2) (var p) in
  let! _ := check (negb b) in
  Ok r.

(** ** Simplification of the data base *)

(** [checkGarbage]: the collector renames the references; what it changes is the
    size of the region, and that the watchers of removed clauses are gone. *)
Definition garbageCollect s : res Solver :=
  let d := db s in
  let! w := cleanAll (ca d) (watches d) in
  let live : gset CRef := list_to_set (map cref (concat (occs w)) ++ learnts d ++ clauses d) in
  let! live := foldM (λ live p,
    let! r := reason_of (asg s) (var p) in
    match r with
    | CRef_at cr => let! c := clause_at cr d in let! b := locked (asg s) cr c in Ok (if b : bool then {[cr]} ∪ live else live)
    | _ => Ok live
    end) live (trail (asg s)) in
  let! size := foldM (λ n cr, let! c := clause_at cr d in Ok (n + clause_words c)) 0 (elements live) in
  Ok (set_db (set_ca (MkCA (mem (ca d)) size 0 (extra_clause_field (ca d))) (set_watches w d)) s).

Definition checkGarbage (gf : F) s : res Solver :=
  if d_lt (d_mul (d_of_Z (Z.of_nat (ca_size (ca (db s))))) gf) (d_of_Z (Z.of_nat (ca_wasted (ca (db s))))) then garbageCollect s else Ok s.

(** [reduceDB_lt] *)
Definition reduceDB_lt d (x y : CRef) : res bool :=
  let! cx := clause_at x d in
  if 2 <? length (lits cx) then
    let! cy := clause_at y d in
    if length (lits cy) =? 2 then Ok true
    else let! ax := activity_of cx in let! ay := activity_of cy in Ok (d_lt ax ay)
  else Ok false.

(** The clauses kept, and [extra]. *)
Definition reduce_clause (n : nat) (st : list CRef * nat * Assignment * Database F) (icr : nat * CRef) : res (list CRef * nat * Assignment * Database F) :=
  let '(kept, extra, a, d) := st in
  let '(i, cr) := icr in
  let! c := clause_at cr d in
  let extra := if c_glue c <=? 3 then S extra else extra in
  let! l := (if 3 <? c_glue c then locked a cr c else Ok true) in
  if negb l && (i + extra <? n / 2) then
    let! _ := check (2 <? length (lits c)) in
    let! r := removeClause cr a d in Ok (kept, extra, r.1, r.2)
  else Ok (kept ++ [cr], extra, a, d).

Definition reduceDB s : res Solver :=
  let! ls := Sort.sort (reduceDB_lt (db s)) (learnts (db s)) in
  let! r := foldM (reduce_clause (length ls)) ([], 0, asg s, set_learnts ls (db s)) (zip (seq 0 (length ls)) ls) in
  let '(kept, _, a, d) := r in
  checkGarbage (garbage_frac (config s)) (set_db (set_learnts kept d) (set_asg a s)).

Definition removeSatisfied (cs : list CRef) a d : res (list CRef * Assignment * Database F) :=
  foldM (λ st cr,
    let '(kept, a, d) := st in
    let! c := clause_at cr d in
    let! b := satisfied a c in
    if b : bool then let! r := removeClause cr a d in Ok (kept, r.1, r.2) else Ok (kept ++ [cr], a, d)) ([], a, d) cs.

(** [VarFilter] *)
Definition VarFilter a o (v : Var) : res bool :=
  let! x := value_var a v in let! b := at_ (decision o) v in Ok (bool_decide (x = l_Undef) && b).

Definition rebuildOrderHeap s : res Solver :=
  let! vs := foldM (λ vs v, let! b := VarFilter (asg s) (dec s) v in Ok (if b : bool then vs ++ [v] else vs)) [] (seq 0 (nVars (asg s))) in
  let! h := Heap.build (VarOrderLt (activity (dec s))) vs (order_heap (dec s)) in
  Ok (set_dec (set_order_heap h (dec s)) s).

Definition simplify s : res (bool * Solver) :=
  let! _ := check (decisionLevel (asg s) =? 0) in
  let! r := (if ok s then propagate s else Ok (Some 0, s)) in
  let s := r.2 in
  if bool_decide (r.1 ≠ None) then Ok (false, set_ok false s)
  else if bool_decide (Z.of_nat (nAssigns (asg s)) = simpDB_assigns (ctl s)) || (0 <? simpDB_props (ctl s))%Z then Ok (true, s)
  else
    let! r := removeSatisfied (learnts (db s)) (asg s) (db s) in
    let '(ls, a, d) := r in
    let d := set_learnts ls d in
    let! r := (if remove_satisfied s then removeSatisfied (clauses d) a d else Ok (clauses d, a, d)) in
    let '(cs, a, d) := r in
    let! s := checkGarbage (garbage_frac (config s)) (set_db (set_clauses cs d) (set_asg a s)) in
    let! h := Heap.filter (VarOrderLt (activity (dec s))) (VarFilter (asg s) (dec s)) (order_heap (dec s)) in
    let s := set_dec (set_order_heap h (dec s)) s in
    let props := Z.of_nat (clauses_literals (db s) + learnts_literals (db s)) in
    Ok (true, set_ctl (set_simpDB (Z.of_nat (nAssigns (asg s))) props (ctl s)) s).

(** ** The theory *)

(** Enqueues the first literal of a learnt clause; [learn] makes it a clause. *)
Definition learn (learnt_clause : list Lit) s : res Solver :=
  let! p := at_ learnt_clause 0 in
  let! x := value (asg s) p in
  let! _ := check (bool_decide (x = l_Undef)) in
  if length learnt_clause =? 1 then
    let! a := uncheckedEnqueue isTheoryTerm p CRef_Undef (asg s) in Ok (set_asg a s)
  else
    let! g := computeGlue learnt_clause s in
    let s := g.2 in
    let! n := new_clause learnt_clause true g.1 (db s) in
    let d := set_learnts (learnts n.2 ++ [n.1]) n.2 in
    let! d := attachClause (asg s) n.1 d in
    let! d := claBumpActivity n.1 d in
    let! a := uncheckedEnqueue isTheoryTerm p (CRef_at n.1) (asg s) in
    Ok (set_db d (set_asg a s)).

Definition decay s : Solver :=
  set_db (claDecayActivity (config s) (db s)) (set_dec (varDecayActivity (config s) (dec s)) s).

(** The loop ends with the deductions of the theory. *)
Fixpoint deduce_from (fuel : nat) (deds : list Lit) s : res (list Lit * Solver) :=
  let! r := th_getDeduction (theory s) in
  let s := set_theory r.2 s in
  match r.1 with
  | None => Ok (deds, s)
  | Some ded =>
      match fuel with
      | O => Err Out_of_fuel
      | S fuel =>
          let! x := value (asg s) ded in
          deduce_from fuel (if bool_decide (x ≠ l_Undef) then deds else deds ++ [ded]) s
      end
  end.
(** A theory deduces a variable at most once between two assertions. *)
Definition deduceTheory s : res (list Lit * Solver) := deduce_from (nVars (asg s)) [] s.

(** *** New clauses of the theory *)

Definition split_level a (c : list Lit) : res nat :=
  foldM (λ m p, if var p <? nVars a then let! l := level_of a (var p) in Ok (if m <? l then l else m) else Ok m) 0 c.
Definition lower_level (x y : nat * list Lit) : Prop := x.1 ≤ y.1.
#[local] Instance lower_level_dec x y : Decision (lower_level x y).
Proof. apply Nat.le_dec. Defined.
(** [std::sort] leaves the order of equal levels open; a stable sort is one way. *)
Definition sortByLastAssignedLevel a (cs : list (list Lit)) : res (list (list Lit)) :=
  let! ls := foldM (λ ls c, let! l := split_level a c in Ok (ls ++ [(l, c)])) [] cs in
  Ok ((merge_sort lower_level ls).*2).

Definition processNewClause (c : list Lit) s : res (CRef * Solver) :=
  let! n := new_clause c false 0 (db s) in
  let! d := attachClause (asg s) n.1 n.2 in
  Ok (n.1, set_db (set_clauses (clauses d ++ [n.1]) d) s).

(** The numbers of true and of unassigned literals, and the last of the latter. *)
Definition count_literal (st : nat * nat * option nat * Solver) (ip : nat * Lit) : res (nat * nat * option nat * Solver) :=
  let '(satisfied, unknown, implied, s) := st in
  let! s := addVar_ (var ip.2) s in
  let! x := value (asg s) ip.2 in
  Ok (match x with
      | l_True => (S satisfied, unknown, implied, s)
      | l_False => (satisfied, unknown, implied, s)
      | l_Undef => (satisfied, S unknown, Some ip.1, s)
      end).

Definition false_level a (c : list Lit) : res nat :=
  foldM (λ m p, let! x := value a p in let! l := level_of a (var p) in Ok (if bool_decide (x = l_False) && (m <? l) then l else m)) 0 c.

Definition handle_split (st : TPropRes * list (Lit * CRef) * Solver) (c : list Lit) : res (TPropRes * list (Lit * CRef) * Solver) :=
  let '(r, propData, s) := st in
  let! n := foldM count_literal (0, 0, None, s) (zip (seq 0 (length c)) c) in
  let '(satisfied, unknown, implied, s) := n in
  let! _ := check (negb (satisfied =? 0) || negb (unknown =? 0)) in
  match implied with
  | Some i =>
      if (satisfied =? 0) && (unknown =? 1) then
        let! bl := false_level (asg s) c in
        let! s := (if bl <? decisionLevel (asg s) then let! _ := check (bool_decide (propData = [])) in cancelUntil bl s else Ok s) in
        let! p := at_ c i in
        if decisionLevel (asg s) =? 0 then
          let! a := uncheckedEnqueue isTheoryTerm p CRef_Undef (asg s) in Ok (PPropagate, propData, set_asg a s)
        else
          let! c := Sort.swap c 0 i in
          let! n := processNewClause c s in
          Ok (PPropagate, propData ++ [(p, n.1)], n.2)
      else
        let! c0 := at_ c 0 in
        let! x := value (asg s) c0 in
        let! c := (if bool_decide (x = l_False) then Sort.swap c 0 i else Ok c) in
        let! n := processNewClause c s in
        Ok (if (satisfied =? 0) && negb (match r with PPropagate => true | _ => false end) then PDecide else r, propData, n.2)
  | None => let! n := processNewClause c s in Ok (r, propData, n.2)
  end.

Definition handleNewSplitClauses (cs : list (list Lit)) s : res (TPropRes * Solver) :=
  let! r := deduceTheory s in
  let s := r.2 in
  let! cs := sortByLastAssignedLevel (asg s) cs in
  let! st := foldM handle_split (PUndef, [], s) cs in
  let '(r, propData, s) := st in
  match r with
  | PUndef => Err Assertion_failed
  | PPropagate =>
      let! _ := foldM (λ _ (d : Lit * CRef), let! x := value (asg s) d.1 in check (bool_decide (x = l_Undef))) tt propData in
      let! a := foldM (λ a (d : Lit * CRef),
        let! x := value a d.1 in
        if bool_decide (x = l_Undef) then uncheckedEnqueue isTheoryTerm d.1 (CRef_at d.2) a
        else let! _ := check (bool_decide (x = l_True)) in Ok a) (asg s) propData in
      Ok (PPropagate, set_asg a s)
  | _ => Ok (r, s)
  end.

(** *** The results of a check *)

Definition scale_skip s : Solver :=
  set_ctl (set_skip (d_mul (skip_step (ctl s)) (sat_skip_step_factor (config s))) (skipped_calls (ctl s)) (ctl s)) s.

Definition handleSat s : res (TPropRes * Solver) :=
  let s := scale_skip s in
  let! r := th_getNewSplits (theory s) in
  let s := set_theory r.2 s in
  match r.1 with
  | _ :: _ => handleNewSplitClauses r.1 s
  | [] =>
      let! r := deduceTheory s in
      let s := r.2 in
      let! a := foldM (λ a p, uncheckedEnqueue isTheoryTerm p CRef_Fake a) (asg s) r.1 in
      let s := set_asg a s in
      if 0 <? length r.1 then Ok (PPropagate, s) else Ok (PDecide, scale_skip s)
  end.

Definition handleUnsat s : res (TPropRes * Solver) :=
  let s := set_ctl (set_skip (sat_initial_skip_step (config s)) (skipped_calls (ctl s)) (ctl s)) s in
  if decisionLevel (asg s) =? 0 then Ok (PUnsat, s)
  else
    let! r := th_getConflict (vardata (asg s)) (theory s) in
    let '(conflicting, max_decision_level, th) := r in
    let s := set_theory th s in
    let! _ := foldM (λ _ p, let! x := value (asg s) p in check (bool_decide (x ≠ l_Undef))) tt conflicting in
    let! _ := check (max_decision_level <=? Z.of_nat (decisionLevel (asg s)))%Z in
    let! _ := check (0 <=? max_decision_level)%Z in
    let! s := cancelUntil (Z.to_nat max_decision_level) s in
    if decisionLevel (asg s) =? 0 then Ok (PUnsat, s)
    else
      let! _ := check (0 <? length conflicting) in
      let temporary := sat_learn_up_to_size (config s) <? length conflicting in
      let! st :=
        (if temporary || (length conflicting =? 1) then
           let! n := new_clause conflicting false 0 (db s) in Ok (n.1, set_db n.2 s)
         else
           let! g := (if sat_temporary_learn (config s) then computeGlue conflicting s else Ok (0, s)) in
           let s := g.2 in
           let! n := new_clause conflicting (sat_temporary_learn (config s)) g.1 (db s) in
           let d := set_learnts (learnts n.2 ++ [n.1]) n.2 in
           let! d := attachClause (asg s) n.1 d in
           let! d := claBumpActivity n.1 d in
           Ok (n.1, set_db d s)) in
      let! r := analyze (CRef_at st.1) st.2 in
      let '(learnt_clause, backtrack_level, s) := r in
      let! s := (if temporary then let! d := free_clause st.1 (db s) in Ok (set_db d s) else Ok s) in
      let! s := cancelUntil backtrack_level s in
      let! s := learn learnt_clause s in
      Ok (PPropagate, decay s).

(** [conflictC] is the counter of [search]. *)
Definition checkTheory (complete : bool) (conflictC : nat) s : res (TPropRes * nat * Solver) :=
  let c := ctl s in
  if negb complete && d_lt (d_add (d_of_Z (Z.of_nat (skipped_calls c))) (sat_initial_skip_step (config s))) (skip_step c) then
    Ok (PDecide, conflictC, set_ctl (set_skip (skip_step c) (S (skipped_calls c)) c) s)
  else
    let s := set_ctl (set_skip (skip_step c) 0 c) s in
    let! r := th_assertLits (trail (asg s)) (theory s) in
    let s := set_theory r.2 s in
    let! r := (if r.1 : bool then th_check complete (theory s) else Ok (TUNSAT, theory s)) in
    let s := set_theory r.2 s in
    match r.1 with
    | TSAT => let! r := handleSat s in Ok (r.1, conflictC, r.2)
    | TUNSAT =>
        let s := set_ctl (set_conflicts (S (conflicts (ctl s))) (ctl s)) s in
        let! r := handleUnsat s in Ok (r.1, S conflictC, r.2)
    | TUNKNOWN => Ok (PDecide, conflictC, s)
    end.

(** ** Search *)

Definition zeroLevelConflictHandler s : lbool * Solver := (l_False, set_ok false s).

Definition okContinue s : bool * Solver :=
  match stop_after (ctl s) with O => (false, s) | S n => (true, set_ctl (set_stop_after n (ctl s)) s) end.

Definition withinBudget c : bool :=
  negb (asynch_interrupt c)
  && ((conflict_budget c <? 0)%Z || (Z.of_nat (conflicts c) <? conflict_budget c)%Z)
  && ((propagation_budget c <? 0)%Z || (Z.of_nat (propagations c) <? propagation_budget c)%Z).

(** [flipIncrement] is 10000; the addition is on unsigned integers. *)
Definition update_flip s : Solver :=
  if (conflictsUntilFlip (dec s) <? Z.of_nat (conflicts (ctl s)))%Z then
    let f := negb (flipState (dec s)) in
    set_dec (set_flip (conflictsUntilFlip (dec s) + if f then 1000 else 10000)%Z f (dec s)) s
  else s.

(** The loop over the assumptions: the next one that is not assigned yet, or none,
    or the answer when one is false. *)
Fixpoint next_assumption (fuel : nat) s : res (option Lit * Solver + lbool * Solver) :=
  if decisionLevel (asg s) <? length (assumptions s) then
    match fuel with
    | O => Err Out_of_fuel
    | S fuel =>
        let! p := at_ (assumptions s) (decisionLevel (asg s)) in
        let! x := value (asg s) p in
        match x with
        | l_True => next_assumption fuel (newDecisionLevel s)
        | l_False =>
            let! r := analyzeFinal (lit_not p) s in
            let s := set_results (model r.2) r.1 r.2 in
            let! max := foldM (λ m q,
              if negb (sign q) then
                match assumptions_order s !! var q with Some k => Ok (if m <? k then k else m) | None => Err Assertion_failed end
              else Ok m) 0 (conflict s) in
            Ok (inr (zeroLevelConflictHandler (set_conflict_frame (max + 1) s)))
        | l_Undef => Ok (inl (Some p, s))
        end
    end
  else Ok (inl (None, s)).

Definition decide_literal (next : Lit) s : res Solver :=
  let! x := value (asg s) next in
  let! _ := check (bool_decide (x = l_Undef)) in
  let s := newDecisionLevel s in
  let! a := uncheckedEnqueue isTheoryTerm next CRef_Undef (asg s) in
  Ok (set_asg a s).

(** What follows when the theory has nothing to add: an assumption, a decision, or
    the complete check. *)
Definition branch (conflictC : nat) s : res (nat * Solver + lbool * Solver) :=
  let! r := next_assumption (length (assumptions s)) s in
  match r with
  | inr r => Ok (inr r)
  | inl (Some next, s) => let! s := decide_literal next s in Ok (inl (conflictC, s))
  | inl (None, s) =>
      let! r := pickBranchLit s in
      match r with
      | (Some next, s) => let! s := decide_literal next s in Ok (inl (conflictC, s))
      | (None, s) =>
          let! r := checkTheory true conflictC s in
          let '(res_, conflictC, s) := r in
          match res_ with
          | PPropagate => Ok (inl (conflictC, s))
          | PUnsat => Ok (inr (zeroLevelConflictHandler s))
          | PUndef => Err Assertion_failed
          | PDecide =>
              let! r := pickBranchLit s in
              match r with
              | (Some next, s) => let! s := decide_literal next s in Ok (inl (conflictC, s))
              | (None, s) => Ok (inr (l_True, s))
              end
          end
      end
  end.

(** The conflict of a propagation. *)
Definition resolve_conflict (confl : CRef) s : res Solver :=
  let! r := analyze (CRef_at confl) s in
  let '(learnt_clause, backtrack_level, s) := r in
  let! s := cancelUntil backtrack_level s in
  let! s := learn learnt_clause s in
  Ok (decay s).

(** A round of the loop of [search]; the counter is [conflictC]. *)
Definition search_round (nof_conflicts : Z) (st : nat * Solver) : res (nat * Solver + lbool * Solver) :=
  let '(conflictC, s) := st in
  let '(go, s) := okContinue s in
  if negb go then let! s := cancelUntil 0 s in Ok (inr (l_Undef, s))
  else
    let! r := propagate s in
    let s := r.2 in
    match r.1 with
    | Some confl =>
        let s := update_flip s in
        let s := set_ctl (set_conflicts (S (conflicts (ctl s))) (ctl s)) s in
        if decisionLevel (asg s) =? 0 then Ok (inr (zeroLevelConflictHandler s))
        else let! s := resolve_conflict confl s in Ok (inl (S conflictC, s))
    | None =>
        if ((0 <=? nof_conflicts)%Z && (nof_conflicts <=? Z.of_nat conflictC)%Z) || negb (withinBudget (ctl s)) then
          let! s := cancelUntil 0 s in Ok (inr (l_Undef, s))
        else
          let! r := (if decisionLevel (asg s) =? 0 then simplify s else Ok (true, s)) in
          let s := r.2 in
          if negb r.1 then Ok (inr (zeroLevelConflictHandler s))
          else
            let! s :=
              (if (0 <=? nof_learnts (ctl s))%Z && (nof_learnts (ctl s) <=? Z.of_nat (length (learnts (db s))))%Z then
                 let! s := reduceDB s in
                 Ok (set_ctl (set_nof_learnts (d_trunc (d_mul (d_of_Z (nof_learnts (ctl s))) (d_lit 11 (-1)))) (ctl s)) s)
               else Ok s) in
            let! r := checkTheory false conflictC s in
            let '(res_, conflictC, s) := r in
            match res_ with
            | PUnsat => Ok (inr (zeroLevelConflictHandler s))
            | PPropagate => Ok (inl (conflictC, s))
            | PDecide => branch conflictC s
            | PUndef => Err Assertion_failed
            end
    end.

(** Every round reads [opensmt::stop]. *)
Definition search (nof_conflicts : Z) s : res (lbool * Solver) :=
  let! _ := check (ok s) in
  let! r := checkTheory false 0 s in
  let '(res_, conflictC, s) := r in
  match res_ with
  | PUnsat => Ok (zeroLevelConflictHandler s)
  | PUndef => Err Assertion_failed
  | _ => while (S (stop_after (ctl s))) (search_round nof_conflicts) (conflictC, s)
  end.

(** ** Solving *)

(** [1 << n] on [int]; [lubyFactor] is 120. *)
Definition restartNextLimit (nof_conflicts : Z) s : res (Z * Solver) :=
  let c := ctl s in
  if sat_use_luby_restart (config s) then
    let i := S (luby_i c) in
    let! r :=
      (if i =? 2 ^ luby_k c - 1 then Ok (2 ^ (Z.of_nat (luby_k c) - 1), S (luby_k c))%Z
       else let! x := at_ (luby_previous c) (i - 2 ^ (luby_k c - 1)) in Ok (x, luby_k c)) in
    Ok (r.1 * 120, set_ctl (set_luby i r.2 (luby_previous c ++ [r.1]) c) s)%Z
  else Ok (d_trunc (d_mul (d_of_Z nof_conflicts) (restart_inc (config s))), s).

(** Declares the variables of the literals that are new to [var_seen]. *)
Definition declare_seen (st : list bool * Th) (p : Lit) : res (list bool * Th) :=
  let! b := at_ st.1 (var p) in
  if b : bool then Ok st
  else
    let! l := upd st.1 (var p) true in
    let! th := (if isTheoryTerm (var p) then th_declareAtom (var p) st.2 else Ok st.2) in
    Ok (l, th).

Definition declareVarsToTheories s : res Solver :=
  let! th := th_clear (theory s) in
  let! st := foldM declare_seen (replicate (length (var_seen s)) false, th) (trail (asg s)) in
  let! st := foldM (λ st cr, let! c := clause_at cr (db s) in foldM declare_seen st (lits c)) st (clauses (db s)) in
  let! r := foldM (λ (r : Th * Decisions) v,
    let! b := at_ st.1 v in
    if b : bool then Ok r
    else if appearsInUF v then let! th := th_declareAtom v r.1 in Ok (th, r.2)
    else let! o := setDecisionVar v false r.2 in Ok (r.1, o)) (st.2, dec s) (seq 0 (length st.1)) in
  Ok (set_theory r.1 (set_dec r.2 (set_var_seen st.1 s))).

(** The loop over the restarts. *)
Definition solve_round (st : Z * Solver) : res (Z * Solver + lbool * Solver) :=
  let '(nof_conflicts, s) := st in
  let '(go, s) := okContinue s in
  if negb go then Ok (inr (l_Undef, s))
  else
    let! r := search nof_conflicts s in
    let! n := restartNextLimit nof_conflicts r.2 in
    if bool_decide (r.1 = l_Undef) then Ok (inl n) else Ok (inr (r.1, n.2)).

Definition solve_ s : res (lbool * Solver) :=
  let! s := foldM (λ s p, addVar_ (var p) s) s (assumptions s) in
  let! s := declareVarsToTheories s in
  let s := set_dec (set_random_seed (initial_random_seed (config s)) (dec s)) s in
  let s := set_results [] [] s in
  if negb (ok s) then Ok (l_False, s)
  else
    let! r := while (S (stop_after (ctl s))) solve_round (restart_first (config s), s) in
    let s := r.2 in
    Ok (r.1, if bool_decide (r.1 = l_True) then set_results (assigns (asg s)) (conflict s) s else s).

Definition setAssumptions (assumps : list Lit) s : Solver :=
  let order := foldl (λ (st : gmap Var nat * nat) p, if sign p then (<[var p := st.2]> st.1, S st.2) else st) (∅, 0) assumps in
  set_assumptions assumps order.1 s.

Definition budgetOff s : Solver := set_ctl (set_budgets (-1) (-1) (ctl s)) s.
Definition restoreOK s : Solver := set_conflict_frame 0 (set_ok true s).

(** [theory_handler.backtrack(-1)] *)
Definition clearSearch s : res Solver :=
  let! s := cancelUntil 0 s in
  let! th := th_backtrack (-1) (theory s) in Ok (set_theory th s).

Definition modelValue (p : Lit) s : res lbool := let! x := at_ (model s) (var p) in Ok (lbool_xor x (sign p)).

(** Every clause must have a true literal in the model. *)
Definition verifyModel s : res unit :=
  foldM (λ _ cr,
    let! c := clause_at cr (db s) in
    let! _ := check (c_mark c =? 0) in
    let! b := foldM (λ (b : bool) p, if b then Ok b else let! x := modelValue p s in Ok (bool_decide (x = l_True))) false (lits c) in
    check b) tt (clauses (db s)).

Definition new_solver (cfg : SatConfig F) (th : Th) (stop : nat) : Solver :=
  MkSolver cfg th
    (MkAssignment [] [] [] [] 0)
    (MkDatabase (MkCA [] 0 0 false) (MkOccLists [] [] []) [] [] 0 0 (d_of_Z 1))
    (MkDecisions [] (d_of_Z 1) empty_heap [] [] 0 0 false (initial_random_seed cfg))
    (MkControl 0 0 (-1) (-1) false stop (-1) 0 40000 (sat_initial_skip_step cfg) 0 0 1 [])
    true 0 true [] ∅ [] [] [] [] (nat_set.init 0) [] [].

End solver.
Arguments Solver : clear implicits.
