(* ===== verification/SatSpec.v ===== *)
(** * The SAT solver: the theory, assignments and watchers

    The laws of a theory handler; the trail as the source of all values and
    levels; the data base of clauses with its watchers. *)
From S2P Require Import Prelude Sort NatSet SatLits Terms Heap SatData SatCore.
From stdpp Require Import gmap.
From Stdlib Require Import Lia.

#[local] Open Scope nat_scope.

Lemma var_eq_cases p q : var q = var p → q = p ∨ q = lit_not p.
Proof.
  intros E. rewrite <- (mkLit_parts p), <- (mkLit_parts q), E, lit_not_mkLit.
  destruct (sign p), (sign q); first [by left|by right].
Qed.
Lemma lit_not_inj p q : lit_not p = lit_not q → p = q.
Proof. intros E. by rewrite <- (lit_not_not p), E, lit_not_not. Qed.
Lemma toInt_inj p q : toInt p = toInt q → p = q.
Proof. destruct p, q. cbn. by intros ->. Qed.
#[export] Instance toInt_Inj : Inj (=) (=) toInt := toInt_inj.
Lemma toInt_lt p n : toInt p < 2 * n ↔ var p < n.
Proof. rewrite (lit_parts p). destruct (sign p); cbn [Nat.b2n]; lia. Qed.

Definition satisfies (σ : Var → bool) (ps : list Lit) : Prop := ∀ p, p ∈ ps → lit_value σ p = true.

(** ** Theories

    [th_ok stk]: the literals [stk] are asserted; [th_conflict stk]: they were
    found to be inconsistent; [th_explains k p]: the theory deduced [p] when [k]
    was asserted; [th_queue ds]: the deductions to come; [th_undone stk]: the
    literals [stk] were accepted before a backtrack. *)
Class THandlerModel (Th : Type) : Type := {
  th_models : (Var → bool) → Prop;
  th_ok : list Lit → Th → Prop;
  th_conflict : list Lit → Th → Prop;
  th_knows : Var → Th → Prop;
  th_explains : list Lit → Lit → Th → Prop;
  th_queue : list Lit → Th → Prop;
  th_undone : list Lit → Th → Prop;
}.

(** What a call changes neither above nor below the asserted literals. *)
Definition th_keeps {Th} `{THandlerModel Th} (stk : list Lit) (th th' : Th) : Prop :=
  (∀ v, th_knows v th' ↔ th_knows v th) ∧ ∀ k p, k `prefix_of` stk → th_explains k p th → th_explains k p th'.

Class THandlerLaws (Th : Type) `{THandler Th, THandlerModel Th} : Prop := {
  knows_theory v th : th_knows v th → isTheoryTerm v = true;
  appearsInUF_theory v : appearsInUF v = true → isTheoryTerm v = true;
  explains_sound k p th : th_explains k p th → ∀ σ, th_models σ → satisfies σ k → lit_value σ p = true;
  conflict_sound stk th : th_conflict stk th → ∀ σ, th_models σ → ¬ satisfies σ stk;
  queue_exists stk th : th_ok stk th → ∃ ds, th_queue ds th ∧ NoDup (var <$> ds) ∧ ∀ p, p ∈ ds → th_knows (var p) th;
  clear_ok th : th_ok [] th → wp no_error (λ th', th_ok [] th' ∧ ∀ v, ¬ th_knows v th') (th_clear th);
  declareAtom_ok v th : th_ok [] th → isTheoryTerm v = true →
    wp no_error (λ th', th_ok [] th' ∧ ∀ u, th_knows u th' ↔ u = v ∨ th_knows u th) (th_declareAtom v th);
  assertLits_ok t stk th : th_ok stk th → stk `prefix_of` t → NoDup (var <$> t) →
    (∀ p, p ∈ t → isTheoryTerm (var p) = true → th_knows (var p) th) →
    wp no_error (λ r : bool * Th, th_keeps stk th r.2 ∧
      if r.1 then th_ok t r.2 else ∃ stk', stk `prefix_of` stk' ∧ stk' `prefix_of` t ∧ th_conflict stk' r.2) (th_assertLits t th);
  assert_undone stk k th : th_ok k th → th_undone stk th → k `prefix_of` stk →
    wp no_error (λ r, r.1 = true ∧ th_keeps k th r.2 ∧ th_ok stk r.2) (th_assertLits stk th);
  check_ok complete stk th : th_ok stk th →
    wp no_error (λ r : TRes * Th, th_keeps stk th r.2 ∧
      match r.1 with
      | TSAT => th_ok stk r.2 ∧ (complete = true → ∃ σ, th_models σ ∧ satisfies σ stk)
      | TUNSAT => th_conflict stk r.2
      | TUNKNOWN => th_ok stk r.2 ∧ complete = false
      end) (th_check complete th);
  getNewSplits_ok stk th : th_ok stk th → wp no_error (λ r, r.1 = [] ∧ th_keeps stk th r.2 ∧ th_ok stk r.2) (th_getNewSplits th);
  getDeduction_ok ds stk th : th_ok stk th → th_queue ds th →
    wp no_error (λ r, th_keeps stk th r.2 ∧ th_ok stk r.2 ∧
      match ds with [] => r.1 = None | d :: ds => r.1 = Some d ∧ th_queue ds r.2 ∧ th_explains stk d r.2 end) (th_getDeduction th);
  getConflict_ok stk vd th : th_conflict stk th → (∀ p, p ∈ stk → var p < length vd) →
    wp no_error (λ r, th_keeps stk th r.2 ∧ th_conflict stk r.2
      ∧ (∀ q, q ∈ r.1.1 → lit_not q ∈ stk) ∧ (∀ σ, th_models σ → clause_true σ r.1.1 = true)
      ∧ (∀ q x, q ∈ r.1.1 → vd !! var q = Some x → (Z.of_nat (level x) ≤ r.1.2)%Z)
      ∧ (r.1.1 = [] ∧ r.1.2 = 0%Z ∨ ∃ q x, q ∈ r.1.1 ∧ vd !! var q = Some x ∧ r.1.2 = Z.of_nat (level x))) (th_getConflict vd th);
  getReason_ok k p stk th : th_ok stk th → th_explains k p th → k `prefix_of` stk → p ∉ stk →
    wp no_error (λ r, th_keeps stk th r.2 ∧ th_ok stk r.2 ∧ (∀ u, th_undone u th → th_undone u r.2)
      ∧ ∃ ps, r.1 = p :: ps ∧ (∀ q, q ∈ ps → lit_not q ∈ stk) ∧ ∀ σ, th_models σ → clause_true σ r.1 = true) (th_getReason p th);
  getPolaritySuggestion_ok v stk th : th_ok stk th → th_knows v th →
    wp no_error (λ r, th_keeps stk th r.2 ∧ th_ok stk r.2) (th_getPolaritySuggestion v th);
  isDeclared_iff v th : th_isDeclared v th = true ↔ th_knows v th;
  backtrack_ok n stk th : th_ok stk th →
    wp no_error (λ th', th_keeps (take (Z.to_nat n) stk) th th' ∧ th_ok (take (Z.to_nat n) stk) th' ∧ th_undone stk th') (th_backtrack n th);
  backtrack_conflict n stk th : th_conflict stk th →
    wp no_error (λ th', th_keeps (take (Z.to_nat n) stk) th th' ∧
      if Z.to_nat n <? length stk then th_ok (take (Z.to_nat n) stk) th' else th_conflict stk th') (th_backtrack n th);
}.

(** ** Assignments *)

(** The value of a literal on a trail. *)
Definition val (t : list Lit) (p : Lit) : lbool :=
  if decide (p ∈ t) then l_True else if decide (lit_not p ∈ t) then l_False else l_Undef.

(** The level of a position. *)
Definition level_at (lims : list nat) (i : nat) : nat := length (filter (λ x, x ≤ i) lims).

Definition lv (a : Assignment) (v : Var) : nat := match vardata a !! v with Some x => level x | None => 0 end.
Definition rs (a : Assignment) (v : Var) : Reason := match vardata a !! v with Some x => reason x | None => CRef_Undef end.

Record asg_ok (a : Assignment) : Prop := {
  ao_length : length (assigns a) = nVars a;
  ao_vars p : p ∈ trail a → var p < nVars a;
  ao_nodup : NoDup (var <$> trail a);
  ao_assigned p : p ∈ trail a → assigns a !! var p = Some (lbool_of_bool (negb (sign p)));
  ao_unassigned v : v < nVars a → v ∉ var <$> trail a → assigns a !! v = Some l_Undef;
  ao_lims i j x y : i ≤ j → trail_lim a !! i = Some x → trail_lim a !! j = Some y → x ≤ y;
  ao_lims_trail x : x ∈ trail_lim a → x ≤ length (trail a);
  ao_levels i p : trail a !! i = Some p → lv a (var p) = level_at (trail_lim a) i;
  ao_qhead : qhead a ≤ length (trail a);
}.

Arguments ao_length {a}.
Arguments ao_vars {a}.
Arguments ao_nodup {a}.
Arguments ao_assigned {a}.
Arguments ao_unassigned {a}.
Arguments ao_lims {a}.
Arguments ao_lims_trail {a}.
Arguments ao_levels {a}.
Arguments ao_qhead {a}.

Section assignment.
Implicit Types (a : Assignment) (p q : Lit) (v : Var).

Lemma vardata_at a v : v < nVars a → vardata a !! v = Some (MkVarData (rs a v) (lv a v)).
Proof. intros [x Hx]%lookup_lt_is_Some. unfold rs, lv. rewrite Hx. by destruct x. Qed.
Lemma level_of_ok a v : v < nVars a → level_of a v = Ok (lv a v).
Proof. intros Hv. unfold level_of, at_. by rewrite (vardata_at a v Hv). Qed.
Lemma reason_of_ok a v : v < nVars a → reason_of a v = Ok (rs a v).
Proof. intros Hv. unfold reason_of, at_. by rewrite (vardata_at a v Hv). Qed.

Lemma trail_pos (t : list Lit) p : p ∈ t → ∃ i, t !! i = Some p.
Proof. apply list_elem_of_lookup. Qed.
Lemma trail_var_inj a p q : asg_ok a → p ∈ trail a → q ∈ trail a → var p = var q → p = q.
Proof.
  intros A [i Hi]%trail_pos [j Hj]%trail_pos E. pose proof (ao_nodup A) as N. rewrite NoDup_alt in N.
  assert (i = j) as ->; [|congruence]. apply (N i j (var p)); rewrite list_lookup_fmap; [by rewrite Hi|by rewrite Hj, E].
Qed.
Lemma trail_index_inj a i j p q : asg_ok a → trail a !! i = Some p → trail a !! j = Some q → var p = var q → i = j.
Proof.
  intros A Hi Hj E. pose proof (ao_nodup A) as N. rewrite NoDup_alt in N.
  apply (N i j (var p)); rewrite list_lookup_fmap; [by rewrite Hi|by rewrite Hj, E].
Qed.
Lemma trail_not a p : asg_ok a → p ∈ trail a → lit_not p ∉ trail a.
Proof. intros A Hp Hq. apply (lit_not_ne p). apply (trail_var_inj a); [done..|]. by rewrite var_not. Qed.

Lemma var_in_trail (t : list Lit) p : var p ∈ var <$> t ↔ p ∈ t ∨ lit_not p ∈ t.
Proof.
  rewrite list_elem_of_fmap. split.
  - intros (q & E & Hq). symmetry in E. apply var_eq_cases in E as [->| ->]; first [by left|by right].
  - intros [Hp|Hp]; eexists; (split; [|exact Hp]); [done|by rewrite var_not].
Qed.

Lemma val_cases t p : val t p = l_True ∧ p ∈ t ∨ val t p = l_False ∧ ¬ p ∈ t ∧ lit_not p ∈ t ∨ val t p = l_Undef ∧ ¬ p ∈ t ∧ ¬ lit_not p ∈ t.
Proof. unfold val. repeat case_decide; tauto. Qed.
Lemma val_true t p : val t p = l_True ↔ p ∈ t.
Proof. unfold val. repeat case_decide; naive_solver. Qed.
Lemma val_false a p : asg_ok a → val (trail a) p = l_False ↔ lit_not p ∈ trail a.
Proof.
  intros A. unfold val. repeat case_decide; try naive_solver. split; [done|]. intros Hn. by apply (trail_not a p A) in Hn.
Qed.
Lemma val_undef t p : val t p = l_Undef ↔ var p ∉ var <$> t.
Proof. rewrite var_in_trail. unfold val. repeat case_decide; naive_solver. Qed.

Lemma value_ok a p : asg_ok a → var p < nVars a → value a p = Ok (val (trail a) p).
Proof.
  intros A Hp. unfold value, at_. destruct (val_cases (trail a) p) as [[-> Ht]|[(-> & _ & Ht)|(E & _)]].
  - rewrite (ao_assigned A p Ht). cbn. by destruct (sign p).
  - pose proof (ao_assigned A _ Ht) as E. rewrite var_not, sign_not in E. rewrite E. cbn. by destruct (sign p).
  - rewrite E. apply val_undef in E. by rewrite (ao_unassigned A _ Hp E).
Qed.
Lemma value_var_ok a v : asg_ok a → v < nVars a → value_var a v = Ok (val (trail a) (mkLit v false)).
Proof.
  intros A Hv. pose proof (value_ok a (mkLit v false) A) as E. rewrite var_mkLit in E. specialize (E Hv). unfold value, value_var in *.
  rewrite var_mkLit, sign_mkLit in E. destruct (at_ (assigns a) v) as [x|]; [|done]. cbn in E. injection E as <-. by destruct x.
Qed.

(** *** Levels *)

Lemma level_at_le lims i : level_at lims i ≤ length lims.
Proof. apply length_filter. Qed.
Lemma level_at_mono lims i j : i ≤ j → level_at lims i ≤ level_at lims j.
Proof.
  intros Hij. unfold level_at. induction lims as [|x l IH]; [done|]. rewrite !filter_cons. repeat case_decide; cbn; lia.
Qed.
Lemma level_at_all lims i : (∀ x, x ∈ lims → x ≤ i) → level_at lims i = length lims.
Proof. intros H. unfold level_at. by rewrite filter_every. Qed.

Definition sorted_lims (lims : list nat) : Prop := ∀ i j x y, i ≤ j → lims !! i = Some x → lims !! j = Some y → x ≤ y.

(** Positions below the limit of level [k + 1] are those of the levels up to [k]. *)
Lemma level_at_lim lims k x i : sorted_lims lims → lims !! k = Some x → i < x ↔ level_at lims i ≤ k.
Proof.
  intros Hs Hk. unfold level_at. pose proof (lookup_lt_Some _ _ _ Hk) as Lk.
  rewrite <- (take_drop_middle lims k x Hk) at 1. rewrite filter_app, length_app.
  pose proof (length_filter (λ y, y ≤ i) (take k lims)) as L1. rewrite length_take in L1. split.
  - intros Hi. assert (filter (λ y, y ≤ i) (x :: drop (S k) lims) = []) as ->; [|cbn; lia].
    apply filter_none. intros y Hy Hle. assert (x ≤ y) as Hxy; [|lia]. apply elem_of_cons in Hy as [->|Hy]; [done|].
    apply list_elem_of_lookup in Hy as [j Hj]. rewrite lookup_drop in Hj. apply (Hs k (S k + j) x y); [lia|done..].
  - intros Hle. destruct (Nat.le_gt_cases x i) as [Hxi|]; [|done]. exfalso.
    assert (filter (λ y, y ≤ i) (take k lims) = take k lims) as Ef.
    { apply filter_every. intros y [j Hj]%list_elem_of_lookup. apply lookup_take_Some in Hj as [Hj Hlt].
      assert (y ≤ x) as Hyx by (apply (Hs j k y x); [lia|done..]). lia. }
    rewrite Ef, length_take, filter_cons_True in Hle by done. cbn in Hle. lia.
Qed.
Lemma level_at_take lims k x i : sorted_lims lims → lims !! k = Some x → i < x → level_at (take k lims) i = level_at lims i.
Proof.
  intros Hs Hk Hi. unfold level_at. rewrite <- (take_drop_middle lims k x Hk) at 2. rewrite filter_app.
  assert (filter (λ y, y ≤ i) (x :: drop (S k) lims) = []) as ->; [|by rewrite app_nil_r].
  apply filter_none. intros y Hy Hle. assert (x ≤ y) as Hxy; [|lia]. apply elem_of_cons in Hy as [->|Hy]; [done|].
  apply list_elem_of_lookup in Hy as [j Hj]. rewrite lookup_drop in Hj. apply (Hs k (S k + j) x y); [lia|done..].
Qed.

Lemma lv_le a p : asg_ok a → p ∈ trail a → lv a (var p) ≤ decisionLevel a.
Proof. intros A [i Hi]%trail_pos. rewrite (ao_levels A i p Hi). apply level_at_le. Qed.

(** *** Enqueuing *)

Definition enqueued p (from : Reason) a : Assignment :=
  MkAssignment (<[var p := lbool_of_bool (negb (sign p))]> (assigns a)) (<[var p := MkVarData from (decisionLevel a)]> (vardata a))
    (trail a ++ [p]) (trail_lim a) (qhead a).

Lemma enqueue_eq isT p from a : asg_ok a → var p < nVars a → val (trail a) p = l_Undef → (from = CRef_Fake → isT (var p) = true) →
  uncheckedEnqueue isT p from a = Ok (enqueued p from a).
Proof.
  intros A Hp Hv Hf. unfold uncheckedEnqueue.
  assert (negb (bool_decide (from = CRef_Fake)) || isT (var p) = true) as -> by (case_bool_decide; [by rewrite Hf|done]).
  cbn [check rbind]. rewrite (value_ok a p A Hp), Hv. cbn [rbind]. rewrite bool_decide_true by done. cbn [check rbind].
  unfold upd. rewrite (ao_length A). unfold nVars in *. rewrite (proj2 (Nat.ltb_lt _ _) Hp). done.
Qed.

Lemma enqueued_nVars p from a : nVars (enqueued p from a) = nVars a.
Proof. apply length_insert. Qed.
Lemma enqueued_lv_ne p from a v : v ≠ var p → lv (enqueued p from a) v = lv a v.
Proof. intros Hv. unfold lv. cbn. by rewrite list_lookup_insert_ne. Qed.
Lemma enqueued_lv_eq p from a : var p < nVars a → lv (enqueued p from a) (var p) = decisionLevel a.
Proof. intros Hv. unfold lv. cbn. by rewrite list_lookup_insert_eq. Qed.
Lemma enqueued_rs_ne p from a v : v ≠ var p → rs (enqueued p from a) v = rs a v.
Proof. intros Hv. unfold rs. cbn. by rewrite list_lookup_insert_ne. Qed.
Lemma enqueued_rs_eq p from a : var p < nVars a → rs (enqueued p from a) (var p) = from.
Proof. intros Hv. unfold rs. cbn. by rewrite list_lookup_insert_eq. Qed.

Lemma enqueued_ok p from a : asg_ok a → var p < nVars a → val (trail a) p = l_Undef → asg_ok (enqueued p from a).
Proof.
  intros A Hp Hv. apply val_undef in Hv. pose proof (enqueued_nVars p from a) as En.
  assert (∀ q, q ∈ trail a → var q ≠ var p) as Hne by (intros q Hq E; apply Hv; rewrite <- E; by apply list_elem_of_fmap_2).
  constructor; try rewrite En; cbn [trail assigns trail_lim qhead enqueued].
  - rewrite length_insert. apply A.
  - intros q [Hq|Hq]%elem_of_app; [by apply A|]. by apply list_elem_of_singleton in Hq as ->.
  - rewrite fmap_app. apply NoDup_app. split; [apply A|]. split; [|apply NoDup_singleton].
    intros v Hin Hs. apply list_elem_of_singleton in Hs. by subst v.
  - intros q [Hq|Hq]%elem_of_app.
    + rewrite list_lookup_insert_ne by (apply not_eq_sym; by apply Hne). by apply A.
    + apply list_elem_of_singleton in Hq as ->. apply list_lookup_insert_eq. by rewrite (ao_length A).
  - intros v Lv Hvt. rewrite fmap_app in Hvt. rewrite list_lookup_insert_ne by set_solver. apply A; [done|set_solver].
  - apply A.
  - intros x Hx. rewrite length_app. cbn. pose proof (ao_lims_trail A x Hx). lia.
  - intros i q Hi. apply lookup_app_Some in Hi as [Hi|[Hi Hq]].
    + rewrite enqueued_lv_ne by (apply Hne; by eapply list_elem_of_lookup_2). by apply A.
    + apply list_lookup_singleton_Some in Hq as [Hq <-]. rewrite enqueued_lv_eq by done. symmetry. apply level_at_all.
      intros x Hx. pose proof (ao_lims_trail A x Hx). lia.
  - rewrite length_app. cbn. pose proof (ao_qhead A). lia.
Qed.

End assignment.

(** ** The data base *)

(** The parts of the data base that the invariant is about: the memory, the
    lists of watchers, their flags, the list of flagged literals, the original
    and the learnt clauses. *)
Section database.
Context {F : Type} `{Double F} (n : nat).
Implicit Types (m : list (Clause F)) (oc : list (list Watcher)) (dt : list bool) (ds : list Lit) (cs ls : list CRef) (p q : Lit) (w : Watcher).

Definition list_at oc p : list Watcher := default [] (oc !! toInt p).
Definition is_dirty dt p : Prop := dt !! toInt p = Some true.

(** A watcher of [p] refers to a removed clause, or to one that has the negation of
    [p] at one of its first two places. *)
Definition watches_clause m dt (A : list CRef) p w : Prop := ∃ c, m !! cref w = Some c ∧
  (c_mark c = 1 ∧ is_dirty dt p
   ∨ cref w ∈ A ∧ (∃ i, i < 2 ∧ lits c !! i = Some (lit_not p)) ∧ blocker w ∈ lits c).

(** A learnt clause has an activity, and its glue counts some of its literals. *)
Definition learnt_ok (c : Clause F) : Prop := c_extra c = true ∧ c_glue c ≤ length (lits c).

Record db_ok m oc dt ds cs ls : Prop := {
  do_lits cr c q : m !! cr = Some c → q ∈ lits c → var q < n;
  do_extra cr c : m !! cr = Some c → c_learnt c = true → c_extra c = true;
  do_occs : length oc = 2 * n;
  do_dirty : length dt = 2 * n;
  do_dirties p : is_dirty dt p → p ∈ ds;
  do_dirties_range p : p ∈ ds → var p < n;
  do_nodup : NoDup (cs ++ ls);
  do_attached cr : cr ∈ cs ++ ls → ∃ c, m !! cr = Some c ∧ c_mark c = 0 ∧ 2 ≤ length (lits c) ∧ NoDup (var <$> lits c);
  do_learnt cr c : cr ∈ ls → m !! cr = Some c → learnt_ok c;
  do_watch_nodup p : NoDup (cref <$> list_at oc p);
  do_watchers p w : w ∈ list_at oc p → watches_clause m dt (cs ++ ls) p w;
  do_watched cr c i q : cr ∈ cs ++ ls → m !! cr = Some c → i < 2 → lits c !! i = Some q → cr ∈ cref <$> list_at oc (lit_not q);
}.

Arguments do_lits {m oc dt ds cs ls}.
Arguments do_extra {m oc dt ds cs ls}.
Arguments do_occs {m oc dt ds cs ls}.
Arguments do_dirty {m oc dt ds cs ls}.
Arguments do_dirties {m oc dt ds cs ls}.
Arguments do_dirties_range {m oc dt ds cs ls}.
Arguments do_nodup {m oc dt ds cs ls}.
Arguments do_attached {m oc dt ds cs ls}.
Arguments do_learnt {m oc dt ds cs ls}.
Arguments do_watch_nodup {m oc dt ds cs ls}.
Arguments do_watchers {m oc dt ds cs ls}.
Arguments do_watched {m oc dt ds cs ls}.

Lemma list_at_insert_eq oc p ws : toInt p < length oc → list_at (<[toInt p := ws]> oc) p = ws.
Proof. intros Hp. unfold list_at. by rewrite list_lookup_insert_eq. Qed.
Lemma list_at_insert_ne oc p q ws : p ≠ q → list_at (<[toInt p := ws]> oc) q = list_at oc q.
Proof. intros Hp. unfold list_at. by rewrite list_lookup_insert_ne by (by intros E%toInt_inj). Qed.
Lemma list_at_id oc p : toInt p < length oc → <[toInt p := list_at oc p]> oc = oc.
Proof. intros [ws Hw]%lookup_lt_is_Some. unfold list_at. rewrite Hw. by apply list_insert_id. Qed.

Lemma nodup_vars_inj (ps : list Lit) i j p q : NoDup (var <$> ps) → ps !! i = Some p → ps !! j = Some q → var p = var q → i = j.
Proof.
  intros N Hi Hj E. rewrite NoDup_alt in N. apply (N i j (var p)); rewrite list_lookup_fmap; [by rewrite Hi|by rewrite Hj, E].
Qed.

(** A clause has no two watchers in a list, so the rest of the list is about others. *)
Lemma cref_split p pre w post oc : NoDup (cref <$> list_at oc p) → list_at oc p = pre ++ w :: post →
  ∀ u, u ∈ pre ++ post → cref u ≠ cref w.
Proof.
  intros N E u Hu Eq. rewrite E, fmap_app, fmap_cons in N. apply NoDup_app in N as (N1 & N2 & N3). apply NoDup_cons in N3 as [N3 _].
  apply elem_of_app in Hu as [Hu|Hu].
  - apply (N2 (cref u)); [by apply list_elem_of_fmap_2|]. rewrite Eq. by left.
  - apply N3. rewrite <- Eq. by apply list_elem_of_fmap_2.
Qed.

(** What does not change a clause: the order of its literals. *)
Definition same_clause (c c' : Clause F) : Prop :=
  lits c' ≡ₚ lits c ∧ c_mark c' = c_mark c ∧ c_learnt c' = c_learnt c ∧ c_extra c' = c_extra c ∧ c_glue c' = c_glue c.
#[export] Instance same_clause_refl : Reflexive same_clause.
Proof. done. Qed.
#[export] Instance same_clause_trans : Transitive same_clause.
Proof. intros c1 c2 c3 (A1 & A2 & A3 & A4 & A5) (B1 & B2 & B3 & B4 & B5). split; [by etrans|]. split; [congruence|]. split; [congruence|]. split; congruence. Qed.

(** Replacing a clause by one that has the same literals at the two first places,
    in any order, with the watchers untouched. *)
Lemma db_swap m oc dt ds cs ls cr c c' : db_ok m oc dt ds cs ls → m !! cr = Some c → same_clause c c' →
  (∀ q, (∃ i, i < 2 ∧ lits c !! i = Some q) ↔ (∃ i, i < 2 ∧ lits c' !! i = Some q)) →
  db_ok (<[cr := c']> m) oc dt ds cs ls.
Proof.
  intros D Hc (P1 & P2 & P3 & P4 & P5) Hw. pose proof (lookup_lt_Some _ _ _ Hc) as Lc.
  assert (∀ k x, <[cr := c']> m !! k = Some x → k = cr ∧ x = c' ∨ k ≠ cr ∧ m !! k = Some x) as Hm.
  { intros k x Hk. destruct (decide (k = cr)) as [->|Hk']; [rewrite list_lookup_insert_eq in Hk by done; left; by injection Hk as <-|].
    rewrite list_lookup_insert_ne in Hk by done. by right. }
  constructor; try apply D.
  - intros k x q [[-> ->]|[_ Hk]]%Hm Hq; [|by eapply D]. rewrite P1 in Hq. by eapply D.
  - intros k x [[-> ->]|[_ Hk]]%Hm Hx; [|by eapply D]. rewrite P4. apply (do_extra D cr c Hc). congruence.
  - intros k Hk. destruct (do_attached D k Hk) as (x & Hx & M & L & N). destruct (decide (k = cr)) as [->|Hk'].
    + exists c'. rewrite list_lookup_insert_eq by done. assert (x = c) as -> by congruence. split; [done|]. split; [congruence|].
      rewrite P1. done.
    + exists x. by rewrite list_lookup_insert_ne.
  - intros k x Hk [[-> ->]|[_ Hx]]%Hm; [|by apply (do_learnt D k)]. destruct (do_learnt D cr c Hk Hc). split; [congruence|]. by rewrite P5, P1.
  - intros p w Hin. destruct (do_watchers D p w Hin) as (x & Hx & Hcase). destruct (decide (cref w = cr)) as [E|E].
    + exists c'. rewrite E, list_lookup_insert_eq by done. split; [done|]. rewrite E in Hx. assert (x = c) as -> by congruence.
      destruct Hcase as [[M Hd]|(HA & Hi & Hb)]; [left; split; congruence|right]. rewrite <- E. split; [done|]. split; [by apply Hw|]. by rewrite P1.
    + exists x. by rewrite list_lookup_insert_ne.
  - intros k x i q Hk [[-> ->]|[_ Hx]]%Hm Hi Hq; [|by eapply D].
    destruct (proj2 (Hw q)) as (j & Hj & Hj'); [by exists i|]. by eapply D.
Qed.

(** Replacing a watcher by one of the same clause. *)
Lemma db_blocker m oc dt ds cs ls p pre w post c b : db_ok m oc dt ds cs ls → toInt p < length oc → list_at oc p = pre ++ w :: post →
  m !! cref w = Some c → b ∈ lits c → db_ok m (<[toInt p := pre ++ MkWatcher (cref w) b :: post]> oc) dt ds cs ls.
Proof.
  intros D Hp E Hc Hb.
  assert (∀ q, cref <$> list_at (<[toInt p := pre ++ MkWatcher (cref w) b :: post]> oc) q = cref <$> list_at oc q) as Ec.
  { intros q. destruct (decide (p = q)) as [<-|Hne]; [|by rewrite list_at_insert_ne].
    rewrite list_at_insert_eq by done. by rewrite E, !fmap_app, !fmap_cons. }
  constructor; try apply D.
  - by rewrite length_insert, (do_occs D).
  - intros q. rewrite Ec. apply D.
  - intros q u Hu. destruct (decide (p = q)) as [<-|Hne].
    2:{ rewrite list_at_insert_ne in Hu by done. by eapply D. }
    rewrite list_at_insert_eq in Hu by done. apply elem_of_app in Hu as [Hu|[->|Hu]%elem_of_cons].
    + apply (do_watchers D). rewrite E. set_solver.
    + destruct (do_watchers D p w) as (x & Hx & Hcase); [rewrite E; set_solver|]. exists x. cbn. split; [done|].
      assert (x = c) as -> by congruence. destruct Hcase as [?|(HA & Hi & _)]; [by left|by right].
    + apply (do_watchers D). rewrite E. set_solver.
  - intros k x i q Hk Hx Hi Hq. rewrite Ec. by eapply D.
Qed.

End database.
Arguments do_lits {F n m oc dt ds cs ls}.
Arguments do_extra {F n m oc dt ds cs ls}.
Arguments do_occs {F n m oc dt ds cs ls}.
Arguments do_dirty {F n m oc dt ds cs ls}.
Arguments do_dirties {F n m oc dt ds cs ls}.
Arguments do_dirties_range {F n m oc dt ds cs ls}.
Arguments do_nodup {F n m oc dt ds cs ls}.
Arguments do_attached {F n m oc dt ds cs ls}.
Arguments do_learnt {F n m oc dt ds cs ls}.
Arguments do_watch_nodup {F n m oc dt ds cs ls}.
Arguments do_watchers {F n m oc dt ds cs ls}.
Arguments do_watched {F n m oc dt ds cs ls}.

(** * The SAT solver: changes of the data base

    The operations on clauses and lists of watchers keep the invariant [db_ok]. *)

Section watch.
Context {F : Type} `{Double F} (n : nat).
Implicit Types (m : list (Clause F)) (oc : list (list Watcher)) (dt : list bool) (ds : list Lit) (cs ls : list CRef) (p q : Lit) (w : Watcher) (ca : ClauseAllocator F).

Lemma insert_cases {A} (l : list A) i x k y : <[i := x]> l !! k = Some y → k = i ∧ x = y ∨ k ≠ i ∧ l !! k = Some y.
Proof. intros [(-> & -> & _)|[Hn Hk]]%list_lookup_insert_Some; [by left|right; split; [congruence|done]]. Qed.

Lemma watcher_index m oc dt ds cs ls p w : db_ok n m oc dt ds cs ls → w ∈ list_at oc p → ∃ c, m !! cref w = Some c.
Proof. intros D Hw. destruct (do_watchers D p w Hw) as (c & Hc & _). by exists c. Qed.

(** A clause found a new literal to watch instead of the negation of [p]. *)
Lemma db_move m oc dt ds cs ls p pre w post c k ck first : db_ok n m oc dt ds cs ls → var p < n → list_at oc p = pre ++ w :: post →
  cref w ∈ cs ++ ls → m !! cref w = Some c → lits c !! 0 = Some first → lits c !! 1 = Some (lit_not p) → 2 ≤ k → lits c !! k = Some ck →
  lit_not ck ≠ p ∧ db_ok n (<[cref w := set_lits (<[k := lit_not p]> (<[1 := ck]> (lits c))) c]> m)
    (<[toInt (lit_not ck) := list_at oc (lit_not ck) ++ [MkWatcher (cref w) first]]> (<[toInt p := pre ++ post]> oc)) dt ds cs ls.
Proof.
  intros D Hp E HA Hc H0 H1 Hk Hck. set (ps := <[k := lit_not p]> (<[1 := ck]> (lits c))). set (c' := set_lits ps c). set (cr := cref w) in *.
  destruct (do_attached D cr HA) as (x & Hx & M & L & N). assert (x = c) as -> by congruence. clear Hx.
  pose proof (lookup_lt_Some _ _ _ Hck) as Lk. pose proof (lookup_lt_Some _ _ _ Hc) as Lc.
  assert (ps ≡ₚ lits c) as P by (apply Permutation_insert_swap; done).
  assert (ps !! 0 = Some first) as Q0 by (unfold ps; by rewrite !list_lookup_insert_ne by lia).
  assert (ps !! 1 = Some ck) as Q1 by (unfold ps; rewrite list_lookup_insert_ne by lia; by apply list_lookup_insert_eq).
  assert (lit_not ck ≠ p) as Hne.
  { intros Ep. assert (1 = k) as Ek; [|lia]. apply (nodup_vars_inj (lits c) 1 k (lit_not p) ck N H1 Hck). by rewrite <- Ep, lit_not_not. }
  split; [done|]. assert (toInt p < length oc) as Lp by (rewrite (do_occs D); by apply toInt_lt).
  assert (var ck < n) as Vck by (apply (do_lits D cr c ck Hc); by eapply list_elem_of_lookup_2).
  assert (toInt (lit_not ck) < length oc) as Lck by (rewrite (do_occs D); apply toInt_lt; by rewrite var_not).
  set (oc' := <[toInt (lit_not ck) := _]> (<[toInt p := pre ++ post]> oc)).
  assert (list_at oc' p = pre ++ post) as Op.
  { unfold oc'. rewrite list_at_insert_ne by done. by apply list_at_insert_eq. }
  assert (list_at oc' (lit_not ck) = list_at oc (lit_not ck) ++ [MkWatcher cr first]) as Ock.
  { apply list_at_insert_eq. by rewrite length_insert. }
  assert (∀ q, q ≠ p → q ≠ lit_not ck → list_at oc' q = list_at oc q) as Oq.
  { intros q ??. unfold oc'. by rewrite !list_at_insert_ne by done. }
  pose proof (cref_split p pre w post oc (do_watch_nodup D p) E) as Hsplit.
  assert (∀ u, u ∈ list_at oc (lit_not ck) → cref u ≠ cr) as Hfresh.
  { intros u Hu Eu. destruct (do_watchers D (lit_not ck) u Hu) as (x & Hx & Hcase). rewrite Eu in Hx. assert (x = c) as -> by congruence.
    destruct Hcase as [[M' _]|(_ & (i & Hi & Hi') & _)]; [congruence|]. rewrite lit_not_not in Hi'.
    pose proof (nodup_vars_inj _ _ _ _ _ N Hi' Hck eq_refl). lia. }
  constructor; try apply D.
  - intros j x q [[-> <-]|[_ Hj]]%insert_cases Hq; [|by eapply (do_lits D)]. cbn in Hq. rewrite P in Hq. by eapply (do_lits D).
  - intros j x [[-> <-]|[_ Hj]]%insert_cases Hx; [by apply (do_extra D cr c)|by apply (do_extra D j)].
  - unfold oc'. by rewrite !length_insert, (do_occs D).
  - intros j Hj. destruct (do_attached D j Hj) as (x & Hx & Mx & Lx & Nx). destruct (decide (j = cr)) as [->|Hn].
    + exists c'. rewrite list_lookup_insert_eq by done. split; [done|]. split; [done|]. cbn. rewrite P. done.
    + exists x. by rewrite list_lookup_insert_ne.
  - intros j x Hj [[-> <-]|[_ Hx]]%insert_cases; [|by apply (do_learnt D j)]. destruct (do_learnt D cr c Hj Hc). split; [done|]. cbn. by rewrite P.
  - intros q. destruct (decide (q = p)) as [->|Hqp]; [rewrite Op|destruct (decide (q = lit_not ck)) as [->|Hqk]; [rewrite Ock|rewrite Oq by done; apply D]].
    + pose proof (do_watch_nodup D p) as N'. rewrite E, <- Permutation_middle in N'. rewrite fmap_cons in N'. by apply NoDup_cons in N' as [_ N'].
    + rewrite fmap_app. apply NoDup_app. split; [apply D|]. split; [|apply NoDup_singleton].
      intros j (u & -> & Hu)%list_elem_of_fmap Hj. apply list_elem_of_singleton in Hj. by apply (Hfresh u).
  - intros q u Hu. destruct (decide (cref u = cr)) as [Eu|Hn].
    2:{ assert (u ∈ list_at oc q) as Hu'.
        { destruct (decide (q = p)) as [->|Hqp]; [rewrite Op in Hu; rewrite E; set_solver|].
          destruct (decide (q = lit_not ck)) as [->|Hqk]; [|by rewrite Oq in Hu by done]. rewrite Ock in Hu.
          apply elem_of_app in Hu as [?|Hu%list_elem_of_singleton]; [done|]. by subst u. }
        destruct (do_watchers D q u Hu') as (x & Hx & Hcase). exists x. by rewrite list_lookup_insert_ne. }
    exists c'. rewrite Eu, list_lookup_insert_eq by done. split; [done|]. right. split; [done|]. cbn.
    destruct (decide (q = p)) as [->|Hqp].
    { rewrite Op in Hu. by apply Hsplit in Hu. }
    destruct (decide (q = lit_not ck)) as [->|Hqk].
    + rewrite Ock in Hu. apply elem_of_app in Hu as [Hu|Hu%list_elem_of_singleton]; [by apply Hfresh in Hu|]. subst u. cbn.
      split; [exists 1; rewrite lit_not_not; split; [lia|done]|]. rewrite P. by eapply list_elem_of_lookup_2.
    + rewrite Oq in Hu by done. destruct (do_watchers D q u Hu) as (x & Hx & Hcase). rewrite Eu in Hx. assert (x = c) as -> by congruence.
      destruct Hcase as [[M' _]|(_ & (i & Hi & Hi') & Hb)]; [congruence|]. rewrite P. split; [|done].
      assert (i = 0 ∨ i = 1) as [->| ->] by lia; [exists 0; split; [lia|congruence]|].
      exfalso. apply Hqp, lit_not_inj. congruence.
  - intros j x i q Hj Hx Hi Hq. apply insert_cases in Hx as [[-> <-]|[Hn Hx]].
    + assert (i = 0 ∨ i = 1) as [->| ->] by lia; cbn in Hq.
      * assert (q = first) as -> by congruence. assert (first ≠ lit_not p) as F1 by (intros ->; pose proof (nodup_vars_inj _ _ _ _ _ N H0 H1 eq_refl); lia).
        assert (first ≠ ck) as F2 by (intros ->; pose proof (nodup_vars_inj _ _ _ _ _ N H0 Hck eq_refl); lia).
        rewrite Oq; [by apply (do_watched D cr c 0)| |by intros ?%lit_not_inj]. intros Ef. apply F1. by rewrite <- Ef, lit_not_not.
      * assert (q = ck) as -> by congruence. rewrite Ock, fmap_app. apply elem_of_app. right. by left.
    + pose proof (do_watched D j x i q Hj Hx Hi Hq) as Hin. destruct (decide (lit_not q = p)) as [Ep|Hqp].
      * rewrite Ep in *. rewrite Op. rewrite E in Hin. rewrite !fmap_app, fmap_cons in *. set_solver.
      * destruct (decide (lit_not q = lit_not ck)) as [Eq|Hqk]; [|by rewrite Oq by done].
        rewrite Eq in *. rewrite Ock, fmap_app. set_solver.
Qed.

(** A clause in the memory that is not watched. *)
Lemma db_alloc m oc dt ds cs ls c : db_ok n m oc dt ds cs ls → (∀ q, q ∈ lits c → var q < n) → (c_learnt c = true → c_extra c = true) →
  db_ok n (m ++ [c]) oc dt ds cs ls.
Proof.
  intros D Hv Hl. assert (∀ k x, (m ++ [c]) !! k = Some x → m !! k = Some x ∨ k = length m ∧ x = c) as Hm.
  { intros k x [?|[? Hx]]%lookup_app_Some; [by left|]. apply list_lookup_singleton_Some in Hx as [? <-]. right. split; [lia|done]. }
  assert (∀ k, k ∈ cs ++ ls → k ≠ length m) as Hn.
  { intros k Hk ->. destruct (do_attached D _ Hk) as (x & Hx & _). apply lookup_lt_Some in Hx. lia. }
  constructor; try apply D.
  - intros k x q [Hk|[-> ->]]%Hm Hq; [by eapply (do_lits D)|by apply Hv].
  - intros k x [Hk|[-> ->]]%Hm; [by apply (do_extra D k)|done].
  - intros k Hk. destruct (do_attached D k Hk) as (x & Hx & ?). exists x. split; [|done]. by apply lookup_app_l_Some.
  - intros k x Hk [Hx|[-> ->]]%Hm; [by apply (do_learnt D k)|]. exfalso. apply (Hn (length m)); [set_solver|done].
  - intros p w Hw. destruct (do_watchers D p w Hw) as (x & Hx & ?). exists x. split; [|done]. by apply lookup_app_l_Some.
  - intros k x i q Hk [Hx|[-> ->]]%Hm; [by apply (do_watched D)|]. by apply Hn in Hk.
Qed.

(** Attaching a clause that is in no list yet. *)
Lemma db_attach m oc dt ds cs ls cs' ls' cr c c0 c1 : db_ok n m oc dt ds cs ls → m !! cr = Some c → c_mark c = 0 → NoDup (var <$> lits c) →
  lits c !! 0 = Some c0 → lits c !! 1 = Some c1 → (∀ p w, w ∈ list_at oc p → cref w ≠ cr) →
  cs' ++ ls' ≡ₚ cr :: cs ++ ls → cr ∉ cs ++ ls → (∀ k, k ∈ ls' → k ∈ ls ∨ k = cr ∧ learnt_ok c) →
  db_ok n m (<[toInt (lit_not c1) := list_at (<[toInt (lit_not c0) := list_at oc (lit_not c0) ++ [MkWatcher cr c1]]> oc) (lit_not c1) ++ [MkWatcher cr c0]]>
    (<[toInt (lit_not c0) := list_at oc (lit_not c0) ++ [MkWatcher cr c1]]> oc)) dt ds cs' ls'.
Proof.
  intros D Hc M N H0 H1 Hfresh P HA Hls. assert (c0 ≠ c1) as Hne by (intros ->; by pose proof (nodup_vars_inj _ _ _ _ _ N H0 H1 eq_refl)).
  assert (lit_not c0 ≠ lit_not c1) as Hne' by by intros ?%lit_not_inj.
  assert (∀ q, q ∈ lits c → toInt (lit_not q) < length oc) as Hlen.
  { intros q Hq. rewrite (do_occs D). apply toInt_lt. rewrite var_not. by eapply (do_lits D). }
  pose proof (Hlen c0 ltac:(by eapply list_elem_of_lookup_2)) as L0. pose proof (Hlen c1 ltac:(by eapply list_elem_of_lookup_2)) as L1.
  rewrite list_at_insert_ne by done. set (oc' := <[toInt (lit_not c1) := _]> _).
  assert (list_at oc' (lit_not c0) = list_at oc (lit_not c0) ++ [MkWatcher cr c1]) as O0.
  { unfold oc'. rewrite list_at_insert_ne by done. by apply list_at_insert_eq. }
  assert (list_at oc' (lit_not c1) = list_at oc (lit_not c1) ++ [MkWatcher cr c0]) as O1 by (apply list_at_insert_eq; by rewrite length_insert).
  assert (∀ q, q ≠ lit_not c0 → q ≠ lit_not c1 → list_at oc' q = list_at oc q) as Oq.
  { intros q ??. unfold oc'. by rewrite !list_at_insert_ne by done. }
  assert (∀ q u, u ∈ list_at oc' q → u ∈ list_at oc q ∨ cref u = cr ∧ (q = lit_not c0 ∧ blocker u = c1 ∨ q = lit_not c1 ∧ blocker u = c0)) as Hin.
  { intros q u Hu. destruct (decide (q = lit_not c0)) as [->|Q0]; [|destruct (decide (q = lit_not c1)) as [->|Q1]].
    - rewrite O0 in Hu. apply elem_of_app in Hu as [?|Hu%list_elem_of_singleton]; [by left|]. right. subst u. naive_solver.
    - rewrite O1 in Hu. apply elem_of_app in Hu as [?|Hu%list_elem_of_singleton]; [by left|]. right. subst u. naive_solver.
    - rewrite Oq in Hu by done. by left. }
  constructor; try apply D.
  - unfold oc'. by rewrite !length_insert, (do_occs D).
  - rewrite P. apply NoDup_cons. split; [done|apply D].
  - intros k Hk. rewrite P in Hk. apply elem_of_cons in Hk as [->|Hk]; [|by apply D]. exists c. split; [done|]. split; [done|].
    apply lookup_lt_Some in H1. split; [lia|done].
  - intros k x [Hk|[-> Hx]]%Hls Hx'; [by apply (do_learnt D k)|congruence].
  - intros q. assert (NoDup (cref <$> list_at oc q ++ [MkWatcher cr c0]) ∧ NoDup (cref <$> list_at oc q ++ [MkWatcher cr c1])) as [N0 N1].
    { split; rewrite fmap_app; (apply NoDup_app; split; [apply D|split; [|apply NoDup_singleton]]);
        intros j (u & -> & Hu)%list_elem_of_fmap Hj; apply list_elem_of_singleton in Hj; by apply (Hfresh q u). }
    destruct (decide (q = lit_not c0)) as [->|Q0]; [by rewrite O0|]. destruct (decide (q = lit_not c1)) as [->|Q1]; [by rewrite O1|].
    rewrite Oq by done. apply D.
  - intros q u [Hu|[Eu Hcase]]%Hin.
    + destruct (do_watchers D q u Hu) as (x & Hx & [?|(Hk & ?)]); (exists x; split; [done|]); [by left|right]. split; [|done]. rewrite P. by right.
    + exists c. rewrite Eu. split; [done|]. right. split; [rewrite P; by left|].
      destruct Hcase as [[-> ->]|[-> ->]]; rewrite lit_not_not; (split; [|by eapply list_elem_of_lookup_2]); [by exists 0; split; [lia|]|by exists 1; split; [lia|]].
  - intros k x i q Hk Hx Hi Hq. assert (list_at oc (lit_not q) ⊆ list_at oc' (lit_not q)) as Hsub.
    { destruct (decide (q = c0)) as [->|Q0]; [rewrite O0; set_solver|]. destruct (decide (q = c1)) as [->|Q1]; [rewrite O1; set_solver|].
      rewrite Oq; [done|by intros ?%lit_not_inj..]. }
    rewrite P in Hk. apply elem_of_cons in Hk as [->|Hk].
    + assert (x = c) as -> by congruence. assert (i = 0 ∨ i = 1) as [->| ->] by lia.
      * assert (q = c0) as -> by congruence. rewrite O0, fmap_app. apply elem_of_app. right. by left.
      * assert (q = c1) as -> by congruence. rewrite O1, fmap_app. apply elem_of_app. right. by left.
    + pose proof (do_watched D k x i q Hk Hx Hi Hq) as Hw. apply list_elem_of_fmap in Hw as (u & -> & Hu). apply list_elem_of_fmap_2. by apply Hsub.
Qed.

(** A removed clause leaves its watchers in flagged lists. *)
Lemma db_remove m oc dt ds cs ls dt' ds' cs' ls' cr c c0 c1 : db_ok n m oc dt ds cs ls → m !! cr = Some c →
  lits c !! 0 = Some c0 → lits c !! 1 = Some c1 →
  length dt' = length dt → (∀ p, is_dirty dt p → is_dirty dt' p) → is_dirty dt' (lit_not c0) → is_dirty dt' (lit_not c1) →
  (∀ p, is_dirty dt' p → p ∈ ds') → (∀ p, p ∈ ds' → var p < n) →
  NoDup (cs' ++ ls') → (∀ k, k ∈ cs' ++ ls' ↔ k ∈ cs ++ ls ∧ k ≠ cr) → (∀ k, k ∈ ls' → k ∈ ls) →
  db_ok n (<[cr := set_mark 1 c]> m) oc dt' ds' cs' ls'.
Proof.
  intros D Hc H0 H1 Ld Hd D0 D1 Hds Hr N HA Hls. pose proof (lookup_lt_Some _ _ _ Hc) as Lc. constructor; try apply D; try done.
  - intros k x q [[-> <-]|[_ Hk]]%insert_cases Hq; [by apply (do_lits D cr c)|by eapply (do_lits D)].
  - intros k x [[-> <-]|[_ Hk]]%insert_cases Hx; [by apply (do_extra D cr c)|by apply (do_extra D k)].
  - rewrite Ld. apply D.
  - intros k [Hk Hn]%HA. destruct (do_attached D k Hk) as (x & Hx & ?). exists x. by rewrite list_lookup_insert_ne.
  - intros k x Hk%Hls [[-> <-]|[_ Hx]]%insert_cases; [by apply (do_learnt D cr c)|by apply (do_learnt D k)].
  - intros p w Hw. destruct (do_watchers D p w Hw) as (x & Hx & Hcase). destruct (decide (cref w = cr)) as [E|E].
    + exists (set_mark 1 c). rewrite E, list_lookup_insert_eq by done. split; [done|]. left. split; [done|]. rewrite E in Hx. assert (x = c) as -> by congruence.
      destruct Hcase as [[_ ?]|(_ & (i & Hi & Hi') & _)]; [by apply Hd|]. assert (i = 0 ∨ i = 1) as [->| ->] by lia.
      * assert (c0 = lit_not p) as -> by congruence. by rewrite lit_not_not in D0.
      * assert (c1 = lit_not p) as -> by congruence. by rewrite lit_not_not in D1.
    + exists x. rewrite list_lookup_insert_ne by done. split; [done|]. destruct Hcase as [[? ?]|(Hk & ?)]; [left; by auto|right].
      split; [|done]. by apply HA.
  - intros k x i q [Hk Hn]%HA Hx Hi Hq. rewrite list_lookup_insert_ne in Hx by done. by apply (do_watched D k x i q).
Qed.

(** *** Cleaning *)

Definition kept_watcher m w : bool := match m !! cref w with Some c => negb (c_mark c =? 1) | None => true end.

Lemma filter_crefs f (ws : list Watcher) : NoDup (cref <$> ws) → NoDup (cref <$> List.filter f ws).
Proof.
  induction ws as [|w ws IH]; [done|]. change (List.filter f (w :: ws)) with (if f w then w :: List.filter f ws else List.filter f ws).
  rewrite fmap_cons. intros [N1 N2]%NoDup_cons. destruct (f w); [|by apply IH].
  rewrite fmap_cons. apply NoDup_cons. split; [|by apply IH]. intros (u & Eu & Hu)%list_elem_of_fmap. apply N1. rewrite Eu. apply list_elem_of_fmap_2.
  apply list_elem_of_In, filter_In in Hu as [Hu _]. by apply list_elem_of_In.
Qed.

Lemma db_clean m oc dt ds cs ls p : db_ok n m oc dt ds cs ls → var p < n →
  db_ok n m (<[toInt p := List.filter (kept_watcher m) (list_at oc p)]> oc) (<[toInt p := false]> dt) ds cs ls.
Proof.
  intros D Hp. assert (toInt p < length oc) as Lp by (rewrite (do_occs D); by apply toInt_lt).
  assert (toInt p < length dt) as Lt by (rewrite (do_dirty D); by apply toInt_lt).
  assert (∀ q, is_dirty (<[toInt p := false]> dt) q ↔ q ≠ p ∧ is_dirty dt q) as Hd.
  { intros q. unfold is_dirty. destruct (decide (q = p)) as [->|Hq]; [rewrite list_lookup_insert_eq by done; naive_solver|].
    rewrite list_lookup_insert_ne by (intros E%toInt_inj; congruence). naive_solver. }
  assert (∀ q w, w ∈ list_at (<[toInt p := List.filter (kept_watcher m) (list_at oc p)]> oc) q ↔
    w ∈ list_at oc q ∧ (q = p → kept_watcher m w = true)) as Hin.
  { intros q w. destruct (decide (q = p)) as [->|Hq].
    - rewrite list_at_insert_eq by done. rewrite !list_elem_of_In, filter_In. naive_solver.
    - rewrite list_at_insert_ne by congruence. naive_solver. }
  constructor; try apply D.
  - by rewrite length_insert, (do_occs D).
  - by rewrite length_insert, (do_dirty D).
  - intros q [_ Hq]%Hd. by apply D.
  - intros q. destruct (decide (q = p)) as [->|Hq]; [|rewrite list_at_insert_ne by congruence; apply D]. rewrite list_at_insert_eq by done.
    apply filter_crefs, D.
  - intros q w [Hw Hk]%Hin. destruct (do_watchers D q w Hw) as (x & Hx & Hcase). exists x. split; [done|].
    destruct Hcase as [[M Hq]|?]; [|by right]. left. split; [done|]. apply Hd. split; [|done]. intros ->. specialize (Hk eq_refl).
    unfold kept_watcher in Hk. by rewrite Hx, M in Hk.
  - intros k x i q Hk Hx Hi Hq. destruct (list_elem_of_fmap_1 _ _ _ (do_watched D k x i q Hk Hx Hi Hq)) as (w & -> & Hw).
    apply list_elem_of_fmap_2. apply Hin. split; [done|]. intros _. unfold kept_watcher. rewrite Hx.
    destruct (do_attached D _ Hk) as (y & Hy & My & _). assert (x = y) as -> by congruence. by rewrite My.
Qed.

Lemma occs_at_ok oc dt ds p : toInt p < length oc → occs_at p (MkOccLists oc dt ds) = Ok (list_at oc p).
Proof. intros [ws Hw]%lookup_lt_is_Some. unfold occs_at, at_, list_at. cbn. by rewrite Hw. Qed.
Lemma occs_set_ok oc dt ds p ws : toInt p < length oc → occs_set p ws (MkOccLists oc dt ds) = Ok (MkOccLists (<[toInt p := ws]> oc) dt ds).
Proof. intros Hp. unfold occs_set, upd. cbn [occs dirty dirties]. by rewrite (proj2 (Nat.ltb_lt _ _) Hp). Qed.

Lemma clean_ok ca oc dt ds cs ls p : db_ok n (mem ca) oc dt ds cs ls → var p < n →
  clean ca p (MkOccLists oc dt ds) =
    Ok (MkOccLists (<[toInt p := List.filter (kept_watcher (mem ca)) (list_at oc p)]> oc) (<[toInt p := false]> dt) ds).
Proof.
  intros D Hp. assert (toInt p < length oc) as Lp by (rewrite (do_occs D); by apply toInt_lt).
  assert (toInt p < length dt) as Lt by (rewrite (do_dirty D); by apply toInt_lt).
  unfold clean. rewrite occs_at_ok by done. cbn [rbind].
  assert (∀ ws acc, (∀ w, w ∈ ws → w ∈ list_at oc p) →
    foldM (λ ws' w, let! b := WatcherDeleted ca w in Ok (if b : bool then ws' else ws' ++ [w])) acc ws = Ok (acc ++ List.filter (kept_watcher (mem ca)) ws)) as Hf.
  { induction ws as [|w ws IH]; intros acc Hws; cbn [foldM List.filter]; [by rewrite app_nil_r|].
    destruct (watcher_index _ _ _ _ _ _ p w D) as [c Hc]; [apply Hws; by left|]. unfold WatcherDeleted at 1, at_, kept_watcher at 1. rewrite Hc. cbn [rbind].
    destruct (c_mark c =? 1); cbn [negb]; rewrite IH by (intros; apply Hws; by right); [done|]. by rewrite <- app_assoc. }
  rewrite Hf by done. cbn [rbind]. rewrite occs_set_ok by done. cbn [rbind app]. unfold upd. cbn [dirty]. by rewrite (proj2 (Nat.ltb_lt _ _) Lt).
Qed.

(** After [cleanAll] no list is flagged, so no watcher is of a removed clause. *)
Lemma cleanAll_ok ca oc dt ds cs ls : db_ok n (mem ca) oc dt ds cs ls →
  ∃ oc' dt', cleanAll ca (MkOccLists oc dt ds) = Ok (MkOccLists oc' dt' []) ∧ db_ok n (mem ca) oc' dt' [] cs ls ∧ ∀ p, ¬ is_dirty dt' p.
Proof.
  intros D. unfold cleanAll. cbn [dirties].
  enough (∀ ps oc dt, db_ok n (mem ca) oc dt ds cs ls → (∀ p, p ∈ ps → p ∈ ds) → (∀ p, is_dirty dt p → p ∈ ps) →
    ∃ oc' dt', foldM (λ o idx, let! b := at_ (dirty o) (toInt idx) in if b : bool then clean ca idx o else Ok o) (MkOccLists oc dt ds) ps
        = Ok (MkOccLists oc' dt' ds) ∧ db_ok n (mem ca) oc' dt' ds cs ls ∧ ∀ p, ¬ is_dirty dt' p) as Hf.
  { destruct (Hf ds oc dt D) as (oc' & dt' & -> & D' & Hd); [done|apply D|]. exists oc', dt'. split; [done|]. split; [|done].
    constructor; try apply D'; [|set_solver]. intros p Hp. by apply Hd in Hp. }
  clear oc dt D. induction ps as [|p ps IH]; intros oc dt D Hps Hd; cbn [foldM].
  - exists oc, dt. split; [done|]. split; [done|]. intros p Hp%Hd. set_solver.
  - assert (var p < n) as Hp by (apply (do_dirties_range D), Hps; by left).
    assert (toInt p < length dt) as Lt by (rewrite (do_dirty D); by apply toInt_lt). destruct (lookup_lt_is_Some_2 _ _ Lt) as [b Hb].
    unfold at_ at 1. cbn [dirty]. rewrite Hb. cbn [rbind]. destruct b.
    + rewrite (clean_ok _ _ _ _ _ _ _ D Hp). cbn [rbind]. apply IH; [by apply db_clean|set_solver|]. intros q Hq. unfold is_dirty in *.
      destruct (decide (q = p)) as [->|Hne]; [by rewrite list_lookup_insert_eq in Hq|].
      rewrite list_lookup_insert_ne in Hq by (intros E%toInt_inj; congruence). apply Hd in Hq. set_solver.
    + cbn [rbind]. apply IH; [done|set_solver|]. intros q Hq. apply Hd in Hq as Hq'. apply elem_of_cons in Hq' as [->|?]; [|done].
      unfold is_dirty in Hq. congruence.
Qed.

Lemma smudge_ok oc dt ds p : toInt p < length dt → (∀ q, is_dirty dt q → q ∈ ds) →
  ∃ dt' ds', smudge p (MkOccLists oc dt ds) = Ok (MkOccLists oc dt' ds') ∧ length dt' = length dt ∧ is_dirty dt' p
    ∧ (∀ q, is_dirty dt q → is_dirty dt' q) ∧ (∀ q, is_dirty dt' q → q ∈ ds') ∧ (∀ q, q ∈ ds' → q ∈ ds ∨ q = p).
Proof.
  intros Lp Hd. destruct (lookup_lt_is_Some_2 _ _ Lp) as [b Hb]. unfold smudge, at_. cbn [dirty]. rewrite Hb. cbn [rbind]. destruct b.
  - exists dt, ds. naive_solver.
  - unfold upd. rewrite (proj2 (Nat.ltb_lt _ _) Lp). cbn [rbind occs dirties]. eexists _, _. split; [done|]. split; [apply length_insert|].
    split; [by apply list_lookup_insert_eq|]. split; [|split].
    + intros q Hq. unfold is_dirty in *. rewrite list_lookup_insert_ne; [done|]. intros E%toInt_inj. subst q. congruence.
    + intros q Hq. unfold is_dirty in Hq. destruct (decide (q = p)) as [->|Hne]; [set_solver|].
      rewrite list_lookup_insert_ne in Hq by (intros E%toInt_inj; congruence). apply Hd in Hq. set_solver.
    + intros q. set_solver.
Qed.

End watch.
