(* ===== verification/SatPropagate.v ===== *)
(** * The SAT solver: unit propagation

    The invariant of the search on an assignment and a data base, and that
    [propagate] ends, keeps it, and leaves no clause false or unit, or returns a
    clause that is false. *)
From S2P Require Import Prelude Sort NatSet SatLits Terms Heap SatData SatCore SatSpec.
From stdpp Require Import gmap.
From Stdlib Require Import Lia.

#[local] Open Scope nat_scope.

Abbreviation mem_of d := (mem (ca d)) (only parsing).
Abbreviation occs_of d := (occs (watches d)) (only parsing).
Abbreviation attached d := (clauses d ++ learnts d) (only parsing).

Lemma take_sub {A} k (l : list A) x : x ∈ take k l → x ∈ l.
Proof. rewrite <- (take_drop k l) at 2. intros Hx. apply elem_of_app. by left. Qed.

Lemma take_mono {A} i j (l l' : list A) x : l `prefix_of` l' → i ≤ j → x ∈ take i l → x ∈ take j l'.
Proof.
  intros [t ->] Hij [k [Hk Hlt]%lookup_take_Some]%list_elem_of_lookup. apply list_elem_of_lookup. exists k. rewrite lookup_take_lt by lia.
  by apply lookup_app_l_Some.
Qed.

Section inv.
Context {F Th : Type} `{Double F} `{THandler Th} `{THandlerModel Th} (K : list (list Lit)) (R : Var → Prop) (X : list Lit → Lit → Prop).
Implicit Types (a : Assignment) (d : Database F) (m : list (Clause F)) (p q : Lit).

(** A clause follows from the original clauses in the theory. *)
Definition entails (c : list Lit) : Prop :=
  ∀ σ, th_models σ → (∀ k, k ∈ K → clause_true σ k = true) → clause_true σ c = true.

Lemma entails_perm c c' : c ≡ₚ c' → entails c → entails c'.
Proof.
  intros P E σ T HK. specialize (E σ T HK). apply clause_true_iff in E as (p & Hp & Hv). apply clause_true_iff. exists p. by rewrite <- P.
Qed.

(** The reason of the literal [p] at position [i]: the clause whose first literal it
    is, what the theory deduced it from, or none for decisions and for facts. *)
Definition reason_ok a m (i : nat) p : Prop :=
  match rs a (var p) with
  | CRef_Undef => lv a (var p) = 0 ∨ trail_lim a !! (lv a (var p) - 1) = Some i
  | CRef_Fake => isTheoryTerm (var p) = true ∧ ∃ k, X k p ∧ k `prefix_of` take i (trail a)
  | CRef_at cr => ∃ c ps, m !! cr = Some c ∧ lits c = p :: ps ∧ ∀ q, q ∈ ps → lit_not q ∈ take i (trail a)
  end.

Record core_inv a m : Prop := {
  ci_reason i p : trail a !! i = Some p → reason_ok a m i p;
  ci_entailed cr c : m !! cr = Some c → entails (lits c);
  ci_fact p : p ∈ trail a → lv a (var p) = 0 → entails [p];
  ci_trail p : p ∈ trail a → R (var p);
  ci_clause cr c q : m !! cr = Some c → q ∈ lits c → R (var q);
}.

(** The literals at the two first places of the clauses [A] whose negation is on
    the trail, as far as [P] says so: the clause has a true literal that is not of
    a later level. *)
Definition watched_ok (A : list CRef) m a (P : CRef → Lit → Prop) : Prop :=
  ∀ cr c j q, cr ∈ A → m !! cr = Some c → j < 2 → lits c !! j = Some q → lit_not q ∈ trail a → P cr q →
    ∃ l, l ∈ lits c ∧ l ∈ trail a ∧ lv a (var l) ≤ lv a (var q).

Definition dbok n d : Prop := db_ok n (mem_of d) (occs_of d) (dirty (watches d)) (dirties (watches d)) (clauses d) (learnts d).

(** *** Growth *)

Definition same_mem m m' : Prop := Forall2 same_clause m m'.
#[export] Instance same_mem_refl : Reflexive same_mem.
Proof. intros m. unfold same_mem. by apply Forall_Forall2_diag, Forall_true. Qed.
#[export] Instance same_mem_trans : Transitive same_mem.
Proof. change (Transitive (Forall2 (@same_clause F))). apply _. Qed.
Lemma same_mem_insert m cr c c' : m !! cr = Some c → same_clause c c' → same_mem m (<[cr := c']> m).
Proof.
  intros Hc Hs. unfold same_mem. apply Forall2_lookup. intros i. destruct (decide (i = cr)) as [->|Hn].
  - rewrite Hc, list_lookup_insert_eq by by eapply lookup_lt_Some. by constructor.
  - rewrite list_lookup_insert_ne by done. destruct (m !! i); by constructor.
Qed.
Lemma same_mem_lookup m m' cr c : same_mem m m' → m !! cr = Some c → ∃ c', m' !! cr = Some c' ∧ same_clause c c'.
Proof. intros HS Hc. by apply (Forall2_lookup_l _ _ _ _ _ HS). Qed.

(** More of the trail, with the same levels. *)
Record extends a a' : Prop := {
  ext_trail : trail a `prefix_of` trail a';
  ext_lims : trail_lim a' = trail_lim a;
  ext_nVars : nVars a' = nVars a;
  ext_vars p : p ∈ trail a → rs a' (var p) = rs a (var p) ∧ lv a' (var p) = lv a (var p);
}.
#[export] Instance extends_refl : Reflexive extends.
Proof. intros a. by constructor. Qed.
#[export] Instance extends_trans : Transitive extends.
Proof.
  intros a1 a2 a3 [A1 A2 A3 A4] [B1 B2 B3 B4]. constructor; [by etrans|congruence..|]. intros p Hp. destruct (A4 p Hp) as [<- <-]. apply B4.
  destruct A1 as [t ->]. apply elem_of_app. by left.
Qed.

(** The new literals have reasons. *)
Record grows a a' : Prop := {
  gr_extends : extends a a';
  gr_new p : p ∈ trail a' → p ∈ trail a ∨ rs a' (var p) ≠ CRef_Undef;
}.
#[export] Instance grows_refl : Reflexive grows.
Proof. intros a. constructor; [done|by left]. Qed.
#[export] Instance grows_trans : Transitive grows.
Proof.
  intros a1 a2 a3 [A1 A2] [B1 B2]. constructor; [by etrans|]. intros p [Hp|?]%B2; [|by right]. destruct (ext_vars _ _ B1 p Hp) as [-> _]. by apply A2.
Qed.

(** What propagation leaves as it is. *)
Record db_frame (d d' : Database F) : Prop := {
  fr_mem : same_mem (mem_of d) (mem_of d');
  fr_clauses : clauses d' = clauses d;
  fr_learnts : learnts d' = learnts d;
}.
#[export] Instance db_frame_refl : Reflexive db_frame.
Proof. intros d. by constructor. Qed.
#[export] Instance db_frame_trans : Transitive db_frame.
Proof. intros d1 d2 d3 [A1 A2 A3] [B1 B2 B3]. constructor; [by etrans|congruence..]. Qed.

Lemma extends_enqueued p from a : asg_ok a → var p < nVars a → val (trail a) p = l_Undef → extends a (enqueued p from a).
Proof.
  intros A Hp Hv. constructor; [by exists [p]|done|apply enqueued_nVars|]. intros q Hq.
  assert (var q ≠ var p) as Hne by (intros E; apply val_undef in Hv; apply Hv; rewrite <- E; by apply list_elem_of_fmap_2).
  by rewrite enqueued_rs_ne, enqueued_lv_ne.
Qed.

(** *** Enqueuing keeps the invariant *)

Lemma reason_ok_extends a a' m i p : extends a a' → trail a !! i = Some p → reason_ok a m i p → reason_ok a' m i p.
Proof.
  intros [E1 E2 E3 E4] Hi HR. assert (p ∈ trail a) as Hp by by eapply list_elem_of_lookup_2. destruct (E4 p Hp) as [Er El].
  assert (take i (trail a') = take i (trail a)) as Et.
  { destruct E1 as [t ->]. apply lookup_lt_Some in Hi. by rewrite take_app_le by lia. }
  unfold reason_ok in *. by rewrite Er, El, E2, Et.
Qed.

Lemma enqueue_inv p from a m : asg_ok a → core_inv a m → var p < nVars a → val (trail a) p = l_Undef → R (var p) →
  reason_ok (enqueued p from a) m (length (trail a)) p → (decisionLevel a = 0 → entails [p]) → core_inv (enqueued p from a) m.
Proof.
  intros A C Hp Hv HR Hr Hz. pose proof (extends_enqueued p from a A Hp Hv) as Ex. constructor; try apply C.
  - intros i q [Hi|[Hi Hq]]%lookup_app_Some.
    + eapply reason_ok_extends; [done..|by apply C].
    + apply list_lookup_singleton_Some in Hq as [Hq <-]. by replace i with (length (trail a)) by lia.
  - intros q [Hq|Hq]%elem_of_app Hl.
    + apply C; [done|]. by destruct (ext_vars _ _ Ex q Hq) as [_ <-].
    + apply list_elem_of_singleton in Hq as ->. apply Hz. by rewrite enqueued_lv_eq in Hl.
  - intros q [Hq|Hq]%elem_of_app; [by apply C|]. by apply list_elem_of_singleton in Hq as ->.
Qed.

(** All literals but the first are false: at level 0 the first is a fact. *)
Lemma unit_fact a m cr c p ps : core_inv a m → asg_ok a → m !! cr = Some c → lits c ≡ₚ p :: ps → (∀ q, q ∈ ps → lit_not q ∈ trail a) →
  decisionLevel a = 0 → entails [p].
Proof.
  intros C A Hc P Hps Hz σ T HK. pose proof (ci_entailed _ _ C cr c Hc σ T HK) as E. apply clause_true_iff in E as (q & Hq & Hv).
  rewrite P in Hq. apply elem_of_cons in Hq as [->|Hq]; [apply clause_true_iff; exists p; split; [by left|done]|].
  assert (lv a (var (lit_not q)) = 0) as Hl by (pose proof (lv_le a _ A (Hps q Hq)); lia).
  pose proof (ci_fact _ _ C _ (Hps q Hq) Hl σ T HK) as E. apply clause_true_iff in E as (u & Hu & Hv').
  apply list_elem_of_singleton in Hu as ->. rewrite lit_value_not, Hv in Hv'. done.
Qed.

Lemma watched_enqueued A m a (P : CRef → Lit → Prop) p from : asg_ok a → var p < nVars a → val (trail a) p = l_Undef →
  watched_ok A m a P → (∀ cr q, P cr q → lit_not q ≠ p) → watched_ok A m (enqueued p from a) P.
Proof.
  intros Aok Hp Hv W HP cr c j q HA Hc Hj Hq Ht HPq. pose proof (extends_enqueued p from a Aok Hp Hv) as Ex.
  cbn [trail enqueued] in Ht. apply elem_of_app in Ht as [Ht|Ht%list_elem_of_singleton]; [|by apply HP in HPq].
  destruct (W cr c j q HA Hc Hj Hq Ht HPq) as (l & Hl & Hlt & Hle). exists l. split; [done|]. split; [cbn [trail enqueued]; set_solver|].
  destruct (ext_vars _ _ Ex l Hlt) as [_ ->]. destruct (ext_vars _ _ Ex _ Ht) as [_ Eq]. rewrite var_not in Eq. by rewrite Eq.
Qed.

(** *** Reordering a clause *)

Definition put cr c d : Database F := set_ca (MkCA (<[cr := c]> (mem_of d)) (ca_size (ca d)) (ca_wasted (ca d)) (extra_clause_field (ca d))) d.

Lemma clause_at_ok cr c d : mem_of d !! cr = Some c → clause_at cr d = Ok c.
Proof. intros E. unfold clause_at, at_. by rewrite E. Qed.
Lemma put_clause_ok cr c c' d : mem_of d !! cr = Some c → put_clause cr c' d = Ok (put cr c' d).
Proof. intros E%lookup_lt_Some. unfold put_clause, set_clause, upd. by rewrite (proj2 (Nat.ltb_lt _ _) E). Qed.

Lemma reason_head a m cr c p : core_inv a m → m !! cr = Some c → p ∈ trail a → rs a (var p) = CRef_at cr → ∃ ps, lits c = p :: ps.
Proof.
  intros C Hc [i Hi]%trail_pos Hr. pose proof (ci_reason _ _ C i p Hi) as HR. unfold reason_ok in HR. rewrite Hr in HR.
  destruct HR as (c' & ps & Hc' & E & _). exists ps. congruence.
Qed.

Lemma core_inv_put a m cr c c' : core_inv a m → m !! cr = Some c → same_clause c c' →
  (∀ p, p ∈ trail a → rs a (var p) ≠ CRef_at cr) → core_inv a (<[cr := c']> m).
Proof.
  intros C Hc (P & _) Hn. constructor; try apply C.
  - intros i p Hi. pose proof (ci_reason _ _ C i p Hi) as HR. unfold reason_ok in *. destruct (rs a (var p)) as [| |k] eqn:Ek; [done..|].
    assert (k ≠ cr) by (intros ->; apply (Hn p); [by eapply list_elem_of_lookup_2|done]). by rewrite list_lookup_insert_ne.
  - intros k x [[-> <-]|[_ Hk]]%insert_cases; [|by eapply ci_entailed]. eapply entails_perm; [symmetry; exact P|by eapply ci_entailed].
  - intros k x q [[-> <-]|[_ Hk]]%insert_cases Hq; [|by eapply ci_clause]. rewrite P in Hq. by eapply ci_clause.
Qed.

Lemma watched_put A m a (P : CRef → Lit → Prop) cr c c' : watched_ok A m a P → m !! cr = Some c → lits c' ≡ₚ lits c →
  (∀ j q, j < 2 → lits c' !! j = Some q → lit_not q ∈ trail a → P cr q → ∃ j', j' < 2 ∧ lits c !! j' = Some q) →
  watched_ok A (<[cr := c']> m) a P.
Proof.
  intros W Hc E Hj k x j q HA [[-> <-]|[_ Hx]]%insert_cases Hlt Hq Hn HP; [|by eapply W].
  destruct (Hj j q Hlt Hq Hn HP) as (j' & Hj' & Hq'). destruct (W cr c j' q HA Hc Hj' Hq' Hn HP) as (l & Hl & ?). exists l. by rewrite E.
Qed.

Lemma watched_weaken A m a (P P' : CRef → Lit → Prop) : watched_ok A m a P → (∀ cr q, cr ∈ A → P' cr q → P cr q) → watched_ok A m a P'.
Proof. intros W HP cr c j q HA Hc Hj Hq Hn HP'. by apply (W cr c j q), HP. Qed.

(** A true literal, where the false one is of the current level. *)
Lemma watched_true A m a (P P' : CRef → Lit → Prop) cr c l p : asg_ok a → watched_ok A m a P → m !! cr = Some c → l ∈ lits c → l ∈ trail a →
  lv a (var p) = decisionLevel a → (∀ k q, P' k q → P k q ∨ k = cr ∧ lit_not q = p) → watched_ok A m a P'.
Proof.
  intros Aok W Hc Hl Ht Hp HP k x j q HA Hx Hj Hq Hn HP'. destruct (HP k q HP') as [?|[-> E]]; [by apply (W k x j q)|].
  assert (x = c) as -> by congruence. exists l. split; [done|]. split; [done|]. rewrite <- (var_not q), E, Hp. by apply lv_le.
Qed.

End inv.
#[local] Existing Instances same_mem_refl same_mem_trans extends_refl extends_trans grows_refl grows_trans db_frame_refl db_frame_trans.

(** ** A pass over the watchers of a literal *)

Lemma find_watch_ok a ps k : asg_ok a → (∀ q, q ∈ ps → var q < nVars a) →
  ∃ r, find_watch a ps k = Ok r ∧
    match r with Some j => ∃ i q, j = k + i ∧ ps !! i = Some q ∧ ¬ lit_not q ∈ trail a | None => ∀ q, q ∈ ps → lit_not q ∈ trail a end.
Proof.
  intros A. revert k. induction ps as [|p ps IH]; intros k Hv; cbn [find_watch]; [exists None; set_solver|].
  rewrite (value_ok a p A) by (apply Hv; by left). cbn [rbind]. case_bool_decide as E.
  - exists (Some k). split; [done|]. exists 0, p. split; [lia|]. split; [done|]. by rewrite <- (val_false a p A).
  - destruct (IH (S k)) as (r & -> & Hr); [intros; apply Hv; by right|]. exists r. split; [done|]. destruct r as [j|].
    + destruct Hr as (i & q & -> & ? & ?). exists (S i), q. split; [lia|done].
    + intros q [->|Hq]%elem_of_cons; [|by apply Hr]. apply (val_false a p A). by destruct (val (trail a) p); first [done|destruct E].
Qed.

Section pass.
Context {F Th : Type} `{Double F} `{THandler Th} `{THandlerModel Th} (K : list (list Lit)) (R : Var → Prop) (X : list Lit → Lit → Prop).
Context (n : nat) (p : Lit) (i : nat) (t0 : list Lit).
Implicit Types (a : Assignment) (d : Database F) (q : Lit) (w : Watcher) (ws todo : list Watcher).
Abbreviation core a d := (core_inv K R X a (mem_of d)).

(** The watchers that were looked at are [ws], and [todo] are to come. *)
Record pass_inv ws todo a d : Prop := {
  pi_asg : asg_ok a;
  pi_core : core a d;
  pi_nVars : nVars a = n;
  pi_db : db_ok n (mem_of d) (<[toInt p := ws ++ todo]> (occs_of d)) (dirty (watches d)) (dirties (watches d)) (clauses d) (learnts d);
  pi_clean q : ¬ is_dirty (dirty (watches d)) q;
  pi_pos : trail a !! i = Some p;
  pi_take : take i (trail a) = t0;
  pi_level : lv a (var p) = decisionLevel a;
}.

(** The false literals whose watchers were looked at. *)
Definition processed todo (cr : CRef) q : Prop := lit_not q ∈ t0 ∨ lit_not q = p ∧ ¬ cr ∈ cref <$> todo.

(** The clause is false, by the literals of the current level among others. *)
Definition conflicting a d (cr : CRef) : Prop := cr ∈ attached d ∧
  ∃ c, mem_of d !! cr = Some c ∧ (∀ q, q ∈ lits c → lit_not q ∈ trail a) ∧ ∃ q, q ∈ lits c ∧ lv a (var q) = decisionLevel a.

Definition pass_post todo a d (st : list Watcher * Assignment * Database F * option CRef) : Prop :=
  let '(ws', a', d', confl) := st in
  pass_inv ws' todo a' d' ∧ grows a a' ∧ db_frame d d' ∧
  match confl with
  | None => qhead a' = qhead a ∧ watched_ok (attached d') (mem_of d') a' (processed todo)
  | Some cr => qhead a' = nAssigns a' ∧ conflicting a' d' cr ∧ watched_ok (attached d') (mem_of d') a' (λ _ q, lit_not q ∈ t0)
  end.

(** The clause of a watcher, with the false literal second. *)
Definition ordered_clause d w c first rest : Prop :=
  cref w ∈ attached d ∧ mem_of d !! cref w = Some c ∧ lits c = first :: lit_not p :: rest ∧ blocker w ∈ lits c ∧ NoDup (var <$> lits c).

Lemma order_clause ws w todo a d : pass_inv ws (w :: todo) a d → watched_ok (attached d) (mem_of d) a (processed (w :: todo)) →
  ∃ c c0 c1 rest c' first, mem_of d !! cref w = Some c ∧ blocker w ∈ lits c ∧ lits c = c0 :: c1 :: rest
    ∧ lits c' = (if bool_decide (c0 = lit_not p) then c1 :: lit_not p :: rest else lits c) ∧ c' = set_lits (lits c') c
    ∧ put_clause (cref w) c' d = Ok (put (cref w) c' d)
    ∧ ordered_clause (put (cref w) c' d) w c' first rest
    ∧ pass_inv ws (w :: todo) a (put (cref w) c' d) ∧ db_frame d (put (cref w) c' d)
    ∧ watched_ok (attached d) (mem_of (put (cref w) c' d)) a (processed (w :: todo)).
Proof.
  intros PI W. pose proof (pi_asg _ _ _ _ PI) as A. pose proof (pi_db _ _ _ _ PI) as D.
  assert (p ∈ trail a) as Hp by (eapply list_elem_of_lookup_2, PI).
  assert (toInt p < length (occs_of d)) as Lp.
  { pose proof (do_occs D) as E. rewrite length_insert in E. rewrite E. apply toInt_lt. rewrite <- (pi_nVars _ _ _ _ PI). by apply A. }
  destruct (do_watchers D p w) as (c & Hc & [[_ Hd]|(HA & (j & Hj & Hj') & Hb)]).
  { rewrite list_at_insert_eq by done. set_solver. }
  { by apply (pi_clean _ _ _ _ PI) in Hd. }
  destruct (do_attached D _ HA) as (x & Hx & M & L & N). assert (x = c) as -> by congruence. clear Hx.
  destruct (lits c) as [|c0 [|c1 rest]] eqn:El; [cbn in L; lia..|].
  set (ps := if bool_decide (c0 = lit_not p) then c1 :: lit_not p :: rest else lits c).
  assert (∃ first, ps = first :: lit_not p :: rest ∧ ps ≡ₚ lits c ∧ ∀ q, (∃ j, j < 2 ∧ lits c !! j = Some q) ↔ (∃ j, j < 2 ∧ ps !! j = Some q)) as (first & Eps & Pps & Hps).
  { unfold ps. case_bool_decide as E.
    - subst c0. exists c1. split; [done|]. rewrite El. split; [by constructor|]. intros q.
      split; intros ([|[|k]] & Hk & Eq); try lia; cbn in Eq; [by exists 1; split; [lia|]|by exists 0; split; [lia|]|by exists 1; split; [lia|]|by exists 0; split; [lia|]].
    - destruct j as [|[|j]]; cbn in Hj'; [congruence| |lia]. injection Hj' as ->. exists c0. by rewrite El. }
  set (c' := set_lits ps c). assert (same_clause c c') as Hs by done.
  assert (NoDup (var <$> ps)) as Nps by (by rewrite Pps, El).
  exists c, c0, c1, rest, c', first. split; [done|]. split; [by rewrite El|]. split; [done|]. split; [cbn; unfold ps; by rewrite El|]. split; [done|].
  split; [by eapply put_clause_ok|]. pose proof (lookup_lt_Some _ _ _ Hc) as Lc.
  assert (db_frame d (put (cref w) c' d)) as Fr by (constructor; [by apply same_mem_insert with c|done..]).
  split; [|split; [|split; [done|]]].
  - split; [done|]. split; [by apply list_lookup_insert_eq|]. split; [done|]. split; [|done]. cbn. by rewrite Pps, El.
  - constructor; try apply PI.
    + destruct (decide (c0 = lit_not p)) as [E|E].
      * apply (core_inv_put K R X a _ _ c); [apply PI|done..|]. intros q Hq Hr.
        destruct (reason_head K R X a (mem_of d) (cref w) c q (pi_core _ _ _ _ PI) Hc Hq Hr) as [ps' E']. rewrite El in E'. injection E' as -> _. subst q.
        by apply (trail_not a p A).
      * assert (c' = c) as ->; [|cbn; rewrite list_insert_id by done; apply PI]. unfold c', ps. rewrite bool_decide_false by done. by destruct c.
    + apply db_swap with c; [apply PI|done..|exact Hps].
  - cbn. apply watched_put with c; [done..| |]; [cbn; by rewrite Pps|]. intros k q Hk Hq _ _. rewrite Hps. by exists k.
Qed.

Lemma processed_cons w todo k q : processed todo k q → processed (w :: todo) k q ∨ k = cref w ∧ lit_not q = p.
Proof.
  intros [?|[E Hk]]; [by left; left|]. destruct (decide (k = cref w)) as [->|Hn]; [by right|]. left. right. split; [done|].
  rewrite fmap_cons, elem_of_cons. tauto.
Qed.

Lemma pass_keep ws w todo a d c b : pass_inv ws (w :: todo) a d → mem_of d !! cref w = Some c → b ∈ lits c →
  pass_inv (ws ++ [MkWatcher (cref w) b]) todo a d.
Proof.
  intros PI Hc Hb. assert (toInt p < length (occs_of d)) as Lp.
  { pose proof (do_occs (pi_db _ _ _ _ PI)) as E. rewrite length_insert in E. rewrite E. apply toInt_lt. rewrite <- (pi_nVars _ _ _ _ PI).
    apply (pi_asg _ _ _ _ PI). by eapply list_elem_of_lookup_2, PI. }
  constructor; try apply PI. rewrite <- app_assoc. cbn [app].
  pose proof (db_blocker n _ _ _ _ _ _ p ws w todo c b (pi_db _ _ _ _ PI)) as D. rewrite list_insert_insert_eq in D. apply D; [|by apply list_at_insert_eq|done..].
  by rewrite length_insert.
Qed.

Lemma pass_pop ws w todo a d : pass_inv ws (w :: todo) a d → pass_inv (ws ++ [w]) todo a d.
Proof. intros PI. constructor; try apply PI. rewrite <- app_assoc. apply PI. Qed.

Lemma watch_ok q w d : toInt q < length (occs_of d) →
  watch q w d = Ok (set_watches (MkOccLists (<[toInt q := list_at (occs_of d) q ++ [w]]> (occs_of d)) (dirty (watches d)) (dirties (watches d))) d).
Proof.
  intros Hq. unfold watch, occs_push. destruct d as [m [oc dt ds] cs ls x y z]. cbn [watches occs dirty dirties] in *.
  rewrite occs_at_ok by done. cbn [rbind]. by rewrite occs_set_ok.
Qed.

(** The clause finds another literal to watch. *)
Lemma pass_move ws w todo a d c first rest k ck : pass_inv ws (w :: todo) a d → ordered_clause d w c first rest →
  watched_ok (attached d) (mem_of d) a (processed (w :: todo)) → ¬ first ∈ trail a → lits c !! k = Some ck → 2 ≤ k → ¬ lit_not ck ∈ trail a →
  lit_not ck ≠ p ∧ ∃ d', 
    watch (lit_not ck) (MkWatcher (cref w) first) (put (cref w) (set_lits (<[k := lit_not p]> (<[1 := ck]> (lits c))) c) d) = Ok d'
    ∧ pass_inv ws todo a d' ∧ db_frame d d' ∧ watched_ok (attached d') (mem_of d') a (processed todo).
Proof.
  intros PI (HA & Hc & El & Hb & N) W Hf Hk Lk Hck. pose proof (pi_db _ _ _ _ PI) as D.
  assert (toInt p < length (occs_of d)) as Lp.
  { pose proof (do_occs D) as E. rewrite length_insert in E. rewrite E. apply toInt_lt. rewrite <- (pi_nVars _ _ _ _ PI).
    apply (pi_asg _ _ _ _ PI). by eapply list_elem_of_lookup_2, PI. }
  set (c' := set_lits (<[k := lit_not p]> (<[1 := ck]> (lits c))) c).
  assert (lits c !! 0 = Some first ∧ lits c !! 1 = Some (lit_not p)) as [H0' H1'] by by rewrite El.
  destruct (db_move n _ _ _ _ _ _ p ws w todo c k ck first D) as [Hne D']; try done.
  { apply toInt_lt. pose proof (do_occs D) as E. rewrite length_insert in E. by rewrite <- E. }
  { by apply list_at_insert_eq. }
  split; [done|]. rewrite watch_ok.
  2:{ change (toInt (lit_not ck) < length (occs_of d)). pose proof (do_occs D) as E. rewrite length_insert in E. rewrite E. apply toInt_lt. rewrite var_not. apply (do_lits D (cref w) c); [done|].
    by eapply list_elem_of_lookup_2. }
  eexists. split; [done|]. rewrite list_at_insert_ne, list_insert_insert_eq in D' by done.
  rewrite (list_insert_insert_ne _ (toInt (lit_not ck)) (toInt p)) in D' by (by intros E%toInt_inj).
  assert (same_clause c c') as Hs.
  { split; [|done]. by apply Permutation_insert_swap. }
  split; [|split].
  - constructor; try apply PI; [|exact D']. apply (core_inv_put K R X a _ _ c); [apply PI|done..|]. intros q Hq Hr.
    destruct (reason_head K R X a (mem_of d) (cref w) c q (pi_core _ _ _ _ PI) Hc Hq Hr) as [ps' E']. rewrite El in E'. by injection E' as <- _.
  - constructor; [by apply same_mem_insert with c|done..].
  - cbn. assert (lits c' !! 0 = Some first ∧ lits c' !! 1 = Some ck) as [Q0 Q1].
    { cbn [lits set_lits c']. split; [by rewrite !list_lookup_insert_ne by lia|]. rewrite list_lookup_insert_ne by lia. apply list_lookup_insert_eq. by eapply lookup_lt_Some. }
    intros j x u q HA' Hx Hu Hq Hn HP. assert (processed (w :: todo) j q) as HP'.
    { apply processed_cons with (w := w) in HP as [?|[-> Ep]]; [done|]. exfalso. apply insert_cases in Hx as [[_ <-]|[Hn' _]]; [|done].
      assert (u = 0 ∨ u = 1) as [->| ->] by lia; [|congruence]. assert (q = first) as -> by congruence.
      assert (0 = 1) as E; [|lia]. apply (nodup_vars_inj (lits c) 0 1 first (lit_not p) N); [done..|]. by rewrite <- Ep, lit_not_not. }
    revert HA' Hx Hu Hq Hn HP'. apply (watched_put _ _ _ _ _ c c' W Hc (proj1 Hs)).
    intros v z Hv Hz Hn _. assert (v = 0 ∨ v = 1) as [->| ->] by lia; [exists 0; split; [lia|congruence]|]. rewrite Q1 in Hz. by injection Hz as ->.
Qed.

(** Its other literals are false, and the first one is not assigned. *)
Lemma pass_enqueue ws w todo a d c first rest : pass_inv ws (w :: todo) a d → ordered_clause d w c first rest →
  watched_ok (attached d) (mem_of d) a (processed (w :: todo)) → val (trail a) first = l_Undef → (∀ q, q ∈ rest → lit_not q ∈ trail a) →
  uncheckedEnqueue isTheoryTerm first (CRef_at (cref w)) a = Ok (enqueued first (CRef_at (cref w)) a)
  ∧ pass_inv (ws ++ [MkWatcher (cref w) first]) todo (enqueued first (CRef_at (cref w)) a) d ∧ grows a (enqueued first (CRef_at (cref w)) a)
  ∧ watched_ok (attached d) (mem_of d) (enqueued first (CRef_at (cref w)) a) (processed todo).
Proof.
  intros PI (HA & Hc & El & Hb & N) W Hv Hrest. pose proof (pi_asg _ _ _ _ PI) as A. pose proof (pi_core _ _ _ _ PI) as C.
  assert (first ∈ lits c) as Hin by (rewrite El; by left).
  assert (var first < nVars a) as Hlt by (rewrite (pi_nVars _ _ _ _ PI); by apply (do_lits (pi_db _ _ _ _ PI) (cref w) c)).
  assert (p ∈ trail a) as Hp by (eapply list_elem_of_lookup_2, PI).
  assert (∀ q, q ∈ lit_not p :: rest → lit_not q ∈ trail a) as Hfalse.
  { intros q [->|Hq]%elem_of_cons; [by rewrite lit_not_not|by apply Hrest]. }
  assert (¬ first ∈ trail a) as Hnf by (intros Hf; apply val_true in Hf; congruence).
  set (a' := enqueued first (CRef_at (cref w)) a). pose proof (extends_enqueued first (CRef_at (cref w)) a A Hlt Hv : extends a a') as Ex.
  pose proof (pass_keep ws w todo a d c first PI Hc Hin) as PK.
  split; [by apply enqueue_eq|]. split; [constructor; try apply PK|split; [constructor; [done|]|]].
  - by apply enqueued_ok.
  - apply enqueue_inv; [done..|by eapply ci_clause| |].
    + unfold reason_ok. rewrite enqueued_rs_eq by done. exists c, (lit_not p :: rest). split; [done|]. split; [done|]. intros q Hq.
      cbn [trail enqueued]. rewrite take_app_length. by apply Hfalse.
    + intros Hz. apply (unit_fact K R X a (mem_of d) (cref w) c first (lit_not p :: rest)); [done..|by rewrite El|done|done].
  - unfold a'. rewrite enqueued_nVars. apply PI.
  - cbn. apply lookup_app_l_Some, PI.
  - cbn. rewrite take_app_le; [apply PI|]. apply Nat.lt_le_incl. by eapply lookup_lt_Some, PI.
  - destruct (ext_vars _ _ Ex p Hp) as [_ ->]. apply PI.
  - intros q [Hq|Hq%list_elem_of_singleton]%elem_of_app; [by left|right]. subst q. unfold a'. by rewrite enqueued_rs_eq.
  - apply (watched_true _ _ _ (processed (w :: todo)) _ (cref w) c first p); [by apply enqueued_ok| |done..|cbn; set_solver| |by apply processed_cons].
    + apply watched_enqueued; [done..|]. intros k q [Hq|[Hq _]] E; apply Hnf; [|by rewrite <- E, Hq].
      rewrite <- (pi_take _ _ _ _ PI), E in Hq. by eapply take_sub.
    + destruct (ext_vars _ _ Ex p Hp) as [_ ->]. apply PI.
Qed.

Lemma visit_wp ws w todo a d : pass_inv ws (w :: todo) a d → watched_ok (attached d) (mem_of d) a (processed (w :: todo)) →
  wp no_error (pass_post todo a d) (visit_watcher p (ws, a, d, None) w).
Proof.
  intros PI W. pose proof (pi_asg _ _ _ _ PI) as A.
  destruct (order_clause ws w todo a d PI W) as (c & c0 & c1 & rest & c' & first & Hc & Hb & El & El' & Ec' & Eput & OC & PI1 & Fr & W1).
  set (d1 := put (cref w) c' d) in *.
  assert (∀ q, q ∈ lits c → var q < nVars a) as Hlt by (intros q Hq; rewrite (pi_nVars _ _ _ _ PI); by apply (do_lits (pi_db _ _ _ _ PI) (cref w) c)).
  unfold visit_watcher. rewrite (value_ok a (blocker w) A) by by apply Hlt. cbn [rbind]. destruct (bool_decide_reflect (val (trail a) (blocker w) = l_True)) as [Eb|Eb].
  { split; [by apply pass_pop|]. split; [done|]. split; [done|]. split; [done|]. apply val_true in Eb.
    apply (watched_true _ _ _ (processed (w :: todo)) _ (cref w) c (blocker w) p); [done..|apply PI|by apply processed_cons]. }
  rewrite (clause_at_ok _ c) by done. cbn [rbind]. rewrite El. cbn [at_ lookup list_lookup rbind].
  assert ((if bool_decide (c0 = lit_not p) then let! ps := upd (c0 :: c1 :: rest) 0 c1 in upd ps 1 (lit_not p) else Ok (c0 :: c1 :: rest)) = Ok (lits c')) as ->.
  { rewrite El', El. by destruct (bool_decide (c0 = lit_not p)). }
  assert (∀ ps, set_lits ps c = set_lits ps c') as Eset by (intros ps; by rewrite Ec').
  cbn [rbind]. rewrite Eset. replace (set_lits (lits c') c') with c' by by destruct c'. rewrite Eput. cbn [rbind].
  pose proof OC as (HA & Hc' & Elc & Hb' & N). rewrite Elc. cbn [at_ lookup list_lookup rbind drop]. rewrite (bool_decide_true (lit_not p = lit_not p)) by done. cbn [check rbind].
  assert (first ∈ lits c') as Hin by (rewrite Elc; by left).
  assert (∀ q, q ∈ lits c' → var q < nVars a) as Hlt' by (intros q Hq; rewrite (pi_nVars _ _ _ _ PI); by apply (do_lits (pi_db _ _ _ _ PI1) (cref w) c')).
  rewrite (value_ok a first A) by by apply Hlt'. cbn [rbind].
  destruct (bool_decide (first ≠ blocker w) && bool_decide (val (trail a) first = l_True)) eqn:Ef.
  { apply andb_true_iff in Ef as [_ Ef%bool_decide_eq_true_1%val_true]. split; [by apply (pass_keep _ w _ _ _ c')|]. split; [done|]. split; [done|]. split; [done|].
    apply (watched_true _ _ _ (processed (w :: todo)) _ (cref w) c' first p); [done..|apply PI|by apply processed_cons]. }
  assert (¬ first ∈ trail a) as Hf.
  { intros Hf%val_true. apply andb_false_iff in Ef as [Ef%bool_decide_eq_false_1|Ef%bool_decide_eq_false_1]; [|done]. apply Eb.
    by rewrite <- (dec_stable Ef). }
  rewrite drop_0.
  destruct (find_watch_ok a rest 2 A) as ([k|] & -> & Hk); [intros q Hq; apply Hlt'; rewrite Elc; set_solver| |]; cbn [rbind].
  - destruct Hk as (j & ck & -> & Hj & Hn).
    assert (lits c' !! (2 + j) = Some ck) as Hk by by rewrite Elc.
    destruct (pass_move ws w todo a d1 c' first rest (2 + j) ck PI1 OC W1 Hf Hk ltac:(lia) Hn) as (Hne & d' & Ew & PI' & Fr' & W').
    rewrite <- Elc. unfold at_ at 1. rewrite Hk. cbn [rbind]. unfold upd.
    rewrite (proj2 (Nat.ltb_lt 1 _)) by (rewrite Elc; cbn; lia). cbn [rbind]. rewrite length_insert, (proj2 (Nat.ltb_lt _ _)) by by eapply lookup_lt_Some.
    cbn [rbind]. rewrite Eset, (put_clause_ok _ c') by done. cbn [rbind]. rewrite bool_decide_false by done. rewrite Ew. cbn [rbind].
    split; [done|]. split; [done|]. split; [by etrans|]. done.
  - destruct (bool_decide_reflect (val (trail a) first = l_False)) as [Ev|Ev].
    + apply (val_false a first A) in Ev.
      assert (grows a (set_qhead (nAssigns a) a)) as Ex by (constructor; [by constructor|by left]).
      pose proof (pass_keep _ w _ _ _ c' first PI1 Hc' Hin) as PK.
      split; [constructor; try apply PK|]; [destruct A; by constructor|destruct (pi_core _ _ _ _ PK); by constructor|]. split; [done|]. split; [done|]. split; [done|]. split.
      * split; [done|]. exists c'. split; [done|]. rewrite Elc. split.
        -- intros q [->|[->|Hq]%elem_of_cons]%elem_of_cons; [done|rewrite lit_not_not; by eapply list_elem_of_lookup_2, PI|by apply Hk].
        -- exists (lit_not p). split; [set_solver|]. rewrite var_not. apply PI.
      * apply (watched_weaken _ _ _ (processed (w :: todo))); [exact W1|]. intros k q _ ?. by left.
    + destruct (pass_enqueue ws w todo a d1 c' first rest PI1 OC W1) as (-> & PI' & Ex & W'); [|done|].
      { destruct (val_cases (trail a) first) as [[? _]|[[? _]|[? _]]]; try done. by apply val_true in H2. }
      cbn [rbind]. split; [done|]. split; [done|]. split; [done|]. done.
Qed.

Lemma pass_wp ws a d : pass_inv [] ws a d → watched_ok (attached d) (mem_of d) a (λ _ q, lit_not q ∈ t0 ) → (∀ k x j q, k ∈ attached d → mem_of d !! k = Some x → j < 2 →
    lits x !! j = Some q → lit_not q = p → k ∈ cref <$> ws) →
  wp no_error (pass_post [] a d) (foldM (visit_watcher p) ([], a, d, None) ws).
Proof.
  intros PI W Hw. apply (foldM_wp no_error (visit_watcher p) (λ _ post st, pass_post post a d st)).
  - split; [done|]. split; [done|]. split; [done|]. split; [done|]. intros k x j q HA Hx Hj Hq Hn [HP|[E HP]]; [by apply (W k x j q)|].
    exfalso. apply HP. by apply (Hw k x j q).
  - intros pre w post [[[ws' a'] d'] [cr|]] _ (PI' & Ex & Fr & Hc).
    + split; [by apply pass_pop|]. done.
    + destruct Hc as [Hq W']. eapply wp_mono; [by apply visit_wp|]. intros [[[ws2 a2] d2] confl] (PI2 & Ex2 & Fr2 & Hc2).
      split; [done|]. split; [by etrans|]. split; [by etrans|]. destruct confl; [done|]. destruct Hc2 as [-> ?]. done.
Qed.

End pass.

(** ** The queue *)

Lemma trail_length a : asg_ok a → nAssigns a ≤ nVars a.
Proof.
  intros A. unfold nAssigns. rewrite <- (length_fmap var). rewrite <- (length_seq (nVars a) 0). apply NoDup_incl_length; [apply NoDup_ListNoDup, A|].
  intros v Hv%list_elem_of_In. apply list_elem_of_fmap in Hv as (p & -> & Hp). apply in_seq. pose proof (ao_vars A p Hp). lia.
Qed.

Section propagate.
Context {F Th : Type} `{Double F} `{THandler Th} `{THandlerModel Th} (K : list (list Lit)) (R : Var → Prop) (X : list Lit → Lit → Prop).
Implicit Types (a : Assignment) (d : Database F) (q : Lit).

(** The watched literals of the part of the trail that was propagated. *)
Definition watched_below a d (t : list Lit) : Prop := watched_ok (attached d) (mem_of d) a (λ _ q, lit_not q ∈ t).

Record prop_pre a d : Prop := {
  pp_asg : asg_ok a;
  pp_core : core_inv K R X a (mem_of d);
  pp_db : dbok (nVars a) d;
  pp_lims x : x ∈ trail_lim a → x ≤ qhead a;
  pp_watched : watched_below a d (take (qhead a) (trail a));
}.

(** From [a0] and [d0], the queue was processed up to [qhead]. *)
Definition prop_inv a0 d0 (st : Assignment * Database F * option CRef * nat) : Prop :=
  let '(a, d, confl, _) := st in
  asg_ok a ∧ core_inv K R X a (mem_of d) ∧ dbok (nVars a) d ∧ (∀ q, ¬ is_dirty (dirty (watches d)) q) ∧ grows a0 a ∧ db_frame d0 d ∧ qhead a0 ≤ qhead a ∧
  match confl with
  | None => watched_below a d (take (qhead a) (trail a))
  | Some cr => qhead a = nAssigns a ∧ conflicting a d cr ∧ watched_below a d (take (qhead a0) (trail a0))
  end.

Lemma propagate_round_wp a0 d0 st : (∀ x, x ∈ trail_lim a0 → x ≤ qhead a0) → prop_inv a0 d0 st →
  wp no_error (λ r, match r with
    | inl st' => prop_inv a0 d0 st' ∧ nVars st'.1.1.1 - qhead st'.1.1.1 < nVars st.1.1.1 - qhead st.1.1.1
    | inr st' => prop_inv a0 d0 st' ∧ qhead st'.1.1.1 = nAssigns st'.1.1.1 end) (propagate_round st).
Proof.
  intros Hlim. destruct st as [[[a d] confl] np]. intros (A & C & D & Hcl & Ex & Fr & Hqh & Hc). unfold propagate_round.
  destruct (Nat.ltb_spec (qhead a) (nAssigns a)) as [Hq|Hq].
  2:{ split; [done|]. cbn. pose proof (ao_qhead A). unfold nAssigns in *. lia. }
  destruct confl as [cr|]; [destruct Hc as [? _]; lia|].
  destruct (lookup_lt_is_Some_2 _ _ Hq) as [p Hp]. unfold at_ at 1. rewrite Hp. cbn [rbind].
  assert (p ∈ trail a) as Hpt by by eapply list_elem_of_lookup_2. pose proof (ao_vars A p Hpt) as Hpn.
  pose proof (do_occs D) as Locc. assert (toInt p < length (occs_of d)) as Lp by (rewrite Locc; by apply toInt_lt).
  set (a1 := set_qhead (S (qhead a)) a). assert (occs_at p (watches d) = Ok (list_at (occs_of d) p)) as ->.
  { destruct (watches d) as [oc dt ds]. by apply occs_at_ok. }
  cbn [rbind]. assert (pass_inv K R X (nVars a) p (qhead a) (take (qhead a) (trail a)) [] (list_at (occs_of d) p) a1 d) as PI.
  { constructor; try done; [by destruct A; constructor|by destruct C; constructor|cbn; by rewrite list_at_id|].
    change (lv a (var p) = decisionLevel a). rewrite (ao_levels A _ _ Hp). apply level_at_all. destruct Ex as [[_ E _ _] _]. rewrite E. intros x Hx%Hlim. lia. }
  apply wp_bind. eapply wp_mono; [eapply pass_wp; [exact PI|exact Hc|]|].
  { intros k x j q HA Hx Hj Hq' <-. by apply (do_watched D k x j q). }
  intros [[[ws a'] d'] confl] (PI' & Ex' & Fr' & Hc'). cbn [rbind].
  assert (toInt p < length (occs_of d')) as Lp'.
  { pose proof (do_occs (pi_db _ _ _ _ _ _ _ _ _ _ _ PI')) as E. rewrite length_insert in E. rewrite E. by apply toInt_lt. }
  assert (occs_set p ws (watches d') = Ok (MkOccLists (<[toInt p := ws]> (occs_of d')) (dirty (watches d')) (dirties (watches d')))) as ->.
  { destruct (watches d') as [oc dt ds]. by apply occs_set_ok. }
  cbn [rbind wp]. pose proof (pi_asg _ _ _ _ _ _ _ _ _ _ _ PI') as A'.
  assert (grows a a') as Ex2 by (destruct Ex' as [[] ?]; constructor; [by constructor|done]).
  assert (S (qhead a) ≤ qhead a' ∧ qhead a ≤ nVars a) as [Hq' Hn].
  { pose proof (trail_length a A). split; [|lia]. destruct confl; destruct Hc' as [-> _]; [|done]. unfold nAssigns in *.
    destruct (ext_trail _ _ (gr_extends _ _ Ex2)) as [t ->]. rewrite length_app. lia. }
  pose proof (pi_nVars _ _ _ _ _ _ _ _ _ _ _ PI') as En. split.
  - split; [done|]. split; [apply PI'|]. split; [|split; [|split; [by etrans|split; [|split]]]].
    + pose proof (pi_db _ _ _ _ _ _ _ _ _ _ _ PI') as D'. rewrite app_nil_r in D'. rewrite En. exact D'.
    + intros q. apply (pi_clean _ _ _ _ _ _ _ _ _ _ _ PI').
    + etrans; [exact Fr|]. etrans; [exact Fr'|]. by constructor.
    + lia.
    + destruct confl as [cr|].
      * destruct Hc' as (Eq & Hcf & W). split; [done|]. split; [exact Hcf|]. eapply watched_weaken; [exact W|]. intros k q _ Hin.
        by apply (take_mono (qhead a0) _ (trail a0) (trail a) _ (ext_trail _ _ (gr_extends _ _ Ex)) Hqh).
      * destruct Hc' as (-> & W). eapply watched_weaken; [exact W|]. intros k q _ Hin. cbn [qhead a1 set_qhead] in Hin.
        rewrite (take_S_r _ _ p), (pi_take _ _ _ _ _ _ _ _ _ _ _ PI') in Hin by apply PI'. apply elem_of_app in Hin as [?|Hin%list_elem_of_singleton]; [by left|].
        right. split; [done|]. set_solver.
  - cbn [fst]. rewrite En. pose proof (trail_length a A). lia.
Qed.

(** Propagation returns; either no clause is in the way, or one is false. *)
Theorem propagate_loop_wp a d : prop_pre a d →
  wp no_error (λ st, prop_inv a d st ∧ qhead st.1.1.1 = nAssigns st.1.1.1) (propagate_loop a d).
Proof.
  intros [A C D L W]. unfold propagate_loop. destruct d as [m [oc dt ds] cs ls x y z]. cbn [ca watches].
  destruct (cleanAll_ok (nVars a) m oc dt ds cs ls D) as (oc' & dt' & -> & D' & Hd). cbn [rbind].
  apply (while_wp no_error _ (prop_inv a (MkDatabase m (MkOccLists oc dt ds) cs ls x y z)) (λ st, nVars st.1.1.1 - qhead st.1.1.1)).
  - intros st Hst. eapply wp_mono; [by apply (propagate_round_wp a (MkDatabase m (MkOccLists oc dt ds) cs ls x y z))|]. done.
  - split; [done|]. split; [done|]. split; [done|]. split; [done|]. split; [done|]. split; [by constructor|]. done.
  - cbn [fst]. apply Nat.le_lt_trans with (nVars a); [lia|]. apply Nat.pow_gt_lin_r. lia.
Qed.

End propagate.
