(* ===== verification/SatInv.v ===== *)
(** * The SAT solver: the heap of decision variables

    The vectors that decisions are made with have an element for every variable,
    and the heap holds every decision variable that is not assigned: a decision
    is an unassigned decision variable, and there is none only when all of them
    are assigned. *)
From S2P Require Import Prelude Sort NatSet SatLits Terms Heap SatData SatCore SatSpec SatPropagate.
From stdpp Require Import gmap.
From Stdlib Require Import Lia.

#[local] Open Scope nat_scope.

Section decide.
Context {F Th : Type} `{DoubleLaws F} `{THandler Th}.
Implicit Types (a : Assignment) (o : @Decisions F) (v x : Var).

Definition heap_ok (n : nat) (h : Heap) : Prop := consistent h ∧ ∀ x, inHeap h x = true → x < n.

Record dec_ok (n : nat) o : Prop := {
  de_activity : length (activity o) = n;
  de_decision : length (decision o) = n;
  de_polarity : length (savedPolarity o) = n;
  de_heap : heap_ok n (order_heap o);
  de_seed : seed_ok (random_seed o);
}.

(** The decision variables that are not on the trail are in the heap. *)
Definition covers (t : list Lit) o : Prop :=
  ∀ v, decision o !! v = Some true → v ∉ var <$> t → inHeap (order_heap o) v = true.

Definition act_lt (act : list F) x y : bool :=
  match act !! x, act !! y with Some ax, Some ay => d_lt ay ax | _, _ => false end.

Lemma VarOrderLt_ok act x y : x < length act → y < length act → VarOrderLt act x y = Ok (act_lt act x y).
Proof.
  intros [ax Hx]%lookup_lt_is_Some [ay Hy]%lookup_lt_is_Some. unfold VarOrderLt, at_, act_lt. by rewrite Hx, Hy.
Qed.
Lemma act_lt_asym act x y : act_lt act x y = true → act_lt act y x = false.
Proof. unfold act_lt. destruct (act !! x), (act !! y); try done. apply d_lt_asym. Qed.
Lemma act_le_trans act x y z : x < length act → y < length act → z < length act →
  act_lt act y x = false → act_lt act z y = false → act_lt act z x = false.
Proof.
  intros [ax Hx]%lookup_lt_is_Some [ay Hy]%lookup_lt_is_Some [az Hz]%lookup_lt_is_Some. unfold act_lt. rewrite Hx, Hy, Hz.
  intros L1 L2. by apply (d_lt_neg_trans az ay ax).
Qed.

(** The operations of the heap, with this order. *)

Lemma heap_insert act v h : heap_ok (length act) h → v < length act → inHeap h v = false →
  ∃ h', Heap.insert (VarOrderLt act) v h = Ok h' ∧ heap_ok (length act) h' ∧ ∀ x, inHeap h' x = bool_decide (x = v) || inHeap h x.
Proof.
  intros [Hc Hv] Lv Hn. apply wp_total. eapply wp_mono.
  - apply (heap_insert_wp (VarOrderLt act) (act_lt act) (λ x, x < length act)); eauto using VarOrderLt_ok, act_lt_asym, act_le_trans.
  - intros h' (Hc' & Hin & _). split; [split; [done|]|done]. intros x. rewrite Hin. case_bool_decide as E; [by subst x|]. apply Hv.
Qed.
Lemma heap_decrease act v h : heap_ok (length act) h → inHeap h v = true →
  ∃ h', decrease (VarOrderLt act) v h = Ok h' ∧ heap_ok (length act) h' ∧ ∀ x, inHeap h' x = inHeap h x.
Proof.
  intros [Hc Hv] Hn. apply wp_total. eapply wp_mono.
  - apply (decrease_wp (VarOrderLt act) (act_lt act) (λ x, x < length act)); eauto using VarOrderLt_ok, act_lt_asym, act_le_trans.
  - intros h' (Hc' & (_ & _ & Hin) & _). split; [split; [done|]|done]. intros x. rewrite Hin. apply Hv.
Qed.
Lemma heap_removeMin act h : heap_ok (length act) h → heap h ≠ [] →
  ∃ v h', removeMin (VarOrderLt act) h = Ok (v, h') ∧ heap_ok (length act) h' ∧ inHeap h v = true
    ∧ ∀ x, inHeap h' x = negb (bool_decide (x = v)) && inHeap h x.
Proof.
  intros [Hc Hv] Hn. assert (∃ r, removeMin (VarOrderLt act) h = Ok r ∧ inHeap h r.1 = true ∧ consistent r.2 ∧
    ∀ x, inHeap r.2 x = negb (bool_decide (x = r.1)) && inHeap h x) as ([v h'] & E & Hin & Hc' & Hx).
  { apply wp_total. eapply wp_mono.
    - apply (removeMin_wp (VarOrderLt act) (act_lt act) (λ x, x < length act)); eauto using VarOrderLt_ok, act_lt_asym, act_le_trans.
    - by intros r (? & ? & ? & _). }
  exists v, h'. split; [done|]. split; [|done]. split; [done|]. intros x. cbn in Hx. rewrite Hx. intros [_ ?]%andb_true_iff. by apply Hv.
Qed.
Lemma heap_filter act f (g : nat → bool) h : heap_ok (length act) h → (∀ x, x ∈ heap h → f x = Ok (g x)) →
  ∃ h', Heap.filter (VarOrderLt act) f h = Ok h' ∧ heap_ok (length act) h' ∧ ∀ x, inHeap h' x = g x && inHeap h x.
Proof.
  intros [Hc Hv] Hf. apply wp_total. eapply wp_mono.
  - apply (filter_wp (VarOrderLt act) (act_lt act) (λ x, x < length act)); eauto using VarOrderLt_ok, act_lt_asym, act_le_trans.
  - intros h' (Hc' & _ & Hin). split; [split; [done|]|done]. intros x. rewrite Hin. intros [_ ?]%andb_true_iff. by apply Hv.
Qed.

(** What an operation leaves as it is. *)
Definition same_decisions o o' : Prop := decision o' = decision o ∧ savedPolarity o' = savedPolarity o ∧ random_seed o' = random_seed o
  ∧ longestTrail o' = longestTrail o.

Lemma insertVarOrder_ok n v o : dec_ok n o → v < n →
  ∃ o', insertVarOrder v o = Ok o' ∧ dec_ok n o' ∧ same_decisions o o' ∧
    ∀ x, inHeap (order_heap o') x = inHeap (order_heap o) x || (bool_decide (x = v) && bool_decide (decision o !! v = Some true)).
Proof.
  intros D Hv. unfold insertVarOrder. destruct (inHeap (order_heap o) v) eqn:Ein.
  { exists o. split; [done|]. split; [done|]. split; [done|]. intros x. case_bool_decide as E; [subst x; by rewrite Ein|by rewrite orb_false_r]. }
  destruct (lookup_lt_is_Some_2 (decision o) v) as [b Hb]; [by rewrite (de_decision _ _ D)|]. unfold at_. rewrite Hb. cbn [rbind]. destruct b.
  2:{ exists o. split; [done|]. split; [done|]. split; [done|]. intros x. rewrite (bool_decide_false (Some false = Some true)) by done.
      by rewrite andb_false_r, orb_false_r. }
  pose proof (de_activity _ _ D) as El. destruct (heap_insert (activity o) v (order_heap o)) as (h & -> & Hh & Hin); [rewrite El; apply D|by rewrite El|done|].
  cbn [rbind]. exists (set_order_heap h o). split; [done|]. split; [|split; [done|]].
  - constructor; try apply D. by rewrite El in Hh.
  - intros x. cbn. rewrite Hin. rewrite (bool_decide_true (Some true = Some true)) by done. rewrite andb_true_r. apply orb_comm.
Qed.

Lemma covers_insert n v o o' (t : list Lit) : dec_ok n o → insertVarOrder v o = Ok o' → same_decisions o o' →
  (∀ x, inHeap (order_heap o') x = inHeap (order_heap o) x || (bool_decide (x = v) && bool_decide (decision o !! v = Some true))) →
  (∀ x, decision o !! x = Some true → x ∉ var <$> t → x = v ∨ inHeap (order_heap o) x = true) → covers t o'.
Proof.
  intros D _ (Ed & _) Hin Hc x Hx Ht. rewrite Ed in Hx. rewrite Hin. destruct (Hc x Hx Ht) as [->| ->]; [|done].
  rewrite !bool_decide_true by done. apply orb_true_r.
Qed.

Lemma setDecisionVar_ok n v b o : dec_ok n o → v < n →
  ∃ o', setDecisionVar v b o = Ok o' ∧ dec_ok n o' ∧ decision o' = <[v := b]> (decision o) ∧ savedPolarity o' = savedPolarity o ∧ longestTrail o' = longestTrail o ∧
    ∀ x, inHeap (order_heap o') x = inHeap (order_heap o) x || (bool_decide (x = v) && b).
Proof.
  intros D Hv. unfold setDecisionVar, upd. pose proof (de_decision _ _ D) as El. rewrite El, (proj2 (Nat.ltb_lt _ _) Hv). cbn [rbind].
  destruct (insertVarOrder_ok n v (set_decision (<[v:=b]> (decision o)) o)) as (o' & -> & D' & (E1 & E2 & _ & E3) & Hin); [|done|].
  { constructor; try apply D. cbn. by rewrite length_insert. }
  exists o'. split; [done|]. split; [done|]. split; [done|]. split; [done|]. split; [done|]. intros x. rewrite Hin. cbn.
  rewrite list_lookup_insert_eq by by rewrite El. by destruct b.
Qed.

(** Bumping an activity moves variables in the heap only. *)
Lemma varBumpActivity_ok n v o : dec_ok n o → v < n →
  ∃ o', varBumpActivity v o = Ok o' ∧ dec_ok n o' ∧ same_decisions o o' ∧ ∀ x, inHeap (order_heap o') x = inHeap (order_heap o) x.
Proof.
  intros D Hv. unfold varBumpActivity. pose proof (de_activity _ _ D) as El.
  destruct (lookup_lt_is_Some_2 (activity o) v) as [y Hy]; [by rewrite El|]. unfold at_. rewrite Hy. cbn [rbind]. unfold upd. rewrite El, (proj2 (Nat.ltb_lt _ _) Hv).
  cbn [rbind]. set (o1 := if d_lt _ _ then _ else _).
  assert (dec_ok n o1 ∧ same_decisions o o1 ∧ order_heap o1 = order_heap o) as (D1 & S1 & Eh).
  { unfold o1. destruct (d_lt _ _); (split; [|done]); (constructor; try apply D); cbn; by rewrite ?length_fmap, length_insert. }
  rewrite Eh. destruct (inHeap (order_heap o) v) eqn:Ein; [|exists o1; by rewrite Eh].
  pose proof (de_activity _ _ D1) as E1. destruct (heap_decrease (activity o1) v (order_heap o)) as (h & -> & Hh & Hin); [rewrite E1; apply D|done|].
  cbn [rbind]. exists (set_order_heap h o1). split; [done|]. split; [|done].
  constructor; try apply D1. by rewrite E1 in Hh.
Qed.

(** *** Decisions *)

(** The heap lacks at most [next]. *)
Definition covers_but (next : option Var) (t : list Lit) o : Prop :=
  ∀ v, decision o !! v = Some true → v ∉ var <$> t → next = Some v ∨ inHeap (order_heap o) v = true.
Definition picked n a o (next : option Var) : Prop :=
  match next with
  | Some v => v < n ∧ v ∉ var <$> trail a ∧ decision o !! v = Some true
  | None => ∀ v, decision o !! v = Some true → v ∈ var <$> trail a
  end.

Lemma rejected_ok n a o v : asg_ok a → nVars a = n → dec_ok n o → v < n →
  ∃ b, rejected a o v = Ok b ∧ (b = false ↔ v ∉ var <$> trail a ∧ decision o !! v = Some true).
Proof.
  intros A En D Hv. unfold rejected. rewrite (value_var_ok a v A) by lia. cbn [rbind].
  destruct (lookup_lt_is_Some_2 (decision o) v) as [b Hb]; [by rewrite (de_decision _ _ D)|]. unfold at_. rewrite Hb. cbn [rbind].
  eexists. split; [done|]. rewrite orb_false_iff, bool_decide_eq_false. pose proof (val_undef (trail a) (mkLit v false)) as Hu. rewrite var_mkLit in Hu.
  rewrite <- Hu. destruct b; cbn; split; intros [E1 E2]; try done; (split; [|done]); [by apply dec_stable|by intros []].
Qed.

Lemma activity_none n a o : dec_ok n o → covers (trail a) o → heap_size (order_heap o) = 0 →
  ∃ r o', Ok (None, o) = Ok (r, o') ∧ dec_ok n o' ∧ same_decisions o o' ∧ covers_but r (trail a) o' ∧ picked n a o' r.
Proof.
  intros D C Ez. exists None, o. split; [done|]. split; [done|]. split; [done|]. split; [intros v Hd Ht; right; by apply C|].
  intros v Hd. apply dec_stable. intros Ht. pose proof (C v Hd Ht) as Hh. apply inHeap_elem in Hh; [|by apply D].
  unfold heap_size in Ez. apply nil_length_inv in Ez. rewrite Ez in Hh. by apply elem_of_nil in Hh.
Qed.
Lemma activity_from_ok n a fuel : ∀ o, asg_ok a → nVars a = n → dec_ok n o → covers (trail a) o → heap_size (order_heap o) ≤ fuel →
  ∃ r o', activity_from fuel a o = Ok (r, o') ∧ dec_ok n o' ∧ same_decisions o o' ∧ covers_but r (trail a) o' ∧ picked n a o' r.
Proof.
  induction fuel as [|fuel IH]; intros o A En D C Hf; cbn [activity_from]; destruct (Nat.eqb_spec (heap_size (order_heap o)) 0) as [Ez|Ez]; try lia.
  1,2: by apply activity_none.
  pose proof (de_activity _ _ D) as El. destruct (heap_removeMin (activity o) (order_heap o)) as (v & h & -> & Hh & Hin & Hx); [rewrite El; apply D| |].
  { intros E. unfold heap_size in Ez. by rewrite E in Ez. }
  cbn [rbind fst snd]. rewrite El in Hh. assert (dec_ok n (set_order_heap h o)) as D' by (constructor; try apply D; exact Hh).
  assert (v < n) as Hv by by apply D.
  destruct (rejected_ok n a (set_order_heap h o) v A En D' Hv) as (b & -> & Hb). cbn [rbind].
  assert (covers_but (Some v) (trail a) (set_order_heap h o)) as C'.
  { intros x Hd Ht. cbn in *. rewrite Hx. destruct (decide (x = v)) as [->|Hne]; [by left|]. right. rewrite bool_decide_false by done. by apply C. }
  destruct b.
  - destruct (IH (set_order_heap h o)) as (r & o' & E & D2 & S2 & C2 & P2); try done.
    + intros x Hd Ht. destruct (C' x Hd Ht) as [[= ->]|?]; [|done]. by assert (true = false) by by apply Hb.
    + destruct Hh as [Hc' _]. destruct (de_heap _ _ D) as [Hc _]. apply Nat.lt_succ_r. eapply Nat.lt_le_trans; [|exact Hf].
      cbn [order_heap set_order_heap]. unfold heap_size.
      enough (v :: heap h ⊆+ heap (order_heap o)) as Hs by (apply submseteq_length in Hs; cbn in Hs; lia).
      assert (∀ g, consistent g → NoDup (heap g)) as HN by (intros g Hg; apply NoDup_alt; intros i j y Hi Hj; by apply (consistent_inj g i j y)).
      apply NoDup_submseteq; [apply NoDup_cons; split; [|by apply HN]|].
      * intros Hv'. apply inHeap_elem in Hv'; [|done]. rewrite Hx, bool_decide_true in Hv' by done. done.
      * intros y [->|Hy]%elem_of_cons; [by apply inHeap_elem|]. apply inHeap_elem in Hy; [|done]. apply inHeap_elem; [done|].
        rewrite Hx in Hy. by apply andb_true_iff in Hy as [_ ?].
    + exists r, o'. done.
  - exists (Some v), (set_order_heap h o). split; [done|]. split; [done|]. split; [done|]. split; [done|].
    destruct (proj1 Hb eq_refl) as [? ?]. done.
Qed.

Lemma drand_seed n o : dec_ok n o → ∃ y s, drand (random_seed o) = Ok (y, s) ∧ dec_ok n (set_random_seed s o).
Proof.
  intros D. destruct (drand_ok (random_seed o)) as (x & s & E & Hs); [apply D|]. exists x, s. split; [done|]. constructor; by try apply D.
Qed.

(** The variable of a decision. *)
Lemma pick_var_ok cfg n a o : asg_ok a → nVars a = n → dec_ok n o → covers (trail a) o →
  ∃ r o', (let! r := doRandomDecision cfg o in
           let! b := match r.1 with Some next => rejected a r.2 next | None => Ok true end in
           if b : bool then doActivityDecision a r.2 else Ok r) = Ok (r, o')
    ∧ dec_ok n o' ∧ decision o' = decision o ∧ savedPolarity o' = savedPolarity o ∧ covers_but r (trail a) o' ∧ picked n a o' r.
Proof.
  intros A En D C. assert (∃ r o1, doRandomDecision cfg o = Ok (r, o1) ∧ dec_ok n o1 ∧ decision o1 = decision o ∧ savedPolarity o1 = savedPolarity o
    ∧ order_heap o1 = order_heap o ∧ ∀ v, r = Some v → v < n) as (r & o1 & -> & D1 & E1 & E2 & E3 & Hr).
  { unfold doRandomDecision, branchLitRandom. destruct (drand_seed n o D) as (x & s & -> & D1). cbn [rbind fst snd].
    destruct (_ && _) eqn:Eb; [|by exists None, (set_random_seed s o)]. apply andb_true_iff in Eb as [_ Hh%Nat.ltb_lt]. cbn [random_seed order_heap set_random_seed].
    destruct (irand_ok s (heap_size (order_heap o))) as (i & s' & -> & Hs & Hi); [apply (de_seed _ _ D1)|done|]. cbn [rbind fst snd].
    rewrite (proj2 (Z.leb_le 0 i)) by lia. cbn [check rbind]. destruct (lookup_lt_is_Some_2 (heap (order_heap o)) (Z.to_nat i)) as [v Hv]; [unfold heap_size in *; lia|].
    unfold at_. rewrite Hv. cbn [rbind]. exists (Some v), (set_random_seed s' (set_random_seed s o)). split; [done|]. split; [by constructor; try apply D|].
    split; [done|]. split; [done|]. split; [done|]. intros ? [= <-]. apply D. apply inHeap_elem; [apply D|]. by eapply list_elem_of_lookup_2. }
  cbn [rbind fst snd]. assert (covers (trail a) o1) as C1 by (intros v; rewrite E1, E3; apply C).
  assert (∃ r' o', doActivityDecision a o1 = Ok (r', o') ∧ dec_ok n o' ∧ decision o' = decision o ∧ savedPolarity o' = savedPolarity o ∧ covers_but r' (trail a) o' ∧ picked n a o' r')
    as (r' & o' & Ha & ?).
  { destruct (activity_from_ok n a _ o1 A En D1 C1 (le_n _)) as (r' & o' & E & D2 & (S1 & S2 & _) & ?). exists r', o'. split; [done|]. rewrite S1, S2. done. }
  destruct r as [v|]; [|by exists r', o'; cbn [rbind]; rewrite Ha].
  destruct (rejected_ok n a o1 v A En D1 (Hr v eq_refl)) as (b & -> & Hb). cbn [rbind]. destruct b; [by exists r', o'|].
  exists (Some v), o1. destruct (proj1 Hb eq_refl) as [? ?]. split; [done|]. split; [done|]. split; [done|]. split; [done|]. split; [intros x ??; right; by apply C1|].
  split; [by apply Hr|done].
Qed.

End decide.

(** * The SAT solver: backtracking

    Taking literals off the end of the trail keeps the invariant of the
    assignment, the reasons, the watched literals and the heap. *)

Section backtrack.
Context {F Th : Type} `{DoubleLaws F} `{THandler Th} `{THandlerModel Th} (K : list (list Lit)) (R : Var → Prop).
Implicit Types (a : Assignment) (d : Database F) (o : @Decisions F) (p q : Lit) (v x : Var) (c lvl : nat).

(** [a] after the literals from position [c] on were taken off. *)
Definition shortened a c lvl qh (l : list lbool) : Assignment := MkAssignment l (vardata a) (take c (trail a)) (take lvl (trail_lim a)) qh.

Definition released (vs : list Var) (l l' : list lbool) : Prop :=
  length l' = length l ∧ (∀ v, v ∈ vs → v < length l → l' !! v = Some l_Undef) ∧ ∀ v, v ∉ vs → l' !! v = l !! v.

Lemma undo_ok n ps a o : length (assigns a) = n → dec_ok n o → (∀ p, p ∈ ps → var p < n) →
  ∃ l o', foldM (λ st p, undo (var p) st) (a, o) ps = Ok (MkAssignment l (vardata a) (trail a) (trail_lim a) (qhead a), o')
    ∧ released (var <$> ps) (assigns a) l ∧ dec_ok n o' ∧ same_decisions o o'
    ∧ (∀ x, inHeap (order_heap o) x = true → inHeap (order_heap o') x = true)
    ∧ ∀ x, x ∈ var <$> ps → decision o !! x = Some true → inHeap (order_heap o') x = true.
Proof.
  intros L D Hps. revert a o L D. induction ps as [|p ps IH]; intros a o L D; cbn [foldM].
  - exists (assigns a), o. split; [by destruct a|]. split; [|split; [done|split; [done|split; [done|]]]].
    + split; [done|]. split; [|done]. intros v Hv. by apply elem_of_nil in Hv.
    + intros x Hx. by apply elem_of_nil in Hx.
  - assert (var p < n) as Hp by (apply Hps; by left). unfold undo at 1, unassign, upd. cbn [fst snd]. rewrite L, (proj2 (Nat.ltb_lt _ _) Hp). cbn [rbind].
    destruct (insertVarOrder_ok n (var p) o D Hp) as (o1 & -> & D1 & S1 & Hin1). cbn [rbind].
    destruct (IH ltac:(intros; apply Hps; by right) (MkAssignment (<[var p := l_Undef]> (assigns a)) (vardata a) (trail a) (trail_lim a) (qhead a)) o1)
      as (l & o' & E & (L' & R1 & R2) & D' & S' & Hin' & Hd'); [by cbn; rewrite length_insert|done|].
    exists l, o'. split; [exact E|]. cbn [assigns] in *. rewrite length_insert in L', R1.
    destruct S1 as (E1 & E2 & E3 & E4), S' as (E1' & E2' & E3' & E4'). split; [|split; [done|split; [by repeat split; etrans|split]]].
    + split; [done|]. split.
      * intros v Hv Lv. destruct (decide (v ∈ var <$> ps)) as [Hin|Hin]; [by apply R1|]. rewrite R2 by done. rewrite fmap_cons in Hv.
        apply elem_of_cons in Hv as [->|?]; [|done]. by apply list_lookup_insert_eq.
      * intros v Hv. rewrite fmap_cons in Hv. apply not_elem_of_cons in Hv as [Hne Hv]. rewrite R2 by done. by apply list_lookup_insert_ne.
    + intros x Hx. apply Hin'. rewrite Hin1, Hx. done.
    + intros x Hx Hd. rewrite fmap_cons in Hx. apply elem_of_cons in Hx as [->|Hx]; [|apply Hd'; [done|by rewrite E1]].
      apply Hin'. rewrite Hin1, !bool_decide_true by done. apply orb_true_r.
Qed.

(** The positions below [c] keep their levels. *)
Definition cut_ok a c lvl qh : Prop := c ≤ length (trail a) ∧ (∀ x, x ∈ take lvl (trail_lim a) → x ≤ c) ∧ qh ≤ c
  ∧ ∀ i, i < c → level_at (take lvl (trail_lim a)) i = level_at (trail_lim a) i.

Lemma take_lookup_inv {A} c (t : list A) i (y : A) : take c t !! i = Some y → i < c ∧ t !! i = Some y.
Proof. intros [? ?]%lookup_take_Some. done. Qed.
Lemma var_split (t : list Lit) c v : v ∈ var <$> t → v ∈ var <$> take c t ∨ v ∈ var <$> drop c t.
Proof. intros Hv. rewrite <- (take_drop c t), fmap_app in Hv. by apply elem_of_app. Qed.

Lemma shortened_ok a c lvl qh l : asg_ok a → cut_ok a c lvl qh → released (var <$> reverse (drop c (trail a))) (assigns a) l → asg_ok (shortened a c lvl qh l).
Proof.
  intros A (Hc & Hl & Hq & Hlev) (L & R1 & R2).
  assert (∀ v, v ∈ var <$> reverse (drop c (trail a)) ↔ v ∈ var <$> drop c (trail a)) as Er by (intros v; by rewrite reverse_Permutation).
  assert (NoDup (var <$> take c (trail a) ++ drop c (trail a))) as N by (rewrite take_drop; apply A). rewrite fmap_app in N. apply NoDup_app in N as (N1 & N2 & N3).
  constructor; cbn [shortened assigns trail trail_lim qhead].
  - rewrite L. apply A.
  - intros p Hp. apply (ao_vars A). by eapply take_sub.
  - done.
  - intros p Hp. rewrite R2; [apply A; by eapply take_sub|]. rewrite Er. apply N2. by apply list_elem_of_fmap_2.
  - intros v Hv Ht. destruct (decide (v ∈ var <$> drop c (trail a))) as [Hd|Hd]; [apply R1; [by apply Er|by rewrite (ao_length A)]|].
    rewrite R2 by by rewrite Er. apply A; [done|]. intros [?|?]%(var_split _ c); done.
  - intros i j x y Hij [_ Hx]%take_lookup_inv [_ Hy]%take_lookup_inv. by apply (ao_lims A i j x y).
  - intros x Hx. rewrite length_take. specialize (Hl x Hx). lia.
  - intros i p [Hi Hp]%take_lookup_inv. change (lv (shortened a c lvl qh l) (var p)) with (lv a (var p)). rewrite Hlev by done. by apply A.
  - rewrite length_take. lia.
Qed.

Lemma core_shortened (X X' : list Lit → Lit → Prop) a m c lvl qh l : core_inv K R X a m → asg_ok a → cut_ok a c lvl qh →
  (∀ i k p, i < c → trail a !! i = Some p → k `prefix_of` take i (trail a) → X k p → X' k p) →
  core_inv K R X' (shortened a c lvl qh l) (m : list (Clause F)).
Proof.
  intros C A (Hc & Hl & Hq & Hlev) HX. constructor.
  - intros i p [Hi Hp]%take_lookup_inv. pose proof (ci_reason _ _ _ _ _ C i p Hp) as HR. unfold reason_ok in *. cbn [shortened trail trail_lim].
    change (rs (shortened a c lvl qh l) (var p)) with (rs a (var p)). change (lv (shortened a c lvl qh l) (var p)) with (lv a (var p)).
    rewrite take_take, Nat.min_l by lia. destruct (rs a (var p)) as [| |cr].
    + destruct HR as [?|HR]; [by left|]. destruct (decide (lv a (var p) = 0)) as [|Hz]; [by left|]. right. rewrite lookup_take_lt; [done|].
      assert (lv a (var p) ≤ lvl) by (rewrite (ao_levels A i p Hp), <- Hlev by done; etrans; [apply level_at_le|]; rewrite length_take; lia). lia.
    + destruct HR as (? & k & Hk & Hpre). split; [done|]. exists k. split; [by eapply HX|done].
    + done.
  - apply C.
  - intros p Hp Hz. exact (ci_fact _ _ _ _ _ C p (take_sub c _ p Hp) Hz).
  - intros p Hp. exact (ci_trail _ _ _ _ _ C p (take_sub c _ p Hp)).
  - apply C.
Qed.

(** *** Watched literals *)

(** They are right as far as the false literal is below the current level. *)
Definition watched_lower a d : Prop := watched_ok (attached d) (mem_of d) a (λ _ q, lv a (var q) < decisionLevel a).
Definition watched_all a d : Prop := watched_ok (attached d) (mem_of d) a (λ _ _, True).

Lemma watched_all_lower a d : watched_all a d → watched_lower a d.
Proof. intros W. by eapply watched_weaken; [exact W|]. Qed.

Lemma lower_position a i p lvl x : asg_ok a → trail a !! i = Some p → trail_lim a !! lvl = Some x → i < x ↔ lv a (var p) ≤ lvl.
Proof. intros A Hi Hx. rewrite (ao_levels A i p Hi). apply level_at_lim; [exact (ao_lims A)|done]. Qed.

Lemma watched_below_lower a d qh (t : list Lit) : asg_ok a → watched_below a d (take qh t) → t `prefix_of` trail a → (∀ x, x ∈ trail_lim a → x ≤ qh) → qh ≤ length t →
  watched_lower a d.
Proof.
  intros A W [t' E] Hl Hqh k c j q HA Hc Hj Hq Hn Hlv. apply (W k c j q); try done.
  destruct (lookup_lt_is_Some_2 (trail_lim a) (lv a (var q))) as [x Hx]; [done|]. apply list_elem_of_lookup in Hn as [i Hi].
  assert (i < x) as Hix by (apply (lower_position a i (lit_not q) (lv a (var q)) x A Hi Hx); by rewrite var_not).
  assert (x ≤ qh) as Hxq by (apply Hl; by eapply list_elem_of_lookup_2).
  apply list_elem_of_lookup. exists i. rewrite lookup_take_lt by lia. rewrite E, lookup_app_l in Hi by lia. done.
Qed.

(** A cut that keeps the lower levels whole. *)
Lemma watched_shortened a d c qh l : asg_ok a → watched_lower a d → (∀ x, x ∈ trail_lim a → x ≤ c) → watched_lower (shortened a c (length (trail_lim a)) qh l) d.
Proof.
  intros A W Hc k cl j q HA Hcl Hj Hq Hn Hlv. cbn [shortened trail] in *. unfold decisionLevel in Hlv. cbn [shortened trail_lim] in Hlv.
  rewrite take_ge in Hlv by lia. change (lv (shortened a c (length (trail_lim a)) qh l) (var q)) with (lv a (var q)) in *.
  destruct (W k cl j q HA Hcl Hj Hq) as (u & Hu & Ht & Hle); [by eapply take_sub|done|]. exists u. split; [done|]. split; [|done].
  destruct (lookup_lt_is_Some_2 (trail_lim a) (lv a (var q))) as [x Hx]; [done|]. apply list_elem_of_lookup in Ht as [i Hi].
  assert (i < x) as Hix by by apply (lower_position a i u (lv a (var q)) x A Hi Hx). assert (x ≤ c) by (apply Hc; by eapply list_elem_of_lookup_2).
  apply list_elem_of_lookup. exists i. rewrite lookup_take_lt by lia. done.
Qed.

Lemma watched_cancelled a d c lvl qh l : asg_ok a → watched_lower a d → trail_lim a !! lvl = Some c → watched_all (shortened a c lvl qh l) d.
Proof.
  intros A W Hc k cl j q HA Hcl Hj Hq Hn _. cbn [shortened trail] in *. apply list_elem_of_lookup in Hn as [i [Hlt Hi]%take_lookup_inv].
  change (lv (shortened a c lvl qh l) (var q)) with (lv a (var q)).
  assert (lv a (var q) ≤ lvl) as Hle by (rewrite <- (var_not q); by apply (lower_position a i (lit_not q) lvl c A Hi Hc)).
  pose proof (lookup_lt_Some _ _ _ Hc) as Ll.
  destruct (W k cl j q HA Hcl Hj Hq) as (u & Hu & Ht & Hle'); [by eapply list_elem_of_lookup_2|unfold decisionLevel; lia|]. exists u. split; [done|].
  split; [|done]. apply list_elem_of_lookup in Ht as [i' Hi']. apply list_elem_of_lookup. exists i'. rewrite lookup_take_lt; [done|].
  apply (lower_position a i' u lvl c A Hi' Hc). lia.
Qed.

Lemma cancel_cut a lvl c : asg_ok a → trail_lim a !! lvl = Some c → cut_ok a c lvl c.
Proof.
  intros A Hc. split; [apply (ao_lims_trail A); by eapply list_elem_of_lookup_2|]. split; [|split; [done|]].
  - intros x [i [Hi Hx]%take_lookup_inv]%list_elem_of_lookup. apply (ao_lims A i lvl x c); [lia|done..].
  - intros i Hi. apply level_at_take with c; [exact (ao_lims A)|done..].
Qed.
Lemma partial_cut a c : asg_ok a → c ≤ length (trail a) → (∀ x, x ∈ trail_lim a → x ≤ c) → cut_ok a c (length (trail_lim a)) c.
Proof. intros A Hc Hl. unfold cut_ok. rewrite take_ge by lia. done. Qed.

End backtrack.

(** * The SAT solver: the invariant of the search

    What holds of the state of the solver whenever the search looks for the next
    thing to do, and that backtracking keeps it. *)

Section options.
Context {F : Type} `{Double F}.

(** [skip_step] after [k] scalings: the value that decides whether the theory is
    asked. *)
Definition skip_at (cfg : SatConfig F) (k : nat) : F := Nat.iter k (λ x, d_mul x (sat_skip_step_factor cfg)) (sat_initial_skip_step cfg).
Definition steady (cfg : SatConfig F) (c : Control) : Prop := ∃ k, skip_step c = skip_at cfg k.

(** The options under which no lemma of the theory is kept and no call of it is
    skipped: the defaults. *)
Definition cfg_ok (cfg : SatConfig F) : Prop :=
  sat_learn_up_to_size cfg = 0 ∧ (sat_minimize_conflicts cfg ≤ 1)%Z ∧ ccmin_mode cfg ≠ 1%Z
  ∧ ∀ k n, d_lt (d_add (d_of_Z (Z.of_nat n)) (sat_initial_skip_step cfg)) (skip_at cfg k) = false.

End options.

Section inv.
Context {F Th : Type} `{DoubleLaws F} `{THandlerLaws Th}.

(** The original clauses, the variables the theory knows, and the assumptions. *)
Context (K : list (list Lit)) (Kn : Var → Prop) (As : list Lit).
Implicit Types (s : Solver F Th) (a : Assignment) (d : Database F) (o : @Decisions F) (p q : Lit) (v x : Var) (stk : list Lit) (th : Th).

(** A variable of the theory is known to it. *)
Definition known v : Prop := isTheoryTerm v = true → Kn v.

(** The theory can explain [p] from the literals [k] it was given. *)
Definition explained stk th (k : list Lit) p : Prop := th_explains k p th ∧ k `prefix_of` stk.

(** Every original clause has a fact, or contains a clause of the data base. *)
Definition original_ok a d : Prop := ∀ k, k ∈ K →
  (∃ p, p ∈ k ∧ p ∈ trail a ∧ lv a (var p) = 0) ∨ ∃ cr c, cr ∈ clauses d ∧ mem_of d !! cr = Some c ∧ ∀ q, q ∈ lits c → q ∈ k.

Definition levels_ok a (ls : nat_set.nat_set) : Prop := nat_set.inv ls ∧ (decisionLevel a = 0 ∨ decisionLevel a < nat_set.get_domain ls).

(** The first [n] assumptions are true, no later than at their levels. *)
Definition taken_upto a n : Prop := ∀ i p, As !! i = Some p → i < n → p ∈ trail a ∧ lv a (var p) ≤ S i.

(** What holds also in the middle of the analysis of a conflict. *)
Record mid_inv stk s : Prop := {
  mi_cfg : cfg_ok (config s);
  mi_steady : steady (config s) (ctl s);
  mi_remove : remove_satisfied s = false;
  mi_ok : ok s = true;
  mi_assumptions : assumptions s = As;
  mi_asg : asg_ok (asg s);
  mi_core : core_inv K known (explained stk (theory s)) (asg s) (mem_of (db s));
  mi_db : dbok (nVars (asg s)) (db s);
  mi_dec : dec_ok (nVars (asg s)) (dec s);
  mi_covers : covers (trail (asg s)) (dec s);
  mi_known v : decision (dec s) !! v = Some true → known v;
  mi_original : original_ok (asg s) (db s);
  mi_lims x : x ∈ trail_lim (asg s) → 1 ≤ x ≤ qhead (asg s);
  mi_facts : trail (asg s) ≠ [];
  mi_levels : levels_ok (asg s) (levelsInClause s);
  mi_assumed p : p ∈ trail (asg s) → rs (asg s) (var p) = CRef_Undef →
    lv (asg s) (var p) = 0 ∨ p ∈ As ∨ length As < lv (asg s) (var p);
  mi_taken : taken_upto (asg s) (decisionLevel (asg s) - 1);
  mi_as p : p ∈ As → var p < nVars (asg s) ∧ known (var p);
  mi_order p : p ∈ As → sign p = true → is_Some (assumptions_order s !! var p);
  mi_decided cr c q : cr ∈ clauses (db s) → mem_of (db s) !! cr = Some c → q ∈ lits c → decision (dec s) !! var q = Some true;
  mi_prefix : stk `prefix_of` trail (asg s);
  mi_knows v : th_knows v (theory s) ↔ Kn v;
  mi_range v : Kn v → v < nVars (asg s);
}.

(** Between two steps of the search: the theory accepts what it was given. *)
Record sinv stk s : Prop := {
  si_mid : mid_inv stk s;
  si_th : th_ok stk (theory s);
  si_taken : taken_upto (asg s) (decisionLevel (asg s));
  si_watched : watched_below (asg s) (db s) (take (qhead (asg s)) (trail (asg s)));
  si_seen : seen s = replicate (nVars (asg s)) false;
  si_cleanup : cleanup s = [];
}.

Lemma seen_clean n : forallb negb (replicate n false) = true.
Proof. induction n; [done|]. done. Qed.

(** *** Levels in a clause *)

#[local] Ltac next_literal IH :=
  edestruct IH as (? & ? & -> & ? & ? & ? & ?); [eassumption| | | |eexists _, _; cbn [length]; split; [reflexivity|]; split; [assumption|]; split; [lia|by split]]; [lia|eassumption|congruence].

Lemma computeGlue_ok ps s : (∀ p, p ∈ ps → var p < nVars (asg s) ∧ (lv (asg s) (var p) = 0 ∨ lv (asg s) (var p) < nat_set.get_domain (levelsInClause s))) →
  nat_set.inv (levelsInClause s) →
  ∃ g ls, computeGlue ps s = Ok (g, set_levels ls s) ∧ g ≤ 4 ∧ g ≤ length ps ∧ nat_set.inv ls ∧ nat_set.get_domain ls = nat_set.get_domain (levelsInClause s).
Proof.
  intros Hps Hi. unfold computeGlue. destruct (nat_set.reset_inv _ Hi) as (Hi0 & Hd0 & _).
  set (D := nat_set.get_domain (levelsInClause s)) in *. generalize dependent (nat_set.reset (levelsInClause s)). intros ls0 Hi0 Hd0.
  enough (∀ ps g ls, (∀ p, p ∈ ps → var p < nVars (asg s) ∧ (lv (asg s) (var p) = 0 ∨ lv (asg s) (var p) < D)) → g ≤ 4 → nat_set.inv ls → nat_set.get_domain ls = D →
    ∃ g' ls', foldM (λ (st : nat * nat_set.nat_set) p,
      if 4 <=? st.1 then Ok st
      else
        let! l := level_of (asg s) (var p) in
        if l =? 0 then Ok st
        else
          let! b := nat_set.contains st.2 l in
          if b : bool then Ok st else let! n := nat_set.insert l st.2 in Ok (S st.1, n)) (g, ls) ps = Ok (g', ls') ∧ g' ≤ 4 ∧ g' ≤ g + length ps ∧ nat_set.inv ls' ∧ nat_set.get_domain ls' = D)
    as Hf.
  { destruct (Hf ps 0 ls0 Hps) as (g & ls & -> & ?); [lia|done|done|]. exists g, ls. done. }
  clear ps ls0 Hi0 Hd0 Hps. induction ps as [|p ps IH]; intros g ls Hps Hg Hil Hdl; cbn [foldM]; [exists g, ls; split; [done|]; split; [done|]; split; [lia|done]|].
  assert (∀ q, q ∈ ps → var q < nVars (asg s) ∧ (lv (asg s) (var q) = 0 ∨ lv (asg s) (var q) < D)) as Hps' by (intros; apply Hps; by right).
  destruct (Hps p) as [Hv Hlv]; [by left|]. cbn [fst snd]. destruct (Nat.leb_spec 4 g); cbn [rbind]; [by next_literal IH|].
  rewrite level_of_ok by done. cbn [rbind]. destruct (Nat.eqb_spec (lv (asg s) (var p)) 0); cbn [rbind]; [by next_literal IH|].
  destruct Hlv as [|Hlv]; [done|]. destruct (proj1 (wp_total _ _) (nat_set.contains_wp no_error (lv (asg s) (var p)) ls ltac:(by rewrite Hdl))) as (b & -> & _).
  cbn [rbind]. destruct b; cbn [rbind]; [by next_literal IH|].
  destruct (proj1 (wp_total _ _) (nat_set.insert_wp no_error (lv (asg s) (var p)) ls Hil ltac:(by rewrite Hdl))) as (ls' & -> & Hil' & Hdl' & _).
  cbn [rbind]. by next_literal IH.
Qed.

(** *** Backtracking *)

Lemma save_polarities_ok n a o : asg_ok a → nVars a = n → dec_ok n o →
  ∃ o', save_polarities a o = Ok o' ∧ dec_ok n o' ∧ decision o' = decision o ∧ order_heap o' = order_heap o.
Proof.
  intros A En D. unfold save_polarities. destruct (_ <? _); [|by exists o].
  assert (∀ ps l, (∀ p, p ∈ ps → var p < n) → length l = n → ∃ l', foldM (λ l p, upd l (var p) (negb (sign p))) l ps = Ok l' ∧ length l' = n) as Hf.
  { induction ps as [|p ps IH]; intros l Hps Hl; cbn [foldM]; [by exists l|]. unfold upd at 1. rewrite Hl, (proj2 (Nat.ltb_lt _ _)) by (apply Hps; by left).
    cbn [rbind]. apply IH; [intros; apply Hps; by right|by rewrite length_insert]. }
  destruct (Hf (trail a) (savedPolarity o)) as (l' & -> & Hl); [intros; rewrite <- En; by apply A|apply D|]. cbn [rbind].
  exists (set_polarity l' (nAssigns a) o). split; [done|]. split; [|done]. constructor; try apply D. done.
Qed.

Lemma undo_trail n a o c : asg_ok a → nVars a = n → dec_ok n o → covers (trail a) o →
  ∃ l o', foldM (λ st p, undo (var p) st) (a, o) (reverse (drop c (trail a))) = Ok (MkAssignment l (vardata a) (trail a) (trail_lim a) (qhead a), o')
    ∧ released (var <$> reverse (drop c (trail a))) (assigns a) l ∧ dec_ok n o' ∧ same_decisions o o' ∧ covers (take c (trail a)) o'.
Proof.
  intros A En D C. destruct (undo_ok n (reverse (drop c (trail a))) a o) as (l & o' & E & Rl & D' & S' & Hin & Hnew); [by rewrite (ao_length A)|done| |].
  { intros p Hp. rewrite <- En. apply (ao_vars A). rewrite reverse_Permutation in Hp. rewrite <- (take_drop c (trail a)). apply elem_of_app. by right. }
  exists l, o'. split; [done|]. split; [done|]. split; [done|]. split; [done|]. intros v Hd Ht. destruct S' as [Ed _]. rewrite Ed in Hd.
  destruct (decide (v ∈ var <$> trail a)) as [Hv|Hv]; [|by apply Hin, C]. apply Hnew; [|done]. rewrite reverse_Permutation. by destruct (var_split (trail a) c v Hv).
Qed.

Lemma lower_kept_take a c lvl x p : asg_ok a → p ∈ trail a → lv a (var p) ≤ lvl → trail_lim a !! lvl = Some x → x ≤ c → p ∈ take c (trail a).
Proof.
  intros A [i Hi]%list_elem_of_lookup Hl Hx Hc. apply list_elem_of_lookup. exists i. rewrite lookup_take_lt; [done|].
  pose proof (proj2 (lower_position a i p lvl x A Hi Hx) Hl). lia.
Qed.

(** The state after the literals from [c] on are gone, and the theory followed. *)
Lemma mid_shortened s stk c lvl qh l o th : mid_inv stk s → cut_ok (asg s) c lvl qh → released (var <$> reverse (drop c (trail (asg s)))) (assigns (asg s)) l →
  dec_ok (nVars (asg s)) o → decision o = decision (dec s) → covers (take c (trail (asg s))) o → (∀ x, x ∈ take lvl (trail_lim (asg s)) → x ≤ qh) →
  (∀ i p, i < length (trail (asg s)) → trail (asg s) !! i = Some p → lv (asg s) (var p) = 0 → i < c) →
  th_keeps (take c stk) (theory s) th → mid_inv (take c stk) (set_theory th (set_dec o (set_asg (shortened (asg s) c lvl qh l) s))).
Proof.
  intros M Cut Rl D Ed C Hq Hzero [Hk Hex]. pose proof (mi_asg _ _ M) as A. constructor; try apply M; cbn [asg db dec theory set_theory set_dec set_asg]; try done.
  - by apply shortened_ok.
  - apply (core_shortened K known (explained stk (theory s))); [apply M|done..|]. intros i k p Hi Hp Hpre [He Hs].
    assert (k `prefix_of` take c stk) as Hkc.
    { destruct Hs as [t ->]. pose proof (prefix_length _ _ Hpre) as Hl. rewrite length_take in Hl. rewrite take_app_ge by lia. by eexists. }
    split; [|done]. by apply Hex.
  - intros v. rewrite Ed. apply M.
  - intros k Hkk. destruct (mi_original _ _ M k Hkk) as [(p & Hp & Ht & Hz)|?]; [|by right]. left. exists p. split; [done|]. split; [|done].
    cbn [trail shortened]. apply list_elem_of_lookup in Ht as [i Hi]. apply list_elem_of_lookup. exists i. rewrite lookup_take_lt; [done|].
    apply (Hzero i p); [by eapply lookup_lt_Some|done..].
  - cbn [trail_lim qhead shortened]. intros x Hx. split; [|by apply Hq]. apply (mi_lims _ _ M). by eapply take_sub.
  - cbn [trail shortened]. pose proof (mi_facts _ _ M) as Hf. destruct (trail (asg s)) as [|p t] eqn:Et; [done|]. assert (trail (asg s) !! 0 = Some p) as Hp by by rewrite Et.
    assert (lv (asg s) (var p) = 0) as Hz.
    { rewrite (ao_levels A 0 p Hp). unfold level_at. rewrite filter_none; [done|]. intros x Hx. apply (mi_lims _ _ M) in Hx. lia. }
    pose proof (Hzero 0 p ltac:(cbn; lia) eq_refl Hz). by destruct c; [lia|].
  - destruct (mi_levels _ _ M) as [? Hl]. split; [done|]. unfold decisionLevel in *. cbn [trail_lim shortened levelsInClause]. rewrite length_take. destruct Hl as [Hl|Hl]; [left; lia|right]. eapply Nat.le_lt_trans; [|exact Hl]. lia.
  - intros p Hp. exact (mi_assumed _ _ M p (take_sub c _ p Hp)).
  - intros i p Hi Hlt. unfold decisionLevel in Hlt. cbn [trail_lim shortened] in Hlt. rewrite length_take in Hlt.
    destruct (mi_taken _ _ M i p Hi) as [Hp Hl]; [unfold decisionLevel; lia|]. split; [|done]. cbn [trail shortened].
    destruct (lookup_lt_is_Some_2 (trail_lim (asg s)) (S i)) as [x Hx]; [lia|]. apply (lower_kept_take (asg s) c (S i) x); [done..|].
    apply Cut. apply list_elem_of_lookup. exists (S i). by rewrite lookup_take_lt by lia.
  - intros cr k q. rewrite Ed. apply M.
  - cbn [trail shortened]. destruct (mi_prefix _ _ M) as [t ->]. destruct (decide (c ≤ length stk)).
    + rewrite take_app_le by done. done.
    + rewrite take_app_ge by lia. rewrite (take_ge stk) by lia. by eexists.
  - intros v. rewrite Hk. apply M.
Qed.

Lemma zero_below s stk c : mid_inv stk s → (∀ x, x ∈ trail_lim (asg s) → x ≤ length (trail (asg s))) → (trail_lim (asg s) = [] → c = length (trail (asg s))) →
  (∀ x, head (trail_lim (asg s)) = Some x → x ≤ c) → ∀ i p, i < length (trail (asg s)) → trail (asg s) !! i = Some p → lv (asg s) (var p) = 0 → i < c.
Proof.
  intros M _ Hnil Hx i p Hi Hp Hz. pose proof (mi_asg _ _ M) as A. destruct (trail_lim (asg s)) as [|x l] eqn:El; [by rewrite Hnil|].
  specialize (Hx x eq_refl). assert (trail_lim (asg s) !! 0 = Some x) as E0 by by rewrite El.
  pose proof (proj2 (lower_position (asg s) i p 0 x A Hp E0)) as Hlt. lia.
Qed.

(** The invariant of the analysis of a conflict: that of the search, but the
    watched literals are right below the current level only. *)
Record conflict_inv stk s : Prop := {
  ki_mid : mid_inv stk s;
  ki_watched : watched_lower (asg s) (db s);
  ki_seen : seen s = replicate (nVars (asg s)) false;
  ki_cleanup : cleanup s = [];
}.

(** What backtracking leaves as it is. *)
Definition cancelled (lvl c : nat) s s' : Prop :=
  trail (asg s') = take c (trail (asg s)) ∧ trail_lim (asg s') = take lvl (trail_lim (asg s)) ∧ vardata (asg s') = vardata (asg s) ∧ db s' = db s
  ∧ qhead (asg s') = c ∧ ctl s' = ctl s ∧ levelsInClause s' = levelsInClause s ∧ config s' = config s.

(** The theory is consistent, or was found inconsistent by the literals below
    position [n] among others. *)
Definition th_state (n : nat) stk th : Prop := th_ok stk th ∨ th_conflict stk th ∧ n ≤ length stk.

Lemma cancelUntil_ok lvl c s stk m : conflict_inv stk s → trail_lim (asg s) !! lvl = Some c → th_state m stk (theory s) →
  ∃ s', cancelUntil lvl s = Ok s' ∧ conflict_inv (take c stk) s' ∧ watched_all (asg s') (db s') ∧ cancelled lvl c s s' ∧ taken_upto (asg s') lvl
    ∧ (th_ok (take c stk) (theory s') ∨ th_conflict (take c stk) (theory s') ∧ m ≤ length stk ≤ c).
Proof.
  intros [M W Hs Hcl] Hc Hth. pose proof (mi_asg _ _ M) as A. pose proof (lookup_lt_Some _ _ _ Hc) as Ll. pose proof (cancel_cut (asg s) lvl c A Hc) as Cut.
  unfold cancelUntil. rewrite (proj2 (Nat.ltb_lt _ _)) by exact Ll.
  destruct (save_polarities_ok (nVars (asg s)) (asg s) (dec s) A eq_refl (mi_dec _ _ M)) as (o1 & -> & D1 & E1 & Eh). cbn [rbind]. unfold at_. rewrite Hc. cbn [rbind].
  destruct (undo_trail (nVars (asg s)) (asg s) o1 c A eq_refl D1) as (l & o2 & -> & Rl & D2 & (E2 & _) & C2).
  { intros v. rewrite E1, Eh. apply (mi_covers _ _ M). }
  cbn [rbind fst snd]. assert (∃ th', th_backtrack (Z.of_nat c) (theory s) = Ok th' ∧ th_keeps (take c stk) (theory s) th' ∧
    (th_ok (take c stk) th' ∨ th_conflict (take c stk) th' ∧ m ≤ length stk ≤ c)) as (th' & Eth & Kp & Hth').
  { apply wp_total. destruct Hth as [Hth|[Hth Hm]].
    - eapply wp_mono; [by apply (backtrack_ok (Z.of_nat c) stk)|]. intros th' (? & ? & _). rewrite Nat2Z.id in *. by split; [|left].
    - eapply wp_mono; [by apply (backtrack_conflict (Z.of_nat c) stk)|]. intros th' (? & Hif). rewrite Nat2Z.id in *. split; [done|].
      destruct (Nat.ltb_spec c (length stk)); [by left|right]. by rewrite take_ge. }
  assert (set_trail_lim (take lvl (trail_lim (asg s))) (set_trail (take c (trail (asg s))) (set_qhead c (MkAssignment l (vardata (asg s)) (trail (asg s)) (trail_lim (asg s)) (qhead (asg s)))))
    = shortened (asg s) c lvl c l) as Ea by done. cbn [trail trail_lim set_trail set_qhead]. 
  rewrite Eth. cbn [rbind]. eexists. split; [done|].
  assert (mid_inv (take c stk) (set_theory th' (set_dec o2 (set_asg (shortened (asg s) c lvl c l) s)))) as M'.
  { apply mid_shortened; try done.
    - by rewrite E2, E1.
    - intros x Hx. by apply Cut.
    - apply (zero_below s stk); [done|apply (ao_lims_trail A)|intros E; by rewrite E in Hc|]. intros x Hx. destruct (trail_lim (asg s)) as [|y ys] eqn:Ey; [done|]. injection Hx as <-.
      apply (ao_lims A 0 lvl); [lia|by rewrite Ey|by rewrite Ey]. }
  pose proof (watched_cancelled (asg s) (db s) c lvl c l A W Hc) as W'. split; [|split; [exact W'|split; [done|split; [|done]]]].
  2:{ intros i p Hi Hlt. destruct (mi_taken _ _ M i p Hi) as [Hp Hl]; [unfold decisionLevel in *; lia|]. split; [|done].
    apply (lower_kept_take (asg s) c lvl c); [done..|lia|done|done]. }
  constructor; [exact M'|exact (watched_all_lower _ _ W')|exact Hs|exact Hcl].
Qed.

(** Backtracking to the current level or above changes nothing. *)
Lemma cancelUntil_same lvl s : decisionLevel (asg s) ≤ lvl → cancelUntil lvl s = Ok s.
Proof. intros Hl. unfold cancelUntil. by rewrite (proj2 (Nat.ltb_ge _ _)). Qed.

Lemma conflict_sinv stk s : conflict_inv stk s → watched_all (asg s) (db s) → th_ok stk (theory s) → taken_upto (asg s) (decisionLevel (asg s)) → sinv stk s.
Proof. intros [? ? ? ?] W T U. constructor; try done. by eapply watched_weaken; [exact W|]. Qed.
Lemma sinv_conflict stk s : sinv stk s → watched_lower (asg s) (db s) → conflict_inv stk s.
Proof. intros [? ? ? ? ? ?] W. by constructor. Qed.

End inv.
