(* ===== verification/SatAnalyze.v ===== *)
(** * The SAT solver: activities and new clauses

    What the analysis of conflicts does to the data base: it changes the
    activities and the glue of clauses, and allocates clauses. *)
From S2P Require Import Prelude Sort NatSet SatLits Terms Heap SatData SatCore SatSpec SatPropagate SatInv.
From stdpp Require Import gmap.
From Stdlib Require Import Lia.

#[local] Open Scope nat_scope.

Section clauses.
Context {F Th : Type} `{DoubleLaws F} `{THandlerLaws Th}.
Implicit Types (s : Solver F Th) (a : Assignment) (d : Database F) (c : Clause F) (m : list (Clause F)) (p q : Lit).

(** ** Changes of activity and glue *)

Definition same_but_use c c' : Prop := lits c' = lits c ∧ c_mark c' = c_mark c ∧ c_learnt c' = c_learnt c ∧ c_extra c' = c_extra c
  ∧ (c_glue c ≤ length (lits c) → c_glue c' ≤ length (lits c')).
Definition same_lits m m' : Prop := Forall2 same_but_use m m'.
Record same_db d d' : Prop := {
  sd_mem : same_lits (mem_of d) (mem_of d');
  sd_watches : watches d' = watches d;
  sd_clauses : clauses d' = clauses d;
  sd_learnts : learnts d' = learnts d;
}.
#[export] Instance same_but_use_refl : Reflexive same_but_use.
Proof. done. Qed.
#[export] Instance same_but_use_trans : Transitive same_but_use.
Proof. intros c1 c2 c3 (?&?&?&?&?) (?&?&?&?&?). repeat split; first [congruence|auto]. Qed.
#[export] Instance same_db_refl : Reflexive same_db.
Proof. intros d. constructor; [|done..]. unfold same_lits. by apply Forall_Forall2_diag, Forall_true. Qed.
#[export] Instance same_db_trans : Transitive same_db.
Proof.
  intros d1 d2 d3 [A1 A2 A3 A4] [B1 B2 B3 B4]. constructor; [|congruence..]. unfold same_lits in *. assert (Transitive (Forall2 same_but_use)) as T by apply _.
  by apply (T _ (mem_of d2)).
Qed.

Lemma same_lits_l m m' cr c : same_lits m m' → m !! cr = Some c → ∃ c', m' !! cr = Some c' ∧ same_but_use c c'.
Proof. intros HS. by apply (Forall2_lookup_l _ _ _ _ _ HS). Qed.
Lemma same_lits_r m m' cr c' : same_lits m m' → m' !! cr = Some c' → ∃ c, m !! cr = Some c ∧ same_but_use c c'.
Proof. intros HS. by apply (Forall2_lookup_r _ _ _ _ _ HS). Qed.

Lemma same_db_ok n d d' : same_db d d' → dbok n d → dbok n d'.
Proof.
  intros [Sm Sw Sc Sl] D. unfold dbok in *. rewrite Sw, Sc, Sl. destruct (watches d) as [oc dt ds]. constructor; try apply D.
  - intros cr c q (x & Hx & E & _)%(same_lits_r _ _ _ _ Sm) Hq. rewrite E in Hq. by eapply (do_lits D).
  - intros cr c (x & Hx & _ & _ & E1 & E2 & _)%(same_lits_r _ _ _ _ Sm) Hl. rewrite E2. apply (do_extra D cr x Hx). congruence.
  - intros cr Hcr. destruct (do_attached D cr Hcr) as (x & Hx & Mx & L & N). destruct (same_lits_l _ _ _ _ Sm Hx) as (c & Hc & E & E' & _).
    exists c. rewrite E, E'. done.
  - intros cr c Hcr (x & Hx & El & _ & _ & E & Eg)%(same_lits_r _ _ _ _ Sm). destruct (do_learnt D cr x Hcr Hx). split; [congruence|]. by apply Eg.
  - intros p w Hw. destruct (do_watchers D p w Hw) as (x & Hx & Hcase). destruct (same_lits_l _ _ _ _ Sm Hx) as (c & Hc & E & E' & _).
    exists c. by rewrite E, E'.
  - intros cr c i q Hcr (x & Hx & E & _)%(same_lits_r _ _ _ _ Sm) Hi Hq. rewrite E in Hq. by apply (do_watched D cr x i q).
Qed.

Lemma same_lits_core (K : list (list Lit)) R X a m m' : same_lits m m' → core_inv K R X a m → core_inv K R X a m'.
Proof.
  intros Sm C. constructor; try apply C.
  - intros i p Hi. pose proof (ci_reason _ _ _ _ _ C i p Hi) as HR. unfold reason_ok in *. destruct (rs a (var p)) as [| |k]; [done..|].
    destruct HR as (x & ps & Hx & E & Hps). destruct (same_lits_l _ _ _ _ Sm Hx) as (c & Hc & E' & _). exists c, ps. by rewrite E'.
  - intros cr c (x & Hx & E & _)%(same_lits_r _ _ _ _ Sm). rewrite E. by eapply ci_entailed.
  - intros cr c q (x & Hx & E & _)%(same_lits_r _ _ _ _ Sm) Hq. rewrite E in Hq. by eapply ci_clause.
Qed.

Lemma same_lits_watched A m m' a (P : CRef → Lit → Prop) : same_lits m m' → watched_ok A m a P → watched_ok A m' a P.
Proof.
  intros Sm W cr c j q HA (x & Hx & E & _)%(same_lits_r _ _ _ _ Sm) Hj Hq Hn HP. rewrite E in *. by apply (W cr x j q).
Qed.

Lemma same_lits_original K a d d' : same_db d d' → original_ok K a d → original_ok K a d'.
Proof.
  intros [Sm _ Sc _] O k Hk. destruct (O k Hk) as [?|(cr & x & Hcr & Hx & Hq)]; [by left|right]. destruct (same_lits_l _ _ _ _ Sm Hx) as (c & Hc & E & _).
  exists cr, c. by rewrite Sc, E.
Qed.

Lemma same_db_put d cr c c' : mem_of d !! cr = Some c → same_but_use c c' → same_db d (put cr c' d).
Proof.
  intros Hc Hs. constructor; [|done..]. cbn. apply Forall2_lookup. intros i. destruct (decide (i = cr)) as [->|Hn].
  - rewrite Hc, list_lookup_insert_eq by by eapply lookup_lt_Some. by constructor.
  - rewrite list_lookup_insert_ne by done. destruct (mem (ca d) !! i); by constructor.
Qed.

Lemma claBumpActivity_ok n d cr c : dbok n d → mem_of d !! cr = Some c → c_extra c = true →
  ∃ d', claBumpActivity cr d = Ok d' ∧ same_db d d'.
Proof.
  intros D Hc Hx. unfold claBumpActivity. rewrite (clause_at_ok cr c d Hc). cbn [rbind]. unfold activity_of at 1. rewrite Hx. cbn [check rbind].
  rewrite (put_clause_ok cr c) by done. cbn [rbind]. set (c' := set_activity _ c). assert (same_db d (put cr c' d)) as S1 by by apply same_db_put with c.
  destruct (d_lt _ _); [|by exists (put cr c' d)].
  assert (∀ ls d', same_db d d' → (∀ k, k ∈ ls → k ∈ learnts d) → ∃ d2, foldM (λ d cr,
      let! c := clause_at cr d in let! x := activity_of c in
      put_clause cr (set_activity (d_float (d_mul x (d_lit 1 (-20)))) c) d) d' ls = Ok d2 ∧ same_db d d2) as Hf.
  { induction ls as [|k ls IH]; intros d' S' Hls; cbn [foldM]; [by exists d'|]. pose proof (same_db_ok n d d' S' D) as D'.
    assert (k ∈ learnts d') as Hk by (rewrite (sd_learnts _ _ S'); apply Hls; by left).
    destruct (do_attached D' k) as (x & Hx' & _); [apply elem_of_app; by right|]. rewrite (clause_at_ok k x d' Hx'). cbn [rbind]. unfold activity_of at 1.
    rewrite (proj1 (do_learnt D' k x Hk Hx')). cbn [check rbind]. rewrite (put_clause_ok k x) by done. cbn [rbind]. apply IH; [|intros; apply Hls; by right].
    etrans; [exact S'|]. by apply same_db_put with x. }
  destruct (Hf (learnts (put cr c' d)) (put cr c' d) S1) as (d2 & E & S2); [done|]. rewrite E. cbn [rbind]. exists (set_cla_inc (d_mul (cla_inc d2) (d_lit 1 (-20))) d2).
  split; [done|]. etrans; [exact S2|]. constructor; [exact (sd_mem _ _ (same_db_refl d2))|done..].
Qed.

(** ** A new clause in the memory *)

Definition grown d c : Database F := set_ca (MkCA (mem_of d ++ [c]) (ca_size (ca d) + clause_words c) (ca_wasted (ca d)) (extra_clause_field (ca d))) d.

(** The clause is not attached yet. *)
Lemma new_clause_ok ps (learnt : bool) g d : g < 8 → ∃ c, new_clause ps learnt g d = Ok (length (mem_of d), grown d c)
  ∧ lits c = ps ∧ c_mark c = 0 ∧ c_learnt c = learnt ∧ (learnt = true → c_extra c = true ∧ c_glue c = g).
Proof.
  intros Hg. unfold new_clause, alloc. destruct learnt; cbn [orb rbind].
  - unfold setGlue. rewrite (proj2 (Nat.ltb_lt _ _) Hg). cbn [check rbind fst snd]. eexists. done.
  - eexists. done.
Qed.

Lemma grown_ok n d c : dbok n d → (∀ q, q ∈ lits c → var q < n) → (c_learnt c = true → c_extra c = true) → dbok n (grown d c).
Proof. intros D. by apply db_alloc. Qed.

Lemma grown_core (K : list (list Lit)) (R : Var → Prop) X a m c : core_inv K R X a m → entails K (lits c) → (∀ q, q ∈ lits c → R (var q)) → core_inv K R X a (m ++ [c]).
Proof.
  intros C E Hr. constructor; try apply C.
  - intros i p Hi. pose proof (ci_reason _ _ _ _ _ C i p Hi) as HR. unfold reason_ok in *. destruct (rs a (var p)) as [| |k]; [done..|].
    destruct HR as (x & ps & Hx & ?). exists x, ps. split; [|done]. by apply lookup_app_l_Some.
  - intros k x [Hk|[_ Hk]]%lookup_app_Some; [by eapply ci_entailed|]. by apply list_lookup_singleton_Some in Hk as [_ <-].
  - intros k x q [Hk|[_ Hk]]%lookup_app_Some Hq; [by eapply ci_clause|]. apply list_lookup_singleton_Some in Hk as [_ <-]. by apply Hr.
Qed.

Lemma grown_watched A m a (P : CRef → Lit → Prop) c : watched_ok A m a P → (∀ k, k ∈ A → k < length m) → watched_ok A (m ++ [c]) a P.
Proof.
  intros W HA k x j q Hk [Hx|[Hl _]]%lookup_app_Some; [by apply W|]. specialize (HA k Hk). lia.
Qed.
Lemma attached_lt n d k : dbok n d → k ∈ attached d → k < length (mem_of d).
Proof. intros D Hk. destruct (do_attached D k Hk) as (x & Hx & _). by eapply lookup_lt_Some. Qed.

Lemma grown_original K a d c : original_ok K a d → original_ok K a (grown d c).
Proof.
  intros O k Hk. destruct (O k Hk) as [?|(cr & x & Hcr & Hx & Hq)]; [by left|right]. exists cr, x. split; [done|]. split; [|done]. by apply lookup_app_l_Some.
Qed.

Lemma free_clause_ok n d cr c : dbok n d → mem_of d !! cr = Some c → ∃ d', free_clause cr d = Ok d' ∧ same_db d d'.
Proof.
  intros D Hc. unfold free_clause, free, at_. rewrite Hc. cbn [rbind]. eexists. split; [done|]. constructor; [|done..]. cbn.
  unfold same_lits. by apply Forall_Forall2_diag, Forall_true.
Qed.

End clauses.

(** * The SAT solver: analysis of a conflict

    The loop of [analyze] that resolves the false clause with the reasons of the
    literals of the current level, until one such literal is left: the clause it
    makes follows from the original clauses in the theory. *)

Lemma seen_lookup (sn : list bool) v w : v < length sn → <[v := true]> sn !! w = Some true ↔ w = v ∨ sn !! w = Some true.
Proof.
  intros Hv. destruct (decide (w = v)) as [->|Hn]; [rewrite list_lookup_insert_eq by done; naive_solver|]. rewrite list_lookup_insert_ne by done. naive_solver.
Qed.

Section analyze.
Context {F Th : Type} `{DoubleLaws F} `{THandlerLaws Th}.
Context (K : list (list Lit)) (Kn : Var → Prop) (As : list Lit).
Implicit Types (s : Solver F Th) (a : Assignment) (d : Database F) (o : @Decisions F) (p q t : Lit) (v : Var) (stk ps qs L : list Lit) (th : Th) (sn : list bool).
Abbreviation mid := (mid_inv K Kn As).

(** A model of the original clauses in the theory. *)
Definition kmodel (σ : Var → bool) : Prop := th_models σ ∧ ∀ k, k ∈ K → clause_true σ k = true.
Lemma entails_iff ps : entails K ps ↔ ∀ σ, kmodel σ → ∃ q, q ∈ ps ∧ lit_value σ q = true.
Proof.
  unfold entails, kmodel. setoid_rewrite clause_true_iff. naive_solver.
Qed.

(** *** The invariant during the analysis *)

Record ainv stk s : Prop := { ai_mid : mid stk s; ai_watched : watched_lower (asg s) (db s) }.

(** What the analysis keeps. *)
Record aframe s s' : Prop := {
  af_nVars : nVars (asg s') = nVars (asg s);
  af_lv v : lv (asg s') v = lv (asg s) v;
  af_lims : trail_lim (asg s') = trail_lim (asg s);
  af_trail : trail (asg s') `prefix_of` trail (asg s);
  af_mem cr c : mem_of (db s) !! cr = Some c → ∃ c', mem_of (db s') !! cr = Some c' ∧ lits c' = lits c;
  af_ctl : ctl s' = ctl s;
  af_domain : nat_set.get_domain (levelsInClause s') = nat_set.get_domain (levelsInClause s);
}.
#[export] Instance aframe_refl : Reflexive aframe.
Proof. intros s. constructor; eauto. Qed.
#[export] Instance aframe_trans : Transitive aframe.
Proof.
  intros s1 s2 s3 [A1 A2 A3 A4 A5 A6 A7] [B1 B2 B3 B4 B5 B6 B7]. constructor; [congruence|intros; by rewrite B2|congruence|by etrans| |congruence..].
  intros cr c Hc. destruct (A5 cr c Hc) as (c' & Hc' & E). destruct (B5 cr c' Hc') as (c2 & Hc2 & E2). exists c2. by rewrite E2.
Qed.

Lemma ainv_db stk s d : ainv stk s → same_db (db s) d → ainv stk (set_db d s) ∧ aframe s (set_db d s).
Proof.
  intros [M W] Sd. split; [constructor|].
  - constructor; try apply M; cbn [asg db theory set_db].
    + eapply same_lits_core; [apply Sd|apply M].
    + eapply same_db_ok; [done|apply M].
    + eapply same_lits_original; [done|apply M].
    + intros cr c q Hcr (x & Hx & E & _)%(same_lits_r _ _ _ _ (sd_mem _ _ Sd)) Hq. rewrite (sd_clauses _ _ Sd) in Hcr. rewrite E in Hq. by apply (mi_decided _ _ _ _ _ M cr x).
  - unfold watched_lower. cbn [asg db set_db]. rewrite (sd_clauses _ _ Sd), (sd_learnts _ _ Sd). eapply same_lits_watched; [apply Sd|exact W].
  - constructor; try done. intros cr c Hc. destruct (same_lits_l _ _ _ _ (sd_mem _ _ Sd) Hc) as (c' & Hc' & E & _). by exists c'.
Qed.

Lemma ainv_grown stk s c : ainv stk s → entails K (lits c) → (∀ q, q ∈ lits c → var q < nVars (asg s) ∧ known Kn (var q)) → (c_learnt c = true → c_extra c = true) →
  ainv stk (set_db (grown (db s) c) s) ∧ aframe s (set_db (grown (db s) c) s).
Proof.
  intros [M W] E Hq Hx. split; [constructor|].
  - constructor; try apply M; cbn [asg db theory set_db].
    + apply grown_core; [apply M|done|intros; by apply Hq].
    + apply grown_ok; [apply M|intros; by apply Hq|done].
    + apply grown_original, M.
    + intros cr x q Hcr [Hkx|[Hl _]]%lookup_app_Some Hqx; [by apply (mi_decided _ _ _ _ _ M cr x)|].
      pose proof (attached_lt (nVars (asg s)) (db s) cr (mi_db _ _ _ _ _ M)) as Hlt. rewrite elem_of_app in Hlt. specialize (Hlt (or_introl Hcr)). lia.
  - unfold watched_lower. apply grown_watched; [exact W|]. intros k Hk. apply (attached_lt (nVars (asg s)) (db s)); [apply M|exact Hk].
  - constructor; try done. intros cr x Hc. exists x. split; [|done]. by apply lookup_app_l_Some.
Qed.

Lemma ainv_levels stk s ls : ainv stk s → nat_set.inv ls → nat_set.get_domain ls = nat_set.get_domain (levelsInClause s) →
  ainv stk (set_levels ls s) ∧ aframe s (set_levels ls s).
Proof.
  intros [M W] Hi Hd. split; [constructor; [|exact W]|constructor; eauto]. constructor; try apply M. split; [done|]. cbn. rewrite Hd. apply M.
Qed.

Lemma ainv_dec stk s o : ainv stk s → dec_ok (nVars (asg s)) o → decision o = decision (dec s) →
  (∀ x, inHeap (order_heap o) x = inHeap (order_heap (dec s)) x) → ainv stk (set_dec o s) ∧ aframe s (set_dec o s).
Proof.
  intros [M W] D Ed Hh. split; [constructor; [|exact W]|constructor; eauto]. constructor; try apply M; cbn [dec set_dec asg]; [done| | |].
  - intros v. rewrite Ed, Hh. apply M.
  - intros v. rewrite Ed. apply M.
  - intros cr c q. rewrite Ed. apply M.
Qed.

Lemma ainv_seen stk s sn : ainv stk s → ainv stk (set_seen sn s) ∧ aframe s (set_seen sn s).
Proof. intros [M W]. split; [constructor; [|exact W]; constructor; apply M|constructor; eauto]. Qed.
Lemma ainv_cleanup stk s l : ainv stk s → ainv stk (set_cleanup l s) ∧ aframe s (set_cleanup l s).
Proof. intros [M W]. split; [constructor; [|exact W]; constructor; apply M|constructor; eauto]. Qed.
Lemma ainv_toclear stk s l : ainv stk s → ainv stk (set_toclear l s) ∧ aframe s (set_toclear l s).
Proof. intros [M W]. split; [constructor; [|exact W]; constructor; apply M|constructor; eauto]. Qed.

(** Levels of assigned literals are in the domain of [levelsInClause]. *)
Lemma assigned_level stk s q : mid stk s → q ∈ trail (asg s) → lv (asg s) (var q) = 0 ∨ lv (asg s) (var q) < nat_set.get_domain (levelsInClause s).
Proof.
  intros M Hq. pose proof (lv_le _ _ (mi_asg _ _ _ _ _ M) Hq). destruct (mi_levels _ _ _ _ _ M) as [_ [?|?]]; [left|right]; lia.
Qed.
Lemma false_level_ok stk s q : mid stk s → lit_not q ∈ trail (asg s) ∨ q ∈ trail (asg s) →
  var q < nVars (asg s) ∧ (lv (asg s) (var q) = 0 ∨ lv (asg s) (var q) < nat_set.get_domain (levelsInClause s)).
Proof.
  intros M [Hq|Hq]; (split; [|]); rewrite <- ?(var_not q); first [by apply (ao_vars (mi_asg _ _ _ _ _ M))|by eapply assigned_level|idtac].
  all: rewrite var_not; first [by apply (ao_vars (mi_asg _ _ _ _ _ M))|by eapply assigned_level].
Qed.

Lemma bump_learnt_ok stk s cr c : ainv stk s → mem_of (db s) !! cr = Some c →
  (c_learnt c = true → ∀ q, q ∈ lits c → lit_not q ∈ trail (asg s) ∨ q ∈ trail (asg s)) →
  ∃ s', bump_learnt cr s = Ok s' ∧ ainv stk s' ∧ aframe s s' ∧ asg s' = asg s ∧ theory s' = theory s ∧ seen s' = seen s ∧ cleanup s' = cleanup s.
Proof.
  intros A Hc Hq. unfold bump_learnt. rewrite (clause_at_ok cr c) by done. cbn [rbind]. destruct (c_learnt c) eqn:El; [|by exists s].
  destruct (claBumpActivity_ok (nVars (asg s)) (db s) cr c) as (d & -> & Sd); [apply (ai_mid _ _ A)|done| |].
  { by apply (do_extra (mi_db _ _ _ _ _ (ai_mid _ _ A)) cr). }
  cbn [rbind]. destruct (ainv_db stk s d A Sd) as [A1 F1]. destruct (same_lits_l _ _ _ _ (sd_mem _ _ Sd) Hc) as (c1 & Hc1 & E1 & _).
  destruct (computeGlue_ok (lits c) (set_db d s)) as (g & ls & -> & Hg & Hgl & Hil & Hdl).
  { intros p Hp. apply (false_level_ok stk (set_db d s)); [apply A1|by apply Hq]. }
  { apply (mi_levels _ _ _ _ _ (ai_mid _ _ A)). }
  cbn [rbind fst snd]. destruct (ainv_levels stk (set_db d s) ls A1 Hil Hdl) as [A2 F2].
  destruct (_ <? _); [|exists (set_levels ls (set_db d s)); split; [done|]; split; [exact A2|]; split; [by etrans|done]].
  cbn [db set_levels set_db]. rewrite (clause_at_ok cr c1) by done. cbn [rbind]. unfold setGlue. rewrite (proj2 (Nat.ltb_lt g 8)) by lia. cbn [check rbind].
  rewrite (put_clause_ok cr c1) by done. cbn [rbind].
  destruct (ainv_db stk (set_levels ls (set_db d s)) (put cr (MkClause (lits c1) (c_mark c1) (c_learnt c1) (c_extra c1) (c_activity c1) g) d) A2) as [A3 F3]; [apply same_db_put with c1; [done|unfold same_but_use; cbn; by rewrite E1]|].
  eexists. split; [done|]. split; [exact A3|]. split; [|done]. etrans; [exact F1|]. by etrans.
Qed.

(** *** The literals that were seen *)

Section seen.
(** The trail, the level and the levels of the variables when the analysis began. *)
Context (T : list Lit) (D n : nat) (le : Var → nat).
Hypothesis T_nodup : NoDup (var <$> T).
Hypothesis T_le : ∀ t, t ∈ T → le (var t) ≤ D.
Hypothesis D_pos : 0 < D.

#[local] Instance active_dec sn t : Decision (sn !! var t = Some true ∧ le (var t) = D).
Proof. apply _. Defined.
(** The seen literals of the current level below position [i]. *)
Definition active sn (i : nat) : list Lit := filter (λ t, sn !! var t = Some true ∧ le (var t) = D) (take i T).

Lemma elem_active sn i t : t ∈ active sn i ↔ (sn !! var t = Some true ∧ le (var t) = D) ∧ t ∈ take i T.
Proof. unfold active. by rewrite list_elem_of_filter. Qed.
Lemma T_inj t t' : t ∈ T → t' ∈ T → var t = var t' → t = t'.
Proof.
  intros [i Hi]%list_elem_of_lookup [j Hj]%list_elem_of_lookup E. pose proof T_nodup as N. rewrite NoDup_alt in N.
  assert (i = j) as ->; [|congruence]. apply (N i j (var t)); rewrite list_lookup_fmap; [by rewrite Hi|by rewrite Hj, E].
Qed.

(** What [seen] and the literals of lower levels mean. *)
Record seen_ok sn (i : nat) L : Prop := {
  se_length : length sn = n;
  se_seen v : sn !! v = Some true → (∃ t, t ∈ active sn i ∧ var t = v) ∨ v ∈ var <$> L;
  se_lower q : q ∈ L → sn !! var q = Some true ∧ lit_not q ∈ T ∧ 0 < le (var q) < D;
  se_nodup : NoDup (var <$> L);
}.

(** Some literal of the clause that is made has the value that it needs. *)
Definition blamed sn (i : nat) L (σ : Var → bool) : Prop :=
  (∃ q, q ∈ L ∧ lit_value σ q = true) ∨ ∃ t, t ∈ active sn i ∧ lit_value σ t = false.

(** Marking a variable of a lower level, or one of the current level. *)
Lemma active_lower sn i v : v < length sn → le v ≠ D → active (<[v := true]> sn) i = active sn i.
Proof.
  intros Hv Hl. apply list_filter_iff. intros t. rewrite seen_lookup by done. split; [|naive_solver]. intros [[->|?] ?]; done.
Qed.
Lemma active_current sn i t : var t < length sn → t ∈ take i T → le (var t) = D → sn !! var t ≠ Some true →
  length (active (<[var t := true]> sn) i) = S (length (active sn i)) ∧ ∀ u, u ∈ active (<[var t := true]> sn) i ↔ u = t ∨ u ∈ active sn i.
Proof.
  intros Hv [j Hj]%list_elem_of_lookup Hl Hs. unfold active. assert (NoDup (var <$> take i T)) as N.
  { rewrite <- (take_drop i T), fmap_app in T_nodup. by apply NoDup_app in T_nodup as (? & _). }
  revert Hj N. generalize (take i T). intros l Hj N. revert j Hj. induction l as [|u l IH]; intros j Hj; [done|].
  rewrite fmap_cons in N. apply NoDup_cons in N as [Hu N]. rewrite !filter_cons.
  destruct j as [|j]; cbn in Hj.
  - injection Hj as ->. rewrite decide_True by by rewrite seen_lookup by done; split; [left|]. rewrite (decide_False (P := sn !! var t = Some true ∧ _)) by naive_solver.
    assert (filter (λ t0, <[var t:=true]> sn !! var t0 = Some true ∧ le (var t0) = D) l = filter (λ t0, sn !! var t0 = Some true ∧ le (var t0) = D) l) as E.
    { apply Prelude.filter_ext_in. intros u Hin. rewrite seen_lookup by done. split; [|naive_solver]. intros [[E|?] ?]; [|done]. exfalso. apply Hu. rewrite <- E. by apply list_elem_of_fmap_2. }
    rewrite E. split; [done|]. intros u. by rewrite elem_of_cons.
  - destruct (IH N j Hj) as [IH1 IH2]. assert (var u ≠ var t) as Hne by (intros E; apply Hu; rewrite E; apply list_elem_of_fmap_2; by eapply list_elem_of_lookup_2).
    destruct (decide (sn !! var u = Some true ∧ le (var u) = D)) as [Hd|Hd].
    + rewrite decide_True by (rewrite seen_lookup by done; naive_solver). rewrite !length_cons, IH1. split; [done|]. intros w. rewrite !elem_of_cons, IH2. tauto.
    + rewrite decide_False by (rewrite seen_lookup by done; naive_solver). done.
Qed.

Lemma active_mono sn i t v : v < length sn → t ∈ active sn i → t ∈ active (<[v := true]> sn) i.
Proof. intros Hv [[? ?] ?]%elem_active. apply elem_active. split; [|done]. split; [|done]. apply seen_lookup; [done|by right]. Qed.

(** What the state of the solver has to do with these. *)
Record same_base s : Prop := {
  sb_nVars : nVars (asg s) = n;
  sb_level : decisionLevel (asg s) = D;
  sb_lv v : lv (asg s) v = le v;
}.

Lemma visit_literals_ok stk i qs : ∀ L s, ainv stk s → same_base s → (∀ q, q ∈ qs → lit_not q ∈ take i T ∧ var q < n ∧ (le (var q) = 0 → entails K [lit_not q])) →
  seen_ok (seen s) i L →
  ∃ L' s', foldM visit_literal (length (active (seen s) i), L, s) qs = Ok (length (active (seen s') i), L', s')
    ∧ ainv stk s' ∧ aframe s s' ∧ asg s' = asg s ∧ theory s' = theory s ∧ cleanup s' = cleanup s ∧ db s' = db s ∧ seen_ok (seen s') i L'
    ∧ (∀ σ, kmodel σ → (∃ q, q ∈ qs ∧ lit_value σ q = true) ∨ blamed (seen s) i L σ → blamed (seen s') i L' σ)
    ∧ (∀ t, t ∈ active (seen s) i → t ∈ active (seen s') i) ∧ ∀ q, q ∈ qs → le (var q) = D → lit_not q ∈ active (seen s') i.
Proof.
  induction qs as [|q qs IH]; intros L s A B Hqs S; cbn [foldM].
  { exists L, s. repeat (split; [done|]). split; [|split; [done|]].
    - intros σ _ [(q & Hq & _)|?]; [by apply elem_of_nil in Hq|done].
    - intros q Hq. by apply elem_of_nil in Hq. }
  destruct (Hqs q) as (Hneg & Hv & Hzero); [by left|].
  assert (∀ q0, q0 ∈ qs → lit_not q0 ∈ take i T ∧ var q0 < n ∧ (le (var q0) = 0 → entails K [lit_not q0])) as Hqs' by (intros; apply Hqs; by right).
  assert (lit_not q ∈ T) as HnT by by eapply take_sub.
  unfold visit_literal at 1. destruct (lookup_lt_is_Some_2 (seen s) (var q)) as [b Hb]; [by rewrite (se_length _ _ _ S)|]. unfold at_. rewrite Hb. cbn [rbind]. destruct b; cbn [rbind].
  { (* seen before *)
    destruct (IH L s A B Hqs' S) as (L' & s' & E & A' & F' & E1 & E2 & E3 & E4 & S' & Hsem & Hact & Hcur). exists L', s'. repeat (split; [done|]).
    split; [|split; [done|]].
    - intros σ Hσ [(u & [->|Hu]%elem_of_cons & Hut)|Hbl]; apply Hsem; try done; [|left; by exists u|by right]. right.
      destruct (se_seen _ _ _ S (var q) Hb) as [(t & Ht & Ev)|(u & Ev & Hu)%list_elem_of_fmap].
      + right. exists t. split; [done|]. assert (t = lit_not q) as ->.
        { apply T_inj; [|done|by rewrite var_not]. apply elem_active in Ht as [_ Ht]. by eapply take_sub. }
        by rewrite lit_value_not, Hut.
      + left. exists u. split; [done|]. assert (q = u) as ->; [|done]. apply lit_not_inj. apply T_inj; [done|by apply (se_lower _ _ _ S)|by rewrite !var_not].
    - intros u [->|Hu]%elem_of_cons Hl; [|by apply Hcur]. apply Hact. destruct (se_seen _ _ _ S (var q) Hb) as [(t & Ht & Ev)|(u & Ev & Hu)%list_elem_of_fmap].
      + assert (t = lit_not q) as <-; [|done]. apply T_inj; [|done|by rewrite var_not]. apply elem_active in Ht as [_ Ht]. by eapply take_sub.
      + destruct (se_lower _ _ _ S u Hu) as (_ & _ & ?). rewrite <- Ev in *. lia. }
  rewrite level_of_ok by by rewrite (sb_nVars _ B). cbn [rbind]. rewrite (sb_lv _ B). destruct (Nat.eqb_spec (le (var q)) 0) as [Ez|Ez]; cbn [rbind].
  { (* a fact *)
    destruct (IH L s A B Hqs' S) as (L' & s' & E & A' & F' & E1 & E2 & E3 & E4 & S' & Hsem & Hact & Hcur). exists L', s'. repeat (split; [done|]).
    split; [|split; [done|]].
    - intros σ Hσ [(u & [->|Hu]%elem_of_cons & Hut)|Hbl]; apply Hsem; try done; [|left; by exists u|by right]. exfalso.
      destruct (proj1 (entails_iff [lit_not q]) (Hzero Ez) σ Hσ) as (u & Hs%list_elem_of_singleton & Hu); subst u. by rewrite lit_value_not, Hut in Hu.
    - intros u [->|Hu]%elem_of_cons Hl; [lia|by apply Hcur]. }
  destruct (varBumpActivity_ok (nVars (asg s)) (var q) (dec s)) as (o & -> & Do & (Ed & _) & Hh); [apply (ai_mid _ _ A)|by rewrite (sb_nVars _ B)|]. cbn [rbind].
  unfold upd. rewrite (proj2 (Nat.ltb_lt _ _)) by by rewrite (se_length _ _ _ S). cbn [rbind].
  destruct (ainv_dec stk s o A Do Ed Hh) as [A1 F1]. destruct (ainv_seen stk (set_dec o s) (<[var q := true]> (seen s)) A1) as [A2 F2].
  set (s2 := set_seen _ (set_dec o s)) in *. assert (same_base s2) as B2 by (by destruct B; constructor).
  assert (aframe s s2) as F12 by by etrans. assert (var q < length (seen s)) as Lq by by rewrite (se_length _ _ _ S).
  rewrite (sb_level _ B2). destruct (Nat.leb_spec D (le (var q))) as [Hl|Hl]; cbn [rbind].
  - assert (le (var q) = D) as El by (apply Nat.le_antisymm; [|done]; rewrite <- (var_not q); by apply T_le).
    destruct (active_current (seen s) i (lit_not q)) as [Hlen Hel]; [by rewrite var_not|done|by rewrite var_not|rewrite var_not; congruence|]. rewrite var_not in Hlen, Hel.
    assert (seen_ok (seen s2) i L) as S2.
    { constructor; cbn [seen s2 set_seen]; [by rewrite length_insert; apply S| | |apply S].
      - intros v [->|Hsv]%seen_lookup; [|destruct (se_seen _ _ _ S v Hsv) as [(t & Ht & ?)|?]; [left; exists t; split; [|done]; apply Hel; by right|by right]|done].
        left. exists (lit_not q). rewrite var_not. split; [|done]. apply Hel. by left.
      - intros u Hu. destruct (se_lower _ _ _ S u Hu) as (? & ? & ?). split; [|done]. apply seen_lookup; [done|by right]. }
    destruct (IH L s2 A2 B2 Hqs' S2) as (L' & s' & E & A' & F' & E1 & E2 & E3 & E4 & S' & Hsem & Hact & Hcur).
    exists L', s'. rewrite <- Hlen. split; [exact E|]. split; [done|]. split; [by etrans|]. repeat (split; [done|]). split; [|split].
    + intros σ Hσ Hor. apply Hsem; [done|]. destruct Hor as [(u & [->|Hu]%elem_of_cons & Hut)|[?|(t & Ht & Htv)]]; [|left; by exists u|right; by left|].
      * right. right. exists (lit_not q). split; [apply Hel; by left|by rewrite lit_value_not, Hut].
      * right. right. exists t. split; [|done]. apply Hel. by right.
    + intros t Ht. apply Hact, Hel. by right.
    + intros u [->|Hu]%elem_of_cons Hlu; [|by apply Hcur]. apply Hact, Hel. by left.
  - assert (active (seen s2) i = active (seen s) i) as Ea by (apply active_lower; [done|lia]).
    assert (seen_ok (seen s2) i (L ++ [q])) as S2.
    { constructor; rewrite ?Ea; cbn [seen s2 set_seen].
      - rewrite length_insert. apply S.
      - intros v [->|Hsv]%seen_lookup; [right; rewrite fmap_app; set_solver| |done]. destruct (se_seen _ _ _ S v Hsv) as [?|?]; [by left|right]. rewrite fmap_app. set_solver.
      - intros u [Hu|Hu%list_elem_of_singleton]%elem_of_app; [|subst u].
        + destruct (se_lower _ _ _ S u Hu) as (? & ? & ?). split; [|done]. apply seen_lookup; [done|by right].
        + split; [apply seen_lookup; [done|by left]|]. split; [done|lia].
      - rewrite fmap_app. apply NoDup_app. split; [apply S|]. split; [|apply NoDup_singleton]. intros v (u & -> & Hu)%list_elem_of_fmap Hin.
        apply list_elem_of_singleton in Hin. destruct (se_lower _ _ _ S u Hu) as (Hsu & _). rewrite Hin in Hsu. congruence. }
    destruct (IH (L ++ [q]) s2 A2 B2 Hqs' S2) as (L' & s' & E & A' & F' & E1 & E2 & E3 & E4 & S' & Hsem & Hact & Hcur). rewrite Ea in *.
    exists L', s'. split; [exact E|]. split; [done|]. split; [by etrans|]. repeat (split; [done|]). split; [|split; [done|]].
    + intros σ Hσ Hor. apply Hsem; [done|]. unfold blamed in *. rewrite Ea. destruct Hor as [(u & [->|Hu]%elem_of_cons & Hut)|[(u & Hu & Hut)|?]].
      * right. left. exists q. split; [set_solver|done].
      * left. by exists u.
      * right. left. exists u. split; [set_solver|done].
      * right. by right.
    + intros u [->|Hu]%elem_of_cons Hlu; [lia|by apply Hcur].
Qed.

End seen.
End analyze.
