(* ===== verification/SatResolve.v ===== *)
(** * The SAT solver: the loop that makes the learnt clause *)
From S2P Require Import Prelude Sort NatSet SatLits Terms Heap SatData SatCore SatSpec SatPropagate SatInv SatAnalyze.
From stdpp Require Import gmap.
From Stdlib Require Import Lia.

#[local] Open Scope nat_scope.

Section resolve.
Context {F Th : Type} `{DoubleLaws F} `{THandlerLaws Th}.
Context (K : list (list Lit)) (Kn : Var → Prop) (As : list Lit).
Implicit Types (s : Solver F Th) (a : Assignment) (d : Database F) (o : @Decisions F) (p q t : Lit) (v : Var) (stk ps qs L : list Lit) (th : Th) (sn : list bool).
Abbreviation ai := (ainv K Kn As).

Lemma th_backtrack_ok n c stk th : th_state n stk th → c < n →
  ∃ th', th_backtrack (Z.of_nat c) th = Ok th' ∧ th_keeps (take c stk) th th' ∧ th_ok (take c stk) th'.
Proof.
  intros Hth Hc. apply wp_total. destruct Hth as [Hth|[Hth Hn]].
  - eapply wp_mono; [by apply (backtrack_ok (Z.of_nat c) stk)|]. intros th' (? & ? & _). by rewrite Nat2Z.id in *.
  - eapply wp_mono; [by apply (backtrack_conflict (Z.of_nat c) stk)|]. intros th' (? & Hif). rewrite Nat2Z.id in *. split; [done|].
    by rewrite (proj2 (Nat.ltb_lt _ _)) in Hif by lia.
Qed.

Lemma last_position_ok (t : list Lit) c p i : NoDup (var <$> t) → t !! c = Some p → c < i → i ≤ length t → last_position (var p) t i = Ok c.
Proof.
  intros N Hc Hci Hi. induction i as [|i IH]; [lia|]. cbn [last_position]. destruct (lookup_lt_is_Some_2 t i) as [q Hq]; [lia|]. unfold at_. rewrite Hq. cbn [rbind].
  destruct (Nat.eqb_spec (var q) (var p)) as [E|E].
  - f_equal. rewrite NoDup_alt in N. apply (N i c (var p)); rewrite list_lookup_fmap; [rewrite Hq; exact (f_equal Some E)|by rewrite Hc].
  - apply IH; [|lia]. destruct (decide (c = i)) as [->|]; [congruence|lia].
Qed.

(** The trail is cut before [p]. *)
Lemma cancelUntilVar_ok stk s c p n : ai stk s → trail (asg s) !! c = Some p → lv (asg s) (var p) = decisionLevel (asg s) → 0 < decisionLevel (asg s) →
  th_state n stk (theory s) → c < n →
  ∃ s', cancelUntilVar (var p) s = Ok s' ∧ ai (take c stk) s' ∧ aframe s s' ∧ trail (asg s') = take c (trail (asg s)) ∧ vardata (asg s') = vardata (asg s)
    ∧ th_keeps (take c stk) (theory s) (theory s') ∧ th_ok (take c stk) (theory s') ∧ seen s' = seen s ∧ cleanup s' = cleanup s ∧ db s' = db s.
Proof.
  intros [M W] Hc Hl Hpos Hth Hcn. pose proof (mi_asg _ _ _ _ _ M) as A. pose proof (lookup_lt_Some _ _ _ Hc) as Lc.
  assert (∀ x, x ∈ trail_lim (asg s) → x ≤ c) as Hlims.
  { intros x [i Hi]%list_elem_of_lookup. destruct (decide (x ≤ c)) as [|Hx]; [done|]. exfalso.
    pose proof (proj1 (lower_position (asg s) c p i x A Hc Hi) ltac:(lia)) as Hle. apply lookup_lt_Some in Hi. unfold decisionLevel in *. lia. }
  unfold cancelUntilVar. rewrite (last_position_ok _ c); [|apply A|done|exact Lc|done]. cbn [rbind].
  destruct (undo_trail (nVars (asg s)) (asg s) (dec s) c A eq_refl (mi_dec _ _ _ _ _ M) (mi_covers _ _ _ _ _ M)) as (l & o & -> & Rl & D & (Ed & _) & C).
  cbn [rbind fst snd].
  assert (set_qhead c (set_trail (take c (trail (asg s))) (MkAssignment l (vardata (asg s)) (trail (asg s)) (trail_lim (asg s)) (qhead (asg s))))
    = shortened (asg s) c (length (trail_lim (asg s))) c l) as Ea.
  { unfold shortened. by rewrite (take_ge (trail_lim (asg s))) by lia. }
  cbn [trail]. rewrite Ea. set (a' := shortened _ _ _ _ _). assert (∀ v, lv a' v = lv (asg s) v) as Elv by done.
  rewrite level_of_ok by (change (var p < nVars (asg s)); apply (ao_vars A); by eapply list_elem_of_lookup_2). cbn [rbind]. rewrite Elv.
  assert (trail_lim a' = trail_lim (asg s)) as Elim by (cbn; by rewrite take_ge by lia). assert (decisionLevel a' = decisionLevel (asg s)) as Edl by (unfold decisionLevel; by rewrite Elim).
  rewrite Edl, (proj2 (Nat.ltb_ge _ _)) by lia. cbn [rbind].
  assert (nAssigns a' = c) as En by (unfold nAssigns; cbn; rewrite length_take; lia). rewrite En.
  destruct (th_backtrack_ok n c stk (theory s) Hth Hcn) as (th' & -> & Kp & Hth'). cbn [rbind].
  eexists. split; [done|]. split; [constructor|split; [|done]].
  - apply mid_shortened; try done.
    + by apply partial_cut; [|lia|].
    + rewrite take_ge by lia. exact Hlims.
    + apply (zero_below K Kn As s stk); [done|apply (ao_lims_trail A)|intros E; unfold decisionLevel in *; rewrite E in Hpos; cbn in Hpos; lia|].
      intros x Hx. apply Hlims. destruct (trail_lim (asg s)); [done|]. injection Hx as <-. by left.
  - exact (watched_shortened (asg s) (db s) c c l A W Hlims).
  - constructor; try done; [|eauto]. cbn. by apply prefix_take.
Qed.

(** [seen], read from the end of the trail. *)
Lemma last_seen_ok sn (t : list Lit) i j p : (∀ q, q ∈ t → var q < length sn) → t !! j = Some p → sn !! var p = Some true → j < i → i ≤ length t →
  ∃ k q, last_seen sn t i = Ok k ∧ t !! k = Some q ∧ sn !! var q = Some true ∧ j ≤ k < i ∧ ∀ l u, k < l < i → t !! l = Some u → sn !! var u ≠ Some true.
Proof.
  intros Hr Hj Hs. revert j p Hj Hs. induction i as [|i IH]; intros j p Hj Hs Hji Hi; [lia|]. cbn [last_seen].
  destruct (lookup_lt_is_Some_2 t i) as [q Hq]; [lia|]. destruct (lookup_lt_is_Some_2 sn (var q)) as [b Hb]; [apply Hr; by eapply list_elem_of_lookup_2|].
  unfold at_. rewrite Hq. cbn [rbind]. rewrite Hb. cbn [rbind]. destruct b.
  - exists i, q. repeat (split; [done|lia]). split; [done|]. split; [done|]. split; [done|]. split; [lia|]. lia.
  - destruct (IH j p Hj Hs) as (k & u & E & ? & ? & ? & Hbelow); [|lia|].
    { destruct (decide (j = i)) as [->|]; [congruence|lia]. }
    exists k, u. split; [done|]. split; [done|]. split; [done|]. split; [lia|]. intros l w Hl Hw. destruct (decide (l = i)) as [->|]; [congruence|]. apply (Hbelow l w); [lia|done].
Qed.

(** *** The reason of a literal that the theory deduced *)

Definition with_reason v (r : Reason) a : Assignment :=
  MkAssignment (assigns a) (<[v := MkVarData r (lv a v)]> (vardata a)) (trail a) (trail_lim a) (qhead a).

Lemma set_reason_ok v r a : v < nVars a → set_reason v r a = Ok (with_reason v r a).
Proof.
  intros Hv. unfold set_reason, at_, with_reason. rewrite (vardata_at a v Hv). cbn [rbind]. unfold upd. unfold nVars in Hv. by rewrite (proj2 (Nat.ltb_lt _ _) Hv).
Qed.
Lemma with_reason_lv v r a w : v < nVars a → lv (with_reason v r a) w = lv a w.
Proof.
  intros Hv. unfold lv. cbn. destruct (decide (w = v)) as [->|Hn]; [by rewrite list_lookup_insert_eq|by rewrite list_lookup_insert_ne].
Qed.
Lemma with_reason_rs_ne v r a w : w ≠ v → rs (with_reason v r a) w = rs a w.
Proof. intros Hn. unfold rs. cbn. by rewrite list_lookup_insert_ne. Qed.
Lemma with_reason_rs_eq v r a : v < nVars a → rs (with_reason v r a) v = r.
Proof. intros Hv. unfold rs. cbn. by rewrite list_lookup_insert_eq. Qed.

Lemma with_reason_asg v r a : asg_ok a → v < nVars a → asg_ok (with_reason v r a).
Proof.
  intros A Hv. assert (nVars (with_reason v r a) = nVars a) as En by apply length_insert.
  constructor; rewrite ?En; try exact (ao_qhead A); try apply A. intros i p Hi. rewrite with_reason_lv by done. by apply A.
Qed.

(** The reason of a variable that is not assigned does not matter. *)
Lemma ainv_reason stk s v r : ai stk s → v < nVars (asg s) → v ∉ var <$> trail (asg s) →
  ai stk (set_asg (with_reason v r (asg s)) s) ∧ aframe s (set_asg (with_reason v r (asg s)) s).
Proof.
  intros [M W] Hv Ht. set (a' := with_reason v r (asg s)). assert (nVars a' = nVars (asg s)) as En by apply length_insert.
  assert (∀ w, lv a' w = lv (asg s) w) as El by (intros; by apply with_reason_lv).
  assert (∀ p, p ∈ trail (asg s) → rs a' (var p) = rs (asg s) (var p)) as Er.
  { intros p Hp. apply with_reason_rs_ne. intros E. apply Ht. rewrite <- E. by apply list_elem_of_fmap_2. }
  split; [constructor|].
  - constructor; try apply M; cbn [asg set_asg db dec]; rewrite ?En; try apply M.
    + apply with_reason_asg; [apply M|done].
    + constructor; try apply (mi_core _ _ _ _ _ M).
      * intros i p Hi. pose proof (ci_reason _ _ _ _ _ (mi_core _ _ _ _ _ M) i p Hi) as HR. unfold reason_ok in *.
        rewrite Er by (by eapply list_elem_of_lookup_2). by rewrite El.
      * intros p Hp. rewrite El. by apply (mi_core _ _ _ _ _ M).
    + intros k Hk. destruct (mi_original _ _ _ _ _ M k Hk) as [(p & ? & ? & ?)|?]; [left|by right]. exists p. by rewrite El.
    + intros p Hp. rewrite Er, El by done. by apply M.
    + intros i p Hi Hlt. rewrite El. by apply (mi_taken _ _ _ _ _ M).
  - intros k x j q HA Hx Hj Hq Hn Hlv. unfold decisionLevel in *. cbn in Hlv. rewrite El in Hlv. destruct (W k x j q HA Hx Hj Hq Hn Hlv) as (l & ? & ? & ?). exists l.
    cbn [asg set_asg]. by rewrite !El.
  - constructor; try done. eauto.
Qed.

Lemma theory_reason_ok stk s c p n : ai stk s → trail (asg s) !! c = Some p → lv (asg s) (var p) = decisionLevel (asg s) → 0 < decisionLevel (asg s) →
  rs (asg s) (var p) = CRef_Fake → th_state n stk (theory s) → c < n →
  ∃ s' cr cl ps, theory_reason p s = Ok s' ∧ ai (take c stk) s' ∧ aframe s s' ∧ trail (asg s') = take c (trail (asg s)) ∧ th_ok (take c stk) (theory s')
    ∧ rs (asg s') (var p) = CRef_at cr ∧ mem_of (db s') !! cr = Some cl ∧ c_learnt cl = false ∧ lits cl = p :: ps
    ∧ (∀ q, q ∈ ps → lit_not q ∈ take c (trail (asg s))) ∧ seen s' = seen s ∧ cleanup s' = cleanup s ++ [cr].
Proof.
  intros Ai Hc Hl Hpos Hr Hth Hcn. pose proof (ai_mid _ _ _ _ _ Ai) as M. pose proof (mi_asg _ _ _ _ _ M) as A.
  assert (p ∈ trail (asg s)) as Hp by by eapply list_elem_of_lookup_2. pose proof (ao_vars A p Hp) as Hpn.
  pose proof (ci_reason _ _ _ _ _ (mi_core _ _ _ _ _ M) c p Hc) as HR. unfold reason_ok in HR. rewrite Hr in HR. destruct HR as (Hthy & k & [Hex Hks] & Hkt).
  assert (k `prefix_of` take c stk) as Hkc.
  { destruct Hks as [u ->]. pose proof (prefix_length _ _ Hkt) as Hlen. rewrite length_take in Hlen. rewrite take_app_ge by lia. by eexists. }
  unfold theory_reason. rewrite (value_ok (asg s) p A Hpn). cbn [rbind]. rewrite bool_decide_true by by apply val_true. cbn [check rbind].
  destruct (cancelUntilVar_ok stk s c p n Ai Hc Hl Hpos Hth Hcn) as (s1 & -> & A1 & F1 & Et1 & Ev1 & [_ Kp] & Hth1 & Es1 & Ec1 & Ed1). cbn [rbind].
  pose proof (ai_mid _ _ _ _ _ A1) as M1. assert (nVars (asg s1) = nVars (asg s)) as En1 by apply F1.
  assert (p ∉ take c (trail (asg s))) as Hpc.
  { intros [i [Hi Hp']%take_lookup_inv]%list_elem_of_lookup. pose proof (trail_index_inj (asg s) i c p p A Hp' Hc eq_refl). lia. }
  assert (take c stk `prefix_of` take c (trail (asg s))) as Hpre by (rewrite <- Et1; apply M1).
  assert (∀ q, q ∈ take c stk → q ∈ take c (trail (asg s))) as Hsub by (intros q Hq; destruct Hpre as [u ->]; apply elem_of_app; by left).
  destruct (proj1 (wp_total _ _) (getReason_ok k p (take c stk) (theory s1) Hth1 (Kp k p Hkc Hex) Hkc ltac:(intros Hin; by apply Hpc, Hsub)))
    as ([r th'] & -> & [Hk' Hex'] & Hth' & _ & ps & Er & Hps & Hval). cbn [rbind fst snd] in *. subst r.
  set (s2 := set_theory th' s1). assert (ai (take c stk) s2 ∧ aframe s1 s2) as [A2 F2].
  { split; [|constructor; eauto]. destruct A1 as [_ W1]. constructor; [|exact W1]. constructor; try apply M1; cbn [asg set_theory theory s2].
    - constructor; try apply (mi_core _ _ _ _ _ M1). intros i q Hi. pose proof (ci_reason _ _ _ _ _ (mi_core _ _ _ _ _ M1) i q Hi) as HR. unfold reason_ok in *.
      destruct (rs (asg s1) (var q)); [done| |done]. destruct HR as (? & k' & [? ?] & ?). split; [done|]. exists k'. split; [|done]. split; [|done]. by apply Hex'.
    - intros v. rewrite Hk'. apply M1. }
  cbn [length]. rewrite (proj1 (mi_cfg _ _ _ _ _ (ai_mid _ _ _ _ _ A2))). cbn [check rbind Nat.ltb Nat.leb].
  destruct (new_clause_ok (p :: ps) false 0 (db s2) ltac:(lia)) as (cl & -> & Ecl & _ & Elr & _). cbn [rbind fst snd].
  assert (∀ q, q ∈ p :: ps → var q < nVars (asg s) ∧ known Kn (var q)) as Hq.
  { intros q [->|Hq]%elem_of_cons; [split; [done|by apply (mi_core _ _ _ _ _ M)]|]. assert (lit_not q ∈ trail (asg s)) as Hin by (eapply take_sub; by apply Hsub, Hps).
    rewrite <- (var_not q). split; [by apply (ao_vars A)|by apply (mi_core _ _ _ _ _ M)]. }
  destruct (ainv_grown K Kn As (take c stk) s2 cl A2) as [A3 F3].
  { rewrite Ecl. intros σ Hσ _. by apply Hval. } { rewrite Ecl. intros q Hq'. cbn [asg set_theory s2]. rewrite En1. by apply Hq. } { congruence. }
  set (s3 := set_db _ s2) in *. destruct (ainv_cleanup K Kn As (take c stk) s3 (cleanup s2 ++ [length (mem_of (db s2))]) A3) as [A4 F4]. set (s4 := set_cleanup _ s3) in *.
  assert (nVars (asg s4) = nVars (asg s)) as En4 by exact En1. assert (trail (asg s4) = take c (trail (asg s))) as Et4 by exact Et1.
  rewrite set_reason_ok by (change (var p < nVars (asg s4)); by rewrite En4). cbn [rbind].
  destruct (ainv_reason (take c stk) s4 (var p) (CRef_at (length (mem_of (db s2)))) A4) as [A5 F5]; [by rewrite En4|rewrite Et4|].
  { rewrite var_in_trail. intros [?|Hn]; [done|]. apply (trail_not (asg s) p A Hp). by eapply take_sub. }
  eexists _, (length (mem_of (db s2))), cl, ps. split; [done|]. split; [exact A5|]. split; [|split; [exact Et4|split; [exact Hth'|split; [|split; [|split; [done|split; [done|split; [|split]]]]]]]].
  - etrans; [exact F1|]. etrans; [exact F2|]. etrans; [exact F3|]. etrans; [exact F4|exact F5].
  - apply with_reason_rs_eq. change (var p < nVars (asg s4)). by rewrite En4.
  - apply list_lookup_middle. done.
  - intros q Hq'. by apply Hsub, Hps.
  - exact Es1.
  - by rewrite <- Ec1.
Qed.

End resolve.

(** * The SAT solver: the clause that is learnt *)

Section learn.
Context {F Th : Type} `{DoubleLaws F} `{THandlerLaws Th}.
Context (K : list (list Lit)) (Kn : Var → Prop) (As : list Lit).
Implicit Types (s : Solver F Th) (a : Assignment) (d : Database F) (p q t : Lit) (v : Var) (stk ps qs L : list Lit) (th : Th) (sn : list bool).
Abbreviation ai := (ainv K Kn As).

Section loop.
(** The state in which the analysis began. *)
Context (s0 : Solver F Th).
Abbreviation T := (trail (asg s0)).
Abbreviation D := (decisionLevel (asg s0)).
Abbreviation n := (nVars (asg s0)).
Abbreviation le := (lv (asg s0)).
Abbreviation act := (active T D le).
Hypothesis A0 : asg_ok (asg s0).
Hypothesis D_pos : 0 < D.
Hypothesis lims_pos : ∀ x, x ∈ trail_lim (asg s0) → 1 ≤ x.

(** Before a round: the clause [confl], of which [p] was resolved away. *)
Definition pending (po : option Lit) (c : Clause F) : list Lit := drop (match po with None => 0 | Some _ => 1 end) (lits c).

Record linv stk (confl : Reason) (po : option Lit) (index pathC : nat) L s : Prop := {
  li_ai : ai stk s;
  li_frame : aframe s0 s;
  li_th : th_state index stk (theory s);
  li_index : index ≤ length (trail (asg s));
  li_seen : seen_ok T D n le (seen s) index L;
  li_count : pathC = length (act (seen s) index);
  li_cleanup cr : cr ∈ cleanup s → is_Some (mem_of (db s) !! cr);
  li_confl : ∃ cr c, confl = CRef_at cr ∧ mem_of (db s) !! cr = Some c
    ∧ (c_learnt c = true → ∀ q, q ∈ lits c → lit_not q ∈ trail (asg s) ∨ q ∈ trail (asg s))
    ∧ (∀ q, q ∈ pending po c → lit_not q ∈ take index T)
    ∧ (∀ σ, kmodel K σ → (∃ q, q ∈ pending po c ∧ lit_value σ q = true) ∨ blamed T D le (seen s) index L σ)
    ∧ (0 < pathC ∨ ∃ q, q ∈ pending po c ∧ le (var q) = D);
}.

(** After the last round. *)
Record ldone stk p L s : Prop := {
  ld_ai : ai stk s;
  ld_frame : aframe s0 s;
  ld_p : ∃ i, T !! i = Some p ∧ le (var p) = D ∧ i ≤ length (trail (asg s)) ∧ th_state (S i) stk (theory s);
  ld_length : length (seen s) = n;
  ld_seen v : seen s !! v = Some true ↔ v ∈ var <$> L;
  ld_lower q : q ∈ L → lit_not q ∈ T ∧ 0 < le (var q) < D;
  ld_nodup : NoDup (var <$> L);
  ld_cleanup cr : cr ∈ cleanup s → is_Some (mem_of (db s) !! cr);
  ld_entails : entails K (lit_not p :: L);
}.

Lemma nonempty_elem {A} (l : list A) : 0 < length l → ∃ x, x ∈ l.
Proof. destruct l as [|x l]; cbn; [lia|]. intros _. exists x. by left. Qed.

Lemma frame_base s : aframe s0 s → same_base D n le s.
Proof. intros [E1 E2 E3 _ _ _ _]. constructor; [done|unfold decisionLevel; by rewrite E3|done]. Qed.
Lemma frame_take s i : aframe s0 s → i ≤ length (trail (asg s)) → take i (trail (asg s)) = take i T.
Proof. intros Fr Hi. destruct (af_trail _ _ Fr) as [t ->]. by rewrite take_app_le. Qed.
Lemma frame_lookup s i : aframe s0 s → i < length (trail (asg s)) → trail (asg s) !! i = T !! i.
Proof. intros Fr Hi. destruct (af_trail _ _ Fr) as [t ->]. by rewrite lookup_app_l. Qed.

Lemma fact_entails stk s q : ai stk s → aframe s0 s → lit_not q ∈ trail (asg s) → le (var q) = 0 → entails K [lit_not q].
Proof.
  intros [M _] Fr Hq Hz. apply (ci_fact _ _ _ _ _ (mi_core _ _ _ _ _ M)); [done|]. by rewrite var_not, (af_lv _ _ Fr).
Qed.

(** The position of the last literal seen, which is of the current level. *)
Lemma active_last sn index k p : asg_ok (asg s0) → act sn index ≠ [] → index ≤ length T → k < index → T !! k = Some p → sn !! var p = Some true →
  (∀ l u, k < l < index → T !! l = Some u → sn !! var u ≠ Some true) →
  le (var p) = D ∧ act sn index = act sn k ++ [p].
Proof.
  intros A Hne Hlen Hk Hp Hs Hlast. assert (le (var p) = D) as El.
  { destruct (act sn index) as [|t l] eqn:Ea; [done|]. assert (t ∈ act sn index) as Ht by (rewrite Ea; by left).
    apply elem_active in Ht as [[Hts Htl] [j [Hj Hjt]%take_lookup_inv]%list_elem_of_lookup].
    destruct (decide (j ≤ k)) as [Hjk|Hjk]; [|exfalso; apply (Hlast j t); [lia|done..]].
    pose proof (ao_levels A j t Hjt). pose proof (ao_levels A k p Hp). pose proof (level_at_mono (trail_lim (asg s0)) j k Hjk).
    pose proof (lv_le (asg s0) p A ltac:(by eapply list_elem_of_lookup_2)). lia. }
  split; [done|]. unfold active. assert (take index T = take k T ++ p :: drop (S k) (take index T)) as E.
  { rewrite <- (take_drop_middle (take index T) k p) at 1 by by rewrite lookup_take_lt. by rewrite take_take, Nat.min_l by lia. }
  rewrite E, filter_app, filter_cons_True by done. do 2 f_equal. apply filter_none. intros t [j Hj]%list_elem_of_lookup [Ht _].
  rewrite lookup_drop in Hj. apply take_lookup_inv in Hj as [Hj Hjt]. by apply (Hlast (S k + j) t); [lia|..].
Qed.

(** The literal at [k] is no longer seen. *)
Lemma active_clear sn k v : (∀ t, t ∈ take k T → var t ≠ v) → act (<[v := false]> sn) k = act sn k.
Proof.
  intros Hv. unfold active. apply Prelude.filter_ext_in. intros t Ht. by rewrite list_lookup_insert_ne by (apply not_eq_sym; by apply Hv).
Qed.

Lemma th_state_mono i j stk th : th_state j stk th → i ≤ j → th_state i stk th.
Proof. intros [?|[? ?]] Hi; [by left|right]. split; [done|lia]. Qed.

(** The reason that is resolved with next, from the theory if need be. *)
Lemma next_reason_ok stk s k p m : ai stk s → aframe s0 s → k < length (trail (asg s)) → T !! k = Some p → le (var p) = D → th_state m stk (theory s) → k < m →
  ∃ s' stk', (if bool_decide (rs (asg s) (var p) = CRef_Fake) then theory_reason p s else Ok s) = Ok s'
    ∧ ai stk' s' ∧ aframe s s' ∧ th_state (S k) stk' (theory s') ∧ seen s' = seen s ∧ k ≤ length (trail (asg s'))
    ∧ (∀ cr, cr ∈ cleanup s' → cr ∈ cleanup s ∨ is_Some (mem_of (db s') !! cr))
    ∧ (rs (asg s') (var p) = CRef_Undef ∧ (∀ j t, j < k → T !! j = Some t → le (var t) < D)
       ∨ ∃ cr c ps, rs (asg s') (var p) = CRef_at cr ∧ mem_of (db s') !! cr = Some c ∧ lits c = p :: ps ∧ (∀ q, q ∈ ps → lit_not q ∈ take k T)
         ∧ (c_learnt c = true → ∀ q, q ∈ lits c → lit_not q ∈ trail (asg s') ∨ q ∈ trail (asg s'))).
Proof.
  intros Ai Fr Hk Hp Hl Hth Hkm. pose proof (ai_mid _ _ _ _ _ Ai) as M. assert (trail (asg s) !! k = Some p) as Hp' by by rewrite (frame_lookup s k Fr Hk).
  destruct (frame_base s Fr) as [En Edl Elv]. pose proof (frame_take s k Fr (Nat.lt_le_incl _ _ Hk)) as Etk.
  pose proof (ci_reason _ _ _ _ _ (mi_core _ _ _ _ _ M) k p Hp') as HR. unfold reason_ok in HR. destruct (rs (asg s) (var p)) as [| |cr] eqn:Er.
  - rewrite bool_decide_false by done. exists s, stk. split; [done|]. split; [done|]. split; [done|]. split; [by apply (th_state_mono _ m); [|lia]|]. split; [done|].
    split; [lia|]. split; [by left|]. left. split; [done|]. rewrite Elv in HR. destruct HR as [Hz|HR]; [lia|]. rewrite (af_lims _ _ Fr), Hl in HR.
    intros j t Hj Ht. pose proof (proj1 (lower_position (asg s0) j t (D - 1) k A0 Ht HR) Hj). lia.
  - rewrite bool_decide_true by done.
    destruct (theory_reason_ok K Kn As stk s k p m Ai Hp') as (s' & cr & c & ps & -> & A' & F' & Et & Hth' & Er' & Hc & Elr & El & Hps & Es & Ec); try done; [by rewrite Elv, Edl|by rewrite Edl|].
    exists s', (take k stk). split; [done|]. split; [done|]. split; [done|]. split; [by left|]. split; [done|].
    split; [rewrite Et, length_take; lia|]. split.
    + intros cr' Hin. rewrite Ec in Hin. apply elem_of_app in Hin as [?|Hin%list_elem_of_singleton]; [by left|right]. subst cr'. by exists c.
    + right. exists cr, c, ps. rewrite <- Etk. split; [done|]. split; [done|]. split; [done|]. split; [done|]. congruence.
  - rewrite bool_decide_false by done. exists s, stk. split; [done|]. split; [done|]. split; [done|]. split; [by apply (th_state_mono _ m); [|lia]|]. split; [done|].
    split; [lia|]. split; [by left|]. right. destruct HR as (c & ps & Hc & El & Hps). exists cr, c, ps. rewrite <- Etk. split; [done|]. split; [done|]. split; [done|]. split; [done|].
    intros _ q Hq. rewrite El in Hq. apply elem_of_cons in Hq as [->|Hq]; [right; by eapply list_elem_of_lookup_2|left]. eapply take_sub. by apply Hps.
Qed.

(** The literals of [index] and later are not seen. *)
Lemma analyze_round_ok stk confl po index top pathC L s : linv stk confl po index pathC L s → index ≤ top ≤ length (trail (asg s)) →
  wp no_error (λ r, match r with
    | inl (confl', p', index', pathC', L', s') => index' < top ∧ ∃ stk', linv stk' confl' p' index' pathC' L' s'
    | inr (p', L', s') => ∃ stk', ldone stk' p' L' s' end) (analyze_round (confl, po, top, pathC, L, s)).
Proof.
  intros Hl Htop. revert Hl.
  intros [Ai Fr Th0 Hidx Hseen Hcount Hclean (cr & c & -> & Hc & Hlearnt & Hneg & Hsem & Hcur)]. unfold analyze_round.
  destruct (bump_learnt_ok K Kn As stk s cr c Ai Hc Hlearnt) as (s1 & -> & A1 & F1 & Ea1 & Et1 & Es1 & Ec1). cbn [rbind].
  destruct (af_mem _ _ F1 cr c Hc) as (c1 & Hc1 & E1). rewrite (clause_at_ok cr c1) by done. cbn [rbind]. rewrite E1. fold (pending po c).
  assert (aframe s0 s1) as Fr1 by by etrans.
  destruct (visit_literals_ok K Kn As T D n le (ao_nodup A0) (λ t Ht, lv_le _ _ A0 Ht) D_pos stk index (pending po c) L s1 A1 (frame_base _ Fr1))
    as (L2 & s2 & Ev & A2 & F2 & Ea2 & Et2 & Ec2 & Ed2 & S2 & Hsem2 & Hact2 & Hcur2).
  { intros q Hq. pose proof (Hneg q Hq) as Hn. split; [done|]. rewrite <- (frame_take s index Fr Hidx) in Hn. apply take_sub in Hn as Hn'. split.
    - rewrite <- (var_not q). apply (ao_vars A0). destruct (af_trail _ _ Fr) as [u ->]. apply elem_of_app. by left.
    - by apply (fact_entails stk s). }
  { by rewrite Es1. }
  rewrite Es1 in *. rewrite <- Hcount in Ev. rewrite Ev. cbn [rbind]. assert (aframe s0 s2) as Fr2 by by etrans.
  assert (act (seen s2) index ≠ []) as Hne.
  { intros E. destruct Hcur as [Hp|(q & Hq & Hl)].
    - destruct (nonempty_elem (act (seen s) index)) as [t Ht]; [lia|]. pose proof (Hact2 t Ht) as Hin. rewrite E in Hin. by apply elem_of_nil in Hin.
    - pose proof (Hcur2 q Hq Hl) as Hin. rewrite E in Hin. by apply elem_of_nil in Hin. }
  destruct (nonempty_elem (act (seen s2) index)) as [t0 Ht0]; [destruct (act (seen s2) index); [done|cbn; lia]|].
  apply elem_active in Ht0 as [[Ht0s Ht0l] [j [Hj Hjt]%take_lookup_inv]%list_elem_of_lookup].
  assert (asg s2 = asg s) as Eas by (by rewrite Ea2). assert (index ≤ length (trail (asg s2))) as Hidx2 by by rewrite Eas.
  destruct (last_seen_ok (seen s2) (trail (asg s2)) top j t0) as (k & p' & Els & Hk & Hsk & Hjt2 & Hlast); [|by rewrite (frame_lookup s2 j Fr2) by (rewrite Eas; lia)|done|lia|rewrite Eas; lia|].
  { intros q Hq. rewrite (se_length _ _ _ _ _ _ _ S2). apply (ao_vars A0). destruct (af_trail _ _ Fr2) as [u ->]. apply elem_of_app. by left. }
  rewrite Els. cbn [rbind].
  assert (T !! k = Some p') as HkT by (rewrite <- (frame_lookup s2 k Fr2) by (rewrite Eas; lia); done).
  assert (j ≤ k < index) as Hjk.
  { split; [lia|]. destruct (decide (k < index)) as [|Hge]; [done|]. exfalso. destruct (se_seen _ _ _ _ _ _ _ S2 (var p') Hsk) as [(t & Ht & Et)|(q & Eq & Hq)%list_elem_of_fmap].
    - apply elem_active in Ht as [_ [i [Hi Hit]%take_lookup_inv]%list_elem_of_lookup]. pose proof (trail_index_inj (asg s0) i k t p' A0 Hit HkT Et). lia.
    - destruct (se_lower _ _ _ _ _ _ _ S2 q Hq) as (_ & _ & Hlq). rewrite <- Eq in Hlq. rewrite (ao_levels A0 k p' HkT) in Hlq. rewrite (ao_levels A0 j t0 Hjt) in Ht0l.
      pose proof (level_at_mono (trail_lim (asg s0)) j k). lia. }
  assert (index ≤ length T) as HidxT by (destruct (af_trail _ _ Fr2) as [u ->]; rewrite length_app; lia).
  destruct (active_last (seen s2) index k p' A0) as [Hlk Hactk]; [done|done|lia|done|done| |].
  { intros l u Hl Hu. apply (Hlast l u); [lia|]. by rewrite (frame_lookup s2 l Fr2) by lia. }
  (* the literal is not the first of the trail *)
  assert (∀ x, trail_lim (asg s0) !! (D - 1) = Some x → x ≤ k) as Hlimk.
  { intros x Hx. destruct (decide (x ≤ k)) as [|Hxk]; [done|]. pose proof (proj1 (lower_position (asg s0) k p' (D - 1) x A0 HkT Hx) ltac:(lia)). lia. }
  destruct (lookup_lt_is_Some_2 (trail_lim (asg s0)) (D - 1)) as [x Hx]; [unfold decisionLevel in *; lia|].
  assert (1 ≤ k) as Hk1 by (pose proof (lims_pos x ltac:(by eapply list_elem_of_lookup_2)); pose proof (Hlimk x Hx); lia).
  rewrite (proj2 (Nat.ltb_lt 0 k)) by lia. cbn [check rbind]. unfold at_. rewrite Hk. cbn [rbind].
  assert (p' ∈ trail (asg s2)) as Hp2 by by eapply list_elem_of_lookup_2. pose proof (ai_mid _ _ _ _ _ A2) as M2. pose proof (mi_asg _ _ _ _ _ M2) as As2.
  rewrite reason_of_ok by by apply (ao_vars As2). cbn [rbind].
  assert (length (act (seen s2) index) = S (length (act (seen s2) k))) as Hcnt by (rewrite Hactk, length_app; cbn; lia). rewrite Hcnt.
  destruct (next_reason_ok stk s2 k p' index A2 Fr2) as (s3 & stk3 & -> & A3 & F3 & Hth3 & Es3 & Hk3 & Hcl3 & Hcase); [lia|done|done|by rewrite Et2, Et1|lia|]. cbn [rbind].
  assert (aframe s0 s3) as Fr3 by by etrans. destruct (frame_base s3 Fr3) as [En3 Edl3 Elv3]. assert (var p' < n) as Hpn by (apply (ao_vars A0); by eapply list_elem_of_lookup_2).
  rewrite reason_of_ok by by rewrite En3. cbn [rbind].
  assert (∀ t, t ∈ take k T → var t ≠ var p') as Hkp.
  { intros t [i [Hi Hit]%take_lookup_inv]%list_elem_of_lookup E. pose proof (trail_index_inj (asg s0) i k t p' A0 Hit HkT E). lia. }
  assert ((S (length (act (seen s2) k)) =? 1) || negb (bool_decide (rs (asg s3) (var p') = CRef_Undef)) = true) as ->.
  { destruct Hcase as [[-> Hlow]|(cr3 & c3 & ps3 & -> & _)]; [|by rewrite orb_true_r]. apply orb_true_iff. left. apply Nat.eqb_eq. f_equal.
    destruct (act (seen s2) k) as [|t l] eqn:Ea; [done|]. assert (t ∈ act (seen s2) k) as Ht by (rewrite Ea; by left).
    apply elem_active in Ht as [[_ Htl] [i [Hi Hit]%take_lookup_inv]%list_elem_of_lookup]. pose proof (Hlow i t Hi Hit). lia. }
  cbn [check rbind]. unfold upd. rewrite Es3. rewrite (proj2 (Nat.ltb_lt _ _)) by by rewrite (se_length _ _ _ _ _ _ _ S2). cbn [rbind].
  destruct (ainv_seen K Kn As stk3 s3 (<[var p' := false]> (seen s2)) A3) as [A4 F4]. set (s4 := set_seen _ s3) in *. assert (aframe s0 s4) as Fr4 by by etrans.
  assert (length (<[var p' := false]> (seen s2)) = n) as Hlen4 by (rewrite length_insert; apply S2).
  assert (∀ v, <[var p' := false]> (seen s2) !! v = Some true ↔ v ≠ var p' ∧ seen s2 !! v = Some true) as Hclr.
  { intros v. destruct (decide (v = var p')) as [->|Hv]; [rewrite list_lookup_insert_eq by (by rewrite (se_length _ _ _ _ _ _ _ S2)); naive_solver|].
    rewrite list_lookup_insert_ne by done. naive_solver. }
  assert (∀ q, q ∈ L2 → var q ≠ var p') as HLp.
  { intros q Hq E. destruct (se_lower _ _ _ _ _ _ _ S2 q Hq) as (_ & _ & Hlq). rewrite E, Hlk in Hlq. lia. }
  assert (act (<[var p' := false]> (seen s2)) k = act (seen s2) k) as Eact by by apply active_clear.
  assert (∀ cr', cr' ∈ cleanup s4 → is_Some (mem_of (db s4) !! cr')) as Hclean4.
  { intros cr' [Hin|?]%Hcl3; [|done]. rewrite Ec2, Ec1 in Hin. destruct (Hclean cr' Hin) as [x' Hx']. destruct (af_mem s s4) with cr' x' as (y & Hy & _); [|done|by exists y].
    etrans; [exact F1|]. etrans; [exact F2|]. by etrans. }
  assert (∀ σ, kmodel K σ → blamed T D le (seen s2) index L2 σ) as Hbl.
  { intros σ Hσ. apply Hsem2; [done|]. by apply Hsem. }
  destruct (Nat.ltb_spec 1 (S (length (act (seen s2) k)))) as [Hmore|Hmore]; cbn [wp].
  - destruct Hcase as [[_ Hlow]|(cr3 & c3 & ps3 & -> & Hc3 & El3 & Hps3 & Hlr3)].
    { exfalso. destruct (nonempty_elem (act (seen s2) k)) as [t Ht]; [lia|]. apply elem_active in Ht as [[_ Htl] [i [Hi Hit]%take_lookup_inv]%list_elem_of_lookup].
      pose proof (Hlow i t Hi Hit). lia. }
    split; [lia|]. exists stk3. constructor; try done.
    + by apply (th_state_mono _ (S k)); [|lia].
    + constructor; cbn [seen s4 set_seen]; [done| | |apply S2].
      * intros v [Hv Hsv]%Hclr. destruct (se_seen _ _ _ _ _ _ _ S2 v Hsv) as [(t & Ht & Et)|?]; [left|by right]. exists t. split; [|done]. rewrite Eact.
        rewrite Hactk in Ht. apply elem_of_app in Ht as [?|Ht%list_elem_of_singleton]; [done|]. subst t. done.
      * intros q Hq. destruct (se_lower _ _ _ _ _ _ _ S2 q Hq) as (Hsq & ?). split; [|done]. apply Hclr. split; [by apply HLp|done].
    + cbn [seen s4 set_seen]. rewrite Eact. lia.
    + exists cr3, c3. split; [done|]. split; [done|]. split; [done|]. unfold pending. rewrite El3. cbn [drop]. rewrite drop_0. split; [done|]. split; [|left; lia].
      intros σ Hσ. cbn [seen s4 set_seen]. destruct (Hbl σ Hσ) as [(q & Hq & Hqt)|(t & Ht & Htf)]; [right; left; by exists q|]. rewrite Hactk in Ht.
      apply elem_of_app in Ht as [Ht|Ht%list_elem_of_singleton]; [right; right; exists t; by rewrite Eact|]. subst t.
      destruct (proj1 (entails_iff K (p' :: ps3)) ltac:(rewrite <- El3; exact (ci_entailed _ _ _ _ _ (mi_core _ _ _ _ _ (ai_mid _ _ _ _ _ A3)) cr3 c3 Hc3)) σ Hσ) as (q & [->|Hq]%elem_of_cons & Hqt); [congruence|].
      left. by exists q.
  - exists stk3. assert (act (seen s2) k = []) as Enil by (destruct (act (seen s2) k); [done|cbn in Hmore; lia]). constructor; try done.
    + exists k. done.
    + intros v. cbn [seen s4 set_seen]. rewrite Hclr. split.
      * intros [Hv Hsv]. destruct (se_seen _ _ _ _ _ _ _ S2 v Hsv) as [(t & Ht & Et)|?]; [|done]. rewrite Hactk, Enil in Ht. apply list_elem_of_singleton in Ht. by subst t.
      * intros (q & -> & Hq)%list_elem_of_fmap. split; [by apply HLp|]. by apply (se_lower _ _ _ _ _ _ _ S2).
    + intros q Hq. by apply (se_lower _ _ _ _ _ _ _ S2).
    + apply S2.
    + apply entails_iff. intros σ Hσ. destruct (Hbl σ Hσ) as [(q & Hq & Hqt)|(t & Ht & Htf)]; [exists q; split; [by right|done]|].
      rewrite Hactk, Enil in Ht. apply list_elem_of_singleton in Ht. subst t. exists (lit_not p'). split; [by left|]. by rewrite lit_value_not, Htf.
Qed.

(** The whole loop, from a clause that is false and has a literal of the current
    level. *)
Lemma analyze_loop_ok stk m cr c : ai stk s0 → m ≤ length T → th_state m stk (theory s0) → seen s0 = replicate n false → cleanup s0 = [] →
  mem_of (db s0) !! cr = Some c → (∀ q, q ∈ lits c → lit_not q ∈ take m T) → (∃ q, q ∈ lits c ∧ le (var q) = D) →
  ∃ p L s stk', while (nAssigns (asg s0)) analyze_round (CRef_at cr, None, nAssigns (asg s0), 0, [], s0) = Ok (p, L, s) ∧ ldone stk' p L s.
Proof.
  intros Ai Hm Hth Hs Hcl Hc Hf Hcur.
  assert (wp no_error (λ r, ∃ stk', ldone stk' r.1.1 r.1.2 r.2) (while (nAssigns (asg s0)) analyze_round (CRef_at cr, None, nAssigns (asg s0), 0, [], s0))) as W.
  { apply (while_wp no_error _ (λ st : Reason * option Lit * nat * nat * list Lit * Solver F Th, ∃ stk i, linv stk st.1.1.1.1.1 st.1.1.1.1.2 i st.1.1.2 st.1.2 st.2 ∧ i ≤ st.1.1.1.2 ≤ length (trail (asg st.2))) (λ st, st.1.1.1.2)).
    - intros [[[[[confl po] top] pathC] L] s] (stk1 & i & Hl & Hi). cbn [fst snd] in Hl, Hi. eapply wp_mono; [by apply (analyze_round_ok stk1 confl po i)|].
      intros [[[[[[confl' po'] index'] pathC'] L'] s']|[[p' L'] s']]; [|done]. intros (? & stk2 & Hl2). split; [|done]. exists stk2, index'. split; [done|]. split; [done|]. cbn [fst snd]. exact (li_index _ _ _ _ _ _ _ Hl2).
    - exists stk, m. cbn [fst snd]. split; [|done]. assert (∀ i, act (seen s0) i = []) as Ea.
      { intros i. unfold active. apply filter_none. intros t _ [Ht _]. rewrite Hs in Ht. apply lookup_replicate in Ht as [? _]. done. }
      constructor; try done.
      + constructor; [by rewrite Hs, length_replicate| | |by apply NoDup_nil_2].
        * intros v Hv. rewrite Hs in Hv. apply lookup_replicate in Hv as [? _]. done.
        * intros q Hq. by apply elem_of_nil in Hq.
      + by rewrite Ea.
      + intros k Hk. rewrite Hcl in Hk. by apply elem_of_nil in Hk.
      + exists cr, c. unfold pending. rewrite drop_0. split; [done|]. split; [done|]. split; [intros _ q Hq; left; eapply take_sub; by apply Hf|]. split; [|split; [|by right]].
        * intros q Hq. by apply Hf.
        * intros σ Hσ. left. apply (proj1 (entails_iff K (lits c))); [|done]. exact (ci_entailed _ _ _ _ _ (mi_core _ _ _ _ _ (ai_mid _ _ _ _ _ Ai)) cr c Hc).
    - cbn [fst snd]. apply Nat.pow_gt_lin_r. lia. }
  apply wp_total in W as ([[p L] s] & E & stk' & Hd). by exists p, L, s, stk'.
Qed.

End loop.
End learn.
