(* ===== verification/SatConflict.v ===== *)
(** * The SAT solver: minimization of the learnt clause

    Literals that follow from the others by the reasons of the assignment are
    left out: what is left still follows from the original clauses. *)
From S2P Require Import Prelude Sort NatSet SatLits Terms Heap SatData SatCore SatSpec SatPropagate SatInv SatAnalyze SatResolve.
From stdpp Require Import gmap.
From Stdlib Require Import Lia.

#[local] Open Scope nat_scope.

(** Clearing the marks of the variables of some literals. *)
Lemma unmark_ok n (qs : list Lit) (sn : list bool) : length sn = n → (∀ q, q ∈ qs → var q < n) →
  ∃ sn', foldM (λ sn q, upd sn (var q) false) sn qs = Ok sn' ∧ length sn' = n ∧ ∀ v, sn' !! v = if decide (v ∈ var <$> qs) then Some false else sn !! v.
Proof.
  revert sn. induction qs as [|q qs IH]; intros sn Hl Hq; cbn [foldM]; [exists sn; split; [done|]; split; [done|]; intros v; by rewrite decide_False by (by intros ?%elem_of_nil)|].
  unfold upd at 1. rewrite Hl, (proj2 (Nat.ltb_lt _ _)) by (apply Hq; by left). cbn [rbind].
  destruct (IH (<[var q := false]> sn)) as (sn2 & -> & Hl2 & Hv); [by rewrite length_insert|intros; apply Hq; by right|]. exists sn2. split; [done|]. split; [done|].
  intros v. rewrite Hv. destruct (decide (v ∈ var <$> qs)) as [Hvq|Hvq]; [by rewrite decide_True by (rewrite fmap_cons; by right)|].
  destruct (decide (v = var q)) as [->|Hne].
  - rewrite list_lookup_insert_eq by (rewrite Hl; apply Hq; by left). by rewrite decide_True by (rewrite fmap_cons; by left).
  - rewrite list_lookup_insert_ne by done. rewrite decide_False; [done|]. rewrite fmap_cons. by intros [?|?]%elem_of_cons.
Qed.

Section minimize.
Context {F Th : Type} `{DoubleLaws F} `{THandlerLaws Th}.
Context (K : list (list Lit)) (Kn : Var → Prop) (As : list Lit).
Implicit Types (s : Solver F Th) (p q t : Lit) (v : Var) (stk ps qs L : list Lit) (sn : list bool).
Abbreviation ai := (ainv K Kn As).

(** The solver, and what of it changes. *)
Context (s0 : Solver F Th) (stk0 : list Lit).
Abbreviation a := (asg s0).
Abbreviation n := (nVars (asg s0)).
Abbreviation m := (mem_of (db s0)).
Hypothesis A0 : ai stk0 s0.
Definition with_seen sn (tc : list Lit) : Solver F Th := set_toclear tc (set_seen sn s0).

Lemma asg0 : asg_ok a.
Proof. apply (ai_mid _ _ _ _ _ A0). Qed.
Lemma core0 : core_inv K (known Kn) (explained stk0 (theory s0)) a m.
Proof. apply (ai_mid _ _ _ _ _ A0). Qed.

(** The variable got its value by a clause whose other literals were seen, or are
    false by facts. *)
Definition justified sn v : Prop := ∃ i t ps, trail a !! i = Some t ∧ var t = v ∧ entails K (t :: ps) ∧
  ∀ q, q ∈ ps → lit_not q ∈ take i (trail a) ∧ (sn !! var q = Some true ∨ lv a (var q) = 0).

Lemma justified_mono sn sn' v : (∀ w, sn !! w = Some true → sn' !! w = Some true) → justified sn v → justified sn' v.
Proof. intros Hs (i & t & ps & ? & ? & ? & Hps). exists i, t, ps. repeat (split; [done|]). intros q Hq. destruct (Hps q Hq) as [? [?|?]]; split; auto. Qed.

(** A literal whose variable was seen: it is false, above level 0. *)
Definition seen_literal sn q : Prop := lit_not q ∈ trail a ∧ sn !! var q = Some true.

Lemma seen_range sn q : lit_not q ∈ trail a → var q < n.
Proof. intros Hq. rewrite <- var_not. by apply (ao_vars asg0). Qed.

(** *** The search for reasons *)

(** From the seen variables [sn0] and the literals [tc0] to clear, with [p] first on
    the stack; the literal in [hole] is the one whose reason is looked at. *)
Record rinv sn0 (tc0 : list Lit) p (hole stack : list Lit) sn (tc : list Lit) : Prop := {
  ri_length : length sn = n;
  ri_extra : ∃ extra, tc = tc0 ++ extra ∧ (∀ v, sn !! v = Some true ↔ sn0 !! v = Some true ∨ v ∈ var <$> extra) ∧ (∀ v, v ∈ var <$> extra → sn0 !! v ≠ Some true)
    ∧ ∀ q, q ∈ extra → var q < n;
  ri_stack q : q ∈ stack → lit_not q ∈ trail a ∧ rs a (var q) ≠ CRef_Undef ∧ 0 < lv a (var q);
  ri_seen v : sn !! v = Some true → sn0 !! v = Some true ∨ v ∈ var <$> hole ++ stack ∨ justified sn v;
  ri_first : var p ∈ var <$> hole ++ stack ∨ justified sn (var p);
}.

Definition unseen sn : nat := length (filter (λ v, sn !! v ≠ Some true) (seq 0 n)).

Lemma unseen_mark sn v : length sn = n → v < n → sn !! v ≠ Some true → S (unseen (<[v := true]> sn)) = unseen sn.
Proof.
  intros Hl Hv Hs. unfold unseen. assert (∀ l, NoDup l → (v ∈ l → S (length (filter (λ w, <[v := true]> sn !! w ≠ Some true) l)) = length (filter (λ w, sn !! w ≠ Some true) l))
    ∧ (v ∉ l → length (filter (λ w, <[v := true]> sn !! w ≠ Some true) l) = length (filter (λ w, sn !! w ≠ Some true) l))) as Hf.
  { induction l as [|w l IH]; intros N; [split; [|done]; by intros ?%elem_of_nil|]. apply NoDup_cons in N as [Hw N]. destruct (IH N) as [IH1 IH2]. rewrite !filter_cons.
    destruct (decide (w = v)) as [->|Hne].
    - rewrite (decide_False (P := <[v:=true]> sn !! v ≠ Some true)) by (intros E; apply E; by rewrite list_lookup_insert_eq by lia). rewrite decide_True by done.
      split; [intros _; rewrite length_cons; by rewrite IH2|]. intros Hn. exfalso. apply Hn. by left.
    - assert (<[v:=true]> sn !! w = sn !! w) as E by (by apply list_lookup_insert_ne). rewrite !E.
      destruct (decide (sn !! w ≠ Some true)); rewrite ?length_cons; (split; [intros [?|Hin]%elem_of_cons; [congruence|]|intros Hn; apply not_elem_of_cons in Hn as [_ Hn]]).
      all: first [by rewrite IH1|by rewrite IH2]. }
  apply (Hf (seq 0 n)); [apply NoDup_ListNoDup, seq_NoDup|]. apply elem_of_seq. lia.
Qed.

Lemma forget_from_ok sn0 tc0 p hole stack sn tc : rinv sn0 tc0 p hole stack sn tc → length sn0 = n →
  forget_from (length tc0) (with_seen sn tc) = Ok (with_seen sn0 tc0).
Proof.
  intros [Hl (extra & -> & Hin & Hnew & Hr) _ _ _] L0. unfold forget_from. cbn [seen analyze_toclear with_seen set_toclear set_seen].
  rewrite drop_app_length, take_app_length.
  destruct (unmark_ok n extra sn Hl Hr) as (sn2 & -> & Hl2 & Hv). cbn [rbind]. do 2 f_equal. unfold with_seen, set_toclear, set_seen. cbn. f_equal.
  apply list_eq. intros v. rewrite Hv. destruct (decide (v < n)) as [Hvn|Hvn].
  2:{ rewrite (lookup_ge_None_2 sn0) by lia. destruct (decide _) as [(q & -> & Hq)%list_elem_of_fmap|_]; [by apply Hr in Hq|]. apply lookup_ge_None. lia. }
  destruct (lookup_lt_is_Some_2 sn0 v) as [b0 Hb0]; [lia|]. destruct (lookup_lt_is_Some_2 sn v) as [b Hb]; [lia|]. rewrite Hb0, Hb.
  pose proof (Hin v) as Hin'. rewrite Hb0, Hb in Hin'. destruct (decide (v ∈ var <$> extra)) as [He|He].
  - specialize (Hnew v He). rewrite Hb0 in Hnew. by destruct b0.
  - destruct b, b0; naive_solver.
Qed.

Lemma push_var v (hole stack : list Lit) q : v ∈ var <$> hole ++ stack → v ∈ var <$> hole ++ q :: stack.
Proof. rewrite !fmap_app, fmap_cons, !elem_of_app, elem_of_cons. tauto. Qed.

Lemma redundant_literals_ok al sn0 tc0 p hole qs : ∀ stack sn tc, rinv sn0 tc0 p hole stack sn tc → (∀ q, q ∈ qs → lit_not q ∈ trail a) →
  ∃ stack' sn' tc' (failed : bool), foldM (redundant_literal al) (stack, with_seen sn tc, false) qs = Ok (stack', with_seen sn' tc', failed)
    ∧ rinv sn0 tc0 p hole stack' sn' tc' ∧ (∀ q, q ∈ stack → q ∈ stack') ∧ length stack' + unseen sn' = length stack + unseen sn
    ∧ (∀ v, sn !! v = Some true → sn' !! v = Some true) ∧ (failed = false → ∀ q, q ∈ qs → sn' !! var q = Some true ∨ lv a (var q) = 0).
Proof.
  induction qs as [|q qs IH]; intros stack sn tc RI Hqs; cbn [foldM].
  { exists stack, sn, tc, false. repeat (split; [done|]). intros _ q Hq. by apply elem_of_nil in Hq. }
  assert (∀ s qs, foldM (redundant_literal al) (stack, s, true) qs = Ok (stack, s, true)) as Hfail.
  { intros s qs'. induction qs' as [|q' qs' IH']; [done|]. exact IH'. }
  pose proof (Hqs q ltac:(by left)) as Hq. pose proof (seen_range sn q Hq) as Hqn. assert (∀ q0, q0 ∈ qs → lit_not q0 ∈ trail a) as Hqs' by (intros; apply Hqs; by right).
  unfold redundant_literal at 1. cbn [seen with_seen set_toclear set_seen asg].
  destruct (lookup_lt_is_Some_2 sn (var q)) as [b Hb]; [by rewrite (ri_length _ _ _ _ _ _ _ RI)|]. unfold at_. rewrite Hb. cbn [rbind].
  rewrite level_of_ok by done. cbn [rbind]. destruct (negb b && (0 <? lv a (var q))) eqn:Ec.
  2:{ cbn [rbind]. destruct (IH stack sn tc RI Hqs') as (stack' & sn' & tc' & failed & E & RI' & Hst & Hmu & Hm & Hok). exists stack', sn', tc', failed.
      repeat (split; [done|]). intros Hf u [->|Hu]%elem_of_cons; [|by apply Hok]. apply andb_false_iff in Ec as [Ec|Ec%Nat.ltb_ge]; [left; apply Hm; by destruct b|right; lia]. }
  apply andb_true_iff in Ec as [Eb%negb_true_iff Elv%Nat.ltb_lt]. subst b. rewrite reason_of_ok by done. cbn [rbind]. unfold abstractLevel. rewrite level_of_ok by done. cbn [rbind].
  destruct (negb (bool_decide (rs a (var q) = CRef_Undef)) && _) eqn:Ec.
  2:{ cbn [rbind]. exists stack, sn, tc, true. rewrite Hfail. repeat (split; [done|]). done. }
  apply andb_true_iff in Ec as [Er%negb_true_iff%bool_decide_eq_false _]. unfold upd. rewrite (ri_length _ _ _ _ _ _ _ RI), (proj2 (Nat.ltb_lt _ _) Hqn). cbn [rbind].
  set (sn1 := <[var q := true]> sn). assert (∀ v, sn1 !! v = Some true ↔ v = var q ∨ sn !! v = Some true) as Hsn1.
  { intros v. unfold sn1. rewrite seen_lookup; [done|]. pose proof (ri_length _ _ _ _ _ _ _ RI). lia. }
  assert (∀ v, sn !! v = Some true → sn1 !! v = Some true) as Hm1 by (intros v Hv; apply Hsn1; by right).
  assert (rinv sn0 tc0 p hole (q :: stack) sn1 (tc ++ [q])) as RI1.
  { destruct RI as [Hl (extra & -> & Hin & Hnew & Hr) Hst Hsn Hp]. constructor.
    - unfold sn1. by rewrite length_insert.
    - exists (extra ++ [q]). split; [by rewrite app_assoc|]. split; [|split].
      + intros v. rewrite Hsn1, Hin, fmap_app, elem_of_app. change (var <$> [q]) with [var q]. rewrite list_elem_of_singleton. tauto.
      + intros v Hv. rewrite fmap_app in Hv. apply elem_of_app in Hv as [?|Hv%list_elem_of_singleton]; [by apply Hnew|]. subst v. intros E. rewrite (proj2 (Hin (var q)) (or_introl E)) in Hb. done.
      + intros u [?|Hu%list_elem_of_singleton]%elem_of_app; [by apply Hr|by subst u].
    - intros u [->|?]%elem_of_cons; [done|by apply Hst].
    - intros v [->|Hv]%Hsn1; [right; left; rewrite fmap_app; apply elem_of_app; right; by left|].
      destruct (Hsn v Hv) as [?|[?|?]]; [by left|right; left; by apply push_var|right; right; by eapply justified_mono].
    - destruct Hp as [?|?]; [left; by apply push_var|right; by eapply justified_mono]. }
  destruct (IH (q :: stack) sn1 (tc ++ [q]) RI1 Hqs') as (stack' & sn' & tc' & failed & E & RI' & Hst & Hmu & Hm & Hok). exists stack', sn', tc', failed.
  split; [exact E|]. split; [done|]. split; [intros u Hu; apply Hst; by right|]. split.
  { pose proof (unseen_mark sn (var q) (ri_length _ _ _ _ _ _ _ RI) Hqn ltac:(congruence)) as Hu. fold sn1 in Hu. cbn [length] in Hmu. lia. }
  split; [by intros v Hv; apply Hm, Hm1|]. intros Hf u [->|Hu]%elem_of_cons; [left; apply Hm, Hsn1; by left|by apply Hok].
Qed.

Lemma rinv_pop sn0 tc0 p q stack sn tc : rinv sn0 tc0 p [] (q :: stack) sn tc → rinv sn0 tc0 p [q] stack sn tc.
Proof. intros [? ? Hst ? ?]. constructor; try done. intros u Hu. apply Hst. by right. Qed.

(** The reason of the literal off the stack is done. *)
Lemma rinv_close sn0 tc0 p q stack sn tc : rinv sn0 tc0 p [q] stack sn tc → justified sn (var q) → rinv sn0 tc0 p [] stack sn tc.
Proof.
  intros [? ? ? Hsn Hp] Hj. constructor; try done.
  - intros v Hv. destruct (Hsn v Hv) as [?|[[->|?]%elem_of_cons|?]]; [by left|by right; right|right; by left|by right; right].
  - destruct Hp as [[->|?]%elem_of_cons|?]; [by right|by left|by right].
Qed.

Hypothesis cfg : cfg_ok (config s0).

(** The result of the search: whether the literal is implied by others. *)
Definition redundant_post sn0 (tc0 : list Lit) p (r : bool * Solver F Th) : Prop := ∃ sn tc extra, r.2 = with_seen sn tc ∧ tc = tc0 ++ extra ∧ length sn = n
  ∧ (∀ v, sn0 !! v = Some true → sn !! v = Some true) ∧ (∀ v, sn !! v = Some true → sn0 !! v = Some true ∨ v ∈ var <$> extra ∧ justified sn v)
  ∧ (∀ q, q ∈ extra → var q < n) ∧ (r.1 = true → justified sn (var p)).

Lemma redundant_round_ok al sn0 tc0 p stack sn tc : length sn0 = n → sat_minimize_conflicts (config s0) = 1%Z → rinv sn0 tc0 p [] stack sn tc →
  wp no_error (λ r, match r with
    | inl (stack', s') => ∃ sn' tc', s' = with_seen sn' tc' ∧ rinv sn0 tc0 p [] stack' sn' tc' ∧ length stack' + unseen sn' < length stack + unseen sn
    | inr r => redundant_post sn0 tc0 p r end) (redundant_round al (length tc0) (stack, with_seen sn tc)).
Proof.
  intros L0 Em RI. unfold redundant_round. destruct stack as [|q stack].
  - exists sn, tc. destruct RI as [Hl (extra & -> & Hin & Hnew & Hr) _ Hsn Hp]. exists extra. cbn [snd fst]. split; [done|]. split; [done|]. split; [done|].
    split; [intros v Hv; apply Hin; by left|]. split; [|split; [done|intros _]].
    + intros v Hv. destruct (Hsn v Hv) as [?|[?%elem_of_nil|Hj]]; [by left|done|]. apply Hin in Hv as [?|?]; [by left|by right].
    + destruct Hp as [?%elem_of_nil|?]; done.
  - destruct (ri_stack _ _ _ _ _ _ _ RI q ltac:(by left)) as (Hq & Hr & Hlv). pose proof (seen_range sn q Hq) as Hqn. cbn [asg config with_seen set_toclear set_seen].
    rewrite reason_of_ok by done. cbn [rbind]. rewrite bool_decide_false by done. cbn [negb check rbind]. rewrite Em. cbn [Z.leb Z.compare Pos.compare Pos.compare_cont andb].
    rewrite Z.eqb_refl. cbn [check rbind]. pose proof (forget_from_ok sn0 tc0 p [] (q :: stack) sn tc RI L0) as Hforget. cbn [with_seen] in Hforget.
    assert (redundant_post sn0 tc0 p (false, with_seen sn0 tc0)) as Hgiveup.
    { exists sn0, tc0, []. cbn [fst snd]. rewrite app_nil_r. repeat (split; [done|]). split; [by left|]. split; [by intros ? ?%elem_of_nil|done]. }
    pose proof (rinv_pop _ _ _ _ _ _ _ RI) as RP. apply list_elem_of_lookup in Hq as [i Hi]. pose proof (ci_reason _ _ _ _ _ core0 i _ Hi) as HR.
    unfold reason_ok in HR. rewrite var_not in HR. destruct (rs a (var q)) as [| |cr] eqn:Er; [done| |].
    + fold (with_seen sn tc). rewrite (forget_from_ok sn0 tc0 p [] (q :: stack) sn tc RI L0). exact Hgiveup.
    + destruct HR as (c & ps & Hc & Elc & Hps). change (clause_at cr (db (with_seen sn tc))) with (clause_at cr (db s0)). rewrite (clause_at_ok cr c) by done. cbn [rbind]. rewrite Elc.
      change (drop 1 (lit_not q :: ps)) with (drop 0 ps). rewrite drop_0.
      destruct (redundant_literals_ok al sn0 tc0 p [q] ps stack sn tc RP) as (stack' & sn' & tc' & failed & -> & RI' & _ & Hmu & Hm & Hok).
      { intros u Hu. eapply take_sub. by apply Hps. }
      cbn [rbind]. destruct failed.
      * rewrite (forget_from_ok sn0 tc0 p [q] stack' sn' tc' RI' L0). exact Hgiveup.
      * exists sn', tc'. split; [done|]. split; [|cbn [length]; lia]. apply (rinv_close _ _ _ q); [done|]. exists i, (lit_not q), ps.
        split; [done|]. split; [apply var_not|]. split; [rewrite <- Elc; exact (ci_entailed _ _ _ _ _ core0 cr c Hc)|]. intros u Hu. split; [by apply Hps|by apply Hok].
Qed.

Lemma litRedundant_ok al p sn tc : length sn = n → lit_not p ∈ trail a → rs a (var p) ≠ CRef_Undef → 0 < lv a (var p) →
  ∃ r, litRedundant p al (with_seen sn tc) = Ok r ∧ redundant_post sn tc p r.
Proof.
  intros Hl Hp Hr Hlv. unfold litRedundant. destruct cfg as (_ & Hm & _). cbn [config with_seen set_toclear set_seen asg analyze_toclear].
  destruct (Z.leb_spec (sat_minimize_conflicts (config s0)) 0) as [Hz|Hz].
  - exists (false, with_seen sn tc). split; [done|]. exists sn, tc, []. cbn [fst snd]. rewrite app_nil_r. repeat (split; [done|]). split; [by left|]. split; [by intros ? ?%elem_of_nil|done].
  - apply wp_total. apply (while_wp no_error _ (λ st : list Lit * Solver F Th, ∃ sn' tc', st.2 = with_seen sn' tc' ∧ rinv sn tc p [] st.1 sn' tc')
      (λ st, length st.1 + unseen (seen st.2))).
    + intros [stack s] (sn' & tc' & Es & RI). cbn [fst snd] in *. subst s. eapply wp_mono; [by apply redundant_round_ok; [|lia|]|].
      intros [[stack' s']|r]; [|done]. intros (sn2 & tc2 & -> & RI2 & Hmu). split; [by exists sn2, tc2|done].
    + exists sn, tc. split; [done|]. constructor; [done| | | |].
      * exists []. split; [by rewrite app_nil_r|]. split; [|split; by intros ? ?%elem_of_nil]. intros v. split; [by left|]. intros [?|?%elem_of_nil]; done.
      * intros q ->%list_elem_of_singleton. done.
      * by left.
      * left. by left.
    + cbn [fst snd length seen with_seen set_toclear set_seen]. assert (unseen sn ≤ n) as Hu by (unfold unseen; etrans; [apply length_filter|]; by rewrite length_seq).
      apply Nat.le_lt_trans with (S n); [lia|]. apply Nat.pow_gt_lin_r. lia.
Qed.

End minimize.

(** * The SAT solver: the result of the analysis

    [analyze] returns, from a clause that is false, a clause that follows from the
    original ones in the theory, whose first literal is the only one of the
    current level, and the level at which that literal is implied. *)

Section conflict.
Context {F Th : Type} `{DoubleLaws F} `{THandlerLaws Th}.
Context (K : list (list Lit)) (Kn : Var → Prop) (As : list Lit).
Implicit Types (s : Solver F Th) (p q t : Lit) (v : Var) (stk ps qs L kept pre : list Lit) (sn : list bool).
Abbreviation ai := (ainv K Kn As).

(** *** Minimization *)

Section minimize.
Context (s0 : Solver F Th) (stk0 : list Lit).
Abbreviation a := (asg s0).
Abbreviation n := (nVars (asg s0)).
Hypothesis A0 : ai stk0 s0.
Abbreviation ws := (with_seen s0).
Abbreviation just := (justified K s0).

Lemma implied_values sn L kept σ : (∀ q, q ∈ L → lit_not q ∈ trail a ∧ sn !! var q = Some true) → (∀ q, q ∈ kept → q ∈ L) →
  (∀ v, sn !! v = Some true → v ∈ var <$> kept ∨ just sn v) → kmodel K σ → (∀ q, q ∈ kept → lit_value σ q = false) →
  ∀ i t, trail a !! i = Some t → sn !! var t = Some true → lit_value σ t = true.
Proof.
  intros HL Hk Hs Hσ Hf. pose proof (asg0 K Kn As s0 stk0 A0) as A. induction i as [i IH] using (well_founded_ind lt_wf). intros t Ht Hst.
  destruct (Hs (var t) Hst) as [(q & Ev & Hq)%list_elem_of_fmap|(j & u & ps & Hu & Ev & E & Hps)].
  - assert (lit_not q = t) as <-; [|by rewrite lit_value_not, Hf]. apply (trail_var_inj a); [done|by apply HL, Hk|by eapply list_elem_of_lookup_2|by rewrite var_not].
  - pose proof (trail_index_inj a j i u t A Hu Ht Ev) as ->. assert (u = t) as -> by congruence.
    destruct (proj1 (entails_iff K (t :: ps)) E σ Hσ) as (q & [->|Hq]%elem_of_cons & Hqt); [done|]. exfalso. destruct (Hps q Hq) as [[k [Hki Hkt]%take_lookup_inv]%list_elem_of_lookup Hor].
    destruct Hor as [Hsq|Hz].
    + pose proof (IH k Hki (lit_not q) Hkt ltac:(by rewrite var_not)) as Hv. rewrite lit_value_not, Hqt in Hv. done.
    + pose proof (ci_fact _ _ _ _ _ (core0 K Kn As s0 stk0 A0) (lit_not q) ltac:(by eapply list_elem_of_lookup_2) ltac:(by rewrite var_not)) as Ef.
      destruct (proj1 (entails_iff K [lit_not q]) Ef σ Hσ) as (u & Hu'%list_elem_of_singleton & Hut). subst u. rewrite lit_value_not, Hqt in Hut. done.
Qed.

Lemma minimal_entails sn L kept x : (∀ q, q ∈ L → lit_not q ∈ trail a ∧ sn !! var q = Some true) → (∀ q, q ∈ kept → q ∈ L) →
  (∀ v, sn !! v = Some true → v ∈ var <$> kept ∨ just sn v) → entails K (x :: L) → entails K (x :: kept).
Proof.
  intros HL Hk Hs E. apply entails_iff. intros σ Hσ. destruct (clause_true σ kept) eqn:Hno.
  - apply clause_true_iff in Hno as (q & Hq & Hqt). exists q. split; [by right|done].
  - exists x. split; [by left|]. destruct (proj1 (entails_iff K (x :: L)) E σ Hσ) as (q & [->|Hq]%elem_of_cons & Hqt); [done|]. exfalso.
    destruct (HL q Hq) as [[i Hi]%list_elem_of_lookup Hsq].
    assert (lit_value σ (lit_not q) = true) as Hv.
    { apply (implied_values sn L kept σ HL Hk Hs Hσ) with i; [|done|by rewrite var_not]. intros u Hu. destruct (lit_value σ u) eqn:Eu; [|done]. by rewrite (proj2 (clause_true_iff σ kept)) in Hno by (by exists u). }
    rewrite lit_value_not, Hqt in Hv. done.
Qed.

Hypothesis cfg : cfg_ok (config s0).

(** What is left of the literals, and what was seen on the way. *)
Record minimized sn0 (tc0 : list Lit) pre kept sn (tc : list Lit) : Prop := {
  mz_sublist : kept `sublist_of` pre;
  mz_length : length sn = n;
  mz_tc : ∃ extra, tc = tc0 ++ extra ∧ (∀ q, q ∈ extra → var q < n) ∧ ∀ v, sn !! v = Some true → sn0 !! v = Some true ∨ v ∈ var <$> extra ∧ just sn v;
  mz_mono v : sn0 !! v = Some true → sn !! v = Some true;
  mz_removed q : q ∈ pre → q ∈ kept ∨ just sn (var q);
}.

Lemma minimize_deep_ok al L sn0 tc0 : length sn0 = n → (∀ q, q ∈ L → lit_not q ∈ trail a ∧ 0 < lv a (var q)) →
  ∃ kept sn tc, foldM (minimize_deep al) ([], ws sn0 tc0) L = Ok (kept, ws sn tc) ∧ minimized sn0 tc0 L kept sn tc.
Proof.
  intros L0 HL. assert (wp no_error (λ st : list Lit * Solver F Th, ∃ sn tc, st.2 = ws sn tc ∧ minimized sn0 tc0 L st.1 sn tc)
    (foldM (minimize_deep al) ([], ws sn0 tc0) L)) as W.
  { apply (foldM_wp no_error _ (λ pre _ st, ∃ sn tc, st.2 = ws sn tc ∧ minimized sn0 tc0 pre st.1 sn tc)).
    - exists sn0, tc0. split; [done|]. constructor; [done|done| |done|by intros ? ?%elem_of_nil]. exists []. rewrite app_nil_r. split; [done|].
      split; [by intros ? ?%elem_of_nil|by left].
    - intros pre q post [kept s] EL (sn & tc & Es & Z). cbn [fst snd] in *. subst s. destruct Z as [Zs Zl (extra & -> & Zr & Zn) Zm Zd].
      destruct (HL q) as [Hq Hlv]; [rewrite EL; apply elem_of_app; right; by left|]. pose proof (seen_range K Kn As s0 stk0 A0 sn q Hq) as Hqn.
      unfold minimize_deep. cbn [snd asg with_seen set_toclear set_seen]. rewrite reason_of_ok by done. cbn [rbind].
      destruct (bool_decide_reflect (rs a (var q) = CRef_Undef)) as [Er|Er].
      + exists sn, (tc0 ++ extra). split; [done|]. constructor; [by apply sublist_app|done|by exists extra|done|].
        intros u [Hu|Ho%list_elem_of_singleton]%elem_of_app; [|subst u; left; apply elem_of_app; right; by left].
        destruct (Zd u Hu); [left; apply elem_of_app; by left|by right].
      + destruct (litRedundant_ok K Kn As s0 stk0 A0 cfg al q sn (tc0 ++ extra) Zl Hq Er Hlv) as ([b s'] & El & sn' & tc' & extra' & Es & -> & Hl' & Hm' & Hn' & Hr' & Hb).
        fold (ws sn (tc0 ++ extra)). rewrite El. cbn [rbind fst snd wp] in *. subst s'. exists sn', ((tc0 ++ extra) ++ extra'). split; [done|].
        assert (kept `sublist_of` pre ++ [q]) as Hsub by (by apply sublist_inserts_r). constructor.
        * destruct b; [done|by apply sublist_app].
        * done.
        * exists (extra ++ extra'). split; [by rewrite app_assoc|]. split; [intros u [?|?]%elem_of_app; auto|]. intros v Hv. rewrite fmap_app, elem_of_app.
          destruct (Hn' v Hv) as [Hv'|[? ?]]; [|by right; split; [right|]]. destruct (Zn v Hv') as [?|[? ?]]; [by left|right; split; [by left|by eapply justified_mono]].
        * intros v Hv. by apply Hm', Zm.
        * intros u [Hu|Ho%list_elem_of_singleton]%elem_of_app; [|subst u].
          -- destruct (Zd u Hu); [left; destruct b; [done|apply elem_of_app; by left]|right; by eapply justified_mono].
          -- destruct b; [right; by apply Hb|left; apply elem_of_app; right; by left]. }
  apply wp_total in W as ([kept s] & E & sn & tc & Es & Z). cbn [fst snd] in *. subst s. by exists kept, sn, tc.
Qed.

Lemma minimize_ok p L tc0 sn0 : length sn0 = n → (∀ v, sn0 !! v = Some true ↔ v ∈ var <$> L) → (∀ q, q ∈ L → lit_not q ∈ trail a ∧ 0 < lv a (var q)) →
  entails K (lit_not p :: L) →
  ∃ kept sn extra, minimize p L (ws sn0 tc0) = Ok (lit_not p :: kept, ws sn (tc0 ++ extra)) ∧ kept `sublist_of` L ∧ length sn = n
    ∧ (∀ q, q ∈ extra → var q < n) ∧ (∀ v, sn !! v = Some true → v ∈ var <$> L ∨ v ∈ var <$> extra) ∧ entails K (lit_not p :: kept).
Proof.
  intros L0 Hs HL E. assert (∀ q, q ∈ L → var q < n) as Hr by (intros q Hq; apply (seen_range K Kn As s0 stk0 A0 sn0), HL, Hq).
  unfold minimize. cbn [config with_seen set_toclear set_seen asg]. destruct (Z.eqb_spec (ccmin_mode (config s0)) 2) as [_|_].
  - assert (∀ ps l, (∀ q, q ∈ ps → var q < n) → ∃ l', foldM (λ l q, let! al := abstractLevel a (var q) in Ok (Z.lor l al)) l ps = Ok l') as Hf.
    { induction ps as [|q ps IH]; intros l Hps; cbn [foldM]; [by exists l|]. unfold abstractLevel at 1. rewrite level_of_ok by (apply Hps; by left). cbn [rbind].
      apply IH. intros; apply Hps; by right. }
    destruct (Hf L 0%Z Hr) as [al ->]. cbn [rbind]. fold (ws sn0 tc0). destruct (minimize_deep_ok al L sn0 tc0 L0 HL) as (kept & sn & tc & -> & [Zs Zl (extra & -> & Zr & Zn) Zm Zd]).
    cbn [rbind fst snd]. exists kept, sn, extra. split; [done|]. split; [done|]. split; [done|]. split; [done|]. split.
    + intros v Hv. destruct (Zn v Hv) as [?%Hs|[? _]]; auto.
    + apply (minimal_entails sn L kept); [|by intros q Hq; eapply elem_of_sublist| |done].
      * intros q Hq. split; [by apply HL|]. apply Zm, Hs. by apply list_elem_of_fmap_2.
      * intros v Hv. destruct (Zn v Hv) as [(q & -> & Hq)%Hs%list_elem_of_fmap|[_ ?]]; [|by right]. destruct (Zd q Hq); [left; by apply list_elem_of_fmap_2|by right].
  - destruct (Z.eqb_spec (ccmin_mode (config s0)) 1) as [E1|_]; [by destruct cfg as (_ & _ & ? & _)|]. exists L, sn0, []. rewrite app_nil_r. split; [done|]. split; [done|]. split; [done|].
    split; [by intros ? ?%elem_of_nil|]. split; [|done]. intros v Hv. left. by apply Hs.
Qed.

End minimize.

(** *** The level to go back to *)

Lemma max_level_ok a ps : asg_ok a → (∀ q, q ∈ ps → var q < nVars a) → 2 ≤ length ps →
  ∃ m p, max_level_at a ps = Ok m ∧ 1 ≤ m ∧ ps !! m = Some p ∧ ∀ i q, 1 ≤ i → ps !! i = Some q → lv a (var q) ≤ lv a (var p).
Proof.
  intros A Hr Hl. unfold max_level_at.
  assert (∀ k m p j, ps !! m = Some p → 1 ≤ m → 2 ≤ j → j + k = length ps → (∀ i q, 1 ≤ i < j → ps !! i = Some q → lv a (var q) ≤ lv a (var p)) →
    ∃ m' p', foldM (λ max_i i, let! p := at_ ps i in let! q := at_ ps max_i in let! l := level_of a (var p) in let! m := level_of a (var q) in
      Ok (if m <? l then i else max_i)) m (seq j k) = Ok m' ∧ 1 ≤ m' ∧ ps !! m' = Some p' ∧ ∀ i q, 1 ≤ i → ps !! i = Some q → lv a (var q) ≤ lv a (var p')) as Hf.
  { induction k as [|k IH]; intros m p j Hm Hm1 Hj Hk Hmax; cbn [seq foldM].
    - exists m, p. split; [done|]. split; [done|]. split; [done|]. intros i q Hi Hq. apply (Hmax i q); [|done]. apply lookup_lt_Some in Hq as Hqi. lia.
    - destruct (lookup_lt_is_Some_2 ps j) as [q Hq]; [lia|]. unfold at_ at 1 2. rewrite Hq, Hm. cbn [rbind].
      rewrite !level_of_ok by (apply Hr; by eapply list_elem_of_lookup_2). cbn [rbind]. destruct (Nat.ltb_spec (lv a (var p)) (lv a (var q))) as [Hlt|Hge].
      + apply (IH j q); [done|lia..|]. intros i u Hi Hu. destruct (decide (i = j)) as [->|]; [by assert (u = q) as -> by congruence|]. etrans; [apply (Hmax i u); [lia|done]|lia].
      + apply (IH m p); [done|lia..|]. intros i u Hi Hu. destruct (decide (i = j)) as [->|]; [by assert (u = q) as -> by congruence|]. apply (Hmax i u); [lia|done]. }
  destruct (lookup_lt_is_Some_2 ps 1) as [p Hp]; [lia|]. destruct (Hf (length ps - 2) 1 p 2) as (m & p' & E & ? & ? & ?); [done|lia..| |by exists m, p'].
  intros i q Hi Hq. assert (i = 1) as -> by lia. by assert (q = p) as -> by congruence.
Qed.

(** The first literal stays, and the level is the highest of the others. *)
Lemma backtrack_level_ok a x ps : asg_ok a → (∀ q, q ∈ x :: ps → var q < nVars a) →
  ∃ qs l, backtrack_level a (x :: ps) = Ok (x :: qs, l) ∧ qs ≡ₚ ps
    ∧ match qs with [] => l = 0 | q :: _ => l = lv a (var q) ∧ ∀ u, u ∈ qs → lv a (var u) ≤ l end.
Proof.
  intros A Hr. unfold backtrack_level. destruct ps as [|y ps]; [by exists [], 0|]. cbn [length Nat.eqb].
  destruct (max_level_ok a (x :: y :: ps) A Hr) as (m & p & -> & Hm & Hp & Hmax); [cbn; lia|]. cbn [rbind]. unfold at_ at 1 2. rewrite Hp. cbn [lookup list_lookup rbind].
  pose proof (lookup_lt_Some _ _ _ Hp) as Lm. unfold upd. rewrite (proj2 (Nat.ltb_lt _ _) Lm). cbn [rbind]. rewrite length_insert.
  rewrite (proj2 (Nat.ltb_lt 1 _)) by (cbn; lia). cbn [rbind]. rewrite level_of_ok by (apply Hr; by eapply list_elem_of_lookup_2). cbn [rbind].
  destruct m as [|m]; [lia|]. cbn [lookup list_lookup] in Hp. set (qs := <[0 := p]> (<[m := y]> (y :: ps))).
  assert (<[1 := p]> (<[S m := y]> (x :: y :: ps)) = x :: qs) as -> by done.
  assert (qs ≡ₚ y :: ps) as P.
  { unfold qs. destruct (decide (m = 0)) as [->|Hne]; [cbn in Hp |- *; by injection Hp as ->|].
    rewrite (list_insert_insert_ne _ 0 m) by done. by apply (Permutation_insert_swap (y :: ps) 0 m y p). }
  exists qs, (lv a (var p)). split; [done|]. split; [done|]. destruct qs as [|q qs'] eqn:Eq; [by apply Permutation_nil_cons in P|].
  assert (q = p) as -> by (unfold qs in Eq; cbn in Eq; destruct m; cbn in Eq; congruence). split; [done|]. intros u Hu. rewrite P in Hu.
  apply list_elem_of_lookup in Hu as [i Hi]. apply (Hmax (S i) u); [lia|done].
Qed.

(** *** The analysis *)

Lemma free_all_ok n (d : Database F) crs : dbok n d → (∀ cr, cr ∈ crs → is_Some (mem_of d !! cr)) →
  ∃ d', foldM (λ d cr, free_clause cr d) d crs = Ok d' ∧ same_db d d'.
Proof.
  revert d. induction crs as [|cr crs IH]; intros d D Hin; cbn [foldM]; [by exists d|]. destruct (Hin cr ltac:(by left)) as [c Hc].
  destruct (free_clause_ok n d cr c D Hc) as (d1 & -> & S1). cbn [rbind]. destruct (IH d1) as (d2 & -> & S2).
  - by eapply same_db_ok.
  - intros k Hk. destruct (Hin k ltac:(by right)) as [x Hx]. destruct (same_lits_l _ _ _ _ (sd_mem _ _ S1) Hx) as (y & Hy & _). by exists y.
  - exists d2. split; [done|]. by etrans.
Qed.

Lemma all_false sn n : length sn = n → (∀ v, sn !! v ≠ Some true) → sn = replicate n false.
Proof.
  intros <- Hv. symmetry. apply replicate_as_Forall. split; [done|]. apply Forall_lookup. intros i b Hb. destruct b; [by apply Hv in Hb|done].
Qed.

Lemma sublist_vars kept L : kept `sublist_of` L → NoDup (var <$> L) → NoDup (var <$> kept).
Proof.
  induction 1 as [|q kept L Hs IH|q kept L Hs IH]; rewrite ?fmap_cons, ?NoDup_cons; [done| |by intros [? ?]; apply IH]. intros [Hq ?]. split; [|by apply IH].
  intros Hk. apply Hq. apply list_elem_of_fmap in Hk as (u & -> & Hu). apply list_elem_of_fmap_2. by eapply elem_of_sublist.
Qed.

(** What [analyze] returns for a conflict at level [D]: the literal [p] at
    position [i] of the trail is the only one of that level in the clause. *)
Record learned s i p qs bl : Prop := {
  ln_p : trail (asg s) !! i = Some p;
  ln_level : lv (asg s) (var p) = decisionLevel (asg s);
  ln_lower q : q ∈ qs → lit_not q ∈ trail (asg s) ∧ 0 < lv (asg s) (var q) < decisionLevel (asg s);
  ln_nodup : NoDup (var <$> qs);
  ln_back : match qs with [] => bl = 0 | q :: _ => bl = lv (asg s) (var q) ∧ ∀ u, u ∈ qs → lv (asg s) (var u) ≤ bl end;
  ln_entails : entails K (lit_not p :: qs);
}.

Lemma level_kept s s' i p q : asg_ok (asg s) → aframe s s' → trail (asg s) !! i = Some p → i ≤ length (trail (asg s')) → lit_not q ∈ trail (asg s) →
  lv (asg s) (var q) < lv (asg s) (var p) → lit_not q ∈ trail (asg s').
Proof.
  intros A Fr Hi Hlen [j Hj]%list_elem_of_lookup Hlt. assert (j < i) as Hji.
  { destruct (decide (j < i)) as [|Hge]; [done|]. exfalso. pose proof (ao_levels A j (lit_not q) Hj) as Ej. pose proof (ao_levels A i p Hi) as Ei. rewrite var_not in Ej.
    pose proof (level_at_mono (trail_lim (asg s)) i j). lia. }
  apply list_elem_of_lookup. exists j. rewrite <- (lookup_take_lt _ i) by lia. rewrite (frame_take s s' i Fr Hlen). by rewrite lookup_take_lt.
Qed.

Lemma analyze_ok stk s m cr c : conflict_inv K Kn As stk s → m ≤ length (trail (asg s)) → th_state m stk (theory s) → 0 < decisionLevel (asg s) →
  mem_of (db s) !! cr = Some c → (∀ q, q ∈ lits c → lit_not q ∈ take m (trail (asg s))) → (∃ q, q ∈ lits c ∧ lv (asg s) (var q) = decisionLevel (asg s)) →
  ∃ i p qs bl stk' s', analyze (CRef_at cr) s = Ok (lit_not p :: qs, bl, s') ∧ learned s i p qs bl ∧ conflict_inv K Kn As stk' s' ∧ aframe s s'
    ∧ i ≤ length (trail (asg s')) ∧ th_state (S i) stk' (theory s').
Proof.
  intros [M W Hs Hcl] Hm Hth HD Hc Hf Hcur. assert (ai stk s) as A by by constructor. pose proof (mi_asg _ _ _ _ _ M) as A0.
  destruct (analyze_loop_ok K Kn As s A0 HD ltac:(intros x Hx; by apply (mi_lims _ _ _ _ _ M)) stk m cr c A Hm Hth Hs Hcl Hc Hf Hcur) as (p & L & s1 & stk1 & E1 & [A1 F1 (i & Hi & Hip & Hlen & Hth1) Hsl Hsn HL HN Hcl1 Hent]).
  unfold analyze. rewrite bool_decide_eq_false_2 by done. cbn [negb check rbind]. rewrite bool_decide_eq_true_2 by done. cbn [check rbind].
  rewrite Hs, seen_clean. cbn [check rbind]. rewrite E1. cbn [rbind].
  assert (∀ q, q ∈ L → lit_not q ∈ trail (asg s1) ∧ 0 < lv (asg s1) (var q)) as HL1.
  { intros q Hq. destruct (HL q Hq) as [Hqt Hlv]. rewrite (af_lv _ _ F1). split; [|lia]. apply (level_kept s s1 i p); [done..|lia]. }
  destruct (minimize_ok s1 stk1 A1 (mi_cfg _ _ _ _ _ (ai_mid _ _ _ _ _ A1)) p L (lit_not p :: L) (seen s1)) as (kept & sn & extra & Em & Hsub & Hls & Hxr & Hsx & Hent2);
    [by rewrite (af_nVars _ _ F1)|done|done|done|].
  change (set_toclear (lit_not p :: L) s1) with (with_seen s1 (seen s1) (lit_not p :: L)). rewrite Em. cbn [rbind fst snd asg with_seen set_toclear set_seen].
  assert (∀ q, q ∈ lit_not p :: L → var q < nVars (asg s1)) as Hr.
  { rewrite (af_nVars _ _ F1). intros q [->|Hq]%elem_of_cons; [rewrite var_not; apply (ao_vars A0); by eapply list_elem_of_lookup_2|]. rewrite <- var_not. by apply (ao_vars A0), HL. }
  destruct (backtrack_level_ok (asg s1) (lit_not p) kept) as (qs & bl & -> & P & Hbl); [apply (ai_mid _ _ _ _ _ A1)| |].
  { intros q [->|Hq]%elem_of_cons; apply Hr; [by left|]. right. by eapply elem_of_sublist. }
  cbn [rbind fst snd seen analyze_toclear with_seen set_toclear set_seen]. destruct (unmark_ok (nVars (asg s1)) ((lit_not p :: L) ++ extra) sn) as (sn2 & -> & Hl2 & Hv2); [done| |].
  { intros q [Hq|Hq]%elem_of_app; [by apply Hr|by apply Hxr]. }
  cbn [rbind]. assert (sn2 = replicate (nVars (asg s1)) false) as ->.
  { apply all_false; [done|]. intros v. rewrite Hv2. destruct (decide _) as [_|Hn]; [done|]. intros Hv. apply Hn. rewrite fmap_app, fmap_cons, elem_of_app, elem_of_cons.
    destruct (Hsx v Hv); auto. }
  rewrite seen_clean. cbn [check rbind].
  destruct (free_all_ok (nVars (asg s1)) (db s1) (cleanup s1)) as (d & Ed & Sd); [apply (ai_mid _ _ _ _ _ A1)|done|].
  cbn [db cleanup set_seen set_toclear with_seen].
  match goal with |- context [foldM ?f ?x ?y] => change (foldM f x y) with (foldM (λ d cr, free_clause cr d) (db s1) (cleanup s1)) end. rewrite Ed. cbn [rbind].
  destruct (ainv_toclear K Kn As stk1 s1 ((lit_not p :: L) ++ extra) A1) as [A2 F2]. set (s2 := set_toclear _ s1) in *.
  destruct (ainv_seen K Kn As stk1 s2 (replicate (nVars (asg s1)) false) A2) as [A3 F3]. set (s3 := set_seen _ s2) in *.
  destruct (ainv_db K Kn As stk1 s3 d A3 Sd) as [A4 F4]. set (s4 := set_db d s3) in *. destruct (ainv_cleanup K Kn As stk1 s4 [] A4) as [[M5 W5] F5].
  exists i, p, qs, bl, stk1, (set_cleanup [] s4). split; [done|]. split; [|split; [|split; [|by split]]].
  - assert (∀ q, q ∈ qs → q ∈ L) as Hqs by (intros q Hq; eapply elem_of_sublist; [|done]; by rewrite <- P). constructor; try done.
    + intros q Hq. by apply HL, Hqs.
    + rewrite P. by eapply sublist_vars.
    + destruct qs as [|q qs]; [done|]. destruct Hbl as [-> Hbl]. rewrite (af_lv _ _ F1) in *. split; [done|]. intros u Hu. rewrite <- (af_lv _ _ F1). by apply Hbl.
    + eapply entails_perm; [|done]. by rewrite P.
  - by constructor.
  - etrans; [exact F1|]. etrans; [exact F2|]. etrans; [exact F3|]. by etrans.
Qed.

End conflict.
