(* ===== verification/SatLearnt.v ===== *)
(** * The SAT solver: adding clauses and literals

    A clause is attached, a literal enqueued: the invariant of the search holds
    again after a clause was learnt. *)
From S2P Require Import Prelude Sort NatSet SatLits Terms Heap SatData SatCore SatSpec SatPropagate SatInv SatAnalyze SatResolve SatConflict.
From stdpp Require Import gmap sorting.
From Stdlib Require Import Lia.

#[local] Open Scope nat_scope.

Section learnt.
Context {F Th : Type} `{DoubleLaws F} `{THandlerLaws Th}.
Context (K : list (list Lit)) (Kn : Var → Prop) (As : list Lit).
Implicit Types (s : Solver F Th) (a : Assignment) (d : Database F) (p q t : Lit) (v : Var) (stk ps qs : list Lit).
Abbreviation mid := (mid_inv K Kn As).

(** *** Attaching a clause *)

Lemma attach_ok a n d c cs ls : asg_ok a → nVars a = n → dbok n d → (∀ q, q ∈ lits c → var q < n) → c_mark c = 0 → (c_learnt c = true → c_extra c = true) →
  NoDup (var <$> lits c) → 2 ≤ length (lits c) → (∀ p q, lits c !! 0 = Some p → lits c !! 1 = Some q → lit_not p ∉ trail a ∨ lit_not q ∉ trail a) →
  cs ++ ls ≡ₚ length (mem_of d) :: attached d → (∀ k, k ∈ ls → k ∈ learnts d ∨ k = length (mem_of d) ∧ learnt_ok c) →
  ∃ d', attachClause a (length (mem_of d)) (set_clauses cs (set_learnts ls (grown d c))) = Ok d' ∧ dbok n d' ∧ mem_of d' = mem_of d ++ [c]
    ∧ clauses d' = cs ∧ learnts d' = ls.
Proof.
  intros A En D Hr Hm Hx N Hl Hf P Hls. set (cr := length (mem_of d)) in *.
  assert (dbok n (grown d c)) as Dg by by apply grown_ok.
  assert ((mem_of d ++ [c]) !! cr = Some c) as Hc by by apply list_lookup_middle.
  destruct (lits c) as [|c0 [|c1 rest]] eqn:El; [cbn in Hl; lia..|]. unfold attachClause.
  rewrite (clause_at_ok cr c) by done. cbn [rbind]. rewrite El. cbn [length Nat.ltb Nat.leb check rbind at_ lookup list_lookup].
  rewrite !value_ok by (try done; rewrite En; apply Hr; set_solver). cbn [rbind].
  assert (bool_decide (val (trail a) c0 ≠ l_False) || bool_decide (val (trail a) c1 ≠ l_False) = true) as ->.
  { specialize (Hf c0 c1 eq_refl eq_refl). rewrite <- !(val_false a) in Hf by done. repeat case_bool_decide; try done. tauto. }
  cbn [check rbind]. destruct d as [[m sz wt ex] [oc dt ds] cs0 ls0 x y z]. unfold dbok in *. cbn in D, Dg, cr, Hc, P, Hls |- *.
  assert (∀ q, q ∈ [c0; c1] → toInt (lit_not q) < length oc) as Hlen.
  { intros q Hq. rewrite (do_occs D). apply toInt_lt. rewrite var_not. apply Hr. set_solver. }
  rewrite watch_ok by (apply Hlen; by left). cbn [rbind]. rewrite watch_ok by (cbn; rewrite length_insert; apply Hlen; right; by left). cbn [rbind].
  pose proof (db_attach n (m ++ [c]) oc dt ds cs0 ls0 cs ls cr c c0 c1 Dg Hc Hm) as Da. rewrite El in Da. cbn in Da.
  assert (∀ p w, w ∈ list_at oc p → cref w ≠ cr) as Hfresh.
  { intros p w Hw E. destruct (watcher_index n m oc dt ds cs0 ls0 p w D Hw) as [k Hk]. apply lookup_lt_Some in Hk. unfold cr in E. lia. }
  assert (cr ∉ cs0 ++ ls0) as Hnew.
  { intros Hin. destruct (do_attached D cr Hin) as (k & Hk & _). apply lookup_lt_Some in Hk. unfold cr in Hk. lia. }
  specialize (Da N eq_refl eq_refl Hfresh P Hnew Hls). destruct (c_learnt c); eexists; (split; [done|]); by split.
Qed.

(** *** Enqueuing a literal *)

Lemma mid_enqueue stk s p from : mid stk s → var p < nVars (asg s) → val (trail (asg s)) p = l_Undef → known Kn (var p) →
  reason_ok (explained stk (theory s)) (enqueued p from (asg s)) (mem_of (db s)) (length (trail (asg s))) p → (decisionLevel (asg s) = 0 → entails K [p]) →
  (from = CRef_Undef → decisionLevel (asg s) = 0 ∨ p ∈ As ∨ length As < decisionLevel (asg s)) → mid stk (set_asg (enqueued p from (asg s)) s).
Proof.
  intros M Hp Hv Hk Hr Hz Has. pose proof (mi_asg _ _ _ _ _ M) as A. pose proof (extends_enqueued p from (asg s) A Hp Hv) as Ex.
  assert (trail (asg s) `prefix_of` trail (asg s) ++ [p]) as Hpre by by eexists.
  constructor; try apply M; cbn [asg db dec theory levelsInClause set_asg].
  - by apply enqueued_ok.
  - apply enqueue_inv; [done|apply M|done..].
  - rewrite enqueued_nVars. apply M.
  - rewrite enqueued_nVars. apply M.
  - intros v Hd Hvt. apply (mi_covers _ _ _ _ _ M); [done|]. intros Hin. apply Hvt. cbn [trail enqueued]. rewrite fmap_app. apply elem_of_app. by left.
  - intros k Hkk. destruct (mi_original _ _ _ _ _ M k Hkk) as [(q & Hq & Ht & Hl)|?]; [|by right]. left. exists q. split; [done|].
    destruct (ext_vars _ _ Ex q Ht) as [_ ->]. split; [|done]. apply elem_of_app. by left.
  - cbn [trail enqueued]. by destruct (trail (asg s)).
  - intros q [Hq|Hq%list_elem_of_singleton]%elem_of_app.
    + destruct (ext_vars _ _ Ex q Hq) as [-> ->]. by apply (mi_assumed _ _ _ _ _ M).
    + subst q. rewrite enqueued_rs_eq, enqueued_lv_eq by done. apply Has.
  - intros i q Hi Hlt. destruct (mi_taken _ _ _ _ _ M i q Hi Hlt) as [Hq Hl]. destruct (ext_vars _ _ Ex q Hq) as [_ ->]. split; [|done]. apply elem_of_app. by left.
  - rewrite enqueued_nVars. apply M.
  - cbn [trail enqueued]. etrans; [apply (mi_prefix _ _ _ _ _ M)|done].
  - rewrite enqueued_nVars. apply M.
Qed.

Lemma below_enqueue A (m : list (Clause F)) a p from : asg_ok a → var p < nVars a → val (trail a) p = l_Undef →
  watched_ok A m a (λ _ q, lit_not q ∈ take (qhead a) (trail a)) → watched_ok A m (enqueued p from a) (λ _ q, lit_not q ∈ take (qhead a) (trail a ++ [p])).
Proof.
  intros Aok Hp Hv W. rewrite take_app_le by apply (ao_qhead Aok). apply watched_enqueued; [done..|].
  intros cr q Hq E. rewrite E in Hq. apply take_sub in Hq. apply val_undef in Hv. apply Hv. by apply list_elem_of_fmap_2.
Qed.

Lemma taken_enqueue a p from n : asg_ok a → var p < nVars a → val (trail a) p = l_Undef → taken_upto As a n → taken_upto As (enqueued p from a) n.
Proof.
  intros A Hp Hv U i q Hi Hlt. destruct (U i q Hi Hlt) as [Hq Hl]. destruct (ext_vars _ _ (extends_enqueued p from a A Hp Hv) q Hq) as [_ ->].
  split; [|done]. apply elem_of_app. by left.
Qed.

(** A literal that the invariant allows to be true. *)
Lemma sinv_enqueue stk s p from : sinv K Kn As stk s → var p < nVars (asg s) → val (trail (asg s)) p = l_Undef → known Kn (var p) →
  reason_ok (explained stk (theory s)) (enqueued p from (asg s)) (mem_of (db s)) (length (trail (asg s))) p → (decisionLevel (asg s) = 0 → entails K [p]) →
  (from = CRef_Undef → decisionLevel (asg s) = 0 ∨ p ∈ As ∨ length As < decisionLevel (asg s)) → sinv K Kn As stk (set_asg (enqueued p from (asg s)) s).
Proof.
  intros [M T U W Hs Hc] Hp Hv Hk Hr Hz Has. pose proof (mi_asg _ _ _ _ _ M) as A. constructor; cbn [asg db theory seen cleanup set_asg]; try done.
  - by apply mid_enqueue.
  - by apply taken_enqueue.
  - by apply (below_enqueue (attached (db s)) (mem_of (db s)) (asg s) p from).
  - by rewrite enqueued_nVars.
Qed.

(** Another data base. *)
Lemma mid_db stk s d : mid stk s → dbok (nVars (asg s)) d → core_inv K (known Kn) (explained stk (theory s)) (asg s) (mem_of d) → original_ok K (asg s) d →
  (∀ cr c q, cr ∈ clauses d → mem_of d !! cr = Some c → q ∈ lits c → decision (dec s) !! var q = Some true) → mid stk (set_db d s).
Proof. intros M. by constructor; try apply M. Qed.

(** *** Learning *)

(** A clause whose other literals are false, the second one at the current level. *)
Record asserting stk s p qs : Prop := {
  at_inv : sinv K Kn As stk s;
  at_range : var p < nVars (asg s);
  at_undef : val (trail (asg s)) p = l_Undef;
  at_known : known Kn (var p);
  at_false q : q ∈ qs → lit_not q ∈ trail (asg s);
  at_first : match qs with [] => decisionLevel (asg s) = 0 | q :: _ => lv (asg s) (var q) = decisionLevel (asg s) ∧ 0 < decisionLevel (asg s) end;
  at_nodup : NoDup (var <$> qs);
  at_levels q : q ∈ p :: qs → lv (asg s) (var q) = 0 ∨ lv (asg s) (var q) < nat_set.get_domain (levelsInClause s);
  at_entails : entails K (p :: qs);
}.

Lemma learn_ok stk s p qs : asserting stk s p qs → ∃ s', learn (p :: qs) s = Ok s' ∧ sinv K Kn As stk s' ∧ ctl s' = ctl s.
Proof.
  intros [S Hp Hv Hk Hf Hfst N Hlv E]. pose proof (si_mid _ _ _ _ _ S) as M. pose proof (mi_asg _ _ _ _ _ M) as A.
  unfold learn. cbn [at_ lookup list_lookup rbind]. rewrite (value_ok (asg s) p A Hp), Hv. cbn [rbind]. rewrite bool_decide_true by done. cbn [check rbind].
  destruct qs as [|q qs].
  { cbn [length Nat.eqb]. rewrite enqueue_eq by done. cbn [rbind]. eexists. split; [done|]. split; [|done]. apply sinv_enqueue; try done; [|by left].
    unfold reason_ok. rewrite enqueued_rs_eq, enqueued_lv_eq by done. by left. }
  cbn [length Nat.eqb]. assert (∀ u, u ∈ p :: q :: qs → var u < nVars (asg s) ∧ known Kn (var u)) as Hr.
  { intros u [->|Hu%Hf]%elem_of_cons; [done|]. rewrite <- (var_not u). split; [by apply (ao_vars A)|by apply (mi_core _ _ _ _ _ M)]. }
  destruct (mi_levels _ _ _ _ _ M) as [Hil _].
  destruct (computeGlue_ok (p :: q :: qs) s) as (g & ls & -> & Hg & Hgl & Hil' & Hdl); [intros u Hu; split; [by apply Hr|by apply Hlv]|done|]. cbn [rbind fst snd].
  set (s1 := set_levels ls s). destruct (new_clause_ok (p :: q :: qs) true g (db s1) ltac:(lia)) as (c & -> & Ec & Hm & _ & Hx). destruct (Hx eq_refl) as [Hxe Hxg]. cbn [rbind fst snd].
  assert (var p ∉ var <$> q :: qs) as Np.
  { intros (u & Eu & Hu)%list_elem_of_fmap. apply val_undef in Hv. apply Hv. rewrite Eu, <- var_not. apply list_elem_of_fmap_2. by apply Hf. }
  assert (NoDup (var <$> lits c)) as Nc by (rewrite Ec, fmap_cons; by constructor).
  set (cr := length (mem_of (db s))). destruct (attach_ok (asg s) (nVars (asg s)) (db s) c (clauses (db s)) (learnts (db s) ++ [cr])) as (d1 & Ea & D1 & Em1 & Ecs1 & Els1); try done.
  { apply M. } { rewrite Ec. intros u Hu. by apply Hr. } { rewrite Ec. cbn. lia. }
  { rewrite Ec. intros u w [= <-] _. left. intros Hin. apply val_undef in Hv. apply Hv, var_in_trail. by right. }
  { rewrite (assoc (++)). symmetry. apply Permutation_cons_append. } { intros k [?|Hin%list_elem_of_singleton]%elem_of_app; [by left|right]. split; [done|]. split; [done|]. by rewrite Hxg, Ec. }
  match goal with |- context [attachClause ?x ?y ?z] => change (attachClause x y z) with (attachClause (asg s) (length (mem_of (db s)))
    (set_clauses (clauses (db s)) (set_learnts (learnts (db s) ++ [cr]) (grown (db s) c)))) end. rewrite Ea. cbn [rbind].
  assert (mem_of d1 !! cr = Some c) as Hc1 by (rewrite Em1; by apply list_lookup_middle).
  destruct (claBumpActivity_ok (nVars (asg s)) d1 cr c D1 Hc1 Hxe) as (d2 & Eb & S2). change (length (mem_of (db s1))) with cr. rewrite Eb. cbn [rbind].
  change (asg s1) with (asg s). rewrite enqueue_eq by done. cbn [rbind]. eexists. split; [done|]. split; [|done].
  pose proof (extends_enqueued p (CRef_at cr) (asg s) A Hp Hv) as Ex. destruct (same_lits_l _ _ _ _ (sd_mem _ _ S2) Hc1) as (c2 & Hc2 & E2 & _).
  assert (mid stk (set_levels ls s)) as M1 by (constructor; try apply M; split; [done|]; cbn; rewrite Hdl; apply M).
  assert (mid stk (set_db d2 s1)) as M2.
  { apply mid_db; [done|by eapply same_db_ok| | |].
    - eapply same_lits_core; [apply S2|]. rewrite Em1. apply grown_core; [apply M|by rewrite Ec|]. rewrite Ec. intros u Hu. by apply Hr.
    - eapply same_lits_original; [done|]. intros k Hkk. destruct (mi_original _ _ _ _ _ M k Hkk) as [?|(cr' & x & Hcr & Hxx & ?)]; [by left|right].
      exists cr', x. rewrite Ecs1, Em1. split; [done|]. split; [|done]. by apply lookup_app_l_Some.
    - intros k x u Hkk (x1 & Hx1 & Ex1 & _)%(same_lits_r _ _ _ _ (sd_mem _ _ S2)) Hu. rewrite (sd_clauses _ _ S2), Ecs1 in Hkk. rewrite Ex1 in Hu.
      rewrite Em1 in Hx1. apply lookup_app_Some in Hx1 as [Hx1|[Hl1 _]]; [by apply (mi_decided _ _ _ _ _ M k x1)|].
      pose proof (attached_lt (nVars (asg s)) (db s) k (mi_db _ _ _ _ _ M) ltac:(apply elem_of_app; by left)). lia. }
  constructor; cbn [asg db theory seen cleanup set_asg set_db s1 set_levels]; try apply S.
  - apply (mid_enqueue stk (set_db d2 s1) p (CRef_at cr) M2); try done; [|intros Hz; cbn [asg set_db s1 set_levels] in Hz; lia].
    unfold reason_ok. rewrite enqueued_rs_eq by done. exists c2, (q :: qs). rewrite E2. split; [done|]. split; [done|]. intros u Hu. cbn [trail enqueued asg set_db].
    rewrite take_app_length. by apply Hf.
  - apply taken_enqueue; try done. apply S.
  - unfold watched_below. rewrite (sd_clauses _ _ S2), (sd_learnts _ _ S2), Ecs1, Els1. eapply same_lits_watched; [apply S2|].
    assert (∀ k, k ∈ attached (db s) → k < cr) as Hlt by (intros k Hkk; by apply (attached_lt (nVars (asg s))); [apply M|]).
    intros k x j u HA Hkx Hj Hu Hn HP. rewrite (assoc (++)) in HA. apply elem_of_app in HA as [HA|HA%list_elem_of_singleton].
    { refine (below_enqueue (attached (db s)) (mem_of d1) (asg s) p (CRef_at cr) A Hp Hv _ k x j u HA Hkx Hj Hu Hn HP).
      rewrite Em1. apply grown_watched; [apply S|]. intros. by apply Hlt. }
    subst k. rewrite Em1 in Hkx. assert (x = c) as -> by (pose proof (list_lookup_middle (mem_of (db s)) [] c cr eq_refl); congruence). rewrite Ec in Hu |- *.
    assert (var q ≠ var p) as Hqp by (intros Eq; apply Np; rewrite <- Eq, fmap_cons; by left). assert (lit_not q ∈ trail (asg s)) as Hqt by (apply Hf; by left).
    destruct j as [|[|j]]; [|injection Hu as <-|lia].
    + injection Hu as <-. exfalso. cbn [trail enqueued] in Hn. apply elem_of_app in Hn as [Hn|Hn%list_elem_of_singleton]; [|by apply lit_not_ne in Hn].
      apply val_undef in Hv. apply Hv, var_in_trail. by right.
    + exists p. split; [by left|]. split; [apply elem_of_app; right; by left|]. rewrite enqueued_lv_eq, enqueued_lv_ne by done. lia.
  - rewrite enqueued_nVars. apply S.
Qed.

(** *** Going back to the level at which the learnt clause is unit *)

Lemma backjump_ok stk0 stk s s' i p qs bl : mid stk0 s → 0 < decisionLevel (asg s) → learned K s i p qs bl → conflict_inv K Kn As stk s' → aframe s s' →
  i ≤ length (trail (asg s')) → th_state (S i) stk (theory s') →
  ∃ s2 stk2, cancelUntil bl s' = Ok s2 ∧ asserting stk2 s2 (lit_not p) qs ∧ ctl s2 = ctl s.
Proof.
  intros M HD [Hip Hlp Hlow N Hbl E] CI Fr Hlen Hth. pose proof (mi_asg _ _ _ _ _ M) as A. pose proof (mi_asg _ _ _ _ _ (ki_mid _ _ _ _ _ CI)) as A'.
  assert (decisionLevel (asg s') = decisionLevel (asg s)) as ED by (unfold decisionLevel; by rewrite (af_lims _ _ Fr)).
  assert (bl < decisionLevel (asg s)) as Hb by (destruct qs as [|q qs]; [lia|]; destruct Hbl as [-> _]; apply Hlow; by left).
  destruct (lookup_lt_is_Some_2 (trail_lim (asg s')) bl) as [c Hc]; [unfold decisionLevel in *; lia|]. assert (trail_lim (asg s) !! bl = Some c) as Hc' by by rewrite <- (af_lims _ _ Fr).
  assert (c ≤ i) as Hci.
  { destruct (decide (c ≤ i)) as [|Hge]; [done|]. pose proof (proj1 (lower_position (asg s) i p bl c A Hip Hc') ltac:(lia)). lia. }
  destruct (cancelUntil_ok K Kn As bl c s' stk (S i) CI Hc Hth) as (s2 & E2 & CI2 & W2 & (Et & El & Ev & Ed & Eq & Ec & Els & _) & U2 & Hth2).
  assert (th_ok (take c stk) (theory s2)) as Hok by (destruct Hth2 as [?|[_ ?]]; [done|lia]).
  exists s2, (take c stk). split; [done|]. split; [|by rewrite Ec, (af_ctl _ _ Fr)].
  assert (trail (asg s2) = take c (trail (asg s))) as Et2 by (rewrite Et; apply (frame_take s s' c Fr); lia).
  assert (nVars (asg s2) = nVars (asg s)) as En by (unfold nVars; rewrite Ev; apply Fr).
  assert (∀ v, lv (asg s2) v = lv (asg s) v) as Elv by (intros v; rewrite <- (af_lv _ _ Fr); unfold lv; by rewrite Ev).
  assert (decisionLevel (asg s2) = bl) as Edl by (unfold decisionLevel in *; rewrite El, length_take; lia).
  assert (p ∈ trail (asg s)) as Hp by by eapply list_elem_of_lookup_2.
  assert (∀ q, q ∈ qs → lit_not q ∈ trail (asg s2)) as Hq2.
  { intros q Hq. rewrite Et2. apply (lower_kept_take (asg s) c bl c); [done|by apply Hlow| |done|done]. rewrite var_not.
    destruct qs as [|u qs]; [by apply elem_of_nil in Hq|]. by apply Hbl. }
  constructor.
  - apply conflict_sinv; [done..|by rewrite Edl].
  - rewrite var_not, En. by apply (ao_vars A).
  - apply val_undef. rewrite var_not, Et2. intros (t & Et' & [j [Hj Hjt]%take_lookup_inv]%list_elem_of_lookup)%list_elem_of_fmap.
    pose proof (trail_index_inj (asg s) i j p t A Hip Hjt Et'). lia.
  - rewrite var_not. by apply (mi_core _ _ _ _ _ M).
  - done.
  - rewrite Edl. destruct qs as [|q qs]; [done|]. rewrite Elv. destruct Hbl as [-> _]. split; [done|]. apply Hlow. by left.
  - done.
  - destruct (mi_levels _ _ _ _ _ (ki_mid _ _ _ _ _ CI)) as [_ Hdom]. rewrite ED in Hdom. rewrite Els. intros q Hq. rewrite Elv. right.
    destruct Hdom as [|Hdom]; [lia|]. apply elem_of_cons in Hq as [->|Hq]; [by rewrite var_not, Hlp|]. pose proof (Hlow q Hq). lia.
  - done.
Qed.

End learnt.

(** * The SAT solver: the steps of the search

    Propagation, resolving a conflict, simplifying the data base and decisions
    keep the invariant of the search. *)

(** What the steps of a search leave of the control. *)
Definition same_stops {F} (c c' : @Control F) : Prop :=
  stop_after c' = stop_after c ∧ luby_i c' = luby_i c ∧ luby_k c' = luby_k c ∧ luby_previous c' = luby_previous c.

Section steps.
Context {F Th : Type} `{DoubleLaws F} `{THandlerLaws Th}.
Context (K : list (list Lit)) (Kn : Var → Prop) (As : list Lit).
Implicit Types (s : Solver F Th) (a : Assignment) (d : Database F) (o : @Decisions F) (p q t : Lit) (v : Var) (stk ps qs : list Lit).
Abbreviation mid := (mid_inv K Kn As).
Abbreviation inv := (sinv K Kn As).
Abbreviation cinv := (conflict_inv K Kn As).

#[export] Instance same_stops_refl : Reflexive (@same_stops F).
Proof. done. Qed.
#[export] Instance same_stops_trans : Transitive (@same_stops F).
Proof. intros c1 c2 c3 (? & ? & ? & ?) (? & ? & ? & ?). split; [congruence|]. split; [congruence|]. split; congruence. Qed.

(** *** Propagation *)

Lemma mid_propagated stk s a d c : mid stk s → asg_ok a → core_inv K (known Kn) (explained stk (theory s)) a (mem_of d) → dbok (nVars a) d → grows (asg s) a → db_frame (db s) d →
  qhead (asg s) ≤ qhead a → skip_step c = skip_step (ctl s) → mid stk (set_ctl c (set_db d (set_asg a s))).
Proof.
  intros M A C D [Ex New] [Sm Ec El] Hq Esk. pose proof (ext_trail _ _ Ex) as Hpre. assert (∀ p, p ∈ trail (asg s) → p ∈ trail a) as Hsub by (intros p Hp; destruct Hpre as [t ->]; apply elem_of_app; by left).
  constructor; try apply M; cbn [asg db dec theory levelsInClause set_asg set_db set_ctl]; try done.
  - unfold steady. cbn [ctl set_ctl config]. rewrite Esk. apply M.
  - rewrite (ext_nVars _ _ Ex). apply M.
  - intros v Hd Hvt. apply (mi_covers _ _ _ _ _ M); [done|]. intros (p & -> & Hp)%list_elem_of_fmap. apply Hvt. apply list_elem_of_fmap_2. by apply Hsub.
  - intros k Hk. destruct (mi_original _ _ _ _ _ M k Hk) as [(p & Hp & Ht & Hz)|(cr & x & Hcr & Hx & Hxk)]; [left|right].
    + exists p. destruct (ext_vars _ _ Ex p Ht) as [_ ->]. split; [done|]. split; [by apply Hsub|done].
    + destruct (same_mem_lookup _ _ cr x Sm Hx) as (y & Hy & P & _). exists cr, y. rewrite Ec. split; [done|]. split; [done|]. intros q Hqy. apply Hxk. by rewrite <- P.
  - rewrite (ext_lims _ _ Ex). intros x Hx. pose proof (mi_lims _ _ _ _ _ M x Hx). lia.
  - intros En. destruct (mi_facts _ _ _ _ _ M). rewrite En in Hpre. by apply prefix_nil_inv.
  - unfold levels_ok, decisionLevel. rewrite (ext_lims _ _ Ex). apply M.
  - intros p [Hp|Hp]%New Hr; [|done]. destruct (ext_vars _ _ Ex p Hp) as [Er ->]. rewrite Er in Hr. by apply (mi_assumed _ _ _ _ _ M).
  - unfold decisionLevel. rewrite (ext_lims _ _ Ex). intros i p Hi Hlt. destruct (mi_taken _ _ _ _ _ M i p Hi Hlt) as [Hp Hl].
    destruct (ext_vars _ _ Ex p Hp) as [_ ->]. split; [by apply Hsub|done].
  - rewrite (ext_nVars _ _ Ex). apply M.
  - intros cr y q Hcr Hy Hqy. rewrite Ec in Hcr. destruct (Forall2_lookup_r _ _ _ _ _ Sm Hy) as (x & Hx & P & _). rewrite P in Hqy. by apply (mi_decided _ _ _ _ _ M cr x).
  - etrans; [apply (mi_prefix _ _ _ _ _ M)|done].
  - rewrite (ext_nVars _ _ Ex). apply M.
Qed.

Lemma propagate_ok stk s : inv stk s → ∃ r s', propagate s = Ok (r, s') ∧ grows (asg s) (asg s') ∧ same_stops (ctl s) (ctl s') ∧ qhead (asg s') = nAssigns (asg s') ∧
  match r with
  | None => inv stk s'
  | Some cr => cinv stk s' ∧ th_ok stk (theory s') ∧ conflicting (asg s') (db s') cr
  end.
Proof.
  intros [M T U W Hs Hcl]. assert (prop_pre K (known Kn) (explained stk (theory s)) (asg s) (db s)) as PP.
  { constructor; try apply M. done. }
  destruct (proj1 (wp_total _ _) (propagate_loop_wp _ _ _ _ _ PP)) as ([[[a d] r] n] & E & (A & C & D & _ & G & Fr & Hq & Hr) & Hqn). cbn [fst] in Hqn.
  unfold propagate. rewrite E. cbn [rbind]. eexists r, _. split; [done|]. split; [done|]. split; [done|]. split; [done|]. cbn [asg db theory set_ctl set_db set_asg].
  pose proof (mid_propagated stk s a d) as M'. specialize (M' (set_propagations (propagations (ctl s) + n) (simpDB_props (ctl s) - Z.of_nat n)%Z (ctl s)) M A C D G Fr Hq eq_refl).
  pose proof (gr_extends _ _ G) as Ex. assert (seen s = replicate (nVars a) false) as Hs' by by rewrite (ext_nVars _ _ Ex).
  destruct r as [cr|].
  - destruct Hr as (_ & Hc & Wb). split; [|done]. constructor; [exact M'| |done|done].
    apply (watched_below_lower a d (qhead (asg s)) (trail (asg s))); [done|exact Wb|apply Ex| |apply (ao_qhead (mi_asg _ _ _ _ _ M))].
    intros x Hx. cbn [asg set_ctl set_db set_asg] in Hx. rewrite (ext_lims _ _ Ex) in Hx. by apply (mi_lims _ _ _ _ _ M).
  - constructor; [exact M'|done| |exact Hr|done|done]. cbn [asg set_ctl set_db set_asg]. unfold decisionLevel. rewrite (ext_lims _ _ Ex). intros i p Hi Hlt.
    destruct (U i p Hi Hlt) as [Hp Hl]. destruct (ext_vars _ _ Ex p Hp) as [_ ->]. split; [|done]. destruct (ext_trail _ _ Ex) as [t ->]. apply elem_of_app. by left.
Qed.

(** *** Counters, activities and polarities *)

Lemma inv_ctl stk s c : inv stk s → skip_step c = skip_step (ctl s) → inv stk (set_ctl c s).
Proof. intros [M T U W Hs Hcl] E. constructor; try done. constructor; try apply M. unfold steady. cbn [ctl set_ctl config]. rewrite E. apply M. Qed.
Lemma cinv_ctl stk s c : cinv stk s → skip_step c = skip_step (ctl s) → cinv stk (set_ctl c s).
Proof. intros [M W Hs Hcl] E. constructor; try done. constructor; try apply M. unfold steady. cbn [ctl set_ctl config]. rewrite E. apply M. Qed.

Lemma mid_dec stk s o : mid stk s → dec_ok (nVars (asg s)) o → decision o = decision (dec s) → covers (trail (asg s)) o → mid stk (set_dec o s).
Proof.
  intros M D Ed C. constructor; try apply M; cbn [dec set_dec asg db]; [done|done| |].
  - intros v. rewrite Ed. apply M.
  - intros cr c q. rewrite Ed. apply M.
Qed.
Lemma inv_dec stk s o : inv stk s → dec_ok (nVars (asg s)) o → decision o = decision (dec s) → covers (trail (asg s)) o → inv stk (set_dec o s).
Proof. intros [M T U W Hs Hcl] ???. constructor; try done. by apply mid_dec. Qed.

Lemma decay_ok stk s : inv stk s → inv stk (decay s).
Proof.
  intros [M T U W Hs Hcl]. assert (mid stk (decay s)) as M'; [|by constructor].
  constructor; try apply M. destruct (mi_dec _ _ _ _ _ M). by constructor.
Qed.

Lemma update_flip_ok stk s : cinv stk s → cinv stk (update_flip s) ∧ theory (update_flip s) = theory s ∧ asg (update_flip s) = asg s ∧ db (update_flip s) = db s
  ∧ ctl (update_flip s) = ctl s.
Proof.
  intros [M W Hs Hcl]. unfold update_flip. destruct (_ <? _)%Z; [|done]. split; [|done]. constructor; [|done..].
  apply mid_dec; [done| |done|apply M]. destruct (mi_dec _ _ _ _ _ M). by constructor.
Qed.

(** *** Resolving a conflict *)

Lemma resolve_conflict_ok stk s cr : cinv stk s → th_ok stk (theory s) → conflicting (asg s) (db s) cr → 0 < decisionLevel (asg s) →
  ∃ s' stk', resolve_conflict cr s = Ok s' ∧ inv stk' s' ∧ same_stops (ctl s) (ctl s').
Proof.
  intros CI Hth (_ & c & Hc & Hf & Hcur) HD. unfold resolve_conflict.
  destruct (analyze_ok K Kn As stk s (length (trail (asg s))) cr c CI) as (i & p & qs & bl & stk1 & s1 & -> & L & CI1 & Fr & Hlen & Hth1); try done.
  { by left. } { by rewrite take_ge. }
  cbn [rbind]. destruct (backjump_ok K Kn As stk stk1 s s1 i p qs bl (ki_mid _ _ _ _ _ CI) HD L CI1 Fr Hlen Hth1) as (s2 & stk2 & -> & As2 & Ec2). cbn [rbind].
  destruct (learn_ok K Kn As stk2 s2 (lit_not p) qs As2) as (s3 & -> & I3 & Ec3). cbn [rbind]. exists (decay s3), stk2. split; [done|]. split; [by apply decay_ok|].
  change (ctl (decay s3)) with (ctl s3). by rewrite Ec3, Ec2.
Qed.

End steps.
