(* ===== verification/SatReduce.v ===== *)
(** * The SAT solver: removing learnt clauses

    [simplify] and [reduceDB] remove clauses that are learnt; the invariant of the
    search holds for the ones that are kept. *)
From S2P Require Import Prelude Sort NatSet SatLits Terms Heap SatData SatCore SatSpec SatPropagate SatInv SatAnalyze SatResolve SatConflict.
From S2P Require Import SatLearnt.
From stdpp Require Import gmap.
From Stdlib Require Import Lia.

#[local] Open Scope nat_scope.

Section reduce.
Context {F Th : Type} `{DoubleLaws F} `{THandlerLaws Th}.
Context (K : list (list Lit)) (Kn : Var → Prop) (As : list Lit).
Implicit Types (s : Solver F Th) (a : Assignment) (d : Database F) (o : @Decisions F) (p q t : Lit) (v : Var) (stk ps qs : list Lit) (kept todo : list CRef).
Abbreviation mid := (mid_inv K Kn As).
Abbreviation inv := (sinv K Kn As).

(** *** Removing one clause *)

Lemma detach_ok n d cr c ls : db_ok n (mem_of d) (occs_of d) (dirty (watches d)) (dirties (watches d)) (clauses d) ls → mem_of d !! cr = Some c → cr ∈ clauses d ++ ls →
  ∃ dt ds d', detachClause cr false d = Ok d' ∧ mem_of d' = mem_of d ∧ watches d' = MkOccLists (occs_of d) dt ds ∧ clauses d' = clauses d ∧ learnts d' = learnts d
    ∧ ∀ ls', NoDup (clauses d ++ ls') → (∀ k, k ∈ clauses d ++ ls' ↔ k ∈ clauses d ++ ls ∧ k ≠ cr) → (∀ k, k ∈ ls' → k ∈ ls) →
      db_ok n (<[cr := set_mark 1 c]> (mem_of d)) (occs_of d) dt ds (clauses d) ls'.
Proof.
  intros D Hc Hin. destruct (do_attached D cr Hin) as (x & Hx & _ & L & N). assert (x = c) as -> by congruence. clear Hx.
  destruct (lits c) as [|c0 [|c1 rest]] eqn:El; [cbn in L; lia..|]. unfold detachClause. rewrite (clause_at_ok cr c) by done. cbn [rbind]. rewrite El.
  cbn [length Nat.ltb Nat.leb check rbind at_ lookup list_lookup]. destruct d as [[m sz wt ex] [oc dt ds] cs lr x y z]. cbn in D, Hc, Hin |- *.
  assert (∀ q, q ∈ [c0; c1] → toInt (lit_not q) < length dt) as Hlen.
  { intros q Hq. rewrite (do_dirty D). apply toInt_lt. rewrite var_not. apply (do_lits D cr c q Hc). rewrite El. set_solver. }
  destruct (smudge_ok oc dt ds (lit_not c0)) as (dt1 & ds1 & -> & L1 & A1 & B1 & C1 & E1); [apply Hlen; by left|apply D|]. cbn [rbind].
  destruct (smudge_ok oc dt1 ds1 (lit_not c1)) as (dt2 & ds2 & -> & L2 & A2 & B2 & C2 & E2); [rewrite L1; apply Hlen; right; by left|done|]. cbn [rbind].
  assert (∀ ls', NoDup (cs ++ ls') → (∀ k, k ∈ cs ++ ls' ↔ k ∈ cs ++ ls ∧ k ≠ cr) → (∀ k, k ∈ ls' → k ∈ ls) → db_ok n (<[cr := set_mark 1 c]> m) oc dt2 ds2 cs ls') as Hdb.
  { intros ls' N' HA Hls. apply (db_remove n m oc dt ds cs ls dt2 ds2 cs ls' cr c c0 c1); try done; rewrite ?El; try done; [congruence|by auto|by auto|].
    intros p [[Hp| ->]%E1| ->]%E2; [by apply (do_dirties_range D)| |]; rewrite var_not; apply (do_lits D cr c _ Hc); rewrite El; set_solver. }
  destruct (c_learnt c); exists dt2, ds2; eexists; (split; [done|]); done.
Qed.

Lemma locked_ok a cr c c0 rest : asg_ok a → lits c = c0 :: rest → var c0 < nVars a →
  ∃ b, locked a cr (c : Clause F) = Ok b ∧ (b = true ↔ c0 ∈ trail a ∧ rs a (var c0) = CRef_at cr).
Proof.
  intros A El Hv. unfold locked. rewrite El. cbn [at_ lookup list_lookup rbind]. rewrite (value_ok a c0 A Hv). cbn [rbind].
  destruct (bool_decide_reflect (val (trail a) c0 = l_True)) as [E|E]; rewrite val_true in E; [|exists false; naive_solver].
  rewrite reason_of_ok by done. cbn [rbind]. eexists. split; [done|]. rewrite bool_decide_eq_true. naive_solver.
Qed.

(** *** Removing several *)

(** [kept] is what is left of the learnt clauses of [s]. *)
Record pruned s kept a d : Prop := {
  pr_asg : asg_ok a;
  pr_same : trail a = trail (asg s) ∧ trail_lim a = trail_lim (asg s) ∧ qhead a = qhead (asg s) ∧ nVars a = nVars (asg s);
  pr_lv v : lv a v = lv (asg s) v;
  pr_rs p : p ∈ trail a → rs a (var p) = rs (asg s) (var p) ∨ rs a (var p) = CRef_Undef ∧ lv a (var p) = 0;
  pr_mem : Forall2 (λ c c', lits c' = lits c) (mem_of (db s)) (mem_of d);
  pr_db : db_ok (nVars a) (mem_of d) (occs_of d) (dirty (watches d)) (dirties (watches d)) (clauses d) kept;
  pr_clauses : clauses d = clauses (db s);
  pr_sub k : k ∈ kept → k ∈ learnts (db s);
}.

Lemma prune_one s kept todo cr a d c : pruned s (kept ++ cr :: todo) a d → mem_of d !! cr = Some c →
  (∀ p, p ∈ trail a → rs a (var p) = CRef_at cr → lv a (var p) = 0) →
  ∃ a' d', removeClause cr a d = Ok (a', d') ∧ pruned s (kept ++ todo) a' d'.
Proof.
  intros [A (Et & El & Eq & En) Elv Ers Em D Ecs Hsub] Hc Hz. assert (cr ∈ clauses d ++ kept ++ cr :: todo) as Hin by set_solver.
  destruct (detach_ok (nVars a) d cr c _ D Hc Hin) as (dt & ds & d1 & E1 & Em1 & Ew1 & Ec1 & El1 & Hdb). unfold removeClause. rewrite E1. cbn [rbind].
  rewrite (clause_at_ok cr c) by by rewrite Em1. cbn [rbind].
  destruct (do_attached D cr Hin) as (x & Hx & _ & L & _). assert (x = c) as -> by congruence. destruct (lits c) as [|c0 rest] eqn:Elc; [cbn in L; lia|].
  assert (var c0 < nVars a) as Hv0 by (apply (do_lits D cr c c0 Hc); rewrite Elc; by left).
  destruct (locked_ok a cr c c0 rest A Elc Hv0) as (b & -> & Hb). cbn [rbind at_ lookup list_lookup].
  assert (∃ a', (if b then set_reason (var c0) CRef_Undef a else Ok a) = Ok a' ∧ asg_ok a' ∧ trail a' = trail a ∧ trail_lim a' = trail_lim a ∧ qhead a' = qhead a ∧ nVars a' = nVars a
    ∧ (∀ v, lv a' v = lv a v) ∧ ∀ p, p ∈ trail a → rs a' (var p) = rs a (var p) ∨ rs a' (var p) = CRef_Undef ∧ lv a (var p) = 0) as (a' & Ea' & A' & Et' & El' & Eq' & En' & Elv' & Ers').
  { destruct b; [|exists a; by eauto 10]. destruct (proj1 Hb eq_refl) as [Ht Hr]. rewrite set_reason_ok by done. eexists. split; [done|].
    split; [by apply with_reason_asg|]. do 3 (split; [done|]). split; [apply length_insert|]. split; [intros; by apply with_reason_lv|].
    intros p Hp. destruct (decide (var p = var c0)) as [Ep|Ep]; [right|left; by rewrite with_reason_rs_ne]. rewrite Ep, with_reason_rs_eq by done. split; [done|]. by apply Hz. }
  rewrite Ea'. cbn [rbind]. rewrite (put_clause_ok cr c) by by rewrite Em1. cbn [rbind].
  assert (mem_of (put cr (set_mark 1 c) d1) !! cr = Some (set_mark 1 c)) as Hm by (cbn; rewrite Em1; apply list_lookup_insert_eq; by eapply lookup_lt_Some).
  unfold free_clause, free, at_. cbn [put ca set_ca mem]. cbn [put ca set_ca mem] in Hm. rewrite Hm. cbn [rbind]. eexists a', _. split; [done|].
  assert (NoDup (clauses d ++ kept ++ cr :: todo)) as N by apply D. constructor; cbn [put ca set_ca mem watches clauses learnts].
  - done.
  - by rewrite Et', El', Eq', En'.
  - intros v. by rewrite Elv', Elv.
  - rewrite Et'. intros p Hp. rewrite Elv'. destruct (Ers' p Hp) as [->|?]; [by apply Ers|by right].
  - rewrite Em1. apply Forall2_lookup. intros k. destruct (decide (k = cr)) as [->|Hk].
    + rewrite list_lookup_insert_eq by by eapply lookup_lt_Some. destruct (Forall2_lookup_r _ _ _ _ _ Em Hc) as (y & -> & Ey). by constructor.
    + rewrite list_lookup_insert_ne by done. by apply Forall2_lookup.
  - rewrite Em1, Ew1, Ec1, En'. cbn. apply Hdb; [| |set_solver].
    + assert (clauses d ++ kept ++ cr :: todo ≡ₚ cr :: clauses d ++ kept ++ todo) as P by (rewrite <- !Permutation_middle; done). rewrite P in N. by apply NoDup_cons in N as [_ N].
    + rewrite <- Permutation_middle in N. apply NoDup_app in N as (_ & N1 & N2). apply NoDup_cons in N2 as [N2 _]. intros k. rewrite !elem_of_app, elem_of_cons.
      assert (cr ∉ clauses d) as N3 by (intros Hk; apply (N1 cr Hk); by left). rewrite elem_of_app in N2. destruct (decide (k = cr)) as [->|]; tauto.
  - by rewrite Ec1.
  - intros k Hk. apply Hsub. set_solver.
Qed.

Lemma pruned_inv stk s kept a d : inv stk s → pruned s kept a d → inv stk (set_db (set_learnts kept d) (set_asg a s)).
Proof.
  intros [M T U W Hs Hcl] [A (Et & El & Eq & En) Elv Ers Em D Ecs Hsub]. assert (decisionLevel a = decisionLevel (asg s)) as ED by (unfold decisionLevel; by rewrite El).
  constructor; cbn [asg db theory seen cleanup set_db set_asg]; try done.
  - constructor; try apply M; cbn [asg db dec theory levelsInClause set_db set_asg learnts clauses set_learnts]; rewrite ?Et, ?El, ?Eq, ?En; try apply M; try done.
    + destruct (mi_core _ _ _ _ _ M) as [C1 C2 C3 C4 C5]. constructor; rewrite ?Et.
      * intros i p Hi. pose proof (C1 i p Hi) as HR. unfold reason_ok in *. rewrite Et in *. rewrite El, Elv. destruct (Ers p ltac:(by eapply list_elem_of_lookup_2)) as [->|[-> Hz]]; [|by left; rewrite <- Elv].
        destruct (rs (asg s) (var p)) as [| |cr]; [done..|]. destruct HR as (x & ps & Hx & Ex & Hps). destruct (Forall2_lookup_l _ _ _ _ _ Em Hx) as (y & Hy & Ey). exists y, ps. by rewrite Ey.
      * intros cr y (x & Hx & Ex)%(Forall2_lookup_r _ _ _ _ _ Em). rewrite Ex. by eapply C2.
      * intros p Hp. rewrite Elv. by apply C3.
      * done.
      * intros cr y q (x & Hx & Ex)%(Forall2_lookup_r _ _ _ _ _ Em). rewrite Ex. by eapply C5.
    + unfold dbok. rewrite <- En. exact D.
    + intros k Hk. destruct (mi_original _ _ _ _ _ M k Hk) as [(p & ? & ? & ?)|(cr & x & Hcr & Hx & Hxk)]; [left|right].
      * exists p. by rewrite Elv, Et.
      * destruct (Forall2_lookup_l _ _ _ _ _ Em Hx) as (y & Hy & Ey). exists cr, y. cbn. rewrite Ecs, Ey. done.
    + unfold levels_ok. rewrite ED. apply M.
    + intros p Hp Hr. rewrite Elv. rewrite <- Et in Hp. destruct (Ers p Hp) as [Er|[_ Hz]]; [|left; by rewrite <- Elv]. rewrite Et in Hp. apply (mi_assumed _ _ _ _ _ M); [done|congruence].
    + rewrite ED. intros i p Hi Hlt. rewrite Et, Elv. by apply (mi_taken _ _ _ _ _ M).
    + intros cr y q Hcr (x & Hx & Ex)%(Forall2_lookup_r _ _ _ _ _ Em) Hq. rewrite Ecs in Hcr. rewrite Ex in Hq. by apply (mi_decided _ _ _ _ _ M cr x).
  - rewrite ED. intros i p Hi Hlt. rewrite Et, Elv. by apply U.
  - intros cr y j q HA Hy Hj Hq Hn HP. cbn [clauses learnts set_learnts] in HA. destruct (Forall2_lookup_r _ _ _ _ _ Em Hy) as (x & Hx & Ex). rewrite Et, ?Eq, ?Ex in *.
    destruct (W cr x j q) as (l & ? & ? & ?); try done.
    { rewrite Ecs in HA. apply elem_of_app in HA as [?|?%Hsub]; apply elem_of_app; auto. }
    exists l. by rewrite !Elv.
  - by rewrite En.
Qed.

Lemma db_perm n (m : list (Clause F)) oc dt ds cs ls ls' : ls' ≡ₚ ls → db_ok n m oc dt ds cs ls → db_ok n m oc dt ds cs ls'.
Proof.
  intros P D. assert (∀ k, k ∈ cs ++ ls' ↔ k ∈ cs ++ ls) as HA by (intros; by rewrite P). constructor; try apply D.
  - by rewrite P; apply D.
  - intros k Hk%HA. by apply D.
  - intros k c Hk. rewrite P in Hk. by apply (do_learnt D k).
  - intros p w Hw. destruct (do_watchers D p w Hw) as (x & Hx & [?|[? ?]]); exists x; (split; [done|]); [by left|right]. by rewrite HA.
  - intros k c i q Hk%HA. by apply (do_watched D).
Qed.

Lemma pruned_start stk s ls : mid stk s → ls ≡ₚ learnts (db s) → pruned s ls (asg s) (db s).
Proof.
  intros M P. constructor; try done; [apply M|by left| |by eapply db_perm, M|intros k; by rewrite P]. by apply Forall_Forall2_diag, Forall_true.
Qed.

(** *** Collecting garbage *)

Lemma fold_live {A B} (f : B → A → res B) (P : B → Prop) (l : list A) x : P x → (∀ y z, z ∈ l → P y → ∃ y', f y z = Ok y' ∧ P y') → ∃ y, foldM f x l = Ok y ∧ P y.
Proof.
  revert x. induction l as [|z l IH]; intros x Hx Hf; cbn [foldM]; [by exists x|]. destruct (Hf x z ltac:(by left) Hx) as (y & -> & Hy). cbn [rbind].
  apply IH; [done|]. intros; apply Hf; [by right|done].
Qed.

Lemma garbage_ok stk s : inv stk s → ∃ s', garbageCollect s = Ok s' ∧ inv stk s' ∧ asg s' = asg s ∧ dec s' = dec s ∧ ctl s' = ctl s ∧ config s' = config s.
Proof.
  intros I. pose proof (si_mid _ _ _ _ _ I) as M. pose proof (mi_asg _ _ _ _ _ M) as A. pose proof (mi_db _ _ _ _ _ M) as D. unfold garbageCollect.
  destruct (watches (db s)) as [oc dt ds] eqn:Ew. unfold dbok in D. rewrite Ew in D. cbn in D.
  destruct (cleanAll_ok (nVars (asg s)) (ca (db s)) oc dt ds _ _ D) as (oc' & dt' & -> & D' & _). cbn [rbind occs].
  set (ok := λ live : gset CRef, ∀ cr, cr ∈ live → is_Some (mem_of (db s) !! cr)).
  match goal with |- context [foldM ?f ?x (trail (asg s))] => destruct (fold_live f ok (trail (asg s)) x) as (live & -> & Hlive) end.
  { intros cr Hcr. rewrite elem_of_list_to_set, !elem_of_app in Hcr. destruct Hcr as [Hw|[Hl|Hc]].
    - apply list_elem_of_In, in_map_iff in Hw as (w & <- & Hw). apply in_concat in Hw as (ws & Hws & Hw). apply list_elem_of_In, list_elem_of_lookup in Hws as [i Hi].
      assert (∃ p, toInt p = i) as [p <-] by (exists (MkLit i); done). destruct (do_watchers D' p w) as (x & Hx & _); [|by exists x].
      unfold list_at. rewrite Hi. cbn. by apply list_elem_of_In.
    - destruct (do_attached D' cr) as (x & Hx & _); [apply elem_of_app; by right|by exists x].
    - destruct (do_attached D' cr) as (x & Hx & _); [apply elem_of_app; by left|by exists x]. }
  { intros live p Hp Hlive. rewrite reason_of_ok by by apply (ao_vars A). cbn [rbind]. destruct (rs (asg s) (var p)) as [| |cr] eqn:Er; [by exists live..|].
    apply list_elem_of_lookup in Hp as [i Hi]. pose proof (ci_reason _ _ _ _ _ (mi_core _ _ _ _ _ M) i p Hi) as HR. unfold reason_ok in HR. rewrite Er in HR. destruct HR as (c & ps & Hc & El & _).
    rewrite (clause_at_ok cr c) by done. cbn [rbind]. destruct (locked_ok (asg s) cr c p ps A El) as (b & -> & _); [apply (ao_vars A); by eapply list_elem_of_lookup_2|]. cbn [rbind].
    destruct b; eexists; (split; [done|]); [|done]. intros k [Hk%elem_of_singleton|Hk]%elem_of_union; [subst k; by exists c|by apply Hlive]. }
  cbn [rbind]. match goal with |- context [foldM ?f 0 (elements live)] => destruct (fold_live f (λ _, True) (elements live) 0) as (size & -> & _) end; [done| |].
  { intros n cr Hcr%elem_of_elements _. destruct (Hlive cr Hcr) as [c Hc]. rewrite (clause_at_ok cr c) by done. by eexists. }
  cbn [rbind]. eexists. split; [done|]. split; [|done].
  destruct I as [_ T U W Hs Hcl]. constructor; try done. by apply mid_db; try apply M.
Qed.

Lemma checkGarbage_ok stk s gf : inv stk s → ∃ s', checkGarbage gf s = Ok s' ∧ inv stk s' ∧ asg s' = asg s ∧ dec s' = dec s ∧ ctl s' = ctl s ∧ config s' = config s.
Proof. intros I. unfold checkGarbage. destruct (d_lt _ _); [by apply garbage_ok|by exists s]. Qed.

(** *** Satisfied clauses, at level 0 *)

Lemma satisfied_ok a (c : Clause F) : asg_ok a → (∀ q, q ∈ lits c → var q < nVars a) → ∃ b, satisfied a c = Ok b.
Proof.
  intros A Hv. unfold satisfied. destruct (fold_live (λ (b : bool) p, if b then Ok b else let! x := value a p in Ok (bool_decide (x = l_True))) (λ _, True) (lits c) false) as (b & -> & _); [done| |by exists b].
  intros b q Hq _. destruct b; [by exists true|]. rewrite (value_ok a q A) by by apply Hv. by eexists.
Qed.

Lemma removeSatisfied_ok stk s : mid stk s → decisionLevel (asg s) = 0 →
  ∃ kept a d, removeSatisfied (learnts (db s)) (asg s) (db s) = Ok (kept, a, d) ∧ pruned s kept a d.
Proof.
  intros M Hz. assert (wp no_error (λ st, pruned s (st.1.1 ++ []) st.1.2 st.2) (removeSatisfied (learnts (db s)) (asg s) (db s))) as W.
  { apply (foldM_wp no_error _ (λ _ post st, pruned s (st.1.1 ++ post) st.1.2 st.2)); [by apply (pruned_start stk)|]. intros pre cr post [[kept a] d] _ P. cbn [fst snd] in *.
    destruct (do_attached (pr_db _ _ _ _ P) cr) as (c & Hc & _); [set_solver|]. rewrite (clause_at_ok cr c) by done. cbn [rbind].
    destruct (satisfied_ok a c (pr_asg _ _ _ _ P)) as (b & ->); [intros q Hq; by apply (do_lits (pr_db _ _ _ _ P) cr c)|]. cbn [rbind]. destruct b; [|cbn [wp fst snd]; by rewrite <- (assoc (++))].
    destruct (prune_one s kept post cr a d c P Hc) as (a' & d' & -> & P'); [|exact P'].
    intros p Hp _. rewrite (pr_lv _ _ _ _ P). destruct (pr_same _ _ _ _ P) as (Et & _). rewrite Et in Hp. pose proof (lv_le _ _ (mi_asg _ _ _ _ _ M) Hp). lia. }
  apply wp_total in W as ([[kept a] d] & E & P). cbn [fst snd] in P. rewrite app_nil_r in P. by exists kept, a, d.
Qed.

(** A clause that is false at level 0. *)
Lemma conflict_zero stk s cr : mid stk s → conflicting (asg s) (db s) cr → decisionLevel (asg s) = 0 → ∀ σ, ¬ kmodel K σ.
Proof.
  intros M (_ & c & Hc & Hf & _) Hz σ Hσ. destruct (proj1 (entails_iff K (lits c)) (ci_entailed _ _ _ _ _ (mi_core _ _ _ _ _ M) cr c Hc) σ Hσ) as (q & Hq & Hqt).
  specialize (Hf q Hq). pose proof (lv_le _ _ (mi_asg _ _ _ _ _ M) Hf) as Hl.
  destruct (proj1 (entails_iff K [lit_not q]) (ci_fact _ _ _ _ _ (mi_core _ _ _ _ _ M) _ Hf ltac:(lia)) σ Hσ) as (u & Hu%list_elem_of_singleton & Hut). subst u.
  rewrite lit_value_not, Hqt in Hut. done.
Qed.

(** The heap is left with the variables that can be decided. *)
Lemma heap_filter_ok stk s : inv stk s → ∃ h, Heap.filter (VarOrderLt (activity (dec s))) (VarFilter (asg s) (dec s)) (order_heap (dec s)) = Ok h
  ∧ inv stk (set_dec (set_order_heap h (dec s)) s).
Proof.
  intros I. pose proof (si_mid _ _ _ _ _ I) as M. pose proof (mi_asg _ _ _ _ _ M) as A. pose proof (mi_dec _ _ _ _ _ M) as D.
  destruct (heap_filter (activity (dec s)) (VarFilter (asg s) (dec s)) (λ v, bool_decide (v ∉ var <$> trail (asg s)) && bool_decide (decision (dec s) !! v = Some true)) (order_heap (dec s)))
    as (h & E & Hh & Hin).
  - rewrite (de_activity _ _ D). apply D.
  - intros v Hv. destruct (de_heap _ _ D) as [Hco Hr]. pose proof (Hr v (proj2 (inHeap_elem _ v Hco) Hv)) as Hvn. unfold VarFilter. rewrite (value_var_ok (asg s) v A Hvn). cbn [rbind].
    destruct (lookup_lt_is_Some_2 (decision (dec s)) v) as [b Hb]; [by rewrite (de_decision _ _ D)|]. unfold at_. rewrite Hb. cbn [rbind]. f_equal. f_equal.
    + apply bool_decide_ext. rewrite val_undef, var_mkLit. done.
    + destruct b; [by rewrite bool_decide_true|by rewrite bool_decide_false by (intros ?; congruence)].
  - exists h. split; [done|]. apply inv_dec; [done| |done|].
    + rewrite (de_activity _ _ D) in Hh. destruct D. by constructor.
    + intros v Hd Hvt. cbn [order_heap set_order_heap decision] in *. rewrite Hin, !bool_decide_true by done. by apply (mi_covers _ _ _ _ _ M).
Qed.

Definition quiet s : Prop := qhead (asg s) = nAssigns (asg s).

Lemma simplify_ok stk s : inv stk s → decisionLevel (asg s) = 0 →
  ∃ b s', simplify s = Ok (b, s') ∧ same_stops (ctl s) (ctl s') ∧ if b : bool then inv stk s' ∧ quiet s' ∧ decisionLevel (asg s') = 0 else ∀ σ, ¬ kmodel K σ.
Proof.
  intros I Hz. unfold simplify. rewrite Hz. cbn [Nat.eqb check rbind]. rewrite (mi_ok _ _ _ _ _ (si_mid _ _ _ _ _ I)).
  destruct (propagate_ok K Kn As stk s I) as (r & s1 & -> & G & Sc & Hq & Hr). cbn [rbind fst snd].
  assert (decisionLevel (asg s1) = 0) as Hz1 by (unfold decisionLevel; rewrite (ext_lims _ _ (gr_extends _ _ G)); exact Hz).
  destruct r as [cr|]; [rewrite bool_decide_true by done|rewrite bool_decide_false by tauto].
  { destruct Hr as (CI & _ & Hc). exists false, (set_ok false s1). split; [done|]. split; [done|]. exact (conflict_zero stk s1 cr (ki_mid _ _ _ _ _ CI) Hc Hz1). }
  destruct (_ || _); [by exists true, s1|]. pose proof (si_mid _ _ _ _ _ Hr) as M1.
  destruct (removeSatisfied_ok stk s1 M1 Hz1) as (kept & a & d & -> & P). cbn [rbind]. rewrite (mi_remove _ _ _ _ _ M1). cbn [rbind].
  pose proof (pruned_inv stk s1 kept a d Hr P) as I2. destruct (pr_same _ _ _ _ P) as (Et & El & Eq & _).
  change (set_clauses (clauses (set_learnts kept d)) (set_learnts kept d)) with (set_learnts kept d). set (s2 := set_db (set_learnts kept d) (set_asg a s1)) in *.
  destruct (checkGarbage_ok stk s2 (garbage_frac (config s1)) I2) as (s3 & -> & I3 & Ea3 & Ed3 & Ec3 & _). cbn [rbind].
  destruct (heap_filter_ok stk s3 I3) as (h & -> & I4). cbn [rbind]. eexists true, _. split; [done|]. split.
  { etrans; [exact Sc|]. change (same_stops (ctl s2) (ctl s3)). by rewrite Ec3. }
  split; [apply inv_ctl; [done|done]|]. unfold quiet, decisionLevel, nAssigns. cbn [asg set_ctl set_dec]. rewrite Ea3. cbn [asg s2 set_db set_asg]. rewrite Eq, Et, El. by split.
Qed.

(** *** The half of the learnt clauses that are used least *)

Definition worse (d : Database F) (x y : CRef) : bool :=
  match mem_of d !! x, mem_of d !! y with
  | Some cx, Some cy => (2 <? length (lits cx)) && ((length (lits cy) =? 2) || d_lt (c_activity cx) (c_activity cy))
  | _, _ => false
  end.

Lemma sort_learnts_ok n d : dbok n d → ∃ ls, Sort.sort (reduceDB_lt d) (learnts d) = Ok ls ∧ ls ≡ₚ learnts d.
Proof.
  intros D. assert (∀ x, x ∈ learnts d → ∃ c, mem_of d !! x = Some c ∧ 2 ≤ length (lits c) ∧ c_extra c = true) as Hv.
  { intros x Hx. destruct (do_attached D x) as (c & Hc & _ & L & _); [apply elem_of_app; by right|]. exists c. split; [done|]. split; [done|]. by apply (do_learnt D x). }
  apply wp_total. eapply wp_mono; [apply (sort_wp (reduceDB_lt d) (λ x y, worse d y x = false) (λ x, x ∈ learnts d))|by intros ls [? _]].
  - intros x y Hx Hy. destruct (Hv x Hx) as (cx & Ex & Lx & Xx), (Hv y Hy) as (cy & Ey & Ly & Xy). exists (worse d x y). split; [|by destruct (worse d x y)].
    unfold reduceDB_lt, worse. rewrite (clause_at_ok x cx), Ex, Ey by done. cbn [rbind]. destruct (_ <? _); [|done]. rewrite (clause_at_ok y cy) by done. cbn [rbind andb].
    destruct (_ =? _); [done|]. unfold activity_of. rewrite Xx, Xy. done.
  - intros x y Hx Hy. destruct (Hv x Hx) as (cx & Ex & Lx & _), (Hv y Hy) as (cy & Ey & Ly & _). unfold worse. rewrite Ex, Ey.
    destruct (Nat.ltb_spec 2 (length (lits cx))), (Nat.ltb_spec 2 (length (lits cy))), (Nat.eqb_spec (length (lits cx)) 2), (Nat.eqb_spec (length (lits cy)) 2); cbn; try lia; auto.
    destruct (d_lt (c_activity cy) (c_activity cx)) eqn:E; [right; by apply d_lt_asym|by left].
  - intros x y z Hx Hy Hz. destruct (Hv x Hx) as (cx & Ex & Lx & _), (Hv y Hy) as (cy & Ey & Ly & _), (Hv z Hz) as (cz & Ez & Lz & _). unfold worse. rewrite Ex, Ey, Ez.
    destruct (Nat.ltb_spec 2 (length (lits cy))), (Nat.ltb_spec 2 (length (lits cz))), (Nat.eqb_spec (length (lits cx)) 2), (Nat.eqb_spec (length (lits cy)) 2); cbn; try lia; try done.
    apply d_lt_neg_trans.
  - intros i x Hi. by eapply list_elem_of_lookup_2.
Qed.

Lemma not_locked stk s kept a d cr c c0 rest : mid stk s → pruned s kept a d → mem_of d !! cr = Some c → lits c = c0 :: rest → ¬ (c0 ∈ trail a ∧ rs a (var c0) = CRef_at cr) →
  ∀ p, p ∈ trail a → rs a (var p) ≠ CRef_at cr.
Proof.
  intros M P Hc El Hn p Hp Hr. destruct (pr_rs _ _ _ _ P p Hp) as [E|[E _]]; [|congruence]. destruct (pr_same _ _ _ _ P) as (Et & _). rewrite E in Hr.
  destruct (Forall2_lookup_r _ _ _ _ _ (pr_mem _ _ _ _ P) Hc) as (x & Hx & Ex).
  destruct (reason_head _ _ _ (asg s) _ cr x p (mi_core _ _ _ _ _ M) Hx ltac:(by rewrite <- Et) Hr) as [ps Eps]. rewrite El, Eps in Ex. injection Ex as -> _.
  apply Hn. split; [done|congruence].
Qed.

Lemma reduceDB_ok stk s : inv stk s → ∃ s', reduceDB s = Ok s' ∧ inv stk s' ∧ ctl s' = ctl s ∧ trail (asg s') = trail (asg s) ∧ trail_lim (asg s') = trail_lim (asg s) ∧ qhead (asg s') = qhead (asg s).
Proof.
  intros I. pose proof (si_mid _ _ _ _ _ I) as M. unfold reduceDB. destruct (sort_learnts_ok _ _ (mi_db _ _ _ _ _ M)) as (ls & -> & Pls). cbn [rbind].
  assert (wp no_error (λ st, pruned s (st.1.1.1 ++ ([] : list (nat * CRef)).*2) st.1.2 st.2) (foldM (reduce_clause (length ls)) ([], 0, asg s, set_learnts ls (db s)) (zip (seq 0 (length ls)) ls))) as W.
  { apply (foldM_wp no_error _ (λ _ post st, pruned s (st.1.1.1 ++ post.*2) st.1.2 st.2)).
    - cbn [fst snd app]. rewrite snd_zip by (by rewrite length_seq). destruct (pruned_start stk s ls M Pls). by constructor.
    - intros pre [i cr] post [[[kept extra] a] d] _ P. cbn [fst snd fmap list_fmap] in *. unfold reduce_clause.
      destruct (do_attached (pr_db _ _ _ _ P) cr) as (c & Hc & _ & L & _); [set_solver|]. rewrite (clause_at_ok cr c) by done. cbn [rbind].
      assert (∃ l : bool, (if 3 <? c_glue c then locked a cr c else Ok true) = Ok l ∧ (l = false → 3 < c_glue c ∧ ∀ p, p ∈ trail a → rs a (var p) ≠ CRef_at cr)) as (l & -> & Hl).
      { destruct (Nat.ltb_spec 3 (c_glue c)); [|by exists true]. destruct (lits c) as [|c0 rest] eqn:El; [cbn in L; lia|].
        destruct (locked_ok a cr c c0 rest (pr_asg _ _ _ _ P) El) as (b & -> & Hb); [apply (do_lits (pr_db _ _ _ _ P) cr c); [done|rewrite El; by left]|]. exists b. split; [done|]. intros ->.
        split; [done|]. apply (not_locked stk s (kept ++ cr :: post.*2) a d cr c c0 rest); try done. intros Hx. by apply Hb in Hx. }
      cbn [rbind]. destruct (negb l && _) eqn:Eb; [|cbn [wp fst snd]; by rewrite <- (assoc (++))]. apply andb_true_iff in Eb as [El%negb_true_iff _]. destruct (Hl El) as [Hg Hn].
      destruct (do_learnt (pr_db _ _ _ _ P) cr c) as [_ Hgl]; [set_solver|done|]. rewrite (proj2 (Nat.ltb_lt 2 _)) by lia. cbn [check rbind].
      destruct (prune_one s kept (post.*2) cr a d c P Hc) as (a' & d' & -> & P'); [intros p Hp Hr; by apply Hn in Hr|exact P']. }
  apply wp_total in W as ([[[kept extra] a] d] & -> & P). cbn [fst snd rbind fmap list_fmap] in *. rewrite app_nil_r in P. pose proof (pruned_inv stk s kept a d I P) as I2.
  destruct (checkGarbage_ok stk _ (garbage_frac (config s)) I2) as (s3 & -> & I3 & Ea & _ & Ec & _). destruct (pr_same _ _ _ _ P) as (Et & El & Eq & _).
  exists s3. split; [done|]. split; [done|]. split; [done|]. rewrite Ea. done.
Qed.

End reduce.
