(* ===== verification/SatFinal.v ===== *)
(** * The SAT solver: decisions

    New levels, assumptions and decisions keep the invariant of the search. *)
From S2P Require Import Prelude Sort NatSet SatLits Terms Heap SatData SatCore SatSpec SatPropagate SatInv SatAnalyze SatResolve SatConflict.
From S2P Require Import SatLearnt SatReduce.
From stdpp Require Import gmap.
From Stdlib Require Import Lia.

#[local] Open Scope nat_scope.

Lemma set_domain_inv n (ls : nat_set.nat_set) : nat_set.inv ls → nat_set.inv (nat_set.set_domain n ls) ∧ nat_set.get_domain (nat_set.set_domain n ls) = n.
Proof.
  intros Hi. unfold nat_set.set_domain, nat_set.get_domain. cbn [nat_set.m_timestamps]. split.
  - apply nat_set.inv_forall in Hi as [Hc Hs]. apply nat_set.inv_forall. cbn. split; [done|]. intros u x. unfold nat_set.resize.
    intros [Hu|[_ Hu]]%lookup_app_Some; [apply lookup_take_Some in Hu as [Hu _]; by eapply Hs|]. apply lookup_replicate in Hu as [-> _]. lia.
  - unfold nat_set.resize. rewrite length_app, length_take, length_replicate. lia.
Qed.

Section choose.
Context {F Th : Type} `{DoubleLaws F} `{THandlerLaws Th}.
Context (K : list (list Lit)) (Kn : Var → Prop) (As : list Lit).
Implicit Types (s : Solver F Th) (a : Assignment) (d : Database F) (o : @Decisions F) (p q t : Lit) (v : Var) (stk ps qs : list Lit).
Abbreviation mid := (mid_inv K Kn As).
Abbreviation inv := (sinv K Kn As).

(** *** A new level *)

Lemma new_level_asg a lims : asg_ok a → lims = trail_lim a ++ [nAssigns a] → asg_ok (set_trail_lim lims a) ∧ ∀ i, i < nAssigns a → level_at lims i = level_at (trail_lim a) i.
Proof.
  intros A ->. assert (∀ i, i < nAssigns a → level_at (trail_lim a ++ [nAssigns a]) i = level_at (trail_lim a) i) as Hl.
  { intros i Hi. unfold level_at. rewrite filter_app, length_app, filter_cons_False by lia. cbn. lia. }
  split; [|done]. constructor; try exact (ao_qhead A); try apply A; cbn [trail_lim trail set_trail_lim].
  - intros i j x y Hij Hx Hy. pose proof (ao_lims_trail A) as Hlt. unfold nAssigns in *.
    apply lookup_app_Some in Hy as [Hy|[_ Hy]].
    + apply lookup_app_Some in Hx as [Hx|[Hx _]]; [by apply (ao_lims A i j)|]. apply lookup_lt_Some in Hy. lia.
    + apply list_lookup_singleton_Some in Hy as [_ <-]. apply lookup_app_Some in Hx as [Hx|[_ Hx]]; [apply Hlt; by eapply list_elem_of_lookup_2|].
      apply list_lookup_singleton_Some in Hx as [_ <-]. lia.
  - intros x [Hx|Hx%list_elem_of_singleton]%elem_of_app; [by apply A|]. subst x. unfold nAssigns. lia.
  - intros i p Hi. rewrite Hl by by eapply lookup_lt_Some. by apply A.
Qed.

Lemma new_level_mid stk s : inv stk s → quiet s → mid stk (newDecisionLevel s).
Proof.
  intros I Q. pose proof (si_mid _ _ _ _ _ I) as M. pose proof (mi_asg _ _ _ _ _ M) as A. destruct (new_level_asg (asg s) _ A eq_refl) as [A' Hl].
  assert (decisionLevel (asg (newDecisionLevel s)) = S (decisionLevel (asg s))) as ED by (unfold decisionLevel; cbn; rewrite length_app; cbn; lia).
  constructor; try apply M; cbn [asg newDecisionLevel set_levels set_asg]; try done.
  - destruct (mi_core _ _ _ _ _ M) as [C1 C2 C3 C4 C5]. constructor; try done. intros i p Hi. pose proof (C1 i p Hi) as HR. unfold reason_ok in *. cbn [trail_lim set_trail_lim trail].
    change (rs (set_trail_lim _ (asg s)) (var p)) with (rs (asg s) (var p)). change (lv (set_trail_lim _ (asg s)) (var p)) with (lv (asg s) (var p)).
    destruct (rs (asg s) (var p)); [|done..]. destruct HR as [?|HR]; [by left|right]. by apply lookup_app_l_Some.
  - cbn [trail_lim qhead set_trail_lim]. intros x [Hx|Hx%list_elem_of_singleton]%elem_of_app; [by apply (mi_lims _ _ _ _ _ M)|]. subst x. rewrite Q. unfold nAssigns.
    pose proof (mi_facts _ _ _ _ _ M). destruct (trail (asg s)); [done|cbn; lia].
  - cbn [asg newDecisionLevel set_levels set_asg] in ED. split; cbn [levelsInClause set_levels newDecisionLevel].
    + apply set_domain_inv, M.
    + right. rewrite (proj2 (set_domain_inv _ _ (proj1 (mi_levels _ _ _ _ _ M)))). lia.
  - cbn [asg newDecisionLevel set_levels set_asg] in ED. rewrite ED. intros i p Hi Hlt. apply (si_taken _ _ _ _ _ I); [done|lia].
Qed.

(** The next assumption is true already. *)
Lemma new_level_inv stk s p : inv stk s → quiet s → As !! decisionLevel (asg s) = Some p → p ∈ trail (asg s) → inv stk (newDecisionLevel s).
Proof.
  intros I Q Hp Ht. pose proof (new_level_mid stk s I Q) as M'. destruct I as [M T U W Hs Hcl]. constructor; try done. intros i q Hi Hlt.
  assert (decisionLevel (asg (newDecisionLevel s)) = S (decisionLevel (asg s))) as ED by (unfold decisionLevel; cbn; rewrite length_app; cbn; lia).
  rewrite ED in Hlt. destruct (decide (i = decisionLevel (asg s))) as [->|]; [|apply U; [done|lia]].
  assert (q = p) as -> by congruence. split; [done|]. pose proof (lv_le _ _ (mi_asg _ _ _ _ _ M) Ht) as Hl. change (lv (asg s) (var p) ≤ S (decisionLevel (asg s))). lia.
Qed.

Lemma decide_ok stk s p : inv stk s → quiet s → var p < nVars (asg s) → val (trail (asg s)) p = l_Undef → known Kn (var p) →
  As !! decisionLevel (asg s) = Some p ∨ length As ≤ decisionLevel (asg s) →
  ∃ s', decide_literal p s = Ok s' ∧ inv stk s' ∧ ctl s' = ctl s ∧ trail (asg s') = trail (asg s) ++ [p] ∧ nVars (asg s') = nVars (asg s) ∧ dec s' = dec s.
Proof.
  intros I Q Hp Hv Hk Has. pose proof (si_mid _ _ _ _ _ I) as M. pose proof (mi_asg _ _ _ _ _ M) as A. pose proof (new_level_mid stk s I Q) as M'.
  unfold decide_literal. rewrite (value_ok _ p A Hp), Hv. cbn [rbind]. rewrite bool_decide_true by done. cbn [check rbind].
  set (s1 := newDecisionLevel s) in *. pose proof (mi_asg _ _ _ _ _ M') as A1. assert (var p < nVars (asg s1)) as Hp1 by done. assert (val (trail (asg s1)) p = l_Undef) as Hv1 by done.
  assert (decisionLevel (asg s1) = S (decisionLevel (asg s))) as ED by (unfold decisionLevel; cbn; rewrite length_app; cbn; lia).
  rewrite enqueue_eq by done. cbn [rbind]. eexists. split; [done|]. split; [|split; [done|split; [done|split; [exact (enqueued_nVars p CRef_Undef (asg s1))|done]]]]. destruct I as [_ T U W Hs Hcl].
  constructor; cbn [asg db theory seen cleanup set_asg]; try done.
  - apply mid_enqueue; try done.
    + unfold reason_ok. rewrite enqueued_rs_eq, enqueued_lv_eq by done. right. rewrite ED. cbn. rewrite Nat.sub_0_r. unfold decisionLevel. by apply list_lookup_middle.
    + lia.
    + intros _. right. destruct Has as [Hin|Hle]; [left; by eapply list_elem_of_lookup_2|right; lia].
  - intros i q Hi Hlt. change (decisionLevel (enqueued p CRef_Undef (asg s1))) with (decisionLevel (asg s1)) in Hlt. rewrite ED in Hlt.
    destruct (decide (i = decisionLevel (asg s))) as [->|].
    + destruct Has as [Hin|Hle]; [|apply lookup_lt_Some in Hi; lia]. assert (q = p) as -> by congruence. split; [apply elem_of_app; right; by left|]. rewrite enqueued_lv_eq by done. lia.
    + apply (taken_enqueue As (asg s1) p CRef_Undef (decisionLevel (asg s)) A1 Hp1 Hv1 U); [done|lia].
  - by apply (below_enqueue Kn (attached (db s)) (mem_of (db s)) (asg s1) p CRef_Undef).
  - by rewrite enqueued_nVars.
Qed.

(** *** The theory *)

Lemma mid_theory stk stk' s th : mid stk s → th_keeps stk (theory s) th → stk `prefix_of` stk' → stk' `prefix_of` trail (asg s) → mid stk' (set_theory th s).
Proof.
  intros M [Hk Hx] P1 P2. constructor; try apply M; cbn [asg db theory set_theory]; try done.
  - destruct (mi_core _ _ _ _ _ M) as [C1 C2 C3 C4 C5]. constructor; try done. intros i p Hi. pose proof (C1 i p Hi) as HR. unfold reason_ok in *.
    destruct (rs (asg s) (var p)); [done| |done]. destruct HR as (? & k & [He Hp] & ?). split; [done|]. exists k. split; [|done]. split; [by apply Hx|etrans; [exact Hp|done]].
  - intros v. rewrite Hk. apply M.
Qed.
Lemma inv_theory stk s th : inv stk s → th_keeps stk (theory s) th → th_ok stk th → inv stk (set_theory th s).
Proof. intros [M T U W Hs Hcl] Kp Hok. constructor; try done. eapply mid_theory; [done..|apply M]. Qed.

(** *** Decisions *)

Lemma choosePolarity_ok stk s v : th_ok stk (theory s) → v < length (savedPolarity (dec s)) →
  ∃ p th, choosePolarity v s = Ok (p, set_theory th s) ∧ var p = v ∧ th_keeps stk (theory s) th ∧ th_ok stk th.
Proof.
  intros T Hv. unfold choosePolarity.
  assert (∃ x th, (if use_theory_polarity_suggestion (config s) && th_isDeclared v (theory s) then th_getPolaritySuggestion v (theory s) else Ok (l_Undef, theory s)) = Ok (x, th)
    ∧ th_keeps stk (theory s) th ∧ th_ok stk th) as (x & th & -> & Kp & T').
  { destruct (_ && th_isDeclared v (theory s)) eqn:E.
    - apply andb_true_iff in E as [_ E%isDeclared_iff]. destruct (proj1 (wp_total _ _) (getPolaritySuggestion_ok v stk (theory s) T E)) as ([x th] & -> & Kp & Hok). by exists x, th.
    - exists l_Undef, (theory s). split; [done|]. split; [by split|done]. }
  cbn [rbind fst snd]. destruct (bool_decide (x = l_Undef)); [|by exists (mkLit v (bool_decide (x ≠ l_True))), th; rewrite var_mkLit].
  cbn [dec set_theory]. destruct (lookup_lt_is_Some_2 (savedPolarity (dec s)) v Hv) as [b Hb]. unfold at_. rewrite Hb. cbn [rbind].
  eexists _, th. split; [done|]. by rewrite var_mkLit.
Qed.

Lemma decide_literal_dec p o s : decide_literal p (set_dec o s) = let! s' := decide_literal p s in Ok (set_dec o s').
Proof.
  unfold decide_literal. cbn [asg set_dec]. destruct (value (asg s) p); [|done]. cbn [rbind]. destruct (check _); [|done]. cbn [rbind].
  change (asg (newDecisionLevel (set_dec o s))) with (asg (newDecisionLevel s)). by destruct (uncheckedEnqueue isTheoryTerm p CRef_Undef (asg (newDecisionLevel s))).
Qed.

Lemma pick_ok stk s : inv stk s → quiet s → length As ≤ decisionLevel (asg s) → ∃ r s', pickBranchLit s = Ok (r, s') ∧
  match r with
  | None => inv stk s' ∧ asg s' = asg s ∧ ctl s' = ctl s ∧ ∀ v, decision (dec s') !! v = Some true → v ∈ var <$> trail (asg s')
  | Some p => ∃ s2, decide_literal p s' = Ok s2 ∧ inv stk s2 ∧ ctl s2 = ctl s
  end.
Proof.
  intros I Q HD. pose proof (si_mid _ _ _ _ _ I) as M. pose proof (mi_asg _ _ _ _ _ M) as A.
  destruct (pick_var_ok (config s) (nVars (asg s)) (asg s) (dec s) A eq_refl (mi_dec _ _ _ _ _ M) (mi_covers _ _ _ _ _ M)) as (r & o & E & Do & Ed & Ep & Cb & Hr).
  assert (pickBranchLit s = match r with None => Ok (None, set_dec o s) | Some next => let! r := choosePolarity next (set_dec o s) in Ok (Some r.1, r.2) end) as ->.
  { unfold pickBranchLit. destruct (doRandomDecision (config s) (dec s)) as [x|]; [|done]. cbn [rbind] in *.
    destruct (match x.1 with Some next => rejected (asg s) x.2 next | None => Ok true end) as [b|]; [|done]. cbn [rbind] in *. by rewrite E. }
  destruct r as [v|].
  - destruct Hr as (Hv & Hvt & Hd). destruct (choosePolarity_ok stk (set_dec o s) v) as (p & th & -> & Evp & Kp & T'); [apply I|cbn; by rewrite (de_polarity _ _ Do)|].
    cbn [rbind fst snd]. eexists _, _. split; [done|]. subst v. rewrite Ed in Hd.
    destruct (decide_ok stk (set_theory th s) p) as (s2 & E2 & I2 & Ec2 & Et2 & En2 & Ed2); [by apply inv_theory|done|done|by apply val_undef|by apply (mi_known _ _ _ _ _ M)|by right|].
    change (set_theory th (set_dec o s)) with (set_dec o (set_theory th s)). rewrite decide_literal_dec, E2. cbn [rbind]. exists (set_dec o s2). split; [done|]. split; [|done].
    apply inv_dec; [done|by rewrite En2|by rewrite Ed2|]. rewrite Et2. cbn [asg set_theory]. intros x Hx Hxt. rewrite fmap_app, elem_of_app in Hxt. assert (x ∉ var <$> trail (asg s)) as Hxs by tauto.
    destruct (Cb x Hx Hxs) as [[= <-]|]; [|done]. exfalso. apply Hxt. right. by left.
  - exists None, (set_dec o s). split; [done|]. split; [|split; [done|split; [done|exact Hr]]]. apply inv_dec; [done..|]. intros v Hd Hvt. by destruct (Cb v Hd Hvt).
Qed.

End choose.

(** * The SAT solver: assumptions that fail

    [analyzeFinal] walks back over the trail from an assumption that is false; the
    theory is taken back and forth for the reasons it gives.  The loop over the
    assumptions returns. *)

Lemma foldM_app {S A} (f : S → A → res S) l1 l2 s : foldM f s (l1 ++ l2) = let! s := foldM f s l1 in foldM f s l2.
Proof. revert s. induction l1 as [|x l1 IH]; intros s; [done|]. cbn [app foldM]. destruct (f s x); [apply IH|done]. Qed.

(** *** Taking literals off and putting them back *)

Section temp.
Implicit Types (a : Assignment) (l : list lbool) (p q : Lit) (ps qs : list Lit) (v : Var).

Definition with_assigns l a : Assignment := MkAssignment l (vardata a) (trail a) (trail_lim a) (qhead a).
Definition values_of l qs : list lbool := (λ q, default l_Undef (l !! var q)) <$> qs.

Lemma temp_init_ok a qs : ∀ l ps xs, NoDup (var <$> qs) → (∀ q, q ∈ qs → var q < length l) →
  ∃ l', foldM (λ r p, let! x := value_var r.2 (var p) in let! a := unassign (var p) r.2 in Ok (r.1.1 ++ [p], r.1.2 ++ [x], a)) (ps, xs, with_assigns l a) qs
      = Ok (ps ++ qs, xs ++ values_of l qs, with_assigns l' a) ∧ released (var <$> qs) l l'.
Proof.
  induction qs as [|q qs IH]; intros l ps xs N Hv; cbn [foldM].
  - exists l. unfold values_of. cbn. rewrite !app_nil_r. split; [done|]. split; [done|]. split; [|done]. intros v Hin. by apply elem_of_nil in Hin.
  - rewrite fmap_cons in N. apply NoDup_cons in N as [Nq N]. destruct (lookup_lt_is_Some_2 l (var q)) as [x Hx]; [apply Hv; by left|]. unfold value_var at 1, at_. cbn [fst snd assigns with_assigns].
    rewrite Hx. cbn [rbind]. unfold unassign at 1, upd. cbn [assigns with_assigns]. rewrite (proj2 (Nat.ltb_lt _ _)) by (apply Hv; by left). cbn [rbind].
    destruct (IH (<[var q := l_Undef]> l) (ps ++ [q]) (xs ++ [x]) N) as (l' & E & L & R1 & R2); [intros u Hu; rewrite length_insert; apply Hv; by right|].
    exists l'. split.
    + assert (values_of (<[var q := l_Undef]> l) qs = values_of l qs) as Ev.
      { apply list_fmap_ext. intros i u Hu. rewrite list_lookup_insert_ne; [done|]. intros E'. apply Nq. rewrite E'. apply list_elem_of_fmap_2. by eapply list_elem_of_lookup_2. }
      assert (values_of l (q :: qs) = x :: values_of l qs) as -> by (unfold values_of; cbn [fmap list_fmap]; by rewrite Hx). rewrite Ev, <- !(assoc (++)) in E. exact E.
    + rewrite length_insert in L, R1. split; [done|]. split.
      * intros v Hin Lv. destruct (decide (v ∈ var <$> qs)) as [|Hn]; [by apply R1|]. rewrite R2 by done. rewrite fmap_cons in Hin. apply elem_of_cons in Hin as [->|?]; [|done].
        by apply list_lookup_insert_eq.
      * intros v Hn. rewrite fmap_cons in Hn. apply not_elem_of_cons in Hn as [Hne Hn]. rewrite R2 by done. by apply list_lookup_insert_ne.
Qed.

Lemma temp_done_ok a l qs : ∀ l1, NoDup (var <$> qs) → (∀ q, q ∈ qs → var q < length l1) → length l1 = length l →
  ∃ l2, foldM (λ a px, let! l := upd (assigns a) (var px.1) px.2 in Ok (set_trail (trail a ++ [px.1]) (MkAssignment l (vardata a) (trail a) (trail_lim a) (qhead a))))
      (with_assigns l1 a) (reverse (zip qs (values_of l qs))) = Ok (set_trail (trail a ++ reverse qs) (with_assigns l2 a))
    ∧ length l2 = length l1 ∧ ∀ v, l2 !! v = if decide (v ∈ var <$> qs) then l !! v else l1 !! v.
Proof.
  induction qs as [|q qs IH]; intros l1 N Hv Hl.
  - exists l1. cbn. rewrite app_nil_r. split; [done|]. split; [done|]. intros v. by rewrite decide_False by (by intros ?%elem_of_nil).
  - rewrite fmap_cons in N. apply NoDup_cons in N as [Nq N]. unfold values_of in *. cbn [fmap list_fmap zip zip_with]. rewrite !reverse_cons, foldM_app.
    destruct (IH l1 N) as (l2 & -> & L2 & R2); [intros; apply Hv; by right|done|]. cbn [rbind foldM fst snd assigns with_assigns set_trail trail vardata trail_lim qhead].
    unfold upd. rewrite L2, (proj2 (Nat.ltb_lt _ _)) by (apply Hv; by left). cbn [rbind]. exists (<[var q := default l_Undef (l !! var q)]> l2). split; [by rewrite (assoc (++))|].
    split; [by rewrite length_insert|]. assert (var q < length l) as Lq by (rewrite <- Hl; apply Hv; by left). intros v. destruct (decide (v = var q)) as [->|Hne].
    + rewrite list_lookup_insert_eq by (rewrite L2; apply Hv; by left). rewrite decide_True by (by left). by destruct (lookup_lt_is_Some_2 l (var q) Lq) as [x ->].
    + rewrite list_lookup_insert_ne by done. rewrite R2. destruct (decide (v ∈ var <$> qs)); [by rewrite decide_True by (by right)|].
      rewrite decide_False; [done|]. by intros [?|?]%elem_of_cons.
Qed.

End temp.

Section final.
Context {F Th : Type} `{DoubleLaws F} `{THandlerLaws Th}.
Context (K : list (list Lit)) (Kn : Var → Prop) (As : list Lit).
Implicit Types (s : Solver F Th) (a : Assignment) (d : Database F) (o : @Decisions F) (p q t : Lit) (v : Var) (stk ps qs : list Lit) (out : list Lit).
Abbreviation mid := (mid_inv K Kn As).
Abbreviation inv := (sinv K Kn As).

(** The reason of a theory literal, and back. *)
Lemma temp_reason_ok s c q : asg_ok (asg s) → trail (asg s) !! c = Some q → th_ok (trail (asg s)) (theory s) →
  ∀ k, th_explains k q (theory s) → k `prefix_of` take c (trail (asg s)) →
  ∃ ps xs s1 ps' th, cancelUntilVarTempInit (var q) s = Ok (ps, xs, s1) ∧ th_getReason q (theory s1) = Ok (q :: ps', th) ∧ (∀ u, u ∈ ps' → lit_not u ∈ take c (trail (asg s)))
    ∧ seen s1 = seen s ∧ ∀ sn, ∃ th', cancelUntilVarTempDone ps xs (set_seen sn (set_theory th s1)) = Ok (set_theory th' (set_seen sn s))
      ∧ th_ok (trail (asg s)) th' ∧ th_keeps (take c (trail (asg s))) (theory s) th'.
Proof.
  intros A Hc T k Hex Hk. pose proof (lookup_lt_Some _ _ _ Hc) as Lc. set (a := asg s) in *. set (qs := reverse (drop c (trail a))).
  assert (NoDup (var <$> qs)) as N.
  { unfold qs. rewrite reverse_Permutation. pose proof (ao_nodup A) as N. rewrite <- (take_drop c (trail a)), fmap_app in N. by apply NoDup_app in N as (_ & _ & ?). }
  assert (∀ u, u ∈ qs → var u < nVars a) as Hv.
  { intros u Hu. apply (ao_vars A). unfold qs in Hu. rewrite reverse_Permutation in Hu. rewrite <- (take_drop c (trail a)). apply elem_of_app. by right. }
  destruct (temp_init_ok a qs (assigns a) [] [] N) as (l1 & Ei & L1 & R1 & R2); [intros; rewrite (ao_length A); by apply Hv|]. replace (with_assigns (assigns a) a) with a in Ei by by destruct a.
  assert (nAssigns (set_trail (take c (trail a)) (with_assigns l1 a)) = c) as En by (unfold nAssigns; cbn; rewrite length_take; lia).
  destruct (proj1 (wp_total _ _) (backtrack_ok (Z.of_nat c) (trail a) (theory s) T)) as (th1 & Eb & Kp1 & T1 & U1). rewrite Nat2Z.id in *.
  assert (q ∉ take c (trail a)) as Hqc.
  { intros [i [Hi Hq]%take_lookup_inv]%list_elem_of_lookup. pose proof (trail_index_inj a i c q q A Hq Hc eq_refl). lia. }
  destruct (proj1 (wp_total _ _) (getReason_ok k q (take c (trail a)) th1 T1 (proj2 Kp1 k q Hk Hex) Hk Hqc)) as ([r th2] & Er & Kp2 & T2 & U2 & ps' & Er' & Hps & _). cbn [fst snd] in *. subst r.
  exists qs, (values_of (assigns a) qs), (set_theory th1 (set_asg (set_trail (take c (trail a)) (with_assigns l1 a)) s)), ps', th2. split; [|split; [done|split; [done|split; [done|]]]].
  - unfold cancelUntilVarTempInit. fold a. rewrite (last_position_ok _ c); [|apply A|done|done|done]. cbn [rbind]. fold qs. rewrite Ei. cbn [rbind fst snd trail with_assigns app]. by rewrite En, Eb.
  - intros sn. unfold cancelUntilVarTempDone. cbn [asg set_seen set_theory set_asg].
    destruct (temp_done_ok (set_trail (take c (trail a)) a) (assigns a) qs l1 N) as (l2 & Ed & L2 & V2); [intros; rewrite L1, (ao_length A); by apply Hv|done|].
    change (set_trail (take c (trail a)) (with_assigns l1 a)) with (with_assigns l1 (set_trail (take c (trail a)) a)). rewrite Ed. cbn [rbind trail set_trail with_assigns].
    unfold qs at 1. rewrite reverse_involutive, take_drop. assert (l2 = assigns a) as ->.
    { apply list_eq. intros v. rewrite V2. destruct (decide _); [done|by apply R2]. }
    destruct (proj1 (wp_total _ _) (assert_undone (trail a) (take c (trail a)) th2 T2 (U2 _ U1) (prefix_take _ _))) as ([b th3] & Ea & Eb3 & Kp3 & T3). cbn [fst snd theory set_theory set_seen] in *. subst b.
    unfold qs. rewrite reverse_involutive, take_drop. cbn [trail set_trail]. rewrite Ea. cbn [rbind fst snd]. exists th3. split; [|split; [done|]].
    + f_equal. unfold set_theory, set_seen, set_asg. cbn. f_equal. unfold set_trail, with_assigns. cbn. unfold a. by destruct (asg s).
    + destruct Kp1 as [A1 B1], Kp2 as [A2 B2], Kp3 as [A3 B3]. split; [intros v; by rewrite A3, A2, A1|]. intros k' p Hk' Hp. by apply B3, B2, B1.
Qed.

Lemma mark_seen_ok sn ps : (∀ q, q ∈ ps → var q < length sn) →
  ∃ sn', mark_seen sn ps = Ok sn' ∧ length sn' = length sn ∧ ∀ v, sn' !! v = Some true ↔ v ∈ var <$> ps ∨ sn !! v = Some true.
Proof.
  unfold mark_seen. revert sn. induction ps as [|p ps IH]; intros sn Hv; cbn [foldM].
  - exists sn. split; [done|]. split; [done|]. intros v. split; [by right|]. by intros [?%elem_of_nil|?].
  - assert (var p < length sn) as Hp by (apply Hv; by left). unfold upd at 1. rewrite (proj2 (Nat.ltb_lt _ _) Hp). cbn [rbind].
    destruct (IH (<[var p := true]> sn)) as (sn' & -> & L & Hs); [intros q Hq; rewrite length_insert; apply Hv; by right|]. rewrite length_insert in L. exists sn'. split; [done|]. split; [done|].
    intros v. rewrite Hs, seen_lookup, fmap_cons, elem_of_cons by done. tauto.
Qed.

(** *** The walk over the trail *)

Section walk.
Context (s0 : Solver F Th).
Abbreviation a := (asg s0).
Abbreviation T := (trail (asg s0)).
Abbreviation n := (nVars (asg s0)).
Hypothesis M0 : mid T s0.

(** The positions from [i] on were looked at. *)
Record walked (i : nat) out s : Prop := {
  wa_asg : asg s = a;
  wa_db : db s = db s0;
  wa_order : assumptions_order s = assumptions_order s0;
  wa_ctl : ctl s = ctl s0;
  wa_th : th_ok T (theory s);
  wa_explained j q : j < i → T !! j = Some q → rs a (var q) = CRef_Fake → ∃ k, th_explains k q (theory s) ∧ k `prefix_of` take j T;
  wa_length : length (seen s) = n;
  wa_seen v : seen s !! v = Some true → v ∈ var <$> take i T;
  wa_out q : q ∈ out → sign q = false → is_Some (assumptions_order s0 !! var q);
}.

Lemma walked_next i out s sn q : walked (S i) out s → T !! i = Some q → length sn = n → (∀ v, sn !! v = Some true → v ∈ var <$> take i T ∨ seen s !! v = Some true) →
  walked i out (set_seen (<[var q := false]> sn) s).
Proof.
  intros [E1 E2 E3 E4 Ht He Hl Hs Ho] Hq Ln Hn. constructor; cbn [asg db ctl assumptions_order theory seen set_seen]; try done.
  - intros j u Hj. apply He. lia.
  - by rewrite length_insert.
  - intros v Hv. assert (var q < n) as Hqn by (apply (ao_vars (mi_asg _ _ _ _ _ M0)); by eapply list_elem_of_lookup_2).
    destruct (decide (v = var q)) as [->|Hne]; [by rewrite list_lookup_insert_eq in Hv by by rewrite Ln|]. rewrite list_lookup_insert_ne in Hv by done.
    destruct (Hn v Hv) as [?|Hsv]; [done|]. apply Hs in Hsv. rewrite (take_S_r _ _ q Hq), fmap_app, elem_of_app in Hsv. destruct Hsv as [?|Hsv]; [done|].
    exfalso. by apply list_elem_of_singleton in Hsv.
Qed.

Lemma final_literal_ok i out s : walked (S i) out s → i < length T → ∃ out' s', final_literal (out, s) i = Ok (out', s') ∧ walked i out' s'.
Proof.
  intros Wk Hi. pose proof (mi_asg _ _ _ _ _ M0) as A. destruct (lookup_lt_is_Some_2 T i Hi) as [q Hq]. pose proof Wk as [E1 E2 E3 E4 Ht He Hl Hs Ho].
  assert (var q < n) as Hqn by (apply (ao_vars A); by eapply list_elem_of_lookup_2). unfold final_literal, at_ at 1. rewrite E1, Hq. cbn [rbind].
  destruct (lookup_lt_is_Some_2 (seen s) (var q)) as [b Hb]; [by rewrite Hl|]. unfold at_ at 1. rewrite Hb. cbn [rbind]. destruct b.
  2:{ exists out, s. split; [done|]. constructor; try done; [intros j u Hj; apply He; lia|]. intros v Hv. pose proof (Hs v Hv) as Hv'. rewrite (take_S_r _ _ q Hq), fmap_app, elem_of_app in Hv'.
      destruct Hv' as [?|Hv']; [done|]. apply list_elem_of_singleton in Hv'. congruence. }
  rewrite reason_of_ok by done. cbn [rbind]. pose proof (ci_reason _ _ _ _ _ (mi_core _ _ _ _ _ M0) i q Hq) as HR. unfold reason_ok in HR.
  assert (∀ ps, (∀ u, u ∈ ps → lit_not u ∈ take i T) → (∀ u, u ∈ ps → var u < n) ∧ ∀ v, v ∈ var <$> ps → v ∈ var <$> take i T) as Hps.
  { intros ps Hp. split; [intros u Hu; rewrite <- var_not; apply (ao_vars A); eapply take_sub; by apply Hp|]. intros v (u & -> & Hu)%list_elem_of_fmap. rewrite <- var_not. apply list_elem_of_fmap_2. by apply Hp. }
  destruct (rs a (var q)) as [| |cr] eqn:Er.
  - cbn [rbind fst snd]. unfold upd. rewrite Hl, (proj2 (Nat.ltb_lt _ _) Hqn). cbn [rbind]. eexists _, _. split; [done|].
    pose proof (walked_next i out s (seen s) q Wk Hq Hl ltac:(by right)) as Wn. rewrite E3. destruct (bool_decide_reflect (is_Some (assumptions_order s0 !! var q))) as [Hso|Hso]; [|done].
    destruct Wn. constructor; try done. intros u [Hu|Hu%list_elem_of_singleton]%elem_of_app; [by apply Ho|]. subst u. intros _. by rewrite var_not.
  - destruct (He i q ltac:(lia) Hq Er) as (k & Hk1 & Hk2). rewrite <- E1 in A, Hq, Ht, Hk2.
    destruct (temp_reason_ok s i q A Hq Ht k Hk1 Hk2) as (ps & xs & s1 & ps' & th & -> & Hg & Hp & Es1 & Hdone). cbn [rbind]. rewrite Hg. cbn [rbind fst snd length Nat.ltb Nat.leb check].
    cbn [at_ lookup list_lookup rbind]. rewrite bool_decide_true by done. cbn [check rbind drop seen set_theory]. rewrite Es1, drop_0. rewrite E1 in Hp, Hq. destruct (Hps ps' Hp) as [Hr Hin].
    destruct (mark_seen_ok (seen s) ps') as (sn & -> & Ls & Hsn); [by rewrite Hl|]. cbn [rbind]. destruct (Hdone sn) as (th' & -> & Ht' & Kp'). cbn [rbind fst snd seen set_theory set_seen].
    unfold upd. rewrite Ls, Hl, (proj2 (Nat.ltb_lt _ _) Hqn). cbn [rbind]. eexists _, _. split; [done|].
    pose proof (walked_next i out s sn q Wk Hq ltac:(congruence)) as Wn. destruct Wn as [F1 F2 F3 F4 _ _ F6 F7 F8]; [intros v [?%Hin|?]%Hsn; auto|].
    rewrite E1 in Ht', Kp'. constructor; try done. intros j u Hj Hu Eu. destruct (He j u ltac:(lia) Hu Eu) as (k' & Hk' & Hp'). exists k'. split; [|done].
    apply Kp'; [|done]. etrans; [exact Hp'|]. rewrite <- (Nat.min_l j i), <- take_take by lia. apply prefix_take.
  - destruct HR as (c & ps & Hc & El & Hp). rewrite E2, (clause_at_ok cr c) by done. cbn [rbind]. rewrite El. cbn [at_ lookup list_lookup rbind]. rewrite bool_decide_true by done. cbn [check rbind drop].
    rewrite drop_0. destruct (Hps ps Hp) as [Hr Hin]. destruct (mark_seen_ok (seen s) ps) as (sn & -> & Ls & Hsn); [by rewrite Hl|]. cbn [rbind fst snd seen set_seen].
    unfold upd. rewrite Ls, Hl, (proj2 (Nat.ltb_lt _ _) Hqn). cbn [rbind]. eexists _, _. split; [done|].
    apply (walked_next i out s sn q Wk Hq); [congruence|]. intros v [?%Hin|?]%Hsn; auto.
Qed.

Lemma analyzeFinal_ok p : var p ∈ var <$> T → th_ok T (theory s0) → seen s0 = replicate n false → (sign p = false → is_Some (assumptions_order s0 !! var p)) →
  ∃ out s', analyzeFinal p s0 = Ok (out, s') ∧ ctl s' = ctl s0 ∧ ∀ q, q ∈ out → sign q = false → is_Some (assumptions_order s' !! var q).
Proof.
  intros Hp Ht Hs Ho. pose proof (mi_asg _ _ _ _ _ M0) as A. assert (var p < n) as Hpn by (apply list_elem_of_fmap in Hp as (u & -> & Hu); by apply (ao_vars A)).
  unfold analyzeFinal, upd. rewrite Hs, length_replicate, (proj2 (Nat.ltb_lt _ _) Hpn). cbn [rbind].
  assert (walked (length T) [p] (set_seen (<[var p := true]> (replicate n false)) s0)) as Wk.
  { constructor; try done; cbn [seen set_seen theory].
    - intros j q _ Hq Er. pose proof (ci_reason _ _ _ _ _ (mi_core _ _ _ _ _ M0) j q Hq) as HR. unfold reason_ok in HR. rewrite Er in HR. destruct HR as (_ & k & [? _] & ?). by exists k.
    - by rewrite length_insert, length_replicate.
    - intros v Hv. apply seen_lookup in Hv as [->|Hv]; [|by apply lookup_replicate in Hv as [? _]|by rewrite length_replicate]. by rewrite take_ge by done.
    - intros q Hq%list_elem_of_singleton. by subst q. }
  assert (∀ i out s, walked i out s → i ≤ length T → ∃ out' s', foldM final_literal (out, s) (reverse (seq 0 i)) = Ok (out', s') ∧ walked 0 out' s') as Hf.
  { induction i as [|i IH]; intros out s Wi Hi; [by exists out, s|]. rewrite seq_S, reverse_snoc. cbn [foldM Nat.add].
    destruct (final_literal_ok i out s Wi ltac:(lia)) as (out1 & s1 & E1 & W1). rewrite E1. cbn [rbind]. apply IH; [done|lia]. }
  destruct (Hf _ _ _ Wk (Nat.le_refl _)) as (out & s' & E & W'). unfold nAssigns. rewrite E. cbn [rbind snd]. destruct W' as [F1 F2 F3 F4 _ _ F6 F7 F8].
  destruct (lookup_lt_is_Some_2 (seen s') (var p)) as [b Hb]; [by rewrite F6|]. unfold at_. rewrite Hb. cbn [rbind]. destruct b; [by apply F7, elem_of_nil in Hb|].
  cbn [negb check rbind]. exists out, s'. split; [done|]. split; [done|]. by rewrite F3.
Qed.

End walk.

(** *** The loop over the assumptions *)

(** As long as all levels are of assumptions, the trail follows from them. *)
Lemma trail_implied stk s σ : mid stk s → decisionLevel (asg s) ≤ length As → kmodel K σ → satisfies σ As → ∀ p, p ∈ trail (asg s) → lit_value σ p = true.
Proof.
  intros M HD Hσ Has p [i Hi]%list_elem_of_lookup. revert p Hi. induction i as [i IH] using (well_founded_ind lt_wf). intros p Hp.
  assert (p ∈ trail (asg s)) as Hpt by by eapply list_elem_of_lookup_2. pose proof (mi_asg _ _ _ _ _ M) as A.
  assert (∀ q, q ∈ take i (trail (asg s)) → lit_value σ q = true) as IH'.
  { intros q [j [Hj Hq]%take_lookup_inv]%list_elem_of_lookup. by apply (IH j). }
  pose proof (ci_reason _ _ _ _ _ (mi_core _ _ _ _ _ M) i p Hp) as HR. unfold reason_ok in HR. destruct (rs (asg s) (var p)) as [| |cr] eqn:Er.
  - destruct (mi_assumed _ _ _ _ _ M p Hpt Er) as [Hz|[Hin|Hlt]]; [|by apply Has|pose proof (lv_le _ _ A Hpt); lia].
    destruct (proj1 (entails_iff K [p]) (ci_fact _ _ _ _ _ (mi_core _ _ _ _ _ M) p Hpt Hz) σ Hσ) as (q & Hq%list_elem_of_singleton & Hqt). by subst q.
  - destruct HR as (_ & k & [Hex _] & [t Et]). apply (explains_sound k p (theory s) Hex σ (proj1 Hσ)). intros q Hq. apply IH'. rewrite Et. apply elem_of_app. by left.
  - destruct HR as (c & ps & Hc & El & Hps). destruct (proj1 (entails_iff K (lits c)) (ci_entailed _ _ _ _ _ (mi_core _ _ _ _ _ M) cr c Hc) σ Hσ) as (q & Hq & Hqt).
    rewrite El in Hq. apply elem_of_cons in Hq as [->|Hq]; [done|]. pose proof (IH' _ (Hps q Hq)) as Hv. rewrite lit_value_not, Hqt in Hv. done.
Qed.

Lemma next_assumption_ok fuel s : inv (trail (asg s)) s → quiet s → length As - decisionLevel (asg s) ≤ fuel → ∃ r, next_assumption fuel s = Ok r ∧
  match r with
  | inl (None, s') => inv (trail (asg s')) s' ∧ quiet s' ∧ length As ≤ decisionLevel (asg s') ∧ ctl s' = ctl s
  | inl (Some p, s') => inv (trail (asg s')) s' ∧ quiet s' ∧ As !! decisionLevel (asg s') = Some p ∧ val (trail (asg s')) p = l_Undef ∧ ctl s' = ctl s
  | inr (x, s') => x = l_False ∧ ctl s' = ctl s ∧ ∀ σ, kmodel K σ → ¬ satisfies σ As
  end.
Proof.
  revert s. induction fuel as [|fuel IH]; intros s I Q HD; pose proof (si_mid _ _ _ _ _ I) as M; cbn [next_assumption]; rewrite (mi_assumptions _ _ _ _ _ M).
  { rewrite (proj2 (Nat.ltb_ge _ _)) by lia. exists (inl (None, s)). split; [done|]. split; [done|]. split; [done|]. split; [lia|done]. }
  destruct (Nat.ltb_spec (decisionLevel (asg s)) (length As)) as [Hlt|Hge]; [|by exists (inl (None, s))].
  destruct (lookup_lt_is_Some_2 As _ Hlt) as [p Hp]. unfold at_ at 1. rewrite Hp. cbn [rbind]. pose proof (mi_asg _ _ _ _ _ M) as A.
  destruct (mi_as _ _ _ _ _ M p) as [Hpn Hpk]; [by eapply list_elem_of_lookup_2|]. rewrite (value_ok (asg s) p A Hpn). cbn [rbind].
  destruct (val_cases (trail (asg s)) p) as [[-> Ht]|[(-> & _ & Ht)|[Ev _]]].
  - pose proof (new_level_inv K Kn As _ s p I Q Hp Ht) as I'. destruct (IH (newDecisionLevel s)) as (r & -> & Hr); [exact I'|exact Q| |by exists r].
    assert (decisionLevel (asg (newDecisionLevel s)) = S (decisionLevel (asg s))) as ED by (unfold decisionLevel; cbn; rewrite length_app; cbn; lia). lia.
  - destruct (analyzeFinal_ok s M (lit_not p)) as (out & s1 & -> & Ec1 & Hout); [rewrite var_not, <- var_not; by apply list_elem_of_fmap_2|apply I|apply I| |].
    { rewrite sign_not, var_not. intros Hs%negb_false_iff. apply (mi_order _ _ _ _ _ M); [by eapply list_elem_of_lookup_2|done]. }
    cbn [rbind fst snd]. set (s2 := set_results _ _ _). change (conflict s2) with out. change (assumptions_order s2) with (assumptions_order s1).
    match goal with |- context [foldM ?f 0 out] => destruct (fold_live f (λ _, True) out 0) as (max & -> & _) end; [done| |].
    { intros m q Hq _. destruct (sign q) eqn:Es; cbn [negb]; [by eexists|]. destruct (Hout q Hq Es) as [k ->]. by eexists. }
    cbn [rbind]. eexists. split; [done|]. split; [done|]. split; [exact Ec1|]. intros σ Hσ Has. pose proof (trail_implied _ s σ M ltac:(lia) Hσ Has _ Ht) as Hv.
    rewrite lit_value_not, Has in Hv by by eapply list_elem_of_lookup_2. done.
  - rewrite Ev. exists (inl (Some p, s)). done.
Qed.

End final.
