(* ===== verification/SatSearch.v ===== *)
(** * The SAT solver: the theory

    [checkTheory] gives the trail to the theory and asks it: what it deduces is
    enqueued, and a conflict is analyzed like one of the clauses. *)
From S2P Require Import Prelude Sort NatSet SatLits Terms Heap SatData SatCore SatSpec SatPropagate SatInv SatAnalyze SatResolve SatConflict.
From S2P Require Import SatLearnt SatReduce SatFinal.
From stdpp Require Import gmap.
From Stdlib Require Import Lia.

#[local] Open Scope nat_scope.

Section theory.
Context {F Th : Type} `{DoubleLaws F} `{THandlerLaws Th}.
Context (K : list (list Lit)) (Kn : Var → Prop) (As : list Lit).
Implicit Types (s : Solver F Th) (a : Assignment) (d : Database F) (o : @Decisions F) (p q t : Lit) (v : Var) (stk ps qs ds : list Lit).
Abbreviation mid := (mid_inv K Kn As).
Abbreviation inv := (sinv K Kn As).
Abbreviation cinv := (conflict_inv K Kn As).

Lemma keeps_refl stk (th : Th) : th_keeps stk th th.
Proof. by split. Qed.
Lemma keeps_trans stk stk' (th1 th2 th3 : Th) : stk `prefix_of` stk' → th_keeps stk th1 th2 → th_keeps stk' th2 th3 → th_keeps stk th1 th3.
Proof. intros P [A1 B1] [A2 B2]. split; [intros v; by rewrite A2, A1|]. intros k p Hk Hp. apply B2; [by etrans|]. by apply B1. Qed.

(** *** What the theory deduces *)

Lemma deduce_from_ok T ds : ∀ fuel deds s, trail (asg s) = T → asg_ok (asg s) → th_ok T (theory s) → th_queue ds (theory s) → (∀ p, p ∈ ds → var p < nVars (asg s)) → length ds ≤ fuel →
  ∃ l th, deduce_from fuel deds s = Ok (deds ++ l, set_theory th s) ∧ th_keeps T (theory s) th ∧ th_ok T th ∧ l `sublist_of` ds
    ∧ ∀ p, p ∈ l → val T p = l_Undef ∧ th_explains T p th.
Proof.
  induction ds as [|p ds IH]; intros fuel deds s Et A Ht Hq Hv Hl.
  - destruct (proj1 (wp_total _ _) (getDeduction_ok [] T (theory s) Ht Hq)) as ([r th] & E & Kp & Ht' & Er). cbn [fst snd] in *. subst r.
    exists [], th. rewrite app_nil_r. split; [destruct fuel; cbn [deduce_from]; rewrite E; done|]. split; [done|]. split; [done|]. split; [done|]. by intros ? ?%elem_of_nil.
  - destruct (proj1 (wp_total _ _) (getDeduction_ok (p :: ds) T (theory s) Ht Hq)) as ([r th] & E & Kp & Ht' & Er & Hq' & Hex). cbn [fst snd] in *. subst r.
    destruct fuel as [|fuel]; [cbn in Hl; lia|]. cbn [deduce_from]. rewrite E. cbn [rbind fst snd asg set_theory]. rewrite (value_ok (asg s) p A) by (apply Hv; by left). cbn [rbind]. rewrite Et.
    set (u := bool_decide (val T p ≠ l_Undef)). destruct (IH fuel (if u then deds else deds ++ [p]) (set_theory th s)) as (l & th' & -> & Kp' & Ht2 & Hs & Hin); try done.
    { intros q Hq2. apply Hv. by right. } { cbn in Hl. lia. }
    assert (th_keeps T (theory s) th') as K2 by by apply (keeps_trans T T _ th). unfold u in *. destruct (bool_decide_reflect (val T p ≠ l_Undef)) as [Hu|Hu].
    + exists l, th'. split; [done|]. split; [done|]. split; [done|]. split; [by apply sublist_cons|done].
    + exists (p :: l), th'. rewrite <- (assoc (++)). split; [done|]. split; [done|]. split; [done|]. split; [by apply sublist_skip|]. intros q [->|Hq2]%elem_of_cons; [|by apply Hin].
      split; [by destruct (val T p); try (destruct Hu; done)|]. by apply Kp'.
Qed.

Lemma deduceTheory_ok s : inv (trail (asg s)) s → ∃ l th, deduceTheory s = Ok (l, set_theory th s) ∧ inv (trail (asg s)) (set_theory th s) ∧ NoDup (var <$> l)
  ∧ ∀ p, p ∈ l → var p < nVars (asg s) ∧ known Kn (var p) ∧ isTheoryTerm (var p) = true ∧ val (trail (asg s)) p = l_Undef ∧ th_explains (trail (asg s)) p th.
Proof.
  intros I. pose proof (si_mid _ _ _ _ _ I) as M. pose proof (mi_asg _ _ _ _ _ M) as A. destruct (queue_exists _ _ (si_th _ _ _ _ _ I)) as (ds & Hq & N & Hk).
  assert (∀ p, p ∈ ds → var p < nVars (asg s) ∧ Kn (var p)) as Hds by (intros p Hp%Hk%(mi_knows _ _ _ _ _ M); split; [by apply (mi_range _ _ _ _ _ M)|done]).
  assert (length ds ≤ nVars (asg s)) as Hl.
  { rewrite <- (length_fmap var ds), <- (length_seq (nVars (asg s)) 0). apply NoDup_incl_length; [by apply NoDup_ListNoDup|]. intros v Hv%list_elem_of_In.
    apply list_elem_of_fmap in Hv as (p & -> & Hp). apply in_seq. destruct (Hds p Hp). lia. }
  destruct (deduce_from_ok (trail (asg s)) ds (nVars (asg s)) [] s eq_refl A (si_th _ _ _ _ _ I) Hq) as (l & th & E & Kp & Ht & Hs & Hin); [by intros p Hp; apply Hds|done|].
  exists l, th. split; [exact E|]. split; [by apply inv_theory|]. split; [by eapply sublist_vars|]. intros p Hp. destruct (Hin p Hp) as [Hu Hex].
  assert (p ∈ ds) as Hpd by by eapply elem_of_sublist. destruct (Hds p Hpd). split; [done|]. split; [by intros ?|]. split; [by eapply knows_theory, Hk|done].
Qed.

(** The literals that the theory deduced are enqueued. *)
Lemma enqueue_deduced stk ps : ∀ s, inv stk s → NoDup (var <$> ps) →
  (∀ p, p ∈ ps → var p < nVars (asg s) ∧ known Kn (var p) ∧ isTheoryTerm (var p) = true ∧ val (trail (asg s)) p = l_Undef ∧ th_explains stk p (theory s)) →
  ∃ a, foldM (λ a p, uncheckedEnqueue isTheoryTerm p CRef_Fake a) (asg s) ps = Ok a ∧ inv stk (set_asg a s).
Proof.
  induction ps as [|p ps IH]; intros s I N Hps; cbn [foldM]; [exists (asg s); split; [done|]; by destruct s|]. rewrite fmap_cons in N. apply NoDup_cons in N as [Np N].
  destruct (Hps p ltac:(by left)) as (Hp & Hk & Hth & Hu & Hex). pose proof (si_mid _ _ _ _ _ I) as M. pose proof (mi_asg _ _ _ _ _ M) as A.
  rewrite enqueue_eq by done. cbn [rbind]. destruct (IH (set_asg (enqueued p CRef_Fake (asg s)) s)) as (a & E & I'); [|done| |].
  - apply sinv_enqueue; try done.
    + unfold reason_ok. rewrite enqueued_rs_eq by done. split; [done|]. exists stk. split; [by split|]. cbn [trail enqueued]. rewrite take_app_length. apply M.
    + intros Hz. apply entails_iff. intros σ Hσ. exists p. split; [by left|]. apply (explains_sound stk p (theory s) Hex σ (proj1 Hσ)). intros q Hq.
      assert (q ∈ trail (asg s)) as Hqt by (destruct (mi_prefix _ _ _ _ _ M) as [t ->]; apply elem_of_app; by left). pose proof (lv_le _ _ A Hqt) as Hl.
      destruct (proj1 (entails_iff K [q]) (ci_fact _ _ _ _ _ (mi_core _ _ _ _ _ M) q Hqt ltac:(lia)) σ Hσ) as (u & Hu'%list_elem_of_singleton & Hut). by subst u.
  - intros q Hq. destruct (Hps q ltac:(by right)) as (? & ? & ? & Hqu & ?). cbn [asg set_asg theory]. rewrite enqueued_nVars. split; [done|]. split; [done|]. split; [done|]. split; [|done].
    apply val_undef in Hqu. apply val_undef. cbn [trail enqueued]. rewrite fmap_app, elem_of_app. intros [?|Hin]; [done|]. apply list_elem_of_singleton in Hin.
    apply Np. rewrite <- Hin. by apply list_elem_of_fmap_2.
  - exists a. split; [exact E|]. exact I'.
Qed.

(** *** The results of a check *)

Lemma inv_skip stk s c : inv stk s → steady (config s) c → inv stk (set_ctl c s).
Proof. intros [M T U W Hs Hcl] E. constructor; try done. by constructor; try apply M. Qed.
Lemma cinv_skip stk s c : cinv stk s → steady (config s) c → cinv stk (set_ctl c s).
Proof. intros [M W Hs Hcl] E. constructor; try done. by constructor; try apply M. Qed.
Lemma scale_skip_ok stk s : inv stk s → inv stk (scale_skip s) ∧ same_stops (ctl s) (ctl (scale_skip s)) ∧ asg (scale_skip s) = asg s ∧ theory (scale_skip s) = theory s.
Proof.
  intros I. split; [|done]. apply inv_skip; [done|]. destruct (mi_steady _ _ _ _ _ (si_mid _ _ _ _ _ I)) as [k E]. exists (S k). cbn [skip_step set_skip]. by rewrite E.
Qed.

(** What a check leads to. *)
Definition checked (complete : bool) s (r : TPropRes) s' : Prop :=
  match r with
  | PUnsat => ∀ σ, ¬ kmodel K σ
  | PPropagate => ∃ stk, inv stk s'
  | PDecide => inv (trail (asg s')) s' ∧ asg s' = asg s ∧ (complete = true → ∃ σ, th_models σ ∧ satisfies σ (trail (asg s')))
  | PUndef => False
  end.

Lemma handleSat_ok complete s : inv (trail (asg s)) s → (complete = true → ∃ σ, th_models σ ∧ satisfies σ (trail (asg s))) →
  ∃ r s', handleSat s = Ok (r, s') ∧ same_stops (ctl s) (ctl s') ∧ checked complete s r s'.
Proof.
  intros I Hσ. unfold handleSat. destruct (scale_skip_ok _ s I) as (I1 & S1 & Ea1 & _). set (s1 := scale_skip s) in *.
  destruct (proj1 (wp_total _ _) (getNewSplits_ok _ _ (si_th _ _ _ _ _ I1))) as ([r th] & -> & Er & Kp & Ht). cbn [rbind fst snd] in *. subst r.
  assert (inv (trail (asg (set_theory th s1))) (set_theory th s1)) as I2 by (cbn [asg set_theory]; rewrite Ea1; by apply inv_theory).
  destruct (deduceTheory_ok _ I2) as (l & th2 & -> & I3 & N & Hl). cbn [rbind fst snd asg set_theory].
  destruct (enqueue_deduced _ l (set_theory th2 (set_theory th s1)) I3 N Hl) as (a & Ea & I4). cbn [asg set_theory] in Ea. rewrite Ea. cbn [rbind].
  destruct l as [|p l]; cbn [length Nat.ltb Nat.leb].
  - injection Ea as <-. rewrite <- Ea1 in I4. match type of I4 with inv _ ?x => set (s4 := x) in * end. destruct (scale_skip_ok _ s4 I4) as (I5 & S5 & Ea5 & _).
    exists PDecide, (scale_skip s4). split; [done|]. split; [by etrans; [exact S1|]|]. assert (asg (scale_skip s4) = asg s) as E by exact Ea1. split; [|split; [done|by rewrite E]].
    change (trail (asg (scale_skip s4))) with (trail (asg s1)). exact I5.
  - eexists PPropagate, _. split; [done|]. split; [exact S1|]. by eexists.
Qed.

(** The facts of level 0 hold in all models. *)
Lemma facts_hold stk s σ p : mid stk s → kmodel K σ → p ∈ trail (asg s) → lv (asg s) (var p) = 0 → lit_value σ p = true.
Proof.
  intros M Hσ Hp Hz. destruct (proj1 (entails_iff K [p]) (ci_fact _ _ _ _ _ (mi_core _ _ _ _ _ M) p Hp Hz) σ Hσ) as (u & Hu%list_elem_of_singleton & Hut). by subst u.
Qed.

(** The solver goes back to the level of the conflict first. *)
Lemma conflict_level_ok stk s qs mdl : cinv stk s → th_conflict stk (theory s) → (∀ q, q ∈ qs → lit_not q ∈ stk ∧ lv (asg s) (var q) ≤ mdl) → mdl ≤ decisionLevel (asg s) →
  ∃ s' stk' m, cancelUntil mdl s = Ok s' ∧ cinv stk' s' ∧ m ≤ length (trail (asg s')) ∧ th_state m stk' (theory s') ∧ (∀ q, q ∈ qs → lit_not q ∈ take m (trail (asg s')))
    ∧ decisionLevel (asg s') = mdl ∧ vardata (asg s') = vardata (asg s) ∧ ctl s' = ctl s ∧ config s' = config s.
Proof.
  intros CI Ht Hq Hm. pose proof (ki_mid _ _ _ _ _ CI) as M. pose proof (mi_asg _ _ _ _ _ M) as A. pose proof (mi_prefix _ _ _ _ _ M) as Hpre. pose proof (prefix_length _ _ Hpre) as Hlen.
  assert (∀ l : list Lit, stk `prefix_of` l → ∀ q, q ∈ qs → lit_not q ∈ take (length stk) l) as Hin.
  { intros l [l' ->] q Hqq. rewrite take_app_length. by apply Hq. }
  destruct (decide (mdl = decisionLevel (asg s))) as [->|Hne].
  - exists s, stk, (length stk). split; [by apply cancelUntil_same|]. split; [done|]. split; [done|]. split; [by right|]. split; [by apply Hin|done].
  - destruct (lookup_lt_is_Some_2 (trail_lim (asg s)) mdl) as [c Hc]; [unfold decisionLevel in *; lia|].
    destruct (cancelUntil_ok K Kn As mdl c s stk 0 CI Hc ltac:(right; split; [done|lia])) as (s' & E & CI' & _ & (Et & El & Ev & _ & _ & Ec & _ & Ecf) & _ & Hth).
    pose proof (ao_lims_trail A c ltac:(by eapply list_elem_of_lookup_2)) as Hcl.
    assert (decisionLevel (asg s') = mdl) as ED by (unfold decisionLevel in *; rewrite El, length_take; lia).
    destruct Hth as [Hok|[Hcf [_ Hle]]].
    + exists s', (take c stk), (length (trail (asg s'))). split; [done|]. split; [done|]. split; [done|]. split; [by left|]. split; [|done]. intros q Hqq. rewrite take_ge, Et by done.
      destruct (Hq q Hqq) as [Hs Hl]. apply (lower_kept_take (asg s) c mdl c); [done| |by rewrite var_not|done|done]. destruct Hpre as [t ->]. apply elem_of_app. by left.
    + rewrite take_ge in CI', Hcf by done. exists s', stk, (length stk). split; [done|]. split; [done|]. pose proof (mi_prefix _ _ _ _ _ (ki_mid _ _ _ _ _ CI')) as Hpre'.
      split; [by apply prefix_length|]. split; [by right|]. split; [by apply Hin|done].
Qed.

Lemma handleUnsat_ok stk s : cinv stk s → th_conflict stk (theory s) →
  ∃ r s', handleUnsat s = Ok (r, s') ∧ same_stops (ctl s) (ctl s')
    ∧ match r with PUnsat => ∀ σ, ¬ kmodel K σ | PPropagate => ∃ stk, inv stk s' | _ => False end.
Proof.
  intros CI0 Hth. unfold handleUnsat. set (c0 := set_skip _ _ _). assert (cinv stk (set_ctl c0 s)) as CI1 by (apply cinv_skip; [done|by exists 0]).
  set (s1 := set_ctl c0 s) in *. assert (same_stops (ctl s) (ctl s1)) as S1 by done. assert (th_conflict stk (theory s1)) as Hth1 by done. clearbody s1. clear CI0 c0.
  pose proof (ki_mid _ _ _ _ _ CI1) as M1. pose proof (mi_asg _ _ _ _ _ M1) as A1. pose proof (mi_prefix _ _ _ _ _ M1) as Hpre.
  assert (∀ q, q ∈ stk → q ∈ trail (asg s1)) as Hst by (intros q Hq; destruct Hpre as [t ->]; apply elem_of_app; by left).
  destruct (Nat.eqb_spec (decisionLevel (asg s1)) 0) as [Hz|Hz].
  { exists PUnsat, s1. split; [done|]. split; [done|]. intros σ Hσ. apply (conflict_sound stk (theory s1) Hth1 σ (proj1 Hσ)). intros q Hq. apply (facts_hold stk s1); [done..|by apply Hst|].
    pose proof (lv_le _ _ A1 (Hst q Hq)). lia. }
  destruct (proj1 (wp_total _ _) (getConflict_ok stk (vardata (asg s1)) (theory s1) Hth1 (λ q Hq, ao_vars A1 q (Hst q Hq)))) as ([[qs mdl] th] & -> & Kp & Hth2 & Hq & Hval & Hle & Hmax).
  cbn [rbind fst snd] in *. set (s2 := set_theory th s1).
  assert (∀ q, q ∈ qs → lit_not q ∈ trail (asg s1) ∧ var q < nVars (asg s1)) as Hqt.
  { intros q Hqq. split; [by apply Hst, Hq|]. rewrite <- var_not. apply (ao_vars A1). by apply Hst, Hq. }
  change (asg s2) with (asg s1). match goal with |- context [foldM ?f tt qs] => destruct (fold_live f (λ _, True) qs tt) as (u & -> & _) end; [done| |].
  { intros u q Hqq _. destruct (Hqt q Hqq) as [Hn Hv]. rewrite (value_ok _ _ A1 Hv). cbn [rbind]. rewrite bool_decide_true; [by eexists|]. apply (val_false _ _ A1) in Hn. by rewrite Hn. }
  cbn [rbind]. assert (∀ q x, q ∈ qs → vardata (asg s1) !! var q = Some x → level x = lv (asg s1) (var q)) as Hlev by (intros q x _ Hx; unfold lv; by rewrite Hx).
  assert (0 ≤ mdl ≤ Z.of_nat (decisionLevel (asg s1)))%Z as Hmdl.
  { destruct Hmax as [[_ ->]|(q & x & Hqq & Hx & ->)]; [lia|]. rewrite (Hlev q x Hqq Hx). destruct (Hqt q Hqq) as [Hn _]. pose proof (lv_le _ _ A1 Hn) as Hl. rewrite var_not in Hl. lia. }
  rewrite (proj2 (Z.leb_le mdl _)) by lia. cbn [check rbind]. rewrite (proj2 (Z.leb_le 0 mdl)) by lia. cbn [check rbind].
  assert (cinv stk s2) as CI2.
  { destruct CI1 as [_ W Hs Hcl]. constructor; try done. by apply (mid_theory K Kn As stk stk s1 th M1). }
  destruct (conflict_level_ok stk s2 qs (Z.to_nat mdl) CI2 Hth2) as (s3 & stk3 & m & -> & CI3 & Hm3 & Hth3 & Hq3 & ED3 & Ev3 & Ec3 & Ecf3); [|change (asg s2) with (asg s1); lia|].
  { intros q Hqq. split; [by apply Hq|]. destruct (Hqt q Hqq) as [_ Hv]. pose proof (Hle q _ Hqq (vardata_at _ _ Hv)) as Hl. cbn [level] in Hl. change (asg s2) with (asg s1). lia. }
  cbn [rbind]. rewrite ED3. pose proof (ki_mid _ _ _ _ _ CI3) as M3. pose proof (mi_asg _ _ _ _ _ M3) as A3.
  assert (same_stops (ctl s) (ctl s3)) as S3 by by rewrite Ec3.
  destruct (Nat.eqb_spec (Z.to_nat mdl) 0) as [Hz3|Hz3].
  { exists PUnsat, s3. split; [done|]. split; [done|]. intros σ Hσ. pose proof (Hval σ (proj1 Hσ)) as Hc. apply clause_true_iff in Hc as (q & Hqq & Hqv).
    assert (lit_not q ∈ trail (asg s3)) as Hn by (eapply take_sub; by apply Hq3). pose proof (lv_le _ _ A3 Hn) as Hl.
    pose proof (facts_hold _ s3 σ _ M3 Hσ Hn ltac:(lia)) as Hv. rewrite lit_value_not, Hqv in Hv. done. }
  destruct Hmax as [[_ ->]|(q0 & x0 & Hq0 & Hx0 & Emdl)]; [done|]. assert (lv (asg s3) (var q0) = decisionLevel (asg s3)) as Hcur.
  { rewrite ED3, Emdl, Nat2Z.id. unfold lv. rewrite Ev3. cbn [asg s2 set_theory]. by rewrite Hx0. }
  rewrite (proj2 (Nat.ltb_lt 0 (length qs))) by (destruct qs; [by apply elem_of_nil in Hq0|cbn; lia]). cbn [check rbind].
  rewrite (proj1 (mi_cfg _ _ _ _ _ M3)). rewrite (proj2 (Nat.ltb_lt 0 (length qs))) by (destruct qs; [by apply elem_of_nil in Hq0|cbn; lia]). cbn [orb].
  destruct (new_clause_ok qs false 0 (db s3) ltac:(lia)) as (c & -> & Ecl & _ & Elr & _). cbn [rbind fst snd].
  assert (ainv K Kn As stk3 s3) as AI3 by (constructor; apply CI3).
  destruct (ainv_grown K Kn As stk3 s3 c AI3) as [AI4 F4].
  { rewrite Ecl. intros σ Hσ _. by apply Hval. }
  { rewrite Ecl. intros q Hqq. assert (lit_not q ∈ trail (asg s3)) as Hn by (eapply take_sub; by apply Hq3). rewrite <- (var_not q). split; [by apply (ao_vars A3)|by apply (mi_core _ _ _ _ _ M3)]. }
  { congruence. }
  set (s4 := set_db (grown (db s3) c) s3) in *. set (cr := length (mem_of (db s3))).
  assert (cinv stk3 s4) as CI4 by (destruct CI3; constructor; try done; apply AI4).
  assert (mem_of (db s4) !! cr = Some c) as Hc4 by by apply list_lookup_middle.
  destruct (analyze_ok K Kn As stk3 s4 m cr c CI4 Hm3 Hth3) as (i & p & ps & bl & stk5 & s5 & -> & L5 & CI5 & F5 & Hi5 & Hth5); try done.
  { change (asg s4) with (asg s3). lia. } { rewrite Ecl. exact Hq3. } { rewrite Ecl. by exists q0. }
  cbn [rbind]. destruct (af_mem _ _ F5 cr c Hc4) as (c5 & Hc5 & _). destruct (free_clause_ok (nVars (asg s5)) (db s5) cr c5) as (d6 & -> & Sd6); [apply CI5|done|]. cbn [rbind].
  destruct (ainv_db K Kn As stk5 s5 d6) as [AI6 F6]; [constructor; apply CI5|done|]. set (s6 := set_db d6 s5) in *.
  assert (cinv stk5 s6) as CI6 by (destruct CI5; constructor; try done; apply AI6).
  destruct (backjump_ok K Kn As stk3 stk5 s4 s6 i p ps bl (ai_mid _ _ _ _ _ AI4)) as (s7 & stk7 & -> & As7 & Ec7); try done; [change (asg s4) with (asg s3); lia|by etrans|]. cbn [rbind].
  destruct (learn_ok K Kn As stk7 s7 (lit_not p) ps As7) as (s8 & -> & I8 & Ec8). cbn [rbind]. exists PPropagate, (decay s8). split; [done|]. split; [|by exists stk7; apply decay_ok].
  change (ctl (decay s8)) with (ctl s8). rewrite Ec8, Ec7. exact S3.
Qed.

Lemma checkTheory_ok complete cC stk s : inv stk s →
  ∃ r n s', checkTheory complete cC s = Ok (r, n, s') ∧ same_stops (ctl s) (ctl s') ∧ checked complete s r s'.
Proof.
  intros I. pose proof (si_mid _ _ _ _ _ I) as M. pose proof (mi_asg _ _ _ _ _ M) as A. unfold checkTheory.
  destruct (mi_steady _ _ _ _ _ M) as [k Ek]. destruct (mi_cfg _ _ _ _ _ M) as (_ & _ & _ & Hskip). rewrite Ek, Hskip, andb_false_r. clear Hskip.
  set (c1 := set_skip _ _ _). assert (inv stk (set_ctl c1 s)) as I1 by (apply inv_skip; [done|by exists k]). set (s1 := set_ctl c1 s) in *.
  pose proof (si_mid _ _ _ _ _ I1) as M1. pose proof (mi_prefix _ _ _ _ _ M1) as Hpre.
  assert (∀ th, th_keeps stk (theory s1) th → th_ok (trail (asg s1)) th → inv (trail (asg s1)) (set_theory th s1)) as Hinv.
  { intros th Kp Ht. destruct I1 as [_ T U W Hs Hcl]. constructor; try done. by apply (mid_theory K Kn As stk _ s1 th M1). }
  assert (∀ stk' th, th_keeps stk (theory s1) th → stk `prefix_of` stk' → stk' `prefix_of` trail (asg s1) → ∀ c, skip_step c = skip_step c1 → cinv stk' (set_ctl c (set_theory th s1))) as Hcinv.
  { intros stk' th Kp P1 P2 c Ec. apply cinv_ctl; [|exact Ec]. destruct I1 as [_ T U W Hs Hcl]. constructor; try done.
    - by apply (mid_theory K Kn As stk _ s1 th M1).
    - apply (watched_below_lower (asg s1) (db s1) (qhead (asg s1)) (trail (asg s1))); try done; [|apply (ao_qhead A)]. intros x Hx. by apply (mi_lims _ _ _ _ _ M1). }
  assert (∀ p, p ∈ trail (asg s1) → isTheoryTerm (var p) = true → th_knows (var p) (theory s1)) as Hknown.
  { intros p Hp Ht. apply (mi_knows _ _ _ _ _ M1). by apply (ci_trail _ _ _ _ _ (mi_core _ _ _ _ _ M1) p Hp). }
  destruct (proj1 (wp_total _ _) (assertLits_ok (trail (asg s1)) stk (theory s1) (si_th _ _ _ _ _ I1) Hpre (ao_nodup A) Hknown)) as ([b th] & -> & Kp & Hb).
  cbn [rbind fst snd theory set_theory] in *. destruct b.
  - destruct (proj1 (wp_total _ _) (check_ok complete _ th Hb)) as ([r th2] & -> & Kp2 & Hr). cbn [rbind fst snd] in *. pose proof (keeps_trans _ _ _ _ _ Hpre Kp Kp2) as Kp3.
    change (set_theory th2 (set_theory th s1)) with (set_theory th2 s1). destruct r.
    + destruct Hr as [Hr Hσ]. destruct (handleSat_ok complete (set_theory th2 s1) (Hinv th2 Kp3 Hr) Hσ) as (x & s' & -> & Ss & Ck). cbn [rbind fst snd]. exists x, cC, s'.
      split; [done|]. split; [done|]. exact Ck.
    + set (c2 := set_conflicts _ _). destruct (handleUnsat_ok (trail (asg s1)) (set_ctl c2 (set_theory th2 s1))) as (x & s' & -> & Ss & Ck); [by apply Hcinv|done|]. cbn [rbind fst snd].
      exists x, (S cC), s'. split; [done|]. split; [done|]. by destruct x.
    + destruct Hr as [Hr ->]. exists PDecide, cC, (set_theory th2 s1). split; [done|]. split; [done|]. split; [by apply Hinv|]. done.
  - destruct Hb as (stk' & P1 & P2 & Hcf). change (set_theory th (set_theory th s1)) with (set_theory th s1). cbn [rbind fst snd]. set (c2 := set_conflicts (S (conflicts (ctl s1))) (ctl s1)).
    match goal with |- context [handleUnsat ?x] => change x with (set_ctl c2 (set_theory th s1)) end.
    destruct (handleUnsat_ok stk' (set_ctl c2 (set_theory th s1))) as (x & s' & -> & Ss & Ck); [by apply Hcinv|done|]. cbn [rbind fst snd].
    exists x, (S cC), s'. split; [done|]. split; [done|]. by destruct x.
Qed.

End theory.

(** * The SAT solver: the search

    A round of the search keeps its invariant or ends with an answer, and the
    answers are right: [l_True] comes with a model, and after [l_False] there is
    none in which the assumptions hold. *)

Section search.
Context {F Th : Type} `{DoubleLaws F} `{THandlerLaws Th}.
Context (K : list (list Lit)) (Kn : Var → Prop) (As : list Lit).
Implicit Types (s : Solver F Th) (p q : Lit) (v : Var) (stk : list Lit).
Abbreviation mid := (mid_inv K Kn As).
Abbreviation inv := (sinv K Kn As).
Abbreviation cinv := (conflict_inv K Kn As).

(** When all decision variables are assigned, the values that the theory accepts
    satisfy the original clauses. *)
Lemma all_true stk s σ : inv stk s → quiet s → (∀ v, decision (dec s) !! v = Some true → v ∈ var <$> trail (asg s)) →
  satisfies σ (trail (asg s)) → ∀ k, k ∈ K → clause_true σ k = true.
Proof.
  intros I Q Hall Hσ k Hk. pose proof (si_mid _ _ _ _ _ I) as M. apply clause_true_iff. destruct (mi_original _ _ _ _ _ M k Hk) as [(p & Hp & Ht & _)|(cr & c & Hcr & Hc & Hck)]; [by exists p; split; [|apply Hσ]|].
  assert (cr ∈ attached (db s)) as Hat by (apply elem_of_app; by left). destruct (do_attached (mi_db _ _ _ _ _ M) cr Hat) as (x & Hx & _ & L & _). assert (x = c) as -> by congruence.
  destruct (lits c) as [|q ps] eqn:El; [cbn in L; lia|]. assert (q ∈ lits c) as Hq by (rewrite El; by left).
  pose proof (Hall _ (mi_decided _ _ _ _ _ M cr c q Hcr Hc Hq)) as Hv. apply var_in_trail in Hv as [Hv|Hv].
  - exists q. split; [apply Hck; by left|by apply Hσ].
  - destruct (si_watched _ _ _ _ _ I cr c 0 q Hat Hc ltac:(lia) ltac:(by rewrite El) Hv) as (l & Hl & Hlt & _); [unfold quiet, nAssigns in Q; by rewrite Q, firstn_all|].
    exists l. split; [apply Hck; by rewrite <- El|by apply Hσ].
Qed.

Lemma assumptions_true stk s : inv stk s → length As ≤ decisionLevel (asg s) → ∀ p, p ∈ As → p ∈ trail (asg s).
Proof. intros I Hl p [i Hi]%list_elem_of_lookup. apply (si_taken _ _ _ _ _ I i p Hi). apply lookup_lt_Some in Hi. lia. Qed.

(** A model of the clauses and the assumptions in the theory, that agrees with the
    assignment. *)
Definition model_of s σ : Prop := kmodel K σ ∧ satisfies σ As ∧ satisfies σ (trail (asg s)).

(** Backtracking luby restarts aside, what a search may change of the control. *)
Definition same_luby (c c' : @Control F) : Prop := luby_i c' = luby_i c ∧ luby_k c' = luby_k c ∧ luby_previous c' = luby_previous c.

Definition answered (s : Solver F Th) (r : lbool * Solver F Th) : Prop :=
  same_luby (ctl s) (ctl r.2) ∧ stop_after (ctl r.2) ≤ stop_after (ctl s) ∧
  match r.1 with
  | l_True => (∃ σ, model_of r.2 σ) ∧ asg_ok (asg r.2)
  | l_False => ∀ σ, kmodel K σ → ¬ satisfies σ As
  | l_Undef => ∃ stk, inv stk r.2
  end.

Lemma inv_cinv stk s : inv stk s → cinv stk s.
Proof.
  intros [M T U W Hs Hcl]. constructor; try done. apply (watched_below_lower (asg s) (db s) (qhead (asg s)) (trail (asg s))); [apply M|done|done| |apply (ao_qhead (mi_asg _ _ _ _ _ M))].
  intros x Hx. by apply (mi_lims _ _ _ _ _ M).
Qed.

Lemma restart_ok stk s : inv stk s → ∃ s' stk', cancelUntil 0 s = Ok s' ∧ inv stk' s' ∧ ctl s' = ctl s.
Proof.
  intros I. destruct (decide (decisionLevel (asg s) = 0)) as [Hz|Hz]; [exists s, stk; split; [apply cancelUntil_same; lia|done]|].
  destruct (lookup_lt_is_Some_2 (trail_lim (asg s)) 0) as [c Hc]; [unfold decisionLevel in *; lia|].
  destruct (cancelUntil_ok K Kn As 0 c s stk (S (length stk)) (inv_cinv stk s I) Hc) as (s' & E & CI & W & (Et & El & _ & _ & _ & Ec & _) & U & Hth); [left; apply I|].
  exists s', (take c stk). split; [done|]. split; [|done]. apply conflict_sinv; [done|done| |].
  - destruct Hth as [?|[_ ?]]; [done|lia].
  - assert (decisionLevel (asg s') = 0) as -> by (unfold decisionLevel; by rewrite El). done.
Qed.

Lemma branch_ok cC s : inv (trail (asg s)) s → quiet s → ∃ r, branch cC s = Ok r ∧
  match r with
  | inl (_, s') => (∃ stk, inv stk s') ∧ same_stops (ctl s) (ctl s')
  | inr (x, s') => same_stops (ctl s) (ctl s') ∧ x ≠ l_Undef ∧ (x = l_True → (∃ σ, model_of s' σ) ∧ asg_ok (asg s')) ∧ (x = l_False → ∀ σ, kmodel K σ → ¬ satisfies σ As)
  end.
Proof.
  intros I Q. unfold branch. rewrite (mi_assumptions _ _ _ _ _ (si_mid _ _ _ _ _ I)).
  destruct (next_assumption_ok K Kn As (length As) s I Q ltac:(lia)) as (r & -> & Hr). cbn [rbind].
  destruct r as [[[p|] s1]|[x s1]].
  - destruct Hr as (I1 & Q1 & Hp & Hv & Ec1). destruct (mi_as _ _ _ _ _ (si_mid _ _ _ _ _ I1) p) as [Hpn Hpk]; [by eapply list_elem_of_lookup_2|].
    destruct (decide_ok K Kn As _ s1 p I1 Q1 Hpn Hv Hpk (or_introl Hp)) as (s2 & -> & I2 & Ec2 & _). cbn [rbind]. eexists. split; [done|]. split; [by eexists|]. by rewrite Ec2, Ec1.
  - destruct Hr as (I1 & Q1 & Hl & Ec1). destruct (pick_ok K Kn As _ s1 I1 Q1 Hl) as (r & s2 & -> & Hr). cbn [rbind]. destruct r as [p|].
    { destruct Hr as (s3 & -> & I3 & Ec3). cbn [rbind]. eexists. split; [done|]. split; [by eexists|]. by rewrite Ec3, Ec1. }
    destruct Hr as (I2 & Ea2 & Ec2 & _). destruct (checkTheory_ok K Kn As true cC _ s2 I2) as (r & n & s3 & -> & Ss & Ck). cbn [rbind]. destruct r; [done| | |].
    + eexists. split; [done|]. split; [by rewrite <- Ec1, <- Ec2|]. split; [done|]. split; [done|]. intros _ σ Hσ _. by apply (Ck σ).
    + eexists. split; [done|]. split; [done|]. by rewrite <- Ec1, <- Ec2.
    + destruct Ck as (I3 & Ea3 & Hσ). assert (quiet s3) as Q3 by (unfold quiet; rewrite Ea3, Ea2; exact Q1). assert (length As ≤ decisionLevel (asg s3)) as Hl3 by by rewrite Ea3, Ea2.
      destruct (pick_ok K Kn As _ s3 I3 Q3 Hl3) as (r & s4 & -> & Hr). cbn [rbind]. destruct r as [p|].
      { destruct Hr as (s5 & -> & I5 & Ec5). cbn [rbind]. eexists. split; [done|]. split; [by eexists|]. rewrite Ec5, <- Ec1, <- Ec2. done. }
      destruct Hr as (I4 & Ea4 & Ec4 & Hall). eexists. split; [done|]. split; [rewrite Ec4, <- Ec1, <- Ec2; done|]. split; [done|]. split; [|done]. intros _. destruct (Hσ eq_refl) as (σ & Hm & Hs). rewrite <- Ea4 in Hs.
      assert (quiet s4) as Q4 by (unfold quiet; by rewrite Ea4). split; [exists σ; split; [split; [done|]|split; [|done]]|].
      * by apply (all_true _ s4 σ I4 Q4).
      * intros p Hp. apply Hs. apply (assumptions_true _ s4 I4); [by rewrite Ea4|done].
      * apply I4.
  - destruct Hr as (-> & Ec1 & Hr). eexists. split; [done|]. cbn. rewrite Ec1. done.
Qed.

Lemma stops_luby c c' : same_stops c c' → same_luby c c' ∧ stop_after c' = stop_after c.
Proof. intros (? & ? & ? & ?). done. Qed.

(** What a step of the search gives, when it began with [c] in the control. *)
Definition stepped (c : @Control F) (r : nat * Solver F Th + lbool * Solver F Th) : Prop :=
  match r with
  | inl (_, s') => (∃ stk, inv stk s') ∧ same_stops c (ctl s')
  | inr (x, s') => same_stops c (ctl s') ∧
      match x with
      | l_True => (∃ σ, model_of s' σ) ∧ asg_ok (asg s')
      | l_False => ∀ σ, kmodel K σ → ¬ satisfies σ As
      | l_Undef => ∃ stk, inv stk s'
      end
  end.

Lemma stepped_weaken c c' r : same_stops c c' → stepped c' r → stepped c r.
Proof. intros Hc. destruct r as [[n s]|[x s]]; intros [A B]; (split; [|done || by etrans]); [done|by etrans]. Qed.

(** The theory is asked, and a literal decided. *)
Lemma check_and_branch_ok cC stk s : inv stk s → quiet s →
  wp no_error (stepped (ctl s)) (let! r := checkTheory false cC s in
    let '(res_, conflictC, s) := r in
    match res_ with
    | PUnsat => Ok (inr (zeroLevelConflictHandler s))
    | PPropagate => Ok (inl (conflictC, s))
    | PDecide => branch conflictC s
    | PUndef => Err Assertion_failed
    end).
Proof.
  intros I Q. destruct (checkTheory_ok K Kn As false cC stk s I) as (r & n & s1 & -> & Ss & Ck). cbn [rbind]. destruct r; [done| | |].
  - split; [exact Ss|]. intros σ Hσ _. by apply (Ck σ).
  - split; [done|exact Ss].
  - destruct Ck as (I1 & Ea & _). destruct (branch_ok n s1 I1) as (r & -> & Hr); [unfold quiet; by rewrite Ea|]. cbn [wp]. destruct r as [[n' s2]|[x s2]].
    + destruct Hr as [? ?]. split; [done|by etrans].
    + destruct Hr as (S2 & Hx & HT & HF). split; [by etrans|]. destruct x; [by apply HT|by apply HF|done].
Qed.

Lemma search_round_ok nof cC stk s : inv stk s →
  wp no_error (λ r, ∃ c, same_luby (ctl s) c ∧ stepped c r ∧ (stop_after (ctl s) = 0 ∨ S (stop_after c) = stop_after (ctl s)) ∧ (stop_after (ctl s) = 0 → ∃ s', r = inr (l_Undef, s') ∧ stop_after c = 0))
    (search_round nof (cC, s)).
Proof.
  intros I. unfold search_round, okContinue. destruct (stop_after (ctl s)) as [|n] eqn:En.
  { cbn [negb]. destruct (restart_ok stk s I) as (s' & stk' & -> & I' & Ec). cbn [rbind wp]. exists (ctl s). split; [done|]. split; [split; [by rewrite Ec|by exists stk']|]. split; [by left|].
    intros _. by exists s'. }
  cbn [negb]. set (c := set_stop_after n (ctl s)). assert (inv stk (set_ctl c s)) as I1 by by apply inv_ctl. set (s1 := set_ctl c s) in *.
  enough (∀ m : res (nat * Solver F Th + lbool * Solver F Th), wp no_error (stepped c) m → wp no_error (λ r, ∃ c0, same_luby (ctl s) c0 ∧ stepped c0 r ∧ (S n = 0 ∨ S (stop_after c0) = S n) ∧ (S n = 0 → ∃ s', r = inr (l_Undef, s') ∧ stop_after c0 = 0)) m) as Hw.
  { apply Hw. clear Hw. destruct (propagate_ok K Kn As stk s1 I1) as (r & s2 & -> & G & S2 & Q2 & Hr). cbn [rbind fst snd]. change (same_stops c (ctl s2)) in S2. destruct r as [cr|].
    - destruct Hr as (CI & Ht & Hc). destruct (update_flip_ok K Kn As stk s2 CI) as (CI3 & Et3 & Ea3 & Ed3 & Ec3). set (s3 := update_flip s2) in *. set (c4 := set_conflicts _ _).
      assert (cinv stk (set_ctl c4 s3)) as CI4 by (by apply cinv_ctl). cbn [asg set_ctl]. destruct (Nat.eqb_spec (decisionLevel (asg s3)) 0) as [Hz|Hz].
      + split; [unfold c4; cbn; rewrite Ec3; exact S2|]. intros σ Hσ _. apply (conflict_zero K Kn As stk s2 cr (ki_mid _ _ _ _ _ CI) Hc) with σ; [by rewrite <- Ea3|done].
      + destruct (resolve_conflict_ok K Kn As stk (set_ctl c4 s3) cr CI4) as (s5 & stk5 & -> & I5 & S5); [by rewrite <- Et3 in Ht|by rewrite <- Ea3, <- Ed3 in Hc|cbn [asg set_ctl]; lia|].
        cbn [rbind wp]. split; [by exists stk5|]. etrans; [exact S2|]. etrans; [|exact S5]. unfold c4. cbn [ctl set_ctl]. rewrite Ec3. done.
    - destruct (_ || _).
      { destruct (restart_ok stk s2 Hr) as (s' & stk' & -> & I' & Ec). cbn [rbind wp]. split; [by rewrite Ec|by exists stk']. }
      assert (∃ (b : bool) s3, (if decisionLevel (asg s2) =? 0 then simplify s2 else Ok (true, s2)) = Ok (b, s3) ∧ same_stops (ctl s2) (ctl s3) ∧ if b then inv stk s3 ∧ quiet s3 else ∀ σ, ¬ kmodel K σ) as (b & s3 & -> & S3 & Hb).
      { destruct (Nat.eqb_spec (decisionLevel (asg s2)) 0) as [Hz|Hz]; [|by exists true, s2].
        destruct (simplify_ok K Kn As stk s2 Hr Hz) as (b & s3 & -> & S3 & Hb). exists b, s3. split; [done|]. split; [done|]. destruct b; [by destruct Hb as (? & ? & _)|done]. }
      cbn [rbind fst snd]. destruct b; cbn [negb].
      2:{ split; [by etrans|]. intros σ Hσ _. by apply (Hb σ). }
      destruct Hb as [I3 Q3].
      match goal with |- context [rbind ?m _] => assert (∃ s4, m = Ok s4 ∧ inv stk s4 ∧ quiet s4 ∧ same_stops (ctl s3) (ctl s4)) as (s4 & -> & I4 & Q4 & S4) end.
      { destruct (_ && _); [|by exists s3]. destruct (reduceDB_ok K Kn As stk s3 I3) as (s4 & -> & I4 & Ec & Et & El & Eq). cbn [rbind]. eexists. split; [done|].
        split; [by apply inv_ctl|]. split; [unfold quiet, nAssigns; cbn [asg set_ctl]; rewrite Et, Eq; exact Q3|]. cbn [ctl set_ctl]. by rewrite Ec. }
      cbn [rbind]. eapply wp_mono; [by apply (check_and_branch_ok cC stk)|]. intros r Hr'. apply (stepped_weaken _ (ctl s4)); [|done]. etrans; [exact S2|]. by etrans. }
  intros m Hm. eapply wp_mono; [exact Hm|]. intros r Hr. exists c. split; [done|]. split; [done|]. split; [by right|done].
Qed.

Lemma search_ok nof stk s : inv stk s → wp no_error (answered s) (search nof s).
Proof.
  intros I. unfold search. rewrite (mi_ok _ _ _ _ _ (si_mid _ _ _ _ _ I)). cbn [check rbind].
  destruct (checkTheory_ok K Kn As false 0 stk s I) as (r & n & s1 & -> & Ss & Ck). cbn [rbind]. destruct (stops_luby _ _ Ss) as [Lu St].
  assert ((∃ stk, inv stk s1) → wp no_error (answered s) (while (S (stop_after (ctl s1))) (search_round nof) (n, s1))) as Hw.
  { intros [stk1 I1]. apply (while_wp no_error _ (λ st : nat * Solver F Th, (∃ stk, inv stk st.2) ∧ same_luby (ctl s) (ctl st.2) ∧ stop_after (ctl st.2) ≤ stop_after (ctl s)) (λ st, stop_after (ctl st.2))).
    - intros [cC s2] ([stk2 I2] & L2 & P2). cbn [snd] in *. eapply wp_mono; [by apply (search_round_ok nof cC stk2)|]. intros r' (c & Lc & Hs & Hc & H0').
      assert (stop_after c ≤ stop_after (ctl s2)) as Hle by (destruct Hc as [Hz|Hc]; [destruct (H0' Hz) as (? & _ & ?); lia|lia]).
      assert (same_luby (ctl s) c) as Lsc by (unfold same_luby in *; naive_solver congruence).
      destruct r' as [[cC' s3]|[x s3]]; cbn [stepped] in Hs.
      + destruct Hs as [I3 S3]. destruct (stops_luby _ _ S3) as [L3 P3]. split; [|destruct Hc as [Hz|Hc]; [by destruct (H0' Hz) as (? & [=] & _)|cbn [snd]; lia]].
        split; [done|]. cbn [snd]. split; [unfold same_luby in *; naive_solver congruence|lia].
      + destruct Hs as [S3 Hx]. destruct (stops_luby _ _ S3) as [L3 P3]. split; [cbn [snd]; unfold same_luby in *; naive_solver congruence|]. split; [cbn [snd]; lia|exact Hx].
    - cbn [snd]. split; [by exists stk1|]. split; [done|lia].
    - cbn [snd]. apply Nat.lt_trans with (S (stop_after (ctl s1))); [lia|]. apply Nat.pow_gt_lin_r. lia. }
  destruct r; [done| | |].
  - split; [done|]. split; [cbn; lia|]. intros σ Hσ _. by apply (Ck σ).
  - by apply Hw.
  - destruct Ck as (I1 & _). apply Hw. by eexists.
Qed.

(** *** Restarts *)

(** The values of the sequence are looked up among the ones before. *)
Definition luby_ok (c : @Control F) : Prop := length (luby_previous c) = luby_i c ∧ 1 ≤ luby_k c ∧ 2 ^ (luby_k c - 1) ≤ S (luby_i c) ∧ S (luby_i c) ≤ 2 ^ luby_k c - 1.

Lemma luby_same c c' : same_luby c c' → luby_ok c → luby_ok c'.
Proof. intros (E1 & E2 & E3) L. unfold luby_ok. by rewrite E1, E2, E3. Qed.

Lemma restartNextLimit_ok nof s : luby_ok (ctl s) → ∃ n c, restartNextLimit nof s = Ok (n, set_ctl c s) ∧ luby_ok c ∧ stop_after c = stop_after (ctl s) ∧ skip_step c = skip_step (ctl s).
Proof.
  intros L. pose proof L as (El & Hk & Hlo & Hhi). unfold restartNextLimit. destruct (sat_use_luby_restart (config s)); [|exists (d_trunc (d_mul (d_of_Z nof) (restart_inc (config s)))), (ctl s); by destruct s].
  destruct (luby_k (ctl s)) as [|k] eqn:Ek; [lia|]. cbn [Nat.sub] in Hlo. rewrite Nat.sub_0_r in Hlo. pose proof (Nat.pow_succ_r' 2 k) as Ep. pose proof (Nat.pow_nonzero 2 k ltac:(lia)) as Hp.
  destruct (Nat.eqb_spec (S (luby_i (ctl s))) (2 ^ S k - 1)) as [E|E].
  - cbn [rbind fst snd]. eexists _, _. split; [done|]. split; [|done]. unfold luby_ok. cbn [luby_previous luby_i luby_k set_luby]. rewrite length_app, El. cbn [length Nat.sub]. pose proof (Nat.pow_succ_r' 2 (S k)). lia.
  - cbn [Nat.sub]. rewrite Nat.sub_0_r. assert (2 ≤ 2 ^ k) as Htwo by (destruct k; [cbn in *; lia|pose proof (Nat.pow_succ_r' 2 k); pose proof (Nat.pow_nonzero 2 k ltac:(lia)); lia]).
    destruct (lookup_lt_is_Some_2 (luby_previous (ctl s)) (S (luby_i (ctl s)) - 2 ^ k)) as [x Hx]; [lia|]. unfold at_. rewrite Hx. cbn [rbind fst snd]. eexists _, _. split; [done|]. split; [|done].
    unfold luby_ok. cbn [luby_previous luby_i luby_k set_luby]. rewrite length_app, El. cbn [length Nat.sub]. rewrite Nat.sub_0_r. lia.
Qed.

Lemma solve_loop_ok nof stk s : inv stk s → luby_ok (ctl s) →
  wp no_error (λ r : lbool * Solver F Th, match r.1 with
    | l_True => (∃ σ, model_of r.2 σ) ∧ asg_ok (asg r.2)
    | l_False => ∀ σ, kmodel K σ → ¬ satisfies σ As
    | l_Undef => True
    end) (while (S (stop_after (ctl s))) solve_round (nof, s)).
Proof.
  intros I L. apply (while_wp no_error _ (λ st : Z * Solver F Th, (∃ stk, inv stk st.2) ∧ luby_ok (ctl st.2)) (λ st, stop_after (ctl st.2))).
  - intros [nof1 s1] [[stk1 I1] L1]. cbn [snd] in *. unfold solve_round, okContinue. destruct (stop_after (ctl s1)) as [|n] eqn:En; cbn [negb]; [done|].
    set (s2 := set_ctl (set_stop_after n (ctl s1)) s1). assert (inv stk1 s2) as I2 by by apply inv_ctl. apply wp_bind. eapply wp_mono; [by apply (search_ok nof1 stk1)|].
    intros [x s3] (L3 & P3 & Hx). cbn [fst snd] in *. destruct (restartNextLimit_ok nof1 s3) as (n4 & c & -> & L4 & P4 & K4); [by apply (luby_same (ctl s2))|]. cbn [rbind fst snd].
    change (stop_after (ctl s2)) with n in P3. destruct (bool_decide_reflect (x = l_Undef)) as [->|Hne].
    + destruct Hx as [stk3 I3]. cbn [wp snd ctl set_ctl]. split; [|lia]. split; [|done]. exists stk3. by apply inv_ctl.
    + cbn [wp fst snd]. destruct x; [exact Hx|exact Hx|done].
  - cbn [snd]. split; [by exists stk|done].
  - cbn [snd]. apply Nat.lt_trans with (S (stop_after (ctl s))); [lia|]. apply Nat.pow_gt_lin_r. lia.
Qed.

End search.
